(* ===== verification/_CoqProject ===== *)
-Q . S2P
Prelude.v
Conc.v
ProgEq.v
Memory.v
Layout.v
Atomic.v
Random.v
ListShape.v
Interfaces.v
ListLf.v
Room.v
Contracts.v
Alloc.v
Hash.v
Ebr.v
AutoEbr.v
Smr.v
ListSmr.v
QueueLf.v
ListLock.v
Lfrc.v
Dw.v
ListProgram.v
Critical.v
LockSerial.v
Linear.v
McsLock.v
ListBody.v
SpinList.v
McsList.v
EbrProgram.v
Magazine.v
HashProgram.v
SmrProgram.v
ConcQueue.v
QueueProgram.v
Bench.v
BenchProgram.v
LfrcQueue.v
SpinQueue.v
SmrQueue.v
GcStack.v
SharedObject.v
SoCount.v
SoReclaim.v
SoClean.v
SoOps.v
SoProgram.v
SoEntry.v
SoMachine.v
SoLive.v
SoStart.v
SoFaults.v
Fun.v
HashMap.v
HashProbe.v
HashTable.v
HashOps.v
HashClient.v
ObjectMap.v
MessageQ.v
MessageConc.v
MessageProgram.v
Pagemap.v
Heap.v
HeapInv.v
HeapBits.v
HeapMem.v
HeapGc.v
HeapMark.v
HeapLists.v
HeapSweep.v
HeapEnd.v
HeapAlloc.v
HeapCopy.v
HeapProgram.v
HeapDestroy.v
HeapRun.v
