(* ===== verification/Prelude.v ===== *)
(** * Lock-free memory reclamation: a verification of lists, queues and the
      schemes that free their nodes

    The program is a set of benchmarks that link one data structure (a sorted
    list, a hash table of lists, or a FIFO queue), one scheme for freeing nodes
    that other threads may still be reading, and one allocator:

    - list_*.c implement list.h, queue_*.c implement queue.h, hash.c is a table
      of lists; the middle of the name says how threads are kept apart (lf:
      lock-free after Michael and Scott; cr: one writer with a lock, readers
      without; spinlock, mcslock: a lock around every operation), the end which
      scheme reclaims nodes;
    - ebr.c and auto_ebr.c (epochs), smr.c (hazard pointers), lfrc.c (reference
      counts), dw.c (windows of durations), lbr.c (nothing) implement mr.h;
    - allocator_malloc.c and allocator_magazine.c implement allocator.h;
    - test_list.c and test_queue.c are the programs' set-up and test loop,
      main.c starts the threads, random.c and backoff.c serve them.

    The Encore programs lf_list.enc and lf_queue.enc are compiled against a
    runtime of their own (encore-compiler/src/runtime), a fork of the Pony
    runtime to which encore/shared_object.c adds shared objects: containers whose
    links are counted, and whose decrements are delayed by epochs.  It calls the
    runtime's stacks (ds/stack.c), hash maps (ds/hash.c, ds/fun.c, used by
    gc/objectmap.c) and pools (mem/pool.c).  Actors receive messages through
    actor/messageq.c and allocate from a heap of their own, mem/heap.c, whose
    blocks are found through the page map, mem/pagemap.c.

    ** How the code is modelled

    A C function is a program of type [prog mem A] (Conc.v): a tree of atomic
    actions on the memory that ends in a value or an error.  [run] executes one
    thread, [exec] a pool of threads under an explicit schedule, one action at a
    time: sequential consistency, under which the barriers of arch/atomic.h are
    no actions of their own.  Memory (Memory.v) maps the address of an object to
    its size and its initialised words; an access outside a live object or to a
    word that was never written is the error [EAccess], a free of something else
    [EFree].  malloc is a parameter, the class [Malloc]: it answers NULL or a
    fresh aligned block; [MallocRoom] (Room.v) says that the next allocations
    succeed, and [bump] is a concrete malloc for the witnesses.  Structures are
    byte offsets (Layout.v: node.h, test.h); an element of an array of
    structures is an object of its own.  C integers are [Z] with the wrap-around
    of their width written out; marked pointers use the lowest bit, as in the
    code.  assert() is a check that fails with [EAssert].

    A loop takes fuel: it is unrolled that many times and then stops with
    [EFuel].  Every sequential theorem proves that a stated fuel is enough (the
    length of the list and the pending work of the reclamation scheme), so these
    are theorems of termination.  A spinning or retrying thread can be made to
    wait for any number of steps by the others: the theorems on interleavings
    exclude every error but [EFuel] and describe what the threads that finished
    have done.

    ** Files

    - Prelude, Conc, ProgEq, Memory, Layout, Atomic: machine words; programs,
      their two semantics, total correctness ([tot]) and a rely/guarantee logic
      ([rg], sound for [exec]); equivalence of programs; memory and symbolic
      execution; compare-and-swap, the spin lock and the MCS lock (spinlock.h,
      mcslock.h, util.c).
    - Interfaces, Room, Contracts: allocator.h, ebr.h/dw.h and list.h as type
      classes with the laws a client may use ([ReclaimerLaws], [RoomLaws],
      [SetLaws]); the proofs of the data structures use nothing else.
    - ListShape, ListLf, ListSmr, ListLock, Lfrc: the lists; QueueLf: the queues
      (queue_lf_lfrc.c and the lists with reference counts are in Lfrc).
    - Ebr, AutoEbr, Smr, Dw, Lfrc: the schemes; Alloc: the allocators; Hash;
      Random; Bench: test_list.c, test_queue.c, main.c, backoff.c, lbr.c.
    - ListProgram, EbrProgram, Magazine, HashProgram, SmrProgram, QueueProgram,
      BenchProgram, LfrcQueue, SmrQueue: whole programs run by one thread, from
      the static storage.
    - ConcQueue: queue_lf_ebr under every interleaving.  Critical, LockSerial:
      critical sections beside a lock at work, sequential histories, and
      serialisation by the spin lock.  Linear: clients that record what they
      invoke and get back, linearisability of such a record ([linearizes], with
      the real-time order of operations of different threads), its proof from the
      rely/guarantee proofs of single operations ([linear_pool]), and that
      recording changes nothing ([hist_covers]).  McsLock: the MCS lock; ListBody,
      SpinList, McsList: the two lists with a lock; SpinQueue: the queue with a
      lock, whose threads own nodes outside their critical sections.
    - The Encore runtime.  SharedObject: the operations of shared_object.c;
      SoCount, SoReclaim, SoClean, SoOps, SoProgram, SoEntry: the balance of
      counts, links and pending decrements and what each operation does to it;
      SoMachine: the container as a state machine and the refinement; SoLive:
      reclamation; SoStart: creation and the concrete instances; SoFaults: two
      faults.  GcStack: ds/stack.c.  Fun: ds/fun.c and the size classes of
      mem/pool.c.  HashMap, HashProbe, HashTable, HashOps, HashClient: ds/hash.c,
      its probe sequence, its table in memory and its clients; ObjectMap:
      gc/objectmap.c over it.  The collector ([Gc], [GcLaws]), the callbacks of a
      hash map ([HashFns], [HashLaws]) and the heap as objectmap.c sees it
      ([ObjHeap]) are classes.
      MessageQ, MessageConc, MessageProgram: actor/messageq.c, its invariant under
      interference and its threads.  Pagemap: mem/pagemap.c.
    - The heap of an actor, mem/heap.c.  Heap: its functions; HeapInv: the
      invariant (chunks, their lists, the page map, the bits of their slots) and
      the class [PagePool] of what the heap asks of the pools; HeapBits: masks
      and slots; HeapMem, HeapLists: stores and moves that keep the invariant;
      HeapGc, HeapMark, HeapSweep, HeapEnd: heap_startgc, heap_mark, the two
      sweeps and heap_endgc; HeapAlloc: heap_alloc; HeapCopy: the memcpy of
      heap_realloc; HeapProgram: the abstract
      heap and the refinement; HeapDestroy: heap_destroy; HeapRun: a concrete
      pool of pages, the runs of the witnesses, and two faults.

    ** What the theorems show

    - Refinement under concurrency, for any number of threads and every
      schedule, with no access error: the lists with a spin lock and with an MCS
      lock are linearisable to a set (real-time order included); the
      Michael-Scott queue with ebr.c and malloc and the queue with a spin lock
      have a sequential history of a FIFO queue that explains the answers of the
      threads that have finished, each in its program order (no real-time order
      is stated for these two); the queue with a spin lock leaks nothing; the
      message queue of an actor delivers in the order in which senders exchange
      its head, and its mark for an unscheduled actor is taken by exactly one of
      them.
    - Refinement of programs: list_lf_ebr, list_lf_smr, queue_lf_ebr,
      queue_lf_smr and hash.c, from the static storage through their
      initialisation, answer every sequence of operations as a set (a queue)
      does; queue_lf_lfrc is a queue bounded by its chunk of nodes, with exact
      reference counts, no node lost, and exit(-1) exactly where the nodes run
      out; releasing a chain of nodes terminates in one nested call per node.
    - Operations: insert, delete, search, enqueue and dequeue over any allocator
      and scheme that keep their contract; scan and free_node_later of smr.c free
      exactly the unprotected nodes; update_epoch and process_callbacks_epoch of
      ebr.c; the magazine allocator's pool; no operation of the generator on
      [long]s overflows on any seed, it computes the Park-Miller recurrence and
      has full period; the test loop of test_list.c does exactly the operations
      its random numbers stand for; the bounds of backoff.
    - The Encore runtime: calls of shared_object.c by one thread that respect
      the rules of [st_legal] (no frozen link at an entry, existing links, values
      the container may count) run as a machine with balanced counts while the
      other threads do not move; an object that has lost its last link is freed
      within three changes of the epoch, a bounded number of visits, while no
      other thread is inside; ds/hash.c is a finite map whose iterator visits
      every element once, objectmap.c keeps one record per address, mem/pagemap.c
      is a map from pages, ds/stack.c is a list; mem/heap.c is a set of disjoint
      objects, of which a collection keeps exactly those that are traced, with
      their bytes recounted, and heap_destroy leaves no page behind; size classes
      are least, next_pow2 is exact up to its overflow and hash_ptr has no
      collisions.
    - Errors: the comparison of smr.c is not an order on far pointers and a run
      of scan frees a protected node; critical sections of ebr.c are invisible
      (every update_epoch advances the epoch, whoever is inside) and retired nodes
      leak, because the code works on a copy of the thread's record; search of list_spinlock.c reads freed memory; negative keys in
      hash.c; seeds on which the generator is stuck; a benchmark of no elements
      divides by zero; auto_ebr.c allocates too little; dw.c reads [entry] and [address], which it
      never wrote; two threads in update_epoch of shared_object.c free what a third one
      reads, and a frozen link makes clean_list fault; SipHash of ds/fun.c ignores
      tails that begin with a byte of 128 or more; a large object freed by
      heap_free stays in the page map, with a chunk that is freed, and
      heap_realloc to no bytes reads outside a table.

    ** What is not modelled

    Weak memory (the barriers have no effect here); time, signals and thread
    creation (runtest of main.c, the clock functions of util.c); the statistics
    of util.c, which compute with doubles; test_hash.c, written for an older
    harness whose header is gone; aoa, a project of others; the Encore compiler
    and the rest of its runtime (scheduler, tracing, cycle detector), which the
    shared objects call and which are parameters here; encore/dw.c, an older
    shared_object.c that the build does not compile; the page management of
    mem/pool.c; heap_setnextgcfactor of mem/heap.c: the product of the factor, a
    double, with the bytes in use is a parameter.  The refinement of mem/heap.c
    is for one heap in the page map and says where objects are, not what they
    hold; in it a loop over a list of chunks or the pages of a block has fuel for
    more than all pages that the operations may need.  The link of
    an object is the word at offset 32, as clean_list takes it, and the fields of
    [so_gc] are an object of their own.  The functions of backoff.c are modelled
    as compiled with USE_BACKOFF; in the programs they are empty macros.  The
    functions of auto_ebr.c, dw.c, of the lists with reference counts and of
    those with concurrent readers are defined; what is proved of them is listed
    above.

    Assumptions on code that is not translated: [Qsort] (smr.c) sorts by a
    consistent comparator and permutes its array whatever the comparator answers,
    which ISO C promises only for consistent ones; [GcLaws]: gc/gc.c touches
    blocks of its own, not those of a container, with a bounded number of
    allocations per call; [this_thread()], its fields and [mynode], which
    allocator_magazine.c and list_mcslock.c use and no header declares, are the
    thread's record of Layout.v and a parameter; backoff_init() of setup_test is
    an empty macro of the build and is left out. *)
From stdpp Require Export base tactics option list numbers gmap fin_maps.
From Stdlib Require Export ZArith Lia Zquot Sorted Permutation.

#[global] Open Scope Z_scope.

(** ** Machine integers

    C integers are modelled by [Z] with the wrap-around of their width written
    out where the code can reach it. *)

Definition M32 : Z := 2 ^ 32.
Definition M64 : Z := 2 ^ 64.
Definition u8 (x : Z) : Z := x mod 2 ^ 8.
Definition u32 (x : Z) : Z := x mod M32.
Definition u64 (x : Z) : Z := x mod M64.
Definition i32 (x : Z) : Z := (x + 2 ^ 31) mod M32 - 2 ^ 31.
Definition i64 (x : Z) : Z := (x + 2 ^ 63) mod M64 - 2 ^ 63.
Definition b2z (b : bool) : Z := if b then 1 else 0.

Lemma u64_small (x : Z) : 0 <= x < M64 -> u64 x = x.
Proof. apply Z.mod_small. Qed.

Lemma u32_small (x : Z) : 0 <= x < M32 -> u32 x = x.
Proof. apply Z.mod_small. Qed.

Lemma u64_range (x : Z) : 0 <= u64 x < M64.
Proof. apply Z.mod_pos_bound. reflexivity. Qed.

Lemma u32_range (x : Z) : 0 <= u32 x < M32.
Proof. apply Z.mod_pos_bound. reflexivity. Qed.

Lemma i64_small (x : Z) : - 2 ^ 63 <= x < 2 ^ 63 -> i64 x = x.
Proof. unfold i64. change M64 with (2 * 2 ^ 63). intros. rewrite Z.mod_small; lia. Qed.

Lemma i32_small (x : Z) : - 2 ^ 31 <= x < 2 ^ 31 -> i32 x = x.
Proof. unfold i32. change M32 with (2 * 2 ^ 31). intros. rewrite Z.mod_small; lia. Qed.

Lemma i32_range (x : Z) : - 2 ^ 31 <= i32 x < 2 ^ 31.
Proof.
  unfold i32. pose proof (Z.mod_pos_bound (x + 2 ^ 31) M32 ltac:(reflexivity)).
  change M32 with (2 * 2 ^ 31) in *. lia.
Qed.

(** Pointer tagging: the lowest bit of an aligned pointer is a mark. *)

Lemma land1_even (p : Z) : p mod 2 = 0 -> Z.land p 1 = 0.
Proof. intros H. change 1 with (Z.ones 1). rewrite Z.land_ones by lia. exact H. Qed.

Lemma land1_odd (p : Z) : p mod 2 = 0 -> Z.land (p + 1) 1 = 1.
Proof.
  intros H. change 1 with (Z.ones 1) at 2. rewrite Z.land_ones by lia.
  change (2 ^ 1) with 2. rewrite Z.add_mod, H by lia. reflexivity.
Qed.

Lemma land_m2 (p : Z) : Z.land p (-2) = p - p mod 2.
Proof.
  change (-2) with (Z.lnot 1). rewrite <- Z.ldiff_land.
  change 1 with (Z.ones 1). rewrite Z.ldiff_ones_r by lia.
  rewrite Z.shiftr_div_pow2, Z.shiftl_mul_pow2 by lia.
  change (2 ^ 1) with 2. pose proof (Z.div_mod p 2). lia.
Qed.

Lemma land_m2_even (p : Z) : p mod 2 = 0 -> Z.land p (-2) = p.
Proof. intros H. rewrite land_m2. lia. Qed.

Lemma land_m2_odd (p : Z) : p mod 2 = 0 -> Z.land (p + 1) (-2) = p.
Proof. intros H. rewrite land_m2, Z.add_mod, H by lia. change ((0 + 1 mod 2) mod 2) with 1. lia. Qed.

(** Marking an aligned pointer does not wrap around. *)
Lemma u64_mark (p : Z) : p mod 2 = 0 -> 0 <= p < M64 -> u64 (p + 1) = p + 1.
Proof.
  intros He Hr. apply u64_small. assert (p <> M64 - 1); [|lia].
  intros ->. vm_compute in He. discriminate.
Qed.

(** Blocks from malloc are aligned. *)
Lemma mod16_even (a : Z) : a mod 16 = 0 -> a mod 2 = 0.
Proof. intros. Z.to_euclidean_division_equations. lia. Qed.
