(* ===== verification/Conc.v ===== *)
(** * Programs as sequences of atomic actions

    A C function is a [prog S A]: a tree of atomic actions on a shared state
    [S] that ends in a value of type [A] or in an error.  The same program has
    two executable semantics:

    - [run], the execution of one thread alone, and
    - [exec], the interleaving of a pool of threads by an explicit schedule
      (a list of thread numbers), under sequential consistency.

    [tot] is total correctness of [run]; [rg] is a rely/guarantee logic for
    [exec] with auxiliary (ghost) state, proved sound in [rg_sound]. *)
From S2P Require Export Prelude.

(** What can end a thread abnormally. *)
Inductive err : Set :=
| EAccess            (* a load or store outside a live, initialised object *)
| EFree              (* free of something that is not a live object *)
| EAssert            (* a failed assert() *)
| EAbort             (* abort() *)
| EArith             (* an integer division by zero *)
| EOverflow          (* a signed result that does not fit its type *)
| EExit (code : Z)   (* exit(code) *)
| EFuel.             (* the unrolling of a loop was cut *)

#[export] Instance err_eq_dec : EqDecision err.
Proof. solve_decision. Defined.

Inductive outcome (A : Type) : Type :=
| Ok (a : A)
| Err (e : err).
Arguments Ok {A} a.
Arguments Err {A} e.

Inductive prog (S A : Type) : Type :=
| Ret (a : A)
| Stop (e : err)
| Atomic (R : Set) (f : S -> outcome (R * S)) (k : R -> prog S A).
Arguments Ret {S A} a.
Arguments Stop {S A} e.
Arguments Atomic {S A} R f k.

Fixpoint pbind {S A B : Type} (k : A -> prog S B) (p : prog S A) : prog S B :=
  match p with
  | Ret a => k a
  | Stop e => Stop e
  | Atomic R f k' => Atomic R f (fun r => pbind k (k' r))
  end.

#[export] Instance prog_ret S : MRet (prog S) := fun A => Ret.
#[export] Instance prog_bind S : MBind (prog S) := fun A B => pbind.

(** A single atomic action. *)
Definition act {S : Type} {R : Set} (f : S -> outcome (R * S)) : prog S R :=
  Atomic R f Ret.

(** A loop: the body maps the loop's variables to their next values ([inl])
    or leaves the loop with a result ([inr]). [fuel] bounds the unrolling. *)
Fixpoint loop {S St A : Type} (fuel : nat) (body : St -> prog S (St + A)) (st : St)
  : prog S A :=
  match fuel with
  | O => Stop EFuel
  | Datatypes.S n =>
      pbind (fun r => match r with inl st' => loop n body st' | inr a => Ret a end)
        (body st)
  end.

(** [for (i = from; i < from + n; i++) body(i)]: a counted loop needs no fuel. *)
Fixpoint forz {S : Type} (n : nat) (from : Z) (body : Z -> prog S unit) : prog S unit :=
  match n with
  | O => Ret tt
  | Datatypes.S n' => pbind (fun _ => forz n' (from + 1) body) (body from)
  end.

(** ** Execution of one thread *)

Fixpoint run {S A : Type} (p : prog S A) (s : S) : outcome (A * S) :=
  match p with
  | Ret a => Ok (a, s)
  | Stop e => Err e
  | Atomic _ f k =>
      match f s with
      | Ok (r, s') => run (k r) s'
      | Err e => Err e
      end
  end.

Lemma run_bind {S A B} (p : prog S A) (k : A -> prog S B) s :
  run (pbind k p) s =
  match run p s with Ok (a, s') => run (k a) s' | Err e => Err e end.
Proof.
  revert s; induction p as [a|e|R f k' IH]; intros s; simpl; auto.
  destruct (f s) as [[r s']|e]; auto.
Qed.

Lemma pbind_ret {S A} (p : prog S A) s : run (pbind Ret p) s = run p s.
Proof. rewrite run_bind. destruct (run p s) as [[]|]; auto. Qed.

(** Total correctness: the run ends without an error and [Q] holds at the end. *)
Definition tot {S A : Type} (p : prog S A) (s : S) (Q : A -> S -> Prop) : Prop :=
  match run p s with Ok (a, s') => Q a s' | Err _ => False end.

Lemma tot_ret {S A} (a : A) (s : S) (Q : A -> S -> Prop) : Q a s -> tot (Ret a) s Q.
Proof. auto. Qed.

Lemma tot_bind {S A B} (p : prog S A) (k : A -> prog S B) s (Q : B -> S -> Prop) :
  tot p s (fun a s' => tot (k a) s' Q) -> tot (pbind k p) s Q.
Proof. unfold tot. rewrite run_bind. destruct (run p s) as [[a s']|]; auto. Qed.

Lemma tot_bind_inv {S A B} (p : prog S A) (k : A -> prog S B) s (Q : B -> S -> Prop) :
  tot (pbind k p) s Q -> tot p s (fun a s' => tot (k a) s' Q).
Proof. unfold tot. rewrite run_bind. destruct (run p s) as [[a s']|]; auto. Qed.

Lemma tot_mono {S A} (p : prog S A) s (P Q : A -> S -> Prop) :
  tot p s P -> (forall a s', P a s' -> Q a s') -> tot p s Q.
Proof. unfold tot. destruct (run p s) as [[a s']|]; auto. Qed.

Lemma tot_and {S A} (p : prog S A) s (P Q : A -> S -> Prop) :
  tot p s P -> tot p s Q -> tot p s (fun a s' => P a s' /\ Q a s').
Proof. unfold tot. destruct (run p s) as [[a s']|]; auto. Qed.

(** The postcondition may use the exact result of the run. *)
Lemma tot_run {S A} (p : prog S A) s (Q : A -> S -> Prop) :
  tot p s Q -> exists a s', run p s = Ok (a, s') /\ Q a s'.
Proof. unfold tot. destruct (run p s) as [[a s']|]; eauto. contradiction. Qed.

Lemma run_tot {S A} (p : prog S A) s a s' (Q : A -> S -> Prop) :
  run p s = Ok (a, s') -> Q a s' -> tot p s Q.
Proof. unfold tot. intros ->. auto. Qed.

Lemma tot_act {S : Type} {R : Set} (f : S -> outcome (R * S)) s (Q : R -> S -> Prop) r s' :
  f s = Ok (r, s') -> Q r s' -> tot (act f) s Q.
Proof. unfold tot, act. simpl. intros ->. auto. Qed.

(** A loop terminates when every iteration either leaves it or decreases a
    natural measure bounded by the fuel; [I] is the loop invariant. *)
Lemma tot_loop {S St A} (I : nat -> St -> S -> Prop) (Q : A -> S -> Prop)
    (body : St -> prog S (St + A)) :
  (forall n st s, I n st s ->
     tot (body st) s (fun r s' => match r with
       | inl st' => exists n', (n' < n)%nat /\ I n' st' s'
       | inr a => Q a s' end)) ->
  forall fuel n st s, (n < fuel)%nat -> I n st s -> tot (loop fuel body st) s Q.
Proof.
  intros Hb fuel. induction fuel as [|fuel IH]; intros n st s Hn HI; [lia|].
  simpl. apply tot_bind. eapply tot_mono; [exact (Hb _ _ _ HI)|].
  intros [st'|a] s'; simpl; [|intros; apply tot_ret; auto].
  intros (n' & Hn' & HI'). apply (IH n'); auto. lia.
Qed.

Lemma tot_loop_S {S St A} fuel (body : St -> prog S (St + A)) st s (Q : A -> S -> Prop) :
  tot (body st) s (fun r s' => match r with
    | inl st' => tot (loop fuel body st') s' Q
    | inr a => Q a s' end) ->
  tot (loop (Datatypes.S fuel) body st) s Q.
Proof.
  intros H. simpl. apply tot_bind. eapply tot_mono; [exact H|].
  intros [st'|a] s'; auto.
Qed.

(** A loop that is left in its first iteration. *)
Lemma tot_loop_exit {S St A} fuel (body : St -> prog S (St + A)) st s (Q : A -> S -> Prop) :
  (0 < fuel)%nat ->
  tot (body st) s (fun r s' => match r with inl _ => False | inr a => Q a s' end) ->
  tot (loop fuel body st) s Q.
Proof.
  intros Hf H. destruct fuel as [|f]; [lia|]. apply tot_loop_S.
  eapply tot_mono; [exact H|]. intros [st'|a] s'; auto. contradiction.
Qed.

Lemma tot_forz {S} (I : nat -> S -> Prop) (body : Z -> prog S unit) (from : Z) (n : nat) s :
  (forall i s, (i < n)%nat -> I i s ->
     tot (body (from + Z.of_nat i)) s (fun _ s' => I (Datatypes.S i) s')) ->
  I O s -> tot (forz n from body) s (fun _ s' => I n s').
Proof.
  intros Hb H0. cut (forall k j s, (j + k = n)%nat -> I j s ->
    tot (forz k (from + Z.of_nat j) body) s (fun _ s' => I n s')).
  { intros H. specialize (H n O s). rewrite Z.add_0_r in H. auto. }
  induction k as [|k IH]; intros j t Hj HI; simpl.
  - apply tot_ret. replace n with j by lia. auto.
  - apply tot_bind. eapply tot_mono; [apply Hb; [lia|exact HI]|].
    intros a s' HI'. specialize (IH (Datatypes.S j) s').
    replace (from + Z.of_nat j + 1) with (from + Z.of_nat (Datatypes.S j)) by lia.
    apply IH; auto. lia.
Qed.

(** ** Failing runs *)

(** A program that fails after one that succeeds, and before any other. *)
Lemma run_bind_tot {S A B} (p : prog S A) (k : A -> prog S B) s e :
  tot p s (fun a s' => run (k a) s' = Err e) -> run (pbind k p) s = Err e.
Proof. unfold tot. rewrite run_bind. by destruct (run p s) as [[a s']|]. Qed.

Lemma run_bind_err {S A B} (p : prog S A) (k : A -> prog S B) s e :
  run p s = Err e -> run (pbind k p) s = Err e.
Proof. rewrite run_bind. by intros ->. Qed.

Lemma run_loop_err {S St A} fuel (body : St -> prog S (St + A)) st s e :
  (0 < fuel)%nat -> run (body st) s = Err e -> run (loop fuel body st) s = Err e.
Proof. intros Hf H. destruct fuel as [|f]; [lia|]. by apply run_bind_err. Qed.

Lemma run_bind_assoc {S A B C} (p : prog S A) (f : A -> prog S B) (g : B -> prog S C) s :
  run (pbind (fun a => pbind g (f a)) p) s = run (pbind g (pbind f p)) s.
Proof. rewrite !run_bind. destruct (run p s) as [[a s']|]; [by rewrite run_bind|done]. Qed.

(** ** Interleaved execution of a pool of threads *)

Definition pstep {S A : Type} (p : prog S A) (s : S) : outcome (prog S A * S) :=
  match p with
  | Ret a => Ok (Ret a, s)
  | Stop e => Err e
  | Atomic _ f k =>
      match f s with
      | Ok (r, s') => Ok (k r, s')
      | Err e => Err e
      end
  end.

Fixpoint exec {S A : Type} (sched : list nat) (ps : list (prog S A)) (s : S)
  : outcome (list (prog S A) * S) :=
  match sched with
  | [] => Ok (ps, s)
  | i :: sched' =>
      match ps !! i with
      | None => exec sched' ps s
      | Some p =>
          match pstep p s with
          | Ok (p', s') => exec sched' (<[i := p']> ps) s'
          | Err e => Err e
          end
      end
  end.

Definition finished {S A : Type} (p : prog S A) : option A :=
  match p with Ret a => Some a | _ => None end.

Lemma exec_app {S A} sc1 sc2 (ps : list (prog S A)) s :
  exec (sc1 ++ sc2) ps s =
  match exec sc1 ps s with Ok (ps', s') => exec sc2 ps' s' | Err e => Err e end.
Proof.
  revert ps s. induction sc1 as [|i sc1 IH]; intros ps s; simpl; auto.
  destruct (ps !! i); auto. destruct (pstep p s) as [[p' s']|]; auto.
Qed.

Lemma exec_length {S A} sched (ps : list (prog S A)) s ps' s' :
  exec sched ps s = Ok (ps', s') -> length ps' = length ps.
Proof.
  revert ps s. induction sched as [|i sched IH]; intros ps s; simpl; [by intros [= <- _]|].
  destruct (ps !! i); [|apply IH]. destruct (pstep p s) as [[p' s1]|]; [|done].
  intros H. apply IH in H. by rewrite length_insert in H.
Qed.

(** One thread scheduled alone runs as [run] says. *)
Lemma exec_single {S A} (p : prog S A) s a s' :
  run p s = Ok (a, s') -> exists n, exec (replicate n O) [p] s = Ok ([Ret a], s').
Proof.
  revert s. induction p as [a0|e|R f k IH]; intros s H; simpl in H.
  - injection H as -> ->. exists O. auto.
  - discriminate.
  - destruct (f s) as [[r s1]|e] eqn:Hf; [|discriminate].
    destruct (IH r s1 H) as [n Hn]. exists (Datatypes.S n). simpl. rewrite Hf. exact Hn.
Qed.

(** ** Rely/guarantee reasoning

    [rg R G p Q x]: from the state [x] (shared state and ghost state), with
    the other threads making [R]-steps between the actions of [p], no action
    of [p] fails, each is a [G]-step for a ghost update of the prover's choice,
    and [Q] holds when [p] returns. *)

Section rely_guarantee.
Context {S Gh : Type}.
Implicit Types (R G : S * Gh -> S * Gh -> Prop) (x : S * Gh).

Fixpoint rg {A : Type} R G (p : prog S A) (Q : A -> S * Gh -> Prop) x : Prop :=
  match p with
  | Ret a => Q a x
  | Stop e => e = EFuel
  | Atomic _ f k =>
      forall x', R x x' ->
      match f (fst x') with
      | Ok (r, s2) => exists g2, G x' (s2, g2) /\ rg R G (k r) Q (s2, g2)
      | Err e => e = EFuel
      end
  end.

Lemma rg_mono {A} R G (p : prog S A) (P Q : A -> S * Gh -> Prop) x :
  rg R G p P x -> (forall a x, P a x -> Q a x) -> rg R G p Q x.
Proof.
  intros H HPQ. revert x H. induction p as [a|e|T f k IH]; simpl; auto.
  intros x H x' HR. specialize (H x' HR).
  destruct (f (fst x')) as [[r s2]|]; auto.
  destruct H as (g2 & HG & H). eauto.
Qed.

(** A weaker guarantee. *)
Lemma rg_weaken {A} R G G' (p : prog S A) (Q : A -> S * Gh -> Prop) x :
  rg R G p Q x -> (forall y z, G y z -> G' y z) -> rg R G' p Q x.
Proof.
  intros H HG. revert x H. induction p as [a|e|T f k IH]; simpl; auto.
  intros x H x' HR. specialize (H x' HR).
  destruct (f (fst x')) as [[r s2]|]; auto.
  destruct H as (g2 & HG2 & H). eauto.
Qed.

Lemma rg_bind {A B} R G (p : prog S A) (k : A -> prog S B) (Q : B -> S * Gh -> Prop) x :
  rg R G p (fun a x' => rg R G (k a) Q x') x -> rg R G (pbind k p) Q x.
Proof.
  revert x. induction p as [a|e|T f k' IH]; simpl; auto.
  intros x H x' HR. specialize (H x' HR).
  destruct (f (fst x')) as [[r s2]|]; auto.
  destruct H as (g2 & HG & H). eauto.
Qed.

Lemma rg_act {T : Set} R G (f : S -> outcome (T * S)) (Q : T -> S * Gh -> Prop) x :
  (forall x', R x x' -> exists r s2 g2, f (fst x') = Ok (r, s2) /\ G x' (s2, g2) /\ Q r (s2, g2)) ->
  rg R G (act f) Q x.
Proof.
  intros H x' HR. destruct (H x' HR) as (r & s2 & g2 & -> & HG & HQ). eauto.
Qed.

Lemma rg_loop {St A} R G (I : St -> S * Gh -> Prop) (Q : A -> S * Gh -> Prop)
    (body : St -> prog S (St + A)) fuel :
  (forall st x, I st x ->
     rg R G (body st) (fun r x' => match r with inl st' => I st' x' | inr a => Q a x' end) x) ->
  forall st x, I st x -> rg R G (loop fuel body st) Q x.
Proof.
  intros Hb. induction fuel as [|fuel IH]; intros st x HI; simpl; auto.
  apply rg_bind. eapply rg_mono; [exact (Hb st x HI)|].
  intros [st'|a] x'; simpl; auto.
Qed.

Lemma rg_forz R G (I : Z -> S * Gh -> Prop) (body : Z -> prog S unit) n from :
  (forall i x, I i x -> rg R G (body i) (fun _ x' => I (i + 1) x') x) ->
  forall x, I from x -> rg R G (forz n from body) (fun _ x' => I (from + Z.of_nat n) x') x.
Proof.
  intros Hb. revert from. induction n as [|n IH]; intros from x HI; simpl.
  - rewrite Z.add_0_r. auto.
  - apply rg_bind. eapply rg_mono; [exact (Hb from x HI)|]. simpl. intros _ x' HI'.
    replace (from + Z.of_nat (Datatypes.S n)) with (from + 1 + Z.of_nat n) by lia.
    exact (IH _ _ HI').
Qed.

(** A step of the environment first. *)
Lemma rg_stable {A} R G `{!Transitive R} (p : prog S A) (Q : A -> S * Gh -> Prop) x x' :
  (forall a y y', Q a y -> R y y' -> Q a y') ->
  rg R G p Q x -> R x x' -> rg R G p Q x'.
Proof.
  intros HQ. destruct p as [a|e|T f k]; simpl; eauto.
  intros H HR y Hy. apply H. etransitivity; eauto.
Qed.

(** A pool of threads, each verified against the guarantees of the others,
    never fails, and in every reachable state each thread satisfies its
    specification from there on. *)
Section pool.
Context {A : Type}.
Variables (R G : nat -> S * Gh -> S * Gh -> Prop) (Q : nat -> A -> S * Gh -> Prop).
Context `{!forall i, PreOrder (R i)}.
Hypothesis Hcompat : forall i j x y, i <> j -> G j x y -> R i x y.
Hypothesis Hstable : forall i a y y', Q i a y -> R i y y' -> Q i a y'.

Definition pool_ok (ps : list (prog S A)) x : Prop :=
  forall i p, ps !! i = Some p -> rg (R i) (G i) p (Q i) x.

(** [J] is a property every step keeps. *)
Variable J : S * Gh -> Prop.
Hypothesis HJ : forall i x y, G i x y -> J x -> J y.

Lemma pool_step ps s g i p :
  pool_ok ps (s, g) -> J (s, g) -> ps !! i = Some p ->
  match pstep p s with
  | Ok (p', s') => exists g', pool_ok (<[i := p']> ps) (s', g') /\ J (s', g')
  | Err e => e = EFuel
  end.
Proof.
  intros Hok HJx Hi. pose proof (Hok i p Hi) as Hp. destruct p as [a|e|T f k]; simpl in *; auto.
  - exists g. rewrite list_insert_id by exact Hi. auto.
  - specialize (Hp (s, g) (reflexivity _)). simpl in Hp.
    destruct (f s) as [[r s2]|e]; auto. destruct Hp as (g2 & HG & Hr).
    exists g2. split; [|by eapply HJ]. intros j q Hj. destruct (decide (i = j)) as [<-|Hne].
    + rewrite list_lookup_insert_eq in Hj by (apply lookup_lt_Some in Hi; auto).
      by injection Hj as <-.
    + rewrite list_lookup_insert_ne in Hj by auto.
      eapply rg_stable; [apply _|apply Hstable|apply Hok, Hj|]. eapply Hcompat; [|exact HG]. congruence.
Qed.

Lemma rg_sound sched ps s g :
  pool_ok ps (s, g) -> J (s, g) ->
  match exec sched ps s with
  | Ok (ps', s') => exists g', pool_ok ps' (s', g') /\ J (s', g')
  | Err e => e = EFuel
  end.
Proof.
  revert ps s g. induction sched as [|i sched IH]; intros ps s g Hok HJx; simpl; eauto.
  destruct (ps !! i) as [p|] eqn:Hi; [|exact (IH _ _ _ Hok HJx)].
  pose proof (pool_step ps s g i p Hok HJx Hi) as Hs.
  destruct (pstep p s) as [[p' s']|e]; auto. destruct Hs as (g' & Hg' & HJ').
  exact (IH _ _ _ Hg' HJ').
Qed.
End pool.
End rely_guarantee.

#[global] Arguments pbind {S A B} k p : simpl never.
#[global] Arguments act {S R} f : simpl never.
#[global] Arguments loop {S St A} fuel body st : simpl never.
#[global] Arguments forz {S} n from body : simpl never.

(** ** Notation and automation for programs *)

Declare Scope prog_scope.
Delimit Scope prog_scope with prog.
Notation "x <- p ;; q" := (pbind (fun x => q) p)
  (at level 100, p at next level, right associativity, format "x  <-  p ;;  '//' q") : prog_scope.
Notation "p ;; q" := (pbind (fun _ => q) p)
  (at level 100, right associativity, format "p ;;  '//' q") : prog_scope.
#[global] Open Scope prog_scope.

(** [return e] of a C function and the two ways a loop body ends. *)
Notation "'continue' st" := (Ret (inl st)) (at level 10, only parsing) : prog_scope.
Notation "'break' a" := (Ret (inr a)) (at level 10, only parsing) : prog_scope.

(** C assertions and process termination. *)
Definition assert_ {S : Type} (b : bool) : prog S unit :=
  if b then Ret tt else Stop EAssert.
Definition abort {S A : Type} : prog S A := Stop EAbort.
Definition exit_ {S A : Type} (code : Z) : prog S A := Stop (EExit code).

Create HintDb prog discriminated.
