(* ===== verification/ProgEq.v ===== *)
(** * Programs that do the same actions

    Two programs are equivalent when they are the same tree of actions up to
    the pointwise equality of continuations.  Sequencing and loops respect the
    equivalence, so the places where a function leaves its loop can be brought
    together: code that releases a lock in each branch before it returns is
    equivalent to a body followed by one release. *)
From S2P Require Export Conc.
From Stdlib Require Import Setoid Morphisms.

Fixpoint peq {S A : Type} (p q : prog S A) : Prop :=
  match p with
  | Ret a => q = Ret a
  | Stop e => q = Stop e
  | Atomic R f k => exists k', q = Atomic R f k' /\ forall r, peq (k r) (k' r)
  end.

Declare Scope peq_scope.
Delimit Scope peq_scope with peq.
Infix "≈" := peq (at level 70, no associativity) : peq_scope.
#[global] Open Scope peq_scope.

#[export] Instance peq_equivalence {S A} : Equivalence (@peq S A).
Proof.
  split.
  - intros p. induction p as [a|e|R f k IH]; simpl; eauto.
  - intros p. induction p as [a|e|R f k IH]; intros q; simpl; [by intros ->|by intros ->|].
    intros (k' & -> & H). exists k. split; [done|]. intros r. by apply IH.
  - intros p. induction p as [a|e|R f k IH]; intros q q'; simpl; [by intros ->|by intros ->|].
    intros (k' & -> & H) (k'' & -> & H'). exists k''. split; [done|]. intros r. by eapply IH.
Qed.

#[export] Instance pbind_peq {S A B} :
  Proper (pointwise_relation A peq ==> peq ==> peq) (@pbind S A B).
Proof.
  intros k k' Hk p. induction p as [a|e|R f k0 IH]; intros q; simpl; [intros ->; apply Hk|by intros ->|].
  intros (k1 & -> & H). simpl. eexists. split; [done|]. intros r. by apply IH.
Qed.

Lemma peq_bind {S A B} (p : prog S A) (k k' : A -> prog S B) :
  (forall a, k a ≈ k' a) -> pbind k p ≈ pbind k' p.
Proof. intros H. apply pbind_peq; [exact H|done]. Qed.

Lemma peq_assoc {S A B C} (p : prog S A) (f : A -> prog S B) (g : B -> prog S C) :
  pbind g (pbind f p) ≈ pbind (fun a => pbind g (f a)) p.
Proof. induction p as [a|e|R f' k IH]; simpl; [done|done|]. eauto. Qed.

Lemma peq_bind_ret {S A} (p : prog S A) : pbind Ret p ≈ p.
Proof. induction p as [a|e|R f k IH]; simpl; [done|done|]. eauto. Qed.

Lemma peq_if {S A} (b : bool) (p p' q q' : prog S A) :
  p ≈ p' -> q ≈ q' -> (if b then p else q) ≈ (if b then p' else q').
Proof. by destruct b. Qed.

(** What follows a loop, done at its exits. *)
Lemma peq_loop {S St A B} fuel (body : St -> prog S (St + A)) (body' : St -> prog S (St + B)) (k : A -> prog S B) st :
  (forall st, body' st ≈ pbind (fun r => match r with
     | inl st' => Ret (inl st') | inr a => pbind (fun b => Ret (inr b)) (k a) end) (body st)) ->
  loop fuel body' st ≈ pbind k (loop fuel body st).
Proof.
  intros H. revert st. induction fuel as [|fuel IH]; intros st; [done|].
  change (loop (Datatypes.S fuel) body' st) with
    (pbind (fun r => match r with inl st' => loop fuel body' st' | inr a => Ret a end) (body' st)).
  change (loop (Datatypes.S fuel) body st) with
    (pbind (fun r => match r with inl st' => loop fuel body st' | inr a => Ret a end) (body st)).
  rewrite (H st), !peq_assoc. apply peq_bind. intros [st'|a]; simpl; [apply IH|].
  rewrite peq_assoc. simpl. apply peq_bind_ret.
Qed.

(** ** The equivalence and the two semantics *)
Lemma run_peq {S A} (p q : prog S A) s : p ≈ q -> run p s = run q s.
Proof.
  revert q s. induction p as [a|e|R f k IH]; intros q s; simpl; [by intros ->|by intros ->|].
  intros (k' & -> & H). simpl. destruct (f s) as [[r s']|]; [by apply IH|done].
Qed.

Lemma rg_peq {S Gh A} (R G : relation (S * Gh)) (p q : prog S A) (Q : A -> S * Gh -> Prop) x :
  p ≈ q -> rg R G p Q x -> rg R G q Q x.
Proof.
  revert q x. induction p as [a|e|T f k IH]; intros q x; simpl; [by intros ->|by intros ->|].
  intros (k' & -> & H) Hp x' HR. specialize (Hp x' HR). destruct (f x'.1) as [[r s2]|]; [|done].
  destruct Hp as (g2 & HG & Hp). exists g2. split; [done|]. by eapply IH.
Qed.
