(* ===== verification/Memory.v ===== *)
(** * The C memory

    A memory is a finite map from the addresses of live objects to the
    objects; an object has a size and its initialised fields by byte offset.
    A location is an object and an offset: [&p->f] is [(p, OFF_f)].  Pointers
    and integers are both machine words ([Z]), so marked pointers are ordinary
    words.  A load or store outside a live object, past its size, or of an
    uninitialised field is the error [EAccess]; [free] of anything but a live
    object is [EFree].  malloc is a parameter with its documented behaviour. *)
From S2P Require Export Conc.

Record obj : Set := Obj { osize : Z; ofields : gmap Z Z }.
Abbreviation mem := (gmap Z obj).
Abbreviation loc := (Z * Z)%type.

#[export] Instance obj_eq_dec : EqDecision obj.
Proof. solve_decision. Defined.

Abbreviation NULL := 0 (only parsing).

Definition live (m : mem) (b : Z) : Prop := is_Some (m !! b).

Definition get (m : mem) (l : loc) : option Z :=
  match m !! l.1 with Some o => ofields o !! l.2 | None => None end.

Definition inb (m : mem) (l : loc) : bool :=
  match m !! l.1 with
  | Some o => (0 <=? l.2) && (l.2 <? osize o)
  | None => false
  end.

Definition upd (m : mem) (l : loc) (v : Z) : mem :=
  alter (fun o => Obj (osize o) (<[l.2 := v]> (ofields o))) l.1 m.

(** ** Atomic actions *)

Definition load (l : loc) : prog mem Z :=
  act (fun m => match get m l with Some v => Ok (v, m) | None => Err EAccess end).

Definition store (l : loc) (v : Z) : prog mem unit :=
  act (fun m => if inb m l then Ok (tt, upd m l v) else Err EAccess).

(** Read-modify-write: the new value from the old one, the old one returned. *)
Definition rmw (l : loc) (f : Z -> Z) : prog mem Z :=
  act (fun m => match get m l with Some v => Ok (v, upd m l (f v)) | None => Err EAccess end).

#[global] Arguments load l : simpl never.
#[global] Arguments store l v : simpl never.
#[global] Arguments rmw l f : simpl never.

(** ** malloc and free *)

Class Malloc := {
  malloc_addr : mem -> Z -> Z;
  (* no live object lies in the block returned *)
  malloc_fresh : forall m sz b, malloc_addr m sz <> NULL ->
    malloc_addr m sz <= b < malloc_addr m sz + Z.max 1 sz -> m !! b = None;
  malloc_aligned : forall m sz, malloc_addr m sz mod 16 = 0;
  malloc_range : forall m sz, malloc_addr m sz <> NULL ->
    0 < malloc_addr m sz /\ malloc_addr m sz + Z.max 1 sz <= M64
}.

Definition new_obj `{Malloc} (o : obj) : prog mem Z :=
  act (fun m => let a := malloc_addr m (osize o) in
    if a =? NULL then Ok (NULL, m) else Ok (a, <[a := o]> m)).

Definition malloc `{Malloc} (sz : Z) : prog mem Z := new_obj (Obj sz ∅).

(** An array of [n] structures: its elements, objects of their own, are adjacent
    in the block. *)
Fixpoint put_array (n : nat) (a : Z) (o : obj) (m : mem) : mem :=
  match n with
  | O => m
  | S n' => <[a := o]> (put_array n' (a + osize o) o m)
  end.

Definition malloc_array `{Malloc} (n : nat) (sz : Z) : prog mem Z :=
  act (fun m => let a := malloc_addr m (Z.of_nat n * sz) in
    if a =? NULL then Ok (NULL, m) else Ok (a, put_array n a (Obj sz ∅) m)).

(** [calloc(n, sz)]: [n] elements whose fields (offsets [fs]) are zero. *)
Definition zero_fields (fs : list Z) : gmap Z Z :=
  list_to_map (map (fun f => (f, 0)) fs).

Definition calloc `{Malloc} (n : nat) (sz : Z) (fs : list Z) : prog mem Z :=
  new_obj (Obj (Z.of_nat n * sz)
    (zero_fields (flat_map (fun i => map (fun f => Z.of_nat i * sz + f) fs) (seq 0 n)))).

Definition free (p : Z) : prog mem unit :=
  act (fun m => if p =? NULL then Ok (tt, m)
    else match m !! p with Some _ => Ok (tt, delete p m) | None => Err EFree end).

(** ** Laws of the memory *)

Section memory_laws.
Implicit Types (m : mem) (l : loc).

Lemma live_get m l v : get m l = Some v -> live m l.1.
Proof. unfold get, live. destruct (m !! l.1); simpl; eauto; discriminate. Qed.

Lemma inb_live m l : inb m l = true -> live m l.1.
Proof. unfold inb, live. destruct (m !! l.1); eauto; discriminate. Qed.

Lemma live_upd m l v b : live (upd m l v) b <-> live m b.
Proof. unfold live, upd. rewrite lookup_alter_is_Some. auto. Qed.

Lemma lookup_upd_ne m l v b : b <> l.1 -> upd m l v !! b = m !! b.
Proof. intros. unfold upd. rewrite lookup_alter_ne; auto. Qed.

Lemma get_upd_eq m l v : live m l.1 -> get (upd m l v) l = Some v.
Proof.
  intros [o Ho]. unfold get, upd. rewrite lookup_alter_eq, Ho. simpl.
  apply lookup_insert_eq.
Qed.

Lemma get_upd_ne m l l' v : l <> l' -> get (upd m l v) l' = get m l'.
Proof.
  intros Hne. unfold get, upd. destruct (decide (l.1 = l'.1)) as [E|E].
  - rewrite <- E, lookup_alter_eq. destruct (m !! l.1) as [o|]; simpl; auto.
    apply lookup_insert_ne. intros E2. apply Hne. destruct l, l'; simpl in *; congruence.
  - rewrite lookup_alter_ne; auto.
Qed.

Lemma inb_upd m l l' v : inb (upd m l v) l' = inb m l'.
Proof.
  unfold inb, upd. destruct (decide (l.1 = l'.1)) as [E|E].
  - rewrite <- E, lookup_alter_eq. destruct (m !! l.1); auto.
  - rewrite lookup_alter_ne; auto.
Qed.

Lemma get_lookup_eq m m' b off : m' !! b = m !! b -> get m' (b, off) = get m (b, off).
Proof. unfold get. simpl. intros ->. auto. Qed.

Lemma inb_lookup_eq m m' b off : m' !! b = m !! b -> inb m' (b, off) = inb m (b, off).
Proof. unfold inb. simpl. intros ->. auto. Qed.

Lemma upd_same m l v : get m l = Some v -> upd m l v = m.
Proof.
  intros H. unfold upd. apply map_eq. intros b.
  destruct (decide (l.1 = b)) as [<-|E]; [|rewrite lookup_alter_ne; auto].
  rewrite lookup_alter_eq. unfold get in H. destruct (m !! l.1) as [[sz f]|]; simpl in *; auto.
  rewrite insert_id; auto.
Qed.

Lemma upd_upd m l v w : upd (upd m l v) l w = upd m l w.
Proof.
  unfold upd. apply map_eq. intros b. destruct (decide (l.1 = b)) as [<-|E].
  - rewrite !lookup_alter_eq. destruct (m !! l.1); simpl; [|done]. by rewrite insert_insert_eq.
  - by rewrite !lookup_alter_ne.
Qed.

Lemma upd_comm m l l' v w : l <> l' -> upd (upd m l v) l' w = upd (upd m l' w) l v.
Proof.
  intros Hne. unfold upd. apply map_eq. intros b.
  destruct (decide (l.1 = b)) as [<-|E]; destruct (decide (l'.1 = l.1)) as [E'|E'].
  - rewrite E', !lookup_alter_eq. destruct (m !! l.1); simpl; [|done].
    rewrite insert_insert_ne; [done|]. intros E2. apply Hne. destruct l, l'; simpl in *; congruence.
  - rewrite lookup_alter_ne, !lookup_alter_eq, lookup_alter_ne by auto. done.
  - rewrite !lookup_alter_ne by congruence. done.
  - destruct (decide (l'.1 = b)) as [<-|E2].
    + rewrite lookup_alter_eq, !(lookup_alter_ne _ _ l.1), lookup_alter_eq by auto. done.
    + rewrite !lookup_alter_ne by auto. done.
Qed.

Lemma get_insert_eq m b o off : get (<[b := o]> m) (b, off) = ofields o !! off.
Proof. unfold get. simpl. rewrite lookup_insert_eq. auto. Qed.

Lemma get_insert_ne m b o l : b <> l.1 -> get (<[b := o]> m) l = get m l.
Proof. intros. unfold get. rewrite lookup_insert_ne; auto. Qed.

Lemma get_delete_ne m b l : b <> l.1 -> get (delete b m) l = get m l.
Proof. intros. unfold get. rewrite lookup_delete_ne; auto. Qed.

End memory_laws.

Section action_laws.
Implicit Types (m : mem) (l : loc).

Lemma tot_load m l v (Q : Z -> mem -> Prop) :
  get m l = Some v -> Q v m -> tot (load l) m Q.
Proof. intros H HQ. eapply tot_act; [rewrite H; reflexivity|auto]. Qed.

Lemma tot_store m l v (Q : unit -> mem -> Prop) :
  inb m l = true -> Q tt (upd m l v) -> tot (store l v) m Q.
Proof. intros H HQ. eapply tot_act; [rewrite H; reflexivity|auto]. Qed.

Lemma tot_rmw m l f v (Q : Z -> mem -> Prop) :
  get m l = Some v -> Q v (upd m l (f v)) -> tot (rmw l f) m Q.
Proof. intros H HQ. eapply tot_act; [rewrite H; reflexivity|auto]. Qed.

Lemma tot_free m p (Q : unit -> mem -> Prop) :
  p <> NULL -> live m p -> Q tt (delete p m) -> tot (free p) m Q.
Proof.
  intros Hp [o Ho] HQ. apply Z.eqb_neq in Hp.
  eapply tot_act; [rewrite Hp, Ho; reflexivity|exact HQ].
Qed.

Lemma run_load m l v : get m l = Some v -> run (load l) m = Ok (v, m).
Proof. intros E. unfold load, act. simpl. by rewrite E. Qed.

Lemma run_load_err m l : get m l = None -> run (load l) m = Err EAccess.
Proof. intros E. unfold load, act. simpl. by rewrite E. Qed.

Lemma run_new_obj `{Malloc} m o :
  run (new_obj o) m =
  let a := malloc_addr m (osize o) in if a =? NULL then Ok (NULL, m) else Ok (a, <[a := o]> m).
Proof. unfold new_obj, act. simpl. by destruct (_ =? _). Qed.

Lemma tot_new_obj `{Malloc} m o (Q : Z -> mem -> Prop) :
  (malloc_addr m (osize o) = NULL -> Q NULL m) ->
  (forall a, a <> NULL -> a mod 16 = 0 -> 0 < a < M64 -> m !! a = None -> Q a (<[a := o]> m)) ->
  tot (new_obj o) m Q.
Proof.
  intros H0 H1. unfold tot, new_obj, act. simpl.
  destruct (malloc_addr m (osize o) =? NULL) eqn:E.
  - apply H0. apply Z.eqb_eq. auto.
  - apply Z.eqb_neq in E. pose proof (malloc_range m (osize o) E).
    apply H1; auto using malloc_aligned; [lia|]. eapply malloc_fresh; [exact E|]. lia.
Qed.
End action_laws.

(** A malloc that never reuses an address, and returns the first multiple of 16
    after every live object: the concrete allocator of the witnesses. *)
Definition block_end (b : Z) (o : obj) : Z := (b + Z.max 1 (osize o) + 15) / 16.
Definition top (m : mem) : Z := map_fold (fun b o acc => Z.max (block_end b o) acc) 4096 m.

Definition bump_addr (m : mem) (sz : Z) : Z :=
  let a := 16 * top m in if a + Z.max 1 sz <=? M64 then a else 0.

Lemma block_end_after b o : b + Z.max 1 (osize o) <= 16 * block_end b o < b + Z.max 1 (osize o) + 16.
Proof.
  unfold block_end. pose proof (Z.div_mod (b + Z.max 1 (osize o) + 15) 16 ltac:(lia)).
  pose proof (Z.mod_pos_bound (b + Z.max 1 (osize o) + 15) 16 ltac:(lia)). lia.
Qed.

Lemma top_ge m b o : m !! b = Some o -> block_end b o <= top m.
Proof.
  unfold top. revert b o.
  apply (map_fold_weak_ind (fun (r : Z) (m : mem) => forall b o, m !! b = Some o -> block_end b o <= r)).
  - intros b o Ho. rewrite lookup_empty in Ho. discriminate.
  - intros i o' m' r Hi IHm b o Ho. destruct (decide (i = b)) as [->|E].
    + rewrite lookup_insert_eq in Ho. injection Ho as ->. lia.
    + rewrite lookup_insert_ne in Ho by auto. specialize (IHm b o Ho). lia.
Qed.

Lemma top_least m n : 4096 <= n -> (forall b o, m !! b = Some o -> block_end b o <= n) -> top m <= n.
Proof.
  intros Hn. unfold top.
  apply (map_fold_weak_ind (fun (r : Z) (m : mem) => (forall b o, m !! b = Some o -> block_end b o <= n) -> r <= n)).
  - auto.
  - intros i o m' r Hi IHm Hb. assert (block_end i o <= n) by (apply Hb; by rewrite lookup_insert_eq).
    assert (r <= n); [|lia]. apply IHm. intros b o' Ho. apply Hb.
    rewrite lookup_insert_ne; [auto|]. congruence.
Qed.

Lemma top_lo m : 4096 <= top m.
Proof. unfold top. apply (map_fold_weak_ind (fun (r : Z) (_ : mem) => 4096 <= r)); intros; lia. Qed.

#[export] Program Instance bump : Malloc := {| malloc_addr := bump_addr |}.
Next Obligation.
  intros m sz b. unfold bump_addr. cbv zeta. case_match; [|done]. intros _ Hb.
  apply eq_None_not_Some. intros [o Ho]. apply top_ge in Ho. pose proof (block_end_after b o). lia.
Qed.
Next Obligation.
  intros m sz. unfold bump_addr. cbv zeta. case_match; [|reflexivity].
  rewrite Z.mul_comm. apply Z.mod_mul. lia.
Qed.
Next Obligation.
  intros m sz. unfold bump_addr. cbv zeta. pose proof (top_lo m).
  case_match eqn:E; [|done]. apply Z.leb_le in E. lia.
Qed.
