(* ===== verification/Layout.v ===== *)
(** * Data layout and symbolic execution

    The structures of node.h and test.h as byte offsets, the static objects of
    the program, the shape predicates on nodes, and the tactics that execute a
    program symbolically in a proof. *)
From S2P Require Export Memory.

(** ** node.h: [struct node] *)
Abbreviation KEY := 0 (only parsing).
Abbreviation NEXT := 8 (only parsing).
Abbreviation MR_NEXT := 16 (only parsing).
Abbreviation REFCNT := 24 (only parsing).
Definition sizeof_node_t : Z := 32.

(** ** test.h: constants and [per_thread_t] *)
Definition N_EPOCHS : Z := 3.
Definition CACHESIZE : Z := 64.
Definition MAX_THREADS : Z := 65.

(** [threads[i]] is an object of its own, at [&threads[i]]. *)
Definition THREADS : Z := 4096.
Definition sizeof_per_thread_t : Z := 192.
Definition this_thread (tid : Z) : Z := THREADS + sizeof_per_thread_t * tid.

Abbreviation T_RETIRE_COUNT := 48 (only parsing).
Abbreviation T_RLIST := 56 (only parsing).
Abbreviation T_PLIST := 64 (only parsing).
Abbreviation T_LIMBO_LIST := 72 (only parsing).
Abbreviation T_IN_CRITICAL := 96 (only parsing).
Abbreviation T_ENTRIES := 100 (only parsing).
Abbreviation T_EPOCH := 104 (only parsing).
Abbreviation T_ITEM_LIST := 112 (only parsing).
Abbreviation T_DW_GC := 120 (only parsing).
Abbreviation T_AUTO_EBR := 128 (only parsing).
Abbreviation T_THREAD_ID := 136 (only parsing).
(** Fields that only the files written for the older harness use
    ([freelist], [freelist2], [freelist_count], [backoff_amount]). *)
Abbreviation T_FREELIST := 144 (only parsing).
Abbreviation T_FREELIST2 := 152 (only parsing).
Abbreviation T_FREELIST_COUNT := 160 (only parsing).
Abbreviation T_BACKOFF := 168 (only parsing).

(** The fields [prev], [next] and [cur], which only the list code of the owning
    thread uses, are an object of their own at [&threads[i].prev].  [prev] is a
    [node_t **], a location: its object and its offset are kept in two words. *)
Definition find_vars (tid : Z) : Z := this_thread tid + 24.
Abbreviation T_PREV := 0 (only parsing).
Abbreviation T_NEXT := 8 (only parsing).
Abbreviation T_CUR := 16 (only parsing).
Abbreviation T_PREV_OFF := 24 (only parsing).

(** So are [seed] and [ops], which only random.c and the test loop use. *)
Definition bench_vars (tid : Z) : Z := this_thread tid + 8.
Abbreviation T_SEED := 0 (only parsing).
Abbreviation T_OPS := 8 (only parsing).

Definition per_thread_fields : list Z :=
  [T_RETIRE_COUNT; T_RLIST; T_PLIST;
   T_LIMBO_LIST; T_LIMBO_LIST + 8; T_LIMBO_LIST + 16; T_IN_CRITICAL; T_ENTRIES; T_EPOCH;
   T_ITEM_LIST; T_DW_GC; T_AUTO_EBR; T_THREAD_ID].

Definition thread_fields : list Z :=
  per_thread_fields ++ [T_FREELIST; T_FREELIST2; T_FREELIST_COUNT; T_BACKOFF].

(** ** The other static variables, one object *)
Definition GLOBALS : Z := 64.
Abbreviation G_N_THREADS := 0 (only parsing).
Abbreviation G_FREELIST := 8 (only parsing).        (* global_freelist *)
Abbreviation G_EG := 16 (only parsing).             (* ebr.c: eg *)
Abbreviation G_HP := 24 (only parsing).             (* smr.h: HP *)
Abbreviation G_OUT_OF_MEMORY := 80 (only parsing).  (* allocator_magazine.c *)
Abbreviation G_REFS := 88 (only parsing).           (* list_cr_lfrc.c: refs[3] *)
Definition sizeof_globals : Z := 128.
Definition global_fields : list Z :=
  [G_N_THREADS; G_FREELIST; G_EG; G_HP; G_OUT_OF_MEMORY; G_REFS; G_REFS + 8; G_REFS + 16].

(** The parameters of the test (main.c), one object. *)
Definition PARAMS : Z := 2048.
Abbreviation P_N_ELEMENTS := 0 (only parsing).
Abbreviation P_N_KEYS := 8 (only parsing).
Abbreviation P_N_UPDATE := 16 (only parsing).
Abbreviation P_N_MS := 24 (only parsing).
Abbreviation P_GLOBAL_DS := 32 (only parsing).
Abbreviation P_TEST_STATE := 40 (only parsing).
Definition sizeof_params : Z := 48.
Definition params_fields : list Z :=
  [P_N_ELEMENTS; P_N_KEYS; P_N_UPDATE; P_N_MS; P_GLOBAL_DS; P_TEST_STATE].

(** Thread-local variables ([__thread]) of thread [tid], one object. *)
Definition TLS_BASE : Z := 32768.
Definition sizeof_tls : Z := 2048.
Definition tls (tid : Z) : Z := TLS_BASE + sizeof_tls * tid.

(** The automatic variable [struct per_thread_t t] of the functions of ebr.c in
    thread [tid]: a frame of the thread's stack, one object. *)
Definition STACK_BASE : Z := 262144.
Definition stack_t (tid : Z) : Z := STACK_BASE + 256 * tid.

(** The static storage of a program with threads [0 .. n-1]: zero-initialised. *)
Definition static_thread (m : mem) (i : nat) : mem :=
  <[stack_t (Z.of_nat i) := Obj sizeof_per_thread_t (zero_fields thread_fields)]>
  (<[tls (Z.of_nat i) := Obj sizeof_tls (zero_fields (map (fun j => 8 * Z.of_nat j) (seq 0 256)))]>
  (<[bench_vars (Z.of_nat i) := Obj 16 (zero_fields [T_SEED; T_OPS])]>
  (<[find_vars (Z.of_nat i) := Obj 32 (zero_fields [T_PREV; T_NEXT; T_CUR; T_PREV_OFF])]>
  (<[this_thread (Z.of_nat i) := Obj sizeof_per_thread_t (zero_fields thread_fields)]> m)))).

Definition static_mem (n : nat) : mem :=
  foldl static_thread
    {[ GLOBALS := Obj sizeof_globals (zero_fields global_fields);
       PARAMS := Obj sizeof_params (zero_fields params_fields) ]} (seq 0 n).

(** [this_thread.prev = l] and [this_thread.prev] as a location. *)
Definition set_prev (tid : Z) (l : loc) : prog mem unit :=
  store (find_vars tid, T_PREV) l.1 ;;
  store (find_vars tid, T_PREV_OFF) l.2.

Definition get_prev (tid : Z) : prog mem loc :=
  b <- load (find_vars tid, T_PREV) ;;
  off <- load (find_vars tid, T_PREV_OFF) ;;
  Ret (b, off).

(** A structure assignment: field by field. *)
Fixpoint copy_fields (dst src : Z) (fs : list Z) : prog mem unit :=
  match fs with
  | [] => Ret tt
  | f :: fs' => v <- load (src, f) ;; store (dst, f) v ;; copy_fields dst src fs'
  end.

(** ** Shapes *)

(** [p] is a live [node_t]: aligned, so its lowest bit is free for a mark. *)
Definition is_node (m : mem) (p : Z) : Prop :=
  0 < p < M64 /\ p mod 2 = 0 /\ exists o, m !! p = Some o /\ sizeof_node_t <= osize o.

Lemma is_node_inb m p off : is_node m p -> 0 <= off < 32 -> inb m (p, off) = true.
Proof.
  intros (_ & _ & o & Ho & Hs) Hoff. unfold inb. simpl. rewrite Ho.
  unfold sizeof_node_t in Hs. apply andb_true_intro. split; [apply Z.leb_le|apply Z.ltb_lt]; lia.
Qed.

Lemma is_node_nonnull m p : is_node m p -> p <> NULL.
Proof. intros (? & _). lia. Qed.

Lemma is_node_live m p : is_node m p -> live m p.
Proof. intros (_ & _ & o & Ho & _). exists o. auto. Qed.

Lemma is_node_upd m l v p : is_node (upd m l v) p <-> is_node m p.
Proof.
  unfold is_node, upd. destruct (decide (l.1 = p)) as [<-|E].
  - rewrite lookup_alter_eq. destruct (m !! l.1) as [o|] eqn:Ho; simpl; [|tauto].
    split; intros (? & ? & o' & [= <-] & ?); eauto 10.
  - rewrite lookup_alter_ne by auto. tauto.
Qed.

Lemma is_node_lookup m m' p : m' !! p = m !! p -> is_node m p -> is_node m' p.
Proof. intros H (? & ? & o & ? & ?). split; [auto|split; [auto|]]. exists o. rewrite H. auto. Qed.

(** A structure is a live object of a given size at least. *)
Definition is_struct (m : mem) (p sz : Z) : Prop :=
  p <> NULL /\ exists o, m !! p = Some o /\ sz <= osize o.

Lemma is_struct_node m p : is_struct m p 32 -> 0 < p < M64 -> p mod 2 = 0 -> is_node m p.
Proof. intros (_ & o & Ho & Hs). unfold is_node. eauto. Qed.

Lemma is_node_struct m p : is_node m p -> is_struct m p 32.
Proof. intros (Hp & _ & o & Ho & Hs). split; [lia|]. eauto. Qed.

Lemma is_struct_inb m p sz off : is_struct m p sz -> 0 <= off < sz -> inb m (p, off) = true.
Proof.
  intros (_ & o & Ho & Hs) Hoff. unfold inb. simpl. rewrite Ho.
  apply andb_true_intro. split; [apply Z.leb_le|apply Z.ltb_lt]; lia.
Qed.

Lemma is_struct_of_inb m p sz : p <> NULL -> inb m (p, sz - 1) = true -> is_struct m p sz.
Proof.
  unfold inb. simpl. intros Hp. destruct (m !! p) as [o|] eqn:Ho; [|discriminate].
  intros [_ H]%andb_prop. apply Z.ltb_lt in H. split; [auto|]. exists o. split; [auto|lia].
Qed.

Lemma is_struct_live m p sz : is_struct m p sz -> live m p.
Proof. intros (_ & o & Ho & _). exists o. auto. Qed.

Lemma is_struct_upd m l v p sz : is_struct (upd m l v) p sz <-> is_struct m p sz.
Proof.
  unfold is_struct, upd. destruct (decide (l.1 = p)) as [<-|E].
  - rewrite lookup_alter_eq. destruct (m !! l.1) as [o|] eqn:Ho; simpl; [|tauto].
    split; intros (? & o' & [= <-] & ?); eauto 10.
  - rewrite lookup_alter_ne by auto. tauto.
Qed.

Lemma is_struct_lookup m m' p sz : m' !! p = m !! p -> is_struct m p sz -> is_struct m' p sz.
Proof. intros H (? & o & ? & ?). split; [auto|]. exists o. rewrite H. auto. Qed.

(** ** Frames

    [frame O m m' O']: an operation that owns the objects [O] turned [m] into
    [m'] and owns [O'] afterwards; it changed no other live object, and every
    object it newly owns was not live before. *)
Definition frame (O : gset Z) (m m' : mem) (O' : gset Z) : Prop :=
  (forall b, b ∉ O -> live m b -> m' !! b = m !! b) /\
  (forall b, b ∈ O' -> b ∈ O \/ m !! b = None).

Lemma frame_refl O m : frame O m m O.
Proof. split; auto. Qed.

Lemma frame_live O m m' O' b : frame O m m' O' -> b ∉ O -> live m b -> live m' b.
Proof. intros [H _] Hb Hl. unfold live. rewrite H; auto. Qed.

Lemma frame_notin O m m' O' b : frame O m m' O' -> b ∉ O -> live m b -> b ∉ O'.
Proof. intros [_ H] Hb [o Ho] Hin. destruct (H b Hin) as [|E]; congruence. Qed.

Lemma frame_trans O1 O2 O3 m1 m2 m3 :
  frame O1 m1 m2 O2 -> frame O2 m2 m3 O3 -> frame O1 m1 m3 O3.
Proof.
  intros HA HB. split.
  - intros b Hb Hl. rewrite <- (proj1 HA b Hb Hl). apply (proj1 HB).
    + eapply frame_notin; eauto.
    + eapply frame_live; eauto.
  - intros b Hb. destruct (proj2 HB b Hb) as [H2|E]; [apply (proj2 HA); auto|].
    destruct (decide (b ∈ O1)) as [|Hn]; auto.
    destruct (m1 !! b) as [o|] eqn:Ho; auto.
    pose proof (proj1 HA b Hn (mk_is_Some _ _ Ho)). congruence.
Qed.

Lemma frame_upd (O : gset Z) m l v : l.1 ∈ O -> frame O m (upd m l v) O.
Proof.
  intros Hl. split; auto. intros b Hb _. apply lookup_upd_ne. intros ->. auto.
Qed.

Lemma frame_weaken (O1 O2 O1' O2' : gset Z) m m' :
  frame O1 m m' O2 -> O1 ⊆ O1' -> O2' ⊆ O2 ∪ O1' -> frame O1' m m' O2'.
Proof.
  intros [H1 H2] Hs1 Hs2. split.
  - intros b Hb Hl. apply H1; auto.
  - intros b Hb. apply Hs2, elem_of_union in Hb as [Hb|Hb]; auto.
    destruct (H2 b Hb); auto.
Qed.

Lemma frame_get O m m' O' l : frame O m m' O' -> l.1 ∉ O -> live m l.1 -> get m' l = get m l.
Proof. intros [H _] Hb Hl. destruct l as [b off]. apply get_lookup_eq. auto. Qed.

Lemma frame_get_Some O m m' O' l v :
  frame O m m' O' -> l.1 ∉ O -> get m l = Some v -> get m' l = Some v.
Proof. intros HF Hb Hg. rewrite (frame_get _ _ _ _ _ HF); eauto using live_get. Qed.

Lemma frame_inb O m m' O' l : frame O m m' O' -> l.1 ∉ O -> inb m l = true -> inb m' l = true.
Proof.
  intros [H _] Hb Hi. destruct l as [b off]. rewrite <- Hi. apply inb_lookup_eq.
  apply H; auto. apply inb_live in Hi. auto.
Qed.

Lemma frame_is_node O m m' O' p : frame O m m' O' -> p ∉ O -> is_node m p -> is_node m' p.
Proof. intros [H _] Hb Hn. apply (is_node_lookup m); [apply H|]; auto using is_node_live. Qed.

Lemma frame_is_struct O m m' O' p sz :
  frame O m m' O' -> p ∉ O -> is_struct m p sz -> is_struct m' p sz.
Proof.
  intros [H _] Hb Hn. apply (is_struct_lookup m); [apply H|]; eauto using is_struct_live.
Qed.

(** ** Changes to one object *)

(** Nothing but the object [b0] changed. *)
Definition private_to (b0 : Z) (m m' : mem) : Prop :=
  (forall b, b <> b0 -> m' !! b = m !! b) /\ (forall sz, is_struct m b0 sz -> is_struct m' b0 sz).

Lemma private_refl b m : private_to b m m.
Proof. split; auto. Qed.

Lemma private_trans b m1 m2 m3 : private_to b m1 m2 -> private_to b m2 m3 -> private_to b m1 m3.
Proof.
  intros [A1 A2] [B1 B2]. split; [|auto].
  intros c Hc. rewrite B1, A1; auto.
Qed.

Lemma private_upd b f m v : private_to b m (upd m (b, f) v).
Proof. split; [intros; by apply lookup_upd_ne|intros; by apply is_struct_upd]. Qed.

Lemma private_get b m m' l : private_to b m m' -> l.1 <> b -> get m' l = get m l.
Proof. intros [H _] Hl. destruct l as [c f]. apply get_lookup_eq. auto. Qed.

(** ** Symbolic execution *)

(** Locations that differ in object or in offset. *)
Ltac loc_ne :=
  let E := fresh "E" in
  intros E; injection E; clear E; intros; subst; first [congruence | lia].

Ltac mlive :=
  repeat rewrite live_upd;
  first [ assumption
        | solve [eauto using is_node_live, is_struct_live]
        | match goal with
          | H : get ?m (?b, _) = Some _ |- live ?m ?b => exact (live_get m (b, _) _ H)
          | H : inb ?m (?b, _) = true |- live ?m ?b => exact (inb_live m (b, _) H)
          end ].

(** Reads through the updates made so far. *)
Ltac mget :=
  repeat first [ rewrite get_upd_eq by (cbn [fst]; mlive)
               | rewrite get_upd_ne by loc_ne ];
  try first [ eassumption | reflexivity ].

Ltac minb :=
  repeat rewrite inb_upd;
  first [ eassumption
        | eapply is_node_inb; [repeat rewrite is_node_upd; eassumption | lia]
        | eapply is_struct_inb; [repeat rewrite is_struct_upd; eassumption | lia] ].

(** Steps of the operations defined on top of the actions (extended later). *)
Ltac pstep_hook := fail.

(** One action of the program at the head of the goal. *)
Ltac pstep1 :=
  lazymatch goal with
  | |- tot (pbind _ (pbind _ _)) _ _ => apply tot_bind
  | |- tot (pbind _ _) _ _ => apply tot_bind
  | |- tot (Ret _) _ _ => apply tot_ret
  | |- tot (load _) _ _ => eapply tot_load; [solve [mget] |]
  | |- tot (store _ _) _ _ => eapply tot_store; [solve [minb] |]
  | |- tot (rmw _ _) _ _ => eapply tot_rmw; [solve [mget] |]
  | |- _ => pstep_hook
  end; cbv beta.
Ltac psteps := repeat pstep1.

(** A structure copied into another object. *)
Lemma tot_copy_fields dst src fs m (Q : unit -> mem -> Prop) :
  dst <> src -> NoDup fs -> (forall f, f ∈ fs -> is_Some (get m (src, f)) /\ inb m (dst, f) = true) ->
  (forall m', (forall b, b <> dst -> m' !! b = m !! b) ->
     (forall f, get m' (dst, f) = if decide (f ∈ fs) then get m (src, f) else get m (dst, f)) ->
     (forall f, inb m' (dst, f) = inb m (dst, f)) -> Q tt m') ->
  tot (copy_fields dst src fs) m Q.
Proof.
  intros Hne Hnd. revert m. induction Hnd as [|f fs Hf Hnd IH]; intros m Hfs HQ; simpl.
  - apply tot_ret, HQ; auto.
  - destruct (Hfs f ltac:(left)) as [[v Hv] Hi].
    apply tot_bind. eapply tot_load; [exact Hv|]. apply tot_bind. eapply tot_store; [exact Hi|].
    apply IH.
    + intros g Hg. destruct (Hfs g ltac:(by right)) as [? Hgi].
      rewrite inb_upd, get_upd_ne by congruence. auto.
    + intros m' H1 H2 H3. apply HQ.
      * intros b Hb. rewrite H1 by auto. by apply lookup_upd_ne.
      * intros g. rewrite H2. rewrite (get_upd_ne _ _ (src, g)) by congruence.
        destruct (decide (g = f)) as [->|Hgf].
        -- rewrite decide_False by auto. rewrite decide_True by left.
           rewrite get_upd_eq; [auto|]. by apply inb_live in Hi.
        -- rewrite get_upd_ne by congruence. repeat case_decide; auto; set_solver.
      * intros g. rewrite H3. apply inb_upd.
Qed.
