(* ===== verification/Atomic.v ===== *)
(** * arch/atomic.h, spinlock.h and the MCS lock of util.c

    The atomic operations of the x86 layer, the test-and-set spinlock and the
    queueing lock, with their behaviour on every branch.  Under the
    sequentially consistent memory of this development the barriers do
    nothing. *)
From S2P Require Export Layout.

(** ** arch/atomic.h *)

(** Returns the value found; it was replaced exactly when it equals [oldval]. *)
Definition atomic_cmpxchg4 (ptr : loc) (oldval newval : Z) : prog mem Z :=
  rmw ptr (fun v => if v =? oldval then newval else v).

Definition CAS (ptr : loc) (oldval newval : Z) : prog mem bool :=
  r <- atomic_cmpxchg4 ptr oldval newval ;;
  Ret (r =? oldval).

Definition atomic_read4 (ptr : loc) : prog mem Z := load ptr.

Definition atomic_xchg4 (ptr : loc) (value : Z) : prog mem Z := rmw ptr (fun _ => value).

Definition atomic_set4 (ptr : loc) (newvalue : Z) : prog mem unit :=
  _ <- atomic_xchg4 ptr newvalue ;; Ret tt.

Definition atomic_xadd4 (ctr : loc) (addend : Z) : prog mem Z :=
  rmw ctr (fun v => u64 (v + addend)).

Definition memory_barrier : prog mem unit := Ret tt.
Definition write_barrier : prog mem unit := Ret tt.
Definition spin_lock_barrier : prog mem unit := Ret tt.
Definition spin_unlock_barrier : prog mem unit := Ret tt.

Ltac pstep_hook ::=
  lazymatch goal with
  | |- tot memory_barrier _ _ => apply tot_ret
  | |- tot write_barrier _ _ => apply tot_ret
  | |- tot spin_lock_barrier _ _ => apply tot_ret
  | |- tot spin_unlock_barrier _ _ => apply tot_ret
  | |- tot (atomic_read4 _) _ _ => eapply tot_load; [solve [mget] |]
  | |- tot (atomic_xchg4 _ _) _ _ => eapply tot_rmw; [solve [mget] |]
  | |- tot (atomic_xadd4 _ _) _ _ => eapply tot_rmw; [solve [mget] |]
  end.

Lemma tot_cmpxchg m l v old new (Q : Z -> mem -> Prop) :
  get m l = Some v ->
  (v = old -> Q v (upd m l new)) -> (v <> old -> Q v m) ->
  tot (atomic_cmpxchg4 l old new) m Q.
Proof.
  intros Hg H1 H2. eapply tot_rmw; [exact Hg|]. destruct (Z.eqb_spec v old); auto.
  rewrite upd_same; auto.
Qed.

Lemma tot_CAS m l v old new (Q : bool -> mem -> Prop) :
  get m l = Some v ->
  (v = old -> Q true (upd m l new)) -> (v <> old -> Q false m) ->
  tot (CAS l old new) m Q.
Proof.
  intros Hg H1 H2. unfold CAS. apply tot_bind. eapply tot_cmpxchg; [exact Hg| |];
  intros E; apply tot_ret; destruct (Z.eqb_spec v old); auto; congruence.
Qed.

Lemma tot_CAS_true m l old new (Q : bool -> mem -> Prop) :
  get m l = Some old -> Q true (upd m l new) -> tot (CAS l old new) m Q.
Proof. intros. eapply tot_CAS; eauto. congruence. Qed.

(** ** spinlock.h *)

Definition SPIN_LOCK_UNLOCKED : Z := 0.

Definition spin_lock (fuel : nat) (slp : loc) : prog mem unit :=
  loop fuel (fun _ : unit =>
    result <- atomic_cmpxchg4 slp 0 1 ;;
    if result =? 0 then
      spin_lock_barrier ;;
      break tt
    else
      loop fuel (fun _ : unit =>
        v <- load slp ;;
        if v =? 0 then break tt
        else memory_barrier ;; continue tt) tt ;;
      continue tt) tt.

Definition spin_trylock (slp : loc) : prog mem bool :=
  result <- atomic_cmpxchg4 slp 0 1 ;;
  spin_lock_barrier ;;
  Ret (result =? 0).

Definition spin_unlock (slp : loc) : prog mem unit :=
  spin_unlock_barrier ;;
  result <- atomic_xchg4 slp SPIN_LOCK_UNLOCKED ;;
  if result =? 1 then Ret tt else abort.

Lemma tot_spin_lock fuel m l (Q : unit -> mem -> Prop) :
  (0 < fuel)%nat -> get m l = Some 0 -> Q tt (upd m l 1) -> tot (spin_lock fuel l) m Q.
Proof.
  intros Hf Hg HQ. destruct fuel as [|fuel]; [lia|]. unfold spin_lock.
  apply tot_loop_S. apply tot_bind. eapply tot_cmpxchg; [exact Hg| |congruence]. intros _. exact HQ.
Qed.

Lemma tot_spin_unlock m l (Q : unit -> mem -> Prop) :
  get m l = Some 1 -> Q tt (upd m l 0) -> tot (spin_unlock l) m Q.
Proof.
  intros Hg HQ. unfold spin_unlock. psteps. exact HQ.
Qed.

(** ** mcslock.h and the MCS lock of util.c *)

Abbreviation QN_LOCKED := 0 (only parsing).
Abbreviation QN_NEXT := 128 (only parsing).
Definition sizeof_qnode_t : Z := 256.
Definition FALSE : Z := 0.
Definition TRUE : Z := 1.

Definition mcs_lock (fuel : nat) (l : loc) (n : Z) : prog mem unit :=
  store (n, QN_NEXT) NULL ;;
  store (n, QN_LOCKED) FALSE ;;
  pred <- atomic_xchg4 l n ;;
  (if pred =? NULL then Ret tt
   else
     store (n, QN_LOCKED) TRUE ;;
     store (pred, QN_NEXT) n) ;;
  loop fuel (fun _ : unit =>
    locked <- load (n, QN_LOCKED) ;;
    if locked =? 0 then break tt
    else memory_barrier ;; continue tt) tt ;;
  spin_lock_barrier.

Definition mcs_unlock (fuel : nat) (l : loc) (n : Z) : prog mem unit :=
  spin_unlock_barrier ;;
  next <- load (n, QN_NEXT) ;;
  alone <- (if next =? NULL then CAS l n NULL else Ret false) ;;
  if alone : bool then Ret tt
  else
    loop fuel (fun _ : unit =>
      next <- load (n, QN_NEXT) ;;
      if next =? NULL then memory_barrier ;; continue tt
      else break tt) tt ;;
    next <- load (n, QN_NEXT) ;;
    store (next, QN_LOCKED) FALSE.

(** An MCS lock taken and released without contention: the lock word and the
    queue node of the caller are all that changes. *)
Lemma tot_mcs_lock fuel m l n (Q : unit -> mem -> Prop) :
  (0 < fuel)%nat -> get m l = Some NULL -> is_struct m n sizeof_qnode_t -> l.1 <> n ->
  Q tt (upd (upd (upd m (n, QN_NEXT) 0) (n, QN_LOCKED) 0) l n) ->
  tot (mcs_lock fuel l n) m Q.
Proof.
  intros Hf Hg Hn Hne HQ. destruct fuel as [|fuel]; [lia|]. destruct l as [lb lo]. simpl in Hne.
  unfold mcs_lock, sizeof_qnode_t in *. psteps.
  simpl. psteps. apply tot_loop_S. psteps. simpl. exact HQ.
Qed.

Lemma tot_mcs_unlock fuel m l n (Q : unit -> mem -> Prop) :
  get m l = Some n -> get m (n, QN_NEXT) = Some 0 ->
  Q tt (upd m l 0) -> tot (mcs_unlock fuel l n) m Q.
Proof.
  intros Hg Hn HQ. unfold mcs_unlock. psteps. simpl. eapply tot_CAS_true; [exact Hg|]. exact HQ.
Qed.
