(* ===== verification/Random.v ===== *)
(** * The random number generator (random.c)

    Park and Miller's minimal standard generator, computed with Schrage's
    decomposition of the modulus, on the [seed] of the calling thread.  The
    theorems relate it to the recurrence x' = 7^5 x mod (2^31 - 1), bound its
    values and give its period. *)
From S2P Require Export Layout.
From Stdlib Require Import Znumtheory Zpow_facts.

Module random.
Definition init_Random : prog mem unit := Ret tt.

Definition sRandom (tid seed : Z) : prog mem unit :=
  store (bench_vars tid, T_SEED) seed.

(** The result of an operation on [long]s, which is undefined where it overflows. *)
Definition as_long (z : Z) : prog mem Z :=
  if (- 2 ^ 63 <=? z) && (z <? 2 ^ 63) then Ret z else Stop EOverflow.

(** The arithmetic of [Random], operation by operation. *)
Definition next_seed (x : Z) : prog mem Z :=
  hi <- as_long (Z.quot x 127773) ;;
  lo <- as_long (Z.rem x 127773) ;;
  a <- as_long (16807 * lo) ;;
  b <- as_long (2836 * hi) ;;
  t <- as_long (a - b) ;;
  if t <=? 0 then as_long (t + 2147483647) else Ret t.

Definition Random (tid : Z) : prog mem Z :=
  seed <- load (bench_vars tid, T_SEED) ;;
  t <- next_seed (i64 seed) ;;
  store (bench_vars tid, T_SEED) (u64 t) ;;
  Ret (u64 t).
End random.

(** * Proofs *)
Import random.

(** The Mersenne prime 2^31 - 1 and the multiplier 7^5. *)
Definition MODULUS : Z := 2 ^ 31 - 1.
Definition MULT : Z := 16807.

Lemma as_long_bind {A} z (k : Z -> prog mem A) : - 2 ^ 63 <= z < 2 ^ 63 -> pbind k (as_long z) = k z.
Proof. intros Hz. unfold as_long. by replace ((- 2 ^ 63 <=? z) && (z <? 2 ^ 63)) with true by lia. Qed.

(** The value that [next_seed] computes. *)
Definition schrage (x : Z) : Z :=
  let t := 16807 * Z.rem x 127773 - 2836 * Z.quot x 127773 in
  if t <=? 0 then t + MODULUS else t.

(** No operation on the way to it overflows, whatever the [long] it starts from. *)
Lemma next_seed_ret x : - 2 ^ 63 <= x < 2 ^ 63 -> next_seed x = Ret (schrage x).
Proof.
  intros Hx. unfold next_seed, schrage.
  assert (- 127773 < Z.rem x 127773 < 127773) by (Z.to_euclidean_division_equations; lia).
  assert (- 2 ^ 63 <= 127773 * Z.quot x 127773 <= 2 ^ 63) by (Z.to_euclidean_division_equations; lia).
  set (hi := Z.quot x 127773) in *. set (lo := Z.rem x 127773) in *. clearbody hi lo.
  do 5 (rewrite as_long_bind by lia; cbn beta). unfold MODULUS. destruct (_ <=? 0) eqn:E; [|done].
  unfold as_long. by replace ((- 2 ^ 63 <=? 16807 * lo - 2836 * hi + 2147483647) &&
    (16807 * lo - 2836 * hi + 2147483647 <? 2 ^ 63)) with true by lia.
Qed.

(** The [n]-th value drawn from the seed [s]. *)
Fixpoint draws (n : nat) (s : Z) : Z :=
  match n with O => s | S n' => schrage (draws n' s) end.

(** From a 32-bit seed, the difference is one of 31 bits. *)
Lemma schrage_bounds s :
  0 <= s < M32 ->
  - MODULUS < 16807 * (s mod 127773) - 2836 * (s / 127773) < MODULUS.
Proof.
  unfold M32, MODULUS. intros Hs.
  pose proof (Z.mod_pos_bound s 127773 ltac:(lia)).
  pose proof (Z.div_le_mono s (2 ^ 32) 127773 ltac:(lia) ltac:(lia)) as Hh.
  change (2 ^ 32 / 127773) with 33614 in Hh.
  pose proof (Z.div_pos s 127773 ltac:(lia) ltac:(lia)). lia.
Qed.

Lemma schrage_eq s :
  0 <= s ->
  schrage s = (let t := 16807 * (s mod 127773) - 2836 * (s / 127773) in
                 if t <=? 0 then t + MODULUS else t).
Proof. intros. unfold schrage. by rewrite Z.quot_div_nonneg, Z.rem_mod_nonneg by lia. Qed.

(** On every 32-bit seed a draw is in 1 .. 2^31-1. *)
Lemma schrage_range s : 0 <= s < M32 -> 1 <= schrage s <= MODULUS.
Proof.
  intros Hs. rewrite schrage_eq by lia. pose proof (schrage_bounds s Hs). simpl.
  destruct (Z.leb_spec (16807 * (s mod 127773) - 2836 * (s / 127773)) 0); lia.
Qed.

(** ... and congruent to 7^5 s modulo 2^31-1. *)
Lemma schrage_mod s : 0 <= s -> schrage s mod MODULUS = (MULT * s) mod MODULUS.
Proof.
  intros Hs. rewrite schrage_eq by lia.
  pose proof (Z.div_mod s 127773 ltac:(lia)) as Hd.
  set (h := s / 127773) in *. set (l := s mod 127773) in *.
  assert (E : MULT * s = 16807 * l - 2836 * h + h * MODULUS) by (unfold MULT, MODULUS; lia).
  rewrite E, Z_mod_plus_full. simpl. destruct (_ <=? 0); auto.
  rewrite <- (Z_mod_plus_full (16807 * l - 2836 * h) 1 MODULUS). f_equal; lia.
Qed.

(** *** The modulus is prime *)

Fixpoint no_divisor (n : Z) (k : nat) (d : Z) : bool :=
  match k with
  | O => true
  | S k' => negb (n mod d =? 0) && no_divisor n k' (d + 1)
  end.

Lemma no_divisor_spec n k d0 d :
  no_divisor n k d0 = true -> 0 < d0 -> d0 <= d < d0 + Z.of_nat k -> ~ (d | n).
Proof.
  revert d0. induction k as [|k IH]; intros d0 H H0 Hd; [lia|].
  simpl in H. apply andb_true_iff in H as [H1 H2].
  destruct (Z.eq_dec d d0) as [->|]; [|apply (IH (d0 + 1)); auto; lia].
  intros Hdiv. apply Z.mod_divide in Hdiv; [|lia]. by rewrite Hdiv in H1.
Qed.

Lemma small_divisor n d : 1 < d < n -> (d | n) -> exists e, 1 < e /\ e * e <= n /\ (e | n).
Proof.
  intros Hd [q Hq]. assert (0 < q) by nia. assert (q <> 1) by nia.
  destruct (Z.le_gt_cases (d * d) n).
  - exists d. split_and!; [lia|auto|by exists q].
  - exists q. split_and!; [lia|nia|exists d; lia].
Qed.

Lemma modulus_prime : prime MODULUS.
Proof.
  apply prime_alt. split; [unfold MODULUS; lia|]. intros d Hd Hdiv.
  destruct (small_divisor _ _ Hd Hdiv) as (e & He & Hs & Hed).
  refine (no_divisor_spec MODULUS (Z.to_nat 46340) 2 e _ _ _ Hed); [by vm_compute|lia|].
  unfold MODULUS in Hs. change (2 ^ 31 - 1) with 2147483647 in Hs. rewrite Z2Nat.id by lia. nia.
Qed.

Lemma not_div_modulus s : 1 <= s < MODULUS -> ~ (MODULUS | s).
Proof. intros Hs Hd. apply Z.divide_pos_le in Hd; lia. Qed.

(** A seed in 1 .. 2^31-2 stays there: the recurrence of Park and Miller. *)
Lemma schrage_park_miller s :
  1 <= s < MODULUS ->
  schrage s = (MULT * s) mod MODULUS /\ 1 <= schrage s < MODULUS.
Proof.
  intros Hs. pose proof (schrage_range s ltac:(unfold M32, MODULUS in *; lia)) as Hr.
  pose proof (schrage_mod s ltac:(lia)) as Hm.
  assert (schrage s <> MODULUS).
  { intros E. rewrite E, Z_mod_same_full in Hm. symmetry in Hm.
    apply Z.mod_divide in Hm; [|unfold MODULUS; lia].
    apply (prime_mult _ modulus_prime) in Hm as [Hm|Hm].
    - revert Hm. apply not_div_modulus. unfold MULT, MODULUS. lia.
    - by apply (not_div_modulus s). }
  split; [|lia]. rewrite <- Hm. symmetry. apply Z.mod_small. lia.
Qed.

Lemma draws_range n s : 1 <= s < MODULUS -> 1 <= draws n s < MODULUS.
Proof. intros Hs. induction n as [|n IH]; [exact Hs|]. simpl. by apply schrage_park_miller. Qed.

Lemma draws_pow n s : 1 <= s < MODULUS -> draws n s = (MULT ^ Z.of_nat n * s) mod MODULUS.
Proof.
  intros Hs. induction n as [|n IH].
  - simpl draws. rewrite Z.mod_small; lia.
  - simpl draws. destruct (schrage_park_miller _ (draws_range n s Hs)) as [-> _].
    rewrite IH, Z.mul_mod_idemp_r by (unfold MODULUS; lia). f_equal.
    rewrite Nat2Z.inj_succ, Z.pow_succ_r by lia. lia.
Qed.

(** *** The period *)

Definition pow_one (n : Z) : Prop := MULT ^ n mod MODULUS = 1.

Lemma pow_one_mul n k : 0 <= n -> 0 <= k -> pow_one n -> pow_one (n * k).
Proof.
  unfold pow_one. intros Hn Hk H. rewrite Z.pow_mul_r, Zpower_mod, H by (unfold MODULUS; lia).
  by rewrite Z.pow_1_l by lia.
Qed.

Lemma pow_one_rem a b : 0 < a -> 0 <= b -> pow_one a -> pow_one b -> pow_one (b mod a).
Proof.
  unfold pow_one. intros Ha Hb H1 H2.
  pose proof (pow_one_mul a (b / a) ltac:(lia) (Z.div_pos _ _ Hb Ha) H1) as H3.
  rewrite (Z.div_mod b a), Z.pow_add_r, <- Z.mul_mod_idemp_l in H2
    by first [lia | unfold MODULUS; lia | pose proof (Z.div_pos b a); pose proof (Z.mod_pos_bound b a); lia].
  unfold pow_one in H3. by rewrite H3, Z.mul_1_l in H2.
Qed.

Lemma pow_one_gcd a b : 0 <= a -> 0 <= b -> pow_one a -> pow_one b -> pow_one (Z.gcd a b).
Proof.
  intros Ha. revert b. pattern a. apply Zlt_0_ind; [|exact Ha]. clear a Ha.
  intros a IH Ha b Hb H1 H2. destruct (Z.eq_dec a 0) as [->|].
  - rewrite Z.gcd_0_l, Z.abs_eq by lia. exact H2.
  - rewrite <- Z.gcd_mod, Z.gcd_comm by lia. pose proof (Z.mod_pos_bound b a ltac:(lia)).
    rewrite Z.gcd_comm. apply IH; auto; try lia. apply pow_one_rem; auto. lia.
Qed.

(** The prime factors of 2^31 - 2. *)
Definition factors : list Z := [2; 3; 7; 11; 31; 151; 331].

Lemma factors_prime p : p ∈ factors -> prime p.
Proof.
  intros Hp. assert (2 <= p <= 331) by (unfold factors in Hp; set_solver by lia).
  apply prime_alt. split; [lia|]. intros d Hd Hdiv.
  destruct (small_divisor _ _ Hd Hdiv) as (e & He & Hs & Hed).
  refine (no_divisor_spec p (Z.to_nat (Z.sqrt p - 1)) 2 e _ _ _ Hed).
  - unfold factors in Hp. repeat (apply elem_of_cons in Hp as [->|Hp]; [by vm_compute|]). by apply not_elem_of_nil in Hp.
  - lia.
  - apply Z.sqrt_le_square in Hs; lia.
Qed.

Lemma factors_cover q : (q | MODULUS - 1) -> 1 < q -> exists p, p ∈ factors /\ (p | q).
Proof.
  intros Hq H1. destruct (decide (Exists (fun p => q mod p = 0) factors)) as [H|H].
  { apply Exists_exists in H as (p & Hp & Hm). exists p. split; [auto|].
    apply Z.mod_divide; [|exact Hm]. pose proof (prime_ge_2 _ (factors_prime p Hp)). lia. }
  exfalso. rewrite <- Forall_Exists_neg, Forall_forall in H.
  assert (Hr : forall p, p ∈ factors -> rel_prime q p).
  { intros p Hp. apply rel_prime_sym, prime_rel_prime; [by apply factors_prime|].
    intros Hd. apply (H p Hp), Z.mod_divide; [|exact Hd].
    pose proof (prime_ge_2 _ (factors_prime p Hp)). lia. }
  assert (Hrel : rel_prime q (MODULUS - 1)).
  { change (MODULUS - 1) with (2 * (3 * (3 * (7 * (11 * (31 * (151 * 331))))))).
    repeat apply rel_prime_mult; apply Hr; unfold factors; set_solver. }
  apply (Gauss q (MODULUS - 1) 1) in Hrel; [|by rewrite Z.mul_1_r].
  apply Z.divide_1_r_nonneg in Hrel; lia.
Qed.

(** 7^5 generates all the residues. *)
Lemma mult_order n : 0 <= n -> pow_one n <-> (MODULUS - 1 | n).
Proof.
  intros Hn. assert (Hfull : pow_one (MODULUS - 1)).
  { unfold pow_one. rewrite <- Zpow_mod_correct by (unfold MODULUS; lia). by vm_compute. }
  split.
  - intros H. pose proof (pow_one_gcd n (MODULUS - 1) Hn ltac:(unfold MODULUS; lia) H Hfull) as Hg.
    set (g := Z.gcd n (MODULUS - 1)) in *.
    assert (Hgp : 0 < g).
    { assert (g <> 0) by (intros E; apply Z.gcd_eq_0_r in E; unfold MODULUS in E; lia).
      pose proof (Z.gcd_nonneg n (MODULUS - 1)). unfold g in *. lia. }
    destruct (Z.gcd_divide_r n (MODULUS - 1)) as [q Hq]. fold g in Hq.
    destruct (Z.eq_dec q 1) as [->|Hq1].
    { replace (MODULUS - 1) with g by lia. apply Z.gcd_divide_l. }
    exfalso. assert (0 < q) by (unfold MODULUS in Hq; nia).
    destruct (factors_cover q) as (p & Hp & k & Hk); [by exists g; lia|lia|].
    pose proof (prime_ge_2 _ (factors_prime p Hp)).
    assert (Hk0 : 0 <= k) by nia.
    pose proof (pow_one_mul g k ltac:(lia) Hk0 Hg) as Hgk.
    assert (E : g * k = (MODULUS - 1) / p) by (rewrite Hq, Hk; apply Z.div_unique_exact; nia).
    rewrite E in Hgk. unfold pow_one in Hgk. rewrite <- Zpow_mod_correct in Hgk by (unfold MODULUS; lia).
    unfold factors in Hp. repeat (apply elem_of_cons in Hp as [->|Hp]; [vm_compute in Hgk; discriminate|]).
    by apply not_elem_of_nil in Hp.
  - intros [k ->]. rewrite Z.mul_comm. apply pow_one_mul; auto; unfold MODULUS in *; lia.
Qed.

Lemma mul_cancel_mod a s : 1 <= s < MODULUS -> (a * s) mod MODULUS = s <-> a mod MODULUS = 1.
Proof.
  intros Hs. split; intros H.
  - assert (Hd : (MODULUS | (a - 1) * s)).
    { apply Z.mod_divide; [unfold MODULUS; lia|]. rewrite Z.mul_sub_distr_r, Z.mul_1_l, Zminus_mod, H.
      rewrite (Z.mod_small s) by lia. by rewrite Z.sub_diag. }
    apply (prime_mult _ modulus_prime) in Hd as [[k Hk]|Hd]; [|by apply not_div_modulus in Hd].
    replace a with (1 + k * MODULUS) by lia. by rewrite Z_mod_plus_full.
  - rewrite <- Z.mul_mod_idemp_l, H, Z.mul_1_l by (unfold MODULUS; lia). apply Z.mod_small. lia.
Qed.

Lemma draws_period n s : 1 <= s < MODULUS -> draws n s = s <-> (MODULUS - 1 | Z.of_nat n).
Proof. intros Hs. rewrite draws_pow, mul_cancel_mod by auto. apply mult_order. lia. Qed.

(** ** Theorems about [Random] *)

Definition seed_of (tid : Z) (m : mem) (s : Z) : Prop :=
  get m (bench_vars tid, T_SEED) = Some s /\ inb m (bench_vars tid, T_SEED) = true.

Lemma seed_of_upd tid m s t : seed_of tid m s -> seed_of tid (upd m (bench_vars tid, T_SEED) t) t.
Proof. intros [H1 H2]. split; [mget|by rewrite inb_upd]. Qed.

(** Any seed at all. *)
Lemma Random_runs tid m s : seed_of tid m s ->
  tot (Random tid) m (fun r m' => r = u64 (schrage (i64 s)) /\ m' = upd m (bench_vars tid, T_SEED) r).
Proof.
  intros [Hg Hi]. unfold Random. psteps. rewrite next_seed_ret; [cbn [pbind]; psteps; auto|].
  unfold i64. pose proof (Z.mod_pos_bound (s + 2 ^ 63) M64 ltac:(done)). unfold M64 in *. lia.
Qed.

Lemma Random_run tid m s :
  seed_of tid m s -> 0 <= s < M32 ->
  tot (Random tid) m (fun r m' =>
    r = schrage s /\ m' = upd m (bench_vars tid, T_SEED) (schrage s)).
Proof.
  intros Hm Hs. eapply tot_mono; [by apply (Random_runs tid m s)|]. intros r m' [-> ->].
  rewrite i64_small by (unfold M32 in Hs; lia). pose proof (schrage_range s Hs) as Hr.
  by rewrite u64_small by (unfold MODULUS, M64 in *; lia).
Qed.

(** [n] calls of [Random]. *)
Fixpoint Random_times (n : nat) (tid : Z) : prog mem unit :=
  match n with
  | O => Ret tt
  | S n' => Random_times n' tid ;; _ <- Random tid ;; Ret tt
  end.

Lemma Random_times_run n tid m s :
  seed_of tid m s -> 1 <= s < MODULUS ->
  tot (Random_times n tid) m (fun _ m' => seed_of tid m' (draws n s)).
Proof.
  intros Hm Hs. induction n as [|n IH]; simpl.
  - apply tot_ret. exact Hm.
  - apply tot_bind. eapply tot_mono; [exact IH|]. intros [] m1 H1.
    pose proof (draws_range n s Hs). apply tot_bind.
    eapply tot_mono; [apply Random_run; [exact H1|unfold MODULUS, M32 in *; lia]|].
    intros r m2 [_ ->]. apply tot_ret. by eapply seed_of_upd.
Qed.

(** C26: whatever the stored seed, a call of [Random] returns, and none of
    the signed operations it does overflows (an overflow would be the error
    EOverflow); it returns the new seed, the only word that changes.  From a
    seed in 1 .. 2^31-2 that is exactly 7^5 times the seed modulo 2^31-1,
    although the code only computes with Schrage's quotients, and it is in that
    range again (so neither 0 nor 2^31-1 is ever drawn). *)
Theorem Random_park_miller (tid : Z) (m : mem) (s : Z) :
  seed_of tid m s ->
  exists r, run (Random tid) m = Ok (r, upd m (bench_vars tid, T_SEED) r) /\
    (1 <= s <= 2 ^ 31 - 2 -> r = (7 ^ 5 * s) mod (2 ^ 31 - 1) /\ 1 <= r <= 2 ^ 31 - 2).
Proof.
  intros Hm. destruct (tot_run _ _ _ (Random_runs tid m s Hm)) as (r & m' & Hr & Er & ->).
  exists r. split; [exact Hr|]. intros Hs. assert (Hs' : 1 <= s < MODULUS) by (unfold MODULUS; lia).
  destruct (schrage_park_miller s Hs') as [E H]. rewrite i64_small in Er by lia.
  rewrite u64_small in Er by (unfold MODULUS, M64 in *; lia). subst r. unfold MULT, MODULUS in *. change (7 ^ 5) with 16807. lia.
Qed.

Lemma Random_park_miller_witness :
  exists r, run (sRandom 0 17 ;; Random 0) (static_mem 1) = Ok (r, upd (upd (static_mem 1) (bench_vars 0, T_SEED) 17) (bench_vars 0, T_SEED) r) /\
    r = (7 ^ 5 * 17) mod (2 ^ 31 - 1).
Proof.
  destruct (Random_park_miller 0 (upd (static_mem 1) (bench_vars 0, T_SEED) 17) 17) as (r & H1 & H2).
  - split; vm_compute; reflexivity.
  - exists r. split; [exact H1|]. apply H2. lia.
Defined.

(** C27: the generator has full period: starting from a seed in 1 .. 2^31-2,
    the seed is the same again after [n] calls of [Random] exactly when [n] is
    a multiple of 2^31-2, the number of possible seeds. *)
Theorem Random_full_period (n : nat) (tid : Z) (m : mem) (s : Z) :
  seed_of tid m s -> 1 <= s <= 2 ^ 31 - 2 ->
  tot (Random_times n tid) m (fun _ m' =>
    get m' (bench_vars tid, T_SEED) = Some s <-> (2 ^ 31 - 2 | Z.of_nat n)).
Proof.
  intros Hm Hs. assert (Hs' : 1 <= s < MODULUS) by (unfold MODULUS; lia).
  eapply tot_mono; [by apply (Random_times_run n tid m s)|]. intros [] m' [-> _].
  change (2 ^ 31 - 2) with (MODULUS - 1). rewrite <- (draws_period n s Hs').
  split; congruence.
Qed.

Lemma Random_full_period_witness :
  tot (Random_times 5 0) (upd (static_mem 1) (bench_vars 0, T_SEED) 17) (fun _ m' =>
    get m' (bench_vars 0, T_SEED) = Some 17 <-> (2 ^ 31 - 2 | 5)).
Proof.
  apply (Random_full_period 5 0 (upd (static_mem 1) (bench_vars 0, T_SEED) 17) 17).
  - split; vm_compute; reflexivity.
  - lia.
Defined.

(** The seeds 0 and 2^31-1 (a 32-bit seed may be either) are not usable:
    from them every call of [Random] returns 2^31-1. *)
Theorem Random_degenerate_seed (n : nat) :
  draws (S n) 0 = 2 ^ 31 - 1 /\ draws (S n) (2 ^ 31 - 1) = 2 ^ 31 - 1.
Proof.
  assert (E : schrage (2 ^ 31 - 1) = 2 ^ 31 - 1) by (by vm_compute).
  split; (induction n as [|n IH]; [by vm_compute|]);
    [change (schrage (draws (S n) 0) = 2 ^ 31 - 1)|change (schrage (draws (S n) (2 ^ 31 - 1)) = 2 ^ 31 - 1)];
    by rewrite IH.
Qed.
