(* ===== verification/ListShape.v ===== *)
(** * Linked lists of nodes in memory

    The shape of the sorted lists and of the queues: a chain of [node_t]
    objects through their [next] fields, where the lowest bit of a node's
    [next] marks the node as logically deleted.  The abstract value of a list
    is the set of the keys of its unmarked nodes. *)
From S2P Require Export Atomic.

(** A node of a chain: its address, its key, and whether it is marked. *)
Record nd : Set := Nd { na : Z; nk : Z; nm : bool }.

Definition first_addr (xs : list nd) : Z := match xs with [] => NULL | x :: _ => na x end.

Fixpoint chain (m : mem) (l : loc) (mk : bool) (xs : list nd) : Prop :=
  match xs with
  | [] => get m l = Some (NULL + b2z mk)
  | x :: xs' =>
      get m l = Some (na x + b2z mk) /\ is_node m (na x) /\
      get m (na x, KEY) = Some (nk x) /\ chain m (na x, NEXT) (nm x) xs'
  end.

(** A segment: from the location [l] over the nodes [xs] to the location [l']. *)
Fixpoint lseg (m : mem) (l : loc) (mk : bool) (xs : list nd) (l' : loc) (mk' : bool) : Prop :=
  match xs with
  | [] => l' = l /\ mk' = mk
  | x :: xs' =>
      get m l = Some (na x + b2z mk) /\ is_node m (na x) /\
      get m (na x, KEY) = Some (nk x) /\ lseg m (na x, NEXT) (nm x) xs' l' mk'
  end.

Section chains.
Implicit Types (m : mem) (l : loc) (xs ys zs : list nd).

Lemma chain_first m l mk xs : chain m l mk xs -> get m l = Some (first_addr xs + b2z mk).
Proof. destruct xs; simpl; tauto. Qed.

Lemma chain_app m l mk xs ys :
  chain m l mk (xs ++ ys) <-> exists l' mk', lseg m l mk xs l' mk' /\ chain m l' mk' ys.
Proof.
  revert l mk. induction xs as [|x xs IH]; intros l mk; simpl.
  - split; [eauto|]. intros (? & ? & (-> & ->) & ?). auto.
  - rewrite IH. naive_solver.
Qed.

Lemma lseg_app m l mk xs ys l2 mk2 :
  lseg m l mk (xs ++ ys) l2 mk2 <->
  exists l' mk', lseg m l mk xs l' mk' /\ lseg m l' mk' ys l2 mk2.
Proof.
  revert l mk. induction xs as [|x xs IH]; intros l mk; simpl.
  - split; [eauto|]. intros (? & ? & (-> & ->) & ?). auto.
  - rewrite IH. naive_solver.
Qed.

(** The end of a segment is its start or the [next] of one of its nodes. *)
Lemma lseg_end m l mk xs l' mk' :
  lseg m l mk xs l' mk' ->
  (xs = [] /\ l' = l /\ mk' = mk) \/
  exists x, x ∈ xs /\ l' = (na x, NEXT) /\ mk' = nm x.
Proof.
  revert l mk. induction xs as [|x xs IH]; intros l mk; simpl; [tauto|].
  intros (_ & _ & _ & H). right. apply IH in H as [(-> & -> & ->)|(y & Hy & -> & ->)].
  - exists x. split; [set_solver|auto].
  - exists y. split; [set_solver|auto].
Qed.

Lemma lseg_end_mk m l mk xs l' mk' b :
  lseg m l mk xs l' mk' -> mk = b -> Forall (fun x => nm x = b) xs -> mk' = b.
Proof.
  intros H Hmk Hall. apply lseg_end in H as [(_ & _ & ->)|(x & Hx & _ & ->)]; auto.
  rewrite Forall_forall in Hall. auto.
Qed.

(** What a chain reads. *)
Definition reads (l : loc) (xs : list nd) (l0 : loc) : Prop :=
  l0 = l \/ exists x, x ∈ xs /\ (l0 = (na x, KEY) \/ l0 = (na x, NEXT)).

Lemma chain_ext m m' l mk xs :
  (forall l0, reads l xs l0 -> get m' l0 = get m l0) ->
  (forall x, x ∈ xs -> is_node m (na x) -> is_node m' (na x)) ->
  chain m l mk xs -> chain m' l mk xs.
Proof.
  revert l mk. induction xs as [|x xs IH]; intros l mk Hg Hn; simpl.
  - intros H. rewrite Hg; [exact H|]. left. auto.
  - intros (H1 & H2 & H3 & H4). rewrite !Hg; [|right; exists x; set_solver|left; auto].
    split; [auto|]. split; [apply Hn; set_solver|]. split; [auto|].
    apply IH; [|intros; apply Hn; set_solver|auto].
    intros l0 [->|(y & Hy & Hl)]; apply Hg; right; [exists x|exists y]; set_solver.
Qed.

Lemma lseg_ext m m' l mk xs l' mk' :
  (forall l0, reads l xs l0 -> l0 <> l' -> get m' l0 = get m l0) ->
  (forall x, x ∈ xs -> is_node m (na x) -> is_node m' (na x)) ->
  NoDup (map na xs) -> l.1 ∉ map na xs ->
  lseg m l mk xs l' mk' -> lseg m' l mk xs l' mk'.
Proof.
  revert l mk. induction xs as [|x xs IH]; intros l mk Hg Hn Hnd Hl; simpl; auto.
  intros (H1 & H2 & H3 & H4).
  assert (Hend : l <> l' /\ (na x, KEY) <> l').
  { apply NoDup_cons in Hnd as [Hx Hnd]. simpl in Hl.
    apply lseg_end in H4 as [(-> & -> & _)|(y & Hy & -> & _)].
    - split; [|intros E; discriminate E]. intros ->. simpl in Hl. set_solver.
    - split; [|intros E; discriminate E]. intros ->. simpl in Hl. apply Hl.
      right. apply list_elem_of_fmap. eauto. }
  destruct Hend as [He1 He2].
  rewrite !Hg; [|right; exists x; set_solver|auto|left; auto|auto].
  split; [auto|]. split; [apply Hn; set_solver|]. split; [auto|].
  apply NoDup_cons in Hnd as [Hx Hnd].
  apply IH; [|intros; apply Hn; set_solver|auto|auto|auto].
  intros l0 [->|(y & Hy & Hl0)] Hne; apply Hg; auto; right; [exists x|exists y]; set_solver.
Qed.

(** A store outside the chain, and a store to the end of a segment. *)
Lemma chain_upd m l mk xs l0 v :
  ~ reads l xs l0 -> chain m l mk xs -> chain (upd m l0 v) l mk xs.
Proof.
  intros Hr. apply chain_ext.
  - intros l1 H1. apply get_upd_ne. intros ->. auto.
  - intros x _. apply is_node_upd.
Qed.

Lemma lseg_upd_end m l mk xs l' mk' v :
  NoDup (map na xs) -> l.1 ∉ map na xs ->
  lseg m l mk xs l' mk' -> lseg (upd m l' v) l mk xs l' mk'.
Proof.
  intros Hnd Hl. apply lseg_ext; auto.
  - intros l0 _ Hne. apply get_upd_ne. auto.
  - intros x _. apply is_node_upd.
Qed.

Lemma lseg_upd m l mk xs l' mk' l0 v :
  ~ reads l xs l0 -> NoDup (map na xs) -> l.1 ∉ map na xs ->
  lseg m l mk xs l' mk' -> lseg (upd m l0 v) l mk xs l' mk'.
Proof.
  intros Hr Hnd Hl. apply lseg_ext; auto.
  - intros l1 H1 _. apply get_upd_ne. intros ->. auto.
  - intros x _. apply is_node_upd.
Qed.

(** A change of objects that are not in the chain. *)
Lemma chain_objs m m' l mk xs :
  m' !! l.1 = m !! l.1 -> (forall x, x ∈ xs -> m' !! na x = m !! na x) ->
  chain m l mk xs -> chain m' l mk xs.
Proof.
  intros Hl Hx. apply chain_ext.
  - intros [b off] [->|(x & Hin & [[= -> ->]|[= -> ->]])]; apply get_lookup_eq; auto.
  - intros x Hin. apply is_node_lookup. auto.
Qed.

Lemma chain_frame O m m' O' l mk xs :
  frame O m m' O' -> l.1 ∉ O -> (forall x, x ∈ xs -> na x ∉ O) ->
  chain m l mk xs -> chain m' l mk xs.
Proof.
  intros [HF _] Hl Hx Hc. apply (chain_objs m); auto.
  - apply HF; auto. apply chain_first in Hc. apply live_get in Hc. auto.
  - intros x Hin. apply HF; auto. clear HF Hl Hx. revert l mk Hc Hin.
    induction xs as [|y ys IH]; intros l mk; simpl; [set_solver|].
    intros (_ & Hn & _ & Hc) [->|Hin]%elem_of_cons; [by apply is_node_live|eauto].
Qed.

Lemma chain_nodes m l mk xs x : chain m l mk xs -> x ∈ xs -> is_node m (na x).
Proof.
  revert l mk. induction xs as [|y ys IH]; intros l mk; simpl; [set_solver|].
  intros (_ & Hn & _ & Hc) [->|Hin]%elem_of_cons; eauto.
Qed.

Lemma lseg_nodes m l mk xs l' mk' x : lseg m l mk xs l' mk' -> x ∈ xs -> is_node m (na x).
Proof.
  revert l mk. induction xs as [|y ys IH]; intros l mk; simpl; [set_solver|].
  intros (_ & Hn & _ & Hc) [->|Hin]%elem_of_cons; eauto.
Qed.
End chains.

(** The rest of a chain after its first location is redirected. *)
Lemma chain_next m l l' xs v :
  chain m l false xs -> get m l' = Some (first_addr xs + b2z false) -> l.1 <> l'.1 ->
  (forall x, x ∈ xs -> l.1 <> na x) -> chain (upd m l v) l' false xs.
Proof.
  intros Hc Hg Hne Hx. apply chain_upd.
  - intros [->|(x & Hin & [->| ->])]; [done|by apply (Hx x)|by apply (Hx x)].
  - destruct xs; simpl in *; [auto|]. tauto.
Qed.

(** ** The abstract set of a list *)

Definition keys (xs : list nd) : list Z := map nk (filter (fun x => nm x = false) xs).

Definition key_set (xs : list nd) : gset Z := list_to_set (keys xs).

(** Sorted by key, marked nodes included. *)
Definition sorted (xs : list nd) : Prop := StronglySorted (fun x y => nk x < nk y) xs.

Lemma sorted_app xs ys :
  sorted (xs ++ ys) <->
  sorted xs /\ sorted ys /\ (forall x y, x ∈ xs -> y ∈ ys -> nk x < nk y).
Proof.
  unfold sorted. induction xs as [|x xs IH]; simpl.
  - split; [intros; repeat split; auto using SSorted_nil; set_solver|tauto].
  - split.
    + intros H. inversion H as [|? ? Hs Hf]; subst. apply IH in Hs as (H1 & H2 & H3).
      apply Forall_app in Hf as [Hf1 Hf2]. repeat split; auto.
      * constructor; auto.
      * intros a b [->|Ha]%elem_of_cons Hb; auto. rewrite Forall_forall in Hf2. auto.
    + intros (H1 & H2 & H3). inversion H1 as [|? ? Hs Hf]; subst. constructor.
      * apply IH. repeat split; auto. set_solver.
      * apply Forall_app. split; auto. apply Forall_forall. intros b Hb. apply H3; set_solver.
Qed.

Definition mark (z : nd) : nd := Nd (na z) (nk z) true.

Lemma sorted_unlink ys z zs : sorted (ys ++ (z :: zs)) -> sorted (ys ++ zs).
Proof.
  rewrite !sorted_app. intros (H1 & H2 & H3). split_and!; auto.
  - inversion H2; auto.
  - intros; apply H3; set_solver.
Qed.

Lemma sorted_link ys zs n key :
  sorted (ys ++ zs) -> (forall y, y ∈ ys -> nk y < key) -> (forall z, z ∈ zs -> key < nk z) ->
  sorted (ys ++ (Nd n key false :: zs)).
Proof.
  rewrite !sorted_app. intros (H1 & H2 & H3) Hy Hz. split_and!; auto.
  - constructor; auto. apply Forall_forall. auto.
  - intros a b Ha [->|Hb]%elem_of_cons; auto.
Qed.

Lemma sorted_mark ys z zs : sorted (ys ++ (z :: zs)) -> sorted (ys ++ (mark z :: zs)).
Proof.
  rewrite !sorted_app. unfold sorted. intros (H1 & H2 & H3). split_and!; auto.
  - inversion H2; constructor; auto.
  - intros a b Ha [->|Hb]%elem_of_cons; [apply (H3 a z); set_solver|apply H3; set_solver].
Qed.

(** ** The split of a list at a key

    What a traversal for [key] leaves behind: the unmarked nodes with smaller
    keys, and the rest of the list from the first unmarked node whose key is
    not smaller; marked nodes met on the way are dropped. *)
Fixpoint lf_split (key : Z) (xs : list nd) : list nd * list nd :=
  match xs with
  | [] => ([], [])
  | x :: xs' =>
      if nm x then lf_split key xs'
      else if key <=? nk x then ([], xs)
      else (x :: (lf_split key xs').1, (lf_split key xs').2)
  end.

(** The answer of a traversal. *)
Definition found (key : Z) (zs : list nd) : bool :=
  match zs with [] => false | z :: _ => nk z =? key end.

Lemma keys_app xs ys : keys (xs ++ ys) = keys xs ++ keys ys.
Proof. unfold keys. rewrite filter_app, map_app. auto. Qed.

Lemma key_set_app xs ys : key_set (xs ++ ys) = key_set xs ∪ key_set ys.
Proof. unfold key_set. rewrite keys_app, list_to_set_app_L. auto. Qed.

Lemma key_set_cons x xs :
  key_set (x :: xs) = if nm x then key_set xs else {[nk x]} ∪ key_set xs.
Proof.
  unfold key_set, keys. rewrite filter_cons. destruct (nm x) eqn:E; case_decide; try done.
Qed.

Lemma elem_of_key_set k xs : k ∈ key_set xs <-> exists x, x ∈ xs /\ nm x = false /\ nk x = k.
Proof.
  unfold key_set, keys. rewrite elem_of_list_to_set, list_elem_of_fmap.
  setoid_rewrite list_elem_of_filter. naive_solver.
Qed.

Section split.
Implicit Types (xs ys zs : list nd).

Lemma lf_split_set key xs :
  key_set ((lf_split key xs).1 ++ (lf_split key xs).2) = key_set xs.
Proof.
  induction xs as [|x xs IH]; simpl; auto. rewrite key_set_cons.
  destruct (nm x) eqn:Em; [auto|]. destruct (Z.leb_spec key (nk x)); simpl.
  - rewrite key_set_cons, Em. auto.
  - rewrite key_set_cons, Em, IH. auto.
Qed.

Lemma lf_split_sub key xs x :
  x ∈ (lf_split key xs).1 ++ (lf_split key xs).2 -> x ∈ xs.
Proof.
  induction xs as [|y xs IH]; simpl; auto.
  destruct (nm y); [intros; right; auto|]. destruct (key <=? nk y); simpl; auto.
  rewrite !elem_of_cons. naive_solver.
Qed.

Lemma lf_split_lt key xs x : x ∈ (lf_split key xs).1 -> nm x = false /\ nk x < key.
Proof.
  induction xs as [|y xs IH]; simpl; [set_solver|].
  destruct (nm y) eqn:Em; [auto|]. destruct (Z.leb_spec key (nk y)); simpl; [set_solver|].
  intros [->|Hx]%elem_of_cons; auto.
Qed.

Lemma lf_split_ge key xs z zs :
  (lf_split key xs).2 = z :: zs -> nm z = false /\ key <= nk z.
Proof.
  induction xs as [|y xs IH]; simpl; [discriminate|].
  destruct (nm y) eqn:Em; [auto|]. destruct (Z.leb_spec key (nk y)); simpl; auto.
  intros [= <- <-]. auto.
Qed.

Lemma lf_split_length key xs :
  (length ((lf_split key xs).1 ++ (lf_split key xs).2) <= length xs)%nat.
Proof.
  induction xs as [|y xs IH]; simpl; auto.
  destruct (nm y); [lia|]. destruct (key <=? nk y); simpl; [auto|]. lia.
Qed.

(** The answer is membership in the abstract set. *)
Lemma found_spec key xs :
  sorted xs -> found key (lf_split key xs).2 = bool_decide (key ∈ key_set xs).
Proof.
  intros Hs. rewrite <- (lf_split_set key xs), key_set_app.
  pose proof (lf_split_lt key xs) as Hlt. pose proof (lf_split_ge key xs) as Hge.
  assert (Hz : sorted (lf_split key xs).2).
  { clear Hlt Hge. induction Hs as [|x xs Hs IH Hx]; simpl; [constructor|].
    destruct (nm x); auto. destruct (key <=? nk x); simpl; auto. constructor; auto. }
  destruct (lf_split key xs) as [ys [|z zs]]; simpl in *.
  - symmetry. apply bool_decide_eq_false. rewrite elem_of_union, !elem_of_key_set.
    intros [(x & Hx & Hm & <-)|(x & Hx & _)]; [|set_solver]. apply Hlt in Hx. lia.
  - destruct (Hge z zs eq_refl) as [Hzm Hzk]. inversion Hz as [|? ? _ Hf]; subst.
    rewrite Forall_forall in Hf. apply eq_true_iff_eq. rewrite Z.eqb_eq, bool_decide_eq_true.
    rewrite elem_of_union, !elem_of_key_set. split.
    + intros Hk. right. exists z. set_solver.
    + intros [(x & Hx & _ & <-)|(x & Hx & Hm & <-)]; [apply Hlt in Hx; lia|].
      apply elem_of_cons in Hx as [->|Hx]; auto. apply Hf in Hx. lia.
Qed.

(** Insertion and deletion at the split. *)
Lemma split_insert key n xs :
  key_set ((lf_split key xs).1 ++ (Nd n key false :: (lf_split key xs).2)) = {[key]} ∪ key_set xs.
Proof.
  rewrite key_set_app, key_set_cons. simpl.
  pose proof (lf_split_set key xs) as E. rewrite key_set_app in E. set_solver.
Qed.

Lemma split_delete key ys z zs :
  sorted (ys ++ (z :: zs)) -> nk z = key -> nm z = false ->
  key_set (ys ++ zs) = key_set (ys ++ (z :: zs)) ∖ {[key]}.
Proof.
  intros Hs Hk Hm. apply sorted_app in Hs as (_ & Hs2 & Hs3).
  inversion Hs2 as [|? ? _ Hf]; subst. rewrite Forall_forall in Hf.
  rewrite !key_set_app, key_set_cons, Hm. apply set_eq. intros k.
  rewrite elem_of_difference, !elem_of_union, elem_of_singleton, !elem_of_key_set.
  split; [|naive_solver]. intros [(x & Hx & Hxm & <-)|(x & Hx & Hxm & <-)].
  - split; [naive_solver|]. specialize (Hs3 x z Hx ltac:(left)). lia.
  - split; [naive_solver|]. specialize (Hf x Hx). lia.
Qed.

(** A list without marks is split at the first key that is not smaller. *)
Lemma split_unmarked key ys zs :
  Forall (fun x => nm x = false) (ys ++ zs) -> (forall y, y ∈ ys -> nk y < key) ->
  match zs with [] => True | z :: _ => key <= nk z end ->
  lf_split key (ys ++ zs) = (ys, zs).
Proof.
  intros Hu Hlt Hge. induction ys as [|y ys IH]; simpl in *.
  - destruct zs as [|z zs]; [done|]. inversion Hu as [|? ? Hz _]; subst. simpl.
    rewrite Hz. by apply Z.leb_le in Hge as ->.
  - inversion Hu as [|? ? Hy Hu']; subst. rewrite Hy.
    destruct (Z.leb_spec key (nk y)) as [Hle|_]; [specialize (Hlt y ltac:(left)); lia|].
    rewrite IH; auto. intros; apply Hlt. by right.
Qed.

(** The set after a traversal that found the key, or did not. *)
Lemma found_keys key xs ys zs :
  sorted xs -> lf_split key xs = (ys, zs) -> found key zs = true ->
  key_set (ys ++ zs) = {[key]} ∪ key_set xs.
Proof.
  intros Hs Hsp Hf. pose proof (found_spec key xs Hs) as H1. pose proof (lf_split_set key xs) as H2.
  rewrite Hsp in H1, H2. simpl in H1, H2. rewrite Hf in H1. symmetry in H1.
  apply bool_decide_eq_true in H1. rewrite H2. set_solver.
Qed.

Lemma found_no_keys key xs ys zs :
  sorted xs -> lf_split key xs = (ys, zs) -> found key zs = false ->
  key_set (ys ++ zs) = key_set xs ∖ {[key]}.
Proof.
  intros Hs Hsp Hf. pose proof (found_spec key xs Hs) as H1. pose proof (lf_split_set key xs) as H2.
  rewrite Hsp in H1, H2. simpl in H1, H2. rewrite Hf in H1. symmetry in H1.
  apply bool_decide_eq_false in H1. rewrite H2. set_solver.
Qed.

Lemma split_gt key xs z :
  sorted (lf_split key xs).2 -> found key (lf_split key xs).2 = false ->
  z ∈ (lf_split key xs).2 -> key < nk z.
Proof.
  pose proof (lf_split_ge key xs) as Hge. destruct (lf_split key xs) as [ys [|z0 zs]]; simpl.
  - set_solver.
  - destruct (Hge z0 zs eq_refl) as [_ Hle]. intros Hs Hf%Z.eqb_neq.
    inversion Hs as [|? ? _ Hall]; subst. rewrite Forall_forall in Hall.
    intros [->|Hz]%elem_of_cons; [lia|]. specialize (Hall z Hz). lia.
Qed.
End split.

(** ** The list invariant

    [linv head fs O xs m]: from [head] hangs the list [xs]; the object
    of [head], the scratch objects [fs] and the nodes are distinct, and none is
    owned by the allocator or the reclamation scheme ([O]). *)
Definition objs (head : loc) (fs : list Z) (xs : list nd) : list Z :=
  head.1 :: fs ++ map na xs.
#[global] Arguments objs head fs xs : simpl never.

Record linv (head : loc) (fs : list Z) (O : gset Z) (xs : list nd) (m : mem) : Prop := {
  linv_chain : chain m head false xs;
  linv_nodup : NoDup (objs head fs xs);
  linv_own : forall b, b ∈ objs head fs xs -> b ∉ O;
  linv_scratch : forall b, b ∈ fs -> is_struct m b 32
}.

(** The objects an operation on the list may change. *)
Definition fp (head : loc) (fs : list Z) (O : gset Z) (xs : list nd) : gset Z :=
  O ∪ list_to_set (objs head fs xs).

Lemma elem_of_fp head fs O xs b : b ∈ fp head fs O xs <-> b ∈ O \/ b ∈ objs head fs xs.
Proof. unfold fp. rewrite elem_of_union, elem_of_list_to_set. auto. Qed.

Section linv.
Implicit Types (m : mem) (head : loc) (fs : list Z) (O : gset Z) (xs ys zs : list nd).

Lemma objs_app head fs ys zs : objs head fs (ys ++ zs) = objs head fs ys ++ map na zs.
Proof. unfold objs. rewrite map_app. simpl. by rewrite (assoc_L (++)). Qed.

Lemma objs_node head fs xs x : x ∈ xs -> na x ∈ objs head fs xs.
Proof. intros. right. apply elem_of_app. right. apply list_elem_of_fmap. eauto. Qed.

Lemma objs_scratch head fs xs b : b ∈ fs -> b ∈ objs head fs xs.
Proof. intros. right. apply elem_of_app. auto. Qed.

Lemma objs_head head fs xs : head.1 ∈ objs head fs xs.
Proof. left. Qed.

(** A chain only reads the object of its head and its nodes. *)
Lemma reads_objs head fs xs l : reads head xs l -> l.1 ∈ objs head fs xs.
Proof.
  intros [->|(x & Hx & [->| ->])]; simpl; auto using objs_head, objs_node.
Qed.

Lemma linv_nodup_nodes head fs O xs m :
  linv head fs O xs m -> NoDup (map na xs) /\ head.1 ∉ map na xs.
Proof.
  intros [_ H _ _]. unfold objs in H. apply NoDup_cons in H as [H1 H2].
  apply NoDup_app in H2 as (_ & _ & H3). split; auto. intros E. apply H1, elem_of_app. auto.
Qed.

Lemma linv_frame head fs O xs m m' O' :
  linv head fs O xs m -> frame O m m' O' -> linv head fs O' xs m'.
Proof.
  intros [Hc Hn Ho Hf] HF. split; auto.
  - eapply chain_frame; eauto using objs_head, objs_node.
  - intros b Hb. eapply frame_notin; eauto. unfold objs in Hb.
    apply elem_of_cons in Hb as [->|[Hb|Hb]%elem_of_app].
    + apply chain_first in Hc. apply live_get in Hc. auto.
    + eapply is_struct_live. eauto.
    + apply list_elem_of_fmap in Hb as (x & -> & Hx). eapply is_node_live, chain_nodes; eauto.
  - intros b Hb. eapply frame_is_struct; eauto using objs_scratch.
Qed.

(** A store to a scratch object. *)
Lemma linv_upd_scratch head fs O xs m l v :
  linv head fs O xs m -> l.1 ∈ fs -> linv head fs O xs (upd m l v).
Proof.
  intros [Hc Hn Ho Hf] Hl. split; auto.
  - apply chain_upd; auto. intros Hr. unfold objs in Hn.
    apply NoDup_cons in Hn as [Hn1 Hn2]. apply NoDup_app in Hn2 as (_ & Hd & _).
    destruct Hr as [->|(x & Hx & [->| ->])].
    + apply Hn1, elem_of_app. auto.
    + apply (Hd _ Hl). apply list_elem_of_fmap. exists x. auto.
    + apply (Hd _ Hl). apply list_elem_of_fmap. exists x. auto.
  - intros b Hb. apply is_struct_upd. auto.
Qed.

(** A store to another field of the object of the head. *)
Lemma linv_upd_lock head fs O xs m l v :
  linv head fs O xs m -> l.1 = head.1 -> l <> head -> linv head fs O xs (upd m l v).
Proof.
  intros Hi Hl Hne. pose proof (linv_nodup_nodes _ _ _ _ _ Hi) as [_ Hhd].
  destruct Hi as [Hc Hn Ho Hf]. split; auto.
  - apply chain_upd; auto. intros [->|(x & Hx & [->| ->])]; [done|..]; apply Hhd; rewrite <- Hl;
      apply list_elem_of_fmap; eauto.
  - intros b Hb. apply is_struct_upd. auto.
Qed.

(** A store to an object outside the list. *)
Lemma linv_upd_out head fs O xs m l v :
  linv head fs O xs m -> l.1 ∉ objs head fs xs -> linv head fs O xs (upd m l v).
Proof.
  intros [Hc Hn Ho Hf] Hl. split; auto.
  - apply chain_upd; auto. intros Hr. apply Hl, (reads_objs _ fs _ _ Hr).
  - intros b Hb. apply is_struct_upd. auto.
Qed.

Lemma lseg_det m l mk xs l1 mk1 l2 mk2 :
  lseg m l mk xs l1 mk1 -> lseg m l mk xs l2 mk2 -> l1 = l2 /\ mk1 = mk2.
Proof.
  revert l mk. induction xs as [|x xs IH]; simpl; intros l mk.
  - intros (-> & ->) (-> & ->). auto.
  - intros (_ & _ & _ & H1) (_ & _ & _ & H2). eauto.
Qed.

(** A list cut at a location. *)
Lemma linv_cut head fs O ys zs m prev mk :
  linv head fs O (ys ++ zs) m -> lseg m head false ys prev mk ->
  chain m prev mk zs /\ prev.1 ∈ objs head fs ys.
Proof.
  intros [Hc _ _ _] Hl. apply chain_app in Hc as (l' & mk' & Hl' & Hc). split.
  - destruct (lseg_det _ _ _ _ _ _ _ _ Hl Hl') as [-> ->]. auto.
  - apply lseg_end in Hl as [(-> & -> & _)|(x & Hx & -> & _)];
      simpl; auto using objs_head, objs_node.
Qed.

Lemma lseg_snoc m head ys prev z :
  lseg m head false ys prev false -> get m prev = Some (na z) ->
  is_node m (na z) -> get m (na z, KEY) = Some (nk z) -> nm z = false ->
  lseg m head false (ys ++ [z]) (na z, NEXT) false.
Proof.
  intros Hl Hp Hn Hk Hm. apply lseg_app. exists prev, false. split; auto. simpl.
  rewrite Hm, Z.add_0_r. auto.
Qed.

(** Unlinking a node. *)
Lemma linv_unlink head fs O ys z zs m prev :
  linv head fs O (ys ++ (z :: zs)) m -> lseg m head false ys prev false ->
  let m' := upd m prev (first_addr zs) in
  linv head fs O (ys ++ zs) m' /\ lseg m' head false ys prev false /\
  is_node m' (na z) /\ (na z ∉ O) /\ (na z ∉ objs head fs (ys ++ zs)).
Proof.
  intros Hi Hl. pose proof (linv_cut _ _ _ _ _ _ _ _ Hi Hl) as [Hc Hp].
  pose proof (linv_nodup_nodes _ _ _ _ _ Hi) as [Hnd Hhd].
  destruct Hi as [Hch Hn Ho Hf]. simpl in Hc. destruct Hc as (Hg & Hz & _ & Hc).
  rewrite map_app in Hnd, Hhd. simpl in Hnd, Hhd.
  assert (Hl' : lseg (upd m prev (first_addr zs)) head false ys prev false).
  { apply lseg_upd_end; auto; [|set_solver]. apply NoDup_app in Hnd. tauto. }
  assert (Hzs : forall l, reads (na z, NEXT) zs l -> l <> prev).
  { intros l Hr ->. rewrite objs_app in Hn. cbn [map] in Hn. apply NoDup_app in Hn as (_ & Hd & _).
    apply (Hd prev.1 Hp). destruct Hr as [->|(x & Hx & [->| ->])]; simpl; [left|right|right];
      apply list_elem_of_fmap; eauto. }
  assert (Hzn : na z ∉ objs head fs (ys ++ zs)).
  { rewrite objs_app in Hn. rewrite objs_app. cbn [map] in Hn.
    apply NoDup_app in Hn as (_ & Hd & Hn). apply NoDup_cons in Hn as [Hn _].
    rewrite elem_of_app. intros [E|E]; [|auto]. apply (Hd _ E). left. }
  split; [|split_and!; auto; [by apply is_node_upd|apply Ho, objs_node; set_solver]].
  split.
  - apply chain_app. exists prev, false. split; auto.
    apply (chain_upd m (na z, NEXT) (nm z) zs prev (first_addr zs)) in Hc;
      [|intros Hr; apply (Hzs _ Hr); auto].
    apply live_get in Hg. destruct zs as [|x zs]; simpl in *.
    + by apply get_upd_eq.
    + destruct Hc as (_ & Hx). split; [|auto]. rewrite Z.add_0_r. by apply get_upd_eq.
  - eapply sublist_NoDup; [exact Hn|]. rewrite !objs_app. cbn [map]. apply sublist_app; auto.
    apply sublist_cons. auto.
  - intros b Hb. apply Ho. rewrite objs_app, elem_of_app in *. cbn [map]. rewrite elem_of_cons. tauto.
  - intros b Hb. apply is_struct_upd. auto.
Qed.

(** Linking a node. *)
Lemma linv_link head fs O ys zs m prev n key :
  linv head fs O (ys ++ zs) m -> lseg m head false ys prev false ->
  is_node m n -> n ∉ objs head fs (ys ++ zs) -> n ∉ O ->
  get m (n, KEY) = Some key -> get m (n, NEXT) = Some (first_addr zs) ->
  linv head fs O (ys ++ (Nd n key false :: zs)) (upd m prev n).
Proof.
  intros Hi Hl Hn Hno HnO Hk Hx. pose proof (linv_cut _ _ _ _ _ _ _ _ Hi Hl) as [Hc Hp].
  pose proof (linv_nodup_nodes _ _ _ _ _ Hi) as [Hnd Hhd].
  destruct Hi as [Hch Hnodup Ho Hf]. rewrite map_app in Hnd, Hhd.
  assert (Hnp : n <> prev.1).
  { intros ->. apply Hno. rewrite objs_app, elem_of_app. auto. }
  assert (Hpl : live m prev.1) by (apply chain_first, live_get in Hc; auto).
  split.
  - apply chain_app. exists prev, false. split.
    { apply lseg_upd_end; auto; [|set_solver]. apply NoDup_app in Hnd. tauto. }
    cbn [chain na nk nm b2z]. split_and!.
    + rewrite Z.add_0_r. by apply get_upd_eq.
    + by apply is_node_upd.
    + rewrite get_upd_ne; auto. intros ->. auto.
    + apply (chain_next m prev); auto.
      * rewrite Hx. by rewrite Z.add_0_r.
      * intros z Hz E. rewrite objs_app in Hnodup. apply NoDup_app in Hnodup as (_ & Hd & _).
        apply (Hd prev.1 Hp). rewrite E. apply list_elem_of_fmap. eauto.
  - rewrite objs_app in *. cbn [map na]. apply NoDup_app in Hnodup as (H1 & H2 & H3).
    rewrite elem_of_app in Hno. apply NoDup_app. split_and!; auto.
    + intros b Hb [->|Hb']%elem_of_cons; [auto|]. apply (H2 b); auto.
    + apply NoDup_cons. auto.
  - intros b. rewrite objs_app, elem_of_app. cbn [map na]. rewrite elem_of_cons.
    intros [Hb|[->|Hb]]; auto; apply Ho; rewrite objs_app, elem_of_app; auto.
  - intros b Hb. apply is_struct_upd. auto.
Qed.

(** Marking a node. *)

Lemma linv_mark head fs O ys z zs m prev :
  linv head fs O (ys ++ (z :: zs)) m -> lseg m head false ys prev false ->
  let m' := upd m (na z, NEXT) (first_addr zs + 1) in
  linv head fs O (ys ++ (mark z :: zs)) m' /\ lseg m' head false ys prev false.
Proof.
  intros Hi Hl. pose proof (linv_cut _ _ _ _ _ _ _ _ Hi Hl) as [Hc Hp].
  pose proof (linv_nodup_nodes _ _ _ _ _ Hi) as [Hnd Hhd].
  destruct Hi as [Hch Hnodup Ho Hf]. rewrite map_app in Hnd, Hhd. cbn [map] in *.
  destruct Hc as (Hg & Hz & Hk & Hc). simpl.
  apply NoDup_app in Hnd as (Hnd1 & Hnd2 & Hnd3). apply NoDup_cons in Hnd3 as [Hnd3 Hnd4].
  assert (Hzp : na z <> prev.1).
  { intros E. rewrite objs_app in Hnodup. apply NoDup_app in Hnodup as (_ & Hd & _).
    apply (Hd prev.1 Hp). rewrite <- E. left. }
  assert (Hl' : lseg (upd m (na z, NEXT) (first_addr zs + 1)) head false ys prev false).
  { apply lseg_upd; auto; [|set_solver].
    intros [E|(x & Hx & [E|E])]; [|congruence|injection E as E].
    - apply Hhd. rewrite <- E. simpl. set_solver.
    - apply (Hnd2 (na x)); [apply list_elem_of_fmap; eauto|]. rewrite E. left. }
  split; auto. split.
  - apply chain_app. exists prev, false. split; auto. simpl. split_and!.
    + rewrite get_upd_ne; auto. intros E. apply Hzp. by rewrite <- E.
    + by apply is_node_upd.
    + rewrite get_upd_ne; auto.
    + apply is_node_live in Hz. destruct zs as [|x zs]; simpl in *.
      * by apply get_upd_eq.
      * split; [by apply get_upd_eq|]. destruct Hc as (_ & Hx & Hxk & Hc).
        assert (Hne : na x <> na z) by set_solver. split_and!.
        -- by apply is_node_upd.
        -- rewrite get_upd_ne; auto.
        -- apply chain_upd; auto. intros [E|(y & Hy & [E|E])]; try congruence.
           injection E as E. apply Hnd3. right. rewrite E. apply list_elem_of_fmap. eauto.
  - rewrite objs_app in *. auto.
  - intros b Hb. apply Ho. rewrite objs_app in *. auto.
  - intros b Hb. apply is_struct_upd. auto.
Qed.
End linv.

(** ** Locations in a list by position

    [end_loc head ys] is the location after the nodes [ys]: [head], or the
    [next] of the last of them. *)
Definition end_loc (head : loc) (ys : list nd) : loc :=
  match last ys with None => head | Some y => (na y, NEXT) end.

Definition unmarked (ys : list nd) : Prop := Forall (fun y => nm y = false) ys.

Lemma end_loc_snoc head ys z : end_loc head (ys ++ [z]) = (na z, NEXT).
Proof. unfold end_loc. by rewrite last_snoc. Qed.

Lemma end_loc_cons head x xs : end_loc head (x :: xs) = end_loc (na x, NEXT) xs.
Proof. unfold end_loc. rewrite last_cons. by destruct (last xs). Qed.

Lemma unmarked_snoc ys z : unmarked (ys ++ [z]) <-> unmarked ys /\ nm z = false.
Proof. unfold unmarked. rewrite Forall_app, Forall_singleton. auto. Qed.

Section positions.
Implicit Types (m : mem) (head : loc) (fs : list Z) (O : gset Z) (xs ys zs : list nd).

Lemma lseg_end_loc m head mk ys l mk' : lseg m head mk ys l mk' -> l = end_loc head ys.
Proof.
  revert head mk. induction ys as [|y ys IH]; intros head mk; simpl.
  - intros [-> _]. auto.
  - intros (_ & _ & _ & H). apply IH in H as ->. unfold end_loc. rewrite last_cons.
    destruct (last ys); auto.
Qed.

Lemma linv_lseg head fs O ys zs m :
  linv head fs O (ys ++ zs) m -> unmarked ys -> lseg m head false ys (end_loc head ys) false.
Proof.
  intros [Hc _ _ _] Hu. apply chain_app in Hc as (l & mk & Hl & _).
  pose proof (lseg_end_loc _ _ _ _ _ _ Hl) as ->.
  by rewrite (lseg_end_mk _ _ _ _ _ _ false Hl eq_refl Hu) in Hl.
Qed.

(** The list read at a position. *)
Lemma linv_at head fs O ys zs m :
  linv head fs O (ys ++ zs) m -> unmarked ys ->
  get m (end_loc head ys) = Some (first_addr zs) /\ (end_loc head ys).1 ∈ objs head fs ys.
Proof.
  intros Hi Hu. pose proof (linv_lseg _ _ _ _ _ _ Hi Hu) as Hl.
  destruct (linv_cut _ _ _ _ _ _ _ _ Hi Hl) as [Hc Hp]. split; auto.
  apply chain_first in Hc. by rewrite Z.add_0_r in Hc.
Qed.

Lemma linv_node head fs O ys z zs m :
  linv head fs O (ys ++ (z :: zs)) m ->
  is_node m (na z) /\ get m (na z, KEY) = Some (nk z) /\
  get m (na z, NEXT) = Some (first_addr zs + b2z (nm z)) /\
  first_addr zs mod 2 = 0 /\ 0 <= first_addr zs < M64.
Proof.
  intros [Hc _ _ _]. apply chain_app in Hc as (l & mk & _ & _ & Hn & Hk & Hc).
  split; [auto|split; [auto|split; [by apply chain_first|]]].
  destruct zs; simpl in *; [split; [done|split; [lia|reflexivity]]|].
  destruct Hc as (_ & (? & ? & _) & _). split; [auto|lia].
Qed.

(** A scratch object more or less. *)
Lemma objs_cons head n fs xs b : b ∈ objs head (n :: fs) xs <-> b = n \/ b ∈ objs head fs xs.
Proof. unfold objs. simpl. rewrite !elem_of_cons. tauto. Qed.

Lemma linv_drop head n fs O xs m :
  linv head (n :: fs) O xs m ->
  linv head fs O xs m /\ (n ∉ objs head fs xs) /\ (n ∉ O) /\ is_struct m n 32.
Proof.
  intros [H1 H3 H4 H5].
  assert (Hp : Permutation (objs head (n :: fs) xs) (n :: objs head fs xs)) by apply perm_swap.
  rewrite Hp in H3. apply NoDup_cons in H3 as [H3 H3'].
  split; [|split_and!; [auto|apply H4, objs_cons; auto|apply H5; left]].
  split; auto.
  - intros b Hb. apply H4, objs_cons. auto.
  - intros b Hb. apply H5. by right.
Qed.

Lemma linv_add head n fs O xs m :
  linv head fs O xs m -> n ∉ objs head fs xs -> n ∉ O -> is_struct m n 32 ->
  linv head (n :: fs) O xs m.
Proof.
  intros [H1 H3 H4 H5] Hn HO Hs. split; auto.
  - assert (Hp : Permutation (objs head (n :: fs) xs) (n :: objs head fs xs)) by apply perm_swap.
    rewrite Hp. apply NoDup_cons. auto.
  - intros b [->|Hb]%objs_cons; auto.
  - intros b [->|Hb]%elem_of_cons; auto.
Qed.

(** A node handed over by the owner is not in the list. *)
Lemma linv_fresh head fs O xs m p :
  linv head fs O xs m -> p ∈ O \/ m !! p = None -> p ∉ objs head fs xs.
Proof.
  intros [H1 H3 H4 H5] Hp Hin. destruct Hp as [Hp|Hp]; [by apply (H4 p)|].
  unfold objs in Hin. apply elem_of_cons in Hin as [->|[Hin|Hin]%elem_of_app].
  - apply chain_first, live_get in H1 as [o Ho]. congruence.
  - apply H5, is_struct_live in Hin as [o Ho]. congruence.
  - apply list_elem_of_fmap in Hin as (x & -> & Hx).
    apply (chain_nodes _ _ _ _ x), is_node_live in H1 as [o Ho]; auto. congruence.
Qed.

(** Scratch objects are apart from the list. *)
Lemma linv_scratch_ne head fs O xs m b :
  linv head fs O xs m -> b ∈ fs -> head.1 <> b /\ (forall x, x ∈ xs -> na x <> b).
Proof.
  intros [_ H _ _] Hb. unfold objs in H. apply NoDup_cons in H as [H1 H2].
  apply NoDup_app in H2 as (_ & H3 & _). split.
  - intros E. apply H1, elem_of_app. rewrite E. auto.
  - intros x Hx <-. apply (H3 _ Hb). apply list_elem_of_fmap. eauto.
Qed.

Lemma linv_scratch_end head fs O ys zs m b :
  linv head fs O (ys ++ zs) m -> b ∈ fs -> (end_loc head ys).1 <> b.
Proof.
  intros Hi Hb. destruct (linv_scratch_ne _ _ _ _ _ _ Hi Hb) as [H1 H2].
  unfold end_loc. destruct (last ys) as [y|] eqn:E; auto. simpl. apply H2.
  apply last_Some in E as [ys' ->]. set_solver.
Qed.

(** What changes with a list: the objects of its owner and its own. *)
Lemma fp_own head fs O O' xs m m' :
  frame O m m' O' -> frame (fp head fs O xs) m m' (fp head fs O' xs).
Proof. intros HF. eapply frame_weaken; [exact HF| |]; unfold fp; set_solver. Qed.

Lemma fp_upd head fs O xs xs' m l v :
  l.1 ∈ fp head fs O xs -> (forall b, b ∈ objs head fs xs' -> b ∈ fp head fs O xs) ->
  frame (fp head fs O xs) m (upd m l v) (fp head fs O xs').
Proof.
  intros Hl Hs. eapply frame_weaken; [apply frame_upd, Hl|done|].
  intros b. rewrite elem_of_union, elem_of_fp. unfold fp. set_solver.
Qed.

Lemma fp_retire head fs O O' xs xs' p m m' :
  frame (O ∪ {[p]}) m m' O' -> p ∈ objs head fs xs ->
  (forall b, b ∈ objs head fs xs' -> b ∈ objs head fs xs) ->
  frame (fp head fs O xs) m m' (fp head fs O' xs').
Proof.
  intros HF Hp Hs. eapply frame_weaken; [exact HF| |].
  - intros b. rewrite elem_of_fp. set_solver.
  - intros b. rewrite elem_of_union, !elem_of_fp. naive_solver.
Qed.
End positions.

(** ** Private lists of nodes

    A list of nodes linked through the field [f] (usually [mr_next]): free
    lists, limbo lists, retired lists. *)
Fixpoint flist (f : Z) (m : mem) (p : Z) (ns : list Z) : Prop :=
  match ns with
  | [] => p = NULL
  | n :: ns' => p = n /\ is_node m n /\ exists q, get m (n, f) = Some q /\ flist f m q ns'
  end.

Section flist.
Implicit Types (m : mem) (ns : list Z).

Lemma flist_null f m p ns : flist f m p ns -> p = NULL <-> ns = [].
Proof.
  destruct ns as [|n ns]; simpl; [tauto|]. intros (-> & Hn & _).
  apply is_node_nonnull in Hn. split; [tauto|discriminate].
Qed.

Lemma flist_ext f m m' p ns :
  (forall n, n ∈ ns -> get m' (n, f) = get m (n, f)) ->
  (forall n, n ∈ ns -> is_node m n -> is_node m' n) ->
  flist f m p ns -> flist f m' p ns.
Proof.
  revert p. induction ns as [|n ns IH]; intros p Hg Hn; simpl; auto.
  intros (-> & Hnode & q & Hq & Hl). split; [auto|]. split; [apply Hn; [left|auto]|].
  exists q. rewrite Hg by left. split; auto. apply IH; auto; intros; [apply Hg|apply Hn]; by try right.
Qed.

Lemma flist_upd f m p ns l v :
  l.2 <> f \/ l.1 ∉ ns -> flist f m p ns -> flist f (upd m l v) p ns.
Proof.
  intros Hl. apply flist_ext; [|intros; by apply is_node_upd].
  intros n Hn. apply get_upd_ne. intros ->. simpl in Hl. tauto.
Qed.

Lemma flist_objs f m m' p ns :
  (forall n, n ∈ ns -> m' !! n = m !! n) -> flist f m p ns -> flist f m' p ns.
Proof.
  intros H. apply flist_ext.
  - intros n Hn. apply get_lookup_eq, H, Hn.
  - intros n Hn. apply is_node_lookup, H, Hn.
Qed.

Lemma flist_nodes f m p ns n : flist f m p ns -> n ∈ ns -> is_node m n.
Proof.
  revert p. induction ns as [|x ns IH]; intros p; simpl; [set_solver|].
  intros (-> & Hx & q & _ & Hl) [->|Hn]%elem_of_cons; eauto.
Qed.

(** Push: [n->f = p] makes [n] the first node. *)
Lemma flist_push f m p ns n :
  flist f m p ns -> is_node m n -> n ∉ ns -> flist f (upd m (n, f) p) n (n :: ns).
Proof.
  intros Hl Hn Hx. simpl. split; [auto|]. split; [by apply is_node_upd|].
  exists p. split; [apply get_upd_eq; by apply is_node_live|]. apply flist_upd; auto.
Qed.
End flist.

(** The head of a list moved to the next node. *)
Lemma linv_shift head fs O x xs m :
  linv head fs O (x :: xs) m -> nm x = false ->
  linv (na x, NEXT) fs O xs m /\ (head.1 ∉ objs (na x, NEXT) fs xs) /\ (head.1 ∉ O).
Proof.
  intros [H1 H2 H3 H4] Hm. destruct H1 as (_ & Hn & _ & Hc). rewrite Hm in Hc. unfold objs in *.
  simpl in *. pose proof H2 as Hnd. rewrite NoDup_cons in Hnd. destruct Hnd as [Hh Hnd].
  assert (Hp : fs ++ na x :: map na xs ≡ₚ na x :: fs ++ map na xs) by (symmetry; apply Permutation_middle).
  split.
  - split; auto; unfold objs; simpl.
    + by rewrite <- Hp.
    + intros b Hb. rewrite <- Hp in Hb. apply H3. by right.
  - split; [by rewrite <- Hp|]. apply H3. left.
Qed.
