(* ===== verification/Interfaces.v ===== *)
(** * The interfaces between the components

    The data structures are compiled once and linked with an allocator
    (allocator.h) and a reclamation scheme (mr.h, ebr.h, dw.h).  The operations
    are type classes, so that the code of a data structure is stated once for
    whatever it is linked with; their laws are what the proofs of a data
    structure may use, and each implementation discharges them. *)
From S2P Require Export ListShape.

(** ** allocator.h *)
Class Allocator := {
  new_node : nat -> Z -> prog mem Z;
  free_node : nat -> Z -> Z -> prog mem unit
}.

(** ** ebr.h and dw.h: reclamation by critical sections *)
Class Reclaimer := {
  critical_enter : nat -> Z -> prog mem unit;
  critical_exit : nat -> Z -> prog mem unit;
  free_node_later : nat -> Z -> Z -> prog mem unit
}.

(** ebr.h only: what a thread out of memory calls *)
Class Epochs := { update_epoch : nat -> Z -> prog mem unit }.

(** ** What a data structure relies on

    [own tid n m O]: in [m] the allocator and the reclamation scheme own the
    objects [O] (their own structures, pooled nodes, retired nodes), thread
    [tid] may call them, and [n] bounds the work they have pending, so that a
    loop unrolled more than [n] times ends. *)
Class ReclaimerLaws `{Allocator, Reclaimer} := {
  own : Z -> nat -> mem -> gset Z -> Prop;
  own_mono : forall tid n n' m O, own tid n m O -> (n <= n')%nat -> own tid n' m O;
  own_local : forall tid n m m' O,
    own tid n m O -> (forall b, b ∈ O -> m' !! b = m !! b) -> own tid n m' O;
  own_live : forall tid n m O b, own tid n m O -> b ∈ O -> live m b;
  new_node_ok : forall tid n m O fuel, own tid n m O -> (n < fuel)%nat ->
    tot (new_node fuel tid) m (fun p m' => exists O', own tid n m' O' /\ frame O m m' O' /\
      (p <> NULL -> is_node m' p /\ (p ∉ O') /\ (p ∈ O \/ m !! p = None)));
  free_node_ok : forall tid n m O fuel p, own tid n m O -> (n < fuel)%nat ->
    is_node m p -> p ∉ O ->
    tot (free_node fuel tid p) m (fun _ m' => exists O', own tid n m' O' /\
      frame (O ∪ {[p]}) m m' O');
  critical_enter_ok : forall tid n m O fuel, own tid n m O -> (n < fuel)%nat ->
    tot (critical_enter fuel tid) m (fun _ m' => exists O', own tid n m' O' /\ frame O m m' O');
  critical_exit_ok : forall tid n m O fuel, own tid n m O -> (n < fuel)%nat ->
    tot (critical_exit fuel tid) m (fun _ m' => exists O', own tid n m' O' /\ frame O m m' O');
  free_node_later_ok : forall tid n m O fuel p, own tid n m O -> (n < fuel)%nat ->
    is_node m p -> p ∉ O ->
    tot (free_node_later fuel tid p) m (fun _ m' => exists O', own tid (S n) m' O' /\
      frame (O ∪ {[p]}) m m' O')
}.

Lemma own_upd `{ReclaimerLaws} tid n m O l v : own tid n m O -> l.1 ∉ O -> own tid n (upd m l v) O.
Proof.
  intros Ho Hl. apply (own_local _ _ m); auto. intros b Hb. apply lookup_upd_ne.
  intros ->. auto.
Qed.

#[global] Arguments new_node {_} _ _ : simpl never.
#[global] Arguments free_node {_} _ _ _ : simpl never.
#[global] Arguments critical_enter {_} _ _ : simpl never.
#[global] Arguments critical_exit {_} _ _ : simpl never.
#[global] Arguments free_node_later {_} _ _ _ : simpl never.
