(* ===== verification/ListLf.v ===== *)
(** * The lock-free sorted list (list_lf_ebr.c, list_lf_dw.c)

    Michael's list-based set with marked pointers, for reclamation by critical
    sections. *)
From S2P Require Export Interfaces.

Abbreviation LIST_HEAD := 0 (only parsing).

(** The loop of a traversal: at the label [try_again], or at the loop test. *)
Inductive fstate : Set :=
| TryAgain (next : Z)
| Scan (prev : loc) (cur next : Z).

Module list_lf_ebr.
Section code.
Context `{!Malloc, !Allocator, !Reclaimer, !Epochs}.
Variable fuel : nat.
Variable tid : Z.

Definition list_init : prog mem Z :=
  l <- malloc 8 ;;
  store (l, LIST_HEAD) NULL ;;
  Ret l.

Definition list_destroy (l : Z) : prog mem unit := free l.

Definition find (head : loc) (key : Z) : prog mem bool :=
  loop fuel (fun st =>
    match st with
    | TryAgain next =>
        _ <- load head ;;
        cur <- load head ;;
        continue (Scan head cur next)
    | Scan prev cur next =>
        if cur =? NULL then
          store (find_vars tid, T_CUR) cur ;;
          set_prev tid prev ;;
          store (find_vars tid, T_NEXT) next ;;
          break false
        else
          pv <- load prev ;;
          if negb (pv =? cur) then continue (TryAgain next)
          else
            next <- load (cur, NEXT) ;;
            if negb (Z.land next 1 =? 0) then
              ok <- CAS prev cur (next - 1) ;;
              if negb ok then continue (TryAgain next)
              else
                free_node_later fuel tid cur ;;
                continue (Scan prev (next - 1) (next - 1))
            else
              ckey <- load (cur, KEY) ;;
              pv <- load prev ;;
              if negb (pv =? cur) then continue (TryAgain next)
              else if key <=? ckey then
                store (find_vars tid, T_CUR) cur ;;
                set_prev tid prev ;;
                store (find_vars tid, T_NEXT) next ;;
                break (ckey =? key)
              else continue (Scan (cur, NEXT) next next)
    end) (TryAgain NULL).

Definition insert (l key : Z) : prog mem bool :=
  let head := (l, LIST_HEAD) in
  n <- new_node fuel tid ;;
  critical_enter fuel tid ;;
  n <- loop fuel (fun n =>
    if n =? NULL then
      critical_exit fuel tid ;;
      update_epoch fuel tid ;;
      critical_enter fuel tid ;;
      n <- new_node fuel tid ;;
      continue n
    else break n) n ;;
  loop fuel (fun _ : unit =>
    found <- find head key ;;
    if found : bool then
      critical_exit fuel tid ;;
      free_node fuel tid n ;;
      break false
    else
      store (n, KEY) key ;;
      cur <- load (find_vars tid, T_CUR) ;;
      store (n, NEXT) cur ;;
      write_barrier ;;
      prev <- get_prev tid ;;
      cur <- load (find_vars tid, T_CUR) ;;
      ok <- CAS prev cur n ;;
      if ok : bool then
        critical_exit fuel tid ;;
        break true
      else continue tt) tt.

Definition delete (l key : Z) : prog mem bool :=
  let head := (l, LIST_HEAD) in
  critical_enter fuel tid ;;
  loop fuel (fun _ : unit =>
    found <- find head key ;;
    if negb found then
      critical_exit fuel tid ;;
      break false
    else
      cur <- load (find_vars tid, T_CUR) ;;
      next <- load (find_vars tid, T_NEXT) ;;
      ok <- CAS (cur, NEXT) next (u64 (next + 1)) ;;
      if negb ok then continue tt
      else
        write_barrier ;;
        prev <- get_prev tid ;;
        cur <- load (find_vars tid, T_CUR) ;;
        next <- load (find_vars tid, T_NEXT) ;;
        ok <- CAS prev cur next ;;
        (if ok : bool then
           cur <- load (find_vars tid, T_CUR) ;;
           free_node_later fuel tid cur
         else Ret tt) ;;
        critical_exit fuel tid ;;
        break true) tt.

Definition search (l key : Z) : prog mem bool :=
  let head := (l, LIST_HEAD) in
  critical_enter fuel tid ;;
  loop fuel (fun st =>
    match st with
    | TryAgain next =>
        cur <- load head ;;
        continue (Scan head cur next)
    | Scan prev cur next =>
        if cur =? NULL then
          critical_exit fuel tid ;;
          break false
        else
          pv <- load prev ;;
          if negb (pv =? cur) then continue (TryAgain next)
          else
            next <- load (cur, NEXT) ;;
            if negb (Z.land next 1 =? 0) then
              ok <- CAS prev cur (next - 1) ;;
              if negb ok then continue (TryAgain next)
              else
                free_node_later fuel tid cur ;;
                continue (Scan prev (next - 1) (next - 1))
            else
              ckey <- load (cur, KEY) ;;
              pv <- load prev ;;
              if negb (pv =? cur) then continue (TryAgain next)
              else if key <=? ckey then
                critical_exit fuel tid ;;
                break (ckey =? key)
              else continue (Scan (cur, NEXT) next next)
    end) (TryAgain NULL).
End code.
End list_lf_ebr.

(** list_lf_dw.c: [find], [delete] and [search] are the same text. *)
Module list_lf_dw.
Section code.
Context `{!Malloc, !Allocator, !Reclaimer}.
Variable fuel : nat.
Variable tid : Z.

Definition list_init : prog mem Z := list_lf_ebr.list_init.
Definition list_destroy (l : Z) : prog mem unit := list_lf_ebr.list_destroy l.
Definition find (head : loc) (key : Z) : prog mem bool := list_lf_ebr.find fuel tid head key.

Definition insert (l key : Z) : prog mem bool :=
  let head := (l, LIST_HEAD) in
  n <- new_node fuel tid ;;
  assert_ (negb (n =? NULL)) ;;
  critical_enter fuel tid ;;
  loop fuel (fun _ : unit =>
    found <- find head key ;;
    if found : bool then
      critical_exit fuel tid ;;
      free_node fuel tid n ;;
      break false
    else
      store (n, KEY) key ;;
      cur <- load (find_vars tid, T_CUR) ;;
      store (n, NEXT) cur ;;
      write_barrier ;;
      prev <- get_prev tid ;;
      cur <- load (find_vars tid, T_CUR) ;;
      ok <- CAS prev cur n ;;
      if ok : bool then
        critical_exit fuel tid ;;
        break true
      else continue tt) tt.

Definition delete (l key : Z) : prog mem bool := list_lf_ebr.delete fuel tid l key.
Definition search (l key : Z) : prog mem bool := list_lf_ebr.search fuel tid l key.
End code.
End list_lf_dw.

(** * Proofs *)

(** ** Operations on a list, with the memory they may change

    [lat m0 F tid head fs n O xs m]: in [m], which an execution reached from
    [m0] by changing only the objects [F] and new ones, thread [tid] may
    operate on the list [xs] at [head]. *)
Section lat.
Context `{HA : Allocator, HR : Reclaimer, HRL : !ReclaimerLaws}.
Implicit Types (m : mem) (head : loc) (fs : list Z) (O F : gset Z) (xs ys zs : list nd).

Definition lat m0 F (tid : Z) head fs (n : nat) O xs m : Prop :=
  own tid n m O /\ linv head fs O xs m /\ frame F m0 m (fp head fs O xs) /\ find_vars tid ∈ fs /\ sorted xs.

Lemma lat_start tid head fs n O xs m :
  own tid n m O -> linv head fs O xs m -> find_vars tid ∈ fs -> sorted xs ->
  lat m (fp head fs O xs) tid head fs n O xs m.
Proof. intros. split_and!; auto using frame_refl. Qed.

Lemma lat_step m0 F tid head fs n n' O O' xs m m' :
  lat m0 F tid head fs n O xs m -> own tid n' m' O' -> frame O m m' O' ->
  lat m0 F tid head fs n' O' xs m'.
Proof.
  intros (Ho & Hi & Hf & Ht & Hst) Ho' HF. split_and!; auto.
  - eapply linv_frame; eauto.
  - eapply frame_trans; [exact Hf|]. apply fp_own, HF.
Qed.

Lemma lat_enter m0 F tid head fs n O xs m fuel (Q : unit -> mem -> Prop) :
  lat m0 F tid head fs n O xs m -> (n < fuel)%nat ->
  (forall O' m', lat m0 F tid head fs n O' xs m' -> Q tt m') ->
  tot (critical_enter fuel tid) m Q.
Proof.
  intros Hl Hf HQ. eapply tot_mono; [apply critical_enter_ok; [apply Hl|exact Hf]|].
  intros [] m' (O' & Ho & HF). eapply HQ, lat_step; eauto.
Qed.

Lemma lat_exit m0 F tid head fs n O xs m fuel (Q : unit -> mem -> Prop) :
  lat m0 F tid head fs n O xs m -> (n < fuel)%nat ->
  (forall O' m', lat m0 F tid head fs n O' xs m' -> Q tt m') ->
  tot (critical_exit fuel tid) m Q.
Proof.
  intros Hl Hf HQ. eapply tot_mono; [apply critical_exit_ok; [apply Hl|exact Hf]|].
  intros [] m' (O' & Ho & HF). eapply HQ, lat_step; eauto.
Qed.

(** A store to a scratch object. *)
Lemma lat_scratch m0 F tid head fs n O xs m b off v :
  lat m0 F tid head fs n O xs m -> b ∈ fs -> lat m0 F tid head fs n O xs (upd m (b, off) v).
Proof.
  intros (Ho & Hi & Hf & Ht & Hst) Hl. split_and!; auto.
  - apply own_upd; auto. eapply linv_own; eauto using objs_scratch.
  - by apply linv_upd_scratch.
  - eapply frame_trans; [exact Hf|]. apply fp_upd; intros; rewrite elem_of_fp; auto.
    right. by apply objs_scratch.
Qed.

(** Unlink a node and hand it to the reclamation scheme. *)
Lemma lat_unlink m0 F tid head fs n O ys z zs m fuel (Q : unit -> mem -> Prop) :
  lat m0 F tid head fs n O (ys ++ (z :: zs)) m -> unmarked ys -> (n < fuel)%nat ->
  (forall O' m', lat m0 F tid head fs (S n) O' (ys ++ zs) m' -> Q tt m') ->
  tot (free_node_later fuel tid (na z)) (upd m (end_loc head ys) (first_addr zs)) Q.
Proof.
  intros (Ho & Hi & Hf & Ht & Hst) Hu Hn HQ. pose proof (linv_lseg _ _ _ _ _ _ Hi Hu) as Hl.
  pose proof (linv_at _ _ _ _ _ _ Hi Hu) as [_ Hp].
  destruct (linv_unlink _ _ _ _ _ _ _ _ Hi Hl) as (Hi' & _ & Hz & HzO & Hzn).
  assert (Hsub : forall b, b ∈ objs head fs (ys ++ zs) -> b ∈ objs head fs (ys ++ (z :: zs))).
  { intros b. rewrite !objs_app, !elem_of_app. cbn [map]. rewrite elem_of_cons. tauto. }
  assert (Ho' : own tid n (upd m (end_loc head ys) (first_addr zs)) O).
  { apply own_upd; auto. eapply linv_own; [exact Hi'|]. rewrite objs_app, elem_of_app. auto. }
  eapply tot_mono; [apply free_node_later_ok; [exact Ho'|exact Hn|exact Hz|exact HzO]|].
  intros [] m' (O' & Ho'' & HF). apply (HQ O'). split_and!; auto.
  - assert (HG : linv head fs (O ∪ {[na z]}) (ys ++ zs) (upd m (end_loc head ys) (first_addr zs))).
    { destruct Hi' as [H1 H2 H3 H4]. split; auto. intros b Hb. specialize (H3 b Hb).
      rewrite elem_of_union, elem_of_singleton. intros [?| ->]; auto. }
    eapply linv_frame; eauto.
  - eapply frame_trans; [exact Hf|]. eapply frame_trans.
    + apply (fp_upd _ _ O _ (ys ++ (z :: zs)) _ (end_loc head ys) (first_addr zs)); [|intros; rewrite elem_of_fp; auto].
      rewrite elem_of_fp, objs_app, elem_of_app. auto.
    + eapply fp_retire; eauto. apply objs_node. set_solver.
  - by eapply sorted_unlink.
Qed.

(** A new node is a scratch object until it is linked or freed. *)
Lemma lat_alloc m0 F tid head fs n O xs m fuel (Q : Z -> mem -> Prop) :
  lat m0 F tid head fs n O xs m -> (n < fuel)%nat ->
  tot (new_node fuel tid) m (fun p _ => p <> NULL) ->
  (forall p O' m', lat m0 F tid head (p :: fs) n O' xs m' -> 0 < p < M64 -> p mod 2 = 0 -> Q p m') ->
  tot (new_node fuel tid) m Q.
Proof.
  intros (Ho & Hi & Hf & Ht & Hst) Hn Hnn HQ. apply tot_run in Hnn as (p & m' & Hrun & Hp).
  pose proof (new_node_ok tid n m O fuel Ho Hn) as Hok. eapply run_tot; [exact Hrun|].
  unfold tot in Hok. rewrite Hrun in Hok. destruct Hok as (O' & Ho' & HF & Hok).
  destruct (Hok Hp) as (Hnode & HpO & Hfr).
  pose proof (linv_fresh _ _ _ _ _ _ Hi Hfr) as Hpx.
  apply (HQ p O' m'); [|apply Hnode..]. split_and!; auto; [| |by right].
  - apply linv_add; auto using is_node_struct. eapply linv_frame; eauto.
  - eapply frame_trans; [exact Hf|]. split.
    + intros b Hb Hl. apply HF; auto. intros E. apply Hb. rewrite elem_of_fp. auto.
    + intros b. rewrite !elem_of_fp, objs_cons. intros [Hb|[->|Hb]]; [|tauto..].
      destruct (proj2 HF b Hb); auto.
Qed.

Lemma lat_free m0 F tid head p fs n O xs m fuel (Q : unit -> mem -> Prop) :
  lat m0 F tid head (p :: fs) n O xs m -> find_vars tid ∈ fs -> 0 < p < M64 -> p mod 2 = 0 ->
  (n < fuel)%nat ->
  (forall O' m', lat m0 F tid head fs n O' xs m' -> Q tt m') ->
  tot (free_node fuel tid p) m Q.
Proof.
  intros (Ho & Hi & Hf & _ & Hst) Ht Hp He Hn HQ.
  destruct (linv_drop _ _ _ _ _ _ Hi) as (Hi' & Hpx & HpO & Hs).
  eapply tot_mono; [apply free_node_ok; [exact Ho|exact Hn|by apply is_struct_node|exact HpO]|].
  intros [] m' (O' & Ho' & HF). apply (HQ O'). split_and!; auto.
  - assert (HG : linv head fs (O ∪ {[p]}) xs m).
    { destruct Hi' as [I1 I2 I3 I4]. split; auto. intros b Hb. specialize (I3 b Hb).
      rewrite elem_of_union, elem_of_singleton. intros [?| ->]; auto. }
    eapply linv_frame; eauto.
  - eapply frame_trans; [exact Hf|]. eapply frame_weaken; [exact HF| |];
      intros b; rewrite ?elem_of_union, !elem_of_fp, objs_cons; set_solver.
Qed.

Lemma lat_link m0 F tid head p fs n O ys zs m key :
  lat m0 F tid head (p :: fs) n O (ys ++ zs) m -> find_vars tid ∈ fs -> 0 < p < M64 -> p mod 2 = 0 ->
  unmarked ys -> get m (p, KEY) = Some key -> get m (p, NEXT) = Some (first_addr zs) ->
  (forall y, y ∈ ys -> nk y < key) -> (forall z, z ∈ zs -> key < nk z) ->
  lat m0 F tid head fs n O (ys ++ (Nd p key false :: zs)) (upd m (end_loc head ys) p).
Proof.
  intros (Ho & Hi & Hf & _ & Hst) Ht Hp He Hu Hk Hx Hlt Hgt.
  destruct (linv_drop _ _ _ _ _ _ Hi) as (Hi' & Hpx & HpO & Hs).
  pose proof (linv_lseg _ _ _ _ _ _ Hi' Hu) as Hl.
  pose proof (linv_at _ _ _ _ _ _ Hi' Hu) as [_ Hloc]. split_and!; auto.
  - apply own_upd; auto. eapply linv_own; [exact Hi'|]. rewrite objs_app, elem_of_app. auto.
  - apply linv_link; auto. by apply is_struct_node.
  - eapply frame_trans; [exact Hf|]. eapply frame_weaken.
    + apply (frame_upd (fp head (p :: fs) O (ys ++ zs))).
      rewrite elem_of_fp, objs_cons, objs_app, elem_of_app. auto.
    + done.
    + intros b. rewrite elem_of_union, !elem_of_fp, !objs_cons, !objs_app, !elem_of_app.
      cbn [map na]. rewrite elem_of_cons. tauto.
  - by apply sorted_link.
Qed.

Lemma lat_mark m0 F tid head fs n O ys z zs m :
  lat m0 F tid head fs n O (ys ++ (z :: zs)) m -> unmarked ys ->
  lat m0 F tid head fs n O (ys ++ (mark z :: zs)) (upd m (na z, NEXT) (first_addr zs + 1)).
Proof.
  intros (Ho & Hi & Hf & Ht & Hst) Hu. pose proof (linv_lseg _ _ _ _ _ _ Hi Hu) as Hl.
  assert (Hz : na z ∈ objs head fs (ys ++ (z :: zs))) by (apply objs_node; set_solver).
  split_and!; auto.
  - apply own_upd; auto. eapply linv_own; eauto.
  - eapply linv_mark; eauto.
  - eapply frame_trans; [exact Hf|].
    apply fp_upd; intros; rewrite elem_of_fp; auto. right. by rewrite objs_app in *.
  - by apply sorted_mark.
Qed.
End lat.

(** What [find] leaves in [this_thread.prev], [.cur] and [.next]. *)
Definition find_result (tid : Z) (m : mem) (prev : loc) (zs : list nd) : Prop :=
  get m (find_vars tid, T_PREV) = Some prev.1 /\ get m (find_vars tid, T_PREV_OFF) = Some prev.2 /\
  get m (find_vars tid, T_CUR) = Some (first_addr zs) /\
  match zs with
  | [] => True
  | _ :: zs' => get m (find_vars tid, T_NEXT) = Some (first_addr zs')
  end.

Section list_lf_ebr_proofs.
Context `{HM : Malloc, HA : Allocator, HR : Reclaimer, HE : Epochs, HRL : !ReclaimerLaws}.
Import list_lf_ebr.
Variables (fuel : nat) (tid : Z).
Implicit Types (m : mem) (head : loc) (fs : list Z) (O F : gset Z) (xs ys zs : list nd).

(** The loop invariant of a traversal from the list [xs] with [n] nodes
    retired: the part passed, the part to go, and the nodes removed so far. *)
Definition trav m0 F head fs (key : Z) (n : nat) xs ys zs m : Prop :=
  exists n' O, lat m0 F tid head fs n' O (ys ++ zs) m /\ unmarked ys /\
    (n' + length (ys ++ zs) = n + length xs)%nat /\
    lf_split key xs = (ys ++ (lf_split key zs).1, (lf_split key zs).2).

Definition trav_st m0 F head fs (key : Z) (n : nat) xs (k : nat) (st : fstate) m : Prop :=
  match st with
  | TryAgain _ => k = S (length xs) /\ trav m0 F head fs key n xs [] xs m
  | Scan prev cur _ => exists ys zs, k = length zs /\ prev = end_loc head ys /\
      cur = first_addr zs /\ trav m0 F head fs key n xs ys zs m
  end.

(** Advance over an unmarked node with a smaller key. *)
Lemma trav_next m0 F head fs key n xs ys z zs m :
  trav m0 F head fs key n xs ys (z :: zs) m -> nm z = false -> nk z < key ->
  trav m0 F head fs key n xs (ys ++ [z]) zs m.
Proof.
  intros (n' & O & Hl & Hu & Hn & Hs) Hm Hk. exists n', O. rewrite <- app_assoc. simpl.
  split_and!; auto; [by apply unmarked_snoc|].
  rewrite Hs. simpl. rewrite Hm. destruct (Z.leb_spec key (nk z)); [lia|]. simpl.
  by rewrite <- app_assoc.
Qed.

(** Remove a marked node. *)
Lemma trav_unlink m0 F head fs key n xs ys z zs m (Q : unit -> mem -> Prop) :
  trav m0 F head fs key n xs ys (z :: zs) m -> nm z = true -> (n + length xs < fuel)%nat ->
  (forall m', trav m0 F head fs key n xs ys zs m' -> Q tt m') ->
  tot (free_node_later fuel tid (na z)) (upd m (end_loc head ys) (first_addr zs)) Q.
Proof.
  intros (n' & O & Hl & Hu & Hn & Hs) Hm Hf HQ. eapply lat_unlink; eauto; [lia|].
  intros O' m' Hl'. apply HQ. exists (S n'), O'. split_and!; auto.
  - rewrite length_app in *. simpl in *. lia.
  - rewrite Hs. simpl. by rewrite Hm.
Qed.

(** The memory as a traversal reads it. *)
Lemma trav_node m0 F head fs key n xs ys z zs m :
  trav m0 F head fs key n xs ys (z :: zs) m ->
  (na z =? 0) = false /\ get m (end_loc head ys) = Some (na z) /\
  get m (na z, KEY) = Some (nk z) /\ get m (na z, NEXT) = Some (first_addr zs + b2z (nm z)) /\
  Z.land (first_addr zs + b2z (nm z)) 1 = b2z (nm z).
Proof.
  intros (n' & O & (_ & Hi & _) & Hu & _ & _).
  destruct (linv_node _ _ _ _ _ _ _ Hi) as (Hn & Hk & Hx & He & Hr).
  destruct (linv_at _ _ _ _ _ _ Hi Hu) as [Hg _]. split_and!; auto.
  - apply Z.eqb_neq. eapply is_node_nonnull. eauto.
  - destruct (nm z); simpl; [by apply land1_odd|rewrite Z.add_0_r; by apply land1_even].
Qed.

Lemma trav_start m0 F head fs key n O xs m :
  lat m0 F tid head fs n O xs m -> trav m0 F head fs key n xs [] xs m.
Proof.
  intros Hl. exists n, O. split_and!; auto; [constructor|].
  simpl. by destruct (lf_split key xs).
Qed.

(** The test of a traversal at an unmarked node with a key not smaller. *)
Lemma trav_end m0 F head fs key n xs ys zs m :
  trav m0 F head fs key n xs ys zs m ->
  match zs with [] => True | z :: _ => nm z = false /\ key <= nk z end ->
  lf_split key xs = (ys, zs).
Proof.
  intros (n' & O & _ & _ & _ & ->). destruct zs as [|z zs]; simpl.
  - by rewrite app_nil_r.
  - intros [-> Hk]. apply Z.leb_le in Hk as ->. simpl. by rewrite app_nil_r.
Qed.

(** [find] leaves its three variables and goes on with [k]. *)
Lemma find_exit m0 F head fs n O xs m prev cur next (A : Type) (k : prog mem A) (Q : A -> mem -> Prop) :
  lat m0 F tid head fs n O xs m ->
  (forall m', lat m0 F tid head fs n O xs m' ->
     get m' (find_vars tid, T_PREV) = Some prev.1 -> get m' (find_vars tid, T_PREV_OFF) = Some prev.2 ->
     get m' (find_vars tid, T_CUR) = Some cur -> get m' (find_vars tid, T_NEXT) = Some next ->
     tot k m' Q) ->
  tot (store (find_vars tid, T_CUR) cur ;; set_prev tid prev ;;
       store (find_vars tid, T_NEXT) next ;; k) m Q.
Proof.
  intros Hl HQ. assert (Hs : is_struct m (find_vars tid) 32).
  { destruct Hl as (_ & Hi & _ & Ht & _). eapply linv_scratch; eauto. }
  unfold set_prev. psteps. apply HQ; [|mget..].
  repeat apply lat_scratch; auto; apply Hl.
Qed.

Lemma find_spec m0 F head fs key n O xs m (Q : bool -> mem -> Prop) :
  lat m0 F tid head fs n O xs m -> (n + S (length xs) < fuel)%nat ->
  (forall n' O' m' ys zs, lf_split key xs = (ys, zs) -> unmarked ys ->
     lat m0 F tid head fs n' O' (ys ++ zs) m' ->
     (n' + length (ys ++ zs) = n + length xs)%nat ->
     find_result tid m' (end_loc head ys) zs -> Q (found key zs) m') ->
  tot (find fuel tid head key) m Q.
Proof.
  intros Hl Hf HQ. unfold find.
  eapply (tot_loop (trav_st m0 F head fs key n xs)) with (n := S (length xs));
    [|lia|split; [auto|by eapply trav_start]].
  clear m Hl O. intros k [next|prev cur next] m; simpl.
  - intros (-> & Ht). assert (Hg : get m head = Some (first_addr xs)).
    { destruct Ht as (n' & O & (_ & Hi & _) & _). apply (linv_at head fs O [] xs m Hi). constructor. }
    psteps. exists (length xs). split; [lia|]. exists [], xs. auto.
  - intros (ys & zs & -> & -> & -> & Ht). destruct zs as [|z zs]; simpl.
    + pose proof (trav_end _ _ _ _ _ _ _ _ _ _ Ht I) as Hs. destruct Ht as (n' & O & Hl & Hu & Hn & _).
      eapply find_exit; [exact Hl|]. intros m' Hl' Hp Ho Hc Hx. apply tot_ret.
      apply (HQ n' O m' ys []); auto. split_and!; auto.
    + destruct (trav_node _ _ _ _ _ _ _ _ _ _ _ Ht) as (-> & Hg & Hk & Hx & Hb).
      psteps. rewrite Z.eqb_refl. simpl. psteps. rewrite Hb. destruct (nm z) eqn:Em; simpl in *.
      * apply tot_bind. eapply tot_CAS_true; [exact Hg|]. simpl. apply tot_bind.
        rewrite Z.add_simpl_r. eapply trav_unlink; [exact Ht|auto|lia|].
        intros m' Ht'. apply tot_ret. exists (length zs). split; [lia|]. exists ys, zs. auto.
      * psteps. rewrite Z.eqb_refl. simpl. rewrite Z.add_0_r in *.
        destruct (Z.leb_spec key (nk z)) as [Hle|Hgt].
        -- pose proof (trav_end _ _ _ _ _ _ _ _ _ _ Ht (conj Em Hle)) as Hs.
           destruct Ht as (n' & O & Hl & Hu & Hn & _).
           eapply find_exit; [exact Hl|]. intros m' Hl' Hp Ho Hc Hnx. apply tot_ret.
           apply (HQ n' O m' ys (z :: zs)); auto. split_and!; auto.
        -- psteps. exists (length zs). split; [lia|]. exists (ys ++ [z]), zs.
           rewrite end_loc_snoc. eauto using trav_next.
Qed.

(** ** The contract of the list: a set of keys *)

(** The list at [head] and everything behind it, with [n] operations' worth of
    pending reclamation. *)
Definition lf_list (n : nat) (head : loc) O xs m : Prop :=
  own tid n m O /\ linv head [find_vars tid] O xs m /\ sorted xs.

(** An operation answers [r] and turns the set into [S']; it changes only the
    list, the objects of the allocator and the reclamation scheme, and objects
    that were not live; at most one node is added. *)
Definition set_post (n : nat) (head : loc) O xs m (r : bool) (S' : gset Z) (r' : bool) (m' : mem) : Prop :=
  r' = r /\ exists n' O' xs', lf_list n' head O' xs' m' /\ key_set xs' = S' /\
    (n' + length xs' <= S (n + length xs))%nat /\
    frame (fp head [find_vars tid] O xs) m m' (fp head [find_vars tid] O' xs').

Lemma lat_post n head O xs m n' O' xs' m' r S' :
  lat m (fp head [find_vars tid] O xs) tid head [find_vars tid] n' O' xs' m' ->
  key_set xs' = S' -> (n' + length xs' <= S (n + length xs))%nat ->
  set_post n head O xs m r S' r m'.
Proof. intros (Ho & Hi & Hf & _ & Hst) HS Hn. split; auto. exists n', O', xs'. split_and!; auto. by split. Qed.

Lemma lf_start n head O xs m :
  lf_list n head O xs m ->
  lat m (fp head [find_vars tid] O xs) tid head [find_vars tid] n O xs m.
Proof. intros (Ho & Hi & Hst). apply lat_start; auto. left. Qed.

(** The new node is linked where [find] ended. *)
Lemma insert_link m0 F head p n O xs key n' m A (k : bool -> prog mem A) (Q : A -> mem -> Prop) :
  let ys := (lf_split key xs).1 in
  let zs := (lf_split key xs).2 in
  sorted xs -> found key zs = false -> unmarked ys -> 0 < p < M64 -> p mod 2 = 0 ->
  lat m0 F tid head [p; find_vars tid] n' O (ys ++ zs) m ->
  (n' + length (ys ++ zs) = n + length xs)%nat ->
  find_result tid m (end_loc head ys) zs ->
  (forall xs' m', lat m0 F tid head [find_vars tid] n' O xs' m' ->
     key_set xs' = {[key]} ∪ key_set xs -> (n' + length xs' = S (n + length xs))%nat ->
     tot (k true) m' Q) ->
  tot (store (p, KEY) key ;;
       cur <- load (find_vars tid, T_CUR) ;;
       store (p, NEXT) cur ;;
       write_barrier ;;
       prev <- get_prev tid ;;
       cur <- load (find_vars tid, T_CUR) ;;
       ok <- CAS prev cur p ;;
       k ok) m Q.
Proof.
  intros ys zs Hsx Hfd Hu Hp He H2 Hn (Hp1 & Hp2 & Hc & _) HQ.
  pose proof (proj1 (proj2 H2)) as Hi.
  assert (Hst : is_struct m p 32) by (eapply linv_scratch; [exact Hi|left]).
  assert (Hpf : p <> find_vars tid).
  { destruct (linv_drop _ _ _ _ _ _ Hi) as (_ & Hx & _). intros ->. apply Hx, objs_scratch. left. }
  pose proof (linv_scratch_end _ _ _ _ _ _ _ Hi ltac:(left)) as Hpe.
  psteps. unfold get_prev. psteps. rewrite <- surjective_pairing.
  eapply tot_CAS_true.
  { destruct (linv_at _ _ _ _ _ _ Hi Hu) as [Hg _].
    rewrite !get_upd_ne; [exact Hg|..]; intros E; apply Hpe; by rewrite <- E. }
  assert (Hsz : sorted zs).
  { destruct H2 as (_ & _ & _ & _ & HS). apply sorted_app in HS. tauto. }
  assert (HL : length (ys ++ (Nd p key false :: zs)) = S (length (ys ++ zs)))
    by (rewrite !length_app; simpl; lia).
  eapply HQ; [eapply lat_link|apply (split_insert key p xs)|fold ys zs; rewrite HL; lia];
    auto; try (by left); try mget.
  - repeat apply lat_scratch; [exact H2|left|left].
  - intros y Hy. by apply (lf_split_lt key xs).
  - intros z. by apply split_gt.
Qed.

(** The node [find] ended at is marked, unlinked and retired. *)
Lemma delete_unlink m0 F head n O xs key n' m A (fnl : Z -> prog mem unit) (k1 k2 : prog mem A)
    (Q : A -> mem -> Prop) :
  fnl = free_node_later fuel tid ->
  let ys := (lf_split key xs).1 in
  let zs := (lf_split key xs).2 in
  found key zs = true -> unmarked ys -> (n + length xs < fuel)%nat ->
  lat m0 F tid head [find_vars tid] n' O (ys ++ zs) m ->
  (n' + length (ys ++ zs) = n + length xs)%nat ->
  find_result tid m (end_loc head ys) zs ->
  (forall n2 O2 xs' m', lat m0 F tid head [find_vars tid] n2 O2 xs' m' ->
     key_set xs' = key_set xs ∖ {[key]} -> (n2 + length xs' = n + length xs)%nat -> tot k2 m' Q) ->
  tot (cur <- load (find_vars tid, T_CUR) ;;
       next <- load (find_vars tid, T_NEXT) ;;
       ok <- CAS (cur, NEXT) next (u64 (next + 1)) ;;
       if negb ok then k1
       else
         write_barrier ;;
         prev <- get_prev tid ;;
         cur <- load (find_vars tid, T_CUR) ;;
         next <- load (find_vars tid, T_NEXT) ;;
         ok <- CAS prev cur next ;;
         (if ok : bool then
            cur <- load (find_vars tid, T_CUR) ;;
            fnl cur
          else Ret tt) ;;
         k2) m Q.
Proof.
  intros -> ys zs Hfd Hu Hf H2 Hn (Hp1 & Hp2 & Hc & Hx) HQ. pose proof (proj1 (proj2 H2)) as Hi.
  pose proof (lf_split_set key xs) as HS. pose proof (lf_split_ge key xs) as Hge.
  fold ys zs in HS, Hge. clearbody ys zs. destruct zs as [|z zs]; [discriminate|].
  simpl in Hfd. apply Z.eqb_eq in Hfd. destruct (Hge z zs eq_refl) as [Hzm _].
  destruct (linv_node _ _ _ _ _ _ _ Hi) as (Hzn & Hzk & Hzx & Hze & Hzr).
  rewrite Hzm in Hzx. simpl in Hzx. rewrite Z.add_0_r in Hzx.
  destruct (linv_scratch_ne _ _ _ _ _ _ Hi ltac:(left)) as [_ Hne]. specialize (Hne z ltac:(set_solver)).
  psteps. eapply tot_CAS_true; [exact Hzx|]. unfold get_prev. simpl. psteps.
  rewrite <- surjective_pairing, u64_mark by auto.
  pose proof (lat_mark _ _ _ _ _ _ _ _ _ _ _ H2 Hu) as H3.
  destruct (linv_at _ _ _ _ _ _ (proj1 (proj2 H3)) Hu) as [Hg _].
  eapply tot_CAS_true; [exact Hg|]. apply tot_bind. apply tot_bind.
  pose proof (linv_scratch_end _ _ _ _ _ _ _ Hi ltac:(left)) as Hpe.
  eapply tot_load. { rewrite get_upd_ne; [mget|]. intros E. apply Hpe. by rewrite E. }
  rewrite length_app in Hn. simpl in Hn.
  eapply (lat_unlink _ _ _ _ _ _ _ _ (mark z)); [exact H3|exact Hu|lia|]. intros O4 m4 H4.
  eapply HQ; [exact H4| |rewrite length_app; lia].
  rewrite <- HS. apply split_delete; auto. apply H2.
Qed.

Lemma insert_spec n l key O xs m :
  lf_list n (l, LIST_HEAD) O xs m -> (n + S (length xs) < fuel)%nat ->
  tot (new_node fuel tid) m (fun p _ => p <> NULL) ->
  tot (insert fuel tid l key) m
    (set_post n (l, LIST_HEAD) O xs m (negb (bool_decide (key ∈ key_set xs))) ({[key]} ∪ key_set xs)).
Proof.
  intros Hl Hf Hmem. unfold insert. apply tot_bind.
  eapply lat_alloc; [by apply lf_start|lia|exact Hmem|]. intros p O1 m1 H1 Hp He.
  apply tot_bind. eapply lat_enter; [exact H1|lia|]. clear O1 m1 H1. intros O1 m1 H1.
  apply tot_bind. apply tot_loop_exit; [lia|].
  replace (p =? 0) with false by (symmetry; apply Z.eqb_neq; lia).
  apply tot_ret. apply tot_loop_exit; [lia|]. apply tot_bind.
  eapply find_spec; [exact H1|lia|]. intros n2 O2 m2 ys zs Hs Hu H2 Hn Hr.
  assert (Hsx : sorted xs) by apply Hl. rewrite <- found_spec, Hs by auto.
  destruct (found key zs) eqn:Hfd; simpl; rewrite Hfd.
  - apply tot_bind. eapply lat_exit; [exact H2|lia|]. intros O3 m3 H3.
    apply tot_bind. eapply lat_free; [exact H3|left|auto|auto|lia|]. intros O4 m4 H4.
    apply tot_ret. eapply lat_post; [exact H4| |lia]. eapply found_keys; eauto.
  - eapply (insert_link _ _ _ p n O2 xs key n2); rewrite ?Hs; eauto. simpl.
    intros xs' m' H3 HS HL. apply tot_bind. eapply lat_exit; [exact H3|lia|]. intros O4 m4 H4.
    apply tot_ret. eapply lat_post; [exact H4|auto|lia].
Qed.

Lemma delete_spec n l key O xs m :
  lf_list n (l, LIST_HEAD) O xs m -> (n + S (length xs) < fuel)%nat ->
  tot (delete fuel tid l key) m
    (set_post n (l, LIST_HEAD) O xs m (bool_decide (key ∈ key_set xs)) (key_set xs ∖ {[key]})).
Proof.
  intros Hl Hf. unfold delete. apply tot_bind.
  eapply lat_enter; [by apply lf_start|lia|]. intros O1 m1 H1.
  apply tot_loop_exit; [lia|]. apply tot_bind.
  eapply find_spec; [exact H1|lia|]. intros n2 O2 m2 ys zs Hs Hu H2 Hn Hr.
  assert (Hsx : sorted xs) by apply Hl. rewrite <- found_spec, Hs by auto.
  destruct (found key zs) eqn:Hfd; simpl; rewrite Hfd; simpl.
  - eapply (delete_unlink _ _ _ n O2 xs key n2 _ _ (free_node_later fuel tid)); rewrite ?Hs; eauto; [lia|].
    intros n3 O3 xs' m' H3 HS HL. apply tot_bind. eapply lat_exit; [exact H3|lia|]. intros O4 m4 H4.
    apply tot_ret. eapply lat_post; [exact H4|auto|lia].
  - apply tot_bind. eapply lat_exit; [exact H2|lia|]. intros O3 m3 H3. apply tot_ret.
    eapply lat_post; [exact H3| |lia]. eapply found_no_keys; eauto.
Qed.

Lemma search_spec n l key O xs m :
  lf_list n (l, LIST_HEAD) O xs m -> (n + S (length xs) < fuel)%nat ->
  tot (search fuel tid l key) m
    (set_post n (l, LIST_HEAD) O xs m (bool_decide (key ∈ key_set xs)) (key_set xs)).
Proof.
  intros Hl Hf. unfold search. apply tot_bind.
  eapply lat_enter; [by apply lf_start|lia|]. intros O1 m1 H1.
  rewrite <- found_spec by apply Hl. rewrite <- (lf_split_set key xs).
  eapply (tot_loop (trav_st m _ (l, LIST_HEAD) [find_vars tid] key n xs)) with (n := S (length xs));
    [|lia|split; [auto|by eapply trav_start]].
  clear O1 m1 H1. intros k [next|prev cur next] m1; simpl.
  - intros (-> & Ht). assert (Hg : get m1 (l, LIST_HEAD) = Some (first_addr xs)).
    { destruct Ht as (n' & O1 & (_ & Hi & _) & _). apply (linv_at _ _ O1 [] xs m1 Hi). constructor. }
    psteps. exists (length xs). split; [lia|]. exists [], xs. auto.
  - intros (ys & zs & -> & -> & -> & Ht). destruct zs as [|z zs]; simpl.
    + rewrite (trav_end _ _ _ _ _ _ _ _ _ _ Ht I). destruct Ht as (n' & O1 & H1 & Hu & Hn & _).
      apply tot_bind. eapply lat_exit; [exact H1|lia|]. intros O2 m2 H2. apply tot_ret.
      eapply lat_post; [exact H2|auto|lia].
    + destruct (trav_node _ _ _ _ _ _ _ _ _ _ _ Ht) as (-> & Hg & Hk & Hx & Hb).
      psteps. rewrite Z.eqb_refl. simpl. psteps. rewrite Hb. destruct (nm z) eqn:Em; simpl in *.
      * apply tot_bind. eapply tot_CAS_true; [exact Hg|]. simpl. apply tot_bind.
        rewrite Z.add_simpl_r. eapply trav_unlink; [exact Ht|auto|lia|].
        intros m' Ht'. apply tot_ret. exists (length zs). split; [lia|]. exists ys, zs. auto.
      * psteps. rewrite Z.eqb_refl. simpl. rewrite Z.add_0_r in *.
        destruct (Z.leb_spec key (nk z)) as [Hle|Hgt].
        -- rewrite (trav_end _ _ _ _ _ _ _ _ _ _ Ht (conj Em Hle)).
           destruct Ht as (n' & O1 & H1 & Hu & Hn & _).
           apply tot_bind. eapply lat_exit; [exact H1|lia|]. intros O2 m2 H2. apply tot_ret.
           eapply lat_post; [exact H2|auto|lia].
        -- psteps. exists (length zs). split; [lia|]. exists (ys ++ [z]), zs.
           rewrite end_loc_snoc. eauto using trav_next.
Qed.

Lemma dw_insert_spec n l key O xs m :
  lf_list n (l, LIST_HEAD) O xs m -> (n + S (length xs) < fuel)%nat ->
  tot (new_node fuel tid) m (fun p _ => p <> NULL) ->
  tot (list_lf_dw.insert fuel tid l key) m
    (set_post n (l, LIST_HEAD) O xs m (negb (bool_decide (key ∈ key_set xs))) ({[key]} ∪ key_set xs)).
Proof.
  intros Hl Hf Hmem. unfold list_lf_dw.insert. apply tot_bind.
  eapply lat_alloc; [by apply lf_start|lia|exact Hmem|]. intros p O1 m1 H1 Hp He.
  replace (p =? 0) with false by (symmetry; apply Z.eqb_neq; lia).
  apply tot_bind, tot_ret, tot_bind. eapply lat_enter; [exact H1|lia|]. clear O1 m1 H1. intros O1 m1 H1.
  apply tot_loop_exit; [lia|]. apply tot_bind.
  eapply find_spec; [exact H1|lia|]. intros n2 O2 m2 ys zs Hs Hu H2 Hn Hr.
  assert (Hsx : sorted xs) by apply Hl. rewrite <- found_spec, Hs by auto.
  destruct (found key zs) eqn:Hfd; simpl; rewrite Hfd.
  - apply tot_bind. eapply lat_exit; [exact H2|lia|]. intros O3 m3 H3.
    apply tot_bind. eapply lat_free; [exact H3|left|auto|auto|lia|]. intros O4 m4 H4.
    apply tot_ret. eapply lat_post; [exact H4| |lia]. eapply found_keys; eauto.
  - eapply (insert_link _ _ _ p n O2 xs key n2); rewrite ?Hs; eauto. simpl.
    intros xs' m' H3 HS HL. apply tot_bind. eapply lat_exit; [exact H3|lia|]. intros O4 m4 H4.
    apply tot_ret. eapply lat_post; [exact H4|auto|lia].
Qed.
End list_lf_ebr_proofs.
