(* ===== verification/Room.v ===== *)
(** * Memory that suffices

    [mroom k m]: the next [k] allocations succeed in [m].  Loads and stores do
    not use memory up, so an operation that calls [new_node] once takes one
    from [k]; the rest of its code is discharged by [keep]. *)
From S2P Require Export Interfaces.

(** ** Partial correctness of one predicate *)
Section keeps.
Context {S : Type}.
Implicit Types (P : S -> Prop).

Definition keeps {A : Type} P (p : prog S A) : Prop :=
  forall s a s', P s -> run p s = Ok (a, s') -> P s'.

Lemma keeps_ret {A} P (a : A) : keeps P (Ret a).
Proof. intros s b s' HP [= _ <-]. exact HP. Qed.

Lemma keeps_stop {A} P e : keeps P (@Stop S A e).
Proof. by intros s a s' HP H. Qed.

Lemma keeps_bind {A B} P (p : prog S A) (k : A -> prog S B) :
  keeps P p -> (forall a, keeps P (k a)) -> keeps P (pbind k p).
Proof.
  intros Hp Hk s b s' HP H. rewrite run_bind in H.
  destruct (run p s) as [[a s1]|] eqn:E; [|discriminate]. eapply Hk; [|exact H]. by eapply Hp.
Qed.

Lemma keeps_loop {A St} P fuel (body : St -> prog S (St + A)) st :
  (forall st, keeps P (body st)) -> keeps P (loop fuel body st).
Proof.
  intros Hb. revert st. induction fuel as [|n IH]; intros st; [by apply keeps_stop|].
  apply keeps_bind; [apply Hb|]. intros [st'|a]; [apply IH|apply keeps_ret].
Qed.

Lemma keeps_forz P n from (body : Z -> prog S unit) :
  (forall i, keeps P (body i)) -> keeps P (forz n from body).
Proof.
  intros Hb. revert from. induction n as [|n IH]; intros from; [apply keeps_ret|].
  apply keeps_bind; [apply Hb|]. intros _. apply IH.
Qed.

Lemma tot_keeps {A} P (p : prog S A) s (Q : A -> S -> Prop) :
  keeps P p -> P s -> tot p s Q -> tot p s (fun a s' => Q a s' /\ P s').
Proof.
  intros Hk HP HQ. apply tot_run in HQ as (a & s' & Hr & HQ). eapply run_tot; [exact Hr|].
  split; [exact HQ|]. by eapply Hk.
Qed.
End keeps.

(** ** malloc *)
Class MallocRoom `{Malloc} := {
  mroom : nat -> mem -> Prop;
  mroom_upd : forall k m l v, mroom k m -> mroom k (upd m l v);
  mroom_delete : forall k m b, mroom k m -> mroom k (delete b m);
  mroom_resize : forall k m b o o', m !! b = Some o -> osize o' = osize o -> mroom k m -> mroom k (<[b := o']> m);
  mroom_mono : forall k k' m, mroom k m -> (k' <= k)%nat -> mroom k' m;
  mroom_malloc : forall k m o, mroom (S k) m -> 0 < osize o <= M32 ->
    malloc_addr m (osize o) <> NULL /\ mroom k (<[malloc_addr m (osize o) := o]> m);
  mroom_array : forall k m n sz, mroom (S k) m -> 0 < sz -> 0 < Z.of_nat n * sz <= M32 ->
    malloc_addr m (Z.of_nat n * sz) <> NULL /\
    mroom k (put_array n (malloc_addr m (Z.of_nat n * sz)) (Obj sz ∅) m)
}.

(** The elements of an array and the objects there were. *)
Lemma put_array_elem n a o m i : 0 < osize o -> (i < n)%nat ->
  put_array n a o m !! (a + Z.of_nat i * osize o) = Some o.
Proof.
  intros Ho. revert a i. induction n as [|n IH]; intros a i Hi; [lia|]. simpl. destruct i as [|i].
  - rewrite Z.mul_0_l, Z.add_0_r. apply lookup_insert_eq.
  - rewrite lookup_insert_ne by nia.
    replace (a + Z.of_nat (S i) * osize o) with (a + osize o + Z.of_nat i * osize o) by lia. apply IH. lia.
Qed.

Lemma put_array_old n a o m b : 0 < osize o -> (forall i, (i < n)%nat -> b <> a + Z.of_nat i * osize o) ->
  put_array n a o m !! b = m !! b.
Proof.
  intros Ho. revert a. induction n as [|n IH]; intros a Hb; [done|]. simpl.
  rewrite lookup_insert_ne by (specialize (Hb O); lia). apply IH. intros i Hi. specialize (Hb (S i)). lia.
Qed.

Lemma put_array_inv n a o m b o' : 0 < osize o -> put_array n a o m !! b = Some o' ->
  m !! b = Some o' \/ o' = o /\ exists i, (i < n)%nat /\ b = a + Z.of_nat i * osize o.
Proof.
  intros Ho. revert a. induction n as [|n IH]; intros a H; [by left|]. simpl in H.
  apply lookup_insert_Some in H as [[<- <-]|[_ H]].
  - right. split; [done|]. exists O. split; lia.
  - apply IH in H as [H|(-> & i & Hi & ->)]; [by left|]. right. split; [done|]. exists (S i). split; lia.
Qed.

(** ** The allocator and the reclamation scheme *)
Class RoomLaws `{Malloc, !MallocRoom, !Allocator, !Reclaimer} := {
  new_node_room : forall k fuel tid m p m', mroom (S k) m ->
    run (new_node fuel tid) m = Ok (p, m') -> p <> NULL /\ mroom k m';
  free_node_room : forall k fuel tid p, keeps (mroom k) (free_node fuel tid p);
  enter_room : forall k fuel tid, keeps (mroom k) (critical_enter fuel tid);
  exit_room : forall k fuel tid, keeps (mroom k) (critical_exit fuel tid);
  retire_room : forall k fuel tid p, keeps (mroom k) (free_node_later fuel tid p)
}.

Section actions.
Context `{HM : Malloc, HMR : !MallocRoom}.

Lemma keeps_load k l : keeps (mroom k) (load l).
Proof.
  intros m a m' HP H. unfold load, act in H. simpl in H. destruct (get m l); [|discriminate].
  by injection H as _ <-.
Qed.

Lemma keeps_store k l v : keeps (mroom k) (store l v).
Proof.
  intros m a m' HP H. unfold store, act in H. simpl in H. destruct (inb m l); [|discriminate].
  injection H as _ <-. by apply mroom_upd.
Qed.

Lemma keeps_rmw k l f : keeps (mroom k) (rmw l f).
Proof.
  intros m a m' HP H. unfold rmw, act in H. simpl in H. destruct (get m l); [|discriminate].
  injection H as _ <-. by apply mroom_upd.
Qed.

Lemma keeps_free k p : keeps (mroom k) (free p).
Proof.
  intros m a m' HP H. unfold free, act in H. simpl in H.
  destruct (p =? 0); [by injection H as _ <-|]. destruct (m !! p); [|discriminate].
  injection H as _ <-. by apply mroom_delete.
Qed.

Lemma keeps_copy k dst src fs : keeps (mroom k) (copy_fields dst src fs).
Proof.
  induction fs as [|f fs IH]; [apply keeps_ret|]. apply keeps_bind; [apply keeps_load|].
  intros v. apply keeps_bind; [apply keeps_store|]. auto.
Qed.

(** An allocation that finds room. *)
Lemma tot_alloc k m o (Q : Z -> mem -> Prop) :
  mroom (S k) m -> 0 < osize o <= M32 ->
  (forall a, a <> NULL /\ m !! a = None /\ 0 < a < M64 /\ a mod 16 = 0 ->
     mroom k (<[a := o]> m) -> Q a (<[a := o]> m)) ->
  tot (new_obj o) m Q.
Proof.
  intros Hr Ho HQ. destruct (mroom_malloc k m o Hr Ho) as [E Hr'].
  eapply run_tot; [rewrite run_new_obj; simpl; apply Z.eqb_neq in E; rewrite E; reflexivity|].
  apply HQ; [|exact Hr']. pose proof (malloc_range m (osize o) E).
  split_and!; auto using malloc_aligned; try lia. eapply malloc_fresh; [exact E|]. lia.
Qed.

Lemma tot_alloc_array k m n sz (Q : Z -> mem -> Prop) :
  mroom (S k) m -> 0 < sz -> 0 < Z.of_nat n * sz <= M32 ->
  (forall a, 0 < a -> a + Z.of_nat n * sz <= M64 -> a mod 16 = 0 ->
     (forall b, a <= b < a + Z.of_nat n * sz -> m !! b = None) ->
     mroom k (put_array n a (Obj sz ∅) m) -> Q a (put_array n a (Obj sz ∅) m)) ->
  tot (malloc_array n sz) m Q.
Proof.
  intros Hr Hs Hn HQ. destruct (mroom_array k m n sz Hr Hs Hn) as [E Hr']. unfold tot, malloc_array, act. simpl.
  rewrite (proj2 (Z.eqb_neq _ _) E). pose proof (malloc_range m (Z.of_nat n * sz) E).
  apply HQ; auto using malloc_aligned; try lia. intros b Hb. eapply malloc_fresh; [exact E|]. lia.
Qed.
End actions.

Create HintDb room discriminated.
#[export] Hint Resolve keeps_ret keeps_stop keeps_load keeps_store keeps_rmw keeps_free keeps_copy : room.

(** Walk through code that allocates nothing. *)
Ltac keep :=
  repeat first
    [ progress intros
    | solve [auto with room nocore]
    | apply free_node_room | apply enter_room | apply exit_room | apply retire_room
    | apply keeps_bind
    | apply keeps_loop
    | apply keeps_forz
    | case_match
    | progress unfold CAS, atomic_cmpxchg4, atomic_read4, atomic_xchg4, atomic_xadd4, memory_barrier,
        write_barrier, spin_lock_barrier, spin_unlock_barrier, spin_trylock, spin_unlock, abort,
        get_prev, set_prev ].

(** ** The concrete malloc of the witnesses has room below the end of memory *)
Definition bump_room (k : nat) (m : mem) : Prop := 16 * top m + 2 * M32 * Z.of_nat (S k) <= M64.

Lemma top_upd m l v : top (upd m l v) <= top m.
Proof.
  apply top_least; [apply top_lo|]. intros b o Ho. unfold upd in Ho.
  apply lookup_alter_Some in Ho as [(<- & o1 & Ho & ->)|[_ Ho]]; by apply top_ge in Ho.
Qed.

Lemma top_delete m b : top (delete b m) <= top m.
Proof.
  apply top_least; [apply top_lo|]. intros c o Hc. apply lookup_delete_Some in Hc as [_ Hc]. by apply top_ge.
Qed.

Lemma top_resize m b o o' : m !! b = Some o -> osize o' = osize o -> top (<[b := o']> m) <= top m.
Proof.
  intros Ho E. apply top_least; [apply top_lo|]. intros c x [[<- <-]|[_ Hx]]%lookup_insert_Some; [|by apply top_ge].
  unfold block_end. rewrite E. by apply top_ge.
Qed.

#[export] Program Instance bump_room_laws : @MallocRoom bump := {| mroom := bump_room |}.
Next Obligation. unfold bump_room. intros k m l v H. pose proof (top_upd m l v). lia. Qed.
Next Obligation. unfold bump_room. intros k m b H. pose proof (top_delete m b). lia. Qed.
Next Obligation. unfold bump_room. intros k m b o o' Ho E H. pose proof (top_resize m b o o' Ho E). lia. Qed.
Next Obligation. unfold bump_room. intros. unfold M32 in *. lia. Qed.
Next Obligation.
  unfold bump_room. intros k m o H Ho. simpl. unfold bump_addr. unfold M32 in *.
  replace (16 * top m + Z.max 1 (osize o) <=? M64) with true by (symmetry; apply Z.leb_le; lia).
  pose proof (top_lo m). split; [lia|].
  assert (16 * top (<[16 * top m := o]> m) <= 16 * top m + 2 * 4294967296); [|lia].
  assert (top (<[16 * top m := o]> m) <= top m + 2 * 268435456); [|lia]. apply top_least; [lia|].
  intros b o' Hb. apply lookup_insert_Some in Hb as [[<- <-]|[_ Hb]].
  - pose proof (block_end_after (16 * top m) o). lia.
  - apply top_ge in Hb. lia.
Qed.
Next Obligation.
  unfold bump_room. intros k m n sz H Hs Hn. simpl. unfold bump_addr. unfold M32 in *.
  replace (16 * top m + Z.max 1 (Z.of_nat n * sz) <=? M64) with true by (symmetry; apply Z.leb_le; lia).
  pose proof (top_lo m). split; [lia|]. set (m' := put_array _ _ _ _).
  assert (top m' <= top m + 2 * 268435456); [|lia]. apply top_least; [lia|].
  intros b o Hb. apply put_array_inv in Hb as [Hb|(-> & i & Hi & ->)]; [apply top_ge in Hb; lia| |done].
  pose proof (block_end_after (16 * top m + Z.of_nat i * sz) (Obj sz ∅)). simpl in *. nia.
Qed.
