(* ===== verification/Contracts.v ===== *)
(** * The contract of list.h, and its implementation by the lock-free list

    The clients of a list (hash.c, the list benchmark) see a collection of
    lists, each a finite set of keys.  [SetLaws] states what they may rely on;
    [lf_set_laws] shows that the list of list_lf_ebr.c, over any allocator and
    reclamation scheme that keep their own contract, provides it. *)
From S2P Require Export Room ListLf.

(** ** list.h *)
Class ListOps := {
  l_init : prog mem Z;
  l_destroy : Z -> prog mem unit;
  l_search : nat -> Z -> Z -> Z -> prog mem bool;
  l_delete : nat -> Z -> Z -> Z -> prog mem bool;
  l_insert : nat -> Z -> Z -> Z -> prog mem bool
}.
#[global] Arguments l_init {_} : simpl never.
#[global] Arguments l_destroy {_} _ : simpl never.
#[global] Arguments l_search {_} _ _ _ _ : simpl never.
#[global] Arguments l_delete {_} _ _ _ _ : simpl never.
#[global] Arguments l_insert {_} _ _ _ _ : simpl never.

(** The lists, by address and contents. *)
Abbreviation lists := (list (Z * gset Z)) (only parsing).

Definition kept (F : gset Z) (m m' : mem) : Prop := forall b, b ∈ F -> m' !! b = m !! b.

(** [sets tid c L F m]: thread [tid] may use the lists [L] in [m]; [F] are live
    objects of the client, which the lists do not touch, and the size of
    everything is bounded by [c].  An operation on the [i]-th list answers for
    its set, changes no other list and nothing of the client; an insertion
    uses the room of one allocation. *)
Class SetLaws `{HM : Malloc, HMR : !MallocRoom, HLO : !ListOps} := {
  sets : Z -> nat -> lists -> gset Z -> mem -> Prop;
  sets_client : forall tid c L F m m',
    sets tid c L F m -> (forall b, b ∉ F -> m' !! b = m !! b) -> (forall b, b ∈ F -> live m' b) ->
    sets tid c L F m';
  sets_live : forall tid c L F m b, sets tid c L F m -> b ∈ F -> live m b;
  sets_alloc : forall tid c L F m a o,
    sets tid c L F m -> m !! a = None -> sets tid c L ({[a]} ∪ F) (<[a := o]> m);
  l_init_ok : forall tid c L F m k,
    sets tid c L F m -> mroom (S k) m ->
    tot l_init m (fun l m' => sets tid (S c) (L ++ [(l, ∅)]) F m' /\ mroom k m' /\ kept F m m');
  l_search_ok : forall tid c L F m fuel i l X key k,
    sets tid c L F m -> (c < fuel)%nat -> L !! i = Some (l, X) -> mroom k m ->
    tot (l_search fuel tid l key) m (fun r m' =>
      r = bool_decide (key ∈ X) /\ sets tid (S c) L F m' /\ mroom k m' /\ kept F m m');
  l_delete_ok : forall tid c L F m fuel i l X key k,
    sets tid c L F m -> (c < fuel)%nat -> L !! i = Some (l, X) -> mroom k m ->
    tot (l_delete fuel tid l key) m (fun r m' =>
      r = bool_decide (key ∈ X) /\ sets tid (S c) (<[i := (l, X ∖ {[key]})]> L) F m' /\
      mroom k m' /\ kept F m m');
  l_insert_ok : forall tid c L F m fuel i l X key k,
    sets tid c L F m -> (c < fuel)%nat -> L !! i = Some (l, X) -> mroom (S k) m ->
    tot (l_insert fuel tid l key) m (fun r m' =>
      r = negb (bool_decide (key ∈ X)) /\ sets tid (S c) (<[i := (l, {[key]} ∪ X)]> L) F m' /\
      mroom k m' /\ kept F m m')
}.

(** The lock-free list behind list.h. *)
#[export] Instance lf_list_ops `{Malloc, Allocator, Reclaimer, Epochs} : ListOps :=
  {| l_init := list_lf_ebr.list_init;
     l_destroy := list_lf_ebr.list_destroy;
     l_search := list_lf_ebr.search;
     l_delete := list_lf_ebr.delete;
     l_insert := list_lf_ebr.insert |}.

(** * Proofs *)

Lemma sum_list_insert (ns : list nat) i n n' :
  ns !! i = Some n -> (sum_list (<[i := n']> ns) + n = sum_list ns + n')%nat.
Proof.
  revert i. induction ns as [|k ns IH]; intros [|i] H; try discriminate; simpl in *.
  - injection H as ->. lia.
  - specialize (IH i H). lia.
Qed.

Lemma sum_list_lookup (ns : list nat) i n : ns !! i = Some n -> (n <= sum_list ns)%nat.
Proof.
  revert i. induction ns as [|k ns IH]; intros [|i] H; try discriminate; simpl in *.
  - injection H as ->. lia.
  - specialize (IH i H). lia.
Qed.

Lemma kept_refl F m : kept F m m.
Proof. by intros b. Qed.

Lemma kept_trans F m1 m2 m3 : kept F m1 m2 -> kept F m2 m3 -> kept F m1 m3.
Proof. intros H1 H2 b Hb. rewrite H2, H1; auto. Qed.

Lemma kept_get F m m' b off : kept F m m' -> b ∈ F -> get m' (b, off) = get m (b, off).
Proof. intros H Hb. by apply get_lookup_eq, H. Qed.

(** ** Several lock-free lists over one allocator and reclamation scheme *)
Section lf_sets.
Context `{HM : Malloc, HA : Allocator, HR : Reclaimer, HE : Epochs, HRL : !ReclaimerLaws}.
Implicit Types (m : mem) (O F : gset Z) (L : lists) (Ls : list (Z * list nd)).

(** The objects of the list at [l]. *)
Definition span (l : Z) (xs : list nd) : list Z := objs (l, LIST_HEAD) [] xs.

Record lfs (tid : Z) (n : nat) O F (Ls : list (Z * list nd)) m : Prop := {
  fs_own : own tid n m O;
  fs_vars : is_struct m (find_vars tid) 32;
  fs_vars_own : find_vars tid ∉ O;
  fs_client : forall b, b ∈ F -> live m b /\ (b ∉ O) /\ b <> find_vars tid;
  fs_list : forall i l xs, Ls !! i = Some (l, xs) ->
    linv (l, LIST_HEAD) [] O xs m /\ sorted xs /\ (find_vars tid ∉ span l xs) /\
    (forall b, b ∈ span l xs -> b ∉ F);
  fs_sep : forall i j l xs l' xs' b, i <> j -> Ls !! i = Some (l, xs) -> Ls !! j = Some (l', xs') ->
    b ∈ span l xs -> b ∉ span l' xs'
}.

Definition lf_view (p : Z * list nd) : Z * gset Z := (p.1, key_set p.2).
Definition lf_size (Ls : list (Z * list nd)) : nat := sum_list ((fun p => S (length p.2)) <$> Ls).

Definition lf_sets (tid : Z) (c : nat) L F m : Prop :=
  exists n O Ls, lfs tid n O F Ls m /\ L = lf_view <$> Ls /\ (n + lf_size Ls <= c)%nat.

Lemma span_live l O xs m b : linv (l, LIST_HEAD) [] O xs m -> b ∈ span l xs -> live m b.
Proof.
  intros Hi Hb. unfold span, objs in Hb. apply elem_of_cons in Hb as [->|Hb].
  - pose proof (linv_chain _ _ _ _ _ Hi) as Hc. apply chain_first, live_get in Hc. exact Hc.
  - apply list_elem_of_fmap in Hb as (x & -> & Hx). eapply is_node_live, chain_nodes; eauto. apply Hi.
Qed.

(** A list whose objects are as before. *)
Lemma span_keep l O O' xs m m' :
  linv (l, LIST_HEAD) [] O xs m ->
  (forall b, b ∈ span l xs -> m' !! b = m !! b /\ b ∉ O') -> linv (l, LIST_HEAD) [] O' xs m'.
Proof.
  intros [C1 C2 C3 C4] H. split; auto.
  - eapply chain_objs; [..|exact C1].
    + apply H. apply (objs_head (l, LIST_HEAD)).
    + intros x Hx. apply H. by apply objs_node.
  - intros b Hb. by apply H.
  - intros b Hb. by apply not_elem_of_nil in Hb.
Qed.

(** One of the lists, for an operation on it. *)
Lemma lfs_get tid n O F Ls m i l xs :
  lfs tid n O F Ls m -> Ls !! i = Some (l, xs) -> lf_list tid n (l, LIST_HEAD) O xs m.
Proof.
  intros [H1 H2 H3 H4 H5 H6] Hi. destruct (H5 i l xs Hi) as (Hl & Hs & Hv & _).
  split_and!; auto. by apply linv_add.
Qed.

(** The objects an operation on the [i]-th list leaves alone. *)
Lemma lfs_outside tid O xs m m' O' xs' l b :
  frame (fp (l, LIST_HEAD) [find_vars tid] O xs) m m' (fp (l, LIST_HEAD) [find_vars tid] O' xs') ->
  live m b -> b ∉ O -> b <> find_vars tid -> b ∉ span l xs ->
  m' !! b = m !! b /\ (b ∉ O') /\ b ∉ span l xs'.
Proof.
  intros HF Hl HO Hv Hsp.
  assert (Hb : b ∉ fp (l, LIST_HEAD) [find_vars tid] O xs).
  { rewrite elem_of_fp, objs_cons. tauto. }
  pose proof (frame_notin _ _ _ _ _ HF Hb Hl) as Hb'. rewrite elem_of_fp, objs_cons in Hb'.
  split_and!; [by apply HF|tauto..].
Qed.

Lemma lfs_put tid n O F Ls m i l xs n' O' xs' m' :
  lfs tid n O F Ls m -> Ls !! i = Some (l, xs) -> lf_list tid n' (l, LIST_HEAD) O' xs' m' ->
  frame (fp (l, LIST_HEAD) [find_vars tid] O xs) m m' (fp (l, LIST_HEAD) [find_vars tid] O' xs') ->
  lfs tid n' O' F (<[i := (l, xs')]> Ls) m' /\ kept F m m'.
Proof.
  intros [H1 H2 H3 H4 H5 H6] Hi Hl' HF.
  pose proof (lookup_lt_Some _ _ _ Hi) as Hlt.
  destruct (H5 i l xs Hi) as (Hl & Hs & Hv & HspF).
  destruct Hl' as (Ho' & Hinv' & Hs'). pose proof (linv_drop _ _ _ _ _ _ Hinv') as (Hi' & Hv' & HvO & Hst).
  assert (Hcl : forall b, b ∈ F -> m' !! b = m !! b /\ (b ∉ O') /\ b ∉ span l xs').
  { intros b Hb. destruct (H4 b Hb) as (? & ? & ?). eapply lfs_outside; eauto. intros E. by apply (HspF b). }
  assert (Hother : forall j l2 xs2, j <> i -> Ls !! j = Some (l2, xs2) -> forall b, b ∈ span l2 xs2 ->
            m' !! b = m !! b /\ (b ∉ O') /\ b ∉ span l xs').
  { intros j l2 xs2 Hj Hj2 b Hb. destruct (H5 j l2 xs2 Hj2) as (Hl2 & _ & Hv2 & _).
    eapply lfs_outside; eauto using span_live.
    - by eapply linv_own.
    - by intros ->. }
  split; [|intros b Hb; by apply Hcl]. split; auto.
  - intros b Hb. destruct (H4 b Hb) as (Hlv & _ & ?). destruct (Hcl b Hb) as (E & ? & ?).
    split_and!; auto. unfold live. by rewrite E.
  - intros j l2 xs2 Hj. destruct (decide (j = i)) as [->|Hne].
    + rewrite list_lookup_insert_eq in Hj by auto. injection Hj as <- <-. split_and!; auto.
      intros b Hb HbF. by apply (Hcl b HbF).
    + rewrite list_lookup_insert_ne in Hj by auto. destruct (H5 j l2 xs2 Hj) as (Hl2 & Hs2 & Hv2 & HF2).
      split_and!; auto. eapply span_keep; [exact Hl2|].
      intros b Hb. destruct (Hother j l2 xs2 Hne Hj b Hb) as (? & ? & _). auto.
  - intros j k l1 xs1 l2 xs2 b Hjk Hj Hk Hb Hb2.
    destruct (decide (j = i)) as [->|Hji]; [|destruct (decide (k = i)) as [->|Hki]].
    + rewrite list_lookup_insert_eq in Hj by auto. rewrite list_lookup_insert_ne in Hk by auto.
      injection Hj as <- <-. by apply (Hother k l2 xs2 ltac:(auto) Hk b Hb2).
    + rewrite list_lookup_insert_eq in Hk by auto. rewrite list_lookup_insert_ne in Hj by auto.
      injection Hk as <- <-. by apply (Hother j l1 xs1 Hji Hj b Hb).
    + rewrite list_lookup_insert_ne in Hj, Hk by auto. by apply (H6 j k l1 xs1 l2 xs2 b).
Qed.

Lemma lf_view_lookup Ls (i : nat) (l : Z) (X : gset Z) :
  (lf_view <$> Ls) !! i = Some (l, X) -> exists xs, Ls !! i = Some (l, xs) /\ X = key_set xs.
Proof.
  rewrite list_lookup_fmap. intros H. apply fmap_Some in H as ([l' xs] & Hi & E).
  injection E as -> ->. eauto.
Qed.

Lemma lf_size_insert Ls (i : nat) l xs xs' :
  Ls !! i = Some (l, xs) ->
  (lf_size (<[i := (l, xs')]> Ls) + length xs = lf_size Ls + length xs')%nat.
Proof.
  intros Hi. unfold lf_size. rewrite list_fmap_insert. cbn [snd].
  pose proof (sum_list_insert ((fun p : Z * list nd => S (length p.2)) <$> Ls) i (S (length xs)) (S (length xs'))) as H.
  rewrite list_lookup_fmap, Hi in H. specialize (H eq_refl). lia.
Qed.

Lemma lf_size_lookup Ls (i : nat) l xs : Ls !! i = Some (l, xs) -> (S (length xs) <= lf_size Ls)%nat.
Proof.
  intros Hi. apply (sum_list_lookup _ i). by rewrite list_lookup_fmap, Hi.
Qed.

(** An operation that meets [set_post] on one list, as the client sees it. *)
Lemma lf_sets_op tid c L F m i l X (op : prog mem bool) (r : gset Z -> bool) (S' : gset Z -> gset Z) :
  lf_sets tid c L F m -> L !! i = Some (l, X) ->
  (forall n O xs, lf_list tid n (l, LIST_HEAD) O xs m -> (n + S (length xs) <= c)%nat ->
     tot op m (set_post tid n (l, LIST_HEAD) O xs m (r (key_set xs)) (S' (key_set xs)))) ->
  tot op m (fun b m' => b = r X /\ lf_sets tid (S c) (<[i := (l, S' X)]> L) F m' /\ kept F m m').
Proof.
  intros (n & O & Ls & Hs & -> & Hc) Hi Hop.
  apply lf_view_lookup in Hi as (xs & Hi & ->).
  pose proof (lf_size_lookup _ _ _ _ Hi) as Hlen.
  eapply tot_mono; [apply (Hop n O xs); [by eapply lfs_get|lia]|].
  intros b m' (-> & n' & O' & xs' & Hl' & HS & Hn & HF).
  destruct (lfs_put _ _ _ _ _ _ _ _ _ _ _ _ _ Hs Hi Hl' HF) as [Hs' Hk].
  split_and!; auto. exists n', O', (<[i := (l, xs')]> Ls). split_and!; auto.
  - rewrite list_fmap_insert. by rewrite <- HS.
  - pose proof (lf_size_insert Ls i l xs xs' Hi). lia.
Qed.

Lemma lfs_change tid n O F F' Ls m m' :
  lfs tid n O F Ls m ->
  (forall b, live m b -> b ∉ F -> m' !! b = m !! b) ->
  (forall b, b ∈ F' -> live m' b /\ (b ∈ F \/ m !! b = None)) ->
  lfs tid n O F' Ls m'.
Proof.
  intros [H1 H2 H3 H4 H5 H6] HL HF.
  assert (Hout : forall b, live m b -> b ∉ F -> b ∉ F').
  { intros b [o Ho] Hb Hb'. destruct (HF b Hb') as [_ [?|E]]; congruence. }
  assert (HOF : forall b, b ∈ O -> b ∉ F) by (intros b Hb Hb'; destruct (H4 b Hb') as (_ & ? & _); auto).
  assert (HvF : find_vars tid ∉ F) by (intros E; destruct (H4 _ E) as (_ & _ & ?); auto).
  split; auto.
  - eapply own_local; [exact H1|]. intros b Hb. apply HL; eauto using own_live.
  - eapply is_struct_lookup; [|exact H2]. apply HL; eauto using is_struct_live.
  - intros b Hb. destruct (HF b Hb) as [Hlv [Hin|Hnone]]; split_and!; auto.
    + by apply H4.
    + by apply H4.
    + intros E. apply (own_live _ _ _ _ _ H1) in E as [o E]. congruence.
    + intros ->. apply is_struct_live in H2 as [o E]. congruence.
  - intros i l xs Hi. destruct (H5 i l xs Hi) as (Hl & Hs & Hv & HsF). split_and!; auto.
    + eapply span_keep; [exact Hl|]. intros b Hb. split; [|by eapply linv_own].
      apply HL; [by eapply span_live|auto].
    + intros b Hb. apply Hout; [by eapply span_live|auto].
Qed.

(** A new, empty list. *)
Lemma lfs_new tid n O F Ls m a :
  lfs tid n O F Ls m -> m !! a = None -> a <> NULL ->
  lfs tid n O F (Ls ++ [(a, [])]) (upd (<[a := Obj 8 ∅]> m) (a, LIST_HEAD) NULL).
Proof.
  intros Hs Ha Hn. set (m' := upd (<[a := Obj 8 ∅]> m) (a, LIST_HEAD) NULL).
  assert (HL : forall b, b <> a -> m' !! b = m !! b).
  { intros b Hb. unfold m'. rewrite lookup_upd_ne, lookup_insert_ne; auto. }
  assert (Hm' : lfs tid n O F Ls m').
  { eapply lfs_change; [exact Hs|..].
    - intros b [o Ho] _. apply HL. congruence.
    - intros b Hb. split; [|auto]. destruct (fs_client _ _ _ _ _ _ Hs b Hb) as ([o Ho] & _).
      exists o. rewrite HL; congruence. }
  assert (Hnew : forall b, live m b -> b <> a) by (intros b [o Ho] ->; congruence).
  pose proof Hs as [S1 S2 S3 S4 S5 S6]. destruct Hm' as [H1 H2 H3 H4 H5 H6]. split; auto.
  - intros i l xs Hi. apply lookup_app_Some in Hi as [Hi|[_ Hi]]; [exact (H5 i l xs Hi)|].
    apply list_lookup_singleton_Some in Hi as [_ [= <- <-]]. unfold span, objs. simpl. split_and!.
    + split; simpl.
      * unfold m'. simpl. rewrite get_upd_eq; [auto|]. simpl. exists (Obj 8 ∅). by rewrite lookup_insert_eq.
      * apply NoDup_singleton.
      * intros b ->%list_elem_of_singleton E. by apply (Hnew a (own_live _ _ _ _ _ S1 E)).
      * intros b Hb. by apply not_elem_of_nil in Hb.
    + constructor.
    + rewrite list_elem_of_singleton. apply Hnew. by eapply is_struct_live.
    + intros b ->%list_elem_of_singleton E. apply (Hnew a); auto. by apply S4.
  - intros i j l xs l' xs' b Hij Hi Hj Hb Hb'.
    assert (Hold : forall k y ys, Ls !! k = Some (y, ys) -> b ∈ span y ys -> b <> a).
    { intros k y ys Hk Hy. apply Hnew. eapply span_live; [|exact Hy]. by apply (S5 k). }
    apply lookup_app_Some in Hi as [Hi|[Hi0 Hi]]; apply lookup_app_Some in Hj as [Hj|[Hj0 Hj]].
    + by apply (H6 i j l xs l' xs' b).
    + apply list_lookup_singleton_Some in Hj as [_ [= <- <-]]. apply list_elem_of_singleton in Hb' as ->.
      by apply (Hold i l xs).
    + apply list_lookup_singleton_Some in Hi as [_ [= <- <-]]. apply list_elem_of_singleton in Hb as ->.
      by apply (Hold j l' xs').
    + apply lookup_lt_Some in Hi, Hj. simpl in *. lia.
Qed.
End lf_sets.


(** ** The memory the operations use *)
Section lf_room.
Context `{HM : Malloc, HMR : !MallocRoom, HA : !Allocator, HR : !Reclaimer, HE : !Epochs, HRL : !ReclaimerLaws,
  HRm : !RoomLaws}.
Variables (fuel : nat) (tid : Z) (k : nat).

Lemma find_keeps head key : keeps (mroom k) (list_lf_ebr.find fuel tid head key).
Proof. unfold list_lf_ebr.find. keep. Qed.
#[local] Hint Resolve find_keeps : room.

Lemma search_keeps l key : keeps (mroom k) (list_lf_ebr.search fuel tid l key).
Proof. unfold list_lf_ebr.search. keep. Qed.

Lemma delete_keeps l key : keeps (mroom k) (list_lf_ebr.delete fuel tid l key).
Proof. unfold list_lf_ebr.delete. keep. Qed.

Lemma insert_room l key m r m' :
  mroom (S k) m -> run (list_lf_ebr.insert fuel tid l key) m = Ok (r, m') -> mroom k m'.
Proof.
  intros Hm H. unfold list_lf_ebr.insert in H. rewrite run_bind in H.
  destruct (run (new_node fuel tid) m) as [[p m1]|] eqn:Hp; [|discriminate].
  apply (new_node_room k) in Hp as [Hp Hm1]; [|exact Hm].
  rewrite run_bind in H. destruct (run (critical_enter fuel tid) m1) as [[[] m2]|] eqn:E; [|discriminate].
  apply (enter_room k) in E; [|exact Hm1]. rewrite run_bind in H.
  destruct (run (loop fuel _ p) m2) as [[n m3]|] eqn:E3; [|discriminate].
  assert (m3 = m2) as ->.
  { destruct fuel as [|f]; [discriminate|]. unfold loop in E3. rewrite run_bind in E3.
    apply Z.eqb_neq in Hp. rewrite Hp in E3. simpl in E3. congruence. }
  revert H. match goal with |- run ?p _ = _ -> _ => cut (keeps (mroom k) p); [intros HK; by apply HK|] end.
  keep.
Qed.
End lf_room.

(** What the code of a lock-free list behind list.h has to do, on one list,
    for the lists of a program to be sets. *)
Class ListCode `{HM : Malloc, HMR : !MallocRoom, HA : !Allocator, HR : !Reclaimer, HRL : !ReclaimerLaws,
  HLO : !ListOps} := {
  code_init : l_init = list_lf_ebr.list_init;
  code_search : forall fuel tid n l key O xs m,
    lf_list tid n (l, LIST_HEAD) O xs m -> (n + S (length xs) < fuel)%nat ->
    tot (l_search fuel tid l key) m
      (set_post tid n (l, LIST_HEAD) O xs m (bool_decide (key ∈ key_set xs)) (key_set xs));
  code_search_keeps : forall fuel tid k l key, keeps (mroom k) (l_search fuel tid l key);
  code_delete : forall fuel tid n l key O xs m,
    lf_list tid n (l, LIST_HEAD) O xs m -> (n + S (length xs) < fuel)%nat ->
    tot (l_delete fuel tid l key) m
      (set_post tid n (l, LIST_HEAD) O xs m (bool_decide (key ∈ key_set xs)) (key_set xs ∖ {[key]}));
  code_delete_keeps : forall fuel tid k l key, keeps (mroom k) (l_delete fuel tid l key);
  code_insert : forall fuel tid n l key O xs m,
    lf_list tid n (l, LIST_HEAD) O xs m -> (n + S (length xs) < fuel)%nat ->
    tot (new_node fuel tid) m (fun p _ => p <> NULL) ->
    tot (l_insert fuel tid l key) m
      (set_post tid n (l, LIST_HEAD) O xs m (negb (bool_decide (key ∈ key_set xs))) ({[key]} ∪ key_set xs));
  code_insert_room : forall fuel tid k l key m r m',
    mroom (S k) m -> run (l_insert fuel tid l key) m = Ok (r, m') -> mroom k m'
}.

(** Where there is room, an allocation succeeds. *)
Lemma new_node_succeeds `{HM : Malloc, HMR : !MallocRoom, HA : !Allocator, HR : !Reclaimer,
    HRL : !ReclaimerLaws, HRm : !RoomLaws} fuel tid n m O k :
  own tid n m O -> (n < fuel)%nat -> mroom (S k) m -> tot (new_node fuel tid) m (fun p _ => p <> NULL).
Proof.
  intros Ho Hf Hm. pose proof (new_node_ok tid n m O fuel Ho Hf) as Hnn.
  apply tot_run in Hnn as (p & m' & Hr & _). eapply run_tot; [exact Hr|].
  by apply (new_node_room k) in Hr as [].
Qed.

Definition code_set_laws `{HM : Malloc, HMR : !MallocRoom, HA : !Allocator, HR : !Reclaimer,
  HRL : !ReclaimerLaws, HRm : !RoomLaws, HLO : !ListOps, HC : !ListCode} : SetLaws.
Proof.
refine (Build_SetLaws _ _ _ lf_sets _ _ _ _ _ _ _).
{ intros tid c L F m m' (n & O & Ls & Hs & HL & Hc) Hm HF. exists n, O, Ls. split_and!; auto.
  eapply lfs_change; [exact Hs|..]; auto. }
{ intros tid c L F m b (n & O & Ls & Hs & _) Hb. by apply (fs_client _ _ _ _ _ _ Hs). }
{ intros tid c L F m a o (n & O & Ls & Hs & HL & Hc) Ha. exists n, O, Ls. split_and!; auto.
  eapply lfs_change; [exact Hs|..].
  - intros b [o' Ho] _. apply lookup_insert_ne. congruence.
  - intros b [->%elem_of_singleton|Hb]%elem_of_union.
    + split; [exists o; by rewrite lookup_insert_eq|auto].
    + destruct (fs_client _ _ _ _ _ _ Hs b Hb) as ([o' Ho] & _). split; [|auto].
      exists o'. rewrite lookup_insert_ne; congruence. }
{ intros tid c L F m k (n & O & Ls & Hs & -> & Hc) Hm. rewrite code_init. unfold list_lf_ebr.list_init.
  destruct (mroom_malloc k m (Obj 8 ∅) Hm ltac:(done)) as [E Hm']. simpl in E, Hm'.
  assert (Ha : m !! malloc_addr m 8 = None) by (eapply (malloc_fresh m 8); [exact E|]; lia).
  unfold malloc. apply tot_bind. eapply run_tot; [rewrite run_new_obj; simpl; apply Z.eqb_neq in E; rewrite E; reflexivity|].
  set (a := malloc_addr m 8) in *.
  assert (Hin : inb (<[a:=Obj 8 ∅]> m) (a, 0) = true) by (unfold inb; simpl; by rewrite lookup_insert_eq).
  psteps. split_and!.
  - exists n, O, (Ls ++ [(a, [])]). split_and!; [by apply lfs_new|by rewrite fmap_app|].
    unfold lf_size in *. rewrite fmap_app, sum_list_with_app || rewrite fmap_app. simpl. lia.
  - by apply mroom_upd.
  - intros b Hb. destruct (fs_client _ _ _ _ _ _ Hs b Hb) as ([o Ho] & _).
    rewrite lookup_upd_ne, lookup_insert_ne; simpl; congruence. }
{ intros tid c L F m fuel i l X key k Hs Hf Hi Hm.
  eapply tot_mono; [apply tot_keeps; [apply (code_search_keeps fuel tid k l key)|exact Hm|]|].
  { apply (lf_sets_op tid c L F m i l X _ (fun X => bool_decide (key ∈ X)) (fun X => X) Hs Hi).
    intros n O xs Hl Hn. apply code_search; [exact Hl|lia]. }
  intros b m' ((? & Hs' & ?) & ?). cbv beta in Hs'. rewrite (list_insert_id _ _ _ Hi) in Hs'. auto. }
{ intros tid c L F m fuel i l X key k Hs Hf Hi Hm.
  eapply tot_mono; [apply tot_keeps; [apply (code_delete_keeps fuel tid k l key)|exact Hm|]|].
  { apply (lf_sets_op tid c L F m i l X _ (fun X => bool_decide (key ∈ X)) (fun X => X ∖ {[key]}) Hs Hi).
    intros n O xs Hl Hn. apply code_delete; [exact Hl|lia]. }
  intros b m' ((? & ? & ?) & ?). auto. }
{ intros tid c L F m fuel i l X key k Hs Hf Hi Hm.
  assert (HT : tot (l_insert fuel tid l key) m (fun r m' => r = negb (bool_decide (key ∈ X)) /\
            lf_sets tid (S c) (<[i := (l, {[key]} ∪ X)]> L) F m' /\ kept F m m')).
  { apply (lf_sets_op tid c L F m i l X _ (fun X => negb (bool_decide (key ∈ X))) (fun X => {[key]} ∪ X) Hs Hi).
    intros n O xs Hl Hn. apply code_insert; [exact Hl|lia|].
    by apply (new_node_succeeds fuel tid n m O k (proj1 Hl) ltac:(lia)). }
  apply tot_run in HT as (r & m' & Hr & HT). eapply run_tot; [exact Hr|].
  pose proof (code_insert_room fuel tid k l key m r m' Hm Hr). tauto. }
Defined.

(** ** The lists of list_lf_ebr.c and list_lf_dw.c *)
#[export] Instance lf_code `{HM : Malloc, HMR : !MallocRoom, HA : !Allocator, HR : !Reclaimer, HE : !Epochs,
  HRL : !ReclaimerLaws, HRm : !RoomLaws} : ListCode (HLO := lf_list_ops).
Proof.
split.
{ done. }
{ intros. by apply search_spec. }
{ intros. apply search_keeps. }
{ intros. by apply delete_spec. }
{ intros. apply delete_keeps. }
{ intros. by apply insert_spec. }
{ intros ???????? Hm Hr. by apply (insert_room _ _ _ _ _ _ _ _ Hm Hr). }
Qed.

#[export] Instance lf_set_laws `{HM : Malloc, HMR : !MallocRoom, HA : !Allocator, HR : !Reclaimer, HE : !Epochs,
  HRL : !ReclaimerLaws, HRm : !RoomLaws} : SetLaws := code_set_laws (HC := lf_code).

#[export] Instance dw_list_ops `{Malloc, Allocator, Reclaimer} : ListOps :=
  {| l_init := list_lf_dw.list_init;
     l_destroy := list_lf_dw.list_destroy;
     l_search := list_lf_dw.search;
     l_delete := list_lf_dw.delete;
     l_insert := list_lf_dw.insert |}.

Section dw_room.
Context `{HM : Malloc, HMR : !MallocRoom, HA : !Allocator, HR : !Reclaimer, HRL : !ReclaimerLaws, HRm : !RoomLaws}.

Lemma dw_insert_room fuel tid k l key m r m' :
  mroom (S k) m -> run (list_lf_dw.insert fuel tid l key) m = Ok (r, m') -> mroom k m'.
Proof.
  intros Hm H. unfold list_lf_dw.insert in H. rewrite run_bind in H.
  destruct (run (new_node fuel tid) m) as [[p m1]|] eqn:Hp; [|discriminate].
  apply (new_node_room k) in Hp as [Hp Hm1]; [|exact Hm]. apply Z.eqb_neq in Hp. rewrite Hp in H.
  revert H. match goal with |- run ?p _ = _ -> _ => cut (keeps (mroom k) p); [intros HK; by apply HK|] end.
  unfold assert_, list_lf_dw.find, list_lf_ebr.find. keep.
Qed.
End dw_room.

Definition dw_code `{HM : Malloc, HMR : !MallocRoom, HA : !Allocator, HR : !Reclaimer,
  HRL : !ReclaimerLaws, HRm : !RoomLaws} : ListCode (HLO := dw_list_ops).
Proof.
split.
{ done. }
{ intros. by apply search_spec. }
{ intros. apply search_keeps. }
{ intros. by apply delete_spec. }
{ intros. apply delete_keeps. }
{ intros. by apply dw_insert_spec. }
{ intros ???????? Hm Hr. by apply (dw_insert_room _ _ _ _ _ _ _ _ Hm Hr). }
Qed.
