(* ===== verification/Alloc.v ===== *)
(** * The node allocators (allocator_malloc.c, allocator_magazine.c)

    [allocator_malloc] is the wrapper of malloc the benchmarks are linked with;
    [allocator_magazine] is the pool allocator with per-thread magazines.  The
    magazine allocator keeps the nodes it was given: [new_node] takes one out of
    the pool, [free_node] puts one back, and the counter of a thread is the
    length of its free list. *)
From S2P Require Export Interfaces.

(** util.c *)
Definition mapmem `{Malloc} (length : Z) : prog mem Z := malloc length.

Module allocator_malloc.
Definition init_allocator : prog mem unit := Ret tt.

Definition new_node `{Malloc} : prog mem Z := malloc sizeof_node_t.

Definition free_node (n : Z) : prog mem unit :=
  store (n, NEXT) 17 ;;
  store (n, MR_NEXT) 34 ;;
  free n.

#[export] Instance ops `{Malloc} : Allocator :=
  {| Interfaces.new_node := fun _ _ => new_node;
     Interfaces.free_node := fun _ _ p => free_node p |}.
End allocator_malloc.

Module allocator_magazine.
Section code.
Context `{!Malloc}.
(** [get_thread] belongs to the harness this file was written for. *)
Variable get_thread : Z -> Z.
Variable fuel : nat.
Variable tid : Z.

Definition PT_FREELIST_TARGET : Z := 100.

Definition kfree_gbl (p : Z) : prog mem unit :=
  loop fuel (fun _ : unit =>
    old <- load (GLOBALS, G_FREELIST) ;;
    store (p, NEXT) old ;;
    write_barrier ;;
    ok <- CAS (GLOBALS, G_FREELIST) old p ;;
    if ok : bool then break tt else continue tt) tt.

Definition kmalloc_gbl : prog mem Z :=
  loop fuel (fun _ : unit =>
    p <- load (GLOBALS, G_FREELIST) ;;
    if p =? NULL then
      _ <- atomic_xadd4 (GLOBALS, G_OUT_OF_MEMORY) 1 ;;
      break NULL
    else
      next <- load (p, NEXT) ;;
      ok <- CAS (GLOBALS, G_FREELIST) p next ;;
      if ok : bool then break p else continue tt) tt.

Definition free_node (p : Z) : prog mem unit :=
  let t := get_thread tid in
  store (p, NEXT) 3146496 ;;
  c <- load (t, T_FREELIST_COUNT) ;;
  store (t, T_FREELIST_COUNT) (c + 1) ;;
  (if PT_FREELIST_TARGET <? c + 1 then
     f2 <- load (t, T_FREELIST2) ;;
     (if f2 =? NULL then Ret tt
      else
        q <- load (t, T_FREELIST2) ;;
        store (t, T_FREELIST2) NULL ;;
        kfree_gbl q) ;;
     f <- load (t, T_FREELIST) ;;
     store (t, T_FREELIST2) f ;;
     store (t, T_FREELIST) NULL ;;
     store (t, T_FREELIST_COUNT) 1
   else Ret tt) ;;
  f <- load (t, T_FREELIST) ;;
  store (p, MR_NEXT) f ;;
  store (t, T_FREELIST) p.

(** [memset(p, 0, sizeof(node_t))] *)
Definition clear_node (p : Z) : prog mem unit :=
  store (p, KEY) 0 ;; store (p, NEXT) 0 ;; store (p, MR_NEXT) 0 ;; store (p, REFCNT) 0.

Definition new_node : prog mem Z :=
  let t := get_thread tid in
  f <- load (t, T_FREELIST) ;;
  full <- (if f =? NULL then
     f2 <- load (t, T_FREELIST2) ;;
     if negb (f2 =? NULL) then
       f2 <- load (t, T_FREELIST2) ;;
       store (t, T_FREELIST) f2 ;;
       store (t, T_FREELIST2) NULL ;;
       store (t, T_FREELIST_COUNT) PT_FREELIST_TARGET ;;
       Ret true
     else
       p <- kmalloc_gbl ;;
       if p =? NULL then Ret false
       else
         store (t, T_FREELIST) p ;;
         store (t, T_FREELIST_COUNT) PT_FREELIST_TARGET ;;
         Ret true
   else Ret true) ;;
  if negb full then Ret NULL
  else
    f <- load (t, T_FREELIST) ;;
    if f =? NULL then Ret NULL
    else
      p <- load (t, T_FREELIST) ;;
      f <- load (t, T_FREELIST) ;;
      nx <- load (f, MR_NEXT) ;;
      store (t, T_FREELIST) nx ;;
      c <- load (t, T_FREELIST_COUNT) ;;
      store (t, T_FREELIST_COUNT) (c - 1) ;;
      clear_node p ;;
      Ret p.

Definition init_allocator : prog mem unit :=
  store (GLOBALS, G_OUT_OF_MEMORY) 0 ;;
  nelements <- load (PARAMS, P_N_ELEMENTS) ;;
  let nelementsfree := i32 (nelements + 2 * MAX_THREADS * PT_FREELIST_TARGET + MAX_THREADS * 64000) in
  store (GLOBALS, G_FREELIST) NULL ;;
  forz (Z.to_nat (MAX_THREADS + 1)) 0 (fun i =>
    store (get_thread i, T_FREELIST) NULL ;;
    store (get_thread i, T_FREELIST2) NULL ;;
    store (get_thread i, T_FREELIST_COUNT) 0) ;;
  shdmem <- malloc_array (Z.to_nat nelementsfree) sizeof_node_t ;;
  if shdmem =? NULL then exit_ (-1)
  else
    forz (Z.to_nat nelementsfree) 0 (fun i =>
      let n := shdmem + i * sizeof_node_t in
      store (n, KEY) (-1) ;;
      store (n, NEXT) NULL ;;
      store (n, MR_NEXT) NULL ;;
      free_node n).
End code.
End allocator_magazine.

(** ** The magazine allocator keeps its nodes *)

(** The stack of magazines: linked by [next], each a list by [mr_next]. *)
Fixpoint gstack (m : mem) (p : Z) (mags : list (list Z)) : Prop :=
  match mags with
  | [] => p = NULL
  | ns :: mags' => p <> NULL /\ flist MR_NEXT m p ns /\ length ns = 100%nat /\
      exists q, get m (p, NEXT) = Some q /\ gstack m q mags'
  end.

Section magazine_proofs.
Import allocator_magazine.
Variable get_thread : Z -> Z.
Implicit Types (m : mem) (fl ns : list Z) (mags : list (list Z)).

(** The pool of thread [tid]: its free list, its second magazine, and the
    magazines of all threads. *)
Definition pool fl ns mags : list Z := fl ++ ns ++ concat mags.

Definition mag_lists (p q g : Z) fl ns mags m : Prop :=
  flist MR_NEXT m p fl /\ flist MR_NEXT m q ns /\ gstack m g mags.

(** The words of the thread [t] and of the global stack, and what they point to. *)
Record mag_at (t p q g : Z) fl ns mags m : Prop := {
  mg_fl : get m (t, T_FREELIST) = Some p;
  mg_fl2 : get m (t, T_FREELIST2) = Some q;
  mg_count : get m (t, T_FREELIST_COUNT) = Some (Z.of_nat (length fl));
  mg_gbl : get m (GLOBALS, G_FREELIST) = Some g;
  mg_oom : is_Some (get m (GLOBALS, G_OUT_OF_MEMORY));
  mg_thread : is_struct m t sizeof_per_thread_t;
  mg_lists : mag_lists p q g fl ns mags m;
  mg_nodup : NoDup (t :: GLOBALS :: pool fl ns mags)
}.

Definition mag_ok (t : Z) fl ns mags m : Prop :=
  (exists p q g, mag_at t p q g fl ns mags m) /\
  (length fl <= 100)%nat /\ (ns = [] \/ length ns = 100%nat).

Lemma gstack_upd m p mags l v :
  l.1 ∉ concat mags \/ (l.2 <> NEXT /\ l.2 <> MR_NEXT) ->
  gstack m p mags -> gstack (upd m l v) p mags.
Proof.
  revert p. induction mags as [|ns mags IH]; intros p; simpl; auto.
  rewrite elem_of_app. intros Hn (Hp & Hf & Hl & q & Hq & Hg). split_and!; auto.
  - apply flist_upd; auto. tauto.
  - exists q. rewrite get_upd_ne; [split; [auto|apply IH; [tauto|auto]]|]. intros ->. simpl in Hn.
    destruct ns; simpl in *; [lia|]. destruct Hf as (-> & _). destruct Hn as [Hn|]; [|tauto].
    apply Hn. left. left.
Qed.

Lemma mag_lists_upd p q g fl ns mags m l v :
  l.1 ∉ pool fl ns mags -> mag_lists p q g fl ns mags m ->
  mag_lists p q g fl ns mags (upd m l v).
Proof.
  unfold pool, mag_lists. rewrite !elem_of_app. intros Hl (H1 & H2 & H3).
  split_and!; [apply flist_upd; tauto|apply flist_upd; tauto|apply gstack_upd; tauto].
Qed.

Lemma nodup_node t fl ns mags n :
  NoDup (t :: GLOBALS :: pool (n :: fl) ns mags) ->
  n <> t /\ n <> GLOBALS /\ t <> GLOBALS /\ (n ∉ pool fl ns mags) /\
  NoDup (t :: GLOBALS :: pool fl ns mags).
Proof.
  unfold pool. simpl. rewrite !NoDup_cons, !elem_of_cons. intuition congruence.
Qed.

(** Taking the first node of a non-empty free list. *)
Definition zero_node m n : Prop :=
  get m (n, KEY) = Some 0 /\ get m (n, NEXT) = Some 0 /\
  get m (n, MR_NEXT) = Some 0 /\ get m (n, REFCNT) = Some 0.

Lemma new_node_pop t q g n fl ns mags m :
  mag_at t n q g (n :: fl) ns mags m -> (length (n :: fl) <= 100)%nat -> (ns = [] \/ length ns = 100%nat) ->
  tot (f <- load (t, T_FREELIST) ;;
       if f =? NULL then Ret NULL
       else
         p <- load (t, T_FREELIST) ;;
         f <- load (t, T_FREELIST) ;;
         nx <- load (f, MR_NEXT) ;;
         store (t, T_FREELIST) nx ;;
         c <- load (t, T_FREELIST_COUNT) ;;
         store (t, T_FREELIST_COUNT) (c - 1) ;;
         clear_node p ;;
         Ret p) m
    (fun r m' => r = n /\ mag_ok t fl ns mags m' /\ is_node m' n /\ zero_node m' n).
Proof.
  intros [H1 H2 H3 H4 [k H5] H6 (H7 & H8 & H9) H10] Hlen Hns.
  destruct (nodup_node _ _ _ _ _ H10) as (N1 & N2 & N3 & N4 & N5).
  destruct H7 as (_ & Hn & nx & Hnx & Hfl). unfold sizeof_per_thread_t in H6.
  unfold clear_node. pstep1. pstep1. replace (n =? 0) with false
    by (symmetry; apply Z.eqb_neq; by apply is_node_nonnull in Hn).
  psteps. split; [auto|]. split; [|split; [by rewrite !is_node_upd|split_and!; mget]].
  split; [|simpl in Hlen; split; [lia|auto]]. exists nx, q, g. split.
  - mget.
  - mget.
  - mget. f_equal. simpl length. lia.
  - mget.
  - exists k. mget.
  - by rewrite !is_struct_upd.
  - repeat apply mag_lists_upd; try exact N4; try split; auto;
      rewrite !NoDup_cons, !elem_of_cons in N5; intuition.
  - auto.
Qed.

(** A thread with an empty free list takes over a whole magazine. *)
Lemma mag_refill t q g ns mags m :
  mag_at t NULL q g [] ns mags m -> ns <> [] -> length ns = 100%nat ->
  mag_at t q NULL g ns [] mags
    (upd (upd (upd m (t, T_FREELIST) q) (t, T_FREELIST2) NULL) (t, T_FREELIST_COUNT) 100).
Proof.
  intros [H1 H2 H3 H4 [k H5] H6 (H7 & H8 & H9) H10] Hne Hlen. unfold pool in H10. simpl in H10.
  assert (t <> GLOBALS) by (rewrite !NoDup_cons, !elem_of_cons in H10; intuition).
  split; [mget|mget|mget; by rewrite Hlen|mget|exists k; mget|by rewrite !is_struct_upd| |auto].
  repeat apply mag_lists_upd; [..|split_and!; auto; done]; simpl;
    rewrite !NoDup_cons, !elem_of_cons in H10; unfold pool; simpl; intuition.
Qed.

(** Popping a magazine off the global stack. *)
Lemma kmalloc_gbl_spec fuel t p q g fl ns mags m :
  mag_at t p q g fl ns mags m -> (0 < fuel)%nat ->
  tot (kmalloc_gbl fuel) m (fun r m' => exists g',
    match mags with
    | [] => r = NULL /\ mag_at t p q g' fl ns [] m'
    | mag :: mags' => length mag = 100%nat /\ r <> NULL /\ flist MR_NEXT m' r mag /\
        mag_at t p q g' fl ns mags' m'
    end).
Proof.
  intros [H1 H2 H3 H4 [k H5] H6 (H7 & H8 & H9) H10] Hf. unfold kmalloc_gbl.
  assert (Ht : t <> GLOBALS) by (rewrite !NoDup_cons, !elem_of_cons in H10; intuition).
  apply tot_loop_exit; [auto|]. pstep1. pstep1.
  assert (HG : forall mags' l v, l.1 = GLOBALS -> (forall x, x ∈ concat mags' -> x ∈ concat mags) ->
    mag_lists p q g fl ns mags m -> gstack m v mags' -> mag_lists p q v fl ns mags' (upd m l v)).
  { intros mags' l v Hl Hsub (L1 & L2 & _) L3.
    assert (l.1 ∉ pool fl ns mags). { rewrite Hl, !NoDup_cons in *. intuition. }
    unfold pool in *. rewrite !elem_of_app in *.
    split_and!; [apply flist_upd; tauto|apply flist_upd; tauto|].
    apply gstack_upd; auto. left. intros E. apply Hsub in E. tauto. }
  destruct mags as [|mag mags]; simpl in *.
  - subst g. simpl. psteps. exists 0. split; [auto|].
    split; [mget..|eexists; mget|by rewrite is_struct_upd| |auto].
    apply mag_lists_upd; [|by split_and!]. simpl. rewrite !NoDup_cons in H10. intuition.
  - destruct H9 as (Hg & Hmag & Hlen & nx & Hnx & Hrest).
    replace (g =? 0) with false by (symmetry; by apply Z.eqb_neq). psteps.
    eapply tot_CAS_true; [exact H4|]. apply tot_ret. exists nx. split; [auto|]. split; [auto|].
    split. { apply flist_upd; auto. }
    split; [mget..|exists k; mget|by rewrite is_struct_upd| |].
    + apply HG; auto; [set_solver|split_and!; auto]. split_and!; auto. eauto.
    + eapply sublist_NoDup; [exact H10|]. do 2 apply sublist_skip. unfold pool. simpl.
      do 2 (apply sublist_app; [done|]). by apply sublist_inserts_l.
Qed.

(** [new_node] takes a cleared node out of the pool, and answers NULL exactly
    when the pool is empty. *)
Lemma mag_new_node_spec fuel tid fl ns mags m :
  mag_ok (get_thread tid) fl ns mags m -> (0 < fuel)%nat ->
  tot (new_node get_thread fuel tid) m (fun r m' => exists fl' ns' mags',
    mag_ok (get_thread tid) fl' ns' mags' m' /\
    match pool fl ns mags with
    | [] => r = NULL /\ pool fl' ns' mags' = []
    | _ => pool fl ns mags ≡ₚ r :: pool fl' ns' mags' /\ is_node m' r /\ zero_node m' r
    end).
Proof.
  intros ((p & q & g & Hat) & Hlen & Hns) Hf. unfold new_node. set (t := get_thread tid) in *.
  assert (Hpop : forall fl1 ns1 mags1 p1 q1 g1 m1 ,
    mag_at t p1 q1 g1 fl1 ns1 mags1 m1 -> fl1 <> [] -> (length fl1 <= 100)%nat ->
    (ns1 = [] \/ length ns1 = 100%nat) -> pool fl ns mags ≡ₚ pool fl1 ns1 mags1 ->
    tot (f <- load (t, T_FREELIST) ;;
       if f =? NULL then Ret NULL
       else
         p <- load (t, T_FREELIST) ;;
         f <- load (t, T_FREELIST) ;;
         nx <- load (f, MR_NEXT) ;;
         store (t, T_FREELIST) nx ;;
         c <- load (t, T_FREELIST_COUNT) ;;
         store (t, T_FREELIST_COUNT) (c - 1) ;;
         clear_node p ;;
         Ret p) m1 (fun r m' => exists fl' ns' mags', mag_ok t fl' ns' mags' m' /\
           match pool fl ns mags with
           | [] => r = NULL /\ pool fl' ns' mags' = []
           | _ => pool fl ns mags ≡ₚ r :: pool fl' ns' mags' /\ is_node m' r /\ zero_node m' r
           end)).
  { intros fl1 ns1 mags1 p1 q1 g1 m1 H1 Hne Hl1 Hn1 Hp1. destruct fl1 as [|n fl1]; [done|].
    assert (p1 = n) as -> by apply H1.
    eapply tot_mono; [eapply new_node_pop; eauto|]. intros r m' (-> & Hok & Hnode & Hz).
    exists fl1, ns1, mags1. split; [auto|].
    destruct (pool fl ns mags) as [|x xs] eqn:E; [|by rewrite Hp1].
    apply Permutation_nil in Hp1. discriminate. }
  destruct fl as [|n fl].
  - assert (p = 0) as -> by apply Hat. pose proof Hat as [H1 H2 H3 H4 H5 H6 (_ & H8 & H9) H10].
    unfold sizeof_per_thread_t in H6. psteps. simpl. destruct ns as [|n ns].
    + simpl in H8. subst q. psteps. simpl. psteps.
      eapply tot_mono; [eapply kmalloc_gbl_spec; eauto|]. intros r m' (g' & Hr).
      destruct mags as [|mag mags].
      * destruct Hr as (-> & Hat'). simpl. psteps. exists [], [], []. split; [|auto].
        split; [eauto|]. simpl. split; [lia|auto].
      * destruct Hr as (Hml & Hr0 & Hfl & Hat').
        replace (r =? 0) with false by (symmetry; by apply Z.eqb_neq).
        pose proof Hat' as [A1 A2 A3 A4 [k A5] A6 (_ & A8 & A9) A10]. unfold sizeof_per_thread_t in A6.
        psteps. simpl. assert (Ht : t <> GLOBALS) by (rewrite !NoDup_cons, !elem_of_cons in A10; intuition).
        eapply (Hpop mag [] mags r 0 g'); auto; [|by intros -> |lia].
        assert (N : NoDup (t :: GLOBALS :: pool mag [] mags)) by exact H10.
        split; [mget|mget|mget; by rewrite Hml|mget|exists k; mget|by rewrite !is_struct_upd| |exact N].
        repeat apply mag_lists_upd; [..|split_and!; auto; done]; simpl;
          rewrite !NoDup_cons, !elem_of_cons in N; intuition.
    + destruct Hns as [?|Hns]; [done|]. pose proof (flist_null _ _ _ _ H8) as Hq.
      psteps. replace (q =? 0) with false by (symmetry; apply Z.eqb_neq; intros E; apply Hq in E; done).
      simpl. psteps. simpl. eapply (Hpop (n :: ns) [] mags q 0 g); auto; [|lia].
      by apply mag_refill.
  - assert (p = n) as -> by apply Hat. apply tot_bind. eapply tot_load; [apply Hat|].
    replace (n =? 0) with false
      by (symmetry; apply Z.eqb_neq; eapply is_node_nonnull, (proj1 (mg_lists _ _ _ _ _ _ _ _ Hat))).
    psteps. simpl. eapply Hpop; eauto.
Qed.

Lemma kfree_gbl_spec fuel q g mag mags m :
  get m (GLOBALS, G_FREELIST) = Some g -> gstack m g mags -> flist MR_NEXT m q mag ->
  length mag = 100%nat -> NoDup (GLOBALS :: mag ++ concat mags) -> (0 < fuel)%nat ->
  tot (kfree_gbl fuel q) m (fun _ m' =>
    m' = upd (upd m (q, NEXT) g) (GLOBALS, G_FREELIST) q /\ gstack m' q (mag :: mags)).
Proof.
  intros Hg Hs Hq Hl Hn Hf. unfold kfree_gbl. apply tot_loop_exit; [auto|].
  destruct mag as [|x mag]; [discriminate|]. pose proof Hq as (-> & Hx & _).
  apply NoDup_cons in Hn as [Hn1 Hn2]. apply NoDup_app in Hn2 as (_ & Hd & _).
  rewrite elem_of_app in Hn1.
  assert (HxG : x <> GLOBALS) by (intros ->; apply Hn1; left; left).
  psteps. eapply tot_CAS_true; [mget|]. apply tot_ret. split; [auto|].
  cbn [gstack]. split; [by apply is_node_nonnull in Hx|].
  split; [do 2 (apply flist_upd; [auto|]); auto|]. split; [auto|].
  exists g. split; [mget|]. apply gstack_upd; [left; tauto|].
  apply gstack_upd; [|auto]. left. apply Hd. left.
Qed.

(** [free_node] puts a node back, at the head of the free list. *)
Lemma mag_free_node_spec fuel tid fl ns mags m p :
  mag_ok (get_thread tid) fl ns mags m -> (0 < fuel)%nat ->
  is_node m p -> p ∉ get_thread tid :: GLOBALS :: pool fl ns mags ->
  tot (free_node get_thread fuel tid p) m (fun _ m' => exists fl' ns' mags',
    mag_ok (get_thread tid) (p :: fl') ns' mags' m' /\ pool fl' ns' mags' ≡ₚ pool fl ns mags).
Proof.
  intros ((f & q & g & [H1 H2 H3 H4 [k H5] H6 (H7 & H8 & H9) H10]) & Hlen & Hns) Hf Hp Hnp.
  unfold free_node, PT_FREELIST_TARGET. set (t := get_thread tid) in *.
  unfold sizeof_per_thread_t in H6. rewrite !elem_of_cons in Hnp.
  assert (Hpt : p <> t /\ p <> GLOBALS) by tauto. destruct Hpt as [Hpt HpG].
  assert (Hpp : p ∉ pool fl ns mags) by tauto. unfold pool in Hpp. rewrite !elem_of_app in Hpp.
  pose proof H10 as H10'. rewrite !NoDup_cons, !elem_of_cons in H10'.
  assert (HtG : t <> GLOBALS) by tauto. assert (Htp : t ∉ pool fl ns mags) by tauto.
  assert (HGp : GLOBALS ∉ pool fl ns mags) by tauto. destruct H10' as (_ & _ & Hnd).
  unfold pool in Htp, HGp, Hnd. rewrite !elem_of_app in Htp, HGp.
  psteps. destruct (Z.ltb_spec 100 (Z.of_nat (length fl) + 1)) as [Hgt|Hle].
  - assert (Hfl : length fl = 100%nat) by lia. psteps.
    assert (Hns' : exists m1 g1 mags1,
      tot (if q =? 0 then Ret tt else q <- load (t, T_FREELIST2) ;; store (t, T_FREELIST2) NULL ;; kfree_gbl fuel q)
        (upd (upd m (p, NEXT) 3146496) (t, T_FREELIST_COUNT) (Z.of_nat (length fl) + 1))
        (fun _ m' => m' = m1) /\
      get m1 (GLOBALS, G_FREELIST) = Some g1 /\ gstack m1 g1 mags1 /\ concat mags1 = ns ++ concat mags /\
      get m1 (t, T_FREELIST) = Some f /\ flist MR_NEXT m1 f fl /\ is_node m1 p /\
      is_struct m1 t 192 /\ get m1 (GLOBALS, G_OUT_OF_MEMORY) = Some k).
    { destruct ns as [|n ns].
      - simpl in H8. subst q. eexists _, g, mags. simpl. split_and!; [by apply tot_ret|mget| |auto|mget| | | |mget].
        + do 2 (apply gstack_upd; [left; tauto|]). auto.
        + do 2 (apply flist_upd; [left; done|]). auto.
        + by rewrite !is_node_upd.
        + by rewrite !is_struct_upd.
      - destruct Hns as [?|Hns]; [done|]. pose proof H8 as (-> & Hq & _).
        replace (n =? 0) with false by (symmetry; apply Z.eqb_neq; by apply is_node_nonnull in Hq).
        assert (Hnt : n <> t /\ n <> GLOBALS /\ n <> p) by (split_and!; intros ->; set_solver).
        destruct Hnt as (Hnt & HnG & Hnp').
        eexists _, n, ((n :: ns) :: mags). split_and!.
        + psteps. eapply tot_mono; [apply (kfree_gbl_spec fuel n g (n :: ns) mags); auto|].
          * mget.
          * do 3 (apply gstack_upd; [left; tauto|]). exact H9.
          * do 3 (apply flist_upd; [left; done|]). exact H8.
          * apply NoDup_cons. split; [rewrite elem_of_app; tauto|]. apply NoDup_app in Hnd. tauto.
          * intros [] m' [-> _]. reflexivity.
        + mget.
        + cbn [gstack]. split; [by apply is_node_nonnull in Hq|]. split; [|split; [auto|]].
          * do 5 (apply flist_upd; [left; done|]). exact H8.
          * exists g. split; [mget|]. apply gstack_upd; [left; tauto|].
            apply gstack_upd; [left|do 3 (apply gstack_upd; [left; tauto|]); auto].
            simpl. apply NoDup_app in Hnd as (_ & _ & Hnd). apply NoDup_app in Hnd as (_ & Hd & _).
            apply Hd. left.
        + auto.
        + mget.
        + do 5 (apply flist_upd; [left; done|]). exact H7.
        + by rewrite !is_node_upd.
        + by rewrite !is_struct_upd.
        + mget. }
    destruct Hns' as (m1 & g1 & mags1 & Ht1 & A1 & A2 & A3 & A4 & A5 & A6 & A7 & A8).
    eapply tot_mono; [exact Ht1|]. intros [] ? ->. psteps.
    exists [], fl, mags1. split; [|unfold pool; simpl; by rewrite A3].
    split; [|simpl; split; [lia|auto]]. exists p, f, g1. split; try solve [mget].
    + exists k. mget.
    + by rewrite !is_struct_upd.
    + split_and!.
      * apply flist_upd; [left; done|]. apply flist_push; [done| |set_solver]. by rewrite !is_node_upd.
      * do 5 (apply flist_upd; [tauto|]). auto.
      * do 5 (apply gstack_upd; [left; rewrite A3, elem_of_app; simpl; tauto|]). auto.
    + unfold pool. rewrite A3. simpl. rewrite !NoDup_cons, !elem_of_cons, !elem_of_app. intuition congruence.
  - psteps. exists fl, ns, mags. split; [|done].
    split; [|split; [simpl; lia|auto]]. exists p, q, g. split; try solve [mget].
    + mget. f_equal. simpl length. lia.
    + exists k. mget.
    + by rewrite !is_struct_upd.
    + split_and!.
      * apply flist_upd; [left; done|]. apply flist_push; [|by rewrite !is_node_upd|tauto].
        do 2 (apply flist_upd; [tauto|]). auto.
      * do 4 (apply flist_upd; [tauto|]). auto.
      * do 4 (apply gstack_upd; [left; simpl; tauto|]). auto.
    + unfold pool. simpl. rewrite !NoDup_cons, !elem_of_cons, !elem_of_app. intuition congruence.
Qed.

(** [new_node] takes the head of a free list that is not empty. *)
Lemma mag_new_node_head fuel tid n fl ns mags m :
  mag_ok (get_thread tid) (n :: fl) ns mags m ->
  tot (new_node get_thread fuel tid) m (fun r m' => r = n /\ mag_ok (get_thread tid) fl ns mags m' /\
    is_node m' n /\ zero_node m' n).
Proof.
  intros ((p & q & g & Hat) & Hlen & Hns). unfold new_node. assert (p = n) as -> by apply Hat.
  apply tot_bind. eapply tot_load; [apply Hat|].
  replace (n =? 0) with false
    by (symmetry; apply Z.eqb_neq; eapply is_node_nonnull, (proj1 (mg_lists _ _ _ _ _ _ _ _ Hat))).
  apply tot_bind, tot_ret. simpl. by eapply new_node_pop.
Qed.
End magazine_proofs.
