(* ===== verification/Hash.v ===== *)
(** * The hash table (hash.c)

    An array of lists, each reached through list.h only: the table is proved
    against [SetLaws], whatever list it is linked with. *)
From S2P Require Export Contracts Alloc.

(** [struct hash_table] *)
Abbreviation H_NBUCKETS := 0 (only parsing).
Abbreviation H_BUCKETS := 8 (only parsing).
Definition sizeof_hash_table : Z := 16.

Module hash.
Section code.
Context `{HM : Malloc, HLO : !ListOps}.
Variable fuel : nat.
Variable tid : Z.

Definition hash_table_init (buckets : Z) : prog mem Z :=
  h <- mapmem sizeof_hash_table ;;
  store (h, H_NBUCKETS) buckets ;;
  bs <- mapmem (8 * buckets) ;;
  store (h, H_BUCKETS) bs ;;
  forz (Z.to_nat buckets) 0 (fun i =>
    l <- l_init ;;
    bs <- load (h, H_BUCKETS) ;;
    store (bs, 8 * i) l) ;;
  Ret h.

Definition hash_table_destroy (h : Z) : prog mem unit :=
  loop fuel (fun i =>
    n <- load (h, H_NBUCKETS) ;;
    if i <? n then
      bs <- load (h, H_BUCKETS) ;;
      l <- load (bs, 8 * i) ;;
      l_destroy l ;;
      continue (i + 1)
    else break tt) 0 ;;
  bs <- load (h, H_BUCKETS) ;;
  free bs ;;
  free h.

(** [h->buckets[key % h->nbuckets]], with the remainder of C. *)
Definition bucket (h key : Z) : prog mem Z :=
  bs <- load (h, H_BUCKETS) ;;
  n <- load (h, H_NBUCKETS) ;;
  if n =? 0 then Stop EArith
  else load (bs, 8 * Z.rem key n).

Definition hash_search (h key : Z) : prog mem bool :=
  l <- bucket h key ;; l_search fuel tid l key.
Definition hash_delete (h key : Z) : prog mem bool :=
  l <- bucket h key ;; l_delete fuel tid l key.
Definition hash_insert (h key : Z) : prog mem bool :=
  l <- bucket h key ;; l_insert fuel tid l key.
End code.
End hash.

(** * Proofs *)
Import hash.

(** The keys of the bucket [i] of [n]. *)
Definition bucket_keys (n i : Z) (K : gset Z) : gset Z := filter (fun k => k mod n = i) K.

Section hash_proofs.
Context `{HM : Malloc, HMR : !MallocRoom, HLO : !ListOps, HS : !SetLaws}.
Variables (fuel : nat) (tid : Z).
Implicit Types (m : mem) (F K : gset Z) (L : lists).

(** The table [h] of [n] buckets holds the keys [K], which are not negative. *)
Record table_at (c : nat) (h bs n : Z) L F K m : Prop := {
  ta_sets : sets tid c L F m;
  ta_n : get m (h, H_NBUCKETS) = Some n /\ 0 < n;
  ta_bs : get m (h, H_BUCKETS) = Some bs;
  ta_mine : h ∈ F /\ bs ∈ F;
  ta_len : Z.of_nat (length L) = n;
  ta_list : forall i l X, L !! i = Some (l, X) ->
    get m (bs, 8 * Z.of_nat i) = Some l /\ X = bucket_keys n (Z.of_nat i) K;
  ta_below : forall off, off < 0 -> get m (bs, off) = None;
  ta_keys : forall k, k ∈ K -> 0 <= k
}.

Definition table (c : nat) (h : Z) K m : Prop := exists bs n L F, table_at c h bs n L F K m.

(** The list of a key that is not negative. *)
Lemma bucket_spec c h bs n L F K m key (Q : Z -> mem -> Prop) :
  table_at c h bs n L F K m -> 0 <= key ->
  (forall i l, L !! i = Some (l, bucket_keys n (key mod n) K) -> Z.of_nat i = key mod n -> Q l m) ->
  tot (bucket h key) m Q.
Proof.
  intros [H1 [H2 Hn] H3 H4 H5 H6 H7 H8] Hk HQ. unfold bucket. psteps.
  replace (n =? 0) with false by (symmetry; apply Z.eqb_neq; lia).
  rewrite Z.rem_mod_nonneg by lia. pose proof (Z.mod_pos_bound key n Hn).
  destruct (lookup_lt_is_Some_2 L (Z.to_nat (key mod n))) as [[l X] Hi]; [lia|].
  destruct (H6 _ _ _ Hi) as [Hg ->]. rewrite Z2Nat.id in * by lia.
  eapply tot_load; [exact Hg|]. apply (HQ (Z.to_nat (key mod n)) l); [exact Hi|lia].
Qed.

(** After an operation on one of the lists. *)
Lemma table_step c c' h bs n L F K m i l X' K' m' :
  table_at c h bs n L F K m -> sets tid c' (<[i := (l, X')]> L) F m' -> kept F m m' ->
  (exists X, L !! i = Some (l, X)) -> X' = bucket_keys n (Z.of_nat i) K' ->
  (forall j, 0 <= j < n -> j <> Z.of_nat i -> bucket_keys n j K' = bucket_keys n j K) ->
  (forall k, k ∈ K' -> 0 <= k) -> table c' h K' m'.
Proof.
  intros [H1 [H2 Hn] H3 [H4 H4'] H5 H6 H7 H8] Hs Hk [X Hi] -> Hj HK.
  exists bs, n, (<[i := (l, bucket_keys n (Z.of_nat i) K')]> L), F. split; auto.
  - by rewrite (kept_get _ _ _ _ _ Hk).
  - by rewrite (kept_get _ _ _ _ _ Hk).
  - by rewrite length_insert.
  - intros j l' X' Hl. rewrite (kept_get _ _ _ _ _ Hk) by auto.
    pose proof (lookup_lt_Some _ _ _ Hi) as Hlt. destruct (decide (j = i)) as [->|Hne].
    + rewrite list_lookup_insert_eq in Hl by auto. injection Hl as <- <-. split; [|auto].
      by apply (H6 _ _ _ Hi).
    + rewrite list_lookup_insert_ne in Hl by auto. destruct (H6 _ _ _ Hl) as [? ->]. split; [auto|].
      pose proof (lookup_lt_Some _ _ _ Hl). symmetry. apply Hj; lia.
  - intros off Ho. rewrite (kept_get _ _ _ _ _ Hk); auto.
Qed.

Lemma bucket_keys_insert n i k K :
  bucket_keys n i ({[k]} ∪ K) = if decide (k mod n = i) then {[k]} ∪ bucket_keys n i K else bucket_keys n i K.
Proof. unfold bucket_keys. case_decide; set_solver. Qed.

Lemma bucket_keys_delete n i k K :
  bucket_keys n i (K ∖ {[k]}) = if decide (k mod n = i) then bucket_keys n i K ∖ {[k]} else bucket_keys n i K.
Proof. unfold bucket_keys. case_decide; set_solver. Qed.

Lemma bucket_keys_in n k K : k ∈ bucket_keys n (k mod n) K <-> k ∈ K.
Proof. unfold bucket_keys. set_solver. Qed.

Lemma bucket_keys_decide n k K : bool_decide (k ∈ bucket_keys n (k mod n) K) = bool_decide (k ∈ K).
Proof. apply bool_decide_ext, bucket_keys_in. Qed.

Lemma hash_search_spec c h K m key k :
  table c h K m -> 0 <= key -> (c < fuel)%nat -> mroom k m ->
  tot (hash_search fuel tid h key) m (fun r m' => r = bool_decide (key ∈ K) /\ table (S c) h K m' /\ mroom k m').
Proof.
  intros (bs & n & L & F & Ht) Hk Hf Hr. unfold hash_search. apply tot_bind.
  eapply bucket_spec; [exact Ht|auto|]. intros i l Hi Ei.
  eapply tot_mono; [eapply (l_search_ok tid c L F m fuel i); [apply Ht|auto|exact Hi|exact Hr]|].
  intros r m' (-> & Hs & Hm & Hkp). rewrite bucket_keys_decide. split_and!; auto.
  eapply (table_step _ _ _ _ _ _ _ _ _ i); [exact Ht| |exact Hkp|eauto| | |apply Ht].
  - rewrite list_insert_id; [exact Hs|exact Hi].
  - by rewrite Ei.
  - auto.
Qed.

Lemma hash_delete_spec c h K m key k :
  table c h K m -> 0 <= key -> (c < fuel)%nat -> mroom k m ->
  tot (hash_delete fuel tid h key) m (fun r m' =>
    r = bool_decide (key ∈ K) /\ table (S c) h (K ∖ {[key]}) m' /\ mroom k m').
Proof.
  intros (bs & n & L & F & Ht) Hk Hf Hr. unfold hash_delete. apply tot_bind.
  eapply bucket_spec; [exact Ht|auto|]. intros i l Hi Ei.
  eapply tot_mono; [eapply (l_delete_ok tid c L F m fuel i); [apply Ht|auto|exact Hi|exact Hr]|].
  intros r m' (-> & Hs & Hm & Hkp). rewrite bucket_keys_decide. split_and!; auto.
  eapply table_step; [exact Ht|exact Hs|exact Hkp|eauto|..].
  - by rewrite bucket_keys_delete, Ei, decide_True.
  - intros j _ Hj. rewrite bucket_keys_delete, decide_False by congruence. auto.
  - intros k' Hk'. apply (ta_keys _ _ _ _ _ _ _ _ Ht). set_solver.
Qed.

Lemma hash_insert_spec c h K m key k :
  table c h K m -> 0 <= key -> (c < fuel)%nat -> mroom (S k) m ->
  tot (hash_insert fuel tid h key) m (fun r m' =>
    r = negb (bool_decide (key ∈ K)) /\ table (S c) h ({[key]} ∪ K) m' /\ mroom k m').
Proof.
  intros (bs & n & L & F & Ht) Hk Hf Hr. unfold hash_insert. apply tot_bind.
  eapply bucket_spec; [exact Ht|auto|]. intros i l Hi Ei.
  eapply tot_mono; [eapply (l_insert_ok tid c L F m fuel i); [apply Ht|auto|exact Hi|exact Hr]|].
  intros r m' (-> & Hs & Hm & Hkp). rewrite bucket_keys_decide. split_and!; auto.
  eapply table_step; [exact Ht|exact Hs|exact Hkp|eauto|..].
  - by rewrite bucket_keys_insert, Ei, decide_True.
  - intros j _ Hj. rewrite bucket_keys_insert, decide_False by congruence. auto.
  - intros k' Hk'. pose proof (ta_keys _ _ _ _ _ _ _ _ Ht k'). set_solver.
Qed.

(** A negative key that is not a multiple of the number of buckets: C's
    remainder is negative and the access is before the array. *)
Lemma bucket_negative c h K m key :
  table c h K m -> key < 0 ->
  (forall n, get m (h, H_NBUCKETS) = Some n -> ~ (n | key)) ->
  run (bucket h key) m = Err EAccess.
Proof.
  intros (bs & n & L & F & Ht) Hk Hd. pose proof Ht as [H1 [H2 Hn] H3 _ _ _ H7 _].
  assert (Hneg : Z.rem key n < 0).
  { pose proof (Z.rem_nonpos key n ltac:(lia) ltac:(lia)) as Hle.
    assert (Z.rem key n <> 0); [|lia]. intros E. apply (Hd n H2), Z.rem_divide; [lia|auto]. }
  assert (Hg : get m (bs, 8 * Z.rem key n) = None) by (apply H7; lia).
  unfold bucket. rewrite run_bind, (run_load _ _ _ H3), run_bind, (run_load _ _ _ H2).
  replace (n =? 0) with false by (symmetry; apply Z.eqb_neq; lia).
  by apply run_load_err.
Qed.

Lemma sets_upd c L F m l v : sets tid c L F m -> l.1 ∈ F -> sets tid c L F (upd m l v).
Proof.
  intros Hs Hl. eapply sets_client; [exact Hs|..].
  - intros b Hb. apply lookup_upd_ne. congruence.
  - intros b Hb. apply live_upd. by eapply sets_live.
Qed.

(** The buckets initialised so far. *)
Record init_at (c j : nat) (h bs n : Z) F m : Prop := {
  ia_lists : exists L, length L = j /\ sets tid (c + j) L F m /\
    forall i l X, L !! i = Some (l, X) -> get m (bs, 8 * Z.of_nat i) = Some l /\ X = ∅;
  ia_n : get m (h, H_NBUCKETS) = Some n;
  ia_bs : get m (h, H_BUCKETS) = Some bs;
  ia_array : exists o, m !! bs = Some o /\ osize o = 8 * n;
  ia_below : forall off, off < 0 -> get m (bs, off) = None;
  ia_mine : h ∈ F /\ bs ∈ F /\ h <> bs
}.

Lemma init_step c j h bs n F m k :
  init_at c j h bs n F m -> Z.of_nat j < n -> mroom (S k) m ->
  tot (l <- l_init ;; bs <- load (h, H_BUCKETS) ;; store (bs, 8 * Z.of_nat j) l) m (fun _ m' =>
    init_at c (S j) h bs n F m' /\ mroom k m').
Proof.
  intros [(L & HLn & HL & Hget) Hn Hbs (o & Ho & Hsz) Hlo (M1 & M2 & M3)] Hj Hr. apply tot_bind.
  eapply tot_mono; [apply (l_init_ok tid (c + j) L F m k HL Hr)|]. intros l m' (Hs & Hr' & Hk).
  assert (Hbs' : get m' (h, 8) = Some bs) by (by rewrite (kept_get _ _ _ _ _ Hk)).
  assert (Ho' : m' !! bs = Some o) by (by rewrite Hk).
  assert (Hin : inb m' (bs, 8 * Z.of_nat j) = true).
  { unfold inb. simpl. rewrite Ho'. apply andb_true_intro. split; [apply Z.leb_le|apply Z.ltb_lt]; lia. }
  psteps. split; [|by apply mroom_upd]. split; auto.
  - exists (L ++ [(l, ∅)]). rewrite length_app. simpl. split_and!; [lia| |].
    + replace (c + S j)%nat with (S (c + j)) by lia. by apply sets_upd.
    + intros i l' X Hi. apply lookup_app_Some in Hi as [Hi|[Hi0 Hi]].
      * pose proof (lookup_lt_Some _ _ _ Hi). destruct (Hget i l' X Hi) as [Hg ->]. split; [|auto].
        rewrite get_upd_ne, (kept_get _ _ _ _ _ Hk) by (auto; intros [=]; lia). auto.
      * apply list_lookup_singleton_Some in Hi as [Hi [= <- <-]]. split; [|auto].
        replace i with j by lia. apply get_upd_eq. by exists o.
  - rewrite get_upd_ne by congruence. by rewrite (kept_get _ _ _ _ _ Hk).
  - rewrite get_upd_ne by congruence. done.
  - exists (Obj (osize o) (<[8 * Z.of_nat j := l]> (ofields o))). split; [|done].
    unfold upd. simpl. by rewrite lookup_alter_eq, Ho'.
  - intros off Hoff. rewrite get_upd_ne, (kept_get _ _ _ _ _ Hk) by (auto; intros [=]; lia). auto.
Qed.

Lemma hash_init_spec c F m n k :
  sets tid c [] F m -> 0 < n -> 8 * n <= M32 -> mroom (S (S (Z.to_nat n + k))) m ->
  tot (hash_table_init n) m (fun h m' => table (c + Z.to_nat n) h ∅ m' /\ mroom k m').
Proof.
  intros Hs Hn Hsz Hr. unfold hash_table_init, mapmem, malloc.
  apply tot_bind. eapply tot_alloc; [exact Hr|done|]. intros h Hh Hr1.
  set (m1 := <[h := Obj sizeof_hash_table ∅]> m) in *.
  assert (Hst : is_struct m1 h 16).
  { split; [apply Hh|]. exists (Obj 16 ∅). unfold m1. by rewrite lookup_insert_eq. }
  psteps. eapply tot_alloc; [apply mroom_upd, Hr1|simpl; lia|].
  intros bs Hbs Hr2.
  assert (Hne : h <> bs).
  { intros ->. destruct Hbs as (_ & E & _). unfold upd in E. rewrite lookup_alter_None in E.
    unfold m1 in E. by rewrite lookup_insert_eq in E. }
  set (m2 := <[bs := Obj (8 * n) ∅]> (upd m1 (h, H_NBUCKETS) n)) in *.
  assert (Hst2 : is_struct m2 h 16).
  { eapply is_struct_lookup; [|apply is_struct_upd, Hst]. by apply lookup_insert_ne. }
  psteps.
  set (m3 := upd m2 (h, H_BUCKETS) bs) in *.
  assert (H0 : init_at c 0 h bs n ({[bs]} ∪ ({[h]} ∪ F)) m3).
  { split.
    - exists []. rewrite Nat.add_0_r. split_and!; [done| |by intros].
      apply sets_upd; [|set_solver]. apply sets_alloc; [|apply Hbs].
      apply sets_upd; [|set_solver]. apply sets_alloc; [exact Hs|apply Hh].
    - unfold m3. rewrite get_upd_ne by done. unfold m2. rewrite get_insert_ne by (simpl; congruence). mget.
    - unfold m3. mget.
    - exists (Obj (8 * n) ∅). unfold m3. rewrite lookup_upd_ne by (simpl; congruence). unfold m2.
      by rewrite lookup_insert_eq.
    - intros off _. unfold m3. rewrite get_upd_ne by congruence. unfold m2.
      rewrite get_insert_eq. simpl. apply lookup_empty.
    - set_solver. }
  eapply tot_mono; [apply (tot_forz (fun j m => init_at c j h bs n ({[bs]} ∪ ({[h]} ∪ F)) m /\
      mroom (Z.to_nat n - j + k) m))|].
  - intros i m4 Hi [H4 Hr4]. simpl. apply init_step; [exact H4|lia|].
    eapply mroom_mono; [exact Hr4|lia].
  - split; [exact H0|]. unfold m3. apply mroom_upd. eapply mroom_mono; [exact Hr2|lia].
  - intros [] m5 [[(L & HLn & HL & Hget) I2 I3 I4 I5 (I6 & I7 & I8)] Hr5]. apply tot_ret.
    rewrite Nat.sub_diag in Hr5. split; [|exact Hr5].
    exists bs, n, L, ({[bs]} ∪ ({[h]} ∪ F)). split; auto.
    + lia.
    + set_solver.
Qed.
End hash_proofs.
