(* ===== verification/Ebr.v ===== *)
(** * Epoch-based reclamation (ebr.c)

    Three limbo lists per thread and a global epoch modulo three. *)
From S2P Require Export Room Alloc.

(** [struct ebr_globals] *)
Abbreviation EG_LOCK := 0 (only parsing).
Abbreviation EG_EPOCH := 64 (only parsing).
Definition sizeof_ebr_globals : Z := 128.

Module ebr.
Section code.
Context `{!Malloc, !Allocator}.
Variable fuel : nat.
Variable tid : Z.

Definition UPDATE_THRESHOLD : Z := 100.

Definition process_callbacks_epoch (list : loc) : prog mem unit :=
  num <- loop fuel (fun num =>
    p <- load list ;;
    if p =? NULL then break num
    else
      p <- load list ;;
      next <- load (p, MR_NEXT) ;;
      p <- load list ;;
      free_node fuel tid p ;;
      store list next ;;
      continue (u64 (num + 1))) 0 ;;
  c <- load (this_thread tid, T_RETIRE_COUNT) ;;
  store (this_thread tid, T_RETIRE_COUNT) (u64 (c - num)).

Definition update_epoch : prog mem unit :=
  eg <- load (GLOBALS, G_EG) ;;
  locked <- spin_trylock (eg, EG_LOCK) ;;
  if negb locked then Ret tt
  else
    eg <- load (GLOBALS, G_EG) ;;
    curr_epoch <- load (eg, EG_EPOCH) ;;
    all <- loop fuel (fun i =>
      n <- load (GLOBALS, G_N_THREADS) ;;
      if negb (i <? n) then break true
      else
        c <- load (this_thread i, T_IN_CRITICAL) ;;
        behind <- (if c =? 1 then
                     e <- load (this_thread i, T_EPOCH) ;;
                     Ret (negb (e =? curr_epoch))
                   else Ret false) ;;
        if behind : bool then
          eg <- load (GLOBALS, G_EG) ;;
          spin_unlock (eg, EG_LOCK) ;;
          break false
        else continue (i + 1)) 0 ;;
    if negb all then Ret tt
    else
      eg <- load (GLOBALS, G_EG) ;;
      store (eg, EG_EPOCH) (Z.rem (curr_epoch + 1) N_EPOCHS) ;;
      eg <- load (GLOBALS, G_EG) ;;
      spin_unlock (eg, EG_LOCK).

(** [t] is the automatic variable at [stack_t tid], a copy of [this_thread]. *)
Definition critical_enter : prog mem unit :=
  let t := stack_t tid in
  copy_fields t (this_thread tid) per_thread_fields ;;
  loop fuel (fun _ : unit =>
    store (t, T_IN_CRITICAL) 1 ;;
    memory_barrier ;;
    eg <- load (GLOBALS, G_EG) ;;
    epoch <- load (eg, EG_EPOCH) ;;
    te <- load (t, T_EPOCH) ;;
    if negb (te =? epoch) then
      process_callbacks_epoch (t, T_LIMBO_LIST + 8 * epoch) ;;
      store (t, T_EPOCH) epoch ;;
      store (t, T_ENTRIES) 0 ;;
      break tt
    else
      n <- load (t, T_ENTRIES) ;;
      store (t, T_ENTRIES) (i32 (n + 1)) ;;
      if n =? UPDATE_THRESHOLD then
        store (t, T_IN_CRITICAL) 0 ;;
        store (t, T_ENTRIES) 0 ;;
        update_epoch ;;
        continue tt
      else break tt) tt.

Definition critical_exit : prog mem unit :=
  memory_barrier ;;
  store (this_thread tid, T_IN_CRITICAL) 0.

Definition mr_init : prog mem unit :=
  eg <- mapmem sizeof_ebr_globals ;;
  store (GLOBALS, G_EG) eg ;;
  forz (Z.to_nat MAX_THREADS) 0 (fun i =>
    store (this_thread i, T_EPOCH) 0 ;;
    store (this_thread i, T_IN_CRITICAL) 0 ;;
    store (this_thread i, T_ENTRIES) 0 ;;
    store (this_thread i, T_RETIRE_COUNT) 0 ;;
    forz (Z.to_nat N_EPOCHS) 0 (fun j => store (this_thread i, T_LIMBO_LIST + 8 * j) NULL)) ;;
  eg <- load (GLOBALS, G_EG) ;;
  store (eg, EG_EPOCH) 1 ;;
  eg <- load (GLOBALS, G_EG) ;;
  store (eg, EG_LOCK) SPIN_LOCK_UNLOCKED.

Definition mr_thread_exit : prog mem unit :=
  loop fuel (fun _ : unit =>
    c <- load (this_thread tid, T_RETIRE_COUNT) ;;
    if 0 <? c then
      update_epoch ;;
      critical_enter ;;
      critical_exit ;;
      continue tt
    else break tt) tt.

Definition mr_reinitialize : prog mem unit :=
  forz (Z.to_nat MAX_THREADS) 0 (fun i =>
    store (this_thread i, T_EPOCH) 0 ;;
    store (this_thread i, T_IN_CRITICAL) 0 ;;
    store (this_thread i, T_ENTRIES) 0 ;;
    store (this_thread i, T_RETIRE_COUNT) 0) ;;
  eg <- load (GLOBALS, G_EG) ;;
  store (eg, EG_EPOCH) 1 ;;
  eg <- load (GLOBALS, G_EG) ;;
  store (eg, EG_LOCK) SPIN_LOCK_UNLOCKED.

Definition free_node_later (q : Z) : prog mem unit :=
  let t := stack_t tid in
  copy_fields t (this_thread tid) per_thread_fields ;;
  e <- load (t, T_EPOCH) ;;
  h <- load (t, T_LIMBO_LIST + 8 * e) ;;
  store (q, MR_NEXT) h ;;
  e <- load (t, T_EPOCH) ;;
  store (t, T_LIMBO_LIST + 8 * e) q ;;
  c <- load (t, T_RETIRE_COUNT) ;;
  store (t, T_RETIRE_COUNT) (u64 (c + 1)).
End code.

#[export] Instance ops `{Malloc, Allocator} : Reclaimer :=
  {| Interfaces.critical_enter := critical_enter;
     Interfaces.critical_exit := fun _ tid => critical_exit tid;
     Interfaces.free_node_later := fun _ tid q => free_node_later tid q |}.
#[export] Instance epochs : Epochs := {| Interfaces.update_epoch := fun fuel _ => update_epoch fuel |}.
End ebr.

(** * Proofs *)

(** [critical_enter] and [free_node_later] work on a copy of the thread's
    record.  In the states the program reaches, the limbo lists of the record
    itself are therefore empty and its counters zero. *)
Record ebr_own (tid : Z) (m : mem) (O : gset Z) : Prop := {
  eo_tid : 0 <= tid < MAX_THREADS;
  eo_eg : exists eg e, get m (GLOBALS, G_EG) = Some eg /\ get m (eg, EG_EPOCH) = Some e /\
    0 <= e < N_EPOCHS /\ eg ∈ O /\ eg <> stack_t tid /\ eg <> this_thread tid;
  eo_fields : forall f, f ∈ per_thread_fields -> is_Some (get m (this_thread tid, f));
  eo_limbo : forall j, 0 <= j < N_EPOCHS -> get m (this_thread tid, T_LIMBO_LIST + 8 * j) = Some NULL;
  eo_entries : get m (this_thread tid, T_ENTRIES) = Some 0;
  eo_retire : get m (this_thread tid, T_RETIRE_COUNT) = Some 0;
  eo_epoch : exists e, get m (this_thread tid, T_EPOCH) = Some e /\ 0 <= e < N_EPOCHS;
  eo_thread : is_struct m (this_thread tid) sizeof_per_thread_t;
  eo_stack : is_struct m (stack_t tid) sizeof_per_thread_t;
  eo_mine : GLOBALS ∈ O /\ this_thread tid ∈ O /\ stack_t tid ∈ O;
  eo_live : forall b, b ∈ O -> live m b
}.

Section ebr_proofs.
Context `{HM : Malloc}.
Existing Instance allocator_malloc.ops.
Implicit Types (m : mem) (O : gset Z).

Lemma stack_ne tid : 0 <= tid < MAX_THREADS ->
  stack_t tid <> this_thread tid /\ stack_t tid <> GLOBALS /\ this_thread tid <> GLOBALS.
Proof.
  unfold stack_t, this_thread, MAX_THREADS, STACK_BASE, THREADS, sizeof_per_thread_t, GLOBALS. lia.
Qed.

Lemma limbo_field j : 0 <= j < N_EPOCHS -> T_LIMBO_LIST + 8 * j ∈ per_thread_fields.
Proof.
  unfold N_EPOCHS. intros Hj. assert (j = 0 \/ j = 1 \/ j = 2) as [->|[->| ->]] by lia;
    vm_compute; by repeat (left || right).
Qed.

Lemma per_thread_fields_lt f : f ∈ per_thread_fields -> 0 <= f < sizeof_per_thread_t.
Proof.
  assert (H : Forall (fun f => 0 <= f < sizeof_per_thread_t) per_thread_fields)
    by (unfold per_thread_fields, sizeof_per_thread_t; repeat constructor; lia).
  rewrite Forall_forall in H. apply H.
Qed.

(** The copy made on entry. *)
Lemma tot_copy_thread tid m O (Q : unit -> mem -> Prop) :
  ebr_own tid m O ->
  (forall m', private_to (stack_t tid) m m' ->
     (forall f, f ∈ per_thread_fields -> get m' (stack_t tid, f) = get m (this_thread tid, f)) -> Q tt m') ->
  tot (copy_fields (stack_t tid) (this_thread tid) per_thread_fields) m Q.
Proof.
  intros Ho HQ. destruct (stack_ne tid (eo_tid _ _ _ Ho)) as (N1 & N2 & N3).
  apply tot_copy_fields; auto.
  - apply (bool_decide_unpack _). reflexivity.
  - intros f Hf. split; [by apply Ho|]. eapply is_struct_inb; [apply Ho|]. by apply per_thread_fields_lt.
  - intros m' H1 H2 H3. apply HQ; [split; [auto|]|].
    { intros sz Hs. destruct (decide (0 < sz)).
      - apply is_struct_of_inb; [apply Hs|]. rewrite H3. eapply is_struct_inb; [exact Hs|lia].
      - destruct (is_struct_of_inb m' (stack_t tid) 1) as (Hn & o & Ho' & Hs').
        + apply Hs.
        + rewrite H3. eapply is_struct_inb; [apply (eo_stack _ _ _ Ho)|]. done.
        + split; [auto|]. exists o. split; [auto|lia]. } intros f Hf. rewrite H2, decide_True; auto.
Qed.

(** Entering a critical section changes no object but the function's own copy
    of the thread's record: [in_critical] and [epoch] are not published. *)
Lemma critical_enter_private fuel tid m O :
  ebr_own tid m O -> (0 < fuel)%nat ->
  tot (ebr.critical_enter fuel tid) m (fun _ m' => private_to (stack_t tid) m m').
Proof.
  intros Ho Hf. unfold ebr.critical_enter. apply tot_bind.
  destruct (stack_ne tid (eo_tid _ _ _ Ho)) as (N1 & N2 & N3).
  eapply tot_copy_thread; [exact Ho|]. intros m1 Hp Hc. apply tot_loop_exit; [auto|].
  destruct Ho as [Ht (eg & e & E1 & E2 & E3 & E4 & E5 & E6) H1 H2 H3 H4 (te & T1 & T2) H5 H6 H7 _].
  apply (proj2 Hp) in H6. unfold sizeof_per_thread_t in H5, H6.
  rewrite <- (private_get _ _ _ _ Hp) in E1 by auto.
  rewrite <- (private_get _ _ _ _ Hp) in E2 by auto.
  rewrite <- (private_get _ _ _ _ Hp) in H4 by auto.
  rewrite <- (Hc T_EPOCH) in T1 by (vm_compute; by repeat (left || right)).
  rewrite <- (Hc T_ENTRIES) in H3 by (vm_compute; by repeat (left || right)).
  pose proof (H2 e E3) as He. rewrite <- Hc in He by (by apply limbo_field).
  apply tot_bind. eapply tot_store; [minb|]. psteps. destruct (Z.eqb_spec te e) as [->|Hne]; simpl.
  - psteps. simpl. apply tot_ret.
    eapply private_trans; [exact Hp|]. eapply private_trans; apply private_upd.
  - unfold ebr.process_callbacks_epoch. apply tot_bind, tot_bind. apply tot_loop_exit; [auto|].
    apply tot_bind. eapply tot_load.
    { rewrite get_upd_ne; [exact He|]. unfold N_EPOCHS in *. intros [=]. lia. }
    simpl. apply tot_ret.
    apply (is_struct_lookup _ m1) in H5; [|by apply Hp].
    psteps. eapply private_trans; [exact Hp|]. rewrite (upd_same _ (this_thread tid, _)) by mget.
    eapply private_trans; [|apply private_upd]. eapply private_trans; apply private_upd.
Qed.

(** Retiring a node links it into the copy's limbo list only: the node's
    [mr_next] is all that remains changed. *)
Lemma free_node_later_private tid m O q :
  ebr_own tid m O -> is_node m q -> q ∉ O ->
  tot (ebr.free_node_later tid q) m (fun _ m' =>
    private_to (stack_t tid) (upd m (q, MR_NEXT) NULL) m').
Proof.
  intros Ho Hq HqO. unfold ebr.free_node_later. apply tot_bind.
  destruct (stack_ne tid (eo_tid _ _ _ Ho)) as (N1 & N2 & N3).
  eapply tot_copy_thread; [exact Ho|]. intros m1 Hp Hc.
  destruct Ho as [Ht _ H1 H2 H3 H4 (te & T1 & T2) H5 H6 (_ & H7 & H8) _].
  assert (Nq : q <> stack_t tid) by congruence.
  apply (proj2 Hp) in H6. unfold sizeof_per_thread_t in H6.
  rewrite <- (Hc T_EPOCH) in T1 by (vm_compute; by repeat (left || right)).
  rewrite <- (Hc T_RETIRE_COUNT) in H4 by (vm_compute; by repeat (left || right)).
  pose proof (H2 te T2) as He. rewrite <- Hc in He by (by apply limbo_field).
  apply (is_node_lookup _ m1) in Hq; [|by apply Hp].
  unfold N_EPOCHS in *. psteps. eapply private_trans; [|apply private_upd].
  eapply private_trans; [|apply private_upd]. split.
  - intros b Hb. destruct (decide (b = q)) as [->|Hbq].
    + unfold upd. simpl. rewrite !lookup_alter_eq. by rewrite (proj1 Hp q Hb).
    + rewrite !lookup_upd_ne by auto. by apply Hp.
  - intros sz. rewrite !is_struct_upd. apply Hp.
Qed.

(** ** The update of the global epoch *)

(** No thread is in a critical section of an epoch other than [e]. *)
Definition caught_up m (e : Z) (i : nat) : bool :=
  match get m (this_thread (Z.of_nat i), T_IN_CRITICAL), get m (this_thread (Z.of_nat i), T_EPOCH) with
  | Some c, Some te => negb (c =? 1) || (te =? e)
  | _, _ => false
  end.

(** [update_epoch] advances the epoch exactly when it gets the lock and every
    thread in a critical section is in the current epoch; the lock is free
    again afterwards and nothing else changes. *)
Lemma update_epoch_spec fuel m eg lk e n :
  get m (GLOBALS, G_EG) = Some eg -> get m (eg, EG_LOCK) = Some lk ->
  is_struct m eg sizeof_ebr_globals -> get m (eg, EG_EPOCH) = Some e -> 0 <= e < N_EPOCHS ->
  get m (GLOBALS, G_N_THREADS) = Some (Z.of_nat n) -> (n < fuel)%nat -> eg <> GLOBALS ->
  (forall i, (i < n)%nat -> this_thread (Z.of_nat i) <> eg /\
     is_Some (get m (this_thread (Z.of_nat i), T_IN_CRITICAL)) /\
     is_Some (get m (this_thread (Z.of_nat i), T_EPOCH))) ->
  tot (ebr.update_epoch fuel) m (fun _ m' =>
    m' = if (lk =? 0) && forallb (caught_up m e) (seq 0 n)
         then upd m (eg, EG_EPOCH) ((e + 1) mod 3) else m).
Proof.
  intros Hg Hl Hs He Hr Hn Hf HG Ht. unfold ebr.update_epoch, spin_trylock.
  unfold sizeof_ebr_globals in Hs. psteps. eapply tot_cmpxchg; [exact Hl| |]; intros Hlk.
  2:{ psteps. apply Z.eqb_neq in Hlk. rewrite Hlk. simpl. by apply tot_ret. }
  subst lk. psteps. simpl. psteps.
  set (m1 := upd m (eg, EG_LOCK) 1).
  eapply (tot_loop (fun k i m' => exists j, i = Z.of_nat j /\ (j + k = n)%nat /\ m' = m1 /\
            forallb (caught_up m e) (seq 0 j) = true)) with (n := n);
    [|lia|exists O; auto].
  intros k i m' (j & -> & Hj & -> & Hall). unfold m1 at 1.
  apply tot_bind. eapply tot_load; [mget|]. destruct (Z.ltb_spec (Z.of_nat j) (Z.of_nat n)) as [Hlt|Hge]; simpl.
  - destruct (Ht j ltac:(lia)) as (Hne & [c Hc] & [te Hte]).
    assert (Hcu : caught_up m e j = negb (c =? 1) || (te =? e)) by (unfold caught_up; by rewrite Hc, Hte).
    assert (Hstep : forallb (caught_up m e) (seq 0 (S j)) = caught_up m e j).
    { rewrite seq_S, forallb_app, Hall. simpl. by rewrite andb_true_r. }
    assert (Hbehind : caught_up m e j = false -> forallb (caught_up m e) (seq 0 n) = false).
    { intros E. apply not_true_is_false. rewrite forallb_forall. intros HA.
      specialize (HA j ltac:(apply in_seq; lia)). congruence. }
    unfold m1. psteps. destruct (c =? 1) eqn:Ec; simpl in Hcu |- *.
    + psteps. destruct (te =? e) eqn:Ee; simpl in Hcu |- *.
      * psteps. exists (k - 1)%nat. split; [lia|]. exists (S j). split_and!; auto; [lia|lia|by rewrite Hstep].
      * psteps. apply tot_bind. eapply tot_spin_unlock; [mget|]. psteps. simpl. apply tot_ret.
        rewrite Hbehind by auto. simpl. rewrite upd_upd. by apply upd_same.
    + psteps. exists (k - 1)%nat. split; [lia|]. exists (S j). split_and!; auto; [lia|lia|by rewrite Hstep].
  - apply tot_ret. assert (j = n) as -> by lia. rewrite Hall. simpl.
    unfold m1. psteps. eapply tot_spin_unlock; [mget|]. unfold N_EPOCHS in *.
    rewrite Z.rem_mod_nonneg by lia. rewrite upd_comm, upd_upd by loc_ne.
    rewrite upd_comm by loc_ne. by rewrite (upd_same _ (eg, 0)) by mget.
Qed.

(** ** The promises of allocator_malloc.c and ebr.c *)

Lemma ebr_own_local tid m m' O :
  ebr_own tid m O -> (forall b, b ∈ O -> b <> stack_t tid -> m' !! b = m !! b) ->
  (forall sz, is_struct m (stack_t tid) sz -> is_struct m' (stack_t tid) sz) -> ebr_own tid m' O.
Proof.
  intros [Ht (eg & e & E1 & E2 & E3 & E4 & E5 & E6) H1 H2 H3 H4 (te & T1 & T2) H5 H6 (M1 & M2 & M3) H7] HF HS.
  destruct (stack_ne tid Ht) as (N1 & N2 & N3).
  assert (G : forall b f, b ∈ O -> b <> stack_t tid -> get m' (b, f) = get m (b, f))
    by (intros; apply get_lookup_eq; auto).
  split; auto.
  - exists eg, e. rewrite !G by auto. auto 10.
  - intros f Hf. rewrite G by auto. auto.
  - intros j Hj. rewrite G by auto. auto.
  - rewrite G by auto. auto.
  - rewrite G by auto. auto.
  - exists te. rewrite G by auto. auto.
  - apply (is_struct_lookup m); auto.
  - intros b Hb. destruct (decide (b = stack_t tid)) as [->|Hne].
    + eapply is_struct_live, HS, H6.
    + unfold live. rewrite HF by auto. by apply H7.
Qed.

Lemma ebr_own_private tid m m' O :
  ebr_own tid m O -> private_to (stack_t tid) m m' -> ebr_own tid m' O.
Proof. intros Ho [H1 H2]. eapply ebr_own_local; eauto. Qed.

Lemma frame_private tid m m' O :
  ebr_own tid m O -> private_to (stack_t tid) m m' -> frame O m m' O.
Proof.
  intros Ho [H1 H2]. split; [|auto]. intros b Hb _. apply H1. intros ->. apply Hb, Ho.
Qed.

Lemma ebr_own_exit tid m O :
  ebr_own tid m O -> ebr_own tid (upd m (this_thread tid, T_IN_CRITICAL) 0) O.
Proof.
  intros [Ht (eg & e & E1 & E2 & E3 & E4 & E5 & E6) H1 H2 H3 H4 (te & T1 & T2) H5 H6 M H7].
  destruct (stack_ne tid Ht) as (N1 & N2 & N3). split; auto.
  - exists eg, e. rewrite !get_upd_ne by loc_ne. auto 10.
  - intros f Hf. destruct (decide (f = T_IN_CRITICAL)) as [->|Hne].
    + rewrite get_upd_eq by mlive. eauto.
    + rewrite get_upd_ne by loc_ne. auto.
  - intros j Hj. pose proof (H2 j Hj). unfold N_EPOCHS in Hj. rewrite get_upd_ne by loc_ne. auto.
  - mget.
  - mget.
  - exists te. split; [mget|auto].
  - by apply is_struct_upd.
  - by apply is_struct_upd.
  - intros b Hb. apply live_upd. auto.
Qed.
End ebr_proofs.

#[export] Instance ebr_laws `{M : Malloc} :
  @ReclaimerLaws allocator_malloc.ops (@ebr.ops _ allocator_malloc.ops).
Proof.
refine (Build_ReclaimerLaws _ _ (fun tid n m O => ebr_own tid m O) _ _ _ _ _ _ _ _).
{ auto. }
{ intros tid n m m' O Ho HF. eapply ebr_own_local; eauto.
  intros sz. apply is_struct_lookup. apply HF. apply Ho.
}
{ intros tid n m O b Ho. apply Ho. }
{ intros tid n m O fuel Ho _. apply tot_new_obj.
  - intros _. exists O. split; [auto|split; [apply frame_refl|done]].
  - intros a Ha Hal Hr Hf. exists O. assert (HaO : a ∉ O).
    { intros E. apply (eo_live _ _ _ Ho) in E as [o E]. congruence. }
    split; [|split; [|intros _; split_and!; auto]].
    + assert (HL : forall b, b ∈ O -> <[a:=Obj sizeof_node_t ∅]> m !! b = m !! b).
      { intros b Hb. apply lookup_insert_ne. congruence. }
      eapply ebr_own_local; eauto. intros sz. apply is_struct_lookup, HL, Ho.
    + split; [|auto]. intros b Hb [o Hl]. rewrite lookup_insert_ne; congruence.
    + split; [lia|]. split.
      * by apply mod16_even.
      * exists (Obj sizeof_node_t ∅). rewrite lookup_insert_eq. split; [auto|simpl; lia].
}
{ intros tid n m O fuel p Ho _ Hp HpO. unfold free_node, allocator_malloc.ops, allocator_malloc.free_node. psteps.
  apply tot_free; [by eapply is_node_nonnull|mlive|]. exists O.
  assert (HL : forall b, b <> p -> delete p (upd (upd m (p, 8) 17) (p, 16) 34) !! b = m !! b).
  { intros b Hb. rewrite lookup_delete_ne, !lookup_upd_ne by auto. auto. }
  split.
  - assert (HL' : forall b, b ∈ O -> delete p (upd (upd m (p, 8) 17) (p, 16) 34) !! b = m !! b).
    { intros b Hb. apply HL. congruence. }
    eapply ebr_own_local; eauto. intros sz. apply is_struct_lookup, HL', Ho.
  - split; [|set_solver]. intros b Hb _. apply HL. set_solver.
}
{ intros tid n m O fuel Ho Hf. simpl.
  eapply tot_mono; [eapply critical_enter_private; [exact Ho|lia]|]. intros [] m' Hp.
  exists O. split; [by eapply ebr_own_private|by eapply frame_private].
}
{ intros tid n m O fuel Ho Hf. unfold critical_exit, ebr.ops, ebr.critical_exit.
  pose proof (eo_thread _ _ _ Ho) as Ht. unfold sizeof_per_thread_t in Ht. psteps.
  exists O. split; [by apply ebr_own_exit|]. apply frame_upd. apply Ho.
}
{ intros tid n m O fuel p Ho Hf Hp HpO. simpl.
  eapply tot_mono; [eapply free_node_later_private; eauto|]. intros [] m' Hpr.
  assert (Ho' : ebr_own tid (upd m (p, MR_NEXT) NULL) O).
  { assert (HL : forall b, b ∈ O -> upd m (p, MR_NEXT) NULL !! b = m !! b)
      by (intros; apply lookup_upd_ne; simpl; congruence).
    eapply ebr_own_local; eauto. intros sz. by apply is_struct_upd. }
  exists O. split; [by eapply ebr_own_private|].
  eapply frame_weaken; [eapply frame_trans|..].
  - apply (frame_upd (O ∪ {[p]}) m (p, MR_NEXT) NULL). set_solver.
  - eapply frame_weaken; [eapply frame_private; eauto|set_solver|set_solver].
  - done.
  - set_solver.
}
Defined.

(** Nothing in ebr.c allocates. *)
#[export] Instance ebr_room `{HM : Malloc, HMR : !MallocRoom} :
  @RoomLaws HM HMR allocator_malloc.ops (@ebr.ops _ allocator_malloc.ops).
Proof.
split.
- intros k fuel tid m p m' Hm H. unfold new_node, allocator_malloc.ops, allocator_malloc.new_node, malloc in H.
  rewrite run_new_obj in H. destruct (mroom_malloc k m (Obj sizeof_node_t ∅) Hm ltac:(done)) as [E Hm'].
  apply Z.eqb_neq in E as E'. simpl in *. rewrite E' in H. by injection H as <- <-.
- intros k fuel tid p. unfold free_node, allocator_malloc.ops, allocator_malloc.free_node. keep.
- intros k fuel tid. unfold critical_enter, ebr.ops, ebr.critical_enter.
  unfold ebr.process_callbacks_epoch, ebr.update_epoch, free_node, allocator_malloc.ops, allocator_malloc.free_node. keep.
- intros k fuel tid. unfold critical_exit, ebr.ops, ebr.critical_exit. keep.
- intros k fuel tid p. unfold free_node_later, ebr.ops, ebr.free_node_later. keep.
Qed.
