(* ===== verification/AutoEbr.v ===== *)
(** * Epoch-based reclamation with shared metadata (auto_ebr.c) *)
From S2P Require Export Alloc.

(** [per_thread_meta_t] *)
Abbreviation M_LIMBO := 0 (only parsing).
Abbreviation M_ENTRIES := 24 (only parsing).
Abbreviation M_IN_CRITICAL := 28 (only parsing).
Abbreviation M_LOCAL_EPOCH := 29 (only parsing).
Definition sizeof_per_thread_meta_t : Z := 32.
Definition meta_fields : list Z :=
  [M_LIMBO; M_LIMBO + 8; M_LIMBO + 16; M_ENTRIES; M_IN_CRITICAL; M_LOCAL_EPOCH].

(** [auto_ebr_t] *)
Abbreviation AE_THREADS := 0 (only parsing).
Abbreviation AE_THRESHOLD := 8 (only parsing).
Abbreviation AE_EPOCH := 12 (only parsing).
Abbreviation AE_LOCK := 13 (only parsing).
Definition sizeof_auto_ebr_t : Z := 16.

Module auto_ebr.
Section code.
Context `{!Malloc}.
Variable fuel : nat.
Variable tid : Z.

(** [&this_thread.auto_ebr->threads[this_thread.thread_id]] *)
Definition my_meta : prog mem loc :=
  a <- load (this_thread tid, T_AUTO_EBR) ;;
  ts <- load (a, AE_THREADS) ;;
  id <- load (this_thread tid, T_THREAD_ID) ;;
  Ret (ts, sizeof_per_thread_meta_t * id).

Definition field (meta : loc) (f : Z) : loc := (meta.1, meta.2 + f).

Definition free_node_later (p : Z) : prog mem unit :=
  meta <- my_meta ;;
  local_epoch <- load (field meta M_LOCAL_EPOCH) ;;
  h <- load (field meta (M_LIMBO + 8 * local_epoch)) ;;
  store (p, MR_NEXT) h ;;
  store (field meta (M_LIMBO + 8 * local_epoch)) p.

Definition clean_list (list : loc) : prog mem unit :=
  cur <- load list ;;
  loop fuel (fun cur =>
    if cur =? NULL then break tt
    else
      let pre := cur in
      cur <- load (cur, MR_NEXT) ;;
      free pre ;;
      continue cur) cur ;;
  store list NULL.

Definition update_epoch (a : Z) : prog mem unit :=
  ok <- CAS (a, AE_LOCK) 0 1 ;;
  if negb ok then Ret tt
  else
    all <- loop fuel (fun i =>
      if negb (i <? MAX_THREADS) then break true
      else
        ts <- load (a, AE_THREADS) ;;
        c <- load (ts, sizeof_per_thread_meta_t * i + M_IN_CRITICAL) ;;
        behind <- (if c =? 0 then Ret false
                   else
                     ts <- load (a, AE_THREADS) ;;
                     e <- load (ts, sizeof_per_thread_meta_t * i + M_LOCAL_EPOCH) ;;
                     g <- load (a, AE_EPOCH) ;;
                     Ret (negb (e =? g))) ;;
        if behind : bool then
          store (a, AE_LOCK) 0 ;;
          break false
        else continue (i + 1)) 0 ;;
    if negb all then Ret tt
    else
      g <- load (a, AE_EPOCH) ;;
      store (a, AE_EPOCH) (Z.rem (g + 1) N_EPOCHS) ;;
      store (a, AE_LOCK) 0.

Definition critical_enter : prog mem unit :=
  meta <- my_meta ;;
  local_epoch <- load (field meta M_LOCAL_EPOCH) ;;
  loop fuel (fun _ : unit =>
    store (field meta M_IN_CRITICAL) 1 ;;
    memory_barrier ;;
    a <- load (this_thread tid, T_AUTO_EBR) ;;
    global_epoch <- load (a, AE_EPOCH) ;;
    if negb (local_epoch =? global_epoch) then
      clean_list (field meta (M_LIMBO + 8 * global_epoch)) ;;
      store (field meta M_LOCAL_EPOCH) global_epoch ;;
      store (field meta M_ENTRIES) 0 ;;
      break tt
    else
      n <- load (field meta M_ENTRIES) ;;
      store (field meta M_ENTRIES) (u32 (n + 1)) ;;
      a <- load (this_thread tid, T_AUTO_EBR) ;;
      th <- load (a, AE_THRESHOLD) ;;
      if n <? th then break tt
      else
        store (field meta M_IN_CRITICAL) 0 ;;
        store (field meta M_ENTRIES) 0 ;;
        a <- load (this_thread tid, T_AUTO_EBR) ;;
        update_epoch a ;;
        continue tt) tt.

Definition critical_exit : prog mem unit :=
  memory_barrier ;;
  meta <- my_meta ;;
  store (field meta M_IN_CRITICAL) 0.

(** [POOL_ALLOC(sizeof(auto_ebr_t))] is [malloc(sizeof(sizeof(auto_ebr_t)))]:
    the size of a [size_t]. *)
Definition auto_ebr_init : prog mem Z :=
  new <- malloc 8 ;;
  store (new, AE_THRESHOLD) 100 ;;
  store (new, AE_EPOCH) 1 ;;
  store (new, AE_LOCK) 0 ;;
  ts <- calloc (Z.to_nat MAX_THREADS) sizeof_per_thread_meta_t meta_fields ;;
  store (new, AE_THREADS) ts ;;
  Ret new.

Definition mr_init : prog mem unit :=
  a <- auto_ebr_init ;;
  forz (Z.to_nat MAX_THREADS) 0 (fun i =>
    store (this_thread i, T_AUTO_EBR) a ;;
    store (this_thread i, T_THREAD_ID) i).

Definition mr_thread_exit : prog mem unit := Ret tt.
Definition mr_reinitialize : prog mem unit := Ret tt.
End code.

#[export] Instance ops `{Malloc} : Reclaimer :=
  {| Interfaces.critical_enter := critical_enter;
     Interfaces.critical_exit := fun _ tid => critical_exit tid;
     Interfaces.free_node_later := fun _ tid q => free_node_later tid q |}.
End auto_ebr.

(** [auto_ebr_init] asks malloc for the size of a [size_t] and not of an
    [auto_ebr_t], so that, whatever malloc answers, its first store is outside
    the block (or through NULL) and mr_init fails. *)
Theorem auto_ebr_init_too_small `{HM : Malloc} (m : mem) :
  m !! NULL = None -> run auto_ebr.mr_init m = Err EAccess.
Proof.
  intros Hm. unfold auto_ebr.mr_init, auto_ebr.auto_ebr_init. rewrite !run_bind. unfold malloc, new_obj, act.
  cbn [run osize]. destruct (malloc_addr m 8 =? 0) eqn:E; rewrite run_bind; unfold store, act, inb; simpl.
  - by rewrite Hm.
  - by rewrite lookup_insert_eq.
Qed.

Lemma auto_ebr_init_too_small_witness : run auto_ebr.mr_init (static_mem 2) = Err EAccess.
Proof. apply auto_ebr_init_too_small. vm_compute. reflexivity. Defined.
