(* ===== verification/Smr.v ===== *)
(** * Safe memory reclamation with hazard pointers (smr.c, smr.h) *)
From S2P Require Export Alloc.

(** ** qsort and bsearch of the C library

    [qsort] is known by its documentation: it permutes the array, and sorts it
    when the comparison function is consistent on the elements.  [bsearch] is
    the binary search. *)
Definition consistent (cmp : Z -> Z -> Z) (xs : list Z) : Prop :=
  (forall a b, a ∈ xs -> b ∈ xs -> cmp a b < 0 <-> 0 < cmp b a) /\
  (forall a b c, a ∈ xs -> b ∈ xs -> c ∈ xs -> cmp a b <= 0 -> cmp b c <= 0 -> cmp a c <= 0).

Class Qsort := {
  qsort : (Z -> Z -> Z) -> list Z -> list Z;
  qsort_perm : forall cmp xs, qsort cmp xs ≡ₚ xs;
  qsort_sorts : forall cmp xs, consistent cmp xs -> StronglySorted (fun a b => cmp a b <= 0) (qsort cmp xs)
}.

(** Arrays of pointers in memory. *)
Fixpoint load_array (a : Z) (i : nat) (n : nat) : prog mem (list Z) :=
  match n with
  | O => Ret []
  | S n' => v <- load (a, 8 * Z.of_nat i) ;; vs <- load_array a (S i) n' ;; Ret (v :: vs)
  end.

Fixpoint store_array (a : Z) (i : nat) (vs : list Z) : prog mem unit :=
  match vs with
  | [] => Ret tt
  | v :: vs' => store (a, 8 * Z.of_nat i) v ;; store_array a (S i) vs'
  end.

Definition qsort_array `{Qsort} (a : Z) (n : nat) (cmp : Z -> Z -> Z) : prog mem unit :=
  vs <- load_array a 0 n ;;
  store_array a 0 (qsort cmp vs).

Definition bsearch (fuel : nat) (key a : Z) (n : nat) (cmp : Z -> Z -> Z) : prog mem bool :=
  loop fuel (fun '(l, u) =>
    if (u <=? l)%nat then break false
    else
      let i := ((l + u) / 2)%nat in
      v <- load (a, 8 * Z.of_nat i) ;;
      if cmp key v <? 0 then continue (l, i)
      else if 0 <? cmp key v then continue (S i, u)
      else break true) (O, n).

(** ** smr.h and smr.c *)
Module smr.
Section code.
Context `{HM : Malloc, HA : Allocator, HQ : Qsort}.
Variable fuel : nat.
Variable tid : Z.

Definition K : Z := 2.

(** [H] and [R]: macros that read [n_threads]. *)
Definition H : prog mem Z := n <- load (GLOBALS, G_N_THREADS) ;; Ret (u32 (K * n)).
Definition R : prog mem Z := h <- H ;; Ret (u32 (100 + 2 * h)).

(** [HP[i].p]; the array [HP] has elements of CACHESIZE bytes. *)
Definition HP (i : Z) : prog mem loc := hp <- load (GLOBALS, G_HP) ;; Ret (hp, CACHESIZE * i).

Definition mr_init : prog mem unit :=
  hp <- mapmem (CACHESIZE * K * (MAX_THREADS + 1)) ;;
  store (GLOBALS, G_HP) hp ;;
  hp <- load (GLOBALS, G_HP) ;;
  if hp =? NULL then exit_ (-1)
  else
    forz (Z.to_nat MAX_THREADS) 0 (fun i =>
      store (this_thread i, T_RLIST) NULL ;;
      store (this_thread i, T_RETIRE_COUNT) 0 ;;
      n <- load (GLOBALS, G_N_THREADS) ;;
      p <- malloc (8 * K * n) ;;
      store (this_thread i, T_PLIST) p) ;;
    forz (Z.to_nat (K * (MAX_THREADS + 1))) 0 (fun i =>
      l <- HP i ;; store l NULL).

(** The difference of two [node_t *], in nodes, converted to [int]. *)
Definition compare (a b : Z) : Z := i32 (Z.shiftr (i64 (a - b)) 5).

Definition ssearch (list : list Z) (key : Z) : Z :=
  match List.find (fun x => x =? key) list with Some x => x | None => NULL end.

Definition scan : prog mem unit :=
  plist <- load (this_thread tid, T_PLIST) ;;
  write_barrier ;;
  psize <- loop fuel (fun '(i, psize) =>
    h <- H ;;
    if negb (i <? h) then break psize
    else
      l <- HP i ;;
      p <- load l ;;
      if p =? NULL then continue (u32 (i + 1), psize)
      else
        l <- HP i ;;
        p <- load l ;;
        store (plist, 8 * Z.of_nat psize) p ;;
        continue (u32 (i + 1), S psize)) (0, O) ;;
  qsort_array plist psize compare ;;
  tmplist <- load (this_thread tid, T_RLIST) ;;
  store (this_thread tid, T_RLIST) NULL ;;
  store (this_thread tid, T_RETIRE_COUNT) 0 ;;
  loop fuel (fun tmplist =>
    if tmplist =? NULL then break tt
    else
      let cur := tmplist in
      tmplist <- load (tmplist, MR_NEXT) ;;
      hazardous <- bsearch fuel cur plist psize compare ;;
      (if hazardous : bool then
         r <- load (this_thread tid, T_RLIST) ;;
         store (cur, MR_NEXT) r ;;
         store (this_thread tid, T_RLIST) cur ;;
         c <- load (this_thread tid, T_RETIRE_COUNT) ;;
         store (this_thread tid, T_RETIRE_COUNT) (u64 (c + 1))
       else free_node fuel tid cur) ;;
      continue tmplist) tmplist.

Definition mr_thread_exit : prog mem unit :=
  forz (Z.to_nat K) 0 (fun i => l <- HP (K * tid + i) ;; store l NULL) ;;
  loop fuel (fun _ : unit =>
    c <- load (this_thread tid, T_RETIRE_COUNT) ;;
    if 0 <? c then scan ;; continue tt else break tt) tt.

Definition mr_reinitialize : prog mem unit := Ret tt.

Definition free_node_later (n : Z) : prog mem unit :=
  r <- load (this_thread tid, T_RLIST) ;;
  store (n, MR_NEXT) r ;;
  store (this_thread tid, T_RLIST) n ;;
  c <- load (this_thread tid, T_RETIRE_COUNT) ;;
  store (this_thread tid, T_RETIRE_COUNT) (u64 (c + 1)) ;;
  c <- load (this_thread tid, T_RETIRE_COUNT) ;;
  r <- R ;;
  if r <=? c then scan else Ret tt.
End code.

(** Data structures on hazard pointers have no critical sections. *)
#[export] Instance ops `{Malloc, Allocator, Qsort} : Reclaimer :=
  {| Interfaces.critical_enter := fun _ _ => Ret tt;
     Interfaces.critical_exit := fun _ _ => Ret tt;
     Interfaces.free_node_later := free_node_later |}.
End smr.

(** * Proofs *)

(** ** Arrays *)
Section arrays.
#[local] Arguments Nat.div x y : simpl never.
Implicit Types (m : mem) (vs : list Z).

Definition arr m (a : Z) vs : Prop :=
  forall j v, vs !! j = Some v -> get m (a, 8 * Z.of_nat j) = Some v.

Lemma load_array_spec a i vs m (Q : list Z -> mem -> Prop) :
  (forall j v, vs !! j = Some v -> get m (a, 8 * Z.of_nat (i + j)) = Some v) -> Q vs m ->
  tot (load_array a i (length vs)) m Q.
Proof.
  revert i Q. induction vs as [|v vs IH]; intros i Q Hv HQ; simpl; [by apply tot_ret|].
  apply tot_bind. eapply tot_load. { rewrite <- (Nat.add_0_r i). by apply Hv. }
  apply tot_bind. apply IH; [|by apply tot_ret].
  intros j w Hj. replace (S i + j)%nat with (i + S j)%nat by lia. by apply Hv.
Qed.

Lemma store_array_spec a i vs m (Q : unit -> mem -> Prop) :
  is_struct m a (8 * Z.of_nat (i + length vs)) ->
  (forall m', private_to a m m' ->
     (forall j v, vs !! j = Some v -> get m' (a, 8 * Z.of_nat (i + j)) = Some v) ->
     (forall j, (j < i)%nat -> get m' (a, 8 * Z.of_nat j) = get m (a, 8 * Z.of_nat j)) -> Q tt m') ->
  tot (store_array a i vs) m Q.
Proof.
  revert i m. induction vs as [|v vs IH]; intros i m Hs HQ; simpl.
  - apply tot_ret, HQ; auto using private_refl. intros j v. by rewrite lookup_nil.
  - simpl length in Hs. apply tot_bind. eapply tot_store; [eapply is_struct_inb; [exact Hs|lia]|].
    apply IH.
    + apply is_struct_upd. by replace (S i + length vs)%nat with (i + S (length vs))%nat by lia.
    + intros m' Hp H1 H2. apply HQ.
      * eapply private_trans; [apply private_upd|exact Hp].
      * intros [|j] w; simpl.
        -- intros [= ->]. rewrite Nat.add_0_r, H2 by lia. apply get_upd_eq. simpl.
           eapply is_struct_live. exact Hs.
        -- intros Hj. replace (i + S j)%nat with (S i + j)%nat by lia. by apply H1.
      * intros j Hj. rewrite H2, get_upd_ne by (try lia; intros [=]; lia). auto.
Qed.

Lemma qsort_array_spec `{HQ : Qsort} a vs cmp m (Q : unit -> mem -> Prop) :
  arr m a vs -> is_struct m a (8 * Z.of_nat (length vs)) ->
  (forall m', private_to a m m' -> arr m' a (qsort cmp vs) -> Q tt m') ->
  tot (qsort_array a (length vs) cmp) m Q.
Proof.
  intros Ha Hs HQ'. unfold qsort_array. apply tot_bind. apply load_array_spec; [exact Ha|].
  apply store_array_spec.
  - simpl. by rewrite (Permutation_length (qsort_perm cmp vs)).
  - intros m' Hp H1 _. apply HQ'; auto.
Qed.

(** [bsearch] ends, changes nothing, and on an array ordered with respect to
    the key finds the key exactly when an element compares equal. *)
Definition ordered_for (f : Z -> Z) vs : Prop :=
  forall i j v w, (i < j)%nat -> vs !! i = Some v -> vs !! j = Some w ->
    (0 < f w -> 0 < f v) /\ (f v < 0 -> f w < 0).

Lemma bsearch_spec fuel key a vs cmp m :
  arr m a vs -> (length vs < fuel)%nat ->
  tot (bsearch fuel key a (length vs) cmp) m (fun r m' => m' = m /\
    (ordered_for (cmp key) vs -> r = true <-> exists v, v ∈ vs /\ cmp key v = 0)).
Proof.
  intros Ha Hf. unfold bsearch.
  eapply (tot_loop (fun k st m' => m' = m /\ (k = st.2 - st.1)%nat /\ (st.2 <= length vs)%nat /\
    (ordered_for (cmp key) vs -> forall i v, vs !! i = Some v ->
      ((i < st.1)%nat -> 0 < cmp key v) /\ ((st.2 <= i)%nat -> cmp key v < 0)))) with (n := length vs);
    [|auto|]; simpl.
  2:{ split_and!; auto; [lia|]. intros _ i v Hi. split; [lia|]. apply lookup_lt_Some in Hi. lia. }
  intros k [l u] m' (-> & -> & Hu & Hinv). simpl in *. destruct (Nat.leb_spec u l) as [Hle|Hlt].
  - apply tot_ret. split; auto. intros Ho. split; [discriminate|].
    intros (v & (i & Hi)%list_elem_of_lookup & Hv). destruct (Hinv Ho i v Hi) as [H1 H2].
    destruct (decide (i < l)%nat); [specialize (H1 ltac:(lia))|specialize (H2 ltac:(lia))]; lia.
  - set (i := ((l + u) / 2)%nat). assert (Hi : (l <= i < u)%nat).
    { unfold i. split; [apply Nat.div_le_lower_bound|apply Nat.Div0.div_lt_upper_bound]; lia. }
    clearbody i.
    destruct (lookup_lt_is_Some_2 vs i ltac:(lia)) as [v Hv].
    apply tot_bind. eapply tot_load; [eapply Ha, Hv|].
    destruct (Z.ltb_spec (cmp key v) 0) as [Hneg|Hpos]; [|destruct (Z.ltb_spec 0 (cmp key v)) as [Hp|Hz]].
    + apply tot_ret. exists (i - l)%nat. simpl. split; [lia|]. split_and!; auto; [lia|].
      intros Ho j w Hj. destruct (Hinv Ho j w Hj) as [H1 H2]. split; [auto|].
      intros Hij. destruct (decide (j = i)) as [->|]; [congruence|].
      apply (Ho i j v w); auto. lia.
    + apply tot_ret. exists (u - S i)%nat. simpl. split; [lia|]. split_and!; auto.
      intros Ho j w Hj. destruct (Hinv Ho j w Hj) as [H1 H2]. split; [|auto].
      intros Hij. destruct (decide (j = i)) as [->|]; [congruence|].
      apply (Ho j i w v); auto. lia.
    + apply tot_ret. split; auto. intros _. split; [|auto]. intros _. exists v.
      split; [by eapply list_elem_of_lookup_2|lia].
Qed.
End arrays.

(** ** The scan *)
Section scan.
Context `{HM : Malloc, HQ : Qsort}.
Existing Instance allocator_malloc.ops.
Implicit Types (m : mem) (vs ps rl : list Z).

(** Some element of [vs] compares equal to [x]. *)
Definition hit vs (x : Z) : Prop := exists v, v ∈ vs /\ smr.compare x v = 0.
Definition ord_for vs (x : Z) : Prop := ordered_for (smr.compare x) vs.

(** While stage 3 runs: nodes to look at, nodes kept, nodes freed. *)
Record sweep (t pl : Z) vs rl m (rest kept freed : list Z) (tmp : Z) m' : Prop := {
  sw_perm : rl ≡ₚ rest ++ kept ++ freed;
  sw_rest : flist MR_NEXT m' tmp rest;
  sw_kept : exists a, get m' (t, T_RLIST) = Some a /\ flist MR_NEXT m' a kept;
  sw_count : get m' (t, T_RETIRE_COUNT) = Some (u64 (Z.of_nat (length kept)));
  sw_thread : is_struct m' t sizeof_per_thread_t;
  sw_fields : forall f, f <> T_RLIST -> f <> T_RETIRE_COUNT -> get m' (t, f) = get m (t, f);
  sw_arr : arr m' pl vs;
  sw_freed : forall b, b ∈ freed -> m' !! b = None;
  sw_others : forall b, b ∉ t :: rl -> m' !! b = m !! b;
  sw_hit : forall x, x ∈ kept -> ord_for vs x -> hit vs x;
  sw_miss : forall x, x ∈ freed -> ord_for vs x -> ~ hit vs x
}.

Lemma u64_succ a : u64 (u64 a + 1) = u64 (a + 1).
Proof. unfold u64. by rewrite Zplus_mod_idemp_l. Qed.

Lemma arr_private pl vs m m' : arr m pl vs -> m' !! pl = m !! pl -> arr m' pl vs.
Proof. intros H E j v Hj. rewrite (get_lookup_eq m); auto. Qed.

(** A node that is kept. *)
Lemma sweep_keep t pl vs rl m rest kept freed x tmp m' a :
  sweep t pl vs rl m (x :: rest) kept freed x m' -> NoDup (t :: pl :: rl) ->
  get m' (x, MR_NEXT) = Some tmp -> get m' (t, T_RLIST) = Some a ->
  (ord_for vs x -> hit vs x) ->
  sweep t pl vs rl m rest (x :: kept) freed tmp
    (upd (upd (upd m' (x, MR_NEXT) a) (t, T_RLIST) x) (t, T_RETIRE_COUNT)
       (u64 (u64 (Z.of_nat (length kept)) + 1))).
Proof.
  intros [H1 H2 (a' & Ha & H3) H4 H5 Hfl H6 H7 H8 H9 H10] Hnd Hx Ha' Hh.
  assert (a' = a) as -> by congruence. destruct H2 as (_ & Hn & q & Hq & H2).
  assert (q = tmp) as -> by congruence.
  rewrite H1, !NoDup_cons, !elem_of_cons in Hnd. simpl in Hnd.
  rewrite NoDup_cons, !elem_of_cons, !elem_of_app, !NoDup_app in Hnd. destruct_and?.
  assert (Nx : x <> t) by (intros ->; tauto). assert (Np : x <> pl) by (intros ->; tauto).
  assert (Nt : t <> pl) by tauto.
  assert (Hxr : x ∈ rl) by (rewrite H1; left). apply is_node_live in Hn as Hlx.
  split.
  - rewrite H1. simpl. rewrite Permutation_middle, (Permutation_app_comm (kept)). solve_Permutation.
  - do 2 (apply flist_upd; [left; done|]). apply flist_upd; [right; simpl; tauto|auto].
  - exists x. split; [mget|]. do 2 (apply flist_upd; [left; done|]).
    apply flist_push; [auto|auto|tauto].
  - mget. f_equal. rewrite u64_succ. f_equal. simpl length. lia.
  - by rewrite !is_struct_upd.
  - intros f F1 F2. rewrite !get_upd_ne by (intros [=]; congruence). auto.
  - eapply arr_private; [exact H6|]. by rewrite !lookup_upd_ne.
  - intros b Hb. rewrite !lookup_upd_ne by (simpl; intros ->; tauto). auto.
  - intros b Hb. rewrite elem_of_cons in Hb.
    rewrite !lookup_upd_ne by (simpl; intros ->; tauto). apply H8. rewrite elem_of_cons. tauto.
  - intros y [->|Hy]%elem_of_cons; auto.
  - auto.
Qed.

(** A node that is freed. *)
Lemma sweep_free t pl vs rl m rest kept freed x tmp m' :
  sweep t pl vs rl m (x :: rest) kept freed x m' -> NoDup (t :: pl :: rl) ->
  get m' (x, MR_NEXT) = Some tmp -> (ord_for vs x -> ~ hit vs x) ->
  sweep t pl vs rl m rest kept (x :: freed) tmp
    (base.delete x (upd (upd m' (x, NEXT) 17) (x, MR_NEXT) 34)).
Proof.
  intros [H1 H2 (a & Ha & H3) H4 H5 Hfl H6 H7 H8 H9 H10] Hnd Hx Hh.
  destruct H2 as (_ & Hn & q & Hq & H2). assert (q = tmp) as -> by congruence.
  rewrite H1, !NoDup_cons, !elem_of_cons in Hnd. simpl in Hnd.
  rewrite NoDup_cons, !elem_of_cons, !elem_of_app, !NoDup_app in Hnd. destruct_and?.
  assert (Nx : x <> t) by (intros ->; tauto). assert (Np : x <> pl) by (intros ->; tauto).
  assert (Hxr : x ∈ rl) by (rewrite H1; left).
  assert (HL : forall b, b <> x -> base.delete x (upd (upd m' (x, NEXT) 17) (x, MR_NEXT) 34) !! b = m' !! b).
  { intros b Hb. rewrite lookup_delete_ne, !lookup_upd_ne by auto. auto. }
  split.
  - rewrite H1. simpl. solve_Permutation.
  - eapply flist_objs; [|exact H2]. intros b Hb. apply HL. intros ->. tauto.
  - exists a. split; [rewrite (get_lookup_eq m'); auto|].
    eapply flist_objs; [|exact H3]. intros b Hb. apply HL. intros ->. tauto.
  - rewrite (get_lookup_eq m'); auto.
  - eapply is_struct_lookup; [|exact H5]. auto.
  - intros f F1 F2. rewrite (get_lookup_eq m'); auto.
  - eapply arr_private; [exact H6|]. auto.
  - intros b [->|Hb]%elem_of_cons; [apply lookup_delete_eq|]. rewrite HL; [auto|]. intros ->. tauto.
  - intros b Hb. rewrite elem_of_cons in Hb. rewrite HL by (intros ->; tauto).
    apply H8. rewrite elem_of_cons. tauto.
  - auto.
  - intros y [->|Hy]%elem_of_cons; auto.
Qed.

Lemma sweep_spec fuel tid pl vs rl m tmp m0 (Q : unit -> mem -> Prop) :
  sweep (this_thread tid) pl vs rl m rl [] [] tmp m0 -> NoDup (this_thread tid :: pl :: rl) ->
  (length rl < fuel)%nat -> (length vs < fuel)%nat ->
  (forall kept freed m', sweep (this_thread tid) pl vs rl m [] kept freed NULL m' -> Q tt m') ->
  tot (loop fuel (fun tmplist =>
    if tmplist =? NULL then break tt
    else
      let cur := tmplist in
      tmplist <- load (tmplist, MR_NEXT) ;;
      hazardous <- bsearch fuel cur pl (length vs) smr.compare ;;
      (if hazardous : bool then
         r <- load (this_thread tid, T_RLIST) ;;
         store (cur, MR_NEXT) r ;;
         store (this_thread tid, T_RLIST) cur ;;
         c <- load (this_thread tid, T_RETIRE_COUNT) ;;
         store (this_thread tid, T_RETIRE_COUNT) (u64 (c + 1))
       else free_node fuel tid cur) ;;
      continue tmplist) tmp) m0 Q.
Proof.
  intros Hsw Hnd Hf1 Hf2 HQ'. set (t := this_thread tid) in *.
  eapply (tot_loop (fun k tmp m' => exists rest kept freed, k = length rest /\
    sweep t pl vs rl m rest kept freed tmp m')) with (n := length rl); [|auto|eauto].
  intros k tm m1 (rest & kept & freed & -> & Hs). destruct rest as [|x rest].
  - assert (tm = 0) as -> by apply Hs. apply tot_ret. by eapply HQ'.
  - pose proof Hs as [_ (-> & Hn & nx & Hnx & _) (a & Ha & _) Hc Ht _ Harr _ _ _ _].
    replace (x =? 0) with false by (symmetry; apply Z.eqb_neq; by apply is_node_nonnull in Hn).
    simpl. apply tot_bind. eapply tot_load; [exact Hnx|]. apply tot_bind.
    eapply tot_mono; [by apply bsearch_spec|]. intros r m2 [-> Hr].
    assert (Hxt : x <> t).
    { intros ->. apply NoDup_cons in Hnd as [Hnd _]. apply Hnd. right. rewrite (sw_perm _ _ _ _ _ _ _ _ _ _ Hs). left. }
    destruct r.
    + unfold sizeof_per_thread_t in Ht. psteps. exists (length rest). split; [simpl; lia|].
      exists rest, (x :: kept), freed. split; [auto|]. eapply sweep_keep; eauto. intros Ho. by apply (Hr Ho).
    + unfold free_node, allocator_malloc.ops, allocator_malloc.free_node. psteps.
      apply tot_free; [by eapply is_node_nonnull|mlive|]. psteps.
      exists (length rest). split; [simpl; lia|]. exists rest, kept, (x :: freed). split; [auto|].
      eapply sweep_free; eauto. intros Ho Hh. apply (Hr Ho) in Hh. discriminate.
Qed.

(** The state of thread [tid]: [ps] are the values of all hazard pointers, [rl]
    the nodes the thread has retired. *)
Record smr_at (tid hp pl : Z) (nt : nat) ps rl m : Prop := {
  sm_tid : 0 <= tid < MAX_THREADS;
  sm_hp : get m (GLOBALS, G_HP) = Some hp;
  sm_hps : forall j v, ps !! j = Some v -> get m (hp, CACHESIZE * Z.of_nat j) = Some v;
  sm_len : length ps = 132%nat;
  sm_hstruct : is_struct m hp (CACHESIZE * 132);
  sm_nt : get m (GLOBALS, G_N_THREADS) = Some (Z.of_nat nt);
  sm_nt_le : (nt <= 65)%nat;
  sm_pl : get m (this_thread tid, T_PLIST) = Some pl;
  sm_pls : is_struct m pl (16 * Z.of_nat nt);
  sm_rl : exists r, get m (this_thread tid, T_RLIST) = Some r /\ flist MR_NEXT m r rl;
  sm_count : get m (this_thread tid, T_RETIRE_COUNT) = Some (u64 (Z.of_nat (length rl)));
  sm_thread : is_struct m (this_thread tid) sizeof_per_thread_t;
  sm_nodup : NoDup (GLOBALS :: this_thread tid :: hp :: pl :: rl)
}.

Definition nonnull (p : Z) : Prop := p <> NULL.
#[export] Instance nonnull_dec p : Decision (nonnull p).
Proof. unfold nonnull. apply _. Defined.

(** The hazardous nodes: what the first [H] hazard pointers protect. *)
Definition hazards (nt : nat) ps : list Z := filter nonnull (take (2 * nt) ps).

Lemma hazards_length nt ps : (length (hazards nt ps) <= 2 * nt)%nat.
Proof.
  unfold hazards. etransitivity; [apply length_filter|]. rewrite length_take. lia.
Qed.

(** Stage 1: the non-null hazard pointers are collected. *)
Lemma scan_collect fuel tid hp pl nt ps rl m (Q : nat -> mem -> Prop) :
  smr_at tid hp pl nt ps rl m -> (2 * nt < fuel)%nat ->
  (forall m', private_to pl m m' -> arr m' pl (hazards nt ps) -> Q (length (hazards nt ps)) m') ->
  tot (loop fuel (fun '(i, psize) =>
    h <- smr.H ;;
    if negb (i <? h) then break psize
    else
      l <- smr.HP i ;;
      p <- load l ;;
      if p =? NULL then continue (u32 (i + 1), psize)
      else
        l <- smr.HP i ;;
        p <- load l ;;
        store (pl, 8 * Z.of_nat psize) p ;;
        continue (u32 (i + 1), S psize)) (0, O)) m Q.
Proof.
  intros [H1 H2 H3 H4 H5 H6 H7 H8 H9 _ _ _ H10] Hf HQ'.
  rewrite !NoDup_cons, !elem_of_cons in H10. destruct_and?.
  assert (N1 : pl <> GLOBALS) by (intros ->; tauto). assert (N2 : pl <> hp) by (intros ->; tauto).
  set (got j := filter nonnull (take j ps)).
  eapply (tot_loop (fun k (st : Z * nat) m' => exists j, st = (Z.of_nat j, length (got j)) /\
    (j + k = 2 * nt)%nat /\ private_to pl m m' /\ arr m' pl (got j))) with (n := (2 * nt)%nat);
    [|auto|].
  2:{ exists O. change (got O) with (@nil Z). split_and!; auto using private_refl.
      intros j v. by rewrite lookup_nil. }
  intros k [i psize] m' (j & [= -> ->] & Hj & Hp & Ha).
  rewrite <- (private_get _ _ _ _ Hp) in H2 by auto.
  rewrite <- (private_get _ _ _ _ Hp) in H6 by auto.
  unfold smr.H, smr.HP, smr.K. psteps. rewrite u32_small by (unfold M32; lia).
  destruct (Z.ltb_spec (Z.of_nat j) (2 * Z.of_nat nt)) as [Hlt|Hge]; simpl.
  - destruct (lookup_lt_is_Some_2 ps j ltac:(lia)) as [v Hv]. pose proof (H3 j v Hv) as Hg.
    rewrite <- (private_get _ _ _ _ Hp) in Hg by auto.
    assert (Hgot : got (S j) = got j ++ filter nonnull [v]).
    { unfold got. erewrite take_S_r by exact Hv. by rewrite filter_app. }
    rewrite u32_small by (unfold M32; lia). replace (Z.of_nat j + 1) with (Z.of_nat (S j)) by lia.
    psteps. destruct (Z.eqb_spec v 0) as [->|Hv0].
    + psteps. exists (k - 1)%nat. split; [lia|]. exists (S j).
      rewrite Hgot. change (filter nonnull [0]) with (@nil Z). rewrite app_nil_r.
      split_and!; auto. lia.
    + assert (Hfv : filter nonnull [v] = [v]).
      { rewrite filter_cons_True by auto. by rewrite filter_nil. }
      assert (Hlen : (length (got j) <= j)%nat).
      { unfold got. etransitivity; [apply length_filter|]. rewrite length_take. lia. }
      apply Hp in H9 as Hs. psteps.
      exists (k - 1)%nat. split; [lia|]. exists (S j). rewrite Hgot, Hfv, length_app. simpl.
      rewrite Nat.add_1_r. split_and!; auto; [lia| |].
      * eapply private_trans; [exact Hp|apply private_upd].
      * intros i w Hi. apply lookup_app_Some in Hi as [Hi|[Hle Hi]].
        -- rewrite get_upd_ne; [by apply Ha|]. apply lookup_lt_Some in Hi. intros [=]. lia.
        -- apply list_lookup_singleton_Some in Hi as [Hi ->].
           replace i with (length (got j)) by lia. apply get_upd_eq. by eapply is_struct_live.
  - apply tot_ret. assert (j = (2 * nt)%nat) as -> by lia. by apply HQ'.
Qed.

(** The whole scan, for any comparison results. *)
Lemma scan_spec fuel tid hp pl nt ps rl m :
  smr_at tid hp pl nt ps rl m -> (2 * nt < fuel)%nat -> (length rl < fuel)%nat ->
  tot (smr.scan fuel tid) m (fun _ m' => exists kept freed,
    rl ≡ₚ kept ++ freed /\ smr_at tid hp pl nt ps kept m' /\
    (forall b, b ∈ freed -> m' !! b = None) /\
    (forall b, b ∉ this_thread tid :: pl :: rl -> m' !! b = m !! b) /\
    (forall x, x ∈ kept -> ord_for (qsort smr.compare (hazards nt ps)) x ->
       hit (qsort smr.compare (hazards nt ps)) x) /\
    (forall x, x ∈ freed -> ord_for (qsort smr.compare (hazards nt ps)) x ->
       ~ hit (qsort smr.compare (hazards nt ps)) x)).
Proof.
  intros Hs Hf1 Hf2. unfold smr.scan. pose proof (hazards_length nt ps) as Hhl.
  pose proof Hs as [H1 H2 H3 H4 H5 H6 H7 H8 H9 (r & Hr & H10) H11 H12 H13].
  apply tot_bind. eapply tot_load; [exact H8|]. apply tot_bind, tot_ret, tot_bind.
  eapply scan_collect; [exact Hs|auto|]. intros m1 Hp1 Ha1. apply tot_bind.
  eapply qsort_array_spec; [exact Ha1| |].
  { apply Hp1 in H9 as (Hn & o & Ho & Hsz). split; [auto|]. exists o. split; [auto|lia]. }
  intros m2 Hp2 Ha2. pose proof (private_trans _ _ _ _ Hp1 Hp2) as Hp.
  set (vs := qsort smr.compare (hazards nt ps)) in *.
  assert (Hvl : length vs = length (hazards nt ps)) by (apply Permutation_length, qsort_perm).
  rewrite <- Hvl. pose proof H13 as Hnd. rewrite !NoDup_cons, !elem_of_cons in H13. destruct_and?.
  assert (N1 : pl <> this_thread tid) by (intros ->; tauto).
  assert (N2 : pl <> GLOBALS) by (intros ->; tauto). assert (N3 : pl <> hp) by (intros ->; tauto).
  assert (N4 : hp <> this_thread tid) by (intros ->; tauto).
  assert (N5 : GLOBALS <> this_thread tid) by tauto.
  rewrite <- (private_get _ _ _ _ Hp) in Hr by auto.
  rewrite <- (private_get _ _ _ _ Hp) in H11 by auto.
  apply (is_struct_lookup m m2) in H12; [|by apply Hp]. unfold sizeof_per_thread_t in H12. psteps.
  assert (Hnd' : NoDup (this_thread tid :: pl :: rl)).
  { rewrite !NoDup_cons, !elem_of_cons. tauto. }
  eapply sweep_spec with (m := m2) (rl := rl); [|exact Hnd'|auto|lia|].
  - split.
    + simpl. by rewrite app_nil_r.
    + do 2 (apply flist_upd; [left; done|]). eapply flist_objs; [|exact H10].
      intros b Hb. apply Hp. intros ->. tauto.
    + exists 0. split; [mget|done].
    + mget.
    + by rewrite !is_struct_upd.
    + intros f F1 F2. by rewrite !get_upd_ne by (intros [=]; congruence).
    + eapply arr_private; [exact Ha2|]. by rewrite !lookup_upd_ne by auto.
    + set_solver.
    + intros b Hb. rewrite elem_of_cons in Hb. by rewrite !lookup_upd_ne by (simpl; intros ->; tauto).
    + set_solver.
    + set_solver.
  - intros kept freed m' [S1 S2 (a & Sa & S3) S4 S5 Sf S6 S7 S8 S9 S10].
    assert (HL : forall b, b ∉ this_thread tid :: rl -> b <> pl -> m' !! b = m !! b).
    { intros b Hb Hbp. rewrite S8 by auto. by apply Hp. }
    assert (HG : forall b f, b ∉ this_thread tid :: rl -> b <> pl -> get m' (b, f) = get m (b, f)).
    { intros b f Hb Hbp. apply get_lookup_eq. auto. }
    assert (Hhp : hp ∉ this_thread tid :: rl) by (rewrite elem_of_cons; tauto).
    assert (HGl : GLOBALS ∉ this_thread tid :: rl) by (rewrite elem_of_cons; tauto).
    exists kept, freed. split_and!; auto.
    + split; auto.
      * by rewrite HG by auto.
      * intros j v Hj. rewrite HG by auto. auto.
      * eapply is_struct_lookup; [|exact H5]. auto.
      * by rewrite HG by auto.
      * rewrite Sf by done. rewrite (private_get _ _ _ _ Hp) by auto. auto.
      * eapply is_struct_lookup; [apply S8; rewrite elem_of_cons; intuition|]. by apply Hp.
      * eauto.
      * rewrite S1 in Hnd. eapply sublist_NoDup; [exact Hnd|]. do 4 apply sublist_skip.
        simpl. by apply sublist_inserts_r.
    + intros b Hb. rewrite !elem_of_cons in Hb. apply HL; [rewrite elem_of_cons; tauto|].
      intros ->. tauto.
Qed.

(** ** The comparison function

    [compare] orders pointers as addresses do only when distinct nodes are at
    least a node and less than 2^36 bytes apart. *)
Definition near (xs : list Z) : Prop :=
  forall a b, a ∈ xs -> b ∈ xs -> a = b \/ 32 <= Z.abs (a - b) < 2 ^ 36.

Lemma compare_near a b :
  a = b \/ 32 <= Z.abs (a - b) < 2 ^ 36 ->
  (smr.compare a b < 0 <-> a < b) /\ (smr.compare a b = 0 <-> a = b) /\ (0 < smr.compare a b <-> b < a).
Proof.
  intros H. unfold smr.compare. rewrite i64_small, Z.shiftr_div_pow2, i32_small; try lia;
    change (2 ^ 5) with 32; Z.to_euclidean_division_equations; lia.
Qed.

Lemma near_sub xs ys : near xs -> (forall x, x ∈ ys -> x ∈ xs) -> near ys.
Proof. unfold near. auto. Qed.

Lemma near_consistent xs : near xs -> consistent smr.compare xs.
Proof.
  intros Hn. split.
  - intros a b Ha Hb. destruct (compare_near a b) as (H1 & _); [auto|].
    destruct (compare_near b a) as (_ & _ & H2); [auto|]. rewrite H1, H2. done.
  - intros a b c Ha Hb Hc. pose proof (compare_near a b (Hn a b Ha Hb)).
    pose proof (compare_near b c (Hn b c Hb Hc)). pose proof (compare_near a c (Hn a c Ha Hc)). lia.
Qed.

Lemma ss_lookup (f : Z -> Z -> Prop) xs i j a b :
  StronglySorted f xs -> (i < j)%nat -> xs !! i = Some a -> xs !! j = Some b -> f a b.
Proof.
  intros Hs. revert i j. induction Hs as [|x xs Hs IH Hx]; intros i j Hij; [by rewrite lookup_nil|].
  destruct i as [|i], j as [|j]; simpl; try lia.
  - intros [= ->] Hb. rewrite Forall_forall in Hx. apply Hx. by eapply list_elem_of_lookup_2.
  - apply IH. lia.
Qed.

(** Under [near], a retired node is kept exactly when it is hazardous. *)
Lemma near_ord nt ps x rl :
  near (rl ++ hazards nt ps) -> x ∈ rl ->
  ord_for (qsort smr.compare (hazards nt ps)) x /\
  (hit (qsort smr.compare (hazards nt ps)) x <-> x ∈ hazards nt ps).
Proof.
  intros Hn Hx. set (hz := hazards nt ps) in *.
  assert (Hp : forall v, v ∈ qsort smr.compare hz <-> v ∈ hz) by (intros; by rewrite qsort_perm).
  assert (Hnx : forall v, v ∈ hz -> x = v \/ 32 <= Z.abs (x - v) < 2 ^ 36).
  { intros v Hv. apply Hn; rewrite elem_of_app; auto. }
  assert (Hnh : near hz) by (eapply near_sub; [exact Hn|]; set_solver). split.
  - intros i j v w Hij Hv Hw.
    pose proof (ss_lookup _ _ _ _ _ _ (qsort_sorts _ _ (near_consistent _ Hnh)) Hij Hv Hw) as Hvw. cbv beta in Hvw.
    apply list_elem_of_lookup_2, Hp in Hv. apply list_elem_of_lookup_2, Hp in Hw.
    pose proof (compare_near x v (Hnx v Hv)). pose proof (compare_near x w (Hnx w Hw)).
    pose proof (compare_near v w (Hnh v w Hv Hw)). lia.
  - unfold hit. split.
    + intros (v & Hv%Hp & E). apply (compare_near x v (Hnx v Hv)) in E as ->. auto.
    + intros Hh. exists x. split; [by apply Hp|]. apply compare_near; auto.
Qed.

(** What the thread owns. *)
Definition smr_objs (tid hp pl : Z) rl : list Z := GLOBALS :: this_thread tid :: hp :: pl :: rl.

Lemma smr_live tid hp pl nt ps rl m b : smr_at tid hp pl nt ps rl m -> b ∈ smr_objs tid hp pl rl -> live m b.
Proof.
  intros [H1 H2 H3 H4 H5 H6 H7 H8 H9 (r & Hr & H10) H11 H12 H13].
  unfold smr_objs. rewrite !elem_of_cons. intros [->|[->|[->|[->|Hb]]]].
  - by apply live_get in H2.
  - by eapply is_struct_live.
  - by eapply is_struct_live.
  - by eapply is_struct_live.
  - by eapply is_node_live, flist_nodes.
Qed.

Lemma smr_at_local tid hp pl nt ps rl m m' :
  smr_at tid hp pl nt ps rl m -> (forall b, b ∈ smr_objs tid hp pl rl -> m' !! b = m !! b) ->
  smr_at tid hp pl nt ps rl m'.
Proof.
  intros [H1 H2 H3 H4 H5 H6 H7 H8 H9 (r & Hr & H10) H11 H12 H13] HL.
  assert (M : GLOBALS ∈ smr_objs tid hp pl rl /\ this_thread tid ∈ smr_objs tid hp pl rl /\
    hp ∈ smr_objs tid hp pl rl /\ pl ∈ smr_objs tid hp pl rl)
    by (unfold smr_objs; rewrite !elem_of_cons; tauto).
  destruct M as (M1 & M2 & M3 & M4).
  assert (G : forall b f, b ∈ smr_objs tid hp pl rl -> get m' (b, f) = get m (b, f))
    by (intros; apply get_lookup_eq; auto).
  split; auto.
  - by rewrite G.
  - intros j v Hj. rewrite G by auto. auto.
  - eapply is_struct_lookup; [|exact H5]. auto.
  - by rewrite G.
  - by rewrite G.
  - eapply is_struct_lookup; [|exact H9]. auto.
  - exists r. rewrite G by auto. split; [auto|]. eapply flist_objs; [|exact H10].
    intros b Hb. apply HL. unfold smr_objs. rewrite !elem_of_cons. tauto.
  - by rewrite G.
  - eapply is_struct_lookup; [|exact H12]. auto.
Qed.

(** Protecting a node. *)
Lemma smr_at_protect tid hp pl nt ps rl m (i : nat) p :
  smr_at tid hp pl nt ps rl m -> (i < 132)%nat ->
  smr_at tid hp pl nt (<[i := p]> ps) rl (upd m (hp, CACHESIZE * Z.of_nat i) p).
Proof.
  intros [H1 H2 H3 H4 H5 H6 H7 H8 H9 (r & Hr & H10) H11 H12 H13] Hi.
  pose proof H13 as Hnd. rewrite !NoDup_cons, !elem_of_cons in Hnd. destruct_and?.
  assert (N1 : hp <> GLOBALS) by (intros ->; tauto).
  assert (N2 : hp <> this_thread tid) by (intros ->; tauto).
  assert (G : forall b f, b <> hp -> get (upd m (hp, CACHESIZE * Z.of_nat i) p) (b, f) = get m (b, f))
    by (intros; apply get_upd_ne; congruence).
  split; auto; try (by rewrite is_struct_upd); try (by rewrite G).
  - intros j v Hj. unfold CACHESIZE in *. destruct (decide (i = j)) as [->|Hne].
    + rewrite list_lookup_insert_eq in Hj by lia. injection Hj as ->.
      apply get_upd_eq. by eapply is_struct_live.
    + rewrite list_lookup_insert_ne in Hj by auto. rewrite get_upd_ne by (intros [=]; lia). auto.
  - by rewrite length_insert.
  - exists r. rewrite G by auto. split; [auto|]. apply flist_upd; [right; simpl; tauto|auto].
Qed.

(** ** Retiring a node *)
Lemma free_node_later_spec fuel tid hp pl nt ps rl m p :
  smr_at tid hp pl nt ps rl m -> (2 * nt < fuel)%nat -> (S (length rl) < fuel)%nat ->
  is_node m p -> p ∉ smr_objs tid hp pl rl ->
  tot (smr.free_node_later fuel tid p) m (fun _ m' => exists kept freed,
    p :: rl ≡ₚ kept ++ freed /\ smr_at tid hp pl nt ps kept m' /\
    (forall b, b ∈ freed -> m' !! b = None) /\
    (forall b, b ∉ this_thread tid :: pl :: p :: rl -> m' !! b = m !! b) /\
    (near ((p :: rl) ++ hazards nt ps) ->
       (forall x, x ∈ freed -> x ∉ hazards nt ps) /\
       (u64 (Z.of_nat (S (length rl))) < 100 + 4 * Z.of_nat nt \/
        (forall x, x ∈ kept -> x ∈ hazards nt ps)))).
Proof.
  intros Hs Hf1 Hf2 Hp HpO. unfold smr.free_node_later.
  pose proof Hs as [H1 H2 H3 H4 H5 H6 H7 H8 H9 (r & Hr & H10) H11 H12 H13].
  unfold smr_objs in HpO. rewrite !elem_of_cons in HpO.
  assert (N1 : p <> this_thread tid) by tauto. assert (N2 : p <> GLOBALS) by tauto.
  pose proof H13 as Hnd. rewrite !NoDup_cons, !elem_of_cons in Hnd. destruct_and?.
  assert (N3 : GLOBALS <> this_thread tid) by tauto.
  unfold smr.R, smr.H, smr.K, sizeof_per_thread_t in *. psteps. rewrite u64_succ.
  replace (Z.of_nat (length rl) + 1) with (Z.of_nat (S (length rl))) by lia.
  rewrite (u32_small (2 * Z.of_nat nt)), u32_small by (unfold M32; lia).
  set (m1 := upd (upd (upd m (p, MR_NEXT) r) (this_thread tid, T_RLIST) p) _ _).
  assert (Hs1 : smr_at tid hp pl nt ps (p :: rl) m1).
  { unfold m1. split; auto; try solve [mget].
    - intros j v Hj. rewrite !get_upd_ne by (intros [=]; subst; tauto). auto.
    - by rewrite !is_struct_upd.
    - by rewrite !is_struct_upd.
    - exists p. split; [mget|]. do 2 (apply flist_upd; [left; done|]). apply flist_push; auto; tauto.
    - by rewrite !is_struct_upd.
    - rewrite !NoDup_cons, !elem_of_cons. intuition congruence. }
  assert (Ho : forall b, b ∉ this_thread tid :: pl :: p :: rl -> m1 !! b = m !! b).
  { intros b. rewrite !elem_of_cons. intros Hb. unfold m1.
    by rewrite !lookup_upd_ne by (simpl; intros ->; tauto). }
  destruct (Z.leb_spec (100 + 2 * (2 * Z.of_nat nt)) (u64 (Z.of_nat (S (length rl))))) as [Hle|Hlt].
  - eapply tot_mono; [eapply scan_spec; [exact Hs1|lia|simpl; lia]|].
    intros [] m' (kept & freed & P1 & P2 & P3 & P4 & P5 & P6). exists kept, freed.
    split_and!; auto.
    + intros b Hb. rewrite P4; auto.
    + intros Hn. assert (HX : forall x, x ∈ kept ++ freed -> x ∈ p :: rl) by (intros; by rewrite P1).
      split; [intros x Hx Hh|right; intros x Hx];
        destruct (near_ord nt ps x (p :: rl) Hn) as [E1 E2]; try (apply HX, elem_of_app; auto; fail).
      * apply (P6 x Hx E1). by apply E2.
      * apply E2. by apply P5.
  - apply tot_ret. exists (p :: rl), []. rewrite app_nil_r. split_and!; auto; [set_solver|].
    intros _. split; [set_solver|]. left. lia.
Qed.
End scan.

(** ** The promises of allocator_malloc.c and smr.c *)
Definition smr_own (tid : Z) (n : nat) (m : mem) (O : gset Z) : Prop :=
  exists hp pl nt ps rl, smr_at tid hp pl nt ps rl m /\ O = list_to_set (smr_objs tid hp pl rl) /\
    (2 * nt <= n)%nat /\ (S (length rl) <= n)%nat.

Lemma smr_own_change tid hp pl nt ps rl m m' O n :
  smr_at tid hp pl nt ps rl m -> O = list_to_set (smr_objs tid hp pl rl) ->
  (2 * nt <= n)%nat -> (S (length rl) <= n)%nat ->
  (forall b, b ∈ O -> m' !! b = m !! b) -> smr_own tid n m' O.
Proof.
  intros Hs -> Hn Hr HL. exists hp, pl, nt, ps, rl. split_and!; auto.
  eapply smr_at_local; [exact Hs|]. intros b Hb. apply HL. by apply elem_of_list_to_set.
Qed.

#[export] Instance smr_laws `{M : Malloc, Qs : Qsort} :
  @ReclaimerLaws allocator_malloc.ops (@smr.ops _ allocator_malloc.ops _).
Proof.
refine (Build_ReclaimerLaws _ _ smr_own _ _ _ _ _ _ _ _).
{ intros tid n n' m O (hp & pl & nt & ps & rl & Hs & HO & H1 & H2) Hn.
  exists hp, pl, nt, ps, rl. split_and!; auto; lia. }
{ intros tid n m m' O (hp & pl & nt & ps & rl & Hs & HO & H1 & H2) HL.
  eapply smr_own_change; eauto. }
{ intros tid n m O b (hp & pl & nt & ps & rl & Hs & -> & _) Hb.
  apply elem_of_list_to_set in Hb. by apply (smr_live _ _ _ _ _ _ _ _ Hs). }
{ intros tid n m O fuel (hp & pl & nt & ps & rl & Hs & HO & H1 & H2) _. apply tot_new_obj.
  - intros _. exists O. split; [by exists hp, pl, nt, ps, rl|split; [apply frame_refl|done]].
  - intros a Ha Hal Hr Hf. exists O. assert (HaO : a ∉ O).
    { intros E. subst O. apply elem_of_list_to_set in E. apply (smr_live _ _ _ _ _ _ _ _ Hs) in E as [o E].
      congruence. }
    split; [|split; [|intros _; split_and!; auto]].
    + eapply smr_own_change; eauto. intros b Hb. apply lookup_insert_ne. congruence.
    + split; [|auto]. intros b Hb [o Hl]. rewrite lookup_insert_ne; congruence.
    + split; [lia|]. split; [by apply mod16_even|].
      exists (Obj sizeof_node_t ∅). rewrite lookup_insert_eq. split; [auto|simpl; lia]. }
{ intros tid n m O fuel p (hp & pl & nt & ps & rl & Hs & HO & H1 & H2) _ Hp HpO.
  unfold free_node, allocator_malloc.ops, allocator_malloc.free_node. psteps.
  apply tot_free; [by eapply is_node_nonnull|mlive|]. exists O.
  assert (HL : forall b, b <> p -> delete p (upd (upd m (p, 8) 17) (p, 16) 34) !! b = m !! b).
  { intros b Hb. rewrite lookup_delete_ne, !lookup_upd_ne by auto. auto. }
  split.
  - eapply smr_own_change; eauto. intros b Hb. apply HL. congruence.
  - split; [|set_solver]. intros b Hb _. apply HL. set_solver. }
{ intros tid n m O fuel Ho _. simpl. apply tot_ret. exists O. auto using frame_refl. }
{ intros tid n m O fuel Ho _. simpl. apply tot_ret. exists O. auto using frame_refl. }
{ intros tid n m O fuel p (hp & pl & nt & ps & rl & Hs & -> & H1 & H2) Hf Hp HpO. simpl.
  rewrite elem_of_list_to_set in HpO.
  eapply tot_mono; [eapply free_node_later_spec; eauto; lia|].
  intros [] m' (kept & freed & P1 & P2 & P3 & P4 & _). exists (list_to_set (smr_objs tid hp pl kept)).
  pose proof (Permutation_length P1) as HLen. rewrite length_app in HLen. simpl in HLen. split.
  - exists hp, pl, nt, ps, kept. split_and!; auto; lia.
  - split.
    + intros b Hb _. apply P4. revert Hb.
      rewrite !elem_of_union, elem_of_list_to_set, !elem_of_singleton, !elem_of_cons. tauto.
    + intros b. unfold smr_objs. simpl. rewrite !elem_of_union, !elem_of_list_to_set, !elem_of_singleton.
      intros Hb. left. assert (b ∈ kept -> b ∈ p :: rl) by (intros; rewrite P1; apply elem_of_app; auto).
      rewrite elem_of_cons in *. tauto. }
Defined.

(** A thread may set its hazard pointers. *)
Lemma smr_own_protect `{M : Malloc} tid n m O (i : nat) p (Q : unit -> mem -> Prop) :
  smr_own tid n m O -> (i < 132)%nat ->
  (forall m', smr_own tid n m' O -> frame O m m' O -> Q tt m') ->
  tot (l <- smr.HP (Z.of_nat i) ;; store l p) m Q.
Proof.
  intros (hp & pl & nt & ps & rl & Hs & HO & H1 & H2) Hi HQ. unfold smr.HP.
  pose proof Hs as [_ Hhp _ _ Hst _ _ _ _ _ _ _ _].
  unfold CACHESIZE in *. psteps. apply HQ.
  - exists hp, pl, nt, (<[i := p]> ps), rl. split_and!; auto. by apply smr_at_protect.
  - apply frame_upd. subst O. apply elem_of_list_to_set. unfold smr_objs. rewrite !elem_of_cons. tauto.
Qed.
