(* ===== verification/ListSmr.v ===== *)
(** * The lock-free sorted list on hazard pointers (list_lf_smr.c) *)
From S2P Require Export ListLf Smr.

(** The loop of a traversal; [off] selects the hazard pointer. *)
Inductive hstate : Set :=
| HTryAgain (next off : Z)
| HScan (prev : loc) (cur next off : Z).

Module list_lf_smr.
Section code.
Context `{HM : Malloc, HA : Allocator, HQ : Qsort}.
Variable fuel : nat.
Variable tid : Z.

Definition list_init : prog mem Z :=
  l <- mapmem 8 ;;
  store (l, LIST_HEAD) NULL ;;
  Ret l.

Definition list_destroy (l : Z) : prog mem unit := free l.

Definition find (head : loc) (key : Z) : prog mem bool :=
  let base := u32 (tid * smr.K) in
  loop fuel (fun st =>
    match st with
    | HTryAgain next off =>
        cur <- load head ;;
        continue (HScan head cur next off)
    | HScan prev cur next off =>
        if cur =? NULL then
          store (find_vars tid, T_CUR) cur ;;
          set_prev tid prev ;;
          store (find_vars tid, T_NEXT) next ;;
          break false
        else
          (l <- smr.HP (u32 (base + off)) ;; store l cur) ;;
          memory_barrier ;;
          pv <- load prev ;;
          if negb (pv =? cur) then continue (HTryAgain next off)
          else
            next <- load (cur, NEXT) ;;
            if negb (Z.land next 1 =? 0) then
              ok <- CAS prev cur (next - 1) ;;
              if negb ok then continue (HTryAgain next off)
              else
                smr.free_node_later fuel tid cur ;;
                continue (HScan prev (next - 1) (next - 1) off)
            else
              pv <- load prev ;;
              if negb (pv =? cur) then continue (HTryAgain next off)
              else
                ckey <- load (cur, KEY) ;;
                if key <=? ckey then
                  store (find_vars tid, T_CUR) cur ;;
                  set_prev tid prev ;;
                  store (find_vars tid, T_NEXT) next ;;
                  ckey <- load (cur, KEY) ;;
                  break (ckey =? key)
                else continue (HScan (cur, NEXT) next next (1 - off))
    end) (HTryAgain NULL 0).

Definition insert (l key : Z) : prog mem bool :=
  let head := (l, LIST_HEAD) in
  n <- new_node fuel tid ;;
  loop fuel (fun _ : unit =>
    found <- find head key ;;
    if found : bool then
      free_node fuel tid n ;;
      break false
    else
      store (n, KEY) key ;;
      cur <- load (find_vars tid, T_CUR) ;;
      store (n, NEXT) cur ;;
      write_barrier ;;
      prev <- get_prev tid ;;
      cur <- load (find_vars tid, T_CUR) ;;
      ok <- CAS prev cur n ;;
      if ok : bool then break true else continue tt) tt.

Definition delete (l key : Z) : prog mem bool :=
  let head := (l, LIST_HEAD) in
  loop fuel (fun _ : unit =>
    found <- find head key ;;
    if negb found then break false
    else
      cur <- load (find_vars tid, T_CUR) ;;
      next <- load (find_vars tid, T_NEXT) ;;
      ok <- CAS (cur, NEXT) next (u64 (next + 1)) ;;
      if negb ok then continue tt
      else
        write_barrier ;;
        prev <- get_prev tid ;;
        cur <- load (find_vars tid, T_CUR) ;;
        next <- load (find_vars tid, T_NEXT) ;;
        ok <- CAS prev cur next ;;
        (if ok : bool then
           cur <- load (find_vars tid, T_CUR) ;;
           smr.free_node_later fuel tid cur
         else Ret tt) ;;
        break true) tt.

Definition search (l key : Z) : prog mem bool :=
  let base := u32 (tid * smr.K) in
  let head := (l, LIST_HEAD) in
  loop fuel (fun st =>
    match st with
    | HTryAgain next off =>
        cur <- load head ;;
        continue (HScan head cur next off)
    | HScan prev cur next off =>
        if cur =? NULL then break false
        else
          (l <- smr.HP (u32 (base + off)) ;; store l cur) ;;
          memory_barrier ;;
          pv <- load prev ;;
          if negb (pv =? cur) then continue (HTryAgain next off)
          else
            next <- load (cur, NEXT) ;;
            if negb (Z.land next 1 =? 0) then
              ok <- CAS prev cur (next - 1) ;;
              if negb ok then continue (HTryAgain next off)
              else
                smr.free_node_later fuel tid cur ;;
                continue (HScan prev (next - 1) (next - 1) off)
            else
              ckey <- load (cur, KEY) ;;
              pv <- load prev ;;
              if negb (pv =? cur) then continue (HTryAgain next off)
              else if key <=? ckey then break (ckey =? key)
              else continue (HScan (cur, NEXT) next next (1 - off))
    end) (HTryAgain NULL 0).
End code.
End list_lf_smr.

(** * Proofs *)
Section list_lf_smr_proofs.
Context `{HM : Malloc, HQ : Qsort}.
Existing Instances allocator_malloc.ops smr.ops smr_laws.
Import list_lf_smr.
Variables (fuel : nat) (tid : Z).
Implicit Types (m : mem) (head : loc) (fs : list Z) (O F : gset Z) (xs ys zs : list nd).

Definition htrav_st m0 F head fs (key : Z) (n : nat) xs (k : nat) (st : hstate) m : Prop :=
  match st with
  | HTryAgain _ off => (off = 0 \/ off = 1) /\ k = S (length xs) /\ trav tid m0 F head fs key n xs [] xs m
  | HScan prev cur _ off => (off = 0 \/ off = 1) /\ exists ys zs, k = length zs /\ prev = end_loc head ys /\
      cur = first_addr zs /\ trav tid m0 F head fs key n xs ys zs m
  end.

(** Setting a hazard pointer keeps what a traversal knows. *)
Lemma trav_protect m0 F head fs key n xs ys zs m off p (Q : unit -> mem -> Prop) :
  trav tid m0 F head fs key n xs ys zs m -> off = 0 \/ off = 1 ->
  (forall m', trav tid m0 F head fs key n xs ys zs m' -> Q tt m') ->
  tot (l <- smr.HP (u32 (u32 (tid * smr.K) + off)) ;; store l p) m Q.
Proof.
  intros (n' & O & Hl & Hu & Hn & Hs) Hoff HQ'. pose proof Hl as (Ho & Hi & Hf & Ht).
  assert (Htid : 0 <= tid < MAX_THREADS). { destruct Ho as (? & ? & ? & ? & ? & Hat & _). apply Hat. }
  unfold MAX_THREADS, smr.K in *. rewrite (u32_small (tid * 2)), u32_small by (unfold M32; lia).
  replace (tid * 2 + off) with (Z.of_nat (Z.to_nat (tid * 2 + off))) by lia.
  eapply smr_own_protect; [exact Ho|lia|]. intros m' Ho' HF. apply HQ'.
  exists n', O. split_and!; auto. eapply lat_step; [exact Hl|exact Ho'|exact HF].
Qed.

Lemma smr_unlink m0 F head fs key n xs ys z zs m (Q : unit -> mem -> Prop) :
  trav tid m0 F head fs key n xs ys (z :: zs) m -> nm z = true -> (n + length xs < fuel)%nat ->
  (forall m', trav tid m0 F head fs key n xs ys zs m' -> Q tt m') ->
  tot (smr.free_node_later fuel tid (na z)) (upd m (end_loc head ys) (first_addr zs)) Q.
Proof. exact (trav_unlink fuel tid m0 F head fs key n xs ys z zs m Q). Qed.

Lemma smr_find_spec m0 F head fs key n O xs m (Q : bool -> mem -> Prop) :
  lat m0 F tid head fs n O xs m -> (n + S (length xs) < fuel)%nat ->
  (forall n' O' m' ys zs, lf_split key xs = (ys, zs) -> unmarked ys ->
     lat m0 F tid head fs n' O' (ys ++ zs) m' ->
     (n' + length (ys ++ zs) = n + length xs)%nat ->
     find_result tid m' (end_loc head ys) zs -> Q (found key zs) m') ->
  tot (find fuel tid head key) m Q.
Proof.
  intros Hl Hf HQ'. unfold find.
  eapply (tot_loop (htrav_st m0 F head fs key n xs)) with (n := S (length xs));
    [|lia|split_and!; auto; by eapply trav_start].
  clear m Hl O. intros k [next off|prev cur next off] m; simpl.
  - intros (Hoff & -> & Ht). assert (Hg : get m head = Some (first_addr xs)).
    { destruct Ht as (n' & O & (_ & Hi & _) & _). apply (linv_at head fs O [] xs m Hi). constructor. }
    psteps. exists (length xs). split; [lia|]. split; [auto|]. exists [], xs. auto.
  - intros (Hoff & ys & zs & -> & -> & -> & Ht). destruct zs as [|z zs]; simpl.
    + pose proof (trav_end _ _ _ _ _ _ _ _ _ _ _ Ht I) as Hs. destruct Ht as (n' & O & Hl & Hu & Hn & _).
      eapply find_exit; [exact Hl|]. intros m' Hl' Hp Ho Hc Hx. apply tot_ret.
      apply (HQ' n' O m' ys []); auto. split_and!; auto.
    + destruct (trav_node _ _ _ _ _ _ _ _ _ _ _ _ Ht) as (-> & _).
      apply tot_bind. eapply trav_protect; [exact Ht|auto|]. clear m Ht. intros m Ht.
      destruct (trav_node _ _ _ _ _ _ _ _ _ _ _ _ Ht) as (_ & Hg & Hk & Hx & Hb).
      psteps. rewrite Z.eqb_refl. simpl. psteps. rewrite Hb. destruct (nm z) eqn:Em; simpl in *.
      * apply tot_bind. eapply tot_CAS_true; [exact Hg|]. simpl. apply tot_bind.
        rewrite Z.add_simpl_r. eapply smr_unlink; [exact Ht|auto|lia|].
        intros m' Ht'. apply tot_ret. exists (length zs). split; [lia|]. split; [auto|]. exists ys, zs. auto.
      * psteps. rewrite Z.eqb_refl. simpl. psteps. rewrite Z.add_0_r in *.
        destruct (Z.leb_spec key (nk z)) as [Hle|Hgt].
        -- pose proof (trav_end _ _ _ _ _ _ _ _ _ _ _ Ht (conj Em Hle)) as Hs.
           destruct Ht as (n' & O & Hl & Hu & Hn & _).
           eapply find_exit; [exact Hl|]. intros m' Hl' Hp Ho Hc Hnx.
           destruct (linv_node _ _ _ _ _ _ _ (proj1 (proj2 Hl'))) as (_ & Hk' & _).
           psteps. apply (HQ' n' O m' ys (z :: zs)); auto. split_and!; auto.
        -- psteps. exists (length zs). split; [lia|]. split; [lia|]. exists (ys ++ [z]), zs.
           rewrite end_loc_snoc. eauto using trav_next.
Qed.

Lemma smr_insert_spec n l key O xs m :
  lf_list tid n (l, LIST_HEAD) O xs m -> (n + S (length xs) < fuel)%nat ->
  tot (new_node fuel tid) m (fun p _ => p <> NULL) ->
  tot (insert fuel tid l key) m
    (set_post tid n (l, LIST_HEAD) O xs m (negb (bool_decide (key ∈ key_set xs))) ({[key]} ∪ key_set xs)).
Proof.
  intros Hl Hf Hmem. unfold insert. apply tot_bind.
  eapply lat_alloc; [by apply lf_start|lia|exact Hmem|]. intros p O1 m1 H1 Hp He.
  apply tot_loop_exit; [lia|]. apply tot_bind.
  eapply smr_find_spec; [exact H1|lia|]. intros n2 O2 m2 ys zs Hs Hu H2 Hn Hr.
  assert (Hsx : sorted xs) by apply Hl. rewrite <- found_spec, Hs by auto.
  destruct (found key zs) eqn:Hfd; simpl; rewrite Hfd.
  - apply tot_bind. eapply (lat_free (HR := smr.ops)); [exact H2|left|auto|auto|lia|]. intros O4 m4 H4.
    apply tot_ret. eapply lat_post; [exact H4| |lia]. eapply found_keys; eauto.
  - eapply (insert_link tid _ _ _ p n O2 xs key n2); rewrite ?Hs; eauto. simpl.
    intros xs' m' H3 HS HL. apply tot_ret. eapply lat_post; [exact H3|auto|lia].
Qed.

Lemma smr_delete_spec n l key O xs m :
  lf_list tid n (l, LIST_HEAD) O xs m -> (n + S (length xs) < fuel)%nat ->
  tot (delete fuel tid l key) m
    (set_post tid n (l, LIST_HEAD) O xs m (bool_decide (key ∈ key_set xs)) (key_set xs ∖ {[key]})).
Proof.
  intros Hl Hf. unfold delete. apply tot_loop_exit; [lia|]. apply tot_bind.
  eapply smr_find_spec; [by apply lf_start|lia|]. intros n2 O2 m2 ys zs Hs Hu H2 Hn Hr.
  assert (Hsx : sorted xs) by apply Hl. rewrite <- found_spec, Hs by auto.
  destruct (found key zs) eqn:Hfd; simpl; rewrite Hfd; simpl.
  - eapply (delete_unlink fuel tid _ _ _ n O2 xs key n2 _ _ (smr.free_node_later fuel tid));
      rewrite ?Hs; eauto; [lia|].
    intros n3 O3 xs' m' H3 HS HL. apply tot_ret. eapply lat_post; [exact H3|auto|lia].
  - apply tot_ret. eapply lat_post; [exact H2| |lia]. eapply found_no_keys; eauto.
Qed.

Lemma smr_search_spec n l key O xs m :
  lf_list tid n (l, LIST_HEAD) O xs m -> (n + S (length xs) < fuel)%nat ->
  tot (search fuel tid l key) m
    (set_post tid n (l, LIST_HEAD) O xs m (bool_decide (key ∈ key_set xs)) (key_set xs)).
Proof.
  intros Hl Hf. unfold search. rewrite <- found_spec by apply Hl. rewrite <- (lf_split_set key xs).
  eapply (tot_loop (htrav_st m _ (l, LIST_HEAD) [find_vars tid] key n xs)) with (n := S (length xs));
    [|lia|split_and!; auto; by eapply trav_start, lf_start].
  intros k [next off|prev cur next off] m1; simpl.
  - intros (Hoff & -> & Ht). assert (Hg : get m1 (l, LIST_HEAD) = Some (first_addr xs)).
    { destruct Ht as (n' & O1 & (_ & Hi & _) & _). apply (linv_at _ _ O1 [] xs m1 Hi). constructor. }
    psteps. exists (length xs). split; [lia|]. split; [auto|]. exists [], xs. auto.
  - intros (Hoff & ys & zs & -> & -> & -> & Ht). destruct zs as [|z zs]; simpl.
    + rewrite (trav_end _ _ _ _ _ _ _ _ _ _ _ Ht I). destruct Ht as (n' & O1 & H1 & Hu & Hn & _).
      apply tot_ret. eapply lat_post; [exact H1|auto|lia].
    + destruct (trav_node _ _ _ _ _ _ _ _ _ _ _ _ Ht) as (-> & _).
      apply tot_bind. eapply trav_protect; [exact Ht|auto|]. clear m1 Ht. intros m1 Ht.
      destruct (trav_node _ _ _ _ _ _ _ _ _ _ _ _ Ht) as (_ & Hg & Hk & Hx & Hb).
      psteps. rewrite Z.eqb_refl. simpl. psteps. rewrite Hb. destruct (nm z) eqn:Em; simpl in *.
      * apply tot_bind. eapply tot_CAS_true; [exact Hg|]. simpl. apply tot_bind.
        rewrite Z.add_simpl_r. eapply smr_unlink; [exact Ht|auto|lia|].
        intros m' Ht'. apply tot_ret. exists (length zs). split; [lia|]. split; [auto|]. exists ys, zs. auto.
      * psteps. rewrite Z.eqb_refl. simpl. rewrite Z.add_0_r in *.
        destruct (Z.leb_spec key (nk z)) as [Hle|Hgt].
        -- rewrite (trav_end _ _ _ _ _ _ _ _ _ _ _ Ht (conj Em Hle)).
           destruct Ht as (n' & O1 & H1 & Hu & Hn & _).
           apply tot_ret. eapply lat_post; [exact H1|auto|lia].
        -- psteps. exists (length zs). split; [lia|]. split; [lia|]. exists (ys ++ [z]), zs.
           rewrite end_loc_snoc. eauto using trav_next.
Qed.
End list_lf_smr_proofs.
