(* ===== verification/QueueLf.v ===== *)
(** * The lock-free queues (queue_lf_ebr.c, queue_lf_dw.c, queue_lf_smr.c) and
    the spinlock queue (queue_spinlock.c)

    Michael and Scott's queue: [head] points to a dummy node, whose successors
    hold the contents; [tail] points to the last node or lags behind it. *)
From S2P Require Export Smr.

(** [struct queue] of the lock-free queues *)
Abbreviation Q_HEAD := 0 (only parsing).
Abbreviation Q_TAIL := 64 (only parsing).
Definition sizeof_queue : Z := 128.

Module queue_lf_ebr.
Section code.
Context `{!Malloc, !Allocator, !Reclaimer, !Epochs}.
Variable fuel : nat.
Variable tid : Z.

Definition queue_init : prog mem Z :=
  node <- new_node fuel tid ;;
  q <- mapmem sizeof_queue ;;
  store (node, NEXT) NULL ;;
  store (q, Q_HEAD) node ;;
  store (q, Q_TAIL) node ;;
  Ret q.

Definition queue_destroy (q : Z) : prog mem unit := free q.

(** The loop of [enqueue]; returns the tail the new element was linked to. *)
Definition enqueue_loop (q node : Z) : prog mem Z :=
  loop fuel (fun _ : unit =>
    t <- load (q, Q_TAIL) ;;
    t' <- load (q, Q_TAIL) ;;
    if negb (t' =? t) then continue tt
    else
      next <- load (t, NEXT) ;;
      if negb (next =? NULL) then
        _ <- CAS (q, Q_TAIL) t next ;;
        continue tt
      else
        ok <- CAS (t, NEXT) NULL node ;;
        if ok : bool then break t else continue tt) tt.

Definition enqueue (q key : Z) : prog mem unit :=
  node <- loop fuel (fun _ : unit =>
    critical_enter fuel tid ;;
    node <- new_node fuel tid ;;
    if node =? NULL then
      critical_exit fuel tid ;;
      update_epoch fuel tid ;;
      continue tt
    else break node) tt ;;
  store (node, KEY) key ;;
  store (node, NEXT) NULL ;;
  write_barrier ;;
  t <- enqueue_loop q node ;;
  _ <- CAS (q, Q_TAIL) t node ;;
  critical_exit fuel tid.

(** The result of the loop of [dequeue]: empty, or the old dummy and the data. *)
Definition dequeue_loop (q : Z) : prog mem (option (Z * Z)) :=
  loop fuel (fun _ : unit =>
    h <- load (q, Q_HEAD) ;;
    t <- load (q, Q_TAIL) ;;
    next <- load (h, NEXT) ;;
    memory_barrier ;;
    h' <- load (q, Q_HEAD) ;;
    if negb (h' =? h) then continue tt
    else if next =? NULL then break None
    else if h =? t then
      _ <- CAS (q, Q_TAIL) t next ;;
      continue tt
    else
      data <- load (next, KEY) ;;
      ok <- CAS (q, Q_HEAD) h next ;;
      if ok : bool then break (Some (h, data)) else continue tt) tt.

Definition dequeue (q : Z) : prog mem Z :=
  critical_enter fuel tid ;;
  r <- dequeue_loop q ;;
  match r with
  | None =>
      critical_exit fuel tid ;;
      Ret (-1)
  | Some (h, data) =>
      free_node_later fuel tid h ;;
      critical_exit fuel tid ;;
      Ret data
  end.
End code.
End queue_lf_ebr.

(** queue_lf_dw.c differs from queue_lf_ebr.c in the handling of a failed
    allocation only. *)
Module queue_lf_dw.
Section code.
Context `{!Malloc, !Allocator, !Reclaimer}.
Variable fuel : nat.
Variable tid : Z.

Definition queue_init : prog mem Z := queue_lf_ebr.queue_init fuel tid.
Definition queue_destroy (q : Z) : prog mem unit := queue_lf_ebr.queue_destroy q.

Definition enqueue (q key : Z) : prog mem unit :=
  critical_enter fuel tid ;;
  node <- new_node fuel tid ;;
  assert_ (negb (node =? NULL)) ;;
  store (node, KEY) key ;;
  store (node, NEXT) NULL ;;
  write_barrier ;;
  t <- queue_lf_ebr.enqueue_loop fuel q node ;;
  _ <- CAS (q, Q_TAIL) t node ;;
  critical_exit fuel tid.

Definition dequeue (q : Z) : prog mem Z := queue_lf_ebr.dequeue fuel tid q.
End code.
End queue_lf_dw.

Module queue_lf_smr.
Section code.
Context `{HM : Malloc, HA : Allocator, HQ : Qsort}.
Variable fuel : nat.
Variable tid : Z.

Definition queue_init : prog mem Z :=
  node <- new_node fuel tid ;;
  q <- mapmem sizeof_queue ;;
  store (node, NEXT) NULL ;;
  store (q, Q_HEAD) node ;;
  store (q, Q_TAIL) node ;;
  Ret q.

Definition queue_destroy (q : Z) : prog mem unit := free q.

Definition enqueue (q key : Z) : prog mem unit :=
  node <- new_node fuel tid ;;
  hp0 <- smr.HP (u64 (tid * smr.K)) ;;
  hp1 <- smr.HP (u64 (tid * smr.K + 1)) ;;
  store (node, KEY) key ;;
  store (node, NEXT) NULL ;;
  write_barrier ;;
  t <- loop fuel (fun _ : unit =>
    t <- load (q, Q_TAIL) ;;
    store hp0 t ;;
    memory_barrier ;;
    t' <- load (q, Q_TAIL) ;;
    if negb (t' =? t) then continue tt
    else
      next <- load (t, NEXT) ;;
      if negb (next =? NULL) then
        _ <- CAS (q, Q_TAIL) t next ;;
        continue tt
      else
        ok <- CAS (t, NEXT) NULL node ;;
        if ok : bool then break t else continue tt) tt ;;
  _ <- CAS (q, Q_TAIL) t node ;;
  store hp1 NULL ;;
  store hp0 NULL.

Definition dequeue (q : Z) : prog mem Z :=
  hp0 <- smr.HP (u64 (tid * smr.K)) ;;
  hp1 <- smr.HP (u64 (tid * smr.K + 1)) ;;
  r <- loop fuel (fun _ : unit =>
    h <- load (q, Q_HEAD) ;;
    store hp0 h ;;
    memory_barrier ;;
    h' <- load (q, Q_HEAD) ;;
    if negb (h' =? h) then continue tt
    else
      t <- load (q, Q_TAIL) ;;
      next <- load (h, NEXT) ;;
      store hp1 next ;;
      memory_barrier ;;
      h' <- load (q, Q_HEAD) ;;
      if negb (h' =? h) then continue tt
      else if next =? NULL then break None
      else if h =? t then
        _ <- CAS (q, Q_TAIL) t next ;;
        continue tt
      else
        data <- load (next, KEY) ;;
        ok <- CAS (q, Q_HEAD) h next ;;
        if ok : bool then break (Some (h, data)) else continue tt) tt ;;
  match r with
  | None => Ret (-1)
  | Some (h, data) =>
      store hp1 NULL ;;
      store hp0 NULL ;;
      smr.free_node_later fuel tid h ;;
      Ret data
  end.
End code.
End queue_lf_smr.

(** [struct queue] of queue_spinlock.c *)
Abbreviation SQ_HEAD := 0 (only parsing).
Abbreviation SQ_TAIL := 8 (only parsing).
Abbreviation SQ_LOCK := 16 (only parsing).
Definition sizeof_squeue : Z := 24.

Module queue_spinlock.
Section code.
Context `{HM : Malloc, HA : Allocator}.
Variable fuel : nat.
Variable tid : Z.

Definition queue_init : prog mem Z :=
  q <- mapmem sizeof_squeue ;;
  store (q, SQ_HEAD) NULL ;;
  store (q, SQ_TAIL) NULL ;;
  store (q, SQ_LOCK) SPIN_LOCK_UNLOCKED ;;
  Ret q.

Definition queue_destroy (q : Z) : prog mem unit := free q.

Definition enqueue (q key : Z) : prog mem unit :=
  node <- new_node fuel tid ;;
  (if node =? NULL then loop fuel (fun _ : unit => continue tt) tt else Ret tt) ;;
  store (node, NEXT) NULL ;;
  store (node, KEY) key ;;
  spin_lock fuel (q, SQ_LOCK) ;;
  t <- load (q, SQ_TAIL) ;;
  (if t =? NULL then
     store (q, SQ_TAIL) node ;;
     store (q, SQ_HEAD) node
   else
     t <- load (q, SQ_TAIL) ;;
     store (t, NEXT) node ;;
     store (q, SQ_TAIL) node) ;;
  spin_unlock (q, SQ_LOCK).

Definition dequeue (q : Z) : prog mem Z :=
  spin_lock fuel (q, SQ_LOCK) ;;
  h <- load (q, SQ_HEAD) ;;
  if h =? NULL then
    spin_unlock (q, SQ_LOCK) ;;
    Ret (-1)
  else
    node <- load (q, SQ_HEAD) ;;
    h <- load (q, SQ_HEAD) ;;
    t <- load (q, SQ_TAIL) ;;
    (if h =? t then
       store (q, SQ_TAIL) NULL ;;
       store (q, SQ_HEAD) NULL
     else
       h <- load (q, SQ_HEAD) ;;
       n <- load (h, NEXT) ;;
       store (q, SQ_HEAD) n) ;;
    spin_unlock (q, SQ_LOCK) ;;
    data <- load (node, KEY) ;;
    free_node fuel tid node ;;
    Ret (i64 (u64 data)).
End code.
End queue_spinlock.

(** * Proofs *)

(** ** A queue in memory

    [qat m0 F tid q fs n O d xs ts m]: in [m], which an execution reached from
    [m0] changing only [F], the queue [q] has the dummy node [d] and the nodes
    [xs], of which [ts] are up to the node [tail] points to. *)
Section qat.
Context `{HA : Allocator, HR : Reclaimer, HRL : !ReclaimerLaws}.
Implicit Types (m : mem) (fs : list Z) (O F : gset Z) (xs ts bs : list nd).

Record qat m0 F (tid q : Z) fs (n : nat) O (d : Z) xs ts m : Prop := {
  qa_own : own tid n m O;
  qa_inv : linv (d, NEXT) fs O xs m;
  qa_frame : frame F m0 m (fp (d, NEXT) fs O xs);
  qa_unmarked : unmarked xs;
  qa_dummy : is_node m d;
  qa_head : get m (q, Q_HEAD) = Some d;
  qa_tail : get m (q, Q_TAIL) = Some (end_loc (d, NEXT) ts).1;
  qa_ts : exists bs, xs = ts ++ bs;
  qa_struct : is_struct m q sizeof_queue;
  qa_q : q ∈ fs
}.

Lemma qat_step m0 F tid q fs n n' O O' d xs ts m m' :
  qat m0 F tid q fs n O d xs ts m -> own tid n' m' O' -> frame O m m' O' ->
  qat m0 F tid q fs n' O' d xs ts m'.
Proof.
  intros [H1 H2 H3 H4 H5 H6 H7 H8 H9 H10] Ho HF.
  assert (Hd : d ∉ O) by (eapply (linv_own _ _ _ _ _ H2); apply (objs_head (d, NEXT))).
  assert (Hq : q ∉ O) by (eapply (linv_own _ _ _ _ _ H2), objs_scratch; auto).
  split; auto.
  - eapply linv_frame; eauto.
  - eapply frame_trans; [exact H3|]. apply fp_own, HF.
  - eapply frame_is_node; eauto.
  - eapply frame_get_Some; eauto.
  - eapply frame_get_Some; eauto.
  - eapply frame_is_struct; eauto.
Qed.

Lemma qat_enter m0 F tid q fs n O d xs ts m fuel (Q : unit -> mem -> Prop) :
  qat m0 F tid q fs n O d xs ts m -> (n < fuel)%nat ->
  (forall O' m', qat m0 F tid q fs n O' d xs ts m' -> Q tt m') ->
  tot (critical_enter fuel tid) m Q.
Proof.
  intros Hl Hf HQ. eapply tot_mono; [apply critical_enter_ok; [apply Hl|exact Hf]|].
  intros [] m' (O' & Ho & HF). eapply HQ, qat_step; eauto.
Qed.

Lemma qat_exit m0 F tid q fs n O d xs ts m fuel (Q : unit -> mem -> Prop) :
  qat m0 F tid q fs n O d xs ts m -> (n < fuel)%nat ->
  (forall O' m', qat m0 F tid q fs n O' d xs ts m' -> Q tt m') ->
  tot (critical_exit fuel tid) m Q.
Proof.
  intros Hl Hf HQ. eapply tot_mono; [apply critical_exit_ok; [apply Hl|exact Hf]|].
  intros [] m' (O' & Ho & HF). eapply HQ, qat_step; eauto.
Qed.

(** A new node is a scratch object. *)
Lemma qat_alloc m0 F tid q fs n O d xs ts m fuel (Q : Z -> mem -> Prop) :
  qat m0 F tid q fs n O d xs ts m -> (n < fuel)%nat ->
  tot (new_node fuel tid) m (fun p _ => p <> NULL) ->
  (forall p O' m', qat m0 F tid q (p :: fs) n O' d xs ts m' -> 0 < p < M64 -> p mod 2 = 0 -> Q p m') ->
  tot (new_node fuel tid) m Q.
Proof.
  intros Hq Hn Hnn HQ. pose proof (qa_own _ _ _ _ _ _ _ _ _ _ _ Hq) as Ho.
  pose proof (qa_inv _ _ _ _ _ _ _ _ _ _ _ Hq) as Hi.
  apply tot_run in Hnn as (p & m' & Hrun & Hp).
  pose proof (new_node_ok tid n m O fuel Ho Hn) as Hok. eapply run_tot; [exact Hrun|].
  unfold tot in Hok. rewrite Hrun in Hok. destruct Hok as (O' & Ho' & HF & Hok).
  destruct (Hok Hp) as (Hnode & HpO & Hfr).
  pose proof (linv_fresh _ _ _ _ _ _ Hi Hfr) as Hpx.
  pose proof (qat_step _ _ _ _ _ _ _ _ _ _ _ _ _ _ Hq Ho' HF) as [H1 H2 H3 H4 H5 H6 H7 H8 H9 H10].
  apply (HQ p O' m'); [|apply Hnode..]. split; auto.
  - apply linv_add; auto using is_node_struct.
  - eapply frame_trans; [apply (qa_frame _ _ _ _ _ _ _ _ _ _ _ Hq)|]. split.
    + intros b Hb Hl. apply HF; auto. intros E. apply Hb. rewrite elem_of_fp. auto.
    + intros b. rewrite !elem_of_fp, objs_cons. intros [Hb|[->|Hb]]; [|tauto..].
      destruct (proj2 HF b Hb); auto.
  - by right.
Qed.

(** What the code reads. *)
Lemma qat_ne m0 F tid q fs n O d xs ts m :
  qat m0 F tid q fs n O d xs ts m -> d <> q /\ (forall x, x ∈ xs -> na x <> q).
Proof. intros Hq. apply (linv_scratch_ne _ _ _ _ _ q (qa_inv _ _ _ _ _ _ _ _ _ _ _ Hq)). apply Hq. Qed.

Lemma qat_tail m0 F tid q fs n O d ts bs m :
  qat m0 F tid q fs n O d (ts ++ bs) ts m ->
  (end_loc (d, NEXT) ts).2 = NEXT /\ get m (end_loc (d, NEXT) ts) = Some (first_addr bs) /\
  (end_loc (d, NEXT) ts).1 <> q.
Proof.
  intros [H1 H2 H3 H4 H5 H6 H7 H8 H9 H10]. apply Forall_app in H4 as [Hu _]. split_and!.
  - unfold end_loc. by destruct (last ts).
  - by apply (linv_at _ _ _ _ _ _ H2).
  - by eapply linv_scratch_end.
Qed.

(** A tail that is past the dummy is not the dummy. *)
Lemma qat_tail_ne m0 F tid q fs n O d x ts bs m :
  qat m0 F tid q fs n O d (x :: ts ++ bs) (x :: ts) m -> d <> (end_loc (d, NEXT) (x :: ts)).1.
Proof.
  intros [H1 H2 H3 H4 H5 H6 H7 H8 H9 H10]. rewrite end_loc_cons. intros E.
  destruct (linv_shift _ _ _ _ _ _ H2 ltac:(by inversion H4)) as (Hi' & Hd & _).
  apply Hd. simpl. rewrite E, objs_app, elem_of_app. left. apply (linv_at _ _ _ ts bs _ Hi').
  inversion H4 as [|? ? _ Hu]; subst. apply Forall_app in Hu. tauto.
Qed.

(** Helping: the tail is moved one node on. *)
Lemma qat_help m0 F tid q fs n O d ts x bs m :
  qat m0 F tid q fs n O d (ts ++ (x :: bs)) ts m ->
  qat m0 F tid q fs n O d (ts ++ (x :: bs)) (ts ++ [x]) (upd m (q, Q_TAIL) (na x)).
Proof.
  intros Hq. destruct (qat_ne _ _ _ _ _ _ _ _ _ _ _ Hq) as [Nd Nx].
  destruct Hq as [H1 H2 H3 H4 H5 H6 H7 H8 H9 H10]. split; auto.
  - apply own_upd; auto. eapply linv_own; [exact H2|]. by apply objs_scratch.
  - by apply linv_upd_scratch.
  - eapply frame_trans; [exact H3|]. apply fp_upd; intros; rewrite elem_of_fp; auto.
    right. by apply objs_scratch.
  - by apply is_node_upd.
  - mget.
  - rewrite end_loc_snoc. mget.
  - exists bs. by rewrite <- app_assoc.
  - by apply is_struct_upd.
Qed.

(** A store to a scratch object other than the queue. *)
Lemma qat_scratch m0 F tid q fs n O d xs ts m b off v :
  qat m0 F tid q fs n O d xs ts m -> b ∈ fs -> b <> q ->
  qat m0 F tid q fs n O d xs ts (upd m (b, off) v).
Proof.
  intros [H1 H2 H3 H4 H5 H6 H7 H8 H9 H10] Hb Hne. split; auto.
  - apply own_upd; auto. eapply linv_own; [exact H2|]. by apply objs_scratch.
  - by apply linv_upd_scratch.
  - eapply frame_trans; [exact H3|]. apply fp_upd; intros; rewrite elem_of_fp; auto.
    right. by apply objs_scratch.
  - by apply is_node_upd.
  - mget.
  - mget.
  - by apply is_struct_upd.
Qed.

(** Linking a node at the end. *)
Lemma qat_link m0 F tid q p fs n O d xs m key :
  qat m0 F tid q (p :: fs) n O d xs xs m -> q ∈ fs -> 0 < p < M64 -> p mod 2 = 0 ->
  get m (p, KEY) = Some key -> get m (p, NEXT) = Some NULL ->
  qat m0 F tid q fs n O d (xs ++ [Nd p key false]) xs (upd m (end_loc (d, NEXT) xs) p).
Proof.
  intros Hqa Hq Hp He Hk Hx. pose proof (qat_ne _ _ _ _ _ _ _ _ _ _ _ Hqa) as [Nd' _].
  assert (Hqa' : qat m0 F tid q (p :: fs) n O d (xs ++ []) xs m) by (by rewrite app_nil_r).
  destruct (qat_tail _ _ _ _ _ _ _ _ _ _ _ Hqa') as (T1 & T2 & T3).
  destruct Hqa' as [H1 H2 H3 H4 H5 H6 H7 H8 H9 H10].
  assert (Hu : unmarked xs) by (by rewrite app_nil_r in H4).
  destruct (linv_drop _ _ _ _ _ _ H2) as (Hi' & Hpx & HpO & Hs).
  pose proof (linv_lseg _ _ _ _ _ _ Hi' Hu) as Hl.
  pose proof (linv_at _ _ _ _ _ _ Hi' Hu) as [_ Hloc]. split.
  - apply own_upd; auto. eapply linv_own; [exact Hi'|]. rewrite objs_app, elem_of_app. auto.
  - apply linv_link; auto. by apply is_struct_node.
  - eapply frame_trans; [exact H3|]. eapply frame_weaken.
    + apply (frame_upd (fp (d, NEXT) (p :: fs) O (xs ++ []))).
      rewrite elem_of_fp, objs_cons, objs_app, elem_of_app. auto.
    + done.
    + intros b. rewrite elem_of_union, !elem_of_fp, !objs_cons, !objs_app, !elem_of_app.
      cbn [map na]. rewrite elem_of_cons. tauto.
  - apply Forall_app. split; [auto|]. by constructor.
  - by apply is_node_upd.
  - rewrite get_upd_ne; auto. intros E. apply T3. by rewrite E.
  - rewrite get_upd_ne; auto. intros E. apply T3. by rewrite E.
  - by exists [Nd p key false].
  - by apply is_struct_upd.
  - auto.
Qed.
End qat.

Section queue_lf_proofs.
Context `{HM : Malloc, HA : Allocator, HR : Reclaimer, HE : Epochs, HRL : !ReclaimerLaws}.
Import queue_lf_ebr.
Variables (fuel : nat) (tid : Z).
Implicit Types (m : mem) (fs : list Z) (O F : gset Z) (xs ts bs : list nd).

(** The queue [q] with contents [xs], and everything behind it. *)
Definition lf_queue (n : nat) (q : Z) O (d : Z) xs ts m : Prop :=
  qat m (fp (d, NEXT) [q] O xs) tid q [q] n O d xs ts m.

(** An operation leaves the contents [ks] and changes only the queue, the
    objects of the allocator and the reclamation scheme, and new objects. *)
Definition queue_post (n : nat) (q : Z) O (d : Z) xs m (ks : list Z) m' : Prop :=
  exists n' O' d' xs' ts', lf_queue n' q O' d' xs' ts' m' /\ map nk xs' = ks /\
    (n' + length xs' <= S (n + length xs))%nat /\
    frame (fp (d, NEXT) [q] O xs) m m' (fp (d', NEXT) [q] O' xs').

Lemma qat_post n q O d xs m n' O' d' xs' ts' m' ks :
  qat m (fp (d, NEXT) [q] O xs) tid q [q] n' O' d' xs' ts' m' ->
  map nk xs' = ks -> (n' + length xs' <= S (n + length xs))%nat ->
  queue_post n q O d xs m ks m'.
Proof.
  intros [H1 H2 H3 H4 H5 H6 H7 H8 H9 H10] Hk Hn. exists n', O', d', xs', ts'. split_and!; auto.
  split; auto using frame_refl.
Qed.

(** The new node is linked after the last one, whatever [tail] says. *)
Lemma enqueue_loop_spec m0 F q p fs n O d xs ts m key (Q : Z -> mem -> Prop) :
  qat m0 F tid q (p :: fs) n O d xs ts m -> q ∈ fs -> 0 < p < M64 -> p mod 2 = 0 ->
  get m (p, KEY) = Some key -> get m (p, NEXT) = Some NULL -> (length xs < fuel)%nat ->
  (forall m', qat m0 F tid q fs n O d (xs ++ [Nd p key false]) xs m' ->
     Q (end_loc (d, NEXT) xs).1 m') ->
  tot (enqueue_loop fuel q p) m Q.
Proof.
  intros Hq Hqf Hp He Hk Hx Hf HQ. unfold enqueue_loop.
  assert (Hpq : p <> q).
  { destruct (linv_drop _ _ _ _ _ _ (qa_inv _ _ _ _ _ _ _ _ _ _ _ Hq)) as (_ & Hpx & _).
    intros ->. apply Hpx. by apply objs_scratch. }
  eapply (tot_loop (fun k _ m' => exists ts bs, k = length bs /\ xs = ts ++ bs /\
    qat m0 F tid q (p :: fs) n O d xs ts m' /\ get m' (p, KEY) = Some key /\ get m' (p, NEXT) = Some NULL))
    with (n := (length xs - length ts)%nat); [|lia|].
  2:{ destruct (qa_ts _ _ _ _ _ _ _ _ _ _ _ Hq) as [bs ->]. exists ts, bs. rewrite length_app.
      split_and!; auto. lia. }
  clear ts Hq Hk Hx m. intros k [] m (ts & bs & -> & -> & Hq & Hk & Hx).
  destruct (qat_tail _ _ _ _ _ _ _ _ _ _ _ Hq) as (T1 & T2 & T3).
  pose proof (qa_tail _ _ _ _ _ _ _ _ _ _ _ Hq) as HT. set (e := end_loc (d, NEXT) ts) in *.
  assert (Ee : (e.1, NEXT) = e) by (rewrite <- T1; by destruct e).
  psteps. rewrite Z.eqb_refl. simpl. apply tot_bind. rewrite Ee. eapply tot_load; [exact T2|].
  destruct bs as [|x bs]; simpl.
  - apply tot_bind. eapply tot_CAS_true; [exact T2|]. apply tot_ret. rewrite app_nil_r in *.
    apply HQ. by apply qat_link.
  - assert (Hxn : is_node m (na x)).
    { destruct (linv_node _ _ _ _ _ _ _ (qa_inv _ _ _ _ _ _ _ _ _ _ _ Hq)) as (Hn & _). auto. }
    replace (na x =? 0) with false by (symmetry; apply Z.eqb_neq; by eapply is_node_nonnull).
    simpl. apply tot_bind. eapply tot_CAS_true; [exact HT|]. apply tot_ret.
    exists (length bs). split; [lia|]. exists (ts ++ [x]), bs. rewrite <- app_assoc. split_and!; auto.
    + by apply qat_help.
    + mget.
    + mget.
Qed.

(** The tail swung to the last node. *)
Lemma qat_swing m0 F q fs n O d xs x m (Q : bool -> mem -> Prop) :
  qat m0 F tid q fs n O d (xs ++ [x]) xs m ->
  (forall m', qat m0 F tid q fs n O d (xs ++ [x]) (xs ++ [x]) m' -> Q true m') ->
  tot (CAS (q, Q_TAIL) (end_loc (d, NEXT) xs).1 (na x)) m Q.
Proof.
  intros Hq HQ. eapply tot_CAS_true; [apply Hq|]. apply HQ. by apply qat_help.
Qed.

(** Where the allocation succeeds, the element is added at the end. *)
Definition alloc_after_enter m : Prop :=
  tot (critical_enter fuel tid) m (fun _ m1 => tot (new_node fuel tid) m1 (fun p _ => p <> NULL)).

Lemma enqueue_tail m0 F q p n O d xs ts m key (Q : unit -> mem -> Prop) :
  qat m0 F tid q [p; q] n O d xs ts m -> 0 < p < M64 -> p mod 2 = 0 ->
  (length xs < fuel)%nat -> (n < fuel)%nat ->
  (forall O' m', qat m0 F tid q [q] n O' d (xs ++ [Nd p key false]) (xs ++ [Nd p key false]) m' -> Q tt m') ->
  tot (store (p, KEY) key ;;
       store (p, NEXT) NULL ;;
       write_barrier ;;
       t <- enqueue_loop fuel q p ;;
       _ <- CAS (q, Q_TAIL) t p ;;
       critical_exit fuel tid) m Q.
Proof.
  intros Hq Hp He Hf1 Hf2 HQ. pose proof (qa_inv _ _ _ _ _ _ _ _ _ _ _ Hq) as Hi.
  assert (Hpq : p <> q).
  { destruct (linv_drop _ _ _ _ _ _ Hi) as (_ & Hpx & _). intros ->. apply Hpx, objs_scratch. left. }
  assert (Hst : is_struct m p 32) by (eapply linv_scratch; [exact Hi|left]). psteps.
  eapply enqueue_loop_spec; eauto; [|left|mget|mget|].
  { do 2 (apply qat_scratch; [|left|auto]). exact Hq. }
  intros m' Hq'. apply tot_bind. eapply (qat_swing _ _ _ _ _ _ _ _ (Nd p key false)); [exact Hq'|].
  intros m2 Hq2. eapply qat_exit; [exact Hq2|auto|]. auto.
Qed.

Lemma enqueue_spec n q key O d xs ts m :
  lf_queue n q O d xs ts m -> (n < fuel)%nat -> (length xs < fuel)%nat -> alloc_after_enter m ->
  tot (enqueue fuel tid q key) m (fun _ m' => queue_post n q O d xs m (map nk xs ++ [key]) m').
Proof.
  intros Hq Hf1 Hf2 Hmem. unfold enqueue. apply tot_bind. apply tot_loop_exit; [lia|]. apply tot_bind.
  eapply tot_mono; [apply tot_and; [exact Hmem|]|].
  { eapply (qat_enter _ _ _ _ _ _ _ _ _ _ _ _ (fun _ m' => exists O', qat m _ tid q [q] n O' d xs ts m'));
      [exact Hq|auto|]. eauto. }
  intros [] m1 [Hm1 (O1 & Hq1)]. apply tot_bind.
  eapply qat_alloc; [exact Hq1|auto|exact Hm1|]. intros p O2 m2 Hq2 Hp He.
  replace (p =? 0) with false by (symmetry; apply Z.eqb_neq; lia). apply tot_ret.
  eapply enqueue_tail; eauto. intros O3 m3 Hq3. eapply qat_post; [exact Hq3|by rewrite map_app|].
  rewrite length_app. simpl. lia.
Qed.

Lemma dw_enqueue_spec n q key O d xs ts m :
  lf_queue n q O d xs ts m -> (n < fuel)%nat -> (length xs < fuel)%nat -> alloc_after_enter m ->
  tot (queue_lf_dw.enqueue fuel tid q key) m (fun _ m' => queue_post n q O d xs m (map nk xs ++ [key]) m').
Proof.
  intros Hq Hf1 Hf2 Hmem. unfold queue_lf_dw.enqueue. apply tot_bind.
  eapply tot_mono; [apply tot_and; [exact Hmem|]|].
  { eapply (qat_enter _ _ _ _ _ _ _ _ _ _ _ _ (fun _ m' => exists O', qat m _ tid q [q] n O' d xs ts m'));
      [exact Hq|auto|]. eauto. }
  intros [] m1 [Hm1 (O1 & Hq1)]. apply tot_bind.
  eapply qat_alloc; [exact Hq1|auto|exact Hm1|]. intros p O2 m2 Hq2 Hp He.
  replace (p =? 0) with false by (symmetry; apply Z.eqb_neq; lia). apply tot_bind, tot_ret.
  eapply enqueue_tail; eauto. intros O3 m3 Hq3. eapply qat_post; [exact Hq3|by rewrite map_app|].
  rewrite length_app. simpl. lia.
Qed.

(** The head moved over the first element and the old dummy retired. *)
Lemma qat_pop m0 F q n O d x xs ts m (Q : unit -> mem -> Prop) :
  qat m0 F tid q [q] n O d (x :: xs) (x :: ts) m -> (n < fuel)%nat ->
  (forall O' m', qat m0 F tid q [q] (S n) O' (na x) xs ts m' -> Q tt m') ->
  tot (free_node_later fuel tid d) (upd m (q, Q_HEAD) (na x)) Q.
Proof.
  intros Hq Hf HQ. destruct (qat_ne _ _ _ _ _ _ _ _ _ _ _ Hq) as [Nq Nx].
  destruct Hq as [H1 H2 H3 H4 H5 H6 H7 (bs & Hbs) H9 H10].
  inversion H4 as [|? ? Hxm Hu]; subst. injection Hbs as ->. rewrite end_loc_cons in H7.
  destruct (linv_node _ _ _ [] _ _ _ H2) as (Hxn & _).
  assert (Hi : linv (d, NEXT) [q] O (x :: (ts ++ bs)) (upd m (q, Q_HEAD) (na x))) by (by apply linv_upd_scratch).
  destruct (linv_shift _ _ _ _ _ _ Hi Hxm) as (Hi' & Hd & HdO). simpl in Hd, HdO.
  assert (HqO : q ∉ O) by (eapply (linv_own _ _ _ _ _ H2), objs_scratch; auto).
  assert (Ho' : own tid n (upd m (q, Q_HEAD) (na x)) O) by (by apply own_upd).
  eapply tot_mono; [apply free_node_later_ok; [exact Ho'|exact Hf|by apply is_node_upd|exact HdO]|].
  intros [] m' (O' & Ho'' & HF). apply (HQ O').
  assert (HG : linv (na x, NEXT) [q] (O ∪ {[d]}) (ts ++ bs) (upd m (q, Q_HEAD) (na x))).
  { destruct Hi' as [I1 I2 I3 I4]. split; auto. intros b Hb. specialize (I3 b Hb).
    rewrite elem_of_union, elem_of_singleton. intros [?| ->]; auto. }
  assert (Hqn : q ∉ O ∪ {[d]}) by set_solver.
  assert (Hxn' : na x ∉ O ∪ {[d]}).
  { eapply (linv_own _ _ _ _ _ HG). apply (objs_head (na x, NEXT)). }
  split; auto.
  - eapply linv_frame; eauto.
  - eapply frame_trans; [exact H3|]. eapply frame_trans; [apply (fp_upd _ _ O _ (x :: (ts ++ bs)) _ (q, Q_HEAD) (na x))|].
    + rewrite elem_of_fp. right. apply (objs_scratch _ _ _ q), H10.
    + intros b Hb. rewrite elem_of_fp. auto.
    + eapply frame_weaken; [exact HF| |]; intros b; rewrite ?elem_of_union, !elem_of_fp, ?elem_of_singleton.
      * intros [?| ->]; [auto|]. right. apply (objs_head (d, NEXT)).
      * intros [?|Hb]; [auto|]. right. right. unfold objs in *. simpl in *.
        rewrite !elem_of_cons in *. tauto.
  - eapply frame_is_node; [exact HF|auto|]. by apply is_node_upd.
  - eapply frame_get_Some; [exact HF|auto|]. mget.
  - eapply frame_get_Some; [exact HF|auto|]. mget.
  - eauto.
  - eapply frame_is_struct; [exact HF|auto|]. by apply is_struct_upd.
Qed.

(** [dequeue] answers the oldest element, or -1 when there is none. *)
Lemma dequeue_spec n q O d xs ts m :
  lf_queue n q O d xs ts m -> (S n < fuel)%nat ->
  tot (dequeue fuel tid q) m (fun r m' =>
    r = match map nk xs with [] => -1 | k :: _ => k end /\
    queue_post n q O d xs m (tail (map nk xs)) m').
Proof.
  intros Hq Hf. unfold dequeue. apply tot_bind.
  eapply qat_enter; [exact Hq|lia|]. intros O1 m1 Hq1. apply tot_bind. unfold dequeue_loop.
  eapply (tot_loop (fun k _ m' => exists ts, k = (match ts with [] => 1 | _ => 0 end)%nat /\
    qat m (fp (d, NEXT) [q] O xs) tid q [q] n O1 d xs ts m')) with
    (n := (match ts with [] => 1 | _ => 0 end)%nat); [|destruct ts; lia|eauto].
  clear m1 ts Hq Hq1. intros k [] m1 (ts & -> & Hq).
  pose proof (qa_ts _ _ _ _ _ _ _ _ _ _ _ Hq) as [bs Hbs].
  pose proof Hq as [H1 H2 H3 H4 H5 H6 H7 H8 H9 H10].
  assert (Hnext : get m1 (d, NEXT) = Some (first_addr xs)).
  { apply (linv_at (d, NEXT) [q] O1 [] xs m1 H2). constructor. }
  psteps. rewrite Z.eqb_refl. simpl. destruct xs as [|x xs].
  - simpl. apply tot_ret. apply tot_bind. eapply qat_exit; [exact Hq|lia|]. intros O2 m2 Hq2.
    apply tot_ret. split; [auto|]. eapply qat_post; [exact Hq2|auto|simpl; lia].
  - destruct (linv_node _ _ _ [] _ _ _ H2) as (Hxn & Hxk & _). simpl first_addr.
    replace (na x =? 0) with false by (symmetry; apply Z.eqb_neq; by eapply is_node_nonnull).
    destruct ts as [|y ts].
    + unfold end_loc in *. simpl in *. rewrite Z.eqb_refl. apply tot_bind.
      eapply tot_CAS_true; [exact H7|]. apply tot_ret. exists 0%nat. split; [lia|]. exists [x].
      split; [auto|]. apply (qat_help _ _ _ _ _ _ _ _ [] x xs). exact Hq.
    + injection Hbs as <- ->. pose proof (qat_tail_ne _ _ _ _ _ _ _ _ _ _ _ _ Hq) as Hne.
      apply Z.eqb_neq in Hne as ->. psteps. eapply tot_CAS_true; [exact H6|]. apply tot_ret. apply tot_bind.
      eapply qat_pop; [exact Hq|lia|]. intros O2 m2 Hq2. apply tot_bind.
      eapply qat_exit; [exact Hq2|lia|]. intros O3 m3 Hq3. apply tot_ret. split; [auto|].
      eapply qat_post; [exact Hq3|auto|simpl; lia].
Qed.
End queue_lf_proofs.
