(* ===== verification/ListLock.v ===== *)
(** * The lists with a lock (list_spinlock.c, list_mcslock.c, list_null.c) and
    the lists with a lock for writers only (list_cr_ebr.c, list_cr_smr.c) *)
From S2P Require Export ListSmr.

(** [struct list] of list_spinlock.c and list_mcslock.c *)
Abbreviation SL_LOCK := 0 (only parsing).
Abbreviation SL_HEAD := 8 (only parsing).
Definition sizeof_slist : Z := 16.

Module list_spinlock.
Section code.
Context `{HM : Malloc, HA : Allocator}.
Variable fuel : nat.
Variable tid : Z.

Definition list_init : prog mem Z :=
  l <- mapmem sizeof_slist ;;
  store (l, SL_LOCK) SPIN_LOCK_UNLOCKED ;;
  store (l, SL_HEAD) NULL ;;
  Ret l.

Definition list_destroy (l : Z) : prog mem unit := free l.

(** [show] prints the keys; here it returns them. *)
Definition show (l : Z) : prog mem (list Z) :=
  cur <- load (l, SL_HEAD) ;;
  loop fuel (fun '(cur, out) =>
    if cur =? NULL then break out
    else
      k <- load (cur, KEY) ;;
      cur <- load (cur, NEXT) ;;
      continue (cur, out ++ [i32 k])) (cur, []).

Definition search (l key : Z) : prog mem bool :=
  spin_lock fuel (l, SL_LOCK) ;;
  cur <- load (l, SL_HEAD) ;;
  loop fuel (fun cur =>
    if cur =? NULL then
      spin_unlock (l, SL_LOCK) ;;
      break false
    else
      k <- load (cur, KEY) ;;
      if key <=? k then
        spin_unlock (l, SL_LOCK) ;;
        k <- load (cur, KEY) ;;
        break (k =? key)
      else
        cur <- load (cur, NEXT) ;;
        continue cur) cur.

Definition delete (l key : Z) : prog mem bool :=
  spin_lock fuel (l, SL_LOCK) ;;
  cur <- load (l, SL_HEAD) ;;
  loop fuel (fun '(prev, cur) =>
    if cur =? NULL then
      spin_unlock (l, SL_LOCK) ;;
      break false
    else
      k <- load (cur, KEY) ;;
      if k =? key then
        n <- load (cur, NEXT) ;;
        store prev n ;;
        free_node fuel tid cur ;;
        spin_unlock (l, SL_LOCK) ;;
        break true
      else
        n <- load (cur, NEXT) ;;
        continue ((cur, NEXT), n)) ((l, SL_HEAD), cur).

Definition insert (l key : Z) : prog mem bool :=
  spin_lock fuel (l, SL_LOCK) ;;
  cur <- load (l, SL_HEAD) ;;
  pc <- loop fuel (fun '(prev, cur) =>
    if cur =? NULL then break (prev, cur)
    else
      k <- load (cur, KEY) ;;
      if k <? key then
        cur <- load (cur, NEXT) ;;
        p <- load prev ;;
        continue ((p, NEXT), cur)
      else break (prev, cur)) ((l, SL_HEAD) : loc, cur) ;;
  let '(prev, cur) := pc in
  present <- (if cur =? NULL then Ret false
              else k <- load (cur, KEY) ;; Ret (k =? key)) ;;
  if present : bool then
    spin_unlock (l, SL_LOCK) ;;
    Ret false
  else
    newnode <- new_node fuel tid ;;
    store (newnode, KEY) key ;;
    store (newnode, NEXT) cur ;;
    store prev newnode ;;
    spin_unlock (l, SL_LOCK) ;;
    Ret true.
End code.
End list_spinlock.

(** [&this_thread()->mynode] is the queue node [nd] of the thread. *)
Module list_mcslock.
Section code.
Context `{HM : Malloc, HA : Allocator}.
Variable fuel : nat.
Variable tid : Z.
Variable nd : Z.

Definition list_init : prog mem Z :=
  l <- mapmem sizeof_slist ;;
  store (l, SL_LOCK) NULL ;;
  store (l, SL_HEAD) NULL ;;
  Ret l.

Definition list_destroy (l : Z) : prog mem unit := free l.

Definition show (l : Z) : prog mem (list Z) := list_spinlock.show fuel l.

Definition search (l key : Z) : prog mem bool :=
  mcs_lock fuel (l, SL_LOCK) nd ;;
  cur <- load (l, SL_HEAD) ;;
  loop fuel (fun cur =>
    if cur =? NULL then
      mcs_unlock fuel (l, SL_LOCK) nd ;;
      break false
    else
      k <- load (cur, KEY) ;;
      if key <=? k then
        mcs_unlock fuel (l, SL_LOCK) nd ;;
        k <- load (cur, KEY) ;;
        break (k =? key)
      else
        cur <- load (cur, NEXT) ;;
        continue cur) cur.

Definition delete (l key : Z) : prog mem bool :=
  mcs_lock fuel (l, SL_LOCK) nd ;;
  cur <- load (l, SL_HEAD) ;;
  loop fuel (fun '(prev, cur) =>
    if cur =? NULL then
      mcs_unlock fuel (l, SL_LOCK) nd ;;
      break false
    else
      k <- load (cur, KEY) ;;
      if k =? key then
        n <- load (cur, NEXT) ;;
        store prev n ;;
        free_node fuel tid cur ;;
        mcs_unlock fuel (l, SL_LOCK) nd ;;
        break true
      else
        n <- load (cur, NEXT) ;;
        continue ((cur, NEXT), n)) ((l, SL_HEAD), cur).

Definition insert (l key : Z) : prog mem bool :=
  mcs_lock fuel (l, SL_LOCK) nd ;;
  cur <- load (l, SL_HEAD) ;;
  pc <- loop fuel (fun '(prev, cur) =>
    if cur =? NULL then break (prev, cur)
    else
      k <- load (cur, KEY) ;;
      if k <? key then
        cur <- load (cur, NEXT) ;;
        p <- load prev ;;
        continue ((p, NEXT), cur)
      else break (prev, cur)) ((l, SL_HEAD) : loc, cur) ;;
  let '(prev, cur) := pc in
  present <- (if cur =? NULL then Ret false
              else k <- load (cur, KEY) ;; Ret (k =? key)) ;;
  if present : bool then
    mcs_unlock fuel (l, SL_LOCK) nd ;;
    Ret false
  else
    newnode <- new_node fuel tid ;;
    store (newnode, KEY) key ;;
    store (newnode, NEXT) cur ;;
    store prev newnode ;;
    mcs_unlock fuel (l, SL_LOCK) nd ;;
    Ret true.
End code.
End list_mcslock.

(** list_null.c: the operations do nothing and return no value. *)
Module list_null.
Definition list_init : prog mem unit := Ret tt.
Definition list_destroy (l : Z) : prog mem unit := Ret tt.
Definition search (l key : Z) : prog mem unit := Ret tt.
Definition delete (l key : Z) : prog mem unit := Ret tt.
Definition insert (l key : Z) : prog mem unit := Ret tt.
End list_null.

(** [struct list] of the list_cr files *)
Abbreviation CL_HEAD := 0 (only parsing).
Abbreviation CL_LOCK := 8 (only parsing).
Definition sizeof_clist : Z := 16.

(** [find] of the list_cr files, called with the lock held. *)
Definition cr_find (fuel : nat) (tid : Z) (head : loc) (key : Z) : prog mem bool :=
  cur <- load head ;;
  loop fuel (fun '(prev, cur) =>
    if cur =? NULL then
      set_prev tid prev ;;
      store (find_vars tid, T_CUR) cur ;;
      break false
    else
      k <- load (cur, KEY) ;;
      if key <=? k then
        set_prev tid prev ;;
        store (find_vars tid, T_CUR) cur ;;
        k <- load (cur, KEY) ;;
        break (k =? key)
      else
        n <- load (cur, NEXT) ;;
        continue ((cur, NEXT) : loc, n)) (head, cur).

Definition cr_list_init `{Malloc} : prog mem Z :=
  l <- mapmem sizeof_clist ;;
  store (l, CL_HEAD) NULL ;;
  store (l, CL_LOCK) SPIN_LOCK_UNLOCKED ;;
  Ret l.

Module list_cr_ebr.
Section code.
Context `{HM : Malloc, HA : Allocator, HR : Reclaimer, HE : Epochs}.
Variable fuel : nat.
Variable tid : Z.

Definition list_init : prog mem Z := cr_list_init.
Definition list_destroy (l : Z) : prog mem unit := free l.

Definition search (l key : Z) : prog mem bool :=
  critical_enter fuel tid ;;
  cur <- load (l, CL_HEAD) ;;
  loop fuel (fun cur =>
    if cur =? NULL then
      critical_exit fuel tid ;;
      break false
    else
      k <- load (cur, KEY) ;;
      if key <=? k then
        critical_exit fuel tid ;;
        k <- load (cur, KEY) ;;
        break (k =? key)
      else
        cur <- load (cur, NEXT) ;;
        continue cur) cur.

Definition find (head : loc) (key : Z) : prog mem bool := cr_find fuel tid head key.

Definition delete (l key : Z) : prog mem bool :=
  spin_lock fuel (l, CL_LOCK) ;;
  critical_enter fuel tid ;;
  found <- find (l, CL_HEAD) key ;;
  if negb found then
    critical_exit fuel tid ;;
    spin_unlock (l, CL_LOCK) ;;
    Ret false
  else
    cur <- load (find_vars tid, T_CUR) ;;
    n <- load (cur, NEXT) ;;
    prev <- get_prev tid ;;
    store prev n ;;
    cur <- load (find_vars tid, T_CUR) ;;
    free_node_later fuel tid cur ;;
    critical_exit fuel tid ;;
    spin_unlock (l, CL_LOCK) ;;
    Ret true.

Definition insert (l key : Z) : prog mem bool :=
  n <- new_node fuel tid ;;
  n <- loop fuel (fun n =>
    if n =? NULL then
      critical_enter fuel tid ;;
      critical_exit fuel tid ;;
      update_epoch fuel tid ;;
      n <- new_node fuel tid ;;
      continue n
    else break n) n ;;
  spin_lock fuel (l, CL_LOCK) ;;
  found <- find (l, CL_HEAD) key ;;
  if found : bool then
    spin_unlock (l, CL_LOCK) ;;
    free_node fuel tid n ;;
    Ret false
  else
    store (n, KEY) key ;;
    cur <- load (find_vars tid, T_CUR) ;;
    store (n, NEXT) cur ;;
    write_barrier ;;
    prev <- get_prev tid ;;
    store prev n ;;
    spin_unlock (l, CL_LOCK) ;;
    Ret true.
End code.
End list_cr_ebr.

Module list_cr_smr.
Section code.
Context `{HM : Malloc, HA : Allocator, HQ : Qsort}.
Variable fuel : nat.
Variable tid : Z.

Definition list_init : prog mem Z := cr_list_init.
Definition list_destroy (l : Z) : prog mem unit := free l.

Definition clean_pointer (p : Z) : Z := Z.land p (-2).

Definition search (l key : Z) : prog mem bool :=
  let base := i32 (tid * smr.K) in
  let head := (l, CL_HEAD) in
  loop fuel (fun st =>
    match st with
    | HTryAgain next off =>
        cur <- load head ;;
        continue (HScan head cur next off)
    | HScan prev cur next off =>
        if cur =? NULL then break false
        else
          (h <- smr.HP (base + off) ;; store h cur) ;;
          memory_barrier ;;
          pv <- load prev ;;
          if negb (pv =? cur) then continue (HTryAgain next off)
          else
            next <- load (cur, NEXT) ;;
            k <- load (cur, KEY) ;;
            if key <=? k then
              k <- load (cur, KEY) ;;
              break (k =? key)
            else continue (HScan (cur, NEXT) (clean_pointer next) next (1 - off))
    end) (HTryAgain NULL 0).

Definition find (head : loc) (key : Z) : prog mem bool := cr_find fuel tid head key.

Definition delete (l key : Z) : prog mem bool :=
  spin_lock fuel (l, CL_LOCK) ;;
  found <- find (l, CL_HEAD) key ;;
  if negb found then
    spin_unlock (l, CL_LOCK) ;;
    Ret false
  else
    cur <- load (find_vars tid, T_CUR) ;;
    next <- load (cur, NEXT) ;;
    cur <- load (find_vars tid, T_CUR) ;;
    n <- load (cur, NEXT) ;;
    store (cur, NEXT) (u64 (n + 1)) ;;
    prev <- get_prev tid ;;
    store prev next ;;
    cur <- load (find_vars tid, T_CUR) ;;
    smr.free_node_later fuel tid cur ;;
    spin_unlock (l, CL_LOCK) ;;
    Ret true.

Definition insert (l key : Z) : prog mem bool :=
  n <- new_node fuel tid ;;
  spin_lock fuel (l, CL_LOCK) ;;
  found <- find (l, CL_HEAD) key ;;
  if found : bool then
    spin_unlock (l, CL_LOCK) ;;
    free_node fuel tid n ;;
    Ret false
  else
    store (n, KEY) key ;;
    cur <- load (find_vars tid, T_CUR) ;;
    store (n, NEXT) cur ;;
    write_barrier ;;
    prev <- get_prev tid ;;
    store prev n ;;
    spin_unlock (l, CL_LOCK) ;;
    Ret true.
End code.
End list_cr_smr.

(** * Proofs *)

(** ** A list with a lock word

    [klat m0 F tid lk head n O xs m v]: the list [xs] at [head], without marks,
    with the lock word [lk] in the same structure holding [v]. *)
Section klat.
Context `{HA : Allocator, HR : Reclaimer, !ReclaimerLaws}.
Variables (fuel : nat) (tid : Z).
Implicit Types (m : mem) (head lk : loc) (O F : gset Z) (xs ys zs : list nd).

Definition klat m0 F lk head fs (n : nat) O xs m (v : Z) : Prop :=
  lat m0 F tid head fs n O xs m /\ unmarked xs /\ get m lk = Some v /\
  lk.1 = head.1 /\ lk <> head /\ inb m head = true.

Definition lock_list lk (n : nat) head O xs m : Prop :=
  lf_list tid n head O xs m /\ unmarked xs /\ get m lk = Some 0 /\ lk.1 = head.1 /\ lk <> head /\
  inb m head = true.

(** The contract of an operation: answer, new set, frame, lock free again. *)
Definition lock_post lk (n : nat) head O xs m (r : bool) (S' : gset Z) (r' : bool) (m' : mem) : Prop :=
  r' = r /\ exists n' O' xs', lock_list lk n' head O' xs' m' /\ key_set xs' = S' /\
    (n' + length xs' <= S (n + length xs))%nat /\
    frame (fp head [find_vars tid] O xs) m m' (fp head [find_vars tid] O' xs').

Lemma klat_post lk n head O xs m n' O' xs' m' r S' :
  klat m (fp head [find_vars tid] O xs) lk head [find_vars tid] n' O' xs' m' 0 ->
  key_set xs' = S' -> (n' + length xs' <= S (n + length xs))%nat ->
  lock_post lk n head O xs m r S' r m'.
Proof.
  intros ((Ho & Hi & Hf & _ & Hst) & Hu & Hg & Hl & Hne & Hb) HS Hn. split; auto.
  exists n', O', xs'. split_and!; auto. by split_and!.
Qed.

Lemma klat_start lk n head O xs m :
  lock_list lk n head O xs m ->
  klat m (fp head [find_vars tid] O xs) lk head [find_vars tid] n O xs m 0.
Proof. intros (Hl & Hu & Hg & H1 & H2 & H3). split; [by apply lf_start|auto]. Qed.

Lemma klat_word m0 F lk head fs n O xs m v w :
  klat m0 F lk head fs n O xs m v -> klat m0 F lk head fs n O xs (upd m lk w) w.
Proof.
  intros ((Ho & Hi & Hf & Ht & Hst) & Hu & Hg & Hl & Hne & Hb).
  assert (HO : lk.1 ∉ O) by (rewrite Hl; eapply linv_own; eauto using objs_head).
  split; [|split_and!; auto; [apply get_upd_eq; by apply live_get in Hg|by rewrite inb_upd]]. split_and!; auto.
  - by apply own_upd.
  - by apply linv_upd_lock.
  - eapply frame_trans; [exact Hf|]. apply fp_upd; intros; rewrite elem_of_fp; auto.
    right. rewrite Hl. apply objs_head.
Qed.

Lemma klat_lock m0 F lk head fs n O xs m (Q : unit -> mem -> Prop) :
  klat m0 F lk head fs n O xs m 0 -> (0 < fuel)%nat ->
  (forall m', klat m0 F lk head fs n O xs m' 1 -> Q tt m') -> tot (spin_lock fuel lk) m Q.
Proof.
  intros Hk Hf HQ. apply tot_spin_lock; [auto|apply Hk|]. apply HQ. by eapply klat_word.
Qed.

Lemma klat_unlock m0 F lk head fs n O xs m (Q : unit -> mem -> Prop) :
  klat m0 F lk head fs n O xs m 1 ->
  (forall m', klat m0 F lk head fs n O xs m' 0 -> Q tt m') -> tot (spin_unlock lk) m Q.
Proof. intros Hk HQ. apply tot_spin_unlock; [apply Hk|]. apply HQ. by eapply klat_word. Qed.

(** A step of the allocator or of the reclamation scheme. *)
Lemma klat_step m0 F lk head fs n n' O O' xs m m' v :
  klat m0 F lk head fs n O xs m v -> own tid n' m' O' -> frame O m m' O' ->
  klat m0 F lk head fs n' O' xs m' v.
Proof.
  intros (Hl & Hu & Hg & H1 & H2 & H3) Ho HF. split; [by eapply lat_step|].
  assert (HO : head.1 ∉ O) by (eapply linv_own; [apply Hl|apply objs_head]).
  split_and!; auto; [eapply frame_get_Some; [exact HF|by rewrite H1|exact Hg]|by eapply frame_inb].
Qed.

Lemma klat_alloc m0 F lk head fs n O xs m v (Q : Z -> mem -> Prop) :
  klat m0 F lk head fs n O xs m v -> (n < fuel)%nat ->
  tot (new_node fuel tid) m (fun p _ => p <> NULL) ->
  (forall p O' m', klat m0 F lk head (p :: fs) n O' xs m' v -> 0 < p < M64 -> p mod 2 = 0 -> Q p m') ->
  tot (new_node fuel tid) m Q.
Proof.
  intros (Hl & Hu & Hg & H1 & H2 & H3) Hn Hmem HQ. destruct Hl as (Ho & Hi & Hf & Ht & Hst).
  assert (HO : head.1 ∉ O) by (eapply linv_own; [exact Hi|apply objs_head]).
  pose proof (lat_start tid head fs n O xs m Ho Hi Ht Hst) as Hl'.
  pose proof (new_node_ok tid n m O fuel Ho Hn) as Hok.
  eapply tot_mono; [apply tot_and; [exact Hok|]|].
  { eapply (lat_alloc _ _ _ _ _ _ _ _ _ _ (fun p m' => exists O', lat m0 F tid head (p :: fs) n O' xs m' /\
      0 < p < M64 /\ p mod 2 = 0)); [by split_and!|exact Hn|exact Hmem|eauto]. }
  intros p m' ((O1 & _ & HF & _) & (O' & HL & Hp & He)). apply (HQ p O' m'); auto.
  split; [exact HL|]. split_and!; auto.
  - eapply frame_get_Some; [exact HF|by rewrite H1|auto].
  - by eapply frame_inb.
Qed.

Lemma klat_scratch m0 F lk head fs n O xs m v b off w :
  klat m0 F lk head fs n O xs m v -> b ∈ fs -> klat m0 F lk head fs n O xs (upd m (b, off) w) v.
Proof.
  intros (Hl & Hu & Hg & H1 & H2 & H3) Hb.
  assert (Hne : head.1 <> b) by (eapply linv_scratch_ne; [apply Hl|auto]).
  split; [by apply lat_scratch|]. split_and!; auto.
  - rewrite get_upd_ne; [auto|]. intros E. apply Hne. by rewrite <- H1, <- E.
  - by rewrite inb_upd.
Qed.

(** What a traversal reads. *)
Lemma klat_at m0 F lk head fs n O ys zs m v :
  klat m0 F lk head fs n O (ys ++ zs) m v ->
  get m (end_loc head ys) = Some (first_addr zs) /\ inb m (end_loc head ys) = true.
Proof.
  intros ((_ & Hi & _) & Hu & _ & _ & _ & Hb). apply Forall_app in Hu as [Hu _].
  destruct (linv_at _ _ _ _ _ _ Hi Hu) as [Hg _]. split; [auto|].
  unfold end_loc. destruct (last ys) as [y|] eqn:E; [|auto].
  apply last_Some in E as [ys' ->]. rewrite <- app_assoc in Hi. simpl in Hi.
  destruct (linv_node _ _ _ _ _ _ _ Hi) as (Hn & _). by eapply is_node_inb.
Qed.

Lemma klat_node m0 F lk head fs n O ys z zs m v :
  klat m0 F lk head fs n O (ys ++ (z :: zs)) m v ->
  (na z =? 0) = false /\ get m (na z, KEY) = Some (nk z) /\
  get m (na z, NEXT) = Some (first_addr zs) /\ is_node m (na z).
Proof.
  intros ((_ & Hi & _) & Hu & _).
  destruct (linv_node _ _ _ _ _ _ _ Hi) as (Hn & Hk & Hx & _).
  apply Forall_app in Hu as [Hu1 Hu2]. inversion Hu2 as [|? ? Hz _]; subst. rewrite Hz, Z.add_0_r in Hx.
  split_and!; auto. apply Z.eqb_neq. by eapply is_node_nonnull.
Qed.

(** The answer at the place where a traversal ends. *)
Lemma klat_found m0 F lk head fs n O ys zs m v key :
  klat m0 F lk head fs n O (ys ++ zs) m v -> (forall y, y ∈ ys -> nk y < key) ->
  match zs with [] => True | z :: _ => key <= nk z end ->
  lf_split key (ys ++ zs) = (ys, zs) /\
  bool_decide (key ∈ key_set (ys ++ zs)) = found key zs.
Proof.
  intros ((_ & _ & _ & _ & Hst) & Hu & _) Hlt Hge.
  pose proof (split_unmarked key ys zs Hu Hlt Hge) as Hs. split; [auto|].
  rewrite <- found_spec, Hs; auto.
Qed.

(** Linking a node where the traversal ended. *)
Lemma klat_link m0 F lk head p fs n O ys zs m v key :
  klat m0 F lk head (p :: fs) n O (ys ++ zs) m v -> find_vars tid ∈ fs -> 0 < p < M64 -> p mod 2 = 0 ->
  get m (p, KEY) = Some key -> get m (p, NEXT) = Some (first_addr zs) ->
  (forall y, y ∈ ys -> nk y < key) -> match zs with [] => True | z :: _ => key <= nk z end ->
  found key zs = false ->
  klat m0 F lk head fs n O (ys ++ (Nd p key false :: zs)) (upd m (end_loc head ys) p) v /\
  key_set (ys ++ (Nd p key false :: zs)) = {[key]} ∪ key_set (ys ++ zs).
Proof.
  intros Hkl Ht Hp He Hk Hx Hlt Hge Hfd. destruct (klat_found _ _ _ _ _ _ _ _ _ _ _ _ Hkl Hlt Hge) as [Hs _].
  pose proof Hkl as (Hl & Hu & Hg & H1 & H2 & H3). pose proof Hu as Hu'. apply Forall_app in Hu as [Hu1 Hu2].
  assert (Hsz : sorted (lf_split key (ys ++ zs)).2).
  { rewrite Hs. destruct Hl as (_ & _ & _ & _ & HS). apply sorted_app in HS. simpl. tauto. }
  split.
  - split; [apply lat_link; auto|].
    + intros z Hz. pose proof (split_gt key (ys ++ zs) z Hsz) as G. rewrite Hs in G. by apply G.
    + split_and!; auto.
      * apply Forall_app. split; [auto|]. by constructor.
      * rewrite get_upd_ne; [auto|]. intros E. unfold end_loc in E. destruct (last ys) as [y|] eqn:El; [|done].
        apply last_Some in El as [ys' ->]. destruct (linv_nodup_nodes _ _ _ _ _ (proj1 (proj2 Hl))) as [_ Hhd].
        apply Hhd. rewrite <- H1, <- E. simpl. apply list_elem_of_fmap. exists y. set_solver.
      * by rewrite inb_upd.
  - pose proof (split_insert key p (ys ++ zs)) as G. by rewrite Hs in G.
Qed.

(** Unlinking a node and giving it back. *)
Lemma klat_unlinked_pre m0 F lk head fs n O ys z zs m v :
  klat m0 F lk head fs n O (ys ++ (z :: zs)) m v ->
  let m' := upd m (end_loc head ys) (first_addr zs) in
  own tid n m' O /\ is_node m' (na z) /\ (na z ∉ O).
Proof.
  intros ((Ho & Hi & Hf & Ht & Hst) & Hu & _). apply Forall_app in Hu as [Hu1 _].
  pose proof (linv_lseg _ _ _ _ _ _ Hi Hu1) as Hl. pose proof (linv_at _ _ _ _ _ _ Hi Hu1) as [_ Hp].
  destruct (linv_unlink _ _ _ _ _ _ _ _ Hi Hl) as (Hi' & _ & Hzn & HzO & Hzo).
  simpl. split_and!; auto. apply own_upd; auto.
  eapply linv_own; [exact Hi'|]. rewrite objs_app, elem_of_app. auto.
Qed.

Lemma klat_unlinked m0 F lk head fs n n' O O' ys z zs m m' v :
  klat m0 F lk head fs n O (ys ++ (z :: zs)) m v ->
  own tid n' m' O' -> frame (O ∪ {[na z]}) (upd m (end_loc head ys) (first_addr zs)) m' O' ->
  klat m0 F lk head fs n' O' (ys ++ zs) m' v /\
  key_set (ys ++ zs) = key_set (ys ++ (z :: zs)) ∖ {[nk z]}.
Proof.
  intros ((Ho & Hi & Hf & Ht & Hst) & Hu & Hg & H1 & H2 & H3) Ho' HF.
  pose proof Hu as Hu'. apply Forall_app in Hu as [Hu1 Hu2]. inversion Hu2 as [|? ? Hz Hu3]; subst.
  pose proof (linv_lseg _ _ _ _ _ _ Hi Hu1) as Hl. pose proof (linv_at _ _ _ _ _ _ Hi Hu1) as [_ Hp].
  destruct (linv_unlink _ _ _ _ _ _ _ _ Hi Hl) as (Hi' & _ & Hzn & HzO & Hzo).
  assert (HG : linv head fs (O ∪ {[na z]}) (ys ++ zs) (upd m (end_loc head ys) (first_addr zs))).
  { destruct Hi' as [I1 I2 I3 I4]. split; auto. intros b Hb. specialize (I3 b Hb).
    rewrite elem_of_union, elem_of_singleton. intros [?| ->]; auto. }
  assert (HhO : head.1 ∉ O ∪ {[na z]}) by (eapply linv_own; [exact HG|apply objs_head]).
  assert (Hsub : forall b, b ∈ objs head fs (ys ++ zs) -> b ∈ objs head fs (ys ++ (z :: zs))).
  { intros b. rewrite !objs_app, !elem_of_app. cbn [map]. rewrite elem_of_cons. tauto. }
  split; [|by apply split_delete]. split; [split_and!; auto|split_and!; auto].
  - eapply linv_frame; eauto.
  - eapply frame_trans; [exact Hf|]. eapply frame_trans.
    + apply (fp_upd _ _ O _ (ys ++ (z :: zs)) _ (end_loc head ys) (first_addr zs));
        [|intros; rewrite elem_of_fp; auto]. rewrite elem_of_fp, objs_app, elem_of_app. auto.
    + eapply fp_retire; eauto. apply objs_node. set_solver.
  - by eapply sorted_unlink.
  - by apply Forall_app.
  - eapply frame_get_Some; [exact HF|by rewrite H1|]. rewrite get_upd_ne; [auto|].
    intros E. unfold end_loc in E. destruct (last ys) as [y|] eqn:El; [|done].
    apply last_Some in El as [ys' ->]. destruct (linv_nodup_nodes _ _ _ _ _ Hi) as [_ Hhd].
    apply Hhd. rewrite <- H1, <- E. simpl. apply list_elem_of_fmap. exists y. set_solver.
  - eapply frame_inb; [exact HF|auto|]. by rewrite inb_upd.
Qed.
End klat.

Section list_spinlock_proofs.
Context `{HM : Malloc, HA : Allocator, HR : Reclaimer, !ReclaimerLaws}.
Import list_spinlock.
Variables (fuel : nat) (tid : Z).
Implicit Types (m : mem) (O F : gset Z) (xs ys zs : list nd).

(** The state of a traversal with the lock held. *)
Definition scan_at m0 F (l : Z) (key : Z) (n : nat) O xs (k : nat) ys zs m : Prop :=
  k = length zs /\ xs = ys ++ zs /\ (forall y, y ∈ ys -> nk y < key) /\
  klat tid m0 F (l, SL_LOCK) (l, SL_HEAD) [find_vars tid] n O xs m 1.

Lemma scan_next m0 F l key n O xs k ys z zs m :
  scan_at m0 F l key n O xs k ys (z :: zs) m -> nk z < key ->
  scan_at m0 F l key n O xs (length zs) (ys ++ [z]) zs m.
Proof.
  intros (-> & -> & Hlt & Hk) Hz. split_and!; auto.
  - by rewrite <- app_assoc.
  - intros y [Hy| ->%list_elem_of_singleton]%elem_of_app; auto.
Qed.

Lemma spin_search_spec n l key O xs m :
  lock_list tid (l, SL_LOCK) n (l, SL_HEAD) O xs m -> (length xs < fuel)%nat ->
  tot (search fuel l key) m
    (lock_post tid (l, SL_LOCK) n (l, SL_HEAD) O xs m (bool_decide (key ∈ key_set xs)) (key_set xs)).
Proof.
  intros Hl Hf. unfold search. apply tot_bind.
  eapply klat_lock; [by apply klat_start|lia|]. intros m1 H1.
  pose proof (klat_at _ _ _ _ _ _ _ _ [] xs _ _ H1) as [Hh _].
  apply tot_bind. eapply tot_load; [exact Hh|].
  eapply (tot_loop (fun k cur m' => exists ys zs, cur = first_addr zs /\
    scan_at m (fp (l, SL_HEAD) [find_vars tid] O xs) l key n O xs k ys zs m')) with (n := length xs);
    [|auto|exists [], xs; split; [auto|]; split_and!; [auto|auto|set_solver|exact H1]].
  clear m1 H1 Hh. intros k cur m1 (ys & zs & -> & Hs). pose proof Hs as (-> & -> & Hlt & Hk).
  destruct zs as [|z zs]; simpl.
  - destruct (klat_found _ _ _ _ _ _ _ _ _ _ _ _ _ Hk Hlt I) as [_ ->].
    apply tot_bind. eapply klat_unlock; [exact Hk|]. intros m2 H2. apply tot_ret.
    eapply klat_post; [exact H2|auto|lia].
  - destruct (klat_node _ _ _ _ _ _ _ _ _ _ _ _ _ Hk) as (-> & Hzk & Hzx & _). psteps.
    destruct (Z.leb_spec key (nk z)) as [Hle|Hgt].
    + destruct (klat_found _ _ _ _ _ _ _ _ _ _ _ _ _ Hk Hlt Hle) as [_ ->].
      apply tot_bind. eapply klat_unlock; [exact Hk|]. intros m2 H2.
      destruct (klat_node _ _ _ _ _ _ _ _ _ _ _ _ _ H2) as (_ & Hzk2 & _). psteps.
      eapply klat_post; [exact H2|auto|lia].
    + psteps. exists (length zs). split; [lia|]. exists (ys ++ [z]), zs. split; [auto|]. by eapply scan_next.
Qed.

Lemma spin_delete_spec n l key O xs m :
  lock_list tid (l, SL_LOCK) n (l, SL_HEAD) O xs m -> (n + length xs < fuel)%nat ->
  tot (delete fuel tid l key) m
    (lock_post tid (l, SL_LOCK) n (l, SL_HEAD) O xs m (bool_decide (key ∈ key_set xs)) (key_set xs ∖ {[key]})).
Proof.
  intros Hl Hf. unfold delete. apply tot_bind.
  eapply klat_lock; [by apply klat_start|lia|]. intros m1 H1.
  pose proof (klat_at _ _ _ _ _ _ _ _ [] xs _ _ H1) as [Hh _].
  apply tot_bind. eapply tot_load; [exact Hh|].
  eapply (tot_loop (fun k st m' => exists ys zs, st = (end_loc (l, SL_HEAD) ys, first_addr zs) /\
    k = length zs /\ xs = ys ++ zs /\ (forall y, y ∈ ys -> nk y <> key) /\
    klat tid m (fp (l, SL_HEAD) [find_vars tid] O xs) (l, SL_LOCK) (l, SL_HEAD) [find_vars tid] n O xs m' 1)) with (n := length xs);
    [|lia|exists [], xs; split_and!; [auto|auto|auto|set_solver|exact H1]].
  clear m1 H1 Hh. intros k st m1 (ys & zs & -> & -> & -> & Hne & Hk).
  assert (Hu : unmarked (ys ++ zs)) by apply Hk.
  destruct zs as [|z zs]; simpl.
  - assert (Hin : key ∉ key_set (ys ++ [])).
    { rewrite app_nil_r, elem_of_key_set. intros (x & Hx & _ & E). by apply (Hne x). }
    rewrite bool_decide_eq_false_2 by auto.
    apply tot_bind. eapply klat_unlock; [exact Hk|]. intros m2 H2. apply tot_ret.
    eapply klat_post; [exact H2|set_solver|lia].
  - destruct (klat_node _ _ _ _ _ _ _ _ _ _ _ _ _ Hk) as (-> & Hzk & Hzx & Hzn). psteps.
    destruct (Z.eqb_spec (nk z) key) as [<-|Hzne].
    + destruct (klat_at _ _ _ _ _ _ _ _ ys (z :: zs) _ _ Hk) as [_ Hib]. psteps.
      assert (Hin : nk z ∈ key_set (ys ++ (z :: zs))).
      { apply elem_of_key_set. exists z. split; [set_solver|]. apply Forall_app in Hu as [_ Hu].
        by inversion Hu. }
      rewrite bool_decide_eq_true_2 by auto.
      destruct (klat_unlinked_pre tid _ _ _ _ _ _ _ _ _ _ _ _ Hk) as (P1 & P2 & P3).
      eapply tot_mono; [apply free_node_ok; [exact P1|lia|exact P2|exact P3]|].
      intros [] m2 (O2 & Ho2 & HF). destruct (klat_unlinked _ _ _ _ _ _ _ _ _ _ _ _ _ _ _ _ Hk Ho2 HF) as [H2 HS].
      apply tot_bind. eapply klat_unlock; [exact H2|]. intros m3 H3. apply tot_ret.
      eapply klat_post; [exact H3|auto|]. rewrite !length_app. simpl. lia.
    + psteps. exists (length zs). split; [lia|]. exists (ys ++ [z]), zs. rewrite end_loc_snoc.
      split_and!; auto.
      * by rewrite <- app_assoc.
      * intros y [Hy| ->%list_elem_of_singleton]%elem_of_app; auto.
Qed.

(** Where memory is available, [insert] adds the key. *)
Lemma spin_insert_spec n l key O xs m :
  lock_list tid (l, SL_LOCK) n (l, SL_HEAD) O xs m -> (n + length xs < fuel)%nat ->
  tot (new_node fuel tid) (upd m (l, SL_LOCK) 1) (fun p _ => p <> NULL) ->
  tot (insert fuel tid l key) m
    (lock_post tid (l, SL_LOCK) n (l, SL_HEAD) O xs m
       (negb (bool_decide (key ∈ key_set xs))) ({[key]} ∪ key_set xs)).
Proof.
  intros Hl Hf Hmem. unfold insert. apply tot_bind.
  pose proof (klat_start _ _ _ _ _ _ _ Hl) as H0. apply tot_spin_lock; [lia|apply H0|].
  apply (klat_word _ _ _ _ _ _ _ _ _ _ _ 1) in H0 as H1. clear H0.
  set (m1 := upd m (l, SL_LOCK) 1) in *.
  pose proof (klat_at _ _ _ _ _ _ _ _ [] xs _ _ H1) as [Hh _].
  apply tot_bind. eapply tot_load; [exact Hh|]. apply tot_bind.
  eapply (tot_loop (fun k st m' => exists ys zs, st = (end_loc (l, SL_HEAD) ys, first_addr zs) /\
    m' = m1 /\ scan_at m (fp (l, SL_HEAD) [find_vars tid] O xs) l key n O xs k ys zs m')) with (n := length xs);
    [|lia|exists [], xs; split_and!; [auto|auto|]; split_and!; [auto|auto|set_solver|exact H1]].
  clear H1 Hh. intros k st m' (ys & zs & -> & -> & Hs). pose proof Hs as (-> & -> & Hlt & Hk).
  assert (Hdone : match zs with [] => True | z :: _ => key <= nk z end ->
    tot (present <- (if first_addr zs =? NULL then Ret false
              else k <- load (first_addr zs, KEY) ;; Ret (k =? key)) ;;
         if present : bool then spin_unlock (l, SL_LOCK) ;; Ret false
         else
           newnode <- new_node fuel tid ;;
           store (newnode, KEY) key ;;
           store (newnode, NEXT) (first_addr zs) ;;
           store (end_loc (l, SL_HEAD) ys) newnode ;;
           spin_unlock (l, SL_LOCK) ;;
           Ret true) m1
      (lock_post tid (l, SL_LOCK) n (l, SL_HEAD) O (ys ++ zs) m
       (negb (bool_decide (key ∈ key_set (ys ++ zs)))) ({[key]} ∪ key_set (ys ++ zs)))).
  { intros Hge. destruct (klat_found _ _ _ _ _ _ _ _ _ _ _ _ _ Hk Hlt Hge) as [Hsp Hfd].
    apply tot_bind. assert (Hpres : tot (if first_addr zs =? NULL then Ret false
              else k <- load (first_addr zs, KEY) ;; Ret (k =? key)) m1 (fun r m' => r = found key zs /\ m' = m1)).
    { destruct zs as [|z zs]; [by apply tot_ret|].
      destruct (klat_node _ _ _ _ _ _ _ _ _ _ _ _ _ Hk) as (E & Hzk & _). simpl. rewrite E. by psteps. }
    eapply tot_mono; [exact Hpres|]. intros r m' [-> ->]. rewrite Hfd. destruct (found key zs) eqn:Ef.
    - apply tot_bind. eapply klat_unlock; [exact Hk|]. intros m2 H2. apply tot_ret.
      eapply klat_post; [exact H2| |lia]. apply bool_decide_eq_true in Hfd. set_solver.
    - apply tot_bind. eapply klat_alloc; [exact Hk|lia|exact Hmem|]. intros p O2 m2 H2 Hp He.
      assert (Hst : is_struct m2 p 32). { eapply linv_scratch; [apply H2|left]. }
      assert (Hib : inb m2 (end_loc (l, SL_HEAD) ys) = true) by (eapply klat_at; exact H2). psteps.
      set (m3 := upd (upd m2 (p, KEY) key) (p, NEXT) (first_addr zs)).
      assert (H3 : klat tid m (fp (l, SL_HEAD) [find_vars tid] O (ys ++ zs)) (l, SL_LOCK) (l, SL_HEAD)
        (p :: [find_vars tid]) n O2 (ys ++ zs) m3 1) by (do 2 (apply klat_scratch; [|left]); exact H2).
      destruct (klat_link _ _ _ _ _ _ _ _ _ _ _ _ _ _ H3 ltac:(left) Hp He ltac:(unfold m3; mget) ltac:(unfold m3; mget)
        Hlt Hge Ef) as [H4 HS].
      eapply klat_unlock; [exact H4|]. intros m5 H5. apply tot_ret.
      eapply klat_post; [exact H5|auto|]. rewrite !length_app. simpl. lia. }
  destruct zs as [|z zs].
  - simpl. apply tot_ret. by apply Hdone.
  - destruct (klat_node _ _ _ _ _ _ _ _ _ _ _ _ _ Hk) as (E & Hzk & Hzx & Hzn). simpl first_addr in *. rewrite E.
    destruct (klat_at _ _ _ _ _ _ _ _ ys (z :: zs) _ _ Hk) as [Hat _]. simpl in Hat. psteps.
    destruct (Z.ltb_spec (nk z) key) as [Hlt'|Hge].
    + psteps. exists (length zs). split; [simpl; lia|]. exists (ys ++ [z]), zs. rewrite end_loc_snoc.
      split_and!; [auto|auto|]. by eapply scan_next.
    + apply tot_ret. apply Hdone. lia.
Qed.
End list_spinlock_proofs.

(** ** A race in list_spinlock.c

    [search] reads [cur->key] once more after it released the lock; another
    thread may have deleted and freed the node by then. *)
Definition race_setup : outcome (Z * mem) :=
  run (l <- list_spinlock.list_init ;;
       _ <- list_spinlock.insert (HA := allocator_malloc.ops) 5 0 l 7 ;;
       Ret l) (static_mem 2).

Definition race (sched : list nat) : outcome (list (option bool)) :=
  match race_setup with
  | Ok (l, m) =>
      match exec sched [list_spinlock.search 5 l 7;
                        list_spinlock.delete (HA := allocator_malloc.ops) 5 1 l 7] m with
      | Ok (ps, _) => Ok (map finished ps)
      | Err e => Err e
      end
  | Err e => Err e
  end.

(** Thread 0 up to its unlock, all of thread 1, then thread 0 again. *)
Definition race_sched : list nat := replicate 4 O ++ replicate 9 1%nat ++ [O].

Lemma race_free : race (replicate 5 O ++ replicate 9 1%nat) = Ok [Some true; Some true].
Proof. vm_compute. reflexivity. Qed.

Lemma race_bad : race race_sched = Err EAccess.
Proof. vm_compute. reflexivity. Qed.
