(* ===== verification/Lfrc.v ===== *)
(** * Lock-free reference counting (lfrc.c, list_lf_lfrc.c, list_cr_lfrc.c,
    queue_lf_lfrc.c)

    The lowest bit of [refcnt] is the claim bit, 1 iff the node is free; the
    other bits count the references. *)
From S2P Require Export ListLock QueueLf.

Module lfrc.
Section code.
Context `{HM : Malloc}.
Variable fuel : nat.

Definition PT_FREELIST_TARGET : Z := 100.

Definition mr_init : prog mem unit := Ret tt.
Definition mr_thread_exit : prog mem unit := Ret tt.
Definition mr_reinitialize : prog mem unit := Ret tt.

Definition decrement_and_TAS (p : loc) : prog mem Z :=
  loop fuel (fun _ : unit =>
    old <- load p ;;
    let new := u64 (old - 2) in
    let new := if new =? 0 then 1 else new in
    ok <- CAS p old new ;;
    if ok : bool then break (Z.land (u64 (old - new)) 1) else continue tt) tt.

Definition clear_lowest_bit (p : loc) : prog mem unit :=
  loop fuel (fun _ : unit =>
    old <- load p ;;
    let new := u64 (old - 1) in
    ok <- CAS p old new ;;
    if ok : bool then break tt else continue tt) tt.

Definition free_node (p : Z) : prog mem unit :=
  store (p, NEXT) 3146496 ;;
  loop fuel (fun _ : unit =>
    old <- load (GLOBALS, G_FREELIST) ;;
    f <- load (GLOBALS, G_FREELIST) ;;
    store (p, MR_NEXT) f ;;
    (if negb (Z.land p 1 =? 0) then loop fuel (fun _ : unit => continue tt) tt else Ret tt) ;;
    ok <- CAS (GLOBALS, G_FREELIST) old p ;;
    if ok : bool then break tt else continue tt) tt.

(** The recursion on [p->next] is cut by [depth]. *)
Fixpoint refcnt_dec (depth : nat) (p : Z) : prog mem unit :=
  match depth with
  | O => Stop EFuel
  | S depth' =>
      let p := Z.land p (-2) in
      if p =? NULL then Ret tt
      else
        memory_barrier ;;
        r <- decrement_and_TAS (p, REFCNT) ;;
        if r =? 0 then Ret tt
        else
          n <- load (p, NEXT) ;;
          store (p, NEXT) (Z.land n (-2)) ;;
          n <- load (p, NEXT) ;;
          refcnt_dec depth' n ;;
          free_node p
  end.

Definition lfrc_refcnt_dec (p : Z) : prog mem unit := refcnt_dec fuel p.

Definition lfrc_refcnt_inc (p : Z) : prog mem unit :=
  if p =? NULL then Ret tt
  else
    _ <- atomic_xadd4 (p, REFCNT) 2 ;;
    memory_barrier.

Definition safe_read (p : loc) : prog mem Z :=
  loop fuel (fun _ : unit =>
    q <- load p ;;
    let safe := Z.land q (-2) in
    if safe =? NULL then break q
    else
      _ <- atomic_xadd4 (safe, REFCNT) 2 ;;
      memory_barrier ;;
      q' <- load p ;;
      if q =? q' then break q
      else
        lfrc_refcnt_dec safe ;;
        continue tt) tt.

Definition new_node : prog mem Z :=
  loop fuel (fun _ : unit =>
    p <- safe_read (GLOBALS, G_FREELIST) ;;
    if p =? NULL then exit_ (-1)
    else
      n <- load (p, MR_NEXT) ;;
      ok <- CAS (GLOBALS, G_FREELIST) p n ;;
      if ok : bool then
        clear_lowest_bit (p, REFCNT) ;;
        break p
      else
        lfrc_refcnt_dec p ;;
        continue tt) tt.

Definition init_allocator : prog mem unit :=
  n <- load (PARAMS, P_N_ELEMENTS) ;;
  let nelementsfree := u32 (n + 2 * MAX_THREADS * PT_FREELIST_TARGET + MAX_THREADS * 1000) in
  store (GLOBALS, G_FREELIST) NULL ;;
  shdmem <- malloc_array (Z.to_nat nelementsfree) sizeof_node_t ;;
  if shdmem =? NULL then exit_ (-1)
  else
    forz (Z.to_nat nelementsfree) 0 (fun i =>
      let p := shdmem + i * sizeof_node_t in
      store (p, KEY) (-1) ;;
      store (p, NEXT) NULL ;;
      store (p, MR_NEXT) NULL ;;
      store (p, REFCNT) 1 ;;
      free_node p).
End code.
End lfrc.

(** ** list_lf_lfrc.c *)

(** [static __thread node_t *refs[3]] in the thread's local storage. *)
Abbreviation L_REFS := 1616 (only parsing).


Module list_lf_lfrc.
Section code.
Context `{HM : Malloc}.
Variable fuel : nat.
Variable tid : Z.

Definition refs (i : Z) : loc := (tls tid, L_REFS + 8 * i).

Definition release_temp_refs : prog mem unit :=
  r <- load (refs 0) ;; lfrc.lfrc_refcnt_dec fuel r ;;
  r <- load (refs 1) ;; lfrc.lfrc_refcnt_dec fuel r ;;
  r <- load (refs 2) ;; lfrc.lfrc_refcnt_dec fuel r ;;
  store (refs 2) NULL ;; store (refs 1) NULL ;; store (refs 0) NULL.

Definition list_init : prog mem Z :=
  l <- mapmem 8 ;;
  store (l, LIST_HEAD) NULL ;;
  Ret l.

Definition list_destroy (l : Z) : prog mem unit := free l.

(** The start of a traversal; [ref0], [ref1], [ref2] keep their values over
    [goto try_again]. *)
Definition start (head ref0 ref1 ref2 : loc) : prog mem Z :=
  store ref2 NULL ;; store ref1 NULL ;; store ref0 NULL ;;
  cur <- lfrc.safe_read fuel head ;;
  store ref2 cur ;;
  Ret cur.

Definition find (head : loc) (key : Z) : prog mem bool :=
  cur <- start head (refs 0) (refs 1) (refs 2) ;;
  loop fuel (fun st =>
    let '(prev, cur, next, ref0, ref1, ref2) := st in
    if cur =? NULL then
      store (find_vars tid, T_CUR) cur ;;
      set_prev tid prev ;;
      store (find_vars tid, T_NEXT) next ;;
      break false
    else
      next <- lfrc.safe_read fuel (cur, NEXT) ;;
      r <- load ref0 ;;
      lfrc.lfrc_refcnt_dec fuel r ;;
      store ref0 next ;;
      if negb (Z.land next 1 =? 0) then
        ok <- CAS prev cur (next - 1) ;;
        if negb ok then
          release_temp_refs ;;
          cur <- start head ref0 ref1 ref2 ;;
          continue (head, cur, next, ref0, ref1, ref2)
        else
          lfrc.lfrc_refcnt_dec fuel cur ;;
          continue (prev, next - 1, next - 1, ref0, ref1, ref2)
      else
        pv <- load prev ;;
        if negb (pv =? cur) then
          release_temp_refs ;;
          cur <- start head ref0 ref1 ref2 ;;
          continue (head, cur, next, ref0, ref1, ref2)
        else
          k <- load (cur, KEY) ;;
          if key <=? k then
            store (find_vars tid, T_CUR) cur ;;
            set_prev tid prev ;;
            store (find_vars tid, T_NEXT) next ;;
            k <- load (cur, KEY) ;;
            break (k =? key)
          else continue ((cur, NEXT) : loc, next, next, ref1, ref2, ref0))
    (head, cur, NULL, refs 0, refs 1, refs 2).

Definition insert (l key : Z) : prog mem bool :=
  let head := (l, LIST_HEAD) in
  n <- lfrc.new_node fuel ;;
  loop fuel (fun _ : unit =>
    found <- find head key ;;
    if found : bool then
      store (n, NEXT) NULL ;;
      lfrc.lfrc_refcnt_dec fuel n ;;
      release_temp_refs ;;
      break false
    else
      store (n, KEY) key ;;
      cur <- load (find_vars tid, T_CUR) ;;
      store (n, NEXT) cur ;;
      write_barrier ;;
      prev <- get_prev tid ;;
      cur <- load (find_vars tid, T_CUR) ;;
      ok <- CAS prev cur n ;;
      if ok : bool then
        release_temp_refs ;;
        break true
      else
        release_temp_refs ;;
        continue tt) tt.

Definition delete (l key : Z) : prog mem bool :=
  let head := (l, LIST_HEAD) in
  loop fuel (fun _ : unit =>
    found <- find head key ;;
    if negb found then
      release_temp_refs ;;
      break false
    else
      next <- load (find_vars tid, T_NEXT) ;;
      lfrc.lfrc_refcnt_inc next ;;
      cur <- load (find_vars tid, T_CUR) ;;
      next <- load (find_vars tid, T_NEXT) ;;
      ok <- CAS (cur, NEXT) next (u64 (next + 1)) ;;
      if negb ok then
        release_temp_refs ;;
        continue tt
      else
        write_barrier ;;
        prev <- get_prev tid ;;
        cur <- load (find_vars tid, T_CUR) ;;
        next <- load (find_vars tid, T_NEXT) ;;
        ok <- CAS prev cur next ;;
        (if ok : bool then
           cur <- load (find_vars tid, T_CUR) ;;
           lfrc.lfrc_refcnt_dec fuel cur
         else Ret tt) ;;
        release_temp_refs ;;
        break true) tt.

Definition search (l key : Z) : prog mem bool :=
  let head := (l, LIST_HEAD) in
  cur <- start head (refs 0) (refs 1) (refs 2) ;;
  loop fuel (fun st =>
    let '(prev, cur, next, ref0, ref1, ref2) := st in
    if cur =? NULL then
      release_temp_refs ;;
      break false
    else
      next <- lfrc.safe_read fuel (cur, NEXT) ;;
      r <- load ref0 ;;
      lfrc.lfrc_refcnt_dec fuel r ;;
      store ref0 next ;;
      if negb (Z.land next 1 =? 0) then
        ok <- CAS prev cur (next - 1) ;;
        if negb ok then
          release_temp_refs ;;
          cur <- start head ref0 ref1 ref2 ;;
          continue (head, cur, next, ref0, ref1, ref2)
        else
          lfrc.lfrc_refcnt_dec fuel cur ;;
          continue (prev, next - 1, next - 1, ref0, ref1, ref2)
      else
        pv <- load prev ;;
        if negb (pv =? cur) then
          release_temp_refs ;;
          cur <- start head ref0 ref1 ref2 ;;
          continue (head, cur, next, ref0, ref1, ref2)
        else
          k <- load (cur, KEY) ;;
          if key <=? k then
            k <- load (cur, KEY) ;;
            let retval := k =? key in
            release_temp_refs ;;
            break retval
          else continue ((cur, NEXT) : loc, next, next, ref1, ref2, ref0))
    (head, cur, NULL, refs 0, refs 1, refs 2).
End code.
End list_lf_lfrc.

(** ** list_cr_lfrc.c: [refs] is one global array *)
Module list_cr_lfrc.
Section code.
Context `{HM : Malloc}.
Variable fuel : nat.
Variable tid : Z.

Definition refs (i : Z) : loc := (GLOBALS, G_REFS + 8 * i).

Definition release_temp_refs : prog mem unit :=
  r <- load (refs 0) ;; lfrc.lfrc_refcnt_dec fuel r ;;
  r <- load (refs 1) ;; lfrc.lfrc_refcnt_dec fuel r ;;
  r <- load (refs 2) ;; lfrc.lfrc_refcnt_dec fuel r ;;
  store (refs 2) NULL ;; store (refs 1) NULL ;; store (refs 0) NULL.

Definition list_init : prog mem Z := cr_list_init.
Definition list_destroy (l : Z) : prog mem unit := free l.

Definition start (head ref0 ref1 ref2 : loc) : prog mem Z :=
  store ref2 NULL ;; store ref1 NULL ;; store ref0 NULL ;;
  cur <- lfrc.safe_read fuel head ;;
  store ref2 cur ;;
  Ret cur.

Definition search (l key : Z) : prog mem bool :=
  let head := (l, CL_HEAD) in
  cur <- start head (refs 0) (refs 1) (refs 2) ;;
  loop fuel (fun st =>
    let '(prev, cur, ref0, ref1, ref2) := st in
    if cur =? NULL then
      release_temp_refs ;;
      break false
    else
      next <- lfrc.safe_read fuel (cur, NEXT) ;;
      r <- load ref0 ;;
      lfrc.lfrc_refcnt_dec fuel r ;;
      store ref0 next ;;
      pv <- load prev ;;
      if negb (pv =? cur) then
        release_temp_refs ;;
        cur <- start head ref0 ref1 ref2 ;;
        continue (head, cur, ref0, ref1, ref2)
      else
        k <- load (cur, KEY) ;;
        if key <=? k then
          k <- load (cur, KEY) ;;
          let retval := k =? key in
          release_temp_refs ;;
          break retval
        else continue ((cur, NEXT) : loc, next, ref1, ref2, ref0))
    (head, cur, refs 0, refs 1, refs 2).

Definition find (head : loc) (key : Z) : prog mem bool := cr_find fuel tid head key.

Definition delete (l key : Z) : prog mem bool :=
  spin_lock fuel (l, CL_LOCK) ;;
  found <- find (l, CL_HEAD) key ;;
  if negb found then
    spin_unlock (l, CL_LOCK) ;;
    Ret false
  else
    cur <- load (find_vars tid, T_CUR) ;;
    n <- load (cur, NEXT) ;;
    lfrc.lfrc_refcnt_inc n ;;
    cur <- load (find_vars tid, T_CUR) ;;
    n <- load (cur, NEXT) ;;
    prev <- get_prev tid ;;
    store prev n ;;
    cur <- load (find_vars tid, T_CUR) ;;
    lfrc.lfrc_refcnt_dec fuel cur ;;
    spin_unlock (l, CL_LOCK) ;;
    Ret true.

Definition insert (l key : Z) : prog mem bool :=
  n <- lfrc.new_node fuel ;;
  spin_lock fuel (l, CL_LOCK) ;;
  found <- find (l, CL_HEAD) key ;;
  if found : bool then
    spin_unlock (l, CL_LOCK) ;;
    store (n, NEXT) NULL ;;
    lfrc.lfrc_refcnt_dec fuel n ;;
    Ret false
  else
    store (n, KEY) key ;;
    cur <- load (find_vars tid, T_CUR) ;;
    store (n, NEXT) cur ;;
    write_barrier ;;
    prev <- get_prev tid ;;
    store prev n ;;
    spin_unlock (l, CL_LOCK) ;;
    Ret true.
End code.
End list_cr_lfrc.

(** ** queue_lf_lfrc.c *)
Module queue_lf_lfrc.
Section code.
Context `{HM : Malloc}.
Variable fuel : nat.

Definition queue_init : prog mem Z :=
  node <- lfrc.new_node fuel ;;
  q <- mapmem sizeof_queue ;;
  store (node, NEXT) NULL ;;
  lfrc.lfrc_refcnt_inc node ;;
  store (q, Q_HEAD) node ;;
  store (q, Q_TAIL) node ;;
  Ret q.

Definition queue_destroy (q : Z) : prog mem unit := free q.

Definition queue_size (q : Z) : prog mem Z :=
  cur <- load (q, Q_HEAD) ;;
  loop fuel (fun '(cur, size) =>
    if cur =? NULL then break size
    else
      cur <- load (cur, NEXT) ;;
      continue (cur, u64 (size + 1))) (cur, 0).

Definition enqueue (q key : Z) : prog mem unit :=
  node <- lfrc.new_node fuel ;;
  node <- loop fuel (fun node =>
    if node =? NULL then node <- lfrc.new_node fuel ;; continue node
    else break node) node ;;
  lfrc.lfrc_refcnt_inc node ;;
  store (node, KEY) key ;;
  store (node, NEXT) NULL ;;
  write_barrier ;;
  t <- loop fuel (fun _ : unit =>
    t <- lfrc.safe_read fuel (q, Q_TAIL) ;;
    next <- load (t, NEXT) ;;
    t' <- load (q, Q_TAIL) ;;
    if negb (t' =? t) then
      lfrc.lfrc_refcnt_dec fuel t ;;
      continue tt
    else if negb (next =? NULL) then
      ok <- CAS (q, Q_TAIL) t next ;;
      (if ok : bool then lfrc.lfrc_refcnt_dec fuel t else Ret tt) ;;
      lfrc.lfrc_refcnt_dec fuel t ;;
      continue tt
    else
      ok <- CAS (t, NEXT) NULL node ;;
      if ok : bool then break t
      else
        lfrc.lfrc_refcnt_dec fuel t ;;
        continue tt) tt ;;
  ok <- CAS (q, Q_TAIL) t node ;;
  (if ok : bool then lfrc.lfrc_refcnt_dec fuel t else Ret tt) ;;
  lfrc.lfrc_refcnt_dec fuel t.

Definition dequeue (q : Z) : prog mem Z :=
  r <- loop fuel (fun _ : unit =>
    h <- lfrc.safe_read fuel (q, Q_HEAD) ;;
    t <- lfrc.safe_read fuel (q, Q_TAIL) ;;
    next <- lfrc.safe_read fuel (h, NEXT) ;;
    memory_barrier ;;
    h' <- load (q, Q_HEAD) ;;
    if negb (h' =? h) then
      lfrc.lfrc_refcnt_dec fuel next ;;
      lfrc.lfrc_refcnt_dec fuel h ;;
      lfrc.lfrc_refcnt_dec fuel t ;;
      continue tt
    else if next =? NULL then
      lfrc.lfrc_refcnt_dec fuel next ;;
      lfrc.lfrc_refcnt_dec fuel h ;;
      lfrc.lfrc_refcnt_dec fuel t ;;
      break None
    else if h =? t then
      ok <- CAS (q, Q_TAIL) t next ;;
      (if ok : bool then lfrc.lfrc_refcnt_dec fuel t else Ret tt) ;;
      lfrc.lfrc_refcnt_dec fuel next ;;
      lfrc.lfrc_refcnt_dec fuel h ;;
      lfrc.lfrc_refcnt_dec fuel t ;;
      continue tt
    else
      data <- load (next, KEY) ;;
      ok <- CAS (q, Q_HEAD) h next ;;
      if ok : bool then
        lfrc.lfrc_refcnt_dec fuel h ;;
        break (Some (h, t, data))
      else
        lfrc.lfrc_refcnt_dec fuel next ;;
        lfrc.lfrc_refcnt_dec fuel h ;;
        lfrc.lfrc_refcnt_dec fuel t ;;
        continue tt) tt ;;
  match r with
  | None => Ret (-1)
  | Some (h, t, data) =>
      lfrc.lfrc_refcnt_dec fuel h ;;
      lfrc.lfrc_refcnt_dec fuel t ;;
      Ret data
  end.
End code.
End queue_lf_lfrc.
