(* ===== verification/Dw.v ===== *)
(** * Duration-window reclamation (dw.c)

    A critical section runs in a duration; a duration is closed when a section
    ends and is collectible when every section that entered it has ended. *)
From S2P Require Export Room Alloc.

(** [item_list_t], [duration_t] and [dw_gc_t] *)
Abbreviation I_DURATION := 0 (only parsing).
Abbreviation I_ADDRESS := 8 (only parsing).
Definition sizeof_item_list_t : Z := 16.
Abbreviation D_HEAD := 0 (only parsing).
Abbreviation D_ENTRY := 8 (only parsing).
Abbreviation D_EXIT := 12 (only parsing).
Abbreviation D_COLLECTIBLE := 16 (only parsing).
Abbreviation D_CLOSED := 17 (only parsing).
Abbreviation D_NEXT := 24 (only parsing).
Definition sizeof_duration_t : Z := 32.
Abbreviation GC_ABA := 0 (only parsing).
Abbreviation GC_ENTRY := 4 (only parsing).
Abbreviation GC_CURRENT_D := 8 (only parsing).
Abbreviation GC_Q_HEAD := 16 (only parsing).
Abbreviation GC_Q_TAIL := 24 (only parsing).
Abbreviation GC_PENDING := 32 (only parsing).
Abbreviation GC_LOCK := 36 (only parsing).
Definition sizeof_dw_gc_t : Z := 40.

(** The pools of a thread, in its local storage. *)
Abbreviation L_DPOOL := 0 (only parsing).
Abbreviation L_DCOUNT := 800 (only parsing).
Abbreviation L_IPOOL := 808 (only parsing).
Abbreviation L_ICOUNT := 1608 (only parsing).

(** A compare-and-swap of a union of two words; the values found come back. *)
Definition CAS2 (p1 p2 : loc) (e1 e2 v1 v2 : Z) : prog mem (bool * (Z * Z)) :=
  act (fun m =>
    match get m p1, get m p2 with
    | Some a, Some b =>
        if (a =? e1) && (b =? e2) then Ok ((true, (a, b)), upd (upd m p1 v1) p2 v2)
        else Ok ((false, (a, b)), m)
    | _, _ => Err EAccess
    end).

(** [_atomic_add] and [_atomic_sub] on a [uint32_t]. *)
Definition fetch_add (p : loc) (v : Z) : prog mem Z := rmw p (fun x => u32 (x + v)).
Definition fetch_sub (p : loc) (v : Z) : prog mem Z := rmw p (fun x => u32 (x - v)).

Module dw.
Section code.
Context `{HM : Malloc}.
Variable fuel : nat.
Variable tid : Z.

Definition duration_pool_size : nat := 100.
Definition item_list_pool_size : nat := 100.

(** [duration_pool[i]] and [item_list_pool[i]] *)
Definition dpool (i : Z) : loc := (tls tid, L_DPOOL + 8 * i).
Definition ipool (i : Z) : loc := (tls tid, L_IPOOL + 8 * i).

Definition new_duration : prog mem Z :=
  c <- load (tls tid, L_DCOUNT) ;;
  new <- (if 0 <? c then
            store (tls tid, L_DCOUNT) (u32 (c - 1)) ;;
            load (dpool (u32 (c - 1)))
          else malloc sizeof_duration_t) ;;
  store (new, D_HEAD) NULL ;;
  store (new, D_EXIT) 0 ;;
  store (new, D_COLLECTIBLE) 0 ;;
  store (new, D_CLOSED) 1 ;;
  store (new, D_NEXT) NULL ;;
  Ret new.

Definition free_duration (d : Z) : prog mem unit :=
  c <- load (tls tid, L_DCOUNT) ;;
  (if c =? Z.of_nat duration_pool_size then
     store (tls tid, L_DCOUNT) 0 ;;
     forz duration_pool_size 0 (fun i => p <- load (dpool i) ;; free p)
   else Ret tt) ;;
  c <- load (tls tid, L_DCOUNT) ;;
  store (tls tid, L_DCOUNT) (u32 (c + 1)) ;;
  store (dpool c) d.

Definition new_item_list : prog mem Z :=
  c <- load (tls tid, L_ICOUNT) ;;
  if 0 <? c then
    store (tls tid, L_ICOUNT) (u32 (c - 1)) ;;
    load (ipool (u32 (c - 1)))
  else malloc sizeof_item_list_t.

Definition free_item_list (d : Z) : prog mem unit :=
  c <- load (tls tid, L_ICOUNT) ;;
  (if c =? Z.of_nat item_list_pool_size then
     store (tls tid, L_ICOUNT) 0 ;;
     forz item_list_pool_size 0 (fun i => p <- load (ipool i) ;; free p)
   else Ret tt) ;;
  c <- load (tls tid, L_ICOUNT) ;;
  store (tls tid, L_ICOUNT) (u32 (c + 1)) ;;
  store (ipool c) d.

(** The queue of durations: [q] is the structure that holds its two words. *)
Definition duration_spscq_init (q : Z) : prog mem unit :=
  dummy <- malloc sizeof_duration_t ;;
  store (dummy, D_NEXT) NULL ;;
  store (q, GC_Q_TAIL) dummy ;;
  store (q, GC_Q_HEAD) dummy.

Definition duration_spscq_destroy (q : Z) : prog mem unit :=
  h <- load (q, GC_Q_HEAD) ;;
  t <- load (q, GC_Q_TAIL) ;;
  assert_ (h =? t) ;;
  t <- load (q, GC_Q_TAIL) ;;
  free t.

Definition duration_spscq_push_atomic (q d : Z) : prog mem unit :=
  prev <- atomic_xchg4 (q, GC_Q_HEAD) d ;;
  store (prev, D_NEXT) d.

Definition duration_spscq_push (q d : Z) : prog mem unit :=
  prev <- load (q, GC_Q_HEAD) ;;
  store (q, GC_Q_HEAD) d ;;
  store (prev, D_NEXT) d.

Definition duration_spscq_pop (q : Z) : prog mem Z :=
  tail <- load (q, GC_Q_TAIL) ;;
  next <- load (tail, D_NEXT) ;;
  if next =? NULL then Ret NULL
  else
    free_duration tail ;;
    store (q, GC_Q_TAIL) next ;;
    Ret next.

Definition duration_spscq_peek (q : Z) : prog mem Z :=
  tail <- load (q, GC_Q_TAIL) ;;
  assert_ (negb (tail =? NULL)) ;;
  load (tail, D_NEXT).

Definition clean_one (item : Z) : prog mem unit :=
  assert_ (negb (item =? NULL)) ;;
  a <- load (item, I_ADDRESS) ;;
  (if a =? NULL then Ret tt
   else
     cur <- load (item, I_ADDRESS) ;;
     loop fuel (fun cur =>
       if cur =? NULL then break tt
       else
         pre <- load (cur, MR_NEXT) ;;
         free cur ;;
         continue pre) cur ;;
     store (item, I_ADDRESS) NULL) ;;
  free_item_list item.

Definition collect (gc : Z) : prog mem unit :=
  p <- fetch_add (gc, GC_PENDING) 1 ;;
  if negb (p =? 0) then Ret tt
  else
    locked <- CAS (gc, GC_LOCK) 0 1 ;;
    if negb locked then Ret tt
    else
      p <- load (gc, GC_PENDING) ;;
      r <- (if p =? 0 then CAS2 (gc, GC_PENDING) (gc, GC_LOCK) 0 1 0 0 else Ret (false, (0, 1))) ;;
      if fst r : bool then Ret tt
      else
        loop fuel (fun lock =>
          p <- load (gc, GC_PENDING) ;;
          assert_ (0 <? p) ;;
          _ <- fetch_sub (gc, GC_PENDING) 1 ;;
          loop fuel (fun _ : unit =>
            d <- duration_spscq_peek gc ;;
            if d =? NULL then break tt
            else
              c <- load (d, D_COLLECTIBLE) ;;
              if c =? 0 then break tt
              else
                h <- load (d, D_HEAD) ;;
                clean_one h ;;
                d' <- duration_spscq_pop gc ;;
                assert_ (d =? d') ;;
                continue tt) tt ;;
          p <- load (gc, GC_PENDING) ;;
          if 0 <? p then continue lock
          else
            r <- CAS2 (gc, GC_PENDING) (gc, GC_LOCK) 0 lock 0 0 ;;
            if fst r : bool then break tt else continue (snd (snd r))) (snd (snd r)).

Definition set_collectible (gc d : Z) : prog mem unit :=
  closed <- load (d, D_CLOSED) ;;
  assert_ (negb (closed =? 0)) ;;
  c <- load (d, D_COLLECTIBLE) ;;
  assert_ (c =? 0) ;;
  x <- fetch_add (d, D_EXIT) 1 ;;
  e <- load (d, D_ENTRY) ;;
  if x =? u32 (e - 1) then
    store (d, D_COLLECTIBLE) 1 ;;
    collect gc
  else Ret tt.

Definition dw_lockfree_on_entry (gc item : Z) : prog mem unit :=
  current_d <- loop fuel (fun _ : unit =>
    aba <- load (gc, GC_ABA) ;;
    if negb (aba mod 2 =? 0) then continue tt
    else
      current_d <- load (gc, GC_CURRENT_D) ;;
      assert_ (negb (current_d =? NULL)) ;;
      entry <- load (gc, GC_ENTRY) ;;
      entered <- loop fuel (fun '(eaba, entry) =>
        r <- CAS2 (gc, GC_ABA) (gc, GC_ENTRY) eaba entry aba (u32 (entry + 1)) ;;
        if fst r : bool then break true
        else if negb (fst (snd r) =? aba) then break false
        else continue (snd r)) (aba, entry) ;;
      if entered : bool then break current_d else continue tt) tt ;;
  store (item, I_DURATION) current_d.

Definition dw_lockfree_on_exit (gc item : Z) : prog mem unit :=
  my_d <- load (item, I_DURATION) ;;
  assert_ (negb (my_d =? NULL)) ;;
  current_d <- loop fuel (fun _ : unit =>
    aba <- load (gc, GC_ABA) ;;
    if negb (aba mod 2 =? 0) then continue tt
    else
      let new_aba := u32 (aba + 1) in
      assert_ (new_aba mod 2 =? 1) ;;
      ok <- CAS (gc, GC_ABA) aba new_aba ;;
      if negb ok then continue tt
      else
        current_d <- load (gc, GC_CURRENT_D) ;;
        assert_ (negb (current_d =? NULL)) ;;
        entry <- load (gc, GC_ENTRY) ;;
        store (gc, GC_ENTRY) 0 ;;
        let entry := if negb (current_d =? my_d) then u32 (entry + 1) else entry in
        store (current_d, D_CLOSED) 1 ;;
        nd <- new_duration ;;
        store (gc, GC_CURRENT_D) nd ;;
        duration_spscq_push gc current_d ;;
        old_aba <- fetch_add (gc, GC_ABA) 1 ;;
        assert_ (old_aba mod 2 =? 1) ;;
        store (current_d, D_HEAD) item ;;
        break current_d) tt ;;
  (if negb (current_d =? my_d) then set_collectible gc current_d else Ret tt) ;;
  set_collectible gc my_d.

Definition dw_init_gc : prog mem Z :=
  gc <- malloc sizeof_dw_gc_t ;;
  store (gc, GC_ABA) 0 ;; store (gc, GC_ENTRY) 0 ;;
  d <- new_duration ;;
  store (gc, GC_CURRENT_D) d ;;
  store (gc, GC_PENDING) 0 ;; store (gc, GC_LOCK) 0 ;;
  duration_spscq_init gc ;;
  Ret gc.

Definition dw_item_list_new : prog mem Z := new_item_list.

Definition dw_item_list (item p : Z) : prog mem unit :=
  a <- load (item, I_ADDRESS) ;;
  store (p, MR_NEXT) a ;;
  store (item, I_ADDRESS) p.

Definition free_node_later (cur : Z) : prog mem unit :=
  item <- load (this_thread tid, T_ITEM_LIST) ;;
  dw_item_list item cur.

Definition critical_enter : prog mem unit :=
  gc <- load (this_thread tid, T_DW_GC) ;;
  assert_ (negb (gc =? NULL)) ;;
  item <- dw_item_list_new ;;
  store (this_thread tid, T_ITEM_LIST) item ;;
  gc <- load (this_thread tid, T_DW_GC) ;;
  item <- load (this_thread tid, T_ITEM_LIST) ;;
  dw_lockfree_on_entry gc item.

Definition critical_exit : prog mem unit :=
  gc <- load (this_thread tid, T_DW_GC) ;;
  assert_ (negb (gc =? NULL)) ;;
  item <- load (this_thread tid, T_ITEM_LIST) ;;
  assert_ (negb (item =? NULL)) ;;
  gc <- load (this_thread tid, T_DW_GC) ;;
  item <- load (this_thread tid, T_ITEM_LIST) ;;
  dw_lockfree_on_exit gc item.

Definition mr_init : prog mem unit :=
  gc <- dw_init_gc ;;
  forz (Z.to_nat MAX_THREADS) 0 (fun i => store (this_thread i, T_DW_GC) gc).

Definition mr_thread_exit : prog mem unit := Ret tt.
Definition mr_reinitialize : prog mem unit := Ret tt.
End code.

#[export] Instance ops `{Malloc} : Reclaimer :=
  {| Interfaces.critical_enter := critical_enter;
     Interfaces.critical_exit := critical_exit;
     Interfaces.free_node_later := fun _ tid q => free_node_later tid q |}.
End dw.

(** * Proofs *)

(** ** Reads of uninitialised memory *)

(** What a run leaves in a word, or how it fails. *)
Definition leaves {A} (p : prog mem A) (m : mem) (l : loc) : outcome (option Z) :=
  match run p m with Ok (_, m') => Ok (get m' l) | Err e => Err e end.

(** A node is retired. *)
Definition retire_one : prog mem Z :=
  n <- allocator_malloc.new_node ;; dw.free_node_later 0 n ;; Ret n.

(** Thread 0 in its first critical section. *)
Definition dw_entered : mem :=
  match run (dw.mr_init 0 ;; dw.critical_enter 5 0) (static_mem 65) with Ok (_, m) => m | Err _ => ∅ end.
Definition dw_gc : Z := Eval vm_compute in default 0 (get dw_entered (this_thread 0, T_DW_GC)).
Definition dw_duration : Z := Eval vm_compute in default 0 (get dw_entered (dw_gc, GC_CURRENT_D)).
Definition dw_item : Z := Eval vm_compute in default 0 (get dw_entered (this_thread 0, T_ITEM_LIST)).

Lemma dw_entered_run : run (dw.mr_init 0 ;; dw.critical_enter 5 0) (static_mem 65) = Ok (tt, dw_entered).
Proof.
  unfold dw_entered. assert (H : match run (dw.mr_init 0 ;; dw.critical_enter 5 0) (static_mem 65) with
    Ok _ => true | Err _ => false end = true) by (vm_compute; reflexivity).
  by destruct (run _ _) as [[[] m]|e].
Qed.

(** C40: dw.c reads two words that it never wrote.  In the first critical
    section, the duration that the section runs in has no value in [entry]
    (which the comment of [new_duration] says is set when the duration is
    closed) and the item list of the thread has none in [address]; both are
    words of live objects.  [critical_exit] fails at [entry]: the same call
    with the number of entries, 1, stored there collects the duration and fails
    at [address], and with NULL stored there as well it returns with the duration
    collected; with 2 in [entry] it returns and leaves the duration uncollected.
    [free_node_later] fails at [address]: with NULL stored there, it links the
    node. *)
Theorem dw_uninitialised :
  let m := dw_entered in
  run (dw.mr_init 0 ;; dw.critical_enter 5 0) (static_mem 65) = Ok (tt, m) /\
  get m (this_thread 0, T_DW_GC) = Some dw_gc /\ get m (dw_gc, GC_CURRENT_D) = Some dw_duration /\
  get m (this_thread 0, T_ITEM_LIST) = Some dw_item /\ get m (dw_item, I_DURATION) = Some dw_duration /\
  (inb m (dw_duration, D_ENTRY) = true /\ get m (dw_duration, D_ENTRY) = None) /\
  (inb m (dw_item, I_ADDRESS) = true /\ get m (dw_item, I_ADDRESS) = None) /\
  run (dw.critical_exit 5 0) m = Err EAccess /\
  run (dw.critical_exit 5 0) (upd m (dw_duration, D_ENTRY) 1) = Err EAccess /\
  leaves (dw.critical_exit 5 0) (upd (upd m (dw_duration, D_ENTRY) 1) (dw_item, I_ADDRESS) NULL)
    (dw_duration, D_COLLECTIBLE) = Ok (Some 1) /\
  leaves (dw.critical_exit 5 0) (upd m (dw_duration, D_ENTRY) 2) (dw_duration, D_COLLECTIBLE) = Ok (Some 0) /\
  run retire_one m = Err EAccess /\
  (exists q, leaves retire_one (upd m (dw_item, I_ADDRESS) NULL) (dw_item, I_ADDRESS) = Ok (Some q) /\
     leaves retire_one (upd m (dw_item, I_ADDRESS) NULL) (q, MR_NEXT) = Ok (Some NULL)).
Proof.
  cbv zeta. split; [exact dw_entered_run|]. do 4 (split; [vm_compute; reflexivity|]). do 2 (split; [split; vm_compute; reflexivity|]).
  do 5 (split; [vm_compute; reflexivity|]). exists 278848. split; vm_compute; reflexivity.
Qed.

(** [new_duration] and [new_item_list] give out memory of [malloc] with these
    words unwritten, in every state in which the pools are empty. *)
Theorem dw_new_unwritten `{HM : Malloc, HMR : !MallocRoom} (tid : Z) (m : mem) (k : nat) :
  get m (tls tid, L_DCOUNT) = Some 0 -> get m (tls tid, L_ICOUNT) = Some 0 -> mroom (S (S k)) m ->
  tot (d <- dw.new_duration tid ;; item <- dw.new_item_list tid ;; Ret (d, item)) m (fun '(d, item) m' =>
    inb m' (d, D_ENTRY) = true /\ get m' (d, D_ENTRY) = None /\
    inb m' (item, I_ADDRESS) = true /\ get m' (item, I_ADDRESS) = None).
Proof.
  intros Hd Hi Hr. unfold dw.new_duration, dw.new_item_list, malloc, sizeof_duration_t, sizeof_item_list_t.
  apply tot_bind. psteps. simpl. eapply tot_alloc; [exact Hr|done|]. intros d (D1 & D2 & _ & _) Hr1.
  set (m1 := <[d := _]> m) in *.
  assert (Hst : is_struct m1 d 32) by (split; [lia|]; exists (Obj 32 ∅); unfold m1; by rewrite lookup_insert_eq).
  assert (He : get m1 (d, 8) = None) by (unfold m1; by rewrite get_insert_eq).
  assert (Hne : d <> tls tid) by (intros ->; apply live_get in Hd as [o Ho]; simpl in Ho; congruence).
  assert (Hi1 : get m1 (tls tid, 1608) = Some 0) by (unfold m1; by rewrite get_insert_ne).
  clearbody m1. psteps. simpl. eapply tot_alloc; [repeat apply mroom_upd; exact Hr1|done|].
  intros item (I1 & I2 & _ & _) _. apply tot_ret.
  match type of I2 with ?m1' !! _ = None => set (m2 := m1') in * end.
  assert (Hlv : live m2 d) by (unfold m2; rewrite !live_upd; by eapply is_struct_live).
  assert (Hid : item <> d) by (intros ->; destruct Hlv; congruence).
  split_and!.
  - rewrite (inb_lookup_eq m2) by (by apply lookup_insert_ne). unfold m2. rewrite !inb_upd.
    eapply is_struct_inb; [exact Hst|lia].
  - rewrite get_insert_ne by done. unfold m2. rewrite !get_upd_ne by congruence. exact He.
  - unfold inb. simpl. by rewrite lookup_insert_eq.
  - by rewrite get_insert_eq.
Qed.
