(* ===== verification/ListProgram.v ===== *)
(** * The program list_lf_ebr

    allocator_malloc.c, ebr.c and list_lf_ebr.c linked together: what mr_init
    and list_init establish from the static storage of the program, and the
    behaviour of every sequence of operations a thread performs on the list. *)
From S2P Require Export Ebr Contracts.

(** ** The static storage *)

(** The objects of the threads [0 .. n-1], with all their fields. *)
Record storage (n : Z) (m : mem) : Prop := {
  sg_thread : forall i, 0 <= i < n -> is_struct m (this_thread i) sizeof_per_thread_t;
  sg_fields : forall i f, 0 <= i < n -> f ∈ per_thread_fields -> is_Some (get m (this_thread i, f));
  sg_stack : forall i, 0 <= i < n -> is_struct m (stack_t i) sizeof_per_thread_t;
  sg_vars : forall i, 0 <= i < n -> is_struct m (find_vars i) 32;
  sg_globals : is_struct m GLOBALS sizeof_globals
}.

Definition is_structb (m : mem) (p sz : Z) : bool :=
  negb (p =? 0) && match m !! p with Some o => sz <=? osize o | None => false end.

Definition storageb (n : nat) (m : mem) : bool :=
  forallb (fun k => let i := Z.of_nat k in
    is_structb m (this_thread i) sizeof_per_thread_t &&
    forallb (fun f => match get m (this_thread i, f) with Some _ => true | None => false end) per_thread_fields &&
    is_structb m (stack_t i) sizeof_per_thread_t && is_structb m (find_vars i) 32) (seq 0 n) &&
  is_structb m GLOBALS sizeof_globals.

(** ** Sequences of operations *)
Inductive set_op : Set :=
| Search (key : Z)
| Delete (key : Z)
| Insert (key : Z).

(** The abstract set. *)
Definition set_step (o : set_op) (X : gset Z) : bool * gset Z :=
  match o with
  | Search k => (bool_decide (k ∈ X), X)
  | Delete k => (bool_decide (k ∈ X), X ∖ {[k]})
  | Insert k => (negb (bool_decide (k ∈ X)), {[k]} ∪ X)
  end.

Fixpoint set_steps (os : list set_op) (X : gset Z) : list bool * gset Z :=
  match os with
  | [] => ([], X)
  | o :: os' => let '(r, X1) := set_step o X in let '(rs, X2) := set_steps os' X1 in (r :: rs, X2)
  end.

Section ops.
Context `{HLO : ListOps}.
Variables (fuel : nat) (tid : Z).

Definition list_op (l : Z) (o : set_op) : prog mem bool :=
  match o with
  | Search k => l_search fuel tid l k
  | Delete k => l_delete fuel tid l k
  | Insert k => l_insert fuel tid l k
  end.

Fixpoint list_ops (l : Z) (os : list set_op) : prog mem (list bool) :=
  match os with
  | [] => Ret []
  | o :: os' => r <- list_op l o ;; rs <- list_ops l os' ;; Ret (r :: rs)
  end.
End ops.

(** * Proofs *)

Lemma is_structb_spec m p sz : is_structb m p sz = true -> is_struct m p sz.
Proof.
  unfold is_structb. intros H. apply andb_true_iff in H as [H1 H2].
  apply negb_true_iff, Z.eqb_neq in H1. destruct (m !! p) as [o|] eqn:Ho; [|discriminate].
  apply Z.leb_le in H2. split; [auto|]. eauto.
Qed.

Lemma storageb_spec n m : storageb n m = true -> storage (Z.of_nat n) m.
Proof.
  intros H. apply andb_true_iff in H as [H HG]. rewrite forallb_forall in H.
  assert (Hi : forall i, 0 <= i < Z.of_nat n ->
    is_structb m (this_thread i) sizeof_per_thread_t &&
    forallb (fun f => match get m (this_thread i, f) with Some _ => true | None => false end) per_thread_fields &&
    is_structb m (stack_t i) sizeof_per_thread_t && is_structb m (find_vars i) 32 = true).
  { intros i Hi. specialize (H (Z.to_nat i)). rewrite Z2Nat.id in H by lia. apply H, in_seq. lia. }
  split; [intros i Hn|intros i f Hn Hf|intros i Hn|intros i Hn|by apply is_structb_spec];
    specialize (Hi i Hn); rewrite !andb_true_iff in Hi; destruct Hi as [[[H1 H2] H3] H4];
    try by apply is_structb_spec.
  rewrite forallb_forall in H2. specialize (H2 f ltac:(by apply list_elem_of_In)).
  destruct (get m (this_thread i, f)); [eauto|discriminate].
Qed.

(** Stores and allocations keep the storage. *)
Lemma storage_upd n m l v : storage n m -> storage n (upd m l v).
Proof.
  intros [H1 H2 H3 H4 H5]. split; intros; rewrite ?is_struct_upd; auto.
  destruct (decide (l = (this_thread i, f))) as [->|Hne].
  - rewrite get_upd_eq; [eauto|]. simpl. destruct (H2 i f) as [v' Hv]; auto. by apply live_get in Hv.
  - rewrite get_upd_ne; auto.
Qed.

Lemma storage_alloc n m a o : storage n m -> m !! a = None -> storage n (<[a := o]> m).
Proof.
  intros [H1 H2 H3 H4 H5] Ha.
  assert (Hl : forall p sz, is_struct m p sz -> is_struct (<[a := o]> m) p sz).
  { intros p sz Hp. eapply is_struct_lookup; [|exact Hp]. apply lookup_insert_ne.
    intros ->. apply is_struct_live in Hp as [? ?]. congruence. }
  split; intros; auto. destruct (H2 i f) as [v Hv]; auto. exists v. rewrite get_insert_ne; [auto|].
  apply live_get in Hv as [? ?]. simpl in *. congruence.
Qed.

(** ** What mr_init establishes *)
Section init.
Context `{HM : Malloc, HMR : !MallocRoom}.
Existing Instance allocator_malloc.ops.
Implicit Types (m : mem).

(** The record of thread [i] as mr_init leaves it. *)
Definition thread_reset (m : mem) (i : Z) : Prop :=
  get m (this_thread i, T_EPOCH) = Some 0 /\ get m (this_thread i, T_IN_CRITICAL) = Some 0 /\
  get m (this_thread i, T_ENTRIES) = Some 0 /\ get m (this_thread i, T_RETIRE_COUNT) = Some 0 /\
  forall j, 0 <= j < N_EPOCHS -> get m (this_thread i, T_LIMBO_LIST + 8 * j) = Some NULL.

Lemma thread_reset_ne m i l v :
  l.1 <> this_thread i -> thread_reset m i -> thread_reset (upd m l v) i.
Proof.
  intros Hl (H1 & H2 & H3 & H4 & H5).
  assert (Hne : forall f, l <> (this_thread i, f)) by (intros f ->; by apply Hl).
  split_and!; intros; rewrite get_upd_ne; auto.
Qed.

Lemma this_thread_inj i j : this_thread i = this_thread j -> i = j.
Proof. unfold this_thread, sizeof_per_thread_t. lia. Qed.

(** One iteration of the loop over the threads. *)
Lemma mr_init_thread m i (P : Z -> Prop) :
  storage MAX_THREADS m -> 0 <= i < MAX_THREADS -> (forall j, P j -> j <> i /\ thread_reset m j) ->
  tot (store (this_thread i, T_EPOCH) 0 ;;
       store (this_thread i, T_IN_CRITICAL) 0 ;;
       store (this_thread i, T_ENTRIES) 0 ;;
       store (this_thread i, T_RETIRE_COUNT) 0 ;;
       forz (Z.to_nat N_EPOCHS) 0 (fun j => store (this_thread i, T_LIMBO_LIST + 8 * j) NULL)) m
    (fun _ m' => storage MAX_THREADS m' /\ thread_reset m' i /\ (forall j, P j -> thread_reset m' j) /\
       forall b, b <> this_thread i -> m' !! b = m !! b).
Proof.
  intros Hs Hi HP. pose proof (sg_thread _ _ Hs i Hi) as Ht. unfold sizeof_per_thread_t in Ht.
  change (Z.to_nat N_EPOCHS) with 3%nat. unfold forz. psteps.
  split_and!.
  - repeat apply storage_upd. exact Hs.
  - split_and!; try mget. intros j Hj. unfold N_EPOCHS in Hj.
    assert (j = 0 \/ j = 1 \/ j = 2) as [->|[->| ->]] by lia; cbn [Z.mul Z.add]; mget.
  - intros j Hj. destruct (HP j Hj) as [Hne Hr].
    repeat apply thread_reset_ne; auto; simpl; intros E; apply Hne; by apply this_thread_inj.
  - intros b Hb. rewrite !lookup_upd_ne; auto.
Qed.

(** The state of ebr.c after mr_init, for every thread at once. *)
Record ebr_ready (K : gset Z) m : Prop := {
  er_storage : storage MAX_THREADS m;
  er_reset : forall i, 0 <= i < MAX_THREADS -> thread_reset m i;
  er_eg : exists eg, get m (GLOBALS, G_EG) = Some eg /\ is_struct m eg sizeof_ebr_globals /\
    get m (eg, EG_EPOCH) = Some 1 /\
    get m (eg, EG_LOCK) = Some 0 /\ eg <> GLOBALS /\ (eg ∉ K) /\
    forall i, 0 <= i < MAX_THREADS -> eg <> this_thread i /\ eg <> stack_t i /\ eg <> find_vars i
}.

Lemma mr_init_spec K m k :
  storage MAX_THREADS m -> mroom (S k) m -> (forall b, b ∈ K -> live m b) ->
  tot ebr.mr_init m (fun _ m' => ebr_ready K m' /\ mroom k m' /\
    get m' (GLOBALS, G_N_THREADS) = get m (GLOBALS, G_N_THREADS) /\
    forall b, b ∈ K -> b <> GLOBALS -> (forall i, 0 <= i < MAX_THREADS -> b <> this_thread i) -> m' !! b = m !! b).
Proof.
  intros Hs Hr HK. unfold ebr.mr_init, mapmem, malloc. apply tot_bind.
  eapply tot_alloc; [exact Hr|done|]. intros eg (Hn & Hf & _ & _) Hr1.
  pose proof (storage_alloc _ _ eg (Obj sizeof_ebr_globals ∅) Hs Hf) as Hs1.
  assert (Hlv : forall b, live m b -> eg <> b) by (intros b [o Ho] ->; congruence).
  assert (Heg : eg <> GLOBALS /\ forall i, 0 <= i < MAX_THREADS ->
            eg <> this_thread i /\ eg <> stack_t i /\ eg <> find_vars i).
  { split; [eapply Hlv, is_struct_live, Hs|]. intros i Hi. split_and!; eapply Hlv, is_struct_live; by apply Hs. }
  set (m1 := <[eg := Obj sizeof_ebr_globals ∅]> m) in *.
  assert (HKe : forall b, b ∈ K -> eg <> b /\ m1 !! b = m !! b).
  { intros b Hb. specialize (Hlv b (HK b Hb)). split; [done|]. by apply lookup_insert_ne. }
  assert (Hnt : get m1 (GLOBALS, G_N_THREADS) = get m (GLOBALS, G_N_THREADS)) by (apply get_insert_ne; apply Heg).
  assert (Hst : is_struct m1 eg 128) by (split; [auto|]; exists (Obj 128 ∅); unfold m1; by rewrite lookup_insert_eq).
  rewrite <- Hnt. clearbody m1.
  pose proof (sg_globals _ _ Hs1) as HG. unfold sizeof_globals in HG. destruct Heg as [Hg Ht].
  assert (HGt : forall i, 0 <= i -> GLOBALS <> this_thread i)
    by (intros i Hi; unfold GLOBALS, this_thread, THREADS, sizeof_per_thread_t; lia). psteps.
  eapply tot_mono; [apply tot_keeps; [..|
    apply (tot_forz (fun j m' => storage MAX_THREADS m' /\ get m' (GLOBALS, G_EG) = Some eg /\ is_struct m' eg 128 /\
      (forall i, 0 <= i < Z.of_nat j -> thread_reset m' i) /\
      get m' (GLOBALS, G_N_THREADS) = get m1 (GLOBALS, G_N_THREADS) /\
      (forall b, b <> GLOBALS -> (forall i, 0 <= i < MAX_THREADS -> b <> this_thread i) -> m' !! b = m1 !! b)))]|].
  - apply (keeps_forz (mroom k)). intros i. keep.
  - by apply mroom_upd.
  - intros j m2 Hj (Hs2 & Hg2 & He2 & Hr2 & Hn2 & Hk2). simpl.
    eapply tot_mono; [apply (mr_init_thread m2 (Z.of_nat j) (fun i => 0 <= i < Z.of_nat j) Hs2)|].
    + unfold MAX_THREADS in *. lia.
    + intros i Hi. split; [lia|auto].
    + intros [] m3 (Hs3 & Hr3 & Hr3' & HL). destruct (Ht (Z.of_nat j) ltac:(unfold MAX_THREADS in *; lia)) as (N1 & _).
      split_and!; auto.
      * rewrite (get_lookup_eq m2); [auto|]. apply HL, HGt. lia.
      * eapply is_struct_lookup; [|exact He2]. auto.
      * intros i Hi. destruct (decide (i = Z.of_nat j)) as [->|]; [auto|]. apply Hr3'. lia.
      * rewrite <- Hn2. apply get_lookup_eq, HL, HGt. lia.
      * intros b Hb1 Hb2. rewrite HL; [auto|]. apply Hb2. unfold MAX_THREADS in *. lia.
  - split_and!; [by apply storage_upd|mget|by apply is_struct_upd|intros; lia|by rewrite get_upd_ne by congruence|].
    intros b Hb _. apply lookup_upd_ne. simpl. congruence.
  - intros [] m2 [(Hs2 & Hg2 & He2 & Hr2 & Hn2 & Hk2) Hrm]. psteps.
    split_and!; [|by repeat apply mroom_upd|by rewrite !get_upd_ne by congruence|].
    + split.
      * by repeat apply storage_upd.
      * intros i Hi. destruct (Ht i Hi) as (N1 & _). do 2 (apply thread_reset_ne; [simpl; auto|]). auto.
      * exists eg. split_and!; auto; try mget; [by rewrite !is_struct_upd|].
        intros E. by destruct (HKe eg E).
    + intros b Hb Hb1 Hb2. destruct (HKe b Hb) as [Hne <-]. rewrite !lookup_upd_ne by (simpl; congruence). auto.
Qed.

(** The objects ebr.c owns in thread [tid]. *)
Definition ebr_objs (tid eg : Z) : gset Z := {[GLOBALS; eg; this_thread tid; stack_t tid]}.

(** The same with the global epoch at [e], whatever has advanced it. *)
Record ebr_at (eg e : Z) m : Prop := {
  ea_storage : storage MAX_THREADS m;
  ea_reset : forall i, 0 <= i < MAX_THREADS -> thread_reset m i;
  ea_var : get m (GLOBALS, G_EG) = Some eg;
  ea_struct : is_struct m eg sizeof_ebr_globals;
  ea_epoch : get m (eg, EG_EPOCH) = Some e;
  ea_range : 0 <= e < N_EPOCHS;
  ea_lock : get m (eg, EG_LOCK) = Some 0;
  ea_ne : eg <> GLOBALS;
  ea_own : forall i, 0 <= i < MAX_THREADS -> eg <> this_thread i /\ eg <> stack_t i /\ eg <> find_vars i
}.

Lemma ebr_ready_at K m : ebr_ready K m -> exists eg, ebr_at eg 1 m /\ eg ∉ K.
Proof. intros [Hs Hr (eg & E1 & E2 & E3 & E4 & E5 & E6 & E7)]. exists eg. by split. Qed.

Lemma ebr_at_own eg e m tid : ebr_at eg e m -> 0 <= tid < MAX_THREADS -> ebr_own tid m (ebr_objs tid eg).
Proof.
  intros [Hs Hr E1 _ E2 E3 _ E4 E5] Ht. destruct (E5 tid Ht) as (N1 & N2 & N3).
  destruct (Hr tid Ht) as (R1 & R2 & R3 & R4 & R5). unfold ebr_objs. split; auto.
  - exists eg, e. split_and!; auto; try lia. set_solver.
  - intros f Hf. by apply Hs.
  - exists 0. unfold N_EPOCHS. split; [auto|lia].
  - by apply Hs.
  - by apply Hs.
  - set_solver.
  - intros b Hb. rewrite !elem_of_union, !elem_of_singleton in Hb. destruct Hb as [[[->| ->]| ->]| ->].
    + eapply is_struct_live, Hs.
    + by apply live_get in E2.
    + eapply is_struct_live. by apply Hs.
    + eapply is_struct_live. by apply Hs.
Qed.

Lemma ebr_ready_own K m tid : ebr_ready K m -> 0 <= tid < MAX_THREADS ->
  exists eg, ebr_own tid m (ebr_objs tid eg) /\ (find_vars tid ∉ ebr_objs tid eg) /\ eg ∉ K.
Proof.
  intros Hr Ht. destruct (ebr_ready_at _ _ Hr) as (eg & He & HK). exists eg.
  split; [by eapply ebr_at_own|split; [|done]]. destruct (ea_own _ _ _ He tid Ht) as (N1 & N2 & N3).
  unfold ebr_objs; rewrite !elem_of_union, !elem_of_singleton.
  unfold find_vars, this_thread, stack_t, THREADS, STACK_BASE, GLOBALS, sizeof_per_thread_t, MAX_THREADS in *; lia.
Qed.
End init.

(** ** Any list behind list.h refines the abstract set *)
Section refinement.
Context `{HM : Malloc, HMR : !MallocRoom, HLO : !ListOps, HS : !SetLaws}.
Variables (fuel : nat) (tid : Z).
Implicit Types (m : mem) (F X : gset Z) (L : lists).

Lemma list_op_spec c L F m i l X o k :
  sets tid c L F m -> (c < fuel)%nat -> L !! i = Some (l, X) -> mroom (S k) m ->
  tot (list_op fuel tid l o) m (fun r m' => r = (set_step o X).1 /\
    sets tid (S c) (<[i := (l, (set_step o X).2)]> L) F m' /\ mroom k m' /\ kept F m m').
Proof.
  intros Hs Hf Hi Hr. assert (Hr' : mroom k m) by (eapply mroom_mono; [exact Hr|lia]).
  destruct o as [key|key|key]; simpl.
  - eapply tot_mono; [by eapply l_search_ok|]. intros r m' H. by rewrite (list_insert_id _ _ _ Hi).
  - by apply l_delete_ok.
  - by apply l_insert_ok.
Qed.

Lemma list_ops_spec os c L F m i l X k :
  sets tid c L F m -> (c + length os <= fuel)%nat -> L !! i = Some (l, X) -> mroom (length os + k) m ->
  tot (list_ops fuel tid l os) m (fun rs m' => rs = (set_steps os X).1 /\
    sets tid (c + length os) (<[i := (l, (set_steps os X).2)]> L) F m' /\ mroom k m' /\ kept F m m').
Proof.
  revert c L m X. induction os as [|o os IH]; intros c L m X Hs Hf Hi Hr; simpl.
  - apply tot_ret. rewrite Nat.add_0_r, (list_insert_id _ _ _ Hi). auto using kept_refl.
  - simpl in *. apply tot_bind. eapply tot_mono; [apply (list_op_spec c L F m i l X o); eauto; lia|].
    intros r m1 (-> & Hs1 & Hr1 & Hk1). destruct (set_step o X) as [r X1]. simpl in *.
    apply tot_bind. eapply tot_mono; [apply (IH _ _ _ X1 Hs1); [lia| |exact Hr1]|].
    { apply list_lookup_insert_eq. by eapply lookup_lt_Some. }
    intros rs m2 (-> & Hs2 & Hr2 & Hk2). apply tot_ret. destruct (set_steps os X1) as [rs X2]. simpl in *.
    rewrite list_insert_insert_eq in Hs2. replace (c + S (length os))%nat with (S c + length os)%nat by lia.
    eauto using kept_trans.
Qed.
End refinement.

(** ** The whole program *)
Section program.
Context `{HM : Malloc, HMR : !MallocRoom}.
Existing Instances allocator_malloc.ops ebr.ops ebr.epochs ebr_laws ebr_room.
Variables (fuel : nat) (tid : Z).

(** mr_init, list_init and then the operations of thread [tid]. *)
Definition list_program (os : list set_op) : prog mem (list bool) :=
  ebr.mr_init ;;
  l <- list_lf_ebr.list_init ;;
  list_ops (HLO := lf_list_ops) fuel tid l os.

(** Objects of the program that no thread record, stack frame or global of
    ebr.c is part of. *)
Definition client_objs (K : gset Z) : Prop :=
  forall b, b ∈ K -> b <> GLOBALS /\
    forall i, 0 <= i < MAX_THREADS -> b <> this_thread i /\ b <> stack_t i /\ b <> find_vars i.

Lemma ready_sets K m : ebr_ready K m -> 0 <= tid < MAX_THREADS -> client_objs K ->
  (forall b, b ∈ K -> live m b) -> lf_sets tid 0 [] K m.
Proof.
  intros Hr Ht HK Hl. destruct (ebr_ready_own K m tid Hr Ht) as (eg & Ho & Hv & HeK).
  exists 0%nat, (ebr_objs tid eg), []. split_and!; auto. split; auto.
  - by apply Hr.
  - intros b Hb. destruct (HK b Hb) as (K1 & K2). destruct (K2 tid Ht) as (K3 & K4 & K5).
    split_and!; auto. unfold ebr_objs. rewrite !elem_of_union, !elem_of_singleton.
    intros [[[?| ->]|?]|?]; auto.
  - by intros.
  - by intros.
Qed.

Lemma list_program_run os m k :
  storage MAX_THREADS m -> 0 <= tid < MAX_THREADS -> mroom (2 + length os + k) m ->
  (S (length os) <= fuel)%nat ->
  tot (list_program os) m (fun rs m' => rs = (set_steps os ∅).1 /\ mroom k m' /\
    exists l, lf_sets tid (S (length os)) [(l, (set_steps os ∅).2)] ∅ m').
Proof.
  intros Hs Ht Hr Hf. unfold list_program. apply tot_bind.
  eapply tot_mono; [apply (mr_init_spec ∅ m (S (length os + k)) Hs Hr); set_solver|].
  intros [] m1 (Hready & Hr1 & _). apply tot_bind.
  eapply tot_mono; [apply (l_init_ok (SetLaws := lf_set_laws) tid 0 [] ∅ m1 (length os + k)); [|exact Hr1]|].
  { apply ready_sets; auto; set_solver. }
  intros l m2 (Hs2 & Hr2 & _).
  eapply tot_mono; [apply (list_ops_spec (HS := lf_set_laws) fuel tid os 1 _ _ _ 0 l ∅ k Hs2); [lia|done|exact Hr2]|].
  intros rs m3 (-> & Hs3 & Hr3 & _). split_and!; auto. by exists l.
Qed.
End program.

(** ** Theorems *)

(** The static storage of the program, and the concrete malloc on it. *)
Lemma static_storage : storage MAX_THREADS (static_mem 65).
Proof. apply (storageb_spec 65). by vm_compute. Qed.

Lemma static_room : mroom (MallocRoom := bump_room_laws) 1000 (static_mem 65).
Proof. by vm_compute. Qed.

Section start.
Context `{HM : Malloc, HMR : !MallocRoom}.
Existing Instances allocator_malloc.ops ebr.ops ebr.epochs ebr_laws ebr_room.

(** A thread alone on the list, right after the initialisation. *)
Definition list_start : prog mem Z := ebr.mr_init ;; list_lf_ebr.list_init.

Lemma list_start_spec m tid k :
  storage MAX_THREADS m -> 0 <= tid < MAX_THREADS -> mroom (2 + k) m ->
  tot list_start m (fun l m' => mroom k m' /\ exists O, lf_list tid 0 (l, LIST_HEAD) O [] m').
Proof.
  intros Hs Ht Hr. unfold list_start. apply tot_bind.
  eapply tot_mono; [apply (mr_init_spec ∅ m (S k) Hs Hr); set_solver|].
  intros [] m1 (Hready & Hr1 & _).
  eapply tot_mono; [apply (l_init_ok (SetLaws := lf_set_laws) tid 0 [] ∅ m1 k); [|exact Hr1]|].
  { apply ready_sets; auto; set_solver. }
  intros l m2 ((n & O & Ls & HL & E & Hc) & Hr2 & _). split; [done|]. exists O.
  destruct Ls as [|[l' xs] [|]]; simpl in E; try discriminate. injection E as -> E.
  unfold lf_size in Hc. simpl in Hc. assert (n = 0%nat) as -> by lia.
  destruct xs; [|simpl in Hc; lia]. by apply (lfs_get tid 0 O ∅ [(l', [])] m2 0).
Qed.

(** ... and after one insertion. *)
Lemma list_start_insert m tid k fuel key :
  storage MAX_THREADS m -> 0 <= tid < MAX_THREADS -> mroom (3 + k) m -> (1 < fuel)%nat ->
  tot (l <- list_start ;; _ <- list_lf_ebr.insert fuel tid l key ;; Ret l) m (fun l m' =>
    mroom k m' /\ exists n O xs, lf_list tid n (l, LIST_HEAD) O xs m' /\ key_set xs = {[key]} /\
      (n + length xs <= 1)%nat).
Proof.
  intros Hs Ht Hr Hf. apply tot_bind. eapply tot_mono; [apply (list_start_spec m tid (S k) Hs Ht Hr)|].
  intros l m1 (Hr1 & O & Hl). apply tot_bind.
  assert (Hnn : tot (new_node fuel tid) m1 (fun p _ => p <> NULL)).
  { pose proof (new_node_ok tid 0 m1 O fuel (proj1 Hl) ltac:(lia)) as Hnn.
    apply tot_run in Hnn as (p & m' & Hrun & _). eapply run_tot; [exact Hrun|]. by apply (new_node_room k) in Hrun as []. }
  pose proof (insert_spec fuel tid 0 l key O [] m1 Hl ltac:(simpl; lia) Hnn) as Hins.
  apply tot_run in Hins as (r & m2 & Hrun & _ & n' & O' & xs' & Hl' & HS & Hn & _).
  eapply run_tot; [exact Hrun|]. apply tot_ret. split; [by eapply insert_room|].
  exists n', O', xs'. split_and!; auto. rewrite HS. set_solver.
Qed.
End start.

(** C4: every sequence of operations that a thread performs on the list of
    the program list_lf_ebr (allocator_malloc.c, ebr.c and list_lf_ebr.c),
    from the static storage through mr_init and list_init, returns without an
    error exactly the answers of a mathematical set, as long as malloc has room
    for one node per operation; afterwards the list holds the keys of that set. *)
Theorem list_program_refines_set `{HM : Malloc, HMR : !MallocRoom} (fuel : nat) (tid : Z)
    (os : list set_op) (m : mem) (k : nat) :
  storage MAX_THREADS m -> 0 <= tid < MAX_THREADS -> mroom (2 + length os + k) m ->
  (S (length os) <= fuel)%nat ->
  exists m' l, run (list_program fuel tid os) m = Ok ((set_steps os ∅).1, m') /\
    @lf_sets _ _ ebr_laws tid (S (length os)) [(l, (set_steps os ∅).2)] ∅ m'.
Proof.
  intros Hs Ht Hr Hf. destruct (tot_run _ _ _ (list_program_run fuel tid os m k Hs Ht Hr Hf))
    as (rs & m' & Hrun & -> & _ & l & Hl). eauto.
Qed.

Lemma list_program_refines_set_witness :
  exists m' l, run (list_program 10 3 [Insert 5; Search 5; Insert 5; Delete 5; Delete 5; Search 5]) (static_mem 65)
      = Ok ([true; true; false; true; false; false], m') /\
    @lf_sets _ _ ebr_laws 3 7 [(l, ∅)] ∅ m'.
Proof.
  destruct (list_program_refines_set (HMR := bump_room_laws) 10 3
    [Insert 5; Search 5; Insert 5; Delete 5; Delete 5; Search 5] (static_mem 65) 900) as (m' & l & H1 & H2).
  - exact static_storage.
  - done.
  - eapply mroom_mono; [exact static_room|]. simpl. lia.
  - simpl. lia.
  - exists m', l. split; [exact H1|]. exact H2.
Defined.

(** [insert] of list_lf_ebr.c, over any allocator and reclamation scheme
    that keep their contract, terminates without an error, answers whether the
    key was new, leaves the list well formed and sorted with the key added,
    and changes no object but the list, those of the allocator and of the
    reclamation scheme, and new ones; marked nodes it passes are removed. *)
Theorem list_insert_correct `{HM : Malloc, HA : !Allocator, HR : !Reclaimer, HE : !Epochs, HRL : !ReclaimerLaws}
    (fuel : nat) (tid : Z) (n : nat) (l key : Z) (O : gset Z) (xs : list nd) (m : mem) :
  lf_list tid n (l, LIST_HEAD) O xs m -> (n + S (length xs) < fuel)%nat ->
  tot (new_node fuel tid) m (fun p _ => p <> NULL) ->
  tot (list_lf_ebr.insert fuel tid l key) m
    (set_post tid n (l, LIST_HEAD) O xs m (negb (bool_decide (key ∈ key_set xs))) ({[key]} ∪ key_set xs)).
Proof. apply insert_spec. Qed.

Lemma list_insert_correct_witness :
  tot (l <- list_start ;; @list_lf_ebr.insert allocator_malloc.ops (@ebr.ops _ allocator_malloc.ops) ebr.epochs 5 0 l 7)
    (static_mem 65) (fun r m' => r = true).
Proof.
  apply tot_bind. eapply tot_mono; [apply (list_start_spec (HMR := bump_room_laws) (static_mem 65) 0 998);
    [exact static_storage|done|exact static_room]|].
  intros l m (Hr & O & Hl). eapply tot_mono; [apply (list_insert_correct 5 0 0 l 7 O [] m Hl)|].
  - simpl. lia.
  - pose proof (new_node_ok 0 0 m O 5 (proj1 Hl) ltac:(lia)) as Hnn.
    apply tot_run in Hnn as (p & m' & Hrun & _). eapply run_tot; [exact Hrun|].
    by apply (new_node_room (RoomLaws := ebr_room) 997) in Hrun as [].
  - intros r m' [-> _]. done.
Defined.

(** [delete] of list_lf_ebr.c terminates without an error, answers whether
    the key was in the list, and leaves the list well formed and sorted with
    the key removed; the node is marked, unlinked and handed to the
    reclamation scheme, and nothing else changes. *)
Theorem list_delete_correct `{HA : Allocator, HR : Reclaimer, HRL : !ReclaimerLaws}
    (fuel : nat) (tid : Z) (n : nat) (l key : Z) (O : gset Z) (xs : list nd) (m : mem) :
  lf_list tid n (l, LIST_HEAD) O xs m -> (n + S (length xs) < fuel)%nat ->
  tot (list_lf_ebr.delete fuel tid l key) m
    (set_post tid n (l, LIST_HEAD) O xs m (bool_decide (key ∈ key_set xs)) (key_set xs ∖ {[key]})).
Proof. apply delete_spec. Qed.

Lemma list_delete_correct_witness :
  tot (l <- (l <- list_start ;;
             _ <- @list_lf_ebr.insert allocator_malloc.ops (@ebr.ops _ allocator_malloc.ops) ebr.epochs 5 0 l 7 ;; Ret l) ;;
       @list_lf_ebr.delete (@ebr.ops _ allocator_malloc.ops) 5 0 l 7)
    (static_mem 65) (fun r m' => r = true).
Proof.
  apply tot_bind. eapply tot_mono; [apply (list_start_insert (HMR := bump_room_laws) (static_mem 65) 0 997 5 7);
    [exact static_storage|done|exact static_room|lia]|].
  intros l m (Hr & n & O & xs & Hl & HS & Hn).
  eapply tot_mono; [apply (list_delete_correct 5 0 n l 7 O xs m Hl)|].
  - lia.
  - intros r m' [-> _]. by rewrite HS.
Defined.

(** [search] of list_lf_ebr.c terminates without an error, answers exactly
    whether the key is in the list, and keeps the set of keys; it only removes
    marked nodes. *)
Theorem list_search_correct `{HA : Allocator, HR : Reclaimer, HRL : !ReclaimerLaws}
    (fuel : nat) (tid : Z) (n : nat) (l key : Z) (O : gset Z) (xs : list nd) (m : mem) :
  lf_list tid n (l, LIST_HEAD) O xs m -> (n + S (length xs) < fuel)%nat ->
  tot (list_lf_ebr.search fuel tid l key) m
    (set_post tid n (l, LIST_HEAD) O xs m (bool_decide (key ∈ key_set xs)) (key_set xs)).
Proof. apply search_spec. Qed.

Lemma list_search_correct_witness :
  tot (l <- (l <- list_start ;;
             _ <- @list_lf_ebr.insert allocator_malloc.ops (@ebr.ops _ allocator_malloc.ops) ebr.epochs 5 0 l 7 ;; Ret l) ;;
       @list_lf_ebr.search (@ebr.ops _ allocator_malloc.ops) 5 0 l 8)
    (static_mem 65) (fun r m' => r = false).
Proof.
  apply tot_bind. eapply tot_mono; [apply (list_start_insert (HMR := bump_room_laws) (static_mem 65) 0 997 5 7);
    [exact static_storage|done|exact static_room|lia]|].
  intros l m (Hr & n & O & xs & Hl & HS & Hn).
  eapply tot_mono; [apply (list_search_correct 5 0 n l 8 O xs m Hl)|].
  - lia.
  - intros r m' [-> _]. by rewrite HS.
Defined.
