(* ===== verification/Critical.v ===== *)
(** * Critical sections beside a lock at work

    While a thread is in its critical section, the other threads write to the
    words of the lock: they queue up, or try to take it.  [crit] is total
    correctness of code whose actions neither read nor write those words, so
    that it runs on a memory of its own, of which the memory of the machine
    differs in the words of the lock only ([upds]). *)
From S2P Require Export Layout ProgEq.

(** A sequence of writes. *)
Definition upds (m : mem) (us : list (loc * Z)) : mem := foldl (fun m u => upd m u.1 u.2) m us.

Section upds.
Implicit Types (m : mem) (l : loc) (us : list (loc * Z)).

Lemma upds_snoc m us l v : upds m (us ++ [(l, v)]) = upd (upds m us) l v.
Proof. unfold upds. by rewrite foldl_app. Qed.

Lemma live_upds m us b : live (upds m us) b <-> live m b.
Proof.
  induction us as [|[l v] us IH] using rev_ind; [done|]. rewrite upds_snoc, live_upd. exact IH.
Qed.

Lemma inb_upds m us l : inb (upds m us) l = inb m l.
Proof. induction us as [|[l' v] us IH] using rev_ind; [done|]. by rewrite upds_snoc, inb_upd. Qed.

Lemma get_upds_out m us l : Forall (fun u => u.1 <> l) us -> get (upds m us) l = get m l.
Proof.
  induction us as [|[l' v] us IH] using rev_ind; [done|]. intros [H1 H2]%Forall_app.
  rewrite upds_snoc, get_upd_ne; [by apply IH|]. by inversion H2.
Qed.

Lemma lookup_upds_ne m us b : Forall (fun u => u.1.1 <> b) us -> upds m us !! b = m !! b.
Proof.
  induction us as [|[l' v] us IH] using rev_ind; [done|]. intros [H1 H2]%Forall_app.
  rewrite upds_snoc, lookup_upd_ne; [by apply IH|]. inversion H2. simpl in *. congruence.
Qed.

(** A word that both memories hold gets the same value. *)
Lemma get_upds_in m m' us l : get m' l = get m l -> live m l.1 -> live m' l.1 ->
  get (upds m' us) l = get (upds m us) l.
Proof.
  intros Hg H1 H2. induction us as [|[l' v] us IH] using rev_ind; [done|]. rewrite !upds_snoc.
  destruct (decide (l' = l)) as [->|Hne]; [|by rewrite !get_upd_ne].
  by rewrite !get_upd_eq by (by apply live_upds).
Qed.

Lemma get_upds_some m us l : is_Some (get m l) -> is_Some (get (upds m us) l).
Proof.
  intros [v Hv]. induction us as [|[l' v'] us IH] using rev_ind; [by exists v|]. rewrite upds_snoc.
  destruct (decide (l' = l)) as [->|Hne]; [|by rewrite get_upd_ne].
  exists v'. apply get_upd_eq. apply live_upds. by eapply live_get.
Qed.

Lemma upds_upd m us l v : Forall (fun u => u.1 <> l) us -> upd (upds m us) l v = upds (upd m l v) us.
Proof.
  induction us as [|[l' v'] us IH] using rev_ind; [done|]. intros [H1 H2]%Forall_app.
  rewrite !upds_snoc, <- IH by done. symmetry. apply upd_comm. intros <-. by inversion H2.
Qed.

Lemma upd_delete m l v b : l.1 <> b -> delete b (upd m l v) = upd (delete b m) l v.
Proof. intros H. unfold upd. apply map_eq. intros c. apply option_eq. intros o.
  destruct (decide (c = b)) as [->|Hc].
  - rewrite lookup_delete_eq, lookup_alter_ne, lookup_delete_eq by done. done.
  - rewrite lookup_delete_ne by done. destruct (decide (l.1 = c)) as [<-|Hl].
    + by rewrite !lookup_alter_eq, lookup_delete_ne.
    + by rewrite !lookup_alter_ne, lookup_delete_ne.
Qed.

Lemma upd_insert m l v b o : l.1 <> b -> <[b := o]> (upd m l v) = upd (<[b := o]> m) l v.
Proof. intros H. unfold upd. apply map_eq. intros c. apply option_eq. intros o'.
  destruct (decide (c = b)) as [->|Hc].
  - rewrite lookup_insert_eq, lookup_alter_ne, lookup_insert_eq by done. done.
  - rewrite lookup_insert_ne by done. destruct (decide (l.1 = c)) as [<-|Hl].
    + by rewrite !lookup_alter_eq, lookup_insert_ne.
    + by rewrite !lookup_alter_ne, lookup_insert_ne.
Qed.

Lemma upds_delete m us b : Forall (fun u => u.1.1 <> b) us -> delete b (upds m us) = upds (delete b m) us.
Proof.
  induction us as [|[l' v'] us IH] using rev_ind; [done|]. intros [H1 H2]%Forall_app.
  rewrite !upds_snoc, upd_delete, IH; [done|done|]. by inversion H2.
Qed.

Lemma upds_insert m us b o : Forall (fun u => u.1.1 <> b) us -> <[b := o]> (upds m us) = upds (<[b := o]> m) us.
Proof.
  induction us as [|[l' v'] us IH] using rev_ind; [done|]. intros [H1 H2]%Forall_app.
  rewrite !upds_snoc, upd_insert, IH; [done|done|]. by inversion H2.
Qed.
End upds.

Section crit.
(** The words of the lock. *)
Variable L : list loc.
Implicit Types (m : mem) (us : list (loc * Z)).

Definition lock_writes us : Prop := Forall (fun u => u.1 ∈ L) us.

Fixpoint crit {A : Type} (p : prog mem A) m (Q : A -> mem -> Prop) : Prop :=
  match p with
  | Ret a => Q a m
  | Stop _ => False
  | Atomic _ f k => forall us, lock_writes us -> exists r m',
      f (upds m us) = Ok (r, upds m' us) /\ (forall l, l ∈ L -> get m' l = get m l /\ inb m' l = inb m l) /\ crit (k r) m' Q
  end.

Lemma crit_ret {A} (a : A) m (Q : A -> mem -> Prop) : Q a m -> crit (Ret a) m Q.
Proof. done. Qed.

Lemma crit_mono {A} (p : prog mem A) m (P Q : A -> mem -> Prop) :
  crit p m P -> (forall a m', P a m' -> Q a m') -> crit p m Q.
Proof.
  intros Hp HPQ. revert m Hp. induction p as [a|e|R f k IH]; intros m Hp; simpl in *; auto.
  intros us Hus. destruct (Hp us Hus) as (r & m' & E & Hl & Hk). eauto 10.
Qed.

Lemma crit_bind {A B} (p : prog mem A) (k : A -> prog mem B) m (Q : B -> mem -> Prop) :
  crit p m (fun a m' => crit (k a) m' Q) -> crit (pbind k p) m Q.
Proof.
  revert m. induction p as [a|e|R f k' IH]; intros m Hp; simpl in *; auto.
  intros us Hus. destruct (Hp us Hus) as (r & m' & E & Hl & Hk). eauto 10.
Qed.

Lemma crit_loop {St A} (I : nat -> St -> mem -> Prop) (body : St -> prog mem (St + A)) fuel n st m (Q : A -> mem -> Prop) :
  (forall n st m, I n st m -> crit (body st) m (fun r m' => match r with
     | inl st' => exists n', (n' < n)%nat /\ I n' st' m' | inr a => Q a m' end)) ->
  (n < fuel)%nat -> I n st m -> crit (loop fuel body st) m Q.
Proof.
  intros Hb. revert n st m. induction fuel as [|fuel IH]; intros n st m Hf HI; [lia|].
  change (loop (S fuel) body st) with
    (pbind (fun r => match r with inl st' => loop fuel body st' | inr a => Ret a end) (body st)).
  apply crit_bind. eapply crit_mono; [apply (Hb n st m HI)|].
  intros [st'|a] m'; [|done]. intros (n' & Hn & HI'). apply (IH n'); [lia|done].
Qed.

Lemma lock_writes_ne us l : lock_writes us -> l ∉ L -> Forall (fun u => u.1 <> l) us.
Proof. intros H Hl. eapply Forall_impl; [exact H|]. intros u Hu <-. done. Qed.

Lemma lock_writes_out us b : lock_writes us -> (forall l, l ∈ L -> l.1 <> b) -> Forall (fun u => u.1.1 <> b) us.
Proof. intros H Hl. eapply Forall_impl; [exact H|]. intros u Hu. by apply Hl. Qed.

Lemma crit_load m l v (Q : Z -> mem -> Prop) : l ∉ L -> get m l = Some v -> Q v m -> crit (load l) m Q.
Proof.
  intros Hl Hg HQ us Hus. exists v, m. rewrite get_upds_out by (by apply lock_writes_ne). by rewrite Hg.
Qed.

Lemma crit_store m l v (Q : unit -> mem -> Prop) :
  l ∉ L -> inb m l = true -> Q tt (upd m l v) -> crit (store l v) m Q.
Proof.
  intros Hl Hi HQ us Hus. exists tt, (upd m l v). rewrite inb_upds, Hi, upds_upd by (by apply lock_writes_ne).
  split_and!; [done| |done]. intros l' Hl'. rewrite inb_upd, get_upd_ne by congruence. done.
Qed.

Lemma crit_free m p (Q : unit -> mem -> Prop) :
  (forall l, l ∈ L -> l.1 <> p) -> p <> NULL -> live m p -> Q tt (delete p m) -> crit (free p) m Q.
Proof.
  intros Hl Hp Hlive HQ us Hus. exists tt, (delete p m). apply Z.eqb_neq in Hp. rewrite Hp.
  apply (live_upds m us) in Hlive as [o Ho]. rewrite Ho, upds_delete by (by apply lock_writes_out).
  split_and!; [done| |done]. intros [b off] Hl'. specialize (Hl _ Hl'). simpl in Hl.
  rewrite get_delete_ne by (simpl; congruence). split; [done|]. apply inb_lookup_eq. by rewrite lookup_delete_ne by congruence.
Qed.

Lemma crit_new_obj `{Malloc} m o (Q : Z -> mem -> Prop) :
  (forall l, l ∈ L -> live m l.1) ->
  (forall us, lock_writes us -> malloc_addr (upds m us) (osize o) <> NULL) ->
  (forall us a, lock_writes us -> a = malloc_addr (upds m us) (osize o) ->
     a <> NULL -> a mod 16 = 0 -> 0 < a < M64 -> m !! a = None -> Q a (<[a := o]> m)) ->
  crit (new_obj o) m Q.
Proof.
  intros Hl Hr HQ us Hus. specialize (Hr us Hus). set (a := malloc_addr (upds m us) (osize o)) in *.
  assert (Hf : m !! a = None).
  { apply eq_None_not_Some. intros Ha. apply (live_upds m us) in Ha. pose proof (malloc_range (upds m us) (osize o) Hr).
    destruct Ha as [o' Ho']. assert (upds m us !! a = None) by (eapply malloc_fresh; [exact Hr|fold a; lia]). congruence. }
  assert (Hne : forall l, l ∈ L -> l.1 <> a).
  { intros l Hin E. destruct (Hl l Hin) as [o' Ho']. congruence. }
  exists a, (<[a := o]> m). simpl. fold a. apply Z.eqb_neq in Hr as Hr'. rewrite Hr', upds_insert by (by apply lock_writes_out).
  split_and!; [done| |].
  - intros [b off] Hl'. specialize (Hne _ Hl'). simpl in Hne. rewrite get_insert_ne by (simpl; congruence).
    split; [done|]. apply inb_lookup_eq. by rewrite lookup_insert_ne by congruence.
  - apply (HQ us); [done|done|done|apply malloc_aligned| |done]. pose proof (malloc_range (upds m us) (osize o) Hr). fold a in H0. lia.
Qed.

(** The words of the lock keep their values. *)
Lemma crit_words {A} (p : prog mem A) m (Q : A -> mem -> Prop) : crit p m Q ->
  crit p m (fun a m' => Q a m' /\ forall l, l ∈ L -> get m' l = get m l /\ inb m' l = inb m l).
Proof.
  revert m. induction p as [a|e|R f k IH]; intros m Hp; simpl in *; [auto|done|].
  intros us Hus. destruct (Hp us Hus) as (r & m' & E & Hl & Hk). exists r, m'. split_and!; [done|done|].
  eapply crit_mono; [apply IH, Hk|]. intros a m2 [HQ H2]. split; [done|]. intros l Hin.
  destruct (H2 l Hin) as [-> ->]. by apply Hl.
Qed.

Lemma crit_tot {A} (p : prog mem A) m (Q : A -> mem -> Prop) : crit p m Q -> tot p m Q.
Proof.
  revert m. induction p as [a|e|R f k IH]; intros m Hp; simpl in *; [done|done|].
  destruct (Hp [] ltac:(constructor)) as (r & m' & E & _ & Hk). unfold tot. simpl. unfold upds in E. simpl in E.
  rewrite E. by apply IH.
Qed.
End crit.
