(* ===== verification/LockSerial.v ===== *)
(** * Operations that run under a spin lock are serialised

    [lock_serial]: operations whose bodies run between [spin_lock] and
    [spin_unlock] take effect one after the other, in the order in which they
    release the lock, under every interleaving of any number of threads.  The
    body is proved once, alone, with the logic of critical sections. *)
From S2P Require Export Atomic Critical.

(** A thread that performs a list of operations. *)
Fixpoint op_client {Op Res : Type} (op : Op -> prog mem Res) (os : list Op) : prog mem (list Res) :=
  match os with
  | [] => Ret []
  | o :: os' => r <- op o ;; rs <- op_client op os' ;; Ret (r :: rs)
  end.

(** ** Histories of operations *)
Section histories.
Context {Op Res X : Type}.
Variable step : Op -> X -> Res * X.
Implicit Types (log : list (nat * (Op * Res))) (x : X).

(** Each operation gets the answer of the abstract state it finds. *)
Fixpoint legal log x : Prop :=
  match log with
  | [] => True
  | (_, (o, r)) :: log' => r = (step o x).1 /\ legal log' (step o x).2
  end.

Fixpoint after log x : X :=
  match log with
  | [] => x
  | (_, (o, _)) :: log' => after log' (step o x).2
  end.

(** The operations of thread [i] with their answers. *)
Definition mine (i : nat) log : list (Op * Res) := map snd (filter (fun e => fst e = i) log).

Lemma legal_snoc log x i o r : legal log x -> r = (step o (after log x)).1 -> legal (log ++ [(i, (o, r))]) x.
Proof.
  revert x. induction log as [|[j [o' r']] log IH]; intros x; simpl; [auto|]. intros [H1 H2] Hr. auto.
Qed.

Lemma after_snoc log x i o r : after (log ++ [(i, (o, r))]) x = (step o (after log x)).2.
Proof. revert x. induction log as [|[j [o' r']] log IH]; intros x; simpl; auto. Qed.

Lemma mine_snoc i j e log : mine i (log ++ [(j, e)]) = mine i log ++ (if decide (j = i) then [e] else []).
Proof.
  unfold mine. rewrite filter_app, map_app. f_equal. destruct (decide (j = i)) as [Hji|Hji].
  - by rewrite filter_cons_True.
  - by rewrite filter_cons_False.
Qed.

Lemma mine_sum log j e a k :
  sum_list (map (fun i => length (mine i (log ++ [(j, e)]))) (seq a k)) =
  (sum_list (map (fun i => length (mine i log)) (seq a k)) + if decide (a <= j < a + k)%nat then 1 else 0)%nat.
Proof.
  revert a. induction k as [|k IH]; intros a; simpl; [by rewrite decide_False by lia|].
  rewrite IH, mine_snoc, length_app. repeat case_decide; simpl; lia.
Qed.

(** The length of a history in which only threads below [n] occur. *)
Lemma mine_length n log : (forall i, (n <= i)%nat -> mine i log = []) ->
  length log = sum_list (map (fun i => length (mine i log)) (seq 0 n)).
Proof.
  induction log as [|[j e] log IH] using rev_ind; intros Hn.
  - simpl. clear. induction (seq 0 n); simpl; auto.
  - assert (Hj : (j < n)%nat).
    { destruct (decide (j < n)%nat) as [|Hge]; [done|]. specialize (Hn j ltac:(lia)).
      rewrite mine_snoc, decide_True in Hn by done. by apply app_eq_nil in Hn as [_ ?]. }
    rewrite mine_sum, decide_True by lia. rewrite <- IH; [by rewrite length_app|].
    intros i Hi. specialize (Hn i Hi). rewrite mine_snoc in Hn. by apply app_eq_nil in Hn as [? _].
Qed.

(** There is room for one more operation of thread [i]. *)
Lemma mine_room n log (cap : nat -> nat) k0 i : (forall i, (n <= i)%nat -> mine i log = []) ->
  (forall j, length (mine j log) <= cap j)%nat -> (i < n)%nat -> (length (mine i log) < cap i)%nat ->
  (sum_list (map cap (seq 0 n)) <= k0)%nat -> (length log < k0)%nat.
Proof.
  intros Hn Hc Hi Hlt Hk. rewrite (mine_length n log Hn).
  assert (Hsum : forall a k, (sum_list (map (fun j => length (mine j log)) (seq a k)) <= sum_list (map cap (seq a k)))%nat /\
    ((a <= i < a + k)%nat -> (sum_list (map (fun j => length (mine j log)) (seq a k)) < sum_list (map cap (seq a k)))%nat)).
  { intros a k. revert a. induction k as [|k IH]; intros a; simpl; [split; lia|].
    destruct (IH (S a)) as [H1 H2]. specialize (Hc a) as Ha. split; [lia|]. intros Hai.
    destruct (decide (i = a)) as [->|Hne]; [lia|]. specialize (H2 ltac:(lia)). lia. }
  destruct (Hsum 0%nat n) as [_ H]. specialize (H ltac:(lia)). lia.
Qed.
End histories.

(** ** Serialisation *)
Section serial.
Context {Op Res X : Type}.
Variables (fuel : nat) (lk : loc) (step : Op -> X -> Res * X).
(** [Rep k x m]: the lock is free, [m] represents [x], and there is room for
    [k] more operations. *)
Variable Rep : nat -> X -> mem -> Prop.
(** What is done with the lock held. *)
Variable body : nat -> Op -> prog mem Res.

Definition locked_op (i : nat) (o : Op) : prog mem Res :=
  spin_lock fuel lk ;;
  r <- body i o ;;
  spin_unlock lk ;;
  Ret r.

Hypothesis Rep_free : forall k x m, Rep k x m -> get m lk = Some 0.
Variable ok_op : Op -> Prop.
Hypothesis body_ok : forall i o k x m, ok_op o -> Rep (S k) x m ->
  crit [lk] (body i o) m (fun r m' => r = (step o x).1 /\ Rep k (step o x).2 m').

Record lghost := LGhost {
  lg_holder : option nat;                (* who holds the lock *)
  lg_log : list (nat * (Op * Res))       (* the operations that released it *)
}.
Abbreviation lstate := (mem * lghost)%type.

(** The operations of each thread, and the state the pool starts from. *)
Variables (n k0 : nat) (cap : nat -> nat) (x0 : X).
Hypothesis Hcap : (sum_list (map cap (seq 0 n)) <= k0)%nat.

Record LInv (x : lstate) : Prop := {
  li_legal : legal step (lg_log x.2) x0;
  li_free : lg_holder x.2 = None -> Rep (k0 - length (lg_log x.2)) (after step (lg_log x.2) x0) x.1;
  li_held : forall i, lg_holder x.2 = Some i -> get x.1 lk = Some 1 /\ (i < n)%nat;
  li_cap : forall i, (length (mine i (lg_log x.2)) <= cap i)%nat;
  li_threads : forall i, (n <= i)%nat -> mine i (lg_log x.2) = []
}.

(** While a thread holds the lock, the others change nothing. *)
Record lsees (i : nat) (x y : lstate) : Prop := {
  ls_inv : LInv x -> LInv y;
  ls_mine : mine i (lg_log y.2) = mine i (lg_log x.2);
  ls_held : lg_holder x.2 = Some i -> y = x;
  ls_holder : lg_holder y.2 = Some i -> lg_holder x.2 = Some i;
  ls_log : lg_log x.2 `prefix_of` lg_log y.2
}.

Definition LG (i : nat) (x y : lstate) : Prop := forall j, j <> i -> lsees j x y.

(** A step of thread [i] that has begun the operations [os]. *)
Definition LGo (i : nat) (os : list Op) (x y : lstate) : Prop :=
  LG i x y /\ (lg_log y.2 = lg_log x.2 \/ map fst (mine i (lg_log y.2)) `prefix_of` os).

#[export] Instance lsees_preorder i : PreOrder (lsees i).
Proof.
  split.
  - intros x. split; auto.
  - intros x y z [A1 A2 A3 A4 A5] [B1 B2 B3 B4 B5]. split; auto; [congruence| |by etrans].
    intros H. rewrite (A3 H) in *. auto.
Qed.

(** The state between two operations of thread [i]. *)
Definition idle (i : nat) (es : list (Op * Res)) (x : lstate) : Prop :=
  LInv x /\ lg_holder x.2 <> Some i /\ mine i (lg_log x.2) = es.

Lemma idle_stable i es x y : idle i es x -> lsees i x y -> idle i es y.
Proof. intros (H1 & H2 & H3) [S1 S2 S3 S4 _]. split_and!; auto. congruence. Qed.

(** A step that changes neither memory nor ghost state. *)
Lemma LGo_refl i os x : LGo i os x x.
Proof. split; [intros j _; reflexivity|by left]. Qed.

(** The state of a thread that has just got the lock. *)
Definition holding (i : nat) (es : list (Op * Res)) (x : lstate) : Prop :=
  LInv x /\ lg_holder x.2 = Some i /\ mine i (lg_log x.2) = es /\
  exists m, x.1 = upd m lk 1 /\ Rep (k0 - length (lg_log x.2)) (after step (lg_log x.2) x0) m.

Lemma rg_spin_lock i os es x : (i < n)%nat -> idle i es x ->
  rg (lsees i) (LGo i os) (spin_lock fuel lk) (fun _ y => holding i es y) x.
Proof.
  intros Hi Hx. unfold spin_lock. apply (rg_loop (lsees i) (LGo i os) (fun _ y => idle i es y)); [|done].
  clear x Hx. intros _ x Hx. apply rg_bind. unfold atomic_cmpxchg4, rmw. apply rg_act.
  intros y HR. pose proof (idle_stable _ _ _ _ Hx HR) as Hy. clear x Hx HR.
  destruct y as [m [h log]]. pose proof Hy as (HI & Hh & Hm). simpl in *.
  destruct h as [j|].
  - assert (Hg : get m lk = Some 1) by (by apply (li_held _ HI j)). rewrite Hg. simpl.
    rewrite (upd_same _ _ _ Hg). exists 1, m, (LGhost (Some j) log). split_and!; [done|apply LGo_refl|]. simpl.
    apply rg_bind. apply (rg_loop (lsees i) (LGo i os) (fun _ y => idle i es y)); [|done].
    clear -Rep_free. intros _ x Hx. apply rg_bind. unfold load. apply rg_act. intros y HR.
    pose proof (idle_stable _ _ _ _ Hx HR) as Hy. destruct y as [m [h log]]. pose proof Hy as (HI & _ & Hm). simpl in *.
    assert (Hg : exists v, get m lk = Some v).
    { destruct h as [j|]; [exists 1; by apply (li_held _ HI j)|exists 0]. eapply Rep_free. by apply (li_free _ HI). }
    destruct Hg as [v ->]. exists v, m, (LGhost h log). split_and!; [done|apply LGo_refl|].
    destruct (v =? 0); by apply Hy.
  - pose proof (li_free _ HI eq_refl) as HRep. simpl in HRep. pose proof (Rep_free _ _ _ HRep) as Hg.
    rewrite Hg. simpl. exists 0, (upd m lk 1), (LGhost (Some i) log). split; [done|]. simpl.
    assert (HI' : LInv (upd m lk 1, LGhost (Some i) log)).
    { destruct HI as [I1 I2 I3 I4 I5]. split; simpl in *; auto; [done|].
      intros j [= <-]. split; [|done]. apply get_upd_eq. by apply live_get in Hg. }
    split.
    + split; [|by left]. intros j Hj. split; simpl; auto; [done|congruence].
    + split_and!; auto. exists m. auto.
Qed.

(** Code that holds the lock runs as it does alone. *)
Lemma rg_crit_held {A} i os (p : prog mem A) v log (Q : A -> mem -> Prop) :
  crit [lk] p v Q -> LInv (upd v lk 1, LGhost (Some i) log) -> get v lk = Some 0 ->
  rg (lsees i) (LGo i os) p (fun a y => exists v', y = (upd v' lk 1, LGhost (Some i) log) /\ LInv y /\
    get v' lk = Some 0 /\ Q a v') (upd v lk 1, LGhost (Some i) log).
Proof.
  revert v. induction p as [a|e|R f k IH]; intros v Hp HI Hg; [by exists v|done|].
  intros y HR. assert (y = (upd v lk 1, LGhost (Some i) log)) as -> by (by apply (ls_held _ _ _ HR)).
  destruct (Hp [(lk, 1)]) as (r & v' & Ef & Hw & Hk); [by apply Forall_singleton, list_elem_of_singleton|].
  destruct (Hw lk ltac:(left)) as [Hg' _]. rewrite Hg in Hg'.
  change (upds v [(lk, 1)]) with (upd v lk 1) in Ef. change (upds v' [(lk, 1)]) with (upd v' lk 1) in Ef.
  cbn [fst]. rewrite Ef. exists (LGhost (Some i) log).
  assert (HI' : LInv (upd v' lk 1, LGhost (Some i) log)).
  { destruct HI as [I1 I2 I3 I4 I5]. split; simpl in *; auto; [done|]. intros j Hj.
    split; [apply get_upd_eq; by eapply live_get|by apply (I3 j)]. }
  split; [|by apply IH]. split; [|by left]. intros j Hj. split; simpl; auto; congruence.
Qed.

(** The release puts the operation into the history. *)
Lemma rg_spin_unlock i o k es v log : (i < n)%nat -> (length es < cap i)%nat ->
  LInv (upd v lk 1, LGhost (Some i) log) -> get v lk = Some 0 -> mine i log = es ->
  (k0 - length log = S k)%nat -> Rep k (step o (after step log x0)).2 v ->
  rg (lsees i) (LGo i (map fst es ++ [o])) (spin_unlock lk) (fun _ y => idle i (es ++ [(o, (step o (after step log x0)).1)]) y)
    (upd v lk 1, LGhost (Some i) log).
Proof.
  intros Hi Hes HI Hg Hm Ek HRep. set (r := (step o (after step log x0)).1). unfold spin_unlock, atomic_xchg4, rmw.
  apply rg_bind. cbn [rg spin_unlock_barrier]. apply rg_bind. apply rg_act. intros y HR.
  assert (y = (upd v lk 1, LGhost (Some i) log)) as -> by (by apply (ls_held _ _ _ HR)). cbn [fst].
  rewrite get_upd_eq by (by eapply live_get). assert (E : upd (upd v lk 1) lk 0 = v) by (by rewrite upd_upd, upd_same).
  exists 1, v, (LGhost None (log ++ [(i, (o, r))])). split; [by rewrite <- E at 2|].
  assert (HI' : LInv (v, LGhost None (log ++ [(i, (o, r))]))).
  { destruct HI as [I1 I2 I3 I4 I5]. split; simpl in *.
    - by apply legal_snoc.
    - intros _. rewrite after_snoc, length_app. simpl. by replace (k0 - (length log + 1))%nat with k by lia.
    - done.
    - intros j. rewrite mine_snoc, length_app. destruct (decide (i = j)) as [<-|]; simpl; [rewrite Hm; lia|].
      specialize (I4 j). lia.
    - intros j Hj. rewrite mine_snoc, decide_False by lia. by rewrite app_nil_r, I5. }
  split.
  - split; [|right; simpl; by rewrite mine_snoc, decide_True, Hm, map_app]. intros j Hj.
    split; simpl; auto; [|congruence|done|by apply prefix_app_r]. by rewrite mine_snoc, decide_False, app_nil_r by congruence.
  - split_and!; [done|done|]. simpl. by rewrite mine_snoc, decide_True, Hm.
Qed.

Lemma rg_locked_op i o es x : (i < n)%nat -> (length es < cap i)%nat -> ok_op o -> idle i es x ->
  rg (lsees i) (LGo i (map fst es ++ [o])) (locked_op i o) (fun r y => idle i (es ++ [(o, r)]) y) x.
Proof.
  intros Hi Hes Ho Hx. apply rg_bind. eapply rg_mono; [by apply (rg_spin_lock i _ es)|]. clear x Hx.
  intros [] [m [h log]] (HI & Hh & Hm & m0 & Em & HRep). simpl in *. subst h m.
  assert (Hlt : (length log < k0)%nat).
  { eapply (mine_room n log cap k0 i); [apply (li_threads _ HI)|apply (li_cap _ HI)|done|by rewrite Hm|done]. }
  destruct (k0 - length log)%nat as [|k] eqn:Ek; [lia|]. apply rg_bind.
  eapply rg_mono; [eapply (rg_crit_held i); [by apply (body_ok i o k (after step log x0) m0)|done|by eapply Rep_free]|].
  intros r y (v & -> & HI1 & Hg & -> & HRep'). apply rg_bind.
  eapply rg_mono; [by apply (rg_spin_unlock i o k es v log)|]. done.
Qed.

(** When no thread has the lock, the memory represents the state of the history. *)
Lemma lock_at_rest m g (es : nat -> list (Op * Res)) : LInv (m, g) ->
  (forall i, (i < n)%nat -> idle i (es i) (m, g)) -> Rep (k0 - length (lg_log g)) (after step (lg_log g) x0) m.
Proof.
  intros HI Hid. apply (li_free _ HI). simpl. destruct (lg_holder g) as [i|] eqn:Eh; [|done].
  destruct (li_held _ HI i Eh) as [_ Hi]. by destruct (Hid i Hi) as (_ & Hne & _).
Qed.

(** Code that does the same actions as an operation under the lock. *)
Variable op : nat -> Op -> prog mem Res.
Hypothesis op_eq : forall i o, ok_op o -> locked_op i o ≈ op i o.

Lemma rg_lock_client i os es x : (i < n)%nat -> (length es + length os <= cap i)%nat -> Forall ok_op os ->
  idle i es x ->
  rg (lsees i) (LG i) (op_client (op i) os) (fun rs y => idle i (es ++ zip os rs) y /\ length rs = length os) x.
Proof.
  intros Hi. revert es x. induction os as [|o os IH]; intros es x Hc Hok Hx; simpl in *.
  - by rewrite app_nil_r.
  - apply Forall_cons in Hok as [Ho Hok]. apply rg_bind.
    apply (rg_peq _ _ (locked_op i o)); [by apply op_eq|].
    eapply rg_mono; [eapply rg_weaken; [apply (rg_locked_op i o es); auto; lia|by intros y z [H _]]|].
    intros r y Hy. apply rg_bind. eapply rg_mono; [apply (IH _ _) in Hy; [exact Hy| |done]|].
    + rewrite length_app. simpl. lia.
    + intros rs z [Hz HL]. simpl. rewrite <- app_assoc in Hz. auto.
Qed.
End serial.

Section pool.
Context {Op Res X : Type}.
Variables (fuel : nat) (lk : loc) (step : Op -> X -> Res * X).
Variable Rep : nat -> X -> mem -> Prop.
Variables body op : nat -> Op -> prog mem Res.
Hypothesis Rep_free : forall k x m, Rep k x m -> get m lk = Some 0.
Variable ok_op : Op -> Prop.
Hypothesis body_ok : forall i o k x m, ok_op o -> Rep (S k) x m ->
  crit [lk] (body i o) m (fun r m' => r = (step o x).1 /\ Rep k (step o x).2 m').

Hypothesis op_eq : forall i o, ok_op o -> locked_op fuel lk body i o ≈ op i o.

Definition caps (ops : list (list Op)) (i : nat) : nat := length (default [] (ops !! i)).

Lemma caps_sum (ops : list (list Op)) :
  sum_list (map (caps ops) (seq 0 (length ops))) = sum_list (map length ops).
Proof.
  induction ops as [|os ops IH]; simpl; [done|]. f_equal. rewrite <- IH, <- seq_shift, map_map. done.
Qed.

Lemma lock_serial ops (sched : list nat) k0 x0 m :
  Rep k0 x0 m -> (sum_list (map length ops) <= k0)%nat -> Forall (Forall ok_op) ops ->
  match exec sched (imap (fun i os => op_client (op i) os) ops) m with
  | Ok (ps, m') => exists log, legal step log x0 /\
      (forall i rs, ps !! i = Some (Ret rs) -> exists os, ops !! i = Some os /\
         mine i log = zip os rs /\ length rs = length os) /\
      (Forall (fun p => exists rs, p = Ret rs) ps -> Rep (k0 - length log) (after step log x0) m')
  | Err e => e = EFuel
  end.
Proof.
  intros HRep Hk Hok. rewrite <- caps_sum in Hk. set (n := length ops) in *.
  set (J := LInv lk step Rep n k0 (caps ops) x0).
  set (Q := fun (i : nat) (rs : list Res) (y : mem * lghost) => exists os, ops !! i = Some os /\
    idle lk step Rep n k0 (caps ops) x0 i (zip os rs) y /\ length rs = length os).
  assert (HJ : J (m, LGhost None [])).
  { split; simpl; auto; [|done|intros; apply Nat.le_0_l]. intros _. by rewrite Nat.sub_0_r. }
  pose proof (rg_sound (lsees lk step Rep n k0 (caps ops) x0) (LG lk step Rep n k0 (caps ops) x0) Q) as HS.
  specialize (HS ltac:(intros i j x y Hij HG; by apply HG)).
  specialize (HS ltac:(intros i rs y y' (os & H1 & H2 & H3) HR; exists os; split_and!; auto; by eapply idle_stable)).
  specialize (HS J ltac:(intros i x y HG HI; by apply (ls_inv _ _ _ _ _ _ _ _ _ _ (HG (S i) ltac:(lia))))).
  specialize (HS sched (imap (fun i os => op_client (op i) os) ops) m (LGhost None [])).
  assert (Hpool : pool_ok (lsees lk step Rep n k0 (caps ops) x0) (LG lk step Rep n k0 (caps ops) x0) Q
    (imap (fun i os => op_client (op i) os) ops) (m, LGhost None [])).
  { intros i p Hp. apply list_lookup_imap_Some in Hp as (os & Hos & ->).
    eapply rg_mono; [eapply (rg_lock_client fuel lk step Rep body Rep_free ok_op body_ok n k0 (caps ops) x0 Hk op op_eq i os [])|].
    - unfold n. by eapply lookup_lt_Some.
    - unfold caps. rewrite Hos. simpl. lia.
    - rewrite Forall_lookup in Hok. by eapply Hok.
    - by split_and!.
    - intros rs y [H1 H2]. by exists os. }
  specialize (HS Hpool HJ). pose proof (exec_length sched (imap (fun i os => op_client (op i) os) ops) m) as HL.
  destruct (exec _ _ _) as [[ps m']|e]; [|exact HS]. destruct HS as ([h log] & Hok' & HI).
  specialize (HL _ _ eq_refl). rewrite length_imap in HL.
  exists log. split_and!; [apply HI|..].
  - intros i rs Hi. specialize (Hok' i _ Hi). destruct Hok' as (os & H1 & (_ & _ & H2) & H3). by exists os.
  - intros Hall. eapply (lock_at_rest lk step Rep n k0 (caps ops) x0 m' (LGhost h log) (fun i => mine i log)); [exact HI|].
    intros i Hi. destruct (lookup_lt_is_Some_2 ps i) as [p Hp]; [unfold n in Hi; lia|].
    rewrite Forall_lookup in Hall. destruct (Hall i p Hp) as [rs ->].
    destruct (Hok' i _ Hp) as (os & _ & Hid & _). pose proof (proj2 (proj2 Hid)) as E. simpl in E. by rewrite E.
Qed.
End pool.
