(* ===== verification/Linear.v ===== *)
(** * Linearisability

    A client that records when each of its operations is invoked and when it
    returns, the relation [linearizes] between such a record and a sequential
    history (each thread's operations in order with their answers, and no
    operation before one that had returned when it was invoked), and the proof
    that a rely/guarantee proof of the single operations gives it for every
    schedule. *)
From S2P Require Export LockSerial.

Section events.
Context {Op Res : Type}.

(** What a client observes: thread [i] begins [o], thread [i] got [r] for [o]. *)
Inductive event :=
| EInv (i : nat) (o : Op)
| ERes (i : nat) (o : Op) (r : Res).

Abbreviation recorded := (mem * list event)%type.
Abbreviation logged := (list (nat * (Op * Res))).
Implicit Types (h : list event) (log : logged).

(** Code of the program beside the record. *)
Fixpoint on_mem {A : Type} (p : prog mem A) : prog recorded A :=
  match p with
  | Ret a => Ret a
  | Stop e => Stop e
  | Atomic R f k =>
      Atomic R (fun s => match f s.1 with Ok (r, m) => Ok (r, (m, s.2)) | Err e => Err e end) (fun r => on_mem (k r))
  end.

Definition emit (e : event) : prog recorded unit := act (fun s => Ok (tt, (s.1, s.2 ++ [e]))).

(** A thread that performs a list of operations and records them. *)
Fixpoint hist_client (op : Op -> prog mem Res) (i : nat) (os : list Op) : prog recorded (list Res) :=
  match os with
  | [] => Ret []
  | o :: os' =>
      emit (EInv i o) ;;
      r <- on_mem (op o) ;;
      emit (ERes i o r) ;;
      rs <- hist_client op i os' ;;
      Ret (r :: rs)
  end.

(** The operations thread [i] has begun, and those that have returned. *)
Definition invoked (i : nat) h : list Op :=
  omap (fun e => match e with EInv j o => if decide (j = i) then Some o else None | _ => None end) h.
Definition completed (i : nat) h : list (Op * Res) :=
  omap (fun e => match e with ERes j o r => if decide (j = i) then Some (o, r) else None | _ => None end) h.

(** Operation number [a] of thread [i] comes before number [b] of thread [j]. *)
Definition before log (i a j b : nat) : Prop :=
  forall l, l `prefix_of` log -> (b < length (mine j l))%nat -> (a < length (mine i l))%nat.

(** The sequential history [log] explains what happened in [h]. *)
Record linearizes h log : Prop := {
  (* each thread's operations in its order: those that returned, with the answers they
     returned, and possibly the one it has begun *)
  lz_completed : forall i, completed i h `prefix_of` mine i log;
  lz_invoked : forall i, map fst (mine i log) `prefix_of` invoked i h;
  (* real-time order: what returned before an operation was invoked comes before it *)
  lz_order : forall h1 i o r h2 j o' h3, h = h1 ++ ERes i o r :: h2 ++ EInv j o' :: h3 ->
    before log i (length (completed i h1)) j (length (invoked j (h1 ++ ERes i o r :: h2)))
}.

(** ** Facts about records *)
Lemma mine_app i (l1 l2 : logged) : mine i (l1 ++ l2) = mine i l1 ++ mine i l2.
Proof. unfold mine. by rewrite filter_app, map_app. Qed.

Lemma mine_prefix i (l1 l2 : logged) : l1 `prefix_of` l2 -> mine i l1 `prefix_of` mine i l2.
Proof. intros [k ->]. rewrite mine_app. by apply prefix_app_r. Qed.

Lemma invoked_snoc i h e : invoked i (h ++ [e]) =
  invoked i h ++ match e with EInv j o => if decide (j = i) then [o] else [] | _ => [] end.
Proof. unfold invoked. rewrite omap_app. f_equal. destruct e as [j o|j o r]; simpl; [by destruct (decide (j = i))|done]. Qed.

Lemma completed_snoc i h e : completed i (h ++ [e]) =
  completed i h ++ match e with ERes j o r => if decide (j = i) then [(o, r)] else [] | _ => [] end.
Proof. unfold completed. rewrite omap_app. f_equal. destruct e as [j o|j o r]; simpl; [done|by destruct (decide (j = i))]. Qed.

(** ** Cuts

    [fits h l]: [l] has every operation that has returned in [h], and no
    operation that has not been invoked in [h]. *)
Definition fits h log : Prop :=
  forall i, completed i h `prefix_of` mine i log /\ map fst (mine i log) `prefix_of` invoked i h.

Definition hist_ok h log : Prop :=
  fits h log /\ forall h1, h1 `prefix_of` h -> exists l1, l1 `prefix_of` log /\ fits h1 l1.

Lemma hist_ok_linearizes h log : hist_ok h log -> linearizes h log.
Proof.
  intros [HF HC]. split; [intros i; apply HF..|]. intros h1 i o r h2 j o' h3 -> la Hla Hb.
  destruct (HC (h1 ++ ERes i o r :: h2)) as (l1 & Hl1 & Hf).
  { exists (EInv j o' :: h3). by rewrite <- app_assoc. }
  assert (Hp : l1 `prefix_of` la).
  { destruct (prefix_weak_total l1 la log Hl1 Hla) as [|Hp]; [done|]. exfalso.
    apply (mine_prefix j), prefix_length in Hp. destruct (Hf j) as [_ Hi]. apply prefix_length in Hi.
    rewrite length_map in Hi. lia. }
  apply (mine_prefix i), prefix_length in Hp. destruct (Hf i) as [Hi _]. apply prefix_length in Hi.
  replace (h1 ++ ERes i o r :: h2) with ((h1 ++ [ERes i o r]) ++ h2) in Hi by (by rewrite <- app_assoc).
  unfold completed in Hi at 1. rewrite omap_app, length_app in Hi. fold (completed i (h1 ++ [ERes i o r])) in Hi.
  rewrite completed_snoc, decide_True, length_app in Hi by done. simpl in Hi. lia.
Qed.

Lemma hist_ok_nil : hist_ok [] [].
Proof.
  assert (fits [] []) by (by intros i). split; [done|]. intros h1 ->%prefix_nil_inv. by exists [].
Qed.

(** A step of the code of thread [i]. *)
Lemma hist_ok_log i h l l' : hist_ok h l -> l `prefix_of` l' -> (forall j, j <> i -> mine j l' = mine j l) ->
  map fst (mine i l') `prefix_of` invoked i h -> hist_ok h l'.
Proof.
  intros [HF HC] Hl Hj Hi. split.
  - intros j. destruct (HF j) as [H1 H2]. split; [etrans; [exact H1|by apply mine_prefix]|].
    destruct (decide (j = i)) as [->|Hne]; [done|]. by rewrite Hj.
  - intros h1 Hh. destruct (HC h1 Hh) as (l1 & H1 & H2). exists l1. split; [by etrans|done].
Qed.

Lemma prefix_snoc {A} (l k : list A) x : l `prefix_of` k ++ [x] -> l = k ++ [x] \/ l `prefix_of` k.
Proof.
  intros [q Hq]. destruct q as [|y q _] using rev_ind; [left; by rewrite app_nil_r in Hq|right].
  rewrite app_assoc in Hq. apply app_inj_tail in Hq as [-> _]. by exists q.
Qed.

(** One more event. *)
Lemma hist_ok_event h e l : hist_ok h l -> fits (h ++ [e]) l -> hist_ok (h ++ [e]) l.
Proof.
  intros [HF HC] Hf. split; [done|]. intros h1 [->|Hh]%prefix_snoc; [by exists l|by apply HC].
Qed.

Lemma fits_inv h i o l : fits h l -> fits (h ++ [EInv i o]) l.
Proof.
  intros Hf j. destruct (Hf j) as [H1 H2]. rewrite completed_snoc, invoked_snoc, app_nil_r.
  split; [done|by apply prefix_app_r].
Qed.

Lemma fits_res h i o r l : fits h l -> mine i l = completed i h ++ [(o, r)] -> fits (h ++ [ERes i o r]) l.
Proof.
  intros Hf Hi j. destruct (Hf j) as [H1 H2]. rewrite completed_snoc, invoked_snoc, app_nil_r.
  split; [|done]. destruct (decide (i = j)) as [<-|]; [by rewrite Hi|by rewrite app_nil_r].
Qed.
End events.
Arguments event Op Res : clear implicits.

(** ** From single operations to pools of recorded clients *)
Section linear.
Context {Op Res Gh : Type}.
Variable log : Gh -> list (nat * (Op * Res)).
Abbreviation state := (mem * Gh)%type.
Abbreviation recorded := (mem * list (event Op Res))%type.
Abbreviation rstate := (recorded * Gh)%type.

(** What a thread sees of the steps of the others: its own operations stay,
    and the history grows at its end. *)
Variable sees : nat -> state -> state -> Prop.
Context `{Hpre : !forall i, PreOrder (sees i)}.
Hypothesis sees_mine : forall i x y, sees i x y -> mine i (log y.2) = mine i (log x.2).
Hypothesis sees_log : forall i x y, sees i x y -> log x.2 `prefix_of` log y.2.
Variable Inv : state -> Prop.
Hypothesis sees_inv : forall i x y, sees i x y -> Inv x -> Inv y.
Variable idle : nat -> list (Op * Res) -> state -> Prop.
Hypothesis idle_stable : forall i es x y, idle i es x -> sees i x y -> idle i es y.
Hypothesis idle_mine : forall i es x, idle i es x -> mine i (log x.2) = es.

Definition does (i : nat) (os : list Op) (x y : state) : Prop :=
  (forall j, j <> i -> sees j x y) /\ (log y.2 = log x.2 \/ map fst (mine i (log y.2)) `prefix_of` os).

Variables (op : nat -> Op -> prog mem Res) (n : nat) (cap : nat -> nat) (ok_op : Op -> Prop).
Hypothesis op_spec : forall i o es x, (i < n)%nat -> (length es < cap i)%nat -> ok_op o -> idle i es x ->
  rg (sees i) (does i (map fst es ++ [o])) (op i o) (fun r y => idle i (es ++ [(o, r)]) y) x.

Definition plain (x : rstate) : state := (x.1.1, x.2).
Abbreviation hist x := (snd (fst x)).

Record hsees (i : nat) (x y : rstate) : Prop := {
  hs_sees : sees i (plain x) (plain y);
  hs_inv : invoked i (hist y) = invoked i (hist x);
  hs_res : completed i (hist y) = completed i (hist x);
  hs_ok : hist_ok (hist x) (log x.2) -> hist_ok (hist y) (log y.2)
}.
Definition HG (i : nat) (x y : rstate) : Prop := forall j, j <> i -> hsees j x y.

#[local] Instance hsees_preorder i : PreOrder (hsees i).
Proof.
  split.
  - intros x. by split.
  - intros x y z [A1 A2 A3 A4] [B1 B2 B3 B4]. split; [by etrans|congruence|congruence|auto].
Qed.

(** Thread [i] has done [es] and has begun [os]. *)
Definition hidle (i : nat) (es : list (Op * Res)) (os : list Op) (ds : list (Op * Res)) (x : rstate) : Prop :=
  idle i es (plain x) /\ invoked i (hist x) = os /\ completed i (hist x) = ds.

Lemma hidle_stable i es os ds x y : hidle i es os ds x -> hsees i x y -> hidle i es os ds y.
Proof. intros (H1 & H2 & H3) []. split_and!; [by eapply idle_stable|congruence|congruence]. Qed.

(** Code that keeps its guarantee on the memory keeps the record in order. *)
Lemma rg_on_mem {A} i os (p : prog mem A) (Q : A -> state -> Prop) ds x :
  rg (sees i) (does i os) p Q (plain x) -> invoked i (hist x) = os -> completed i (hist x) = ds ->
  rg (hsees i) (HG i) (on_mem p)
    (fun a y => Q a (plain y) /\ invoked i (hist y) = os /\ completed i (hist y) = ds) x.
Proof.
  revert x. induction p as [a|e|R f k IH]; intros x Hp Hos Hds; [done|done|].
  intros [[m h] g] [HR H1 H2 H3]. specialize (Hp _ HR). simpl in *.
  destruct (f m) as [[r m']|e]; [|done]. destruct Hp as (g' & [HG1 HG2] & Hk). exists g'. split.
  - intros j Hj. split; [by apply HG1|done|done|]. intros Hok. simpl in *.
    destruct HG2 as [->|HG2]; [exact Hok|]. rewrite <- Hos, <- H1 in HG2.
    eapply (hist_ok_log i); [exact Hok|by apply (sees_log (S i) _ _ (HG1 (S i) ltac:(lia)))| |exact HG2].
    intros j' Hj'. exact (sees_mine j' _ _ (HG1 j' Hj')).
  - apply IH; simpl; [exact Hk|congruence|congruence].
Qed.

Lemma rg_emit i e es os ds x : hidle i es os ds x ->
  (match e with EInv j _ | ERes j _ _ => j = i end) ->
  (forall h l, fits h l -> mine i l = es -> completed i h = ds -> fits (h ++ [e]) l) ->
  rg (hsees i) (HG i) (emit e) (fun _ y => hidle i es
    (os ++ match e with EInv _ o => [o] | _ => [] end) (ds ++ match e with ERes _ o r => [(o, r)] | _ => [] end) y) x.
Proof.
  intros Hx He Hf. apply rg_act. intros [[m h] g] HR. apply (hidle_stable _ _ _ _ _ _ Hx) in HR as (H1 & H2 & H3).
  exists tt, (m, h ++ [e]), g. simpl in *. split_and!; [done|..].
  - intros j Hj. split; simpl; [reflexivity|..].
    + rewrite invoked_snoc. destruct e; subst; [rewrite decide_False by done|]; by rewrite app_nil_r.
    + rewrite completed_snoc. destruct e; subst; [|rewrite decide_False by done]; by rewrite app_nil_r.
    + intros Hok. apply hist_ok_event; [done|]. apply Hf; [apply Hok|by apply idle_mine in H1|done].
  - split_and!; [exact H1|..]; simpl.
    + rewrite invoked_snoc, H2. f_equal. destruct e; subst; [by rewrite decide_True|done].
    + rewrite completed_snoc, H3. f_equal. destruct e; subst; [done|by rewrite decide_True].
Qed.

Lemma rg_hist_client i os es x : (i < n)%nat -> (length es + length os <= cap i)%nat -> Forall ok_op os ->
  hidle i es (map fst es) es x ->
  rg (hsees i) (HG i) (hist_client (op i) i os)
    (fun rs y => hidle i (es ++ zip os rs) (map fst es ++ os) (es ++ zip os rs) y /\ length rs = length os) x.
Proof.
  intros Hi. revert es x. induction os as [|o os IH]; intros es x Hc Hok Hx; cbn [hist_client length] in *.
  - simpl. by rewrite !app_nil_r.
  - apply Forall_cons in Hok as [Ho Hok]. apply rg_bind.
    eapply rg_mono; [apply (rg_emit i (EInv i o) _ _ _ _ Hx); [done|intros h l Hf _ _; by apply fits_inv]|].
    clear x Hx. intros _ x (H1 & H2 & H3). cbn beta iota in H2, H3. rewrite app_nil_r in H3. apply rg_bind.
    eapply rg_mono; [eapply rg_on_mem; [apply (op_spec i o es); auto; lia|exact H2|exact H3]|].
    clear x H1 H2 H3. intros r x Hx. apply rg_bind.
    eapply rg_mono; [apply (rg_emit i (ERes i o r) _ _ _ _ Hx); [done|]|].
    { intros h l Hf Hm Hd. apply fits_res; [done|]. by rewrite Hm, Hd. }
    clear x Hx. intros [] x Hx. cbn beta iota in Hx. rewrite app_nil_r in Hx. apply rg_bind.
    eapply rg_mono; [apply (IH (es ++ [(o, r)])); [rewrite length_app; simpl; lia|done|by rewrite map_app]|].
    intros rs z [Hz HL]. rewrite map_app, <- !app_assoc in Hz. split; [exact Hz|]. simpl. by rewrite HL.
Qed.

(** Every schedule of the recorded clients is linearised by the history of the ghost state. *)
Lemma linear_pool (ops : list (list Op)) (sched : list nat) m g : n = length ops -> log g = [] -> Inv (m, g) ->
  (forall i, idle i [] (m, g)) -> (forall i, (length (default [] (ops !! i)) <= cap i)%nat) -> Forall (Forall ok_op) ops ->
  match exec sched (imap (fun i os => hist_client (op i) i os) ops) (m, []) with
  | Ok (ps, (m', h)) => exists g', Inv (m', g') /\ linearizes h (log g') /\
      forall i rs, ps !! i = Some (Ret rs) -> exists os, ops !! i = Some os /\ length rs = length os /\
        completed i h = zip os rs /\ idle i (zip os rs) (m', g')
  | Err e => e = EFuel
  end.
Proof.
  intros Hn Hlog HI Hid Hcap Hok.
  set (J := fun x : rstate => Inv (plain x) /\ hist_ok (hist x) (log x.2)).
  set (Q := fun (i : nat) (rs : list Res) (y : rstate) => exists os, ops !! i = Some os /\ length rs = length os /\
    hidle i (zip os rs) os (zip os rs) y).
  assert (HJ : J ((m, []), g)) by (split; [done|simpl; rewrite Hlog; apply hist_ok_nil]).
  pose proof (rg_sound hsees HG Q) as HS.
  specialize (HS ltac:(intros i j x y Hij HG; by apply HG)).
  specialize (HS ltac:(intros i rs y y' (os & H1 & H2 & H3) HR; exists os; split_and!; auto; by eapply hidle_stable)).
  specialize (HS J). specialize (HS ltac:(intros i x y HG [H1 H2]; destruct (HG (S i) ltac:(lia)); split; eauto)).
  specialize (HS sched (imap (fun i os => hist_client (op i) i os) ops) (m, []) g).
  assert (Hpool : pool_ok hsees HG Q (imap (fun i os => hist_client (op i) i os) ops) ((m, []), g)).
  { intros i p Hp. apply list_lookup_imap_Some in Hp as (os & Hos & ->). eapply rg_mono; [apply (rg_hist_client i os [])|].
    - rewrite Hn. by eapply lookup_lt_Some.
    - specialize (Hcap i). by rewrite Hos in Hcap.
    - rewrite Forall_lookup in Hok. by eapply Hok.
    - by split_and!.
    - intros rs y [H1 H2]. by exists os. }
  specialize (HS Hpool HJ). destruct (exec _ _ _) as [[ps [m' h]]|e]; [|exact HS]. destruct HS as (g' & Hp & H1 & H2).
  exists g'. split_and!; [exact H1|by apply hist_ok_linearizes|]. intros i rs Hi. specialize (Hp i _ Hi).
  destruct Hp as (os & E1 & E2 & E3 & _ & E4). by exists os.
Qed.
End linear.

(** ** Recording changes nothing

    Every execution of the plain clients is one of the recorded clients, with
    the same memory and the same errors. *)
Section covers.
Context {Op Res : Type}.
Abbreviation recorded := (mem * list (event Op Res))%type.

(** The same actions on the memory, with events in between. *)
Inductive records {A : Type} : prog recorded A -> prog mem A -> Prop :=
| rec_ret a : records (Ret a) (Ret a)
| rec_stop e : records (Stop e) (Stop e)
| rec_act (R : Set) (f : mem -> outcome (R * mem)) k k' : (forall r, records (k r) (k' r)) ->
    records (Atomic R (fun s => match f s.1 with Ok (r, m) => Ok (r, (m, s.2)) | Err e => Err e end) k) (Atomic R f k')
| rec_emit (e : event Op Res) k p : records (k tt) p ->
    records (Atomic unit (fun s => Ok (tt, (s.1, s.2 ++ [e]))) k) p.

Lemma records_bind {A B} (q : prog recorded A) (p : prog mem A) (k : A -> prog recorded B) (k' : A -> prog mem B) :
  records q p -> (forall a, records (k a) (k' a)) -> records (pbind k q) (pbind k' p).
Proof. intros H Hk. induction H as [a|e|R f k1 k1' _ IH|e k1 p _ IH]; [by apply Hk|apply rec_stop|by apply rec_act|by apply rec_emit]. Qed.

Lemma records_on_mem {A} (p : prog mem A) : records (on_mem p) p.
Proof. induction p; simpl; by constructor. Qed.

Lemma records_client (op : Op -> prog mem Res) i os : records (hist_client op i os) (op_client op os).
Proof.
  induction os as [|o os IH]; cbn [hist_client op_client]; [constructor|]. apply (rec_emit (EInv i o)).
  apply records_bind; [apply records_on_mem|]. intros r. apply (rec_emit (ERes i o r)).
  apply records_bind; [exact IH|]. intros rs. constructor.
Qed.

Lemma records_step {A} i (q : prog recorded A) (p : prog mem A) : records q p ->
  forall qs m h, qs !! i = Some q -> exists sched,
  match pstep p m with
  | Ok (p', m') => exists q' h', exec sched qs (m, h) = Ok (<[i := q']> qs, (m', h')) /\ records q' p'
  | Err e => exec sched qs (m, h) = Err e
  end.
Proof.
  induction 1 as [a|e|R f k k' Hk IH|e k p Hk IH]; intros qs m h Hi.
  - exists []. simpl. exists (Ret a), h. split; [by rewrite list_insert_id|constructor].
  - exists [i]. simpl. by rewrite Hi.
  - exists [i]. simpl. rewrite Hi. simpl. destruct (f m) as [[r m']|e]; simpl; [|done].
    exists (k r), h. split; [done|apply Hk].
  - destruct (IH (<[i := k tt]> qs) m (h ++ [e])) as [sched Hs].
    { apply list_lookup_insert_eq. by eapply lookup_lt_Some. }
    exists (i :: sched). simpl. rewrite Hi. simpl. destruct (pstep p m) as [[p' m']|e']; [|done].
    destruct Hs as (q' & h' & -> & Hq). exists q', h'. by rewrite list_insert_insert_eq.
Qed.

Lemma exec_records {A} (sched : list nat) (qs : list (prog recorded A)) ps m h : Forall2 records qs ps ->
  exists sched', match exec sched ps m with
  | Ok (ps', m') => exists qs' h', exec sched' qs (m, h) = Ok (qs', (m', h')) /\ Forall2 records qs' ps'
  | Err e => exec sched' qs (m, h) = Err e
  end.
Proof.
  revert qs ps m h. induction sched as [|i sched IH]; intros qs ps m h Hqs; [exists []; simpl; eauto|]. simpl.
  destruct (ps !! i) as [p|] eqn:Hp; [|by apply IH].
  destruct (Forall2_lookup_r _ _ _ _ _ Hqs Hp) as (q & Hq & Hr).
  destruct (records_step i q p Hr qs m h Hq) as [sc1 H1]. destruct (pstep p m) as [[p' m']|e]; [|by exists sc1].
  destruct H1 as (q' & h' & H1 & Hr'). destruct (IH (<[i := q']> qs) (<[i := p']> ps) m' h') as [sc2 H2].
  { by apply Forall2_insert. }
  exists (sc1 ++ sc2). rewrite exec_app, H1. exact H2.
Qed.

(** Any schedule of the plain clients is matched by one of the recorded clients. *)
Theorem hist_covers (op : nat -> Op -> prog mem Res) (ops : list (list Op)) (sched : list nat) m :
  exists sched', match exec sched (imap (fun i os => op_client (op i) os) ops) m with
  | Ok (ps, m') => exists qs h, exec sched' (imap (fun i os => hist_client (op i) i os) ops) (m, []) = Ok (qs, (m', h)) /\
      Forall2 records qs ps
  | Err e => exec sched' (imap (fun i os => hist_client (op i) i os) ops) (m, []) = Err e
  end.
Proof.
  apply exec_records. apply Forall2_lookup. intros i. rewrite !list_lookup_imap.
  destruct (ops !! i) as [os|]; constructor. apply records_client.
Qed.
End covers.

(** ** Operations under a spin lock *)
Section lock_linear.
Context {Op Res X : Type}.
Variables (fuel : nat) (lk : loc) (step : Op -> X -> Res * X).
Variable Rep : nat -> X -> mem -> Prop.
Variables body op : nat -> Op -> prog mem Res.
Hypothesis Rep_free : forall k x m, Rep k x m -> get m lk = Some 0.
Variable ok_op : Op -> Prop.
Hypothesis body_ok : forall i o k x m, ok_op o -> Rep (S k) x m ->
  crit [lk] (body i o) m (fun r m' => r = (step o x).1 /\ Rep k (step o x).2 m').
Hypothesis op_eq : forall i o, ok_op o -> locked_op fuel lk body i o ≈ op i o.

Lemma lock_linear ops (sched : list nat) k0 x0 m :
  Rep k0 x0 m -> (sum_list (map length ops) <= k0)%nat -> Forall (Forall ok_op) ops ->
  match exec sched (imap (fun i os => hist_client (op i) i os) ops) (m, []) with
  | Ok (ps, (m', h)) => exists log, legal step log x0 /\ linearizes h log /\
      (forall i rs, ps !! i = Some (Ret rs) -> exists os, ops !! i = Some os /\ length rs = length os /\
         completed i h = zip os rs /\ mine i log = zip os rs) /\
      (Forall (fun p => exists rs, p = Ret rs) ps -> Rep (k0 - length log) (after step log x0) m')
  | Err e => e = EFuel
  end.
Proof.
  intros HRep Hk Hok. rewrite <- caps_sum in Hk. set (n := length ops) in *.
  set (Inv := LInv lk step Rep n k0 (caps ops) x0).
  set (idl := idle (Op := Op) (Res := Res) lk step Rep n k0 (caps ops) x0).
  assert (HI : Inv (m, LGhost None [])).
  { split; simpl; auto; [|done|intros; apply Nat.le_0_l]. intros _. by rewrite Nat.sub_0_r. }
  pose proof (linear_pool lg_log (lsees lk step Rep n k0 (caps ops) x0)
    (fun i x y H => ls_mine _ _ _ _ _ _ _ _ _ _ H) (fun i x y H => ls_log _ _ _ _ _ _ _ _ _ _ H)
    Inv (fun i x y H => ls_inv _ _ _ _ _ _ _ _ _ _ H) idl (idle_stable lk step Rep n k0 (caps ops) x0)
    (fun i es x H => proj2 (proj2 H)) op n (caps ops) ok_op) as HS.
  specialize (HS ltac:(intros i o es x Hi Hc Ho Hx; apply (rg_peq _ _ (locked_op fuel lk body i o));
    [by apply op_eq|by apply (rg_locked_op fuel lk step Rep body Rep_free ok_op body_ok n k0 (caps ops) x0 Hk)])).
  specialize (HS ops sched m (LGhost None []) eq_refl eq_refl HI ltac:(intros i; by split_and!) ltac:(done) Hok).
  pose proof (exec_length sched (imap (fun i os => hist_client (op i) i os) ops) (m, [])) as HL.
  destruct (exec _ _ _) as [[ps [m' h]]|e]; [|exact HS]. destruct HS as (g & HI' & Hlin & Hps).
  specialize (HL _ _ eq_refl). rewrite length_imap in HL. exists (lg_log g). split_and!; [apply HI'|done|..].
  - intros i rs Hi. destruct (Hps i rs Hi) as (os & H1 & H2 & H3 & _ & _ & H4). by exists os.
  - intros Hall. eapply (lock_at_rest lk step Rep n k0 (caps ops) x0 m' g (fun i => mine i (lg_log g))); [exact HI'|].
    intros i Hi. destruct (lookup_lt_is_Some_2 ps i) as [p Hp]; [unfold n in Hi; lia|].
    rewrite Forall_lookup in Hall. destruct (Hall i p Hp) as [rs ->].
    destruct (Hps i _ Hp) as (os & _ & _ & _ & Hid). pose proof (proj2 (proj2 Hid)) as E. simpl in E. by rewrite E.
Qed.
End lock_linear.
