(* ===== verification/McsLock.v ===== *)
(** * The MCS queue lock under every interleaving (util.c, mcslock.h)

    [mcs_linear]: operations that run between [mcs_lock] and [mcs_unlock], each
    thread with its own queue node, are linearisable under every schedule of any
    number of threads, whatever the critical sections do to the memory outside
    the words of the lock. *)
From S2P Require Export Atomic Critical Linear.

(** ** Neighbours in a queue *)
Fixpoint prec (q : list nat) (a b : nat) : Prop :=
  match q with
  | [] => False
  | x :: q' => (x = a /\ head q' = Some b) \/ prec q' a b
  end.

Section prec.
Implicit Types (q : list nat).

Lemma head_in q a : head q = Some a -> a ∈ q.
Proof. destruct q; [done|]. intros [= ->]. left. Qed.

Lemma last_in q a : last q = Some a -> a ∈ q.
Proof. intros [q' ->]%last_Some. rewrite elem_of_app. right. left. Qed.

Lemma prec_in q a b : prec q a b -> a ∈ q /\ b ∈ q.
Proof.
  induction q as [|x q IH]; simpl; [done|]. intros [[-> H]|H].
  - split; [left|right; by apply head_in].
  - destruct (IH H). split; by right.
Qed.

Lemma prec_snoc q i a b : prec (q ++ [i]) a b <-> prec q a b \/ (last q = Some a /\ b = i).
Proof.
  induction q as [|x q IH]; simpl; [naive_solver|]. rewrite IH.
  destruct q as [|y q]; simpl; naive_solver.
Qed.

Lemma prec_head q a b : NoDup q -> prec q a b -> head q <> Some b.
Proof.
  destruct q as [|x q]; simpl; [done|]. intros [Hx _]%NoDup_cons [[-> H]|H] [= ->].
  - by apply head_in in H.
  - by apply prec_in in H as [_ H].
Qed.

Lemma prec_last q a b : NoDup q -> prec q a b -> last q <> Some a.
Proof.
  induction q as [|x q IH]; simpl; [done|]. intros [Hx Hq]%NoDup_cons H Hl.
  destruct q as [|y q]; [simpl in H; naive_solver|]. rewrite last_cons_cons in Hl.
  destruct H as [[-> H]|H]; [by apply last_in in Hl|]. by apply (IH Hq H).
Qed.

Lemma prec_fun q a b b' : NoDup q -> prec q a b -> prec q a b' -> b = b'.
Proof.
  induction q as [|x q IH]; simpl; [done|]. intros [Hx Hq]%NoDup_cons [[-> H]|H] [[E H']|H'].
  - congruence.
  - by apply prec_in in H' as [? _].
  - subst. by apply prec_in in H as [? _].
  - by apply IH.
Qed.

Lemma prec_inj q a a' b : NoDup q -> prec q a b -> prec q a' b -> a = a'.
Proof.
  induction q as [|x q IH]; simpl; [done|]. intros [Hx Hq]%NoDup_cons [[-> H]|H] [[E H']|H']; auto.
  - by eapply prec_head in H'.
  - by eapply prec_head in H.
Qed.

Lemma prec_ne q a b : NoDup q -> prec q a b -> a <> b.
Proof.
  induction q as [|x q IH]; simpl; [done|]. intros [Hx Hq]%NoDup_cons [[-> H]|H]; [|auto].
  intros ->. by apply head_in in H.
Qed.

Lemma in_prec q i : i ∈ q -> head q = Some i \/ exists a, prec q a i.
Proof.
  induction q as [|x q IH]; [by intros ?%elem_of_nil|]. intros [->|H]%elem_of_cons; [by left|]. right.
  destruct (IH H) as [E|[a Ha]]; [exists x; simpl; auto|exists a; simpl; auto].
Qed.
End prec.

(** ** The state of a thread in the queue

    [Out]: not in it; [Link0] and [Link1]: behind a thread to whose node it has
    not yet linked its own, before and after it stored TRUE in [locked]; [In]:
    linked, or first in the queue. *)
Inductive status := Out | Link0 | Link1 | In.
#[export] Instance status_eq_dec : EqDecision status.
Proof. solve_decision. Defined.

Definition st_set (i : nat) (s : status) (st : nat -> status) (j : nat) : status := if decide (j = i) then s else st j.

Lemma st_set_eq i s st : st_set i s st i = s.
Proof. unfold st_set. by rewrite decide_True. Qed.

Lemma st_set_ne i j s st : j <> i -> st_set i s st j = st j.
Proof. intros H. unfold st_set. by rewrite decide_False. Qed.

Section mcs.
Context {Op Res X : Type}.
Variables (fuel : nat) (lk : loc) (nd : nat -> Z) (n : nat) (step : Op -> X -> Res * X).
(** [Rep k x m]: [m] represents [x] and there is room for [k] operations. *)
Variable Rep : nat -> X -> mem -> Prop.
Variable body : nat -> Op -> prog mem Res.

Definition mcs_words : list loc :=
  lk :: flat_map (fun i => [(nd i, QN_LOCKED); (nd i, QN_NEXT)]) (seq 0 n).

Definition mcs_op (i : nat) (o : Op) : prog mem Res :=
  mcs_lock fuel lk (nd i) ;;
  r <- body i o ;;
  mcs_unlock fuel lk (nd i) ;;
  Ret r.

Hypothesis nd_inj : forall i j, (i < n)%nat -> (j < n)%nat -> nd i = nd j -> i = j.
Hypothesis nd_nonnull : forall i, (i < n)%nat -> nd i <> NULL.
Hypothesis nd_lk : forall i, (i < n)%nat -> nd i <> lk.1.
Variable ok_op : Op -> Prop.
Hypothesis body_ok : forall i o k x m, ok_op o -> Rep (S k) x m ->
  crit mcs_words (body i o) m (fun r m' => r = (step o x).1 /\ Rep k (step o x).2 m').

Variables (k0 : nat) (cap : nat -> nat) (x0 : X).
Hypothesis Hcap : (sum_list (map cap (seq 0 n)) <= k0)%nat.

Record mghost := MGhost {
  mg_q : list nat;                    (* the queue, the holder first *)
  mg_st : nat -> status;
  mg_v : mem;                         (* the memory of the critical sections *)
  mg_busy : option nat;               (* who is in its critical section *)
  mg_log : list (nat * (Op * Res))    (* the operations that have left it *)
}.
Abbreviation mstate := (mem * mghost)%type.
Abbreviation qq x := (mg_q x.2).
Abbreviation sst x := (mg_st x.2).

Record MInv (x : mstate) : Prop := {
  mi_mem : exists us, lock_writes mcs_words us /\ x.1 = upds (mg_v x.2) us;
  mi_words : forall l, l ∈ mcs_words -> is_Some (get (mg_v x.2) l) /\ inb (mg_v x.2) l = true;
  mi_lk : get x.1 lk = Some (from_option nd NULL (last (qq x)));
  mi_nodup : NoDup (qq x);
  mi_in : forall i, i ∈ qq x <-> sst x i <> Out;
  mi_lt : forall i, i ∈ qq x -> (i < n)%nat;
  mi_next : forall a b, prec (qq x) a b ->
    get x.1 (nd a, QN_NEXT) = Some (if decide (sst x b = In) then nd b else NULL);
  mi_last : forall a, last (qq x) = Some a -> get x.1 (nd a, QN_NEXT) = Some NULL;
  mi_head : forall a, head (qq x) = Some a -> sst x a = In /\ get x.1 (nd a, QN_LOCKED) = Some 0;
  mi_locked : forall a b, prec (qq x) a b ->
    get x.1 (nd b, QN_LOCKED) = Some (if decide (sst x b = Link0) then 0 else 1);
  mi_legal : legal step (mg_log x.2) x0;
  mi_free : mg_busy x.2 = None -> Rep (k0 - length (mg_log x.2)) (after step (mg_log x.2) x0) (mg_v x.2);
  mi_busy : forall i, mg_busy x.2 = Some i -> head (qq x) = Some i;
  mi_cap : forall i, (length (mine i (mg_log x.2)) <= cap i)%nat;
  mi_threads : forall i, (n <= i)%nat -> mine i (mg_log x.2) = []
}.

(** What thread [i] sees of the steps of the others. *)
Record msees (i : nat) (x y : mstate) : Prop := {
  ms_inv : MInv x -> MInv y;
  ms_mine : mine i (mg_log y.2) = mine i (mg_log x.2);
  ms_st : sst y i = sst x i;
  ms_out : (i < n)%nat -> sst x i = Out ->
    get y.1 (nd i, QN_LOCKED) = get x.1 (nd i, QN_LOCKED) /\ get y.1 (nd i, QN_NEXT) = get x.1 (nd i, QN_NEXT);
  ms_head : head (qq x) = Some i -> head (qq y) = Some i /\
    mg_v y.2 = mg_v x.2 /\ mg_busy y.2 = mg_busy x.2 /\ mg_log y.2 = mg_log x.2;
  ms_pred : forall a, prec (qq x) a i -> sst x i <> In -> prec (qq y) a i;
  ms_succ : forall b, prec (qq x) i b -> sst x b = In -> prec (qq y) i b /\ sst y b = In;
  ms_busy : mg_busy y.2 = Some i -> mg_busy x.2 = Some i;
  ms_log : mg_log x.2 `prefix_of` mg_log y.2
}.

Definition MG (i : nat) (x y : mstate) : Prop := forall j, j <> i -> msees j x y.

(** A step of thread [i] that has begun the operations [os]. *)
Definition MGo (i : nat) (os : list Op) (x y : mstate) : Prop :=
  MG i x y /\ (mg_log y.2 = mg_log x.2 \/ map fst (mine i (mg_log y.2)) `prefix_of` os).

#[export] Instance msees_preorder i : PreOrder (msees i).
Proof.
  split.
  - intros x. split; auto.
  - intros x y z [A1 A2 A3 A4 A5 A6 A7 A8 A9] [B1 B2 B3 B4 B5 B6 B7 B8 B9]. split; auto; [congruence|congruence|..|by etrans].
    + intros Hi H. destruct (A4 Hi H) as [E1 E2]. destruct (B4 Hi ltac:(congruence)) as [E3 E4]. split; congruence.
    + intros H. destruct (A5 H) as (H1 & H2 & H3 & H4). destruct (B5 H1) as (? & ? & ? & ?). split_and!; congruence.
    + intros a H H'. apply B6; [by apply A6|congruence].
    + intros b H H'. destruct (A7 b H H'). auto.
Qed.

(** ** The words of the lock *)
Lemma lk_word : lk ∈ mcs_words.
Proof. left. Qed.

Lemma nd_word i f : (i < n)%nat -> f = QN_LOCKED \/ f = QN_NEXT -> (nd i, f) ∈ mcs_words.
Proof.
  intros Hi Hf. right. apply list_elem_of_In, in_flat_map. exists i. split; [apply in_seq; lia|].
  destruct Hf as [->| ->]; simpl; auto.
Qed.

Lemma nd_ne i j (f g : Z) : (i < n)%nat -> (j < n)%nat -> i <> j -> (nd i, f) <> (nd j, g).
Proof. intros Hi Hj Hne [= E _]. by apply Hne, nd_inj. Qed.

Lemma nd_lk_ne i (f : Z) : (i < n)%nat -> (nd i, f) <> lk.
Proof. intros Hi E. apply (nd_lk i Hi). by rewrite <- E. Qed.

Lemma inv_word x l : MInv x -> l ∈ mcs_words -> is_Some (get x.1 l) /\ inb x.1 l = true /\ live x.1 l.1.
Proof.
  intros HI Hl. destruct (mi_mem _ HI) as (us & _ & ->). destruct (mi_words _ HI l Hl) as [[v Hv] Hi].
  split_and!; [by apply get_upds_some|by rewrite inb_upds|]. apply live_upds. by eapply live_get.
Qed.

Lemma mem_write x l z : MInv x -> l ∈ mcs_words ->
  exists us, lock_writes mcs_words us /\ upd x.1 l z = upds (mg_v x.2) us.
Proof.
  intros HI Hl. destruct (mi_mem _ HI) as (us & Hus & ->). exists (us ++ [(l, z)]). rewrite upds_snoc. split; [|done].
  apply Forall_app. split; [done|]. by apply Forall_singleton.
Qed.

(** ** The steps *)
(** A thread outside the queue writes to its node. *)
Lemma step_own i f z m g : (i < n)%nat -> f = QN_LOCKED \/ f = QN_NEXT -> mg_st g i = Out -> MInv (m, g) ->
  MInv (upd m (nd i, f) z, g) /\ MG i (m, g) (upd m (nd i, f) z, g).
Proof.
  intros Hi Hf Hst HI. pose proof (nd_word i f Hi Hf) as Hw.
  assert (Hq : i ∉ mg_q g) by (intros Hin; by apply (mi_in _ HI i) in Hin).
  assert (Hne : forall j, j ∈ mg_q g -> j <> i) by (intros j Hj ->; done).
  assert (Hg : forall j f', (j < n)%nat -> j <> i -> get (upd m (nd i, f) z) (nd j, f') = get m (nd j, f')).
  { intros j f' Hj Hji. apply get_upd_ne, nd_ne; auto. }
  assert (HI' : MInv (upd m (nd i, f) z, g)).
  { pose proof (mem_write _ _ z HI Hw) as Hmem. pose proof HI as [I1 I2 I3 I4 I5 I6 I7 I8 I9 I10 I11 I12 I13 I14 I15]. split; simpl in *; auto.
    - rewrite get_upd_ne by (by apply nd_lk_ne). done.
    - intros a b Hp. destruct (prec_in _ _ _ Hp) as [Ha Hb]. rewrite Hg by auto. auto.
    - intros a Ha. apply last_in in Ha as Hin. rewrite Hg by auto. auto.
    - intros a Ha. apply head_in in Ha as Hin. rewrite Hg by auto. auto.
    - intros a b Hp. destruct (prec_in _ _ _ Hp) as [Ha Hb]. rewrite Hg by auto. eauto. }
  split; [done|]. intros j Hj. split; simpl; auto.
Qed.

(** It joins the queue: alone it is first, else it must link its node. *)
Definition joined (i : nat) (g : mghost) : mghost :=
  MGhost (mg_q g ++ [i]) (st_set i (if decide (mg_q g = []) then In else Link0) (mg_st g))
    (mg_v g) (mg_busy g) (mg_log g).

Lemma head_snoc (q : list nat) i : head (q ++ [i]) = match q with [] => Some i | a :: _ => Some a end.
Proof. by destruct q. Qed.

Lemma step_join i m g : (i < n)%nat -> mg_st g i = Out -> MInv (m, g) ->
  get m (nd i, QN_NEXT) = Some NULL -> get m (nd i, QN_LOCKED) = Some 0 ->
  MInv (upd m lk (nd i), joined i g) /\ MG i (m, g) (upd m lk (nd i), joined i g).
Proof.
  intros Hi Hst HI Hn Hl. assert (Hq : i ∉ mg_q g) by (intros Hin; by apply (mi_in _ HI i) in Hin).
  assert (Hg : forall j f', (j < n)%nat -> get (upd m lk (nd i)) (nd j, f') = get m (nd j, f')).
  { intros j f' Hj. apply get_upd_ne. apply not_eq_sym. by apply nd_lk_ne. }
  pose proof (mem_write _ _ (nd i) HI lk_word) as Hmem. destruct (inv_word _ _ HI lk_word) as (_ & _ & Hlv).
  pose proof HI as [I1 I2 I3 I4 I5 I6 I7 I8 I9 I10 I11 I12 I13 I14 I15]. simpl in *.
  assert (Hne : forall j, j ∈ mg_q g -> j <> i) by (intros j Hj ->; done).
  assert (HI' : MInv (upd m lk (nd i), joined i g)).
  { split; simpl; auto.
    - rewrite last_snoc. by apply get_upd_eq.
    - apply NoDup_app. split_and!; [done| |apply NoDup_singleton]. intros j Hj ->%list_elem_of_singleton. done.
    - intros j. rewrite elem_of_app, list_elem_of_singleton. destruct (decide (j = i)) as [->|Hji].
      + rewrite st_set_eq. split; [|auto]. intros _. by case_decide.
      + rewrite st_set_ne by done. rewrite <- I5. naive_solver.
    - intros j [Hj| ->%list_elem_of_singleton]%elem_of_app; auto.
    - intros a b [Hp|[Ha ->]]%prec_snoc.
      + destruct (prec_in _ _ _ Hp) as [Ha Hb]. rewrite Hg, st_set_ne by auto. auto.
      + apply last_in in Ha as Hin. rewrite Hg, st_set_eq by auto. destruct (decide (mg_q g = [])) as [E|_].
        * rewrite E in Ha. done.
        * rewrite decide_False by done. auto.
    - intros a. rewrite last_snoc. intros [= <-]. by rewrite Hg.
    - intros a. rewrite head_snoc. destruct (mg_q g) as [|b q'] eqn:Eq.
      + intros [= <-]. rewrite Hg, st_set_eq by done. by rewrite decide_True.
      + intros [= <-]. rewrite Hg by (apply I6; left). rewrite st_set_ne by (apply Hne; left). by apply I9.
    - intros a b [Hp|[Ha ->]]%prec_snoc.
      + destruct (prec_in _ _ _ Hp) as [Ha Hb]. rewrite Hg, st_set_ne by auto. by eapply I10.
      + apply last_in in Ha as Hin. rewrite Hg, st_set_eq by auto. destruct (decide (mg_q g = [])) as [E|_].
        * rewrite E in Ha. done.
        * by rewrite decide_True.
    - intros j Hj. rewrite head_snoc. specialize (I13 j Hj). by destruct (mg_q g). }
  split; [done|]. intros j Hj. split; simpl; auto.
  - by rewrite st_set_ne.
  - intros Hh. rewrite head_snoc. by destruct (mg_q g).
  - intros a Hp _. rewrite prec_snoc. auto.
  - intros b Hp Hb. rewrite prec_snoc. destruct (prec_in _ _ _ Hp) as [_ Hin]. rewrite st_set_ne by auto. auto.
Qed.

Definition restat (i : nat) (s : status) (g : mghost) : mghost :=
  MGhost (mg_q g) (st_set i s (mg_st g)) (mg_v g) (mg_busy g) (mg_log g).

(** It stores TRUE in [locked]. *)
Lemma step_wait i a m g : (i < n)%nat -> mg_st g i = Link0 -> prec (mg_q g) a i -> MInv (m, g) ->
  MInv (upd m (nd i, QN_LOCKED) 1, restat i Link1 g) /\
  MG i (m, g) (upd m (nd i, QN_LOCKED) 1, restat i Link1 g).
Proof.
  intros Hi Hst Hai HI. pose proof (nd_word i QN_LOCKED Hi ltac:(auto)) as Hw.
  assert (Hg : forall j f', (j < n)%nat -> j <> i -> get (upd m (nd i, QN_LOCKED) 1) (nd j, f') = get m (nd j, f')).
  { intros j f' Hj Hji. apply get_upd_ne, nd_ne; auto. }
  assert (Hgn : forall j, (j < n)%nat -> get (upd m (nd i, QN_LOCKED) 1) (nd j, QN_NEXT) = get m (nd j, QN_NEXT)).
  { intros j Hj. apply get_upd_ne. congruence. }
  pose proof (mem_write _ _ 1 HI Hw) as Hmem. destruct (inv_word _ _ HI Hw) as (_ & _ & Hlv).
  pose proof HI as [I1 I2 I3 I4 I5 I6 I7 I8 I9 I10 I11 I12 I13 I14 I15]. simpl in *.
  assert (HI' : MInv (upd m (nd i, QN_LOCKED) 1, restat i Link1 g)).
  { split; simpl; auto.
    - rewrite get_upd_ne by (by apply nd_lk_ne). done.
    - intros j. rewrite I5. destruct (decide (j = i)) as [->|Hji].
      + rewrite st_set_eq, Hst. naive_solver.
      + by rewrite st_set_ne.
    - intros a' b Hp. destruct (prec_in _ _ _ Hp) as [Ha Hb]. rewrite Hgn, (I7 a' b Hp) by auto.
      destruct (decide (b = i)) as [->|Hbi]; [|by rewrite st_set_ne].
      rewrite st_set_eq, Hst. by rewrite !decide_False.
    - intros a' Ha. rewrite Hgn by (by apply I6, last_in). auto.
    - intros a' Ha. assert (a' <> i) by (intros ->; by eapply (prec_head (mg_q g))).
      rewrite Hg, st_set_ne by (auto; by apply I6, head_in). by apply I9.
    - intros a' b Hp. destruct (decide (b = i)) as [->|Hbi].
      + rewrite get_upd_eq, st_set_eq by done. done.
      + destruct (prec_in _ _ _ Hp) as [_ Hb]. rewrite Hg, st_set_ne by auto. by eapply I10. }
  split; [done|]. intros j Hj. split; simpl; auto.
  - by rewrite st_set_ne.
  - intros b Hp Hb. split; [done|]. rewrite st_set_ne; [done|]. intros ->. congruence.
Qed.

(** It links its node to its predecessor's. *)
Lemma step_link i a m g : (i < n)%nat -> mg_st g i = Link1 -> prec (mg_q g) a i -> MInv (m, g) ->
  MInv (upd m (nd a, QN_NEXT) (nd i), restat i In g) /\
  MG i (m, g) (upd m (nd a, QN_NEXT) (nd i), restat i In g).
Proof.
  intros Hi Hst Hai HI. destruct (prec_in _ _ _ Hai) as [Ha Hii].
  assert (Han : (a < n)%nat) by (by apply (mi_lt _ HI)).
  pose proof (nd_word a QN_NEXT Han ltac:(auto)) as Hw.
  assert (Hg : forall j f', (j < n)%nat -> j <> a -> get (upd m (nd a, QN_NEXT) (nd i)) (nd j, f') = get m (nd j, f')).
  { intros j f' Hj Hji. apply get_upd_ne, nd_ne; auto. }
  assert (Hgl : forall j, get (upd m (nd a, QN_NEXT) (nd i)) (nd j, QN_LOCKED) = get m (nd j, QN_LOCKED)).
  { intros j. apply get_upd_ne. congruence. }
  pose proof (mem_write _ _ (nd i) HI Hw) as Hmem. destruct (inv_word _ _ HI Hw) as (_ & _ & Hlv).
  pose proof HI as [I1 I2 I3 I4 I5 I6 I7 I8 I9 I10 I11 I12 I13 I14 I15]. simpl in *.
  assert (HI' : MInv (upd m (nd a, QN_NEXT) (nd i), restat i In g)).
  { split; simpl; auto.
    - rewrite get_upd_ne by (by apply nd_lk_ne). done.
    - intros j. rewrite I5. destruct (decide (j = i)) as [->|Hji].
      + rewrite st_set_eq, Hst. naive_solver.
      + by rewrite st_set_ne.
    - intros a' b Hp. destruct (prec_in _ _ _ Hp) as [Ha' Hb]. destruct (decide (a' = a)) as [->|Hne].
      + assert (b = i) as -> by (by eapply (prec_fun (mg_q g))). rewrite get_upd_eq, st_set_eq by done.
        by rewrite decide_True.
      + rewrite Hg, (I7 a' b Hp) by auto.
        rewrite st_set_ne; [done|]. intros ->. by apply Hne, (prec_inj (mg_q g) a' a i).
    - intros a' Hl'. rewrite Hg; [auto|by apply I6, last_in|]. intros ->. by eapply (prec_last (mg_q g)).
    - intros a' Hh. rewrite Hgl. rewrite st_set_ne; [by apply I9|]. intros ->. by eapply (prec_head (mg_q g)).
    - intros a' b Hp. rewrite Hgl, (I10 a' b Hp). destruct (decide (b = i)) as [->|Hbi]; [|by rewrite st_set_ne].
      rewrite st_set_eq, Hst. done. }
  split; [done|]. intros j Hj. split; simpl; auto.
  - by rewrite st_set_ne.
  - intros Hjn Ho. rewrite Hgl, Hg; [done|done|]. intros ->. by apply I5 in Ha.
  - intros b Hp Hb. split; [done|]. destruct (decide (b = i)) as [->|]; [by rewrite st_set_eq|by rewrite st_set_ne].
Qed.

(** The first thread of the queue enters its critical section, and leaves it
    with the answer [r] to [o]. *)
Definition entered (i : nat) (g : mghost) : mghost :=
  MGhost (mg_q g) (mg_st g) (mg_v g) (Some i) (mg_log g).
Definition left_with (i : nat) (o : Op) (r : Res) (g : mghost) : mghost :=
  MGhost (mg_q g) (mg_st g) (mg_v g) None (mg_log g ++ [(i, (o, r))]).

Lemma step_enter i m g : head (mg_q g) = Some i -> mg_busy g <> Some i -> MInv (m, g) ->
  MInv (m, entered i g) /\ MG i (m, g) (m, entered i g) /\
  Rep (k0 - length (mg_log g)) (after step (mg_log g) x0) (mg_v g).
Proof.
  intros Hh Hb HI. assert (Hn : mg_busy g = None).
  { destruct (mg_busy g) as [j|] eqn:E; [|done]. pose proof (mi_busy _ HI j E) as Hj. simpl in Hj. congruence. }
  assert (HI' : MInv (m, entered i g)).
  { destruct HI. split; simpl in *; try done. by intros j [= <-]. }
  split_and!; [done| |by apply (mi_free _ HI)]. intros j Hj. split; simpl; auto; congruence.
Qed.

Lemma step_leave i o k m g : (i < n)%nat -> head (mg_q g) = Some i -> MInv (m, g) ->
  (length (mine i (mg_log g)) < cap i)%nat -> (k0 - length (mg_log g) = S k)%nat ->
  Rep k (step o (after step (mg_log g) x0)).2 (mg_v g) ->
  let r := (step o (after step (mg_log g) x0)).1 in
  MInv (m, left_with i o r g) /\ MG i (m, g) (m, left_with i o r g).
Proof.
  intros Hi Hh HI Hc Hk HR r.
  assert (HI' : MInv (m, left_with i o r g)).
  { destruct HI as [I1 I2 I3 I4 I5 I6 I7 I8 I9 I10 I11 I12 I13 I14 I15]. split; simpl in *; try done.
    - by apply legal_snoc.
    - intros _. rewrite after_snoc, length_app. simpl. by replace (k0 - (length (mg_log g) + 1))%nat with k by lia.
    - intros j. rewrite mine_snoc, length_app. destruct (decide (i = j)) as [<-|]; simpl; [lia|]. specialize (I14 j). lia.
    - intros j Hj. rewrite mine_snoc, decide_False by lia. by rewrite app_nil_r, I15. }
  split; [done|]. intros j Hj. split; simpl; auto; try congruence; [|by apply prefix_app_r].
  by rewrite mine_snoc, decide_False, app_nil_r by congruence.
Qed.

(** An action of a critical section. *)
Definition worked (v : mem) (g : mghost) : mghost :=
  MGhost (mg_q g) (mg_st g) v (mg_busy g) (mg_log g).

Lemma step_work i v us g : head (mg_q g) = Some i -> mg_busy g = Some i -> MInv (upds (mg_v g) us, g) ->
  lock_writes mcs_words us ->
  (forall l, l ∈ mcs_words -> get v l = get (mg_v g) l /\ inb v l = inb (mg_v g) l) ->
  MInv (upds v us, worked v g) /\ MG i (upds (mg_v g) us, g) (upds v us, worked v g).
Proof.
  intros Hh Hb HI Hus Hv.
  assert (Hg : forall l, l ∈ mcs_words -> get (upds v us) l = get (upds (mg_v g) us) l).
  { intros l Hl. destruct (Hv l Hl) as [E _]. destruct (mi_words _ HI l Hl) as [[z Hz] _].
    apply get_upds_in; [done|by eapply live_get|]. eapply live_get. by rewrite E. }
  assert (Hf : forall j f, (j < n)%nat -> f = QN_LOCKED \/ f = QN_NEXT ->
    get (upds v us) (nd j, f) = get (upds (mg_v g) us) (nd j, f)) by (intros; by apply Hg, nd_word).
  assert (HI' : MInv (upds v us, worked v g)).
  { destruct HI as [I1 I2 I3 I4 I5 I6 I7 I8 I9 I10 I11 I12 I13 I14 I15]. split; simpl in *; try done.
    - eauto.
    - intros l Hl. destruct (Hv l Hl) as [-> ->]. auto.
    - rewrite Hg by apply lk_word. done.
    - intros a b Hp. rewrite Hf by (auto; by apply I6, (prec_in _ a b)). auto.
    - intros a Ha. rewrite Hf by (auto; by apply I6, last_in). auto.
    - intros a Ha. rewrite Hf by (auto; by apply I6, head_in). auto.
    - intros a b Hp. rewrite Hf by (auto; by apply I6, (prec_in _ a b)). eauto.
    - congruence. }
  split; [done|]. intros j Hj. split; simpl; try done; try congruence. intros Hjn _. by rewrite !Hf by auto.
Qed.

(** The only thread of the queue gives the lock up. *)
Definition emptied (i : nat) (g : mghost) : mghost :=
  MGhost [] (st_set i Out (mg_st g)) (mg_v g) (mg_busy g) (mg_log g).

Lemma step_empty i m g : mg_q g = [i] -> mg_busy g = None -> MInv (m, g) ->
  MInv (upd m lk NULL, emptied i g) /\ MG i (m, g) (upd m lk NULL, emptied i g).
Proof.
  intros Hq Hb HI. pose proof (mem_write _ _ NULL HI lk_word) as Hmem.
  destruct (inv_word _ _ HI lk_word) as (_ & _ & Hlv).
  assert (HI' : MInv (upd m lk NULL, emptied i g)).
  { destruct HI as [I1 I2 I3 I4 I5 I6 I7 I8 I9 I10 I11 I12 I13 I14 I15]. simpl in *.
    split; simpl; auto; try done; [by apply get_upd_eq|by apply NoDup_nil|..|congruence].
    - intros j. rewrite elem_of_nil. split; [done|]. intros Hj. apply Hj.
      destruct (decide (j = i)) as [->|Hji]; [by rewrite st_set_eq|]. rewrite st_set_ne in Hj |- * by done.
      destruct (decide (mg_st g j = Out)) as [|Hne]; [done|]. apply I5 in Hne. rewrite Hq in Hne.
      by apply list_elem_of_singleton in Hne.
    - by intros j ?%elem_of_nil. }
  split; [done|]. intros j Hj. split; simpl; auto.
  - by rewrite st_set_ne.
  - intros Hjn _. rewrite !get_upd_ne by (apply not_eq_sym; by apply nd_lk_ne). done.
  - rewrite Hq. intros [= ?]. congruence.
  - rewrite Hq. intros a. simpl. naive_solver.
  - rewrite Hq. intros b. simpl. naive_solver.
Qed.

(** The first thread hands the lock to the one behind it. *)
Definition handed (i : nat) (g : mghost) : mghost :=
  MGhost (tail (mg_q g)) (st_set i Out (mg_st g)) (mg_v g) (mg_busy g) (mg_log g).

Lemma step_hand i b q m g : mg_q g = i :: b :: q -> mg_st g b = In -> mg_busy g = None -> MInv (m, g) ->
  MInv (upd m (nd b, QN_LOCKED) 0, handed i g) /\ MG i (m, g) (upd m (nd b, QN_LOCKED) 0, handed i g).
Proof.
  intros Hq Hb Hbusy HI.
  assert (Hbn : (b < n)%nat) by (apply (mi_lt _ HI); simpl; rewrite Hq; right; left).
  pose proof (nd_word b QN_LOCKED Hbn ltac:(auto)) as Hw.
  pose proof (mem_write _ _ 0 HI Hw) as Hmem. destruct (inv_word _ _ HI Hw) as (_ & _ & Hlv).
  assert (Hg : forall j f', (j < n)%nat -> j <> b -> get (upd m (nd b, QN_LOCKED) 0) (nd j, f') = get m (nd j, f')).
  { intros j f' Hj Hji. apply get_upd_ne, nd_ne; auto. }
  assert (Hgn : forall j, get (upd m (nd b, QN_LOCKED) 0) (nd j, QN_NEXT) = get m (nd j, QN_NEXT)).
  { intros j. apply get_upd_ne. congruence. }
  pose proof HI as [I1 I2 I3 I4 I5 I6 I7 I8 I9 I10 I11 I12 I13 I14 I15]. simpl in *. rewrite Hq in *.
  pose proof I4 as Hnd. apply NoDup_cons in Hnd as [Hi Hnd].
  assert (Hne : forall j, j ∈ b :: q -> j <> i) by (intros j Hj ->; done).
  assert (HI' : MInv (upd m (nd b, QN_LOCKED) 0, handed i g)).
  { split; simpl; rewrite ?Hq; auto; cbn [tail].
    - rewrite get_upd_ne by (by apply nd_lk_ne). rewrite last_cons_cons in I3. done.
    - intros j. destruct (decide (j = i)) as [->|Hji].
      + rewrite st_set_eq. naive_solver.
      + rewrite st_set_ne by done. rewrite <- I5, (elem_of_cons (b :: q)). naive_solver.
    - intros j Hj. apply I6. by right.
    - intros a c Hp. destruct (prec_in _ _ _ Hp) as [_ Hc]. rewrite Hgn, st_set_ne by auto. apply I7. by right.
    - intros a Ha. rewrite Hgn. apply I8. by rewrite last_cons_cons.
    - intros a [= <-]. rewrite get_upd_eq, st_set_ne by (auto; apply Hne; left). done.
    - intros a c Hp. destruct (prec_in _ _ _ Hp) as [_ Hc]. rewrite Hg, st_set_ne; auto.
      + apply (I10 a). by right.
      + apply I6. by right.
      + intros ->. by eapply (prec_head (b :: q)).
    - congruence. }
  split; [done|]. intros j Hj. split; simpl; rewrite ?Hq; auto; cbn [tail].
  - by rewrite st_set_ne.
  - intros Hjn Ho. rewrite Hgn, Hg; [done|done|]. intros ->. congruence.
  - intros [= ?]. congruence.
  - intros a [[-> [= <-]]|Hp] Hs; [done|]. auto.
  - intros c [[? _]|Hp] Hs; [congruence|]. split; [done|]. rewrite st_set_ne; [done|].
    apply Hne. by apply (prec_in _ j c).
Qed.

(** ** A thread between and during its operations *)
Definition idle_at (i : nat) (es : list (Op * Res)) (x : mstate) : Prop :=
  MInv x /\ sst x i = Out /\ mine i (mg_log x.2) = es.

Lemma idle_at_stable i es x y : idle_at i es x -> msees i x y -> idle_at i es y.
Proof. intros (H1 & H2 & H3) []. split_and!; auto; congruence. Qed.

(** In the queue, and not in the critical section. *)
Definition queued (i : nat) (es : list (Op * Res)) (s : status) (x : mstate) : Prop :=
  MInv x /\ sst x i = s /\ s <> Out /\ mine i (mg_log x.2) = es /\ mg_busy x.2 <> Some i.

Lemma queued_stable i es s x y : queued i es s x -> msees i x y -> queued i es s y.
Proof. intros (H1 & H2 & H3 & H4 & H5) []. split_and!; auto; congruence. Qed.

(** First in the queue, with what only it may change. *)
Definition first (i : nat) (v : mem) (b : option nat) log (x : mstate) : Prop :=
  MInv x /\ head (qq x) = Some i /\ mg_v x.2 = v /\ mg_busy x.2 = b /\ mg_log x.2 = log.

Lemma first_stable i v b log x y : first i v b log x -> msees i x y -> first i v b log y.
Proof.
  intros (H1 & H2 & H3 & H4 & H5) []. destruct (ms_head0 H2) as (? & ? & ? & ?). split_and!; auto; congruence.
Qed.

(** The guarantee of an operation of a thread that has begun [os]. *)
Section actions.
Variable os : list Op.

Lemma MGo_refl i x : MGo i os x x.
Proof. split; [intros j _; reflexivity|by left]. Qed.

(** Reading a word of the lock. *)
Lemma rg_word i l (P : mstate -> Prop) (Q : Z -> mstate -> Prop) x :
  (forall y, P x -> msees i x y -> P y) -> P x -> (forall y, P y -> MInv y) -> l ∈ mcs_words ->
  (forall z y, P y -> get y.1 l = Some z -> Q z y) -> rg (msees i) (MGo i os) (load l) Q x.
Proof.
  intros Hst HP HI Hl HQ. apply rg_act. intros [m g] HR. pose proof (Hst _ HP HR) as HP'.
  destruct (inv_word _ l (HI _ HP') Hl) as ([z Hz] & _). simpl in *. exists z, m, g. rewrite Hz.
  split_and!; [done|apply MGo_refl|]. by apply HQ.
Qed.

Lemma rg_own_store i f z es x : (i < n)%nat -> f = QN_LOCKED \/ f = QN_NEXT ->
  forall (P : mstate -> Prop) (Q : unit -> mstate -> Prop),
  (forall y, msees i x y -> P y /\ idle_at i es y) ->
  (forall m g, P (m, g) -> idle_at i es (upd m (nd i, f) z, g) -> live m (nd i) -> Q tt (upd m (nd i, f) z, g)) ->
  rg (msees i) (MGo i os) (store (nd i, f) z) Q x.
Proof.
  intros Hi Hf P Q HP HQ. apply rg_act. intros [m g] HR. destruct (HP _ HR) as [HP' (HI & Ho & Hm)].
  destruct (inv_word _ _ HI (nd_word i f Hi Hf)) as (_ & Hib & Hlv). simpl in *. rewrite Hib.
  destruct (step_own i f z m g Hi Hf Ho HI) as [HI' HG].
  exists tt, (upd m (nd i, f) z), g. split_and!; [done|by split; [exact HG|left]|]. apply HQ; [done| |done]. by split_and!.
Qed.

Lemma rg_join i es x : (i < n)%nat -> idle_at i es x ->
  get x.1 (nd i, QN_NEXT) = Some NULL -> get x.1 (nd i, QN_LOCKED) = Some 0 ->
  rg (msees i) (MGo i os) (atomic_xchg4 lk (nd i)) (fun p y =>
    (p = NULL /\ queued i es In y) \/
    (exists a, p = nd a /\ (a < n)%nat /\ prec (qq y) a i /\ queued i es Link0 y)) x.
Proof.
  intros Hi Hx Hn Hl. unfold atomic_xchg4, rmw. apply rg_act. intros [m g] HR.
  destruct (ms_out _ _ _ HR Hi ltac:(apply Hx)) as [E1 E2].
  pose proof (idle_at_stable _ _ _ _ Hx HR) as (HI & Ho & Hm). simpl in *. rewrite Hn in E2. rewrite Hl in E1.
  destruct (step_join i m g Hi Ho HI E2 E1) as [HI' HG]. pose proof (mi_lk _ HI) as Hlk. simpl in Hlk. rewrite Hlk. simpl.
  exists (from_option nd NULL (last (mg_q g))), (upd m lk (nd i)), (joined i g). split; [done|]. split; [by split; [exact HG|left]|].
  assert (Hb : mg_busy g <> Some i).
  { intros E. pose proof (mi_busy _ HI i E) as Hh. apply head_in, (mi_in _ HI) in Hh. done. }
  destruct (mg_q g) as [|c q] eqn:Eq; [left|right].
  - split; [done|]. split_and!; simpl; auto; try done. rewrite st_set_eq, Eq. by rewrite decide_True.
  - assert (exists a, last (c :: q) = Some a) as [a Ha] by (destruct (last (c :: q)) eqn:E; [eauto|by apply last_None in E]).
    exists a. rewrite Ha. simpl. split_and!; [done| |rewrite Eq; apply prec_snoc; auto|].
    + apply (mi_lt _ HI). simpl. rewrite Eq. by apply last_in.
    + split_and!; simpl; auto; try done. rewrite st_set_eq, Eq. by rewrite decide_False.
Qed.

(** Behind [a], it announces itself. *)
Lemma rg_announce i a es x : (i < n)%nat -> (a < n)%nat -> prec (qq x) a i -> queued i es Link0 x ->
  rg (msees i) (MGo i os) (store (nd i, QN_LOCKED) TRUE ;; store (nd a, QN_NEXT) (nd i)) (fun _ y => queued i es In y) x.
Proof.
  intros Hi Ha Hp Hx. apply rg_bind. apply rg_act. intros [m g] HR.
  pose proof (ms_pred _ _ _ HR a Hp ltac:(destruct Hx as (_ & -> & _); done)) as Hp1. clear Hp.
  pose proof (queued_stable _ _ _ _ _ Hx HR) as (HI & Hs & _ & Hm & Hb). clear x Hx HR. simpl in Hp1, Hs, Hm, Hb.
  destruct (step_wait i a m g Hi Hs Hp1 HI) as [HI1 HG1].
  destruct (inv_word _ _ HI (nd_word i QN_LOCKED Hi ltac:(auto))) as (_ & Hib & _). simpl in Hib.
  eexists tt, _, _. split; [simpl; by rewrite Hib|]. split; [by split; [exact HG1|left]|]. apply rg_act. intros [m2 g2] HR.
  assert (Hx1 : queued i es Link1 (upd m (nd i, QN_LOCKED) TRUE, restat i Link1 g)).
  { split_and!; auto. simpl. by rewrite st_set_eq. }
  pose proof (ms_pred _ _ _ HR a Hp1 ltac:(simpl; by rewrite st_set_eq)) as Hp2.
  pose proof (queued_stable _ _ _ _ _ Hx1 HR) as (HI2 & Hs2 & _ & Hm2 & Hb2). simpl in *.
  destruct (step_link i a m2 g2 Hi Hs2 Hp2 HI2) as [HI3 HG3].
  destruct (inv_word _ _ HI2 (nd_word a QN_NEXT Ha ltac:(auto))) as (_ & Hib2 & _). simpl in Hib2. rewrite Hib2.
  eexists tt, _, _. split_and!; [done|by split; [exact HG3|left]|]. split_and!; auto. simpl. by rewrite st_set_eq.
Qed.

(** The thread has the lock, and the memory represents the abstract state. *)
Definition in_section (i : nat) (es : list (Op * Res)) (x : mstate) : Prop :=
  exists v log, first i v (Some i) log x /\ mine i log = es /\ Rep (k0 - length log) (after step log x0) v.

Lemma rg_spin i es x : (i < n)%nat -> queued i es In x ->
  rg (msees i) (MGo i os) (loop fuel (fun _ : unit =>
    locked <- load (nd i, QN_LOCKED) ;;
    if locked =? 0 then break tt else memory_barrier ;; continue tt) tt) (fun _ y => in_section i es y) x.
Proof.
  intros Hi Hx. apply (rg_loop (msees i) (MGo i os) (fun _ y => queued i es In y)); [|done]. clear x Hx.
  intros _ x Hx. apply rg_bind. apply rg_act. intros [m g] HR.
  pose proof (queued_stable _ _ _ _ _ Hx HR) as Hy. pose proof Hy as (HI & Hs & _ & Hm & Hb). simpl in *.
  assert (Hin : i ∈ mg_q g) by (apply (mi_in _ HI); simpl; congruence).
  destruct (in_prec _ _ Hin) as [Hh|[a Hp]].
  - destruct (mi_head _ HI i Hh) as [_ Hl]. simpl in Hl. rewrite Hl.
    destruct (step_enter i m g Hh Hb HI) as (HI' & HG & HRep).
    eexists 0, _, _. split_and!; [done|by split; [exact HG|left]|]. simpl. exists (mg_v g), (mg_log g). by split_and!.
  - pose proof (mi_locked _ HI a i Hp) as Hl. simpl in Hl. rewrite Hs in Hl. rewrite Hl.
    eexists 1, _, _. split_and!; [done|apply MGo_refl|]. exact Hy.
Qed.

Lemma rg_mcs_lock i es x : (i < n)%nat -> idle_at i es x ->
  rg (msees i) (MGo i os) (mcs_lock fuel lk (nd i)) (fun _ y => in_section i es y) x.
Proof.
  intros Hi Hx. unfold mcs_lock. apply rg_bind.
  apply (rg_own_store i QN_NEXT NULL es x Hi ltac:(auto) (fun _ => True)); [split; [done|by eapply idle_at_stable]|].
  clear x Hx. intros m g _ Hx Hl. apply rg_bind.
  apply (rg_own_store i QN_LOCKED FALSE es _ Hi ltac:(auto) (fun y => get y.1 (nd i, QN_NEXT) = Some NULL)).
  { intros y HR. split; [|by eapply idle_at_stable].
    destruct (ms_out _ _ _ HR Hi ltac:(apply Hx)) as [_ ->]. simpl. by apply get_upd_eq. }
  clear m g Hx Hl. intros m g Hn Hx Hl. simpl in Hn. apply rg_bind. eapply rg_mono; [apply (rg_join i es); auto|].
  { simpl. rewrite get_upd_ne by congruence. done. }
  { simpl. by apply get_upd_eq. }
  clear m g Hx Hl Hn. intros p x Hx. apply rg_bind.
  apply (rg_mono _ _ _ (fun _ y => queued i es In y)).
  - destruct Hx as [[-> Hx]|(a & -> & Ha & Hp & Hx)]; [exact Hx|].
    replace (nd a =? NULL) with false by (symmetry; apply Z.eqb_neq; by apply nd_nonnull). by apply rg_announce.
  - clear x Hx. intros [] x Hx. apply rg_bind. eapply rg_mono; [by apply rg_spin|]. done.
Qed.

(** A critical section runs as it does alone on its memory. *)
Lemma rg_crit {A} i (p : prog mem A) v log (Q : A -> mem -> Prop) x :
  crit mcs_words p v Q -> first i v (Some i) log x ->
  rg (msees i) (MGo i os) p (fun a y => exists v', first i v' (Some i) log y /\ Q a v') x.
Proof.
  revert v x. induction p as [a|e|T f k IH]; intros v x Hp Hx; [by exists v|done|].
  intros [m g] HR. pose proof (first_stable _ _ _ _ _ _ Hx HR) as (HI & Hh & Hv & Hb & Hlog). simpl in Hh, Hv, Hb, Hlog.
  destruct (mi_mem _ HI) as (us & Hus & E). simpl in E. subst m v.
  destruct (Hp us Hus) as (r & v' & Ef & Hw & Hk). cbn [fst]. rewrite Ef.
  destruct (step_work i v' us g Hh Hb HI Hus Hw) as [HI' HG]. exists (worked v' g). split; [by split; [exact HG|left]|].
  apply (IH r v'); [exact Hk|]. by split_and!.
Qed.

(** First in the queue, with its operation in the history. *)
Definition releasing (i : nat) (es : list (Op * Res)) (x : mstate) : Prop :=
  MInv x /\ head (qq x) = Some i /\ mg_busy x.2 = None /\ mine i (mg_log x.2) = es.

Lemma releasing_stable i es x y : releasing i es x -> msees i x y -> releasing i es y.
Proof.
  intros (H1 & H2 & H3 & H4) []. destruct (ms_head0 H2) as (? & ? & ? & ?). split_and!; auto; congruence.
Qed.

Lemma first_cases (q : list nat) i : NoDup q -> head q = Some i -> q = [i] \/ exists b q', q = i :: b :: q'.
Proof. intros _. destruct q as [|a [|b q]]; [done|..]; intros [= ->]; eauto. Qed.

(** The link to the successor, once it is there, stays. *)
Definition linked (i b : nat) (x : mstate) : Prop := prec (qq x) i b /\ sst x b = In.

Lemma linked_stable i b x y : linked i b x -> msees i x y -> linked i b y.
Proof. intros [H1 H2] []. by apply ms_succ0. Qed.

Lemma next_value i es x z : releasing i es x -> get x.1 (nd i, QN_NEXT) = Some z ->
  z <> NULL -> exists b, z = nd b /\ linked i b x.
Proof.
  intros (HI & Hh & _) Hg Hz. destruct (first_cases _ _ (mi_nodup _ HI) Hh) as [E|(b & q & E)].
  - rewrite (mi_last _ HI i) in Hg; [congruence|by rewrite E].
  - assert (Hp : prec (qq x) i b) by (rewrite E; simpl; auto). rewrite (mi_next _ HI i b Hp) in Hg.
    case_decide; [|congruence]. injection Hg as <-. by exists b.
Qed.

Lemma rg_hand i b es x : (i < n)%nat -> releasing i es x -> linked i b x ->
  rg (msees i) (MGo i os) (next <- load (nd i, QN_NEXT) ;; store (next, QN_LOCKED) FALSE) (fun _ y => idle_at i es y) x.
Proof.
  intros Hi Hx Hl. apply rg_bind.
  apply (rg_word i _ (fun y => releasing i es y /\ linked i b y)); [|done|by intros y [[? _] _]|by apply nd_word; auto|].
  { intros y [H1 H2] HR. split; [by eapply releasing_stable|by eapply linked_stable]. }
  clear x Hx Hl. intros z x [Hx Hl] Hg. assert (z = nd b) as ->.
  { destruct Hx as (HI & _), Hl as [Hp Hs]. rewrite (mi_next _ HI i b Hp), decide_True in Hg by done. congruence. }
  clear Hg. apply rg_act. intros [m g] HR. pose proof (linked_stable _ _ _ _ Hl HR) as [Hp Hs].
  pose proof (releasing_stable _ _ _ _ Hx HR) as (HI & Hh & Hb & Hm). simpl in Hp, Hs, Hh, Hb, Hm.
  destruct (first_cases _ _ (mi_nodup _ HI) Hh) as [E|(c & q & E)]; simpl in E.
  { rewrite E in Hp. simpl in Hp. naive_solver. }
  assert (c = b) as ->. { eapply (prec_fun (mg_q g) i); [apply (mi_nodup _ HI)|by rewrite E; simpl; auto|done]. }
  destruct (step_hand i b q m g E Hs Hb HI) as [HI' HG].
  assert (Hbn : (b < n)%nat) by (apply (mi_lt _ HI); simpl; rewrite E; right; left).
  destruct (inv_word _ _ HI (nd_word b QN_LOCKED Hbn ltac:(auto))) as (_ & Hib & _). simpl in Hib.
  exists tt, (upd m (nd b, QN_LOCKED) 0), (handed i g). split; [simpl; by rewrite Hib|]. split; [by split; [exact HG|left]|].
  split_and!; [done| |done]. simpl. by rewrite st_set_eq.
Qed.

(** What follows when the thread is not alone, or was not. *)
Lemma rg_pass i es x : (i < n)%nat -> releasing i es x ->
  rg (msees i) (MGo i os)
    (loop fuel (fun _ : unit =>
       next <- load (nd i, QN_NEXT) ;;
       if next =? NULL then memory_barrier ;; continue tt else break tt) tt ;;
     next <- load (nd i, QN_NEXT) ;; store (next, QN_LOCKED) FALSE) (fun _ y => idle_at i es y) x.
Proof.
  intros Hi Hx. apply rg_bind.
  apply (rg_mono _ _ _ (fun _ y => exists b, releasing i es y /\ linked i b y)).
  - apply (rg_loop (msees i) (MGo i os) (fun _ y => releasing i es y)); [|done]. clear x Hx. intros _ x Hx. apply rg_bind.
    apply (rg_word i _ (releasing i es)); [|done|by intros y [? _]|by apply nd_word; auto|].
    { intros y H HR. by eapply releasing_stable. }
    clear x Hx. intros z x Hx Hg. destruct (Z.eqb_spec z NULL) as [->|Hz]; [exact Hx|].
    destruct (next_value _ _ _ _ Hx Hg Hz) as (b & _ & Hb). exists b. auto.
  - intros [] y (b & Hy & Hb). by apply (rg_hand i b).
Qed.

Lemma rg_release i es x : (i < n)%nat -> releasing i es x ->
  rg (msees i) (MGo i os) (CAS lk (nd i) NULL) (fun (alone : bool) y => if alone then idle_at i es y else releasing i es y) x.
Proof.
  intros Hi Hx. unfold CAS, atomic_cmpxchg4, rmw. apply rg_bind. apply rg_act. intros [m g] HR.
  pose proof (releasing_stable _ _ _ _ Hx HR) as Hy. pose proof Hy as (HI & Hh & Hb & Hm). simpl in Hh, Hb, Hm.
  pose proof (mi_lk _ HI) as Hlk. simpl in Hlk. cbn [fst]. rewrite Hlk.
  destruct (first_cases _ _ (mi_nodup _ HI) Hh) as [E|(b & q & E)]; simpl in E.
  - rewrite E. exists (nd i), (upd m lk NULL), (emptied i g). simpl last. simpl from_option. split; [by rewrite Z.eqb_refl|].
    destruct (step_empty i m g E Hb HI) as [HI' HG]. split; [by split; [exact HG|left]|]. change (if nd i =? nd i then idle_at i es (upd m lk NULL, emptied i g) else releasing i es (upd m lk NULL, emptied i g)).
    rewrite Z.eqb_refl. split_and!; [done| |done]. simpl. by rewrite st_set_eq.
  - assert (Hne : (from_option nd NULL (last (mg_q g)) =? nd i) = false).
    { apply Z.eqb_neq. rewrite E, last_cons_cons. destruct (last (b :: q)) as [c|] eqn:El; [|by apply last_None in El].
      apply last_in in El. assert (Hc : c ∈ mg_q g) by (rewrite E; by right). intros Ec. simpl in Ec.
      assert (c = i) as -> by (apply nd_inj; auto; by apply (mi_lt _ HI)).
      pose proof (mi_nodup _ HI) as Hnd. simpl in Hnd. rewrite E in Hnd. by apply NoDup_cons in Hnd as [? _]. }
    exists (from_option nd NULL (last (mg_q g))), m, g. rewrite Hne, (upd_same _ _ _ Hlk). split; [done|].
    split; [apply MGo_refl|].
    exact Hy.
Qed.

(** [mcs_unlock] puts the operation into the history with its first action. *)
Lemma rg_mcs_unlock i o k v log es x : os = map fst es ++ [o] -> (i < n)%nat -> (length es < cap i)%nat ->
  first i v (Some i) log x -> mine i log = es -> (k0 - length log = S k)%nat ->
  Rep k (step o (after step log x0)).2 v ->
  rg (msees i) (MGo i os) (mcs_unlock fuel lk (nd i))
    (fun _ y => idle_at i (es ++ [(o, (step o (after step log x0)).1)]) y) x.
Proof.
  intros Hos Hi Hc Hx Hm Hk HRep. set (es' := es ++ _). unfold mcs_unlock. apply rg_bind. cbn [rg spin_unlock_barrier].
  apply rg_bind. apply rg_act. intros [m g] HR. pose proof (first_stable _ _ _ _ _ _ Hx HR) as (HI & Hh & Hv & Hb & Hl).
  simpl in Hh, Hv, Hb, Hl. subst v log es. clear x Hx HR.
  destruct (step_leave i o k m g Hi Hh HI Hc Hk HRep) as [HI' HG].
  destruct (inv_word _ _ HI (nd_word i QN_NEXT Hi ltac:(auto))) as ([z Hz] & _). simpl in Hz.
  exists z, m, (left_with i o (step o (after step (mg_log g) x0)).1 g). cbn [fst]. rewrite Hz. split; [done|].
  split; [split; [exact HG|right]; simpl; by rewrite mine_snoc, decide_True, map_app, Hos|].
  set (x := (m, left_with _ _ _ _)) in *.
  assert (Hx : releasing i es' x).
  { split_and!; [done|done|done|]. simpl. by rewrite mine_snoc, decide_True. }
  clearbody x. apply rg_bind.
  apply (rg_mono _ _ _ (fun (alone : bool) y => if alone then idle_at i es' y else releasing i es' y)).
  - destruct (z =? NULL); [by apply rg_release|exact Hx].
  - intros [|] y Hy; [exact Hy|]. by apply rg_pass.
Qed.

End actions.

Lemma rg_mcs_op i o es x : (i < n)%nat -> (length es < cap i)%nat -> ok_op o -> idle_at i es x ->
  rg (msees i) (MGo i (map fst es ++ [o])) (mcs_op i o) (fun r y => idle_at i (es ++ [(o, r)]) y) x.
Proof.
  intros Hi Hc Ho Hx. apply rg_bind. eapply rg_mono; [by apply rg_mcs_lock|]. clear x Hx.
  intros [] x (v & log & Hf & Hm & HRep). pose proof Hf as (HI & _ & _ & _ & Hlog).
  assert (Hlt : (length log < k0)%nat).
  { rewrite <- Hlog. eapply (mine_room n _ cap k0 i); [apply (mi_threads _ HI)|apply (mi_cap _ HI)|done| |done].
    rewrite Hlog, Hm. done. }
  destruct (k0 - length log)%nat as [|k] eqn:Ek; [lia|]. apply rg_bind.
  eapply rg_mono; [eapply (rg_crit _ i); [by apply (body_ok i o k (after step log x0) v)|exact Hf]|].
  intros r y (v' & Hf' & -> & HRep'). apply rg_bind.
  eapply rg_mono; [by apply (rg_mcs_unlock _ i o k v' log es)|]. done.
Qed.

(** When no thread is in the queue, the lock is free and the memory represents the
    state of the history. *)
Lemma mcs_at_rest m g (es : nat -> list (Op * Res)) : MInv (m, g) ->
  (forall i, (i < n)%nat -> idle_at i (es i) (m, g)) ->
  get m lk = Some NULL /\ exists v us, lock_writes mcs_words us /\ m = upds v us /\
    Rep (k0 - length (mg_log g)) (after step (mg_log g) x0) v.
Proof.
  intros HI Hid. assert (Hq : mg_q g = []).
  { destruct (mg_q g) as [|i q] eqn:Eq; [done|]. exfalso.
    assert (Hin : i ∈ mg_q g) by (rewrite Eq; left). pose proof (mi_lt _ HI i Hin) as Hi.
    destruct (Hid i Hi) as (_ & Hout & _). by apply (mi_in _ HI i) in Hin. }
  split; [pose proof (mi_lk _ HI) as H; simpl in H; by rewrite Hq in H|].
  destruct (mi_mem _ HI) as (us & Hus & E). exists (mg_v g), us. split_and!; [done|done|].
  apply (mi_free _ HI). destruct (mg_busy (m, g).2) as [i|] eqn:Eb; [|done].
  pose proof (mi_busy _ HI i Eb) as H. simpl in H. by rewrite Hq in H.
Qed.

End mcs.

Section mcs_pool.
Context {Op Res X : Type}.
Variables (fuel : nat) (lk : loc) (nd : nat -> Z) (step : Op -> X -> Res * X).
Variable Rep : nat -> X -> mem -> Prop.
Variables (body op : nat -> Op -> prog mem Res) (ok_op : Op -> Prop) (ops : list (list Op)).
Abbreviation n := (length ops).
Hypothesis nd_inj : forall i j, (i < n)%nat -> (j < n)%nat -> nd i = nd j -> i = j.
Hypothesis nd_nonnull : forall i, (i < n)%nat -> nd i <> NULL.
Hypothesis nd_lk : forall i, (i < n)%nat -> nd i <> lk.1.
Hypothesis body_ok : forall i o k x m, ok_op o -> Rep (S k) x m ->
  crit (mcs_words lk nd n) (body i o) m (fun r m' => r = (step o x).1 /\ Rep k (step o x).2 m').
Hypothesis op_eq : forall i o, ok_op o -> mcs_op fuel lk nd body i o ≈ op i o.

(** The state the pool starts from. *)
Lemma mcs_start k0 x0 m :
  Rep k0 x0 m -> (forall l, l ∈ mcs_words lk nd n -> is_Some (get m l) /\ inb m l = true) -> get m lk = Some NULL ->
  MInv lk nd n step Rep k0 (caps ops) x0 (m, MGhost [] (fun _ => Out) m None [] : @mghost Op Res).
Proof.
  intros HRep Hw Hlk. split; simpl; auto; try done.
  - exists []. split; [constructor|done].
  - apply NoDup_nil_2.
  - intros i. rewrite elem_of_nil. naive_solver.
  - intros i. by rewrite elem_of_nil.
  - intros _. by rewrite Nat.sub_0_r.
  - intros i. apply Nat.le_0_l.
Qed.

(** Every schedule of the recorded clients is linearisable. *)
Lemma mcs_linear (sched : list nat) k0 x0 m :
  Rep k0 x0 m -> (forall l, l ∈ mcs_words lk nd n -> is_Some (get m l) /\ inb m l = true) ->
  get m lk = Some NULL -> (sum_list (map length ops) <= k0)%nat -> Forall (Forall ok_op) ops ->
  match exec sched (imap (fun i os => hist_client (op i) i os) ops) (m, []) with
  | Ok (ps, (m', h)) => exists log, legal step log x0 /\ linearizes h log /\
      (forall i rs, ps !! i = Some (Ret rs) -> exists os, ops !! i = Some os /\ length rs = length os /\
         completed i h = zip os rs /\ mine i log = zip os rs) /\
      (Forall (fun p => exists rs, p = Ret rs) ps -> get m' lk = Some NULL /\
         exists v us, lock_writes (mcs_words lk nd n) us /\ m' = upds v us /\
           Rep (k0 - length log) (after step log x0) v)
  | Err e => e = EFuel
  end.
Proof.
  intros HRep Hw Hlk Hk Hok. rewrite <- caps_sum in Hk.
  set (Inv := MInv lk nd n step Rep k0 (caps ops) x0).
  set (g0 := MGhost [] (fun _ => Out) m None [] : @mghost Op Res).
  set (idl := idle_at (Op := Op) (Res := Res) lk nd n step Rep k0 (caps ops) x0).
  assert (HI : Inv (m, g0)) by (by apply mcs_start).
  pose proof (linear_pool mg_log (msees lk nd n step Rep k0 (caps ops) x0)
    (fun i x y H => ms_mine _ _ _ _ _ _ _ _ _ _ _ H) (fun i x y H => ms_log _ _ _ _ _ _ _ _ _ _ _ H)
    Inv (fun i x y H => ms_inv _ _ _ _ _ _ _ _ _ _ _ H) idl (idle_at_stable lk nd n step Rep k0 (caps ops) x0)
    (fun i es x H => proj2 (proj2 H)) op n (caps ops) ok_op) as HS.
  specialize (HS ltac:(intros i o es x Hi Hc Ho Hx; apply (rg_peq _ _ (mcs_op fuel lk nd body i o));
    [by apply op_eq|by apply (rg_mcs_op fuel lk nd n step Rep body nd_inj nd_nonnull nd_lk ok_op body_ok
       k0 (caps ops) x0 Hk)])).
  specialize (HS ops sched m g0 eq_refl eq_refl HI ltac:(intros i; by split_and!) ltac:(done) Hok).
  pose proof (exec_length sched (imap (fun i os => hist_client (op i) i os) ops) (m, [])) as HL.
  destruct (exec _ _ _) as [[ps [m' h]]|e]; [|exact HS]. destruct HS as (g & HI' & Hlin & Hps).
  specialize (HL _ _ eq_refl). rewrite length_imap in HL. exists (mg_log g). split_and!; [apply HI'|done|..].
  - intros i rs Hi. destruct (Hps i rs Hi) as (os & H1 & H2 & H3 & _ & _ & H4). by exists os.
  - intros Hall. eapply (mcs_at_rest lk nd n step Rep k0 (caps ops) x0 m' g (fun i => mine i (mg_log g))); [exact HI'|].
    intros i Hi. destruct (lookup_lt_is_Some_2 ps i) as [p Hp]; [lia|].
    rewrite Forall_lookup in Hall. destruct (Hall i p Hp) as [rs ->].
    destruct (Hps i _ Hp) as (os & _ & _ & _ & Hid). pose proof (proj2 (proj2 Hid)) as E. simpl in E. by rewrite E.
Qed.
End mcs_pool.
