(* ===== verification/ListBody.v ===== *)
(** * The bodies of the lists with one lock (list_spinlock.c, list_mcslock.c)

    What [insert] and [delete] of the two lists do between taking and releasing
    the lock is the same code.  It is proved here as a critical section, over
    allocator_malloc.c, for whatever words the lock consists of. *)
From S2P Require Export ListLock Critical ListProgram.

(** Operations that change the list, and what they do to a set. *)
Inductive update : Set := Ins (key : Z) | Del (key : Z).

Definition update_step (o : update) (X : gset Z) : bool * gset Z :=
  match o with
  | Ins k => (negb (bool_decide (k ∈ X)), {[k]} ∪ X)
  | Del k => (bool_decide (k ∈ X), X ∖ {[k]})
  end.

Section bodies.
Context `{HM : Malloc, HA : Allocator}.
Variables (fuel : nat) (tid l : Z).

Definition delete_body (key : Z) : prog mem bool :=
  cur <- load (l, SL_HEAD) ;;
  loop fuel (fun '(prev, cur) =>
    if cur =? NULL then break false
    else
      k <- load (cur, KEY) ;;
      if k =? key then
        n <- load (cur, NEXT) ;;
        store prev n ;;
        free_node fuel tid cur ;;
        break true
      else
        n <- load (cur, NEXT) ;;
        continue ((cur, NEXT), n)) ((l, SL_HEAD), cur).

Definition insert_end (key : Z) (pc : loc * Z) : prog mem bool :=
  let '(prev, cur) := pc in
  present <- (if cur =? NULL then Ret false
              else k <- load (cur, KEY) ;; Ret (k =? key)) ;;
  if present : bool then Ret false
  else
    newnode <- new_node fuel tid ;;
    store (newnode, KEY) key ;;
    store (newnode, NEXT) cur ;;
    store prev newnode ;;
    Ret true.

Definition insert_body (key : Z) : prog mem bool :=
  cur <- load (l, SL_HEAD) ;;
  pc <- loop fuel (fun '(prev, cur) =>
    if cur =? NULL then break (prev, cur)
    else
      k <- load (cur, KEY) ;;
      if k <? key then
        cur <- load (cur, NEXT) ;;
        p <- load prev ;;
        continue ((p, NEXT), cur)
      else break (prev, cur)) ((l, SL_HEAD) : loc, cur) ;;
  insert_end key pc.

(** Reassociate both sides and compare them action by action. *)
Ltac peq_norm :=
  repeat first
    [ reflexivity
    | progress cbv beta iota
    | progress unfold insert_end
    | lazymatch goal with
      | |- pbind _ (pbind _ _) ≈ _ => etransitivity; [apply peq_assoc|]
      | |- _ ≈ pbind _ (pbind _ _) => etransitivity; [|symmetry; apply peq_assoc]
      | |- pbind _ (if ?b then _ else _) ≈ _ => destruct b
      | |- _ ≈ pbind _ (if ?b then _ else _) => destruct b
      | |- (if ?b then _ else _) ≈ _ => destruct b
      | |- pbind ?k (Ret ?a) ≈ ?q => change (k a ≈ q)
      | |- ?q ≈ pbind ?k (Ret ?a) => change (q ≈ k a)
      | |- pbind _ _ ≈ pbind _ _ => apply peq_bind; intros ?
      end ].

(** The functions of list_spinlock.c are these bodies under its lock. *)
Lemma spin_delete_eq key :
  (spin_lock fuel (l, SL_LOCK) ;; r <- delete_body key ;; spin_unlock (l, SL_LOCK) ;; Ret r)
  ≈ list_spinlock.delete fuel tid l key.
Proof.
  unfold list_spinlock.delete, delete_body. apply peq_bind. intros []. etransitivity; [apply peq_assoc|].
  apply peq_bind. intros cur. symmetry. apply peq_loop. intros [prev c]. peq_norm.
Qed.

Lemma spin_insert_eq key :
  (spin_lock fuel (l, SL_LOCK) ;; r <- insert_body key ;; spin_unlock (l, SL_LOCK) ;; Ret r)
  ≈ list_spinlock.insert fuel tid l key.
Proof.
  unfold list_spinlock.insert, insert_body. apply peq_bind. intros []. etransitivity; [apply peq_assoc|].
  apply peq_bind. intros cur. etransitivity; [apply peq_assoc|]. apply peq_bind. intros [prev c]. peq_norm.
Qed.

(** So are those of list_mcslock.c, for the node [nd] of the thread. *)
Lemma mcs_delete_eq nd key :
  (mcs_lock fuel (l, SL_LOCK) nd ;; r <- delete_body key ;; mcs_unlock fuel (l, SL_LOCK) nd ;; Ret r)
  ≈ list_mcslock.delete fuel tid nd l key.
Proof.
  unfold list_mcslock.delete, delete_body. apply peq_bind. intros []. etransitivity; [apply peq_assoc|].
  apply peq_bind. intros cur. symmetry. apply peq_loop. intros [prev c]. peq_norm.
Qed.

Lemma mcs_insert_eq nd key :
  (mcs_lock fuel (l, SL_LOCK) nd ;; r <- insert_body key ;; mcs_unlock fuel (l, SL_LOCK) nd ;; Ret r)
  ≈ list_mcslock.insert fuel tid nd l key.
Proof.
  unfold list_mcslock.insert, insert_body. apply peq_bind. intros []. etransitivity; [apply peq_assoc|].
  apply peq_bind. intros cur. etransitivity; [apply peq_assoc|]. apply peq_bind. intros [prev c]. peq_norm.
Qed.
End bodies.

Definition update_body `{HA : Allocator} (fuel : nat) (l : Z) (i : nat) (o : update) : prog mem bool :=
  match o with
  | Ins k => insert_body fuel (Z.of_nat i) l k
  | Del k => delete_body fuel (Z.of_nat i) l k
  end.

(** ** allocator_malloc.c owns nothing *)
Section plain.
Context `{HM : Malloc}.
Existing Instance allocator_malloc.ops.

(** The list frees at once: it needs no reclamation scheme. *)
Definition at_once : Reclaimer :=
  {| critical_enter := fun _ _ => Ret tt; critical_exit := fun _ _ => Ret tt; free_node_later := free_node |}.
Existing Instance at_once.

Lemma plain_free_spec m p : is_node m p ->
  tot (allocator_malloc.free_node p) m (fun _ m' =>
    m' = base.delete p (upd (upd m (p, NEXT) 17) (p, MR_NEXT) 34)).
Proof.
  intros Hp. unfold allocator_malloc.free_node. psteps. by apply tot_free; [eapply is_node_nonnull|mlive|].
Qed.

Lemma plain_free_frame m p : frame {[p]} m (base.delete p (upd (upd m (p, NEXT) 17) (p, MR_NEXT) 34)) ∅.
Proof.
  split; [|set_solver]. intros b Hb _. rewrite lookup_delete_ne, !lookup_upd_ne; set_solver.
Qed.

#[export] Instance plain_laws : ReclaimerLaws.
Proof.
refine (Build_ReclaimerLaws _ _ (fun _ _ _ O => O = ∅) _ _ _ _ _ _ _ _); try done.
{ intros tid n m O b -> Hb. set_solver. }
{ intros tid n m O fuel -> _. apply tot_new_obj.
  - intros _. exists ∅. split; [done|split; [apply frame_refl|done]].
  - intros a Ha Hal Hr Hf. exists ∅. split; [done|]. split; [|intros _; split_and!; [|set_solver|auto]].
    + split; [|auto]. intros b Hb [o Hl]. rewrite lookup_insert_ne; congruence.
    + split; [lia|]. split; [by apply mod16_even|].
      exists (Obj sizeof_node_t ∅). rewrite lookup_insert_eq. split; [auto|simpl; lia]. }
{ intros tid n m O fuel p -> _ Hp _. eapply tot_mono; [by apply plain_free_spec|]. intros [] m' ->.
  exists ∅. split; [done|]. rewrite (left_id_L ∅ _). apply plain_free_frame. }
{ intros tid n m O fuel -> _. apply tot_ret. exists ∅. auto using frame_refl. }
{ intros tid n m O fuel -> _. apply tot_ret. exists ∅. auto using frame_refl. }
{ intros tid n m O fuel p -> _ Hp _. eapply tot_mono; [by apply plain_free_spec|]. intros [] m' ->.
  exists ∅. split; [done|]. rewrite (left_id_L ∅ _). apply plain_free_frame. }
Defined.
End plain.


(** ** Allocation in a critical section *)
Section alloc.
Context `{HM : Malloc, HMR : !MallocRoom}.
Variable L : list loc.
Implicit Types (m : mem) (us : list (loc * Z)).

(** Writes to words that hold a value can be taken back. *)
Lemma upds_undo m us : lock_writes L us -> (forall w, w ∈ L -> is_Some (get m w)) ->
  exists us', upds (upds m us) us' = m.
Proof.
  intros Hus Hw. induction us as [|[w z] us IH] using rev_ind; [by exists []|].
  apply Forall_app in Hus as [Hus Hz]. rewrite Forall_singleton in Hz. simpl in Hz.
  destruct (IH Hus) as [us' E]. destruct (get_upds_some m us w (Hw w Hz)) as [y Hy].
  exists ((w, y) :: us'). rewrite upds_snoc. unfold upds at 1. simpl. rewrite upd_upd, (upd_same _ _ _ Hy). exact E.
Qed.

Lemma mroom_upds k m us : mroom k m -> mroom k (upds m us).
Proof. intros H. induction us as [|[w z] us IH] using rev_ind; [done|]. rewrite upds_snoc. by apply mroom_upd. Qed.

Lemma mroom_virtual k m us : lock_writes L us -> (forall w, w ∈ L -> is_Some (get m w)) ->
  mroom k (upds m us) -> mroom k m.
Proof. intros Hus Hw H. destruct (upds_undo m us Hus Hw) as [us' <-]. by apply mroom_upds. Qed.

Lemma crit_alloc k m o (Q : Z -> mem -> Prop) :
  mroom (S k) m -> 0 < osize o <= M32 -> (forall w, w ∈ L -> is_Some (get m w)) ->
  (forall a, a <> NULL -> a mod 16 = 0 -> 0 < a < M64 -> m !! a = None -> mroom k (<[a := o]> m) -> Q a (<[a := o]> m)) ->
  crit L (new_obj o) m Q.
Proof.
  intros Hr Ho Hw HQ. apply crit_new_obj.
  - intros w Hin. destruct (Hw w Hin) as [z Hz]. by eapply live_get.
  - intros us Hus. by apply (mroom_malloc k (upds m us) o (mroom_upds _ _ us Hr) Ho).
  - intros us a Hus -> H1 H2 H3 H4. apply HQ; auto.
    destruct (mroom_malloc k (upds m us) o (mroom_upds _ _ us Hr) Ho) as [_ Hr'].
    set (a := malloc_addr (upds m us) (osize o)) in *.
    assert (Hne : forall w, w ∈ L -> w.1 <> a).
    { intros w Hin E. destruct (Hw w Hin) as [z Hz]. apply live_get in Hz as [o' Ho']. congruence. }
    rewrite upds_insert in Hr' by (by eapply lock_writes_out). eapply mroom_virtual; [exact Hus| |exact Hr'].
    intros w Hin. rewrite get_insert_ne by (apply not_eq_sym; by apply Hne). by apply Hw.
Qed.
End alloc.

(** ** The bodies as critical sections *)
Section crit_bodies.
Context `{HM : Malloc, HMR : !MallocRoom}.
Existing Instances allocator_malloc.ops at_once plain_laws.
(** The list is at [l]; [qs] are other objects with words of the lock. *)
Variables (fuel : nat) (l : Z) (qs : list Z) (L : list loc).
Implicit Types (m : mem) (F : gset Z) (xs ys zs : list nd).
Abbreviation lk := (l, SL_LOCK).
Abbreviation hd := (l, SL_HEAD).
Abbreviation fs := (find_vars 0 :: qs).
Hypothesis HL : forall w, w ∈ L -> w = lk \/ w.1 ∈ qs.

(** The list [xs] in memory, with [gs] beside the scratch objects. *)
Abbreviation held m0 F gs xs m := (klat 0 m0 F lk hd (gs ++ fs) 0 ∅ xs m 0).

(** What the body of an operation leaves: the list [xs'], and the words of the
    lock untouched. *)
Definition listed xs m : Prop := exists m0 F, held m0 F [] xs m.

Lemma apart m0 F gs xs m b : held m0 F gs xs m -> b ∈ gs ++ map na xs -> b <> l /\ b ∉ qs.
Proof.
  intros (Hl & _) Hb. destruct Hl as (_ & [_ Hnd _ _] & _). unfold objs in Hnd. simpl in Hnd.
  apply NoDup_cons in Hnd as [Hl Hnd]. rewrite elem_of_app in Hb. split.
  - intros ->. apply Hl. rewrite !elem_of_app. naive_solver.
  - intros Hq. rewrite <- app_assoc in Hnd. apply NoDup_app in Hnd as (_ & H1 & Hnd). simpl in *.
    destruct Hb as [Hb|Hb].
    + apply (H1 b Hb). right. apply elem_of_app. by left.
    + apply NoDup_cons in Hnd as [_ Hnd]. apply NoDup_app in Hnd as (_ & H2 & _). by apply (H2 b).
Qed.

Lemma apart_words b : b <> l -> b ∉ qs -> forall w, w ∈ L -> w.1 <> b.
Proof. intros H1 H2 w Hw <-. destruct (HL w Hw) as [->|?]; auto. Qed.

Lemma node_word m0 F gs xs m z off : held m0 F gs xs m -> z ∈ xs -> (na z, off) ∉ L.
Proof.
  intros Hk Hz Hin. destruct (apart _ _ _ _ _ (na z) Hk) as [H1 H2].
  { apply elem_of_app. right. apply list_elem_of_fmap. eauto. }
  by apply (apart_words (na z) H1 H2 _ Hin).
Qed.

Lemma head_word m0 F gs xs m : held m0 F gs xs m -> hd ∉ L.
Proof.
  intros (Hl & _) Hin. destruct Hl as (_ & [_ Hnd _ _] & _). unfold objs in Hnd. apply NoDup_cons in Hnd as [Hn _].
  destruct (HL _ Hin) as [?|Hq]; [done|]. simpl in Hq. apply Hn. rewrite !elem_of_app. left. right. by right.
Qed.

Lemma end_word m0 F gs ys zs m : held m0 F gs (ys ++ zs) m -> end_loc hd ys ∉ L.
Proof.
  intros Hk. unfold end_loc. destruct (last ys) as [y|] eqn:El; [|by eapply head_word].
  eapply node_word; [exact Hk|]. apply last_Some in El as [ys' ->]. set_solver.
Qed.

Lemma scratch_word m0 F p gs xs m off : held m0 F (p :: gs) xs m -> (p, off) ∉ L.
Proof.
  intros Hk Hin. destruct (apart _ _ _ _ _ p Hk) as [H1 H2]; [left|]. by apply (apart_words p H1 H2 _ Hin).
Qed.

Lemma klat_fresh m0 F gs xs m a : held m0 F gs xs m -> m !! a = None -> 0 < a < M64 -> a mod 2 = 0 ->
  held m0 F (a :: gs) xs (<[a := Obj sizeof_node_t ∅]> m).
Proof.
  intros (Hl & Hu & Hg & H1 & H2 & H3) Hf Ha He. destruct Hl as (Ho & Hi & HF & Ht & Hst).
  assert (Hfr : a ∉ objs hd (gs ++ fs) xs) by (eapply linv_fresh; [exact Hi|auto]).
  assert (Hla : a <> l) by (intros ->; apply Hfr; exact (objs_head hd _ _)).
  assert (HF' : frame ∅ m (<[a := Obj sizeof_node_t ∅]> m) ∅).
  { split; [|set_solver]. intros b _ [o Hb]. rewrite lookup_insert_ne; congruence. }
  assert (Hst' : is_struct (<[a := Obj sizeof_node_t ∅]> m) a 32).
  { split; [lia|]. exists (Obj sizeof_node_t ∅). by rewrite lookup_insert_eq. }
  split; [|split_and!; auto].
  - split_and!; auto; [| |set_solver].
    + apply linv_add; auto; [|set_solver]. by eapply linv_frame.
    + eapply frame_trans; [exact HF|]. split.
      * intros b Hb [o Hbo]. rewrite lookup_insert_ne; congruence.
      * intros b Hb. rewrite elem_of_fp in Hb |- *. destruct Hb as [Hb|Hb]; [auto|].
        apply objs_cons in Hb as [->|Hb]; auto.
  - rewrite get_insert_ne; auto.
  - rewrite (inb_lookup_eq m); [done|]. by apply lookup_insert_ne.
Qed.

Lemma crit_free_node m0 F gs z xs tid m (Q : unit -> mem -> Prop) : held m0 F gs xs m -> z ∈ xs ->
  forall m1, is_node m1 (na z) -> Q tt (base.delete (na z) (upd (upd m1 (na z, NEXT) 17) (na z, MR_NEXT) 34)) ->
  crit L (free_node fuel tid (na z)) m1 Q.
Proof.
  intros Hk Hz m1 Hn HQ. destruct (apart _ _ _ _ _ (na z) Hk) as [Z1 Z2].
  { apply elem_of_app. right. apply list_elem_of_fmap. eauto. }
  unfold free_node, allocator_malloc.ops, allocator_malloc.free_node.
  apply crit_bind, crit_store; [by eapply node_word|minb|]. apply crit_bind, crit_store; [by eapply node_word|minb|].
  apply crit_free; [by apply apart_words|by eapply is_node_nonnull|mlive|exact HQ].
Qed.

Lemma delete_body_crit tid key xs m k : listed xs m -> (length xs < fuel)%nat -> mroom k m ->
  crit L (delete_body fuel tid l key) m (fun r m' => r = bool_decide (key ∈ key_set xs) /\
    exists xs', listed xs' m' /\ key_set xs' = key_set xs ∖ {[key]} /\ (length xs' <= length xs)%nat /\ mroom k m').
Proof.
  intros (m0 & F & H1) Hf Hr. unfold delete_body. pose proof (klat_at _ _ _ _ _ _ _ _ [] xs _ _ H1) as [Hh _].
  apply crit_bind. eapply crit_load; [by eapply head_word|exact Hh|].
  apply (crit_loop L (fun k st m' => exists ys zs, st = (end_loc hd ys, first_addr zs) /\
    k = length zs /\ xs = ys ++ zs /\ (forall y, y ∈ ys -> nk y <> key) /\ m' = m)) with (n := length xs);
    [|lia|exists [], xs; split_and!; [auto|auto|auto|set_solver|auto]].
  intros j st m' (ys & zs & -> & -> & -> & Hne & ->). clear Hf Hh. rename H1 into Hk.
  assert (Hu : unmarked (ys ++ zs)) by apply Hk. destruct zs as [|z zs]; simpl.
  - assert (Hin : key ∉ key_set (ys ++ [])).
    { rewrite app_nil_r, elem_of_key_set. intros (x & Hx & _ & E). by apply (Hne x). }
    split; [by rewrite bool_decide_eq_false_2|]. exists (ys ++ []). split_and!; [by exists m0, F|set_solver|lia|done].
  - assert (Hz : z ∈ ys ++ (z :: zs)) by set_solver.
    destruct (klat_node _ _ _ _ _ _ _ _ _ _ _ _ _ Hk) as (-> & Hzk & Hzx & Hzn).
    apply crit_bind. eapply crit_load; [by eapply node_word|exact Hzk|].
    destruct (Z.eqb_spec (nk z) key) as [<-|Hzne].
    + destruct (klat_at _ _ _ _ _ _ _ _ ys (z :: zs) _ _ Hk) as [_ Hib].
      destruct (klat_unlinked_pre 0 _ _ _ _ _ _ _ _ _ _ _ _ Hk) as (P1 & P2 & P3).
      apply crit_bind. eapply crit_load; [by eapply node_word|exact Hzx|].
      apply crit_bind. apply crit_store; [by eapply end_word|exact Hib|]. apply crit_bind.
      eapply crit_free_node; [exact Hk|exact Hz|exact P2|]. apply crit_ret. split.
      { rewrite bool_decide_eq_true_2; [done|]. apply elem_of_key_set. exists z. split; [done|].
        apply Forall_app in Hu as [_ Hu]. by inversion Hu. }
      match goal with |- context [mroom k ?m2] => assert (HF : frame (∅ ∪ {[na z]}) (upd m (end_loc hd ys) (first_addr zs)) m2 ∅) end.
      { rewrite (left_id_L ∅ _). apply plain_free_frame. }
      destruct (klat_unlinked 0 _ _ _ _ _ 0 0 ∅ ∅ ys z zs m _ 0 Hk eq_refl HF) as [H2 HS].
      exists (ys ++ zs). split_and!; [by exists m0, F|exact HS|rewrite !length_app; simpl; lia|].
      apply mroom_delete. by repeat apply mroom_upd.
    + apply crit_bind. eapply crit_load; [by eapply node_word|exact Hzx|]. apply crit_ret.
      exists (length zs). split; [lia|]. exists (ys ++ [z]), zs. rewrite end_loc_snoc. split_and!; auto.
      * by rewrite <- app_assoc.
      * intros y [Hy| ->%list_elem_of_singleton]%elem_of_app; auto.
Qed.

Lemma crit_present m0 F gs ys zs key m (Q : bool -> mem -> Prop) : held m0 F gs (ys ++ zs) m -> Q (found key zs) m ->
  crit L (if first_addr zs =? NULL then Ret false else k <- load (first_addr zs, KEY) ;; Ret (k =? key)) m Q.
Proof.
  intros Hk HQ. destruct zs as [|z zs]; [done|]. simpl.
  destruct (klat_node _ _ _ _ _ _ _ _ _ _ _ _ _ Hk) as (-> & Hzk & _).
  apply crit_bind. eapply crit_load; [by eapply node_word; [exact Hk|set_solver]|exact Hzk|]. exact HQ.
Qed.

(** The end of [insert], at the place where the traversal ended. *)
Lemma insert_end_crit tid key m0 F ys zs m k :
  held m0 F [] (ys ++ zs) m -> (forall y, y ∈ ys -> nk y < key) -> match zs with [] => True | z :: _ => key <= nk z end ->
  (forall w, w ∈ L -> is_Some (get m w)) -> mroom (S k) m ->
  crit L (insert_end fuel tid key (end_loc hd ys, first_addr zs)) m (fun r m' =>
    r = negb (bool_decide (key ∈ key_set (ys ++ zs))) /\
    exists xs', listed xs' m' /\ key_set xs' = {[key]} ∪ key_set (ys ++ zs) /\
      (length xs' <= S (length (ys ++ zs)))%nat /\ mroom k m').
Proof.
  intros Hk Hlt Hge Hw Hr. destruct (klat_found _ _ _ _ _ _ _ _ _ _ _ _ _ Hk Hlt Hge) as [_ Hfd].
  unfold insert_end. apply crit_bind. eapply crit_present; [exact Hk|]. rewrite Hfd. destruct (found key zs) eqn:Ef.
  - apply crit_ret. split; [done|]. apply bool_decide_eq_true in Hfd.
    exists (ys ++ zs). split_and!; [by exists m0, F|set_solver|lia|eapply mroom_mono; [exact Hr|lia]].
  - apply crit_bind. eapply (crit_alloc L k); [exact Hr|done|exact Hw|].
    intros p Hp0 Hp16 Hp Hpf Hr2. pose proof (klat_fresh _ _ _ _ _ p Hk Hpf Hp (mod16_even _ Hp16)) as H2.
    set (m2 := <[p := _]> m) in *. clearbody m2.
    assert (Hst : is_struct m2 p 32). { eapply linv_scratch; [apply H2|left]. }
    assert (Hib : inb m2 (end_loc hd ys) = true) by (eapply klat_at; exact H2).
    apply crit_bind, crit_store; [by eapply scratch_word|minb|].
    apply crit_bind, crit_store; [by eapply scratch_word|minb|].
    set (m3 := upd (upd m2 (p, KEY) key) (p, NEXT) (first_addr zs)).
    assert (H3 : held m0 F [p] (ys ++ zs) m3) by (do 2 (apply klat_scratch; [|left]); exact H2).
    destruct (klat_link _ _ _ _ _ _ _ _ _ _ _ _ _ _ H3 ltac:(left) Hp (mod16_even _ Hp16) ltac:(unfold m3; mget)
      ltac:(unfold m3; mget) Hlt Hge Ef) as [H4 HS].
    apply crit_bind, crit_store; [by eapply end_word|unfold m3; by rewrite !inb_upd|]. apply crit_ret. split; [done|].
    exists (ys ++ (Nd p key false :: zs)). split_and!; [by exists m0, F|exact HS|rewrite !length_app; simpl; lia|].
    by repeat apply mroom_upd.
Qed.

Lemma insert_body_crit tid key xs m k : listed xs m -> (length xs < fuel)%nat ->
  (forall w, w ∈ L -> is_Some (get m w)) -> mroom (S k) m ->
  crit L (insert_body fuel tid l key) m (fun r m' => r = negb (bool_decide (key ∈ key_set xs)) /\
    exists xs', listed xs' m' /\ key_set xs' = {[key]} ∪ key_set xs /\ (length xs' <= S (length xs))%nat /\ mroom k m').
Proof.
  intros (m0 & F & H1) Hf Hw Hr. unfold insert_body. pose proof (klat_at _ _ _ _ _ _ _ _ [] xs _ _ H1) as [Hh _].
  apply crit_bind. eapply crit_load; [by eapply head_word|exact Hh|]. apply crit_bind.
  apply (crit_loop L (fun k st m' => exists ys zs, st = (end_loc hd ys, first_addr zs) /\ m' = m /\
    k = length zs /\ xs = ys ++ zs /\ (forall y, y ∈ ys -> nk y < key))) with (n := length xs);
    [|lia|exists [], xs; split_and!; [auto|auto|auto|auto|set_solver]].
  clear Hf Hh. intros j st m' (ys & zs & -> & -> & -> & -> & Hlt). rename H1 into Hk. destruct zs as [|z zs].
  - apply crit_ret. by eapply (insert_end_crit tid key m0 F).
  - assert (Hz : z ∈ ys ++ (z :: zs)) by set_solver.
    destruct (klat_node _ _ _ _ _ _ _ _ _ _ _ _ _ Hk) as (E & Hzk & Hzx & Hzn). simpl first_addr in *.
    destruct (klat_at _ _ _ _ _ _ _ _ ys (z :: zs) _ _ Hk) as [Hat _]. simpl in Hat.
    rewrite E. apply crit_bind. eapply crit_load; [by eapply node_word|exact Hzk|].
    destruct (Z.ltb_spec (nk z) key) as [Hlt'|Hge].
    + apply crit_bind. eapply crit_load; [by eapply node_word|exact Hzx|].
      apply crit_bind. eapply crit_load; [by eapply end_word|exact Hat|]. apply crit_ret.
      exists (length zs). split; [simpl; lia|]. exists (ys ++ [z]), zs. rewrite end_loc_snoc. split_and!; auto.
      * by rewrite <- app_assoc.
      * intros y [Hy| ->%list_elem_of_singleton]%elem_of_app; auto.
    + apply crit_ret. by apply (insert_end_crit tid key m0 F ys (z :: zs)).
Qed.

(** The empty list. *)
Lemma listed_nil m : get m lk = Some 0 -> get m hd = Some NULL -> inb m hd = true -> is_struct m (find_vars 0) 32 ->
  l <> find_vars 0 -> NoDup qs -> (forall q, q ∈ qs -> is_struct m q 32 /\ q <> l /\ q <> find_vars 0) -> listed [] m.
Proof.
  clear HL. intros H1 H2 H3 H4 H5 H6 H7. exists m, (fp hd fs ∅ []). split; [|split_and!; [constructor|done|done|done|done]].
  split_and!; [done| |apply frame_refl|left|constructor]. split.
  - exact H2.
  - unfold objs. simpl. rewrite app_nil_r. apply NoDup_cons. split; [|apply NoDup_cons; split; [|done]].
    + simpl. rewrite elem_of_cons. intros [E|Hq]; [done|]. by destruct (H7 l Hq) as (_ & ? & _).
    + intros Hq. by destruct (H7 _ Hq) as (_ & _ & ?).
  - intros b _. set_solver.
  - intros b [->|Hb]%elem_of_cons; [done|]. by apply H7.
Qed.

(** The list holds [X], there is room for [k] operations, and the words of the
    lock are there. *)
Definition list_rep (k : nat) (X : gset Z) m : Prop :=
  exists xs, listed xs m /\ key_set xs = X /\ (length xs + k < fuel)%nat /\ mroom k m /\
    forall w, w ∈ L -> is_Some (get m w).

Lemma update_body_crit i o k X m : list_rep (S k) X m ->
  crit L (update_body fuel l i o) m (fun r m' => r = (update_step o X).1 /\ list_rep k (update_step o X).2 m').
Proof.
  intros (xs & Hl & <- & Hf & Hr & Hw). destruct o as [key|key].
  - eapply crit_mono; [apply crit_words, (insert_body_crit (Z.of_nat i) key xs m k Hl); [lia|exact Hw|exact Hr]|].
    intros r m' ((-> & xs' & H1 & H2 & H3 & H4) & Hw'). split; [done|]. exists xs'. split_and!; auto; [lia|].
    intros w Hin. destruct (Hw' w Hin) as [-> _]. auto.
  - eapply crit_mono; [apply crit_words, (delete_body_crit (Z.of_nat i) key xs m (S k) Hl); [lia|exact Hr]|].
    intros r m' ((-> & xs' & H1 & H2 & H3 & H4) & Hw'). split; [done|]. exists xs'.
    split_and!; auto; [lia|eapply mroom_mono; [exact H4|lia]|]. intros w Hin. destruct (Hw' w Hin) as [-> _]. auto.
Qed.

(** The list in the memory of the machine, whatever the words of the lock are. *)
Definition list_in (X : gset Z) m : Prop :=
  exists xs, linv hd fs ∅ xs m /\ unmarked xs /\ sorted xs /\ key_set xs = X.

Lemma list_rep_in k X v us : list_rep k X v -> lock_writes L us -> list_in X (upds v us).
Proof.
  intros (xs & (m0 & F & (_ & Hi & _ & _ & Hst) & Hu & _) & HX & _) Hus. exists xs. split_and!; auto. clear -Hi Hus HL.
  simpl in Hi. induction us as [|[[b off] z] us IH] using rev_ind; [done|]. apply Forall_app in Hus as [Hus Hz].
  rewrite Forall_singleton in Hz. simpl in Hz. rewrite upds_snoc. destruct (HL _ Hz) as [E|Hq].
  - rewrite E. by apply linv_upd_lock; auto.
  - apply linv_upd_scratch; [by apply IH|]. by right.
Qed.
End crit_bodies.

Lemma listed_lock_list `{HM : Malloc} l m0 F xs m :
  klat (HA := allocator_malloc.ops) (HR := at_once) 0 m0 F (l, SL_LOCK) (l, SL_HEAD) [find_vars 0] 0 ∅ xs m 0 ->
  lock_list (HA := allocator_malloc.ops) (HR := at_once) 0 (l, SL_LOCK) 0 (l, SL_HEAD) ∅ xs m.
Proof. intros ((Ho & Hi & _ & _ & Hst) & Hu & Hg & H1 & H2 & H3). by split_and!. Qed.
