(* ===== verification/SpinList.v ===== *)
(** * The list with a spin lock under every interleaving (list_spinlock.c)

    list_spinlock.c over allocator_malloc.c: any number of threads that insert
    and delete, and [search], which reads a node after releasing the lock. *)
From S2P Require Export ListBody Linear.

(** The list of list_spinlock.c behind list.h. *)
#[export] Instance spin_list_ops `{Malloc, Allocator} : ListOps :=
  {| l_init := list_spinlock.list_init;
     l_destroy := list_spinlock.list_destroy;
     l_search := fun fuel _ => list_spinlock.search fuel;
     l_delete := list_spinlock.delete;
     l_insert := list_spinlock.insert |}.

(** ** Threads that insert and delete *)
Section client.
Context `{HA : Allocator}.
Variables (fuel : nat) (l : Z).

Definition update_op (i : nat) (o : update) : prog mem bool :=
  match o with
  | Ins k => list_spinlock.insert fuel (Z.of_nat i) l k
  | Del k => list_spinlock.delete fuel (Z.of_nat i) l k
  end.

(** A thread that performs a list of updates and records what it invokes and gets back. *)
Definition update_recorded (i : nat) (os : list update) : prog (mem * list (event update bool)) (list bool) :=
  hist_client (update_op i) i os.

Lemma update_op_eq i o : locked_op fuel (l, SL_LOCK) (update_body fuel l) i o ≈ update_op i o.
Proof. destruct o as [key|key]; [apply spin_insert_eq|apply spin_delete_eq]. Qed.
End client.

Section program.
Context `{HM : Malloc, HMR : !MallocRoom}.
Existing Instances allocator_malloc.ops at_once plain_laws.

(** The list holds [X], the lock is free, and there is room for [k] operations. *)
Definition spin_rep (fuel : nat) (l : Z) (k : nat) (X : gset Z) (m : mem) : Prop :=
  list_rep fuel l [] [(l, SL_LOCK)] k X m.

Lemma spin_rep_free fuel l k X m : spin_rep fuel l k X m -> get m (l, SL_LOCK) = Some 0.
Proof. intros (xs & (m0 & F & Hk) & _). apply Hk. Qed.

Lemma spin_init_spec fuel m k :
  storage MAX_THREADS m -> mroom (S k) m -> (k < fuel)%nat ->
  tot list_spinlock.list_init m (fun l m' => spin_rep fuel l k ∅ m').
Proof.
  intros Hs Hm Hf. unfold list_spinlock.list_init, mapmem, malloc. apply tot_bind.
  eapply tot_alloc; [exact Hm|done|]. intros l (L1 & L2 & _ & _) Hm1.
  set (m1 := <[l := Obj sizeof_slist ∅]> m) in *.
  assert (Hst : is_struct m1 l 16) by (split; [done|]; exists (Obj 16 ∅); unfold m1; by rewrite lookup_insert_eq).
  assert (Hv : is_struct m (find_vars 0) 32) by (by apply Hs).
  assert (Hne : l <> find_vars 0) by (intros ->; apply is_struct_live in Hv as [? ?]; congruence).
  assert (Hv1 : is_struct m1 (find_vars 0) 32).
  { eapply is_struct_lookup; [|exact Hv]. by apply lookup_insert_ne. }
  clearbody m1. psteps. exists []. split_and!; [|done|simpl; lia|by repeat apply mroom_upd|].
  - apply listed_nil; [mget|mget|minb|by rewrite !is_struct_upd|done|constructor|set_solver].
  - intros w ->%list_elem_of_singleton. eexists. mget.
Qed.

(** The order in which the operations take effect is one that an observer could have seen. *)
Lemma spin_linear fuel ops sched m k :
  storage MAX_THREADS m -> mroom (S k) m -> (sum_list (map length ops) <= k)%nat -> (k < fuel)%nat ->
  tot list_spinlock.list_init m (fun l m0 =>
    match exec sched (imap (fun i os => update_recorded fuel l i os) ops) (m0, []) with
    | Ok (ps, (m', h)) => exists log, legal update_step log ∅ /\ linearizes h log /\
        (forall i rs, ps !! i = Some (Ret rs) -> exists os, ops !! i = Some os /\ length rs = length os /\
           completed i h = zip os rs /\ mine i log = zip os rs) /\
        (Forall (fun p => exists rs, p = Ret rs) ps -> spin_rep fuel l (k - length log) (after update_step log ∅) m')
    | Err e => e = EFuel
    end).
Proof.
  intros Hs Hm Hops Hf. eapply tot_mono; [by apply (spin_init_spec fuel m k)|]. intros l m0 HR.
  eapply (lock_linear fuel (l, SL_LOCK) update_step (spin_rep fuel l) (update_body fuel l) (update_op fuel l)
    (spin_rep_free fuel l) (fun _ => True)); [..|exact HR|done|].
  - intros i o k' X m' _ H. apply update_body_crit; [|exact H]. intros w ->%list_elem_of_singleton. by left.
  - intros i o _. apply update_op_eq.
  - by do 2 (apply Forall_forall; intros ? _).
Qed.
End program.

(** ** Theorems *)

(** C5: list_spinlock.c, linked with allocator_malloc.c, is linearisable
    under every interleaving of threads that insert and delete, each recording
    when it begins an operation and when it has the answer: no access fails and
    no lock is released twice (a run can only stop at the bound of the
    spinning), and there is a legal sequential history of a set that has each
    thread's operations in their order, those that have returned with the
    answers they returned, and that puts an operation that had returned before
    another was invoked before that other, whichever threads did them; a thread
    that has finished did all its operations; and when all have finished, the
    list in memory is well formed, sorted and unlocked, and holds the keys of
    the set at the end of that history. *)
Theorem list_spinlock_linearises `{HM : Malloc, HMR : !MallocRoom} (fuel : nat) (ops : list (list update))
    (sched : list nat) (m : mem) (k : nat) :
  storage MAX_THREADS m -> mroom (S k) m -> (sum_list (map length ops) <= k)%nat -> (k < fuel)%nat ->
  tot list_spinlock.list_init m (fun l m0 =>
    match exec sched (imap (fun i os => @update_recorded allocator_malloc.ops fuel l i os) ops) (m0, []) with
    | Ok (ps, (m', h)) => exists log, legal update_step log ∅ /\ linearizes h log /\
        (forall i rs, ps !! i = Some (Ret rs) -> exists os, ops !! i = Some os /\ length rs = length os /\
           completed i h = zip os rs /\ mine i log = zip os rs) /\
        (Forall (fun p => exists rs, p = Ret rs) ps -> spin_rep fuel l (k - length log) (after update_step log ∅) m')
    | Err e => e = EFuel
    end).
Proof. apply spin_linear. Qed.

Lemma list_spinlock_linearises_witness :
  tot list_spinlock.list_init (static_mem 65) (fun l m0 =>
    match exec (concat (replicate 60 [0%nat; 1%nat; 1%nat])) (imap (fun i os => @update_recorded allocator_malloc.ops 20 l i os)
        [[Ins 7; Del 8]; [Ins 8; Ins 7]]) (m0, []) with
    | Ok (ps, (m', h)) => exists log, legal update_step log ∅ /\ linearizes h log /\
        (forall i rs, ps !! i = Some (Ret rs) -> exists os, [[Ins 7; Del 8]; [Ins 8; Ins 7]] !! i = Some os /\
           length rs = length os /\ completed i h = zip os rs /\ mine i log = zip os rs) /\
        (Forall (fun p => exists rs, p = Ret rs) ps -> spin_rep 20 l (4 - length log) (after update_step log ∅) m')
    | Err e => e = EFuel
    end).
Proof.
  apply (list_spinlock_linearises (HMR := bump_room_laws) 20 [[Ins 7; Del 8]; [Ins 8; Ins 7]]).
  - exact static_storage.
  - eapply mroom_mono; [exact static_room|lia].
  - simpl. lia.
  - lia.
Defined.

(** A recorded run: two inserts overlap, a delete that begins after an insert has
    returned. *)
Example list_spinlock_recorded :
  match run list_spinlock.list_init (static_mem 65) with
  | Ok (l, m0) =>
      match exec (concat (replicate 40 [0%nat; 1%nat])) (imap (fun i os => @update_recorded allocator_malloc.ops 20 l i os)
        [[Ins 7; Del 8]; [Ins 8; Ins 7]]) (m0, []) with
      | Ok (ps, (_, h)) => Some (map finished ps, h)
      | Err _ => None
      end
  | Err _ => None
  end = Some ([Some [true; true]; Some [true; false]],
    [EInv 0 (Ins 7); EInv 1 (Ins 8); ERes 0 (Ins 7) true; EInv 0 (Del 8); ERes 1 (Ins 8) true; EInv 1 (Ins 7);
     ERes 0 (Del 8) true; ERes 1 (Ins 7) false]).
Proof. vm_compute. reflexivity. Qed.

(** C38: [search] of list_spinlock.c reads [cur->key] again after it has
    released the lock: alone the two operations are fine, but where another
    thread deletes and frees the node in between, the read is one of freed
    memory. *)
Theorem list_spinlock_search_race :
  race (replicate 5 O ++ replicate 9 1%nat) = Ok [Some true; Some true] /\ race race_sched = Err EAccess.
Proof. split; [exact race_free|exact race_bad]. Qed.

(** [search] of list_spinlock.c, run alone, over any allocator that keeps
    its contract: it takes and releases the lock once, answers whether the key
    is in the list and leaves list and memory as they are. *)
Theorem list_spinlock_search_correct `{HA : Allocator, HR : Reclaimer, HRL : !ReclaimerLaws}
    (fuel : nat) (tid : Z) (n : nat) (l key : Z) (O : gset Z) (xs : list nd) (m : mem) :
  lock_list tid (l, SL_LOCK) n (l, SL_HEAD) O xs m -> (length xs < fuel)%nat ->
  tot (list_spinlock.search fuel l key) m
    (lock_post tid (l, SL_LOCK) n (l, SL_HEAD) O xs m (bool_decide (key ∈ key_set xs)) (key_set xs)).
Proof. apply spin_search_spec. Qed.

Lemma list_spinlock_search_correct_witness :
  tot (l <- list_spinlock.list_init ;; list_spinlock.search 3 l 7) (static_mem 65) (fun r m' => r = false).
Proof.
  apply tot_bind. eapply tot_mono; [apply (spin_init_spec (HMR := bump_room_laws) 3 (static_mem 65) 1)|].
  - exact static_storage.
  - eapply mroom_mono; [exact static_room|lia].
  - lia.
  - intros l m (xs & (m0 & F & Hk) & HX & Hf & _). pose proof (listed_lock_list _ _ _ _ _ Hk) as Hl.
    eapply tot_mono; [apply (list_spinlock_search_correct (HRL := plain_laws) 3 0 0 l 7 ∅ xs m Hl); lia|].
    intros r m' [-> _]. by rewrite HX.
Defined.
