(* ===== verification/McsList.v ===== *)
(** * The list with an MCS lock under every interleaving (list_mcslock.c)

    list_mcslock.c over allocator_malloc.c, for any number of threads that
    insert and delete, each with its own queue node. *)
From S2P Require Export ListBody McsLock.

Section client.
Context `{HA : Allocator}.
Variables (fuel : nat) (nd : nat -> Z) (l : Z).

Definition mcs_update (i : nat) (o : update) : prog mem bool :=
  match o with
  | Ins k => list_mcslock.insert fuel (Z.of_nat i) (nd i) l k
  | Del k => list_mcslock.delete fuel (Z.of_nat i) (nd i) l k
  end.

(** A thread that performs a list of updates and records what it invokes and gets back. *)
Definition mcs_recorded (i : nat) (os : list update) : prog (mem * list (event update bool)) (list bool) :=
  hist_client (mcs_update i) i os.

Lemma mcs_update_eq i o : mcs_op fuel (l, SL_LOCK) nd (update_body fuel l) i o ≈ mcs_update i o.
Proof. destruct o as [key|key]; [apply mcs_insert_eq|apply mcs_delete_eq]. Qed.
End client.

(** The queue nodes [mynode] of [n] threads. *)
Definition mcs_nodes (nd : nat -> Z) (n : nat) (m : mem) : Prop :=
  (forall i j, (i < n)%nat -> (j < n)%nat -> nd i = nd j -> i = j) /\
  forall i, (i < n)%nat -> is_struct m (nd i) sizeof_qnode_t /\ nd i <> find_vars 0 /\
    is_Some (get m (nd i, QN_LOCKED)) /\ is_Some (get m (nd i, QN_NEXT)).

Section program.
Context `{HM : Malloc, HMR : !MallocRoom}.
Existing Instances allocator_malloc.ops at_once plain_laws.
Variables (fuel : nat) (nd : nat -> Z) (n : nat).
Implicit Types (m : mem).
Abbreviation words l := (mcs_words (l, SL_LOCK) nd n).
Abbreviation nodes := (map nd (seq 0 n)).

Lemma elem_of_nodes q : q ∈ nodes <-> exists i, q = nd i /\ (i < n)%nat.
Proof.
  rewrite list_elem_of_fmap. split; intros (i & -> & Hi); exists i; [apply elem_of_seq in Hi|rewrite elem_of_seq];
    split; auto; lia.
Qed.

Lemma elem_of_words l w : w ∈ words l -> w = (l, SL_LOCK) \/
  exists i, (i < n)%nat /\ (w = (nd i, QN_LOCKED) \/ w = (nd i, QN_NEXT)).
Proof.
  intros [->|Hw]%elem_of_cons; [by left|]. right. apply list_elem_of_In, in_flat_map in Hw as (i & Hi & Hw).
  apply in_seq in Hi. exists i. split; [lia|]. simpl in Hw. naive_solver.
Qed.

Lemma words_nodes l w : w ∈ words l -> w = (l, SL_LOCK) \/ w.1 ∈ nodes.
Proof.
  intros [->|(i & Hi & Hw)]%elem_of_words; [by left|]. right. rewrite elem_of_nodes. exists i. naive_solver.
Qed.

Lemma nodes_nodup m : mcs_nodes nd n m -> NoDup nodes.
Proof.
  intros [Hinj _]. apply NoDup_alt. intros i j q. rewrite !list_lookup_fmap. intros Hi Hj.
  destruct (seq 0 n !! i) as [a|] eqn:Ea; [|done]. destruct (seq 0 n !! j) as [b|] eqn:Eb; [|done]. simpl in *.
  apply lookup_seq in Ea as [-> Ha]. apply lookup_seq in Eb as [-> Hb]. assert (0 + i = 0 + j)%nat; [|lia].
  apply Hinj; try lia. congruence.
Qed.

Lemma mcs_init_spec m k :
  storage MAX_THREADS m -> mroom (S k) m -> (k < fuel)%nat -> mcs_nodes nd n m ->
  tot list_mcslock.list_init m (fun l m' => list_rep fuel l nodes (words l) k ∅ m' /\
    get m' (l, SL_LOCK) = Some NULL /\ (forall i, (i < n)%nat -> nd i <> l) /\
    forall w, w ∈ words l -> is_Some (get m' w) /\ inb m' w = true).
Proof.
  intros Hs Hm Hf HN. unfold list_mcslock.list_init, mapmem, malloc. apply tot_bind.
  eapply tot_alloc; [exact Hm|done|]. intros l (L1 & L2 & _ & _) Hm1.
  set (m1 := <[l := Obj sizeof_slist ∅]> m) in *.
  assert (Hst : is_struct m1 l 16) by (split; [done|]; exists (Obj 16 ∅); unfold m1; by rewrite lookup_insert_eq).
  assert (Hold : forall b, live m b -> b <> l /\ m1 !! b = m !! b).
  { intros b [o Hb]. split; [congruence|]. apply lookup_insert_ne. congruence. }
  assert (Hv : is_struct m (find_vars 0) 32) by (by apply Hs).
  destruct (Hold _ (is_struct_live _ _ _ Hv)) as [Hne Ev]. apply (is_struct_lookup _ _ _ _ Ev) in Hv.
  assert (Hnl : forall i, (i < n)%nat -> nd i <> l).
  { intros i Hi. apply Hold. eapply is_struct_live. by apply HN. }
  assert (Hw : forall i, (i < n)%nat -> is_struct m1 (nd i) 256 /\
    is_Some (get m1 (nd i, QN_LOCKED)) /\ is_Some (get m1 (nd i, QN_NEXT))).
  { intros i Hi. destruct HN as [_ HN]. destruct (HN i Hi) as (H1 & _ & H3 & H4).
    destruct (Hold _ (is_struct_live _ _ _ H1)) as [_ E].
    split_and!; [by eapply is_struct_lookup|by rewrite (get_lookup_eq m)..]. }
  clearbody m1. psteps. set (m2 := upd (upd m1 (l, SL_LOCK) 0) (l, SL_HEAD) 0).
  assert (Hwd : forall w, w ∈ words l -> is_Some (get m2 w) /\ inb m2 w = true).
  { unfold m2. intros w [->|(i & Hi & Hiw)]%elem_of_words; [split; [eexists; mget|minb]|].
    destruct (Hw i Hi) as (W1 & W2 & W3). pose proof (Hnl i Hi). rewrite !inb_upd.
    destruct Hiw as [->| ->]; (split; [rewrite !get_upd_ne by congruence; done|eapply is_struct_inb; [exact W1|lia]]). }
  split_and!; [|unfold m2; mget|done|exact Hwd].
  exists []. split_and!; [|done|simpl; lia|unfold m2; by repeat apply mroom_upd|intros w Hin; by apply Hwd].
  apply listed_nil; unfold m2; [mget|mget|minb|by rewrite !is_struct_upd|done|by eapply nodes_nodup|].
  intros q (i & -> & Hi)%elem_of_nodes. rewrite !is_struct_upd. destruct (Hw i Hi) as (W1 & _).
  split_and!; [|by apply Hnl|by apply HN]. destruct W1 as (? & o & ? & ?). split; [done|]. exists o. split; [done|lia].
Qed.
End program.

(** C6: list_mcslock.c, linked with allocator_malloc.c and the MCS lock of
    util.c, is linearisable under every interleaving of threads that insert and
    delete, each with a queue node of its own and recording when it begins an
    operation and when it has the answer: no access fails (a run can only stop
    at the bound of the spinning), and there is a legal sequential history of a
    set that has each thread's operations in their order, those that have
    returned with the answers they returned, and that puts an operation that had
    returned before another was invoked before that other, whichever threads did
    them; a thread that has finished did all its operations; and when all have
    finished, the lock is free and the list in memory is well formed, sorted, and
    holds the keys of the set at the end of that history. *)
Theorem list_mcslock_linearises `{HM : Malloc, HMR : !MallocRoom} (fuel : nat) (nd : nat -> Z)
    (ops : list (list update)) (sched : list nat) (m : mem) (k : nat) :
  storage MAX_THREADS m -> mroom (S k) m -> (sum_list (map length ops) <= k)%nat -> (k < fuel)%nat ->
  mcs_nodes nd (length ops) m ->
  tot list_mcslock.list_init m (fun l m0 =>
    match exec sched (imap (fun i os => @mcs_recorded allocator_malloc.ops fuel nd l i os) ops) (m0, []) with
    | Ok (ps, (m', h)) => exists log, legal update_step log ∅ /\ linearizes h log /\
        (forall i rs, ps !! i = Some (Ret rs) -> exists os, ops !! i = Some os /\ length rs = length os /\
           completed i h = zip os rs /\ mine i log = zip os rs) /\
        (Forall (fun p => exists rs, p = Ret rs) ps ->
           get m' (l, SL_LOCK) = Some NULL /\
           list_in l (map nd (seq 0 (length ops))) (after update_step log ∅) m')
    | Err e => e = EFuel
    end).
Proof.
  intros Hs Hm Hops Hf HN. eapply tot_mono; [by apply (mcs_init_spec fuel nd (length ops) m k)|].
  intros l m0 (HR & Hlk & Hnl & Hw). pose proof HN as [Hinj HN'].
  pose proof (mcs_linear fuel (l, SL_LOCK) nd update_step
    (list_rep fuel l (map nd (seq 0 (length ops))) (mcs_words (l, SL_LOCK) nd (length ops)))
    (@update_body allocator_malloc.ops fuel l) (@mcs_update allocator_malloc.ops fuel nd l) (fun _ => True) ops) as HS.
  specialize (HS Hinj ltac:(intros i Hi; by apply (HN' i Hi)) ltac:(intros i Hi; by apply Hnl)
    ltac:(intros i o k' X m' _ H; apply update_body_crit; [apply words_nodes|exact H])
    ltac:(intros i o _; apply mcs_update_eq)).
  specialize (HS sched k ∅ m0 HR Hw Hlk Hops ltac:(by do 2 (apply Forall_forall; intros ? _))).
  unfold mcs_recorded. destruct (exec _ _ _) as [[ps [m' h]]|e]; [|exact HS]. destruct HS as (log & H0 & H1 & H2 & H3).
  exists log. split; [done|]. split; [done|]. split; [done|]. intros Hall. destruct (H3 Hall) as (Hl & v & us & Hus & -> & Hv).
  split; [exact Hl|]. eapply list_rep_in; [apply words_nodes|exact Hv|exact Hus].
Qed.

(** Queue nodes in the storage of two threads. *)
Lemma demo_nodes : mcs_nodes (fun i => tls (Z.of_nat i)) 2 (static_mem 65).
Proof.
  split; [unfold tls, sizeof_tls, TLS_BASE; intros; lia|].
  intros i Hi. destruct i as [|[|i]]; [..|lia].
  all: split_and!; [apply is_structb_spec; vm_compute; reflexivity|done|exists 0; vm_compute; reflexivity..].
Qed.

Lemma list_mcslock_linearises_witness :
  let ops := [[Ins 7; Del 8]; [Ins 8; Ins 7]] in
  tot list_mcslock.list_init (static_mem 65) (fun l m0 =>
    match exec (concat (replicate 60 [0%nat; 1%nat; 1%nat]))
      (imap (fun i os => @mcs_recorded allocator_malloc.ops 20 (fun i => tls (Z.of_nat i)) l i os) ops) (m0, []) with
    | Ok (ps, (m', h)) => exists log, legal update_step log ∅ /\ linearizes h log /\
        (forall i rs, ps !! i = Some (Ret rs) -> exists os, ops !! i = Some os /\ length rs = length os /\
           completed i h = zip os rs /\ mine i log = zip os rs) /\
        (Forall (fun p => exists rs, p = Ret rs) ps ->
           get m' (l, SL_LOCK) = Some NULL /\
           list_in l (map (fun i => tls (Z.of_nat i)) (seq 0 2)) (after update_step log ∅) m')
    | Err e => e = EFuel
    end).
Proof.
  cbv zeta. apply (list_mcslock_linearises (HMR := bump_room_laws) 20 (fun i => tls (Z.of_nat i))
    [[Ins 7; Del 8]; [Ins 8; Ins 7]] _ (static_mem 65) 4).
  - exact static_storage.
  - eapply mroom_mono; [exact static_room|lia].
  - simpl. lia.
  - lia.
  - exact demo_nodes.
Defined.
