(* ===== verification/EbrProgram.v ===== *)
(** * What ebr.c does with critical sections and retired nodes

    The global epoch advances as documented, and a limbo list that is
    processed is freed.  But [critical_enter] and [free_node_later] change a
    copy of the thread's record: a critical section is invisible to the other
    threads, and no retired node is ever freed. *)
From S2P Require Export ListProgram.

(** ** The calls a thread makes *)
Inductive mr_call : Set := Enter | Leave | Retire (q : Z) | ThreadExit.

Definition retired (c : mr_call) : list Z := match c with Retire q => [q] | _ => [] end.

Section calls.
Context `{HM : Malloc}.
Existing Instance allocator_malloc.ops.
Variables (fuel : nat) (tid : Z).

Definition mr_call_prog (c : mr_call) : prog mem unit :=
  match c with
  | Enter => ebr.critical_enter fuel tid
  | Leave => ebr.critical_exit tid
  | Retire q => ebr.free_node_later tid q
  | ThreadExit => ebr.mr_thread_exit fuel tid
  end.

Fixpoint mr_calls (cs : list mr_call) : prog mem unit :=
  match cs with
  | [] => Ret tt
  | c :: cs' => mr_call_prog c ;; mr_calls cs'
  end.
End calls.

(** * Proofs *)

Section proofs.
Context `{HM : Malloc}.
Existing Instance allocator_malloc.ops.
Implicit Types (m : mem) (O : gset Z) (ns : list Z).

(** ** Processing a limbo list *)
Lemma u64_sub_u64 a b : u64 (a - u64 b) = u64 (a - b).
Proof. unfold u64. by rewrite Zminus_mod_idemp_r. Qed.

Lemma process_callbacks_spec fuel tid lb lo a ns c m :
  get m (lb, lo) = Some a -> inb m (lb, lo) = true -> flist MR_NEXT m a ns -> NoDup (lb :: this_thread tid :: ns) ->
  get m (this_thread tid, T_RETIRE_COUNT) = Some c -> is_struct m (this_thread tid) sizeof_per_thread_t ->
  (length ns < fuel)%nat ->
  tot (ebr.process_callbacks_epoch fuel tid (lb, lo)) m (fun _ m' =>
    get m' (lb, lo) = Some NULL /\ (forall x, x ∈ ns -> m' !! x = None) /\
    get m' (this_thread tid, T_RETIRE_COUNT) = Some (u64 (c - Z.of_nat (length ns))) /\
    forall b, b ∉ lb :: this_thread tid :: ns -> m' !! b = m !! b).
Proof.
  intros Hl Hin Hfl Hnd Hc Ht Hf. unfold ebr.process_callbacks_epoch. apply tot_bind.
  eapply (tot_loop (fun k num m' => exists done rest a', ns = done ++ rest /\ k = length rest /\
    num = u64 (Z.of_nat (length done)) /\ get m' (lb, lo) = Some a' /\ inb m' (lb, lo) = true /\
    flist MR_NEXT m' a' rest /\
    (forall x, x ∈ done -> m' !! x = None) /\ m' !! this_thread tid = m !! this_thread tid /\
    forall b, b ∉ lb :: this_thread tid :: ns -> m' !! b = m !! b)) with (n := length ns);
    [|lia|by exists [], ns, a; split_and!; auto; set_solver].
  clear a Hl Hin Hfl. intros k num m' (dn & rest & a & -> & -> & -> & Hl & Hin & Hfl & Hdn & Htm & Ho).
  rewrite !NoDup_cons, elem_of_cons in Hnd. destruct Hnd as (N1 & N2 & N3).
  assert (N4 : lb <> this_thread tid) by tauto.
  assert (Hc' : get m' (this_thread tid, T_RETIRE_COUNT) = Some c) by (by rewrite (get_lookup_eq m)).
  assert (Ht' : is_struct m' (this_thread tid) 192) by (by eapply is_struct_lookup).
  destruct rest as [|x rest].
  - simpl in Hfl. subst a. psteps. simpl. psteps. rewrite app_nil_r in *.
    split_and!.
    + mget.
    + intros x Hx. rewrite lookup_upd_ne; [auto|]. simpl. intros ->. done.
    + rewrite get_upd_eq by mlive. f_equal. apply u64_sub_u64.
    + intros b Hb. rewrite lookup_upd_ne; [auto|]. simpl. intros ->. apply Hb. right. left.
  - destruct Hfl as (-> & Hx & q & Hq & Hfl).
    rewrite elem_of_app, elem_of_cons in N1, N2.
    assert (Nx : x <> lb /\ x <> this_thread tid) by (split; intros ->; tauto). destruct Nx as [Nx1 Nx2].
    apply tot_bind. eapply tot_load; [exact Hl|].
    replace (x =? 0) with false by (symmetry; apply Z.eqb_neq; by eapply is_node_nonnull).
    unfold free_node, allocator_malloc.ops, allocator_malloc.free_node. psteps.
    apply tot_free; [by eapply is_node_nonnull|mlive|].
    set (m1 := base.delete x _).
    assert (HL : forall b, b <> x -> m1 !! b = m' !! b).
    { intros b Hb. unfold m1. rewrite lookup_delete_ne, !lookup_upd_ne by auto. done. }
    assert (Hin1 : inb m1 (lb, lo) = true) by (rewrite (inb_lookup_eq m'); auto).
    psteps. apply NoDup_app in N3 as (Nd & Ndr & Nr). apply NoDup_cons in Nr as [Nxr Nr].
    exists (length rest). split; [simpl; lia|]. exists (dn ++ [x]), rest, q. split_and!.
    + by rewrite <- app_assoc.
    + done.
    + rewrite length_app. simpl. unfold u64. rewrite Zplus_mod_idemp_l. f_equal. lia.
    + rewrite get_upd_eq; [done|]. by apply inb_live in Hin1.
    + by rewrite inb_upd.
    + apply flist_upd; [right; simpl; tauto|]. eapply flist_objs; [|exact Hfl].
      intros b Hb. apply HL. intros ->. done.
    + intros y Hy. rewrite lookup_upd_ne.
      * apply elem_of_app in Hy as [Hy|Hy%list_elem_of_singleton]; [|subst y; apply lookup_delete_eq].
        rewrite HL; [auto|]. intros ->. apply (Ndr x Hy). left.
      * simpl. intros ->. rewrite elem_of_app, list_elem_of_singleton in Hy. tauto.
    + rewrite lookup_upd_ne, HL by auto. done.
    + intros b Hb. rewrite !elem_of_cons, elem_of_app, elem_of_cons in Hb.
      rewrite lookup_upd_ne, HL by (simpl; tauto). apply Ho.
      rewrite !elem_of_cons, elem_of_app, elem_of_cons. tauto.
Qed.

(** ** Nothing is ever freed *)
Lemma mr_call_spec fuel tid c m O :
  ebr_own tid m O -> (0 < fuel)%nat -> (forall q, q ∈ retired c -> is_node m q /\ q ∉ O) ->
  tot (mr_call_prog fuel tid c) m (fun _ m' => ebr_own tid m' O /\ (forall b, live m b -> live m' b) /\
    (forall q, is_node m q -> q <> stack_t tid -> is_node m' q)).
Proof.
  intros Ho Hf Hq. pose proof (eo_thread _ _ _ Ho) as Ht. unfold sizeof_per_thread_t in Ht.
  assert (Hpriv : forall m0 m', private_to (stack_t tid) m0 m' -> is_struct m0 (stack_t tid) sizeof_per_thread_t ->
    (forall b, live m0 b -> live m' b) /\ (forall q, is_node m0 q -> q <> stack_t tid -> is_node m' q)).
  { intros m0 m' Hp Hs. split.
    - intros b Hb. destruct (decide (b = stack_t tid)) as [->|Hne].
      + by eapply is_struct_live, Hp.
      + unfold live. by rewrite (proj1 Hp).
    - intros q Hn Hne. eapply is_node_lookup; [|exact Hn]. by apply Hp. }
  pose proof (eo_stack _ _ _ Ho) as Hs. destruct c as [| |q|]; simpl.
  - eapply tot_mono; [by apply (critical_enter_private fuel tid m O)|]. intros [] m' Hp.
    split; [by eapply ebr_own_private|]. by apply Hpriv.
  - unfold ebr.critical_exit. psteps. split_and!.
    + by apply ebr_own_exit.
    + intros b. apply live_upd.
    + intros q Hn _. by apply is_node_upd.
  - destruct (Hq q ltac:(left)) as [Hn HqO].
    eapply tot_mono; [by apply (free_node_later_private tid m O q)|]. intros [] m' Hp.
    assert (Ho1 : ebr_own tid (upd m (q, MR_NEXT) NULL) O).
    { eapply ebr_own_local; [exact Ho|intros b Hb _; apply lookup_upd_ne; simpl; congruence|].
      intros sz. by apply is_struct_upd. }
    split; [by eapply ebr_own_private|]. destruct (Hpriv _ _ Hp (eo_stack _ _ _ Ho1)) as [P1 P2]. split.
    + intros b Hb. apply P1. by apply live_upd.
    + intros x Hx Hne. apply P2; [|done]. by apply is_node_upd.
  - unfold ebr.mr_thread_exit. apply tot_loop_exit; [done|]. pose proof (eo_retire _ _ _ Ho).
    psteps. simpl. apply tot_ret. auto.
Qed.

Lemma mr_calls_spec fuel tid cs m O :
  ebr_own tid m O -> (0 < fuel)%nat ->
  (forall q, q ∈ flat_map retired cs -> is_node m q /\ q ∉ O) ->
  tot (mr_calls fuel tid cs) m (fun _ m' => ebr_own tid m' O /\ forall b, live m b -> live m' b).
Proof.
  revert m. induction cs as [|c cs IH]; intros m Ho Hf Hq; simpl; [by apply tot_ret|].
  apply tot_bind. eapply tot_mono; [apply (mr_call_spec fuel tid c m O Ho Hf)|].
  { intros q Hqc. apply Hq. simpl. apply elem_of_app. auto. }
  intros [] m1 (Ho1 & Hl1 & Hn1). eapply tot_mono; [apply (IH m1 Ho1 Hf)|].
  { intros q Hqc. destruct (Hq q) as [H1 H2]; [simpl; apply elem_of_app; auto|]. split; [|done].
    apply Hn1; [done|]. intros ->. apply H2, Ho. }
  intros [] m2 [Ho2 Hl2]. auto.
Qed.

(** ** Critical sections are not seen *)
Lemma this_stack i j : 0 <= i < MAX_THREADS -> 0 <= j < MAX_THREADS -> this_thread i <> stack_t j.
Proof. unfold this_thread, stack_t, THREADS, STACK_BASE, sizeof_per_thread_t, MAX_THREADS. lia. Qed.

Lemma ebr_at_private eg e m m' tid :
  ebr_at eg e m -> 0 <= tid < MAX_THREADS -> private_to (stack_t tid) m m' -> ebr_at eg e m'.
Proof.
  intros [Hs Hr E1 E2 E3 E4 E5 E6 E7] Ht Hp.
  destruct (stack_ne tid Ht) as (_ & N2 & _).
  assert (Hst : forall p sz, is_struct m p sz -> is_struct m' p sz).
  { intros p sz H. destruct (decide (p = stack_t tid)) as [->|Hne]; [by apply Hp|].
    eapply is_struct_lookup; [|exact H]. by apply Hp. }
  assert (Hth : forall i f, 0 <= i < MAX_THREADS -> get m' (this_thread i, f) = get m (this_thread i, f)).
  { intros i f Hi. apply (private_get _ _ _ _ Hp). by apply this_stack. }
  assert (N3 : eg <> stack_t tid) by (by apply E7).
  destruct Hs as [S1 S2 S3 S4 S5]. split; auto; try (by rewrite !(private_get _ _ _ _ Hp) by auto).
  - split; auto. intros i f Hi Hf. rewrite Hth by auto. auto.
  - intros i Hi. destruct (Hr i Hi) as (R1 & R2 & R3 & R4 & R5). split_and!; intros; rewrite Hth; auto.
Qed.

(** [critical_exit] clears a flag that nothing has set. *)
Lemma critical_exit_same eg e tid m : ebr_at eg e m -> 0 <= tid < MAX_THREADS ->
  tot (ebr.critical_exit tid) m (fun _ m' => m' = m).
Proof.
  intros HE Ht. pose proof (sg_thread _ _ (ea_storage _ _ _ HE) tid Ht) as Hs. unfold sizeof_per_thread_t in Hs.
  unfold ebr.critical_exit. psteps. apply upd_same. by apply (ea_reset _ _ _ HE tid Ht).
Qed.

Lemma update_epoch_advances fuel eg e m n :
  ebr_at eg e m -> get m (GLOBALS, G_N_THREADS) = Some (Z.of_nat n) -> Z.of_nat n <= MAX_THREADS -> (n < fuel)%nat ->
  tot (ebr.update_epoch fuel) m (fun _ m' => ebr_at eg ((e + 1) mod 3) m' /\
    get m' (GLOBALS, G_N_THREADS) = Some (Z.of_nat n)).
Proof.
  intros [Hs Hr E1 E2 E3 E4 E5 E6 E7] Hn Hle Hf.
  assert (Hth : forall i, (i < n)%nat -> get m (this_thread (Z.of_nat i), T_IN_CRITICAL) = Some 0 /\
    get m (this_thread (Z.of_nat i), T_EPOCH) = Some 0).
  { intros i Hi. destruct (Hr (Z.of_nat i) ltac:(lia)) as (R1 & R2 & _). auto. }
  eapply tot_mono; [apply (update_epoch_spec fuel m eg 0 e n); auto|].
  - intros i Hi. destruct (E7 (Z.of_nat i) ltac:(lia)) as (N1 & _), (Hth i Hi) as [-> ->]. eauto.
  - intros [] m' ->. assert (Hcu : forallb (caught_up m e) (seq 0 n) = true).
    { apply forallb_forall. intros i Hi%in_seq. unfold caught_up.
      by destruct (Hth i ltac:(lia)) as [-> ->]. }
    rewrite Hcu. simpl. pose proof (live_get _ _ _ E3) as Hlv. simpl in Hlv. split; [|by rewrite get_upd_ne by congruence].
    split; auto.
    + by apply storage_upd.
    + intros i Hi. apply thread_reset_ne; [simpl; by apply E7|auto].
    + by rewrite get_upd_ne by congruence.
    + by apply is_struct_upd.
    + by apply get_upd_eq.
    + apply Z.mod_pos_bound. done.
    + rewrite get_upd_ne by congruence. done.
Qed.

(** Calls that any threads make, one after the other. *)
Inductive ebr_event : Set := EvEnter (tid : Z) | EvLeave (tid : Z) | EvUpdate.

Definition ebr_event_prog (fuel : nat) (ev : ebr_event) : prog mem unit :=
  match ev with
  | EvEnter tid => ebr.critical_enter fuel tid
  | EvLeave tid => ebr.critical_exit tid
  | EvUpdate => ebr.update_epoch fuel
  end.

Fixpoint ebr_events (fuel : nat) (evs : list ebr_event) : prog mem unit :=
  match evs with
  | [] => Ret tt
  | ev :: evs' => ebr_event_prog fuel ev ;; ebr_events fuel evs'
  end.

Definition of_a_thread (ev : ebr_event) : Prop :=
  match ev with EvEnter tid | EvLeave tid => 0 <= tid < MAX_THREADS | EvUpdate => True end.

(** How often [update_epoch] is called. *)
Fixpoint updates (evs : list ebr_event) : Z :=
  match evs with [] => 0 | EvUpdate :: evs' => 1 + updates evs' | _ :: evs' => updates evs' end.

Lemma ebr_events_spec fuel n evs eg e m :
  ebr_at eg e m -> get m (GLOBALS, G_N_THREADS) = Some (Z.of_nat n) -> Z.of_nat n <= MAX_THREADS -> (n < fuel)%nat ->
  Forall of_a_thread evs -> tot (ebr_events fuel evs) m (fun _ m' => ebr_at eg ((e + updates evs) mod 3) m').
Proof.
  intros He Hn Hle Hf. revert e m He Hn. induction evs as [|ev evs IH]; intros e m He Hn HT; simpl.
  - apply tot_ret. rewrite Z.add_0_r, Z.mod_small; [done|apply (ea_range _ _ _ He)].
  - apply Forall_cons in HT as [Ht HT]. apply tot_bind. destruct ev as [tid|tid|]; simpl in *.
    + pose proof (ebr_at_own _ _ _ tid He Ht) as Ho.
      eapply tot_mono; [apply (critical_enter_private fuel tid m _ Ho); lia|]. intros [] m1 Hp.
      apply IH; [by eapply ebr_at_private| |done]. rewrite (private_get _ _ _ _ Hp); [done|].
      pose proof (stack_ne tid Ht). simpl. intuition congruence.
    + eapply tot_mono; [by apply (critical_exit_same eg e tid m)|]. intros [] m' ->. by apply IH.
    + eapply tot_mono; [by apply (update_epoch_advances fuel eg e m n)|]. intros [] m1 [H1 Hn1].
      eapply tot_mono; [by apply (IH _ _ H1)|]. intros [] m2 H2.
      rewrite Zplus_mod_idemp_l in H2. by replace (e + (1 + updates evs)) with (e + 1 + updates evs) by lia.
Qed.
End proofs.

(** The state of the witnesses: two threads, after mr_init. *)
Definition ebr_demo : mem :=
  match run ebr.mr_init (upd (static_mem 65) (GLOBALS, G_N_THREADS) 2) with
  | Ok (_, m) => m
  | Err _ => ∅
  end.
Definition demo_eg : Z := Eval vm_compute in default 0 (get ebr_demo (GLOBALS, G_EG)).

Lemma ebr_demo_ready : exists m k, run ebr.mr_init (upd (static_mem 65) (GLOBALS, G_N_THREADS) 2) = Ok (tt, m) /\
  ebr_ready ∅ m /\ get m (GLOBALS, G_N_THREADS) = Some 2 /\ mroom (MallocRoom := bump_room_laws) (S k) m.
Proof.
  assert (H : tot ebr.mr_init (upd (static_mem 65) (GLOBALS, G_N_THREADS) 2) (fun _ m' =>
    ebr_ready ∅ m' /\ mroom (MallocRoom := bump_room_laws) 900 m' /\
    get m' (GLOBALS, G_N_THREADS) = get (upd (static_mem 65) (GLOBALS, G_N_THREADS) 2) (GLOBALS, G_N_THREADS))).
  { eapply tot_mono; [apply (mr_init_spec ∅ _ 900 (storage_upd _ _ _ _ static_storage))|].
    - apply mroom_upd. eapply mroom_mono; [exact static_room|lia].
    - intros b Hb. by apply not_elem_of_empty in Hb.
    - intros [] m' (H1 & H2 & H3 & _). exact (conj H1 (conj H2 H3)). }
  apply tot_run in H as ([] & m & Hrun & H1 & H2 & H3). exists m, 899%nat.
  split_and!; [exact Hrun|exact H1| |exact H2]. rewrite H3. vm_compute. reflexivity.
Qed.

(** ** Theorems *)

(** C15: [update_epoch] of ebr.c advances the global epoch, modulo three,
    exactly when it gets the lock and every thread whose record says that it is
    in a critical section has seen the current epoch; the lock is as before
    afterwards, and nothing else changes. *)
Theorem ebr_update_epoch_correct (fuel : nat) (m : mem) (eg lk e : Z) (n : nat) :
  get m (GLOBALS, G_EG) = Some eg -> get m (eg, EG_LOCK) = Some lk ->
  is_struct m eg sizeof_ebr_globals -> get m (eg, EG_EPOCH) = Some e -> 0 <= e < N_EPOCHS ->
  get m (GLOBALS, G_N_THREADS) = Some (Z.of_nat n) -> (n < fuel)%nat -> eg <> GLOBALS ->
  (forall i, (i < n)%nat -> this_thread (Z.of_nat i) <> eg /\
     is_Some (get m (this_thread (Z.of_nat i), T_IN_CRITICAL)) /\
     is_Some (get m (this_thread (Z.of_nat i), T_EPOCH))) ->
  tot (ebr.update_epoch fuel) m (fun _ m' =>
    m' = if (lk =? 0) && forallb (caught_up m e) (seq 0 n)
         then upd m (eg, EG_EPOCH) ((e + 1) mod 3) else m).
Proof. apply update_epoch_spec. Qed.

Lemma ebr_update_epoch_correct_witness :
  tot (ebr.update_epoch 5) (upd ebr_demo (this_thread 1, T_IN_CRITICAL) 1) (fun _ m' =>
    m' = upd ebr_demo (this_thread 1, T_IN_CRITICAL) 1).
Proof.
  eapply tot_mono; [apply (ebr_update_epoch_correct 5 (upd ebr_demo (this_thread 1, T_IN_CRITICAL) 1) demo_eg 0 1 2)|].
  - vm_compute. reflexivity.
  - vm_compute. reflexivity.
  - apply is_structb_spec. vm_compute. reflexivity.
  - vm_compute. reflexivity.
  - done.
  - vm_compute. reflexivity.
  - lia.
  - done.
  - intros [|[|i]] Hi; [..|lia]; (split; [done|]; split; eexists; vm_compute; reflexivity).
  - intros [] m' ->. destruct (_ && _) eqn:E; [|reflexivity]. vm_compute in E. discriminate.
Defined.

(** C32: a critical section is invisible: after mr_init, whatever calls of
    [critical_enter], [critical_exit] and [update_epoch] the threads make, in any
    order, every call of [update_epoch] advances the global epoch, however many
    threads are in a critical section and however long they stay there, and no
    record ever says that its thread is in one.  (With the flag and the epoch
    in the records, a thread that stays inside lets the epoch advance at most
    once.)  [critical_enter] sets them in a copy of the record. *)
Theorem ebr_epoch_ignores_readers `{HM : Malloc} (fuel n : nat) (K : gset Z) (evs : list ebr_event) (m : mem) :
  ebr_ready K m -> get m (GLOBALS, G_N_THREADS) = Some (Z.of_nat n) -> Z.of_nat n <= MAX_THREADS ->
  (n < fuel)%nat -> Forall of_a_thread evs ->
  tot (ebr_events fuel evs) m (fun _ m' =>
    (exists eg, get m' (GLOBALS, G_EG) = Some eg /\ get m' (eg, EG_EPOCH) = Some ((1 + updates evs) mod 3)) /\
    forall i, 0 <= i < MAX_THREADS -> get m' (this_thread i, T_IN_CRITICAL) = Some 0).
Proof.
  intros Hr Hn Hle Hf HT. destruct (ebr_ready_at _ _ Hr) as (eg & He & _).
  eapply tot_mono; [by apply (ebr_events_spec fuel n evs eg 1 m)|]. intros [] m' HE. split.
  - exists eg. split; [apply (ea_var _ _ _ HE)|apply (ea_epoch _ _ _ HE)].
  - intros i Hi. by destruct (ea_reset _ _ _ HE i Hi) as (_ & H & _).
Qed.

(** Two threads enter and stay; the epoch goes round through all three values. *)
Lemma ebr_epoch_ignores_readers_witness :
  tot (ebr.mr_init ;; ebr_events 5 [EvEnter 0; EvEnter 1; EvUpdate; EvUpdate; EvUpdate])
    (upd (static_mem 65) (GLOBALS, G_N_THREADS) 2) (fun _ m' =>
    (exists eg, get m' (GLOBALS, G_EG) = Some eg /\ get m' (eg, EG_EPOCH) = Some 1) /\
    forall i, 0 <= i < MAX_THREADS -> get m' (this_thread i, T_IN_CRITICAL) = Some 0).
Proof.
  destruct ebr_demo_ready as (m & _ & Hrun & Hr & Hn & _). apply tot_bind. eapply run_tot; [exact Hrun|]. clear Hrun.
  apply (ebr_epoch_ignores_readers 5 2 ∅ [EvEnter 0; EvEnter 1; EvUpdate; EvUpdate; EvUpdate] m Hr Hn).
  - done.
  - lia.
  - by repeat constructor.
Defined.

(** C33: retired nodes are never freed: whatever calls of critical_enter,
    critical_exit, free_node_later and mr_thread_exit a thread makes after
    mr_init, every object that was live still is, and mr_thread_exit returns
    at once; the nodes that free_node_later was given leak. *)
Theorem ebr_never_frees `{HM : Malloc} (fuel : nat) (tid : Z) (cs : list mr_call) (m : mem) (O : gset Z) :
  ebr_own tid m O -> (0 < fuel)%nat ->
  (forall q, q ∈ flat_map retired cs -> is_node m q /\ q ∉ O) ->
  tot (mr_calls fuel tid cs) m (fun _ m' => ebr_own tid m' O /\ forall b, live m b -> live m' b).
Proof. apply mr_calls_spec. Qed.

Lemma ebr_never_frees_witness :
  tot (ebr.mr_init ;; q <- allocator_malloc.new_node ;; mr_calls 1 0 [Enter; Retire q; Leave; Enter; Leave; ThreadExit] ;; Ret q)
    (upd (static_mem 65) (GLOBALS, G_N_THREADS) 2) (fun q m' => live m' q).
Proof.
  destruct ebr_demo_ready as (m & k & Hrun & Hr & Hn & Hm). apply tot_bind. eapply run_tot; [exact Hrun|]. clear Hrun.
  destruct (ebr_ready_own ∅ m 0 Hr ltac:(done)) as (eg & Ho & _).
  apply tot_bind. eapply (tot_alloc (HMR := bump_room_laws)); [exact Hm|done|].
  intros q (Q1 & Q2 & Q3 & Q4) _. apply tot_bind.
  assert (Hq : q ∉ ebr_objs 0 eg) by (intros E; apply (eo_live _ _ _ Ho) in E as [? ?]; congruence).
  eapply tot_mono; [apply (ebr_never_frees 1 0 [Enter; Retire q; Leave; Enter; Leave; ThreadExit]
    (<[q := Obj sizeof_node_t ∅]> m) (ebr_objs 0 eg))|].
  - eapply ebr_own_local; [exact Ho|intros b Hb _; apply lookup_insert_ne; congruence|].
    intros sz. apply is_struct_lookup, lookup_insert_ne. intros ->. apply Hq, Ho.
  - lia.
  - intros x Hx. simpl in Hx. apply list_elem_of_singleton in Hx as ->. split; [|done].
    split; [lia|]. split; [by apply mod16_even|]. exists (Obj sizeof_node_t ∅). by rewrite lookup_insert_eq.
  - intros [] m' [_ Hl]. apply tot_ret, Hl. exists (Obj sizeof_node_t ∅). by rewrite lookup_insert_eq.
Defined.

(** [process_callbacks_epoch] of ebr.c frees every node of a limbo list,
    empties the list, takes their number off the thread's count of retired
    nodes and changes nothing else. *)
Theorem ebr_process_callbacks_correct `{HM : Malloc} (fuel : nat) (tid lb lo a : Z) (ns : list Z) (c : Z) (m : mem) :
  get m (lb, lo) = Some a -> inb m (lb, lo) = true -> flist MR_NEXT m a ns -> NoDup (lb :: this_thread tid :: ns) ->
  get m (this_thread tid, T_RETIRE_COUNT) = Some c -> is_struct m (this_thread tid) sizeof_per_thread_t ->
  (length ns < fuel)%nat ->
  tot (@ebr.process_callbacks_epoch allocator_malloc.ops fuel tid (lb, lo)) m (fun _ m' =>
    get m' (lb, lo) = Some NULL /\ (forall x, x ∈ ns -> m' !! x = None) /\
    get m' (this_thread tid, T_RETIRE_COUNT) = Some (u64 (c - Z.of_nat (length ns))) /\
    forall b, b ∉ lb :: this_thread tid :: ns -> m' !! b = m !! b).
Proof. apply process_callbacks_spec. Qed.

(** A limbo list of one node, in the automatic variable of thread 0. *)
Definition limbo_demo : mem :=
  upd (upd (upd (<[131072 := Obj sizeof_node_t ∅]> ebr_demo) (131072, MR_NEXT) NULL)
    (stack_t 0, T_LIMBO_LIST) 131072) (this_thread 0, T_RETIRE_COUNT) 1.

Lemma ebr_process_callbacks_correct_witness :
  tot (@ebr.process_callbacks_epoch allocator_malloc.ops 5 0 (stack_t 0, T_LIMBO_LIST)) limbo_demo (fun _ m' =>
    get m' (stack_t 0, T_LIMBO_LIST) = Some NULL /\ m' !! 131072 = None /\
    get m' (this_thread 0, T_RETIRE_COUNT) = Some 0).
Proof.
  eapply tot_mono; [apply (ebr_process_callbacks_correct 5 0 (stack_t 0) T_LIMBO_LIST 131072 [131072] 1 limbo_demo)|].
  - vm_compute. reflexivity.
  - vm_compute. reflexivity.
  - split; [done|]. split.
    + split; [done|]. split; [done|]. eexists. split; [vm_compute; reflexivity|done].
    + exists NULL. split; [vm_compute; reflexivity|done].
  - apply (bool_decide_unpack _). vm_compute. exact I.
  - vm_compute. reflexivity.
  - apply is_structb_spec. vm_compute. reflexivity.
  - simpl. lia.
  - intros [] m' (H1 & H2 & H3 & _). split_and!; [exact H1|apply H2; left|exact H3].
Defined.
