(* ===== verification/Magazine.v ===== *)
(** * The magazine allocator (allocator_magazine.c): what its clients get *)
From S2P Require Export Alloc ListProgram.

(** A pool of one node, for the witnesses. *)
Definition mag_node : Z := 131072.
Definition mag_spare : Z := 131136.
Definition mag_demo : mem :=
  upd (upd (upd (<[mag_spare := Obj sizeof_node_t ∅]> (<[mag_node := Obj sizeof_node_t ∅]> (static_mem 2)))
    (mag_node, MR_NEXT) NULL) (this_thread 0, T_FREELIST) mag_node) (this_thread 0, T_FREELIST_COUNT) 1.

Lemma mag_demo_node p : p = mag_node \/ p = mag_spare -> is_node mag_demo p.
Proof.
  intros [->| ->]; (split; [done|]; split; [done|]; eexists; split; [vm_compute; reflexivity|done]).
Qed.

Lemma mag_demo_ok : mag_ok (this_thread 0) [mag_node] [] [] mag_demo.
Proof.
  split; [|split; [simpl; lia|by left]]. exists mag_node, NULL, NULL. split; try (vm_compute; reflexivity).
  - eexists. vm_compute. reflexivity.
  - apply is_structb_spec. vm_compute. reflexivity.
  - split; [|by split]. split; [done|]. split; [apply mag_demo_node; by left|].
    exists NULL. split; [vm_compute; reflexivity|done].
  - apply (bool_decide_unpack _). vm_compute. exact I.
Qed.

(** ** Theorems *)

(** [new_node] of allocator_magazine.c terminates without an error, takes
    one node out of the pool (the free list and the second magazine of the
    thread, and the magazines of all threads) and clears it, and answers NULL
    exactly when the pool is empty; the free list never grows past a magazine
    and the pool keeps its nodes apart. *)
Theorem mag_new_node_correct (get_thread : Z -> Z) (fuel : nat) (tid : Z) (fl ns : list Z)
    (mags : list (list Z)) (m : mem) :
  mag_ok (get_thread tid) fl ns mags m -> (0 < fuel)%nat ->
  tot (allocator_magazine.new_node get_thread fuel tid) m (fun r m' => exists fl' ns' mags',
    mag_ok (get_thread tid) fl' ns' mags' m' /\
    match pool fl ns mags with
    | [] => r = NULL /\ pool fl' ns' mags' = []
    | _ => pool fl ns mags ≡ₚ r :: pool fl' ns' mags' /\ is_node m' r /\ zero_node m' r
    end).
Proof. apply mag_new_node_spec. Qed.

Lemma mag_new_node_correct_witness :
  tot (allocator_magazine.new_node this_thread 3 0) mag_demo (fun r m' => exists fl' ns' mags',
    mag_ok (this_thread 0) fl' ns' mags' m' /\ [mag_node] ≡ₚ r :: pool fl' ns' mags').
Proof.
  eapply tot_mono; [apply (mag_new_node_correct this_thread 3 0 [mag_node] [] [] mag_demo mag_demo_ok); lia|].
  intros r m' (fl' & ns' & mags' & H1 & H2 & _). by exists fl', ns', mags'.
Defined.

(** [free_node] of allocator_magazine.c puts a node that is not in the
    pool at the head of the thread's free list; where that list is a full
    magazine it becomes the second magazine, and the second magazine goes to
    the stack of all threads; no node of the pool is lost. *)
Theorem mag_free_node_correct (get_thread : Z -> Z) (fuel : nat) (tid : Z) (fl ns : list Z)
    (mags : list (list Z)) (m : mem) (p : Z) :
  mag_ok (get_thread tid) fl ns mags m -> (0 < fuel)%nat ->
  is_node m p -> p ∉ get_thread tid :: GLOBALS :: pool fl ns mags ->
  tot (allocator_magazine.free_node get_thread fuel tid p) m (fun _ m' => exists fl' ns' mags',
    mag_ok (get_thread tid) (p :: fl') ns' mags' m' /\ pool fl' ns' mags' ≡ₚ pool fl ns mags).
Proof. apply mag_free_node_spec. Qed.

Lemma mag_spare_apart : mag_spare ∉ this_thread 0 :: GLOBALS :: pool [mag_node] [] [].
Proof. apply (bool_decide_unpack _). vm_compute. exact I. Qed.

Lemma mag_free_node_correct_witness :
  tot (allocator_magazine.free_node this_thread 3 0 mag_spare) mag_demo (fun _ m' => exists fl' ns' mags',
    mag_ok (this_thread 0) (mag_spare :: fl') ns' mags' m' /\ pool fl' ns' mags' ≡ₚ [mag_node]).
Proof.
  apply (mag_free_node_correct this_thread 3 0 [mag_node] [] [] mag_demo mag_spare mag_demo_ok).
  - lia.
  - apply mag_demo_node. by right.
  - exact mag_spare_apart.
Defined.

(** C29: freeing a node and allocating again gives that node back, cleared, and
    leaves the pool with the nodes it had. *)
Theorem mag_free_new_roundtrip (get_thread : Z -> Z) (fuel : nat) (tid : Z) (fl ns : list Z)
    (mags : list (list Z)) (m : mem) (p : Z) :
  mag_ok (get_thread tid) fl ns mags m -> (0 < fuel)%nat ->
  is_node m p -> p ∉ get_thread tid :: GLOBALS :: pool fl ns mags ->
  tot (allocator_magazine.free_node get_thread fuel tid p ;; allocator_magazine.new_node get_thread fuel tid) m
    (fun r m' => r = p /\ is_node m' p /\ zero_node m' p /\ exists fl' ns' mags',
      mag_ok (get_thread tid) fl' ns' mags' m' /\ pool fl' ns' mags' ≡ₚ pool fl ns mags).
Proof.
  intros Hok Hf Hp Hnp. apply tot_bind. eapply tot_mono; [by apply (mag_free_node_spec get_thread fuel tid fl ns mags)|].
  intros [] m1 (fl' & ns' & mags' & Hok1 & Hperm).
  eapply tot_mono; [apply (mag_new_node_head get_thread fuel tid p fl' ns' mags' m1 Hok1)|].
  intros r m2 (-> & Hok2 & Hn & Hz). split_and!; auto. by exists fl', ns', mags'.
Qed.

Lemma mag_free_new_roundtrip_witness :
  tot (allocator_magazine.free_node this_thread 3 0 mag_spare ;; allocator_magazine.new_node this_thread 3 0) mag_demo
    (fun r m' => r = mag_spare).
Proof.
  eapply tot_mono; [apply (mag_free_new_roundtrip this_thread 3 0 [mag_node] [] [] mag_demo mag_spare mag_demo_ok)|].
  - lia.
  - apply mag_demo_node. by right.
  - exact mag_spare_apart.
  - by intros r m' [-> _].
Defined.
