(* ===== verification/HashProgram.v ===== *)
(** * The hash table program

    hash.c over the lock-free list, with allocator_malloc.c and ebr.c: what a
    thread gets from every sequence of operations on a table it has created,
    and what happens to a key hash.c does not expect. *)
From S2P Require Export Hash ListProgram.

Section ops.
Context `{HM : Malloc, HLO : !ListOps}.
Variables (fuel : nat) (tid : Z).

Definition hash_op (h : Z) (o : set_op) : prog mem bool :=
  match o with
  | Search k => hash.hash_search fuel tid h k
  | Delete k => hash.hash_delete fuel tid h k
  | Insert k => hash.hash_insert fuel tid h k
  end.

Fixpoint hash_ops (h : Z) (os : list set_op) : prog mem (list bool) :=
  match os with
  | [] => Ret []
  | o :: os' => r <- hash_op h o ;; rs <- hash_ops h os' ;; Ret (r :: rs)
  end.
End ops.

Definition op_key (o : set_op) : Z :=
  match o with Search k => k | Delete k => k | Insert k => k end.

(** mr_init, hash_table_init and then the operations of thread [tid]. *)
Definition hash_program `{Malloc} (fuel : nat) (tid nbuckets : Z) (os : list set_op) : prog mem (list bool) :=
  ebr.mr_init ;;
  h <- hash.hash_table_init (HLO := @lf_list_ops _ allocator_malloc.ops (@ebr.ops _ allocator_malloc.ops) ebr.epochs)
         nbuckets ;;
  hash_ops (HLO := @lf_list_ops _ allocator_malloc.ops (@ebr.ops _ allocator_malloc.ops) ebr.epochs) fuel tid h os.

(** * Proofs *)

Section refinement.
Context `{HM : Malloc, HMR : !MallocRoom, HLO : !ListOps, HS : !SetLaws}.
Variables (fuel : nat) (tid : Z).

Lemma hash_op_spec o c h K m k :
  table tid c h K m -> 0 <= op_key o -> (c < fuel)%nat -> mroom (S k) m ->
  tot (hash_op fuel tid h o) m (fun r m' => r = (set_step o K).1 /\
    table tid (S c) h (set_step o K).2 m' /\ mroom k m').
Proof.
  intros Ht Hk Hf Hr. assert (Hr' : mroom k m) by (eapply mroom_mono; [exact Hr|lia]).
  destruct o as [key|key|key]; simpl in *.
  - by apply hash_search_spec.
  - by apply hash_delete_spec.
  - by apply hash_insert_spec.
Qed.

Lemma hash_ops_spec os c h K m k :
  table tid c h K m -> Forall (fun o => 0 <= op_key o) os -> (c + length os <= fuel)%nat ->
  mroom (length os + k) m ->
  tot (hash_ops fuel tid h os) m (fun rs m' => rs = (set_steps os K).1 /\
    table tid (c + length os) h (set_steps os K).2 m' /\ mroom k m').
Proof.
  revert c K m. induction os as [|o os IH]; intros c K m Ht Hk Hf Hr; simpl.
  - apply tot_ret. by rewrite Nat.add_0_r.
  - simpl in *. apply Forall_cons in Hk as [Hk1 Hk2]. apply tot_bind.
    eapply tot_mono; [apply (hash_op_spec o c h K m (length os + k) Ht Hk1); [lia|exact Hr]|].
    intros r m1 (-> & Ht1 & Hr1). destruct (set_step o K) as [r K1]. simpl in *.
    apply tot_bind. eapply tot_mono; [apply (IH _ _ _ Ht1 Hk2); [lia|exact Hr1]|].
    intros rs m2 (-> & Ht2 & Hr2). apply tot_ret. destruct (set_steps os K1) as [rs K2]. simpl in *.
    replace (c + S (length os))%nat with (S c + length os)%nat by lia. auto.
Qed.
End refinement.

(** The program up to and with the creation of the table. *)
Section start.
Context `{HM : Malloc, HMR : !MallocRoom}.
Existing Instances allocator_malloc.ops ebr.ops ebr.epochs ebr_laws ebr_room.

Definition hash_start (nbuckets : Z) : prog mem Z :=
  ebr.mr_init ;; hash.hash_table_init (HLO := lf_list_ops) nbuckets.

Lemma hash_start_spec m tid nb k :
  storage MAX_THREADS m -> 0 <= tid < MAX_THREADS -> 0 < nb -> 8 * nb <= M32 ->
  mroom (3 + (Z.to_nat nb + k)) m ->
  tot (hash_start nb) m (fun h m' => table (HS := lf_set_laws) tid (Z.to_nat nb) h ∅ m' /\ mroom k m').
Proof.
  intros Hs Ht Hn Hsz Hr. unfold hash_start. apply tot_bind.
  eapply tot_mono; [apply (mr_init_spec ∅ m _ Hs Hr); set_solver|].
  intros [] m1 (Hready & Hr1 & _).
  eapply tot_mono; [apply (hash_init_spec (HS := lf_set_laws) tid 0 ∅ m1 nb k); [|lia|lia|exact Hr1]|].
  { apply ready_sets; auto; set_solver. }
  done.
Qed.
End start.

(** ** Theorems *)

(** C23: the hash table of hash.c over the lock-free list is a set: for every
    number of buckets, every sequence of operations with keys that are not
    negative returns without an error the answers of a mathematical set,
    wherever the keys collide, as long as malloc has room for the table, the
    buckets and one node per operation. *)
Theorem hash_program_refines_set `{HM : Malloc, HMR : !MallocRoom} (fuel : nat) (tid nb : Z)
    (os : list set_op) (m : mem) (k : nat) :
  storage MAX_THREADS m -> 0 <= tid < MAX_THREADS -> 0 < nb -> 8 * nb <= M32 ->
  Forall (fun o => 0 <= op_key o) os ->
  mroom (3 + (Z.to_nat nb + (length os + k))) m -> (Z.to_nat nb + length os <= fuel)%nat ->
  exists m', run (hash_program fuel tid nb os) m = Ok ((set_steps os ∅).1, m').
Proof.
  intros Hs Ht Hn Hsz Hk Hr Hf.
  assert (H : tot (hash_program fuel tid nb os) m (fun rs _ => rs = (set_steps os ∅).1)).
  { change (hash_program fuel tid nb os) with (ebr.mr_init ;;
      (h <- hash.hash_table_init (HLO := @lf_list_ops _ allocator_malloc.ops (@ebr.ops _ allocator_malloc.ops) ebr.epochs) nb ;;
       hash_ops (HLO := @lf_list_ops _ allocator_malloc.ops (@ebr.ops _ allocator_malloc.ops) ebr.epochs) fuel tid h os)).
    apply tot_bind. pose proof (hash_start_spec m tid nb _ Hs Ht Hn Hsz Hr) as H.
    unfold hash_start in H. apply tot_bind_inv in H. eapply tot_mono; [exact H|].
    intros [] m1 H1. apply tot_bind. eapply tot_mono; [exact H1|]. intros h m2 [Ht2 Hr2].
    eapply tot_mono; [apply (hash_ops_spec (HS := lf_set_laws) fuel tid os _ h ∅ m2 k Ht2 Hk Hf Hr2)|].
    by intros rs m3 [-> _]. }
  apply tot_run in H as (rs & m' & Hrun & ->). eauto.
Qed.

Lemma hash_program_refines_set_witness :
  exists m', run (hash_program 20 1 2 [Insert 5; Insert 7; Insert 4; Delete 5; Search 7; Search 5; Delete 9])
    (static_mem 65) = Ok ([true; true; true; true; true; false; false], m').
Proof.
  apply (hash_program_refines_set (HMR := bump_room_laws) 20 1 2
    [Insert 5; Insert 7; Insert 4; Delete 5; Search 7; Search 5; Delete 9] (static_mem 65) 900).
  - exact static_storage.
  - done.
  - done.
  - done.
  - repeat constructor; simpl; lia.
  - eapply mroom_mono; [exact static_room|]. simpl. lia.
  - simpl. lia.
Defined.

(** Hash.c takes the remainder of C as the index of the bucket, so a
    negative key that the number of buckets does not divide makes [search],
    [delete] and [insert] read before the array of buckets, whatever the list
    they are linked with. *)
Theorem hash_negative_key `{HM : Malloc, HMR : !MallocRoom, HLO : !ListOps, HS : !SetLaws}
    (fuel : nat) (tid : Z) (c : nat) (h : Z) (K : gset Z) (m : mem) (o : set_op) :
  table tid c h K m -> op_key o < 0 ->
  (forall n, get m (h, H_NBUCKETS) = Some n -> ~ (n | op_key o)) ->
  run (hash_op fuel tid h o) m = Err EAccess.
Proof.
  intros Ht Hk Hd. pose proof (bucket_negative tid c h K m (op_key o) Ht Hk Hd) as H.
  destruct o; unfold op_key in H; unfold hash_op, hash.hash_search, hash.hash_delete, hash.hash_insert;
    by rewrite run_bind, H.
Qed.

Lemma hash_negative_key_witness :
  tot (hash_start 2) (static_mem 65) (fun h m =>
    run (hash_op (HLO := @lf_list_ops _ allocator_malloc.ops (@ebr.ops _ allocator_malloc.ops) ebr.epochs)
      9 0 h (Search (-1))) m = Err EAccess).
Proof.
  assert (Hst : tot (hash_start 2) (static_mem 65) (fun h m =>
    table (HS := @lf_set_laws _ _ _ _ ebr.epochs ebr_laws ebr_room) 0 (Z.to_nat 2) h ∅ m /\ bump_room 990 m)).
  { apply (hash_start_spec (HMR := bump_room_laws)); [exact static_storage|done|done|done|].
    eapply mroom_mono; [exact static_room|]. simpl. lia. }
  assert (Hnb : tot (hash_start 2) (static_mem 65) (fun h m => get m (h, H_NBUCKETS) = Some 2))
    by (vm_compute; reflexivity).
  eapply tot_mono; [apply tot_and; [exact Hnb|exact Hst]|]. clear Hnb Hst.
  - intros h m [Hn [Ht _]]. apply (hash_negative_key (HS := lf_set_laws) 9 0 2 h ∅ m (Search (-1))); [exact Ht|done|].
    intros n E. rewrite Hn in E. injection E as <-. intros [x E]. simpl in E. lia.
Defined.
