(* ===== verification/SmrProgram.v ===== *)
(** * The program list_lf_smr

    allocator_malloc.c, smr.c and list_lf_smr.c linked together: what mr_init
    of smr.c establishes, the list on hazard pointers as a set, and what the
    scan frees and keeps. *)
From S2P Require Export ListSmr ListProgram.

(** The list of list_lf_smr.c behind list.h. *)
#[export] Instance smr_list_ops `{Malloc, Allocator, Qsort} : ListOps :=
  {| l_init := list_lf_smr.list_init;
     l_destroy := list_lf_smr.list_destroy;
     l_search := list_lf_smr.search;
     l_delete := list_lf_smr.delete;
     l_insert := list_lf_smr.insert |}.

(** mr_init, list_init and then the operations of thread [tid]. *)
Definition smr_list_program `{HM : Malloc, HQ : Qsort} (fuel : nat) (tid : Z) (os : list set_op)
  : prog mem (list bool) :=
  smr.mr_init ;;
  l <- list_lf_smr.list_init ;;
  list_ops (HLO := @smr_list_ops _ allocator_malloc.ops _) fuel tid l os.

(** ** A sort that meets the documentation of qsort *)
Fixpoint isort_insert (cmp : Z -> Z -> Z) (x : Z) (xs : list Z) : list Z :=
  match xs with
  | [] => [x]
  | y :: ys => if cmp x y <=? 0 then x :: y :: ys else y :: isort_insert cmp x ys
  end.

Definition isort (cmp : Z -> Z -> Z) (xs : list Z) : list Z := foldr (isort_insert cmp) [] xs.

(** * Proofs *)

Lemma isort_insert_perm cmp x xs : isort_insert cmp x xs ≡ₚ x :: xs.
Proof.
  induction xs as [|y ys IH]; simpl; [done|]. destruct (cmp x y <=? 0); [done|].
  rewrite IH. by rewrite Permutation_swap.
Qed.

Lemma isort_perm cmp xs : isort cmp xs ≡ₚ xs.
Proof. induction xs as [|x xs IH]; simpl; [done|]. by rewrite isort_insert_perm, IH. Qed.

Lemma isort_insert_sorts cmp x xs : consistent cmp (x :: xs) ->
  StronglySorted (fun a b => cmp a b <= 0) xs -> StronglySorted (fun a b => cmp a b <= 0) (isort_insert cmp x xs).
Proof.
  intros [HC HT] Hs. induction Hs as [|y ys Hs IH Hy]; simpl; [by repeat constructor|].
  destruct (Z.leb_spec (cmp x y) 0) as [Hle|Hgt].
  - constructor; [by constructor|]. constructor; [done|]. rewrite Forall_forall in Hy |- *.
    intros z Hz. apply (HT x y z); auto; set_solver.
  - constructor.
    + apply IH; intros; [apply HC|apply (HT _ b _)]; set_solver.
    + rewrite isort_insert_perm. constructor; [|done]. apply HC in Hgt; [lia|set_solver..].
Qed.

Lemma isort_sorts cmp xs : consistent cmp xs -> StronglySorted (fun a b => cmp a b <= 0) (isort cmp xs).
Proof.
  induction xs as [|x xs IH]; intros [HC HT]; simpl; [constructor|].
  apply isort_insert_sorts.
  - split; intros *; rewrite ?isort_perm; [apply HC|apply HT].
  - apply IH. split; intros; [apply HC|apply (HT _ b _)]; set_solver.
Qed.

Definition insertion_sort : Qsort :=
  {| qsort := isort; qsort_perm := isort_perm; qsort_sorts := isort_sorts |}.

(** ** The memory smr.c uses *)
Section smr_room.
Context `{HM : Malloc, HMR : !MallocRoom, HQ : Qsort}.
Existing Instances allocator_malloc.ops smr.ops smr_laws.

Lemma load_array_keeps k a i n : keeps (mroom k) (load_array a i n).
Proof. revert i. induction n as [|n IH]; intros i; simpl; keep. Qed.

Lemma store_array_keeps k a i vs : keeps (mroom k) (store_array a i vs).
Proof. revert i. induction vs as [|v vs IH]; intros i; simpl; keep. Qed.

Lemma malloc_free_keeps k p : keeps (mroom k) (allocator_malloc.free_node p).
Proof. unfold allocator_malloc.free_node. keep. Qed.

Lemma hp_keeps k i : keeps (mroom k) (smr.HP i).
Proof. unfold smr.HP. keep. Qed.
#[local] Hint Resolve load_array_keeps store_array_keeps malloc_free_keeps hp_keeps : room.

Lemma scan_keeps k fuel tid : keeps (mroom k) (smr.scan fuel tid).
Proof. unfold smr.scan, smr.H, qsort_array, bsearch, free_node, allocator_malloc.ops. keep. Qed.
#[local] Hint Resolve scan_keeps : room.

Lemma smr_retire_keeps k fuel tid p : keeps (mroom k) (smr.free_node_later fuel tid p).
Proof. unfold smr.free_node_later, smr.R, smr.H. keep. Qed.
#[local] Hint Resolve smr_retire_keeps : room.

Lemma smr_find_keeps k fuel tid head key : keeps (mroom k) (list_lf_smr.find fuel tid head key).
Proof. unfold list_lf_smr.find. keep. Qed.
#[local] Hint Resolve smr_find_keeps : room.

Lemma smr_search_keeps k fuel tid l key : keeps (mroom k) (list_lf_smr.search fuel tid l key).
Proof. unfold list_lf_smr.search. keep. Qed.

Lemma smr_delete_keeps k fuel tid l key : keeps (mroom k) (list_lf_smr.delete fuel tid l key).
Proof. unfold list_lf_smr.delete. keep. Qed.

Lemma smr_insert_room k fuel tid l key m r m' :
  mroom (S k) m -> run (list_lf_smr.insert fuel tid l key) m = Ok (r, m') -> mroom k m'.
Proof.
  intros Hm H. unfold list_lf_smr.insert in H. rewrite run_bind in H.
  destruct (run (new_node fuel tid) m) as [[p m1]|] eqn:Hp; [|discriminate].
  apply (new_node_room (RoomLaws := ebr_room) k) in Hp as [Hp Hm1]; [|exact Hm].
  revert H. match goal with |- run ?p _ = _ -> _ => cut (keeps (mroom k) p); [intros HK; by apply HK|] end.
  unfold free_node, allocator_malloc.ops. keep.
Qed.

#[export] Instance smr_room : RoomLaws.
Proof.
split.
- intros k fuel tid m p m' Hm H. exact (new_node_room (RoomLaws := ebr_room) k fuel tid m p m' Hm H).
- intros k fuel tid p. apply malloc_free_keeps.
- intros k fuel tid. apply keeps_ret.
- intros k fuel tid. apply keeps_ret.
- intros k fuel tid p. apply smr_retire_keeps.
Qed.

Definition smr_code : ListCode (HLO := smr_list_ops).
Proof.
split.
{ done. }
{ intros. by apply smr_search_spec. }
{ intros. apply smr_search_keeps. }
{ intros. by apply smr_delete_spec. }
{ intros. apply smr_delete_keeps. }
{ intros. by apply smr_insert_spec. }
{ intros ???????? Hm Hr. by apply (smr_insert_room _ _ _ _ _ _ _ _ Hm Hr). }
Qed.

#[export] Instance smr_set_laws : SetLaws := code_set_laws (HC := smr_code).
End smr_room.

(** ** What mr_init establishes *)
Section init.
Context `{HM : Malloc, HMR : !MallocRoom}.
Implicit Types (m : mem).

(** The record of thread [i] as mr_init leaves it. *)
Definition smr_thread (hp : Z) (nt : nat) m (i : Z) : Prop := exists pl,
  get m (this_thread i, T_PLIST) = Some pl /\ is_struct m pl (16 * Z.of_nat nt) /\
  pl <> hp /\ pl <> GLOBALS /\ (forall j, 0 <= j < MAX_THREADS -> pl <> this_thread j /\ pl <> find_vars j) /\
  get m (this_thread i, T_RLIST) = Some NULL /\ get m (this_thread i, T_RETIRE_COUNT) = Some 0.

Lemma smr_thread_upd hp nt m i l v :
  l.1 <> this_thread i -> smr_thread hp nt m i -> smr_thread hp nt (upd m l v) i.
Proof.
  intros Hl (pl & H1 & H2 & H3 & H4 & H5 & H6 & H7).
  assert (Hne : forall f, l <> (this_thread i, f)) by (intros f ->; by apply Hl).
  exists pl. rewrite !get_upd_ne by auto. rewrite is_struct_upd. auto 10.
Qed.

Lemma smr_thread_alloc hp nt m i a o :
  m !! a = None -> smr_thread hp nt m i -> smr_thread hp nt (<[a := o]> m) i.
Proof.
  intros Ha (pl & H1 & H2 & H3 & H4 & H5 & H6 & H7).
  assert (a <> this_thread i). { intros ->. apply live_get in H1 as [? ?]. simpl in *. congruence. }
  exists pl. rewrite !get_insert_ne by auto. split_and!; auto.
  eapply is_struct_lookup; [|exact H2]. apply lookup_insert_ne. intros ->.
  apply is_struct_live in H2 as [? ?]. congruence.
Qed.

Record smr_ready (hp : Z) (nt : nat) m : Prop := {
  sr_storage : storage MAX_THREADS m;
  sr_hp : get m (GLOBALS, G_HP) = Some hp;
  sr_struct : is_struct m hp (CACHESIZE * 132);
  sr_nt : get m (GLOBALS, G_N_THREADS) = Some (Z.of_nat nt);
  sr_sep : hp <> GLOBALS /\ forall i, 0 <= i < MAX_THREADS -> hp <> this_thread i /\ hp <> find_vars i
}.

Lemma smr_ready_upd hp nt m l v :
  smr_ready hp nt m -> l <> (GLOBALS, G_HP) -> l <> (GLOBALS, G_N_THREADS) -> smr_ready hp nt (upd m l v).
Proof.
  intros [H1 H2 H3 H4 H5] N1 N2. split; auto; [by apply storage_upd|by rewrite get_upd_ne|by rewrite is_struct_upd|].
  by rewrite get_upd_ne.
Qed.

Lemma smr_ready_alloc hp nt m a o : smr_ready hp nt m -> m !! a = None -> smr_ready hp nt (<[a := o]> m).
Proof.
  intros [H1 H2 H3 H4 H5] Ha.
  assert (a <> GLOBALS). { intros ->. apply live_get in H2 as [? ?]. simpl in *. congruence. }
  split; auto.
  - by apply storage_alloc.
  - by rewrite get_insert_ne.
  - eapply is_struct_lookup; [|exact H3]. apply lookup_insert_ne. intros ->.
    apply is_struct_live in H3 as [? ?]. congruence.
  - by rewrite get_insert_ne.
Qed.

Lemma GLOBALS_thread i : 0 <= i -> GLOBALS <> this_thread i.
Proof. unfold GLOBALS, this_thread, THREADS, sizeof_per_thread_t. lia. Qed.

(** One iteration of the loop over the threads. *)
Lemma smr_init_thread hp nt m i k (P : Z -> Prop) :
  smr_ready hp nt m -> (0 < nt <= 65)%nat -> 0 <= i < MAX_THREADS -> mroom (S k) m ->
  (forall j, P j -> j <> i /\ smr_thread hp nt m j) ->
  tot (store (this_thread i, T_RLIST) NULL ;;
       store (this_thread i, T_RETIRE_COUNT) 0 ;;
       n <- load (GLOBALS, G_N_THREADS) ;;
       p <- malloc (8 * smr.K * n) ;;
       store (this_thread i, T_PLIST) p) m
    (fun _ m' => smr_ready hp nt m' /\ mroom k m' /\ smr_thread hp nt m' i /\ forall j, P j -> smr_thread hp nt m' j).
Proof.
  intros Hr Hnt Hi Hm HP. pose proof (sg_thread _ _ (sr_storage _ _ _ Hr) i Hi) as Ht. unfold sizeof_per_thread_t in Ht.
  pose proof (GLOBALS_thread i ltac:(lia)) as HG. pose proof (sr_nt _ _ _ Hr) as Hn. psteps.
  set (m1 := upd (upd m _ _) _ _).
  assert (Hr1 : smr_ready hp nt m1) by (repeat apply smr_ready_upd; auto; congruence).
  assert (HP1 : forall j, P j -> smr_thread hp nt m1 j).
  { intros j Hj. destruct (HP j Hj) as [Hne Hj'].
    repeat apply smr_thread_upd; auto; simpl; intros E; apply Hne; symmetry; by apply this_thread_inj. }
  assert (Hg1 : get m1 (this_thread i, T_RLIST) = Some 0 /\ get m1 (this_thread i, T_RETIRE_COUNT) = Some 0)
    by (split; unfold m1; mget).
  unfold malloc. eapply (tot_alloc k m1); [by repeat apply mroom_upd|unfold smr.K; simpl; unfold M32; lia|].
  intros a (A1 & A2 & _ & _) Hm2. assert (Ha : forall b, live m1 b -> a <> b) by (intros b [? ?] ->; congruence).
  assert (Ht1 : is_struct m1 (this_thread i) sizeof_per_thread_t) by (unfold m1; by rewrite !is_struct_upd).
  clearbody m1. set (m2 := <[a := _]> m1) in *.
  assert (Ht2 : is_struct m2 (this_thread i) sizeof_per_thread_t).
  { eapply is_struct_lookup; [|exact Ht1]. apply lookup_insert_ne. apply Ha. by eapply is_struct_live. }
  eapply tot_store; [eapply is_struct_inb; [exact Ht2|unfold sizeof_per_thread_t; lia]|].
  pose proof (sr_storage _ _ _ Hr1) as Hs1.
  split_and!.
  - apply smr_ready_upd; [by apply smr_ready_alloc|congruence..].
  - by apply mroom_upd.
  - destruct Hg1 as [G1 G2]. exists a. split_and!; auto.
    + apply get_upd_eq. simpl. by eapply is_struct_live.
    + apply is_struct_upd. split; [done|]. exists (Obj (8 * smr.K * Z.of_nat nt) ∅). unfold m2.
      rewrite lookup_insert_eq. split; [done|]. unfold smr.K. simpl. lia.
    + apply Ha. eapply is_struct_live, Hr1.
    + apply Ha. eapply is_struct_live, Hs1.
    + intros j Hj. split; apply Ha; eapply is_struct_live; by apply Hs1.
    + rewrite get_upd_ne by congruence. unfold m2. rewrite get_insert_ne; [done|]. apply Ha. by eapply is_struct_live.
    + rewrite get_upd_ne by congruence. unfold m2. rewrite get_insert_ne; [done|]. apply Ha. by eapply is_struct_live.
  - intros j Hj. destruct (HP j Hj) as [Hne _]. apply smr_thread_upd; [|by apply smr_thread_alloc; auto].
    simpl. intros E. apply Hne. symmetry. by apply this_thread_inj.
Qed.

Definition smr_started (hp : Z) (nt : nat) m : Prop :=
  smr_ready hp nt m /\ (forall i, 0 <= i < MAX_THREADS -> smr_thread hp nt m i) /\
  forall j : nat, (j < 132)%nat -> get m (hp, CACHESIZE * Z.of_nat j) = Some NULL.

Lemma smr_init_spec nt m k :
  storage MAX_THREADS m -> get m (GLOBALS, G_N_THREADS) = Some (Z.of_nat nt) -> (0 < nt <= 65)%nat ->
  mroom (66 + k) m ->
  tot smr.mr_init m (fun _ m' => exists hp, smr_started hp nt m' /\ mroom k m').
Proof.
  intros Hs Hnt Hn Hm. unfold smr.mr_init, mapmem, malloc. apply tot_bind.
  eapply tot_alloc; [exact Hm|done|]. intros hp (A1 & A2 & _ & _) Hm1.
  assert (Ha : forall b, live m b -> hp <> b) by (intros b [? ?] ->; congruence).
  set (m1 := <[hp := _]> m) in *. pose proof (storage_alloc _ _ hp (Obj (CACHESIZE * smr.K * (MAX_THREADS + 1)) ∅) Hs A2) as Hs1.
  pose proof (sg_globals _ _ Hs1) as HG. unfold sizeof_globals in HG. fold m1 in Hs1, HG.
  assert (HGe : hp <> GLOBALS) by (eapply Ha, is_struct_live, Hs). psteps.
  replace (hp =? 0) with false by (symmetry; by apply Z.eqb_neq).
  assert (Hr1 : smr_ready hp nt (upd m1 (GLOBALS, G_HP) hp)).
  { split.
    - by apply storage_upd.
    - mget.
    - rewrite is_struct_upd. split; [done|]. exists (Obj (CACHESIZE * smr.K * (MAX_THREADS + 1)) ∅).
      unfold m1. by rewrite lookup_insert_eq.
    - rewrite get_upd_ne by congruence. unfold m1. by rewrite get_insert_ne.
    - split; [done|]. intros i Hi. split; eapply Ha, is_struct_live; by apply Hs. }
  apply tot_bind. eapply tot_mono; [apply (tot_forz (fun j m' => smr_ready hp nt m' /\ mroom (65 - j + k) m' /\
      forall i, 0 <= i < Z.of_nat j -> smr_thread hp nt m' i))|].
  - intros j m2 Hj (Hr2 & Hm2 & Ht2). simpl. unfold MAX_THREADS in *.
    replace (65 - j + k)%nat with (S (65 - S j + k)) in Hm2 by lia.
    eapply tot_mono; [apply (smr_init_thread hp nt m2 (Z.of_nat j) (65 - S j + k) (fun i => 0 <= i < Z.of_nat j) Hr2 Hn); [|exact Hm2|]|].
    + unfold MAX_THREADS. lia.
    + intros i Hi. split; [lia|auto].
    + intros [] m3 (Hr3 & Hm3 & Hi3 & Hj3). split_and!; auto. intros i Hi.
      destruct (decide (i = Z.of_nat j)) as [->|]; [auto|]. apply Hj3. lia.
  - split_and!; [done|by apply mroom_upd|intros; lia].
  - intros [] m2 (Hr2 & Hm2 & Ht2). change (65 - Z.to_nat MAX_THREADS + k)%nat with k in Hm2.
    eapply tot_mono; [apply (tot_forz (fun j m' => smr_ready hp nt m' /\ mroom k m' /\
      (forall i, 0 <= i < MAX_THREADS -> smr_thread hp nt m' i) /\
      forall i : nat, (i < j)%nat -> get m' (hp, CACHESIZE * Z.of_nat i) = Some NULL))|].
    + change (Z.to_nat (smr.K * (MAX_THREADS + 1))) with 132%nat.
      intros j m3 Hj (Hr3 & Hm3 & Ht3 & Hz). pose proof Hr3 as [_ G1 G2 _ [G3 G4]]. unfold smr.HP, CACHESIZE in *.
      simpl Z.add. psteps.
      split_and!; [apply smr_ready_upd; [done|congruence..]|by apply mroom_upd| |].
      * intros i Hi. apply smr_thread_upd; [by apply G4|auto].
      * intros i Hi. destruct (decide (i = j)) as [->|].
        -- apply get_upd_eq. simpl. by eapply is_struct_live.
        -- rewrite get_upd_ne; [apply Hz; lia|]. intros [=]. lia.
    + split_and!; auto. intros; lia.
    + intros [] m3 (H1 & H2 & H3 & H4). exists hp. by split_and!.
Qed.

(** Every thread may then use smr.c. *)
Lemma smr_started_at hp nt m tid : smr_started hp nt m -> (nt <= 65)%nat -> 0 <= tid < MAX_THREADS ->
  exists pl, smr_at tid hp pl nt (replicate 132 NULL) [] m /\ (find_vars tid ∉ smr_objs tid hp pl []).
Proof.
  intros (Hr & Ht & Hz) Hn Hi. destruct (Ht tid Hi) as (pl & P1 & P2 & P3 & P4 & P5 & P6 & P7).
  destruct Hr as [Hs R1 R2 R3 [R4 R5]]. destruct (R5 tid Hi) as [R6 R7]. destruct (P5 tid Hi) as [P8 P9].
  assert (HV : find_vars tid <> GLOBALS /\ find_vars tid <> this_thread tid /\ GLOBALS <> this_thread tid).
  { unfold find_vars, this_thread, THREADS, STACK_BASE, GLOBALS, sizeof_per_thread_t, MAX_THREADS in *. lia. }
  exists pl. split.
  - split; auto.
    + intros j v Hj. apply lookup_replicate in Hj as [-> Hj]. auto.
    + exists NULL. by split.
    + by apply Hs.
    + rewrite !NoDup_cons, !elem_of_cons, !elem_of_nil. destruct HV as (_ & _ & HV).
      split_and!; try apply NoDup_nil_2; naive_solver.
  - unfold smr_objs. rewrite !elem_of_cons, elem_of_nil. naive_solver.
Qed.
End init.

(** ** The program *)
Section program.
Context `{HM : Malloc, HMR : !MallocRoom, HQ : Qsort}.
Existing Instances allocator_malloc.ops smr.ops smr_laws smr_room.

Lemma smr_started_sets hp nt m tid :
  smr_started hp nt m -> (0 < nt <= 65)%nat -> 0 <= tid < MAX_THREADS -> lf_sets tid (2 * nt) [] ∅ m.
Proof.
  intros Hs Hn Ht. destruct (smr_started_at hp nt m tid Hs ltac:(lia) Ht) as (pl & Hat & Hv).
  exists (2 * nt)%nat, (list_to_set (smr_objs tid hp pl [])), []. split_and!; [|done|unfold lf_size; simpl; lia].
  split; try by intros.
  - exists hp, pl, nt, (replicate 132 NULL), []. split_and!; auto; simpl; lia.
  - destruct Hs as ([Hst _ _ _ _] & _). by apply Hst.
  - by rewrite elem_of_list_to_set.
Qed.

Lemma smr_list_run fuel tid os nt m k :
  storage MAX_THREADS m -> get m (GLOBALS, G_N_THREADS) = Some (Z.of_nat nt) -> (0 < nt <= 65)%nat ->
  0 <= tid < MAX_THREADS -> mroom (67 + (length os + k)) m -> (S (2 * nt + length os) <= fuel)%nat ->
  tot (smr_list_program fuel tid os) m (fun rs m' => rs = (set_steps os ∅).1 /\
    exists l, lf_sets tid (S (2 * nt + length os)) [(l, (set_steps os ∅).2)] ∅ m').
Proof.
  intros Hs Hnt Hn Ht Hm Hf. unfold smr_list_program. apply tot_bind.
  eapply tot_mono; [apply (smr_init_spec nt m (S (length os + k)) Hs Hnt Hn)|].
  { eapply mroom_mono; [exact Hm|lia]. }
  intros [] m1 (hp & Hs1 & Hm1). apply tot_bind.
  eapply tot_mono; [apply (l_init_ok (SetLaws := smr_set_laws) tid (2 * nt) [] ∅ m1 (length os + k)); [|exact Hm1]|].
  { by apply (smr_started_sets hp). }
  intros l m2 (Hs2 & Hm2 & _).
  eapply tot_mono; [apply (list_ops_spec (HS := smr_set_laws) fuel tid os (S (2 * nt)) _ _ _ 0 l ∅ k Hs2); [lia|done|exact Hm2]|].
  intros rs m3 (-> & Hs3 & _). split; [done|]. by exists l.
Qed.
End program.

(** The scan, where the comparison function orders the pointers. *)
Lemma scan_exact `{HM : Malloc, HQ : Qsort} fuel tid hp pl nt ps rl m :
  smr_at tid hp pl nt ps rl m -> (2 * nt < fuel)%nat -> (length rl < fuel)%nat ->
  near (rl ++ hazards nt ps) ->
  tot (@smr.scan allocator_malloc.ops HQ fuel tid) m (fun _ m' => exists kept freed,
    rl ≡ₚ kept ++ freed /\ smr_at tid hp pl nt ps kept m' /\
    (forall x, x ∈ kept -> x ∈ hazards nt ps) /\
    (forall x, x ∈ freed -> (x ∉ hazards nt ps) /\ m' !! x = None) /\
    (forall b, b ∉ this_thread tid :: pl :: rl -> m' !! b = m !! b)).
Proof.
  intros Hs Hf1 Hf2 Hn. eapply tot_mono; [by apply scan_spec|].
  intros [] m' (kept & freed & P1 & P2 & P3 & P4 & P5 & P6). exists kept, freed.
  assert (HX : forall x, x ∈ kept ++ freed -> x ∈ rl) by (intros; by rewrite P1).
  split_and!; auto.
  - intros x Hx. destruct (near_ord nt ps x rl Hn (HX x ltac:(apply elem_of_app; auto))) as [E1 E2].
    by apply E2, P5.
  - intros x Hx. destruct (near_ord nt ps x rl Hn (HX x ltac:(apply elem_of_app; auto))) as [E1 E2].
    split; [|auto]. intros Hh. apply (P6 x Hx E1). by apply E2.
Qed.

(** ** Theorems *)

(** C11: the program list_lf_smr (allocator_malloc.c, smr.c, list_lf_smr.c),
    with any qsort that meets its documentation: from the static storage
    through mr_init and list_init, every sequence of operations of a thread
    returns, without an error, the answers of a mathematical set, and the list
    then holds the keys of that set; the retired nodes are scanned and freed on
    the way. *)
Theorem smr_list_program_refines_set `{HM : Malloc, HMR : !MallocRoom, HQ : Qsort} (fuel : nat) (tid : Z)
    (os : list set_op) (nt : nat) (m : mem) (k : nat) :
  storage MAX_THREADS m -> get m (GLOBALS, G_N_THREADS) = Some (Z.of_nat nt) -> (0 < nt <= 65)%nat ->
  0 <= tid < MAX_THREADS -> mroom (67 + (length os + k)) m -> (S (2 * nt + length os) <= fuel)%nat ->
  exists m' l, run (smr_list_program fuel tid os) m = Ok ((set_steps os ∅).1, m') /\
    @lf_sets _ _ smr_laws tid (S (2 * nt + length os)) [(l, (set_steps os ∅).2)] ∅ m'.
Proof.
  intros Hs Hnt Hn Ht Hm Hf.
  destruct (tot_run _ _ _ (smr_list_run fuel tid os nt m k Hs Hnt Hn Ht Hm Hf)) as (rs & m' & Hr & -> & l & Hl). eauto.
Qed.

Lemma smr_list_program_refines_set_witness :
  exists m' l, run (smr_list_program (HQ := insertion_sort) 20 3 [Insert 5; Search 5; Insert 5; Delete 5; Delete 5; Search 5])
      (upd (static_mem 65) (GLOBALS, G_N_THREADS) 2) = Ok ([true; true; false; true; false; false], m') /\
    @lf_sets _ _ (smr_laws (Qs := insertion_sort)) 3 11 [(l, ∅)] ∅ m'.
Proof.
  destruct (smr_list_program_refines_set (HMR := bump_room_laws) (HQ := insertion_sort) 20 3
    [Insert 5; Search 5; Insert 5; Delete 5; Delete 5; Search 5] 2
    (upd (static_mem 65) (GLOBALS, G_N_THREADS) 2) 800) as (m' & l & H1 & H2).
  - apply storage_upd, static_storage.
  - by vm_compute.
  - lia.
  - done.
  - apply mroom_upd. eapply mroom_mono; [exact static_room|]. simpl. lia.
  - simpl. lia.
  - exists m', l. split; [exact H1|exact H2].
Defined.

(** C20: [scan] of smr.c terminates without an error and splits the retired
    nodes exactly: those that a hazard pointer of some thread protects stay
    retired, the others are freed, and nothing else in memory changes; as long
    as the nodes are less than 2^36 bytes apart, where [compare] orders
    pointers. *)
Theorem smr_scan_correct `{HM : Malloc, HQ : Qsort} (fuel : nat) (tid hp pl : Z) (nt : nat)
    (ps rl : list Z) (m : mem) :
  smr_at tid hp pl nt ps rl m -> (2 * nt < fuel)%nat -> (length rl < fuel)%nat ->
  near (rl ++ hazards nt ps) ->
  tot (@smr.scan allocator_malloc.ops HQ fuel tid) m (fun _ m' => exists kept freed,
    rl ≡ₚ kept ++ freed /\ smr_at tid hp pl nt ps kept m' /\
    (forall x, x ∈ kept -> x ∈ hazards nt ps) /\
    (forall x, x ∈ freed -> (x ∉ hazards nt ps) /\ m' !! x = None) /\
    (forall b, b ∉ this_thread tid :: pl :: rl -> m' !! b = m !! b)).
Proof. apply scan_exact. Qed.

(** A state the program reaches: thread 0 has retired two nodes, and thread 1
    protects the first of them. *)
Definition smr_demo : mem :=
  match run (smr.mr_init ;;
             a <- malloc sizeof_node_t ;;
             b <- malloc sizeof_node_t ;;
             l <- smr.HP 2 ;; store l a ;;
             @smr.free_node_later allocator_malloc.ops insertion_sort 9 0 a ;;
             @smr.free_node_later allocator_malloc.ops insertion_sort 9 0 b)
          (upd (static_mem 65) (GLOBALS, G_N_THREADS) 2) with
  | Ok (_, m) => m
  | Err _ => ∅
  end.
Definition demo_get (l : loc) : Z := default 0 (get smr_demo l).
Definition demo_hp : Z := Eval vm_compute in demo_get (GLOBALS, G_HP).
Definition demo_pl : Z := Eval vm_compute in demo_get (this_thread 0, T_PLIST).
Definition demo_b : Z := Eval vm_compute in demo_get (this_thread 0, T_RLIST).
Definition demo_a : Z := Eval vm_compute in demo_get (demo_b, MR_NEXT).

Lemma hazards_demo hp (ps : list Z) m :
  forallb (fun j => bool_decide (get m (hp, CACHESIZE * Z.of_nat j) = ps !! j)) (seq 0 (length ps)) = true ->
  forall j v, ps !! j = Some v -> get m (hp, CACHESIZE * Z.of_nat j) = Some v.
Proof.
  intros H j v Hj. rewrite forallb_forall in H. specialize (H j).
  rewrite bool_decide_eq_true, Hj in H. apply H, in_seq. apply lookup_lt_Some in Hj. lia.
Qed.

Lemma is_nodeb m p : is_structb m p 32 && (0 <? p) && (p <? M64) && (p mod 2 =? 0) = true -> is_node m p.
Proof.
  intros H. rewrite !andb_true_iff in H. destruct H as (((H1 & H2) & H3) & H4).
  apply is_structb_spec in H1 as [_ H1]. apply Z.ltb_lt in H2, H3. apply Z.eqb_eq in H4.
  by split_and!.
Qed.

Lemma smr_demo_at :
  smr_at 0 demo_hp demo_pl 2 (<[2%nat := demo_a]> (replicate 132 NULL)) [demo_b; demo_a] smr_demo.
Proof.
  split.
  - done.
  - vm_compute. reflexivity.
  - apply hazards_demo. vm_compute. reflexivity.
  - reflexivity.
  - apply is_structb_spec. vm_compute. reflexivity.
  - vm_compute. reflexivity.
  - lia.
  - vm_compute. reflexivity.
  - apply is_structb_spec. vm_compute. reflexivity.
  - exists demo_b. split; [vm_compute; reflexivity|]. split; [done|].
    split; [apply is_nodeb; vm_compute; reflexivity|].
    exists demo_a. split; [vm_compute; reflexivity|]. split; [done|].
    split; [apply is_nodeb; vm_compute; reflexivity|].
    exists NULL. split; [vm_compute; reflexivity|done].
  - vm_compute. reflexivity.
  - apply is_structb_spec. vm_compute. reflexivity.
  - apply (bool_decide_unpack _). vm_compute. exact I.
Qed.

Lemma demo_hazards : hazards 2 (<[2%nat := demo_a]> (replicate 132 NULL)) = [demo_a].
Proof. reflexivity. Qed.

Lemma smr_scan_correct_witness :
  tot (@smr.scan allocator_malloc.ops insertion_sort 9 0) smr_demo (fun _ m' => exists kept freed,
    [demo_b; demo_a] ≡ₚ kept ++ freed /\
    (forall x, x ∈ kept -> x ∈ [demo_a]) /\
    (forall x, x ∈ freed -> (x ∉ [demo_a]) /\ m' !! x = None)).
Proof.
  eapply tot_mono; [apply (smr_scan_correct (HQ := insertion_sort) 9 0 demo_hp demo_pl 2
    (<[2%nat := demo_a]> (replicate 132 NULL)) [demo_b; demo_a] smr_demo)|].
  - exact smr_demo_at.
  - lia.
  - simpl. lia.
  - rewrite demo_hazards.
    intros x y. simpl. rewrite !elem_of_cons, !elem_of_nil. unfold demo_a, demo_b. intros Hx Hy.
    destruct Hx as [->|[->|[->|[]]]], Hy as [->|[->|[->|[]]]]; lia.
  - rewrite demo_hazards. intros [] m' (kept & freed & H1 & _ & H2 & H3 & _). by exists kept, freed.
Defined.

(** [free_node_later] of smr.c terminates without an error; the node joins
    the retired ones, and once there are 100 + 2 * K * n_threads of them the
    scan frees all but those a hazard pointer protects; a protected node is
    never freed, as long as the nodes are less than 2^36 bytes apart. *)
Theorem smr_retire_correct `{HM : Malloc, HQ : Qsort} (fuel : nat) (tid hp pl : Z) (nt : nat)
    (ps rl : list Z) (m : mem) (p : Z) :
  smr_at tid hp pl nt ps rl m -> (2 * nt < fuel)%nat -> (S (length rl) < fuel)%nat ->
  is_node m p -> p ∉ smr_objs tid hp pl rl ->
  tot (@smr.free_node_later allocator_malloc.ops HQ fuel tid p) m (fun _ m' => exists kept freed,
    p :: rl ≡ₚ kept ++ freed /\ smr_at tid hp pl nt ps kept m' /\
    (forall b, b ∈ freed -> m' !! b = None) /\
    (forall b, b ∉ this_thread tid :: pl :: p :: rl -> m' !! b = m !! b) /\
    (near ((p :: rl) ++ hazards nt ps) ->
       (forall x, x ∈ freed -> x ∉ hazards nt ps) /\
       (u64 (Z.of_nat (S (length rl))) < 100 + 4 * Z.of_nat nt \/
        (forall x, x ∈ kept -> x ∈ hazards nt ps)))).
Proof. apply free_node_later_spec. Qed.

(** A further node, for thread 0 to retire. *)
Definition demo_c : Z := Eval vm_compute in bump_addr smr_demo sizeof_node_t.
Definition smr_demo2 : mem := <[demo_c := Obj sizeof_node_t ∅]> smr_demo.

Lemma smr_retire_correct_witness :
  tot (@smr.free_node_later allocator_malloc.ops insertion_sort 9 0 demo_c) smr_demo2 (fun _ m' => exists kept freed,
    [demo_c; demo_b; demo_a] ≡ₚ kept ++ freed /\
    smr_at 0 demo_hp demo_pl 2 (<[2%nat := demo_a]> (replicate 132 NULL)) kept m').
Proof.
  eapply tot_mono; [apply (smr_retire_correct (HQ := insertion_sort) 9 0 demo_hp demo_pl 2
    (<[2%nat := demo_a]> (replicate 132 NULL)) [demo_b; demo_a] smr_demo2 demo_c)|].
  - eapply smr_at_local; [exact smr_demo_at|]. intros b Hb. apply lookup_insert_ne. intros <-. revert Hb.
    apply (bool_decide_unpack (demo_c ∉ smr_objs 0 demo_hp demo_pl [demo_b; demo_a])). vm_compute. exact I.
  - lia.
  - simpl. lia.
  - apply is_nodeb. vm_compute. reflexivity.
  - apply (bool_decide_unpack _). vm_compute. exact I.
  - intros [] m' (kept & freed & H1 & H2 & _). by exists kept, freed.
Defined.

(** Three pointers that [compare] puts in a circle, and a run of the scan on
    them: threads 1 and 2 protect all three, thread 0 has retired the third. *)
Definition far_a : Z := 0x10080.
Definition far_b : Z := 0x3000010000.
Definition far_c : Z := 0x10000.

Definition far_run : prog mem bool :=
  smr.mr_init ;;
  (l <- smr.HP 2 ;; store l far_a) ;;
  (l <- smr.HP 3 ;; store l far_b) ;;
  (l <- smr.HP 4 ;; store l far_c) ;;
  @smr.free_node_later allocator_malloc.ops insertion_sort 9 0 far_c ;;
  @smr.scan allocator_malloc.ops insertion_sort 9 0 ;;
  l <- smr.HP 4 ;;
  p <- load l ;;
  Ret (p =? far_c).

(** C39: [compare] converts the distance of two pointers to [int], so it is not
    an order on pointers 2^36 bytes and more apart, and the scan may free a node
    that a hazard pointer protects: in this run of smr.c, with a sort that
    meets the documentation of qsort, thread 0 retires a node that HP[4]
    protects before and after the scan, and the scan frees it. *)
Theorem smr_scan_frees_protected :
  smr.compare far_a far_b < 0 /\ smr.compare far_b far_c < 0 /\ smr.compare far_c far_a < 0 /\
  tot far_run (foldr (fun p m => <[p := Obj sizeof_node_t ∅]> m)
      (upd (static_mem 65) (GLOBALS, G_N_THREADS) 3) [far_a; far_b; far_c])
    (fun protected m' => protected = true /\ m' !! far_c = None).
Proof. split_and!; [reflexivity..|]. vm_compute. split; reflexivity. Qed.
