(* ===== verification/ConcQueue.v ===== *)
(** * The lock-free queue under every interleaving (queue_lf_ebr.c)

    Any number of threads run sequences of [enqueue] and [dequeue] of
    queue_lf_ebr.c, linked with allocator_malloc.c and ebr.c, under an
    arbitrary schedule of their atomic actions.  The rely/guarantee proof keeps
    a ghost history of the operations in the order in which they take effect;
    [queue_history] shows that no access fails, that the history is one of a
    sequential FIFO queue, and that every thread gets the answers it has in
    the history. *)
From S2P Require Export QueueLf ListProgram.

(** ** The sequential queue and histories *)
Inductive queue_op : Set := Enqueue (key : Z) | Dequeue.
Inductive event : Set := DidEnqueue (key : Z) | DidDequeue (result : Z).

#[export] Instance event_eq_dec : EqDecision event.
Proof. solve_decision. Defined.

(** A history is legal when each event is the answer of a FIFO queue. *)
Definition replay1 (e : event) (c : list Z) : option (list Z) :=
  match e with
  | DidEnqueue k => Some (c ++ [k])
  | DidDequeue r => match c with
      | [] => if r =? -1 then Some [] else None
      | k :: c' => if r =? k then Some c' else None
      end
  end.

Fixpoint replay (log : list (nat * event)) (c : list Z) : option (list Z) :=
  match log with
  | [] => Some c
  | (_, e) :: log' => match replay1 e c with Some c' => replay log' c' | None => None end
  end.

(** The events of thread [i]. *)
Definition proj (i : nat) (log : list (nat * event)) : list event :=
  map snd (filter (fun e => fst e = i) log).

(** What a thread does: its operations in order, with their answers. *)
Definition event_of (o : queue_op) (r : Z) : event :=
  match o with Enqueue k => DidEnqueue k | Dequeue => DidDequeue r end.

Section client.
Context `{HM : Malloc, HA : !Allocator, HR : !Reclaimer, HE : !Epochs}.
Variables (fuel : nat) (tid q : Z).

Definition queue_op_prog (o : queue_op) : prog mem Z :=
  match o with
  | Enqueue k => queue_lf_ebr.enqueue fuel tid q k ;; Ret 0
  | Dequeue => queue_lf_ebr.dequeue fuel tid q
  end.

Fixpoint queue_client (os : list queue_op) : prog mem (list Z) :=
  match os with
  | [] => Ret []
  | o :: os' => r <- queue_op_prog o ;; rs <- queue_client os' ;; Ret (r :: rs)
  end.
End client.

(** * Proofs *)

(** ** Histories *)
Lemma replay_app l1 l2 c : replay (l1 ++ l2) c = replay l1 c ≫= replay l2.
Proof.
  revert c. induction l1 as [|[i e] l1 IH]; intros c; simpl; [done|].
  destruct (replay1 e c); simpl; auto.
Qed.

Lemma proj_app i l1 l2 : proj i (l1 ++ l2) = proj i l1 ++ proj i l2.
Proof. unfold proj. by rewrite filter_app, map_app. Qed.

Lemma proj_cons_eq i e : proj i [(i, e)] = [e].
Proof. unfold proj. by rewrite filter_cons_True. Qed.

Lemma proj_cons_ne i j e : i <> j -> proj i [(j, e)] = [].
Proof. intros. unfold proj. rewrite filter_cons_False; [done|]. simpl. congruence. Qed.

(** The queue was empty at a moment after the last event of thread [i]: an
    answer "empty" of [i] may be put there. *)
Definition was_empty (i : nat) (log : list (nat * event)) : Prop :=
  exists l1 l2, log = l1 ++ l2 /\ replay l1 [] = Some [] /\ proj i l2 = [].

Lemma was_empty_now i log : replay log [] = Some [] -> was_empty i log.
Proof. intros H. exists log, []. by rewrite app_nil_r. Qed.

Lemma was_empty_append i j e log : i <> j -> was_empty i log -> was_empty i (log ++ [(j, e)]).
Proof.
  intros Hne (l1 & l2 & -> & Hr & Hp). exists l1, (l2 ++ [(j, e)]). rewrite app_assoc. split_and!; auto.
  by rewrite proj_app, Hp, proj_cons_ne.
Qed.

(** Putting an answer "empty" into the history. *)
Lemma insert_empty l1 l2 i :
  replay l1 [] = Some [] -> replay (l1 ++ (i, DidDequeue (-1)) :: l2) [] = replay (l1 ++ l2) [].
Proof. intros H. by rewrite !replay_app, H. Qed.

Lemma was_empty_insert i j l1 l2 :
  i <> j -> replay l1 [] = Some [] -> was_empty i (l1 ++ l2) ->
  was_empty i (l1 ++ (j, DidDequeue (-1)) :: l2).
Proof.
  intros Hne H1 (k1 & k2 & E & Hr & Hp).
  apply app_eq_inv in E as [(z & -> & ->)|(z & -> & ->)].
  - exists k1, (z ++ (j, DidDequeue (-1)) :: l2). rewrite <- app_assoc. split_and!; auto.
    rewrite proj_app in *. apply app_eq_nil in Hp as [-> Hp]. simpl.
    change ((j, DidDequeue (-1)) :: l2) with ([(j, DidDequeue (-1))] ++ l2).
    by rewrite proj_app, proj_cons_ne, Hp.
  - exists (l1 ++ (j, DidDequeue (-1)) :: z), k2. rewrite <- !app_assoc. split_and!; auto.
    by rewrite insert_empty.
Qed.

(** ** The shared state and its invariant *)
Record ghost := Ghost {
  g_nodes : list (Z * Z);        (* every node that was linked: address and key *)
  g_head : nat;                  (* the index of the dummy node *)
  g_tail : nat;                  (* the index of the node [tail] points to *)
  g_mine : gmap nat Z;           (* the node each thread has allocated and not yet linked *)
  g_lock : option nat;           (* the holder of the lock of ebr.c *)
  g_log : list (nat * event)     (* the history *)
}.

Definition next_addr (N : list (Z * Z)) (j : nat) : Z :=
  match N !! j with Some (a, _) => a | None => 0 end.

Section concurrent.
Context `{HM : Malloc}.
Existing Instances allocator_malloc.ops ebr.ops ebr.epochs.
Variables (fuel n : nat) (q eg : Z).
Hypothesis Hn : Z.of_nat n <= MAX_THREADS.

Abbreviation state := (mem * ghost)%type.
Implicit Types (m : mem) (g : ghost) (x y : state) (i j : nat).

(** The objects that are not nodes. *)
Definition stat : list Z :=
  [GLOBALS; q; eg] ++ map (fun i => this_thread (Z.of_nat i)) (seq 0 n) ++
  map (fun i => stack_t (Z.of_nat i)) (seq 0 n).
Hypothesis Hstat : NoDup stat.

(** The part of a thread's record that ebr.c never changes. *)
Definition quiet m (i : nat) : Prop :=
  get m (this_thread (Z.of_nat i), T_ENTRIES) = Some 0 /\
  get m (this_thread (Z.of_nat i), T_RETIRE_COUNT) = Some 0 /\
  (exists e, get m (this_thread (Z.of_nat i), T_EPOCH) = Some e /\ 0 <= e < N_EPOCHS) /\
  forall e : Z, 0 <= e < N_EPOCHS -> get m (this_thread (Z.of_nat i), T_LIMBO_LIST + 8 * e) = Some NULL.

Record inv_node m N (j : nat) (a k : Z) : Prop := {
  nd_node : is_node m a;
  nd_stat : a ∉ stat;
  nd_next : get m (a, NEXT) = Some (next_addr N (S j));
  nd_key : (0 < j)%nat -> get m (a, KEY) = Some k
}.

Record Inv x : Prop := {
  inv_storage : storage (Z.of_nat n) x.1;
  inv_globals : get x.1 (GLOBALS, G_EG) = Some eg /\ get x.1 (GLOBALS, G_N_THREADS) = Some (Z.of_nat n);
  inv_eg : is_struct x.1 eg sizeof_ebr_globals /\
    get x.1 (eg, EG_LOCK) = Some (match g_lock x.2 with Some _ => 1 | None => 0 end) /\
    exists e, get x.1 (eg, EG_EPOCH) = Some e /\ 0 <= e < N_EPOCHS;
  inv_quiet : forall i, (i < n)%nat -> quiet x.1 i;
  inv_q : is_struct x.1 q sizeof_queue /\
    get x.1 (q, Q_HEAD) = Some (next_addr (g_nodes x.2) (g_head x.2)) /\
    get x.1 (q, Q_TAIL) = Some (next_addr (g_nodes x.2) (g_tail x.2));
  inv_nodes : forall j a k, g_nodes x.2 !! j = Some (a, k) -> inv_node x.1 (g_nodes x.2) j a k;
  inv_nodup : NoDup (map fst (g_nodes x.2));
  inv_index : (g_head x.2 <= g_tail x.2 < length (g_nodes x.2))%nat;
  inv_mine : forall i p, g_mine x.2 !! i = Some p ->
    is_node x.1 p /\ (p ∉ stat) /\ p ∉ map fst (g_nodes x.2);
  inv_inj : forall i j p, g_mine x.2 !! i = Some p -> g_mine x.2 !! j = Some p -> i = j;
  inv_log : replay (g_log x.2) [] = Some (map snd (drop (S (g_head x.2)) (g_nodes x.2)))
}.

(** What thread [i] sees of the steps of the others. *)
Record sees (i : nat) x y : Prop := {
  r_inv : Inv x -> Inv y;
  r_nodes : g_nodes x.2 `prefix_of` g_nodes y.2;
  r_head : (g_head x.2 <= g_head y.2)%nat;
  r_tail : (g_tail x.2 <= g_tail y.2)%nat;
  r_mine : g_mine y.2 !! i = g_mine x.2 !! i;
  r_lock : g_lock y.2 = Some i <-> g_lock x.2 = Some i;
  r_proj : proj i (g_log y.2) = proj i (g_log x.2);
  r_empty : was_empty i (g_log x.2) -> was_empty i (g_log y.2);
  r_stack : y.1 !! stack_t (Z.of_nat i) = x.1 !! stack_t (Z.of_nat i);
  r_thread : y.1 !! this_thread (Z.of_nat i) = x.1 !! this_thread (Z.of_nat i);
  r_node : forall p, g_mine x.2 !! i = Some p -> y.1 !! p = x.1 !! p
}.

Definition R (i : nat) x y : Prop := (i < n)%nat -> sees i x y.

(** A step of thread [i] is one the others allow for. *)
Definition G (i : nat) x y : Prop :=
  (Inv x -> Inv y) /\ forall j, (j < n)%nat -> j <> i -> sees j x y.

#[local] Instance R_preorder i : PreOrder (R i).
Proof.
  split.
  - intros x _. split; auto; done.
  - intros x y z HA HB Hi. destruct (HA Hi) as [A1 A2 A3 A4 A5 A6 A7 A8 A9 A10 A11], (HB Hi) as [B1 B2 B3 B4 B5 B6 B7 B8 B9 B10 B11].
    split; auto; try lia; try congruence.
    + by etransitivity.
    + by rewrite B6.
    + intros p Hp. rewrite B11, A11; congruence.
Qed.

(** ** Triples for one thread *)
Definition stable (i : nat) (P : state -> Prop) : Prop := forall x y, P x -> sees i x y -> P y.

Definition hoare {A : Type} (i : nat) (P : state -> Prop) (p : prog mem A) (Q : A -> state -> Prop) : Prop :=
  forall x, Inv x -> P x -> rg (R i) (G i) p (fun a y => Inv y /\ Q a y) x.

Section rules.
Variable i : nat.
Hypothesis Hi : (i < n)%nat.
Implicit Types (P : state -> Prop).

Lemma h_ret {A} P (a : A) (Q : A -> state -> Prop) : (forall x, Inv x -> P x -> Q a x) -> hoare i P (Ret a) Q.
Proof. intros H x HI HP. simpl. auto. Qed.

Lemma h_bind {A B} P (p : prog mem A) (k : A -> prog mem B) Q Q' :
  hoare i P p Q -> (forall a, hoare i (Q a) (k a) Q') -> hoare i P (pbind k p) Q'.
Proof.
  intros Hp Hk x HI HP. apply rg_bind. eapply rg_mono; [by apply Hp|].
  intros a y [HI' HQ]. by apply Hk.
Qed.

Lemma h_skip {A B} P (a : A) (k : A -> prog mem B) Q : hoare i P (k a) Q -> hoare i P (pbind k (Ret a)) Q.
Proof. auto. Qed.

Lemma h_conseq {A} P P' (p : prog mem A) Q Q' :
  hoare i P p Q -> (forall x, Inv x -> P' x -> P x) -> (forall a x, Inv x -> Q a x -> Q' a x) -> hoare i P' p Q'.
Proof.
  intros H HP HQ x HI HP'. eapply rg_mono; [apply H; auto|]. intros a y [? ?]. auto.
Qed.

Lemma h_pure {A} (phi : Prop) P (p : prog mem A) Q :
  (forall x, Inv x -> P x -> phi) -> (phi -> hoare i P p Q) -> hoare i P p Q.
Proof. intros H1 H2 x HI HP. apply H2; eauto. Qed.

Lemma h_exists {A T} (P : T -> state -> Prop) (p : prog mem A) Q :
  (forall t, hoare i (P t) p Q) -> hoare i (fun x => exists t, P t x) p Q.
Proof. intros H x HI [t HP]. by apply (H t). Qed.

Lemma h_loop {A St} (I : St -> state -> Prop) (body : St -> prog mem (St + A)) Q f st :
  (forall st, hoare i (I st) (body st) (fun r => match r with inl st' => I st' | inr a => Q a end)) ->
  hoare i (I st) (loop f body st) Q.
Proof.
  intros Hb x HI HP. apply (rg_loop (R i) (G i) (fun st y => Inv y /\ I st y)); [|by split].
  intros st' y [HI' HP']. eapply rg_mono; [by apply (Hb st')|]. intros [s|a] z [? ?]; auto.
Qed.

(** One atomic action. *)
Lemma h_act {T : Set} P (f : mem -> outcome (T * mem)) (Q : T -> state -> Prop) :
  stable i P ->
  (forall x, Inv x -> P x -> exists r m' g', f x.1 = Ok (r, m') /\ Inv (m', g') /\
     (forall j, (j < n)%nat -> j <> i -> sees j x (m', g')) /\ Q r (m', g')) ->
  hoare i P (act f) Q.
Proof.
  intros Hs H x HI HP. apply rg_act. intros y HR.
  destruct (H y) as (r & m' & g' & E & HI' & HG & HQ); [by apply (HR Hi)|by eapply Hs, HR|].
  exists r, m', g'. split_and!; auto. split; auto.
Qed.

Lemma h_load P l (Q : Z -> state -> Prop) :
  stable i P -> (forall x, Inv x -> P x -> exists v, get x.1 l = Some v /\ Q v x) ->
  hoare i P (load l) Q.
Proof.
  intros Hs H. apply h_act; [exact Hs|]. intros [m g] HI HP. destruct (H _ HI HP) as (v & E & HQ).
  exists v, m, g. simpl in *. rewrite E. split_and!; auto. intros j _ _. split; auto; done.
Qed.

Lemma stable_and P Q : stable i P -> stable i Q -> stable i (fun x => P x /\ Q x).
Proof. intros H1 H2 x y [HP HQ] HR. split; eauto. Qed.

Lemma stable_exists {T} (P : T -> state -> Prop) :
  (forall t, stable i (P t)) -> stable i (fun x => exists t, P t x).
Proof. intros H x y [t HP] HR. exists t. eapply H; eauto. Qed.

Lemma stable_impl (phi : Prop) P : stable i P -> stable i (fun x => phi -> P x).
Proof. intros H x y HP HR Hp. eapply H; eauto. Qed.

Lemma stable_pure (phi : Prop) : stable i (fun _ => phi).
Proof. by intros x y. Qed.
End rules.
#[local] Opaque hoare.

(** ** Which objects are whose *)
Lemma stat_thread i : (i < n)%nat -> this_thread (Z.of_nat i) ∈ stat.
Proof.
  intros Hi. unfold stat. apply elem_of_app. right. apply elem_of_app. left.
  apply list_elem_of_fmap. exists i. split; [done|]. apply elem_of_seq. lia.
Qed.

Lemma stat_stack i : (i < n)%nat -> stack_t (Z.of_nat i) ∈ stat.
Proof.
  intros Hi. unfold stat. apply elem_of_app. right. apply elem_of_app. right.
  apply list_elem_of_fmap. exists i. split; [done|]. apply elem_of_seq. lia.
Qed.

Lemma stat_shared : GLOBALS ∈ stat /\ q ∈ stat /\ eg ∈ stat.
Proof. unfold stat. set_solver. Qed.

Lemma shared_ne : GLOBALS <> q /\ GLOBALS <> eg /\ q <> eg.
Proof. unfold stat in Hstat. simpl in Hstat. rewrite !NoDup_cons in Hstat. set_solver. Qed.

Lemma thread_not_shared i b : (i < n)%nat -> b = this_thread (Z.of_nat i) \/ b = stack_t (Z.of_nat i) ->
  b <> GLOBALS /\ b <> q /\ b <> eg.
Proof.
  intros Hi Hb. assert (Hin : b ∈ map (fun i => this_thread (Z.of_nat i)) (seq 0 n) ++
    map (fun i => stack_t (Z.of_nat i)) (seq 0 n)).
  { apply elem_of_app. destruct Hb as [->| ->]; [left|right]; apply list_elem_of_fmap; exists i;
      (split; [done|apply elem_of_seq; lia]). }
  unfold stat in Hstat. apply NoDup_app in Hstat as (_ & H & _).
  split_and!; intros ->; refine (H _ _ Hin); set_solver.
Qed.

Lemma threads_ne i j : (i < n)%nat -> (j < n)%nat ->
  this_thread (Z.of_nat i) <> stack_t (Z.of_nat j) /\
  (i <> j -> this_thread (Z.of_nat i) <> this_thread (Z.of_nat j) /\ stack_t (Z.of_nat i) <> stack_t (Z.of_nat j)).
Proof.
  intros. unfold this_thread, stack_t, THREADS, STACK_BASE, sizeof_per_thread_t, MAX_THREADS in *. lia.
Qed.

(** The objects only thread [i] changes. *)
Definition private (i : nat) g (b : Z) : Prop :=
  (b = stack_t (Z.of_nat i) \/ b = this_thread (Z.of_nat i)) \/ g_mine g !! i = Some b.

Lemma private_disjoint x i j b : Inv x -> i <> j -> (i < n)%nat -> (j < n)%nat -> private i x.2 b ->
  ~ private j x.2 b.
Proof.
  intros HI Hij Hi Hj [Hb|Hb] [Hb'|Hb'].
  - destruct (threads_ne i j Hi Hj) as [A B], (threads_ne j i Hj Hi) as [C _].
    destruct (B Hij). destruct Hb as [->| ->], Hb' as [Hb'|Hb']; auto.
  - destruct (inv_mine _ HI _ _ Hb') as (_ & Hs & _). apply Hs.
    destruct Hb as [->| ->]; auto using stat_stack, stat_thread.
  - destruct (inv_mine _ HI _ _ Hb) as (_ & Hs & _). apply Hs.
    destruct Hb' as [->| ->]; auto using stat_stack, stat_thread.
  - apply Hij. by eapply inv_inj.
Qed.

(** The fields the invariant speaks about. *)
Definition watched g (l : loc) : Prop :=
  l.1 = GLOBALS \/ l.1 = eg \/ l.1 = q \/
  (exists j a k, g_nodes g !! j = Some (a, k) /\ l.1 = a /\ (l.2 = KEY \/ l.2 = NEXT)) \/
  (exists i, (i < n)%nat /\ l.1 = this_thread (Z.of_nat i) /\ l.2 <> T_IN_CRITICAL).

Lemma inv_upd m g l v : Inv (m, g) -> ~ watched g l -> Inv (upd m l v, g).
Proof.
  intros [H1 [H2 H2'] [H3 [H3' (e & He & Hr)]] H4 [H5 [H5' H5'']] H6 H7 H8 H9 H10 H11] Hw. simpl in *.
  assert (Hg : forall l', watched g l' -> get (upd m l v) l' = get m l').
  { intros l' Hl'. apply get_upd_ne. by intros ->. }
  assert (W1 : forall f, watched g (GLOBALS, f)) by (left; done).
  assert (W2 : forall f, watched g (eg, f)) by (right; left; done).
  assert (W3 : forall f, watched g (q, f)) by (right; right; left; done).
  assert (W4 : forall i f, (i < n)%nat -> f <> T_IN_CRITICAL -> watched g (this_thread (Z.of_nat i), f)).
  { intros i f Hi Hf. do 4 right. exists i. done. }
  split; simpl; auto.
  - by apply storage_upd.
  - rewrite !Hg; auto.
  - rewrite is_struct_upd, !Hg; eauto.
  - intros i Hi. destruct (H4 i Hi) as (Q1 & Q2 & (e' & Q3 & Q3') & Q4). unfold quiet.
    rewrite !Hg by (apply W4; [auto|lia]). split_and!; eauto.
    intros e0 He0. rewrite Hg; [auto|]. apply W4; [auto|]. unfold N_EPOCHS in He0. lia.
  - rewrite is_struct_upd, !Hg; auto.
  - intros j a k Hj. destruct (H6 j a k Hj) as [N1 N2 N3 N4].
    assert (forall f, f = KEY \/ f = NEXT -> watched g (a, f)) by (intros f Hf; do 3 right; left; exists j, a, k; done).
    split; [by apply is_node_upd|done|rewrite Hg; auto|rewrite Hg; auto].
  - intros i p Hp. rewrite is_node_upd. by apply (H9 i).
Qed.

Lemma not_watched_private x i b f :
  Inv x -> (i < n)%nat -> private i x.2 b -> (b = this_thread (Z.of_nat i) -> f = T_IN_CRITICAL) -> ~ watched x.2 (b, f).
Proof.
  intros HI Hi Hb Hf Hw. unfold watched in Hw. simpl in Hw.
  assert (Hns : b ∈ stat -> b = stack_t (Z.of_nat i) \/ b = this_thread (Z.of_nat i)).
  { intros E. destruct Hb as [?|Hb]; [auto|]. by destruct (inv_mine _ HI _ _ Hb) as (_ & ? & _). }
  assert (Hsh : b <> GLOBALS /\ b <> q /\ b <> eg).
  { destruct Hb as [Hb|Hb]; [eapply thread_not_shared; [exact Hi|tauto]|].
    destruct (inv_mine _ HI _ _ Hb) as (_ & Hs & _). destruct stat_shared as (S1 & S2 & S3). split_and!; by intros ->. }
  destruct Hw as [?|[?|[?|[(j & a & k & Hj & -> & _)|(j & Hj & -> & Hne)]]]]; try tauto.
  - destruct (inv_nodes _ HI _ _ _ Hj) as [_ Hs _ _]. destruct Hb as [Hb|Hb].
    + apply Hs. destruct Hb as [->| ->]; auto using stat_stack, stat_thread.
    + destruct (inv_mine _ HI _ _ Hb) as (_ & _ & Hni). apply Hni, list_elem_of_fmap.
      exists (a, k). split; [done|]. by apply list_elem_of_lookup_2 in Hj.
  - destruct (Hns (stat_thread j Hj)) as [E|E].
    + by destruct (threads_ne j i Hj Hi) as [? _].
    + by apply Hne, Hf.
Qed.

(** Steps that change memory only, and nothing of thread [j]. *)
Lemma sees_mem j x m' :
  (Inv x -> Inv (m', x.2)) -> (forall b, private j x.2 b -> m' !! b = x.1 !! b) -> sees j x (m', x.2).
Proof.
  intros HI Hp. split; auto; try done; simpl; [apply Hp..|intros p Hq; apply Hp]; unfold private; auto.
Qed.

(** ** ebr.c and the allocator in one thread *)
Section thread.
Variable i : nat.
Hypothesis Hi : (i < n)%nat.
Abbreviation TID := (Z.of_nat i).
Abbreviation TH := (this_thread (Z.of_nat i)).
Abbreviation ST := (stack_t (Z.of_nat i)).
Implicit Types (P : state -> Prop).

Lemma h_store_private P b f v (Q : unit -> state -> Prop) :
  stable i P ->
  (forall x, Inv x -> P x -> inb x.1 (b, f) = true /\ private i x.2 b /\ (b = TH -> f = T_IN_CRITICAL) /\
     Q tt (upd x.1 (b, f) v, x.2)) ->
  hoare i P (store (b, f) v) Q.
Proof.
  intros Hs H. apply h_act; [exact Hi|exact Hs|]. intros x HI HP. destruct (H x HI HP) as (Hin & Hpr & Hc & HQ).
  exists tt, (upd x.1 (b, f) v), x.2. rewrite Hin.
  assert (HI' : Inv (upd x.1 (b, f) v, x.2)).
  { apply inv_upd; [by destruct x|]. by apply (not_watched_private x i). }
  split_and!; auto. intros j Hj Hji. apply sees_mem; [auto|]. intros c Hc'. apply lookup_upd_ne. simpl.
  intros ->. by apply (private_disjoint x i j b).
Qed.

Lemma h_store_same P l v :
  stable i P -> (forall x, Inv x -> P x -> get x.1 l = Some v /\ inb x.1 l = true) ->
  hoare i P (store l v) (fun _ => P).
Proof.
  intros Hs H. apply h_act; [exact Hi|exact Hs|]. intros x HI HP. destruct (H x HI HP) as (Hg & Hin).
  exists tt, x.1, x.2. rewrite Hin, upd_same by exact Hg. destruct x as [m g]. simpl. split_and!; auto.
  intros j _ _. split; auto; done.
Qed.

(** Facts of thread [i] that its own bookkeeping does not change. *)
Definition with_lock g (lk : option nat) : ghost :=
  Ghost (g_nodes g) (g_head g) (g_tail g) (g_mine g) lk (g_log g).

Definition local P : Prop :=
  stable i P /\
  (forall x l v, Inv x -> P x -> l.1 = ST \/ l.1 = TH \/ l.1 = eg -> P (upd x.1 l v, x.2)).

(** Facts that do not speak about the lock of ebr.c. *)
Definition lockfree P : Prop := forall x lk, P x -> P (x.1, with_lock x.2 lk).

Lemma st_inb x f : Inv x -> 0 <= f < sizeof_per_thread_t -> inb x.1 (ST, f) = true /\ inb x.1 (TH, f) = true.
Proof.
  intros HI Hf. split; (eapply is_struct_inb; [|exact Hf]);
    apply (inv_storage _ HI); lia.
Qed.

Lemma h_store_stack P f v : local P -> 0 <= f < sizeof_per_thread_t ->
  hoare i P (store (ST, f) v) (fun _ x => P x /\ get x.1 (ST, f) = Some v).
Proof.
  intros (Hs & Hu) Hf. apply h_store_private; [exact Hs|]. intros x HI HP.
  destruct (st_inb x f HI Hf) as [H1 _]. destruct (threads_ne i i Hi Hi) as [Hne _].
  split_and!; [auto|left; auto|intros E; by destruct Hne|apply (Hu x (ST, f)); auto|].
  apply get_upd_eq. by apply inb_live in H1.
Qed.

(** Fields of the thread's copy of its record. *)
Definition top (f v : Z) x : Prop := get x.1 (ST, f) = Some v.

Lemma stable_top f v : stable i (top f v).
Proof. intros x y H HR. unfold top in *. rewrite <- H. apply get_lookup_eq, HR. Qed.

(** After the copy: the values ebr.c reads. *)
Definition copied x : Prop :=
  top T_ENTRIES 0 x /\ top T_RETIRE_COUNT 0 x /\ (exists e, top T_EPOCH e x /\ 0 <= e < N_EPOCHS) /\
  forall e : Z, 0 <= e < N_EPOCHS -> top (T_LIMBO_LIST + 8 * e) NULL x.

Lemma stable_copied : stable i copied.
Proof.
  intros x y (H1 & H2 & (e & H3 & H3') & H4) HR.
  split_and!; [..|exists e; split; [|done]|intros e' He']; eapply stable_top; eauto.
Qed.

Definition same_fields (fs : list Z) x : Prop := forall f, f ∈ fs -> get x.1 (ST, f) = get x.1 (TH, f).

Lemma stable_same fs : stable i (same_fields fs).
Proof.
  intros x y H HR f Hf. rewrite (get_lookup_eq x.1), (get_lookup_eq x.1 y.1 TH); [by apply H|apply HR..].
Qed.

Lemma h_copy fs fs0 P :
  local P -> (forall f, f ∈ fs -> f ∈ per_thread_fields) ->
  hoare i (fun x => P x /\ same_fields fs0 x) (copy_fields ST TH fs)
    (fun _ x => P x /\ same_fields (fs ++ fs0) x).
Proof.
  intros HL. revert fs0. induction fs as [|f fs IH]; intros fs0 Hfs; simpl.
  - by apply h_ret.
  - eapply h_bind.
    + eapply (h_load i Hi _ _ (fun v x => (P x /\ same_fields fs0 x) /\ get x.1 (TH, f) = Some v)).
      * apply stable_and; [apply HL|apply stable_same].
      * intros x HI HP. destruct (sg_fields _ _ (inv_storage _ HI) TID f) as [v Hv];
          [lia|apply Hfs; left|]. exists v. auto.
    + intros v. eapply h_bind; [apply (h_store_private _ _ _ _
        (fun _ x => P x /\ same_fields (f :: fs0) x))|].
      * apply stable_and; [apply stable_and; [apply HL|apply stable_same]|].
        intros x y H HR. rewrite <- H. apply get_lookup_eq, HR.
      * intros x HI ([HP HS] & Hv).
        assert (Hf : 0 <= f < sizeof_per_thread_t) by (apply per_thread_fields_lt, Hfs; left).
        destruct (st_inb x f HI Hf) as [H1 _]. destruct (threads_ne i i Hi Hi) as [Hne _].
        split_and!; [auto|left; auto|intros E; by destruct Hne|by apply HL; auto|].
        intros f' Hf'. simpl. rewrite (get_upd_ne _ _ (TH, f')) by congruence.
        destruct (decide (f' = f)) as [->|Hff].
        -- rewrite get_upd_eq; [done|]. by apply inb_live in H1.
        -- rewrite get_upd_ne by congruence. apply HS. set_solver.
      * intros []. eapply h_conseq; [apply (IH (f :: fs0))| |].
        -- intros f' Hf'. apply Hfs. by right.
        -- auto.
        -- intros [] x _ [HP HS]. split; [auto|]. intros f' Hf'. apply HS. set_solver.
Qed.

Lemma h_copy_thread P : local P ->
  hoare i P (copy_fields ST TH per_thread_fields) (fun _ x => P x /\ copied x).
Proof.
  intros HL. eapply h_conseq; [apply (h_copy per_thread_fields [] P HL); auto| |].
  - intros x _ HP. split; [auto|]. intros f Hf. by apply not_elem_of_nil in Hf.
  - intros [] x HI [HP HS]. split; [auto|]. rewrite app_nil_r in HS.
    destruct (inv_quiet _ HI i Hi) as (Q1 & Q2 & (e & Q3 & Q3') & Q4).
    unfold copied, top. split_and!; [..|exists e; split; [|done]|intros e' He'];
      rewrite HS; auto; first [by apply limbo_field | apply (bool_decide_unpack _); reflexivity].
Qed.

Lemma h_read {A} P l v0 (k : Z -> prog mem A) Q :
  stable i P -> (forall x, Inv x -> P x -> get x.1 l = Some v0) ->
  hoare i P (k v0) Q -> hoare i P (v <- load l ;; k v) Q.
Proof.
  intros Hs H Hk. eapply h_bind; [apply (h_load i Hi P l (fun v x => v = v0 /\ P x) Hs); eauto|].
  intros v. eapply (h_pure _ (v = v0)); [by intros x _ [? _]|]. intros ->.
  eapply h_conseq; [exact Hk|by intros x _ [_ ?]|auto].
Qed.

Lemma h_read_any {A} P (P' : Z -> state -> Prop) l (k : Z -> prog mem A) Q :
  stable i P -> (forall x, Inv x -> P x -> exists v, get x.1 l = Some v /\ P' v x) ->
  (forall v, hoare i (P' v) (k v) Q) -> hoare i P (v <- load l ;; k v) Q.
Proof. intros Hs H Hk. eapply h_bind; [by apply (h_load i Hi P l P')|exact Hk]. Qed.

Lemma h_seq {A B} P P' (p : prog mem A) (k : A -> prog mem B) Q :
  hoare i P p (fun _ => P') -> (forall a, hoare i P' (k a) Q) -> hoare i P (pbind k p) Q.
Proof. intros H1 H2. eapply h_bind; [exact H1|exact H2]. Qed.

Lemma copied_upd x f v :
  copied x -> f = T_IN_CRITICAL -> copied (upd x.1 (ST, f) v, x.2).
Proof.
  intros (H1 & H2 & (e & H3 & H3') & H4) ->. unfold copied, top in *. simpl.
  split_and!; [..|exists e; split; [|done]|intros e' He'];
    rewrite get_upd_ne; auto; intros [=]; unfold N_EPOCHS in *; lia.
Qed.

Lemma stable_pc P : local P -> stable i (fun x => P x /\ copied x).
Proof. intros HL. apply stable_and; [apply HL|apply stable_copied]. Qed.

(** [process_callbacks_epoch] on an empty limbo list of the copy. *)
Lemma h_callbacks P e : local P -> 0 <= e < N_EPOCHS ->
  hoare i (fun x => P x /\ copied x) (ebr.process_callbacks_epoch fuel TID (ST, T_LIMBO_LIST + 8 * e))
    (fun _ x => P x /\ copied x).
Proof.
  intros HL He. unfold ebr.process_callbacks_epoch.
  pose proof (stable_pc P HL) as Hs.
  eapply (h_bind i _ _ _ (fun num x => num = 0 /\ P x /\ copied x)).
  - eapply h_conseq; [apply (h_loop i (fun num x => num = 0 /\ P x /\ copied x) _ (fun num x => num = 0 /\ P x /\ copied x))| |].
    + intros num. apply (h_pure _ (num = 0)); [by intros x _ [? _]|]. intros ->.
      apply (h_read _ _ NULL); [by apply stable_and; [apply stable_pure|]|by intros x _ (_ & _ & _ & _ & _ & H); apply H|].
      apply h_ret. intros x _ H. exact H.
    + by intros x _ H.
    + auto.
  - intros num. apply (h_pure _ (num = 0)); [by intros x _ [? _]|]. intros ->.
    eapply h_conseq; [|by intros x _ [_ H]; exact H|intros a x _ H; exact H].
    apply (h_read _ _ 0); [exact Hs|by intros x HI _; apply (inv_quiet _ HI i Hi)|].
    apply h_store_same; [exact Hs|]. intros x HI _. split; [by apply (inv_quiet _ HI i Hi)|].
    by apply (st_inb x T_RETIRE_COUNT HI).
Qed.

Lemma h_enter P : local P -> hoare i P (ebr.critical_enter fuel TID) (fun _ => P).
Proof.
  intros HL. pose proof (stable_pc P HL) as Hs. unfold ebr.critical_enter.
  apply (h_seq P (fun x => P x /\ copied x)); [by apply h_copy_thread|]. intros _.
  apply (h_loop i (fun _ x => P x /\ copied x) _ (fun _ => P)). intros _.
  apply (h_seq (fun x => P x /\ copied x) (fun x => P x /\ copied x)).
  { apply h_store_private; [exact Hs|]. intros x HI [HP HC].
    destruct (st_inb x T_IN_CRITICAL HI ltac:(done)) as [H1 _].
    split_and!; [auto|left; auto|auto|apply HL; auto|by apply copied_upd]. }
  intros _. unfold memory_barrier. apply h_skip.
  apply (h_read _ _ eg); [exact Hs|intros x HI _; by apply (inv_globals _ HI)|].
  apply (h_read_any _ (fun e x => 0 <= e < N_EPOCHS /\ P x /\ copied x)); [exact Hs| |].
  { intros x HI HP. destruct (inv_eg _ HI) as (_ & _ & e & He & Hr). eauto. }
  intros epoch. apply (h_pure _ (0 <= epoch < N_EPOCHS)); [by intros x _ [? _]|]. intros Hep.
  apply (h_read_any _ (fun _ x => P x /\ copied x)).
  { apply stable_and; [apply stable_pure|exact Hs]. }
  { intros x HI (_ & HP & HC). pose proof HC as (_ & _ & (te & Ht & _) & _). exists te. auto. }
  intros te. destruct (te =? epoch); simpl.
  - apply (h_read _ _ 0); [exact Hs|by intros x _ [_ (H & _)]|].
    eapply (h_seq _ P).
    { eapply h_conseq; [apply (h_store_stack P); [exact HL|done]|by intros x _ [? _]|by intros ? x _ [? _]]. }
    intros _. apply h_ret. auto.
  - eapply h_seq; [by apply h_callbacks|]. intros _.
    assert (Hst : forall P' f v, (forall x, P' x -> P x) -> 0 <= f < sizeof_per_thread_t ->
              hoare i P' (store (ST, f) v) (fun _ => P)).
    { intros P' f v HP' Hf. eapply h_conseq; [by apply (h_store_stack P)|by intros x _ ?; apply HP'|by intros ? x _ [? _]]. }
    eapply h_seq; [apply (Hst (fun x => P x /\ copied x)); [by intros x [? _]|done]|]. intros _.
    eapply h_seq; [by apply (Hst P)|]. intros _. apply h_ret. auto.
Qed.

Lemma h_exit P : local P -> hoare i P (ebr.critical_exit TID) (fun _ => P).
Proof.
  intros HL. unfold ebr.critical_exit, memory_barrier. apply h_skip.
  apply h_store_private; [apply HL|]. intros x HI HP.
  split_and!; [by apply (st_inb x _ HI)|left; auto|auto|apply HL; auto].
Qed.

(** Retiring a node that has left the queue: only its [mr_next] is written. *)
Lemma h_retire P a : local P ->
  (forall x l v, Inv x -> P x -> l = (a, MR_NEXT) -> P (upd x.1 l v, x.2)) ->
  (forall x, P x -> exists j k, g_nodes x.2 !! j = Some (a, k)) ->
  hoare i P (ebr.free_node_later TID a) (fun _ => P).
Proof.
  intros HL Hmr Hin. pose proof (stable_pc P HL) as Hs. unfold ebr.free_node_later.
  apply (h_seq P (fun x => P x /\ copied x)); [by apply h_copy_thread|]. intros _.
  set (C e x := P x /\ top T_EPOCH e x /\ top (T_LIMBO_LIST + 8 * e) NULL x /\ top T_RETIRE_COUNT 0 x).
  assert (HC : forall e, stable i (C e)).
  { intros e. unfold C. repeat apply stable_and; auto using stable_top. apply HL. }
  apply (h_read_any _ (fun e x => 0 <= e < N_EPOCHS /\ C e x)); [exact Hs| |].
  { intros x HI [HP (_ & C2 & (e & He & Hr) & C4)]. exists e. unfold C. auto 10. }
  intros e. apply (h_pure _ (0 <= e < N_EPOCHS)); [by intros x _ [? _]|]. intros He.
  eapply (h_conseq _ (C e)); [|by intros x _ [_ ?]|intros ? x _ H; exact H]. unfold N_EPOCHS in He.
  apply (h_read _ _ NULL); [done|by intros x _ (_ & _ & ? & _)|].
  apply (h_seq _ (C e)).
  { apply h_act; [exact Hi|apply HC|]. intros x HI HCx. pose proof HCx as (HP & C1 & C2 & C3).
    destruct (Hin x HP) as (j & k & Hj). destruct (inv_nodes _ HI _ _ _ Hj) as [Hnd Hst _ _].
    exists tt, (upd x.1 (a, MR_NEXT) NULL), x.2. rewrite (is_node_inb _ _ MR_NEXT Hnd) by lia.
    assert (Hpr : forall j', (j' < n)%nat -> ~ private j' x.2 a).
    { intros j' Hj' [[->| ->]|E]; [by apply Hst, stat_stack|by apply Hst, stat_thread|].
      destruct (inv_mine _ HI _ _ E) as (_ & _ & Hni). apply Hni, list_elem_of_fmap. exists (a, k).
      split; [done|]. by apply list_elem_of_lookup_2 in Hj. }
    assert (HI' : Inv (upd x.1 (a, MR_NEXT) NULL, x.2)).
    { apply inv_upd; [by destruct x|]. destruct stat_shared as (S1 & S2 & S3).
      intros [E|[E|[E|[(j' & a' & k' & _ & _ & [E|E])|(j' & Hj' & E & _)]]]]; simpl in E; try discriminate;
        subst a; auto using stat_thread. }
    split_and!; auto.
    - intros j' Hj' _. apply sees_mem; [auto|]. intros b Hb. apply lookup_upd_ne. simpl. intros ->. by apply (Hpr j').
    - unfold C, top. simpl. assert (a <> ST) by (intros ->; by apply Hst, stat_stack).
      rewrite !get_upd_ne by congruence. split_and!; auto. }
  intros _. apply (h_read _ _ e); [done|by intros x _ (_ & ? & _)|].
  apply (h_seq _ (fun x => P x /\ top T_RETIRE_COUNT 0 x)).
  { apply h_store_private; [done|]. intros x HI (HP & C1 & C2 & C3).
    destruct (st_inb x (T_LIMBO_LIST + 8 * e) HI ltac:(unfold sizeof_per_thread_t; lia)) as [H1 _].
    destruct (threads_ne i i Hi Hi) as [Hne _].
    split_and!; [auto|left; auto|intros E; by destruct Hne|apply HL; auto|].
    unfold top. simpl. rewrite get_upd_ne; [done|]. intros [=]. lia. }
  intros _. apply (h_read _ _ 0); [apply stable_and; [apply HL|apply stable_top]|by intros x _ [_ ?]|].
  eapply h_conseq; [by apply (h_store_stack P)|by intros x _ [? _]|by intros ? x _ [? _]].
Qed.

(** The lock and the epoch of ebr.c. *)
Definition held x : Prop := g_lock x.2 = Some i.
Definition not_held x : Prop := g_lock x.2 <> Some i.

Lemma stable_held : stable i held.
Proof. intros x y H HR. by apply HR. Qed.

Lemma stable_not_held : stable i not_held.
Proof. intros x y H HR E. by apply H, HR. Qed.

(** A step on the globals of ebr.c, with the ghost holder of the lock. *)
Lemma eg_step x f v lk :
  Inv x -> f = EG_LOCK \/ f = EG_EPOCH ->
  (f = EG_LOCK -> v = match lk with Some _ => 1 | None => 0 end) ->
  (f = EG_EPOCH -> 0 <= v < N_EPOCHS /\ lk = g_lock x.2) ->
  Inv (upd x.1 (eg, f) v, with_lock x.2 lk).
Proof.
  destruct x as [m g].
  intros [H1 [H2 H2'] [H3 [H3' (e & He & Hr)]] H4 [H5 [H5' H5'']] H6 H7 H8 H9 H10 H11] Hf Hl He'. simpl in *.
  destruct shared_ne as (N1 & N2 & N3).
  split; simpl; auto.
  - by apply storage_upd.
  - rewrite !get_upd_ne by congruence. auto.
  - rewrite is_struct_upd. split; [auto|]. assert (live m eg) by (by apply is_struct_live in H3).
    destruct Hf as [->| ->]; rewrite get_upd_eq by done; rewrite get_upd_ne by congruence.
    + rewrite Hl by done. eauto.
    + destruct (He' eq_refl) as [? ->]. eauto.
  - intros j Hj. destruct (H4 j Hj) as (Q1 & Q2 & (e' & Q3 & Q3') & Q4). unfold quiet.
    assert (eg <> this_thread (Z.of_nat j)) by (destruct (thread_not_shared j _ Hj (or_introl eq_refl)); naive_solver).
    rewrite !get_upd_ne by congruence. split_and!; eauto.
    intros e0 He0. rewrite get_upd_ne by congruence. auto.
  - rewrite is_struct_upd, !get_upd_ne by congruence. auto.
  - intros j a k Hj. destruct (H6 j a k Hj) as [M1 M2 M3 M4].
    assert (eg <> a) by (intros <-; apply M2, stat_shared).
    split; [by apply is_node_upd|done|rewrite get_upd_ne by congruence; auto|rewrite get_upd_ne by congruence; auto].
  - intros j p Hp. rewrite is_node_upd. by apply (H9 j).
Qed.

Lemma sees_eg x f v lk j :
  Inv x -> (j < n)%nat -> Inv (upd x.1 (eg, f) v, with_lock x.2 lk) ->
  (lk = Some j <-> g_lock x.2 = Some j) ->
  sees j x (upd x.1 (eg, f) v, with_lock x.2 lk).
Proof.
  intros HI Hj HI' Hlk.
  assert (He : forall b, private j x.2 b -> eg <> b).
  { intros b [Hb|Hb] <-.
    - by destruct (thread_not_shared j eg Hj ltac:(tauto)) as (_ & _ & ?).
    - destruct (inv_mine _ HI _ _ Hb) as (_ & Hs & _). by apply Hs, stat_shared. }
  assert (HL : forall b, private j x.2 b -> upd x.1 (eg, f) v !! b = x.1 !! b).
  { intros b Hb. apply lookup_upd_ne. simpl. intros ->. by apply (He eg). }
  split; simpl; auto; try done; [apply HL..|intros p Hp; apply HL]; unfold private; auto.
Qed.

Lemma local_eg P x f v lk : local P -> lockfree P -> Inv x -> P x -> P (upd x.1 (eg, f) v, with_lock x.2 lk).
Proof. intros (_ & H1) H2 HI HP. apply (H2 (upd x.1 (eg, f) v, x.2)). apply H1; auto. Qed.

Lemma h_trylock P : local P -> lockfree P ->
  hoare i (fun x => P x /\ not_held x) (spin_trylock (eg, EG_LOCK))
    (fun r x => P x /\ if r : bool then held x else not_held x).
Proof.
  intros HL HU. unfold spin_trylock, atomic_cmpxchg4, spin_lock_barrier.
  apply (h_bind i _ _ _ (fun r x => P x /\ if r =? 0 then held x else not_held x)).
  - apply h_act; [exact Hi|apply stable_and; [apply HL|apply stable_not_held]|]. intros x HI [HP Hnh].
    destruct (inv_eg _ HI) as (_ & Hlk & _). rewrite Hlk. destruct (g_lock x.2) as [h|] eqn:El.
    + exists 1, x.1, x.2. rewrite upd_same by (by rewrite Hlk). destruct x as [m g]. simpl in *.
      split_and!; auto. intros j _ _. split; auto; done.
    + exists 0, (upd x.1 (eg, EG_LOCK) 1), (with_lock x.2 (Some i)). split; [done|].
      assert (HI' : Inv (upd x.1 (eg, EG_LOCK) 1, with_lock x.2 (Some i))) by (apply eg_step; auto; done).
      split; [done|]. split; [intros j Hj Hji; apply sees_eg; auto; rewrite El; split; intros [=]; congruence|].
      split; [by apply local_eg|done].
  - intros r. apply h_skip, h_ret. intros x _ H. exact H.
Qed.

Lemma h_unlock P : local P -> lockfree P ->
  hoare i (fun x => P x /\ held x) (spin_unlock (eg, EG_LOCK)) (fun _ x => P x /\ not_held x).
Proof.
  intros HL HU. unfold spin_unlock, atomic_xchg4, spin_unlock_barrier, SPIN_LOCK_UNLOCKED. apply h_skip.
  apply (h_bind i _ _ _ (fun r x => r = 1 /\ P x /\ not_held x)).
  - apply h_act; [exact Hi|apply stable_and; [apply HL|apply stable_held]|]. intros x HI [HP Hh].
    destruct (inv_eg _ HI) as (_ & Hlk & _). unfold held in Hh. rewrite Hlk, Hh.
    exists 1, (upd x.1 (eg, EG_LOCK) 0), (with_lock x.2 None). split; [done|].
    assert (HI' : Inv (upd x.1 (eg, EG_LOCK) 0, with_lock x.2 None)) by (apply eg_step; auto; done).
    split; [done|]. split; [intros j Hj Hji; apply sees_eg; auto; rewrite Hh; split; intros [=]; congruence|].
    split_and!; [done|by apply local_eg|done].
  - intros r. apply (h_pure _ (r = 1)); [by intros x _ [? _]|]. intros ->. simpl. apply h_ret. tauto.
Qed.

Lemma h_epoch P : local P -> lockfree P ->
  hoare i (fun x => P x /\ not_held x) (ebr.update_epoch fuel) (fun _ x => P x /\ not_held x).
Proof.
  intros HL HU. assert (S1 : stable i (fun x => P x /\ not_held x)) by (apply stable_and; [apply HL|apply stable_not_held]).
  assert (S2 : stable i (fun x => P x /\ held x)) by (apply stable_and; [apply HL|apply stable_held]).
  assert (Heg : forall x, Inv x -> get x.1 (GLOBALS, G_EG) = Some eg) by (intros x HI; by apply (inv_globals _ HI)).
  unfold ebr.update_epoch. apply (h_read _ _ eg); [exact S1|auto|].
  eapply h_bind; [by apply h_trylock|]. intros [|]; simpl; [|by apply h_ret].
  apply (h_read _ _ eg); [exact S2|auto|].
  apply (h_read_any _ (fun e x => 0 <= e < N_EPOCHS /\ P x /\ held x)); [exact S2| |].
  { intros x HI HP. destruct (inv_eg _ HI) as (_ & _ & e & He & Hr). eauto. }
  intros e. apply (h_pure _ (0 <= e < N_EPOCHS)); [by intros x _ [? _]|]. intros He.
  eapply (h_conseq _ (fun x => P x /\ held x)); [|by intros x _ [_ ?]|intros ? x _ H; exact H].
  apply (h_bind i _ _ _ (fun (r : bool) x => P x /\ if r then held x else not_held x)).
  - eapply h_conseq; [apply (h_loop i (fun t x => 0 <= t /\ P x /\ held x) _
      (fun (r : bool) x => P x /\ if r then held x else not_held x))|intros x _ H; split; [lia|exact H]|auto].
    intros t. apply (h_pure _ (0 <= t)); [by intros x _ [? _]|]. intros Ht.
    eapply (h_conseq _ (fun x => P x /\ held x)); [|by intros x _ [_ ?]|intros ? x _ H; exact H].
    apply (h_read _ _ (Z.of_nat n)); [exact S2|by intros x HI _; apply (inv_globals _ HI)|].
    destruct (Z.ltb_spec t (Z.of_nat n)) as [Hlt|Hge]; simpl; [|by apply h_ret].
    apply (h_read_any _ (fun _ x => P x /\ held x)); [exact S2| |].
    { intros x HI HP. destruct (sg_fields _ _ (inv_storage _ HI) t T_IN_CRITICAL ltac:(lia)) as [v Hv]; [|eauto].
      apply (bool_decide_unpack _). reflexivity. }
    intros c. apply (h_seq _ (fun x => P x /\ held x)).
    { destruct (c =? 1); [|by apply h_ret].
      apply (h_read_any _ (fun _ x => P x /\ held x)); [exact S2| |intros; by apply h_ret].
      intros x HI HP. destruct (sg_fields _ _ (inv_storage _ HI) t T_EPOCH ltac:(lia)) as [v Hv]; [|eauto].
      apply (bool_decide_unpack _). reflexivity. }
    intros [|].
    + apply (h_read _ _ eg); [exact S2|auto|]. eapply h_seq; [by apply h_unlock|]. intros _. by apply h_ret.
    + apply h_ret. intros x _ H. split; [lia|exact H].
  - intros [|]; simpl; [|by apply h_ret].
    apply (h_read _ _ eg); [exact S2|auto|].
    apply (h_seq _ (fun x => P x /\ held x)).
    { apply h_act; [exact Hi|exact S2|]. intros x HI [HP Hh].
      destruct (inv_eg _ HI) as (Hst & _). rewrite (is_struct_inb _ _ _ EG_EPOCH Hst) by done.
      set (v := Z.rem (e + 1) N_EPOCHS).
      assert (Hv : 0 <= v < N_EPOCHS) by (apply Z.rem_bound_pos; unfold N_EPOCHS in *; lia).
      exists tt, (upd x.1 (eg, EG_EPOCH) v), (with_lock x.2 (g_lock x.2)). split; [done|].
      assert (HI' : Inv (upd x.1 (eg, EG_EPOCH) v, with_lock x.2 (g_lock x.2))) by (apply eg_step; auto; done).
      split; [done|]. split; [intros j Hj Hji; apply sees_eg; auto; done|].
      split; [by apply local_eg|done]. }
    intros _. apply (h_read _ _ eg); [exact S2|auto|]. by apply h_unlock.
Qed.

(** ** The queue *)

(** The history of thread [i] and the node it has allocated. *)
Definition at_log (L : list event) (o : option Z) x : Prop :=
  proj i (g_log x.2) = L /\ g_mine x.2 !! i = o /\ not_held x.

(** ... with the key stored in the node. *)
Definition at_node (L : list event) (p key : Z) x : Prop :=
  at_log L (Some p) x /\ get x.1 (p, KEY) = Some key /\ get x.1 (p, NEXT) = Some NULL.

Lemma stable_log L o : stable i (at_log L o).
Proof. intros x y (H1 & H2 & H3) HR. split_and!; [by rewrite (r_proj _ _ _ HR)|by rewrite (r_mine _ _ _ HR)|by eapply stable_not_held]. Qed.

Lemma local_log L o : local (at_log L o).
Proof. split; [apply stable_log|auto]. Qed.

Lemma stable_node L p key : stable i (at_node L p key).
Proof.
  intros x y (H1 & H2 & H3) HR. split; [by eapply stable_log|].
  assert (E : y.1 !! p = x.1 !! p) by (apply HR, H1). by rewrite !(get_lookup_eq x.1 y.1 p).
Qed.

Lemma local_node L p key : local (at_node L p key).
Proof.
  split; [apply stable_node|]. intros x l v HI (H1 & H2 & H3) Hl.
  assert (l.1 <> p).
  { destruct (inv_mine _ HI i p) as (_ & Hs & _); [apply H1|]. intros <-. apply Hs.
    destruct Hl as [->|[->| ->]]; auto using stat_stack, stat_thread. apply stat_shared. }
  assert (Hne : forall f, l <> (p, f)) by (intros f ->; done).
  split; [exact H1|]. simpl. rewrite !get_upd_ne by auto. auto.
Qed.

(** Linked nodes stay linked. *)
Definition linked (j : nat) (a : Z) x : Prop := exists k, g_nodes x.2 !! j = Some (a, k).

Lemma stable_linked j a : stable i (linked j a).
Proof. intros x y [k H] HR. exists k. eapply prefix_lookup_Some; [exact H|apply HR]. Qed.

Lemma stable_lookup j a k : stable i (fun x => g_nodes x.2 !! j = Some (a, k)).
Proof. intros x y H HR. eapply prefix_lookup_Some; [exact H|apply HR]. Qed.

Lemma linked_inj x j j' a : Inv x -> linked j a x -> linked j' a x -> j = j'.
Proof.
  intros HI [k H] [k' H']. eapply (NoDup_lookup (map fst (g_nodes x.2))); [apply HI|..];
    rewrite list_lookup_fmap; [by rewrite H|by rewrite H'].
Qed.

Lemma linked_index x j : Inv x -> (j < length (g_nodes x.2))%nat -> linked j (next_addr (g_nodes x.2) j) x.
Proof.
  intros HI Hj. apply lookup_lt_is_Some in Hj as [[a k] H]. unfold next_addr. rewrite H. by exists k.
Qed.

Lemma linked_head x : Inv x -> linked (g_head x.2) (next_addr (g_nodes x.2) (g_head x.2)) x.
Proof. intros HI. pose proof (inv_index _ HI). apply linked_index; [done|lia]. Qed.

Lemma linked_tail x : Inv x -> linked (g_tail x.2) (next_addr (g_nodes x.2) (g_tail x.2)) x.
Proof. intros HI. pose proof (inv_index _ HI). apply linked_index; [done|lia]. Qed.

(** The successor of a linked node, if any, is linked. *)
Lemma linked_next x j a :
  Inv x -> linked j a x ->
  get x.1 (a, NEXT) = Some (next_addr (g_nodes x.2) (S j)) /\
  (next_addr (g_nodes x.2) (S j) <> 0 -> linked (S j) (next_addr (g_nodes x.2) (S j)) x) /\
  (next_addr (g_nodes x.2) (S j) = 0 -> S j = length (g_nodes x.2)).
Proof.
  intros HI [k H]. destruct (inv_nodes _ HI _ _ _ H) as [_ _ Hx _]. split; [exact Hx|].
  pose proof (lookup_lt_Some _ _ _ H) as Hj. unfold next_addr.
  destruct (g_nodes x.2 !! S j) as [[a' k']|] eqn:E.
  - split; [intros _; by exists k'|]. intros ->. destruct (inv_nodes _ HI _ _ _ E) as [Hnd _ _ _].
    by apply is_node_nonnull in Hnd.
  - split; [done|]. intros _. apply lookup_ge_None in E. lia.
Qed.

(** Compare-and-swap. *)
Lemma h_cas P l old new (Q : bool -> state -> Prop) :
  stable i P ->
  (forall x, Inv x -> P x -> exists v, get x.1 l = Some v /\
     (v = old -> exists g', Inv (upd x.1 l new, g') /\
        (forall j, (j < n)%nat -> j <> i -> sees j x (upd x.1 l new, g')) /\ Q true (upd x.1 l new, g')) /\
     (v <> old -> Q false x)) ->
  hoare i P (CAS l old new) Q.
Proof.
  intros Hs H. unfold CAS, atomic_cmpxchg4.
  apply (h_bind i _ _ _ (fun r x => Q (r =? old) x)); [|by intros r; apply h_ret].
  apply h_act; [exact Hi|exact Hs|]. intros x HI HP. destruct (H x HI HP) as (v & Hg & Ht & Hf). rewrite Hg.
  destruct (Z.eqb_spec v old) as [->|Hne].
  - destruct (Ht eq_refl) as (g' & ? & ? & ?). exists old, (upd x.1 l new), g'. rewrite Z.eqb_refl. auto.
  - exists v, x.1, x.2. rewrite upd_same by exact Hg. apply Z.eqb_neq in Hne as E. rewrite E.
    destruct x as [m g]. simpl in *. split_and!; auto. intros j _ _. split; auto; done.
Qed.

(** A new object changes nothing that was there. *)
Lemma inv_alloc m g a o : Inv (m, g) -> m !! a = None -> Inv (<[a := o]> m, g).
Proof.
  intros [H1 [H2 H2'] [H3 [H3' (e & He & Hr)]] H4 [H5 [H5' H5'']] H6 H7 H8 H9 H10 H11] Ha. simpl in *.
  assert (Hg : forall l v, get m l = Some v -> get (<[a := o]> m) l = Some v).
  { intros l v Hl. rewrite get_insert_ne; [done|]. apply live_get in Hl as [? ?]. congruence. }
  assert (Hst : forall p sz, is_struct m p sz -> is_struct (<[a := o]> m) p sz).
  { intros p sz Hp. eapply is_struct_lookup; [|exact Hp]. apply lookup_insert_ne.
    apply is_struct_live in Hp as [? ?]. congruence. }
  assert (Hnd : forall p, is_node m p -> is_node (<[a := o]> m) p).
  { intros p Hp. eapply is_node_lookup; [|exact Hp]. apply lookup_insert_ne.
    apply is_node_live in Hp as [? ?]. congruence. }
  split; simpl; eauto 10.
  - by apply storage_alloc.
  - intros j Hj. destruct (H4 j Hj) as (Q1 & Q2 & (e' & Q3 & Q3') & Q4). unfold quiet. split_and!; eauto.
  - intros j b k Hj. destruct (H6 j b k Hj) as [M1 M2 M3 M4]. split; auto.
  - intros j p Hp. destruct (H9 j p Hp) as (? & ? & ?). auto.
Qed.

Definition with_mine g (mn : gmap nat Z) : ghost :=
  Ghost (g_nodes g) (g_head g) (g_tail g) mn (g_lock g) (g_log g).

(** No live object is new. *)
Lemma fresh_not_known x a : Inv x -> x.1 !! a = None ->
  (a ∉ stat) /\ (a ∉ map fst (g_nodes x.2)) /\ forall j, g_mine x.2 !! j <> Some a.
Proof.
  intros HI Ha. assert (Hl : forall b, live x.1 b -> b <> a) by (intros b [o Ho] ->; congruence). split_and!.
  - unfold stat. rewrite !elem_of_app, !list_elem_of_fmap, !elem_of_cons.
    destruct (inv_storage _ HI) as [T1 _ T3 _ T5].
    intros [[E|[E|[E|E]]]|[(j & E & Hj)|(j & E & Hj)]].
    + apply (Hl a); [|done]. rewrite E. by eapply is_struct_live.
    + apply (Hl a); [|done]. rewrite E. eapply is_struct_live, (inv_q _ HI).
    + apply (Hl a); [|done]. rewrite E. eapply is_struct_live, (inv_eg _ HI).
    + by apply not_elem_of_nil in E.
    + apply elem_of_seq in Hj. apply (Hl a); [|done]. rewrite E. eapply is_struct_live, T1. lia.
    + apply elem_of_seq in Hj. apply (Hl a); [|done]. rewrite E. eapply is_struct_live, T3. lia.
  - rewrite list_elem_of_fmap. intros ([b k] & -> & Hb). apply list_elem_of_lookup in Hb as [j Hj].
    destruct (inv_nodes _ HI _ _ _ Hj) as [Hnd _ _ _]. apply (Hl b); [|done]. by apply is_node_live.
  - intros j E. destruct (inv_mine _ HI _ _ E) as (Hnd & _). apply (Hl a); [|done]. by apply is_node_live.
Qed.

Lemma h_new_node L :
  hoare i (at_log L None) (new_node fuel TID) (fun p x => at_log L (if p =? 0 then None else Some p) x).
Proof.
  unfold new_node, allocator_malloc.ops, allocator_malloc.new_node, malloc, new_obj.
  apply h_act; [exact Hi|apply stable_log|]. intros x HI (HL & Hm & Hh). simpl.
  destruct (malloc_addr x.1 sizeof_node_t =? 0) eqn:E.
  - exists 0, x.1, x.2. destruct x as [m g]. split_and!; auto; [|by split_and!]. intros j _ _. split; auto; done.
  - pose proof (proj1 (Z.eqb_neq _ _) E) as E'.
    assert (Ha : x.1 !! malloc_addr x.1 sizeof_node_t = None).
    { eapply (malloc_fresh x.1 sizeof_node_t); [exact E'|]. unfold sizeof_node_t. lia. }
    pose proof (malloc_range _ _ E') as Hr. pose proof (malloc_aligned x.1 sizeof_node_t) as Hal.
    unfold sizeof_node_t in Hr at 3. set (a := malloc_addr x.1 sizeof_node_t) in *. clearbody a.
    destruct (fresh_not_known x a HI Ha) as (F1 & F2 & F3).
    exists a, (<[a := Obj sizeof_node_t ∅]> x.1), (with_mine x.2 (<[i := a]> (g_mine x.2))).
    assert (HI0 : Inv (<[a := Obj sizeof_node_t ∅]> x.1, x.2)) by (apply inv_alloc; [by destruct x|done]).
    assert (HI' : Inv (<[a := Obj sizeof_node_t ∅]> x.1, with_mine x.2 (<[i := a]> (g_mine x.2)))).
    { destruct HI0 as [H1 H2 H3 H4 H5 H6 H7 H8 H9 H10 H11]. split; simpl in *; auto.
      - intros j p Hp. destruct (decide (j = i)) as [->|Hne].
        + rewrite lookup_insert_eq in Hp. injection Hp as <-. split_and!; auto.
          split; [lia|]. split; [by apply mod16_even|]. exists (Obj sizeof_node_t ∅). by rewrite lookup_insert_eq.
        + rewrite lookup_insert_ne in Hp by auto. by apply (H9 j).
      - intros j j' p. destruct (decide (j = i)) as [->|Hj], (decide (j' = i)) as [->|Hj']; auto;
          rewrite ?lookup_insert_eq, ?lookup_insert_ne by auto.
        + intros [= ->] E2. by destruct (F3 j').
        + intros E2 [= ->]. by destruct (F3 j).
        + apply H10. }
    split_and!; auto.
    + intros j Hj Hji. assert (HLk : forall b, live x.1 b -> <[a := Obj sizeof_node_t ∅]> x.1 !! b = x.1 !! b).
      { intros b [o Ho]. apply lookup_insert_ne. congruence. }
      destruct (inv_storage _ HI) as [T1 _ T3 _ _].
      split; simpl; auto; try done.
      * rewrite lookup_insert_ne by auto. done.
      * apply HLk. eapply is_struct_live, T3. lia.
      * apply HLk. eapply is_struct_live, T1. lia.
      * intros p Hp. apply HLk. destruct (inv_mine _ HI _ _ Hp) as (Hnd & _). by apply is_node_live.
    + rewrite E. split_and!; auto. simpl. by rewrite lookup_insert_eq.
Qed.

(** A store to [q->head] or [q->tail], with the ghost positions and history. *)
Definition with_queue g (h t : nat) (log : list (nat * event)) : ghost :=
  Ghost (g_nodes g) h t (g_mine g) (g_lock g) log.

Lemma inv_queue x f v h t log :
  Inv x -> (h <= t < length (g_nodes x.2))%nat ->
  (f = Q_HEAD /\ v = next_addr (g_nodes x.2) h /\ t = g_tail x.2 \/
   f = Q_TAIL /\ v = next_addr (g_nodes x.2) t /\ h = g_head x.2) ->
  replay log [] = Some (map snd (drop (S h) (g_nodes x.2))) ->
  Inv (upd x.1 (q, f) v, with_queue x.2 h t log).
Proof.
  destruct x as [m g].
  intros [H1 [H2 H2'] [H3 [H3' (e & He & Hr)]] H4 [H5 [H5' H5'']] H6 H7 H8 H9 H10 H11] Hht Hf Hlog. simpl in *.
  destruct shared_ne as (N1 & N2 & N3).
  split; simpl; auto.
  - by apply storage_upd.
  - rewrite !get_upd_ne by congruence. auto.
  - rewrite is_struct_upd, !get_upd_ne by congruence. eauto.
  - intros j Hj. destruct (H4 j Hj) as (Q1 & Q2 & (e' & Q3 & Q3') & Q4). unfold quiet.
    assert (q <> this_thread (Z.of_nat j)) by (destruct (thread_not_shared j _ Hj (or_introl eq_refl)); naive_solver).
    rewrite !get_upd_ne by congruence. split_and!; eauto.
    intros e0 He0. rewrite get_upd_ne by congruence. auto.
  - rewrite is_struct_upd. split; [auto|]. assert (live m q) by (by apply is_struct_live in H5).
    destruct Hf as [(-> & -> & ->)|(-> & -> & ->)]; rewrite get_upd_eq, get_upd_ne by (done || congruence); auto.
  - intros j a k Hj. destruct (H6 j a k Hj) as [M1 M2 M3 M4].
    assert (q <> a) by (intros <-; apply M2, stat_shared).
    split; [by apply is_node_upd|done|rewrite get_upd_ne by congruence; auto|rewrite get_upd_ne by congruence; auto].
  - intros j p Hp. rewrite is_node_upd. by apply (H9 j).
Qed.

Lemma sees_queue x f v h t log j :
  Inv x -> (j < n)%nat -> Inv (upd x.1 (q, f) v, with_queue x.2 h t log) ->
  (g_head x.2 <= h)%nat -> (g_tail x.2 <= t)%nat -> proj j log = proj j (g_log x.2) ->
  (was_empty j (g_log x.2) -> was_empty j log) ->
  sees j x (upd x.1 (q, f) v, with_queue x.2 h t log).
Proof.
  intros HI Hj HI' Hh Ht Hp Hw.
  assert (HL : forall b, private j x.2 b -> upd x.1 (q, f) v !! b = x.1 !! b).
  { intros b Hb. apply lookup_upd_ne. simpl. intros ->. destruct Hb as [Hb|Hb].
    - destruct (thread_not_shared j q Hj ltac:(tauto)) as (_ & ? & _). done.
    - destruct (inv_mine _ HI _ _ Hb) as (_ & Hs & _). by apply Hs, stat_shared. }
  split; simpl; auto; try done; [apply HL..|intros p Hq; apply HL]; unfold private; auto.
Qed.

(** Facts that survive a store to the queue's [tail]. *)
Definition tailfree P : Prop :=
  forall x v t, Inv x -> P x -> P (upd x.1 (q, Q_TAIL) v, with_queue x.2 (g_head x.2) t (g_log x.2)).

(** Moving the tail to the successor of the node it points to. *)
Lemma h_swing P j t v : stable i P -> tailfree P -> (forall x, P x -> linked j t x /\ linked (S j) v x) ->
  hoare i P (CAS (q, Q_TAIL) t v) (fun _ => P).
Proof.
  intros Hs Htf Hl. apply h_cas; [exact Hs|]. intros x HI HP. destruct (Hl x HP) as [Lt Lv].
  destruct (inv_q _ HI) as (_ & _ & Ht). eexists. split; [exact Ht|]. split; [|auto]. intros Et.
  assert (j = g_tail x.2) as -> by (eapply linked_inj; eauto; rewrite <- Et; by apply linked_tail).
  pose proof (inv_index _ HI) as Hix. destruct Lv as [k Hv]. pose proof (lookup_lt_Some _ _ _ Hv).
  exists (with_queue x.2 (g_head x.2) (S (g_tail x.2)) (g_log x.2)).
  assert (HI' : Inv (upd x.1 (q, Q_TAIL) v, with_queue x.2 (g_head x.2) (S (g_tail x.2)) (g_log x.2))).
  { apply inv_queue; [done|lia| |apply HI]. right. split_and!; auto. unfold next_addr. by rewrite Hv. }
  split_and!; auto. intros j' Hj' _. apply sees_queue; auto.
Qed.

(** Linking a node after the last one. *)
Definition with_link g (p key : Z) (mn : gmap nat Z) (log : list (nat * event)) : ghost :=
  Ghost (g_nodes g ++ [(p, key)]) (g_head g) (g_tail g) mn (g_lock g) log.

Lemma next_addr_app N p key j :
  next_addr (N ++ [(p, key)]) j = if (j =? length N)%nat then p else next_addr N j.
Proof.
  unfold next_addr. destruct (Nat.eqb_spec j (length N)) as [->|Hne].
  - by rewrite list_lookup_middle.
  - destruct (decide (j < length N)%nat) as [Hlt|Hge].
    + by rewrite lookup_app_l by lia.
    + rewrite !lookup_ge_None_2; [done|lia|rewrite length_app; simpl; lia].
Qed.

Lemma inv_link x p key t kt :
  Inv x -> g_mine x.2 !! i = Some p -> get x.1 (p, KEY) = Some key -> get x.1 (p, NEXT) = Some NULL ->
  g_nodes x.2 !! pred (length (g_nodes x.2)) = Some (t, kt) ->
  Inv (upd x.1 (t, NEXT) p, with_link x.2 p key (delete i (g_mine x.2)) (g_log x.2 ++ [(i, DidEnqueue key)])).
Proof.
  destruct x as [m g].
  intros HI Hm Hk Hx Hlast. pose proof HI as [H1 [H2 H2'] [H3 [H3' (e & He & Hr)]] H4 [H5 [H5' H5'']] H6 H7 H8 H9 H10 H11].
  simpl in *. set (N := g_nodes g) in *.
  destruct (H6 _ _ _ Hlast) as [T1 T2 T3 _]. destruct (H9 i p Hm) as (P1 & P2 & P3).
  assert (HlN : (0 < length N)%nat) by lia.
  assert (Hg : forall b f, b ∈ stat -> get (upd m (t, NEXT) p) (b, f) = get m (b, f)).
  { intros b f Hb. apply get_upd_ne. intros [= -> _]. done. }
  destruct stat_shared as (S1 & S2 & S3).
  assert (Htp : t <> p). { intros ->. apply P3, list_elem_of_fmap. exists (p, kt). split; [done|]. by eapply list_elem_of_lookup_2. }
  split; simpl; fold N; auto.
  - by apply storage_upd.
  - rewrite !Hg; auto.
  - rewrite is_struct_upd, !Hg; eauto.
  - intros j Hj. destruct (H4 j Hj) as (Q1 & Q2 & (e' & Q3 & Q3') & Q4). unfold quiet.
    rewrite !Hg by auto using stat_thread. split_and!; eauto.
    intros e0 He0. rewrite Hg by auto using stat_thread. auto.
  - rewrite is_struct_upd, !Hg by auto. rewrite !next_addr_app.
    destruct (Nat.eqb_spec (g_head g) (length N)), (Nat.eqb_spec (g_tail g) (length N)); [lia..|]. auto.
  - intros j a k Hj. apply lookup_app_Some in Hj as [Hj|[Hj0 Hj]].
    + destruct (H6 j a k Hj) as [M1 M2 M3 M4]. pose proof (lookup_lt_Some _ _ _ Hj).
      split; [by apply is_node_upd|done| |intros; rewrite get_upd_ne by congruence; auto].
      rewrite next_addr_app. destruct (decide (j = pred (length N))) as [->|Hne].
      * rewrite Hlast in Hj. injection Hj as <- <-. replace (S (pred (length N)) =? length N)%nat with true
          by (symmetry; apply Nat.eqb_eq; lia). rewrite get_upd_eq; [done|]. by apply is_node_live.
      * destruct (Nat.eqb_spec (S j) (length N)); [lia|]. rewrite get_upd_ne; [done|]. intros [= ->].
        apply Hne. eapply (NoDup_lookup (map fst N)); [exact H7|..]; rewrite list_lookup_fmap; [by rewrite Hj|by rewrite Hlast].
    + destruct (j - length N)%nat as [|d] eqn:Ed; [|discriminate]. injection Hj as <- <-.
      assert (j = length N) as -> by lia. split; [by apply is_node_upd|done| |].
      * rewrite next_addr_app. destruct (Nat.eqb_spec (S (length N)) (length N)); [lia|]. rewrite get_upd_ne by congruence.
        rewrite Hx. unfold next_addr. by rewrite lookup_ge_None_2 by lia.
      * intros _. rewrite get_upd_ne by congruence. done.
  - rewrite map_app. apply NoDup_app. split_and!; [done| |apply NoDup_singleton].
    intros a Ha ->%list_elem_of_singleton. done.
  - rewrite length_app. simpl. lia.
  - intros j p' Hp'. apply lookup_delete_Some in Hp' as [Hne Hp']. destruct (H9 j p' Hp') as (A1 & A2 & A3).
    rewrite is_node_upd, map_app, elem_of_app. split_and!; auto. simpl. intros [?|E]; [done|].
    apply list_elem_of_singleton in E as ->. apply Hne. by eapply H10.
  - intros j j' p' A B. apply lookup_delete_Some in A as [_ A], B as [_ B]. by eapply H10.
  - rewrite replay_app, H11. simpl. rewrite drop_app_le by lia. by rewrite map_app.
Qed.

Lemma h_link L p key j t :
  hoare i (fun x => at_node L p key x /\ linked j t x) (CAS (t, NEXT) NULL p)
    (fun r x => if r : bool
       then at_log (L ++ [DidEnqueue key]) None x /\ linked j t x /\ linked (S j) p x
       else at_node L p key x).
Proof.
  apply h_cas; [apply stable_and; [apply stable_node|apply stable_linked]|].
  intros x HI [((HL & Hm & Hh) & Hk & Hx) Hlt]. destruct (linked_next x j t HI Hlt) as (Hg & _ & Hz).
  eexists. split; [exact Hg|]. split; [|intros _; split_and!; auto; by split_and!]. intros E0. specialize (Hz E0).
  destruct Hlt as [kt Ht]. assert (Hlast : g_nodes x.2 !! pred (length (g_nodes x.2)) = Some (t, kt)).
  { rewrite <- Hz. exact Ht. }
  pose proof (inv_link x p key t kt HI Hm Hk Hx Hlast) as HI'. eexists. split; [exact HI'|]. split.
  - intros j' Hj' Hne. destruct (inv_nodes _ HI _ _ _ Ht) as [_ Hst _ _].
    assert (HLk : forall b, private j' x.2 b -> upd x.1 (t, NEXT) p !! b = x.1 !! b).
    { intros b Hb. apply lookup_upd_ne. simpl. intros ->. destruct Hb as [[->| ->]|Hb]; [by apply Hst, stat_stack|by apply Hst, stat_thread|].
      destruct (inv_mine _ HI _ _ Hb) as (_ & _ & Hni). apply Hni, list_elem_of_fmap. exists (t, kt).
      split; [done|]. by eapply list_elem_of_lookup_2. }
    split; simpl; auto; try done.
    + by apply prefix_app_r.
    + by rewrite lookup_delete_ne by auto.
    + by rewrite proj_app, proj_cons_ne, app_nil_r by auto.
    + by apply was_empty_append.
    + apply HLk. unfold private. auto.
    + apply HLk. unfold private. auto.
    + intros p' Hp'. apply HLk. unfold private. auto.
  - split; [|split].
    + split_and!; simpl; [|by rewrite lookup_delete_eq|done]. by rewrite proj_app, proj_cons_eq, HL.
    + exists kt. simpl. by rewrite lookup_app_l by (by eapply lookup_lt_Some).
    + exists key. simpl. rewrite Hz. by rewrite list_lookup_middle.
Qed.

Lemma tailfree_log L o : tailfree (at_log L o).
Proof. intros x v t HI H. exact H. Qed.

Lemma tailfree_node L p key : tailfree (at_node L p key).
Proof.
  intros x v t HI (H1 & H2 & H3). assert (q <> p).
  { destruct (inv_mine _ HI i p) as (_ & Hs & _); [apply H1|]. intros <-. by apply Hs, stat_shared. }
  split; [exact H1|]. simpl. rewrite !get_upd_ne by congruence. auto.
Qed.

Lemma tailfree_and P P' : tailfree P -> tailfree P' -> tailfree (fun x => P x /\ P' x).
Proof. intros H1 H2 x v t HI [? ?]. split; auto. Qed.

Lemma tailfree_linked j a : tailfree (linked j a).
Proof. intros x v t HI H. exact H. Qed.

Create HintDb stb discriminated.
#[local] Hint Resolve stable_and stable_linked stable_lookup stable_log stable_node stable_pure
  stable_impl stable_exists tailfree_and tailfree_log tailfree_node tailfree_linked : stb.

(** The loop of [enqueue]. *)
Lemma h_enqueue_loop L p key :
  hoare i (at_node L p key) (queue_lf_ebr.enqueue_loop fuel q p)
    (fun t x => at_log (L ++ [DidEnqueue key]) None x /\ exists j, linked j t x /\ linked (S j) p x).
Proof.
  unfold queue_lf_ebr.enqueue_loop.
  apply (h_loop i (fun _ => at_node L p key) _ (fun t x => at_log (L ++ [DidEnqueue key]) None x /\
    exists j, linked j t x /\ linked (S j) p x)). intros _.
  apply (h_read_any _ (fun t x => exists j, at_node L p key x /\ linked j t x)); [auto with stb| |].
  { intros x HI HP. eexists. split; [by apply (inv_q _ HI)|]. exists (g_tail x.2). split; [done|]. by apply linked_tail. }
  intros t. apply h_exists. intros j.
  assert (S1 : stable i (fun x => at_node L p key x /\ linked j t x)) by auto with stb.
  apply (h_read_any _ (fun _ x => at_node L p key x /\ linked j t x)); [exact S1| |].
  { intros x HI HP. eexists. split; [by apply (inv_q _ HI)|done]. }
  intros t'. destruct (t' =? t); simpl; [|by apply h_ret; intros x _ [? _]].
  apply (h_read_any _ (fun nx x => (at_node L p key x /\ linked j t x) /\ (nx <> 0 -> linked (S j) nx x))); [exact S1| |].
  { intros x HI HP. destruct (linked_next x j t HI (proj2 HP)) as (Hg & Hnx & _). eauto. }
  intros nx. destruct (Z.eqb_spec nx 0) as [->|Hne]; simpl.
  - eapply (h_bind i _ _ _ (fun r x => if r : bool
       then at_log (L ++ [DidEnqueue key]) None x /\ linked j t x /\ linked (S j) p x
       else at_node L p key x)).
    + eapply h_conseq; [apply h_link|by intros x _ [? _]|auto].
    + intros [|]; apply h_ret; [|auto]. intros x _ (H1 & H2 & H3). eauto.
  - eapply (h_seq _ (at_node L p key)).
    + eapply h_conseq; [apply (h_swing (fun x => at_node L p key x /\ linked j t x /\ linked (S j) nx x) j t nx)| |].
      * auto with stb.
      * auto with stb.
      * by intros x (_ & ? & ?).
      * intros x _ [[? ?] ?]. auto.
      * by intros ? x _ [? _].
    + intros _. by apply h_ret.
Qed.

Lemma h_enqueue L key :
  hoare i (at_log L None) (queue_lf_ebr.enqueue fuel TID q key)
    (fun _ => at_log (L ++ [DidEnqueue key]) None).
Proof.
  unfold queue_lf_ebr.enqueue.
  apply (h_bind i _ _ _ (fun p => at_log L (Some p))).
  { apply (h_loop i (fun _ => at_log L None) _ (fun p => at_log L (Some p))). intros _.
    eapply h_seq; [apply h_enter, local_log|]. intros _.
    eapply h_bind; [apply h_new_node|]. intros p. simpl. destruct (p =? 0).
    - eapply h_seq; [apply h_exit, local_log|]. intros _. eapply (h_seq _ (at_log L None)).
      + eapply h_conseq; [apply (h_epoch (fun x => proj i (g_log x.2) = L /\ g_mine x.2 !! i = None))| |].
        * split; [|auto]. intros x y [H1 H2] HR. split; [by rewrite (r_proj _ _ _ HR)|by rewrite (r_mine _ _ _ HR)].
        * intros x lk H. exact H.
        * intros x _ (H1 & H2 & H3). auto.
        * intros ? x _ ((H1 & H2) & H3). split_and!; auto.
      + intros _. by apply h_ret.
    - by apply h_ret. }
  intros p. apply (h_seq _ (fun x => at_log L (Some p) x /\ get x.1 (p, KEY) = Some key)).
  { apply h_store_private; [apply stable_log|]. intros x HI HP. pose proof HP as (_ & Hm & _).
    destruct (inv_mine _ HI _ _ Hm) as (Hnd & Hst & _). split_and!.
    - apply is_node_inb; [done|lia].
    - right. exact Hm.
    - intros ->. by destruct Hst; apply stat_thread.
    - exact HP.
    - apply get_upd_eq. by apply is_node_live. }
  intros _. apply (h_seq _ (at_node L p key)).
  { apply h_store_private.
    - intros x y [H1 H2] HR. split; [by eapply stable_log|]. rewrite <- H2. apply get_lookup_eq, HR, H1.
    - intros x HI [HP Hk]. pose proof HP as (_ & Hm & _).
      destruct (inv_mine _ HI _ _ Hm) as (Hnd & Hst & _). split_and!.
      + apply is_node_inb; [done|lia].
      + right. exact Hm.
      + intros ->. by destruct Hst; apply stat_thread.
      + split_and!; [exact HP|simpl; by rewrite get_upd_ne|]. apply get_upd_eq. by apply is_node_live. }
  intros _. apply h_skip. eapply h_bind; [apply h_enqueue_loop|]. intros t.
  apply (h_seq _ (at_log (L ++ [DidEnqueue key]) None)).
  - eapply (h_conseq _ (fun x => exists j, at_log (L ++ [DidEnqueue key]) None x /\ linked j t x /\ linked (S j) p x));
      [|by intros x _ (H & j & ? & ?); eauto|intros ? x _ H; exact H].
    apply h_exists. intros j.
    eapply h_conseq; [apply (h_swing (fun x => at_log (L ++ [DidEnqueue key]) None x /\ linked j t x /\ linked (S j) p x) j t p);
      [auto with stb|auto with stb|by intros x (_ & ? & ?)]|auto|by intros ? x _ [? _]].
  - intros _. apply h_exit, local_log.
Qed.

Lemma stable_head_le j : stable i (fun x => j <= g_head x.2)%nat.
Proof. intros x y H HR. pose proof (r_head _ _ _ HR). lia. Qed.

Lemma stable_tail_le j : stable i (fun x => j <= g_tail x.2)%nat.
Proof. intros x y H HR. pose proof (r_tail _ _ _ HR). lia. Qed.

Lemma stable_empty : stable i (fun x => was_empty i (g_log x.2)).
Proof. intros x y H HR. by apply HR. Qed.
#[local] Hint Resolve stable_head_le stable_tail_le stable_empty : stb.

(** Steps that change the history only. *)
Definition with_log g (log : list (nat * event)) : ghost := with_queue g (g_head g) (g_tail g) log.

Lemma inv_relog x log : Inv x -> replay log [] = replay (g_log x.2) [] -> Inv (x.1, with_log x.2 log).
Proof. intros [H1 H2 H3 H4 H5 H6 H7 H8 H9 H10 H11] E. split; simpl; auto. by rewrite E. Qed.

(** Reading [head] again: if it has not moved and the dummy node had no
    successor, the answer "empty" goes into the history. *)
Lemma h_read_again L h P :
  stable i P -> (forall x, P x -> at_log L None x) ->
  hoare i (fun x => P x /\ was_empty i (g_log x.2)) (load (q, Q_HEAD))
    (fun v x => if v =? h then at_log (L ++ [DidDequeue (-1)]) None x else at_log L None x).
Proof.
  intros Hs HP. unfold load. apply h_act; [exact Hi|auto with stb|]. intros x HI [Hx Hw].
  pose proof (HP x Hx) as (HL & Hm & Hh). destruct (inv_q _ HI) as (_ & Hhd & _). rewrite Hhd.
  set (v := next_addr (g_nodes x.2) (g_head x.2)). exists v, x.1. destruct (v =? h).
  - destruct Hw as (l1 & l2 & El & Hr & Hp2).
    assert (HI' : Inv (x.1, with_log x.2 (l1 ++ (i, DidDequeue (-1)) :: l2))).
    { apply inv_relog; [done|]. rewrite El. by apply insert_empty. }
    assert (Hpi : forall j, proj j (l1 ++ (i, DidDequeue (-1)) :: l2) =
              proj j l1 ++ proj j [(i, DidDequeue (-1))] ++ proj j l2) by (intros j; by rewrite <- !proj_app).
    exists (with_log x.2 (l1 ++ (i, DidDequeue (-1)) :: l2)). split; [done|]. split; [done|]. split.
    + intros j Hj Hne. split; simpl; auto; try done.
      * by rewrite Hpi, proj_cons_ne, El, proj_app by auto.
      * rewrite El. by apply was_empty_insert.
    + split_and!; simpl; auto. rewrite Hpi, proj_cons_eq, Hp2, app_nil_r. f_equal.
      rewrite El, proj_app, Hp2, app_nil_r in HL. exact HL.
  - exists x.2. destruct x as [m g]. split; [done|]. split; [done|]. split; [|by split_and!].
    intros j _ _. split; auto; done.
Qed.

(** Moving the head over the first element. *)
Lemma h_advance L h nx data jh jt t :
  h <> t ->
  hoare i (fun x => at_log L None x /\ linked jh h x /\ (linked jt t x /\ (jh <= jt)%nat) /\ (jt <= g_tail x.2)%nat /\
             g_nodes x.2 !! S jh = Some (nx, data))
    (CAS (q, Q_HEAD) h nx)
    (fun r x => if r : bool then at_log (L ++ [DidDequeue data]) None x /\ linked jh h x else at_log L None x).
Proof.
  intros Hht. apply h_cas; [auto 10 with stb|]. intros x HI ((HL & Hm & Hh) & Lh & (Lt & Hle) & Htl & Hnx).
  destruct (inv_q _ HI) as (_ & Hhd & _). eexists. split; [exact Hhd|]. split; [|by intros _].
  intros Eh. assert (jh = g_head x.2) as -> by (eapply linked_inj; eauto; rewrite <- Eh; by apply linked_head).
  assert (jt <> g_head x.2). { intros ->. destruct Lh as [k1 E1], Lt as [k2 E2]. congruence. }
  pose proof (inv_index _ HI) as Hix. pose proof (lookup_lt_Some _ _ _ Hnx) as Hlen.
  set (log := g_log x.2 ++ [(i, DidDequeue data)]).
  exists (with_queue x.2 (S (g_head x.2)) (g_tail x.2) log).
  assert (HI' : Inv (upd x.1 (q, Q_HEAD) nx, with_queue x.2 (S (g_head x.2)) (g_tail x.2) log)).
  { apply inv_queue; [done|lia| |].
    - left. split_and!; auto. unfold next_addr. by rewrite Hnx.
    - unfold log. rewrite replay_app, (inv_log _ HI). simpl.
      rewrite (drop_S _ _ _ Hnx). simpl. by rewrite Z.eqb_refl. }
  split_and!; auto.
  - intros j Hj Hne. apply sees_queue; auto.
    + unfold log. by rewrite proj_app, proj_cons_ne, app_nil_r by auto.
    + intros Hw. unfold log. by apply was_empty_append.
  - unfold log. split_and!; simpl; auto. by rewrite proj_app, proj_cons_eq, HL.
Qed.

Definition dequeued (L : list event) (r : option (Z * Z)) x : Prop :=
  match r with
  | None => at_log (L ++ [DidDequeue (-1)]) None x
  | Some (h, data) => at_log (L ++ [DidDequeue data]) None x /\ exists j, linked j h x
  end.

Lemma h_dequeue_loop L : hoare i (at_log L None) (queue_lf_ebr.dequeue_loop fuel q) (dequeued L).
Proof.
  unfold queue_lf_ebr.dequeue_loop. apply (h_loop i (fun _ => at_log L None) _ (dequeued L)). intros _.
  apply (h_read_any _ (fun h x => exists jh, at_log L None x /\ linked jh h x /\ (jh <= g_head x.2)%nat)); [auto with stb| |].
  { intros x HI HP. eexists. split; [by apply (inv_q _ HI)|]. exists (g_head x.2). split_and!; auto. by apply linked_head. }
  intros h. apply h_exists. intros jh.
  apply (h_read_any _ (fun t x => exists jt, at_log L None x /\ linked jh h x /\ (jh <= g_head x.2)%nat /\
    (linked jt t x /\ (jh <= jt)%nat) /\ (jt <= g_tail x.2)%nat)); [auto with stb| |].
  { intros x HI (H1 & H2 & H3). eexists. split; [by apply (inv_q _ HI)|]. exists (g_tail x.2).
    pose proof (inv_index _ HI). split_and!; auto; [by apply linked_tail|lia]. }
  intros t. apply h_exists. intros jt.
  set (B x := at_log L None x /\ linked jh h x /\ (linked jt t x /\ (jh <= jt)%nat) /\ (jt <= g_tail x.2)%nat).
  assert (SB : stable i B) by (unfold B; auto 10 with stb).
  apply (h_read_any _ (fun nx x => B x /\ (nx <> 0 -> linked (S jh) nx x) /\ (nx = 0 -> was_empty i (g_log x.2))));
    [auto 10 with stb| |].
  { intros x HI (H1 & H2 & H3 & H4 & H5). destruct (linked_next x jh h HI H2) as (Hg & Hnx & Hz).
    eexists. split; [exact Hg|]. split; [unfold B; tauto|]. split; [exact Hnx|]. intros E0. specialize (Hz E0).
    apply was_empty_now. rewrite (inv_log _ HI). pose proof (inv_index _ HI).
    rewrite drop_ge by lia. done. }
  intros nx. apply h_skip. destruct (Z.eqb_spec nx 0) as [->|Hne].
  - eapply h_bind; [eapply h_conseq; [apply (h_read_again L h B SB)| |]|].
    + by intros x (? & _).
    + intros x _ (H1 & _ & H3). auto.
    + intros v x _ H. exact H.
    + intros v. simpl. destruct (v =? h); simpl; by apply h_ret.
  - apply (h_read_any _ (fun _ x => B x /\ linked (S jh) nx x)); [auto 10 with stb| |].
    { intros x HI (H1 & H2 & _). eexists. split; [by apply (inv_q _ HI)|]. auto. }
    intros v. destruct (v =? h); simpl; [|apply h_ret; by intros x _ [[? _] _]].
    destruct (Z.eqb_spec h t) as [<-|Hht].
    + apply (h_seq _ (at_log L None)); [|by intros _; apply h_ret].
      eapply h_conseq; [apply (h_swing (fun x => at_log L None x /\ linked jh h x /\ linked (S jh) nx x) jh h nx)| |].
      * auto with stb.
      * auto with stb.
      * by intros x (_ & ? & ?).
      * by intros x _ [(? & ? & _) ?].
      * by intros ? x _ [? _].
    + apply (h_read_any _ (fun data x => B x /\ g_nodes x.2 !! S jh = Some (nx, data))); [auto 10 with stb| |].
      { intros x HI (H1 & [k Hk]). exists k. destruct (inv_nodes _ HI _ _ _ Hk) as [_ _ _ Hkey]. split; [apply Hkey; lia|auto]. }
      intros data. eapply h_bind; [eapply h_conseq; [apply (h_advance L h nx data jh jt t Hht)| |]|].
      * intros x _ ((H1 & H2 & H3 & H4) & H5). split_and!; auto; apply H3.
      * intros r x _ H. exact H.
      * intros [|]; simpl; apply h_ret; [|auto]. intros x _ [? ?]. split; eauto.
Qed.

Lemma h_dequeue L :
  hoare i (at_log L None) (queue_lf_ebr.dequeue fuel TID q) (fun r => at_log (L ++ [DidDequeue r]) None).
Proof.
  unfold queue_lf_ebr.dequeue. eapply h_seq; [apply h_enter, local_log|]. intros _.
  eapply h_bind; [apply h_dequeue_loop|]. intros [[h data]|]; simpl.
  - eapply (h_conseq _ (fun x => exists j, at_log (L ++ [DidDequeue data]) None x /\ linked j h x));
      [|intros x _ (? & j & ?); eauto|intros r x _ H; exact H].
    apply h_exists. intros j. apply (h_seq _ (at_log (L ++ [DidDequeue data]) None)).
    + eapply h_conseq; [apply (h_retire (fun x => at_log (L ++ [DidDequeue data]) None x /\ linked j h x))|auto|by intros ? x _ [? _]].
      * split; [auto with stb|]. intros x l v _ H _. exact H.
      * intros x l v _ H _. exact H.
      * intros x [_ [k H]]. eauto.
    + intros _. eapply h_seq; [apply h_exit, local_log|]. intros _. by apply h_ret.
  - eapply h_seq; [apply h_exit, local_log|]. intros _. by apply h_ret.
Qed.

Lemma h_client os L :
  hoare i (at_log L None) (queue_client fuel TID q os)
    (fun rs x => at_log (L ++ zip_with event_of os rs) None x /\ length rs = length os).
Proof.
  revert L. induction os as [|o os IH]; intros L; simpl.
  - apply h_ret. intros x _ H. by rewrite app_nil_r.
  - apply (h_bind i _ _ _ (fun r => at_log (L ++ [event_of o r]) None)).
    + destruct o as [k|]; simpl.
      * eapply h_seq; [apply h_enqueue|]. intros _. by apply h_ret.
      * apply h_dequeue.
    + intros r. eapply h_bind; [apply IH|]. intros rs. apply h_ret. intros x _ [H Hlen].
      rewrite <- app_assoc in H. simpl in *. auto.
Qed.
End thread.

(** ** All threads together *)

Lemma client_pool (ops : list (list queue_op)) m g :
  (length ops <= n)%nat -> Inv (m, g) -> g_log g = [] -> g_mine g = ∅ -> g_lock g = None ->
  pool_ok R G (fun i rs x => Inv x /\ exists os, ops !! i = Some os /\
      at_log i (zip_with event_of os rs) None x /\ length rs = length os)
    (imap (fun i os => queue_client fuel (Z.of_nat i) q os) ops) (m, g).
Proof.
  intros Hlen HI Hlog Hmine Hlock i p Hp. rewrite list_lookup_imap in Hp.
  apply fmap_Some in Hp as (os & Hos & ->). pose proof (lookup_lt_Some _ _ _ Hos).
  eapply rg_mono; [apply (h_client i ltac:(lia) os [] (m, g) HI)|].
  - split_and!; simpl; [by rewrite Hlog|by rewrite Hmine|]. unfold not_held. simpl. by rewrite Hlock.
  - intros rs x [HI' [HA HL]]. split; [done|]. exists os. auto.
Qed.

Lemma client_stable (ops : list (list queue_op)) i rs x y :
  (i < n)%nat ->
  (Inv x /\ exists os, ops !! i = Some os /\ at_log i (zip_with event_of os rs) None x /\ length rs = length os) ->
  R i x y ->
  Inv y /\ exists os, ops !! i = Some os /\ at_log i (zip_with event_of os rs) None y /\ length rs = length os.
Proof.
  intros Hi (HI & os & Hos & HA & HL) HR. split; [by apply (HR Hi)|]. exists os. split_and!; auto.
  eapply stable_log; eauto.
Qed.

Lemma queue_exec (ops : list (list queue_op)) m g sched :
  (length ops <= n)%nat -> Inv (m, g) -> g_log g = [] -> g_mine g = ∅ -> g_lock g = None ->
  match exec sched (imap (fun i os => queue_client fuel (Z.of_nat i) q os) ops) m with
  | Ok (ps, m') => exists g', Inv (m', g') /\
      forall i rs, ps !! i = Some (Ret rs) -> exists os, ops !! i = Some os /\
        proj i (g_log g') = zip_with event_of os rs /\ length rs = length os
  | Err e => e = EFuel
  end.
Proof.
  intros Hlen HI Hlog Hmine Hlock.
  pose proof (rg_sound R G (fun i rs x => (i < n)%nat -> Inv x /\ exists os, ops !! i = Some os /\
      at_log i (zip_with event_of os rs) None x /\ length rs = length os)) as Hsound.
  specialize (Hsound ltac:(intros i j x y Hne [_ HG] Hi; by apply HG; auto)).
  specialize (Hsound ltac:(intros i a y y' HQ HR Hi; eapply client_stable; eauto)).
  specialize (Hsound Inv ltac:(by intros i x y [HG _] HJ; apply HG)).
  specialize (Hsound sched (imap (fun i os => queue_client fuel (Z.of_nat i) q os) ops) m g).
  destruct (exec _ _ _) as [[ps m']|e] eqn:Hex.
  - destruct Hsound as (g' & Hok & HI'); [|done|].
    + intros i p Hp. eapply rg_mono; [by apply (client_pool ops m g)|]. auto.
    + exists g'. split; [done|]. intros i rs Hi. specialize (Hok i _ Hi). simpl in Hok.
      apply exec_length in Hex. rewrite length_imap in Hex. pose proof (lookup_lt_Some _ _ _ Hi).
      destruct Hok as (_ & os & Hos & (Hp & _) & HL); [lia|]. eauto.
  - apply Hsound; [|done]. intros i p Hp. eapply rg_mono; [by apply (client_pool ops m g)|]. auto.
Qed.
End concurrent.

(** ** The queue in memory *)

(** The keys of the nodes from [a] on. *)
Fixpoint walk (k : nat) (m : mem) (a : Z) : option (list Z) :=
  match k with
  | O => None
  | S k' =>
      if a =? NULL then Some []
      else match get m (a, KEY), get m (a, NEXT) with
           | Some key, Some next => match walk k' m next with Some c => Some (key :: c) | None => None end
           | _, _ => None
           end
  end.

(** The elements behind the dummy node, at most [k] of them. *)
Definition contents (k : nat) (m : mem) (q : Z) : option (list Z) :=
  match get m (q, Q_HEAD) with
  | Some h => match get m (h, NEXT) with Some a => walk (S k) m a | None => None end
  | None => None
  end.

Lemma walk_S k m a :
  walk (S k) m a = if a =? NULL then Some []
    else match get m (a, KEY), get m (a, NEXT) with
         | Some key, Some next => match walk k m next with Some c => Some (key :: c) | None => None end
         | _, _ => None
         end.
Proof. done. Qed.

Lemma inv_walk n q eg x d : Inv n q eg x -> (0 < d <= length (g_nodes x.2))%nat ->
  walk (S (length (g_nodes x.2) - d)) x.1 (next_addr (g_nodes x.2) d) = Some (map snd (drop d (g_nodes x.2))).
Proof.
  intros HI Hd. remember (length (g_nodes x.2) - d)%nat as r eqn:Er. revert d Hd Er.
  induction r as [|r IH]; intros d Hd Er; rewrite walk_S.
  - unfold next_addr. by rewrite lookup_ge_None_2, drop_ge by lia.
  - destruct (lookup_lt_is_Some_2 (g_nodes x.2) d) as [[a k] Hk]; [lia|].
    destruct (inv_nodes _ _ _ _ HI _ _ _ Hk) as [Hnd _ Hnx Hkey].
    assert (En : next_addr (g_nodes x.2) d = a) by (unfold next_addr; by rewrite Hk). rewrite En, (drop_S _ _ _ Hk).
    replace (a =? 0) with false by (symmetry; apply Z.eqb_neq; by eapply is_node_nonnull).
    rewrite Hkey, Hnx, (IH (S d)) by lia. done.
Qed.

Lemma inv_contents n q eg x c : Inv n q eg x -> replay (g_log x.2) [] = Some c ->
  contents (length c) x.1 q = Some c.
Proof.
  intros HI Hc. rewrite (inv_log _ _ _ _ HI) in Hc. injection Hc as <-.
  pose proof (inv_index _ _ _ _ HI). unfold contents. destruct (inv_q _ _ _ _ HI) as (_ & -> & _).
  destruct (lookup_lt_is_Some_2 (g_nodes x.2) (g_head x.2)) as [[a k] Hk]; [lia|].
  destruct (inv_nodes _ _ _ _ HI _ _ _ Hk) as [_ _ Hnx _]. unfold next_addr at 1. rewrite Hk, Hnx.
  rewrite length_map, length_drop. apply (inv_walk n q eg); [done|lia].
Qed.

(** ** The start of the program queue_lf_ebr *)
Section start.
Context `{HM : Malloc, HMR : !MallocRoom}.
Existing Instances allocator_malloc.ops ebr.ops ebr.epochs.
Variable fuel : nat.

Definition queue_start : prog mem Z :=
  ebr.mr_init ;; queue_lf_ebr.queue_init fuel 0.

Lemma storage_le n n' m : storage n m -> n' <= n -> storage n' m.
Proof. intros [H1 H2 H3 H4 H5] Hn. split; auto; intros; [apply H1|apply H2|apply H3|apply H4]; auto; lia. Qed.

Lemma stat_nodup n q eg m :
  storage (Z.of_nat n) m -> Z.of_nat n <= MAX_THREADS -> q <> eg -> q <> GLOBALS -> eg <> GLOBALS ->
  (forall i, 0 <= i < Z.of_nat n -> eg <> this_thread i /\ eg <> stack_t i) ->
  (forall i, 0 <= i < Z.of_nat n -> q <> this_thread i /\ q <> stack_t i) -> NoDup (stat n q eg).
Proof.
  intros Hs Hn H1 H2 H3 H4 H5. unfold stat. apply NoDup_app. split_and!.
  - rewrite !NoDup_cons. split_and!; [set_solver..|apply NoDup_nil_2].
  - intros b Hb. rewrite elem_of_app, !list_elem_of_fmap.
    assert (HG : forall i : Z, 0 <= i < Z.of_nat n -> GLOBALS <> this_thread i /\ GLOBALS <> stack_t i).
    { intros i Hi. unfold GLOBALS, this_thread, stack_t, THREADS, STACK_BASE, sizeof_per_thread_t. lia. }
    rewrite !elem_of_cons in Hb.
    intros [(j & E & Hj)|(j & E & Hj)]; apply elem_of_seq in Hj;
      destruct Hb as [->|[->|[->|Hb]]]; try (by apply not_elem_of_nil in Hb);
      pose proof (HG (Z.of_nat j) ltac:(lia)); pose proof (H4 (Z.of_nat j) ltac:(lia));
      pose proof (H5 (Z.of_nat j) ltac:(lia)); tauto.
  - apply NoDup_app. split_and!.
    + apply NoDup_fmap_2_strong; [|apply NoDup_seq]. intros i j _ _ E. unfold this_thread, sizeof_per_thread_t in E. lia.
    + intros b. rewrite !list_elem_of_fmap. intros (i & -> & Hi) (j & E & Hj).
      apply elem_of_seq in Hi, Hj. revert E.
      unfold this_thread, stack_t, THREADS, STACK_BASE, sizeof_per_thread_t, MAX_THREADS in *. lia.
    + apply NoDup_fmap_2_strong; [|apply NoDup_seq]. intros i j _ _ E. unfold stack_t in E. lia.
Qed.

Lemma queue_start_spec n m k :
  storage MAX_THREADS m -> get m (GLOBALS, G_N_THREADS) = Some (Z.of_nat n) -> Z.of_nat n <= MAX_THREADS ->
  mroom (3 + k) m ->
  tot queue_start m (fun q m' => mroom k m' /\ exists eg d, NoDup (stat n q eg) /\
    Inv n q eg (m', Ghost [(d, 0)] 0 0 ∅ None [])).
Proof.
  intros Hs Hnt Hn Hr. unfold queue_start. apply tot_bind.
  eapply tot_mono; [apply (mr_init_spec ∅ m (2 + k) Hs Hr); set_solver|].
  intros [] m1 ([Hs1 Hrs (eg & E1 & Est & E2 & E3 & E4 & _ & E5)] & Hr1 & Hnt1 & _).
  unfold queue_lf_ebr.queue_init, mapmem, malloc. apply tot_bind.
  unfold new_node, allocator_malloc.ops, allocator_malloc.new_node, malloc.
  eapply tot_alloc; [exact Hr1|done|]. intros d (D1 & D2 & D3 & D4) Hr2.
  apply tot_bind. eapply tot_alloc; [exact Hr2|done|]. intros q (Q1 & Q2 & Q3 & Q4) Hr3.
  set (m2 := <[d := Obj sizeof_node_t ∅]> m1) in *. set (m3 := <[q := Obj sizeof_queue ∅]> m2) in *.
  assert (Hdq : d <> q) by (intros ->; unfold m2 in Q2; by rewrite lookup_insert_eq in Q2).
  assert (HLd : forall b, live m1 b -> b <> d /\ b <> q).
  { intros b [o Ho]. split; intros ->; [congruence|]. unfold m2 in Q2. rewrite lookup_insert_ne in Q2; congruence. }
  assert (Hs3 : storage MAX_THREADS m3) by (unfold m3, m2; do 2 (apply storage_alloc; [|done]); done).
  assert (Hq : is_struct m3 q 128) by (split; [done|]; exists (Obj 128 ∅); unfold m3; by rewrite lookup_insert_eq).
  assert (Hd : is_node m3 d).
  { split; [lia|]. split; [by apply mod16_even|]. exists (Obj 32 ∅). unfold m3, m2.
    rewrite lookup_insert_ne, lookup_insert_eq by congruence. done. }
  assert (Hold : forall b f, live m1 b -> get m3 (b, f) = get m1 (b, f)).
  { intros b f Hb. destruct (HLd b Hb). unfold m3, m2. by rewrite !get_insert_ne by (simpl; congruence). }
  psteps. split; [by repeat apply mroom_upd|]. exists eg, d.
  assert (Hlt : forall i, 0 <= i < MAX_THREADS -> live m1 (this_thread i) /\ live m1 (stack_t i)).
  { intros i Hi. split; eapply is_struct_live; by apply Hs1. }
  assert (HlG : live m1 GLOBALS) by (eapply is_struct_live, Hs1).
  assert (Hle : live m1 eg) by (eapply is_struct_live, Est).
  assert (Hst : NoDup (stat n q eg)).
  { apply (stat_nodup n q eg m1); auto.
    - by eapply storage_le.
    - intros E. by destruct (HLd eg Hle).
    - intros E. by destruct (HLd GLOBALS HlG).
    - intros i Hi. destruct (E5 i) as (? & ? & _); [lia|auto].
    - intros i Hi. destruct (Hlt i) as [A B]; [lia|]. destruct (HLd _ A), (HLd _ B). auto. }
  split; [exact Hst|].
  assert (Hdn : d ∉ stat n q eg).
  { intros E. unfold stat in E. rewrite !elem_of_app, !list_elem_of_fmap, !elem_of_cons in E.
    destruct E as [[E|[E|[E|E]]]|[(j & E & Hj)|(j & E & Hj)]]; try apply elem_of_seq in Hj.
    - by destruct (HLd GLOBALS HlG).
    - done.
    - by destruct (HLd eg Hle).
    - by apply not_elem_of_nil in E.
    - destruct (Hlt (Z.of_nat j)) as [A _]; [lia|]. by destruct (HLd _ A).
    - destruct (Hlt (Z.of_nat j)) as [_ B]; [lia|]. by destruct (HLd _ B). }
  assert (Hkeep : forall b f, live m1 b -> get (upd (upd (upd m3 (d, NEXT) 0) (q, Q_HEAD) d) (q, Q_TAIL) d) (b, f) = get m1 (b, f)).
  { intros b f Hb. destruct (HLd b Hb). rewrite !get_upd_ne by congruence. auto. }
  split; simpl; auto.
  - do 3 apply storage_upd. by eapply storage_le.
  - rewrite !Hkeep by auto. by rewrite Hnt1.
  - rewrite !is_struct_upd, !Hkeep by auto. split; [|split; [auto|exists 1; split; [auto|done]]].
    eapply is_struct_lookup; [|exact Est]. destruct (HLd eg Hle). unfold m3, m2. by rewrite !lookup_insert_ne.
  - intros i Hi. destruct (Hrs (Z.of_nat i)) as (R1 & R2 & R3 & R4 & R5); [lia|].
    destruct (Hlt (Z.of_nat i)) as [A _]; [lia|]. unfold quiet. rewrite !Hkeep by auto.
    split_and!; auto; [by exists 0|]. intros e He. rewrite Hkeep by auto. auto.
  - rewrite !is_struct_upd. split_and!; auto; mget.
  - intros j a key Hj. apply list_lookup_singleton_Some in Hj as [-> [= <- <-]]. split; auto.
    + by rewrite !is_node_upd.
    + unfold next_addr. simpl. mget.
    + lia.
  - apply NoDup_singleton.
  - intros i p Hp. by rewrite lookup_empty in Hp.
  - intros i j p Hp. by rewrite lookup_empty in Hp.
Qed.

(** queue_init for one thread, over any scheme: the queue as its operations
    expect it. *)
Lemma queue_init_owned `{HR' : Reclaimer, HRL' : !@ReclaimerLaws allocator_malloc.ops HR'} tid n O m k :
  own (ReclaimerLaws := HRL') tid n m O -> mroom (2 + k) m ->
  tot (@queue_lf_ebr.queue_init _ allocator_malloc.ops fuel 0) m (fun q m' => mroom k m' /\
    exists d, lf_queue (HRL := HRL') tid n q O d [] [] m').
Proof.
  intros Ho Hr. unfold queue_lf_ebr.queue_init, mapmem, malloc. apply tot_bind.
  unfold new_node, allocator_malloc.ops, allocator_malloc.new_node, malloc.
  eapply tot_alloc; [exact Hr|done|]. intros d (D1 & D2 & D3 & D4) Hr2.
  apply tot_bind. eapply tot_alloc; [exact Hr2|done|]. intros q (Q1 & Q2 & Q3 & Q4) Hr3.
  set (m2 := <[d := Obj sizeof_node_t ∅]> m) in *. set (m3 := <[q := Obj sizeof_queue ∅]> m2) in *.
  assert (Hdq : d <> q) by (intros ->; unfold m2 in Q2; by rewrite lookup_insert_eq in Q2).
  assert (HLd : forall b, live m b -> b <> d /\ b <> q).
  { intros b [o Ho']. split; intros ->; [congruence|]. unfold m2 in Q2. rewrite lookup_insert_ne in Q2; congruence. }
  assert (Hq : is_struct m3 q 128) by (split; [done|]; exists (Obj 128 ∅); unfold m3; by rewrite lookup_insert_eq).
  assert (Hd : is_node m3 d).
  { split; [lia|]. split; [by apply mod16_even|]. exists (Obj 32 ∅). unfold m3, m2.
    rewrite lookup_insert_ne, lookup_insert_eq by congruence. done. }
  psteps. split; [by repeat apply mroom_upd|]. exists d.
  assert (HOl : forall b, b ∈ O -> b <> d /\ b <> q).
  { intros b Hb. apply HLd. by apply (own_live (ReclaimerLaws := HRL') tid n m O). }
  split; auto using frame_refl.
  - eapply (own_local (ReclaimerLaws := HRL') tid n m); [exact Ho|]. intros b Hb. destruct (HOl b Hb).
    rewrite !lookup_upd_ne by (simpl; congruence). unfold m3, m2. by rewrite !lookup_insert_ne by congruence.
  - split.
    + simpl. mget.
    + unfold objs. simpl. apply NoDup_cons. split; [set_solver|apply NoDup_singleton].
    + intros b Hb E. destruct (HOl b E). unfold objs in Hb. simpl in Hb. set_solver.
    + intros b ->%list_elem_of_singleton. rewrite !is_struct_upd. destruct Hq as (? & o & ? & ?). split; [done|]. exists o. split; [done|lia].
  - constructor.
  - by rewrite !is_node_upd.
  - mget.
  - mget.
  - by exists [].
  - by rewrite !is_struct_upd.
  - left.
Qed.

Lemma lf_queue_start m tid k :
  storage MAX_THREADS m -> 0 <= tid < MAX_THREADS -> mroom (3 + k) m ->
  tot queue_start m (fun q m' => mroom k m' /\ exists O d, lf_queue (HRL := ebr_laws) tid 0 q O d [] [] m').
Proof.
  intros Hs Ht Hr. unfold queue_start. apply tot_bind.
  eapply tot_mono; [apply (mr_init_spec ∅ m (2 + k) Hs Hr); set_solver|]. intros [] m1 (Hready & Hr1 & _).
  destruct (ebr_ready_own ∅ m1 tid Hready Ht) as (eg & Ho & _ & _).
  eapply tot_mono; [exact (queue_init_owned (HRL' := ebr_laws) tid 0 _ m1 k Ho Hr1)|].
  intros q m2 (Hr2 & d & Hq). eauto.
Qed.

(** Every run of the whole program. *)
Lemma queue_history_run n (ops : list (list queue_op)) sched m :
  storage MAX_THREADS m -> get m (GLOBALS, G_N_THREADS) = Some (Z.of_nat n) ->
  Z.of_nat n <= MAX_THREADS -> (length ops <= n)%nat -> mroom 3 m ->
  tot queue_start m (fun q m0 =>
    match exec sched (imap (fun i os => queue_client fuel (Z.of_nat i) q os) ops) m0 with
    | Ok (ps, m') => exists log c, replay log [] = Some c /\ contents (length c) m' q = Some c /\
        forall i rs, ps !! i = Some (Ret rs) -> exists os, ops !! i = Some os /\
          proj i log = zip_with event_of os rs /\ length rs = length os
    | Err e => e = EFuel
    end).
Proof.
  intros Hs Hnt Hn Hops Hr. eapply tot_mono; [by apply (queue_start_spec n m 0 Hs Hnt Hn Hr)|].
  intros q m0 (_ & eg & d & Hst & HI).
  pose proof (queue_exec fuel n q eg Hn Hst ops m0 (Ghost [(d, 0)] 0 0 ∅ None []) sched Hops HI eq_refl eq_refl eq_refl) as H.
  destruct (exec _ _ _) as [[ps m']|e]; [|exact H]. destruct H as (g' & HI' & Hps).
  destruct (replay (g_log g') []) as [c|] eqn:Ec.
  - exists (g_log g'), c. split_and!; auto. by apply (inv_contents n q eg (m', g')).
  - pose proof (inv_log _ _ _ _ HI') as HL. simpl in HL. congruence.
Qed.
End start.

(** ** Theorems *)


