(* ===== verification/QueueProgram.v ===== *)
(** * The program queue_lf_ebr, one thread at a time

    What [enqueue] and [dequeue] of queue_lf_ebr.c and queue_lf_dw.c do over
    any allocator and reclamation scheme that keep their contract, and the
    whole program as a FIFO queue.  Under interleaving it is ConcQueue.v. *)
From S2P Require Export ConcQueue.

(** The FIFO queue: what an operation answers, and the contents after it. *)
Definition fifo_step (o : queue_op) (c : list Z) : Z * list Z :=
  match o with
  | Enqueue k => (0, c ++ [k])
  | Dequeue => match c with [] => (-1, []) | k :: c' => (k, c') end
  end.

Fixpoint fifo_steps (os : list queue_op) (c : list Z) : list Z * list Z :=
  match os with
  | [] => ([], c)
  | o :: os' => let '(r, c1) := fifo_step o c in let '(rs, c2) := fifo_steps os' c1 in (r :: rs, c2)
  end.

(** * Proofs *)

Section refinement.
Context `{HM : Malloc, HMR : !MallocRoom, HA : !Allocator, HR : !Reclaimer, HE : !Epochs,
  HRL : !ReclaimerLaws, HRo : !RoomLaws}.
Variables (fuel : nat) (tid : Z).

(** The queue holds [c]; [w] bounds its length and the work pending. *)
Definition queue_holds (w : nat) (q : Z) (c : list Z) (m : mem) : Prop :=
  exists n O d xs ts, lf_queue tid n q O d xs ts m /\ map nk xs = c /\ (n + length xs <= w)%nat.

Lemma queue_post_holds n q O d xs m ks m' :
  queue_post tid n q O d xs m ks m' -> queue_holds (S (n + length xs)) q ks m'.
Proof. intros (n' & O' & d' & xs' & ts' & H1 & H2 & H3 & _). exists n', O', d', xs', ts'. auto. Qed.

Lemma queue_holds_mono w w' q c m : queue_holds w q c m -> (w <= w')%nat -> queue_holds w' q c m.
Proof. intros (n & O & d & xs & ts & H1 & H2 & H3) Hw. exists n, O, d, xs, ts. split_and!; auto. lia. Qed.

Lemma alloc_after_enter_room n q O d xs ts m k :
  lf_queue tid n q O d xs ts m -> (n < fuel)%nat -> mroom (S k) m -> alloc_after_enter fuel tid m.
Proof.
  intros Hq Hf Hr. pose proof (qa_own _ _ _ _ _ _ _ _ _ _ _ Hq) as Ho.
  destruct (tot_run _ _ _ (critical_enter_ok tid n m O fuel Ho Hf)) as ([] & m1 & Hrun & O1 & Ho1 & _).
  eapply run_tot; [exact Hrun|]. apply (enter_room _ _ _ _ _ _ Hr) in Hrun as Hr1.
  destruct (tot_run _ _ _ (new_node_ok tid n m1 O1 fuel Ho1 Hf)) as (p & m2 & Hrun2 & _).
  eapply run_tot; [exact Hrun2|]. by apply (new_node_room k) in Hrun2 as [].
Qed.

Lemma enqueue_room k q key m r m' :
  mroom (S k) m -> run (queue_lf_ebr.enqueue fuel tid q key) m = Ok (r, m') -> mroom k m'.
Proof.
  intros Hm H. unfold queue_lf_ebr.enqueue in H. rewrite run_bind in H.
  destruct (run (loop fuel _ tt) m) as [[p m2]|] eqn:E; [|discriminate].
  assert (Hm2 : mroom k m2).
  { clear H. destruct fuel as [|f]; [discriminate|]. unfold loop in E. rewrite !run_bind in E.
    destruct (run (critical_enter (S f) tid) m) as [[[] m1]|] eqn:E1; [|discriminate].
    apply (enter_room (S k)) in E1; [|exact Hm]. rewrite run_bind in E.
    destruct (run (new_node (S f) tid) m1) as [[p' m3]|] eqn:E2; [|discriminate].
    apply (new_node_room k) in E2 as [Hp Hm2]; [|exact E1].
    apply Z.eqb_neq in Hp. rewrite Hp in E. by injection E as _ <-. }
  revert H. match goal with |- run ?p _ = _ -> _ => cut (keeps (mroom k) p); [intros HK; by apply HK|] end.
  unfold queue_lf_ebr.enqueue_loop. keep.
Qed.

Lemma dequeue_room k q : keeps (mroom k) (queue_lf_ebr.dequeue fuel tid q).
Proof. unfold queue_lf_ebr.dequeue, queue_lf_ebr.dequeue_loop. keep. Qed.

Lemma queue_op_holds o w q c m k :
  queue_holds w q c m -> (S w < fuel)%nat -> mroom (S k) m ->
  tot (queue_op_prog fuel tid q o) m (fun r m' => r = (fifo_step o c).1 /\
    queue_holds (S w) q (fifo_step o c).2 m' /\ mroom k m').
Proof.
  intros (n & O & d & xs & ts & Hq & <- & Hw) Hf Hr. destruct o as [key|]; simpl.
  - pose proof (enqueue_spec fuel tid n q key O d xs ts m Hq ltac:(lia) ltac:(lia)
      (alloc_after_enter_room n q O d xs ts m k Hq ltac:(lia) Hr)) as H.
    apply tot_run in H as ([] & m' & Hrun & H). apply tot_bind. eapply run_tot; [exact Hrun|]. apply tot_ret.
    split_and!; [done| |by eapply enqueue_room]. eapply queue_holds_mono; [by eapply queue_post_holds|]. lia.
  - pose proof (dequeue_spec fuel tid n q O d xs ts m Hq ltac:(lia)) as H.
    apply tot_run in H as (r & m' & Hrun & -> & H). eapply run_tot; [exact Hrun|].
    assert (Hm' : mroom k m').
    { eapply dequeue_room; [|exact Hrun]. eapply mroom_mono; [exact Hr|lia]. }
    split_and!; [by destruct xs| |done]. apply queue_post_holds in H.
    apply (queue_holds_mono _ (S w)) in H; [|lia]. by destruct xs.
Qed.

Lemma queue_client_holds os w q c m k :
  queue_holds w q c m -> (S (w + length os) < fuel)%nat -> mroom (length os + k) m ->
  tot (queue_client fuel tid q os) m (fun rs m' => rs = (fifo_steps os c).1 /\
    queue_holds (w + length os) q (fifo_steps os c).2 m' /\ mroom k m').
Proof.
  revert w c m. induction os as [|o os IH]; intros w c m Hq Hf Hr; simpl.
  - apply tot_ret. by rewrite Nat.add_0_r.
  - simpl in *. apply tot_bind. eapply tot_mono; [apply (queue_op_holds o w q c m (length os + k) Hq); [lia|exact Hr]|].
    intros r m1 (-> & Hq1 & Hr1). destruct (fifo_step o c) as [r c1]. simpl in *. apply tot_bind.
    eapply tot_mono; [apply (IH _ _ _ Hq1); [lia|exact Hr1]|]. intros rs m2 (-> & Hq2 & Hr2). apply tot_ret.
    destruct (fifo_steps os c1) as [rs c2]. simpl in *.
    replace (w + S (length os))%nat with (S w + length os)%nat by lia. auto.
Qed.
End refinement.

(** ** Theorems *)

(** C12: the program queue_lf_ebr (allocator_malloc.c, ebr.c, queue_lf_ebr.c),
    from the static storage through mr_init and queue_init: every sequence of
    operations of one thread returns, without an error and without running out
    of the bound of its retry loops, the answers of a FIFO queue, -1 where it
    is empty, as long as malloc has room for one node per operation. *)
Theorem queue_program_refines_fifo `{HM : Malloc, HMR : !MallocRoom} (fuel : nat) (tid : Z)
    (os : list queue_op) (m : mem) (k : nat) :
  storage MAX_THREADS m -> 0 <= tid < MAX_THREADS -> mroom (3 + (length os + k)) m ->
  (S (length os) < fuel)%nat ->
  tot (q <- queue_start fuel ;;
       @queue_client allocator_malloc.ops (@ebr.ops _ allocator_malloc.ops) ebr.epochs fuel tid q os) m
    (fun rs m' => rs = (fifo_steps os []).1).
Proof.
  intros Hs Ht Hr Hf. apply tot_bind. eapply tot_mono; [by apply (lf_queue_start fuel m tid (length os + k))|].
  intros q m1 (Hr1 & O & d & Hq).
  eapply tot_mono; [apply (queue_client_holds (HRL := ebr_laws) (HRo := ebr_room) fuel tid os 0 q [] m1 k); [|lia|exact Hr1]|].
  { by exists 0%nat, O, d, [], []. }
  by intros rs m2 (-> & _).
Qed.

Lemma queue_program_refines_fifo_witness :
  tot (q <- queue_start 9 ;;
       @queue_client allocator_malloc.ops (@ebr.ops _ allocator_malloc.ops) ebr.epochs 9 1 q
         [Dequeue; Enqueue 4; Enqueue 5; Dequeue; Dequeue; Dequeue]) (static_mem 65)
    (fun rs m' => rs = [-1; 0; 0; 4; 5; -1]).
Proof.
  apply (queue_program_refines_fifo (HMR := bump_room_laws) 9 1
    [Dequeue; Enqueue 4; Enqueue 5; Dequeue; Dequeue; Dequeue] (static_mem 65) 900).
  - exact static_storage.
  - done.
  - eapply mroom_mono; [exact static_room|]. simpl. lia.
  - simpl. lia.
Defined.

(** [enqueue] of queue_lf_ebr.c, over any allocator and reclamation scheme
    that keep their contract and where the allocation succeeds, terminates
    without an error, adds the key at the end, swings a lagging tail, and
    changes nothing but the queue, the objects of the allocator and of the
    reclamation scheme, and new ones. *)
Theorem queue_enqueue_correct `{HA : Allocator, HR : Reclaimer, HE : Epochs, HRL : !ReclaimerLaws}
    (fuel : nat) (tid : Z) (n : nat) (q key : Z) (O : gset Z) (d : Z) (xs ts : list nd) (m : mem) :
  lf_queue tid n q O d xs ts m -> (n < fuel)%nat -> (length xs < fuel)%nat -> alloc_after_enter fuel tid m ->
  tot (queue_lf_ebr.enqueue fuel tid q key) m (fun _ m' =>
    queue_post tid n q O d xs m (map nk xs ++ [key]) m').
Proof. apply enqueue_spec. Qed.

Lemma queue_enqueue_correct_witness :
  tot (q <- queue_start 5 ;;
       @queue_lf_ebr.enqueue allocator_malloc.ops (@ebr.ops _ allocator_malloc.ops) ebr.epochs 5 0 q 7)
    (static_mem 65) (fun _ m' => exists q, @queue_holds _ _ ebr_laws 0 1 q [7] m').
Proof.
  apply tot_bind. eapply tot_mono; [apply (lf_queue_start (HMR := bump_room_laws) 5 (static_mem 65) 0 900);
    [exact static_storage|done|eapply mroom_mono; [exact static_room|lia]]|].
  intros q m (Hr & O & d & Hq).
  eapply tot_mono; [apply (queue_enqueue_correct (HRL := ebr_laws) 5 0 0 q 7 O d [] [] m Hq)|].
  - lia.
  - simpl. lia.
  - eapply (alloc_after_enter_room (HRo := ebr_room) 5 0 0 q O d [] [] m 899 Hq); [lia|exact Hr].
  - intros [] m' Hp. exists q. exact (queue_post_holds _ _ _ _ _ _ _ _ _ Hp).
Defined.

(** [dequeue] of queue_lf_ebr.c terminates without an error, answers the
    first key, or -1 where the queue is empty, and leaves the rest; the old
    dummy is handed to the reclamation scheme, and nothing else changes. *)
Theorem queue_dequeue_correct `{HA : Allocator, HR : Reclaimer, HRL : !ReclaimerLaws}
    (fuel : nat) (tid : Z) (n : nat) (q : Z) (O : gset Z) (d : Z) (xs ts : list nd) (m : mem) :
  lf_queue tid n q O d xs ts m -> (S n < fuel)%nat ->
  tot (queue_lf_ebr.dequeue fuel tid q) m (fun r m' =>
    r = match map nk xs with [] => -1 | k :: _ => k end /\
    queue_post tid n q O d xs m (tail (map nk xs)) m').
Proof. apply dequeue_spec. Qed.

Lemma queue_dequeue_correct_witness :
  tot (q <- queue_start 5 ;;
       @queue_lf_ebr.enqueue allocator_malloc.ops (@ebr.ops _ allocator_malloc.ops) ebr.epochs 5 0 q 7 ;;
       @queue_lf_ebr.dequeue (@ebr.ops _ allocator_malloc.ops) 5 0 q)
    (static_mem 65) (fun r m' => r = 7).
Proof.
  apply tot_bind. eapply tot_mono; [apply (lf_queue_start (HMR := bump_room_laws) 5 (static_mem 65) 0 900);
    [exact static_storage|done|eapply mroom_mono; [exact static_room|lia]]|].
  intros q m (Hr & O & d & Hq). apply tot_bind.
  eapply tot_mono; [apply (enqueue_spec 5 0 0 q 7 O d [] [] m Hq); [lia|simpl; lia|]|].
  { eapply (alloc_after_enter_room (HRo := ebr_room) 5 0 0 q O d [] [] m 899 Hq); [lia|exact Hr]. }
  intros [] m1 (n & O1 & d1 & xs & ts & Hq1 & Ek & Hn & _).
  eapply tot_mono; [apply (queue_dequeue_correct (HRL := ebr_laws) 5 0 n q O1 d1 xs ts m1 Hq1)|].
  - simpl in Hn. lia.
  - intros r m2 [-> _]. by rewrite Ek.
Defined.
