(* ===== verification/Bench.v ===== *)
(** * The benchmark (test_list.c, test_queue.c, main.c, backoff.c, lbr.c)

    The test loops draw operations from the random number generator and apply
    them to the data structure; the set-up fills it; [thread_start] is the life
    of a worker.  The list benchmark is proved against list.h: whatever list it
    is linked with, the loop performs a hundred operations on keys below
    [n_keys], and the set-up leaves the even numbers below [n_keys]. *)
From S2P Require Export Random Hash ListProgram.
From Stdlib Require String Ascii.

(** ** queue.h, mr.h and the set-up half of allocator.h *)
Class QueueOps := {
  q_init : nat -> Z -> prog mem Z;
  q_enqueue : nat -> Z -> Z -> Z -> prog mem unit;
  q_dequeue : nat -> Z -> Z -> prog mem Z
}.

Class Runtime := {
  rt_init_allocator : prog mem unit;
  rt_mr_init : prog mem unit;
  rt_mr_thread_exit : nat -> Z -> prog mem unit;
  rt_mr_reinitialize : prog mem unit
}.

(** lbr.c: the scheme that reclaims nothing *)
Module lbr.
Definition mr_init : prog mem unit := Ret tt.
Definition mr_thread_exit : prog mem unit := Ret tt.
Definition mr_reinitialize : prog mem unit := Ret tt.
End lbr.

(** [atoi] of the C library: white space, a sign, digits. *)
Definition is_space (c : Ascii.ascii) : bool :=
  let n := Ascii.nat_of_ascii c in ((n =? 32) || ((9 <=? n) && (n <=? 13)))%nat.

Fixpoint atoi_digits (s : String.string) (acc : Z) : Z :=
  match s with
  | String.EmptyString => acc
  | String.String c s' =>
      let d := Z.of_nat (Ascii.nat_of_ascii c) - 48 in
      if (0 <=? d) && (d <=? 9) then atoi_digits s' (10 * acc + d) else acc
  end.

Fixpoint atoi (s : String.string) : Z :=
  match s with
  | String.EmptyString => 0
  | String.String c s' =>
      if is_space c then atoi s'
      else if (Ascii.nat_of_ascii c =? 45)%nat then - atoi_digits s' 0
      else if (Ascii.nat_of_ascii c =? 43)%nat then atoi_digits s' 0
      else atoi_digits s 0
  end.

Definition arg (argv : list String.string) (i : nat) : String.string := nth i argv String.EmptyString.

Module test_list.
Section code.
Context `{HLO : ListOps, HRT : Runtime}.
Variable fuel : nat.
Variable tid : Z.

(** One round of the test loop. *)
Definition test_op (n_search l : Z) : prog mem unit :=
  r <- random.Random tid ;;
  let ins_del := Z.land r 1 in
  let r := Z.shiftr r 1 in
  let action := Z.land r (Z.shiftl 1 10 - 1) mod 101 in
  let r := Z.shiftr r 10 in
  n_keys <- load (PARAMS, P_N_KEYS) ;;
  if n_keys =? 0 then Stop EArith
  else
    let key := r mod n_keys in
    _ <- (if action <=? n_search then l_search fuel tid l key
          else if ins_del =? 0 then l_delete fuel tid l key
          else l_insert fuel tid l key) ;;
    Ret tt.

Definition testloop_body : prog mem unit :=
  n_update <- load (PARAMS, P_N_UPDATE) ;;
  let n_search := u8 (100 - n_update) in
  l <- load (PARAMS, P_GLOBAL_DS) ;;
  forz 100 0 (fun _ => test_op n_search l) ;;
  ops <- load (bench_vars tid, T_OPS) ;;
  store (bench_vars tid, T_OPS) (u64 (ops + 100)).

(** The loop that fills the list with [0, 2, 4, ...]. *)
Definition fill : prog mem unit :=
  loop fuel (fun '(i, j) =>
    n_elements <- load (PARAMS, P_N_ELEMENTS) ;;
    if i <? n_elements then
      l <- load (PARAMS, P_GLOBAL_DS) ;;
      _ <- l_insert fuel tid l j ;;
      continue (u32 (i + 1), u32 (j + 2))
    else break tt) (0, 0).

Definition setup_test (argv : list String.string) : prog mem unit :=
  if negb (Z.of_nat (List.length argv) =? 5) then exit_ (-1)
  else
    store (PARAMS, P_N_MS) (u32 (atoi (arg argv 1))) ;;
    store (PARAMS, P_N_UPDATE) (u8 (atoi (arg argv 2))) ;;
    store (PARAMS, P_N_ELEMENTS) (u32 (atoi (arg argv 3))) ;;
    store (GLOBALS, G_N_THREADS) (u32 (atoi (arg argv 4))) ;;
    n_elements <- load (PARAMS, P_N_ELEMENTS) ;;
    store (PARAMS, P_N_KEYS) (u32 (n_elements * 2)) ;;
    random.init_Random ;;
    rt_init_allocator ;;
    rt_mr_init ;;
    l <- l_init ;;
    store (PARAMS, P_GLOBAL_DS) l ;;
    fill.
End code.
End test_list.

Module test_queue.
Section code.
Context `{HQO : QueueOps, HRT : Runtime}.
Variable fuel : nat.
Variable tid : Z.

Definition testloop_body : prog mem unit :=
  q <- load (PARAMS, P_GLOBAL_DS) ;;
  forz 100 0 (fun _ =>
    r <- random.Random tid ;;
    let action := Z.land r 1 in
    let r := Z.shiftr r 1 in
    n_keys <- load (PARAMS, P_N_KEYS) ;;
    if n_keys =? 0 then Stop EArith
    else
      let key := r mod n_keys in
      if negb (action =? 0) then q_enqueue fuel tid q key
      else _ <- q_dequeue fuel tid q ;; Ret tt) ;;
  ops <- load (bench_vars tid, T_OPS) ;;
  store (bench_vars tid, T_OPS) (u64 (ops + 100)).

Definition setup_test (argv : list String.string) : prog mem unit :=
  if negb (Z.of_nat (List.length argv) =? 4) then exit_ (-1)
  else
    store (PARAMS, P_N_MS) (u32 (atoi (arg argv 1))) ;;
    store (PARAMS, P_N_ELEMENTS) (u32 (atoi (arg argv 2))) ;;
    store (GLOBALS, G_N_THREADS) (u32 (atoi (arg argv 3))) ;;
    n_elements <- load (PARAMS, P_N_ELEMENTS) ;;
    store (PARAMS, P_N_KEYS) (u32 (n_elements * 2)) ;;
    random.init_Random ;;
    rt_init_allocator ;;
    rt_mr_init ;;
    q <- q_init fuel tid ;;
    store (PARAMS, P_GLOBAL_DS) q ;;
    loop fuel (fun '(i, j) =>
      n_elements <- load (PARAMS, P_N_ELEMENTS) ;;
      if i <? n_elements then
        q <- load (PARAMS, P_GLOBAL_DS) ;;
        q_enqueue fuel tid q j ;;
        continue (u32 (i + 1), u32 (j + 2))
      else break tt) (0, 0).
End code.
End test_queue.

(** [test_state_t] *)
Definition TEST_NOT_STARTED : Z := 0.
Definition TEST_RUNNING : Z := 1.
Definition TEST_OVER : Z := 2.

Module main.
Section code.
Context `{HRT : Runtime}.
Variable fuel : nat.

(** The body of a worker, for the test loop it is linked with and the value of
    time(0); [id] is the thread's number. *)
Definition thread_start (testloop_body : Z -> prog mem unit) (time id : Z) : prog mem unit :=
  let thread_id := u32 id in
  random.sRandom thread_id (u32 ((id + 1) + Z.shiftl time 4)) ;;
  loop fuel (fun _ : unit =>
    st <- load (PARAMS, P_TEST_STATE) ;;
    if st =? TEST_NOT_STARTED then continue tt else break tt) tt ;;
  loop fuel (fun _ : unit =>
    st <- load (PARAMS, P_TEST_STATE) ;;
    if st =? TEST_RUNNING then testloop_body thread_id ;; continue tt else break tt) tt ;;
  rt_mr_thread_exit fuel thread_id.
End code.
End main.

(** backoff.c, compiled with USE_BACKOFF.  [backoff_amount] is the [int] the
    functions keep per thread; [nthreads] is [tg->nthreads], and [j] the
    uninitialised variable of [backoff_delay]. *)
Module backoff.
Section code.
Variable fuel : nat.
Variable tid : Z.
Abbreviation amount := (this_thread tid, T_BACKOFF).

Definition backoff_init : prog mem unit :=
  forz (Z.to_nat (MAX_THREADS + 1)) 0 (fun i => store (this_thread i, T_BACKOFF) 1).

Definition backoff_reset : prog mem unit :=
  x <- load amount ;;
  let x := Z.shiftr x 2 in
  let x := if x =? 0 then 1 else x in
  store amount x.

Definition backoff_delay (j : Z) : prog mem Z :=
  a <- load amount ;;
  store amount (i32 (Z.shiftl a 2)) ;;
  loop fuel (fun _ : unit =>
    a <- load amount ;;
    n <- load (GLOBALS, G_N_THREADS) ;;
    if n <? a then
      a <- load amount ;;
      store amount (Z.shiftr a 2) ;;
      continue tt
    else break tt) tt ;;
  j <- loop fuel (fun '(i, j) =>
    a <- load amount ;;
    if i <? a then continue (i + 1, i64 (j * i)) else break j) (0, j) ;;
  a <- load amount ;;
  if j =? a then Ret j else Ret 0.
End code.
End backoff.

(** * Proofs *)
Import random.

(** ** What the test loop is meant to do

    The operation that a number of the generator stands for: its lowest bit
    chooses between deletion and insertion, the next ten choose between a search
    and an update, the rest is the key. *)
Inductive bench_op := BSearch (k : Z) | BDelete (k : Z) | BInsert (k : Z).

Definition drawn (n_search nk r : Z) : bench_op :=
  let key := r / 2 ^ 11 mod nk in
  if (r / 2) mod 2 ^ 10 mod 101 <=? n_search then BSearch key
  else if Z.even r then BDelete key else BInsert key.

Definition do_op (o : bench_op) (X : gset Z) : gset Z :=
  match o with BSearch _ => X | BDelete k => X ∖ {[k]} | BInsert k => {[k]} ∪ X end.

(** The keys after the operations that the first [n] numbers drawn from [s] stand for. *)
Fixpoint bench_keys (n_search nk s : Z) (X : gset Z) (n : nat) : gset Z :=
  match n with O => X | S n' => do_op (drawn n_search nk (draws (S n') s)) (bench_keys n_search nk s X n') end.

Lemma draws_add a b s : draws (a + b) s = draws b (draws a s).
Proof. induction b as [|b IH]; [by rewrite Nat.add_0_r|]. rewrite Nat.add_succ_r. simpl. by rewrite IH. Qed.

Lemma bench_keys_add n_search nk s X a b :
  bench_keys n_search nk s X (a + b) = bench_keys n_search nk (draws a s) (bench_keys n_search nk s X a) b.
Proof.
  induction b as [|b IH]; [by rewrite Nat.add_0_r|]. rewrite Nat.add_succ_r. cbn [bench_keys].
  rewrite IH. by rewrite <- Nat.add_succ_r, draws_add.
Qed.

(** The bit operations of the loop read the same fields. *)
Lemma drawn_eq {A} (n_search nk r : Z) (f g h : Z -> A) : 0 <= r ->
  (if Z.land (Z.shiftr r 1) (Z.shiftl 1 10 - 1) mod 101 <=? n_search then f (Z.shiftr (Z.shiftr r 1) 10 mod nk)
   else if Z.land r 1 =? 0 then g (Z.shiftr (Z.shiftr r 1) 10 mod nk) else h (Z.shiftr (Z.shiftr r 1) 10 mod nk)) =
  match drawn n_search nk r with BSearch k => f k | BDelete k => g k | BInsert k => h k end.
Proof.
  intros Hr. unfold drawn. rewrite Z.shiftr_shiftr by lia. change (Z.shiftl 1 10 - 1) with (Z.ones 10).
  rewrite Z.land_ones, !Z.shiftr_div_pow2 by lia. change (1 + 10) with 11. change (2 ^ 1) with 2.
  change 1 with (Z.ones 1) at 1. rewrite Z.land_ones by lia. change (2 ^ 1) with 2. rewrite Zmod_even.
  destruct (_ <=? n_search); [done|]. by destruct (Z.even r).
Qed.

(** ** The list benchmark over any list *)
Section bench_list.
Context `{HM : Malloc, HMR : !MallocRoom, HLO : !ListOps, HS : !SetLaws}.
Variables (fuel : nat) (tid : Z).
Implicit Types (m : mem) (X : gset Z).

(** The objects of the benchmark itself. *)
Definition bench_objs : gset Z := {[PARAMS; bench_vars tid]}.

Definition below (b : Z) X : Prop := forall k, k ∈ X -> 0 <= k < b.

(** The benchmark between two operations: the list [l] holds the keys [X] and
    the generator is at [s]. *)
Record bench_at (c : nat) (l nk s : Z) X m : Prop := {
  ba_sets : sets tid c [(l, X)] bench_objs m;
  ba_params : is_struct m PARAMS sizeof_params;
  ba_keys : get m (PARAMS, P_N_KEYS) = Some nk /\ 0 < nk < M32;
  ba_vars : is_struct m (bench_vars tid) 16;
  ba_seed : get m (bench_vars tid, T_SEED) = Some s /\ 0 <= s < M32;
  ba_below : below nk X
}.

Lemma bench_mine : PARAMS ∈ bench_objs /\ bench_vars tid ∈ bench_objs.
Proof. unfold bench_objs. set_solver. Qed.

Lemma sets_client_upd c L F m l v : sets tid c L F m -> l.1 ∈ F -> sets tid c L F (upd m l v).
Proof.
  intros Hs Hl. eapply sets_client; [exact Hs|..].
  - intros b Hb. apply lookup_upd_ne. congruence.
  - intros b Hb. apply live_upd. by eapply sets_live.
Qed.

Hypothesis Htid : 0 <= tid.

Lemma params_ne : PARAMS <> bench_vars tid.
Proof. unfold PARAMS, bench_vars, this_thread, THREADS, sizeof_per_thread_t. lia. Qed.

Lemma bench_step c c' l nk s X X' m m' :
  bench_at c l nk s X m -> sets tid c' [(l, X')] bench_objs m' -> kept bench_objs m m' -> below nk X' ->
  bench_at c' l nk s X' m'.
Proof.
  intros [H1 H2 [H3 H3'] H4 [H5 H5'] H6] Hs Hk Hb. destruct bench_mine as [B1 B2]. split; auto.
  - eapply is_struct_lookup; [|exact H2]. auto.
  - by rewrite (kept_get _ _ _ _ _ Hk).
  - eapply is_struct_lookup; [|exact H4]. auto.
  - by rewrite (kept_get _ _ _ _ _ Hk).
Qed.

Lemma below_do_op nk X n_search r : 0 < nk -> below nk X -> below nk (do_op (drawn n_search nk r) X).
Proof.
  intros Hn HX. unfold drawn. pose proof (Z.mod_pos_bound (r / 2 ^ 11) nk Hn) as Hk.
  destruct (_ <=? n_search); [done|]. destruct (Z.even r); intros x Hx; simpl in Hx.
  - apply HX. set_solver.
  - apply elem_of_union in Hx as [->%elem_of_singleton|Hx]; auto.
Qed.

Lemma test_op_spec n_search c l nk s X m k :
  bench_at c l nk s X m -> (c < fuel)%nat -> mroom (S k) m ->
  tot (test_list.test_op fuel tid n_search l) m (fun _ m' =>
    bench_at (S c) l nk (schrage s) (do_op (drawn n_search nk (schrage s)) X) m' /\ mroom k m' /\
    (forall f, f <> T_SEED -> get m' (bench_vars tid, f) = get m (bench_vars tid, f)) /\
    m' !! PARAMS = m !! PARAMS).
Proof.
  intros HB Hf Hr. pose proof HB as [H1 H2 [H3 H3'] H4 [H5 H5'] H6]. destruct bench_mine as [B1 B2].
  pose proof params_ne as Hne. unfold test_list.test_op. apply tot_bind.
  eapply tot_mono; [apply (Random_run tid m s); [split; [exact H5|by eapply is_struct_inb]|exact H5']|].
  intros r m1 [-> ->]. set (m1 := upd m (bench_vars tid, T_SEED) (schrage s)).
  pose proof (schrage_range s H5') as Hrange. set (r := schrage s) in *.
  assert (HB1 : bench_at c l nk r X m1).
  { split; auto; unfold m1.
    - by apply sets_client_upd.
    - by apply is_struct_upd.
    - rewrite get_upd_ne by congruence. done.
    - by apply is_struct_upd.
    - unfold MODULUS, M32 in *. split; [mget|lia]. }
  assert (Hr1 : mroom (S k) m1) by (by apply mroom_upd).
  assert (Hg1 : forall f, f <> T_SEED -> get m1 (bench_vars tid, f) = get m (bench_vars tid, f)).
  { intros f Hf'. unfold m1. apply get_upd_ne. congruence. }
  assert (Hp1 : m1 !! PARAMS = m !! PARAMS) by (unfold m1; apply lookup_upd_ne; simpl; congruence).
  clearbody m1. pose proof HB1 as [K1 K2 [K3 K3'] _ _ _]. psteps.
  replace (nk =? 0) with false by (symmetry; apply Z.eqb_neq; lia).
  rewrite (drawn_eq n_search nk r (l_search fuel tid l) (l_delete fuel tid l) (l_insert fuel tid l)) by lia.
  pose proof (below_do_op nk X n_search r ltac:(lia) H6) as Hb.
  assert (Hfin : forall m2 k', sets tid (S c) [(l, do_op (drawn n_search nk r) X)] bench_objs m2 ->
            kept bench_objs m1 m2 -> mroom k' m2 -> (k <= k')%nat ->
            bench_at (S c) l nk r (do_op (drawn n_search nk r) X) m2 /\ mroom k m2 /\
            (forall f, f <> T_SEED -> get m2 (bench_vars tid, f) = get m (bench_vars tid, f)) /\ m2 !! PARAMS = m !! PARAMS).
  { intros m2 k' Hs Hk Hrm Hle. split_and!.
    - by eapply bench_step.
    - by eapply mroom_mono.
    - intros f Hff. rewrite (kept_get _ _ _ _ _ Hk), Hg1 by auto. done.
    - rewrite Hk by auto. done. }
  clear Hb. apply tot_bind. destruct (drawn n_search nk r) as [key|key|key]; simpl in Hfin.
  - eapply tot_mono; [by apply (l_search_ok tid c [(l, X)] bench_objs m1 fuel 0 l X key (S k))|].
    intros ? m2 (_ & Hs & Hrm & Hk). apply tot_ret. by apply (Hfin m2 (S k)); auto.
  - eapply tot_mono; [by apply (l_delete_ok tid c [(l, X)] bench_objs m1 fuel 0 l X key (S k))|].
    intros ? m2 (_ & Hs & Hrm & Hk). apply tot_ret. by apply (Hfin m2 (S k)); auto.
  - eapply tot_mono; [by apply (l_insert_ok tid c [(l, X)] bench_objs m1 fuel 0 l X key k)|].
    intros ? m2 (_ & Hs & Hrm & Hk). apply tot_ret. by apply (Hfin m2 k); auto.
Qed.

Lemma testloop_spec c l nk s X m k nu ops :
  bench_at c l nk s X m -> (c + 100 <= fuel)%nat -> mroom (100 + k) m ->
  get m (PARAMS, P_N_UPDATE) = Some nu -> get m (PARAMS, P_GLOBAL_DS) = Some l ->
  get m (bench_vars tid, T_OPS) = Some ops ->
  tot (test_list.testloop_body fuel tid) m (fun _ m' =>
    bench_at (c + 100) l nk (draws 100 s) (bench_keys (u8 (100 - nu)) nk s X 100) m' /\ mroom k m' /\
    get m' (bench_vars tid, T_OPS) = Some (u64 (ops + 100)) /\ m' !! PARAMS = m !! PARAMS).
Proof.
  intros HB Hf Hr Hu Hds Hops. unfold test_list.testloop_body. psteps. set (ns := u8 (100 - nu)).
  eapply tot_mono; [apply (tot_forz (fun i m' => bench_at (c + i) l nk (draws i s) (bench_keys ns nk s X i) m' /\
    mroom (100 - i + k) m' /\ get m' (bench_vars tid, T_OPS) = Some ops /\ m' !! PARAMS = m !! PARAMS))|].
  - intros i m1 Hi (HB1 & Hr1 & Ho1 & Hp1).
    eapply tot_mono; [apply (test_op_spec ns (c + i) l nk _ _ m1 (100 - S i + k) HB1); [lia|]|].
    + eapply mroom_mono; [exact Hr1|lia].
    + intros [] m2 (HB2 & Hr2 & Hg2 & Hp2). replace (c + S i)%nat with (S (c + i)) by lia.
      split_and!; auto; [by rewrite Hg2|congruence].
  - rewrite Nat.add_0_r. split_and!; auto.
  - intros [] m1 (HB1 & Hr1 & Ho1 & Hp1). pose proof (ba_vars _ _ _ _ _ _ HB1) as Hv.
    generalize dependent (bench_keys ns nk s X 100). generalize (draws 100 s). intros s' X1 HB1. psteps.
    destruct bench_mine as [B1 B2]. pose proof params_ne as Hne. pose proof HB1 as [K1 K2 [K3 K3'] K4 [K5 K5'] K6].
    split_and!.
    + split; auto.
      * by apply sets_client_upd.
      * by apply is_struct_upd.
      * rewrite get_upd_ne by congruence. done.
      * by apply is_struct_upd.
      * split; [mget|done].
    + apply mroom_upd. eapply mroom_mono; [exact Hr1|lia].
    + mget.
    + rewrite lookup_upd_ne by (simpl; congruence). done.
Qed.

(** The keys the set-up inserts. *)
Definition evens (n : nat) : gset Z := list_to_set (map (fun i => 2 * Z.of_nat i) (seq 0 n)).

Lemma evens_S n : evens (S n) = {[2 * Z.of_nat n]} ∪ evens n.
Proof.
  unfold evens. rewrite seq_S, map_app, list_to_set_app_L. simpl. set_solver.
Qed.

Lemma fill_spec c l n m k :
  sets tid c [(l, ∅)] bench_objs m -> get m (PARAMS, P_N_ELEMENTS) = Some (Z.of_nat n) ->
  get m (PARAMS, P_GLOBAL_DS) = Some l -> 2 * Z.of_nat n < M32 ->
  (c + n < fuel)%nat -> mroom (n + k) m ->
  tot (test_list.fill fuel tid) m (fun _ m' =>
    sets tid (c + n) [(l, evens n)] bench_objs m' /\ mroom k m' /\ kept bench_objs m m').
Proof.
  intros Hs Hn Hds Hb Hf Hr. destruct bench_mine as [B1 B2]. unfold test_list.fill.
  eapply (tot_loop (fun d '(i, j) m' => exists a : nat, i = Z.of_nat a /\ j = 2 * Z.of_nat a /\ (a + d = n)%nat /\
    sets tid (c + a) [(l, evens a)] bench_objs m' /\ mroom (d + k) m' /\ kept bench_objs m m')) with (n := n); [|lia|].
  - intros d [i j] m1 (a & -> & -> & Ha & Hs1 & Hr1 & Hk1).
    assert (Hn1 : get m1 (PARAMS, P_N_ELEMENTS) = Some (Z.of_nat n)) by (by rewrite (kept_get _ _ _ _ _ Hk1)).
    assert (Hd1 : get m1 (PARAMS, P_GLOBAL_DS) = Some l) by (by rewrite (kept_get _ _ _ _ _ Hk1)).
    psteps. destruct (Z.ltb_spec (Z.of_nat a) (Z.of_nat n)) as [Hlt|Hge].
    + psteps. eapply tot_mono; [apply (l_insert_ok tid (c + a) [(l, evens a)] bench_objs m1 fuel 0 l (evens a) (2 * Z.of_nat a) (pred d + k));
        [exact Hs1|lia|done|eapply mroom_mono; [exact Hr1|lia]]|].
      intros r m2 (_ & Hs2 & Hr2 & Hk2). apply tot_ret. exists (pred d). split; [lia|]. exists (S a).
      rewrite !u32_small by (unfold M32 in *; lia). split_and!; try lia; auto.
      * rewrite evens_S. replace (c + S a)%nat with (S (c + a)) by lia. exact Hs2.
      * by eapply kept_trans.
    + apply tot_ret. assert (a = n) as -> by lia. split_and!; auto. eapply mroom_mono; [exact Hr1|lia].
  - exists 0%nat. rewrite Nat.add_0_r. split_and!; auto using kept_refl; lia.
Qed.
End bench_list.

(** ** The program list_lf_ebr set up *)
#[export] Instance ebr_runtime `{HM : Malloc} : Runtime :=
  {| rt_init_allocator := allocator_malloc.init_allocator;
     rt_mr_init := ebr.mr_init;
     rt_mr_thread_exit := fun fuel tid => @ebr.mr_thread_exit allocator_malloc.ops fuel tid;
     rt_mr_reinitialize := ebr.mr_reinitialize |}.

Section setup.
Context `{HM : Malloc, HMR : !MallocRoom}.
Existing Instances allocator_malloc.ops ebr.ops ebr.epochs ebr_laws ebr_room.
Variable fuel : nat.

Lemma bench_client : client_objs (bench_objs 0).
Proof.
  intros b Hb. unfold bench_objs in Hb. rewrite elem_of_union, !elem_of_singleton in Hb.
  unfold PARAMS, bench_vars, find_vars, this_thread, stack_t, GLOBALS, THREADS, STACK_BASE, sizeof_per_thread_t,
    MAX_THREADS in *.
  split; [lia|]. intros i Hi. split_and!; lia.
Qed.

Lemma setup_list_spec ms upd_ n nthreads prog_ m k :
  storage MAX_THREADS m -> is_struct m PARAMS sizeof_params -> live m (bench_vars 0) ->
  u32 (atoi n) = atoi n -> 2 * atoi n < M32 -> (S (Z.to_nat (atoi n)) < fuel)%nat ->
  mroom (2 + Z.to_nat (atoi n) + k) m ->
  tot (test_list.setup_test (HLO := lf_list_ops) fuel 0 [prog_; ms; upd_; n; nthreads]) m (fun _ m' =>
    (exists l, lf_sets 0 (S (Z.to_nat (atoi n))) [(l, evens (Z.to_nat (atoi n)))] (bench_objs 0) m' /\
       get m' (PARAMS, P_GLOBAL_DS) = Some l) /\ mroom k m' /\
    get m' (PARAMS, P_N_KEYS) = Some (2 * atoi n) /\
    get m' (PARAMS, P_N_UPDATE) = Some (u8 (atoi upd_)) /\
    is_struct m' PARAMS sizeof_params /\ m' !! bench_vars 0 = m !! bench_vars 0).
Proof.
  intros Hs Hp Hv Hn Hb Hf Hr. unfold test_list.setup_test, sizeof_params in *. cbn [List.length arg nth].
  change (negb (Z.of_nat 5 =? 5)) with false. cbv iota.
  pose proof (u32_range (atoi n)) as Hnr. rewrite Hn in Hnr.
  assert (N1 : PARAMS <> GLOBALS) by done.
  pose proof (sg_globals _ _ Hs) as HG. unfold sizeof_globals in HG.
  assert (Hlv : live m PARAMS) by (by eapply is_struct_live).
  psteps. rewrite (u32_small (_ * 2)) by (unfold M32 in *; lia). rewrite Hn.
  replace (atoi n * 2) with (2 * atoi n) by lia.
  match goal with |- tot _ ?m1 _ =>
    assert (H1 : storage MAX_THREADS m1 /\ is_struct m1 PARAMS 48 /\ live m1 (bench_vars 0) /\
      mroom (2 + Z.to_nat (atoi n) + k) m1 /\ get m1 (PARAMS, P_N_ELEMENTS) = Some (atoi n) /\
      get m1 (PARAMS, P_N_KEYS) = Some (2 * atoi n) /\ get m1 (PARAMS, P_N_UPDATE) = Some (u8 (atoi upd_)) /\
      m1 !! bench_vars 0 = m !! bench_vars 0);
    [split_and!; [by repeat apply storage_upd|by rewrite !is_struct_upd|by rewrite !live_upd|by repeat apply mroom_upd|
       mget|mget|mget|by rewrite !lookup_upd_ne by done]|
     generalize dependent m1] end.
  clear Hs Hp Hv Hr HG Hlv. generalize (m !! bench_vars 0). clear m. intros ob m (Hs & Hp & Hv & Hr & G1 & G2 & G3 & G4).
  unfold rt_init_allocator, rt_mr_init, ebr_runtime, allocator_malloc.init_allocator, random.init_Random.
  apply tot_ret, tot_bind, tot_ret, tot_bind.
  assert (HK : forall b, b ∈ bench_objs 0 -> live m b).
  { intros b Hb'. unfold bench_objs in Hb'. rewrite elem_of_union, !elem_of_singleton in Hb'.
    destruct Hb' as [->| ->]; [by eapply is_struct_live|done]. }
  eapply tot_mono; [apply (mr_init_spec (bench_objs 0) m (S (Z.to_nat (atoi n) + k)) Hs Hr HK)|].
  intros [] m1 (Hready & Hr1 & _ & Hkeep).
  assert (Hk1 : kept (bench_objs 0) m m1).
  { intros b Hb'. destruct (bench_client b Hb') as [C1 C2]. apply Hkeep; auto. intros i Hi. by apply C2. }
  apply tot_bind.
  eapply tot_mono; [apply (l_init_ok (SetLaws := lf_set_laws) 0 0 [] (bench_objs 0) m1 (Z.to_nat (atoi n) + k)); [|exact Hr1]|].
  { apply ready_sets; auto using bench_client; [done|]. intros b Hb'. unfold live. rewrite Hk1 by auto. by apply HK. }
  intros l m2 (Hs2 & Hr2 & Hk2). destruct (bench_mine 0) as [B1 B2].
  pose proof (kept_trans _ _ _ _ Hk1 Hk2) as Hk. clear Hk1 Hk2.
  assert (Hp2 : is_struct m2 PARAMS 48) by (eapply is_struct_lookup; [|exact Hp]; auto). psteps.
  eapply tot_mono; [apply (fill_spec (HS := lf_set_laws) fuel 0 ltac:(lia) 1 l (Z.to_nat (atoi n)) _ k)|].
  - apply sets_client_upd; [exact Hs2|exact B1].
  - rewrite get_upd_ne, (kept_get _ _ _ _ _ Hk) by (done || auto). rewrite Z2Nat.id by lia. exact G1.
  - mget.
  - rewrite Z2Nat.id by lia. exact Hb.
  - lia.
  - by apply mroom_upd.
  - intros [] m3 (Hs3 & Hr3 & Hk3). split_and!; auto.
    + exists l. split; [exact Hs3|]. rewrite (kept_get _ _ _ _ _ Hk3) by auto. mget.
    + rewrite (kept_get _ _ _ _ _ Hk3), get_upd_ne, (kept_get _ _ _ _ _ Hk) by (done || auto). exact G2.
    + rewrite (kept_get _ _ _ _ _ Hk3), get_upd_ne, (kept_get _ _ _ _ _ Hk) by (done || auto). exact G3.
    + eapply is_struct_lookup; [apply Hk3; auto|]. by apply is_struct_upd.
    + rewrite Hk3 by auto. rewrite lookup_upd_ne by done. rewrite Hk by auto. exact G4.
Qed.
End setup.

(** ** Exponential backoff *)
Section backoff_proofs.
Variables (fuel : nat) (tid : Z).
Implicit Types (m : mem).

Definition backoff_at (a nt : Z) m : Prop :=
  get m (this_thread tid, T_BACKOFF) = Some a /\ inb m (this_thread tid, T_BACKOFF) = true /\
  get m (GLOBALS, G_N_THREADS) = Some nt /\ this_thread tid <> GLOBALS.

Lemma backoff_upd a a' nt m : backoff_at a nt m -> backoff_at a' nt (upd m (this_thread tid, T_BACKOFF) a').
Proof.
  intros (H1 & H2 & H3 & H4). split_and!; auto.
  - mget.
  - by rewrite inb_upd.
  - rewrite get_upd_ne; [done|]. congruence.
Qed.

Lemma backoff_reset_spec a nt m : backoff_at a nt m -> 0 <= a ->
  tot (backoff.backoff_reset tid) m (fun _ m' => backoff_at (Z.max 1 (a / 4)) nt m').
Proof.
  intros HB Ha. pose proof HB as (H1 & H2 & _). unfold backoff.backoff_reset. psteps.
  rewrite Z.shiftr_div_pow2 by lia. change (2 ^ 2) with 4. pose proof (Z.div_pos a 4 Ha ltac:(lia)).
  replace (if a / 4 =? 0 then 1 else a / 4) with (Z.max 1 (a / 4)) by (destruct (Z.eqb_spec (a / 4) 0); lia).
  by eapply backoff_upd.
Qed.

Lemma backoff_delay_spec a nt j m :
  backoff_at a nt m -> 0 < a <= nt -> 4 * a < 2 ^ 31 -> (Z.to_nat (4 * a) + 1 < fuel)%nat ->
  tot (backoff.backoff_delay fuel tid j) m (fun r m' =>
    r = 0 /\ backoff_at (if 4 * a <=? nt then 4 * a else a) nt m').
Proof.
  intros HB Ha Hb Hf. pose proof HB as (H1 & H2 & H3 & H4). unfold backoff.backoff_delay. psteps.
  rewrite Z.shiftl_mul_pow2 by lia. change (2 ^ 2) with 4. rewrite i32_small by lia.
  replace (a * 4) with (4 * a) by lia. pose proof (backoff_upd a (4 * a) nt m HB) as HB1.
  set (m1 := upd m _ _) in *. clearbody m1. clear m HB H1 H2 H3.
  set (a' := if 4 * a <=? nt then 4 * a else a).
  assert (Ha' : 0 < a' <= 4 * a) by (unfold a'; destruct (4 * a <=? nt); lia).
  apply (tot_mono _ _ (fun _ m' => backoff_at a' nt m')).
  { eapply (tot_loop (fun k _ m' => k = 1%nat /\ backoff_at (4 * a) nt m' \/
      k = 0%nat /\ backoff_at a' nt m' /\ a' <= nt)) with (n := 1%nat); [|lia|left; auto].
    intros k [] m2 [(-> & HB2)|(-> & HB2 & Hle)]; pose proof HB2 as (G1 & G2 & G3 & _); psteps.
    - unfold a' in *. destruct (Z.leb_spec (4 * a) nt) as [Hle|Hgt].
      + replace (nt <? 4 * a) with false by (symmetry; apply Z.ltb_ge; lia). by apply tot_ret.
      + replace (nt <? 4 * a) with true by (symmetry; apply Z.ltb_lt; lia). psteps. exists 0%nat. split; [lia|].
        right. split; [done|]. rewrite Z.shiftr_div_pow2 by lia. change (2 ^ 2) with 4.
        rewrite (Z.mul_comm 4 a), Z.div_mul by lia. split; [by eapply backoff_upd|lia].
    - replace (nt <? a') with false by (symmetry; apply Z.ltb_ge; lia). by apply tot_ret. }
  intros [] m2 HB2. pose proof HB2 as (G1 & G2 & G3 & _). apply tot_bind.
  apply (tot_mono _ _ (fun r m' => r = 0 /\ m' = m2)).
  { eapply (tot_loop (fun k '(i, j) m' => m' = m2 /\ i = a' - Z.of_nat k /\ 0 <= i /\ (0 < i -> j = 0)))
      with (n := Z.to_nat a'); [|lia|split_and!; lia || auto].
    intros k [i j'] m3 (-> & Hi & Hi0 & Hj). psteps. destruct (Z.ltb_spec i a') as [Hlt|Hge].
    - apply tot_ret. exists (pred k). split; [lia|]. split_and!; auto; try lia. intros _.
      destruct (Z.eq_dec i 0) as [->|]; [by rewrite Z.mul_0_r|]. rewrite Hj by lia. done.
    - apply tot_ret. split; [|done]. apply Hj. lia. }
  intros r m3 [-> ->]. psteps. replace (0 =? a') with false by (symmetry; apply Z.eqb_neq; lia).
  apply tot_ret. auto.
Qed.
End backoff_proofs.
