(* ===== verification/BenchProgram.v ===== *)
(** * The benchmark program, from its command line to its counters

    The set-up and the test loop of test_list.c composed as main.c composes
    them for one worker, the command lines that make the test loop divide by
    zero, and the delays of backoff.c. *)
From S2P Require Export Bench.
Import random String.StringSyntax.
#[local] Delimit Scope string_scope with string.

Section one_worker.
Context `{HM : Malloc, HMR : !MallocRoom}.
Existing Instances allocator_malloc.ops ebr.ops ebr.epochs ebr_laws ebr_room.
Variable fuel : nat.
Implicit Types (m : mem).

(** [rounds] calls of the test loop by worker 0, after the set-up. *)
Definition bench_program (argv : list String.string) (seed : Z) (rounds : nat) : prog mem unit :=
  test_list.setup_test (HLO := lf_list_ops) fuel 0 argv ;;
  sRandom 0 seed ;;
  forz rounds 0 (fun _ => test_list.testloop_body (HLO := lf_list_ops) fuel 0).

(** The worker between two calls of the test loop, after [ops] operations, with
    the generator at [s] and the keys [X] in the list. *)
Definition worker_at (c k : nat) (l nk nu ops s : Z) (X : gset Z) m : Prop :=
  bench_at (HS := lf_set_laws) 0 c l nk s X m /\ mroom k m /\
  get m (bench_vars 0, T_OPS) = Some ops /\
  get m (PARAMS, P_N_UPDATE) = Some nu /\ get m (PARAMS, P_GLOBAL_DS) = Some l.

Lemma worker_round c k l nk nu ops s X m :
  worker_at c (100 + k) l nk nu ops s X m -> (c + 100 <= fuel)%nat ->
  tot (test_list.testloop_body (HLO := lf_list_ops) fuel 0) m (fun _ m' =>
    worker_at (c + 100) k l nk nu (u64 (ops + 100)) (draws 100 s) (bench_keys (u8 (100 - nu)) nk s X 100) m').
Proof.
  intros (HB & Hr & Ho & Hu & Hl) Hf.
  eapply tot_mono; [by apply (testloop_spec fuel 0 ltac:(lia) c l nk s X m k nu ops)|].
  intros [] m' (HX & Hr' & Ho' & Hp). unfold worker_at.
  split_and!; auto; by rewrite (get_lookup_eq m m') by exact Hp.
Qed.

Lemma u64_step (i : nat) : u64 (u64 (100 * Z.of_nat i) + 100) = u64 (100 * Z.of_nat (S i)).
Proof. unfold u64. rewrite Zplus_mod_idemp_l. f_equal. lia. Qed.

Lemma worker_rounds rounds c k l nk nu s X m :
  worker_at c (100 * rounds + k) l nk nu 0 s X m -> (c + 100 * rounds <= fuel)%nat ->
  tot (forz rounds 0 (fun _ => test_list.testloop_body (HLO := lf_list_ops) fuel 0)) m (fun _ m' =>
    worker_at (c + 100 * rounds) k l nk nu (u64 (100 * Z.of_nat rounds)) (draws (100 * rounds) s)
      (bench_keys (u8 (100 - nu)) nk s X (100 * rounds)) m').
Proof.
  intros Hw Hf. set (ns := u8 (100 - nu)).
  eapply tot_mono; [apply (tot_forz (fun i m' =>
    worker_at (c + 100 * i) (100 * (rounds - i) + k) l nk nu (u64 (100 * Z.of_nat i)) (draws (100 * i) s)
      (bench_keys ns nk s X (100 * i)) m'))|].
  - intros i m1 Hi H1. rewrite <- u64_step. replace (c + 100 * S i)%nat with (c + 100 * i + 100)%nat by lia.
    replace (100 * S i)%nat with (100 * i + 100)%nat by lia. rewrite draws_add, bench_keys_add.
    apply worker_round; [|lia]. by replace (100 + (100 * (rounds - S i) + k))%nat with (100 * (rounds - i) + k)%nat by lia.
  - by rewrite !Nat.mul_0_r, Nat.add_0_r, Nat.sub_0_r.
  - intros [] m' H1. by rewrite Nat.sub_diag in H1.
Qed.

Lemma below_evens n : 0 <= n -> below (2 * n) (evens (Z.to_nat n)).
Proof.
  intros Hn k Hk. unfold evens in Hk. rewrite elem_of_list_to_set, list_elem_of_fmap in Hk.
  destruct Hk as (i & -> & Hi). apply elem_of_seq in Hi. lia.
Qed.

Lemma setup_worker ms upd_ n nthreads prog_ seed m k :
  storage MAX_THREADS m -> is_struct m PARAMS sizeof_params -> is_struct m (bench_vars 0) 16 ->
  get m (bench_vars 0, T_OPS) = Some 0 -> 0 < atoi n -> 2 * atoi n < M32 -> 0 <= seed < M32 ->
  (S (Z.to_nat (atoi n)) < fuel)%nat -> mroom (2 + Z.to_nat (atoi n) + k) m ->
  tot (test_list.setup_test (HLO := lf_list_ops) fuel 0 [prog_; ms; upd_; n; nthreads] ;; sRandom 0 seed) m
    (fun _ m' => exists l, worker_at (S (Z.to_nat (atoi n))) k l (2 * atoi n) (u8 (atoi upd_)) 0 seed
      (evens (Z.to_nat (atoi n))) m').
Proof.
  intros Hs Hp Hv Ho Hn Hb Hsd Hf Hr. apply tot_bind.
  eapply tot_mono; [apply (setup_list_spec fuel ms upd_ n nthreads prog_ m k); auto|].
  { by eapply is_struct_live. }
  { apply u32_small. unfold M32 in *. lia. }
  intros [] m1 ((l & Hl & Hd) & Hr1 & Hk & Hu & Hp1 & Hv1).
  assert (HV : is_struct m1 (bench_vars 0) 16) by (by eapply is_struct_lookup).
  assert (Ho1 : get m1 (bench_vars 0, T_OPS) = Some 0) by (by rewrite (get_lookup_eq m m1)).
  assert (Hne : PARAMS <> bench_vars 0) by done. destruct (bench_mine 0) as [B1 B2].
  unfold sRandom. psteps. exists l. unfold worker_at. split_and!; try (by apply mroom_upd).
  - split.
    + by apply (sets_client_upd (HS := lf_set_laws)).
    + by apply is_struct_upd.
    + rewrite get_upd_ne by congruence. split; [done|unfold M32 in *; lia].
    + by apply is_struct_upd.
    + split; [mget|done].
    + apply below_evens. lia.
  - mget.
  - rewrite get_upd_ne by congruence. done.
  - rewrite get_upd_ne by congruence. done.
Qed.
End one_worker.

Lemma testloop_zero `{HLO : ListOps} fuel tid seed m :
  get m (PARAMS, P_N_KEYS) = Some 0 -> is_Some (get m (PARAMS, P_N_UPDATE)) ->
  is_Some (get m (PARAMS, P_GLOBAL_DS)) -> seed_of tid m seed -> 0 <= seed < M32 ->
  PARAMS <> bench_vars tid -> run (test_list.testloop_body fuel tid) m = Err EArith.
Proof.
  intros Hk [u Hu] [l Hl] Hs Hr Hne. unfold test_list.testloop_body.
  apply run_bind_tot. psteps. apply run_bind_tot. psteps. apply run_bind_err.
  change 100%nat with (S 99). cbn [forz]. apply run_bind_err. unfold test_list.test_op. apply run_bind_tot.
  eapply tot_mono; [apply (Random_run tid m seed Hs Hr)|]. intros r m' [-> ->].
  apply run_bind_tot. eapply tot_load; [rewrite get_upd_ne by congruence; exact Hk|]. done.
Qed.

(** * The claims *)

(** C28: the program list_lf_ebr run by one worker: from the static storage,
    with a command line that asks for [n] elements ([n] > 0, or every remainder
    by [n_keys] is a division by zero), it sets the list up with the even
    numbers below [2 * n] and calls the test loop [rounds] times without an
    error; it has then done exactly the operations that the first
    [100 * rounds] numbers of the generator stand for, in their order (the list
    holds the keys they leave and the seed is the last of those numbers), and
    the counter holds their number. *)
Theorem bench_program_correct `{HM : Malloc, HMR : !MallocRoom} (fuel rounds k : nat)
    (prog_ ms upd_ n nthreads : String.string) (seed : Z) (m : mem) :
  storage MAX_THREADS m -> is_struct m PARAMS sizeof_params -> is_struct m (bench_vars 0) 16 ->
  get m (bench_vars 0, T_OPS) = Some 0 -> 0 < atoi n -> 2 * atoi n < M32 -> 0 <= seed < M32 ->
  (S (Z.to_nat (atoi n)) + 100 * rounds < fuel)%nat -> mroom (2 + Z.to_nat (atoi n) + (100 * rounds + k)) m ->
  tot (bench_program fuel [prog_; ms; upd_; n; nthreads] seed rounds) m (fun _ m' => exists l,
    let X := bench_keys (u8 (100 - u8 (atoi upd_))) (2 * atoi n) seed (evens (Z.to_nat (atoi n))) (100 * rounds) in
    get m' (PARAMS, P_GLOBAL_DS) = Some l /\
    lf_sets (HRL := ebr_laws) 0 (S (Z.to_nat (atoi n)) + 100 * rounds) [(l, X)] (bench_objs 0) m' /\ below (2 * atoi n) X /\
    get m' (bench_vars 0, T_SEED) = Some (draws (100 * rounds) seed) /\
    get m' (bench_vars 0, T_OPS) = Some (u64 (100 * Z.of_nat rounds))).
Proof.
  intros Hs Hp Hv Ho Hn Hb Hsd Hf Hr. unfold bench_program, tot. rewrite run_bind_assoc. apply tot_bind.
  eapply tot_mono; [by apply (setup_worker fuel ms upd_ n nthreads prog_ seed m (100 * rounds + k)); auto; lia|].
  intros [] m1 (l & Hw). eapply tot_mono; [apply (worker_rounds fuel rounds _ k l _ _ _ _ m1 Hw); lia|].
  intros [] m2 (HB & _ & Ho2 & _ & Hl). exists l. destruct HB as [B1 _ _ _ [B5 _] B6]. auto.
Qed.

Lemma bench_program_correct_witness :
  let argv := ["list_lf_ebr"; "100"; "20"; "3"; "1"]%string in
  tot (bench_program 300 argv 42 2) (static_mem 65) (fun _ m' =>
    get m' (bench_vars 0, T_OPS) = Some 200 /\ get m' (bench_vars 0, T_SEED) = Some (draws 200 42) /\
    exists l, lf_sets (HRL := ebr_laws) 0 204 [(l, bench_keys 80 6 42 (evens 3) 200)] (bench_objs 0) m').
Proof.
  cbv zeta. eapply tot_mono; [apply (bench_program_correct (HMR := bump_room_laws) 300 2 790)|].
  - exact static_storage.
  - split; [done|]. eexists. split; [vm_compute; reflexivity|done].
  - split; [done|]. eexists. split; [vm_compute; reflexivity|done].
  - vm_compute. reflexivity.
  - vm_compute. reflexivity.
  - vm_compute. reflexivity.
  - unfold M32. lia.
  - change (Z.to_nat (atoi "3"%string)) with 3%nat. lia.
  - change (Z.to_nat (atoi "3"%string)) with 3%nat. eapply mroom_mono; [exact static_room|lia].
  - intros [] m' (l & _ & H1 & _ & H2 & H3). split; [exact H3|]. split; [exact H2|]. exists l.
    change (u8 (100 - u8 (atoi "20"%string))) with 80 in H1. change (2 * atoi "3"%string) with 6 in H1.
    change (Z.to_nat (atoi "3"%string)) with 3%nat in H1. exact H1.
Defined.

(** What the operations of that run leave in the list. *)
Example bench_keys_demo : bench_keys 80 6 42 (evens 3) 200 = {[0; 1; 3; 5]}.
Proof. vm_compute. reflexivity. Qed.

(** Asked for a list of no elements the program ends in a division by
    zero: the set-up leaves [n_keys] 0 and the first round of the test loop
    takes a remainder by it. *)
Theorem bench_no_elements `{HM : Malloc, HMR : !MallocRoom} (fuel rounds k : nat)
    (prog_ ms upd_ n nthreads : String.string) (seed : Z) (m : mem) :
  storage MAX_THREADS m -> is_struct m PARAMS sizeof_params -> is_struct m (bench_vars 0) 16 ->
  atoi n = 0 -> 0 <= seed < M32 -> (1 < fuel)%nat -> mroom (2 + k) m ->
  run (bench_program fuel [prog_; ms; upd_; n; nthreads] seed (S rounds)) m = Err EArith.
Proof.
  intros Hs Hp Hv Hn Hsd Hf Hr. apply run_bind_tot.
  eapply tot_mono; [apply (setup_list_spec fuel ms upd_ n nthreads prog_ m k); rewrite ?Hn; eauto using is_struct_live; done|].
  intros [] m1 ((l & _ & Hl) & _ & Hk & Hu & _ & Hv1). rewrite Hn in Hk.
  assert (HV : is_struct m1 (bench_vars 0) 16) by (by eapply is_struct_lookup).
  clear Hs Hp Hv Hr Hv1. apply run_bind_tot. unfold sRandom. psteps. apply run_bind_err, testloop_zero with seed.
  - rewrite get_upd_ne by done. exact Hk.
  - rewrite get_upd_ne by done. eauto.
  - rewrite get_upd_ne by done. eauto.
  - split; [mget|]. eapply is_struct_inb; [by apply is_struct_upd|lia].
  - done.
  - done.
Qed.

Lemma bench_no_elements_witness :
  run (bench_program 9 ["list_lf_ebr"; "100"; "20"; "0"; "1"]%string 42 1) (static_mem 65) = Err EArith.
Proof.
  apply (bench_no_elements (HMR := bump_room_laws) 9 0 790).
  - exact static_storage.
  - split; [done|]. eexists. split; [vm_compute; reflexivity|done].
  - split; [done|]. eexists. split; [vm_compute; reflexivity|done].
  - reflexivity.
  - unfold M32. lia.
  - lia.
  - eapply mroom_mono; [exact static_room|lia].
Defined.

(** Calls of backoff.c: a reset, or a delay on whose entry the uninitialised
    variable of [backoff_delay] holds [j]. *)
Inductive backoff_call := Reset_amount | Delay (j : Z).

Definition backoff_step (fuel : nat) (tid : Z) (c : backoff_call) : prog mem unit :=
  match c with
  | Reset_amount => backoff.backoff_reset tid
  | Delay j => _ <- backoff.backoff_delay fuel tid j ;; Ret tt
  end.

Fixpoint backoff_calls (fuel : nat) (tid : Z) (cs : list backoff_call) : prog mem unit :=
  match cs with
  | [] => Ret tt
  | c :: cs' => backoff_step fuel tid c ;; backoff_calls fuel tid cs'
  end.

(** Whatever sequence of [backoff_reset] and [backoff_delay] a thread calls
    and whatever the uninitialised variable holds, the calls terminate and the
    amount stays between 1 and the number of threads, without overflow. *)
Theorem backoff_bounds (fuel : nat) (tid nt a : Z) (cs : list backoff_call) (m : mem) :
  backoff_at tid a nt m -> 0 < a <= nt -> 4 * nt < 2 ^ 31 -> (Z.to_nat (4 * nt) + 1 < fuel)%nat ->
  tot (backoff_calls fuel tid cs) m (fun _ m' => exists a', backoff_at tid a' nt m' /\ 0 < a' <= nt).
Proof.
  intros HB Ha Hn Hf. revert a m HB Ha. induction cs as [|[|j] cs IH]; intros a m HB Ha; simpl.
  - apply tot_ret. eauto.
  - apply tot_bind. eapply tot_mono; [apply (backoff_reset_spec tid a nt m HB); lia|].
    intros [] m' HB'. apply (IH _ _ HB'). pose proof (Z.div_le_upper_bound a 4 a). lia.
  - do 2 apply tot_bind. eapply tot_mono; [apply (backoff_delay_spec fuel tid a nt j m HB); lia|].
    intros r m' [_ HB']. apply tot_ret. apply (IH _ _ HB'). destruct (Z.leb_spec (4 * a) nt); lia.
Qed.

Definition backoff_demo (a nt : Z) : mem :=
  upd (upd (static_mem 1) (this_thread 0, T_BACKOFF) a) (GLOBALS, G_N_THREADS) nt.

Lemma backoff_bounds_witness :
  tot (backoff_calls 100 0 [Delay 3; Reset_amount; Delay 0; Delay 5]) (backoff_demo 1 20)
    (fun _ m' => exists a', backoff_at 0 a' 20 m' /\ 0 < a' <= 20).
Proof. apply (backoff_bounds 100 0 20 1); [by vm_compute|lia|lia|lia]. Defined.

(** A reset divides the amount by four and a delay multiplies it by four,
    so that the delay after a reset waits as long as the one before it, where
    the comments of backoff.c announce half of it. *)
Theorem backoff_cycle (fuel : nat) (tid nt a j : Z) (m : mem) :
  backoff_at tid a nt m -> 0 < a <= nt -> (4 | a) -> a < 2 ^ 31 -> (Z.to_nat a + 1 < fuel)%nat ->
  tot (backoff.backoff_reset tid ;; backoff.backoff_delay fuel tid j) m
    (fun r m' => r = 0 /\ backoff_at tid a nt m').
Proof.
  intros HB Ha [b ->] Hn Hf. apply tot_bind.
  eapply tot_mono; [apply (backoff_reset_spec tid (b * 4) nt m HB); lia|].
  rewrite Z.div_mul, Z.max_r by lia. intros [] m' HB'.
  eapply tot_mono; [apply (backoff_delay_spec fuel tid b nt j m' HB'); lia|].
  intros r m2 [-> H2]. replace (4 * b <=? nt) with true in H2 by (symmetry; apply Z.leb_le; lia).
  split; [done|]. by replace (b * 4) with (4 * b) by lia.
Qed.

Lemma backoff_cycle_witness :
  tot (backoff.backoff_reset 0 ;; backoff.backoff_delay 100 0 7) (backoff_demo 16 20)
    (fun r m' => r = 0 /\ backoff_at 0 16 20 m').
Proof. apply (backoff_cycle 100 0 20 16 7); [by vm_compute|lia|by exists 4|lia|lia]. Defined.
