(* ===== verification/LfrcQueue.v ===== *)
(** * The queue with reference counts, run by one thread (lfrc.c,
      queue_lf_lfrc.c)

    The reference count of every node is exactly twice the number of pointers
    to it (from [head], from [tail], from the [next] of a node in the queue),
    a node is returned to the free list when the last one goes, and the free
    list and the queue together keep the nodes they have. *)
From S2P Require Export Lfrc QueueProgram.
Import lfrc.

(** The client of the program: the operations of one thread in order. *)
Section lfrc_client.
Context `{HM : Malloc}.
Variables (fuel : nat) (q : Z).

Definition lfrc_op (o : queue_op) : prog mem Z :=
  match o with
  | Enqueue k => queue_lf_lfrc.enqueue fuel q k ;; Ret 0
  | Dequeue => queue_lf_lfrc.dequeue fuel q
  end.

Fixpoint lfrc_client (os : list queue_op) : prog mem (list Z) :=
  match os with
  | [] => Ret []
  | o :: os' => r <- lfrc_op o ;; rs <- lfrc_client os' ;; Ret (r :: rs)
  end.
End lfrc_client.

Definition lfrc_start `{Malloc} (fuel : nat) : prog mem Z :=
  init_allocator fuel ;; mr_init ;; queue_lf_lfrc.queue_init fuel.

(** A FIFO queue of at most [cap] keys; [None] where a key would not fit. *)
Definition bounded_step (cap : Z) (o : queue_op) (c : list Z) : option (Z * list Z) :=
  match o with
  | Enqueue k => if Z.of_nat (length c) <? cap then Some (fifo_step o c) else None
  | Dequeue => Some (fifo_step o c)
  end.

Fixpoint bounded_steps (cap : Z) (os : list queue_op) (c : list Z) : option (list Z * list Z) :=
  match os with
  | [] => Some ([], c)
  | o :: os' => '(r, c1) ← bounded_step cap o c; '(rs, c2) ← bounded_steps cap os' c1; Some (r :: rs, c2)
  end.

(** * Proofs *)

Section lfrc_steps.
Context `{HM : Malloc}.
Variable fuel : nat.
Implicit Types (m : mem).

Lemma is_node_even m p : is_node m p -> Z.land p (-2) = p.
Proof. intros (_ & He & _). by apply land_m2_even. Qed.

Lemma is_node_eqb m p : is_node m p -> (p =? NULL) = false.
Proof. intros H. apply Z.eqb_neq. by eapply is_node_nonnull. Qed.

(** ** The primitives of lfrc.c *)
Lemma safe_read_null m l (Q : Z -> mem -> Prop) : (0 < fuel)%nat ->
  get m l = Some NULL -> Q NULL m -> tot (safe_read fuel l) m Q.
Proof.
  intros Hf Hl HQ. unfold safe_read. apply tot_loop_exit; [done|]. apply tot_bind. eapply tot_load; [exact Hl|].
  by apply tot_ret.
Qed.

Lemma safe_read_node m l p c (Q : Z -> mem -> Prop) : (0 < fuel)%nat ->
  get m l = Some p -> is_node m p -> get m (p, REFCNT) = Some c -> l <> (p, REFCNT) -> 0 <= c < 2 ^ 63 ->
  Q p (upd m (p, REFCNT) (c + 2)) -> tot (safe_read fuel l) m Q.
Proof.
  intros Hf Hl Hp Hc Hne Hb HQ. unfold safe_read. apply tot_loop_exit; [done|]. apply tot_bind.
  eapply tot_load; [exact Hl|]. cbv zeta. rewrite (is_node_even m p Hp), (is_node_eqb m p Hp).
  apply tot_bind. eapply tot_rmw; [exact Hc|]. rewrite u64_small by (unfold M64; lia). psteps.
  eapply tot_load; [rewrite get_upd_ne by congruence; exact Hl|]. rewrite Z.eqb_refl. by apply tot_ret.
Qed.

(** More references remain. *)
Lemma dec_live depth m p c (Q : unit -> mem -> Prop) : (0 < fuel)%nat ->
  is_node m p -> get m (p, REFCNT) = Some c -> 2 < c < 2 ^ 63 ->
  Q tt (upd m (p, REFCNT) (c - 2)) -> tot (refcnt_dec fuel (S depth) p) m Q.
Proof.
  intros Hf Hp Hc Hb HQ. cbn [refcnt_dec]. cbv zeta. rewrite (is_node_even m p Hp), (is_node_eqb m p Hp).
  apply tot_bind. apply tot_ret. apply tot_bind. unfold decrement_and_TAS. apply tot_loop_exit; [done|].
  apply tot_bind. eapply tot_load; [exact Hc|]. cbv zeta. rewrite (u64_small (c - 2)) by (unfold M64; lia).
  replace (c - 2 =? 0) with false by (symmetry; apply Z.eqb_neq; lia).
  apply tot_bind. eapply tot_CAS_true; [exact Hc|]. apply tot_ret.
  replace (c - (c - 2)) with 2 by lia. by apply tot_ret.
Qed.

Lemma lfrc_dec_live m p c (Q : unit -> mem -> Prop) : (0 < fuel)%nat ->
  is_node m p -> get m (p, REFCNT) = Some c -> 2 < c < 2 ^ 63 ->
  Q tt (upd m (p, REFCNT) (c - 2)) -> tot (lfrc_refcnt_dec fuel p) m Q.
Proof.
  intros Hf. unfold lfrc_refcnt_dec. destruct fuel as [|d] eqn:E; [lia|]. rewrite <- E in *. rewrite E at 2.
  by apply dec_live.
Qed.

(** The last reference goes: the node releases its successor and is free. *)
Lemma dec_last m p n c f (Q : unit -> mem -> Prop) : (1 < fuel)%nat ->
  is_node m p -> get m (p, REFCNT) = Some 2 -> get m (p, NEXT) = Some n -> is_node m n -> n <> p ->
  get m (n, REFCNT) = Some c -> 2 < c < 2 ^ 63 -> get m (GLOBALS, G_FREELIST) = Some f -> p <> GLOBALS -> n <> GLOBALS ->
  (forall m', (forall b, b <> p -> b <> n -> b <> GLOBALS -> m' !! b = m !! b) ->
     get m' (p, REFCNT) = Some 1 -> get m' (p, MR_NEXT) = Some f -> get m' (n, REFCNT) = Some (c - 2) ->
     (forall off, off <> REFCNT -> get m' (n, off) = get m (n, off)) ->
     get m' (GLOBALS, G_FREELIST) = Some p ->
     (forall off, off <> G_FREELIST -> get m' (GLOBALS, off) = get m (GLOBALS, off)) ->
     (forall b, is_node m b -> is_node m' b) -> (forall l, inb m' l = inb m l) -> Q tt m') ->
  tot (lfrc_refcnt_dec fuel p) m Q.
Proof.
  intros Hf Hp Hc Hn Hnn Hne Hcn Hb Hg Hpg Hng HQ. unfold lfrc_refcnt_dec. destruct fuel as [|[|d]] eqn:Ef; [lia|lia|].
  rewrite <- Ef in *. rewrite Ef at 2. cbn [refcnt_dec]. cbv zeta. rewrite (is_node_even m p Hp), (is_node_eqb m p Hp).
  apply tot_bind. apply tot_ret. apply tot_bind. unfold decrement_and_TAS. apply tot_loop_exit; [lia|].
  apply tot_bind. eapply tot_load; [exact Hc|]. cbv zeta. change (u64 (2 - 2)) with 0. cbn [Z.eqb].
  apply tot_bind. eapply tot_CAS_true; [exact Hc|]. apply tot_ret. change (Z.land (u64 (2 - 1)) 1 =? 0) with false.
  cbv iota. psteps. rewrite (is_node_even m n Hnn).
  apply (dec_live d _ n c); [lia|by rewrite !is_node_upd|mget|done|].
  unfold free_node. psteps. apply tot_loop_exit; [lia|]. psteps.
  replace (Z.land p 1 =? 0) with true by (destruct Hp as (_ & He & _); by rewrite land1_even by done).
  cbv iota. psteps. apply tot_bind. eapply tot_CAS_true; [mget|]. apply tot_ret. apply HQ.
  - intros b B1 B2 B3. by rewrite !lookup_upd_ne by (simpl; congruence).
  - mget.
  - mget.
  - mget.
  - intros off Hoff. by rewrite !get_upd_ne by congruence.
  - mget.
  - intros off Hoff. by rewrite !get_upd_ne by congruence.
  - intros b. by rewrite !is_node_upd.
  - intros l. by rewrite !inb_upd.
Qed.

(** [new_node] takes the first node of the free list, with one reference. *)
Lemma lfrc_new_node m p f (Q : Z -> mem -> Prop) : (0 < fuel)%nat ->
  get m (GLOBALS, G_FREELIST) = Some p -> is_node m p -> get m (p, REFCNT) = Some 1 -> get m (p, MR_NEXT) = Some f ->
  p <> GLOBALS -> Q p (upd (upd m (p, REFCNT) 2) (GLOBALS, G_FREELIST) f) -> tot (new_node fuel) m Q.
Proof.
  intros Hf Hg Hp Hc Hn Hne HQ. unfold new_node. apply tot_loop_exit; [done|]. apply tot_bind.
  eapply safe_read_node; [done|exact Hg|exact Hp|exact Hc|congruence|lia|]. rewrite (is_node_eqb m p Hp). psteps.
  eapply tot_CAS_true; [mget|]. apply tot_bind. unfold clear_lowest_bit. apply tot_loop_exit; [done|]. psteps.
  eapply tot_CAS_true; [mget|]. apply tot_ret, tot_ret.
  change (u64 (1 + 2 - 1)) with 2. rewrite (upd_comm _ (GLOBALS, G_FREELIST)), upd_upd by congruence. exact HQ.
Qed.

Lemma lfrc_new_node_empty m : (0 < fuel)%nat -> get m (GLOBALS, G_FREELIST) = Some NULL ->
  run (new_node fuel) m = Err (EExit (-1)).
Proof.
  intros Hf Hg. apply run_loop_err; [done|]. apply run_bind_tot. by apply safe_read_null.
Qed.
End lfrc_steps.

(** ** The queue at rest *)
Section lfrc_queue.
Implicit Types (m : mem) (xs : list (Z * Z)) (fl : list Z).

(** The nodes after the dummy [h], with their keys. *)
Fixpoint links m (h : Z) xs : Prop :=
  match xs with
  | [] => get m (h, NEXT) = Some NULL
  | (p, k) :: xs' => get m (h, NEXT) = Some p /\ get m (p, KEY) = Some k /\ links m p xs'
  end.

Definition last_node (h : Z) xs : Z := List.last (map fst xs) h.

(** Twice the number of pointers to [p]: from [head], from [tail], from [next]. *)
Definition refcount (h : Z) xs (p : Z) : Z :=
  2 * (b2z (p =? h) + b2z (p =? last_node h xs) + b2z (bool_decide (p ∈ map fst xs))).

Record lfrc_at (q h : Z) xs fl m : Prop := {
  la_head : get m (q, Q_HEAD) = Some h;
  la_tail : get m (q, Q_TAIL) = Some (last_node h xs);
  la_links : links m h xs;
  la_count : forall p, p ∈ h :: map fst xs -> get m (p, REFCNT) = Some (refcount h xs p);
  la_free : exists f, get m (GLOBALS, G_FREELIST) = Some f /\ flist MR_NEXT m f fl;
  la_fcount : forall p, p ∈ fl -> get m (p, REFCNT) = Some 1;
  la_nodes : forall p, p ∈ h :: map fst xs -> is_node m p;
  la_nodup : NoDup (q :: GLOBALS :: (h :: map fst xs) ++ fl)
}.

(** The nodes that the queue and the free list have. *)
Definition lfrc_pool (h : Z) xs fl : list Z := (h :: map fst xs) ++ fl.

Lemma links_ext m m' h xs :
  (forall p, p ∈ h :: map fst xs -> get m' (p, NEXT) = get m (p, NEXT) /\ get m' (p, KEY) = get m (p, KEY)) ->
  links m h xs -> links m' h xs.
Proof.
  revert h. induction xs as [|[p k] xs IH]; intros h He; simpl.
  - intros H. by rewrite (proj1 (He h ltac:(left))).
  - intros (H1 & H2 & H3). rewrite (proj1 (He h ltac:(left))), (proj2 (He p ltac:(right; left))).
    split_and!; auto. apply IH; [|done]. intros p' Hp'. apply He. by right.
Qed.

Lemma last_node_snoc h xs p k : last_node h (xs ++ [(p, k)]) = p.
Proof. unfold last_node. rewrite map_app. apply List.last_last. Qed.

Lemma last_node_cons h p k xs : last_node h ((p, k) :: xs) = last_node p xs.
Proof.
  unfold last_node. simpl. destruct (map fst xs) as [|a l] eqn:Em; [done|].
  destruct (exists_last (l := a :: l)) as (l' & b & ->); [done|]. by rewrite !List.last_last.
Qed.

Lemma last_node_in h xs : last_node h xs ∈ h :: map fst xs.
Proof.
  unfold last_node. destruct (map fst xs) as [|p ps] eqn:E; [left|]. right. rewrite <- E.
  destruct (exists_last (l := map fst xs)) as (l' & a & ->); [by rewrite E|].
  rewrite List.last_last. apply elem_of_app. right. left.
Qed.

Lemma elem_of_snoc' (x h p : Z) l : x ∈ h :: l ++ [p] -> x ∈ h :: l \/ x = p.
Proof. rewrite !elem_of_cons, elem_of_app, list_elem_of_singleton. tauto. Qed.

(** A new node at the end. *)
Lemma links_push m m' h xs p k : NoDup (h :: map fst xs) -> links m h xs ->
  (forall x, x ∈ h :: map fst xs -> get m' (x, KEY) = get m (x, KEY) /\
     (x <> last_node h xs -> get m' (x, NEXT) = get m (x, NEXT))) ->
  get m' (last_node h xs, NEXT) = Some p -> get m' (p, KEY) = Some k -> get m' (p, NEXT) = Some NULL ->
  links m' h (xs ++ [(p, k)]).
Proof.
  revert h. induction xs as [|[p' k'] xs IH]; intros h Hnd; simpl; [by intros _ _|].
  intros (H1 & H2 & H3) He Ht Hk Hn. simpl in Hnd. apply NoDup_cons in Hnd as [Hh Hnd]. rewrite last_node_cons in *.
  pose proof (last_node_in p' xs) as Hin. destruct (He h ltac:(left)) as [_ Hhn]. destruct (He p' ltac:(right; left)) as [Hpk _].
  rewrite Hhn, Hpk by (intros E; by rewrite <- E in Hin). split_and!; auto.
  apply IH; auto. intros x Hx. apply He. by right.
Qed.

Lemma links_last m h xs : links m h xs -> get m (last_node h xs, NEXT) = Some NULL.
Proof.
  revert h. induction xs as [|[p k] xs IH]; intros h; [done|]. intros (_ & _ & H). apply IH in H.
  by rewrite last_node_cons.
Qed.

Lemma b2z_range b : 0 <= b2z b <= 1.
Proof. destruct b; simpl; lia. Qed.

Lemma refcount_last h xs : 4 <= refcount h xs (last_node h xs) <= 6.
Proof.
  unfold refcount. rewrite Z.eqb_refl. pose proof (last_node_in h xs) as Hin.
  pose proof (b2z_range (last_node h xs =? h)). pose proof (b2z_range (bool_decide (last_node h xs ∈ map fst xs))).
  apply elem_of_cons in Hin as [E|Hin].
  - rewrite (proj2 (Z.eqb_eq _ _) E) in *. simpl b2z in *. lia.
  - rewrite (bool_decide_eq_true_2 _ Hin) in *. simpl b2z in *. lia.
Qed.

(** The counts after a node was added at the end. *)
Lemma refcount_snoc h xs p k x : p <> x ->
  refcount h (xs ++ [(p, k)]) x = if x =? last_node h xs then refcount h xs x - 2 else refcount h xs x.
Proof.
  intros Hne. unfold refcount. rewrite last_node_snoc, map_app. simpl.
  replace (x =? p) with false by (symmetry; apply Z.eqb_neq; congruence).
  replace (bool_decide (x ∈ map fst xs ++ [p])) with (bool_decide (x ∈ map fst xs))
    by (apply bool_decide_ext; rewrite elem_of_app, list_elem_of_singleton; naive_solver).
  destruct (x =? last_node h xs); simpl b2z; lia.
Qed.

Lemma refcount_new h xs p k : p ∉ h :: map fst xs -> refcount h (xs ++ [(p, k)]) p = 4.
Proof.
  intros Hp. unfold refcount. rewrite last_node_snoc, Z.eqb_refl, map_app. simpl.
  replace (p =? h) with false by (symmetry; apply Z.eqb_neq; intros ->; apply Hp; left).
  rewrite bool_decide_eq_true_2 by set_solver. done.
Qed.

(** Moving [head] to the first node moves the reference of the old dummy's
    [next] to [head]; only the old dummy's count changes. *)
Lemma refcount_tail h p k xs x : NoDup (h :: map fst ((p, k) :: xs)) -> x ∈ p :: map fst xs ->
  refcount p xs x = refcount h ((p, k) :: xs) x.
Proof.
  simpl. intros [Hh [Hp _]%NoDup_cons]%NoDup_cons Hx. unfold refcount. rewrite last_node_cons. simpl.
  assert (x <> h) by (intros ->; done). rewrite (proj2 (Z.eqb_neq x h)) by done.
  rewrite (bool_decide_eq_true_2 (x ∈ p :: _)) by done. destruct (Z.eqb_spec x p) as [->|Hxp].
  - rewrite bool_decide_eq_false_2 by done. simpl b2z. lia.
  - rewrite bool_decide_eq_true_2 by set_solver. simpl b2z. lia.
Qed.

Lemma refcount_dummy h p k xs : NoDup (h :: map fst ((p, k) :: xs)) -> refcount h ((p, k) :: xs) h = 2.
Proof.
  simpl. intros [Hh _]%NoDup_cons. unfold refcount. rewrite last_node_cons, Z.eqb_refl. simpl.
  rewrite bool_decide_eq_false_2 by done. pose proof (last_node_in p xs) as Hin.
  rewrite (proj2 (Z.eqb_neq h _)) by (intros E; rewrite <- E in Hin; done). done.
Qed.

Lemma refcount_bounds h xs x : x ∈ h :: map fst xs -> 2 <= refcount h xs x <= 6.
Proof.
  intros Hx. unfold refcount. pose proof (b2z_range (x =? last_node h xs)).
  pose proof (b2z_range (x =? h)). pose proof (b2z_range (bool_decide (x ∈ map fst xs))).
  apply elem_of_cons in Hx as [->|Hx].
  - rewrite Z.eqb_refl in *. simpl b2z in *. lia.
  - rewrite (bool_decide_eq_true_2 _ Hx) in *. simpl b2z in *. lia.
Qed.
End lfrc_queue.

Section lfrc_ops.
Context `{HM : Malloc}.
Variable fuel : nat.
Implicit Types (m : mem) (xs : list (Z * Z)) (fl : list Z).

(** Nothing outside the queue changes. *)
Definition lfrc_frame (q h : Z) xs fl m m' : Prop :=
  forall b, b ∉ q :: GLOBALS :: lfrc_pool h xs fl -> m' !! b = m !! b.

Lemma frame_ne q h xs fl b x : b ∉ q :: GLOBALS :: lfrc_pool h xs fl ->
  x = q \/ x = GLOBALS \/ x ∈ h :: map fst xs \/ x ∈ fl -> b <> x.
Proof. unfold lfrc_pool. intros Hb Hx ->. apply Hb. rewrite !elem_of_cons, elem_of_app. tauto. Qed.

(** The objects of the queue are apart. *)
Lemma lfrc_apart q h xs fl m : lfrc_at q h xs fl m ->
  q <> GLOBALS /\ NoDup (h :: map fst xs) /\ NoDup fl /\
  (forall x, x ∈ h :: map fst xs -> x <> q /\ x <> GLOBALS /\ x ∉ fl) /\
  (forall x, x ∈ fl -> x <> q /\ x <> GLOBALS /\ x ∉ h :: map fst xs).
Proof.
  intros HA. pose proof (la_nodup _ _ _ _ _ HA) as A8. apply NoDup_cons in A8 as [Hq A8].
  apply NoDup_cons in A8 as [Hg A8]. apply NoDup_app in A8 as (Hnd & Hdis & Hfd).
  rewrite elem_of_cons, elem_of_app in Hq. rewrite elem_of_app in Hg. split; [tauto|]. split; [done|]. split; [done|].
  split; intros x Hx; (split; [intros ->; tauto|]); (split; [intros ->; tauto|]); [by apply Hdis|].
  intros Hx'. by apply (Hdis x).
Qed.

(** A node taken from the free list and linked at the end. *)
Lemma lfrc_at_push q h xs p fl f m m' key : lfrc_at q h xs (p :: fl) m -> get m (p, MR_NEXT) = Some f ->
  flist MR_NEXT m f fl -> get m' (q, Q_HEAD) = Some h -> get m' (q, Q_TAIL) = Some p ->
  get m' (GLOBALS, G_FREELIST) = Some f ->
  get m' (p, KEY) = Some key -> get m' (p, NEXT) = Some NULL -> get m' (p, REFCNT) = Some 4 ->
  get m' (last_node h xs, NEXT) = Some p -> get m' (last_node h xs, KEY) = get m (last_node h xs, KEY) ->
  get m' (last_node h xs, REFCNT) = Some (refcount h xs (last_node h xs) - 2) ->
  (forall x, is_node m x -> is_node m' x) ->
  (forall b, b <> q -> b <> GLOBALS -> b <> p -> b <> last_node h xs -> m' !! b = m !! b) ->
  lfrc_at q h (xs ++ [(p, key)]) fl m'.
Proof.
  intros HA Hpf Hfl Hh Ht Hg Pk Pn Pc Tn Tk Tc HN HO. destruct (lfrc_apart _ _ _ _ _ HA) as (Hqg & Hnd & Hfd & Hx & Hf).
  pose proof HA as [A1 A2 A3 A4 (f0 & A5 & A5') A6 A7 A8]. destruct A5' as (_ & Hpn & _).
  pose proof (last_node_in h xs) as Hin. set (t := last_node h xs) in *. apply NoDup_cons in Hfd as [Hpfl _].
  destruct (Hf p ltac:(left)) as (Hpq & Hpg & Hpx).
  assert (HOx : forall x, x ∈ h :: map fst xs -> x <> t -> m' !! x = m !! x).
  { intros x Hxx Hxt. destruct (Hx x Hxx) as (? & ? & ?). apply HO; auto. intros ->. done. }
  assert (HOf : forall x, x ∈ fl -> m' !! x = m !! x).
  { intros x Hxf. destruct (Hf x ltac:(by right)) as (? & ? & ?). apply HO; auto; intros ->; done. }
  split.
  - done.
  - by rewrite last_node_snoc.
  - eapply links_push; [done|exact A3| |done|done|done]. fold t. intros x Hxx. destruct (decide (x = t)) as [->|Hxt]; [done|].
    split; [|intros _]; by apply get_lookup_eq, HOx.
  - intros x Hxx. rewrite map_app in Hxx. simpl in Hxx. destruct (decide (x = p)) as [->|Hxp].
    + by rewrite refcount_new.
    + rewrite refcount_snoc by done. fold t. apply elem_of_snoc' in Hxx as [Hx'|]; [|done].
      destruct (Z.eqb_spec x t) as [->|Hxt]; [done|]. rewrite <- (A4 x Hx'). by apply get_lookup_eq, HOx.
  - exists f. split; [done|]. eapply flist_objs; [|exact Hfl]. exact HOf.
  - intros x Hxf. rewrite <- (A6 x ltac:(by right)). by apply get_lookup_eq, HOf.
  - intros x Hxx. apply HN. rewrite map_app in Hxx. simpl in Hxx. apply elem_of_snoc' in Hxx as [Hx'|E]; [auto|by rewrite E].
  - rewrite map_app. simpl. rewrite <- app_assoc. exact A8.
Qed.

Lemma lfrc_enqueue_spec q h xs p fl m key : lfrc_at q h xs (p :: fl) m -> (1 < fuel)%nat -> inb m (q, Q_TAIL) = true ->
  tot (queue_lf_lfrc.enqueue fuel q key) m (fun _ m' =>
    lfrc_at q h (xs ++ [(p, key)]) fl m' /\ lfrc_frame q h xs (p :: fl) m m' /\ (forall l, inb m' l = inb m l)).
Proof.
  intros HA Hf Hib. destruct (lfrc_apart _ _ _ _ _ HA) as (Hqg & _ & _ & Hx & Hfx).
  pose proof HA as [A1 A2 A3 A4 (f & A5 & A5') A6 A7 _].
  destruct A5' as (-> & Hpn & f' & Hpf & Hfl). pose proof (last_node_in h xs) as Hin.
  pose proof (fun b => frame_ne q h xs (p :: fl) b) as Hfr.
  set (t := last_node h xs) in *. pose proof (A4 t Hin) as Hct. pose proof (A7 t Hin) as Htn.
  pose proof (refcount_last h xs) as Hcb. fold t in Hcb. set (c := refcount h xs t) in *.
  pose proof (links_last _ _ _ A3) as Htx. fold t in Htx.
  destruct (Hx t Hin) as (Htq & Htg & Htf). destruct (Hfx p ltac:(left)) as (Hpq & Hpg & Hpx).
  assert (Hpt : p <> t) by (intros ->; done).
  unfold queue_lf_lfrc.enqueue. apply tot_bind.
  eapply lfrc_new_node; [lia|exact A5|exact Hpn|apply A6; left|exact Hpf|exact Hpg|].
  apply tot_bind. apply tot_loop_exit; [lia|]. rewrite (is_node_eqb m p Hpn). apply tot_ret.
  unfold lfrc_refcnt_inc. rewrite (is_node_eqb m p Hpn). psteps. change (u64 (2 + 2)) with 4.
  apply tot_loop_exit; [lia|]. apply tot_bind.
  eapply (safe_read_node fuel _ _ t c); [lia|mget|by rewrite !is_node_upd|mget|congruence|lia|]. psteps.
  rewrite Z.eqb_refl. cbn [negb Z.eqb]. psteps.
  eapply tot_CAS_true; [mget|]. apply tot_ret. apply tot_bind. eapply tot_CAS_true; [mget|]. apply tot_bind.
  apply (lfrc_dec_live fuel _ t (c + 2)); [lia|by rewrite !is_node_upd|mget|lia|].
  apply (lfrc_dec_live fuel _ t (c + 2 - 2)); [lia|by rewrite !is_node_upd|mget|lia|].
  replace (c + 2 - 2 - 2) with (c - 2) by lia. split_and!.
  - eapply (lfrc_at_push q h xs p fl f' m); [exact HA|exact Hpf|exact Hfl|..]; fold t; [mget..| |mget| |].
    + by rewrite !get_upd_ne by congruence.
    + intros x. by rewrite !is_node_upd.
    + intros b B1 B2 B3 B4. by rewrite !lookup_upd_ne by (simpl; congruence).
  - intros b Hb. assert (Hp : p ∈ p :: fl) by left. rewrite !lookup_upd_ne by (simpl; apply (Hfr b _ Hb); auto). done.
  - intros l. by rewrite !inb_upd.
Qed.

Lemma lfrc_dequeue_empty q h fl m : lfrc_at q h [] fl m -> (1 < fuel)%nat ->
  tot (queue_lf_lfrc.dequeue fuel q) m (fun r m' => r = -1 /\ m' = m).
Proof.
  intros [A1 A2 A3 A4 _ _ A7 A8] Hf. pose proof (A4 h ltac:(left)) as Hc. pose proof (A7 h ltac:(left)) as Hn.
  unfold refcount, last_node in *. simpl in A2, A3, Hc. rewrite Z.eqb_refl in Hc. simpl in Hc.
  apply NoDup_cons in A8 as [Hq _]. assert (Hhq : h <> q) by (intros ->; apply Hq; right; left).
  unfold queue_lf_lfrc.dequeue. apply tot_bind, tot_loop_exit; [lia|]. apply tot_bind.
  eapply (safe_read_node fuel _ _ h 4); [lia|mget|done|mget|congruence|lia|]. apply tot_bind.
  eapply (safe_read_node fuel _ _ h (4 + 2)); [lia|mget|by rewrite !is_node_upd|mget|congruence|lia|]. apply tot_bind.
  eapply safe_read_null; [lia|mget|]. psteps. rewrite Z.eqb_refl. cbn [negb Z.eqb]. apply tot_bind.
  replace (lfrc_refcnt_dec fuel NULL) with (@Ret mem unit tt) by (unfold lfrc_refcnt_dec; destruct fuel; [lia|done]).
  apply tot_ret. apply tot_bind. eapply lfrc_dec_live; [lia|by rewrite !is_node_upd|mget|lia|]. apply tot_bind.
  eapply lfrc_dec_live; [lia|by rewrite !is_node_upd|mget|lia|]. apply tot_ret, tot_ret. split; [done|].
  rewrite !upd_upd. by apply upd_same.
Qed.

(** The first node becomes the dummy, and the old one is free. *)
Lemma lfrc_at_pop q h p k xs fl f m m' : lfrc_at q h ((p, k) :: xs) fl m ->
  get m (GLOBALS, G_FREELIST) = Some f -> flist MR_NEXT m f fl ->
  get m' (q, Q_HEAD) = Some p -> get m' (q, Q_TAIL) = Some (last_node p xs) ->
  get m' (GLOBALS, G_FREELIST) = Some h -> get m' (h, MR_NEXT) = Some f -> get m' (h, REFCNT) = Some 1 ->
  (forall x, is_node m x -> is_node m' x) ->
  (forall x off, x ∈ p :: map fst xs -> get m' (x, off) = get m (x, off)) ->
  (forall b, b ∉ q :: GLOBALS :: h :: p :: map fst xs -> m' !! b = m !! b) ->
  lfrc_at q p xs (h :: fl) m'.
Proof.
  intros HA Hg Hfl Qh Qt Gf Hm Hc HN HX HO. destruct (lfrc_apart _ _ _ _ _ HA) as (Hqg & Hnd & Hfd & Hx & Hf).
  pose proof HA as [A1 A2 A3 A4 _ A6 A7 A8]. destruct A3 as (_ & _ & A3).
  assert (HOf : forall x, x ∈ fl -> m' !! x = m !! x).
  { intros x Hxf. destruct (Hf x Hxf) as (? & ? & ?). apply HO. by rewrite not_elem_of_cons, not_elem_of_cons. }
  split.
  - done.
  - done.
  - apply (links_ext m); [|done]. intros x Hxx. split; by apply HX.
  - intros x Hxx. rewrite (refcount_tail h p k), HX by done. apply A4. by right.
  - exists h. split; [done|]. split; [done|]. split; [apply HN, A7; left|]. exists f. split; [done|].
    eapply flist_objs; [|exact Hfl]. exact HOf.
  - intros x Hxx. apply elem_of_cons in Hxx as [->|Hxx]; [done|]. rewrite <- (A6 x Hxx). by apply get_lookup_eq, HOf.
  - intros x Hxx. apply HN, A7. by right.
  - rewrite <- (Permutation_middle (p :: map fst xs)). exact A8.
Qed.

(** The two last releases of [dequeue]: the old dummy goes, and [t] keeps the
    references of the queue; [p] is the node after it. *)
Lemma lfrc_release_both m h p t f cp ct (data : Z) (Q : Z -> mem -> Prop) : (1 < fuel)%nat ->
  is_node m h -> is_node m p -> is_node m t -> h <> p -> h <> t -> h <> GLOBALS -> p <> GLOBALS -> t <> GLOBALS ->
  get m (h, REFCNT) = Some 2 -> get m (h, NEXT) = Some p -> get m (GLOBALS, G_FREELIST) = Some f ->
  4 <= cp < 2 ^ 62 -> 2 <= ct < 2 ^ 62 ->
  get m (p, REFCNT) = Some (if decide (p = t) then ct + 4 else cp) -> get m (t, REFCNT) = Some (if decide (p = t) then ct + 4 else ct + 2) ->
  (forall m', (forall b, b <> h -> b <> p -> b <> t -> b <> GLOBALS -> m' !! b = m !! b) ->
     get m' (h, REFCNT) = Some 1 -> get m' (h, MR_NEXT) = Some f -> get m' (GLOBALS, G_FREELIST) = Some h ->
     get m' (t, REFCNT) = Some ct -> (p <> t -> get m' (p, REFCNT) = Some (cp - 2)) ->
     (forall x off, x = p \/ x = t -> off <> REFCNT -> get m' (x, off) = get m (x, off)) ->
     (forall b, is_node m b -> is_node m' b) -> (forall l, inb m' l = inb m l) -> Q data m') ->
  tot (lfrc_refcnt_dec fuel h ;; lfrc_refcnt_dec fuel t ;; Ret data) m Q.
Proof.
  intros Hf Hnh Hnp Hnt Hhp Hht Hhg Hpg Htg Hch Hhn Hg Hcp Hct Hp Ht HQ. apply tot_bind.
  eapply (dec_last fuel m h p _ f); [lia|done|done|done|done|done|exact Hp|case_decide; lia|done|done|done|].
  intros m4 O4 H4 H4' P4 P4' G4 _ N4 I4.
  assert (T4 : get m4 (t, REFCNT) = Some (ct + 2)).
  { case_decide as E; [rewrite <- E, P4; f_equal; lia|]. rewrite <- Ht. apply get_lookup_eq, O4; congruence. }
  apply tot_bind. apply (lfrc_dec_live fuel _ t (ct + 2)); [lia|by apply N4|done|lia|].
  replace (ct + 2 - 2) with ct by lia. apply tot_ret, HQ.
  - intros b B1 B2 B3 B4. rewrite lookup_upd_ne by (simpl; congruence). by apply O4.
  - by rewrite get_upd_ne by congruence.
  - by rewrite get_upd_ne by congruence.
  - by rewrite get_upd_ne by congruence.
  - by rewrite get_upd_eq by mlive.
  - intros E. rewrite get_upd_ne by congruence. rewrite P4, decide_False by done. done.
  - intros x off Hx Hoff. rewrite get_upd_ne by congruence. destruct (decide (x = p)) as [->|E]; [by apply P4'|].
    destruct Hx as [?|Hx]; [done|]. rewrite Hx in *. by apply get_lookup_eq, O4.
  - intros b Hb. by apply is_node_upd, N4.
  - intros l. by rewrite inb_upd, I4.
Qed.

Lemma lfrc_dequeue_spec q h p k xs fl m : lfrc_at q h ((p, k) :: xs) fl m -> (1 < fuel)%nat ->
  inb m (q, Q_HEAD) = true ->
  tot (queue_lf_lfrc.dequeue fuel q) m (fun r m' => r = k /\
    lfrc_at q p xs (h :: fl) m' /\ lfrc_frame q h ((p, k) :: xs) fl m m' /\ (forall l, inb m' l = inb m l)).
Proof.
  intros HA Hf Hib. destruct (lfrc_apart _ _ _ _ _ HA) as (Hqg & Hnd & _ & Hall & _).
  pose proof HA as [A1 A2 (Hhx & Hpk & _) A4 (f & A5 & A5') _ A7 _].
  rewrite last_node_cons in A2. pose proof (last_node_in p xs) as Hin. set (t := last_node p xs) in *.
  assert (Hint : t ∈ h :: map fst ((p, k) :: xs)) by (by right).
  assert (Hinp : p ∈ h :: map fst ((p, k) :: xs)) by (simpl; right; left).
  assert (Hinh : h ∈ h :: map fst ((p, k) :: xs)) by left.
  pose proof (A4 h Hinh) as Hch. rewrite refcount_dummy in Hch by done. pose proof (A4 p Hinp) as Hcp.
  pose proof (A4 t Hint) as Hct. pose proof (refcount_bounds _ _ _ Hinp) as Hcpb. pose proof (refcount_bounds _ _ _ Hint) as Hctb.
  set (ct := refcount h _ t) in *. set (cp := refcount h _ p) in *.
  pose proof (A7 h Hinh) as Hnh. pose proof (A7 p Hinp) as Hnp. pose proof (A7 t Hint) as Hnt.
  destruct (Hall h Hinh) as (Hhq & Hhg & _), (Hall p Hinp) as (Hpq & Hpg & _), (Hall t Hint) as (Htq & Htg & _).
  simpl in Hnd. apply NoDup_cons in Hnd as [Hhx' Hnd].
  assert (Hht : h <> t) by (intros E; rewrite <- E in Hin; done).
  assert (Hhp : h <> p) by (intros ->; apply Hhx'; left).
  unfold queue_lf_lfrc.dequeue. apply tot_bind, tot_loop_exit; [lia|]. apply tot_bind.
  eapply (safe_read_node fuel _ _ h 2); [lia|mget|done|mget|congruence|lia|]. apply tot_bind.
  eapply (safe_read_node fuel _ _ t ct); [lia|mget|by rewrite !is_node_upd|mget|congruence|lia|]. apply tot_bind.
  set (m2 := upd (upd m _ _) _ _).
  assert (Hc1 : get m2 (p, REFCNT) = Some (if decide (p = t) then ct + 2 else cp)).
  { unfold m2. case_decide as E; [rewrite E; mget|by rewrite !get_upd_ne by congruence]. }
  eapply (safe_read_node fuel _ _ p); [lia|unfold m2; mget|unfold m2; by rewrite !is_node_upd|exact Hc1|congruence|case_decide; lia|].
  unfold m2. psteps. rewrite Z.eqb_refl, (is_node_eqb m p Hnp), (proj2 (Z.eqb_neq h t)) by done. cbn [negb]. apply tot_bind.
  eapply tot_load; [rewrite !get_upd_ne by congruence; exact Hpk|].
  apply tot_bind. eapply tot_CAS_true; [mget|]. apply tot_bind.
  eapply (lfrc_dec_live fuel _ h 4); [lia|by rewrite !is_node_upd|by rewrite !get_upd_ne by congruence; rewrite get_upd_eq by mlive|lia|].
  apply tot_ret. fold m2. set (m3 := upd (upd (upd m2 _ _) _ _) _ _).
  assert (F3 : forall x off, x <> q -> off <> REFCNT -> get m3 (x, off) = get m (x, off)).
  { intros x off Hx Hoff. unfold m3, m2. by rewrite !get_upd_ne by congruence. }
  assert (N3 : forall x, is_node m3 x <-> is_node m x) by (intros x; unfold m3, m2; by rewrite !is_node_upd).
  assert (O3 : forall b, b <> q -> b <> h -> b <> t -> b <> p -> m3 !! b = m !! b).
  { intros b B1 B2 B3 B4. unfold m3, m2. by rewrite !lookup_upd_ne by (simpl; congruence). }
  assert (I3 : forall l, inb m3 l = inb m l) by (intros l; unfold m3, m2; by rewrite !inb_upd).
  assert (Q3 : get m3 (q, Q_HEAD) = Some p).
  { unfold m3. rewrite get_upd_ne by congruence. rewrite get_upd_eq; [done|unfold m2; mlive]. }
  assert (Q3' : get m3 (q, Q_TAIL) = Some t) by (unfold m3, m2; by rewrite !get_upd_ne by congruence).
  eapply (lfrc_release_both m3 h p t f (cp + 2) ct); [done|by apply N3..|done|done|done|done|done| |by rewrite F3|by rewrite F3
    |lia|lia| | |].
  - unfold m3. rewrite get_upd_eq; [done|unfold m2; mlive].
  - unfold m3. rewrite !get_upd_ne by congruence. rewrite get_upd_eq by (unfold m2; mlive). case_decide; f_equal; lia.
  - unfold m3. rewrite !(get_upd_ne _ (h, REFCNT)), !(get_upd_ne _ (q, Q_HEAD)) by congruence. case_decide as E.
    + rewrite E, get_upd_eq by (unfold m2; mlive). f_equal. lia.
    + rewrite get_upd_ne by congruence. unfold m2. by rewrite get_upd_eq by mlive.
  - clearbody m3. clear m2 Hc1. intros m' O4 H4 H4' G4 T4 P4 X4 N4 I4. split; [done|]. split_and!.
    + eapply (lfrc_at_pop q h p k xs fl f m); [exact HA|exact A5|exact A5'|..].
      * rewrite <- Q3. by apply get_lookup_eq, O4.
      * fold t. rewrite <- Q3'. by apply get_lookup_eq, O4.
      * done.
      * done.
      * done.
      * intros x Hx. by apply N4, N3.
      * intros x off Hx. assert (x <> h) by (intros ->; done). destruct (Hall x ltac:(by right)) as (X1 & X2 & _).
        destruct (decide (x = t)) as [->|Xt]; [destruct (decide (off = REFCNT)) as [->|]; [congruence|]|].
        { rewrite X4 by auto. by apply F3. }
        destruct (decide (x = p)) as [->|Xp]; [destruct (decide (off = REFCNT)) as [->|]|].
        { rewrite P4, Hcp by done. f_equal. lia. }
        { rewrite X4 by auto. by apply F3. }
        apply get_lookup_eq. rewrite O4 by done. by apply O3.
      * intros b Hb. rewrite !not_elem_of_cons in Hb. destruct Hb as (B1 & B2 & B3 & B4 & B5).
        assert (b <> t) by (intros ->; apply elem_of_cons in Hin; tauto). rewrite O4 by done. by apply O3.
    + intros b Hb. pose proof (frame_ne q h ((p, k) :: xs) fl b) as Hfr.
      rewrite O4 by (apply Hfr; auto). apply O3; apply Hfr; auto.
    + intros l. by rewrite I4, I3.
Qed.
End lfrc_ops.

(** ** The allocator at rest *)
Section lfrc_init.
Context `{HM : Malloc, HMR : !MallocRoom}.
Variable fuel : nat.
Implicit Types (m : mem) (xs : list (Z * Z)) (fl : list Z).

Record lfrc_free fl m : Prop := {
  lf_list : exists f, get m (GLOBALS, G_FREELIST) = Some f /\ flist MR_NEXT m f fl;
  lf_count : forall p, p ∈ fl -> get m (p, REFCNT) = Some 1;
  lf_nodup : NoDup (GLOBALS :: fl)
}.

(** The first [n] nodes of the chunk at [a]. *)
Definition chunk (a : Z) (n : nat) : list Z := map (fun i => a + Z.of_nat i * sizeof_node_t) (seq 0 n).

Lemma chunk_S a n : chunk a (S n) = chunk a n ++ [a + Z.of_nat n * sizeof_node_t].
Proof. unfold chunk. by rewrite seq_S, map_app. Qed.

Lemma elem_of_chunk a n x : x ∈ chunk a n <-> exists i, (i < n)%nat /\ x = a + Z.of_nat i * sizeof_node_t.
Proof.
  unfold chunk. rewrite list_elem_of_In, in_map_iff. setoid_rewrite in_seq. split.
  - intros (i & <- & Hi). exists i. split; [lia|done].
  - intros (i & Hi & ->). exists i. split; [done|lia].
Qed.

(** One node of the chunk goes to the free list. *)
Lemma lfrc_free_node_spec fl m p : lfrc_free fl m -> (0 < fuel)%nat -> is_node m p ->
  get m (p, REFCNT) = Some 1 -> p ∉ GLOBALS :: fl ->
  tot (free_node fuel p) m (fun _ m' => lfrc_free (p :: fl) m' /\
    (forall b, b ∉ [GLOBALS; p] -> m' !! b = m !! b) /\ (forall l, inb m' l = inb m l)).
Proof.
  intros [(f & Hg & Hfl) Hc Hnd] Hf Hp H1 Hn. apply not_elem_of_cons in Hn as [Hpg Hpf].
  apply NoDup_cons in Hnd as [Hgf Hnd]. unfold free_node. psteps. apply tot_loop_exit; [lia|]. psteps.
  replace (Z.land p 1 =? 0) with true by (destruct Hp as (_ & He & _); by rewrite land1_even by done).
  cbn [negb]. psteps. eapply tot_CAS_true; [mget|]. apply tot_ret. split_and!; [split|..].
  - exists p. split; [mget|]. split; [done|]. split; [by rewrite !is_node_upd|]. exists f. split; [mget|].
    eapply flist_objs; [|exact Hfl]. intros x Hx.
    rewrite !lookup_upd_ne by (simpl; intros ->; done). done.
  - intros x Hx. rewrite !get_upd_ne by congruence. apply elem_of_cons in Hx as [->|Hx]; auto.
  - apply NoDup_cons. rewrite not_elem_of_cons, NoDup_cons. auto.
  - intros b Hb. rewrite !not_elem_of_cons in Hb. destruct Hb as (B1 & B2 & _).
    by rewrite !lookup_upd_ne by (simpl; congruence).
  - intros l. by rewrite !inb_upd.
Qed.

(** The last reference to the first node of a chain goes, and with it, one
    after the other, the last reference to every node of it. *)
Lemma refcnt_dec_chain ps depth p fl m : (0 < fuel)%nat -> (length ps < depth)%nat -> lfrc_free fl m ->
  flist NEXT m p ps -> (forall x, x ∈ ps -> get m (x, REFCNT) = Some 2) -> NoDup (GLOBALS :: ps ++ fl) ->
  tot (refcnt_dec fuel depth p) m (fun _ m' => lfrc_free (ps ++ fl) m' /\
    (forall b, b ∉ GLOBALS :: ps -> m' !! b = m !! b)).
Proof.
  intros Hf. revert depth p m. induction ps as [|a ps IH]; intros depth p m Hd HF Hl Hc Hnd;
    (destruct depth as [|d]; [simpl in Hd; lia|]); cbn [refcnt_dec].
  - cbn [flist] in Hl. subst p. by apply tot_ret.
  - destruct Hl as (-> & Hn & nx & Hnx & Hl). simpl in Hd. cbv zeta. rewrite (is_node_even m a Hn), (is_node_eqb m a Hn).
    pose proof (Hc a ltac:(left)) as Hca.
    assert (Hnx2 : Z.land nx (-2) = nx).
    { destruct ps as [|b ps]; [cbn [flist] in Hl; by subst nx|]. destruct Hl as (-> & Hb & _). by apply (is_node_even m). }
    simpl app in Hnd. apply NoDup_cons in Hnd as [Hg Hnd]. apply NoDup_cons in Hnd as [Ha Hnd].
    apply not_elem_of_cons in Hg as [Hga Hg]. rewrite elem_of_app in Ha.
    apply tot_bind. apply tot_ret. apply tot_bind. unfold decrement_and_TAS. apply tot_loop_exit; [lia|].
    apply tot_bind. eapply tot_load; [exact Hca|]. cbv zeta. change (u64 (2 - 2)) with 0. cbn [Z.eqb].
    apply tot_bind. eapply tot_CAS_true; [exact Hca|]. apply tot_ret. change (Z.land (u64 (2 - 1)) 1 =? 0) with false.
    cbv iota. psteps. rewrite Hnx2. set (m1 := upd (upd m (a, REFCNT) 1) (a, NEXT) nx).
    assert (Ho : forall b, b <> a -> m1 !! b = m !! b) by (intros b Hb; unfold m1; by rewrite !lookup_upd_ne).
    eapply tot_mono; [apply IH|].
    + lia.
    + destruct HF as [(f & F1 & F2) F3 F4]. split; [exists f; split|..].
      * rewrite <- F1. by apply get_lookup_eq, Ho.
      * eapply flist_objs; [|exact F2]. intros x Hx. apply Ho. intros ->. tauto.
      * intros x Hx. rewrite <- (F3 x Hx). apply get_lookup_eq, Ho. intros ->. tauto.
      * done.
    + eapply flist_objs; [|exact Hl]. intros x Hx. apply Ho. intros ->. tauto.
    + intros x Hx. rewrite <- (Hc x ltac:(by right)). apply get_lookup_eq, Ho. intros ->. tauto.
    + by apply NoDup_cons.
    + intros [] m2 (F2 & O2). assert (E : m2 !! a = m1 !! a).
      { apply O2. rewrite not_elem_of_cons. split; [done|tauto]. }
      eapply tot_mono; [apply (lfrc_free_node_spec (ps ++ fl))|].
      * done.
      * lia.
      * eapply is_node_lookup; [exact E|]. unfold m1. by rewrite !is_node_upd.
      * rewrite (get_lookup_eq m1 m2) by done. unfold m1. mget.
      * rewrite not_elem_of_cons, elem_of_app. split; [done|tauto].
      * intros [] m3 (F3 & O3 & _). split; [done|]. intros b Hb. rewrite !not_elem_of_cons in Hb. destruct Hb as (B1 & B2 & B3).
        rewrite O3 by (rewrite !not_elem_of_cons; auto using not_elem_of_nil). rewrite O2 by (by rewrite not_elem_of_cons).
        by apply Ho.
Qed.

(** [init_allocator] puts every node of the chunk on the free list. *)
Definition chunk_size (n : Z) : Z := n + 2 * MAX_THREADS * PT_FREELIST_TARGET + MAX_THREADS * 1000.

(** The chunk at [a] when its first [i] nodes are on the free list. *)
Record chunk_at (a : Z) (n i : nat) m0 m : Prop := {
  ca_free : lfrc_free (rev (chunk a i)) m;
  ca_nodes : forall x, x ∈ chunk a n -> is_node m x;
  ca_old : forall b, b ∉ GLOBALS :: chunk a n -> m !! b = m0 !! b;
  ca_inb : forall off, inb m (GLOBALS, off) = inb m0 (GLOBALS, off)
}.

Lemma chunk_step a n i m0 m : (0 < fuel)%nat -> (i < n)%nat -> GLOBALS ∉ chunk a n ->
  chunk_at a n i m0 m ->
  tot (let p := a + Z.of_nat i * sizeof_node_t in
       store (p, KEY) (-1) ;; store (p, NEXT) NULL ;; store (p, MR_NEXT) NULL ;;
       store (p, REFCNT) 1 ;; free_node fuel p) m (fun _ m' => chunk_at a n (S i) m0 m').
Proof.
  intros Hf Hi Hg [[(f & Hf1 & Hf2) Hfc Hfn] Hn Ho Hb]. cbv zeta. set (p := a + _).
  assert (Hpn : p ∈ chunk a n) by (apply elem_of_chunk; by exists i). pose proof (Hn p Hpn) as Hp.
  assert (Hpg : p <> GLOBALS) by (intros E; rewrite E in Hpn; done).
  assert (Hpf : p ∉ rev (chunk a i)).
  { rewrite list_elem_of_In, <- in_rev, <- list_elem_of_In. intros (j & Hj & E)%elem_of_chunk.
    unfold p, sizeof_node_t in E. lia. }
  psteps. eapply tot_mono; [apply (lfrc_free_node_spec (rev (chunk a i)))|].
  - split; [exists f; split; [mget|]|intros x Hx; rewrite !get_upd_ne by congruence; auto|done].
    by repeat (apply flist_upd; [by right|]).
  - done.
  - by rewrite !is_node_upd.
  - mget.
  - by apply not_elem_of_cons.
  - intros _ m' (F & Oe & Ie). split; [by rewrite chunk_S, rev_app_distr|..].
    + intros x Hx. destruct (Hn x Hx) as (R & Ev & o & Hox & Hs).
      destruct (decide (x ∈ [GLOBALS; p])) as [Hx'|Hx'].
      * assert (x = p) as ->. { rewrite !elem_of_cons in Hx'. destruct Hx' as [->|[->|[]%elem_of_nil]]; done. }
        destruct F as [(f' & _ & _ & F & _) _ _]. done.
      * split; [done|]. split; [done|]. exists o. rewrite Oe by done.
        rewrite !lookup_upd_ne by (simpl; intros ->; apply Hx'; right; left). done.
    + intros b Hb'. apply not_elem_of_cons in Hb' as Hb2. destruct Hb2 as [Hbg Hbc].
      assert (b <> p) by (intros ->; done). rewrite Oe by (rewrite !not_elem_of_cons; auto using not_elem_of_nil).
      rewrite !lookup_upd_ne by done. by apply Ho.
    + intros off. by rewrite Ie, !inb_upd.
Qed.

Lemma free_node_keeps k p : keeps (mroom k) (free_node fuel p).
Proof. unfold free_node. keep. Qed.

Lemma lfrc_init_spec k m n : (0 < fuel)%nat -> get m (PARAMS, P_N_ELEMENTS) = Some n -> 0 <= n <= 10 ^ 8 ->
  inb m (GLOBALS, G_FREELIST) = true -> mroom (S k) m ->
  tot (init_allocator fuel) m (fun _ m' => mroom k m' /\ exists a,
    lfrc_free (rev (chunk a (Z.to_nat (chunk_size n)))) m' /\
    (forall off, inb m' (GLOBALS, off) = inb m (GLOBALS, off))).
Proof.
  intros Hf Hn Hb Hg Hr. unfold init_allocator. psteps.
  replace (u32 _) with (chunk_size n) by (unfold chunk_size, MAX_THREADS, PT_FREELIST_TARGET; rewrite u32_small; unfold M32; lia).
  set (N := Z.to_nat (chunk_size n)).
  assert (HN : 0 < Z.of_nat N * sizeof_node_t <= M32)
    by (unfold N, chunk_size, sizeof_node_t, MAX_THREADS, PT_FREELIST_TARGET, M32; lia).
  eapply tot_alloc_array; [apply mroom_upd; exact Hr|done|done|]. intros a A1 A2 A3 Hfr Hr'.
  rewrite (proj2 (Z.eqb_neq a NULL)) by lia.
  assert (Hga : forall x, x ∈ chunk a N -> x <> GLOBALS /\ 0 < x < M64 /\ x mod 2 = 0).
  { intros x (i & Hi & ->)%elem_of_chunk. unfold sizeof_node_t in *. split_and!; [|lia|lia|].
    - intros E. specialize (Hfr (a + Z.of_nat i * 32) ltac:(lia)). rewrite E in Hfr.
      apply inb_live in Hg as [o Ho]. unfold upd in Hfr. simpl in Ho, Hfr. by rewrite lookup_alter_eq, Ho in Hfr.
    - rewrite (Z.div_mod a 16) by lia. rewrite A3. replace (_ + _) with (2 * (8 * (a / 16) + 16 * Z.of_nat i)) by lia.
      by rewrite Z.mul_comm, Z.mod_mul. }
  assert (Hgn : GLOBALS ∉ chunk a N) by (intros Hx; by apply Hga in Hx as []).
  set (m1 := put_array _ _ _ _) in *.
  assert (H0 : forall b, b ∉ chunk a N -> m1 !! b = upd m (GLOBALS, G_FREELIST) NULL !! b).
  { intros b Hb'. apply put_array_old; [done|]. intros i Hi ->. apply Hb'. apply elem_of_chunk. by exists i. }
  eapply tot_mono.
  - apply (tot_keeps (mroom k)); [apply keeps_forz; intros i; do 4 (apply keeps_bind; [auto with room|intros _]);
      apply free_node_keeps|exact Hr'|].
    apply (tot_forz (fun i => chunk_at a N i (upd m (GLOBALS, G_FREELIST) NULL))).
    + intros i s Hi Hs. rewrite Z.add_0_l. by apply chunk_step.
    + split.
      * split; [|intros x []%elem_of_nil|apply NoDup_singleton]. exists NULL. split; [|done].
        rewrite (get_lookup_eq (upd m (GLOBALS, G_FREELIST) NULL)) by (by apply H0). mget.
      * intros x Hx. destruct (Hga x Hx) as (_ & Hx1 & Hx2). split; [done|]. split; [done|].
        apply elem_of_chunk in Hx as (i & Hi & ->). exists (Obj sizeof_node_t ∅). split; [|done].
        by apply (put_array_elem N a (Obj sizeof_node_t ∅)).
      * intros b Hb'. apply not_elem_of_cons in Hb' as [_ Hb']. by apply H0.
      * intros off. unfold inb. simpl. by rewrite H0.
  - intros _ m' [[F1 _ _ F4] Hm']. split; [done|]. exists a. split; [done|]. intros off. by rewrite F4, inb_upd.
Qed.
End lfrc_init.

(** ** The whole program *)
Section lfrc_program.
Context `{HM : Malloc, HMR : !MallocRoom}.
Variable fuel : nat.
Implicit Types (m : mem) (xs : list (Z * Z)) (fl pool : list Z).

(** The queue holds [c]; it and the free list have exactly the nodes [pool]. *)
Definition lfrc_holds (q : Z) pool (c : list Z) m : Prop :=
  exists h xs fl, lfrc_at q h xs fl m /\ map snd xs = c /\ lfrc_pool h xs fl ≡ₚ pool /\
    inb m (q, Q_HEAD) = true /\ inb m (q, Q_TAIL) = true.

Lemma lfrc_queue_init_spec k p fl m : lfrc_free (p :: fl) m -> (0 < fuel)%nat -> mroom (S k) m ->
  tot (queue_lf_lfrc.queue_init fuel) m (fun q m' => lfrc_holds q (p :: fl) [] m').
Proof.
  intros [(f & Hg & -> & Hp & f' & Hf' & Hfl) Hc Hnd] Hf Hr. unfold queue_lf_lfrc.queue_init. apply tot_bind.
  apply NoDup_cons in Hnd as [Hgn Hnd]. apply NoDup_cons in Hnd as [Hpn Hnd].
  assert (Hpg : p <> GLOBALS) by (intros ->; apply Hgn; left).
  eapply lfrc_new_node; [done|exact Hg|done|apply Hc; left|exact Hf'|done|]. apply tot_bind.
  set (m1 := upd (upd m _ _) _ _).
  eapply (tot_alloc k m1 (Obj sizeof_queue ∅)); [by repeat apply mroom_upd|done|].
  intros q (Hq0 & Hqf & Hqr & Hqa) _.
  assert (Hfresh : forall x, live m x -> x <> q).
  { intros x Hx ->. assert (Hl : live m1 q) by (unfold m1; by rewrite !live_upd). destruct Hl as [o Ho]. congruence. }
  assert (Hlg : live m GLOBALS) by exact (live_get _ _ _ Hg).
  assert (Hlf : forall x, x ∈ fl -> live m x) by (intros x Hx; exact (live_get _ _ _ (Hc x ltac:(by right)))).
  assert (Hpq : p <> q) by (apply Hfresh; mlive). assert (Hgq : GLOBALS <> q) by (by apply Hfresh).
  set (m2 := <[q := _]> m1).
  assert (O2 : forall b, b <> q -> m2 !! b = m1 !! b) by (intros b Hb; unfold m2; by rewrite lookup_insert_ne by congruence).
  assert (P2 : is_node m2 p).
  { destruct Hp as (E1 & E2 & o & Ho & Hs). split; [done|]. split; [done|]. rewrite O2 by done.
    assert (is_node m1 p) as (_ & _ & He); [|exact He]. unfold m1. rewrite !is_node_upd. split; [done|]. split; [done|]. by exists o. }
  assert (C2 : get m2 (p, REFCNT) = Some 2) by (rewrite (get_lookup_eq m1) by (by apply O2); unfold m1; mget).
  assert (G2 : get m2 (GLOBALS, G_FREELIST) = Some f') by (rewrite (get_lookup_eq m1) by (by apply O2); unfold m1; mget).
  assert (I2 : inb m2 (q, Q_HEAD) = true /\ inb m2 (q, Q_TAIL) = true)
    by (unfold m2, inb; simpl; rewrite lookup_insert_eq; done).
  assert (F2 : forall x, x ∈ fl -> m2 !! x = m !! x /\ x <> p /\ x <> q).
  { intros x Hx. pose proof (Hfresh x (Hlf x Hx)). rewrite O2 by done. unfold m1.
    assert (x <> p) by (intros ->; done). assert (x <> GLOBALS) by (intros ->; apply Hgn; by right).
    rewrite !lookup_upd_ne by done. done. }
  clearbody m2. clear m1 Hqf Hfresh O2. destruct I2 as [I2 I2'].
  unfold lfrc_refcnt_inc. rewrite (is_node_eqb m p Hp). psteps. change (u64 (2 + 2)) with 4.
  exists p, [], fl. split_and!; [split|done|done|by rewrite !inb_upd..].
  - mget.
  - unfold last_node. simpl. mget.
  - simpl. mget.
  - intros x Hx%list_elem_of_singleton. subst x. unfold refcount, last_node. simpl. rewrite Z.eqb_refl. simpl. mget.
  - exists f'. split; [mget|]. eapply flist_objs; [|exact Hfl]. intros x Hx. destruct (F2 x Hx) as (<- & ? & ?).
    by rewrite !lookup_upd_ne by done.
  - intros x Hx. destruct (F2 x Hx) as (E & ? & ?). rewrite !get_upd_ne by congruence.
    rewrite (get_lookup_eq m) by done. apply Hc. by right.
  - intros x Hx%list_elem_of_singleton. subst x. by rewrite !is_node_upd.
  - simpl. apply NoDup_cons. split.
    + rewrite !elem_of_cons. intros [->|[->|Hx]]; [done|done|]. by destruct (F2 q Hx) as (_ & _ & []).
    + by rewrite !NoDup_cons.
Qed.

(** Each operation: the answer of the bounded queue, or exit(-1). *)
Lemma lfrc_op_spec q h0 pl c m o : lfrc_holds q (h0 :: pl) c m -> (1 < fuel)%nat ->
  match bounded_step (Z.of_nat (length pl)) o c with
  | Some (r, c') => tot (lfrc_op fuel q o) m (fun r' m' => r' = r /\ lfrc_holds q (h0 :: pl) c' m')
  | None => run (lfrc_op fuel q o) m = Err (EExit (-1))
  end.
Proof.
  intros (h & xs & fl & HA & <- & Hp & I1 & I2) Hf.
  assert (Hlen : (length xs + length fl = length pl)%nat).
  { apply Permutation_length in Hp. unfold lfrc_pool in Hp. rewrite length_app in Hp. simpl in Hp.
    rewrite length_map in Hp. lia. }
  destruct o as [key|]; simpl.
  - rewrite length_map. destruct fl as [|p fl]; simpl in Hlen.
    + rewrite (proj2 (Z.ltb_ge _ _)) by lia. destruct HA as [_ _ _ _ (f & Hg & Hfl) _ _ _]. simpl in Hfl. subst f.
      apply run_bind_err, run_bind_err. apply lfrc_new_node_empty; [lia|done].
    + rewrite (proj2 (Z.ltb_lt _ _)) by lia. apply tot_bind.
      eapply tot_mono; [by apply (lfrc_enqueue_spec fuel q h xs p fl m key)|].
      intros [] m' (HA' & _ & Hi). apply tot_ret. split; [done|]. exists h, (xs ++ [(p, key)]), fl.
      rewrite !Hi, map_app. split_and!; auto. rewrite <- Hp. unfold lfrc_pool. rewrite map_app. simpl.
      by rewrite <- app_assoc.
  - destruct xs as [|[p k] xs]; simpl.
    + eapply tot_mono; [by apply (lfrc_dequeue_empty fuel q h fl m)|]. intros r m' [-> ->]. split; [done|].
      by exists h, [], fl.
    + eapply tot_mono; [by apply (lfrc_dequeue_spec fuel q h p k xs fl m)|].
      intros r m' (-> & HA' & _ & Hi). split; [done|]. exists p, xs, (h :: fl). rewrite !Hi. split_and!; auto.
      rewrite <- Hp. unfold lfrc_pool. by rewrite <- (Permutation_middle (p :: map fst xs)).
Qed.

Lemma lfrc_client_spec q h0 pl os c m : lfrc_holds q (h0 :: pl) c m -> (1 < fuel)%nat ->
  match bounded_steps (Z.of_nat (length pl)) os c with
  | Some (rs, c') => tot (lfrc_client fuel q os) m (fun rs' m' => rs' = rs /\ lfrc_holds q (h0 :: pl) c' m')
  | None => run (lfrc_client fuel q os) m = Err (EExit (-1))
  end.
Proof.
  intros Hh Hf. revert c m Hh. induction os as [|o os IH]; intros c m Hh; cbn [bounded_steps lfrc_client].
  - by apply tot_ret.
  - pose proof (lfrc_op_spec q h0 pl c m o Hh Hf) as Ho. destruct (bounded_step _ o c) as [[r c1]|]; simpl.
    + destruct (bounded_steps _ os c1) as [[rs c2]|] eqn:E; simpl.
      * apply tot_bind. eapply tot_mono; [exact Ho|]. intros r' m1 [-> H1]. specialize (IH _ _ H1). rewrite E in IH.
        apply tot_bind. eapply tot_mono; [exact IH|]. intros rs' m2 [-> H2]. by apply tot_ret.
      * apply run_bind_tot. eapply tot_mono; [exact Ho|]. intros r' m1 [_ H1]. specialize (IH _ _ H1). rewrite E in IH.
        by apply run_bind_err.
    + by apply run_bind_err.
Qed.

Lemma lfrc_start_spec k m n : (0 < fuel)%nat -> get m (PARAMS, P_N_ELEMENTS) = Some n -> 0 <= n <= 10 ^ 8 ->
  inb m (GLOBALS, G_FREELIST) = true -> mroom (2 + k) m ->
  tot (lfrc_start fuel) m (fun q m' => exists h0 pl, lfrc_holds q (h0 :: pl) [] m' /\
    Z.of_nat (length pl) = chunk_size n - 1).
Proof.
  intros Hf Hn Hb Hg Hr. unfold lfrc_start. apply tot_bind.
  eapply tot_mono; [by apply (lfrc_init_spec fuel (S k) m n)|]. intros [] m1 (Hr1 & a & Hfree & _).
  apply tot_bind, tot_ret. remember (rev _) as l eqn:El.
  assert (Hl : Z.of_nat (length l) = chunk_size n).
  { rewrite El, length_rev. unfold chunk. rewrite length_map, length_seq.
    unfold chunk_size, MAX_THREADS, PT_FREELIST_TARGET. lia. }
  destruct l as [|p fl]; [unfold chunk_size, MAX_THREADS, PT_FREELIST_TARGET in Hl; simpl in Hl; lia|].
  eapply tot_mono; [by apply (lfrc_queue_init_spec k p fl m1)|]. intros q m2 Hh. exists p, fl. split; [done|].
  simpl in Hl. lia.
Qed.

Lemma lfrc_holds_nodup q pool c m : lfrc_holds q pool c m -> NoDup pool.
Proof.
  intros (h & xs & fl & HA & _ & <- & _). pose proof (la_nodup _ _ _ _ _ HA) as Hn. unfold lfrc_pool.
  by apply NoDup_cons in Hn as [_ [_ Hn]%NoDup_cons].
Qed.
End lfrc_program.

(** A queue of one key: the dummy has the reference of [head], the node those
    of [tail] and of the dummy. *)
Lemma lfrc_at_one q h p k fl m : lfrc_at q h [(p, k)] fl m ->
  get m (h, REFCNT) = Some 2 /\ get m (p, REFCNT) = Some 4.
Proof.
  intros HA. pose proof (la_nodup _ _ _ _ _ HA) as Hn. simpl in Hn.
  assert (Hhp : h <> p) by (rewrite !NoDup_cons, !elem_of_cons in Hn; intuition).
  rewrite (la_count _ _ _ _ _ HA h), (la_count _ _ _ _ _ HA p) by (simpl; rewrite !elem_of_cons; auto).
  unfold refcount, last_node. simpl. rewrite !Z.eqb_refl, (proj2 (Z.eqb_neq h p)), (proj2 (Z.eqb_neq p h)) by done.
  rewrite bool_decide_eq_false_2 by (rewrite list_elem_of_singleton; done).
  by rewrite bool_decide_eq_true_2 by left.
Qed.

(** The program from the static storage, with a node to spare. *)
Lemma lfrc_static : tot (lfrc_start 9) (static_mem 65) (fun q m => exists h p fl, lfrc_at q h [] (p :: fl) m /\
  inb m (q, Q_HEAD) = true /\ inb m (q, Q_TAIL) = true).
Proof.
  eapply tot_mono; [apply (lfrc_start_spec (HMR := bump_room_laws) 9 998 (static_mem 65) 0)|].
  - lia.
  - vm_compute. reflexivity.
  - lia.
  - vm_compute. reflexivity.
  - exact static_room.
  - intros q m (h0 & pl & (h & xs & fl & HA & Hx & Hp & I1 & I2) & Hl). apply map_eq_nil in Hx. subst xs.
    apply Permutation_length in Hp. simpl in Hp. destruct fl as [|p fl]; [|by exists h, p, fl].
    unfold chunk_size, MAX_THREADS, PT_FREELIST_TARGET in Hl. simpl in Hp. lia.
Qed.

(** ** Theorems *)

(** C22: the program queue_lf_lfrc (lfrc.c, queue_lf_lfrc.c) run by one thread,
    from init_allocator through queue_init and any sequence of operations, is a
    FIFO queue of the capacity of the chunk less the dummy: it returns its
    answers, -1 where it is empty, with the nodes of the chunk shared between
    the queue and the free list, none lost and none twice; where a key would
    not fit it leaves with exit(-1), and there is no other way to fail. *)
Theorem lfrc_program_bounded_fifo `{HM : Malloc, HMR : !MallocRoom} (fuel : nat) (os : list queue_op)
    (m : mem) (n : Z) (k : nat) :
  (1 < fuel)%nat -> get m (PARAMS, P_N_ELEMENTS) = Some n -> 0 <= n <= 10 ^ 8 ->
  inb m (GLOBALS, G_FREELIST) = true -> mroom (2 + k) m ->
  match bounded_steps (chunk_size n - 1) os [] with
  | Some (rs, c) => tot (q <- lfrc_start fuel ;; lfrc_client fuel q os) m (fun rs' m' => rs' = rs /\
      exists q pool, lfrc_holds q pool c m' /\ NoDup pool /\ Z.of_nat (length pool) = chunk_size n)
  | None => run (q <- lfrc_start fuel ;; lfrc_client fuel q os) m = Err (EExit (-1))
  end.
Proof.
  intros Hf Hn Hb Hg Hr. pose proof (lfrc_start_spec fuel k m n ltac:(lia) Hn Hb Hg Hr) as Hs.
  destruct (bounded_steps _ os []) as [[rs c]|] eqn:E; [apply tot_bind|apply run_bind_tot];
    (eapply tot_mono; [exact Hs|]); intros q m1 (h0 & pl & Hh & Hl);
    pose proof (lfrc_client_spec fuel q h0 pl os [] m1 Hh Hf) as Hc; rewrite Hl, E in Hc; [|done].
  eapply tot_mono; [exact Hc|]. intros rs' m2 [-> H2]. split; [done|]. exists q, (h0 :: pl). split; [done|].
  split; [by eapply lfrc_holds_nodup|]. simpl. lia.
Qed.

Lemma lfrc_program_bounded_fifo_witness :
  tot (q <- lfrc_start 9 ;; lfrc_client 9 q [Dequeue; Enqueue 4; Enqueue 5; Dequeue; Dequeue; Dequeue]) (static_mem 65)
    (fun rs m' => rs = [-1; 0; 0; 4; 5; -1] /\
      exists q pool, lfrc_holds q pool [] m' /\ NoDup pool /\ Z.of_nat (length pool) = 78000).
Proof.
  apply (lfrc_program_bounded_fifo (HMR := bump_room_laws) 9
    [Dequeue; Enqueue 4; Enqueue 5; Dequeue; Dequeue; Dequeue] (static_mem 65) 0 998).
  - lia.
  - vm_compute. reflexivity.
  - lia.
  - vm_compute. reflexivity.
  - exact static_room.
Defined.

(** [enqueue] of queue_lf_lfrc.c keeps every reference count exact (twice
    the number of pointers to the node), takes the first node of the free list
    and adds it with the key at the end, and changes nothing else. *)
Theorem lfrc_enqueue_counts `{HM : Malloc} (fuel : nat) (q h : Z) (xs : list (Z * Z)) (p : Z) (fl : list Z)
    (m : mem) (key : Z) :
  lfrc_at q h xs (p :: fl) m -> (1 < fuel)%nat -> inb m (q, Q_TAIL) = true ->
  tot (queue_lf_lfrc.enqueue fuel q key) m (fun _ m' =>
    lfrc_at q h (xs ++ [(p, key)]) fl m' /\ lfrc_frame q h xs (p :: fl) m m' /\ (forall l, inb m' l = inb m l)).
Proof. apply lfrc_enqueue_spec. Qed.

Lemma lfrc_enqueue_counts_witness :
  tot (q <- lfrc_start 9 ;; queue_lf_lfrc.enqueue 9 q 7) (static_mem 65)
    (fun _ m' => exists q h p fl, lfrc_at q h [(p, 7)] fl m' /\ get m' (h, REFCNT) = Some 2 /\ get m' (p, REFCNT) = Some 4).
Proof.
  apply tot_bind. eapply tot_mono; [exact lfrc_static|]. intros q m (h & p & fl & HA & I1 & I2).
  eapply tot_mono; [apply (lfrc_enqueue_counts 9 q h [] p fl m 7 HA)|].
  - lia.
  - exact I2.
  - intros [] m' (HA' & _ & _). exists q, h, p, fl. split; [exact HA'|].
    exact (lfrc_at_one q h p 7 fl m' HA').
Defined.

(** C24: [dequeue] of queue_lf_lfrc.c on a queue that is not empty answers its
    first key, releases the old dummy to the free list when its last reference
    goes, keeps every other reference count exact, and changes nothing else. *)
Theorem lfrc_dequeue_counts `{HM : Malloc} (fuel : nat) (q h p k : Z) (xs : list (Z * Z)) (fl : list Z) (m : mem) :
  lfrc_at q h ((p, k) :: xs) fl m -> (1 < fuel)%nat -> inb m (q, Q_HEAD) = true ->
  tot (queue_lf_lfrc.dequeue fuel q) m (fun r m' => r = k /\
    lfrc_at q p xs (h :: fl) m' /\ lfrc_frame q h ((p, k) :: xs) fl m m' /\ (forall l, inb m' l = inb m l)).
Proof. apply lfrc_dequeue_spec. Qed.

Lemma lfrc_dequeue_counts_witness :
  tot (q <- lfrc_start 9 ;; queue_lf_lfrc.enqueue 9 q 7 ;; queue_lf_lfrc.dequeue 9 q) (static_mem 65)
    (fun r m' => r = 7 /\ exists q h p fl, lfrc_at q p [] (h :: fl) m' /\ get m' (h, REFCNT) = Some 1).
Proof.
  apply tot_bind. eapply tot_mono; [exact lfrc_static|]. intros q m (h & p & fl & HA & I1 & I2).
  apply tot_bind. eapply tot_mono; [apply (lfrc_enqueue_spec 9 q h [] p fl m 7 HA); [lia|exact I2]|].
  intros [] m1 (HA1 & _ & Hi).
  eapply tot_mono; [apply (lfrc_dequeue_counts 9 q h p 7 [] fl m1 HA1)|].
  - lia.
  - rewrite Hi. exact I1.
  - intros r m2 (-> & HA2 & _). split; [reflexivity|]. exists q, h, p, fl. split; [exact HA2|].
    apply (la_fcount _ _ _ _ _ HA2). left.
Defined.

(** A chain of two nodes, one reference to each, and one free node. *)
Definition chain_demo : mem :=
  {[ GLOBALS := Obj sizeof_globals {[ G_FREELIST := 12288 ]};
     4096 := Obj sizeof_node_t {[ NEXT := 8192; REFCNT := 2 ]};
     8192 := Obj sizeof_node_t {[ NEXT := NULL; REFCNT := 2 ]};
     12288 := Obj sizeof_node_t {[ MR_NEXT := NULL; REFCNT := 1 ]} ]}.

Lemma chain_demo_node p : p ∈ [4096; 8192; 12288] -> is_node chain_demo p.
Proof.
  intros Hp. rewrite !elem_of_cons in Hp. split; [destruct Hp as [->|[->|[->|[]%elem_of_nil]]]; done|].
  split; [by destruct Hp as [->|[->|[->|[]%elem_of_nil]]]|].
  destruct Hp as [->|[->|[->|[]%elem_of_nil]]]; (eexists; split; [vm_compute; reflexivity|done]).
Qed.

Lemma chain_demo_free : lfrc_free [12288] chain_demo.
Proof.
  split.
  - exists 12288. split; [vm_compute; reflexivity|]. split; [done|]. split; [apply chain_demo_node; set_solver|].
    exists NULL. split; [vm_compute; reflexivity|done].
  - intros p ->%list_elem_of_singleton. vm_compute. reflexivity.
  - refine (bool_decide_unpack _ _). vm_compute. exact I.
Qed.

Lemma chain_demo_chain : flist NEXT chain_demo 4096 [4096; 8192].
Proof.
  split; [done|]. split; [apply chain_demo_node; set_solver|]. exists 8192. split; [vm_compute; reflexivity|].
  split; [done|]. split; [apply chain_demo_node; set_solver|]. exists NULL. split; [vm_compute; reflexivity|done].
Qed.

(** C25: the recursion of lfrc_refcnt_dec along [next] terminates: the release
    of the first node of a chain whose nodes have one reference each frees all
    of them, in [length ps + 1] nested calls (the depth of the C stack grows
    with the chain), to the front of the free list in the order of the chain,
    and changes nothing else. *)
Theorem lfrc_release_terminates (fuel : nat) (ps : list Z) (p : Z) (fl : list Z) (m : mem) :
  lfrc_free fl m -> flist NEXT m p ps -> (forall x, x ∈ ps -> get m (x, REFCNT) = Some 2) ->
  NoDup (GLOBALS :: ps ++ fl) -> (length ps < fuel)%nat ->
  tot (lfrc_refcnt_dec fuel p) m (fun _ m' => lfrc_free (ps ++ fl) m' /\
    (forall b, b ∉ GLOBALS :: ps -> m' !! b = m !! b)).
Proof. intros HF Hl Hc Hnd Hf. unfold lfrc_refcnt_dec. apply refcnt_dec_chain; [lia|assumption..]. Qed.

Lemma lfrc_release_terminates_witness :
  tot (lfrc_refcnt_dec 3 4096) chain_demo (fun _ m' => lfrc_free [4096; 8192; 12288] m' /\
    (forall b, b ∉ [GLOBALS; 4096; 8192] -> m' !! b = chain_demo !! b)).
Proof.
  apply (lfrc_release_terminates 3 [4096; 8192] 4096 [12288] chain_demo).
  - exact chain_demo_free.
  - exact chain_demo_chain.
  - intros x [->|[->|[]%elem_of_nil]%elem_of_cons]%elem_of_cons; vm_compute; reflexivity.
  - refine (bool_decide_unpack _ _). vm_compute. exact I.
  - simpl. lia.
Defined.
