(* ===== verification/SpinQueue.v ===== *)
(** * The queue with a spin lock under every interleaving (queue_spinlock.c)

    Unlike the lists with a lock, queue_spinlock.c allocates a node before it
    takes the lock and frees one after it has released it: a thread owns a node
    outside the critical section.  The ownership of nodes passes from the thread
    to the queue when [enqueue] releases the lock, and back when [dequeue] does;
    every object in memory is accounted for, so nothing leaks. *)
From S2P Require Export LockSerial QueueProgram.

(** A thread of the program. *)
Definition spinq_op `{HA : Allocator} (fuel : nat) (q : Z) (i : nat) (o : queue_op) : prog mem Z :=
  match o with
  | Enqueue k => queue_spinlock.enqueue fuel (Z.of_nat i) q k ;; Ret 0
  | Dequeue => queue_spinlock.dequeue fuel (Z.of_nat i) q
  end.

Definition spinq_client `{HA : Allocator} (fuel : nat) (q : Z) (i : nat) (os : list queue_op) : prog mem (list Z) :=
  op_client (spinq_op fuel q i) os.

(** A key is a [long]. *)
Definition long (k : Z) : Prop := - 2 ^ 63 <= k < 2 ^ 63.
Definition long_op (o : queue_op) : Prop := match o with Enqueue k => long k | Dequeue => True end.

(** The queue at rest: [head] to the first node, [tail] to the last. *)
Definition squeue (q : Z) (m : mem) (ns : list (Z * Z)) : Prop :=
  exists h, get m (q, SQ_HEAD) = Some h /\ flist NEXT m h (map fst ns) /\
    get m (q, SQ_TAIL) = Some (List.last (map fst ns) NULL).

(** * Proofs *)

Section shared.
Context `{HM : Malloc, HMR : !MallocRoom}.
Variables (q : Z) (D0 : gset Z) (n k0 : nat) (cap : nat -> nat).
Hypothesis Hcap : (sum_list (map cap (seq 0 n)) <= k0)%nat.
Implicit Types (m v : mem) (ns : list (Z * Z)).

Record sghost := SG {
  sg_holder : option nat;                     (* who holds the lock *)
  sg_log : list (nat * (queue_op * Z));       (* the operations that released it *)
  sg_nodes : list (Z * Z);                    (* the nodes of the queue *)
  sg_own : gmap nat Z;                        (* the node a thread owns *)
  sg_alloc : list (nat * (unit * unit))       (* the allocations *)
}.
Abbreviation sstate := (mem * sghost)%type.

Record SInv (x : sstate) : Prop := {
  si_legal : legal fifo_step (sg_log x.2) [];
  si_after : after fifo_step (sg_log x.2) [] = map snd (sg_nodes x.2);
  si_q : q ∈ D0 /\ is_struct x.1 q sizeof_squeue;
  si_nodes : forall p k, (p, k) ∈ sg_nodes x.2 -> is_node x.1 p /\ get x.1 (p, KEY) = Some k /\ (p ∉ D0) /\ long k;
  si_nodup : NoDup (map fst (sg_nodes x.2));
  si_own : forall i p, sg_own x.2 !! i = Some p -> is_node x.1 p /\ (p ∉ D0) /\ p ∉ map fst (sg_nodes x.2);
  si_inj : forall i j p, sg_own x.2 !! i = Some p -> sg_own x.2 !! j = Some p -> i = j;
  si_live : forall b, live x.1 b <-> b ∈ D0 \/ b ∈ map fst (sg_nodes x.2) \/ exists i, sg_own x.2 !! i = Some b;
  si_free : sg_holder x.2 = None -> squeue q x.1 (sg_nodes x.2) /\ get x.1 (q, SQ_LOCK) = Some 0;
  si_held : forall i, sg_holder x.2 = Some i -> get x.1 (q, SQ_LOCK) = Some 1 /\ (i < n)%nat;
  si_room : mroom (k0 - length (sg_alloc x.2)) x.1;
  si_cap : forall i, (length (mine i (sg_alloc x.2)) <= cap i)%nat;
  si_threads : forall i, (n <= i)%nat -> mine i (sg_alloc x.2) = [] /\ sg_own x.2 !! i = None
}.

Lemma si_node_in x p : SInv x -> p ∈ map fst (sg_nodes x.2) -> is_node x.1 p /\ p ∉ D0.
Proof. intros HI ([p' k] & -> & Hp)%list_elem_of_fmap. destruct (si_nodes x HI _ _ Hp) as (? & _ & ? & _). done. Qed.

(** What thread [i] may rely on. *)
Record ssees (i : nat) (x y : sstate) : Prop := {
  ss_inv : SInv x -> SInv y;
  ss_mine : mine i (sg_log y.2) = mine i (sg_log x.2);
  ss_alloc : mine i (sg_alloc y.2) = mine i (sg_alloc x.2);
  ss_own : sg_own y.2 !! i = sg_own x.2 !! i;
  ss_node : forall p, sg_own x.2 !! i = Some p -> y.1 !! p = x.1 !! p;
  ss_held : sg_holder x.2 = Some i -> sg_holder y.2 = Some i /\ sg_log y.2 = sg_log x.2 /\
    sg_nodes y.2 = sg_nodes x.2 /\ forall b, b = q \/ b ∈ map fst (sg_nodes x.2) -> y.1 !! b = x.1 !! b;
  ss_holder : sg_holder y.2 = Some i -> sg_holder x.2 = Some i
}.

Definition SGu (i : nat) (x y : sstate) : Prop := forall j, j <> i -> ssees j x y.

#[export] Instance ssees_preorder i : PreOrder (ssees i).
Proof.
  split.
  - intros x. split; auto.
  - intros x y z [A1 A2 A3 A4 A5 A6 A7] [B1 B2 B3 B4 B5 B6 B7]. split; auto; try congruence.
    + intros p Hp. rewrite B5 by congruence. by apply A5.
    + intros Hh. destruct (A6 Hh) as (C1 & C2 & C3 & C4). destruct (B6 C1) as (E1 & E2 & E3 & E4).
      split_and!; try congruence. intros b Hb. rewrite E4 by (by rewrite C3). by apply C4.
Qed.

(** The view of thread [i]: [po] is the node it owns, [hs] the history and the
    nodes of the queue if it holds the lock; the objects it may touch are those
    of [v]. *)
Record view (i : nat) (es : list (queue_op * Z)) (a : nat) (po : option Z)
    (hs : option (list (nat * (queue_op * Z)) * list (Z * Z))) v (x : sstate) : Prop := {
  vw_inv : SInv x;
  vw_mine : mine i (sg_log x.2) = es;
  vw_alloc : length (mine i (sg_alloc x.2)) = a;
  vw_own : sg_own x.2 !! i = po;
  vw_node : forall p, po = Some p -> x.1 !! p = v !! p;
  vw_held : match hs with
    | None => sg_holder x.2 <> Some i
    | Some (log, ns) => sg_holder x.2 = Some i /\ sg_log x.2 = log /\ sg_nodes x.2 = ns /\
        forall b, b = q \/ b ∈ map fst ns -> x.1 !! b = v !! b
    end
}.

Lemma view_stable i es a po hs v x y : view i es a po hs v x -> ssees i x y -> view i es a po hs v y.
Proof.
  intros [A1 A2 A3 A4 A5 A6] [S1 S2 S3 S4 S5 S6 S7]. split; auto; try congruence.
  - intros p Hp. rewrite S5 by congruence. by apply A5.
  - destruct hs as [[log ns]|]; [|tauto]. destruct A6 as (B1 & B2 & B3 & B4).
    destruct (S6 B1) as (C1 & C2 & C3 & C4). split_and!; try congruence.
    intros b Hb. rewrite C4 by (by rewrite B3). by apply B4.
Qed.

(** The objects a thread may read, and the words it may write. *)
Definition readable (po : option Z) (hs : option (list (nat * (queue_op * Z)) * list (Z * Z))) (b : Z) : Prop :=
  po = Some b \/ exists log ns, hs = Some (log, ns) /\ (b = q \/ b ∈ map fst ns).

Definition writable (po : option Z) (hs : option (list (nat * (queue_op * Z)) * list (Z * Z))) (l : loc) : Prop :=
  po = Some l.1 \/ exists log ns, hs = Some (log, ns) /\
    (l.1 = q /\ l.2 <> SQ_LOCK \/ l.1 ∈ map fst ns /\ l.2 = NEXT).

Lemma view_read i es a po hs v x b : view i es a po hs v x -> readable po hs b -> x.1 !! b = v !! b.
Proof.
  intros V [->|(log & ns & -> & Hb)]; [by apply (vw_node _ _ _ _ _ _ _ V)|].
  destruct (vw_held _ _ _ _ _ _ _ V) as (_ & _ & _ & H). by apply H.
Qed.

Lemma writable_readable po hs l : writable po hs l -> readable po hs l.1.
Proof. intros [H|(log & ns & -> & [[H _]|[H _]])]; [by left|right; eauto 6..]. Qed.

(** ** Memory operations *)

(** A write of thread [i] to what it owns, or under the lock. *)
Lemma view_write i es a po hs v m g l w : view i es a po hs v (m, g) -> writable po hs l ->
  view i es a po hs (upd v l w) (upd m l w, g) /\ SGu i (m, g) (upd m l w, g).
Proof.
  intros V Hw. pose proof V as [HI V2 V3 V4 V5 V6]. pose proof HI as [I1 I2 [I3 I3'] I4 I5 I6 I7 I8 I9 I10 I11 I12 I13].
  simpl in *.
  assert (Hx : sg_own g !! i = Some l.1 \/ sg_holder g = Some i /\
    (l.1 = q /\ l.2 <> SQ_LOCK \/ l.1 ∈ map fst (sg_nodes g) /\ l.2 = NEXT)).
  { destruct Hw as [Hw|(log & ns & -> & H)]; [left; congruence|right]. destruct V6 as (? & _ & -> & _). done. }
  assert (Hq : sg_own g !! i = Some l.1 -> l.1 <> q /\ l.1 ∉ map fst (sg_nodes g)).
  { intros H. destruct (I6 _ _ H) as (_ & H1 & H2). split; [|done]. intros E. by rewrite E in H1. }
  assert (HI' : SInv (upd m l w, g)).
  { split; simpl; auto.
    - by rewrite is_struct_upd.
    - intros p k Hp. destruct (I4 p k Hp) as (N1 & N2 & N3). rewrite is_node_upd. split; [done|]. split; [|done].
      rewrite get_upd_ne; [done|]. intros ->. simpl in *. assert (Hpn : p ∈ map fst (sg_nodes g)) by (by apply (list_elem_of_fmap_2' fst _ (p, k))).
      destruct Hx as [H|(_ & [[E _]|[_ E]])]; [by apply Hq in H as []| |done].
      destruct N3 as [N3 _]. by rewrite E in N3.
    - intros j p Hp. rewrite is_node_upd. by apply (I6 j).
    - intros b. rewrite live_upd. apply I8.
    - intros Hn. destruct Hx as [H|(H & _)]; [|congruence]. apply Hq in H as [H1 H2].
      destruct (I9 Hn) as ((h & S1 & S2 & S3) & S4). rewrite !get_upd_ne by (intros ->; done). split; [|done].
      exists h. rewrite !get_upd_ne by (intros ->; done). split_and!; auto. apply flist_upd; auto.
    - intros j Hj. rewrite get_upd_ne; [by apply I10|]. intros ->. simpl in *.
      destruct Hx as [H|(_ & [[_ E]|[H _]])]; [by apply Hq in H as []|done|].
      destruct (si_node_in _ _ HI H). done.
    - by apply mroom_upd. }
  split.
  - split; auto; simpl.
    + intros p Hp. destruct (decide (p = l.1)) as [->|E]; [|rewrite !lookup_upd_ne by done; auto].
      unfold upd. rewrite !lookup_alter_eq. by rewrite V5.
    + destruct hs as [[log ns]|]; [|done]. destruct V6 as (? & ? & ? & V6). split_and!; auto.
      intros b Hb. destruct (decide (b = l.1)) as [->|E]; [|rewrite !lookup_upd_ne by done; auto].
      unfold upd. rewrite !lookup_alter_eq. by rewrite V6.
  - intros j Hj. split; simpl; auto.
    + intros p Hp. apply lookup_upd_ne. intros ->. destruct (I6 _ _ Hp) as (_ & N1 & N2).
      destruct Hx as [H|(_ & [[E _]|[H _]])]; [by rewrite (I7 _ _ _ Hp H) in Hj|congruence|done].
    + intros Hh. split_and!; auto. intros b Hb. apply lookup_upd_ne.
      destruct Hx as [H|(H & _)]; [|congruence]. apply Hq in H as [H1 H2]. intros ->. by destruct Hb.
Qed.

Lemma rg_view_load i es a po hs v x l w : view i es a po hs v x -> readable po hs l.1 -> get v l = Some w ->
  rg (ssees i) (SGu i) (load l) (fun r y => r = w /\ view i es a po hs v y) x.
Proof.
  intros V Hr Hg. unfold load. apply rg_act. intros y HR. pose proof (view_stable _ _ _ _ _ _ _ _ V HR) as Vy.
  destruct y as [m g]. destruct l as [b off]. simpl in *. pose proof (view_read _ _ _ _ _ _ _ _ Vy Hr) as E. simpl in E.
  rewrite (get_lookup_eq v m) by done. rewrite Hg. exists w, m, g. split; [done|]. split; [by intros j _|done].
Qed.

Lemma rg_view_store i es a po hs v x l w : view i es a po hs v x -> writable po hs l -> inb v l = true ->
  rg (ssees i) (SGu i) (store l w) (fun _ y => view i es a po hs (upd v l w) y) x.
Proof.
  intros V Hw Hi. unfold store. apply rg_act. intros y HR. pose proof (view_stable _ _ _ _ _ _ _ _ V HR) as Vy.
  destruct y as [m g]. pose proof (view_read _ _ _ _ _ _ _ _ Vy (writable_readable _ _ _ Hw)) as E.
  destruct (view_write _ _ _ _ _ _ _ _ l w Vy Hw) as [Vy' HG]. destruct l as [b off]. simpl in *.
  rewrite (inb_lookup_eq v m) by done. rewrite Hi. by exists tt, (upd m (b, off) w), g.
Qed.

(** The queue where its objects are unchanged. *)
Lemma squeue_objs m m' ns : (forall b, b = q \/ b ∈ map fst ns -> m' !! b = m !! b) -> squeue q m ns -> squeue q m' ns.
Proof.
  intros Hb (h & S1 & S2 & S3). exists h. rewrite !(get_lookup_eq m m') by auto. split_and!; auto.
  eapply flist_objs; [|exact S2]. auto.
Qed.

(** [new_node]: the thread owns a fresh node. *)
Lemma SInv_malloc i p k m g : SInv (m, g) -> (i < n)%nat -> (length (mine i (sg_alloc g)) < cap i)%nat ->
  (k0 - length (sg_alloc g) = S k)%nat -> sg_own g !! i = None -> m !! p = None -> 0 < p < M64 -> p mod 2 = 0 ->
  mroom k (<[p := Obj sizeof_node_t ∅]> m) ->
  SInv (<[p := Obj sizeof_node_t ∅]> m,
    SG (sg_holder g) (sg_log g) (sg_nodes g) (<[i := p]> (sg_own g)) (sg_alloc g ++ [(i, (tt, tt))])).
Proof.
  intros HI Hi Ha Ek V4 Hf Hpr Hpa Hr. pose proof HI as [I1 I2 [I3 I3'] I4 I5 I6 I7 I8 I9 I10 I11 I12 I13]. simpl in *.
  assert (Hnl : forall b, live m b -> b <> p) by (intros b [o Ho] ->; congruence).
  assert (Hpd : (p ∉ D0) /\ p ∉ map fst (sg_nodes g)).
  { split; intros H; eapply (Hnl p); [apply I8; auto|done|apply I8; auto|done]. }
  assert (Hpo : forall j, sg_own g !! j <> Some p) by (intros j Hj; eapply (Hnl p); [apply I8; eauto|done]).
  assert (Hnq : p <> q) by (intros E; destruct Hpd; congruence).
  set (m' := <[p := Obj sizeof_node_t ∅]> m) in *.
  assert (Ho : forall b, b <> p -> m' !! b = m !! b) by (intros b Hb; unfold m'; by rewrite lookup_insert_ne).
  assert (Hnode : forall b, is_node m b -> is_node m' b).
  { intros b Hb. eapply is_node_lookup; [|exact Hb]. apply Ho, Hnl. by apply is_node_live. }
  split; simpl; auto.
  - split; [done|]. eapply is_struct_lookup; [|exact I3']. auto.
  - intros b k' Hb. destruct (I4 b k' Hb) as (N1 & N2 & N3). split; [auto|]. split; [|done].
    rewrite <- N2. apply get_lookup_eq, Ho, Hnl. by apply is_node_live.
  - intros j b Hb. apply lookup_insert_Some in Hb as [[<- <-]|[Hj Hb]]; [|destruct (I6 j b Hb) as (? & ? & ?); auto].
    split; [|done]. split; [lia|]. split; [done|]. exists (Obj sizeof_node_t ∅). unfold m'. by rewrite lookup_insert_eq.
  - intros j j' b Hb Hb'. apply lookup_insert_Some in Hb as [[<- <-]|[Hj Hb]];
      apply lookup_insert_Some in Hb' as [[<- E]|[Hj' Hb']]; [done|by apply Hpo in Hb'|subst b; by apply Hpo in Hb|eauto].
  - intros b. unfold live. destruct (decide (b = p)) as [->|E].
    + unfold m'. rewrite lookup_insert_eq. split; [|by eauto]. intros _. right; right. exists i. by rewrite lookup_insert_eq.
    + rewrite Ho by done. rewrite (I8 b). split; (intros [H|[H|[j Hj]]]; [by left|by right; left|right; right; exists j]).
      * rewrite lookup_insert_ne; [done|]. intros <-. congruence.
      * by apply lookup_insert_Some in Hj as [[_ ?]|[_ ?]].
  - intros Hn. destruct (I9 Hn) as [Hsq S4]. rewrite (get_lookup_eq m m') by auto. split; [|done].
    eapply squeue_objs; [|exact Hsq]. intros b [->|Hb]; apply Ho; [done|]. intros ->. by destruct Hpd.
  - intros j Hj. rewrite (get_lookup_eq m m') by auto. auto.
  - rewrite length_app. simpl. by replace (k0 - (length (sg_alloc g) + 1))%nat with k by lia.
  - intros j. rewrite mine_snoc, length_app. specialize (I12 j). case_decide; simpl; [subst j|]; lia.
  - intros j Hj. rewrite mine_snoc, decide_False by lia. destruct (I13 j Hj) as [-> ?].
    by rewrite lookup_insert_ne by lia.
Qed.

Lemma rg_view_malloc i es a v x : view i es a None None v x -> (i < n)%nat -> (a < cap i)%nat ->
  rg (ssees i) (SGu i) (malloc sizeof_node_t)
    (fun p y => p <> NULL /\ view i es (S a) (Some p) None y.1 y) x.
Proof.
  intros V Hi Ha. unfold malloc, new_obj. apply rg_act. intros y HR. pose proof (view_stable _ _ _ _ _ _ _ _ V HR) as Vy.
  clear x V HR. destruct y as [m g]. destruct Vy as [HI V2 V3 V4 V5 V6]. simpl in *.
  assert (Hlt : (length (sg_alloc g) < k0)%nat).
  { eapply (mine_room n _ cap k0 i); auto; [intros j Hj; by apply (si_threads _ HI)|apply (si_cap _ HI)|by rewrite V3]. }
  destruct (k0 - length (sg_alloc g))%nat as [|k] eqn:Ek; [lia|]. pose proof (si_room _ HI) as Hr. simpl in Hr. rewrite Ek in Hr.
  destruct (mroom_malloc k m (Obj sizeof_node_t ∅) Hr) as [Hp Hr']; [done|]. simpl in Hp, Hr'.
  set (p := malloc_addr m sizeof_node_t) in *. rewrite (proj2 (Z.eqb_neq p NULL) Hp).
  pose proof (malloc_range m sizeof_node_t Hp) as Hpr. fold p in Hpr.
  assert (Hf : m !! p = None) by (eapply malloc_fresh; [exact Hp|fold p; lia]).
  assert (Hnl : forall b, live m b -> b <> p) by (intros b [o Ho] ->; congruence).
  assert (Ho : forall b, live m b -> <[p := Obj sizeof_node_t ∅]> m !! b = m !! b).
  { intros b Hb. rewrite lookup_insert_ne; [done|]. by apply not_eq_sym, Hnl. }
  eexists p, _, (SG (sg_holder g) (sg_log g) (sg_nodes g) (<[i := p]> (sg_own g)) (sg_alloc g ++ [(i, (tt, tt))])).
  split; [done|].
  pose proof (SInv_malloc i p k m g HI Hi ltac:(lia) Ek V4 Hf ltac:(lia) (mod16_even _ (malloc_aligned m sizeof_node_t)) Hr') as HI'.
  split.
  - intros j Hj. split; simpl; auto.
    + by rewrite mine_snoc, decide_False, app_nil_r by congruence.
    + by rewrite lookup_insert_ne by congruence.
    + intros b Hb. apply Ho, (si_live _ HI). eauto.
    + intros Hh. split_and!; auto. intros b Hb. apply Ho, (si_live _ HI). destruct Hb as [->|Hb]; [left; apply (si_q _ HI)|auto].
  - split; [done|]. split; simpl; auto.
    + rewrite mine_snoc, decide_True, length_app by done. simpl. lia.
    + by rewrite lookup_insert_eq.
Qed.

(** [free] of the node the thread owns. *)
Lemma rg_view_free i es a v x p : view i es a (Some p) None v x ->
  rg (ssees i) (SGu i) (free p) (fun _ y => view i es a None None v y) x.
Proof.
  intros V. unfold free. apply rg_act. intros y HR. pose proof (view_stable _ _ _ _ _ _ _ _ V HR) as Vy.
  clear x V HR. destruct y as [m g]. destruct Vy as [HI V2 V3 V4 V5 V6]. simpl in *.
  pose proof HI as [I1 I2 [I3 I3'] I4 I5 I6 I7 I8 I9 I10 I11 I12 I13]. simpl in *.
  destruct (I6 i p V4) as (Hn & Hpd & Hpn). rewrite (proj2 (Z.eqb_neq _ _) (is_node_nonnull _ _ Hn)).
  destruct (is_node_live _ _ Hn) as [o Hpo]. rewrite Hpo.
  assert (Ho : forall b, b <> p -> base.delete p m !! b = m !! b) by (intros b Hb; by rewrite lookup_delete_ne).
  assert (Hnq : q <> p) by congruence.
  assert (Hown : forall j b, j <> i -> sg_own g !! j = Some b -> b <> p) by (intros j b Hj Hb ->; eauto).
  set (m' := base.delete p m) in *. set (g' := SG (sg_holder g) (sg_log g) (sg_nodes g) (base.delete i (sg_own g)) (sg_alloc g)).
  exists tt, m', g'. split; [done|].
  assert (HI' : SInv (m', g')).
  { split; simpl; auto.
    - split; [done|]. eapply is_struct_lookup; [|exact I3']. auto.
    - intros b k Hb. destruct (I4 b k Hb) as (N1 & N2 & N3).
      assert (b <> p) by (intros ->; apply Hpn; by apply (list_elem_of_fmap_2' fst _ (p, k))).
      split; [by eapply is_node_lookup; [apply Ho|]|]. split; [|done]. rewrite <- N2. by apply get_lookup_eq, Ho.
    - intros j b Hb. apply lookup_delete_Some in Hb as [Hj Hb]. destruct (I6 j b Hb) as (N1 & N2 & N3).
      split; [|done]. eapply is_node_lookup; [apply Ho|exact N1]. eapply Hown; [|exact Hb]. congruence.
    - intros j j' b Hb Hb'. apply lookup_delete_Some in Hb as [_ Hb]. apply lookup_delete_Some in Hb' as [_ Hb']. eauto.
    - intros b. unfold live. destruct (decide (b = p)) as [->|E].
      + unfold m'. rewrite lookup_delete_eq. split; [by intros [? ?]|]. intros [H|[H|[j Hj]]]; [done|done|].
        apply lookup_delete_Some in Hj as [Hj Hb]. by destruct (Hown j p ltac:(congruence) Hb).
      + rewrite Ho by done. rewrite (I8 b). split; (intros [H|[H|[j Hj]]]; [by left|by right; left|right; right; exists j]).
        * rewrite lookup_delete_ne; [done|]. intros <-. congruence.
        * by apply lookup_delete_Some in Hj as [_ ?].
    - intros Hh. destruct (I9 Hh) as [Hsq S4]. rewrite (get_lookup_eq m m') by auto. split; [|done].
      eapply squeue_objs; [|exact Hsq]. intros b [->|Hb]; apply Ho; [done|]. by intros ->.
    - intros j Hj. rewrite (get_lookup_eq m m') by auto. auto.
    - by apply mroom_delete.
    - intros j Hj. destruct (I13 j Hj) as [-> ?]. split; [done|]. by rewrite lookup_delete_None; right. }
  split.
  - intros j Hj. split; simpl; auto.
    + by rewrite lookup_delete_ne by congruence.
    + intros b Hb. apply Ho. by eapply Hown.
    + intros Hh. split_and!; auto. intros b [->|Hb]; apply Ho; [done|]. by intros ->.
  - split; simpl; auto; [by rewrite lookup_delete_eq|done].
Qed.

(** ** The lock *)

Lemma si_lock_word x : SInv x -> exists w, get x.1 (q, SQ_LOCK) = Some w.
Proof.
  intros HI. destruct (sg_holder x.2) as [j|] eqn:E; [exists 1|exists 0].
  - by apply (si_held _ HI j).
  - by apply (si_free _ HI).
Qed.

Lemma rg_view_lock fuel i es a po v x : view i es a po None v x -> (i < n)%nat ->
  rg (ssees i) (SGu i) (spin_lock fuel (q, SQ_LOCK))
    (fun _ y => exists log ns, view i es a po (Some (log, ns)) y.1 y /\ squeue q y.1 ns /\
       forall p, po = Some p -> y.1 !! p = v !! p) x.
Proof.
  intros Vx Hi. unfold spin_lock. apply (rg_loop (ssees i) (SGu i) (fun _ y => view i es a po None v y)); [|done].
  clear x Vx. intros _ x Vx. apply rg_bind. unfold atomic_cmpxchg4, rmw. apply rg_act.
  intros y HR. pose proof (view_stable _ _ _ _ _ _ _ _ Vx HR) as V. clear x Vx HR.
  destruct y as [m g]. pose proof V as [HI V2 V3 V4 V5 V6]. simpl in *.
  destruct (sg_holder g) as [j|] eqn:Eh.
  - assert (Hg : get m (q, SQ_LOCK) = Some 1) by (by apply (si_held _ HI j)). rewrite Hg. simpl.
    rewrite (upd_same _ _ _ Hg). exists 1, m, g. split; [done|]. split; [by intros ? _|]. simpl.
    apply rg_bind. apply (rg_loop (ssees i) (SGu i) (fun _ y => view i es a po None v y)); [|done].
    clear -HMR. intros _ x Vx. apply rg_bind. unfold load. apply rg_act. intros y HR.
    pose proof (view_stable _ _ _ _ _ _ _ _ Vx HR) as V. destruct (si_lock_word y (vw_inv _ _ _ _ _ _ _ V)) as [w Hw].
    rewrite Hw. exists w, y.1, y.2. destruct y as [m g]. split; [done|]. split; [by intros ? _|].
    destruct (w =? 0); exact V.
  - pose proof HI as [I1 I2 [I3 I3'] I4 I5 I6 I7 I8 I9 I10 I11 I12 I13]. simpl in *.
    destruct (I9 Eh) as ((h & S1 & S2 & S3) & Hg). rewrite Hg. simpl.
    set (m' := upd m (q, SQ_LOCK) 1). set (g' := SG (Some i) (sg_log g) (sg_nodes g) (sg_own g) (sg_alloc g)).
    exists 0, m', g'. split; [done|].
    assert (Ho : forall b, b <> q -> m' !! b = m !! b) by (intros b Hb; by apply lookup_upd_ne).
    assert (Hon : forall j p, sg_own g !! j = Some p -> p <> q).
    { intros j p Hp. destruct (I6 j p Hp) as (_ & N & _). congruence. }
    assert (HI' : SInv (m', g')).
    { split; simpl; auto; try done.
      - split; [done|]. by apply is_struct_upd.
      - intros p k Hp. destruct (I4 p k Hp) as (N1 & N2 & N3). split; [by apply is_node_upd|]. split; [|done].
        unfold m'. rewrite get_upd_ne; [done|]. by intros [=].
      - intros j p Hp. unfold m'. rewrite is_node_upd. by apply (I6 j).
      - intros b. unfold m'. rewrite live_upd. apply I8.
      - intros j [= <-]. split; [|done]. apply get_upd_eq. by eapply live_get.
      - by apply mroom_upd. }
    split.
    + intros j Hj. split; simpl; auto; try congruence. intros p Hp. apply Ho. by eapply Hon.
    + exists (sg_log g), (sg_nodes g). split_and!.
      * by split.
      * exists h. unfold m'. simpl. rewrite !get_upd_ne by congruence. split_and!; auto.
        apply flist_upd; [|done]. by left.
      * intros p Hp. simpl. rewrite Ho; [by apply V5|]. apply (Hon i). congruence.
Qed.

(** A release: the operation [o] with the answer [r] enters the history; the
    queue has the nodes [ns'], the thread keeps [po']. *)
Section release.
Variables (i : nat) (po : option Z) (ns : list (Z * Z)) (v : mem).
Variables (o : queue_op) (r : Z) (ns' : list (Z * Z)) (po' : option Z).
Hypothesis Hstep : fifo_step o (map snd ns) = (r, map snd ns').
Hypothesis Hsq : squeue q v ns'.
Hypothesis Hnd : NoDup (map fst ns').
Hypothesis Hns : forall p k, (p, k) ∈ ns' -> (p, k) ∈ ns \/ po = Some p /\ get v (p, KEY) = Some k /\ long k.
Hypothesis Hpo' : forall p, po' = Some p -> p ∉ map fst ns'.
Hypothesis Hb : forall b, b ∈ map fst ns \/ po = Some b <-> b ∈ map fst ns' \/ po' = Some b.

Definition released (g : sghost) : sghost :=
  SG None (sg_log g ++ [(i, (o, r))]) ns' (partial_alter (fun _ => po') i (sg_own g)) (sg_alloc g).

Lemma released_own g j : sg_own (released g) !! j = if decide (j = i) then po' else sg_own g !! j.
Proof.
  simpl. case_decide as E; [subst j; by rewrite lookup_partial_alter_eq|by rewrite lookup_partial_alter_ne by congruence].
Qed.

Lemma release_nodes es a log m g b : view i es a po (Some (log, ns)) v (m, g) ->
  b ∈ map fst ns' \/ po' = Some b -> is_node m b /\ (b ∉ D0) /\ m !! b = v !! b.
Proof.
  intros [HI _ _ V4 V5 (_ & _ & V8 & V9)] [H|H]%Hb; simpl in *.
  - destruct (si_node_in (m, g) b HI) as [N1 N2]; [simpl; by rewrite V8|]. split_and!; auto.
  - destruct (si_own _ HI i b) as (N1 & N2 & _); [simpl; congruence|]. split_and!; auto.
Qed.

Lemma release_others es a log m g j b : view i es a po (Some (log, ns)) v (m, g) -> j <> i ->
  sg_own g !! j = Some b -> (b ∉ map fst ns') /\ po' <> Some b.
Proof.
  intros [HI _ _ V4 _ (_ & _ & V8 & _)] Hji Hjb. simpl in *. destruct (si_own _ HI j b Hjb) as (_ & _ & N). simpl in N. rewrite V8 in N.
  pose proof (si_inj _ HI j i b) as I7. simpl in I7.
  split; intros H; [destruct (proj2 (Hb b) (or_introl H))|destruct (proj2 (Hb b) (or_intror H))]; try done;
    apply Hji, I7; congruence.
Qed.

(** The objects in memory are accounted for as before. *)
Lemma release_live m g b : SInv (m, g) -> sg_own g !! i = po -> sg_nodes g = ns ->
  live m b <-> b ∈ D0 \/ b ∈ map fst ns' \/ exists j, sg_own (released g) !! j = Some b.
Proof.
  intros HI V4 V8. rewrite (si_live _ HI b). simpl fst. simpl snd. rewrite V8. setoid_rewrite released_own. split.
  - intros [H|[H|[j H]]]; [by left| |].
    + destruct (proj1 (Hb b) (or_introl H)); [by right; left|]. right; right. exists i. by rewrite decide_True.
    + destruct (decide (j = i)) as [->|E]; [|right; right; exists j; by rewrite decide_False].
      destruct (proj1 (Hb b) (or_intror (eq_trans (eq_sym V4) H))); [by right; left|].
      right; right. exists i. by rewrite decide_True.
  - intros [H|[H|[j H]]]; [by left| |].
    + destruct (proj2 (Hb b) (or_introl H)); [by right; left|]. right; right. exists i. congruence.
    + case_decide; [|by right; right; exists j]. destruct (proj2 (Hb b) (or_intror H)); [by right; left|].
      right; right. exists i. congruence.
Qed.

Lemma SInv_release es a log m g : view i es a po (Some (log, ns)) v (m, g) ->
  SInv (upd m (q, SQ_LOCK) SPIN_LOCK_UNLOCKED, released g).
Proof.
  intros V. pose proof (fun b => release_nodes es a log m g b V) as Hin.
  pose proof (fun j b => release_others es a log m g j b V) as Hj.
  destruct V as [HI V2 V3 V4 V5 (V6 & V7 & V8 & V9)]. pose proof (release_live m g) as HL. simpl in *.
  pose proof HI as [I1 I2 [I3 I3'] I4 I5 I6 I7 I8 I9 I10 I11 I12 I13]. simpl in *. rewrite V8 in *.
  destruct (I10 i V6) as [Hg Hi]. set (m' := upd m (q, SQ_LOCK) SPIN_LOCK_UNLOCKED).
  split; simpl fst; simpl snd.
  - simpl. apply legal_snoc; [done|]. by rewrite I2, Hstep.
  - simpl. by rewrite after_snoc, I2, Hstep.
  - split; [done|]. by apply is_struct_upd.
  - intros p k Hp. assert (Hp' : p ∈ map fst ns') by (by apply (list_elem_of_fmap_2' fst _ (p, k))).
    destruct (Hin p (or_introl Hp')) as (N1 & N2 & N3). split; [by apply is_node_upd|]. unfold m'. rewrite get_upd_ne by congruence.
    destruct (Hns p k Hp) as [H|(H1 & H2 & H3)]; [by destruct (I4 p k H) as (_ & ? & ? & ?)|].
    split_and!; auto. rewrite <- H2. by apply get_lookup_eq.
  - done.
  - intros j p. rewrite released_own. unfold m'. rewrite is_node_upd. case_decide; intros Hp.
    + destruct (Hin p (or_intror Hp)) as (? & ? & _). auto.
    + destruct (I6 j p Hp) as (N1 & N2 & _), (Hj j p ltac:(done) Hp) as [N3 _]. auto.
  - intros j j' p. rewrite !released_own. case_decide as E1; case_decide as E2; intros P1 P2; [congruence| | |eauto].
    + by destruct (Hj j' p E2 P2).
    + by destruct (Hj j p E1 P1).
  - intros b. unfold m'. rewrite live_upd. by apply HL.
  - intros _. split; [|unfold m'; apply get_upd_eq; by eapply live_get].
    destruct Hsq as (h & S1 & S2 & S3). exists h. unfold m'. rewrite !get_upd_ne by congruence.
    rewrite !(get_lookup_eq v m) by (apply V9; by left). split_and!; auto.
    apply flist_upd; [by left|]. eapply flist_objs; [|exact S2]. intros b Hb'. apply Hin. by left.
  - done.
  - by apply mroom_upd.
  - done.
  - intros j Hjn. rewrite released_own, decide_False by lia. by apply I13.
Qed.

Lemma rg_view_unlock es a log x : view i es a po (Some (log, ns)) v x ->
  rg (ssees i) (SGu i) (spin_unlock (q, SQ_LOCK)) (fun _ y => view i (es ++ [(o, r)]) a po' None v y) x.
Proof.
  intros V0. unfold spin_unlock, atomic_xchg4, rmw. apply rg_bind. cbn [rg spin_unlock_barrier].
  apply rg_bind. apply rg_act. intros y HR. pose proof (view_stable _ _ _ _ _ _ _ _ V0 HR) as V. clear x V0 HR.
  destruct y as [m g]. pose proof (SInv_release _ _ _ _ _ V) as HI'.
  pose proof V as [HI V2 V3 V4 V5 (V6 & V7 & V8 & V9)]. simpl in *.
  destruct (si_held _ HI i V6) as [Hg Hi]. simpl in Hg. rewrite Hg. destruct (si_q _ HI) as [HqD _].
  assert (Ho : forall b, b <> q -> upd m (q, SQ_LOCK) SPIN_LOCK_UNLOCKED !! b = m !! b) by (intros b' Hb'; by apply lookup_upd_ne).
  exists 1, (upd m (q, SQ_LOCK) SPIN_LOCK_UNLOCKED), (released g). split; [done|]. split.
  - intros j Hji. split; simpl fst; simpl snd; auto; try (simpl; congruence).
    + simpl. by rewrite mine_snoc, decide_False, app_nil_r by congruence.
    + by rewrite released_own, decide_False by congruence.
    + intros p Hp. apply Ho. destruct (si_own _ HI j p Hp) as (_ & N & _). congruence.
  - split; simpl fst; simpl snd; auto.
    + simpl. by rewrite mine_snoc, decide_True, V2.
    + by rewrite released_own, decide_True.
    + intros p Hp. destruct (release_nodes _ _ _ _ _ p V (or_intror Hp)) as (_ & N & E). rewrite Ho; [done|congruence].
Qed.
End release.

(** ** The operations *)

Lemma last_member (ps : list Z) : ps <> [] -> List.last ps NULL ∈ ps.
Proof.
  intros H. destruct (exists_last H) as (l & a & ->). rewrite List.last_last. apply elem_of_app. right. left.
Qed.

(** The last node linked to a new one. *)
Lemma flist_snoc f m h ps p : flist f m h ps -> ps <> [] -> NoDup ps -> p ∉ ps -> is_node m p ->
  get m (p, f) = Some NULL -> flist f (upd m (List.last ps NULL, f) p) h (ps ++ [p]).
Proof.
  revert h. induction ps as [|a ps IH]; intros h Hl Hne Hnd Hp Hn Hg; [done|].
  destruct Hl as (-> & Ha & h' & Hh & Hl). apply NoDup_cons in Hnd as [Hna Hnd].
  apply not_elem_of_cons in Hp as [Hpa Hp]. destruct ps as [|b ps].
  - simpl in *. subst h'. split; [done|]. split; [by apply is_node_upd|]. exists p.
    rewrite get_upd_eq by (by apply is_node_live). split; [done|]. split; [done|]. split; [by apply is_node_upd|].
    exists NULL. by rewrite get_upd_ne by congruence.
  - change (List.last (a :: b :: ps) NULL) with (List.last (b :: ps) NULL). simpl app.
    split; [done|]. split; [by apply is_node_upd|]. exists h'. rewrite get_upd_ne.
    + split; [done|]. by apply IH.
    + intros [= E]. apply Hna. rewrite <- E. exact (last_member (b :: ps) ltac:(done)).
Qed.

(** The words of the queue, with the lock held. *)
Lemma rg_q_load i es a po log ns v x off w : view i es a po (Some (log, ns)) v x -> get v (q, off) = Some w ->
  rg (ssees i) (SGu i) (load (q, off)) (fun r y => r = w /\ view i es a po (Some (log, ns)) v y) x.
Proof. intros V Hg. apply rg_view_load; [done| |done]. right. exists log, ns. auto. Qed.

Lemma rg_q_store i es a po log ns v x off w : view i es a po (Some (log, ns)) v x -> is_struct v q sizeof_squeue ->
  off = SQ_HEAD \/ off = SQ_TAIL ->
  rg (ssees i) (SGu i) (store (q, off) w) (fun _ y => view i es a po (Some (log, ns)) (upd v (q, off) w) y) x.
Proof.
  intros V Hs Ho. apply rg_view_store; [done| |].
  - right. exists log, ns. split; [done|]. left. split; [done|]. simpl. lia.
  - eapply is_struct_inb; [exact Hs|]. unfold sizeof_squeue. lia.
Qed.

(** What a thread that has just got the lock knows. *)
Lemma view_inside i es a po log ns x : view i es a po (Some (log, ns)) x.1 x ->
  is_struct x.1 q sizeof_squeue /\ NoDup (map fst ns) /\ (q ∉ map fst ns) /\
  (forall p, po = Some p -> p ∉ map fst ns) /\ forall p k, (p, k) ∈ ns -> get x.1 (p, KEY) = Some k /\ long k.
Proof.
  intros [HI _ _ V4 _ (V6 & V7 & <- & _)]. destruct (si_q _ HI) as [Hq Hs]. split_and!; [done|apply (si_nodup _ HI)|..].
  - intros H. by destruct (si_node_in _ _ HI H).
  - intros p ->. apply (si_own _ HI i p V4).
  - intros p k Hp. destruct (si_nodes _ HI p k Hp) as (_ & ? & _ & ?). done.
Qed.

Lemma view_own_node i es a p hs v x : view i es a (Some p) hs v x -> is_node v p /\ p <> q.
Proof.
  intros [HI _ _ V4 V5 _]. destruct (si_own _ HI i p V4) as (N1 & N2 & _). split.
  - eapply is_node_lookup; [|exact N1]. by rewrite V5.
  - intros ->. by destruct (si_q _ HI).
Qed.

(** The new node linked at the end, under the lock. *)
Lemma rg_enqueue_link i es a p k log ns v h x : view i es a (Some p) (Some (log, ns)) v x ->
  is_struct v q sizeof_squeue -> NoDup (map fst ns) -> (q ∉ map fst ns) -> (p ∉ map fst ns) ->
  get v (q, SQ_HEAD) = Some h -> flist NEXT v h (map fst ns) ->
  get v (q, SQ_TAIL) = Some (List.last (map fst ns) NULL) ->
  get v (p, NEXT) = Some NULL -> get v (p, KEY) = Some k ->
  rg (ssees i) (SGu i)
    (t <- load (q, SQ_TAIL) ;;
     (if t =? NULL then
        store (q, SQ_TAIL) p ;;
        store (q, SQ_HEAD) p
      else
        t <- load (q, SQ_TAIL) ;;
        store (t, NEXT) p ;;
        store (q, SQ_TAIL) p))
    (fun _ y => exists v', view i es a (Some p) (Some (log, ns)) v' y /\
       squeue q v' (ns ++ [(p, k)]) /\ get v' (p, KEY) = Some k) x.
Proof.
  intros V Hst Hnd Hnq Hpn S1 S2 S3 Hpx Hpk. destruct (view_own_node _ _ _ _ _ _ _ V) as [Hnp Hpq]. apply rg_bind.
  eapply rg_mono; [by apply (rg_q_load _ _ _ _ _ _ _ _ _ _ V S3)|]. clear x V. intros t x [-> V].
  destruct ns as [|z ns].
  - cbn [map List.last Z.eqb]. apply rg_bind.
    eapply rg_mono; [apply (rg_q_store _ _ _ _ _ _ _ _ SQ_TAIL p V); [done|by right]|]. clear x V. intros [] x V.
    eapply rg_mono; [apply (rg_q_store _ _ _ _ _ _ _ _ SQ_HEAD p V); [by rewrite is_struct_upd|by left]|].
    clear x V. intros [] x V. exists (upd (upd v (q, SQ_TAIL) p) (q, SQ_HEAD) p). split; [done|]. split; [|mget].
    exists p. split_and!; [mget| |simpl; mget]. simpl. rewrite !is_node_upd. split_and!; [done|done|].
    exists NULL. split; [mget|done].
  - set (t := List.last (map fst (z :: ns)) NULL) in *.
    assert (Ht : t ∈ map fst (z :: ns)) by (by apply last_member). pose proof (flist_nodes _ _ _ _ _ S2 Ht) as Htn.
    rewrite (proj2 (Z.eqb_neq t NULL)) by (by eapply is_node_nonnull). apply rg_bind.
    eapply rg_mono; [by apply (rg_q_load _ _ _ _ _ _ _ _ _ _ V S3)|]. clear x V. intros t' x [-> V]. apply rg_bind.
    eapply rg_mono; [apply (rg_view_store _ _ _ _ _ _ _ (t, NEXT) p V); [|minb]|].
    { right. exists log, (z :: ns). split; [done|]. by right. }
    clear x V. intros [] x V.
    eapply rg_mono; [apply (rg_q_store _ _ _ _ _ _ _ _ SQ_TAIL p V); [by rewrite is_struct_upd|by right]|].
    clear x V. intros [] x V. eexists. split; [exact V|].
    assert (Htq : t <> q) by (intros E; by rewrite E in Ht).
    assert (Hpt : p <> t) by (intros E; by rewrite <- E in Ht).
    split; [|mget]. exists h. split; [mget|]. rewrite map_app. split.
    + apply flist_upd; [|by apply flist_snoc]. right. cbn [fst]. rewrite elem_of_app.
      intros [H|H]; [done|]. apply list_elem_of_singleton in H. simpl in H. congruence.
    + cbn [map fst]. rewrite List.last_last. mget.
Qed.

Lemma rg_enqueue fuel i es a v x k : view i es a None None v x -> (i < n)%nat -> (a < cap i)%nat -> long k ->
  rg (ssees i) (SGu i) (@queue_spinlock.enqueue allocator_malloc.ops fuel (Z.of_nat i) q k)
    (fun _ y => exists v', view i (es ++ [(Enqueue k, 0)]) (S a) None None v' y) x.
Proof.
  intros V Hi Ha Hk. unfold queue_spinlock.enqueue. apply rg_bind. eapply rg_mono; [by eapply rg_view_malloc|].
  clear x v V. intros p x [Hp V]. rewrite (proj2 (Z.eqb_neq _ _) Hp). apply rg_bind. cbn [rg].
  destruct (view_own_node _ _ _ _ _ _ _ V) as [Hn Hpq]. set (v := x.1) in *. clearbody v.
  apply rg_bind. eapply rg_mono; [apply (rg_view_store _ _ _ _ _ _ _ (p, NEXT) NULL V); [by left|minb]|].
  clear x V. intros [] x V. apply rg_bind.
  eapply rg_mono; [apply (rg_view_store _ _ _ _ _ _ _ (p, KEY) k V); [by left|minb]|].
  clear x V. intros [] x V. apply rg_bind. eapply rg_mono; [by apply (rg_view_lock fuel _ _ _ _ _ _ V)|].
  clear x V. intros [] x (log & ns & V & (h & S1 & S2 & S3) & Hv). specialize (Hv p eq_refl).
  destruct (view_inside _ _ _ _ _ _ _ V) as (Hst & Hnd & Hnq & Hpn & _). specialize (Hpn p eq_refl).
  assert (Hpx : get x.1 (p, NEXT) = Some NULL) by (rewrite (get_lookup_eq _ x.1 p NEXT Hv); mget).
  assert (Hpk : get x.1 (p, KEY) = Some k) by (rewrite (get_lookup_eq _ x.1 p KEY Hv); mget).
  apply (rg_peq _ _ _ _ _ _ (peq_assoc _ _ _)). apply rg_bind.
  eapply rg_mono; [by apply (rg_enqueue_link i es (S a) p k log ns x.1 h x V)|].
  clear x V S1 S2 S3 Hst Hv Hpx Hpk. intros [] x (v' & V & Hsq & Hk'). eapply rg_mono.
  - eapply (rg_view_unlock i (Some p) ns v' (Enqueue k) 0 (ns ++ [(p, k)]) None); [..|exact V].
    + simpl. by rewrite map_app.
    + done.
    + rewrite map_app. apply NoDup_app. split_and!; [done| |apply NoDup_singleton].
      intros b Hb Hb'%list_elem_of_singleton. by rewrite Hb' in Hb.
    + intros p' k' [H|H]%elem_of_app; [by left|]. apply list_elem_of_singleton in H as [= -> ->]. by right.
    + done.
    + intros b. rewrite map_app, elem_of_app. simpl. rewrite list_elem_of_singleton. split; [|naive_solver].
      intros [H|[= <-]]; auto.
  - intros [] y Vy. by exists v'.
Qed.

Lemma i64_u64 k : long k -> i64 (u64 k) = k.
Proof.
  unfold long, i64, u64, M64. intros Hk. rewrite Zplus_mod_idemp_l. rewrite Z.mod_small; lia.
Qed.

(** The first node unlinked, under the lock. *)
Lemma rg_dequeue_unlink i es a p k log ns v x : view i es a None (Some (log, (p, k) :: ns)) v x ->
  is_struct v q sizeof_squeue -> (p ∉ map fst ns) -> p <> q -> squeue q v ((p, k) :: ns) -> get v (p, KEY) = Some k ->
  rg (ssees i) (SGu i)
    (if p =? List.last (map fst ((p, k) :: ns)) NULL then
       store (q, SQ_TAIL) NULL ;;
       store (q, SQ_HEAD) NULL
     else
       h <- load (q, SQ_HEAD) ;;
       n <- load (h, NEXT) ;;
       store (q, SQ_HEAD) n)
    (fun _ y => exists v', view i es a None (Some (log, (p, k) :: ns)) v' y /\
       squeue q v' ns /\ get v' (p, KEY) = Some k /\ is_node v' p) x.
Proof.
  intros V Hst Hpx Hpq (h & S1 & S2 & S3) Hk. cbn [map flist fst] in S2. destruct S2 as (-> & Hpn & nx & Hnx & S2).
  destruct ns as [|z ns].
  - cbn [map fst List.last]. rewrite Z.eqb_refl. apply rg_bind.
    eapply rg_mono; [apply (rg_q_store _ _ _ _ _ _ _ _ SQ_TAIL NULL V); [done|by right]|]. clear x V. intros [] x V.
    eapply rg_mono; [apply (rg_q_store _ _ _ _ _ _ _ _ SQ_HEAD NULL V); [by rewrite is_struct_upd|by left]|].
    clear x V. intros [] x V. eexists. split; [exact V|]. split; [|split; [mget|by rewrite !is_node_upd]].
    exists NULL. split; [mget|]. split; [done|]. simpl. mget.
  - assert (Hlast : List.last (map fst ((p, k) :: z :: ns)) NULL = List.last (map fst (z :: ns)) NULL) by done.
    rewrite Hlast in *. rewrite (proj2 (Z.eqb_neq p _)).
    2: { intros E. apply Hpx. rewrite E. by apply last_member. }
    apply rg_bind. eapply rg_mono; [by apply (rg_q_load _ _ _ _ _ _ _ _ _ _ V S1)|]. clear x V. intros ? x [-> V].
    apply rg_bind. eapply rg_mono; [apply (rg_view_load _ _ _ _ _ _ _ (p, NEXT) nx V); [|exact Hnx]|].
    { right. exists log, ((p, k) :: z :: ns). split; [done|]. right. left. }
    clear x V. intros ? x [-> V].
    eapply rg_mono; [apply (rg_q_store _ _ _ _ _ _ _ _ SQ_HEAD nx V); [done|by left]|].
    clear x V. intros [] x V. eexists. split; [exact V|]. split; [|split; [mget|by rewrite !is_node_upd]].
    exists nx. split; [mget|]. split; [|mget]. apply flist_upd; [by left|done].
Qed.

(** [free_node] of the node the thread owns. *)
Lemma rg_free_node i es a p v x : view i es a (Some p) None v x -> is_node v p ->
  rg (ssees i) (SGu i) (allocator_malloc.free_node p) (fun _ y => exists v', view i es a None None v' y) x.
Proof.
  intros V Hn. unfold allocator_malloc.free_node.
  apply rg_bind. eapply rg_mono; [apply (rg_view_store _ _ _ _ _ _ _ (p, NEXT) 17 V); [by left|minb]|].
  clear x V. intros [] x V. apply rg_bind.
  eapply rg_mono; [apply (rg_view_store _ _ _ _ _ _ _ (p, MR_NEXT) 34 V); [by left|minb]|].
  clear x V. intros [] x V. eapply rg_mono; [by apply (rg_view_free _ _ _ _ _ _ V)|]. intros [] y Vy. by eexists.
Qed.

Lemma rg_dequeue fuel i es a v0 x : view i es a None None v0 x -> (i < n)%nat ->
  rg (ssees i) (SGu i) (@queue_spinlock.dequeue allocator_malloc.ops fuel (Z.of_nat i) q)
    (fun r y => exists v', view i (es ++ [(Dequeue, r)]) a None None v' y) x.
Proof.
  intros V Hi. unfold queue_spinlock.dequeue. apply rg_bind. eapply rg_mono; [by apply (rg_view_lock fuel _ _ _ _ _ _ V)|].
  clear x V. intros [] x (log & ns & V & Hsq & _). pose proof Hsq as (h & S1 & S2 & S3).
  destruct (view_inside _ _ _ _ _ _ _ V) as (Hst & Hnd & Hnq & _ & Hkey).
  set (v := x.1) in *. clearbody v. apply rg_bind.
  eapply rg_mono; [by apply (rg_q_load _ _ _ _ _ _ _ _ _ _ V S1)|]. clear x V. intros h' x [-> V].
  destruct ns as [|[p k] ns].
  - cbn [map flist] in S2. subst h. rewrite Z.eqb_refl. apply rg_bind. eapply rg_mono.
    + eapply (rg_view_unlock i None [] v Dequeue (-1) [] None); [done|by exists NULL|constructor|..|exact V].
      * intros p k []%elem_of_nil.
      * done.
      * intros b. naive_solver.
    + intros [] y Vy. by exists v.
  - cbn [map flist fst] in S2. destruct S2 as (-> & Hpn & _). rewrite (proj2 (Z.eqb_neq p NULL)) by (by eapply is_node_nonnull).
    destruct (Hkey p k ltac:(left)) as [Hk Hlong]. cbn [map fst] in Hnd. apply NoDup_cons in Hnd as [Hpx Hnd].
    do 2 (apply rg_bind; eapply rg_mono; [by apply (rg_q_load _ _ _ _ _ _ _ _ _ _ V S1)|]; clear x V; intros ? x [-> V]).
    apply rg_bind. eapply rg_mono; [by apply (rg_q_load _ _ _ _ _ _ _ _ _ _ V S3)|]. clear x V. intros t x [-> V].
    apply rg_bind. eapply rg_mono; [apply (rg_dequeue_unlink i es a p k log ns v x V); auto; intros ->; apply Hnq; left|].
    clear x V. intros [] x (v' & V & Hsq' & Hk' & Hn'). apply rg_bind. eapply rg_mono.
    + eapply (rg_view_unlock i None ((p, k) :: ns) v' Dequeue k ns (Some p)); [done|done|done|..|exact V].
      * intros p' k' H. left. by right.
      * by intros ? [= <-].
      * intros b. simpl. rewrite elem_of_cons. naive_solver.
    + clear x V. intros [] x V. apply rg_bind.
      eapply rg_mono; [apply (rg_view_load _ _ _ _ _ _ _ (p, KEY) k V); [by left|done]|].
      clear x V. intros ? x [-> V]. apply rg_bind.
      eapply rg_mono; [by apply (rg_free_node _ _ _ _ _ _ V)|]. intros [] y Vy. cbn [rg]. by rewrite i64_u64.
Qed.

Lemma rg_spinq_client fuel i os es a v x : view i es a None None v x -> (i < n)%nat -> Forall long_op os ->
  (a + length os <= cap i)%nat ->
  rg (ssees i) (SGu i) (@spinq_client allocator_malloc.ops fuel q i os)
    (fun rs y => (exists a' v', view i (es ++ zip os rs) a' None None v' y) /\ length rs = length os) x.
Proof.
  intros V Hi Hok. revert es a v x V. induction os as [|o os IH]; intros es a v x V Hc.
  - split; [|done]. exists a, v. by rewrite app_nil_r.
  - apply Forall_cons in Hok as [Ho Hok]. simpl in Hc. unfold spinq_client. cbn [op_client]. apply rg_bind.
    apply (rg_mono _ _ _ (fun r y => exists a' v', view i (es ++ [(o, r)]) a' None None v' y /\ (a' <= S a)%nat)).
    + destruct o as [k|]; cbn [spinq_op].
      * apply rg_bind. eapply rg_mono; [apply (rg_enqueue fuel i es a v x k V); [done|lia|done]|].
        intros [] y [v' Vy]. exists (S a), v'. split; [done|lia].
      * eapply rg_mono; [by apply (rg_dequeue fuel i es a v x V)|]. intros r y [v' Vy]. exists a, v'. split; [done|lia].
    + clear x V. intros r x (a' & v' & V & Ha'). apply rg_bind.
      eapply rg_mono; [apply (IH Hok _ _ _ _ V); lia|]. intros rs y [Vy Hl]. cbn [rg]. simpl. split; [|by rewrite Hl].
      destruct Vy as (a2 & v2 & Vy). exists a2, v2. by rewrite <- app_assoc in Vy.
Qed.
End shared.

(** ** The pool of threads *)
Section spinq_program.
Context `{HM : Malloc, HMR : !MallocRoom}.

(** The queue at rest holds [c], the lock is free, and the objects in memory
    are those of [m0] and the nodes of the queue. *)
Definition spinq_rest (q : Z) (m0 : mem) (c : list Z) (m : mem) : Prop :=
  exists ns, squeue q m ns /\ map snd ns = c /\ NoDup (map fst ns) /\ get m (q, SQ_LOCK) = Some 0 /\
    (forall p k, (p, k) ∈ ns -> get m (p, KEY) = Some k) /\
    forall b, live m b <-> live m0 b \/ b ∈ map fst ns.

Lemma spinq_init_spec m k : mroom (S k) m ->
  tot queue_spinlock.queue_init m (fun q m' => mroom k m' /\ squeue q m' [] /\ get m' (q, SQ_LOCK) = Some 0 /\
    is_struct m' q sizeof_squeue).
Proof.
  intros Hm. unfold queue_spinlock.queue_init, mapmem, malloc. apply tot_bind.
  eapply tot_alloc; [exact Hm|done|]. intros q (L1 & L2 & _ & _) Hm1. set (m1 := <[q := _]> m) in *.
  assert (Hst : is_struct m1 q 24) by (split; [done|]; exists (Obj 24 ∅); unfold m1; by rewrite lookup_insert_eq).
  clearbody m1. psteps. split_and!; [by repeat apply mroom_upd| |mget|by rewrite !is_struct_upd].
  exists NULL. split; [mget|]. split; [done|]. simpl. mget.
Qed.

(** No thread holds the lock or owns a node. *)
Lemma spinq_at_rest q n k cap m0 m g : SInv q (dom m0) n k cap (m, g) ->
  (forall i, (i < n)%nat -> sg_own g !! i = None /\ sg_holder g <> Some i) ->
  spinq_rest q m0 (after fifo_step (sg_log g) []) m.
Proof.
  intros HI Hi. pose proof HI as [I1 I2 _ I4 I5 I6 _ I8 I9 I10 _ _ I13]. simpl in *.
  assert (Hh : sg_holder g = None).
  { destruct (sg_holder g) as [i|] eqn:E; [|done]. destruct (I10 i eq_refl) as [_ H]. by destruct (Hi i H). }
  destruct (I9 Hh) as [Hsq Hl]. exists (sg_nodes g). split_and!; auto.
  - intros p kk Hp. apply (I4 p kk Hp).
  - intros b. rewrite (I8 b), elem_of_dom. split; [|tauto]. intros [H|[H|[i H]]]; auto.
    destruct (decide (i < n)%nat) as [Hlt|Hge]; [destruct (Hi i Hlt); congruence|].
    destruct (I13 i ltac:(lia)). congruence.
Qed.

Lemma spinq_pool fuel ops sched q m k : mroom k m -> squeue q m [] -> get m (q, SQ_LOCK) = Some 0 ->
  is_struct m q sizeof_squeue -> (sum_list (map length ops) <= k)%nat -> Forall (Forall long_op) ops ->
  match exec sched (imap (fun i os => @spinq_client allocator_malloc.ops fuel q i os) ops) m with
  | Ok (ps, m') => exists log, legal fifo_step log [] /\
      (forall i rs, ps !! i = Some (Ret rs) -> exists os, ops !! i = Some os /\
         mine i log = zip os rs /\ length rs = length os) /\
      (Forall (fun p => exists rs, p = Ret rs) ps -> spinq_rest q m (after fifo_step log []) m')
  | Err e => e = EFuel
  end.
Proof.
  intros Hm Hsq Hlk Hst Hk Hok. rewrite <- caps_sum in Hk. set (n := length ops) in *.
  set (J := SInv q (dom m) n k (caps ops)). set (g0 := SG None [] [] ∅ []).
  set (Q := fun (i : nat) (rs : list Z) (y : mem * sghost) => exists os, ops !! i = Some os /\
    (exists a v, view q (dom m) n k (caps ops) i (zip os rs) a None None v y) /\ length rs = length os).
  assert (HJ : J (m, g0)).
  { split; simpl; auto; try done.
    - split; [apply elem_of_dom; by eapply is_struct_live|done].
    - intros p kk []%elem_of_nil.
    - constructor.
    - intros b. rewrite elem_of_dom. split; [by left|]. intros [H|[[]%elem_of_nil|[i Hi]]]; done.
    - by rewrite Nat.sub_0_r.
    - intros i. apply Nat.le_0_l. }
  pose proof (rg_sound (ssees q (dom m) n k (caps ops)) (SGu q (dom m) n k (caps ops)) Q) as HS.
  specialize (HS ltac:(intros i j x y Hij HG; by apply HG)).
  specialize (HS ltac:(intros i rs y y' (os & H1 & (a & v & H2) & H3) HR; exists os; split_and!; auto;
    exists a, v; by eapply view_stable)).
  specialize (HS J ltac:(intros i x y HG HI; by apply (ss_inv _ _ _ _ _ _ _ _ (HG (S i) ltac:(lia))))).
  specialize (HS sched (imap (fun i os => @spinq_client allocator_malloc.ops fuel q i os) ops) m g0).
  assert (Hpool : pool_ok (ssees q (dom m) n k (caps ops)) (SGu q (dom m) n k (caps ops)) Q
    (imap (fun i os => @spinq_client allocator_malloc.ops fuel q i os) ops) (m, g0)).
  { intros i p Hp. apply list_lookup_imap_Some in Hp as (os & Hos & ->).
    eapply rg_mono; [apply (rg_spinq_client q (dom m) n k (caps ops) Hk fuel i os [] 0 m)|].
    - by split.
    - unfold n. by eapply lookup_lt_Some.
    - rewrite Forall_lookup in Hok. by eapply Hok.
    - unfold caps. rewrite Hos. simpl. lia.
    - intros rs y [H1 H2]. by exists os. }
  specialize (HS Hpool HJ). pose proof (exec_length sched (imap (fun i os => @spinq_client allocator_malloc.ops fuel q i os) ops) m) as HL.
  destruct (exec _ _ _) as [[ps m']|e]; [|exact HS]. destruct HS as (g & Hok' & HI).
  specialize (HL _ _ eq_refl). rewrite length_imap in HL.
  exists (sg_log g). split_and!; [apply (si_legal _ _ _ _ _ _ HI)|..].
  - intros i rs Hi. destruct (Hok' i _ Hi) as (os & H1 & (a & v & V) & H3). exists os. split_and!; auto. by destruct V.
  - intros Hall. eapply (spinq_at_rest q n k (caps ops)); [exact HI|]. intros i Hi.
    destruct (lookup_lt_is_Some_2 ps i) as [p Hp]; [unfold n in Hi; lia|].
    rewrite Forall_lookup in Hall. destruct (Hall i p Hp) as [rs ->].
    destruct (Hok' i _ Hp) as (os & _ & (a & v & [_ _ _ V4 _ V6]) & _). done.
Qed.
End spinq_program.

(** Two threads under two schedules: both finish, in different orders. *)
Definition spinq_run (sched : list nat) : outcome (list (option (list Z))) :=
  match run queue_spinlock.queue_init (static_mem 65) with
  | Ok (q, m0) =>
      match exec sched (imap (fun i os => @spinq_client allocator_malloc.ops 20 q i os)
        [[Enqueue 7; Dequeue]; [Enqueue (-8); Enqueue 9]]) m0 with
      | Ok (ps, _) => Ok (map (fun p => match p with Ret rs => Some rs | _ => None end) ps)
      | Err e => Err e
      end
  | Err e => Err e
  end.

Example spinq_schedules :
  spinq_run (concat (replicate 60 [0%nat; 1%nat; 1%nat])) = Ok [Some [0; -8]; Some [0; 0]] /\
  spinq_run (concat (replicate 60 [0%nat; 1%nat])) = Ok [Some [0; 7]; Some [0; 0]].
Proof. split; vm_compute; reflexivity. Qed.

(** ** Theorems *)


