(* ===== verification/SmrQueue.v ===== *)
(** * The program queue_lf_smr (allocator_malloc.c, smr.c, queue_lf_smr.c)

    The queue on hazard pointers, run by one thread: its operations over the
    queue in memory of QueueLf.v, and the whole program as a FIFO queue. *)
From S2P Require Export SmrProgram QueueProgram LockSerial.

(** The operations of thread [tid]. *)
Section client.
Context `{HM : Malloc, HQ : Qsort}.
Variables (fuel : nat) (tid q : Z).

Definition smr_queue_op (o : queue_op) : prog mem Z :=
  match o with
  | Enqueue k => @queue_lf_smr.enqueue allocator_malloc.ops fuel tid q k ;; Ret 0
  | Dequeue => @queue_lf_smr.dequeue allocator_malloc.ops HQ fuel tid q
  end.

Definition smr_queue_client (os : list queue_op) : prog mem (list Z) := op_client smr_queue_op os.
End client.

Definition smr_queue_start `{HM : Malloc} (fuel : nat) : prog mem Z :=
  smr.mr_init ;; @queue_lf_smr.queue_init HM allocator_malloc.ops fuel 0.

(** * Proofs *)
Section smr_queue.
Context `{HM : Malloc, HQ : Qsort}.
Existing Instances allocator_malloc.ops smr.ops smr_laws.
Import queue_lf_smr.
Variables (fuel : nat) (tid : Z).
Implicit Types (m : mem) (fs : list Z) (O F : gset Z) (xs ts bs : list nd).

(** The thread's hazard pointers. *)
Definition slot (hp i : Z) : loc := (hp, CACHESIZE * u64 (tid * smr.K + i)).

(** The array of hazard pointers stays where it is. *)
Lemma smr_own_globals n m O : smr_own tid n m O -> GLOBALS ∈ O /\ exists hp, get m (GLOBALS, G_HP) = Some hp.
Proof.
  intros (hp & pl & nt & ps & rl & Hs & -> & _). split; [|exists hp; apply Hs].
  apply elem_of_list_to_set. unfold smr_objs. left.
Qed.

Lemma qat_hp m0 F q fs n O d xs ts m l v hp : qat m0 F tid q fs n O d xs ts m -> l.1 ∉ O ->
  get m (GLOBALS, G_HP) = Some hp -> get (upd m l v) (GLOBALS, G_HP) = Some hp.
Proof.
  intros Hq Hl Hg. destruct (smr_own_globals _ _ _ (qa_own _ _ _ _ _ _ _ _ _ _ _ Hq)) as [HG _].
  rewrite get_upd_ne; [done|]. intros ->. done.
Qed.

(** The thread sets one of its hazard pointers. *)
Lemma qat_protect m0 F q fs n O d xs ts m hp i p : qat m0 F tid q fs n O d xs ts m ->
  get m (GLOBALS, G_HP) = Some hp -> (i = 0 \/ i = 1) ->
  let l := slot hp i in
  inb m l = true /\ qat m0 F tid q fs n O d xs ts (upd m l p) /\ get (upd m l p) (GLOBALS, G_HP) = Some hp /\
  (forall b, b ∉ O -> upd m l p !! b = m !! b).
Proof.
  intros Hq Hg Hi l. pose proof (qa_own _ _ _ _ _ _ _ _ _ _ _ Hq) as Ho.
  pose proof Ho as (hp' & pl & nt & ps & rl & Hs & HO & H1 & H2).
  assert (hp' = hp) as -> by (pose proof (sm_hp _ _ _ _ _ _ _ Hs); congruence).
  pose proof (sm_tid _ _ _ _ _ _ _ Hs) as Htid. unfold MAX_THREADS in Htid.
  assert (El : l = (hp, CACHESIZE * Z.of_nat (Z.to_nat (tid * 2 + i)))).
  { unfold l, slot, smr.K. rewrite !u64_small by (unfold M64; lia). by rewrite Z2Nat.id by lia. }
  set (j := Z.to_nat (tid * 2 + i)) in *. assert (Hj : (j < 132)%nat) by lia. clearbody l. subst l.
  assert (HhO : hp ∈ O) by (subst O; apply elem_of_list_to_set; unfold smr_objs; rewrite !elem_of_cons; auto).
  assert (Hf : frame O m (upd m (hp, CACHESIZE * Z.of_nat j) p) O) by (by apply frame_upd).
  split_and!.
  - eapply is_struct_inb; [apply Hs|]. unfold CACHESIZE. lia.
  - eapply qat_step; [exact Hq| |exact Hf]. exists hp, pl, nt, (<[j := p]> ps), rl. split_and!; auto. by apply smr_at_protect.
  - rewrite get_upd_ne; [done|]. intros [= E _]. pose proof (sm_nodup _ _ _ _ _ _ _ Hs) as Hnd.
    rewrite !NoDup_cons, !elem_of_cons in Hnd. intuition.
  - intros b Hb. apply lookup_upd_ne. simpl. congruence.
Qed.

(** The objects of the queue are not those of the scheme. *)
Lemma qat_out m0 F q fs n O d xs ts m b : qat m0 F tid q fs n O d xs ts m -> b ∈ fs -> b ∉ O.
Proof.
  intros Hq Hb. eapply linv_own; [exact (qa_inv _ _ _ _ _ _ _ _ _ _ _ Hq)|]. by apply objs_scratch.
Qed.

Lemma qat_end_out m0 F q fs n O d ts bs m : qat m0 F tid q fs n O d (ts ++ bs) ts m -> (end_loc (d, NEXT) ts).1 ∉ O.
Proof.
  intros Hq. pose proof (qa_unmarked _ _ _ _ _ _ _ _ _ _ _ Hq) as Hu. apply Forall_app in Hu as [Hu _].
  pose proof (qa_inv _ _ _ _ _ _ _ _ _ _ _ Hq) as Hi. eapply linv_own; [exact Hi|].
  rewrite objs_app, elem_of_app. left. by apply (linv_at _ _ _ _ _ _ Hi).
Qed.

(** The loop of [enqueue]: the tail is helped on, then the node is linked. *)
Lemma smr_enqueue_loop m0 F q p fs n O d xs ts m key hp (Q : Z -> mem -> Prop) :
  qat m0 F tid q (p :: fs) n O d xs ts m -> q ∈ fs -> 0 < p < M64 -> p mod 2 = 0 ->
  get m (p, KEY) = Some key -> get m (p, NEXT) = Some NULL -> get m (GLOBALS, G_HP) = Some hp ->
  (length xs < fuel)%nat ->
  (forall m', qat m0 F tid q fs n O d (xs ++ [Nd p key false]) xs m' -> get m' (GLOBALS, G_HP) = Some hp ->
     Q (end_loc (d, NEXT) xs).1 m') ->
  tot (loop fuel (fun _ : unit =>
    t <- load (q, Q_TAIL) ;;
    store (slot hp 0) t ;;
    memory_barrier ;;
    t' <- load (q, Q_TAIL) ;;
    if negb (t' =? t) then continue tt
    else
      next <- load (t, NEXT) ;;
      if negb (next =? NULL) then
        _ <- CAS (q, Q_TAIL) t next ;;
        continue tt
      else
        ok <- CAS (t, NEXT) NULL p ;;
        if ok : bool then break t else continue tt) tt) m Q.
Proof.
  intros Hq Hqf Hp He Hk Hx Hg Hf HQ'.
  eapply (tot_loop (fun k _ m' => exists ts bs, k = length bs /\ xs = ts ++ bs /\
    qat m0 F tid q (p :: fs) n O d xs ts m' /\ get m' (p, KEY) = Some key /\ get m' (p, NEXT) = Some NULL /\
    get m' (GLOBALS, G_HP) = Some hp))
    with (n := (length xs - length ts)%nat); [|lia|].
  2:{ destruct (qa_ts _ _ _ _ _ _ _ _ _ _ _ Hq) as [bs ->]. exists ts, bs. rewrite length_app.
      split_and!; auto. lia. }
  clear ts Hq Hk Hx Hg m. intros k [] m (ts & bs & -> & -> & Hq & Hk & Hx & Hg).
  assert (HpO : p ∉ O) by (eapply qat_out; [exact Hq|left]).
  assert (HqO : q ∉ O) by (eapply qat_out; [exact Hq|by right]).
  assert (Hpq : p <> q).
  { destruct (linv_drop _ _ _ _ _ _ (qa_inv _ _ _ _ _ _ _ _ _ _ _ Hq)) as (_ & Hpx & _).
    intros ->. apply Hpx. by apply objs_scratch. }
  pose proof (qa_tail _ _ _ _ _ _ _ _ _ _ _ Hq) as HT. apply tot_bind. eapply tot_load; [exact HT|].
  destruct (qat_protect _ _ _ _ _ _ _ _ _ _ hp 0 (end_loc (d, NEXT) ts).1 Hq Hg ltac:(auto)) as (Hib & Hq' & Hg' & Ho).
  set (m' := upd m (slot hp 0) _) in *. rewrite <- (get_lookup_eq m m') in Hk, Hx by auto.
  apply tot_bind. eapply tot_store; [exact Hib|]. apply tot_bind. apply tot_ret. fold m'. clearbody m'. clear m Hq HT Hg Hib Ho.
  destruct (qat_tail _ _ _ _ _ _ _ _ _ _ _ Hq') as (T1 & T2 & T3). pose proof (qat_end_out _ _ _ _ _ _ _ _ _ _ Hq') as TO.
  pose proof (qa_tail _ _ _ _ _ _ _ _ _ _ _ Hq') as HT. set (e := end_loc (d, NEXT) ts) in *.
  assert (Ee : (e.1, NEXT) = e) by (rewrite <- T1; by destruct e).
  apply tot_bind. eapply tot_load; [exact HT|]. rewrite Z.eqb_refl. cbn [negb]. rewrite Ee.
  apply tot_bind. eapply tot_load; [exact T2|]. destruct bs as [|x bs]; cbn [first_addr].
  - cbn [Z.eqb negb]. apply tot_bind. eapply tot_CAS_true; [exact T2|]. apply tot_ret. rewrite app_nil_r in *.
    apply HQ'; [by apply qat_link|]. by eapply qat_hp.
  - assert (Hxn : is_node m' (na x)).
    { destruct (linv_node _ _ _ _ _ _ _ (qa_inv _ _ _ _ _ _ _ _ _ _ _ Hq')) as (Hn & _). auto. }
    rewrite (proj2 (Z.eqb_neq (na x) NULL)) by (by eapply is_node_nonnull).
    cbn [negb]. apply tot_bind. eapply tot_CAS_true; [exact HT|]. apply tot_ret.
    exists (length bs). split; [simpl; lia|]. exists (ts ++ [x]), bs. rewrite <- app_assoc. split_and!; auto.
    + by apply qat_help.
    + mget.
    + mget.
    + by eapply qat_hp.
Qed.

(** [hp0] and [hp1]. *)
Lemma tot_HP0 m hp (Q : loc -> mem -> Prop) : get m (GLOBALS, G_HP) = Some hp -> Q (slot hp 0) m ->
  tot (smr.HP (u64 (tid * smr.K))) m Q.
Proof.
  intros Hg HQ'. unfold smr.HP. apply tot_bind. eapply tot_load; [exact Hg|]. apply tot_ret.
  unfold slot in HQ'. by rewrite Z.add_0_r in HQ'.
Qed.

Lemma tot_HP1 m hp (Q : loc -> mem -> Prop) : get m (GLOBALS, G_HP) = Some hp -> Q (slot hp 1) m ->
  tot (smr.HP (u64 (tid * smr.K + 1))) m Q.
Proof. intros Hg HQ'. unfold smr.HP. apply tot_bind. eapply tot_load; [exact Hg|]. by apply tot_ret. Qed.

Lemma smr_enqueue_spec n q key O d xs ts m :
  lf_queue tid n q O d xs ts m -> (n < fuel)%nat -> (length xs < fuel)%nat ->
  tot (new_node fuel tid) m (fun p _ => p <> NULL) ->
  tot (enqueue fuel tid q key) m (fun _ m' => queue_post tid n q O d xs m (map nk xs ++ [key]) m').
Proof.
  intros Hq Hf1 Hf2 Hmem. unfold enqueue. apply tot_bind.
  eapply qat_alloc; [exact Hq|done|exact Hmem|]. intros p O1 m1 Hq1 Hp He.
  destruct (smr_own_globals _ _ _ (qa_own _ _ _ _ _ _ _ _ _ _ _ Hq1)) as [HGO [hp Hg]].
  assert (HpO : p ∉ O1) by (eapply qat_out; [exact Hq1|left]).
  apply tot_bind. eapply tot_HP0; [exact Hg|]. apply tot_bind. eapply tot_HP1; [exact Hg|].
  pose proof (qa_inv _ _ _ _ _ _ _ _ _ _ _ Hq1) as Hi.
  assert (Hpq : p <> q).
  { destruct (linv_drop _ _ _ _ _ _ Hi) as (_ & Hpx & _). intros ->. apply Hpx, objs_scratch. left. }
  assert (Hst : is_struct m1 p 32) by (eapply linv_scratch; [exact Hi|left]).
  apply tot_bind. eapply tot_store; [minb|]. apply tot_bind. eapply tot_store; [minb|]. apply tot_bind, tot_ret.
  apply tot_bind. eapply (smr_enqueue_loop _ _ q p [q]); [|left|done|done|mget|mget| |done|].
  { do 2 (apply qat_scratch; [|left|auto]). exact Hq1. }
  { rewrite !get_upd_ne by congruence. exact Hg. }
  intros m2 Hq2 Hg2. apply tot_bind. eapply tot_CAS_true; [apply Hq2|].
  pose proof (qat_help _ _ _ _ _ _ _ _ _ (Nd p key false) [] _ Hq2) as Hq3. cbn [na] in Hq3.
  assert (Hg3 : get (upd m2 (q, Q_TAIL) p) (GLOBALS, G_HP) = Some hp).
  { eapply qat_hp; [exact Hq2| |exact Hg2]. eapply qat_out; [exact Hq2|left]. }
  destruct (qat_protect _ _ _ _ _ _ _ _ _ _ hp 1 NULL Hq3 Hg3 ltac:(auto)) as (I1 & Hq4 & Hg4 & _).
  apply tot_bind. eapply tot_store; [exact I1|].
  destruct (qat_protect _ _ _ _ _ _ _ _ _ _ hp 0 NULL Hq4 Hg4 ltac:(auto)) as (I0 & Hq5 & _ & _).
  eapply tot_store; [exact I0|]. eapply qat_post; [exact Hq5|by rewrite map_app|]. rewrite length_app. simpl. lia.
Qed.

Lemma smr_pop m0 F q n O d x xs ts m (Q : unit -> mem -> Prop) :
  qat m0 F tid q [q] n O d (x :: xs) (x :: ts) m -> (n < fuel)%nat ->
  (forall O' m', qat m0 F tid q [q] (S n) O' (na x) xs ts m' -> Q tt m') ->
  tot (smr.free_node_later fuel tid d) (upd m (q, Q_HEAD) (na x)) Q.
Proof. exact (qat_pop fuel tid m0 F q n O d x xs ts m Q). Qed.

(** [dequeue] answers the oldest element, or -1 when there is none. *)
Lemma smr_dequeue_spec n q O d xs ts m :
  lf_queue tid n q O d xs ts m -> (S n < fuel)%nat ->
  tot (dequeue fuel tid q) m (fun r m' =>
    r = match map nk xs with [] => -1 | k :: _ => k end /\
    queue_post tid n q O d xs m (tail (map nk xs)) m').
Proof.
  intros Hq0 Hf. unfold dequeue.
  destruct (smr_own_globals _ _ _ (qa_own _ _ _ _ _ _ _ _ _ _ _ Hq0)) as [_ [hp Hg0]].
  apply tot_bind. eapply tot_HP0; [exact Hg0|]. apply tot_bind. eapply tot_HP1; [exact Hg0|]. apply tot_bind.
  eapply (tot_loop (fun k _ m' => exists ts, k = (match ts with [] => 1 | _ => 0 end)%nat /\
    qat m (fp (d, NEXT) [q] O xs) tid q [q] n O d xs ts m' /\ get m' (GLOBALS, G_HP) = Some hp)) with
    (n := (match ts with [] => 1 | _ => 0 end)%nat); [|destruct ts; lia|eauto].
  clear ts Hq0 Hg0. intros k [] m1 (ts & -> & Hq & Hg).
  apply tot_bind. eapply tot_load; [apply Hq|].
  destruct (qat_protect _ _ _ _ _ _ _ _ _ _ hp 0 d Hq Hg ltac:(auto)) as (I0 & Hq1 & Hg1 & _).
  apply tot_bind. eapply tot_store; [exact I0|]. apply tot_bind, tot_ret. apply tot_bind. eapply tot_load; [apply Hq1|].
  rewrite Z.eqb_refl. cbn [negb]. apply tot_bind. eapply tot_load; [apply Hq1|].
  assert (Hnext : get (upd m1 (slot hp 0) d) (d, NEXT) = Some (first_addr xs)).
  { apply (linv_at (d, NEXT) [q] O [] xs _ (qa_inv _ _ _ _ _ _ _ _ _ _ _ Hq1)). constructor. }
  apply tot_bind. eapply tot_load; [exact Hnext|].
  destruct (qat_protect _ _ _ _ _ _ _ _ _ _ hp 1 (first_addr xs) Hq1 Hg1 ltac:(auto)) as (I1 & Hq2 & Hg2 & _).
  apply tot_bind. eapply tot_store; [exact I1|]. apply tot_bind, tot_ret. apply tot_bind. eapply tot_load; [apply Hq2|].
  rewrite Z.eqb_refl. cbn [negb]. clear Hq Hg I0 Hq1 Hg1 Hnext I1. set (m2 := upd (upd m1 _ _) _ _) in *. clearbody m2. clear m1.
  pose proof (qa_ts _ _ _ _ _ _ _ _ _ _ _ Hq2) as [bs Hbs].
  pose proof Hq2 as [H1 H2 H3 H4 H5 H6 H7 H8 H9 H10]. destruct xs as [|x xs].
  - cbn [first_addr Z.eqb]. apply tot_ret, tot_ret. split; [done|]. eapply qat_post; [exact Hq2|done|simpl; lia].
  - destruct (linv_node _ _ _ [] _ _ _ H2) as (Hxn & Hxk & _). cbn [first_addr].
    rewrite (proj2 (Z.eqb_neq (na x) NULL)) by (by eapply is_node_nonnull).
    destruct ts as [|y ts].
    + unfold end_loc in *. simpl in H7. simpl fst. rewrite Z.eqb_refl. apply tot_bind.
      eapply tot_CAS_true; [exact H7|]. apply tot_ret. exists 0%nat. split; [lia|]. exists [x].
      split; [done|]. split; [apply (qat_help _ _ _ _ _ _ _ _ [] x xs); exact Hq2|].
      eapply qat_hp; [exact Hq2| |exact Hg2]. eapply qat_out; [exact Hq2|left].
    + injection Hbs as <- ->. rewrite (proj2 (Z.eqb_neq d _)) by (by eapply qat_tail_ne).
      apply tot_bind. eapply tot_load; [exact Hxk|]. apply tot_bind. eapply tot_CAS_true; [exact H6|]. apply tot_ret.
      assert (HqO : q ∉ O) by (eapply qat_out; [exact Hq2|left]).
      destruct (qat_protect _ _ _ _ _ _ _ _ _ _ hp 1 NULL Hq2 Hg2 ltac:(auto)) as (J1 & Hq3 & Hg3 & O3).
      destruct (qat_protect _ _ _ _ _ _ _ _ _ _ hp 0 NULL Hq3 Hg3 ltac:(auto)) as (J0 & Hq4 & _ & _).
      assert (Hsl : forall i, slot hp i <> (q, Q_HEAD)).
      { intros i [= E _]. destruct Hq2 as [(hp' & pl & nt & ps & rl & Hs & HO & _) _ _ _ _ _ _ _ _ _].
        pose proof (sm_hp _ _ _ _ _ _ _ Hs). assert (hp' = q) as -> by congruence.
        apply HqO. subst O. apply elem_of_list_to_set. unfold smr_objs. rewrite !elem_of_cons. auto. }
      apply tot_bind. eapply tot_store; [by rewrite inb_upd|]. apply tot_bind. eapply tot_store; [by rewrite !inb_upd in *|].
      rewrite (upd_comm _ (q, Q_HEAD)), (upd_comm _ (q, Q_HEAD)) by (intros E; by apply (Hsl _ (eq_sym E))).
      apply tot_bind. eapply smr_pop; [exact Hq4|lia|]. intros O5 m5 Hq5. apply tot_ret. split; [done|].
      eapply qat_post; [exact Hq5|done|simpl; lia].
Qed.
End smr_queue.

(** ** The whole program *)
Section smr_queue_program.
Context `{HM : Malloc, HMR : !MallocRoom, HQ : Qsort}.
Existing Instances allocator_malloc.ops smr.ops smr_laws smr_room.
Variables (fuel : nat) (tid : Z).
Implicit Types (m : mem).

Lemma smr_enqueue_room k q key m r m' :
  mroom (S k) m -> run (queue_lf_smr.enqueue fuel tid q key) m = Ok (r, m') -> mroom k m'.
Proof.
  intros Hm H. unfold queue_lf_smr.enqueue in H. rewrite run_bind in H.
  destruct (run (new_node fuel tid) m) as [[p m1]|] eqn:Hp; [|discriminate].
  apply (new_node_room k) in Hp as [Hp Hm1]; [|exact Hm].
  revert H. match goal with |- run ?p _ = _ -> _ => cut (keeps (mroom k) p); [intros HK; by apply HK|] end.
  repeat (first [apply keeps_bind; [apply hp_keeps|intros ?]|keep]).
Qed.

Lemma smr_dequeue_keeps k q : keeps (mroom k) (queue_lf_smr.dequeue fuel tid q).
Proof.
  unfold queue_lf_smr.dequeue. do 2 (apply keeps_bind; [apply hp_keeps|intros ?]).
  apply keeps_bind; [keep|]. intros [[h data]|]; [|apply keeps_ret].
  do 2 (apply keeps_bind; [auto with room|intros _]). apply keeps_bind; [apply smr_retire_keeps|]. intros _. apply keeps_ret.
Qed.

Lemma smr_queue_op_spec w q c m k o :
  queue_holds tid w q c m -> (S (S w) <= fuel)%nat -> mroom (S k) m ->
  tot (smr_queue_op fuel tid q o) m (fun r m' => r = (fifo_step o c).1 /\
    queue_holds tid (S w) q (fifo_step o c).2 m' /\ mroom k m').
Proof.
  intros (n & O & d & xs & ts & Hq & <- & Hn) Hf Hr. destruct o as [key|]; simpl.
  - assert (Hmem : tot (new_node fuel tid) m (fun p _ => p <> NULL)).
    { destruct (tot_run _ _ _ (new_node_ok tid n m O fuel (qa_own _ _ _ _ _ _ _ _ _ _ _ Hq) ltac:(lia))) as (p & m2 & Hrun & _).
      eapply run_tot; [exact Hrun|]. by apply (new_node_room k) in Hrun as []. }
    apply tot_bind. pose proof (smr_enqueue_spec fuel tid n q key O d xs ts m Hq ltac:(lia) ltac:(lia) Hmem) as H.
    apply tot_run in H as ([] & m' & Hrun & Hp). eapply run_tot; [exact Hrun|]. apply tot_ret. split; [done|].
    split; [|by eapply smr_enqueue_room]. eapply queue_holds_mono; [by eapply queue_post_holds|lia].
  - pose proof (smr_dequeue_spec fuel tid n q O d xs ts m Hq ltac:(lia)) as H.
    apply tot_run in H as (r & m' & Hrun & -> & Hp). eapply run_tot; [exact Hrun|].
    apply queue_post_holds in Hp. apply (queue_holds_mono _ _ (S w)) in Hp; [|lia].
    split_and!; [by destruct (map nk xs)|by destruct (map nk xs)|].
    eapply mroom_mono; [|apply Nat.le_succ_diag_r]. by eapply smr_dequeue_keeps.
Qed.

Lemma smr_queue_client_spec os w q c m k :
  queue_holds tid w q c m -> (S (w + length os) <= fuel)%nat -> mroom (length os + k) m ->
  tot (smr_queue_client fuel tid q os) m (fun rs m' => rs = (fifo_steps os c).1 /\
    queue_holds tid (w + length os) q (fifo_steps os c).2 m' /\ mroom k m').
Proof.
  revert w c m. induction os as [|o os IH]; intros w c m Hq Hf Hr; unfold smr_queue_client; cbn [op_client fifo_steps].
  - apply tot_ret. simpl. rewrite Nat.add_0_r. auto.
  - simpl in *. apply tot_bind. eapply tot_mono; [apply (smr_queue_op_spec w q c m (length os + k) o Hq ltac:(lia) Hr)|].
    intros r m1 (-> & Hq1 & Hr1). destruct (fifo_step o c) as [r c1]. simpl in *. apply tot_bind.
    eapply tot_mono; [apply (IH (S w) c1 m1 Hq1 ltac:(lia) Hr1)|]. intros rs m2 (-> & Hq2 & Hr2).
    destruct (fifo_steps os c1) as [rs c2]. simpl in *. apply tot_ret. split_and!; auto.
    by rewrite Nat.add_succ_r.
Qed.

Lemma smr_queue_start_spec nt m k :
  storage MAX_THREADS m -> get m (GLOBALS, G_N_THREADS) = Some (Z.of_nat nt) -> (0 < nt <= 65)%nat ->
  0 <= tid < MAX_THREADS -> mroom (68 + k) m ->
  tot (smr_queue_start fuel) m (fun q m' => mroom k m' /\ queue_holds tid (2 * nt) q [] m').
Proof.
  intros Hs Hnt Hn Ht Hr. unfold smr_queue_start. apply tot_bind.
  eapply tot_mono; [apply (smr_init_spec nt m (2 + k) Hs Hnt Hn); exact Hr|]. intros [] m1 (hp & Hs1 & Hr1).
  destruct (smr_started_at hp nt m1 tid Hs1 ltac:(lia) Ht) as (pl & Hat & _).
  assert (Ho : own tid (2 * nt) m1 (list_to_set (smr_objs tid hp pl []))).
  { exists hp, pl, nt, (replicate 132 NULL), []. split_and!; auto; simpl; lia. }
  eapply tot_mono; [exact (queue_init_owned fuel (HRL' := smr_laws) tid (2 * nt) _ m1 k Ho Hr1)|].
  intros q m2 (Hr2 & d & Hq). split; [done|]. exists (2 * nt)%nat, (list_to_set (smr_objs tid hp pl [])), d, [], [].
  split_and!; [done|done|simpl; lia].
Qed.
End smr_queue_program.

(** ** Theorems *)

(** C21: the program queue_lf_smr (allocator_malloc.c, smr.c, queue_lf_smr.c),
    with any qsort that meets its documentation: from the static storage through
    mr_init and queue_init, every sequence of operations of a thread returns,
    without an error and within the bound of its loops, the answers of a FIFO
    queue, -1 where it is empty, and the queue in memory then holds its
    contents; the dummies that were retired are scanned and freed on the way. *)
Theorem smr_queue_program_refines_fifo `{HM : Malloc, HMR : !MallocRoom, HQ : Qsort} (fuel : nat) (tid : Z)
    (os : list queue_op) (nt : nat) (m : mem) (k : nat) :
  storage MAX_THREADS m -> get m (GLOBALS, G_N_THREADS) = Some (Z.of_nat nt) -> (0 < nt <= 65)%nat ->
  0 <= tid < MAX_THREADS -> mroom (68 + (length os + k)) m -> (S (2 * nt + length os) <= fuel)%nat ->
  tot (q <- smr_queue_start fuel ;; smr_queue_client fuel tid q os) m (fun rs m' => rs = (fifo_steps os []).1 /\
    exists q, @queue_holds _ _ smr_laws tid (2 * nt + length os) q (fifo_steps os []).2 m').
Proof.
  intros Hs Hnt Hn Ht Hr Hf. apply tot_bind.
  eapply tot_mono; [by apply (smr_queue_start_spec fuel tid nt m (length os + k))|]. intros q m1 (Hr1 & Hq).
  eapply tot_mono; [by apply (smr_queue_client_spec fuel tid os (2 * nt) q [] m1 k)|].
  intros rs m2 (-> & Hq2 & _). split; [done|]. by exists q.
Qed.

Lemma smr_queue_program_refines_fifo_witness :
  tot (q <- smr_queue_start 20 ;; smr_queue_client (HQ := insertion_sort) 20 3 q
         [Dequeue; Enqueue 4; Enqueue 5; Dequeue; Dequeue; Dequeue])
    (upd (static_mem 65) (GLOBALS, G_N_THREADS) 2)
    (fun rs m' => rs = [-1; 0; 0; 4; 5; -1] /\
       exists q, @queue_holds _ _ (smr_laws (Qs := insertion_sort)) 3 10 q [] m').
Proof.
  apply (smr_queue_program_refines_fifo (HMR := bump_room_laws) (HQ := insertion_sort) 20 3
    [Dequeue; Enqueue 4; Enqueue 5; Dequeue; Dequeue; Dequeue] 2 (upd (static_mem 65) (GLOBALS, G_N_THREADS) 2) 800).
  - apply storage_upd, static_storage.
  - by vm_compute.
  - lia.
  - done.
  - apply mroom_upd. eapply mroom_mono; [exact static_room|]. simpl. lia.
  - simpl. lia.
Defined.
