(* ===== verification/GcStack.v ===== *)
(** * The stacks of the Encore runtime (ds/stack.c, mem/pool.h)

    A stack is a list of chunks of up to [STACK_COUNT] words; the first chunk is
    the one in use.  The garbage collector's stacks ([gcstack_t]) are instances.
    The operations are shown to implement a list. *)
From S2P Require Export Room.

(** [POOL_ALLOC] and [POOL_FREE] take a block from and return it to the runtime's
    pools.  The pools are the model's parameter [Malloc]: a block that nobody
    uses, or the end of the process when there is none. *)
Definition POOL_ALLOC `{Malloc} (size : Z) : prog mem Z :=
  p <- malloc size ;;
  if p =? NULL then abort else Ret p.

Definition POOL_FREE (p : Z) : prog mem unit := free p.

(** ** ds/stack.h, ds/stack.c *)
Definition STACK_COUNT : Z := 62.
Abbreviation ST_INDEX := 0 (only parsing).
Abbreviation ST_DATA := 8 (only parsing).
Abbreviation ST_PREV := 504 (only parsing).
Definition sizeof_Stack : Z := 512.

Section code.
Context `{!Malloc}.

Definition stack_new (prev data : Z) : prog mem Z :=
  stack <- POOL_ALLOC sizeof_Stack ;;
  store (stack, ST_INDEX) 1 ;;
  store (stack, ST_DATA) data ;;
  store (stack, ST_PREV) prev ;;
  Ret stack.

(** The new stack and the word stored through [data]. *)
Definition stack_pop (stack : Z) : prog mem (Z * Z) :=
  assert_ (negb (stack =? NULL)) ;;
  i <- load (stack, ST_INDEX) ;;
  store (stack, ST_INDEX) (i - 1) ;;
  i <- load (stack, ST_INDEX) ;;
  data <- load (stack, ST_DATA + 8 * i) ;;
  i <- load (stack, ST_INDEX) ;;
  if i =? 0 then
    prev <- load (stack, ST_PREV) ;;
    POOL_FREE stack ;;
    Ret (prev, data)
  else Ret (stack, data).

Definition stack_push (stack data : Z) : prog mem Z :=
  room <- (if negb (stack =? NULL) then
             i <- load (stack, ST_INDEX) ;;
             Ret (i <? STACK_COUNT)
           else Ret false) ;;
  if room : bool then
    i <- load (stack, ST_INDEX) ;;
    store (stack, ST_DATA + 8 * i) data ;;
    i <- load (stack, ST_INDEX) ;;
    store (stack, ST_INDEX) (i + 1) ;;
    Ret stack
  else stack_new stack data.
End code.

(** * Proofs *)

(** A chunk at [s] with the words [d], the oldest first. *)
Record chunk (m : mem) (s : Z) (d : list Z) (prev : Z) : Prop := {
  ck_struct : is_struct m s sizeof_Stack;
  ck_index : get m (s, ST_INDEX) = Some (Z.of_nat (length d));
  ck_len : (0 < length d <= 62)%nat;
  ck_data : forall i x, d !! i = Some x -> get m (s, ST_DATA + 8 * Z.of_nat i) = Some x;
  ck_prev : get m (s, ST_PREV) = Some prev
}.

(** The stack at [s] has the chunks [cs] (address and words). *)
Fixpoint stack_at (m : mem) (s : Z) (cs : list (Z * list Z)) : Prop :=
  match cs with
  | [] => s = NULL
  | (a, d) :: cs' => s = a /\ (a ∉ cs'.*1) /\ exists prev, chunk m a d prev /\ stack_at m prev cs'
  end.

(** The contents, the top first. *)
Definition contents (cs : list (Z * list Z)) : list Z := concat ((fun c => rev c.2) <$> cs).

Section stack_proofs.
Context `{HM : Malloc, HR : !MallocRoom}.
Implicit Types (m : mem) (s : Z) (d : list Z) (cs : list (Z * list Z)).

Lemma chunk_lookup m m' s d prev : m' !! s = m !! s -> chunk m s d prev -> chunk m' s d prev.
Proof.
  intros E [H1 H2 H3 H4 H5]. split; auto.
  - by apply (is_struct_lookup m).
  - by rewrite (get_lookup_eq m).
  - intros i x Hi. rewrite (get_lookup_eq m); auto.
  - by rewrite (get_lookup_eq m).
Qed.

Lemma stack_at_lookup m m' s cs :
  (forall b, b ∈ cs.*1 -> m' !! b = m !! b) -> stack_at m s cs -> stack_at m' s cs.
Proof.
  revert s. induction cs as [|[a d] cs IH]; intros s H; simpl; [done|].
  intros (-> & Ha & prev & Hc & Hs). split_and!; auto. exists prev. split.
  - eapply chunk_lookup; [|exact Hc]. apply H. left.
  - apply IH; [|done]. intros b Hb. apply H. by right.
Qed.

Lemma stack_at_live m s cs b : stack_at m s cs -> b ∈ cs.*1 -> live m b.
Proof.
  revert s. induction cs as [|[a d] cs IH]; intros s; simpl; [by intros _ ?%not_elem_of_nil|].
  intros (-> & _ & prev & Hc & Hs) [->|Hb]%elem_of_cons; [|by eapply IH].
  eapply is_struct_live, Hc.
Qed.

(** A word added to a chunk that is not full. *)
Lemma chunk_push m s d prev x : chunk m s d prev -> (length d < 62)%nat ->
  chunk (upd (upd m (s, ST_DATA + 8 * Z.of_nat (length d)) x) (s, ST_INDEX) (Z.of_nat (length d) + 1))
    s (d ++ [x]) prev.
Proof.
  intros [H1 H2 H3 H4 H5] Hl. split.
  - by rewrite !is_struct_upd.
  - rewrite get_upd_eq by mlive. rewrite length_app. simpl. f_equal. lia.
  - rewrite length_app. simpl. lia.
  - intros i y Hi. rewrite (get_upd_ne _ (s, 0)) by loc_ne.
    apply lookup_snoc_Some in Hi as [[Hi Hy]|[-> ->]].
    + rewrite get_upd_ne by loc_ne. auto.
    + by rewrite get_upd_eq by mlive.
  - mget.
Qed.

(** The last word taken out of a chunk that has others. *)
Lemma chunk_pop m s d prev x : chunk m s (d ++ [x]) prev -> d <> [] ->
  chunk (upd m (s, ST_INDEX) (Z.of_nat (length d))) s d prev.
Proof.
  intros [H1 H2 H3 H4 H5] Hd. rewrite length_app in H3. simpl in H3. split.
  - by rewrite is_struct_upd.
  - by rewrite get_upd_eq by mlive.
  - destruct d; [done|]. simpl in *. lia.
  - intros i y Hi. rewrite get_upd_ne by loc_ne. apply H4. by apply lookup_app_l_Some.
  - mget.
Qed.

Lemma stack_at_nonnull m s a d cs : stack_at m s ((a, d) :: cs) -> s = a /\ a <> NULL.
Proof. intros (-> & _ & prev & Hc & _). split; [done|]. apply Hc. Qed.

(** [stack_push] adds on top; it touches the first chunk or a block nobody used. *)
Lemma stack_push_ok m s cs x k : stack_at m s cs -> mroom (S k) m ->
  tot (stack_push s x) m (fun s' m' => exists cs',
    stack_at m' s' cs' /\ contents cs' = x :: contents cs /\ mroom k m' /\
    (forall b, b ∈ cs'.*1 -> b ∈ cs.*1 \/ m !! b = None) /\
    (forall b, b ∉ cs'.*1 -> m' !! b = m !! b)).
Proof.
  intros Hs Hr. unfold stack_push.
  assert (Hnew : tot (stack_new s x) m (fun s' m' => exists cs',
    stack_at m' s' cs' /\ contents cs' = x :: contents cs /\ mroom k m' /\
    (forall b, b ∈ cs'.*1 -> b ∈ cs.*1 \/ m !! b = None) /\
    (forall b, b ∉ cs'.*1 -> m' !! b = m !! b))).
  { unfold stack_new, POOL_ALLOC, malloc. apply tot_bind, tot_bind.
    eapply tot_alloc; [exact Hr|done|]. intros a (Ha & Hf & _) Hr'.
    rewrite (proj2 (Z.eqb_neq a 0) Ha). apply tot_ret.
    set (m1 := <[a := Obj sizeof_Stack ∅]> m).
    assert (Hst : is_struct m1 a 512).
    { split; [done|]. eexists. unfold m1. rewrite lookup_insert_eq. done. }
    assert (Hna : a ∉ cs.*1).
    { intros E. eapply stack_at_live in E as [o E]; [|exact Hs]. congruence. }
    psteps. exists ((a, [x]) :: cs). split_and!; auto.
    - simpl. split_and!; auto. exists s. split.
      + split; simpl; try (split; lia); try (mget; done).
        * by rewrite !is_struct_upd.
        * intros [|i] y Hi; [|by destruct i]. injection Hi as ->. mget.
      + eapply stack_at_lookup; [|exact Hs]. intros b Hb.
        rewrite !lookup_upd_ne by (simpl; congruence). unfold m1. rewrite lookup_insert_ne; [done|congruence].
    - by repeat apply mroom_upd.
    - simpl. intros b [->|Hb]%elem_of_cons; auto.
    - simpl. intros b [Hb _]%not_elem_of_cons. rewrite !lookup_upd_ne by (simpl; congruence).
      unfold m1. rewrite lookup_insert_ne; [done|congruence]. }
  destruct cs as [|[a d] cs].
  - simpl in Hs. subst s. simpl. apply tot_bind, tot_ret. exact Hnew.
  - pose proof (stack_at_nonnull _ _ _ _ _ Hs) as [-> Hn]. rewrite (proj2 (Z.eqb_neq a 0) Hn). simpl.
    destruct Hs as (_ & Ha & prev & Hc & Hs). pose proof (ck_index _ _ _ _ Hc) as Hi.
    pose proof (ck_struct _ _ _ _ Hc) as Hst. unfold sizeof_Stack in Hst. psteps. unfold STACK_COUNT.
    destruct (Z.ltb_spec (Z.of_nat (length d)) 62) as [Hl|Hl]; [|exact Hnew].
    apply tot_bind. eapply tot_load; [mget|]. apply tot_bind. eapply tot_store; [minb|].
    apply tot_bind. eapply tot_load; [mget|]. apply tot_bind. eapply tot_store; [minb|]. apply tot_ret.
    exists ((a, d ++ [x]) :: cs). split_and!; auto.
    + simpl. split_and!; auto. exists prev. split; [apply chunk_push; auto; lia|].
      eapply stack_at_lookup; [|exact Hs]. intros b Hb. rewrite !lookup_upd_ne; simpl; congruence.
    + unfold contents. simpl. rewrite rev_app_distr. done.
    + repeat apply mroom_upd. eapply mroom_mono; [exact Hr|lia].
    + simpl. intros b [Hb _]%not_elem_of_cons. rewrite !lookup_upd_ne; simpl; congruence.
Qed.

(** [stack_pop] takes the top. *)
Lemma stack_pop_ok m s cs x xs : stack_at m s cs -> contents cs = x :: xs ->
  tot (stack_pop s) m (fun r m' => exists cs',
    r.2 = x /\ stack_at m' r.1 cs' /\ contents cs' = xs /\
    (forall b, b ∈ cs'.*1 -> b ∈ cs.*1) /\ (forall b, b ∉ cs.*1 -> m' !! b = m !! b)).
Proof.
  intros Hs Hx. destruct cs as [|[a d] cs]; [discriminate|].
  pose proof (stack_at_nonnull _ _ _ _ _ Hs) as [-> Hn]. destruct Hs as (_ & Ha & prev & Hc & Hs).
  destruct d as [|y d _] using rev_ind; [destruct Hc as [_ _ Hl]; simpl in Hl; lia|].
  unfold contents in Hx. simpl in Hx. rewrite rev_app_distr in Hx. simpl in Hx. injection Hx as -> Hx.
  pose proof (ck_index _ _ _ _ Hc) as Hi. pose proof (ck_struct _ _ _ _ Hc) as Hst. unfold sizeof_Stack in Hst.
  pose proof (ck_data _ _ _ _ Hc (length d) x) as Hd. pose proof (ck_prev _ _ _ _ Hc) as Hp.
  pose proof (ck_len _ _ _ _ Hc) as Hl. rewrite length_app in Hi, Hl. simpl in Hi, Hl.
  rewrite lookup_app_r, Nat.sub_diag in Hd by lia. specialize (Hd eq_refl).
  unfold stack_pop. rewrite (proj2 (Z.eqb_neq a 0) Hn). simpl.
  replace (Z.of_nat (length d + 1)) with (Z.of_nat (length d) + 1) in Hi by lia.
  replace (8 + 8 * Z.of_nat (length d)) with (8 + 8 * (Z.of_nat (length d) + 1 - 1)) in Hd by lia.
  psteps. replace (Z.of_nat (length d) + 1 - 1) with (Z.of_nat (length d)) in * by lia.
  destruct (Z.eqb_spec (Z.of_nat (length d)) 0) as [E|E].
  - destruct d; [|simpl in E; lia]. apply tot_bind. eapply tot_load; [mget|].
    apply tot_bind. apply tot_free; [done|mlive|]. apply tot_ret. exists cs. simpl in *. split_and!; auto.
    + eapply stack_at_lookup; [|exact Hs]. intros b Hb.
      rewrite lookup_delete_ne, lookup_upd_ne; simpl; congruence.
    + intros b Hb. by right.
    + intros b [Hb _]%not_elem_of_cons. rewrite lookup_delete_ne, lookup_upd_ne; simpl; congruence.
  - apply tot_ret. exists ((a, d) :: cs). simpl. split_and!; auto.
    + exists prev. split; [eapply chunk_pop; [exact Hc|]; by intros ->|].
      eapply stack_at_lookup; [|exact Hs]. intros b Hb. rewrite lookup_upd_ne; simpl; congruence.
    + intros b [Hb _]%not_elem_of_cons. rewrite lookup_upd_ne; simpl; congruence.
Qed.
End stack_proofs.

(** ** A client: a sequence of pushes and pops *)

Inductive stack_call : Set := CPush (x : Z) | CPop.

(** The calls made one after the other on the stack; the words popped, in order. *)
Fixpoint stack_calls `{Malloc} (cs : list stack_call) (s : Z) : prog mem (Z * list Z) :=
  match cs with
  | [] => Ret (s, [])
  | CPush x :: cs' => s <- stack_push s x ;; stack_calls cs' s
  | CPop :: cs' =>
      r <- stack_pop s ;;
      t <- stack_calls cs' r.1 ;;
      Ret (t.1, r.2 :: t.2)
  end.

(** The same on a list; no pop from the empty list. *)
Fixpoint list_calls (cs : list stack_call) (xs : list Z) : option (list Z * list Z) :=
  match cs with
  | [] => Some (xs, [])
  | CPush x :: cs' => list_calls cs' (x :: xs)
  | CPop :: cs' =>
      match xs with
      | [] => None
      | x :: xs' => match list_calls cs' xs' with Some (ys, out) => Some (ys, x :: out) | None => None end
      end
  end.

Section client_proofs.
Context `{HM : Malloc, HR : !MallocRoom}.

(** C13: The stack of chunks behaves as a list, across chunk boundaries: every
    sequence of calls that never pops an empty stack runs without an error, pops
    the words a list pops, and leaves a stack with the list's contents; a pop
    from the empty stack fails the assertion of [stack_pop]. *)
Theorem gcstack_refines_list cs xs : forall m s chunks,
  stack_at m s chunks -> contents chunks = xs -> mroom (length cs) m ->
  match list_calls cs xs with
  | Some (ys, out) => tot (stack_calls cs s) m (fun r m' =>
      r.2 = out /\ exists chunks', stack_at m' r.1 chunks' /\ contents chunks' = ys)
  | None => run (stack_calls cs s) m = Err EAssert
  end.
Proof.
  revert xs. induction cs as [|[x|] cs IH]; intros xs m s ck Hs Hc Hr; simpl.
  - apply tot_ret. eauto.
  - assert (H := stack_push_ok m s ck x (length cs) Hs Hr). rewrite Hc in H.
    apply tot_run in H as (s' & m' & Er & ck' & H1 & H2 & H3 & _).
    specialize (IH (x :: xs) m' s' ck' H1 H2 H3). destruct (list_calls cs (x :: xs)) as [[ys out]|].
    + apply tot_bind. eapply run_tot; [exact Er|exact IH].
    + rewrite run_bind, Er. exact IH.
  - destruct xs as [|x xs].
    + destruct ck as [|[a d] ck].
      * simpl in Hs. subst s. reflexivity.
      * destruct Hs as (_ & _ & prev & Hck & _). exfalso. pose proof (ck_len _ _ _ _ Hck) as Hl.
        apply (f_equal length) in Hc. unfold contents in Hc. simpl in Hc. rewrite length_app, length_rev in Hc. lia.
    + assert (H := stack_pop_ok m s ck x xs Hs Hc).
      assert (Hr' : mroom (length cs) m) by (eapply mroom_mono; [exact Hr|simpl; lia]).
      eapply (tot_keeps (mroom (length cs))) in H; [|unfold stack_pop, assert_, POOL_FREE; keep|exact Hr'].
      apply tot_run in H as ([s' y] & m' & Er & (ck' & Hy & H1 & H2 & _) & H3). simpl in *. subst y.
      specialize (IH xs m' s' ck' H1 H2 H3). destruct (list_calls cs xs) as [[ys out]|].
      * apply tot_bind. eapply run_tot; [exact Er|]. apply tot_bind. eapply tot_mono; [exact IH|].
        intros [s2 o2] m2 [E2 Hck2]. simpl in *. apply tot_ret. simpl. by rewrite E2.
      * rewrite run_bind, Er. simpl. by apply run_bind_err.
Qed.

End client_proofs.

(** Sixty-five words do not fit in one chunk. *)
Definition stack_client : list stack_call := map (fun i => CPush (Z.of_nat i)) (seq 0 65) ++ replicate 5 CPop.

Example gcstack_refines_list_witness :
  bump_room (length stack_client) ∅ /\
  tot (stack_calls stack_client NULL) ∅ (fun r m' =>
    r.2 = [64; 63; 62; 61; 60] /\ exists ck, stack_at m' r.1 ck /\ contents ck = rev (map Z.of_nat (seq 0 60))).
Proof.
  assert (Hr : bump_room (length stack_client) ∅) by (unfold bump_room; vm_compute; discriminate).
  split; [exact Hr|].
  exact (gcstack_refines_list stack_client [] ∅ NULL [] eq_refl eq_refl Hr).
Defined.
