(* ===== verification/SharedObject.v ===== *)
(** * The shared objects of the Encore runtime (encore/shared_object.c)

    The memory reclamation of the Encore programs lf_list.enc and lf_queue.enc:
    reference counts of the links inside a container, whose decrements are
    delayed by epochs.  A link removed from the container is a wrapper on the
    limbo list of the thread's epoch; entering the container in a new epoch
    performs the decrements of the list of three epochs before, and frees the
    objects whose count they exhaust.

    This file holds the data and the operations; the object collector of the
    runtime, which the wrappers of compare-and-swap report to, is the parameter
    [Gc]. *)
From S2P Require Export GcStack.

(** [struct encore_passive_lf_so_t]; [*(f+4)] is the word at offset 32. *)
Abbreviation SO_RC := 16 (only parsing).
Abbreviation SO_PUBLISHED := 20 (only parsing).
Abbreviation SO_FIELD := 32 (only parsing).
Definition sizeof_passive : Z := 40.

(** [struct wrapper_t] *)
Abbreviation W_P := 0 (only parsing).
Abbreviation W_NEXT := 8 (only parsing).
Definition sizeof_wrapper_t : Z := 16.

(** Thread-local: [wrapper_pool], [wrapper_pool_counter], [so_thread_index]. *)
Definition wrapper_pool_size : Z := 100.
Abbreviation TL_POOL := 0 (only parsing).
Abbreviation TL_COUNTER := 800 (only parsing).
Abbreviation TL_INDEX := 808 (only parsing).

(** [struct per_thread_t]: three limbo lists first.  [threads] is one array. *)
Abbreviation PT_LIMBO := 0 (only parsing).
Abbreviation PT_ENTRY := 24 (only parsing).
Abbreviation PT_IN_CRITICAL := 28 (only parsing).
Abbreviation PT_LOCAL_EPOCH := 29 (only parsing).
Definition sizeof_so_thread : Z := 32.
Definition so_thread_fields : list Z :=
  [PT_LIMBO; PT_LIMBO + 8; PT_LIMBO + 16; PT_ENTRY; PT_IN_CRITICAL; PT_LOCAL_EPOCH].
Definition thr (threads i field : Z) : loc := (threads, sizeof_so_thread * i + field).

(** [struct so_gc_t] and the field of [encore_so_t] after it. *)
Abbreviation GC_FINAL_CB := 0 (only parsing).
Abbreviation GC_THREADS := 8 (only parsing).
Abbreviation GC_ENTRY_MAX := 16 (only parsing).
Abbreviation GC_N_THREADS := 20 (only parsing).
Abbreviation GC_EPOCH := 24 (only parsing).
Abbreviation GC_LOCK := 25 (only parsing).
Abbreviation GC_SUBORD_TRACE := 32 (only parsing).
Definition sizeof_so_gc : Z := 48.

(** [struct pony_ctx_t] *)
Abbreviation CTX_LF_TMP_STACK := 64 (only parsing).
Abbreviation CTX_BOUNDARY := 72 (only parsing).

Definition FREEZE (p : Z) : Z := Z.lor p 1.
Definition UNFREEZE (p : Z) : Z := Z.land p (-2).

(** The object collector (gc/gc.c, gc/trace.c), the scheduler and the actors, as
    far as shared_object.c calls them.  [so_gc_of this] is [&this->so_gc], an
    object of its own. *)
Class Gc := {
  gc_sendobject : Z -> Z -> Z -> prog mem unit;
  pony_send_done : Z -> prog mem unit;
  gc_recvobject : Z -> Z -> Z -> prog mem unit;
  pony_recv_done : Z -> prog mem unit;
  pony_gc_recv : Z -> prog mem unit;
  pony_traceobject : Z -> Z -> Z -> prog mem unit;
  gc_handlestack : Z -> prog mem unit;
  pony_ctx : prog mem Z;
  encore_create : Z -> Z -> prog mem Z;
  scheduler_cores : prog mem Z;
  call_final_cb : Z -> Z -> Z -> prog mem unit;
  so_gc_of : Z -> Z
}.

Module so.
Section code.
Context `{!Malloc, !Gc}.
Variable fuel : nat.
Variable tid : Z.

Definition gc_sendobject_shallow (ctx p : Z) : prog mem unit := gc_sendobject ctx p NULL.
Definition gc_sendobject_shallow_done (ctx : Z) : prog mem unit := pony_send_done ctx.
Definition gc_recvobject_shallow (ctx p : Z) : prog mem unit := gc_recvobject ctx p NULL.
Definition gc_recvobject_shallow_done (ctx : Z) : prog mem unit := pony_recv_done ctx.

Definition so_lockfree_inc_rc (p : Z) : prog mem Z :=
  if p =? NULL then Ret 0
  else rmw (p, SO_RC) (fun v => u32 (v + 1)).

Definition so_lockfree_dec_rc (p : Z) : prog mem Z :=
  if p =? NULL then Ret 0
  else
    rc <- load (p, SO_RC) ;;
    assert_ (negb (rc =? 0)) ;;
    rmw (p, SO_RC) (fun v => u32 (v - 1)).

Definition new_wrapper : prog mem Z :=
  c <- load (tls tid, TL_COUNTER) ;;
  if 0 <? c then
    c <- load (tls tid, TL_COUNTER) ;;
    store (tls tid, TL_COUNTER) (c - 1) ;;
    load (tls tid, TL_POOL + 8 * (c - 1))
  else POOL_ALLOC sizeof_wrapper_t.

Definition free_wrapper (d : Z) : prog mem unit :=
  c <- load (tls tid, TL_COUNTER) ;;
  (if c =? wrapper_pool_size then
     store (tls tid, TL_COUNTER) 0 ;;
     forz (Z.to_nat wrapper_pool_size) 0 (fun i =>
       w <- load (tls tid, TL_POOL + 8 * i) ;;
       POOL_FREE w)
   else Ret tt) ;;
  c <- load (tls tid, TL_COUNTER) ;;
  store (tls tid, TL_COUNTER) (c + 1) ;;
  store (tls tid, TL_POOL + 8 * c) d.

Definition so_lockfree_delay_dec (so_gc p : Z) : prog mem unit :=
  if p =? NULL then Ret tt
  else
    w <- new_wrapper ;;
    store (w, W_P) p ;;
    i <- load (tls tid, TL_INDEX) ;;
    threads <- load (so_gc, GC_THREADS) ;;
    e <- load (thr threads i PT_LOCAL_EPOCH) ;;
    h <- load (thr threads i (PT_LIMBO + 8 * e)) ;;
    store (w, W_NEXT) h ;;
    e <- load (thr threads i PT_LOCAL_EPOCH) ;;
    store (thr threads i (PT_LIMBO + 8 * e)) w.

Definition clean_list (so_gc : Z) (list : loc) : prog mem unit :=
  cur <- load list ;;
  loop fuel (fun cur =>
    if cur =? NULL then break tt
    else
      let pre := cur in
      cur <- load (pre, W_NEXT) ;;
      p <- load (pre, W_P) ;;
      rc <- so_lockfree_dec_rc p ;;
      (if rc =? 1 then
         f <- load (pre, W_P) ;;
         c <- load (f, SO_FIELD) ;;
         so_lockfree_delay_dec so_gc c ;;
         p <- load (pre, W_P) ;;
         free p
       else Ret tt) ;;
      free_wrapper pre ;;
      continue cur) cur ;;
  store list NULL.

(** The loop over the threads ends after [n_threads] iterations. *)
Definition update_epoch (so_gc : Z) : prog mem unit :=
  n_threads <- load (so_gc, GC_N_THREADS) ;;
  global_epoch <- load (so_gc, GC_EPOCH) ;;
  ok <- CAS (so_gc, GC_LOCK) 0 1 ;;
  if ok : bool then
    all <- loop (S (Z.to_nat n_threads)) (fun i =>
      if negb (i <? n_threads) then break true
      else
        threads <- load (so_gc, GC_THREADS) ;;
        c <- load (thr threads i PT_IN_CRITICAL) ;;
        behind <- (if negb (c =? 0) then
                     e <- load (thr threads i PT_LOCAL_EPOCH) ;;
                     Ret (negb (e =? global_epoch))
                   else Ret false) ;;
        if behind : bool then
          store (so_gc, GC_LOCK) 0 ;;
          break false
        else continue (i + 1)) 0 ;;
    if all : bool then
      e <- load (so_gc, GC_EPOCH) ;;
      store (so_gc, GC_EPOCH) (Z.rem (e + 1) 3) ;;
      store (so_gc, GC_LOCK) 0
    else Ret tt
  else Ret tt.

Definition so_lockfree_on_entry (this : Z) : prog mem unit :=
  let so_gc := so_gc_of this in
  i <- load (tls tid, TL_INDEX) ;;
  threads <- load (so_gc, GC_THREADS) ;;
  local_epoch <- load (thr threads i PT_LOCAL_EPOCH) ;;
  loop fuel (fun _ : unit =>
    store (thr threads i PT_IN_CRITICAL) 1 ;;
    global_epoch <- load (so_gc, GC_EPOCH) ;;
    if negb (local_epoch =? global_epoch) then
      clean_list so_gc (thr threads i (PT_LIMBO + 8 * global_epoch)) ;;
      store (thr threads i PT_LOCAL_EPOCH) global_epoch ;;
      store (thr threads i PT_ENTRY) 0 ;;
      break tt
    else
      entry <- load (thr threads i PT_ENTRY) ;;
      store (thr threads i PT_ENTRY) (u32 (entry + 1)) ;;
      entry_max <- load (so_gc, GC_ENTRY_MAX) ;;
      if entry <? entry_max then break tt
      else
        store (thr threads i PT_IN_CRITICAL) 0 ;;
        store (thr threads i PT_ENTRY) 0 ;;
        update_epoch so_gc ;;
        continue tt) tt.

Definition so_lockfree_on_exit (this : Z) : prog mem unit :=
  i <- load (tls tid, TL_INDEX) ;;
  threads <- load (so_gc_of this, GC_THREADS) ;;
  store (thr threads i PT_IN_CRITICAL) 0.

Definition encore_create_so (ctx type : Z) : prog mem Z :=
  this <- encore_create ctx type ;;
  n_threads <- scheduler_cores ;;
  threads <- calloc (Z.to_nat n_threads) sizeof_so_thread so_thread_fields ;;
  store (so_gc_of this, GC_THREADS) threads ;;
  store (so_gc_of this, GC_N_THREADS) n_threads ;;
  store (so_gc_of this, GC_ENTRY_MAX) 100 ;;
  store (so_gc_of this, GC_EPOCH) 1 ;;
  Ret this.

Definition so_lockfree_register_final_cb (p final_cb : Z) : prog mem unit :=
  store (so_gc_of p, GC_FINAL_CB) final_cb.

Definition so_lockfree_register_subord_trace_fn (p trace : Z) : prog mem unit :=
  store (so_gc_of p, GC_SUBORD_TRACE) trace.

Definition encore_so_finalizer (p : Z) : prog mem unit :=
  assert_ (negb (p =? NULL)) ;;
  cb <- load (so_gc_of p, GC_FINAL_CB) ;;
  assert_ (negb (cb =? NULL)) ;;
  ctx <- pony_ctx ;;
  cb <- load (so_gc_of p, GC_FINAL_CB) ;;
  call_final_cb cb ctx p ;;
  threads <- load (so_gc_of p, GC_THREADS) ;;
  free threads.

Definition so_lockfree_pre_publish (p : Z) : prog mem unit :=
  if p =? NULL then Ret tt
  else
    store (p, SO_PUBLISHED) 1 ;;
    _ <- so_lockfree_inc_rc p ;;
    Ret tt.

Definition so_lockfree_unpre_publish (p : Z) : prog mem unit :=
  if p =? NULL then Ret tt
  else
    b <- load (p, SO_PUBLISHED) ;;
    assert_ (negb (b =? 0)) ;;
    store (p, SO_PUBLISHED) 0 ;;
    _ <- so_lockfree_dec_rc p ;;
    Ret tt.

Definition so_lockfree_publish (this p : Z) : prog mem unit :=
  if p =? NULL then Ret tt else store (p, SO_PUBLISHED) 1.

Definition so_lockfree_is_published (p : Z) : prog mem bool :=
  assert_ (negb (p =? NULL)) ;;
  assert_ (p =? UNFREEZE p) ;;
  b <- load (p, SO_PUBLISHED) ;;
  Ret (negb (b =? 0)).

Definition so_lockfree_spec_subord_field_apply (ctx this p : Z) : prog mem unit :=
  if p =? NULL then Ret tt
  else so_lockfree_publish this p ;; gc_sendobject_shallow ctx p.

Definition so_lockfree_non_spec_subord_field_apply (ctx this p : Z) : prog mem unit :=
  if p =? NULL then Ret tt
  else so_lockfree_publish this p ;; gc_sendobject_shallow ctx p.

Definition so_lockfree_subord_fields_apply_done (ctx : Z) : prog mem unit :=
  gc_sendobject_shallow_done ctx.

(** The count of the object at [f] dropped at the end of its container: the last
    one hands it to the collector. *)
Definition so_lockfree_subord_field_final_apply (ctx p fn : Z) : prog mem unit :=
  if p =? NULL then Ret tt
  else
    assert_ (p =? UNFREEZE p) ;;
    b <- load (p, SO_PUBLISHED) ;;
    assert_ (negb (b =? 0)) ;;
    rc <- rmw (p, SO_RC) (fun v => u32 (v - 1)) ;;
    assert_ (0 <? rc) ;;
    if rc =? 1 then
      pony_gc_recv ctx ;;
      pony_traceobject ctx p fn ;;
      gc_handlestack ctx
    else Ret tt.

Definition so_lockfree_chain_final (ctx p fn : Z) : prog mem unit :=
  if p =? NULL then Ret tt
  else
    let f := UNFREEZE p in
    b <- load (f, SO_PUBLISHED) ;;
    if b =? 0 then Ret tt
    else
      rc <- rmw (f, SO_RC) (fun v => u32 (v - 1)) ;;
      assert_ (0 <? rc) ;;
      if rc =? 1 then
        pony_gc_recv ctx ;;
        pony_traceobject ctx f fn ;;
        gc_handlestack ctx
      else Ret tt.

(** The objects collected on [ctx->lf_tmp_stack]. *)
Definition drain (ctx : Z) (each : Z -> prog mem unit) : prog mem unit :=
  loop fuel (fun _ : unit =>
    s <- load (ctx, CTX_LF_TMP_STACK) ;;
    if s =? NULL then break tt
    else
      s <- load (ctx, CTX_LF_TMP_STACK) ;;
      r <- stack_pop s ;;
      store (ctx, CTX_LF_TMP_STACK) r.1 ;;
      each r.2 ;;
      continue tt) tt.

Definition so_lockfree_send (ctx : Z) : prog mem unit :=
  drain ctx (gc_sendobject_shallow ctx) ;;
  gc_sendobject_shallow_done ctx.

Definition so_lockfree_unsend (ctx : Z) : prog mem unit := drain ctx (fun _ => Ret tt).

Definition so_lockfree_recv (ctx : Z) : prog mem unit :=
  drain ctx (gc_recvobject_shallow ctx) ;;
  gc_recvobject_shallow_done ctx.

Definition so_lockfree_set_trace_boundary (ctx p : Z) : prog mem unit :=
  store (ctx, CTX_BOUNDARY) p.

(** ** The compare-and-swap of a link ([mannual_not_trace]) *)

Definition _so_lockfree_cas_try_wrapper (ctx this : Z) (X : loc) (Y _Z : Z) : prog mem bool :=
  assert_ (negb (X.1 =? NULL)) ;;
  let Z := UNFREEZE _Z in
  so_lockfree_pre_publish Z ;;
  ret <- CAS X Y _Z ;;
  (if ret : bool then
     assert_ (Y =? NULL) ;;
     gc_sendobject_shallow ctx Z ;;
     gc_sendobject_shallow_done ctx
   else so_lockfree_unpre_publish Z) ;;
  Ret ret.

Definition _so_lockfree_cas_extract_wrapper (address : loc) : prog mem Z :=
  tmp <- load address ;;
  store address NULL ;;
  Ret tmp.

Definition _so_lockfree_cas_link_wrapper (ctx this : Z) (X : loc) (Y Z : Z) : prog mem bool :=
  assert_ (negb (X.1 =? NULL)) ;;
  so_lockfree_pre_publish Z ;;
  ret <- CAS X Y Z ;;
  (if ret : bool then
     gc_sendobject_shallow ctx Z ;;
     gc_sendobject_shallow_done ctx ;;
     so_lockfree_delay_dec (so_gc_of this) Y
   else so_lockfree_unpre_publish Z) ;;
  Ret ret.

Definition _so_lockfree_cas_unlink_wrapper (ctx this : Z) (X : loc) (Y Z : Z) : prog mem bool :=
  assert_ (negb (X.1 =? NULL)) ;;
  _ <- so_lockfree_inc_rc Z ;;
  ret <- CAS X Y Z ;;
  (if ret : bool then so_lockfree_delay_dec (so_gc_of this) Y
   else so_lockfree_delay_dec (so_gc_of this) Z) ;;
  Ret ret.

Definition _so_lockfree_cas_swap_wrapper (ctx this : Z) (X : loc) (Y Z : Z) : prog mem bool :=
  assert_ (negb (X.1 =? NULL)) ;;
  so_lockfree_pre_publish Z ;;
  ret <- CAS X Y Z ;;
  (if ret : bool then
     gc_sendobject_shallow ctx Z ;;
     gc_sendobject_shallow_done ctx ;;
     so_lockfree_delay_dec (so_gc_of this) Y
   else so_lockfree_unpre_publish Z) ;;
  Ret ret.

(** Called before the assignment itself, which the generated code performs. *)
Definition so_lockfree_assign_spec_wrapper (ctx this lhs rhs : Z) : prog mem unit :=
  assert_ (rhs =? UNFREEZE rhs) ;;
  assert_ (lhs =? UNFREEZE lhs) ;;
  _ <- so_lockfree_inc_rc rhs ;;
  if negb (lhs =? NULL) then
    b <- so_lockfree_is_published lhs ;;
    if b : bool then so_lockfree_delay_dec (so_gc_of this) lhs else Ret tt
  else Ret tt.

Definition _so_lockfree_assign_subord_wrapper (ctx this lhs rhs : Z) : prog mem unit :=
  assert_ (rhs =? UNFREEZE rhs) ;;
  assert_ (lhs =? UNFREEZE lhs) ;;
  _ <- so_lockfree_inc_rc rhs ;;
  if negb (lhs =? NULL) then
    b <- so_lockfree_is_published lhs ;;
    if b : bool then so_lockfree_delay_dec (so_gc_of this) lhs else Ret tt
  else Ret tt.
End code.
End so.
