(* ===== verification/SoCount.v ===== *)
(** * Delayed reference counts

    What the reclamation of encore/shared_object.c does, on the level of counts:
    a heap of objects, each with its count and the link it owns (the word at
    [f+4]), and the list of pending decrements.  [counted] is the balance every
    operation has to keep: the count of an object is the number of links to it
    plus the number of its pending decrements.  [cleaned] performs decrements;
    it keeps the balance, and it frees exactly the objects that nothing refers
    to any more. *)
From S2P Require Export SharedObject.

Record cell : Set := Cell { crc : Z; cfld : Z }.
Abbreviation heap := (gmap Z cell).

Definition occ (l : list Z) (p : Z) : Z := Z.of_nat (count_occ Z.eq_dec l p).

(** The objects that the links owned by the objects of the heap refer to; a
    frozen link carries a mark. *)
Definition flds (H : heap) : list Z := (fun e => UNFREEZE (cfld e.2)) <$> map_to_list H.
Definition unfrozen (H : heap) : Prop := forall p c, H !! p = Some c -> UNFREEZE (cfld c) = cfld c.

(** [roots] are the links of the container, [pend] the pending decrements. *)
Record counted (H : heap) (pend roots : list Z) : Prop := {
  ct_rc : forall p c, H !! p = Some c -> crc c = occ (pend ++ roots ++ flds H) p;
  ct_heap : forall p, p ∈ pend ++ roots ++ flds H -> p <> NULL -> is_Some (H !! p);
  ct_null : H !! NULL = None;
  ct_pend : NULL ∉ pend
}.

(** One decrement: the last one frees the object and passes its own link on. *)
Definition dec1 (S : heap * list Z) (p : Z) : heap * list Z :=
  match S.1 !! p with
  | Some (Cell n f) =>
      if n =? 1 then (delete p S.1, if f =? NULL then S.2 else f :: S.2)
      else (<[p := Cell (n - 1) f]> S.1, S.2)
  | None => S
  end.

Definition cleaned (es : list Z) (S : heap * list Z) : heap * list Z := foldl dec1 S es.

(** * Proofs *)

Lemma occ_app l l' p : occ (l ++ l') p = occ l p + occ l' p.
Proof. unfold occ. rewrite count_occ_app. lia. Qed.

Lemma occ_cons q l p : occ (q :: l) p = b2z (q =? p) + occ l p.
Proof.
  unfold occ. simpl. destruct (Z.eq_dec q p) as [->|H].
  - rewrite Z.eqb_refl. simpl. lia.
  - apply Z.eqb_neq in H. rewrite H. simpl. lia.
Qed.

Lemma occ_nonneg l p : 0 <= occ l p.
Proof. unfold occ. lia. Qed.

Lemma occ_in l p : p ∈ l <-> 0 < occ l p.
Proof.
  unfold occ. rewrite list_elem_of_In, (count_occ_In Z.eq_dec). lia.
Qed.

#[export] Instance occ_perm : Proper (Permutation ==> eq ==> eq) occ.
Proof.
  intros l l' Hl p ? <-. unfold occ. f_equal. by apply (Permutation_count_occ Z.eq_dec).
Qed.

Lemma flds_insert H p c : H !! p = None -> flds (<[p := c]> H) ≡ₚ UNFREEZE (cfld c) :: flds H.
Proof. intros Hp. unfold flds. rewrite map_to_list_insert by done. reflexivity. Qed.

Lemma flds_delete H p c : H !! p = Some c -> flds H ≡ₚ UNFREEZE (cfld c) :: flds (delete p H).
Proof.
  intros Hp. rewrite <- (insert_delete_id H p c Hp) at 1. apply flds_insert, lookup_delete_eq.
Qed.

Lemma flds_update H p c c' : H !! p = Some c -> cfld c' = cfld c -> flds (<[p := c']> H) ≡ₚ flds H.
Proof.
  intros Hp E. rewrite (flds_delete _ _ _ Hp), <- insert_delete_eq, flds_insert by apply lookup_delete_eq.
  by rewrite E.
Qed.

(** The balance does not depend on the order of anything. *)
#[export] Instance counted_perm H : Proper (Permutation ==> Permutation ==> iff) (counted H).
Proof.
  assert (D : forall pend pend' roots roots', pend ≡ₚ pend' -> roots ≡ₚ roots' ->
    counted H pend roots -> counted H pend' roots').
  { intros pend pend' roots roots' E1 E2 [H1 H2 H3 H4]. split; auto.
    - intros p c Hp. rewrite (H1 p c Hp). by rewrite E1, E2.
    - intros p Hp. apply H2. by rewrite E1, E2.
    - by rewrite <- E1. }
  intros a b E1 c d E2. split; apply D; auto; by symmetry.
Qed.

Lemma b2z_eqb p q : 0 <= b2z (p =? q) <= 1.
Proof. destruct (p =? q); simpl; lia. Qed.

(** Decrements never change the links, and never bring an object back. *)
Lemma dec1_sub S p q c : (dec1 S p).1 !! q = Some c -> exists n, S.1 !! q = Some (Cell n (cfld c)).
Proof.
  destruct S as [H l]. unfold dec1. simpl. destruct (H !! p) as [[n f]|] eqn:Hp; simpl.
  - case_match; simpl.
    + intros [_ Hq]%lookup_delete_Some. destruct c. eauto.
    + intros [[<- <-]|[_ Hq]]%lookup_insert_Some; simpl; [eauto|]. destruct c; eauto.
  - destruct c. eauto.
Qed.

Lemma dec1_unfrozen S p : unfrozen S.1 -> unfrozen (dec1 S p).1.
Proof. intros Hu q c Hq. apply dec1_sub in Hq as [n Hq]. apply (Hu q _ Hq). Qed.

(** One decrement keeps the balance. *)
Lemma dec1_counted H p es l roots : unfrozen H -> counted H (p :: es ++ l) roots ->
  counted (dec1 (H, l) p).1 (es ++ (dec1 (H, l) p).2) roots.
Proof.
  intros Hu [H1 H2 H3 H4]. assert (Hp0 : p <> NULL) by (intros ->; apply H4; left).
  destruct (H2 p ltac:(left) Hp0) as [[n f] Hp]. unfold dec1. simpl. rewrite Hp.
  pose proof (H1 p _ Hp) as Hn. simpl in Hn. rewrite occ_cons, Z.eqb_refl, !occ_app in Hn. simpl in Hn.
  pose proof (occ_nonneg es p). pose proof (occ_nonneg l p). pose proof (occ_nonneg roots p).
  pose proof (occ_nonneg (flds H) p).
  assert (Hpend : NULL ∉ es ++ l) by (intros E; apply H4; by right).
  destruct (Z.eqb_spec n 1) as [->|Hn1]; simpl.
  - pose proof (flds_delete H p _ Hp) as Hd. rewrite (Hu p _ Hp) in Hd. simpl in Hd.
    assert (Hf : f <> p).
    { intros ->. assert (0 < occ (flds H) p); [|lia]. rewrite Hd, occ_cons, Z.eqb_refl.
      pose proof (occ_nonneg (flds (delete p H)) p). simpl. lia. }
    assert (Hocc : forall q, q <> NULL ->
      occ ((es ++ (if f =? NULL then l else f :: l)) ++ roots ++ flds (delete p H)) q =
      occ ((es ++ l) ++ roots ++ flds H) q).
    { intros q Hq. rewrite !occ_app, Hd, occ_cons. destruct (Z.eqb_spec f 0) as [->|_].
      - rewrite (proj2 (Z.eqb_neq 0 q)) by congruence. simpl. lia.
      - rewrite occ_cons. lia. }
    split.
    + intros q c Hq. apply lookup_delete_Some in Hq as [Hne Hq].
      rewrite Hocc by (intros ->; congruence). rewrite (H1 q c Hq). rewrite !occ_app, occ_cons, occ_app.
      rewrite (proj2 (Z.eqb_neq p q)) by congruence. simpl. lia.
    + intros q Hq Hq0. rewrite occ_in, (Hocc q Hq0) in Hq.
      assert (Hne : q <> p) by (intros ->; rewrite !occ_app in Hq; lia).
      rewrite lookup_delete_ne by congruence. apply H2; [|done]. rewrite occ_in.
      rewrite !occ_app in *. rewrite occ_cons, occ_app. pose proof (b2z_eqb p q). lia.
    + by rewrite lookup_delete_ne.
    + case_match eqn:E; [done|]. apply Z.eqb_neq in E. rewrite elem_of_app, elem_of_cons.
      rewrite elem_of_app in Hpend. naive_solver.
  - pose proof (flds_update H p (Cell n f) (Cell (n - 1) f) Hp eq_refl) as Hup. split.
    + intros q c Hq. rewrite !occ_app, Hup. apply lookup_insert_Some in Hq as [[<- <-]|[Hne Hq]]; simpl; [lia|].
      rewrite (H1 q c Hq). rewrite !occ_app, occ_cons, occ_app.
      rewrite (proj2 (Z.eqb_neq p q)) by congruence. simpl. lia.
    + intros q Hq Hq0. rewrite Hup in Hq. destruct (decide (p = q)) as [<-|Hne].
      * rewrite lookup_insert_eq. eauto.
      * rewrite lookup_insert_ne by done. apply H2; [|done]. by right.
    + by rewrite lookup_insert_ne.
    + done.
Qed.

Lemma cleaned_unfrozen es S : unfrozen S.1 -> unfrozen (cleaned es S).1.
Proof. revert S. induction es as [|p es IH]; intros S Hu; [done|]. by apply IH, dec1_unfrozen. Qed.

Lemma cleaned_counted es H l roots : unfrozen H -> counted H (es ++ l) roots ->
  counted (cleaned es (H, l)).1 (cleaned es (H, l)).2 roots.
Proof.
  revert H l. induction es as [|p es IH]; intros H l Hu Hc; [done|]. simpl.
  pose proof (dec1_unfrozen (H, l) p Hu) as Hu'. apply dec1_counted in Hc; [|done].
  destruct (dec1 (H, l) p) as [H' l']. by apply IH.
Qed.

Lemma dec1_app H l o p : dec1 (H, l ++ o) p = ((dec1 (H, l) p).1, (dec1 (H, l) p).2 ++ o).
Proof. unfold dec1. simpl. destruct (H !! p) as [[n f]|]; simpl; [|done]. repeat case_match; done. Qed.

Lemma cleaned_app es H l o :
  cleaned es (H, l ++ o) = ((cleaned es (H, l)).1, (cleaned es (H, l)).2 ++ o).
Proof.
  revert H l. induction es as [|p es IH]; intros H l; [done|]. simpl.
  rewrite dec1_app. destruct (dec1 (H, l) p) as [H' l']. apply IH.
Qed.

(** An object the container or another object refers to survives. *)
Lemma counted_live H pend roots p : counted H pend roots -> p ∈ roots -> p <> NULL -> is_Some (H !! p).
Proof. intros Hc Hp. apply (ct_heap _ _ _ Hc). rewrite !elem_of_app. auto. Qed.
