(* ===== verification/SoReclaim.v ===== *)
(** * The limbo lists of a shared object

    How the abstract state of SoCount lies in memory, and that the wrapper pool,
    the delayed decrement and the cleaning of a limbo list do on it what they are
    meant to do. *)
From S2P Require Export SoCount.

(** The wrappers of a limbo list: address and object. *)
Fixpoint wlist (m : mem) (h : Z) (es : list (Z * Z)) : Prop :=
  match es with
  | [] => h = NULL
  | (w, p) :: es' => h = w /\ is_struct m w sizeof_wrapper_t /\ get m (w, W_P) = Some p /\
      exists n, get m (w, W_NEXT) = Some n /\ wlist m n es'
  end.

(** What one thread's part of the runtime consists of. *)
Record rt : Set := Rt {
  r_so : Z; r_threads : Z; r_n : Z; r_index : Z; r_epoch : Z;
  r_pool : list Z; r_limbo : list (list (Z * Z)) }.

Definition owned (tid : Z) (r : rt) : list Z :=
  [tls tid; r_so r; r_threads r] ++ (concat (r_limbo r)).*1 ++ r_pool r.

(** [skip] is the limbo list that is being cleaned: its head is out of date. *)
Record rt_at (tid : Z) (skip : option nat) (m : mem) (r : rt) : Prop := {
  ra_tls : is_struct m (tls tid) 816;
  ra_index : get m (tls tid, TL_INDEX) = Some (r_index r);
  ra_so : is_struct m (r_so r) sizeof_so_gc;
  ra_threads : get m (r_so r, GC_THREADS) = Some (r_threads r);
  ra_array : is_struct m (r_threads r) (32 * r_n r);
  ra_range : 0 <= r_index r < r_n r;
  ra_epoch : get m (thr (r_threads r) (r_index r) PT_LOCAL_EPOCH) = Some (r_epoch r);
  ra_epoch3 : 0 <= r_epoch r < 3;
  ra_counter : get m (tls tid, TL_COUNTER) = Some (Z.of_nat (length (r_pool r)));
  ra_pool_le : (length (r_pool r) <= 100)%nat;
  ra_pool : forall i w, r_pool r !! i = Some w ->
    get m (tls tid, TL_POOL + 8 * Z.of_nat i) = Some w /\ is_struct m w sizeof_wrapper_t;
  ra_three : length (r_limbo r) = 3%nat;
  ra_skip : forall j, skip = Some j -> r_limbo r !! j = Some [];
  ra_limbo : forall j es, r_limbo r !! j = Some es -> Some j <> skip -> exists h,
    get m (thr (r_threads r) (r_index r) (PT_LIMBO + 8 * Z.of_nat j)) = Some h /\ wlist m h es;
  ra_nodup : NoDup (owned tid r)
}.

(** The objects of the heap. *)
Definition heap_at (m : mem) (H : heap) : Prop :=
  forall p c, H !! p = Some c -> is_struct m p sizeof_passive /\
    get m (p, SO_RC) = Some (crc c) /\ get m (p, SO_FIELD) = Some (cfld c) /\ 0 <= crc c < M32.

(** What the operations leave alone in the runtime's own objects: the shared
    record, and the thread records but for the limbo lists of this thread. *)
Definition rest_kept (r : rt) (m m' : mem) : Prop :=
  m' !! r_so r = m !! r_so r /\
  forall off, ~ 32 * r_index r <= off < 32 * r_index r + 24 ->
    get m' (r_threads r, off) = get m (r_threads r, off).

(** * Proofs *)

Section frames.
Implicit Types (m : mem) (r : rt).

Lemma wlist_lookup m m' h es :
  (forall b, b ∈ es.*1 -> m' !! b = m !! b) -> wlist m h es -> wlist m' h es.
Proof.
  revert h. induction es as [|[w p] es IH]; intros h Hk; simpl; [done|].
  intros (-> & H1 & H2 & n & H3 & H4). assert (E : m' !! w = m !! w) by (apply Hk; left).
  split_and!; auto.
  - by apply (is_struct_lookup m).
  - by rewrite (get_lookup_eq m).
  - exists n. rewrite (get_lookup_eq m) by done. split; [done|]. apply IH; [|done].
    intros b Hb. apply Hk. by right.
Qed.

Lemma wlist_live m h es b : wlist m h es -> b ∈ es.*1 -> is_struct m b sizeof_wrapper_t.
Proof.
  revert h. induction es as [|[w p] es IH]; intros h; simpl; [by intros _ ?%not_elem_of_nil|].
  intros (-> & H1 & _ & n & _ & H4) [->|Hb]%elem_of_cons; [done|by eapply IH].
Qed.

Lemma limbo_owned r j es (w : Z) : r_limbo r !! j = Some es -> w ∈ es.*1 -> w ∈ (concat (r_limbo r)).*1.
Proof.
  intros Hj Hw. apply list_elem_of_fmap in Hw as (e & -> & He). apply list_elem_of_fmap. eexists. split; [done|].
  apply list_elem_of_In, in_concat. exists es. split; apply list_elem_of_In; [|done].
  by eapply list_elem_of_lookup_2.
Qed.

Lemma owned_live tid sk m r b : rt_at tid sk m r -> b ∈ owned tid r -> live m b.
Proof.
  intros Hr Hb. unfold owned in Hb. rewrite !elem_of_app, !elem_of_cons in Hb.
  destruct Hb as [[->|[->|[->|Hb]]]|[Hb|Hb]].
  - eapply is_struct_live, Hr.
  - eapply is_struct_live, Hr.
  - eapply is_struct_live, Hr.
  - by apply not_elem_of_nil in Hb.
  - apply list_elem_of_fmap in Hb as (e & -> & He). apply list_elem_of_In, in_concat in He as (es & Hes & He).
    apply list_elem_of_In, list_elem_of_lookup_1 in Hes as [j Hj]. destruct (decide (Some j = sk)) as [E|Hne].
    { symmetry in E. apply (ra_skip _ _ _ _ Hr) in E. rewrite Hj in E. injection E as ->. destruct He. }
    destruct (ra_limbo _ _ _ _ Hr j es Hj Hne) as (h & _ & Hw). eapply is_struct_live, wlist_live; [exact Hw|]. apply list_elem_of_fmap. eexists. split; [done|]. by apply list_elem_of_In.
  - apply list_elem_of_lookup_1 in Hb as [i Hi]. eapply is_struct_live. by apply (ra_pool _ _ _ _ Hr i).
Qed.

(** Objects of others do not matter to the runtime. *)
Lemma rt_at_lookup tid sk m m' r :
  rt_at tid sk m r -> (forall b, b ∈ owned tid r -> m' !! b = m !! b) -> rt_at tid sk m' r.
Proof.
  intros [] H.
  assert (E1 : m' !! tls tid = m !! tls tid) by (apply H; left).
  assert (E2 : m' !! r_so r = m !! r_so r) by (apply H; right; left).
  assert (E3 : m' !! r_threads r = m !! r_threads r) by (apply H; right; right; left).
  split; auto; try (by apply (is_struct_lookup m)); try (by rewrite (get_lookup_eq m)).
  - unfold thr in *. by rewrite (get_lookup_eq m).
  - intros i w Hi. destruct (ra_pool0 i w Hi) as [G1 G2]. rewrite (get_lookup_eq m) by done. split; [done|].
    apply (is_struct_lookup m); [|done]. apply H. unfold owned. rewrite !elem_of_app. right; right.
    by eapply list_elem_of_lookup_2.
  - intros j es Hj Hsk. destruct (ra_limbo0 j es Hj Hsk) as (h & G1 & G2). exists h. split.
    + unfold thr in *. by rewrite (get_lookup_eq m).
    + eapply wlist_lookup; [|exact G2]. intros b Hb. apply H. unfold owned. rewrite !elem_of_app. right; left.
      by eapply limbo_owned.
Qed.

Lemma heap_at_lookup m m' H :
  heap_at m H -> (forall p, is_Some (H !! p) -> m' !! p = m !! p) -> heap_at m' H.
Proof.
  intros Hh E p c Hp. destruct (Hh p c Hp) as (H1 & H2 & H3 & H4).
  assert (E' : m' !! p = m !! p) by (apply E; eauto).
  split; [by apply (is_struct_lookup m)|]. by rewrite !(get_lookup_eq m m') by done.
Qed.

Lemma rest_refl r m : rest_kept r m m.
Proof. by split. Qed.

Lemma rest_trans r m1 m2 m3 : rest_kept r m1 m2 -> rest_kept r m2 m3 -> rest_kept r m1 m3.
Proof. intros [A1 A2] [B1 B2]. split; [congruence|]. intros off H. rewrite B2, A2; auto. Qed.

Lemma rest_lookup r m m' :
  m' !! r_so r = m !! r_so r -> m' !! r_threads r = m !! r_threads r -> rest_kept r m m'.
Proof. intros H1 H2. split; [done|]. intros off _. by apply get_lookup_eq. Qed.
End frames.

Definition set_pool (r : rt) (ws : list Z) : rt :=
  Rt (r_so r) (r_threads r) (r_n r) (r_index r) (r_epoch r) ws (r_limbo r).
Definition set_limbo (r : rt) (L : list (list (Z * Z))) : rt :=
  Rt (r_so r) (r_threads r) (r_n r) (r_index r) (r_epoch r) (r_pool r) L.
Definition set_epoch (r : rt) (e : Z) : rt :=
  Rt (r_so r) (r_threads r) (r_n r) (r_index r) e (r_pool r) (r_limbo r).

Section updates.
Implicit Types (m : mem) (r : rt).

Lemma owned_ne tid sk m r : rt_at tid sk m r ->
  tls tid <> r_so r /\ tls tid <> r_threads r /\ r_so r <> r_threads r /\
  (forall w, w ∈ (concat (r_limbo r)).*1 ++ r_pool r -> w <> tls tid /\ w <> r_so r /\ w <> r_threads r).
Proof.
  intros Hr. pose proof (ra_nodup _ _ _ _ Hr) as H. unfold owned in H. simpl in H.
  rewrite !NoDup_cons, !elem_of_cons in H. destruct H as (H1 & H2 & H3 & H4). split_and!; [naive_solver..|].
  intros w Hw. split_and!; intros ->; naive_solver.
Qed.

(** A wrapper of a limbo list that is not being cleaned. *)
Lemma limbo_wrapper r j es b : r_limbo r !! j = Some es -> b ∈ es.*1 -> b ∈ (concat (r_limbo r)).*1 ++ r_pool r.
Proof. intros Hj Hb. apply elem_of_app. left. by eapply limbo_owned. Qed.

(** Another field of the thread records. *)
Lemma rt_at_th tid sk m r off v : rt_at tid sk m r ->
  ~ 32 * r_index r <= off < 32 * r_index r + 24 -> off <> 32 * r_index r + PT_LOCAL_EPOCH ->
  rt_at tid sk (upd m (r_threads r, off) v) r.
Proof.
  intros Hr Ho He. destruct (owned_ne _ _ _ _ Hr) as (N1 & N2 & N3 & N4). pose proof Hr as Hr0. destruct Hr.
  split; auto; try (by rewrite is_struct_upd); try (by rewrite get_upd_ne by loc_ne).
  - unfold thr, sizeof_so_thread in *. rewrite get_upd_ne; [done|]. intros [=]. lia.
  - intros i w Hi. rewrite is_struct_upd, get_upd_ne by loc_ne. auto.
  - intros j es Hj Hsk. destruct (ra_limbo0 j es Hj Hsk) as (h & G1 & G2). exists h. split.
    + apply lookup_lt_Some in Hj. unfold thr, sizeof_so_thread in *. rewrite get_upd_ne; [done|].
      intros [=]. lia.
    + eapply wlist_lookup; [|exact G2]. intros b Hb. apply lookup_upd_ne. simpl.
      apply N4. by eapply limbo_wrapper.
Qed.

(** The thread's epoch. *)
Lemma rt_at_set_epoch tid sk m r e : rt_at tid sk m r -> 0 <= e < 3 ->
  rt_at tid sk (upd m (thr (r_threads r) (r_index r) PT_LOCAL_EPOCH) e) (set_epoch r e).
Proof.
  intros Hr He. destruct (owned_ne _ _ _ _ Hr) as (N1 & N2 & N3 & N4). destruct Hr.
  split; simpl; auto; unfold thr, sizeof_so_thread in *; try (by rewrite is_struct_upd);
    try (by rewrite get_upd_ne by loc_ne).
  - by rewrite get_upd_eq by mlive.
  - intros i w Hi. rewrite is_struct_upd, get_upd_ne by loc_ne. auto.
  - intros j es Hj Hsk. destruct (ra_limbo0 j es Hj Hsk) as (h & G1 & G2). exists h. split.
    + apply lookup_lt_Some in Hj. rewrite get_upd_ne; [done|]. intros [=]. lia.
    + eapply wlist_lookup; [|exact G2]. intros b Hb. apply lookup_upd_ne. simpl.
      apply N4. by eapply limbo_wrapper.
Qed.

(** The wrapper pool. *)
Lemma rt_at_set_pool tid sk m m' r ws : rt_at tid sk m r ->
  (forall b, b ∈ [r_so r; r_threads r] ++ (concat (r_limbo r)).*1 -> m' !! b = m !! b) ->
  is_struct m' (tls tid) 816 -> get m' (tls tid, TL_INDEX) = Some (r_index r) ->
  get m' (tls tid, TL_COUNTER) = Some (Z.of_nat (length ws)) -> (length ws <= 100)%nat ->
  (forall i w, ws !! i = Some w ->
    get m' (tls tid, TL_POOL + 8 * Z.of_nat i) = Some w /\ is_struct m' w sizeof_wrapper_t) ->
  NoDup (owned tid (set_pool r ws)) -> rt_at tid sk m' (set_pool r ws).
Proof.
  intros [] H Ht Hi Hc Hl Hw Hnd.
  assert (E2 : m' !! r_so r = m !! r_so r) by (apply H; left).
  assert (E3 : m' !! r_threads r = m !! r_threads r) by (apply H; right; left).
  split; simpl; auto; try (by apply (is_struct_lookup m)); try (by rewrite (get_lookup_eq m)).
  - unfold thr in *. by rewrite (get_lookup_eq m).
  - intros j es Hj Hsk. destruct (ra_limbo0 j es Hj Hsk) as (h & G1 & G2). exists h. split.
    + unfold thr in *. by rewrite (get_lookup_eq m).
    + eapply wlist_lookup; [|exact G2]. intros b Hb. apply H, elem_of_app. right. by eapply limbo_owned.
Qed.
End updates.

(** A block that is free, or the runtime's. *)
Definition gone (tid : Z) (r : rt) (m : mem) (b : Z) : Prop := m !! b = None \/ b ∈ owned tid r.

(** What an operation of the runtime may do to the memory: it changes only what
    it owns, it takes over only blocks nobody uses, and it gives none away. *)
Definition own_frame (tid : Z) (r : rt) (m m' : mem) (r' : rt) : Prop :=
  (forall b, b ∉ owned tid r -> live m b -> m' !! b = m !! b) /\
  (forall b, b ∈ owned tid r' -> b ∈ owned tid r \/ m !! b = None) /\
  (forall b, gone tid r m b -> gone tid r' m' b).

Section operations.
Context `{HM : Malloc, HR : !MallocRoom}.
Implicit Types (m : mem) (r : rt).

Lemma owned_pool_snoc tid r ws w :
  owned tid (set_pool r (ws ++ [w])) = owned tid (set_pool r ws) ++ [w].
Proof. unfold owned. simpl. by rewrite !app_assoc. Qed.

Lemma set_pool_id r : set_pool r (r_pool r) = r.
Proof. by destruct r. Qed.

Lemma owned_pool_mono tid r ws ws' b : (forall w, w ∈ ws -> w ∈ ws') ->
  b ∈ owned tid (set_pool r ws) -> b ∈ owned tid (set_pool r ws').
Proof. intros H. unfold owned. simpl. rewrite !elem_of_cons, !elem_of_app. naive_solver. Qed.

(** A wrapper from the pool, or a new block. *)
Lemma new_wrapper_ok tid sk m r k : rt_at tid sk m r -> mroom (S k) m ->
  tot (so.new_wrapper tid) m (fun w m' => exists ws,
    rt_at tid sk m' (set_pool r ws) /\ is_struct m' w sizeof_wrapper_t /\
    (w ∉ owned tid (set_pool r ws)) /\ (w ∈ owned tid r \/ m !! w = None) /\
    (forall b, b ∈ ws -> b ∈ r_pool r) /\ mroom k m' /\
    (forall b, b <> tls tid -> b <> w -> m' !! b = m !! b) /\
    (forall b, b ∈ owned tid r -> b = w \/ b ∈ owned tid (set_pool r ws))).
Proof.
  intros Hr Hk. pose proof (ra_counter _ _ _ _ Hr) as Hc. pose proof (ra_tls _ _ _ _ Hr) as Ht.
  destruct (owned_ne _ _ _ _ Hr) as (N1 & N2 & N3 & N4).
  unfold so.new_wrapper. psteps. destruct (Z.ltb_spec 0 (Z.of_nat (length (r_pool r)))) as [Hl|Hl].
  - destruct (exists_last (l := r_pool r)) as (ws & w & Ew); [by intros E; rewrite E in Hl|].
    rewrite Ew, length_app in Hc, Hl. simpl in Hc, Hl.
    destruct (ra_pool _ _ _ _ Hr (length ws) w) as [Hg Hw].
    { rewrite Ew, lookup_app_r, Nat.sub_diag by lia. done. }
    replace (Z.of_nat (length ws + 1)) with (Z.of_nat (length ws) + 1) in * by lia.
    psteps. replace (Z.of_nat (length ws) + 1 - 1) with (Z.of_nat (length ws)) by lia.
    assert (Hle : (length ws < 100)%nat).
    { pose proof (ra_pool_le _ _ _ _ Hr) as H. rewrite Ew, length_app in H. simpl in H. lia. }
    eapply tot_load; [mget|]. exists ws.
    pose proof (ra_nodup _ _ _ _ Hr) as Hnd. rewrite <- (set_pool_id r), Ew, owned_pool_snoc in Hnd.
    apply NoDup_app in Hnd as (Hnd & Hw2 & _).
    assert (Hsub : forall b, b ∈ ws -> b ∈ r_pool r) by (intros b Hb; rewrite Ew, elem_of_app; by left).
    split_and!; auto.
    + eapply rt_at_set_pool; [exact Hr|..]; try done.
      * intros b Hb. apply lookup_upd_ne. simpl. intros ->. rewrite elem_of_app, !elem_of_cons in Hb.
        destruct Hb as [[E|[E|E]]|E]; [congruence|congruence|by apply not_elem_of_nil in E|].
        exact (proj1 (N4 (tls tid) ltac:(apply elem_of_app; by left)) eq_refl).
      * by rewrite is_struct_upd.
      * pose proof (ra_index _ _ _ _ Hr). mget.
      * mget.
      * lia.
      * intros i x Hi. pose proof (lookup_lt_Some _ _ _ Hi). rewrite is_struct_upd, get_upd_ne by loc_ne.
        apply (ra_pool _ _ _ _ Hr). rewrite Ew. by apply lookup_app_l_Some.
    + by rewrite is_struct_upd.
    + intros E. apply (Hw2 w E). left.
    + left. rewrite <- (set_pool_id r), Ew, owned_pool_snoc. apply elem_of_app. right; left.
    + apply mroom_upd. eapply mroom_mono; [exact Hk|lia].
    + intros b Hb _. by apply lookup_upd_ne.
    + intros b Hb. rewrite <- (set_pool_id r), Ew, owned_pool_snoc in Hb.
      apply elem_of_app in Hb as [Hb|Hb]; [by right|]. left. by apply list_elem_of_singleton in Hb.
  - assert (r_pool r = []) as E by (destruct (r_pool r); [done|simpl in Hl; lia]).
    unfold POOL_ALLOC, malloc. apply tot_bind. eapply tot_alloc; [exact Hk|done|].
    intros a (Ha & Hf & _) Hk'. rewrite (proj2 (Z.eqb_neq a 0) Ha). apply tot_ret. exists (r_pool r).
    rewrite set_pool_id.
    assert (Hn : a ∉ owned tid r).
    { intros Hin. eapply owned_live in Hin as [o Ho]; [|exact Hr]. congruence. }
    split_and!; auto.
    + eapply rt_at_lookup; [exact Hr|]. intros b Hb. rewrite lookup_insert_ne; [done|congruence].
    + split; [done|]. eexists. rewrite lookup_insert_eq. done.
    + intros b _ Hb. rewrite lookup_insert_ne; [done|congruence].
Qed.

(** The pool emptied, its wrappers returned. *)
Lemma flush_ok tid m ws : is_struct m (tls tid) 816 -> NoDup (tls tid :: ws) -> length ws = 100%nat ->
  (forall i w, ws !! i = Some w -> get m (tls tid, TL_POOL + 8 * Z.of_nat i) = Some w /\
    is_struct m w sizeof_wrapper_t) ->
  tot (forz (Z.to_nat wrapper_pool_size) 0 (fun i => w <- load (tls tid, TL_POOL + 8 * i) ;; POOL_FREE w)) m
    (fun _ m' => forall b, m' !! b = if decide (b ∈ ws) then None else m !! b).
Proof.
  intros Ht [Hnt Hnd]%NoDup_cons Hl Hw.
  eapply tot_mono; [apply (tot_forz (fun i m' => forall b, m' !! b = if decide (b ∈ take i ws) then None else m !! b))|].
  - change (Z.to_nat wrapper_pool_size) with 100%nat. intros i m1 Hi Hm1'.
    assert (Hm1 : forall b, b ∉ take i ws -> m1 !! b = m !! b) by (intros b Hb; by rewrite Hm1', decide_False).
    destruct (lookup_lt_is_Some_2 ws i) as [w Hwi]; [lia|]. destruct (Hw i w Hwi) as [G1 G2].
    assert (Hwn : w ∉ take i ws).
    { intros E. apply list_elem_of_lookup_1 in E as [j Hj]. apply lookup_take_Some in Hj as [Hj Hlt].
      pose proof (NoDup_lookup _ _ _ _ Hnd Hj Hwi). lia. }
    assert (Htn : tls tid ∉ take i ws) by (intros E; apply Hnt; by eapply elem_of_subseteq, E; apply subseteq_take).
    apply tot_bind. eapply tot_load; [rewrite (get_lookup_eq m) by auto; exact G1|].
    apply tot_free; [apply G2| |].
    + eapply is_struct_live, is_struct_lookup; [|exact G2]. auto.
    + intros b. destruct (decide (b = w)) as [->|Hne].
      * rewrite lookup_delete_eq, decide_True; [done|]. rewrite (take_S_r _ _ _ Hwi), elem_of_app. right; left.
      * rewrite lookup_delete_ne by done. rewrite Hm1'. apply decide_ext.
        rewrite (take_S_r _ _ _ Hwi), elem_of_app, list_elem_of_singleton. naive_solver.
  - intros b. rewrite decide_False; [done|]. simpl. apply not_elem_of_nil.
  - change (Z.to_nat wrapper_pool_size) with 100%nat. intros a m' H b. rewrite H, take_ge by lia. done.
Qed.

(** The pool is apart from the rest of the runtime. *)
Lemma pool_apart tid sk m r b : rt_at tid sk m r ->
  b ∈ [r_so r; r_threads r] ++ (concat (r_limbo r)).*1 -> b <> tls tid /\ b ∉ r_pool r.
Proof.
  intros Hr Hb. pose proof (ra_nodup _ _ _ _ Hr) as Hnd. unfold owned in Hnd.
  change (NoDup (tls tid :: ([r_so r; r_threads r] ++ (concat (r_limbo r)).*1) ++ r_pool r)) in Hnd.
  apply NoDup_cons in Hnd as [H1 Hnd]. apply NoDup_app in Hnd as (_ & H2 & _). split; [|auto].
  intros ->. apply H1, elem_of_app. by left.
Qed.

Lemma pool_nodup tid sk m r : rt_at tid sk m r -> NoDup (tls tid :: r_pool r).
Proof.
  intros Hr. pose proof (ra_nodup _ _ _ _ Hr) as Hnd. unfold owned in Hnd.
  change (NoDup (tls tid :: ([r_so r; r_threads r] ++ (concat (r_limbo r)).*1) ++ r_pool r)) in Hnd.
  apply NoDup_cons in Hnd as [H1 Hnd]. apply NoDup_app in Hnd as (_ & _ & H2). apply NoDup_cons.
  split; [|done]. intros E. apply H1, elem_of_app. by right.
Qed.

Lemma owned_pool_nil tid r : NoDup (owned tid r) -> NoDup (owned tid (set_pool r [])).
Proof. unfold owned. simpl. rewrite app_nil_r, !app_comm_cons. by intros (? & _)%NoDup_app. Qed.

(** A pool that is not full takes a wrapper. *)
Lemma pool_push tid sk m r d : rt_at tid sk m r -> (length (r_pool r) < 100)%nat ->
  is_struct m d sizeof_wrapper_t -> d ∉ owned tid r ->
  rt_at tid sk (upd (upd m (tls tid, TL_COUNTER) (Z.of_nat (length (r_pool r)) + 1))
                  (tls tid, TL_POOL + 8 * Z.of_nat (length (r_pool r))) d) (set_pool r (r_pool r ++ [d])).
Proof.
  intros Hr Hl Hd Hdn. pose proof (ra_tls _ _ _ _ Hr) as Ht. pose proof (ra_index _ _ _ _ Hr) as Hi.
  eapply rt_at_set_pool; [exact Hr|..]; rewrite ?length_app; simpl; try lia.
  - intros b Hb. destruct (pool_apart _ _ _ _ _ Hr Hb) as (B1 & B2). by rewrite !lookup_upd_ne by done.
  - by rewrite !is_struct_upd.
  - mget.
  - rewrite get_upd_ne by loc_ne. rewrite get_upd_eq by mlive. f_equal. lia.
  - intros i w Hw. rewrite !is_struct_upd. apply lookup_snoc_Some in Hw as [[Hlt Hw]|[-> <-]].
    + destruct (ra_pool _ _ _ _ Hr i w Hw) as [G1 G2]. rewrite !get_upd_ne by loc_ne. done.
    + split; [mget|done].
  - rewrite owned_pool_snoc, set_pool_id. apply NoDup_app. split_and!; [apply Hr| |apply NoDup_singleton].
    intros x Hx ->%list_elem_of_singleton. done.
Qed.

(** A full pool is emptied. *)
Lemma make_room_ok tid sk m r : rt_at tid sk m r ->
  tot (if Z.of_nat (length (r_pool r)) =? wrapper_pool_size then
         store (tls tid, TL_COUNTER) 0 ;;
         forz (Z.to_nat wrapper_pool_size) 0 (fun i => w <- load (tls tid, TL_POOL + 8 * i) ;; POOL_FREE w)
       else Ret tt) m (fun _ m' => exists ws, rt_at tid sk m' (set_pool r ws) /\ (length ws < 100)%nat /\
    (forall b, b ∈ ws -> b ∈ r_pool r) /\ (forall b, b <> tls tid -> b ∉ r_pool r -> m' !! b = m !! b) /\
    (forall b, b ∈ r_pool r -> m' !! b = None \/ b ∈ ws)).
Proof.
  intros Hr. pose proof (ra_tls _ _ _ _ Hr) as Ht. pose proof (ra_index _ _ _ _ Hr) as Hi.
  pose proof (ra_pool_le _ _ _ _ Hr) as Hle. unfold wrapper_pool_size.
  destruct (Z.eqb_spec (Z.of_nat (length (r_pool r))) 100) as [E|E].
  - apply tot_bind. eapply tot_store; [minb|]. set (m1 := upd m (tls tid, 800) 0).
    pose proof (pool_nodup _ _ _ _ Hr) as Hnd.
    eapply tot_mono; [apply (flush_ok tid m1 (r_pool r)); [by unfold m1; rewrite is_struct_upd|done|lia|]|].
    + intros i w Hw. pose proof (lookup_lt_Some _ _ _ Hw). destruct (ra_pool _ _ _ _ Hr i w Hw) as [G1 G2].
      unfold m1. rewrite is_struct_upd, get_upd_ne by loc_ne. done.
    + intros a m2 Hm2'. apply NoDup_cons in Hnd as [Hnt _].
      assert (Hm2 : forall b, b ∉ r_pool r -> m2 !! b = m1 !! b) by (intros b Hb; by rewrite Hm2', decide_False).
      assert (E2 : m2 !! tls tid = m1 !! tls tid) by auto.
      exists []. split_and!; simpl; [|lia|by intros ? ?%not_elem_of_nil| |intros b Hb; left; by rewrite Hm2', decide_True].
      * eapply rt_at_set_pool; [exact Hr|..]; simpl; try lia.
        -- intros b Hb. destruct (pool_apart _ _ _ _ _ Hr Hb) as (B1 & B2).
           rewrite Hm2 by done. unfold m1. by rewrite lookup_upd_ne.
        -- apply (is_struct_lookup m1); [done|by apply is_struct_upd].
        -- rewrite (get_lookup_eq m1) by done. unfold m1. mget.
        -- rewrite (get_lookup_eq m1) by done. unfold m1. mget.
        -- intros i w Hw. by rewrite lookup_nil in Hw.
        -- apply owned_pool_nil, Hr.
      * intros b B1 B2. rewrite Hm2 by done. unfold m1. by rewrite lookup_upd_ne.
  - apply tot_ret. exists (r_pool r). rewrite set_pool_id. split_and!; auto. lia.
Qed.

(** A wrapper goes to the pool; a full pool is emptied first. *)
Lemma free_wrapper_ok tid sk m r d : rt_at tid sk m r -> is_struct m d sizeof_wrapper_t -> d ∉ owned tid r ->
  tot (so.free_wrapper tid d) m (fun _ m' => exists ws,
    rt_at tid sk m' (set_pool r ws) /\ (forall b, b ∈ ws -> b = d \/ b ∈ r_pool r) /\
    (forall b, b <> tls tid -> b ∉ r_pool r -> m' !! b = m !! b) /\
    (forall b, b ∈ r_pool r -> m' !! b = None \/ b ∈ ws) /\ d ∈ ws).
Proof.
  intros Hr Hd Hdn. pose proof (ra_counter _ _ _ _ Hr) as Hc.
  unfold so.free_wrapper. psteps. eapply tot_mono; [by apply (make_room_ok tid sk)|].
  intros [] m2 (ws & H1 & H2 & H3 & H4 & H5).
  assert (Hdt : d <> tls tid) by (intros ->; apply Hdn; left).
  assert (Hdp : d ∉ r_pool r) by (intros X; apply Hdn; unfold owned; rewrite !elem_of_app; auto).
  assert (Hdn' : d ∉ owned tid (set_pool r ws)).
  { intros X. apply Hdn. rewrite <- (set_pool_id r). by eapply owned_pool_mono. }
  pose proof (ra_counter _ _ _ _ H1) as Hc2. pose proof (ra_tls _ _ _ _ H1) as Ht2. simpl in Hc2.
  apply tot_bind. eapply tot_load; [exact Hc2|]. apply tot_bind. eapply tot_store; [minb|].
  eapply tot_store; [minb|]. exists (ws ++ [d]). split_and!.
  - apply (pool_push tid sk m2 (set_pool r ws)); auto. apply (is_struct_lookup m); auto.
  - intros b [Hb|Hb]%elem_of_app; [by right; auto|]. left. by apply list_elem_of_singleton in Hb.
  - intros b B1 B2. rewrite !lookup_upd_ne by done. auto.
  - intros b Hb. pose proof (pool_nodup _ _ _ _ Hr) as [Hnt _]%NoDup_cons.
    destruct (H5 b Hb) as [E|E]; [left|right; rewrite elem_of_app; by left].
    by rewrite !lookup_upd_ne by (simpl; congruence).
  - rewrite elem_of_app. right; left.
Qed.

Lemma concat_insert {A} (L : list (list A)) j es e :
  L !! j = Some es -> concat (<[j := e :: es]> L) ≡ₚ e :: concat L.
Proof.
  revert j. induction L as [|l L IH]; intros [|j] Hj; simplify_eq/=; [done|].
  rewrite (IH j Hj). by rewrite Permutation_middle.
Qed.

Lemma concat_empty {A} (L : list (list A)) j es :
  L !! j = Some es -> concat L ≡ₚ es ++ concat (<[j := []]> L).
Proof.
  revert j. induction L as [|l L IH]; intros [|j] Hj; simplify_eq/=; [done|].
  rewrite (IH j Hj), !app_assoc. by rewrite (Permutation_app_comm l es).
Qed.

(** A wrapper linked in front of the limbo list of the thread's epoch. *)
Lemma rt_at_push tid sk m r e es h w p : rt_at tid sk m r -> is_struct m w sizeof_wrapper_t ->
  w ∉ owned tid r -> r_limbo r !! e = Some es -> r_epoch r = Z.of_nat e -> Some e <> sk ->
  get m (thr (r_threads r) (r_index r) (PT_LIMBO + 8 * r_epoch r)) = Some h -> wlist m h es ->
  rt_at tid sk
    (upd (upd (upd m (w, W_P) p) (w, W_NEXT) h) (thr (r_threads r) (r_index r) (PT_LIMBO + 8 * r_epoch r)) w)
    (set_limbo r (<[e := (w, p) :: es]> (r_limbo r))).
Proof.
  intros Hr Hw Hwn He Hep Hsk Hh Hes. destruct (owned_ne _ _ _ _ Hr) as (N1 & N2 & N3 & N4).
  assert (Hwo : forall b, b ∈ owned tid r -> b <> w) by (intros b Hb ->; done).
  assert (W1 : tls tid <> w) by (apply Hwo; left). assert (W2 : r_so r <> w) by (apply Hwo; right; left).
  assert (W3 : r_threads r <> w) by (apply Hwo; right; right; left).
  assert (Hlw : forall j es' b, r_limbo r !! j = Some es' -> b ∈ es'.*1 ->
    upd (upd (upd m (w, W_P) p) (w, W_NEXT) h) (thr (r_threads r) (r_index r) (PT_LIMBO + 8 * r_epoch r)) w !! b
    = m !! b).
  { intros j es' b Hj Hb. pose proof (limbo_wrapper _ _ _ _ Hj Hb) as Hb'. destruct (N4 b Hb') as (B1 & B2 & B3).
    assert (b <> w). { apply Hwo. unfold owned. rewrite elem_of_app. by right. }
    unfold thr. by rewrite !lookup_upd_ne. }
  pose proof (lookup_lt_Some _ _ _ He) as Hlt. pose proof Hr as Hr0. destruct Hr.
  unfold thr, sizeof_so_thread in *.
  split; simpl; unfold thr, sizeof_so_thread; auto; try (by rewrite !is_struct_upd);
    try (by rewrite !get_upd_ne by loc_ne).
  - intros i x Hi. destruct (ra_pool0 i x Hi) as [G1 G2]. rewrite !is_struct_upd, !get_upd_ne by loc_ne. done.
  - by rewrite length_insert.
  - intros j Hj. rewrite list_lookup_insert_ne by congruence. auto.
  - intros j es' Hj Hsk'. destruct (decide (e = j)) as [<-|Hne].
    + rewrite list_lookup_insert_eq in Hj by done. injection Hj as <-. exists w. rewrite <- Hep. split; [mget|].
      simpl. split_and!; [done|by rewrite !is_struct_upd|mget|]. exists h. split; [mget|].
      eapply wlist_lookup; [|exact Hes]. intros b Hb. by eapply Hlw.
    + rewrite list_lookup_insert_ne in Hj by done. destruct (ra_limbo0 j es' Hj Hsk') as (h' & G1 & G2).
      exists h'. split.
      * rewrite get_upd_ne by (intros [=]; lia). by rewrite !get_upd_ne by loc_ne.
      * eapply wlist_lookup; [|exact G2]. intros b Hb. by eapply Hlw.
  - unfold owned. simpl. rewrite (concat_insert _ _ _ _ He). simpl.
    assert (HP : tls tid :: r_so r :: r_threads r :: w :: (concat (r_limbo r)).*1 ++ r_pool r ≡ₚ w :: owned tid r).
    { unfold owned. simpl. solve_Permutation. }
    rewrite HP. by apply NoDup_cons.
Qed.

(** The delayed decrement: one more entry of the limbo list of the epoch. *)
Lemma delay_dec_ok tid sk m r p e es k : rt_at tid sk m r -> p <> NULL ->
  r_limbo r !! e = Some es -> r_epoch r = Z.of_nat e -> Some e <> sk -> mroom (S k) m ->
  tot (so.so_lockfree_delay_dec tid (r_so r) p) m (fun _ m' => exists w ws,
    let r' := set_limbo (set_pool r ws) (<[e := (w, p) :: es]> (r_limbo r)) in
    rt_at tid sk m' r' /\ mroom k m' /\ rest_kept r m m' /\ own_frame tid r m m' r').
Proof.
  intros Hr Hp He Hep Hsk Hk. unfold so.so_lockfree_delay_dec. rewrite (proj2 (Z.eqb_neq p 0) Hp).
  apply tot_bind. eapply tot_mono; [by apply new_wrapper_ok|].
  intros w m1 (ws & H1 & Hw & Hwn & Hwo & Hws & Hk1 & Hm1 & Hst). cbv beta.
  pose proof (ra_index _ _ _ _ H1) as Hi. pose proof (ra_threads _ _ _ _ H1) as Ht.
  pose proof (ra_epoch _ _ _ _ H1) as Hle. pose proof (ra_array _ _ _ _ H1) as Ha. simpl in *.
  destruct (ra_limbo _ _ _ _ H1 e es He Hsk) as (h & Hh & Hes). simpl in Hh. rewrite <- Hep in Hh.
  destruct (owned_ne _ _ _ _ H1) as (N1 & N2 & N3 & N4). simpl in N1, N2, N3.
  assert (Hwo' : forall b, b ∈ owned tid (set_pool r ws) -> b <> w) by (intros b Hb ->; done).
  assert (W1 : tls tid <> w) by (apply Hwo'; left). assert (W2 : r_so r <> w) by (apply Hwo'; right; left).
  assert (W3 : r_threads r <> w) by (apply Hwo'; right; right; left).
  pose proof (ra_range _ _ _ _ Hr) as Hra. pose proof (ra_epoch3 _ _ _ _ Hr) as He3.
  unfold sizeof_wrapper_t in Hw. pose proof (rt_at_push tid sk m1 (set_pool r ws) e es h w p H1 Hw Hwn He Hep Hsk Hh Hes) as HR'.
  unfold thr, sizeof_so_thread in *. simpl in *.
  apply tot_bind. eapply tot_store; [minb|]. apply tot_bind. eapply tot_load; [mget|].
  apply tot_bind. eapply tot_load; [mget|]. apply tot_bind. eapply tot_load; [mget|].
  apply tot_bind. eapply tot_load; [mget|]. apply tot_bind. eapply tot_store; [minb|].
  apply tot_bind. eapply tot_load; [mget|]. eapply tot_store.
  { rewrite !inb_upd. eapply is_struct_inb; [exact Ha|]. simpl. lia. }
  exists w, ws. split_and!; [exact HR'|by repeat apply mroom_upd| |].
  - split.
    + rewrite !lookup_upd_ne by (simpl; congruence). apply Hm1; congruence.
    + intros off Hoff. rewrite get_upd_ne by (intros [=]; lia). rewrite !get_upd_ne by loc_ne.
      apply get_lookup_eq, Hm1; congruence.
  - assert (Hsub : forall b, b ∈ owned tid (set_pool r ws) -> b ∈ owned tid r).
    { intros b Hb. rewrite <- (set_pool_id r). by eapply owned_pool_mono. }
    split_and!.
    + intros b Hb [o Ho]. assert (b <> w) by (intros ->; destruct Hwo; congruence).
      assert (b <> r_threads r) by (intros ->; apply Hb; right; right; left).
      rewrite !lookup_upd_ne by done. apply Hm1; [|done]. intros ->. apply Hb. left.
    + intros b Hb. unfold owned in Hb. simpl in Hb. rewrite (concat_insert _ _ _ _ He) in Hb. simpl in Hb.
      destruct (decide (b = w)) as [->|Hbw]; [done|]. left. apply Hsub. unfold owned. simpl.
      rewrite !elem_of_cons in Hb |- *.
      destruct Hb as [?|[?|[?|[?|?]%elem_of_cons]]];
        [by left|by right; left|by right; right; left|done|by right; right; right].
    + assert (Hin : forall b, b = w \/ b ∈ owned tid (set_pool r ws) ->
        b ∈ owned tid (set_limbo (set_pool r ws) (<[e := (w, p) :: es]> (r_limbo r)))).
      { intros b Hb. unfold owned in *. simpl in *. rewrite (concat_insert _ _ _ _ He). simpl.
        rewrite !elem_of_cons, elem_of_app in Hb. rewrite !elem_of_cons, elem_of_app. tauto. }
      intros b [Hb|Hb]; [|right; apply Hin; destruct (Hst b Hb); auto].
      destruct (decide (b = w)) as [->|Hbw]; [right; auto|]. left.
      assert (b <> tls tid). { intros ->. destruct (ra_tls _ _ _ _ Hr) as (_ & o & Ho & _). congruence. }
      assert (b <> r_threads r). { intros ->. destruct (ra_array _ _ _ _ Hr) as (_ & o & Ho & _). congruence. }
      rewrite !lookup_upd_ne by done. by rewrite Hm1.
Qed.
End operations.
