(* ===== verification/SoClean.v ===== *)
(** * The cleaning of a limbo list

    [clean_list] performs the pending decrements of a limbo list: on the memory
    it does what [cleaned] does on the counts. *)
From S2P Require Export SoReclaim.

(** The heap and the runtime are apart. *)
Definition apart (tid : Z) (r : rt) (H : heap) : Prop := forall p, is_Some (H !! p) -> p ∉ owned tid r.

(** What stays of the runtime's state while list [j] is cleaned in epoch [e]. *)
Definition same_rt (j e : nat) (r r' : rt) : Prop :=
  r_so r' = r_so r /\ r_threads r' = r_threads r /\ r_n r' = r_n r /\ r_index r' = r_index r /\
  r_epoch r' = r_epoch r /\
  forall i, i <> e -> r_limbo r' !! i = if decide (i = j) then (fun _ => []) <$> r_limbo r !! i else r_limbo r !! i.

(** The loop of [clean_list]: [rest] are the entries still to process. *)
Record clean_inv (tid : Z) (j e : nat) (r : rt) (others roots : list Z)
    (m : mem) (r1 : rt) (H : heap) (ls rest : list (Z * Z)) (cur : Z) : Prop := {
  ci_rt : rt_at tid (Some j) m r1;
  ci_same : same_rt j e r r1;
  ci_ls : r_limbo r1 !! e = Some ls;
  ci_heap : heap_at m H;
  ci_apart : apart tid r1 H;
  ci_rest : wlist m cur rest;
  ci_nodup : NoDup (rest.*1);
  ci_out : forall w, w ∈ rest.*1 -> (w ∉ owned tid r1) /\ H !! w = None;
  ci_counted : counted H (rest.*2 ++ ls.*2 ++ others) roots;
  ci_unfrozen : unfrozen H
}.

(** What one iteration may do to the memory; [X] are the wrapper and the object
    it processes. *)
Definition step_frame (tid : Z) (r : rt) (X : list Z) (m m' : mem) (r' : rt) : Prop :=
  (forall b, b ∉ owned tid r -> b ∉ X -> live m b -> m' !! b = m !! b) /\
  (forall b, b ∈ owned tid r' -> b ∈ owned tid r \/ b ∈ X \/ m !! b = None) /\
  (forall b, gone tid r m b -> gone tid r' m' b).

(** What the loop may have done so far.  The objects that left the heap are freed;
    their blocks may be wrappers now. *)
Record clean_frame (tid : Z) (r : rt) (H : heap) (m m' : mem) (r' : rt) (rest : list Z) (H' : heap) : Prop := {
  cf_kept : forall b, b ∉ owned tid r -> H !! b = None -> live m b -> m' !! b = m !! b;
  cf_own : forall b, b ∈ owned tid r' \/ b ∈ rest -> b ∈ owned tid r \/ m !! b = None \/ is_Some (H !! b);
  cf_heap : forall b, is_Some (H' !! b) -> is_Some (H !! b);
  cf_freed : forall b, is_Some (H !! b) -> H' !! b = None -> gone tid r' m' b;
  cf_gone : forall b, gone tid r m b -> gone tid r' m' b \/ b ∈ rest
}.

Section cleaning.
Context `{HM : Malloc, HR : !MallocRoom}.
Implicit Types (m : mem) (r : rt) (H : heap).

Lemma dec_rc_ok m H p c (Q : Z -> mem -> Prop) : heap_at m H -> H !! p = Some c -> p <> NULL -> crc c <> 0 ->
  Q (crc c) (upd m (p, SO_RC) (crc c - 1)) -> tot (so.so_lockfree_dec_rc p) m Q.
Proof.
  intros Hh Hp Hp0 Hc HQ. destruct (Hh p c Hp) as (H1 & H2 & H3 & H4). unfold so.so_lockfree_dec_rc.
  rewrite (proj2 (Z.eqb_neq p 0) Hp0). apply tot_bind. eapply tot_load; [exact H2|].
  rewrite (proj2 (Z.eqb_neq (crc c) 0) Hc). simpl. apply tot_bind, tot_ret. eapply tot_rmw; [exact H2|].
  rewrite u32_small by lia. exact HQ.
Qed.

Lemma heap_at_dec m H p c : heap_at m H -> H !! p = Some c -> 0 < crc c ->
  heap_at (upd m (p, SO_RC) (crc c - 1)) (<[p := Cell (crc c - 1) (cfld c)]> H).
Proof.
  intros Hh Hp Hc q d Hq. destruct (Hh p c Hp) as (P1 & P2 & P3 & P4). rewrite is_struct_upd.
  apply lookup_insert_Some in Hq as [[<- <-]|[Hne Hq]]; simpl.
  - split; [done|]. split; [mget|]. split; [mget|lia].
  - destruct (Hh q d Hq) as (Q1 & Q2 & Q3 & Q4). by rewrite !get_upd_ne by loc_ne.
Qed.

Lemma same_rt_trans j e r r1 r2 : same_rt j e r r1 -> j <> e ->
  (r_so r2 = r_so r1 /\ r_threads r2 = r_threads r1 /\ r_n r2 = r_n r1 /\ r_index r2 = r_index r1 /\
   r_epoch r2 = r_epoch r1 /\ forall i, i <> e -> r_limbo r2 !! i = r_limbo r1 !! i) -> same_rt j e r r2.
Proof.
  intros (A1 & A2 & A3 & A4 & A5 & A6) Hje (B1 & B2 & B3 & B4 & B5 & B6).
  unfold same_rt. split_and!; try congruence. intros i Hi. rewrite B6 by done. auto.
Qed.

Lemma rest_same j e r r1 r2 m m' : same_rt j e r r1 -> same_rt j e r r2 -> rest_kept r2 m m' -> rest_kept r1 m m'.
Proof.
  intros (A1 & A2 & _ & A4 & _) (B1 & B2 & _ & B4 & _) [T1 T2]. unfold rest_kept.
  rewrite A1, A2, A4. rewrite B1 in T1. rewrite B2, B4 in T2. auto.
Qed.

(** An object that is not the runtime's and stays alive is not touched. *)
Lemma own_frame_apart tid r m m' r' H : own_frame tid r m m' r' -> apart tid r H -> heap_at m H ->
  heap_at m' H /\ apart tid r' H.
Proof.
  intros (F1 & F2 & _) Ha Hh. split.
  - eapply heap_at_lookup; [exact Hh|]. intros p Hp. apply F1; [by apply Ha|].
    destruct Hp as [c Hp]. eapply is_struct_live. by apply (Hh p c).
  - intros p Hp Hin. destruct (F2 p Hin) as [E|E]; [by apply (Ha p)|].
    destruct Hp as [c Hp]. destruct (Hh p c Hp) as (Hs & _). apply is_struct_live in Hs as [o Ho]. congruence.
Qed.

Lemma own_frame_wlist tid r m m' r' h es : own_frame tid r m m' r' -> wlist m h es ->
  (forall w, w ∈ es.*1 -> w ∉ owned tid r) -> wlist m' h es /\ forall w, w ∈ es.*1 -> w ∉ owned tid r'.
Proof.
  intros (F1 & F2 & _) Hw Hn. split.
  - eapply wlist_lookup; [|exact Hw]. intros b Hb. apply F1; [by apply Hn|].
    eapply is_struct_live. by eapply wlist_live.
  - intros w Hb Hin. destruct (F2 w Hin) as [E|E]; [by apply (Hn w)|].
    eapply wlist_live in Hb; [|exact Hw]. apply is_struct_live in Hb as [o Ho]. congruence.
Qed.

(** The delayed decrement of a link that may be null. *)
Lemma delay_link_ok tid j e m r1 f ls k : rt_at tid (Some j) m r1 -> j <> e ->
  r_limbo r1 !! e = Some ls -> r_epoch r1 = Z.of_nat e -> mroom (S k) m ->
  tot (so.so_lockfree_delay_dec tid (r_so r1) f) m (fun _ m' => exists r2 ls2,
    rt_at tid (Some j) m' r2 /\ (forall r, same_rt j e r r1 -> same_rt j e r r2) /\ r_limbo r2 !! e = Some ls2 /\
    ls2.*2 = (if f =? NULL then ls.*2 else f :: ls.*2) /\ mroom k m' /\ rest_kept r1 m m' /\
    own_frame tid r1 m m' r2).
Proof.
  intros Hr Hje Hls He Hk. destruct (Z.eqb_spec f 0) as [->|Hf].
  - unfold so.so_lockfree_delay_dec. simpl. apply tot_ret. exists r1, ls. split_and!; auto using rest_refl.
    + eapply mroom_mono; [exact Hk|lia].
    + split; auto.
  - eapply tot_mono; [apply (delay_dec_ok tid (Some j) m r1 f e ls k); auto; congruence|].
    intros [] m' (w & ws & H1 & H2 & H3 & H4). eexists _, _. split; [exact H1|]. split_and!; auto.
    + intros r Hs. eapply same_rt_trans; [exact Hs|done|]. simpl. split_and!; auto.
      intros i Hi. by rewrite list_lookup_insert_ne.
    + simpl. apply list_lookup_insert_eq. by eapply lookup_lt_Some.
    + done.
Qed.

(** The last reference: the object's own link is passed on, the object freed. *)
Lemma last_ref_ok tid j e r others roots m r1 H ls pre p f rest cur k :
  clean_inv tid j e r others roots m r1 H ls ((pre, p) :: rest) cur -> j <> e -> r_epoch r1 = Z.of_nat e ->
  H !! p = Some (Cell 1 f) -> mroom (S k) m ->
  tot (f <- load (pre, W_P) ;;
       c <- load (f, SO_FIELD) ;;
       so.so_lockfree_delay_dec tid (r_so r1) c ;;
       p <- load (pre, W_P) ;;
       free p) (upd m (p, SO_RC) 0) (fun _ m' => exists r2 ls2,
    rt_at tid (Some j) m' r2 /\ same_rt j e r r2 /\ r_limbo r2 !! e = Some ls2 /\
    ls2.*2 = (if f =? NULL then ls.*2 else f :: ls.*2) /\ heap_at m' (delete p H) /\
    apart tid r2 (delete p H) /\ wlist m' pre ((pre, p) :: rest) /\
    (forall w, w ∈ pre :: rest.*1 -> w ∉ owned tid r2) /\ mroom k m' /\ rest_kept r1 m m' /\
    step_frame tid r1 [p] m m' r2 /\ m' !! p = None).
Proof.
  intros Hi Hje He Hp Hk. destruct Hi. assert (Hp0 : p <> NULL) by (intros ->; by rewrite (ct_null _ _ _ ci_counted0) in Hp).
  pose proof (heap_at_dec m H p _ ci_heap0 Hp ltac:(simpl; lia)) as Hh0. simpl in Hh0.
  assert (Hpn : p ∉ owned tid r1) by (apply ci_apart0; eauto).
  assert (Hlk : forall b, b <> p -> upd m (p, 16) 0 !! b = m !! b) by (intros; by apply lookup_upd_ne).
  assert (Hrest : forall w, w ∈ ((pre, p) :: rest).*1 -> w <> p) by (intros w Hw ->; destruct (ci_out0 p Hw); congruence).
  assert (Hr0 : rt_at tid (Some j) (upd m (p, 16) 0) r1).
  { eapply rt_at_lookup; [exact ci_rt0|]. intros b Hb. apply Hlk. congruence. }
  assert (Ha0 : apart tid r1 (<[p := Cell 0 f]> H)).
  { intros q Hq. destruct (decide (q = p)) as [->|Hne]; [done|]. rewrite lookup_insert_ne in Hq by done. auto. }
  assert (Hw0 : wlist (upd m (p, 16) 0) cur ((pre, p) :: rest)).
  { eapply wlist_lookup; [|exact ci_rest0]. intros b Hb. apply Hlk. auto. }
  assert (Hwp : get (upd m (p, 16) 0) (pre, 0) = Some p) by apply Hw0.
  assert (Hf : get (upd m (p, 16) 0) (p, 32) = Some f).
  { apply (Hh0 p (Cell 0 f)). apply lookup_insert_eq. }
  apply tot_bind. eapply tot_load; [exact Hwp|]. apply tot_bind. eapply tot_load; [exact Hf|].
  apply tot_bind. eapply tot_mono; [apply (delay_link_ok tid j e _ r1 f ls k); auto; by apply mroom_upd|].
  intros [] m1 (r2 & ls2 & R1 & R2 & R3 & R4 & R5 & R6 & R7).
  destruct (own_frame_apart _ _ _ _ _ _ R7 Ha0 Hh0) as [Hh1 Ha1].
  destruct (own_frame_wlist _ _ _ _ _ _ _ R7 Hw0) as [Hw1 Hwn1]; [by intros w Hw; apply ci_out0|].
  pose proof Hw1 as (Hcur & _ & Hwp1 & _). rewrite Hcur in Hw1.
  apply tot_bind. eapply tot_load; [exact Hwp1|].
  destruct (Hh1 p (Cell 0 f)) as (Hs1 & _); [apply lookup_insert_eq|].
  apply tot_free; [done|mlive|]. exists r2, ls2.
  assert (Hpn2 : p ∉ owned tid r2) by (apply Ha1; rewrite lookup_insert_eq; eauto).
  assert (Hd : forall b, b <> p -> delete p m1 !! b = m1 !! b) by (intros; by apply lookup_delete_ne).
  split_and!; auto.
  - eapply rt_at_lookup; [exact R1|]. intros b Hb. apply Hd. congruence.
  - intros q c Hq. apply lookup_delete_Some in Hq as [Hne Hq].
    destruct (Hh1 q c) as (Q1 & Q2 & Q3 & Q4); [by rewrite lookup_insert_ne|].
    split; [apply (is_struct_lookup m1); [by apply Hd|done]|]. by rewrite !get_delete_ne.
  - intros q [c Hq]. apply lookup_delete_Some in Hq as [Hne Hq]. apply Ha1. rewrite lookup_insert_ne by done. eauto.
  - eapply wlist_lookup; [|exact Hw1]. intros b Hb. apply Hd. auto.
  - by apply mroom_delete.
  - eapply rest_trans; [apply rest_lookup|eapply rest_trans; [exact R6|apply rest_lookup]].
    + apply Hlk. intros E. apply Hpn. rewrite <- E. right; left.
    + apply Hlk. intros E. apply Hpn. rewrite <- E. right; right; left.
    + apply Hd. intros E. apply Hpn. rewrite <- E. right; left.
    + apply Hd. intros E. apply Hpn. rewrite <- E. right; right; left.
  - destruct R7 as (F1 & F2 & F3). split_and!.
    + intros b Hb Hbp Hl. assert (b <> p) by (intros ->; apply Hbp; left).
      rewrite Hd, F1, Hlk; auto. by apply live_upd.
    + intros b Hb. destruct (F2 b Hb) as [E|E]; [by left|]. right; right.
      apply eq_None_not_Some. intros Hl. apply eq_None_not_Some in E. apply E. by apply live_upd.
    + intros b Hb. destruct (decide (b = p)) as [->|Hne]; [left; apply lookup_delete_eq|].
      destruct (F3 b) as [E|E]; [|left; by rewrite Hd|by right].
      destruct Hb as [E|E]; [left; by rewrite Hlk|by right].
  - apply lookup_delete_eq.
Qed.

(** What remains of an iteration after the decrement: the wrapper is returned. *)
Lemma return_wrapper_ok tid j e r others roots m r2 H2 ls2 pre p n rest k :
  rt_at tid (Some j) m r2 -> same_rt j e r r2 -> r_limbo r2 !! e = Some ls2 -> heap_at m H2 -> apart tid r2 H2 ->
  wlist m pre ((pre, p) :: rest) -> get m (pre, W_NEXT) = Some n -> NoDup (pre :: rest.*1) ->
  (forall w, w ∈ pre :: rest.*1 -> (w ∉ owned tid r2) /\ H2 !! w = None) ->
  counted H2 (rest.*2 ++ ls2.*2 ++ others) roots -> unfrozen H2 -> j <> e -> mroom k m ->
  tot (so.free_wrapper tid pre) m (fun _ m' => exists r3,
    clean_inv tid j e r others roots m' r3 H2 ls2 rest n /\ mroom k m' /\ rest_kept r2 m m' /\
    step_frame tid r2 [pre] m m' r3 /\ pre ∈ owned tid r3).
Proof.
  intros R1 R2 R3 Hh Ha Hw Hn Hnd Hout Hc Hu Hje Hk. pose proof Hw as (_ & Hps & _ & n' & Hn' & Hwr).
  assert (n' = n) as -> by congruence. destruct (Hout pre ltac:(left)) as [Hpn Hph].
  apply NoDup_cons in Hnd as [Hpr Hnd].
  eapply tot_mono; [apply (tot_keeps (mroom k)); [|done|by apply (free_wrapper_ok tid (Some j) m r2)]|].
  { unfold so.free_wrapper, POOL_FREE. keep. }
  intros [] m' ((ws & W1 & W2 & W3 & W4 & W5) & Hk').
  assert (Hkeep : forall b, b ∉ owned tid r2 -> m' !! b = m !! b).
  { intros b Hb. apply W3; [intros ->; apply Hb; left|]. intros E. apply Hb. unfold owned.
    rewrite !elem_of_app. auto. }
  assert (Hown : forall b, b ∈ owned tid (set_pool r2 ws) -> b = pre \/ b ∈ owned tid r2).
  { intros b Hb. unfold owned in *. rewrite !elem_of_app in Hb |- *. simpl in Hb.
    destruct Hb as [?|[?|Hb]]; auto. destruct (W2 b Hb); auto. }
  exists (set_pool r2 ws). split; [|split; [done|split; [|split]]].
  - split; auto.
    + eapply heap_at_lookup; [exact Hh|]. auto.
    + intros q Hq Hin. destruct (Hown q Hin) as [->|E]; [by destruct Hq; congruence|by apply (Ha q)].
    + eapply wlist_lookup; [|exact Hwr]. intros b Hb. apply Hkeep. apply Hout. by right.
    + intros w Hw'. destruct (Hout w ltac:(by right)) as [Hwn Hwh]. split; [|done].
      intros Hin. destruct (Hown w Hin) as [->|E]; done.
  - destruct (pool_apart _ _ _ (set_pool r2 ws) (r_so r2) W1 ltac:(left)) as [? _].
    destruct (pool_apart _ _ _ r2 (r_so r2) R1 ltac:(left)) as [? ?].
    destruct (pool_apart _ _ _ r2 (r_threads r2) R1 ltac:(right; left)) as [? ?].
    apply rest_lookup; auto.
  - split_and!; [auto| |].
    + intros b Hb. destruct (Hown b Hb) as [->|E]; [right; left; left|by left].
    + intros b [Hb|Hb].
      * left. rewrite Hkeep; [done|]. intros E. eapply owned_live in E as [o Ho]; [|exact R1]. congruence.
      * unfold owned in Hb. rewrite !elem_of_app in Hb. destruct Hb as [Hb|[Hb|Hb]].
        -- right. unfold owned. rewrite !elem_of_app. by left.
        -- right. unfold owned. rewrite !elem_of_app. right; by left.
        -- destruct (W4 b Hb) as [E|E]; [by left|]. right. unfold owned. rewrite !elem_of_app. right; by right.
  - unfold owned. simpl. rewrite !elem_of_cons, elem_of_app. auto.
Qed.

Lemma clean_frame_step tid r H0 m0 m r1 R R' H m' r2 H' X :
  clean_frame tid r H0 m0 m r1 R H -> step_frame tid r1 X m m' r2 ->
  (forall b, b ∈ X -> b ∈ R \/ is_Some (H !! b)) -> (forall b, is_Some (H' !! b) -> is_Some (H !! b)) ->
  (forall b, b ∈ R' -> b ∈ R) -> (forall b, is_Some (H !! b) -> H' !! b = None -> gone tid r2 m' b) ->
  (forall b, b ∈ R -> b ∈ R' \/ gone tid r2 m' b) -> clean_frame tid r H0 m0 m' r2 R' H'.
Proof.
  intros [F1 F2 F3 F4 F5] (S1 & S2 & S3) HX HH HR' HN HR2. split.
  - intros b Hb Hh Hl. rewrite <- (F1 b Hb Hh Hl). destruct Hl as [o Ho]. apply S1.
    + intros E. destruct (F2 b (or_introl E)) as [?|[?|[c ?]]]; congruence.
    + intros E. destruct (HX b E) as [E2|E2].
      * destruct (F2 b (or_intror E2)) as [?|[?|[c ?]]]; congruence.
      * apply F3 in E2 as [c E2]. congruence.
    + unfold live. rewrite F1; eauto. by exists o.
  - intros b [E|E]; [|apply F2; right; auto].
    destruct (S2 b E) as [E2|[E2|E2]]; [by apply F2; left| |].
    + destruct (HX b E2) as [E3|E3]; [apply F2; by right|]. right; right. auto.
    + destruct (decide (b ∈ owned tid r)) as [|Hn]; [by left|]. right.
      destruct (H0 !! b) as [c|] eqn:Eh; [by right; eauto|]. left.
      apply eq_None_not_Some. intros Hl. pose proof (F1 b Hn Eh Hl) as Hk. rewrite E2 in Hk.
      destruct Hl as [o Ho]. congruence.
  - auto.
  - intros b Hb Hb'. destruct (H !! b) as [c|] eqn:E; [apply HN; eauto|]. apply S3. auto.
  - intros b Hb. destruct (F5 b Hb) as [E|E]; [left; auto|]. destruct (HR2 b E); auto.
Qed.

(** One iteration. *)
Lemma clean_step_ok tid j e r H0 m0 others roots m r1 H ls pre p rest cur k :
  clean_inv tid j e r others roots m r1 H ls ((pre, p) :: rest) cur -> j <> e -> r_epoch r1 = Z.of_nat e ->
  clean_frame tid r H0 m0 m r1 (pre :: rest.*1) H -> mroom (S k) m ->
  tot (cur' <- load (cur, W_NEXT) ;;
       p <- load (cur, W_P) ;;
       rc <- so.so_lockfree_dec_rc p ;;
       (if rc =? 1 then
          f <- load (cur, W_P) ;;
          c <- load (f, SO_FIELD) ;;
          so.so_lockfree_delay_dec tid (r_so r1) c ;;
          p <- load (cur, W_P) ;;
          free p
        else Ret tt) ;;
       so.free_wrapper tid cur ;;
       (continue cur' : prog mem (Z + unit))) m (fun res m' => exists cur' r2 ls2, res = inl cur' /\
    clean_inv tid j e r others roots m' r2 (dec1 (H, ls.*2) p).1 ls2 rest cur' /\
    ls2.*2 = (dec1 (H, ls.*2) p).2 /\ mroom k m' /\ rest_kept r1 m m' /\
    clean_frame tid r H0 m0 m' r2 rest.*1 (dec1 (H, ls.*2) p).1).
Proof.
  intros Hi Hje He HF Hk. pose proof Hi as Hi0. destruct Hi. pose proof ci_rest0 as (-> & Hps & Hpp & n & Hn & Hwr).
  assert (Hp0 : p <> NULL) by (intros ->; apply (ct_pend _ _ _ ci_counted0); left).
  destruct (ct_heap _ _ _ ci_counted0 p ltac:(left) Hp0) as [[rc f] Hp].
  pose proof (ct_rc _ _ _ ci_counted0 p _ Hp) as Hrc. simpl in Hrc. rewrite occ_cons, Z.eqb_refl in Hrc. simpl in Hrc.
  assert (Hge : 1 <= rc).
  { rewrite Hrc. match goal with |- context [occ ?l ?q] => pose proof (occ_nonneg l q) end. lia. }
  pose proof (dec1_counted H p rest.*2 (ls.*2 ++ others) roots ci_unfrozen0 ci_counted0) as Hc'.
  pose proof (dec1_unfrozen (H, ls.*2) p ci_unfrozen0) as Hu'. rewrite dec1_app in Hc'. simpl in Hc'.
  assert (Hsub : forall b, is_Some ((dec1 (H, ls.*2) p).1 !! b) -> is_Some (H !! b)).
  { intros b [c Hb]. apply dec1_sub in Hb as [n' Hb]. simpl in Hb. eauto. }
  assert (Hpn : p ∉ owned tid r1) by (apply ci_apart0; eauto).
  assert (Hnep : forall w, w ∈ pre :: rest.*1 -> w <> p) by (intros w Hw ->; destruct (ci_out0 p Hw); congruence).
  assert (Hnone : forall w, w ∈ pre :: rest.*1 -> (dec1 (H, ls.*2) p).1 !! w = None).
  { intros w Hw. apply eq_None_not_Some. intros Hs. apply Hsub in Hs as [c Hs]. destruct (ci_out0 w Hw). congruence. }
  apply tot_bind. eapply tot_load; [exact Hn|]. apply tot_bind. eapply tot_load; [exact Hpp|].
  apply tot_bind. eapply dec_rc_ok; [exact ci_heap0|exact Hp|done|simpl; lia|]. simpl.
  apply tot_bind. unfold dec1 in *. simpl in *. rewrite Hp in *.
  destruct (Z.eqb_spec rc 1) as [->|Hrc1]; simpl in *.
  - eapply tot_mono; [apply (last_ref_ok tid j e r others roots m r1 H ls pre p f rest pre k Hi0 Hje He Hp Hk)|].
    intros [] m1 (r2 & ls2 & R1 & R2 & R3 & R4 & R5 & R6 & R7 & R8 & R9 & R10 & R11 & R12).
    rewrite <- R4, app_assoc in Hc'. rewrite <- app_assoc in Hc'.
    assert (Hn1 : get m1 (pre, 8) = Some n).
    { rewrite <- Hn. apply get_lookup_eq, R11; [by apply ci_out0; left| |by eapply is_struct_live].
      intros ->%list_elem_of_singleton. by apply (Hnep p); [left|]. }
    apply tot_bind. eapply tot_mono; [apply (return_wrapper_ok tid j e r others roots m1 r2 (delete p H) ls2 pre p n rest k); eauto|].
    intros [] m2 (r3 & T1 & T2 & T3 & T4 & T5). apply tot_ret. exists n, r3, ls2. split_and!; auto.
    + eapply rest_trans; [exact R10|]. by eapply rest_same; [exact ci_same0|exact R2|].
    + assert (HA : clean_frame tid r H0 m0 m1 r2 (pre :: rest.*1) (delete p H)).
      { eapply clean_frame_step; [exact HF|exact R11|..]; auto.
        - intros b ->%list_elem_of_singleton. right. eauto.
        - intros b Hb Hb'. destruct (decide (b = p)) as [->|Hne]; [by left|].
          rewrite lookup_delete_ne in Hb' by done. destruct Hb. congruence. }
      eapply clean_frame_step; [exact HA|exact T4|..]; auto.
      * intros b ->%list_elem_of_singleton. left. left.
      * intros b Hb. by right.
      * intros b [c Hb] Hb'. congruence.
      * intros b [->|Hb]%elem_of_cons; [right; by right|by left].
  - apply tot_ret.
    assert (Hlk : forall b, b <> p -> upd m (p, 16) (rc - 1) !! b = m !! b) by (intros; by apply lookup_upd_ne).
    assert (Ho : forall b, b ∈ owned tid r1 -> b <> p) by congruence.
    assert (HR1 : rt_at tid (Some j) (upd m (p, 16) (rc - 1)) r1) by (eapply rt_at_lookup; [exact ci_rt0|]; auto).
    assert (Hrk : rest_kept r1 m (upd m (p, 16) (rc - 1))).
    { apply rest_lookup; apply Hlk, Ho; [right; left|right; right; left]. }
    apply tot_bind.
    eapply tot_mono; [apply (return_wrapper_ok tid j e r others roots _ r1 (<[p := Cell (rc - 1) f]> H) ls pre p n rest k HR1 ci_same0 ci_ls0
      (heap_at_dec m H p _ ci_heap0 Hp ltac:(simpl; lia)))|]; simpl; auto.
    + intros q Hq. apply ci_apart0. auto.
    + apply (wlist_lookup m _ pre ((pre, p) :: rest)); [|exact ci_rest0]. intros b Hb. apply Hlk. by apply Hnep.
    + by rewrite get_upd_ne by (by intros [=]).
    + intros w Hw. split; [by apply ci_out0|by apply Hnone].
    + apply mroom_upd. eapply mroom_mono; [exact Hk|lia].
    + intros [] m2 (r3 & T1 & T2 & T3 & T4 & T5). apply tot_ret. exists n, r3, ls. split_and!; auto.
      * eapply rest_trans; [exact Hrk|exact T3].
      * assert (HA : clean_frame tid r H0 m0 (upd m (p, 16) (rc - 1)) r1 (pre :: rest.*1) (<[p := Cell (rc - 1) f]> H)).
        { eapply (clean_frame_step _ _ _ _ m r1 _ _ H _ r1 _ [p]); [exact HF|split_and!|..]; auto.
          - intros b _ Hb _. apply Hlk. intros ->. apply Hb. left.
          - intros b [Hb|Hb]; [|by right]. left. rewrite Hlk; [done|]. intros ->.
            destruct (ci_heap0 p _ Hp) as ((_ & o & Ho' & _) & _). congruence.
          - intros b ->%list_elem_of_singleton. right. eauto.
          - intros b [c Hb] Hb'. apply lookup_insert_None in Hb' as [? _]. congruence. }
        eapply clean_frame_step; [exact HA|exact T4|..]; auto.
        -- intros b ->%list_elem_of_singleton. left. left.
        -- intros b Hb. by right.
        -- intros b [c Hb] Hb'. congruence.
        -- intros b [->|Hb]%elem_of_cons; [right; by right|by left].
Qed.

(** Before the first iteration: the wrappers of list [j] leave the runtime. *)
Lemma rt_at_open tid m r j es : rt_at tid None m r -> r_limbo r !! j = Some es ->
  let r1 := set_limbo r (<[j := []]> (r_limbo r)) in
  rt_at tid (Some j) m r1 /\ owned tid r ≡ₚ es.*1 ++ owned tid r1.
Proof.
  intros Hr Hj. pose proof (lookup_lt_Some _ _ _ Hj) as Hlt.
  assert (HP : owned tid r ≡ₚ es.*1 ++ owned tid (set_limbo r (<[j := []]> (r_limbo r)))).
  { unfold owned. simpl. rewrite (concat_empty _ _ _ Hj), fmap_app. solve_Permutation. }
  split; [|exact HP]. pose proof (ra_nodup _ _ _ _ Hr) as Hnd. pose proof (ra_limbo _ _ _ _ Hr) as HL. destruct Hr. split; simpl; auto.
  - by rewrite length_insert.
  - intros i [= <-]. by apply list_lookup_insert_eq.
  - intros i es' Hi Hne. rewrite list_lookup_insert_ne in Hi by congruence. apply HL; [done|]. done.
  - rewrite HP in Hnd. by apply NoDup_app in Hnd as (_ & _ & ?).
Qed.

(** After the last one: the list is empty. *)
Lemma rt_at_close tid m r j : rt_at tid (Some j) m r ->
  rt_at tid None (upd m (thr (r_threads r) (r_index r) (PT_LIMBO + 8 * Z.of_nat j)) NULL) r.
Proof.
  intros Hr. destruct (owned_ne _ _ _ _ Hr) as (N1 & N2 & N3 & N4). pose proof (ra_limbo _ _ _ _ Hr) as HL. pose proof (ra_epoch3 _ _ _ _ Hr) as He3.
  pose proof (ra_pool _ _ _ _ Hr) as HPl. pose proof (ra_skip _ _ _ _ Hr j eq_refl) as Hj. destruct Hr. pose proof (lookup_lt_Some _ _ _ Hj) as Hlt.
  unfold thr, sizeof_so_thread in *. split; simpl; unfold thr, sizeof_so_thread; auto;
    try (by rewrite is_struct_upd); try (by rewrite get_upd_ne by loc_ne).
  - intros i w Hi. rewrite is_struct_upd, get_upd_ne by loc_ne. auto.
  - done.
  - intros i es Hi _. destruct (decide (i = j)) as [->|Hne].
    + rewrite Hj in Hi. injection Hi as <-. exists NULL. split; [mget|done].
    + destruct (HL i es Hi ltac:(congruence)) as (h & G1 & G2). exists h. split.
      * rewrite get_upd_ne; [done|]. intros [=]. lia.
      * eapply wlist_lookup; [|exact G2]. intros b Hb. apply lookup_upd_ne. simpl.
        apply N4. by eapply limbo_wrapper.
Qed.

(** [clean_list] performs the pending decrements of a limbo list other than the
    thread's own, each once: it frees the objects whose count they exhaust,
    queues the links of those objects on the list of the thread's epoch, returns
    the wrappers, and changes nothing else. *)
Lemma clean_list_ok fuel tid m r H j e es ls others roots k :
  rt_at tid None m r -> heap_at m H -> apart tid r H -> r_limbo r !! j = Some es -> r_limbo r !! e = Some ls ->
  r_epoch r = Z.of_nat e -> j <> e -> unfrozen H -> counted H (es.*2 ++ ls.*2 ++ others) roots ->
  mroom (length es + k) m -> (length es < fuel)%nat ->
  tot (so.clean_list fuel tid (r_so r) (thr (r_threads r) (r_index r) (PT_LIMBO + 8 * Z.of_nat j))) m (fun _ m' =>
    exists r' ls', rt_at tid None m' r' /\ same_rt j e r r' /\ r_limbo r' !! e = Some ls' /\
    ls'.*2 = (cleaned es.*2 (H, ls.*2)).2 /\ heap_at m' (cleaned es.*2 (H, ls.*2)).1 /\
    apart tid r' (cleaned es.*2 (H, ls.*2)).1 /\ mroom k m' /\ rest_kept r m m' /\
    clean_frame tid r H m m' r' [] (cleaned es.*2 (H, ls.*2)).1).
Proof.
  intros Hr Hh Ha Hj Hls He Hje Hu Hc Hk Hf. destruct (rt_at_open _ _ _ _ _ Hr Hj) as [Hr1 HP].
  pose proof (lookup_lt_Some _ _ _ Hj) as Hlt. pose proof (ra_three _ _ _ _ Hr) as H3.
  destruct (ra_limbo _ _ _ _ Hr j es Hj ltac:(done)) as (h & Hh1 & Hw). unfold so.clean_list.
  apply tot_bind. eapply tot_load; [exact Hh1|]. apply tot_bind.
  set (r0 := set_limbo r (<[j := []]> (r_limbo r))) in *.
  eapply (tot_loop (fun n cur m' => exists r1 H1 ls1 rest, n = length rest /\
    clean_inv tid j e r others roots m' r1 H1 ls1 rest cur /\
    cleaned rest.*2 (H1, ls1.*2) = cleaned es.*2 (H, ls.*2) /\ mroom (length rest + k) m' /\
    rest_kept r m m' /\ clean_frame tid r H m m' r1 rest.*1 H1)) with (n := length es); [|done|].
  - intros n cur m1 (r1 & H1 & ls1 & rest & -> & Hi & Hcl & Hk1 & Hrk & HF).
    pose proof Hi as Hi0. destruct Hi as [I1 I2 I3 I4 I5 I6 I7 I8 I9 I10].
    pose proof I2 as (S1 & S2 & S3 & S4 & S5 & S6). destruct rest as [|[pre p] rest].
    + simpl in I6. subst cur. simpl. apply tot_ret.
      pose proof (ra_array _ _ _ _ I1) as Har. pose proof (ra_range _ _ _ _ I1) as Hra.
      rewrite <- S2, <- S4. eapply tot_store.
      { eapply is_struct_inb; [exact Har|]. unfold sizeof_so_thread. lia. }
      simpl in Hcl. rewrite <- Hcl. exists r1, ls1. split_and!; auto.
      * by apply rt_at_close.
      * eapply heap_at_lookup; [exact I4|]. intros p Hp. apply lookup_upd_ne. simpl.
        intros ->. apply (I5 _ Hp). right; right; left.
      * by apply mroom_upd.
      * eapply rest_trans; [exact Hrk|]. destruct (owned_ne _ _ _ _ I1) as (N1 & N2 & N3 & N4). split.
        -- apply lookup_upd_ne. simpl. congruence.
        -- intros off Ho. apply get_upd_ne. unfold thr, sizeof_so_thread. rewrite S4. intros [=]. lia.
      * destruct HF as [F1 F2 F3 F4 F5]. split; auto.
        3:{ intros b Hb. left. destruct (F5 b Hb) as [[E|E]|E]; [left|by right|by apply not_elem_of_nil in E].
            rewrite lookup_upd_ne; [done|]. simpl. intros ->. destruct Har as (_ & o & Ho & _). congruence. }
        2:{ intros b Hb Hb'. destruct (F4 b Hb Hb') as [E|E]; [left|by right]. rewrite lookup_upd_ne; [done|]. simpl.
            intros ->. destruct Har as (_ & o & Ho & _). congruence. }
        intros b Hb Hhb Hl. rewrite lookup_upd_ne; [auto|]. simpl.
        intros ->. destruct (F2 (r_threads r1)) as [?|[?|[c ?]]]; [left; right; right; left|done|..].
        -- destruct Hl as [o Ho]. congruence.
        -- congruence.
    + pose proof I6 as (-> & Hps & _). rewrite (proj2 (Z.eqb_neq pre 0) (proj1 Hps)). cbv zeta.
      replace (r_so r) with (r_so r1) by congruence.
      eapply tot_mono; [apply (clean_step_ok tid j e r H m others roots m1 r1 H1 ls1 pre p rest pre (length rest + k) Hi0);
        auto; congruence|].
      intros res m2 (cur' & r2 & ls2 & -> & J1 & J2 & J3 & J4 & J5). exists (length rest). split; [simpl; lia|].
      exists r2, (dec1 (H1, ls1.*2) p).1, ls2, rest. split_and!; auto.
      * rewrite <- Hcl, J2. simpl. by destruct (dec1 (H1, ls1.*2) p).
      * eapply rest_trans; [exact Hrk|]. destruct J4 as [K1 K2]. split; [congruence|].
        intros off Ho. rewrite <- S2. apply K2. congruence.
  - exists r0, H, ls, es. pose proof (ra_nodup _ _ _ _ Hr) as Hnd. rewrite HP in Hnd.
    apply NoDup_app in Hnd as (D1 & D2 & D3). split_and!; auto using rest_refl.
    + split; auto.
      * unfold same_rt, r0. simpl. split_and!; auto. intros i Hi. destruct (decide (i = j)) as [->|Hne].
        -- rewrite list_lookup_insert_eq by done. by rewrite Hj.
        -- by rewrite list_lookup_insert_ne.
      * unfold r0. simpl. by rewrite list_lookup_insert_ne.
      * intros q Hq Hin. apply (Ha q Hq). rewrite HP. apply elem_of_app. by right.
      * intros w Hw'. split; [by apply D2|]. apply eq_None_not_Some. intros Hs. apply (Ha w Hs).
        rewrite HP. apply elem_of_app. by left.
    + split; auto.
      * intros b Hb. left. rewrite HP. apply elem_of_app. naive_solver.
      * intros b [c Hb] Hb'. congruence.
      * intros b [Hb|Hb]; [left; by left|]. rewrite HP in Hb. apply elem_of_app in Hb as [Hb|Hb]; [by right|].
        left. by right.
Qed.
End cleaning.
