(* ===== verification/SoOps.v ===== *)
(** * The operations on the links of a shared object

    The state of a container is its heap of counted objects and its links: the
    roots, and one link per object.  A reference in flight (a count taken for a
    link not yet made, or a link removed whose decrement is not yet queued) is a
    pending decrement of nobody's list; with that, each step of the wrappers of
    compare-and-swap keeps the balance [counted]. *)
From S2P Require Export SoClean.

(** What the object collector promises: it keeps to its own objects [G], needs
    at most [gc_cost] allocations per call, and does not mind changes elsewhere. *)
Class GcLaws `{Malloc, !MallocRoom, !Gc} := {
  gc_inv : mem -> gset Z -> Prop;
  gc_cost : nat;
  gc_local : forall m m' G, gc_inv m G -> (forall b, b ∈ G -> m' !! b = m !! b) -> gc_inv m' G;
  gc_live : forall m G b, gc_inv m G -> b ∈ G -> live m b;
  gc_send_ok : forall m G ctx p k, gc_inv m G -> mroom (gc_cost + k) m ->
    tot (gc_sendobject ctx p NULL) m (fun _ m' => exists G', gc_inv m' G' /\ frame G m m' G' /\ mroom k m');
  gc_done_ok : forall m G ctx k, gc_inv m G -> mroom (gc_cost + k) m ->
    tot (pony_send_done ctx) m (fun _ m' => exists G', gc_inv m' G' /\ frame G m m' G' /\ mroom k m')
}.

Record container : Type := Cont { c_heap : heap; c_roots : gmap loc Z }.

(** The link at a location: a root, or the link of an object. *)
Definition link_at (a : container) (X : loc) : option Z :=
  match c_roots a !! X with
  | Some v => Some v
  | None => if X.2 =? SO_FIELD then cfld <$> c_heap a !! X.1 else None
  end.

Definition set_link (a : container) (X : loc) (v : Z) : container :=
  match c_roots a !! X with
  | Some _ => Cont (c_heap a) (<[X := v]> (c_roots a))
  | None => Cont (alter (fun c => Cell (crc c) v) X.1 (c_heap a)) (c_roots a)
  end.

Definition root_objs (a : container) : list Z := (fun e => UNFREEZE e.2) <$> map_to_list (c_roots a).

Definition add_rc (H : heap) (p d : Z) : heap := alter (fun c => Cell (crc c + d) (cfld c)) p H.

(** Null is nobody's reference. *)
Definition ref (p : Z) (l : list Z) : list Z := if p =? NULL then l else p :: l.

(** [others]: the pending decrements of other threads and the references in flight. *)
Record so_inv `{GcLaws} (tid : Z) (others : list Z) (G : gset Z) (m : mem) (r : rt) (a : container) : Prop := {
  si_rt : rt_at tid None m r;
  si_heap : heap_at m (c_heap a);
  si_apart : apart tid r (c_heap a);
  si_roots : forall X v, c_roots a !! X = Some v -> get m X = Some v;
  si_rootobj : forall X v, c_roots a !! X = Some v -> (X.1 ∉ owned tid r) /\ c_heap a !! X.1 = None /\ X.1 ∉ G;
  si_gc : gc_inv m G;
  si_gcobj : forall b, b ∈ G -> (b ∉ owned tid r) /\ c_heap a !! b = None;
  si_counted : counted (c_heap a) ((concat (r_limbo r)).*2 ++ others) (root_objs a)
}.

(** * Proofs *)

Lemma elem_ref p l q : q ∈ ref p l -> q = p \/ q ∈ l.
Proof. unfold ref. destruct (p =? 0); [auto|]. by intros [->|]%elem_of_cons; auto. Qed.

Lemma occ_ref p l q : q <> NULL -> occ (ref p l) q = b2z (p =? q) + occ l q.
Proof.
  intros Hq. unfold ref. destruct (Z.eqb_spec p 0) as [->|_]; [|apply occ_cons].
  rewrite (proj2 (Z.eqb_neq 0 q)) by congruence. simpl. lia.
Qed.

Lemma ref_null p l : NULL ∉ l -> NULL ∉ ref p l.
Proof. intros H. unfold ref. destruct (Z.eqb_spec p 0) as [|E]; [done|]. rewrite elem_of_cons. naive_solver. Qed.

(** The balance from the numbers of references. *)
Lemma counted_intro H H' pend pend' roots roots' :
  counted H pend roots -> (forall p, is_Some (H' !! p) <-> is_Some (H !! p)) ->
  (forall p c, p <> NULL -> H' !! p = Some c -> exists c0, H !! p = Some c0 /\
     crc c - crc c0 = occ (pend' ++ roots' ++ flds H') p - occ (pend ++ roots ++ flds H) p) ->
  (forall p, p <> NULL -> p ∈ pend' ++ roots' ++ flds H' -> p ∈ pend ++ roots ++ flds H \/ is_Some (H !! p)) ->
  NULL ∉ pend' -> counted H' pend' roots'.
Proof.
  intros [C1 C2 C3 C4] Hd Hc Hin Hn. split; auto.
  - intros p c Hp. assert (Hp0 : p <> NULL).
    { intros ->. destruct (proj1 (Hd NULL)) as [c0 E]; [eauto|]. congruence. }
    destruct (Hc p c Hp0 Hp) as (c0 & E1 & E2). rewrite (C1 p c0 E1) in E2. lia.
  - intros p Hp Hp0. apply Hd. destruct (Hin p Hp0 Hp); auto.
  - apply eq_None_not_Some. intros E. apply Hd in E as [c E]. congruence.
Qed.

Lemma flds_alter H p f : (forall c, cfld (f c) = cfld c) -> flds (alter f p H) ≡ₚ flds H.
Proof.
  intros Hf. destruct (H !! p) as [c|] eqn:Hp.
  - rewrite (flds_delete H p c Hp), (flds_delete (alter f p H) p (f c)) by (by rewrite lookup_alter_eq, Hp).
    rewrite Hf. by rewrite delete_alter_eq.
  - by rewrite alter_id by congruence.
Qed.

Lemma flds_add_rc H p d : flds (add_rc H p d) ≡ₚ flds H.
Proof. by apply flds_alter. Qed.

Lemma alter_dom (H : heap) p f q : is_Some (alter f p H !! q) <-> is_Some (H !! q).
Proof. apply lookup_alter_is_Some. Qed.

(** A count taken for a reference in flight, or given back. *)
Lemma counted_inc H pend roots p : counted H pend roots -> is_Some (H !! p) ->
  counted (add_rc H p 1) (ref p pend) roots.
Proof.
  intros Hc Hp. eapply counted_intro; [exact Hc|intros; apply alter_dom|..].
  - intros q c Hq0 Hq. pose proof Hq as Hq'. unfold add_rc in Hq'.
    apply lookup_alter_Some in Hq' as [(<- & c0 & E & ->)|[Hne E]]; eexists; (split; [exact E|]); simpl;
      rewrite !occ_app, occ_ref, flds_add_rc by done.
    + rewrite Z.eqb_refl. simpl. lia.
    + rewrite (proj2 (Z.eqb_neq p q)) by congruence. simpl. lia.
  - intros q Hq0 Hq. rewrite !elem_of_app in Hq. rewrite flds_add_rc in Hq.
    rewrite !elem_of_app. destruct Hq as [Hq|Hq]; [|by auto]. apply elem_ref in Hq as [->|Hq]; auto.
  - apply ref_null, Hc.
Qed.

Lemma counted_dec H pend roots p : counted H (ref p pend) roots -> NULL ∉ pend -> p <> NULL ->
  counted (add_rc H p (-1)) pend roots.
Proof.
  intros Hc Hn Hp0. assert (Hp : is_Some (H !! p)).
  { apply (ct_heap _ _ _ Hc); [|done]. rewrite elem_of_app. left. unfold ref.
    rewrite (proj2 (Z.eqb_neq p 0) Hp0). left. }
  eapply counted_intro; [exact Hc|intros; apply alter_dom|..]; auto.
  - intros q c Hq0 Hq. pose proof Hq as Hq'. unfold add_rc in Hq'.
    apply lookup_alter_Some in Hq' as [(<- & c0 & E & ->)|[Hne E]]; eexists; (split; [exact E|]); simpl;
      rewrite !occ_app, occ_ref, flds_add_rc by done.
    + rewrite Z.eqb_refl. simpl. lia.
    + rewrite (proj2 (Z.eqb_neq p q)) by congruence. simpl. lia.
  - intros q Hq0 Hq. left. rewrite !elem_of_app in Hq |- *. rewrite flds_add_rc in Hq.
    destruct Hq as [Hq|Hq]; auto. left. unfold ref. rewrite (proj2 (Z.eqb_neq p 0) Hp0). by right.
Qed.

(** The links but one. *)
Lemma set_link_links a X y z : link_at a X = Some y -> exists L,
  root_objs a ++ flds (c_heap a) ≡ₚ UNFREEZE y :: L /\
  root_objs (set_link a X z) ++ flds (c_heap (set_link a X z)) ≡ₚ UNFREEZE z :: L.
Proof.
  intros HX. unfold link_at in HX. unfold set_link. destruct (c_roots a !! X) as [v|] eqn:E.
  - injection HX as ->. exists (((fun e => UNFREEZE e.2) <$> map_to_list (delete X (c_roots a))) ++ flds (c_heap a)).
    unfold root_objs. simpl. split.
    + rewrite <- (insert_delete_id (c_roots a) X y E) at 1. rewrite map_to_list_insert by apply lookup_delete_eq. done.
    + rewrite <- insert_delete_eq. rewrite map_to_list_insert by apply lookup_delete_eq. done.
  - destruct (X.2 =? 32); [|done]. destruct (c_heap a !! X.1) as [c|] eqn:Ec; [|done]. injection HX as <-.
    exists (root_objs a ++ flds (delete X.1 (c_heap a))). simpl.
    rewrite (flds_delete _ _ _ Ec). rewrite (flds_delete (alter _ _ _) X.1 (Cell (crc c) z)) by (by rewrite lookup_alter_eq, Ec).
    rewrite delete_alter_eq. simpl. unfold root_objs. simpl. split; by rewrite Permutation_middle.
Qed.

Lemma set_link_dom a X z p : is_Some (c_heap (set_link a X z) !! p) <-> is_Some (c_heap a !! p).
Proof. unfold set_link. destruct (c_roots a !! X); simpl; [done|]. apply alter_dom. Qed.

Lemma set_link_rc a X z p c : c_heap (set_link a X z) !! p = Some c ->
  exists c0, c_heap a !! p = Some c0 /\ crc c = crc c0.
Proof.
  unfold set_link. destruct (c_roots a !! X); simpl; [eauto|].
  intros [(<- & c0 & E & ->)|[_ E]]%lookup_alter_Some; eauto.
Qed.

(** A link moved from one object to another: the reference in flight becomes the
    link, and the old link a reference in flight. *)
Lemma counted_relink a pend X y z :
  counted (c_heap a) (ref (UNFREEZE z) pend) (root_objs a) -> NULL ∉ pend -> link_at a X = Some y ->
  counted (c_heap (set_link a X z)) (ref (UNFREEZE y) pend) (root_objs (set_link a X z)).
Proof.
  intros Hc Hn HX. destruct (set_link_links a X y z HX) as (L & E1 & E2).
  eapply counted_intro; [exact Hc|intros; apply set_link_dom|..].
  - intros p c Hp0 Hp. apply set_link_rc in Hp as (c0 & E & ->). exists c0. split; [done|].
    rewrite !occ_app, !occ_ref by done.
    assert (H1 := occ_perm _ _ E1 p _ eq_refl). assert (H2 := occ_perm _ _ E2 p _ eq_refl).
    rewrite occ_app, occ_cons in H1, H2. lia.
  - intros p Hp0 Hp. rewrite E2 in Hp. rewrite E1. rewrite !elem_of_app, !elem_of_cons in *.
    destruct Hp as [Hp|[Hp|Hp]]; [| |by auto].
    + apply elem_ref in Hp as [->|Hp]; [auto|]. left. left. unfold ref. destruct (_ =? _); [done|by right].
    + right. apply (ct_heap _ _ _ Hc); [|done]. rewrite elem_of_app. left. rewrite Hp in *. unfold ref.
      rewrite (proj2 (Z.eqb_neq _ 0) Hp0). left.
  - by apply ref_null.
Qed.

Lemma list_alter_same {A} (L : list (list A)) i (f : list A -> list A) : (forall l, f l = l) -> alter f i L = L.
Proof.
  intros Hf. apply list_eq. intros j. destruct (decide (i = j)) as [->|Hne].
  - rewrite list_lookup_alter_eq. destruct (L !! j); simpl; by rewrite ?Hf.
  - by rewrite list_lookup_alter_ne.
Qed.

Lemma list_alter_insert {A} (L : list A) i (f : A -> A) x : L !! i = Some x -> alter f i L = <[i := f x]> L.
Proof.
  intros Hx. apply list_eq. intros j. destruct (decide (i = j)) as [->|Hne].
  - rewrite list_lookup_alter_eq, Hx. rewrite list_lookup_insert_eq; [done|]. by eapply lookup_lt_Some.
  - by rewrite list_lookup_alter_ne, list_lookup_insert_ne.
Qed.

Section steps.
Context `{HM : Malloc, HR : !MallocRoom, HG : !Gc, HGL : !GcLaws}.
Implicit Types (m : mem) (r : rt) (a : container) (G : gset Z).

(** Nothing was allocated. *)
Definition room_kept m m' : Prop := forall k, mroom k m -> mroom k m'.

Lemma room_refl m : room_kept m m.
Proof. by intros k. Qed.

Lemma room_upd m l v : room_kept m (upd m l v).
Proof. intros k. apply mroom_upd. Qed.

Lemma room_trans m1 m2 m3 : room_kept m1 m2 -> room_kept m2 m3 -> room_kept m1 m3.
Proof. unfold room_kept. auto. Qed.

(** A change to one object of the heap. *)
Lemma so_inv_obj tid others others' G m m' r a p H' :
  so_inv tid others G m r a -> is_Some (c_heap a !! p) -> (forall b, b <> p -> m' !! b = m !! b) ->
  heap_at m' H' -> (forall q, is_Some (H' !! q) <-> is_Some (c_heap a !! q)) ->
  counted H' ((concat (r_limbo r)).*2 ++ others') (root_objs (Cont H' (c_roots a))) ->
  so_inv tid others' G m' r (Cont H' (c_roots a)).
Proof.
  intros [S1 S2 S3 S4 S5 S6 S7 S8] Hp Hm Hh Hd Hc.
  assert (Hnone : forall b, c_heap a !! b = None -> H' !! b = None).
  { intros b Hb. apply eq_None_not_Some. intros E. apply Hd in E as [c E]. congruence. }
  split; simpl; auto.
  - eapply rt_at_lookup; [exact S1|]. intros b Hb. apply Hm. intros ->. by apply (S3 p).
  - intros q Hq. apply S3. by apply Hd.
  - intros X v HX. rewrite <- (S4 X v HX). destruct X as [b off]. apply get_lookup_eq, Hm.
    intros ->. destruct (S5 _ _ HX) as (_ & E & _). simpl in E. destruct Hp. congruence.
  - intros X v HX. destruct (S5 X v HX) as (E1 & E2 & E3). auto.
  - eapply gc_local; [exact S6|]. intros b Hb. apply Hm. intros ->. destruct (S7 p Hb) as [_ E]. destruct Hp. congruence.
  - intros b Hb. destruct (S7 b Hb). auto.
Qed.

(** [published] is not part of the count. *)
Lemma so_inv_published tid others G m r a p v :
  so_inv tid others G m r a -> is_Some (c_heap a !! p) -> so_inv tid others G (upd m (p, SO_PUBLISHED) v) r a.
Proof.
  intros Hs Hp. pose proof (si_heap _ _ _ _ _ _ Hs) as Hh. pose proof (si_counted _ _ _ _ _ _ Hs) as Hc.
  destruct a as [H R]. simpl in *. eapply (so_inv_obj tid others others G m _ r (Cont H R) p H); auto.
  - intros b Hb. by apply lookup_upd_ne.
  - intros q c Hq. destruct (Hh q c Hq) as (Q1 & Q2 & Q3 & Q4). rewrite is_struct_upd, !get_upd_ne by loc_ne. done.
Qed.

Definition with_rc a p d : container := Cont (add_rc (c_heap a) p d) (c_roots a).

Lemma with_rc_null tid others G m r a d : so_inv tid others G m r a -> with_rc a NULL d = a.
Proof.
  intros Hs. unfold with_rc, add_rc. rewrite alter_id; [by destruct a|].
  intros c Hc. by rewrite (ct_null _ _ _ (si_counted _ _ _ _ _ _ Hs)) in Hc.
Qed.

Lemma heap_at_add m H p c d : heap_at m H -> H !! p = Some c -> 0 <= crc c + d < M32 ->
  heap_at (upd m (p, SO_RC) (crc c + d)) (add_rc H p d).
Proof.
  intros Hh Hp Hr q c' Hq. destruct (Hh p c Hp) as (P1 & P2 & P3 & P4). rewrite is_struct_upd.
  unfold add_rc in Hq. apply lookup_alter_Some in Hq as [(<- & c0 & E & ->)|[Hne Hq]]; simpl.
  - assert (c0 = c) as -> by congruence. split; [done|]. split; [mget|]. split; [mget|lia].
  - destruct (Hh q c' Hq) as (Q1 & Q2 & Q3 & Q4). by rewrite !get_upd_ne by loc_ne.
Qed.

Lemma ref_app p l l' : l ++ ref p l' ≡ₚ ref p (l ++ l').
Proof. unfold ref. destruct (p =? 0); [done|]. by rewrite Permutation_middle. Qed.

(** An object that can take one more reference. *)
Definition can_ref a p : Prop := p = NULL \/ exists c, c_heap a !! p = Some c /\ crc c + 1 < M32.

(** At most the count of [z] changed. *)
Definition rc_change (z : Z) m m' : Prop := m' = m \/ (z <> NULL /\ exists v, m' = upd m (z, SO_RC) v).

Lemma rc_change_room z m m' : rc_change z m m' -> room_kept m m'.
Proof. intros [->|(_ & v & ->)]; [apply room_refl|apply room_upd]. Qed.

Lemma rest_upd tid r m z off v : z ∉ owned tid r -> rest_kept r m (upd m (z, off) v).
Proof.
  intros Hz. apply rest_lookup; apply lookup_upd_ne; simpl; intros E; apply Hz; rewrite <- E;
    [right; left|right; right; left].
Qed.

Lemma rc_change_rest tid r z m m' : rc_change z m m' -> (z <> NULL -> z ∉ owned tid r) -> rest_kept r m m'.
Proof. intros [->|(H0 & v & ->)] Hz; [apply rest_refl|eapply rest_upd; auto]. Qed.

Lemma inc_ok tid others G m r a z : so_inv tid others G m r a -> can_ref a z ->
  tot (so.so_lockfree_inc_rc z) m (fun _ m' => so_inv tid (ref z others) G m' r (with_rc a z 1) /\ rc_change z m m').
Proof.
  intros Hs Hz. unfold so.so_lockfree_inc_rc. destruct (Z.eqb_spec z 0) as [->|Hz0].
  - apply tot_ret. erewrite with_rc_null by exact Hs. split; [exact Hs|by left].
  - destruct Hz as [|(c & Hz & Hr)]; [done|]. pose proof (si_heap _ _ _ _ _ _ Hs) as Hh.
    destruct (Hh z c Hz) as (P1 & P2 & P3 & P4). eapply tot_rmw; [exact P2|].
    rewrite u32_small by lia. split; [|right; eauto].
    eapply so_inv_obj; [exact Hs|eauto|intros b Hb; by apply lookup_upd_ne|by apply heap_at_add; auto; lia| |].
    + intros q. apply alter_dom.
    + rewrite ref_app. apply counted_inc; [apply Hs|eauto].
Qed.

(** The reference in flight given back. *)
Lemma dec_ok tid others G m r a z : so_inv tid (ref z others) G m r a -> z <> NULL ->
  tot (so.so_lockfree_dec_rc z) m (fun _ m' => so_inv tid others G m' r (with_rc a z (-1)) /\ rc_change z m m').
Proof.
  intros Hs Hz. pose proof (si_counted _ _ _ _ _ _ Hs) as Hc. rewrite ref_app in Hc.
  assert (Hin : z ∈ ref z ((concat (r_limbo r)).*2 ++ others)).
  { unfold ref. rewrite (proj2 (Z.eqb_neq z 0) Hz). left. }
  destruct (ct_heap _ _ _ Hc z) as [c Hp]; [rewrite elem_of_app; auto|done|].
  pose proof (ct_rc _ _ _ Hc z c Hp) as Hrc. rewrite !occ_app in Hrc. apply occ_in in Hin.
  pose proof (occ_nonneg (root_objs a) z). pose proof (occ_nonneg (flds (c_heap a)) z).
  pose proof (si_heap _ _ _ _ _ _ Hs) as Hh. destruct (Hh z c Hp) as (P1 & P2 & P3 & P4).
  eapply dec_rc_ok; [exact Hh|exact Hp|done|lia|]. split; [|right; eauto].
  eapply so_inv_obj; [exact Hs|eauto|intros b Hb; by apply lookup_upd_ne|apply (heap_at_add m _ z c (-1)); auto; lia| |].
  - intros q. apply alter_dom.
  - apply counted_dec; auto. intros E. apply (ct_pend _ _ _ Hc). unfold ref.
    rewrite (proj2 (Z.eqb_neq z 0) Hz). by right.
Qed.

(** The runtime's part that no step on the links changes. *)
Definition same_ids r r' : Prop :=
  r_so r' = r_so r /\ r_threads r' = r_threads r /\ r_n r' = r_n r /\ r_index r' = r_index r /\ r_epoch r' = r_epoch r.

Lemma same_ids_refl r : same_ids r r.
Proof. by repeat split. Qed.

Lemma heap_live m H p : heap_at m H -> is_Some (H !! p) -> live m p.
Proof. intros Hh [c Hc]. eapply is_struct_live. by apply (Hh p c). Qed.

Lemma link_get tid others G m r a X v : so_inv tid others G m r a -> link_at a X = Some v -> get m X = Some v.
Proof.
  intros Hs HX. unfold link_at in HX. destruct (c_roots a !! X) as [w|] eqn:E.
  - injection HX as ->. by apply (si_roots _ _ _ _ _ _ Hs).
  - destruct X as [p off]. simpl in HX. destruct (Z.eqb_spec off 32) as [->|]; [|done].
    destruct (c_heap a !! p) as [c|] eqn:Ec; [|done]. injection HX as <-. by apply (si_heap _ _ _ _ _ _ Hs).
Qed.

(** The compare-and-swap itself. *)
Lemma relink_ok tid others G m r a X v z : so_inv tid (ref (UNFREEZE z) others) G m r a -> link_at a X = Some v ->
  so_inv tid (ref (UNFREEZE v) others) G (upd m X z) r (set_link a X z).
Proof.
  intros Hs HX. pose proof (link_get _ _ _ _ _ _ _ _ Hs HX) as Hget.
  assert (Hc : counted (c_heap (set_link a X z)) ((concat (r_limbo r)).*2 ++ ref (UNFREEZE v) others)
    (root_objs (set_link a X z))).
  { pose proof (si_counted _ _ _ _ _ _ Hs) as Hc. rewrite ref_app in Hc |- *. apply counted_relink; auto.
    intros E. apply (ct_pend _ _ _ Hc). unfold ref. destruct (_ =? _); [done|by right]. }
  unfold link_at in HX. unfold set_link in *. destruct (c_roots a !! X) as [w|] eqn:E.
  - destruct Hs as [S1 S2 S3 S4 S5 S6 S7 S8]. destruct (S5 X w E) as (E1 & E2 & E3).
    assert (Hm : forall b, b <> X.1 -> upd m X z !! b = m !! b) by (intros; by apply lookup_upd_ne).
    split; simpl; auto.
    + eapply rt_at_lookup; [exact S1|]. intros b Hb. apply Hm. congruence.
    + eapply heap_at_lookup; [exact S2|]. intros p [c Hp]. apply Hm. congruence.
    + intros Y y HY. apply lookup_insert_Some in HY as [[<- <-]|[Hne HY]].
      * apply get_upd_eq. by eapply live_get.
      * rewrite get_upd_ne by done. auto.
    + intros Y y HY. apply lookup_insert_Some in HY as [[<- <-]|[Hne HY]]; eauto.
    + eapply gc_local; [exact S6|]. intros b Hb. apply Hm. congruence.
  - destruct X as [p off]. simpl in *. destruct (Z.eqb_spec off 32) as [->|]; [|done].
    destruct (c_heap a !! p) as [c|] eqn:Ec; [|done]. simpl in HX. injection HX as <-.
    pose proof (si_heap _ _ _ _ _ _ Hs) as Hh. destruct (Hh p c Ec) as (P1 & P2 & P3 & P4).
    eapply so_inv_obj; [exact Hs|eauto|intros b Hb; by apply lookup_upd_ne| |intros q; apply alter_dom|exact Hc].
    intros q c' Hq. rewrite is_struct_upd. apply lookup_alter_Some in Hq as [(<- & c0 & E0 & ->)|[Hne Hq]]; simpl.
    + assert (c0 = c) as -> by congruence. split; [done|]. split; [mget|]. split; [mget|done].
    + destruct (Hh q c' Hq) as (Q1 & Q2 & Q3 & Q4). by rewrite !get_upd_ne by loc_ne.
Qed.

(** The pending decrements of each limbo list. *)
Definition objs_of r : list (list Z) := (fun l => l.*2) <$> r_limbo r.

Definition push_ref (e : nat) (y : Z) (L : list (list Z)) : list (list Z) := alter (ref y) e L.

(** The link that was removed is queued. *)
Lemma delay_ok tid others G m r a y k : so_inv tid (ref y others) G m r a -> mroom (S k) m ->
  tot (so.so_lockfree_delay_dec tid (r_so r) y) m (fun _ m' => exists r', so_inv tid others G m' r' a /\
    same_ids r r' /\ objs_of r' = push_ref (Z.to_nat (r_epoch r)) y (objs_of r) /\ mroom k m' /\ rest_kept r m m').
Proof.
  intros Hs Hk. destruct (Z.eqb_spec y 0) as [->|Hy].
  - apply tot_ret. exists r. split_and!; auto using same_ids_refl, rest_refl.
    + unfold push_ref. symmetry. by apply list_alter_same.
    + eapply mroom_mono; [exact Hk|lia].
  - destruct Hs as [S1 S2 S3 S4 S5 S6 S7 S8]. pose proof (ra_epoch3 _ _ _ _ S1) as He.
    pose proof (ra_three _ _ _ _ S1) as H3.
    destruct (lookup_lt_is_Some_2 (r_limbo r) (Z.to_nat (r_epoch r))) as [es Hes]; [lia|].
    eapply tot_mono; [apply (delay_dec_ok tid None m r y _ es k S1 Hy Hes); [by rewrite Z2Nat.id by lia|done|done]|].
    intros [] m' (w & ws & R1 & R2 & R3 & R4). cbv zeta in *.
    set (r' := set_limbo _ _) in *. exists r'. destruct (own_frame_apart _ _ _ _ _ _ R4 S3 S2) as [Hh Ha].
    assert (HP : (concat (r_limbo r')).*2 ≡ₚ ref y (concat (r_limbo r)).*2).
    { unfold r'. simpl. rewrite (concat_insert _ _ _ _ Hes). unfold ref. by rewrite (proj2 (Z.eqb_neq y 0) Hy). }
    destruct R4 as (F1 & F2 & _).
    assert (Hout : forall b, live m b -> b ∉ owned tid r -> m' !! b = m !! b /\ (b ∉ owned tid r')).
    { intros b Hl Hb. split; [auto|]. intros E. destruct (F2 b E) as [|E2]; [done|]. destruct Hl as [o Ho]. congruence. }
    split_and!; auto; [|by repeat split|].
    2:{ unfold objs_of, push_ref, r'. simpl. rewrite list_fmap_insert. symmetry. erewrite list_alter_insert; [|by rewrite list_lookup_fmap, Hes].
        unfold ref. by rewrite (proj2 (Z.eqb_neq y 0) Hy). }
    split; auto.
    + intros X v HX. destruct (S5 X v HX) as (E1 & _). rewrite <- (S4 X v HX). destruct X as [b off].
      apply get_lookup_eq, Hout; [|done]. exact (live_get m (b, off) v (S4 _ _ HX)).
    + intros X v HX. destruct (S5 X v HX) as (E1 & E2 & E3). split_and!; auto. apply Hout; [|done].
      eapply live_get, S4, HX.
    + eapply gc_local; [exact S6|]. intros b Hb. apply Hout; [by eapply gc_live|by apply S7].
    + intros b Hb. destruct (S7 b Hb) as [E1 E2]. split; [|done]. apply Hout; [by eapply gc_live|done].
    + rewrite HP. rewrite ref_app in S8. unfold ref in *. rewrite (proj2 (Z.eqb_neq y 0) Hy) in *. exact S8.
Qed.

(** A call of the collector. *)
Lemma so_inv_gc tid others G G' m m' r a : so_inv tid others G m r a -> gc_inv m' G' -> frame G m m' G' ->
  so_inv tid others G' m' r a /\ rest_kept r m m'.
Proof.
  intros [S1 S2 S3 S4 S5 S6 S7 S8] Hg HF.
  assert (Ho : forall b, b ∈ owned tid r -> (b ∉ G) /\ live m b).
  { intros b Hb. split; [|by eapply owned_live]. intros E. by apply S7 in E as [E _]. }
  assert (Hp : forall p, is_Some (c_heap a !! p) -> (p ∉ G) /\ live m p).
  { intros p Hp. split; [|by eapply heap_live]. intros E. apply S7 in E as [_ E]. destruct Hp. congruence. }
  assert (Hk : forall b, b ∉ G -> live m b -> m' !! b = m !! b) by apply HF.
  split; [split; auto|].
  - eapply rt_at_lookup; [exact S1|]. intros b Hb. apply Hk; by apply Ho.
  - eapply heap_at_lookup; [exact S2|]. intros p Hs. apply Hk; by apply Hp.
  - intros X v HX. destruct (S5 X v HX) as (E1 & E2 & E3). rewrite <- (S4 X v HX).
    destruct X as [b off]. apply get_lookup_eq, Hk; [done|]. exact (live_get m (b, off) v (S4 _ _ HX)).
  - intros X v HX. destruct (S5 X v HX) as (E1 & E2 & E3). split_and!; auto.
    eapply frame_notin; [exact HF|done|]. eapply live_get, S4, HX.
  - intros b Hb. split.
    + intros E. destruct (Ho b E). by eapply frame_notin.
    + apply eq_None_not_Some. intros E. destruct (Hp b E). by eapply frame_notin.
  - apply rest_lookup; apply Hk; apply Ho; [right; left|right; left|right; right; left|right; right; left].
Qed.

(** The two calls that report a link to the collector. *)
Lemma report_ok tid others G m r a ctx p k : so_inv tid others G m r a -> mroom (gc_cost + (gc_cost + k)) m ->
  tot (so.gc_sendobject_shallow ctx p ;; so.gc_sendobject_shallow_done ctx) m (fun _ m' => exists G',
    so_inv tid others G' m' r a /\ mroom k m' /\ rest_kept r m m').
Proof.
  intros Hs Hk. apply tot_bind. eapply tot_mono; [eapply gc_send_ok; [apply Hs|exact Hk]|].
  intros [] m1 (G1 & H1 & H2 & H3). destruct (so_inv_gc _ _ _ _ _ _ _ _ Hs H1 H2) as [Hs1 Hr1].
  eapply tot_mono; [eapply gc_done_ok; [apply Hs1|exact H3]|].
  intros [] m2 (G2 & H4 & H5 & H6). destruct (so_inv_gc _ _ _ _ _ _ _ _ Hs1 H4 H5) as [Hs2 Hr2].
  exists G2. split_and!; auto. by eapply rest_trans.
Qed.

Lemma link_with_rc a p d X : link_at (with_rc a p d) X = link_at a X.
Proof.
  unfold link_at, with_rc, add_rc. simpl. destruct (c_roots a !! X); [done|]. destruct (X.2 =? 32); [|done].
  destruct (decide (p = X.1)) as [->|Hne].
  - rewrite lookup_alter_eq. by destruct (c_heap a !! X.1).
  - by rewrite lookup_alter_ne.
Qed.

Lemma with_rc_back a p : with_rc (with_rc a p 1) p (-1) = a.
Proof.
  unfold with_rc, add_rc. destruct a as [H R]. simpl. f_equal. apply map_eq. intros q.
  destruct (decide (p = q)) as [->|Hne]; [|by rewrite !lookup_alter_ne].
  rewrite !lookup_alter_eq. destruct (H !! q) as [[n f]|]; simpl; [|done]. do 2 f_equal. lia.
Qed.

Lemma pre_publish_ok tid others G m r a z : so_inv tid others G m r a -> can_ref a z ->
  tot (so.so_lockfree_pre_publish z) m (fun _ m' => so_inv tid (ref z others) G m' r (with_rc a z 1) /\
    room_kept m m' /\ rest_kept r m m' /\ (z <> NULL -> get m' (z, SO_PUBLISHED) = Some 1)).
Proof.
  intros Hs Hz. unfold so.so_lockfree_pre_publish. destruct (Z.eqb_spec z 0) as [->|Hz0].
  - apply tot_ret. erewrite with_rc_null by exact Hs. split_and!; auto using room_refl, rest_refl. done.
  - pose proof Hz as [|(c & Hc & _)]; [done|].
    destruct (si_heap _ _ _ _ _ _ Hs z c Hc) as (P1 & P2 & P3 & P4). unfold sizeof_passive in P1.
    apply tot_bind. eapply tot_store; [minb|].
    pose proof (so_inv_published _ _ _ _ _ _ z 1 Hs ltac:(eauto)) as Hs1.
    assert (Hno : z ∉ owned tid r) by (apply Hs; eauto).
    apply tot_bind. eapply tot_mono; [apply (inc_ok tid others G _ r a z Hs1 Hz)|].
    intros v m' [H1 H2]. apply tot_ret. split_and!; auto.
    + eapply room_trans; [apply room_upd|by eapply rc_change_room].
    + eapply rest_trans; [by eapply rest_upd|by eapply rc_change_rest].
    + intros _. destruct H2 as [->|(_ & w & ->)]; mget.
Qed.

Lemma unpre_publish_ok tid others G m r a z : so_inv tid (ref z others) G m r a ->
  (z <> NULL -> get m (z, SO_PUBLISHED) = Some 1) ->
  tot (so.so_lockfree_unpre_publish z) m (fun _ m' => so_inv tid others G m' r (with_rc a z (-1)) /\ room_kept m m' /\
    rest_kept r m m').
Proof.
  intros Hs Hp. unfold so.so_lockfree_unpre_publish. destruct (Z.eqb_spec z 0) as [->|Hz0].
  - apply tot_ret. erewrite with_rc_null by exact Hs. split_and!; auto using room_refl, rest_refl.
  - specialize (Hp Hz0). pose proof (si_counted _ _ _ _ _ _ Hs) as Hc.
    destruct (ct_heap _ _ _ Hc z) as [c Hz]; [|done|].
    { rewrite ref_app, elem_of_app. left. unfold ref. rewrite (proj2 (Z.eqb_neq z 0) Hz0). left. }
    destruct (si_heap _ _ _ _ _ _ Hs z c Hz) as (P1 & P2 & P3 & P4). unfold sizeof_passive in P1.
    assert (Hno : z ∉ owned tid r) by (apply Hs; eauto).
    apply tot_bind. eapply tot_load; [exact Hp|]. apply tot_bind, tot_ret. apply tot_bind.
    eapply tot_store; [minb|]. pose proof (so_inv_published _ _ _ _ _ _ z 0 Hs ltac:(eauto)) as Hs1.
    apply tot_bind. eapply tot_mono; [apply (dec_ok tid others G _ r a z Hs1 Hz0)|].
    intros v m' [H1 H2]. apply tot_ret. split_and!; auto.
    + eapply room_trans; [apply room_upd|by eapply rc_change_room].
    + eapply rest_trans; [by eapply rest_upd|by eapply rc_change_rest].
Qed.
End steps.
