(* ===== verification/SoProgram.v ===== *)
(** * Shared objects: the operations of a container

    The compare-and-swaps of links, the entry to and the exit from a container,
    and any sequence of them by one thread: the counts stay balanced, so that no
    object is freed while a link refers to it, and no operation fails. *)
From S2P Require Export SoOps.

Section wrappers.
Context `{HM : Malloc, HR : !MallocRoom, HG : !Gc, HGL : !GcLaws}.
Implicit Types (m : mem) (r : rt) (a : container) (G : gset Z).

(** The pending decrements of this thread. *)
Definition pending r : list Z := (concat (r_limbo r)).*2.

(** The outcome of an operation on the links: the container becomes [a'], and the
    decrement of [new], if it is not null, is queued. *)
Definition outcome_ok (tid : Z) (others : list Z) r (k : nat) m a' (new : Z) m' : Prop :=
  exists G' r', so_inv tid others G' m' r' a' /\ same_ids r r' /\
    objs_of r' = push_ref (Z.to_nat (r_epoch r)) new (objs_of r) /\ mroom k m' /\ rest_kept r m m'.

Lemma push_null e L : push_ref e NULL L = L.
Proof. by apply list_alter_same. Qed.

(** Room for the two reports to the collector and for one wrapper. *)
Definition op_room (k : nat) : nat := (gc_cost + (gc_cost + S k))%nat.

Lemma same_rest r r' m m' : same_ids r r' -> rest_kept r' m m' -> rest_kept r m m'.
Proof. intros (A1 & A2 & _ & A4 & _) [T1 T2]. unfold rest_kept. rewrite A1 in T1. rewrite A2, A4 in T2. auto. Qed.

Lemma rest_link tid others G m r a X v m1 z : so_inv tid others G m r a -> link_at a X = Some v ->
  rest_kept r m1 (upd m1 X z).
Proof.
  intros Hs HX. unfold link_at in HX. destruct (c_roots a !! X) as [w|] eqn:E.
  - destruct (si_rootobj _ _ _ _ _ _ Hs X w E) as (E1 & _). destruct X. by eapply rest_upd.
  - destruct X as [p off]. simpl in HX. destruct (off =? 32); [|done]. destruct (c_heap a !! p) eqn:Ec; [|done].
    eapply rest_upd. apply (si_apart _ _ _ _ _ _ Hs). eauto.
Qed.

(** The compare-and-swap of a link that takes a count for the new object first:
    on success the old link is queued, on failure the count is given back. *)
Lemma publish_cas_ok tid others G m r a ctx this X v y z k :
  so_inv tid others G m r a -> so_gc_of this = r_so r -> link_at a X = Some v -> can_ref a z ->
  UNFREEZE z = z -> UNFREEZE y = y -> mroom (op_room k) m ->
  tot (so.so_lockfree_pre_publish z ;;
       ret <- CAS X y z ;;
       (if ret : bool then
          so.gc_sendobject_shallow ctx z ;;
          so.gc_sendobject_shallow_done ctx ;;
          so.so_lockfree_delay_dec tid (so_gc_of this) y
        else so.so_lockfree_unpre_publish z) ;;
       Ret ret) m (fun ret m' => ret = (v =? y) /\
    outcome_ok tid others r k m (if ret then set_link (with_rc a z 1) X z else a) (if ret then y else NULL) m').
Proof.
  intros Hs Ht HX Hz Uz Uy Hk. unfold op_room in Hk. apply tot_bind.
  eapply tot_mono; [by apply pre_publish_ok|]. intros [] m1 (H1 & H2 & H3 & H4).
  assert (HX1 : link_at (with_rc a z 1) X = Some v) by (by rewrite link_with_rc).
  apply tot_bind. eapply tot_CAS; [exact (link_get _ _ _ _ _ _ _ _ H1 HX1)|..]; intros Hv.
  - subst v. rewrite <- Uz in H1 at 1. pose proof (relink_ok _ _ _ _ _ _ _ _ z H1 HX1) as Hr. rewrite Uy in Hr.
    pose proof (rest_link _ _ _ _ _ _ _ _ m1 z Hs HX) as Hk1.
    apply tot_bind. rewrite Ht.
    assert (Ha : forall Q m, tot ((so.gc_sendobject_shallow ctx z ;; so.gc_sendobject_shallow_done ctx) ;;
        so.so_lockfree_delay_dec tid (r_so r) y) m Q ->
      tot (so.gc_sendobject_shallow ctx z ;; so.gc_sendobject_shallow_done ctx ;;
        so.so_lockfree_delay_dec tid (r_so r) y) m Q).
    { intros Q m0. unfold tot. by rewrite run_bind_assoc. }
    apply Ha. apply tot_bind.
    eapply tot_mono; [eapply report_ok; [exact Hr|apply mroom_upd, H2, Hk]|].
    intros [] m2 (G2 & R1 & R2 & R3). eapply tot_mono; [by apply delay_ok|].
    intros [] m3 (r3 & D1 & D2 & D3 & D4 & D5). apply tot_ret. rewrite Z.eqb_refl. split; [done|].
    exists G2, r3. split_and!; auto.
    + eapply rest_trans; [exact H3|]. eapply rest_trans; [exact Hk1|]. eapply rest_trans; [exact R3|exact D5].
  - apply tot_bind. eapply tot_mono; [by apply unpre_publish_ok|]. intros [] m2 (D1 & D2 & D3).
    rewrite with_rc_back in D1. apply tot_ret. rewrite (proj2 (Z.eqb_neq v y) Hv). split; [done|].
    exists G, r. split_and!; auto using same_ids_refl, push_null.
    + apply D2, H2. eapply mroom_mono; [exact Hk|lia].
    + by eapply rest_trans.
Qed.

(** ** The wrappers *)

(** The hypotheses they share: the link [X] has the value [v], and [z] can take
    one more reference. *)
Lemma cas_link_ok tid others G m r a ctx this X v y z k :
  so_inv tid others G m r a -> so_gc_of this = r_so r -> X.1 <> NULL -> link_at a X = Some v -> can_ref a z ->
  UNFREEZE z = z -> UNFREEZE y = y -> mroom (op_room k) m ->
  tot (so._so_lockfree_cas_link_wrapper tid ctx this X y z) m (fun ret m' => ret = (v =? y) /\
    outcome_ok tid others r k m (if ret then set_link (with_rc a z 1) X z else a) (if ret then y else NULL) m').
Proof.
  intros Hs Ht H0. intros. unfold so._so_lockfree_cas_link_wrapper. rewrite (proj2 (Z.eqb_neq X.1 0) H0).
  apply tot_bind, tot_ret. by eapply publish_cas_ok.
Qed.

Lemma cas_swap_ok tid others G m r a ctx this X v y z k :
  so_inv tid others G m r a -> so_gc_of this = r_so r -> X.1 <> NULL -> link_at a X = Some v -> can_ref a z ->
  UNFREEZE z = z -> UNFREEZE y = y -> mroom (op_room k) m ->
  tot (so._so_lockfree_cas_swap_wrapper tid ctx this X y z) m (fun ret m' => ret = (v =? y) /\
    outcome_ok tid others r k m (if ret then set_link (with_rc a z 1) X z else a) (if ret then y else NULL) m').
Proof.
  intros Hs Ht H0. intros. unfold so._so_lockfree_cas_swap_wrapper. rewrite (proj2 (Z.eqb_neq X.1 0) H0).
  apply tot_bind, tot_ret. by eapply publish_cas_ok.
Qed.

(** The unlink gives a count that was taken in vain back through the limbo list. *)
Lemma cas_unlink_ok tid others G m r a ctx this X v y z k :
  so_inv tid others G m r a -> so_gc_of this = r_so r -> X.1 <> NULL -> link_at a X = Some v -> can_ref a z ->
  UNFREEZE z = z -> UNFREEZE y = y -> mroom (op_room k) m ->
  tot (so._so_lockfree_cas_unlink_wrapper tid ctx this X y z) m (fun ret m' => ret = (v =? y) /\
    outcome_ok tid others r k m (if ret then set_link (with_rc a z 1) X z else with_rc a z 1)
      (if ret then y else z) m').
Proof.
  intros Hs Ht H0 HX Hz Uz Uy Hk. unfold so._so_lockfree_cas_unlink_wrapper. rewrite (proj2 (Z.eqb_neq X.1 0) H0).
  apply tot_bind, tot_ret. apply tot_bind. eapply tot_mono; [by apply inc_ok|]. intros n m1 [H1 H2].
  assert (HX1 : link_at (with_rc a z 1) X = Some v) by (by rewrite link_with_rc).
  assert (Hk1 : mroom (S k) m1).
  { apply (rc_change_room _ _ _ H2). eapply mroom_mono; [exact Hk|unfold op_room; lia]. }
  assert (Hr1 : rest_kept r m m1).
  { eapply rc_change_rest; [exact H2|]. intros Hz0. destruct Hz as [|(c & Hc & _)]; [done|].
    apply (si_apart _ _ _ _ _ _ Hs). eauto. }
  apply tot_bind. eapply tot_CAS; [exact (link_get _ _ _ _ _ _ _ _ H1 HX1)|..]; intros Hv; rewrite Ht.
  - subst v. rewrite <- Uz in H1 at 1. pose proof (relink_ok _ _ _ _ _ _ _ _ z H1 HX1) as Hr. rewrite Uy in Hr.
    apply tot_bind. eapply tot_mono; [apply delay_ok; [exact Hr|by apply mroom_upd]|].
    intros [] m2 (r2 & D1 & D2 & D3 & D4 & D5). apply tot_ret. rewrite Z.eqb_refl. split; [done|].
    exists G, r2. split_and!; auto.
    + eapply rest_trans; [exact Hr1|]. eapply rest_trans; [exact (rest_link _ _ _ _ _ _ _ _ m1 z Hs HX)|exact D5].
  - apply tot_bind. eapply tot_mono; [apply delay_ok; [exact H1|exact Hk1]|].
    intros [] m2 (r2 & D1 & D2 & D3 & D4 & D5). apply tot_ret. rewrite (proj2 (Z.eqb_neq v y) Hv). split; [done|].
    exists G, r2. split_and!; auto.
    + by eapply rest_trans.
Qed.

(** The first assignment of a link that is written once; the new link is frozen. *)
Lemma cas_try_ok tid others G m r a ctx this X v z k :
  so_inv tid others G m r a -> X.1 <> NULL -> link_at a X = Some v -> can_ref a (UNFREEZE z) ->
  mroom (op_room k) m ->
  tot (so._so_lockfree_cas_try_wrapper ctx this X NULL z) m (fun ret m' => ret = (v =? NULL) /\
    outcome_ok tid others r k m (if ret then set_link (with_rc a (UNFREEZE z) 1) X z else a) NULL m').
Proof.
  intros Hs H0 HX Hz Hk. unfold op_room in Hk. unfold so._so_lockfree_cas_try_wrapper. cbv zeta.
  rewrite (proj2 (Z.eqb_neq X.1 0) H0). apply tot_bind, tot_ret. apply tot_bind.
  eapply tot_mono; [by apply pre_publish_ok|]. intros [] m1 (H1 & H2 & H3 & H4).
  assert (HX1 : link_at (with_rc a (UNFREEZE z) 1) X = Some v) by (by rewrite link_with_rc).
  apply tot_bind. eapply tot_CAS; [exact (link_get _ _ _ _ _ _ _ _ H1 HX1)|..]; intros Hv.
  - subst v. pose proof (relink_ok _ _ _ _ _ _ _ _ z H1 HX1) as Hr. change (ref (UNFREEZE 0) others) with others in Hr.
    rewrite Z.eqb_refl. apply tot_bind, tot_bind, tot_ret.
    eapply tot_mono; [eapply report_ok; [exact Hr|apply mroom_upd, H2, Hk]|].
    intros [] m2 (G2 & R1 & R2 & R3). apply tot_ret. split; [done|]. exists G2, r.
    split_and!; auto using same_ids_refl, push_null.
    + eapply mroom_mono; [exact R2|lia].
    + eapply rest_trans; [exact H3|]. eapply rest_trans; [exact (rest_link _ _ _ _ _ _ _ _ m1 z Hs HX)|exact R3].
  - apply tot_bind. eapply tot_mono; [by apply unpre_publish_ok|]. intros [] m2 (D1 & D2 & D3).
    rewrite with_rc_back in D1. apply tot_ret. rewrite (proj2 (Z.eqb_neq v 0) Hv). split; [done|].
    exists G, r. split_and!; auto using same_ids_refl, push_null.
    + apply D2, H2. eapply mroom_mono; [exact Hk|lia].
    + by eapply rest_trans.
Qed.

(** Old code that expects something else than null in the link fails its assertion. *)
Lemma cas_try_expects_null tid others G m r a ctx this X v z :
  so_inv tid others G m r a -> X.1 <> NULL -> link_at a X = Some v -> can_ref a (UNFREEZE z) -> v <> NULL ->
  run (so._so_lockfree_cas_try_wrapper ctx this X v z) m = Err EAssert.
Proof.
  intros Hs H0 HX Hz Hv. unfold so._so_lockfree_cas_try_wrapper. cbv zeta.
  rewrite (proj2 (Z.eqb_neq X.1 0) H0). apply run_bind_tot, tot_ret. apply run_bind_tot.
  eapply tot_mono; [by apply pre_publish_ok|]. intros [] m1 (H1 & H2 & H3 & H4).
  assert (HX1 : link_at (with_rc a (UNFREEZE z) 1) X = Some v) by (by rewrite link_with_rc).
  apply run_bind_tot. eapply tot_CAS; [exact (link_get _ _ _ _ _ _ _ _ H1 HX1)|..]; intros Hv'; [|done].
  apply run_bind_err. rewrite (proj2 (Z.eqb_neq v 0) Hv). done.
Qed.
End wrappers.
