(* ===== verification/SoEntry.v ===== *)
(** * Entering a shared object: epochs

    [so_lockfree_on_entry] joins the global epoch.  A thread that is behind
    cleans the limbo list of the new epoch; one that has entered [entry_max]
    times in its epoch tries to advance the global epoch first. *)
From S2P Require Export SoProgram.

Section epochs.
Context `{HM : Malloc, HR : !MallocRoom, HG : !Gc, HGL : !GcLaws}.
Implicit Types (m : mem) (r : rt) (a : container) (G : gset Z).

(** ** The global epoch *)

(** Thread [i] is outside, or inside in epoch [g]. *)
Definition so_caught_up m (threads g : Z) (i : nat) : bool :=
  match get m (thr threads (Z.of_nat i) PT_IN_CRITICAL), get m (thr threads (Z.of_nat i) PT_LOCAL_EPOCH) with
  | Some c, Some e => (c =? 0) || (e =? g)
  | _, _ => false
  end.

(** [update_epoch] advances the epoch exactly when it gets the lock and no thread
    is inside in another epoch; nothing else changes, the lock is free again. *)
Lemma so_update_epoch_ok m so th n g lk :
  is_struct m so sizeof_so_gc -> so <> th -> get m (so, GC_THREADS) = Some th ->
  get m (so, GC_N_THREADS) = Some (Z.of_nat n) -> get m (so, GC_EPOCH) = Some g -> 0 <= g < 3 ->
  get m (so, GC_LOCK) = Some lk ->
  (forall i, (i < n)%nat -> is_Some (get m (thr th (Z.of_nat i) PT_IN_CRITICAL)) /\
     is_Some (get m (thr th (Z.of_nat i) PT_LOCAL_EPOCH))) ->
  tot (so.update_epoch so) m (fun _ m' =>
    m' = if (lk =? 0) && forallb (so_caught_up m th g) (seq 0 n) then upd m (so, GC_EPOCH) ((g + 1) mod 3) else m).
Proof.
  intros Hs Hne Ht Hn Hg Hg3 Hl Hth. unfold sizeof_so_gc in Hs. unfold so.update_epoch.
  apply tot_bind. eapply tot_load; [exact Hn|]. apply tot_bind. eapply tot_load; [exact Hg|].
  apply tot_bind. eapply tot_CAS; [exact Hl| |]; intros Hlk.
  2:{ apply Z.eqb_neq in Hlk. rewrite Hlk. by apply tot_ret. }
  subst lk. set (m1 := upd m (so, GC_LOCK) 1). rewrite Nat2Z.id. apply tot_bind.
  eapply (tot_loop (fun k i m' => exists j, i = Z.of_nat j /\ (j + k = n)%nat /\ m' = m1 /\
            forallb (so_caught_up m th g) (seq 0 j) = true)) with (n := n);
    [|lia|exists O; auto].
  intros k i m' (j & -> & Hj & -> & Hall). unfold thr, sizeof_so_thread in *.
  destruct (Z.ltb_spec (Z.of_nat j) (Z.of_nat n)) as [Hlt|Hge]; simpl negb; cbv iota.
  - destruct (Hth j ltac:(lia)) as ([c Hc] & [e He]).
    assert (Hcu : so_caught_up m th g j = (c =? 0) || (e =? g)).
    { unfold so_caught_up, thr, sizeof_so_thread. by rewrite Hc, He. }
    assert (Hstep : forallb (so_caught_up m th g) (seq 0 (S j)) = so_caught_up m th g j).
    { rewrite seq_S, forallb_app, Hall. simpl. by rewrite andb_true_r. }
    unfold m1. psteps. destruct (c =? 0) eqn:Ec; simpl in Hcu |- *.
    + psteps. exists (k - 1)%nat. split; [lia|]. exists (S j). split_and!; auto; [lia|lia|by rewrite Hstep].
    + psteps. destruct (e =? g) eqn:Ee; simpl in Hcu |- *.
      * psteps. exists (k - 1)%nat. split; [lia|]. exists (S j). split_and!; auto; [lia|lia|by rewrite Hstep].
      * psteps. simpl. apply tot_ret.
        replace (forallb (so_caught_up m th g) (seq 0 n)) with false.
        -- simpl. rewrite upd_upd. by apply upd_same.
        -- symmetry. apply not_true_is_false. rewrite forallb_forall. intros HA.
           specialize (HA j ltac:(apply in_seq; lia)). congruence.
  - apply tot_ret. assert (j = n) as -> by lia. rewrite Hall. simpl. unfold m1. psteps.
    rewrite Z.rem_mod_nonneg by lia. rewrite upd_comm, upd_upd by loc_ne.
    rewrite upd_comm by loc_ne. by rewrite (upd_same _ (so, 25)) by mget.
Qed.

(** ** Cleaning keeps the balance of the container *)

Definition clean_cont a (es ls : list Z) : container := Cont (cleaned es (c_heap a, ls)).1 (c_roots a).

(** The objects that left the heap are free, or reused by the runtime. *)
Definition reclaimed (tid : Z) m r a m' r' a' : Prop :=
  (forall p, is_Some (c_heap a !! p) -> c_heap a' !! p = None -> gone tid r' m' p) /\
  (forall b, gone tid r m b -> gone tid r' m' b).

Lemma reclaimed_trans tid m r a m1 r1 a1 m2 r2 a2 :
  reclaimed tid m r a m1 r1 a1 -> reclaimed tid m1 r1 a1 m2 r2 a2 -> reclaimed tid m r a m2 r2 a2.
Proof.
  intros [A1 A2] [B1 B2]. split; [|auto]. intros p Hp Hp2. destruct (c_heap a1 !! p) eqn:E; [apply B1; eauto|]. auto.
Qed.

(** A store to an object of the runtime. *)
Lemma reclaimed_upd tid m r a l v r' : l.1 ∈ owned tid r -> live m l.1 -> owned tid r' = owned tid r ->
  reclaimed tid m r a (upd m l v) r' a.
Proof.
  intros Hl [o Ho] Hr. split; [intros p [c Hp]; congruence|]. unfold gone. rewrite Hr.
  intros b [Hb|Hb]; [|by right]. left. rewrite lookup_upd_ne; [done|]. congruence.
Qed.

Lemma insert_twice_concat {A} (L L' : list (list A)) j e : length L = 3%nat -> length L' = 3%nat -> j <> e -> (j < 3)%nat ->
  (forall i, i <> e -> L' !! i = if decide (i = j) then (fun _ => []) <$> L !! i else L !! i) ->
  <[e := []]> L' = <[e := []]> (<[j := []]> L).
Proof.
  intros HL HL' Hje Hj H. apply list_eq. intros i. destruct (decide (i = e)) as [->|Hie].
  - destruct (decide (e < 3)%nat) as [Hlt|Hge].
    + by rewrite !list_lookup_insert_eq by (rewrite ?length_insert; lia).
    + rewrite !lookup_ge_None_2; [done|rewrite !length_insert; lia..].
  - rewrite !(list_lookup_insert_ne _ e) by done. rewrite H by done. case_decide as E.
    + subst i. rewrite list_lookup_insert_eq by lia. destruct (lookup_lt_is_Some_2 L j) as [x ->]; [lia|done].
    + by rewrite list_lookup_insert_ne.
Qed.

Lemma so_clean_ok fuel tid others G m r a j e es ls k :
  so_inv tid others G m r a -> unfrozen (c_heap a) -> r_limbo r !! j = Some es -> r_limbo r !! e = Some ls ->
  r_epoch r = Z.of_nat e -> j <> e -> mroom (length es + k) m -> (length es < fuel)%nat ->
  tot (so.clean_list fuel tid (r_so r) (thr (r_threads r) (r_index r) (PT_LIMBO + 8 * Z.of_nat j))) m (fun _ m' =>
    exists r' ls', so_inv tid others G m' r' (clean_cont a es.*2 ls.*2) /\ same_rt j e r r' /\
      r_limbo r' !! e = Some ls' /\ ls'.*2 = (cleaned es.*2 (c_heap a, ls.*2)).2 /\ mroom k m' /\ rest_kept r m m' /\
      reclaimed tid m r a m' r' (clean_cont a es.*2 ls.*2)).
Proof.
  intros [S1 S2 S3 S4 S5 S6 S7 S8] Hu Hj He Hep Hje Hk Hf.
  pose proof (lookup_lt_Some _ _ _ Hj) as Hjl. pose proof (ra_three _ _ _ _ S1) as H3.
  set (L2 := concat (<[e := []]> (<[j := []]> (r_limbo r)))).
  assert (HP : concat (r_limbo r) ≡ₚ es ++ ls ++ L2).
  { rewrite (concat_empty _ _ _ Hj). rewrite (concat_empty (<[j := []]> (r_limbo r)) e ls); [done|].
    by rewrite list_lookup_insert_ne. }
  assert (Hc : counted (c_heap a) (es.*2 ++ ls.*2 ++ (L2.*2 ++ others)) (root_objs a)).
  { rewrite HP, !fmap_app in S8. by rewrite <- !app_assoc in S8. }
  eapply tot_mono; [eapply (clean_list_ok fuel tid m r (c_heap a) j e es ls (L2.*2 ++ others) (root_objs a) k); eauto|].
  intros [] m' (r' & ls' & R1 & R2 & R3 & R4 & R5 & R6 & R7 & R8 & [F1 F2 F3 F4 F5]).
  exists r', ls'. split_and!; auto.
  2:{ split; [done|]. intros b Hb. destruct (F5 b Hb) as [|E]; [done|by apply not_elem_of_nil in E]. }
  pose proof (ra_three _ _ _ _ R1) as H3'.
  assert (HP' : concat (r_limbo r') ≡ₚ ls' ++ L2).
  { rewrite (concat_empty _ _ _ R3). unfold L2. rewrite <- (insert_twice_concat (r_limbo r) (r_limbo r') j e); try done; [lia|].
    apply R2. }
  assert (Hout : forall b, live m b -> b ∉ owned tid r -> c_heap a !! b = None ->
    m' !! b = m !! b /\ (b ∉ owned tid r') /\ (cleaned es.*2 (c_heap a, ls.*2)).1 !! b = None).
  { intros b Hl Hb Hh. split_and!; auto.
    - intros E. destruct (F2 b (or_introl E)) as [?|[E2|[c E2]]]; [done| |congruence].
      destruct Hl as [o Ho]. congruence.
    - apply eq_None_not_Some. intros E. apply F3 in E as [c E]. congruence. }
  split; simpl; auto.
  - intros X v HX. destruct (S5 X v HX) as (E1 & E2 & _). rewrite <- (S4 X v HX). destruct X as [b off].
    apply get_lookup_eq, Hout; auto. exact (live_get m (b, off) v (S4 _ _ HX)).
  - intros X v HX. destruct (S5 X v HX) as (E1 & E2 & E3).
    destruct (Hout X.1) as (O1 & O2 & O3); auto. eapply live_get, S4, HX.
  - eapply gc_local; [exact S6|]. intros b Hb. destruct (S7 b Hb). apply Hout; auto. by eapply gc_live.
  - intros b Hb. destruct (S7 b Hb). apply Hout; auto. by eapply gc_live.
  - apply cleaned_counted in Hc; [|done]. rewrite cleaned_app in Hc. simpl in Hc.
    rewrite HP', fmap_app, R4, <- app_assoc. exact Hc.
Qed.

Lemma objs_of_cleaned r r' j e ls' : same_rt j e r r' -> length (r_limbo r) = 3%nat -> length (r_limbo r') = 3%nat ->
  j <> e -> (j < 3)%nat -> (e < 3)%nat -> r_limbo r' !! e = Some ls' ->
  objs_of r' = <[e := ls'.*2]> (<[j := []]> (objs_of r)).
Proof.
  intros (_ & _ & _ & _ & _ & H) HL HL' Hje Hj He Hls. unfold objs_of. apply list_eq. intros i.
  rewrite list_lookup_fmap. destruct (decide (i = e)) as [->|Hie].
  - rewrite Hls, list_lookup_insert_eq; [done|]. rewrite length_insert, length_fmap. lia.
  - rewrite list_lookup_insert_ne by done. rewrite H by done. case_decide as E.
    + subst i. rewrite list_lookup_insert_eq by (rewrite length_fmap; lia).
      destruct (lookup_lt_is_Some_2 (r_limbo r) j) as [x ->]; [lia|done].
    + by rewrite list_lookup_insert_ne, list_lookup_fmap.
Qed.

(** ** The records of the threads *)

Record so_epochs m r (g en mx : Z) : Prop := {
  ee_n : get m (r_so r, GC_N_THREADS) = Some (r_n r);
  ee_epoch : get m (r_so r, GC_EPOCH) = Some g;
  ee_epoch3 : 0 <= g < 3;
  ee_lock : get m (r_so r, GC_LOCK) = Some 0;
  ee_max : get m (r_so r, GC_ENTRY_MAX) = Some mx;
  ee_max_range : 0 < mx < M32 - 1;
  ee_entry : get m (thr (r_threads r) (r_index r) PT_ENTRY) = Some en;
  ee_entry_range : 0 <= en < M32;
  ee_threads : forall i, 0 <= i < r_n r -> is_Some (get m (thr (r_threads r) i PT_IN_CRITICAL)) /\
    is_Some (get m (thr (r_threads r) i PT_LOCAL_EPOCH))
}.

(** The other threads are outside, or inside in epoch [g]. *)
Definition others_caught_up m r (g : Z) : bool :=
  forallb (fun i => (Z.of_nat i =? r_index r) || so_caught_up m (r_threads r) g i) (seq 0 (Z.to_nat (r_n r))).

Lemma others_caught_up_rest m m' r r' g : rest_kept r m m' -> same_ids r r' -> 0 <= r_index r < r_n r ->
  others_caught_up m' r' g = others_caught_up m r g.
Proof.
  intros [_ K2] (_ & I2 & I3 & I4 & _) Hi. unfold others_caught_up. rewrite I2, I3, I4.
  induction (seq 0 (Z.to_nat (r_n r))) as [|i l IH]; [done|]. simpl. rewrite IH. f_equal.
  destruct (Z.eqb_spec (Z.of_nat i) (r_index r)) as [E|E]; [done|]. simpl.
  unfold so_caught_up, thr, sizeof_so_thread. by rewrite !K2 by lia.
Qed.

(** The other threads' records are not the thread's own. *)
Lemma others_caught_up_upd m r off v g : 0 <= r_index r < r_n r -> 0 <= off < 32 ->
  others_caught_up (upd m (thr (r_threads r) (r_index r) off) v) r g = others_caught_up m r g.
Proof.
  intros Hi Ho. unfold others_caught_up. induction (seq 0 (Z.to_nat (r_n r))) as [|i l IH]; [done|].
  simpl. rewrite IH. f_equal. destruct (Z.eqb_spec (Z.of_nat i) (r_index r)) as [E|E]; [done|]. simpl.
  unfold so_caught_up, thr, sizeof_so_thread. by rewrite !get_upd_ne by (intros [=]; lia).
Qed.

Lemma so_epochs_rest m m' r r' g en mx : so_epochs m r g en mx -> rest_kept r m m' -> same_ids r r' ->
  0 <= r_index r < r_n r -> so_epochs m' r' g en mx.
Proof.
  intros [E1 E2 E3 E4 E5 E6 E7 E8 E9] [K1 K2] (I1 & I2 & I3 & I4 & _) Hi.
  split; rewrite ?I1, ?I2, ?I3, ?I4; auto; try (by rewrite (get_lookup_eq m)); unfold thr, sizeof_so_thread in *.
  - rewrite K2 by lia. done.
  - intros i Hi'. rewrite !K2 by lia. auto.
Qed.

(** A field of the thread's record that is no link. *)
Lemma so_inv_threads tid others G m m' r r' a : so_inv tid others G m r a -> rt_at tid None m' r' ->
  (forall b, b <> r_threads r -> m' !! b = m !! b) -> owned tid r' = owned tid r -> r_limbo r' = r_limbo r ->
  so_inv tid others G m' r' a.
Proof.
  intros [S1 S2 S3 S4 S5 S6 S7 S8] Hr Hm Ho Hl.
  assert (Ht : r_threads r ∈ owned tid r) by (right; right; left).
  split; auto.
  - eapply heap_at_lookup; [exact S2|]. intros p Hp. apply Hm. intros ->. by apply (S3 _ Hp).
  - intros p Hp. rewrite Ho. auto.
  - intros X v HX. rewrite <- (S4 X v HX). destruct X as [b off]. apply get_lookup_eq, Hm. intros ->.
    by destruct (S5 _ _ HX).
  - intros X v HX. rewrite Ho. eauto.
  - eapply gc_local; [exact S6|]. intros b Hb. apply Hm. intros ->. by destruct (S7 _ Hb).
  - intros b Hb. rewrite Ho. auto.
  - by rewrite Hl.
Qed.

Lemma so_inv_field tid others G m r a off v : so_inv tid others G m r a -> off = PT_ENTRY \/ off = PT_IN_CRITICAL ->
  so_inv tid others G (upd m (thr (r_threads r) (r_index r) off) v) r a.
Proof.
  intros Hs Ho. eapply so_inv_threads; [exact Hs|..]; auto.
  - unfold thr, sizeof_so_thread. apply rt_at_th; [apply Hs|lia|lia].
  - intros b Hb. by apply lookup_upd_ne.
Qed.

Lemma so_inv_epoch tid others G m r a e : so_inv tid others G m r a -> 0 <= e < 3 ->
  so_inv tid others G (upd m (thr (r_threads r) (r_index r) PT_LOCAL_EPOCH) e) (set_epoch r e) a.
Proof.
  intros Hs He. eapply so_inv_threads; [exact Hs|..]; auto.
  - apply rt_at_set_epoch; [apply Hs|done].
  - intros b Hb. by apply lookup_upd_ne.
Qed.

Lemma others_caught_up_global m r off v g : r_so r <> r_threads r ->
  others_caught_up (upd m (r_so r, off) v) r g = others_caught_up m r g.
Proof.
  intros Hne. unfold others_caught_up. induction (seq 0 (Z.to_nat (r_n r))) as [|i l IH]; [done|].
  simpl. rewrite IH. do 2 f_equal. unfold so_caught_up, thr. by rewrite !get_upd_ne by loc_ne.
Qed.

(** The three fields the entry writes, seen by the others. *)
Lemma so_epochs_field m r g en mx off v en' : so_epochs m r g en mx -> 0 <= r_index r < r_n r ->
  is_struct m (r_threads r) (32 * r_n r) -> r_so r <> r_threads r ->
  off = PT_ENTRY /\ en' = v /\ 0 <= v < M32 \/ (off = PT_IN_CRITICAL \/ off = PT_LOCAL_EPOCH) /\ en' = en ->
  so_epochs (upd m (thr (r_threads r) (r_index r) off) v) r g en' mx.
Proof.
  intros [E1 E2 E3 E4 E5 E6 E7 E8 E9] Hi Hst Hne Ho. unfold thr, sizeof_so_thread in *.
  split; auto; try (by rewrite get_upd_ne by loc_ne); try lia; unfold thr, sizeof_so_thread.
  - destruct Ho as [(-> & -> & _)|(Ho & ->)]; [mget|]. rewrite get_upd_ne; [done|]. intros [=]. lia.
  - intros i Hi'. destruct (E9 i Hi') as [[c Hc] [e He]].
    split; destruct (decide (32 * r_index r + off = 32 * i + 28)) as [Eq|Nq];
      destruct (decide (32 * r_index r + off = 32 * i + 29)) as [Eq2|Nq2]; try lia;
      try (rewrite Eq, get_upd_eq by mlive; eauto); try (rewrite Eq2, get_upd_eq by mlive; eauto);
      rewrite get_upd_ne by (intros [=]; lia); eauto.
Qed.

(** ** Entry and exit *)

(** The epoch a thread enters in: the global one, which it advances itself when
    it has been in its epoch for [entry_max] entries and nobody is behind. *)
Definition entry_epoch (local g en mx : Z) (idle : bool) : Z :=
  if local =? g then if en <? mx then g else if idle then (g + 1) mod 3 else g else g.

Definition entry_count (local g en mx : Z) (idle : bool) : Z :=
  if local =? entry_epoch local g en mx idle then if en <? mx then en + 1 else 1 else 0.

(** The container and the limbo lists afterwards: the list of a new epoch is
    cleaned. *)
Definition entered (e : Z) (L : list (list Z)) a (g' : Z) : container * list (list Z) :=
  if e =? g' then (a, L)
  else
    let es := L !!! Z.to_nat g' in
    let ls := L !!! Z.to_nat e in
    (clean_cont a es ls, <[Z.to_nat e := (cleaned es (c_heap a, ls)).2]> (<[Z.to_nat g' := []]> L)).

Definition in_critical m r (v : Z) : Prop := get m (thr (r_threads r) (r_index r) PT_IN_CRITICAL) = Some v.

(** Joining a new epoch. *)
Lemma join_ok fuel tid others G m r a g en mx k :
  so_inv tid others G m r a -> so_epochs m r g en mx -> in_critical m r 1 -> unfrozen (c_heap a) ->
  r_epoch r <> g -> mroom (length (pending r) + k) m -> (length (pending r) < fuel)%nat ->
  tot (so.clean_list fuel tid (r_so r) (thr (r_threads r) (r_index r) (PT_LIMBO + 8 * g)) ;;
       store (thr (r_threads r) (r_index r) PT_LOCAL_EPOCH) g ;;
       store (thr (r_threads r) (r_index r) PT_ENTRY) 0) m (fun _ m' => exists r' a',
    so_inv tid others G m' r' a' /\ so_epochs m' r' g 0 mx /\ r_epoch r' = g /\ in_critical m' r' 1 /\
    (a', objs_of r') = entered (r_epoch r) (objs_of r) a g /\ mroom k m' /\ reclaimed tid m r a m' r' a' /\
    r_so r' = r_so r /\ forall g, others_caught_up m' r' g = others_caught_up m r g).
Proof.
  intros Hs He Hc Hu Hne Hk Hf. pose proof (ee_epoch3 _ _ _ _ _ He) as Hg.
  pose proof (ra_epoch3 _ _ _ _ (si_rt _ _ _ _ _ _ Hs)) as Hl. pose proof (ra_three _ _ _ _ (si_rt _ _ _ _ _ _ Hs)) as H3.
  destruct (lookup_lt_is_Some_2 (r_limbo r) (Z.to_nat g)) as [es Hes]; [lia|].
  destruct (lookup_lt_is_Some_2 (r_limbo r) (Z.to_nat (r_epoch r))) as [ls Hls]; [lia|].
  assert (Hlen : (length es <= length (pending r))%nat).
  { unfold pending. rewrite (concat_empty _ _ _ Hes), fmap_app, length_app, !length_fmap. lia. }
  pose proof (so_clean_ok fuel tid others G m r a (Z.to_nat g) (Z.to_nat (r_epoch r)) es ls k Hs Hu Hes Hls) as Hcl.
  rewrite !Z2Nat.id in Hcl by lia. apply tot_bind. eapply tot_mono; [apply Hcl; [done|lia| |lia]|].
  { eapply mroom_mono; [exact Hk|lia]. }
  intros [] m1 (r1 & ls1 & R1 & R2 & R3 & R4 & R5 & R6 & R7). pose proof R2 as (I1 & I2 & I3 & I4 & I5 & _).
  assert (Hid : same_ids r r1) by (unfold same_ids; auto).
  pose proof (si_rt _ _ _ _ _ _ R1) as Hrt. pose proof (ra_array _ _ _ _ Hrt) as Har.
  pose proof (ra_range _ _ _ _ Hrt) as Hra. destruct (owned_ne _ _ _ _ Hrt) as (_ & _ & N3 & _).
  pose proof (ra_range _ _ _ _ (si_rt _ _ _ _ _ _ Hs)) as Hra0.
  pose proof (so_epochs_rest _ _ _ _ _ _ _ He R6 Hid Hra0) as He1.
  rewrite <- I2, <- I4. apply tot_bind. eapply tot_store.
  { eapply is_struct_inb; [exact Har|]. unfold sizeof_so_thread. lia. }
  eapply tot_store.
  { rewrite inb_upd. eapply is_struct_inb; [exact Har|]. unfold sizeof_so_thread. lia. }
  exists (set_epoch r1 g), (clean_cont a es.*2 ls.*2). split_and!.
  - apply (so_inv_field tid others G _ (set_epoch r1 g)); [|by left]. by apply so_inv_epoch.
  - apply (so_epochs_field _ (set_epoch r1 g) g en mx); simpl; auto.
    + eapply (so_epochs_field _ (set_epoch r1 g)); simpl; auto.
      destruct He1. split; auto.
    + by rewrite is_struct_upd.
    + left. by split_and!.
  - done.
  - unfold in_critical, thr, sizeof_so_thread in *. simpl. rewrite !get_upd_ne by (intros [=]; lia).
    rewrite I2, I4. destruct R6 as [_ K2]. rewrite K2 by lia. done.
  - unfold entered. rewrite (proj2 (Z.eqb_neq _ _) Hne). cbv zeta.
    rewrite (list_lookup_total_correct (objs_of r) (Z.to_nat g) es.*2) by (unfold objs_of; by rewrite list_lookup_fmap, Hes).
    rewrite (list_lookup_total_correct (objs_of r) (Z.to_nat (r_epoch r)) ls.*2)
      by (unfold objs_of; by rewrite list_lookup_fmap, Hls). f_equal.
    rewrite <- R4. pose proof (ra_three _ _ _ _ Hrt). apply (objs_of_cleaned r r1); auto; lia.
  - by repeat apply mroom_upd.
  - eapply reclaimed_trans; [exact R7|].
    apply (reclaimed_trans tid m1 r1 _ (upd m1 (thr (r_threads r1) (r_index r1) PT_LOCAL_EPOCH) g) (set_epoch r1 g)
      (clean_cont a es.*2 ls.*2)); apply reclaimed_upd; simpl; rewrite ?live_upd; auto;
      first [by eapply is_struct_live|right; right; left].
  - done.
  - intros g0. change (thr (r_threads r1) (r_index r1) PT_ENTRY) with (thr (r_threads (set_epoch r1 g)) (r_index (set_epoch r1 g)) PT_ENTRY).
    rewrite others_caught_up_upd by (simpl; lia).
    change (others_caught_up (upd m1 (thr (r_threads (set_epoch r1 g)) (r_index (set_epoch r1 g)) PT_LOCAL_EPOCH) g) (set_epoch r1 g) g0
      = others_caught_up m r g0).
    rewrite others_caught_up_upd by (simpl; lia).
    change (others_caught_up m1 (set_epoch r1 g) g0) with (others_caught_up m1 r1 g0). by apply others_caught_up_rest.
Qed.

(** The global epoch is advanced. *)
Lemma so_inv_global tid others G m r a g : so_inv tid others G m r a ->
  so_inv tid others G (upd m (r_so r, GC_EPOCH) g) r a.
Proof.
  intros [S1 S2 S3 S4 S5 S6 S7 S8]. destruct (owned_ne _ _ _ _ S1) as (N1 & N2 & N3 & N4).
  assert (Hso : r_so r ∈ owned tid r) by (right; left).
  assert (Hm : forall b, b <> r_so r -> upd m (r_so r, GC_EPOCH) g !! b = m !! b) by (intros; by apply lookup_upd_ne).
  split; auto.
  - pose proof (ra_limbo _ _ _ _ S1) as HL. pose proof (ra_pool _ _ _ _ S1) as HP.
    destruct S1. unfold thr in *. split; unfold thr; auto; try (by rewrite is_struct_upd);
      try (by rewrite get_upd_ne by loc_ne).
    + intros i w Hi. rewrite is_struct_upd, get_upd_ne by loc_ne. auto.
    + intros j es Hj Hsk. destruct (HL j es Hj Hsk) as (h & G1 & G2). exists h.
      rewrite get_upd_ne by loc_ne. split; [done|]. eapply wlist_lookup; [|exact G2].
      intros b Hb. apply Hm, N4. by eapply limbo_wrapper.
  - eapply heap_at_lookup; [exact S2|]. intros p Hp. apply Hm. intros ->. by apply (S3 _ Hp).
  - intros X v HX. rewrite <- (S4 X v HX). destruct X as [b off]. apply get_lookup_eq, Hm. intros ->.
    by destruct (S5 _ _ HX).
  - eapply gc_local; [exact S6|]. intros b Hb. apply Hm. intros ->. by destruct (S7 _ Hb).
Qed.

Lemma so_epochs_global m r g en mx g' : so_epochs m r g en mx -> is_struct m (r_so r) sizeof_so_gc ->
  r_so r <> r_threads r -> 0 <= g' < 3 -> so_epochs (upd m (r_so r, GC_EPOCH) g') r g' en mx.
Proof.
  intros [E1 E2 E3 E4 E5 E6 E7 E8 E9] Hs Hne Hg. unfold thr in *.
  split; auto; unfold thr; try (by rewrite get_upd_ne by loc_ne); [mget|].
  intros i Hi. rewrite !get_upd_ne by loc_ne. auto.
Qed.

(** The thread itself is outside while it looks at the others. *)
Lemma caught_up_others m r g : 0 <= r_index r < r_n r -> in_critical m r 0 ->
  is_Some (get m (thr (r_threads r) (r_index r) PT_LOCAL_EPOCH)) ->
  forallb (so_caught_up m (r_threads r) g) (seq 0 (Z.to_nat (r_n r))) = others_caught_up m r g.
Proof.
  intros Hi Hc [e He]. unfold others_caught_up. induction (seq 0 (Z.to_nat (r_n r))) as [|i l IH]; [done|].
  simpl. rewrite IH. f_equal. destruct (Z.eqb_spec (Z.of_nat i) (r_index r)) as [E|_]; [|done].
  unfold so_caught_up. rewrite E. unfold in_critical in Hc. by rewrite Hc, He.
Qed.

(** What the entry did, with the loop left. *)
Definition entry_post tid others G m r a (g en mx : Z) (idle : bool) k m' : Prop := exists r' a',
  so_inv tid others G m' r' a' /\
  so_epochs m' r' (entry_epoch (r_epoch r) g en mx idle) (entry_count (r_epoch r) g en mx idle) mx /\
  r_epoch r' = entry_epoch (r_epoch r) g en mx idle /\ in_critical m' r' 1 /\
  (a', objs_of r') = entered (r_epoch r) (objs_of r) a (entry_epoch (r_epoch r) g en mx idle) /\ mroom k m' /\
  reclaimed tid m r a m' r' a' /\ r_so r' = r_so r /\ forall g, others_caught_up m' r' g = others_caught_up m r g.

(** The body of the loop in an epoch that is not the thread's. *)
Lemma join_break fuel tid others G m r a g en mx k (Q : unit + unit -> mem -> Prop) :
  so_inv tid others G m r a -> so_epochs m r g en mx -> in_critical m r 1 -> unfrozen (c_heap a) ->
  r_epoch r <> g -> mroom (length (pending r) + k) m -> (length (pending r) < fuel)%nat ->
  (forall m' r' a', so_inv tid others G m' r' a' -> so_epochs m' r' g 0 mx -> r_epoch r' = g ->
     in_critical m' r' 1 -> (a', objs_of r') = entered (r_epoch r) (objs_of r) a g -> mroom k m' ->
     reclaimed tid m r a m' r' a' -> r_so r' = r_so r -> (forall g, others_caught_up m' r' g = others_caught_up m r g) -> Q (inr tt) m') ->
  tot (so.clean_list fuel tid (r_so r) (thr (r_threads r) (r_index r) (PT_LIMBO + 8 * g)) ;;
       store (thr (r_threads r) (r_index r) PT_LOCAL_EPOCH) g ;;
       store (thr (r_threads r) (r_index r) PT_ENTRY) 0 ;;
       break tt) m Q.
Proof.
  intros Hs He Hc Hu Hne Hk Hf HQ. pose proof (join_ok fuel tid others G m r a g en mx k Hs He Hc Hu Hne Hk Hf) as J.
  apply tot_bind_inv in J. apply tot_bind. eapply tot_mono; [exact J|]. intros [] m2 J2.
  apply tot_bind_inv in J2. apply tot_bind. eapply tot_mono; [exact J2|]. intros [] m3 J3.
  apply tot_bind. eapply tot_mono; [exact J3|]. intros [] m4 (r' & a' & R1 & R2 & R3 & R4 & R5 & R6 & R7 & R8 & R9).
  apply tot_ret. by eapply HQ.
Qed.

Lemma next_epoch_ne g : 0 <= g < 3 -> (g + 1) mod 3 <> g /\ 0 <= (g + 1) mod 3 < 3.
Proof. intros. Z.to_euclidean_division_equations. lia. Qed.

(** One round of the loop. *)
Definition entry_round (fuel : nat) (tid : Z) r : prog mem (unit + unit) :=
  store (thr (r_threads r) (r_index r) PT_IN_CRITICAL) 1 ;;
  global_epoch <- load (r_so r, GC_EPOCH) ;;
  if negb (r_epoch r =? global_epoch) then
    so.clean_list fuel tid (r_so r) (thr (r_threads r) (r_index r) (PT_LIMBO + 8 * global_epoch)) ;;
    store (thr (r_threads r) (r_index r) PT_LOCAL_EPOCH) global_epoch ;;
    store (thr (r_threads r) (r_index r) PT_ENTRY) 0 ;;
    break tt
  else
    entry <- load (thr (r_threads r) (r_index r) PT_ENTRY) ;;
    store (thr (r_threads r) (r_index r) PT_ENTRY) (u32 (entry + 1)) ;;
    entry_max <- load (r_so r, GC_ENTRY_MAX) ;;
    if entry <? entry_max then break tt
    else
      store (thr (r_threads r) (r_index r) PT_IN_CRITICAL) 0 ;;
      store (thr (r_threads r) (r_index r) PT_ENTRY) 0 ;;
      so.update_epoch (r_so r) ;;
      continue tt.

Lemma entry_round_ok fuel tid others G m r a g en mx k (Q : unit + unit -> mem -> Prop) :
  so_inv tid others G m r a -> so_epochs m r g en mx -> unfrozen (c_heap a) ->
  mroom (length (pending r) + k) m -> (length (pending r) < fuel)%nat ->
  (forall m' r' a', r_epoch r <> g -> so_inv tid others G m' r' a' -> so_epochs m' r' g 0 mx -> r_epoch r' = g ->
     in_critical m' r' 1 -> (a', objs_of r') = entered (r_epoch r) (objs_of r) a g -> mroom k m' ->
     reclaimed tid m r a m' r' a' -> r_so r' = r_so r -> (forall g, others_caught_up m' r' g = others_caught_up m r g) -> Q (inr tt) m') ->
  (forall m', r_epoch r = g -> en < mx -> so_inv tid others G m' r a -> so_epochs m' r g (en + 1) mx ->
     in_critical m' r 1 -> mroom (length (pending r) + k) m' -> reclaimed tid m r a m' r a ->
     (forall g, others_caught_up m' r g = others_caught_up m r g) -> Q (inr tt) m') ->
  (forall m', r_epoch r = g -> mx <= en -> so_inv tid others G m' r a ->
     so_epochs m' r (if others_caught_up m r g then (g + 1) mod 3 else g) 0 mx ->
     mroom (length (pending r) + k) m' -> reclaimed tid m r a m' r a ->
     (forall g, others_caught_up m' r g = others_caught_up m r g) -> Q (inl tt) m') ->
  tot (entry_round fuel tid r) m Q.
Proof.
  intros Hs He Hu Hk Hf Q1 Q2 Q3. unfold entry_round.
  pose proof (si_rt _ _ _ _ _ _ Hs) as Hrt. pose proof (ra_array _ _ _ _ Hrt) as Har.
  pose proof (ra_range _ _ _ _ Hrt) as Hra. destruct (owned_ne _ _ _ _ Hrt) as (_ & _ & N3 & _).
  pose proof (ra_so _ _ _ _ Hrt) as Hso. pose proof (ra_threads _ _ _ _ Hrt) as Hth.
  assert (Hinb : forall m' off, is_struct m' (r_threads r) (32 * r_n r) -> 0 <= off < 32 ->
    inb m' (thr (r_threads r) (r_index r) off) = true).
  { intros m' off Hst Ho. eapply is_struct_inb; [exact Hst|]. unfold sizeof_so_thread. lia. }
  assert (Hrc : forall m' off v, is_struct m' (r_threads r) (32 * r_n r) ->
    reclaimed tid m' r a (upd m' (thr (r_threads r) (r_index r) off) v) r a).
  { intros m' off v Hst. apply reclaimed_upd; [right; right; left| |done]. simpl. by eapply is_struct_live. }
  pose proof (so_inv_field _ _ _ _ _ _ PT_IN_CRITICAL 1 Hs ltac:(auto)) as Hs1.
  pose proof (so_epochs_field _ _ _ _ _ PT_IN_CRITICAL 1 en He Hra Har N3 ltac:(auto)) as He1.
  apply tot_bind. eapply tot_store; [apply Hinb; [done|lia]|].
  set (m1 := upd m (thr (r_threads r) (r_index r) PT_IN_CRITICAL) 1) in *.
  assert (Har1 : is_struct m1 (r_threads r) (32 * r_n r)) by (by apply is_struct_upd).
  assert (Hc1 : in_critical m1 r 1) by (apply get_upd_eq; simpl; by eapply is_struct_live).
  apply tot_bind. eapply tot_load; [apply He1|]. destruct (Z.eqb_spec (r_epoch r) g) as [E|E]; simpl negb; cbv iota.
  2:{ eapply join_break; eauto; [by apply mroom_upd|]. intros m' r' a' J1 J2 J3 J4 J5 J6 J7 J7' J8.
      apply (Q1 m' r' a'); auto; [eapply reclaimed_trans; [by apply Hrc|exact J7]|].
      intros g0. rewrite J8. by apply others_caught_up_upd. }
  pose proof (u32_range (en + 1)) as Hur.
  apply tot_bind. eapply tot_load; [apply He1|]. apply tot_bind. eapply tot_store; [apply Hinb; [done|lia]|].
  pose proof (so_inv_field _ _ _ _ _ _ PT_ENTRY (u32 (en + 1)) Hs1 ltac:(auto)) as Hs2.
  pose proof (so_epochs_field _ _ _ _ _ PT_ENTRY (u32 (en + 1)) _ He1 Hra Har1 N3 ltac:(auto)) as He2.
  set (m2 := upd m1 (thr (r_threads r) (r_index r) PT_ENTRY) (u32 (en + 1))) in *.
  assert (Har2 : is_struct m2 (r_threads r) (32 * r_n r)) by (by apply is_struct_upd).
  apply tot_bind. eapply tot_load; [apply He2|]. pose proof (ee_max_range _ _ _ _ _ He) as Hmx.
  pose proof (ee_entry_range _ _ _ _ _ He) as Hen.
  destruct (Z.ltb_spec en mx) as [Hlt|Hge].
  - apply tot_ret. rewrite u32_small in He2 by lia. apply Q2; auto; [|by repeat apply mroom_upd| |].
    + unfold in_critical, m2. rewrite get_upd_ne; [exact Hc1|]. unfold thr. intros [=]. lia.
    + eapply reclaimed_trans; [apply Hrc|apply Hrc]; auto.
    + intros g0. unfold m2, m1. by rewrite !others_caught_up_upd by lia.
  - apply tot_bind. eapply tot_store; [apply Hinb; [done|lia]|].
    pose proof (so_inv_field _ _ _ _ _ _ PT_IN_CRITICAL 0 Hs2 ltac:(auto)) as Hs3.
    pose proof (so_epochs_field _ _ _ _ _ PT_IN_CRITICAL 0 _ He2 Hra Har2 N3 ltac:(auto)) as He3.
    set (m3 := upd m2 (thr (r_threads r) (r_index r) PT_IN_CRITICAL) 0) in *.
    assert (Har3 : is_struct m3 (r_threads r) (32 * r_n r)) by (by apply is_struct_upd).
    apply tot_bind. eapply tot_store; [apply Hinb; [done|lia]|].
    pose proof (so_inv_field _ _ _ _ _ _ PT_ENTRY 0 Hs3 ltac:(auto)) as Hs4.
    pose proof (so_epochs_field _ _ _ _ _ PT_ENTRY 0 0 He3 Hra Har3 N3 ltac:(left; by split_and!)) as He4.
    set (m4 := upd m3 (thr (r_threads r) (r_index r) PT_ENTRY) 0) in *.
    pose proof (si_rt _ _ _ _ _ _ Hs4) as Hrt4.
    assert (Hc4 : in_critical m4 r 0).
    { unfold in_critical, m4. rewrite get_upd_ne by (unfold thr; intros [=]; lia).
      apply get_upd_eq. simpl. by eapply is_struct_live. }
    assert (Hoc : forall g0, others_caught_up m4 r g0 = others_caught_up m r g0).
    { intros g0. unfold m4, m3, m2, m1. by rewrite !others_caught_up_upd by lia. }
    assert (Hrc4 : reclaimed tid m r a m4 r a).
    { do 3 (eapply reclaimed_trans; [|apply Hrc]; [|auto]). by apply Hrc. }
    assert (Hk4 : mroom (length (pending r) + k) m4) by (by repeat apply mroom_upd).
    apply tot_bind. eapply tot_mono.
    { eapply (so_update_epoch_ok m4 (r_so r) (r_threads r) (Z.to_nat (r_n r)) g 0); try apply Hrt4; try apply He4; auto.
      - rewrite Z2Nat.id by lia. apply He4.
      - intros i Hi. apply (ee_threads _ _ _ _ _ He4). lia. }
    intros [] m5 ->. apply tot_ret. rewrite caught_up_others, Hoc; [|done|done|by apply (ee_threads _ _ _ _ _ He4)].
    simpl andb. destruct (others_caught_up m r g) eqn:Eo; apply Q3; auto.
    + by apply so_inv_global.
    + apply (so_epochs_global m4 r g); auto; [apply Hrt4|]. by apply next_epoch_ne, He.
    + by apply mroom_upd.
    + eapply reclaimed_trans; [exact Hrc4|]. apply reclaimed_upd; [right; left| |done].
      simpl. eapply is_struct_live, Hrt4.
    + intros g0. rewrite <- Hoc. eapply others_caught_up_global. exact N3.
Qed.

(** [so_lockfree_on_entry] returns, in at most two rounds; then the thread is
    inside in the global epoch, and the counts are balanced. *)
Lemma so_entry_ok fuel tid others G m r a this g en mx k :
  so_inv tid others G m r a -> so_epochs m r g en mx -> so_gc_of this = r_so r ->
  unfrozen (c_heap a) -> mroom (length (pending r) + k) m -> (length (pending r) + 1 < fuel)%nat ->
  tot (so.so_lockfree_on_entry fuel tid this) m (fun _ m' =>
    entry_post tid others G m r a g en mx (others_caught_up m r g) k m').
Proof.
  intros Hs He Ht Hu Hk Hf. unfold so.so_lockfree_on_entry. cbv zeta. rewrite Ht.
  pose proof (si_rt _ _ _ _ _ _ Hs) as Hrt. pose proof (ee_max_range _ _ _ _ _ He) as Hmx.
  apply tot_bind. eapply tot_load; [apply Hrt|]. apply tot_bind. eapply tot_load; [apply Hrt|].
  apply tot_bind. eapply tot_load; [apply Hrt|].
  change (tot (loop fuel (fun _ : unit => entry_round fuel tid r) tt) m
    (fun _ m' => entry_post tid others G m r a g en mx (others_caught_up m r g) k m')).
  assert (Hf1 : (length (pending r) < fuel)%nat) by lia.
  destruct fuel as [|[|f]]; [lia|lia|]. set (fuel := S (S f)) in *. unfold fuel at 1.
  assert (Hkk : forall m', mroom (length (pending r) + k) m' -> mroom k m') by (intros; eapply mroom_mono; [eassumption|lia]).
  apply tot_loop_S. eapply entry_round_ok; eauto.
  - intros m' r' a' E R1 R2 R3 R4 R5 R6 R7 R8 R9. exists r', a'.
    assert (E1 : entry_epoch (r_epoch r) g en mx (others_caught_up m r g) = g).
    { unfold entry_epoch. by rewrite (proj2 (Z.eqb_neq _ _) E). }
    unfold entry_count. rewrite E1, (proj2 (Z.eqb_neq _ _) E). split_and!; auto.
  - intros m' E Hlt R1 R2 R3 R4 R5 R6. exists r, a.
    assert (E1 : entry_epoch (r_epoch r) g en mx (others_caught_up m r g) = g).
    { unfold entry_epoch. by rewrite E, Z.eqb_refl, (proj2 (Z.ltb_lt en mx) Hlt). }
    unfold entry_count, entered. rewrite E1, E, Z.eqb_refl, (proj2 (Z.ltb_lt en mx) Hlt). split_and!; auto.
  - intros m1 E Hge R1 R2 R3 R4 R5. pose proof (proj2 (Z.ltb_ge en mx) Hge) as Hlt.
    assert (E1 : entry_epoch (r_epoch r) g en mx (others_caught_up m r g) =
      if others_caught_up m r g then (g + 1) mod 3 else g).
    { unfold entry_epoch. by rewrite E, Z.eqb_refl, Hlt. }
    destruct (others_caught_up m r g) eqn:Eo.
    + pose proof (next_epoch_ne g ltac:(apply He)) as [Hng _]. assert (Hng' : r_epoch r <> (g + 1) mod 3) by congruence.
      apply tot_loop_S. eapply entry_round_ok; eauto; try (intros; congruence).
      intros m' r' a' _ J1 J2 J3 J4 J5 J6 J7 J7' J8. exists r', a'. unfold entry_count.
      rewrite E1, (proj2 (Z.eqb_neq _ _) Hng'). split_and!; auto; [by eapply reclaimed_trans|].
      intros g0. by rewrite J8, R5.
    + apply tot_loop_S. eapply entry_round_ok; eauto; try (intros; congruence).
      * intros m' _ _ J1 J2 J3 J4 J5 J6. exists r, a. unfold entry_count, entered.
        rewrite E1, E, Z.eqb_refl, Hlt. split_and!; auto; [by eapply reclaimed_trans|].
        intros g0. by rewrite J6, R5.
      * intros m' _ Hle. lia.
Qed.

(** Leaving the container: the thread is outside, nothing else changes. *)
Lemma so_exit_ok tid others G m r a this g en mx :
  so_inv tid others G m r a -> so_epochs m r g en mx -> so_gc_of this = r_so r ->
  tot (so.so_lockfree_on_exit tid this) m (fun _ m' =>
    so_inv tid others G m' r a /\ so_epochs m' r g en mx /\ in_critical m' r 0 /\ room_kept m m' /\
    reclaimed tid m r a m' r a /\ forall g, others_caught_up m' r g = others_caught_up m r g).
Proof.
  intros Hs He Ht. unfold so.so_lockfree_on_exit. rewrite Ht. pose proof (si_rt _ _ _ _ _ _ Hs) as Hrt.
  pose proof (ra_array _ _ _ _ Hrt) as Har. pose proof (ra_range _ _ _ _ Hrt) as Hra.
  destruct (owned_ne _ _ _ _ Hrt) as (_ & _ & N3 & _).
  apply tot_bind. eapply tot_load; [apply Hrt|]. apply tot_bind. eapply tot_load; [apply Hrt|].
  eapply tot_store; [eapply is_struct_inb; [exact Har|unfold sizeof_so_thread; lia]|]. split_and!.
  - apply so_inv_field; auto.
  - eapply so_epochs_field; eauto.
  - apply get_upd_eq. simpl. by eapply is_struct_live.
  - apply room_upd.
  - apply reclaimed_upd; [right; right; left| |done]. simpl. by eapply is_struct_live.
  - intros g0. by apply others_caught_up_upd.
Qed.
End epochs.
