(* ===== verification/SoMachine.v ===== *)
(** * Shared objects as a state machine

    The container of encore/shared_object.c as its clients see it: the counted
    objects and their links, the pending decrements of the thread's three limbo
    lists, and the epochs.  A sequence of calls by one thread that respects the
    rules of [st_legal] runs as the machine says. *)
From S2P Require Export SoEntry.

Inductive so_op : Set :=
| OEnter
| OExit
| OLink (X : loc) (y z : Z)
| OUnlink (X : loc) (y z : Z)
| OSwap (X : loc) (y z : Z)
| OTry (X : loc) (z : Z).

(** The calls of the generated code, one after the other, and their answers. *)
Definition so_call `{Malloc, !Gc} (fuel : nat) (tid ctx this : Z) (op : so_op) : prog mem bool :=
  match op with
  | OEnter => so.so_lockfree_on_entry fuel tid this ;; Ret true
  | OExit => so.so_lockfree_on_exit tid this ;; Ret true
  | OLink X y z => so._so_lockfree_cas_link_wrapper tid ctx this X y z
  | OUnlink X y z => so._so_lockfree_cas_unlink_wrapper tid ctx this X y z
  | OSwap X y z => so._so_lockfree_cas_swap_wrapper tid ctx this X y z
  | OTry X z => so._so_lockfree_cas_try_wrapper ctx this X NULL z
  end.

Fixpoint so_calls `{Malloc, !Gc} (fuel : nat) (tid ctx this : Z) (ops : list so_op) : prog mem (list bool) :=
  match ops with
  | [] => Ret []
  | op :: ops' =>
      b <- so_call fuel tid ctx this op ;;
      bs <- so_calls fuel tid ctx this ops' ;;
      Ret (b :: bs)
  end.

(** ** The machine *)

Record so_state : Type := St {
  st_cont : container; st_limbo : list (list Z); st_epoch : Z; st_global : Z; st_entries : Z }.

(** A compare-and-swap of the link at [X] that expects [y]; [lost] is queued when
    it fails, [y] when it succeeds. *)
Definition st_cas (s : so_state) (X : loc) (y : Z) (won lost : container) (dy dz : Z) : so_state * bool :=
  let ok := bool_decide (link_at (st_cont s) X = Some y) in
  (St (if ok then won else lost) (push_ref (Z.to_nat (st_epoch s)) (if ok then dy else dz) (st_limbo s))
     (st_epoch s) (st_global s) (st_entries s), ok).

Definition st_step (mx : Z) (idle : Z -> bool) (s : so_state) (op : so_op) : so_state * bool :=
  let a := st_cont s in
  match op with
  | OEnter =>
      let i := idle (st_global s) in
      let g := entry_epoch (st_epoch s) (st_global s) (st_entries s) mx i in
      let t := entered (st_epoch s) (st_limbo s) a g in
      (St t.1 t.2 g g (entry_count (st_epoch s) (st_global s) (st_entries s) mx i), true)
  | OExit => (s, true)
  | OLink X y z | OSwap X y z => st_cas s X y (set_link (with_rc a z 1) X z) a y NULL
  | OUnlink X y z => st_cas s X y (set_link (with_rc a z 1) X z) (with_rc a z 1) y z
  | OTry X z => st_cas s X NULL (set_link (with_rc a (UNFREEZE z) 1) X z) a NULL NULL
  end.

(** What the caller has to respect: links and objects of the container, no frozen
    pointer where a pointer is expected, no frozen link in an object that may be
    reclaimed. *)
Definition st_legal (s : so_state) (op : so_op) : Prop :=
  let a := st_cont s in
  match op with
  | OEnter => unfrozen (c_heap a)
  | OExit => True
  | OLink X y z | OSwap X y z | OUnlink X y z =>
      X.1 <> NULL /\ is_Some (link_at a X) /\ can_ref a z /\ UNFREEZE z = z /\ UNFREEZE y = y
  | OTry X z => X.1 <> NULL /\ is_Some (link_at a X) /\ can_ref a (UNFREEZE z)
  end.

(** The allocations an operation may need, and a bound on its loops. *)
Definition st_cost (gc : nat) (s : so_state) (op : so_op) : nat :=
  match op with OEnter => length (concat (st_limbo s)) | OExit => 0 | _ => gc + gc + 1 end.

Fixpoint st_run (mx : Z) (idle : Z -> bool) (s : so_state) (ops : list so_op) : so_state * list bool :=
  match ops with
  | [] => (s, [])
  | op :: ops' =>
      let t := st_step mx idle s op in
      let u := st_run mx idle t.1 ops' in (u.1, t.2 :: u.2)
  end.

Fixpoint st_legals (mx : Z) (idle : Z -> bool) (fuel : nat) (s : so_state) (ops : list so_op) : Prop :=
  match ops with
  | [] => True
  | op :: ops' => st_legal s op /\ (length (concat (st_limbo s)) + 1 < fuel)%nat /\
      st_legals mx idle fuel (st_step mx idle s op).1 ops'
  end.

Fixpoint st_costs (mx : Z) (idle : Z -> bool) (gc : nat) (s : so_state) (ops : list so_op) : nat :=
  match ops with
  | [] => 0
  | op :: ops' => st_cost gc s op + st_costs mx idle gc (st_step mx idle s op).1 ops'
  end.

(** The rules are decidable. *)
#[export] Instance unfrozen_dec H : Decision (unfrozen H).
Proof.
  apply (@map_Forall_dec _ _ _ _ _ _ _ _ _ _ _ _ (fun _ c => UNFREEZE (cfld c) = cfld c)).
  intros p c. apply (decide (UNFREEZE (cfld c) = cfld c)).
Defined.

#[export] Instance can_ref_dec a p : Decision (can_ref a p).
Proof.
  unfold can_ref. destruct (decide (p = NULL)) as [|Hp]; [left; by left|].
  destruct (c_heap a !! p) as [c|] eqn:E.
  - destruct (decide (crc c + 1 < M32)) as [Hc|Hc]; [left; eauto|].
    right. intros [?|(c' & E' & ?)]; [done|]. by simplify_eq.
  - right. intros [?|(c' & E' & _)]; [done|]. by simplify_eq.
Defined.

#[export] Instance st_legal_dec s op : Decision (st_legal s op).
Proof. destruct op; simpl; apply _. Defined.

#[export] Instance st_legals_dec mx idle fuel s ops : Decision (st_legals mx idle fuel s ops).
Proof. revert s. induction ops as [|op ops IH]; intros s; simpl; apply _. Defined.

Section machine.
Context `{HM : Malloc, HR : !MallocRoom, HG : !Gc, HGL : !GcLaws}.
Implicit Types (m : mem) (r : rt) (a : container) (s : so_state).

(** The memory is in state [s]; [idle g]: every other thread is outside, or in
    epoch [g].  The other threads do not move while this one makes its calls, so
    that [idle] stays the same. *)
Definition st_at (tid this : Z) (others : list Z) (mx : Z) (idle : Z -> bool) m r s : Prop :=
  (exists G, so_inv tid others G m r (st_cont s)) /\ so_epochs m r (st_global s) (st_entries s) mx /\
  so_gc_of this = r_so r /\ r_epoch r = st_epoch s /\ objs_of r = st_limbo s /\
  forall g, others_caught_up m r g = idle g.

Lemma pending_length r s : objs_of r = st_limbo s -> length (pending r) = length (concat (st_limbo s)).
Proof.
  intros <-. unfold pending, objs_of. induction (r_limbo r) as [|l L IH]; [done|]. simpl.
  rewrite fmap_app, !length_app, IH, length_fmap. done.
Qed.

(** One call: the machine's answer and its next state. *)
Lemma so_call_ok fuel tid ctx this others mx idle m r s op k :
  st_at tid this others mx idle m r s -> st_legal s op -> (length (concat (st_limbo s)) + 1 < fuel)%nat ->
  mroom (st_cost gc_cost s op + k) m ->
  tot (so_call fuel tid ctx this op) m (fun b m' => b = (st_step mx idle s op).2 /\ mroom k m' /\
    exists r', st_at tid this others mx idle m' r' (st_step mx idle s op).1 /\
      (op = OEnter \/ op = OExit -> reclaimed tid m r (st_cont s) m' r' (st_cont (st_step mx idle s op).1))).
Proof.
  intros ((G & Hs) & He & Ht & Hep & Hl & Hid) Hleg Hf Hk. pose proof (pending_length r s Hl) as Hp.
  pose proof (si_rt _ _ _ _ _ _ Hs) as Hrt. pose proof (ra_range _ _ _ _ Hrt) as Hra.
  assert (Hcas : forall X y won lost dy dz ret v m', ret = (v =? y) -> link_at (st_cont s) X = Some v ->
    outcome_ok tid others r k m (if ret then won else lost) (if ret then dy else dz) m' ->
    ret = (st_cas s X y won lost dy dz).2 /\ mroom k m' /\
    exists r', st_at tid this others mx idle m' r' (st_cas s X y won lost dy dz).1).
  { intros X y won lost dy dz ret v m' -> HX (G' & r' & R1 & R2 & R3 & R4 & R5). unfold st_cas. rewrite HX. simpl.
    assert (E : bool_decide (Some v = Some y) = (v =? y)).
    { destruct (Z.eqb_spec v y) as [->|Hn]; [by apply bool_decide_true|apply bool_decide_false; congruence]. }
    rewrite E. split; [done|]. split; [done|]. exists r'. pose proof R2 as (I1 & _ & _ & _ & I5). split_and!.
    - exists G'. simpl. by destruct (v =? y).
    - eapply so_epochs_rest; eauto.
    - congruence.
    - simpl. congruence.
    - simpl. rewrite R3, Hep, Hl. done.
    - intros g. rewrite <- Hid. by apply others_caught_up_rest. }
  assert (Hk' : op <> OEnter -> op <> OExit -> mroom (op_room k) m).
  { intros N1 N2. eapply mroom_mono; [exact Hk|]. unfold op_room. destruct op; simpl; try done; lia. }
  destruct op; simpl in *.
  - apply tot_bind. eapply tot_mono; [eapply so_entry_ok; eauto; rewrite Hp; [exact Hk|lia]|].
    intros [] m' (r' & a' & R1 & R2 & R3 & R4 & R5 & R6 & R7 & R7' & R8). apply tot_ret. split; [done|]. split; [done|].
    rewrite Hid, Hep in *. rewrite Hl in R5. exists r'. split; [|by rewrite <- R5]. split_and!; simpl.
    + exists G. by rewrite <- R5.
    + done.
    + congruence.
    + done.
    + by rewrite <- R5.
    + intros g. by rewrite R8, Hid.
  - apply tot_bind. eapply tot_mono; [by eapply so_exit_ok|]. intros [] m' (R1 & R2 & R3 & R4 & R5 & R6). apply tot_ret.
    split; [done|]. split; [by apply R4|]. exists r. split; [|done]. split_and!; eauto using eq_trans.
  - destruct Hleg as (N & [v HX] & Hz & Uz & Uy). eapply tot_mono; [eapply cas_link_ok; eauto; by apply Hk'|].
    intros ret m' [R1 R2]. destruct (Hcas _ _ _ _ _ _ _ _ _ R1 HX R2) as (Q1 & Q2 & r' & Q3). split_and!; auto.
    exists r'. split; [exact Q3|]. naive_solver.
  - destruct Hleg as (N & [v HX] & Hz & Uz & Uy). eapply tot_mono; [eapply cas_unlink_ok; eauto; by apply Hk'|].
    intros ret m' [R1 R2]. destruct (Hcas _ _ _ _ _ _ _ _ _ R1 HX R2) as (Q1 & Q2 & r' & Q3). split_and!; auto.
    exists r'. split; [exact Q3|]. naive_solver.
  - destruct Hleg as (N & [v HX] & Hz & Uz & Uy). eapply tot_mono; [eapply cas_swap_ok; eauto; by apply Hk'|].
    intros ret m' [R1 R2]. destruct (Hcas _ _ _ _ _ _ _ _ _ R1 HX R2) as (Q1 & Q2 & r' & Q3). split_and!; auto.
    exists r'. split; [exact Q3|]. naive_solver.
  - destruct Hleg as (N & [v HX] & Hz). eapply tot_mono; [eapply cas_try_ok; eauto; by apply Hk'|].
    intros ret m' [R1 R2].
    destruct (Hcas X NULL (set_link (with_rc (st_cont s) (UNFREEZE z) 1) X z) (st_cont s) NULL NULL ret v m' R1 HX)
      as (Q1 & Q2 & r' & Q3); [by destruct ret|]. split_and!; auto. exists r'. split; [exact Q3|]. naive_solver.
Qed.

Lemma so_calls_ok fuel tid ctx this others mx idle ops : forall m r s k,
  st_at tid this others mx idle m r s -> st_legals mx idle fuel s ops ->
  mroom (st_costs mx idle gc_cost s ops + k) m ->
  tot (so_calls fuel tid ctx this ops) m (fun bs m' => bs = (st_run mx idle s ops).2 /\ mroom k m' /\
    exists r', st_at tid this others mx idle m' r' (st_run mx idle s ops).1).
Proof.
  induction ops as [|op ops IH]; intros m r s k Hs Hl Hk; simpl in *.
  - apply tot_ret. eauto.
  - destruct Hl as (H1 & H2 & H3). apply tot_bind.
    eapply tot_mono; [eapply (so_call_ok fuel tid ctx this others mx idle m r s op); [exact Hs|done|done|]|].
    { rewrite <- Nat.add_assoc in Hk. exact Hk. }
    intros b m1 (-> & Hk1 & r1 & Hs1 & _). apply tot_bind.
    eapply tot_mono; [exact (IH m1 r1 _ k Hs1 H3 Hk1)|]. intros bs m2 (-> & Hk2 & Hr2). apply tot_ret. auto.
Qed.

(** C8: a sequence of entries, exits and compare-and-swaps of links by one thread
    runs without an error, with the answers and the final state of the machine (so
    the counts stay balanced and no object that a link refers to is freed), when
    every call respects [st_legal] in the state it finds: at an entry no link in an
    object of the container is frozen; a compare-and-swap is of an existing link,
    stores NULL or an object of the container whose count has room, and (except
    [OTry]) neither value it is given is a frozen pointer.  The other threads stay
    where they are meanwhile.  Without the rule on frozen links the calls can fail
    (SoFaults.clean_list_frozen_link). *)
Theorem so_program_refines_machine fuel tid ctx this others mx idle ops : forall m r s k,
  st_at tid this others mx idle m r s -> st_legals mx idle fuel s ops ->
  mroom (st_costs mx idle gc_cost s ops + k) m ->
  tot (so_calls fuel tid ctx this ops) m (fun bs m' => bs = (st_run mx idle s ops).2 /\ mroom k m' /\
    exists r', st_at tid this others mx idle m' r' (st_run mx idle s ops).1).
Proof. intros m r s k. apply so_calls_ok. Qed.

End machine.
