(* ===== verification/SoLive.v ===== *)
(** * Reclamation is not delayed for ever

    An object of a shared container that no link refers to any more, but whose
    decrements are pending in the limbo lists of the thread, is freed after a
    bounded number of visits of the container while no other thread is inside:
    three changes of the epoch, each after at most [entry_max + 1] entries. *)
From S2P Require Export SoMachine.

(** A visit enters the container and leaves it. *)
Definition visits (n : nat) : list so_op := concat (replicate n [OEnter; OExit]).

(** The visits until the epoch has changed three times. *)
Definition grace (en mx : Z) : nat := (Z.to_nat (mx - en) + 1 + (Z.to_nat mx + 1) + (Z.to_nat mx + 1))%nat.

(** No link refers to [p]. *)
Definition unlinked (a : container) (p : Z) : Prop := p ∉ root_objs a ++ flds (c_heap a).

(** * Proofs *)

Lemma visits_S n : visits (S n) = OEnter :: OExit :: visits n.
Proof. done. Qed.

Lemma visits_app n n' : visits (n + n') = visits n ++ visits n'.
Proof. unfold visits. by rewrite replicate_add, concat_app. Qed.

Lemma st_run_app mx idle s ops ops' : (st_run mx idle s (ops ++ ops')).1 = (st_run mx idle (st_run mx idle s ops).1 ops').1.
Proof. revert s. induction ops as [|op ops IH]; intros s; [done|]. simpl. apply IH. Qed.

(** ** What three changes of the epoch do to the lists *)
Section cleaning.
Implicit Types (H : heap) (a : container) (L : list (list Z)).

Lemma flds_elem H q : q ∈ flds H <-> exists p c, H !! p = Some c /\ q = UNFREEZE (cfld c).
Proof.
  unfold flds. rewrite list_elem_of_fmap. split.
  - intros ([p c] & -> & Hp). apply elem_of_map_to_list in Hp. eauto.
  - intros (p & c & Hp & ->). exists (p, c). split; [done|]. by apply elem_of_map_to_list.
Qed.

Lemma dec1_flds S p q : q ∈ flds (dec1 S p).1 -> q ∈ flds S.1.
Proof. rewrite !flds_elem. intros (p' & c & Hp & ->). apply dec1_sub in Hp as [n Hp]. eauto. Qed.

Lemma dec1_new S p q : unfrozen S.1 -> q ∈ (dec1 S p).2 -> q ∈ S.2 \/ q ∈ flds S.1.
Proof.
  destruct S as [H l]. unfold dec1. simpl. intros Hu. destruct (H !! p) as [[n f]|] eqn:E; simpl; [|auto].
  destruct (n =? 1); simpl; [|auto]. destruct (f =? 0); [auto|]. intros [->|Hq]%elem_of_cons; [right|auto].
  apply flds_elem. exists p, (Cell n f). split; [done|]. symmetry. apply (Hu p _ E).
Qed.

Lemma cleaned_flds es S q : q ∈ flds (cleaned es S).1 -> q ∈ flds S.1.
Proof. revert S. induction es as [|p es IH]; intros S Hq; [done|]. by eapply dec1_flds, IH. Qed.

Lemma cleaned_new es S q : unfrozen S.1 -> q ∈ (cleaned es S).2 -> q ∈ S.2 \/ q ∈ flds S.1.
Proof.
  revert S. induction es as [|p es IH]; intros S Hu Hq; [by left|]. simpl in Hq.
  destruct (IH _ (dec1_unfrozen S p Hu) Hq) as [E|E]; [by eapply dec1_new|right; by eapply dec1_flds].
Qed.

Lemma cleaned_length es S : (length (cleaned es S).2 <= length es + length S.2)%nat.
Proof.
  revert S. induction es as [|p es IH]; intros S; [simpl; lia|]. simpl. specialize (IH (dec1 S p)).
  assert (length (dec1 S p).2 <= length S.2 + 1)%nat; [|lia]. destruct S as [H l]. unfold dec1. simpl.
  destruct (H !! p) as [[n f]|]; simpl; [|lia]. repeat case_match; simpl; lia.
Qed.

(** A count never falls to zero in the heap. *)
Lemma dec1_pos S p q : (forall c, S.1 !! q = Some c -> 1 <= crc c) -> forall c, (dec1 S p).1 !! q = Some c -> 1 <= crc c.
Proof.
  destruct S as [H l]. unfold dec1. simpl. intros Hq c. destruct (H !! p) as [[n f]|] eqn:E; simpl; [|auto].
  destruct (Z.eqb_spec n 1) as [->|Hn]; simpl.
  - intros [_ Hc]%lookup_delete_Some. auto.
  - intros [[<- <-]|[_ Hc]]%lookup_insert_Some; [|auto]. simpl. specialize (Hq _ E). simpl in Hq. lia.
Qed.

Lemma cleaned_pos es S q : (forall c, S.1 !! q = Some c -> 1 <= crc c) ->
  forall c, (cleaned es S).1 !! q = Some c -> 1 <= crc c.
Proof. revert S. induction es as [|p es IH]; intros S Hq; [done|]. simpl. apply IH. by apply dec1_pos. Qed.

(** The state of the lists between two changes of the epoch. *)
Record settled (others : list Z) a L (p : Z) : Prop := {
  sl_three : length L = 3%nat;
  sl_counted : counted (c_heap a) (concat L ++ others) (root_objs a);
  sl_unfrozen : unfrozen (c_heap a);
  sl_unlinked : unlinked a p;
  sl_pos : forall c, c_heap a !! p = Some c -> 1 <= crc c
}.

Definition next_epoch (e : Z) : Z := (e + 1) mod 3.
Definition advance (t : container * list (list Z) * Z) : container * list (list Z) * Z :=
  (entered t.2 t.1.2 t.1.1 (next_epoch t.2), next_epoch t.2).

Lemma total_lookup (L : list (list Z)) i : (i < length L)%nat -> L !! i = Some (L !!! i).
Proof. intros Hi. destruct (lookup_lt_is_Some_2 L i Hi) as [x Hx]. by rewrite (list_lookup_total_correct _ _ _ Hx). Qed.

Lemma advance_lists a L e : 0 <= e < 3 -> length L = 3%nat ->
  let t := (advance (a, L, e)).1 in
  t.1 = clean_cont a (L !!! Z.to_nat (next_epoch e)) (L !!! Z.to_nat e) /\
  t.2 = <[Z.to_nat e := (cleaned (L !!! Z.to_nat (next_epoch e)) (c_heap a, L !!! Z.to_nat e)).2]>
          (<[Z.to_nat (next_epoch e) := []]> L).
Proof.
  intros He HL. unfold advance, entered. simpl. destruct (Z.eqb_spec e (next_epoch e)) as [E|E]; [|done].
  exfalso. unfold next_epoch in E. Z.to_euclidean_division_equations. lia.
Qed.

Lemma next_epoch_range e : 0 <= e < 3 -> 0 <= next_epoch e < 3 /\ next_epoch e <> e.
Proof. intros. unfold next_epoch. Z.to_euclidean_division_equations. lia. Qed.

Lemma settled_advance others a L e p : settled others a L p -> 0 <= e < 3 ->
  settled others (advance (a, L, e)).1.1 (advance (a, L, e)).1.2 p.
Proof.
  intros [S1 S2 S3 S4 S5] He. destruct (advance_lists a L e He S1) as [E1 E2]. cbv zeta in *. rewrite E1, E2.
  destruct (next_epoch_range e He) as [Hn Hne]. set (g := next_epoch e) in *.
  set (es := L !!! Z.to_nat g). set (ls := L !!! Z.to_nat e).
  assert (Hg : L !! Z.to_nat g = Some es) by (apply total_lookup; lia).
  assert (Hl : L !! Z.to_nat e = Some ls) by (apply total_lookup; lia).
  split; simpl.
  - by rewrite !length_insert.
  - assert (Hc : counted (c_heap a) (es ++ ls ++ (concat (<[Z.to_nat e := []]> (<[Z.to_nat g := []]> L)) ++ others)) (root_objs a)).
    { rewrite (concat_empty _ _ _ Hg) in S2.
      rewrite (concat_empty (<[Z.to_nat g := []]> L) (Z.to_nat e) ls) in S2 by (rewrite list_lookup_insert_ne by lia; done).
      by rewrite <- !app_assoc in S2. }
    apply cleaned_counted in Hc; [|done]. rewrite cleaned_app in Hc. simpl in Hc.
    rewrite (concat_empty (<[Z.to_nat e := _]> _) (Z.to_nat e) _) by (apply list_lookup_insert_eq; rewrite length_insert; lia).
    rewrite list_insert_insert_eq, <- app_assoc. exact Hc.
  - by apply cleaned_unfrozen.
  - unfold unlinked in *. intros Hin. apply S4. apply elem_of_app in Hin as [Hin|Hin]; apply elem_of_app; [by left|right].
    by eapply (cleaned_flds es (c_heap a, ls)).
  - by apply cleaned_pos.
Qed.

(** A change of the epoch empties one list, and brings [p] into none. *)
Lemma advance_notin others a L e p : settled others a L p -> 0 <= e < 3 ->
  let L' := (advance (a, L, e)).1.2 in
  (p ∉ L' !!! Z.to_nat (next_epoch e)) /\ ((p ∉ L !!! Z.to_nat e) -> p ∉ L' !!! Z.to_nat e) /\
  (forall i, (i < 3)%nat -> i <> Z.to_nat e -> i <> Z.to_nat (next_epoch e) -> L' !!! i = L !!! i).
Proof.
  intros [S1 S2 S3 S4 S5] He. destruct (advance_lists a L e He S1) as [_ E2]. cbv zeta in *. rewrite E2.
  destruct (next_epoch_range e He) as [Hn Hne]. split_and!.
  - rewrite list_lookup_total_insert_ne by lia. rewrite list_lookup_total_insert_eq by lia. apply not_elem_of_nil.
  - intros Hp. rewrite list_lookup_total_insert_eq by (rewrite length_insert; lia).
    intros Hin. apply cleaned_new in Hin as [Hin|Hin]; [done| |done]. apply S4, elem_of_app. by right.
  - intros i Hi N1 N2. by rewrite !list_lookup_total_insert_ne by lia.
Qed.

(** Three changes of the epoch perform every decrement that was pending. *)
Lemma three_epochs others a L e p : settled others a L p -> 0 <= e < 3 -> p ∉ others ->
  let t := advance (advance (advance (a, L, e))) in c_heap t.1.1 !! p = None.
Proof.
  intros HS He Hp. destruct (next_epoch_range e He) as [H1 N1]. destruct (next_epoch_range _ H1) as [H2 N2].
  assert (E3 : next_epoch (next_epoch (next_epoch e)) = e) by (unfold next_epoch; Z.to_euclidean_division_equations; lia).
  assert (N3 : next_epoch (next_epoch e) <> e) by (unfold next_epoch; Z.to_euclidean_division_equations; lia).
  pose proof (advance_notin others a L e p HS He) as A1. pose proof (settled_advance others a L e p HS He) as S1.
  cbv zeta. destruct (advance (a, L, e)) as [[a1 L1] e1] eqn:Ea. assert (e1 = next_epoch e) as -> by (by injection Ea).
  pose proof (advance_notin others a1 L1 _ p S1 H1) as A2. pose proof (settled_advance others a1 L1 _ p S1 H1) as S2.
  destruct (advance (a1, L1, next_epoch e)) as [[a2 L2] e2] eqn:Eb.
  assert (e2 = next_epoch (next_epoch e)) as -> by (by injection Eb).
  pose proof (advance_notin others a2 L2 _ p S2 H2) as A3. pose proof (settled_advance others a2 L2 _ p S2 H2) as S3.
  destruct (advance (a2, L2, next_epoch (next_epoch e))) as [[a3 L3] e3]. simpl in *. rewrite E3 in A3.
  destruct A1 as (A1 & _ & _), A2 as (A2 & A2' & _), A3 as (A3 & A3' & A3'').
  assert (Hall : p ∉ concat L3).
  { intros Hin. apply list_elem_of_In, in_concat in Hin as (l & Hl & Hin). apply list_elem_of_In in Hl, Hin.
    apply list_elem_of_lookup_1 in Hl as [i Hi]. pose proof (lookup_lt_Some _ _ _ Hi) as Hlt. rewrite (sl_three _ _ _ _ S3) in Hlt.
    apply list_lookup_total_correct in Hi. rewrite <- Hi in Hin.
    destruct (decide (i = Z.to_nat e)) as [->|I1]; [done|].
    destruct (decide (i = Z.to_nat (next_epoch (next_epoch e)))) as [->|I2]; [by apply A3'|].
    rewrite A3'' in Hin by lia. assert (i = Z.to_nat (next_epoch e)) as -> by lia. by apply A2'. }
  destruct (c_heap a3 !! p) as [c|] eqn:Ec; [|done]. exfalso.
  pose proof (sl_pos _ _ _ _ S3 c Ec) as Hpos. rewrite (ct_rc _ _ _ (sl_counted _ _ _ _ S3) p c Ec) in Hpos.
  assert (0 < occ ((concat L3 ++ others) ++ root_objs a3 ++ flds (c_heap a3)) p) as Hocc%occ_in by lia.
  apply elem_of_app in Hocc as [[Ho|Ho]%elem_of_app|Ho]; [done|done|]. by apply (sl_unlinked _ _ _ _ S3).
Qed.
End cleaning.

(** ** The visits that change the epoch *)
Section visits.
Variables (mx : Z) (idle : Z -> bool).
Hypothesis Hmx : 0 < mx.
Hypothesis Hidle : forall g, idle g = true.

Lemma visit_stay s n : st_epoch s = st_global s -> 0 <= st_entries s -> st_entries s + Z.of_nat n <= mx ->
  (st_run mx idle s (visits n)).1 =
  St (st_cont s) (st_limbo s) (st_epoch s) (st_global s) (st_entries s + Z.of_nat n).
Proof.
  revert s. induction n as [|n IH]; intros s He Hp Hn.
  - simpl. rewrite Z.add_0_r. by destruct s.
  - rewrite visits_S. simpl. rewrite IH; unfold entry_epoch, entry_count, entered; simpl;
      unfold entry_epoch; rewrite !He, !Z.eqb_refl, (proj2 (Z.ltb_lt (st_entries s) mx)) by lia;
      rewrite ?Z.eqb_refl; simpl; [|done|lia|lia].
    f_equal. lia.
Qed.

(** The state right after a change of the epoch. *)
Definition st_of (t : container * list (list Z) * Z) : so_state := St t.1.1 t.1.2 t.2 t.2 0.

Lemma visits_advance s : st_epoch s = st_global s -> 0 <= st_entries s <= mx -> 0 <= st_epoch s < 3 ->
  (st_run mx idle s (visits (Z.to_nat (mx - st_entries s) + 1))).1 =
  st_of (advance (st_cont s, st_limbo s, st_epoch s)).
Proof.
  intros He Hn Hr. rewrite visits_app, st_run_app. rewrite (visit_stay s (Z.to_nat (mx - st_entries s))) by lia.
  replace (st_entries s + Z.of_nat (Z.to_nat (mx - st_entries s))) with mx by lia.
  destruct (next_epoch_range _ Hr) as [_ Hne]. unfold visits. simpl. unfold entry_count, entry_epoch.
  rewrite Hidle, He, Z.eqb_refl, Z.ltb_irrefl.
  rewrite <- He. fold (next_epoch (st_epoch s)). by rewrite (proj2 (Z.eqb_neq _ _)) by congruence.
Qed.

Lemma visits_again t : 0 <= t.2 < 3 -> (st_run mx idle (st_of t) (visits (Z.to_nat mx + 1))).1 = st_of (advance t).
Proof.
  intros Ht. pose proof (visits_advance (st_of t)) as V. simpl in V. rewrite Z.sub_0_r in V.
  destruct t as [[a L] e]. apply V; auto; lia.
Qed.

Lemma visits_grace s : st_epoch s = st_global s -> 0 <= st_entries s <= mx -> 0 <= st_epoch s < 3 ->
  (st_run mx idle s (visits (grace (st_entries s) mx))).1 =
  st_of (advance (advance (advance (st_cont s, st_limbo s, st_epoch s)))).
Proof.
  intros He Hn Hr. destruct (next_epoch_range _ Hr) as [H1 _]. destruct (next_epoch_range _ H1) as [H2 _].
  unfold grace. rewrite visits_app, st_run_app, visits_app, st_run_app.
  rewrite visits_advance by auto. rewrite visits_again by done. by rewrite visits_again.
Qed.

(** ** The concrete visits *)
Context `{HM : Malloc, HR : !MallocRoom, HG : !Gc, HGL : !GcLaws}.

Lemma step_size s : length (st_limbo s) = 3%nat -> 0 <= st_epoch s < 3 -> 0 <= st_global s < 3 ->
  let s' := (st_step mx idle s OEnter).1 in
  (length (concat (st_limbo s')) <= length (concat (st_limbo s)))%nat /\ length (st_limbo s') = 3%nat /\
  0 <= st_epoch s' < 3 /\ 0 <= st_global s' < 3 /\ (unfrozen (c_heap (st_cont s)) -> unfrozen (c_heap (st_cont s'))).
Proof.
  intros HL He Hg. simpl. set (g := entry_epoch _ _ _ _ _).
  assert (Hg' : 0 <= g < 3).
  { unfold g, entry_epoch. repeat case_match; try lia. Z.to_euclidean_division_equations. lia. }
  unfold entered. destruct (Z.eqb_spec (st_epoch s) g) as [E|E]; simpl; [split_and!; auto; lia|].
  set (L := st_limbo s) in *. set (es := L !!! Z.to_nat g). set (ls := L !!! Z.to_nat (st_epoch s)).
  assert (Hes : L !! Z.to_nat g = Some es) by (apply total_lookup; lia).
  assert (Hls : L !! Z.to_nat (st_epoch s) = Some ls) by (apply total_lookup; lia).
  split_and!; try lia; [| by rewrite !length_insert|apply (cleaned_unfrozen _ (_, _))].
  pose proof (cleaned_length es (c_heap (st_cont s), ls)) as Hlen. simpl in Hlen.
  rewrite (concat_empty L _ _ Hes), (concat_empty (<[Z.to_nat g := []]> L) (Z.to_nat (st_epoch s)) ls)
    by (rewrite list_lookup_insert_ne by lia; done).
  rewrite (concat_empty (<[Z.to_nat (st_epoch s) := _]> _) (Z.to_nat (st_epoch s)) _)
    by (apply list_lookup_insert_eq; rewrite length_insert; lia).
  rewrite list_insert_insert_eq, !length_app. lia.
Qed.

Lemma visits_ok fuel tid ctx this others n c : forall m r s k,
  st_at tid this others mx idle m r s -> unfrozen (c_heap (st_cont s)) ->
  (length (concat (st_limbo s)) <= c)%nat -> (c + 1 < fuel)%nat -> mroom (n * c + k) m ->
  tot (so_calls fuel tid ctx this (visits n)) m (fun _ m' => mroom k m' /\
    exists r', st_at tid this others mx idle m' r' (st_run mx idle s (visits n)).1 /\
      reclaimed tid m r (st_cont s) m' r' (st_cont (st_run mx idle s (visits n)).1)).
Proof.
  induction n as [|n IH]; intros m r s k Hs Hu Hc Hf Hk.
  - simpl. apply tot_ret. split; [done|]. exists r. split; [done|]. split; [|done]. intros p [d Hp]. congruence.
  - pose proof Hs as ((G & Hi) & He & _ & Hep & Hl & _). pose proof (si_rt _ _ _ _ _ _ Hi) as Hrt.
    assert (H3 : length (st_limbo s) = 3%nat) by (rewrite <- Hl; unfold objs_of; rewrite length_fmap; apply Hrt).
    assert (Hr : 0 <= st_epoch s < 3) by (rewrite <- Hep; apply Hrt).
    destruct (step_size s H3 Hr (ee_epoch3 _ _ _ _ _ He)) as (L1 & L2 & L3 & L4 & L5).
    rewrite visits_S. change (so_calls fuel tid ctx this (OEnter :: OExit :: visits n)) with
      (b <- so_call fuel tid ctx this OEnter ;;
       bs <- (b' <- so_call fuel tid ctx this OExit ;; bs' <- so_calls fuel tid ctx this (visits n) ;; Ret (b' :: bs')) ;;
       Ret (b :: bs)).
    apply tot_bind.
    eapply tot_mono; [apply (so_call_ok fuel tid ctx this others mx idle m r s OEnter (n * c + k)); [exact Hs|exact Hu|lia|]|].
    { eapply mroom_mono; [exact Hk|]. simpl. lia. }
    intros b1 m1 (-> & K1 & r1 & S1 & R1). apply tot_bind, tot_bind.
    eapply tot_mono; [eapply (so_call_ok fuel tid ctx this others mx idle m1 r1 _ OExit (n * c + k)); [exact S1|done|lia|exact K1]|].
    intros b2 m2 (-> & K2 & r2 & S2 & R2). apply tot_bind.
    eapply tot_mono; [apply (IH m2 r2 _ k S2); auto; simpl in *; lia|].
    intros bs m3 (K3 & r3 & S3 & R3). apply tot_ret. apply tot_ret. split; [done|]. exists r3. split; [exact S3|].
    eapply reclaimed_trans; [apply R1; auto|]. eapply reclaimed_trans; [apply R2; auto|]. exact R3.
Qed.
End visits.

Lemma pending_objs r s : objs_of r = st_limbo s -> (concat (r_limbo r)).*2 = concat (st_limbo s).
Proof. intros <-. unfold objs_of. induction (r_limbo r) as [|l L IH]; [done|]. simpl. by rewrite fmap_app, IH. Qed.

(** ** Theorems *)
Section live.
Context `{HM : Malloc, HR : !MallocRoom, HG : !Gc, HGL : !GcLaws}.

(** C9: an object that no link refers to and whose pending decrements are all in the
    limbo lists of the visiting thread is freed: after [grace] visits the address
    is free again, or reused by the runtime for its wrappers.  All the other
    threads are outside the container meanwhile ([idle] holds of every epoch: one
    that stays inside would hold the epoch), no link in an object of the container
    is frozen, and the thread starts with the current epoch and at most
    [entry_max] entries since it changed. *)
Theorem so_reclaims_unlinked fuel tid ctx this others mx idle m r s p c k :
  st_at tid this others mx idle m r s -> (forall g, idle g = true) ->
  st_epoch s = st_global s -> st_entries s <= mx -> unfrozen (c_heap (st_cont s)) ->
  c_heap (st_cont s) !! p = Some c -> p ∈ concat (st_limbo s) -> p ∉ others -> unlinked (st_cont s) p ->
  (length (concat (st_limbo s)) + 1 < fuel)%nat ->
  mroom (grace (st_entries s) mx * length (concat (st_limbo s)) + k) m ->
  tot (so_calls fuel tid ctx this (visits (grace (st_entries s) mx))) m (fun _ m' =>
    exists r' s', st_at tid this others mx idle m' r' s' /\ c_heap (st_cont s') !! p = None /\ gone tid r' m' p).
Proof.
  intros Hs Hid Heg Hen Hu Hp Hlim Ho Hun Hf Hk. pose proof Hs as ((G & Hi) & He & _ & Hep & Hl & _).
  pose proof (si_rt _ _ _ _ _ _ Hi) as Hrt.
  assert (Hset : settled others (st_cont s) (st_limbo s) p).
  { pose proof (si_counted _ _ _ _ _ _ Hi) as Hc. rewrite (pending_objs r s Hl) in Hc. split; auto.
    - rewrite <- Hl. unfold objs_of. rewrite length_fmap. apply Hrt.
    - intros c' Hc'. rewrite (ct_rc _ _ _ Hc p c' Hc'). rewrite occ_app, occ_app.
      apply occ_in in Hlim. pose proof (occ_nonneg others p).
      pose proof (occ_nonneg (root_objs (st_cont s) ++ flds (c_heap (st_cont s))) p). lia. }
  assert (Hr : 0 <= st_epoch s < 3) by (rewrite <- Hep; apply Hrt).
  eapply tot_mono; [eapply (visits_ok mx idle fuel tid ctx this others _ _ m r s k Hs Hu (le_n _)); [lia|exact Hk]|].
  intros _ m' (_ & r' & S' & R1 & R2).
  rewrite visits_grace in S', R1 by (auto; pose proof (ee_entry_range _ _ _ _ _ He); pose proof (ee_max_range _ _ _ _ _ He); lia).
  eexists r', (st_of _). split; [exact S'|]. pose proof (three_epochs others _ _ _ p Hset Hr Ho) as Hgone. split; [exact Hgone|].
  apply R1; eauto.
Qed.
End live.
