(* ===== verification/SoStart.v ===== *)
(** * A new shared object (encore_create_so), and its first objects

    [encore_create_so] establishes the state of the machine with no object and
    empty limbo lists; an object that the program has just allocated joins the
    container with count zero.  Together with the machine: a program that creates
    a container and works on it runs without an error. *)
From S2P Require Export SoLive.

(** The links of a new container: the words at [offs] of the object, all null. *)
Definition null_roots (this : Z) (offs : list Z) : gmap loc Z :=
  list_to_map ((fun o => ((this, o), NULL)) <$> offs).

Definition st_new (this : Z) (offs : list Z) : so_state :=
  St (Cont ∅ (null_roots this offs)) [[]; []; []] 0 1 0.

(** The object [p], not yet referred to. *)
Definition st_alloc (s : so_state) (p : Z) : so_state :=
  St (Cont (<[p := Cell 0 NULL]> (c_heap (st_cont s))) (c_roots (st_cont s)))
    (st_limbo s) (st_epoch s) (st_global s) (st_entries s).

(** * Proofs *)

Lemma zero_fields_lookup fs f : f ∈ fs -> zero_fields fs !! f = Some 0.
Proof.
  intros Hf. unfold zero_fields. induction fs as [|g fs IH]; [by apply not_elem_of_nil in Hf|].
  simpl. destruct (decide (g = f)) as [->|Hne]; [apply lookup_insert_eq|].
  rewrite lookup_insert_ne by done. apply IH. set_solver.
Qed.

(** The words of a new array of thread records. *)
Lemma thread_array_zero n i f : 0 <= i < n -> f ∈ so_thread_fields ->
  zero_fields (flat_map (fun i => map (fun f => Z.of_nat i * sizeof_so_thread + f) so_thread_fields)
    (seq 0 (Z.to_nat n))) !! (sizeof_so_thread * i + f) = Some 0.
Proof.
  intros Hi Hf. apply zero_fields_lookup. apply list_elem_of_In, in_flat_map. exists (Z.to_nat i).
  split; [apply in_seq; lia|]. apply in_map_iff. exists f. split; [unfold sizeof_so_thread; lia|by apply list_elem_of_In].
Qed.

Lemma null_roots_value this offs X v : null_roots this offs !! X = Some v -> v = NULL /\ X.1 = this /\ X.2 ∈ offs.
Proof.
  intros H%elem_of_list_to_map_2. apply list_elem_of_fmap in H as (o & [= -> ->] & Ho). auto.
Qed.

Lemma null_roots_objs this offs p : p ∈ root_objs (Cont ∅ (null_roots this offs)) -> p = NULL.
Proof.
  unfold root_objs. intros ((X & v) & -> & H)%list_elem_of_fmap. apply elem_of_map_to_list in H.
  by apply null_roots_value in H as [-> _].
Qed.

Lemma counted_alloc H pend roots p : counted H pend roots -> H !! p = None -> p <> NULL ->
  counted (<[p := Cell 0 NULL]> H) pend roots.
Proof.
  intros [C1 C2 C3 C4] Hp Hp0. pose proof (flds_insert H p (Cell 0 NULL) Hp) as Hf. simpl in Hf.
  assert (Hnew : forall q, q <> NULL -> occ (pend ++ roots ++ flds (<[p := Cell 0 NULL]> H)) q = occ (pend ++ roots ++ flds H) q).
  { intros q Hq. rewrite !occ_app, Hf, occ_cons. change (UNFREEZE 0) with 0. rewrite (proj2 (Z.eqb_neq 0 q)) by congruence.
    simpl. lia. }
  split; [| | |done].
  - intros q c [[<- <-]|[Hne Hq]]%lookup_insert_Some.
    + rewrite Hnew by done. simpl. pose proof (occ_nonneg (pend ++ roots ++ flds H) p).
      destruct (Z.eq_dec (occ (pend ++ roots ++ flds H) p) 0) as [|E]; [done|].
      assert (0 < occ (pend ++ roots ++ flds H) p) as [c Hc]%occ_in%C2 by lia; [congruence|done].
    + rewrite Hnew by (intros ->; congruence). by apply C1.
  - intros q Hq Hq0. destruct (decide (p = q)) as [->|Hne]; [rewrite lookup_insert_eq; eauto|].
    rewrite lookup_insert_ne by done. apply C2; [|done]. apply occ_in. rewrite <- Hnew by done. by apply occ_in.
  - by rewrite lookup_insert_ne.
Qed.

Section start.
Context `{HM : Malloc, HR : !MallocRoom, HG : !Gc, HGL : !GcLaws}.
Implicit Types (m : mem) (r : rt) (s : so_state).

(** What [encore_create] has to return: a new object with the fields of [so_gc]
    zero and the links null, and the collector's own objects are others. *)
Definition so_created (offs : list Z) (G : gset Z) m (this : Z) m' : Prop :=
  is_struct m' (so_gc_of this) sizeof_so_gc /\ is_Some (m' !! this) /\ m !! this = None /\ m !! (so_gc_of this) = None /\
  this <> so_gc_of this /\ get m' (so_gc_of this, GC_LOCK) = Some 0 /\ (forall o, o ∈ offs -> get m' (this, o) = Some NULL) /\
  exists G', gc_inv m' G' /\ frame G m m' G' /\ (this ∉ G') /\ (so_gc_of this ∉ G').

(** The state that [encore_create_so] starts from: the thread's own storage. *)
Definition tls_ready (tid i : Z) m : Prop :=
  is_struct m (tls tid) 816 /\ get m (tls tid, TL_INDEX) = Some i /\ get m (tls tid, TL_COUNTER) = Some 0.

(** The fields that make a memory the state of a new container. *)
Lemma st_new_at tid this th i n offs G m :
  tls_ready tid i m -> 0 <= i < n ->
  is_struct m (so_gc_of this) sizeof_so_gc -> is_struct m th (32 * n) ->
  NoDup [tls tid; so_gc_of this; th] -> this ∉ [tls tid; so_gc_of this; th] ->
  get m (so_gc_of this, GC_THREADS) = Some th -> get m (so_gc_of this, GC_N_THREADS) = Some n ->
  get m (so_gc_of this, GC_ENTRY_MAX) = Some 100 -> get m (so_gc_of this, GC_EPOCH) = Some 1 ->
  get m (so_gc_of this, GC_LOCK) = Some 0 ->
  (forall j f, 0 <= j < n -> f ∈ so_thread_fields -> get m (thr th j f) = Some 0) ->
  (forall o, o ∈ offs -> get m (this, o) = Some NULL) ->
  gc_inv m G -> (forall b, b ∈ G -> (b ∉ [tls tid; so_gc_of this; th]) /\ b <> this) ->
  st_at tid this [] 100 (fun _ => true) m (Rt (so_gc_of this) th n i 0 [] [[]; []; []]) (st_new this offs).
Proof.
  intros (T1 & T2 & T3) Hi S1 S2 Hnd Hthis E1 E2 E3 E4 E5 Hz Ho HGi HGo.
  assert (Hz' : forall f, f ∈ so_thread_fields -> get m (thr th i f) = Some 0) by (intros; by apply Hz).
  assert (Hin : forall f, bool_decide (f ∈ so_thread_fields) = true -> f ∈ so_thread_fields)
    by (intros f; apply bool_decide_eq_true_1).
  split_and!; try done.
  - exists G. split; simpl.
    + split; simpl; try done; [by apply Hz', Hin|lia|].
      intros j es Hj _. exists 0. assert (es = [] /\ Z.of_nat j < 3) as [-> Hj3].
      { destruct j as [|[|[|j]]]; simpl in Hj; (done || by injection Hj as <-). }
      split; [|done]. apply Hz'. destruct j as [|[|[|j]]]; [by apply Hin..|lia].
    + done.
    + intros p [c Hp]. done.
    + intros X v HX. apply null_roots_value in HX as (-> & E & HX). destruct X as [b off]. simpl in *. subst. auto.
    + intros X v HX. apply null_roots_value in HX as (-> & -> & HX). unfold owned. simpl. split_and!; [done|done|].
      intros Hg. by apply HGo in Hg as [_ ?].
    + done.
    + intros b Hb. unfold owned. simpl. split; [|done]. by apply HGo.
    + split; simpl; try done; [|apply not_elem_of_nil]. intros p Hp Hp0. rewrite app_nil_r in Hp. by apply null_roots_objs in Hp.
  - split; simpl; try done; [by apply Hz', Hin|].
    intros j Hj. split; rewrite Hz; eauto; by apply Hin.
  - intros g. unfold others_caught_up. apply forallb_forall. intros j Hj%in_seq. simpl.
    unfold so_caught_up. simpl in Hj.
    rewrite !Hz by (by apply Hin || lia). apply orb_true_r.
Qed.

(** C14: [encore_create_so] returns a container with no object, no pending decrement and
    null links, the thread one epoch behind, whatever the number of scheduler threads. *)
Theorem encore_create_so_starts tid ctx type i n offs G m k :
  tls_ready tid i m -> 0 <= i < n -> 32 * n <= M32 -> tls tid ∉ G ->
  (forall m, tot scheduler_cores m (fun v m' => v = n /\ m' = m)) ->
  tot (encore_create ctx type) m (fun this m' => so_created offs G m this m' /\ mroom (1 + k) m') ->
  tot (so.encore_create_so ctx type) m (fun this m' => mroom k m' /\
    exists r, st_at tid this [] 100 (fun _ => true) m' r (st_new this offs)).
Proof.
  intros (T1 & T2 & T3) Hi Hn HGt Hcores Hcreate. unfold so.encore_create_so. apply tot_bind.
  eapply tot_mono; [exact Hcreate|]. intros this m1 [(C1 & C2 & C3 & C4 & C5 & C6 & C7 & G' & C8 & C9 & C10 & C11) Hk].
  apply tot_bind. eapply tot_mono; [apply Hcores|]. intros v m1' [-> ->].
  assert (Ht : m1 !! (tls tid) = m !! (tls tid)).
  { apply C9; [done|]. destruct T1 as (_ & o & Ho & _). eexists. exact Ho. }
  apply tot_bind. unfold calloc. eapply tot_alloc; [exact Hk|simpl; unfold sizeof_so_thread; lia|].
  intros th (Th0 & Thf & _) Hk1. set (o := Obj _ _) in *.
  assert (Hth : th <> so_gc_of this) by (intros ->; destruct C1 as (_ & ? & ? & _); congruence).
  assert (Hthis : th <> this) by (intros ->; destruct C2; congruence).
  assert (Htl : th <> tls tid) by (intros ->; destruct T1 as (_ & ? & ? & _); congruence).
  assert (Hsl : tls tid <> so_gc_of this) by (intros E; destruct T1 as (_ & ? & ? & _); congruence).
  set (m2 := <[th := o]> m1).
  assert (S2 : is_struct m2 (so_gc_of this) sizeof_so_gc).
  { destruct C1 as (N & o' & Ho' & Hsz). split; [done|]. exists o'. unfold m2. by rewrite lookup_insert_ne. }
  assert (Z2 : forall i f, 0 <= i < n -> f ∈ so_thread_fields -> get m2 (thr th i f) = Some 0).
  { intros j f Hj Hf. unfold get, m2, thr. simpl. rewrite lookup_insert_eq. by apply thread_array_zero. }
  assert (T2' : tls_ready tid i m2).
  { unfold tls_ready, is_struct, get, m2. simpl. rewrite !lookup_insert_ne, Ht by done. done. }
  assert (H2 : is_struct m2 th (32 * n)).
  { split; [done|]. exists o. unfold m2. rewrite lookup_insert_eq. split; [done|]. simpl. unfold sizeof_so_thread. lia. }
  assert (C7' : forall o, o ∈ offs -> get m2 (this, o) = Some NULL).
  { intros f Hf. unfold get, m2. simpl. rewrite lookup_insert_ne by done. by apply C7. }
  assert (C6' : get m2 (so_gc_of this, GC_LOCK) = Some 0).
  { unfold get, m2. simpl. rewrite lookup_insert_ne by done. exact C6. }
  assert (HG2 : gc_inv m2 G').
  { apply (gc_local m1); [done|]. intros b Hb. unfold m2. rewrite lookup_insert_ne; [done|].
    intros ->. destruct (gc_live _ _ _ C8 Hb). congruence. }
  assert (HGo : forall b, b ∈ G' -> b <> tls tid /\ b <> so_gc_of this /\ b <> th /\ b <> this).
  { intros b Hb. split_and!; intros ->; try done.
    - destruct (proj2 C9 _ Hb) as [?|E]; [done|]. destruct T1 as (_ & ? & ? & _). congruence.
    - destruct (gc_live _ _ _ C8 Hb). congruence. }
  assert (tls tid <> this) by (intros E; destruct T1 as (_ & ? & ? & _); congruence).
  fold m2 in Hk1. clearbody m2. clear Hk Hcreate Hcores. unfold sizeof_so_gc in *.
  psteps. split; [repeat apply mroom_upd; exact Hk1|]. exists (Rt (so_gc_of this) th n i 0 [] [[]; []; []]).
  destruct T2' as (T1' & T2' & T3').
  apply (st_new_at tid this th i n offs G'); rewrite ?is_struct_upd; auto; try (unfold sizeof_so_gc; mget).
  - split_and!; rewrite ?is_struct_upd; auto; mget.
  - rewrite !NoDup_cons, !elem_of_cons, elem_of_nil. split_and!; [intros [?|[?|?]]; congruence|intros [?|[]%elem_of_nil]; congruence|apply not_elem_of_nil|apply NoDup_nil_2].
  - rewrite !elem_of_cons, elem_of_nil. intros [?|[?|[?|?]]]; congruence.
  - intros j f Hj Hf. unfold thr. mget. by apply Z2.
  - intros o' Ho'. mget. by apply C7'.
  - apply (gc_local m2); [done|]. intros b Hb. destruct (HGo b Hb) as (_ & Hb' & _). by rewrite !lookup_upd_ne.
  - intros b Hb. destruct (HGo b Hb) as (? & ? & ? & ?). split; [|done].
    rewrite !elem_of_cons, elem_of_nil. intros [?|[?|[?|?]]]; congruence.
Qed.

(** An object allocated by the program: nobody refers to it, its count is zero. *)
Lemma st_alloc_at tid this others mx idle m r s p :
  st_at tid this others mx idle m r s -> c_heap (st_cont s) !! p = None ->
  is_struct m p sizeof_passive -> get m (p, SO_RC) = Some 0 -> get m (p, SO_FIELD) = Some NULL ->
  p ∉ owned tid r -> (forall X v, c_roots (st_cont s) !! X = Some v -> X.1 <> p) -> (forall G, gc_inv m G -> p ∉ G) ->
  st_at tid this others mx idle m r (st_alloc s p).
Proof.
  intros ((G & [I1 I2 I3 I4 I5 I6 I7 I8]) & He & Ht & Hep & Hl & Hid) Hp S1 S2 S3 Ho HX HGp.
  assert (Hp0 : p <> NULL) by apply S1. split_and!; try done. exists G. split; simpl; try done.
  - intros q c [[<- <-]|[_ Hq]]%lookup_insert_Some; [|by apply I2]. simpl. split_and!; done.
  - intros q [c [[<- _]|[_ Hq]]%lookup_insert_Some]; [done|]. apply I3. eauto.
  - intros X v HX'. destruct (I5 X v HX') as (A1 & A2 & A3). split_and!; auto.
    rewrite lookup_insert_ne; [done|]. intros E. by apply (HX X v HX').
  - intros b Hb. destruct (I7 b Hb) as [A1 A2]. split; [done|]. rewrite lookup_insert_ne; [done|].
    intros <-. by apply (HGp G).
  - by apply counted_alloc.
Qed.
End start.

(** ** Witnesses: a collector that keeps nothing, one scheduler thread *)
Module demo.
Definition so_gc_fields : list Z :=
  [GC_FINAL_CB; GC_THREADS; GC_ENTRY_MAX; GC_N_THREADS; GC_EPOCH; GC_LOCK; GC_SUBORD_TRACE].

#[local] Instance gc : Gc := {|
  gc_sendobject _ _ _ := Ret tt; pony_send_done _ := Ret tt;
  gc_recvobject _ _ _ := Ret tt; pony_recv_done _ := Ret tt; pony_gc_recv _ := Ret tt;
  pony_traceobject _ _ _ := Ret tt; gc_handlestack _ := Ret tt; pony_ctx := Ret NULL;
  encore_create _ _ := act (fun m => Ok (1048640,
    <[1048576 := Obj sizeof_so_gc (zero_fields so_gc_fields)]> (<[1048640 := Obj 16 (zero_fields [0])]> m)));
  scheduler_cores := Ret 1; call_final_cb _ _ _ := Ret tt;
  so_gc_of this := this - 64 |}.

#[local] Program Instance laws : @GcLaws bump bump_room_laws gc :=
  {| gc_inv _ G := G = ∅; gc_cost := 0 |}.
Next Obligation. done. Qed.
Next Obligation. by intros m G b -> Hb%elem_of_empty. Qed.
Next Obligation. intros m G ctx p k -> Hk. apply tot_ret. exists ∅. auto using frame_refl. Qed.
Next Obligation. intros m G ctx k -> Hk. apply tot_ret. exists ∅. auto using frame_refl. Qed.

(** The storage of the only thread. *)
Definition storage0 : mem := {[ tls 0 := Obj 816 (zero_fields [TL_COUNTER; TL_INDEX]) ]}.

Lemma encore_create_so_starts_witness : tls_ready 0 0 storage0 /\
  tot (so.encore_create_so (H0 := gc) NULL NULL) storage0 (fun this m' => bump_room 10 m' /\
    exists r, st_at 0 this [] 100 (fun _ => true) m' r (st_new this [0])).
Proof.
  assert (H : tls_ready 0 0 storage0).
  { split_and!; try by vm_compute. split; [done|]. eexists. split; by vm_compute. }
  split; [exact H|].
  apply (encore_create_so_starts (HR := bump_room_laws) (HG := gc) (HGL := laws) 0 NULL NULL 0 1 [0] ∅ storage0 10); [exact H|lia|by vm_compute|set_solver|..].
  - intros m. by apply tot_ret.
  - eapply run_tot; [reflexivity|]. split; [|by vm_compute]. split_and!; try by vm_compute.
    + split; [done|]. eexists. split; by vm_compute.
    + by eexists.
    + intros o ->%list_elem_of_singleton. by vm_compute.
    + exists ∅. split_and!; [done| |set_solver..]. split; [|set_solver]. intros b _ Hb.
      rewrite !lookup_insert_ne; [done|..]; intros <-; revert Hb; by intros [? [=]].
Defined.

(** A container with one object, [N], that nothing refers to yet; its link is [X]. *)
Abbreviation THIS := 1048640 (only parsing).
Abbreviation N := 1048768 (only parsing).
Definition X : loc := (THIS, 0).
Definition memory : mem :=
  <[1048576 := Obj sizeof_so_gc (<[GC_THREADS := 1048704]> (<[GC_N_THREADS := 1]> (<[GC_ENTRY_MAX := 100]>
      (<[GC_EPOCH := 1]> (zero_fields so_gc_fields)))))]>
  (<[THIS := Obj 16 (zero_fields [0])]>
  (<[1048704 := Obj 32 (zero_fields so_thread_fields)]>
  (<[N := Obj sizeof_passive (zero_fields [SO_RC; SO_PUBLISHED; SO_FIELD])]>
  storage0))).
Definition state : so_state := st_alloc (st_new THIS [0]) N.

Lemma new : st_at 0 THIS [] 100 (fun _ => true) memory (Rt (so_gc_of THIS) 1048704 1 0 0 [] [[]; []; []]) (st_new THIS [0]).
Proof.
  apply (st_new_at (HR := bump_room_laws) (HG := gc) (HGL := laws) 0 THIS 1048704 0 1 [0] ∅); [|lia|..].
  - split_and!; [|by vm_compute..]. split; [done|]. eexists. split; by vm_compute.
  - split; [done|]. eexists. split; by vm_compute.
  - split; [done|]. eexists. split; by vm_compute.
  - apply (bool_decide_eq_true_1 _). by vm_compute.
  - apply (bool_decide_eq_true_1 _). by vm_compute.
  - by vm_compute.
  - by vm_compute.
  - by vm_compute.
  - by vm_compute.
  - by vm_compute.
  - intros j f Hj Hf. assert (j = 0) as -> by lia. revert f Hf. apply Forall_forall.
    repeat constructor; by vm_compute.
  - intros o ->%list_elem_of_singleton. by vm_compute.
  - done.
  - set_solver.
Qed.

Lemma ready : exists r, st_at 0 THIS [] 100 (fun _ => true) memory r state.
Proof.
  eexists. apply (st_alloc_at (HR := bump_room_laws) (HG := gc) (HGL := laws)); [exact new|done|..].
  - split; [done|]. eexists. split; by vm_compute.
  - by vm_compute.
  - by vm_compute.
  - apply (bool_decide_eq_true_1 _). by vm_compute.
  - intros Y v HY. apply null_roots_value in HY as (_ & -> & _). done.
  - intros G ->. set_solver.
Qed.

Definition client : list so_op := [OEnter; OLink X NULL N; OExit; OEnter; OUnlink X N NULL; OExit].

Lemma so_program_refines_machine_witness :
  exists r, st_at 0 THIS [] 100 (fun _ => true) memory r state /\
  tot (so_calls 9 0 NULL THIS client) memory (fun bs m' => bs = [true; true; true; true; true; true] /\ bump_room 5 m' /\
    exists r', st_at 0 THIS [] 100 (fun _ => true) m' r' (st_run 100 (fun _ => true) state client).1).
Proof.
  destruct ready as [r Hr]. exists r. split; [exact Hr|].
  apply (so_program_refines_machine (HR := bump_room_laws) (HG := gc) (HGL := laws) 9 0 NULL THIS [] 100
    (fun _ => true) client memory r state 5); [exact Hr| |by vm_compute].
  apply (bool_decide_eq_true_1 _). by vm_compute.
Defined.

(** After [client], [N] waits in the limbo list of epoch 1: it is freed
    302 visits later. *)
Lemma so_reclaims_unlinked_witness :
  tot (so_calls 9 0 NULL THIS client ;; so_calls 9 0 NULL THIS (visits 302)) memory (fun _ m' =>
    exists r' s', st_at 0 THIS [] 100 (fun _ => true) m' r' s' /\ c_heap (st_cont s') !! N = None /\ gone 0 r' m' N).
Proof.
  destruct ready as [r Hr]. apply tot_bind.
  eapply tot_mono; [apply (so_calls_ok (HR := bump_room_laws) (HG := gc) (HGL := laws) 9 0 NULL THIS [] 100
    (fun _ => true) client memory r state 900); [exact Hr| |by vm_compute]|].
  { apply (bool_decide_eq_true_1 _). by vm_compute. }
  intros bs m (_ & Hk & r1 & Hs). set (s1 := (st_run _ _ _ _).1) in *.
  assert (E : s1 = St (Cont {[N := Cell 1 NULL]} {[X := NULL]}) [[]; [N]; []] 1 1 1).
  { by vm_compute. }
  clearbody s1. subst s1.
  apply (so_reclaims_unlinked (HR := bump_room_laws) (HG := gc) (HGL := laws) 9 0 NULL THIS [] 100
    (fun _ => true) m r1 _ N (Cell 1 NULL) 0 Hs); simpl; try done; try lia.
  - apply (bool_decide_eq_true_1 _). by vm_compute.
  - set_solver.
  - set_solver.
  - unfold unlinked. apply (bool_decide_eq_true_1 _). by vm_compute.
  - apply (mroom_mono (MallocRoom := bump_room_laws) 900 _ m Hk). apply Nat.leb_le. by vm_compute.
Defined.
End demo.
