(* ===== verification/SoFaults.v ===== *)
(** * Two faults of encore/shared_object.c

    [update_epoch] reads the epoch before it takes the lock: two threads that run
    it at the same time can advance the epoch twice past a thread that is inside
    its critical section, and the object this thread reads is freed.

    [clean_list] passes the link of a freed object on as it is: when the link is
    frozen (the compiler freezes the links it writes with [try]) the pointer that
    is queued is not the object's address, and performing its decrement faults. *)
From S2P Require Export SoStart.

Existing Instance demo.gc.
Abbreviation SO := 1048576 (only parsing).
Abbreviation TH := 1048704 (only parsing).
Abbreviation A := 1049088 (only parsing).
Abbreviation B := 1049152 (only parsing).

Definition new_object (rc : Z) : obj := Obj sizeof_passive (<[SO_RC := rc]> (zero_fields [SO_PUBLISHED; SO_FIELD])).

(** The state after [encore_create_so] with [n] scheduler threads, the link at
    [demo.X] set to [root], and the objects [objs]. *)
Definition so_memory (n : nat) (root : Z) (objs : list (Z * obj)) : mem :=
  <[SO := Obj sizeof_so_gc (<[GC_THREADS := TH]> (<[GC_N_THREADS := Z.of_nat n]> (<[GC_ENTRY_MAX := 100]>
      (<[GC_EPOCH := 1]> (zero_fields demo.so_gc_fields)))))]>
  (<[demo.X.1 := Obj 16 {[demo.X.2 := root]}]>
  (<[TH := Obj (32 * Z.of_nat n)
      (zero_fields (flat_map (fun i => map (fun f => Z.of_nat i * 32 + f) so_thread_fields) (seq 0 n)))]>
  (list_to_map (objs ++ ((fun i => (tls (Z.of_nat i),
      Obj 816 (<[TL_INDEX := Z.of_nat i]> (zero_fields [TL_COUNTER])))) <$> seq 0 n))))).

(** ** The stale epoch *)

(** A thread that enters, follows the link and reads the object it finds. *)
Definition reader (tid : Z) : prog mem unit :=
  so.so_lockfree_on_entry 9 tid demo.X.1 ;;
  n <- load demo.X ;;
  _ <- load (n, SO_FIELD) ;;
  so.so_lockfree_on_exit tid demo.X.1.

(** A thread that unlinks the object and goes on visiting, one that only visits. *)
Definition remover (tid : Z) : prog mem unit :=
  _ <- so_calls 9 tid NULL demo.X.1 ([OEnter; OUnlink demo.X A NULL; OExit] ++ visits 300) ;; Ret tt.
Definition visitor (tid : Z) : prog mem unit := _ <- so_calls 9 tid NULL demo.X.1 (visits 300) ;; Ret tt.

Definition threads : list (prog mem unit) := [reader 0; remover 1; visitor 2].

(** The remover enters in epoch 1 and the visitor advances it to 2; the reader
    enters and finds the object, which the remover then unlinks; the visitor stops
    in [update_epoch] between the read of the epoch and the lock; the remover
    advances the epoch to 0, then the visitor to 1; the remover enters again. *)
Definition schedule : list nat :=
  (replicate 8 1 ++ replicate 1144 2 ++ replicate 10 0 ++ replicate 15 1 ++ replicate 1112 2 ++
   replicate 1144 1 ++ replicate 11 2 ++ replicate 14 1)%nat.

(** ** The frozen link *)

(** [A] is linked and [B] appended to it with [try]; then [A] is unlinked, and the
    thread visits the container until its decrements have been performed. *)
Definition appender : list so_op :=
  [OEnter; OLink demo.X NULL A; OTry (A, SO_FIELD) (FREEZE B); OExit; OEnter; OUnlink demo.X A B; OExit].

Definition frozen_memory : mem := so_memory 1 NULL [(A, new_object 0); (B, new_object 0)].

(** ** Theorems *)

(** C34: Three threads run the operations of a container from its initial state, and the
    schedule frees an object while another thread, which found it through the link,
    is inside its critical section and about to read it: the epoch has advanced
    twice since this thread entered. *)
Theorem update_epoch_stale :
  match exec schedule threads (so_memory 3 A [(A, new_object 1)]) with
  | Ok (ps, m) =>
      get m (thr TH 0 PT_IN_CRITICAL) = Some 1 /\ get m (thr TH 0 PT_LOCAL_EPOCH) = Some 2 /\
      get m (SO, GC_EPOCH) = Some ((2 + 2) mod 3) /\ m !! A = None /\
      match ps !! O with Some p => exists e, pstep p m = Err e | None => False end
  | Err _ => False
  end.
Proof.
  assert (E : match exec schedule threads (so_memory 3 A [(A, new_object 1)]) with
    | Ok (ps, m) => (bool_decide (get m (thr TH 0 PT_IN_CRITICAL) = Some 1) && bool_decide (get m (thr TH 0 PT_LOCAL_EPOCH) = Some 2) &&
        bool_decide (get m (SO, GC_EPOCH) = Some ((2 + 2) mod 3)) && bool_decide (m !! A = None) &&
        match ps !! O with Some p => match pstep p m with Err _ => true | Ok _ => false end | None => false end)%bool
    | Err _ => false end = true) by (by vm_compute).
  destruct (exec _ _ _) as [[ps m]|e]; [|done].
  rewrite !andb_true_iff, !bool_decide_eq_true in E. destruct E as ((((E1 & E2) & E3) & E4) & E5).
  split_and!; [done..|]. destruct (ps !! O) as [p|]; [|done]. destruct (pstep p m) as [|e]; [done|by exists e].
Qed.


(** C35: A list of two objects made with the operations of the generated code, the first
    of which is unlinked: 503 visits free it and leave the other one alone, but the
    decrement of its frozen link, which the next visit performs, faults. *)
Theorem clean_list_frozen_link :
  (exists bs m, run (so_calls 9 0 NULL demo.X.1 (appender ++ visits 503)) frozen_memory = Ok (bs, m) /\
     m !! A = None /\ live m B /\ get m demo.X = Some B) /\
  run (so_calls 9 0 NULL demo.X.1 (appender ++ visits 504)) frozen_memory = Err EAccess.
Proof.
  split; [|by vm_compute].
  assert (E : match run (so_calls 9 0 NULL demo.X.1 (appender ++ visits 503)) frozen_memory with
    | Ok (_, m) => (bool_decide (m !! A = None) && bool_decide (is_Some (m !! B)) && bool_decide (get m demo.X = Some B))%bool
    | Err _ => false end = true) by (by vm_compute).
  destruct (run _ _) as [[bs m]|e]; [|done]. exists bs, m. split; [done|].
  rewrite !andb_true_iff, !bool_decide_eq_true in E. by destruct E as ((E1 & E2) & E3).
Qed.
