(* ===== verification/Fun.v ===== *)
(** * Hash functions and sizes of the runtime (ds/fun.c, mem/pool.c)

    The hash functions on 64-bit words, the next power of two, and the size
    classes of the pool allocator.  Words are [Z] below [2 ^ 64], with the
    wrap-around of each operation written out; [char] is signed. *)
From S2P Require Export Prelude.

Module ds_fun.
Definition xor (a b : Z) : Z := Z.lxor a b.
Definition shl (x n : Z) : Z := u64 (Z.shiftl x n).
Definition shr (x n : Z) : Z := Z.shiftr x n.
Definition not64 (x : Z) : Z := u64 (-1 - x).

Definition hash_int64 (key : Z) : Z :=
  let key := u64 (not64 key + shl key 21) in
  let key := xor key (shr key 24) in
  let key := u64 (u64 (key + shl key 3) + shl key 8) in
  let key := xor key (shr key 14) in
  let key := u64 (u64 (key + shl key 2) + shl key 4) in
  let key := xor key (shr key 28) in
  u64 (key + shl key 31).

Definition hash_int32 (key : Z) : Z :=
  let key := u32 (u32 (-1 - key) + u32 (Z.shiftl key 15)) in
  let key := xor key (shr key 12) in
  let key := u32 (key + u32 (Z.shiftl key 2)) in
  let key := xor key (shr key 4) in
  let key := u32 (u32 (key + u32 (Z.shiftl key 3)) + u32 (Z.shiftl key 11)) in
  xor key (shr key 16).

(** 64-bit platforms *)
Definition hash_ptr (p : Z) : Z := hash_int64 p.
Definition hash_size (key : Z) : Z := hash_int64 key.

Definition next_pow2 (i : Z) : Z :=
  let i := u64 (i - 1) in
  let i := Z.lor i (shr i 1) in
  let i := Z.lor i (shr i 2) in
  let i := Z.lor i (shr i 4) in
  let i := Z.lor i (shr i 8) in
  let i := Z.lor i (shr i 16) in
  let i := Z.lor i (shr i 32) in
  u64 (i + 1).

(** ** SipHash *)
Definition ROTL (x b : Z) : Z := Z.lor (shl x b) (shr x (64 - b)).

Record sip : Set := Sip { v0 : Z; v1 : Z; v2 : Z; v3 : Z }.

Definition SIPROUND (s : sip) : sip :=
  let v0 := u64 (v0 s + v1 s) in let v1 := xor (ROTL (v1 s) 13) v0 in let v0 := ROTL v0 32 in
  let v2 := u64 (v2 s + v3 s) in let v3 := xor (ROTL (v3 s) 16) v2 in
  let v0 := u64 (v0 + v3) in let v3 := xor (ROTL v3 21) v0 in
  let v2 := u64 (v2 + v1) in let v1 := xor (ROTL v1 17) v2 in let v2 := ROTL v2 32 in
  Sip v0 v1 v2 v3.

(** A little-endian load. *)
Fixpoint word (bs : list Z) : Z := match bs with [] => 0 | b :: bs' => b + 256 * word bs' end.

(** [(uint64_t)c] for a byte [c] read as a signed char. *)
Definition char64 (c : Z) : Z := u64 (if c <? 128 then c else c - 256).

Definition absorb (s : sip) (m : Z) : sip :=
  let s := Sip (v0 s) (v1 s) (v2 s) (xor (v3 s) m) in
  let s := SIPROUND (SIPROUND s) in
  Sip (xor (v0 s) m) (v1 s) (v2 s) (v3 s).

(** The loop over the blocks of eight bytes. *)
Fixpoint blocks (n : nat) (s : sip) (bs : list Z) : sip * list Z :=
  match n with
  | O => (s, bs)
  | S n' => blocks n' (absorb s (word (take 8 bs))) (drop 8 bs)
  end.

(** The switch, whose cases fall through: the last byte first. *)
Fixpoint tail (i : nat) (b : Z) (bs : list Z) : Z :=
  match i with
  | O => b
  | S i' => tail i' (Z.lor b (shl (char64 (nth i' bs 0)) (8 * Z.of_nat i'))) bs
  end.

Definition siphash24 (key bs : list Z) : Z :=
  let len := Z.of_nat (length bs) in
  let k0 := word (take 8 key) in
  let k1 := word (take 8 (drop 8 key)) in
  let b := shl len 56 in
  let s := Sip (xor k0 0x736f6d6570736575) (xor k1 0x646f72616e646f6d) (xor k0 0x6c7967656e657261) (xor k1 0x7465646279746573) in
  let r := blocks (Z.to_nat (len / 8)) s bs in
  let b := tail (Z.to_nat (Z.land len 7)) b r.2 in
  let s := absorb r.1 b in
  let s := Sip (v0 s) (v1 s) (xor (v2 s) 0xff) (v3 s) in
  let s := SIPROUND (SIPROUND (SIPROUND (SIPROUND s))) in
  xor (xor (xor (v0 s) (v1 s)) (v2 s)) (v3 s).

Definition the_key : list Z :=
  [0xFE; 0x09; 0xD3; 0x22; 0x6B; 0x9C; 0x10; 0x8A; 0xE1; 0x35; 0x72; 0xB5; 0xCC; 0x3F; 0x92; 0x9F].

(** [p] is given by its bytes; a string by the bytes before its terminator. *)
Definition hash_block (bs : list Z) : Z := siphash24 the_key bs.
Fixpoint strlen (bs : list Z) : nat :=
  match bs with [] => O | b :: bs' => if b =? 0 then O else S (strlen bs') end.
Definition hash_str (bs : list Z) : Z := siphash24 the_key (take (strlen bs) bs).
End ds_fun.

(** ** The size classes of the pool *)
Module pool.
Definition POOL_MIN_BITS : Z := 5.
Definition POOL_MAX_BITS : Z := 20.
Definition POOL_ALIGN_BITS : Z := 10.
Definition POOL_MIN : Z := Z.shiftl 1 POOL_MIN_BITS.
Definition POOL_MAX : Z := Z.shiftl 1 POOL_MAX_BITS.
Definition POOL_COUNT : Z := POOL_MAX_BITS - POOL_MIN_BITS + 1.
Definition POOL_ALIGN : Z := Z.shiftl 1 POOL_ALIGN_BITS.
Definition POOL_ALIGN_MASK : Z := POOL_ALIGN - 1.

(** [ffsl]: one more than the position of the lowest bit set. *)
Definition ffsl (x : Z) : Z := if x =? 0 then 0 else Z.log2 (Z.land x (- x)) + 1.

Definition pool_index (size : Z) : Z :=
  if size <=? POOL_MIN then 0
  else if POOL_MAX <? size then POOL_COUNT
  else
    let size := ds_fun.next_pow2 size in
    ffsl size - (POOL_MIN_BITS + 1).

Definition pool_size (index : Z) : Z := ds_fun.shl 1 (POOL_MIN_BITS + index).

Definition pool_adjust_size (size : Z) : Z :=
  if negb (Z.land size POOL_ALIGN_MASK =? 0)
  then u64 (Z.land size (ds_fun.not64 POOL_ALIGN_MASK) + POOL_ALIGN)
  else size.
End pool.

(** * Proofs *)
Import ds_fun.

(** ** The next power of two *)
Section smear.
Variable L : Z.

(** The [w] bits from [L] down are set, and none above. *)
Definition smeared (w x : Z) : Prop :=
  0 <= x /\ (forall j, 0 <= j -> L < j -> Z.testbit x j = false) /\ (forall j, 0 <= j -> L - w < j <= L -> Z.testbit x j = true).

Lemma smear_step w x : 0 < w -> smeared w x -> smeared (w + w) (Z.lor x (shr x w)).
Proof.
  intros Hw (H0 & H1 & H2). unfold shr. split_and!.
  - apply Z.lor_nonneg. split; [done|]. by apply Z.shiftr_nonneg.
  - intros j Hj0 Hj. rewrite Z.lor_spec, Z.shiftr_spec by lia. by rewrite !H1 by lia.
  - intros j Hj0 Hj. rewrite Z.lor_spec, Z.shiftr_spec by lia. destruct (Z.lt_ge_cases (L - w) j).
    + by rewrite H2 by lia.
    + rewrite (H2 (j + w)) by lia. apply orb_true_r.
Qed.

Lemma smear_all w x : 0 <= L < w -> smeared w x -> x = 2 ^ (L + 1) - 1.
Proof.
  intros Hw (H0 & H1 & H2). replace (2 ^ (L + 1) - 1) with (Z.ones (L + 1)) by (rewrite Z.ones_equiv; lia).
  apply Z.bits_inj'. intros j Hj. destruct (Z.lt_ge_cases L j).
  - rewrite H1 by lia. by rewrite Z.ones_spec_high by lia.
  - rewrite H2 by lia. by rewrite Z.ones_spec_low by lia.
Qed.
End smear.

Lemma smear_start n : 0 < n -> smeared (Z.log2 n) 1 n.
Proof.
  intros Hn. split_and!; [lia| |].
  - intros j _ Hj. apply Z.bits_above_log2; lia.
  - intros j Hj0 Hj. assert (j = Z.log2 n) as -> by lia. by apply Z.bit_log2.
Qed.

(** The power of two that is the least upper bound, zero when there is none below 2^64. *)
Lemma next_pow2_spec i : 0 <= i < M64 ->
  next_pow2 i = if (1 <=? i) && (i <=? 2 ^ 63) then 2 ^ Z.log2_up i else 0.
Proof.
  intros Hi. destruct (Z.eq_dec i 0) as [->|Hi0]; [done|]. unfold next_pow2.
  rewrite (u64_small (i - 1)) by lia. destruct (Z.eq_dec i 1) as [->|Hi1]; [done|].
  pose proof (smear_start (i - 1) ltac:(lia)) as S.
  apply (smear_step _ 1) in S; [|lia]. apply (smear_step _ 2) in S; [|lia]. apply (smear_step _ 4) in S; [|lia].
  apply (smear_step _ 8) in S; [|lia]. apply (smear_step _ 16) in S; [|lia]. apply (smear_step _ 32) in S; [|lia].
  assert (HL : 0 <= Z.log2 (i - 1) < 64).
  { split; [apply Z.log2_nonneg|apply Z.log2_lt_pow2; [lia|]]. change (2 ^ 64) with M64. lia. }
  rewrite (smear_all _ _ _ HL S). clear S. rewrite Z.sub_add, (proj2 (Z.leb_le 1 i)) by lia. simpl.
  rewrite Z.log2_up_eqn by lia. rewrite <- Z.sub_1_r, <- Z.add_1_r.
  destruct (Z.leb_spec i (2 ^ 63)) as [H63|H63].
  - apply u64_small. split; [apply Z.pow_nonneg; lia|]. change M64 with (2 ^ 64). apply Z.pow_lt_mono_r; [lia|lia|].
    assert (Z.log2 (i - 1) < 63); [|lia]. apply Z.log2_lt_pow2; lia.
  - assert (Z.log2 (i - 1) = 63) as ->; [|done]. apply Z.log2_unique; [lia|]. unfold M64 in *. lia.
Qed.

(** ** The hash functions are injective *)

Lemma mul_odd_inj k a b c : 0 < k -> Z.odd a = true -> (b * a) mod 2 ^ k = (c * a) mod 2 ^ k ->
  0 <= b < 2 ^ k -> 0 <= c < 2 ^ k -> b = c.
Proof.
  intros Hk Ha E Hb Hc. assert (D : (2 ^ k | a * (b - c))).
  { apply Z.mod_divide; [apply Z.pow_nonzero; lia|]. replace (a * (b - c)) with (b * a - c * a) by ring.
    rewrite Zminus_mod, E, Z.sub_diag. apply Z.mod_0_l. apply Z.pow_nonzero; lia. }
  apply Z.gauss in D.
  - destruct D as [q D]. assert (q = 0); [|nia]. nia.
  - apply Z.coprime_pow_l; [lia|]. change (Z.gcd 2 a = 1). rewrite <- Z.gcd_mod by done. by rewrite Zmod_odd, Ha.
Qed.

Lemma xorshift_inj k x y : 0 < k -> 0 <= x -> 0 <= y -> xor x (shr x k) = xor y (shr y k) -> x = y.
Proof.
  unfold xor, shr. intros Hk Hx Hy E. set (d := Z.lxor x y). assert (Hd : 0 <= d) by (by apply Z.lxor_nonneg).
  assert (Ed : d = Z.shiftr d k).
  { apply Z.lxor_eq, Z.bits_inj'. intros j Hj. unfold d. apply (f_equal (fun z => Z.testbit z j)) in E.
    rewrite Z.bits_0, !Z.lxor_spec, !Z.shiftr_spec, !Z.lxor_spec in * by lia.
    destruct (Z.testbit x j), (Z.testbit y j), (Z.testbit x (j + k)), (Z.testbit y (j + k)); simpl in *; congruence. }
  apply Z.lxor_eq. fold d. rewrite Z.shiftr_div_pow2 in Ed by lia. destruct (Z.eq_dec d 0) as [|Hd0]; [done|].
  assert (d / 2 ^ k < d); [|lia]. apply Z.div_lt; [lia|]. apply Z.pow_gt_1; lia.
Qed.

Lemma xorshift_range k x : 0 <= x < M64 -> 0 < k -> 0 <= xor x (shr x k) < M64.
Proof.
  intros Hx Hk. unfold xor, shr. assert (H : 0 <= Z.lxor x (Z.shiftr x k)).
  { apply Z.lxor_nonneg. split; intros _; [apply Z.shiftr_nonneg|]; lia. }
  split; [done|]. destruct (Z.eq_dec (Z.lxor x (Z.shiftr x k)) 0) as [->|Hn]; [done|]. change M64 with (2 ^ 64) in *.
  apply Z.log2_lt_pow2; [lia|]. destruct (Z.eq_dec x 0) as [->|Hx0]; [by rewrite Z.shiftr_0_l in Hn|].
  assert (Z.log2 x < 64) by (apply Z.log2_lt_pow2; lia).
  eapply Z.le_lt_trans; [apply Z.log2_lxor; [lia|apply Z.shiftr_nonneg; lia]|].
  rewrite Z.log2_shiftr by lia. pose proof (Z.log2_nonneg x). lia.
Qed.

Ltac words := unfold not64, shl, u64; rewrite ?Z.shiftl_mul_pow2 by lia;
  rewrite ?Zplus_mod_idemp_r; rewrite ?Zplus_mod_idemp_l.

Lemma hash_int64_inj x y : 0 <= x < M64 -> 0 <= y < M64 -> hash_int64 x = hash_int64 y -> x = y.
Proof.
  intros Hx Hy. unfold hash_int64.
  assert (S1 : forall a b, 0 <= a < M64 -> 0 <= b < M64 -> u64 (not64 a + shl a 21) = u64 (not64 b + shl b 21) -> a = b).
  { intros a b Ha Hb. words. intros E. apply (mul_odd_inj 64 (2 ^ 21 - 1) a b); try done.
    replace (a * (2 ^ 21 - 1)) with (-1 - a + a * 2 ^ 21 + 1) by ring.
    replace (b * (2 ^ 21 - 1)) with (-1 - b + b * 2 ^ 21 + 1) by ring.
    rewrite <- (Zplus_mod_idemp_l (-1 - a + _)), <- (Zplus_mod_idemp_l (-1 - b + _)). change (2 ^ 64) with M64. by rewrite E. }
  assert (S2 : forall i j a b, 0 <= i -> 0 <= j -> Z.odd (1 + 2 ^ i + 2 ^ j) = true -> 0 <= a < M64 -> 0 <= b < M64 ->
    u64 (u64 (a + shl a i) + shl a j) = u64 (u64 (b + shl b i) + shl b j) -> a = b).
  { intros i j a b Hi Hj Ho Ha Hb. words. intros E. apply (mul_odd_inj 64 (1 + 2 ^ i + 2 ^ j) a b); try done.
    replace (a * (1 + 2 ^ i + 2 ^ j)) with (a + a * 2 ^ i + a * 2 ^ j) by ring.
    replace (b * (1 + 2 ^ i + 2 ^ j)) with (b + b * 2 ^ i + b * 2 ^ j) by ring. exact E. }
  assert (S3 : forall a b, 0 <= a < M64 -> 0 <= b < M64 -> u64 (a + shl a 31) = u64 (b + shl b 31) -> a = b).
  { intros a b Ha Hb. words. intros E. apply (mul_odd_inj 64 (1 + 2 ^ 31) a b); try done.
    replace (a * (1 + 2 ^ 31)) with (a + a * 2 ^ 31) by ring. replace (b * (1 + 2 ^ 31)) with (b + b * 2 ^ 31) by ring. exact E. }
  intros E. apply S3 in E; [|apply xorshift_range; [apply u64_range|lia]..].
  apply xorshift_inj in E; [|lia|apply u64_range..]. apply S2 in E; [|done|done|done|apply xorshift_range; [apply u64_range|lia]..].
  apply xorshift_inj in E; [|lia|apply u64_range..]. apply S2 in E; [|done|done|done|apply xorshift_range; [apply u64_range|lia]..].
  apply xorshift_inj in E; [|lia|apply u64_range..]. by apply S1 in E.
Qed.

(** ** The size classes *)
Import pool.

Lemma ffsl_pow2 k : 0 <= k -> ffsl (2 ^ k) = k + 1.
Proof.
  intros Hk. unfold ffsl. assert (0 < 2 ^ k) by (apply Z.pow_pos_nonneg; lia).
  rewrite (proj2 (Z.eqb_neq (2 ^ k) 0)) by lia. assert (Z.land (2 ^ k) (- 2 ^ k) = 2 ^ k) as ->.
  { apply Z.bits_inj'. intros j Hj. rewrite Z.land_spec. destruct (Z.eq_dec j k) as [->|Hne].
    - rewrite Z.pow2_bits_true by lia. simpl. rewrite Z.bits_opp by lia. replace (Z.pred (2 ^ k)) with (Z.ones k) by (rewrite Z.ones_equiv; lia).
      by rewrite Z.ones_spec_high by lia.
    - by rewrite Z.pow2_bits_false by lia. }
  by rewrite Z.log2_pow2.
Qed.

Lemma pool_size_pow2 i : 0 <= i < POOL_COUNT -> pool_size i = 2 ^ (5 + i).
Proof.
  intros Hi. unfold pool_size, ds_fun.shl, POOL_MIN_BITS. change POOL_COUNT with 16 in Hi.
  rewrite Z.shiftl_mul_pow2, Z.mul_1_l by lia. apply u64_small. split; [apply Z.pow_nonneg; lia|].
  change M64 with (2 ^ 64). apply Z.pow_lt_mono_r; lia.
Qed.

Lemma pool_index_log size : POOL_MIN < size <= POOL_MAX -> pool_index size = Z.log2_up size - 5.
Proof.
  change POOL_MIN with 32. change POOL_MAX with (2 ^ 20). intros H. unfold pool_index.
  change POOL_MIN with 32. change POOL_MAX with (2 ^ 20).
  rewrite (proj2 (Z.leb_gt size 32)), (proj2 (Z.ltb_ge (2 ^ 20) size)) by lia. cbv zeta.
  rewrite next_pow2_spec by (unfold M64; lia). rewrite (proj2 (Z.leb_le 1 size)), (proj2 (Z.leb_le size (2 ^ 63))) by lia.
  simpl. rewrite ffsl_pow2 by apply Z.log2_up_nonneg. unfold POOL_MIN_BITS. lia.
Qed.

Lemma log2_up_range size : 32 < size <= 2 ^ 20 -> 5 < Z.log2_up size <= 20.
Proof.
  intros H. split.
  - apply Z.log2_up_lt_pow2; lia.
  - apply Z.log2_up_le_pow2; lia.
Qed.

Lemma land_not_mask size : 0 <= size < M64 -> Z.land size (ds_fun.not64 POOL_ALIGN_MASK) = size - size mod 1024.
Proof.
  intros Hs. change (ds_fun.not64 POOL_ALIGN_MASK) with (Z.land (Z.lnot (Z.ones 10)) (Z.ones 64)).
  rewrite (Z.land_comm (Z.lnot _)), Z.land_assoc, Z.land_ones by lia. change (2 ^ 64) with M64. rewrite (Z.mod_small size) by done.
  rewrite <- Z.ldiff_land, Z.ldiff_ones_r by lia. rewrite Z.shiftr_div_pow2, Z.shiftl_mul_pow2 by lia.
  change (2 ^ 10) with 1024. pose proof (Z.div_mod size 1024). lia.
Qed.

(** ** Tails of SipHash *)

(** A negative [char] sets every bit above its byte. *)
Lemma char64_high c j : 128 <= c < 256 -> 8 <= j < 64 -> Z.testbit (char64 c) j = true.
Proof.
  intros Hc Hj. unfold char64. rewrite (proj2 (Z.ltb_ge c 128)) by lia. unfold u64.
  assert ((c - 256) mod M64 = c + Z.ones 56 * 2 ^ 8) as ->.
  { rewrite <- (Z.mod_add (c - 256) 1) by done. change (Z.ones 56) with (2 ^ 56 - 1). unfold M64.
    rewrite Z.mod_small; lia. }
  replace j with (j - 8 + 8) by lia. rewrite <- Z.div_pow2_bits by lia. rewrite Z.div_add by done.
  rewrite Z.div_small, Z.add_0_l by lia. apply Z.ones_spec_low. lia.
Qed.

(** A word whose lowest byte is zero. *)
Definition high (b : Z) : Prop := forall j, Z.testbit b j = true -> 8 <= j < 64.

Lemma high_shl x n : 8 <= n -> high (shl x n).
Proof.
  intros Hn j Hj. unfold shl, u64 in Hj. change M64 with (2 ^ 64) in Hj.
  destruct (Z.lt_ge_cases j 0); [by rewrite Z.testbit_neg_r in Hj|].
  destruct (Z.lt_ge_cases j 64); [|by rewrite Z.mod_pow2_bits_high in Hj by lia].
  rewrite Z.mod_pow2_bits_low, Z.shiftl_spec in Hj by lia. split; [|done].
  destruct (Z.lt_ge_cases j 8); [|done]. by rewrite Z.testbit_neg_r in Hj by lia.
Qed.

Lemma high_lor a b : high a -> high b -> high (Z.lor a b).
Proof. intros Ha Hb j. rewrite Z.lor_spec. intros [Hj|Hj]%orb_prop; auto. Qed.

(** After a first byte of 128 or more, nothing else of the tail matters. *)
Lemma tail_sign i b c bs : (0 < i)%nat -> high b -> 128 <= c < 256 -> tail i b (c :: bs) = char64 c.
Proof.
  intros Hi Hb Hc. revert b Hb. induction i as [|i IH]; intros b Hb; [lia|]. cbn [tail]. destruct i as [|i].
  - simpl. unfold shl. rewrite Z.shiftl_0_r, u64_small by apply u64_range. apply Z.bits_inj'. intros j Hj. rewrite Z.lor_spec.
    destruct (Z.testbit b j) eqn:E; [|done]. by rewrite char64_high by auto.
  - apply IH; [lia|]. apply high_lor; [done|]. apply high_shl. lia.
Qed.

Lemma blocks_app n s p t : length p = (8 * n)%nat -> blocks n s (p ++ t) = ((blocks n s p).1, t).
Proof.
  revert s p. induction n as [|n IH]; intros s p Hp; simpl.
  - by destruct p.
  - rewrite take_app_le, drop_app_le by lia. apply IH. rewrite length_drop. lia.
Qed.

(** ** Theorems *)

(** C30: [next_pow2] is the least power of two that is not below its argument, and zero
    exactly for zero and where that power does not fit in 64 bits. *)
Theorem next_pow2_correct i : 0 <= i < M64 ->
  (1 <= i <= 2 ^ 63 -> exists k, 0 <= k <= 63 /\ next_pow2 i = 2 ^ k /\ i <= 2 ^ k /\ (k = 0 \/ 2 ^ (k - 1) < i)) /\
  (i = 0 \/ 2 ^ 63 < i -> next_pow2 i = 0).
Proof.
  intros Hi. rewrite next_pow2_spec by done. split.
  - intros H. rewrite (proj2 (Z.leb_le 1 i)), (proj2 (Z.leb_le i (2 ^ 63))) by lia. exists (Z.log2_up i). simpl.
    destruct (Z.eq_dec i 1) as [->|Hi1]; [split_and!; try done; by left|].
    pose proof (Z.log2_up_spec i ltac:(lia)) as Hlog. rewrite <- Z.sub_1_r in Hlog.
    split_and!; [apply Z.log2_up_nonneg|apply Z.log2_up_le_pow2; lia|done|lia|right; lia].
  - intros H. destruct (Z.leb_spec 1 i), (Z.leb_spec i (2 ^ 63)); simpl; try done. lia.
Qed.

Lemma next_pow2_correct_witness : 0 <= 100 < M64 /\ exists k, 0 <= k <= 63 /\ next_pow2 100 = 2 ^ k.
Proof.
  assert (H : 0 <= 100 < M64) by (unfold M64; lia). split; [exact H|].
  destruct (proj1 (next_pow2_correct 100 H) ltac:(lia)) as (k & Hk & E & _). exists k. auto.
Defined.

(** C31: [hash_ptr] and [hash_size] have no collisions: [hash_int64] is injective on words. *)
Theorem hash_int64_injective x y : 0 <= x < M64 -> 0 <= y < M64 ->
  (hash_ptr x = hash_ptr y <-> x = y) /\ (hash_size x = hash_size y <-> x = y).
Proof. unfold hash_ptr, hash_size. intros Hx Hy. split; (split; [exact (hash_int64_inj x y Hx Hy)|by intros ->]). Qed.

Lemma hash_int64_injective_witness : (0 <= 4096 < M64 /\ 0 <= 8192 < M64) /\
  (hash_ptr 4096 = hash_ptr 8192 <-> 4096 = 8192) /\ (hash_size 4096 = hash_size 8192 <-> 4096 = 8192).
Proof.
  assert (H : 0 <= 4096 < M64 /\ 0 <= 8192 < M64) by (unfold M64; lia). split; [exact H|].
  exact (hash_int64_injective 4096 8192 (proj1 H) (proj2 H)).
Defined.

(** [pool_index] is the least size class that holds the size, [POOL_COUNT] when none
    does, and the class of the size of a class is the class. *)
Theorem pool_index_least size : 0 < size < M64 ->
  (size <= POOL_MAX -> 0 <= pool_index size < POOL_COUNT /\ size <= pool_size (pool_index size) /\
     (pool_index size = 0 \/ pool_size (pool_index size - 1) < size)) /\
  (POOL_MAX < size -> pool_index size = POOL_COUNT) /\
  (forall i, 0 <= i < POOL_COUNT -> pool_index (pool_size i) = i).
Proof.
  intros Hs. split; [|split].
  - intros Hm. destruct (Z.leb_spec size POOL_MIN) as [H|H].
    + unfold pool_index. rewrite (proj2 (Z.leb_le _ _) H). split_and!; [done|done| |by left]. exact H.
    + rewrite pool_index_log by done. change POOL_MIN with 32 in H. change POOL_MAX with (2 ^ 20) in Hm.
      pose proof (log2_up_range size ltac:(lia)) as Hl. pose proof (Z.log2_up_spec size ltac:(lia)) as Hlog.
      rewrite <- Z.sub_1_r in Hlog. change POOL_COUNT with 16.
      rewrite !pool_size_pow2 by (change POOL_COUNT with 16; lia).
      replace (5 + (Z.log2_up size - 5)) with (Z.log2_up size) by lia.
      replace (5 + (Z.log2_up size - 5 - 1)) with (Z.log2_up size - 1) by lia. split_and!; lia.
  - intros H. unfold pool_index. change POOL_MIN with 32. change POOL_MAX with (2 ^ 20) in *.
    by rewrite (proj2 (Z.leb_gt size 32)), (proj2 (Z.ltb_lt _ _)) by lia.
  - intros i Hi. rewrite pool_size_pow2 by done. change POOL_COUNT with 16 in Hi. destruct (Z.eq_dec i 0) as [->|Hi0]; [done|].
    rewrite pool_index_log; [rewrite Z.log2_up_pow2; lia|]. change POOL_MIN with (2 ^ 5). change POOL_MAX with (2 ^ 20).
    split; [apply Z.pow_lt_mono_r|apply Z.pow_le_mono_r]; lia.
Qed.

Lemma pool_index_least_witness : pool_index 1000 = 5 /\ 1000 <= pool_size (pool_index 1000).
Proof.
  split; [by vm_compute|]. destruct (pool_index_least 1000) as (H & _ & _); [unfold M64; lia|].
  apply H. by vm_compute.
Defined.

(** [pool_adjust_size] rounds up to the next multiple of the alignment. *)
Theorem pool_adjust_size_correct size : 0 <= size <= M64 - POOL_ALIGN ->
  size <= pool_adjust_size size < size + POOL_ALIGN /\ pool_adjust_size size mod POOL_ALIGN = 0.
Proof.
  change POOL_ALIGN with 1024. intros Hs. unfold pool_adjust_size. change POOL_ALIGN with 1024.
  assert (Hm : Z.land size POOL_ALIGN_MASK = size mod 1024).
  { change POOL_ALIGN_MASK with (Z.ones 10). by rewrite Z.land_ones by lia. }
  rewrite Hm. pose proof (Z.mod_pos_bound size 1024 ltac:(lia)) as Hb. pose proof (Z.div_mod size 1024 ltac:(lia)) as Hd.
  destruct (Z.eqb_spec (size mod 1024) 0) as [E|E]; simpl; [lia|].
  rewrite land_not_mask by lia.
  assert (M64 = 1024 * 2 ^ 54) by done. rewrite u64_small.
  - split; [lia|]. replace (size - size mod 1024 + 1024) with ((size / 1024 + 1) * 1024) by lia. apply Z.mod_mul. lia.
  - split; [lia|]. assert (size <> M64 - 1024); [|lia]. intros ->. apply E. by vm_compute.
Qed.

Lemma pool_adjust_size_correct_witness : pool_adjust_size 1500 = 2048 /\ 1500 <= pool_adjust_size 1500 < 1500 + POOL_ALIGN.
Proof. split; [by vm_compute|]. apply pool_adjust_size_correct. split; [lia|by vm_compute]. Defined.

(** C37: [char] is signed: when the first byte after the last whole block is 128 or more,
    the other bytes of the tail, and how many there are, do not reach the hash. *)
Theorem siphash_tail_collides n p c t t' : length p = (8 * n)%nat -> 128 <= c < 256 ->
  (length t < 7)%nat -> (length t' < 7)%nat -> hash_block (p ++ c :: t) = hash_block (p ++ c :: t').
Proof.
  intros Hp Hc Ht Ht'. assert (H : forall t, (length t < 7)%nat -> forall key,
    siphash24 key (p ++ c :: t) =
    let k0 := word (take 8 key) in let k1 := word (take 8 (drop 8 key)) in
    let s := absorb (blocks n (Sip (xor k0 0x736f6d6570736575) (xor k1 0x646f72616e646f6d)
      (xor k0 0x6c7967656e657261) (xor k1 0x7465646279746573)) p).1 (char64 c) in
    let s := SIPROUND (SIPROUND (SIPROUND (SIPROUND (Sip (v0 s) (v1 s) (xor (v2 s) 0xff) (v3 s))))) in
    xor (xor (xor (v0 s) (v1 s)) (v2 s)) (v3 s)).
  { clear t t' Ht Ht'. intros t Ht key. unfold siphash24. rewrite length_app. cbn [length]. rewrite Hp.
    replace (Z.of_nat (8 * n + S (length t))) with (Z.of_nat (S (length t)) + Z.of_nat n * 8) by lia.
    assert ((Z.of_nat (S (length t)) + Z.of_nat n * 8) / 8 = Z.of_nat n) as -> by (rewrite Z.div_add, Z.div_small; lia).
    assert (Z.land (Z.of_nat (S (length t)) + Z.of_nat n * 8) 7 = Z.of_nat (S (length t))) as ->.
    { change 7 with (Z.ones 3). rewrite Z.land_ones by lia. change (2 ^ 3) with 8. rewrite Z.mod_add, Z.mod_small; lia. }
    rewrite !Nat2Z.id, blocks_app by done. cbn [fst snd]. rewrite tail_sign; [done|lia| |done]. apply high_shl. lia. }
  unfold hash_block. by rewrite !H.
Qed.

Lemma siphash_tail_collides_witness :
  hash_block [0xC3; 0xA9] = hash_block [0xC3; 0xBC; 0x6E] /\ hash_block [0x61] <> hash_block [0x62].
Proof.
  split; [|by vm_compute]. apply (siphash_tail_collides 0 [] 0xC3 [0xA9] [0xBC; 0x6E]); simpl; lia.
Defined.
