(* ===== verification/HashMap.v ===== *)
(** * The hash maps of the runtime (ds/hash.c)

    Open addressing with quadratic probing and tombstones.  A map refers to its
    elements, whose keys it reads through the callbacks [hash_fn] and [cmp_fn];
    they are the interface [HashFns].  The array of buckets comes from the pools.

    The probe at iteration [i] looks at the triangular number [T(i - 1)] after the
    home slot (the home slot twice): all slots but one of a power of two.  With
    at most half of the slots in use a search always finds a free slot, and the
    operations implement a finite map from keys to elements. *)
From S2P Require Export Fun GcStack.

Abbreviation HM_COUNT := 0 (only parsing).
Abbreviation HM_SIZE := 8 (only parsing).
Abbreviation HM_BUCKETS := 16 (only parsing).
Definition sizeof_hashmap_t : Z := 24.
Definition HASHMAP_BEGIN : Z := M64 - 1.
Definition DELETED : Z := 1.

Class HashFns := { hash_fn : Z -> prog mem Z; cmp_fn : Z -> Z -> prog mem bool }.

Module hash_map.
Definition valid (entry : Z) : bool := DELETED <? entry.

(** The slot of the next iteration. *)
Definition next_index (h mask i : Z) : Z :=
  Z.land (u64 (h + Z.shiftr (u64 (i + u64 (i * i))) 1)) mask.

Section code.
Context `{!Malloc, !HashFns}.

(** The element found, and the position written through [pos]. *)
Definition search (map key : Z) : prog mem (Z * Z) :=
  index_del <- load (map, HM_SIZE) ;;
  let mask := u64 (index_del - 1) in
  h <- hash_fn key ;;
  let index := Z.land h mask in
  loop (S (S (Z.to_nat mask))) (fun '(i, index, index_del) =>
    if negb (i <=? mask) then break (NULL, index_del)
    else
      buckets <- load (map, HM_BUCKETS) ;;
      elem <- load (buckets, 8 * index) ;;
      if elem =? NULL then break (NULL, if index_del <=? mask then index_del else index)
      else if elem =? DELETED then
        continue (i + 1, next_index h mask i, if mask <? index_del then index else index_del)
      else
        eq <- cmp_fn key elem ;;
        if eq : bool then break (elem, index)
        else continue (i + 1, next_index h mask i, index_del)) (0, index, index_del).

(** [alloc] and [fr] of every map of the runtime. *)
Definition pool_alloc_size (size : Z) : prog mem Z := POOL_ALLOC size.
Definition pool_free_size (size p : Z) : prog mem unit := POOL_FREE p.

Definition memset0 (p n : Z) : prog mem unit := forz (Z.to_nat n) 0 (fun i => store (p, 8 * i) 0).

Definition hashmap_init (map size : Z) : prog mem unit :=
  let size := if 0 <? size then
      let size := ds_fun.shl size 1 in
      if size <? 8 then 8 else ds_fun.next_pow2 size
    else size in
  store (map, HM_COUNT) 0 ;;
  store (map, HM_SIZE) size ;;
  if 0 <? size then
    buckets <- pool_alloc_size (size * 8) ;;
    store (map, HM_BUCKETS) buckets ;;
    buckets <- load (map, HM_BUCKETS) ;;
    memset0 buckets size
  else store (map, HM_BUCKETS) NULL.

(** [put] is [hashmap_put], which calls [resize] and is called by it. *)
Definition resize (put : Z -> prog mem Z) (map : Z) : prog mem unit :=
  s <- load (map, HM_SIZE) ;;
  b <- load (map, HM_BUCKETS) ;;
  store (map, HM_COUNT) 0 ;;
  store (map, HM_SIZE) (if s <? 8 then 8 else ds_fun.shl s 3) ;;
  size <- load (map, HM_SIZE) ;;
  buckets <- pool_alloc_size (size * 8) ;;
  store (map, HM_BUCKETS) buckets ;;
  size <- load (map, HM_SIZE) ;;
  buckets <- load (map, HM_BUCKETS) ;;
  memset0 buckets size ;;
  forz (Z.to_nat s) 0 (fun i =>
    curr <- load (b, 8 * i) ;;
    if valid curr then _ <- put curr ;; Ret tt else Ret tt) ;;
  if negb (b =? NULL) then pool_free_size (s * 8) b else Ret tt.

Fixpoint hashmap_put (fuel : nat) (map entry : Z) : prog mem Z :=
  match fuel with
  | O => Stop EFuel
  | S fuel' =>
      size <- load (map, HM_SIZE) ;;
      (if size =? 0 then hashmap_init map 4 else Ret tt) ;;
      r <- search map entry ;;
      let '(elem, pos) := r in
      buckets <- load (map, HM_BUCKETS) ;;
      store (buckets, 8 * pos) entry ;;
      (if elem =? NULL then
         count <- load (map, HM_COUNT) ;;
         store (map, HM_COUNT) (u64 (count + 1)) ;;
         count <- load (map, HM_COUNT) ;;
         size <- load (map, HM_SIZE) ;;
         if size <? ds_fun.shl count 1 then resize (hashmap_put fuel' map) map else Ret tt
       else Ret tt) ;;
      Ret elem
  end.

Definition hashmap_get (map key : Z) : prog mem Z :=
  count <- load (map, HM_COUNT) ;;
  if count =? 0 then Ret NULL
  else r <- search map key ;; Ret r.1.

Definition hashmap_remove (map entry : Z) : prog mem Z :=
  count <- load (map, HM_COUNT) ;;
  if count =? 0 then Ret NULL
  else
    r <- search map entry ;;
    let '(elem, pos) := r in
    (if negb (elem =? NULL) then
       buckets <- load (map, HM_BUCKETS) ;;
       store (buckets, 8 * pos) DELETED ;;
       count <- load (map, HM_COUNT) ;;
       store (map, HM_COUNT) (u64 (count - 1))
     else Ret tt) ;;
    Ret elem.

Definition hashmap_removeindex (map index : Z) : prog mem Z :=
  size <- load (map, HM_SIZE) ;;
  if size <=? index then Ret NULL
  else
    buckets <- load (map, HM_BUCKETS) ;;
    elem <- load (buckets, 8 * index) ;;
    if negb (valid elem) then Ret NULL
    else
      buckets <- load (map, HM_BUCKETS) ;;
      store (buckets, 8 * index) DELETED ;;
      count <- load (map, HM_COUNT) ;;
      store (map, HM_COUNT) (u64 (count - 1)) ;;
      Ret elem.

(** The element and the new value of [*i]. *)
Definition hashmap_next (fuel : nat) (map i : Z) : prog mem (Z * Z) :=
  count <- load (map, HM_COUNT) ;;
  if count =? 0 then Ret (NULL, i)
  else
    loop fuel (fun index =>
      size <- load (map, HM_SIZE) ;;
      if negb (index <? size) then break (NULL, index)
      else
        buckets <- load (map, HM_BUCKETS) ;;
        elem <- load (buckets, 8 * index) ;;
        if valid elem then break (elem, index)
        else continue (u64 (index + 1))) (u64 (i + 1)).

Definition hashmap_size (map : Z) : prog mem Z := load (map, HM_COUNT).

(** [free_elem] is given, or is NULL. *)
Definition hashmap_destroy (map : Z) (free_elem : option (Z -> prog mem unit)) : prog mem unit :=
  (match free_elem with
   | Some f =>
       size <- load (map, HM_SIZE) ;;
       forz (Z.to_nat size) 0 (fun i =>
         buckets <- load (map, HM_BUCKETS) ;;
         curr <- load (buckets, 8 * i) ;;
         if valid curr then f curr else Ret tt)
   | None => Ret tt
   end) ;;
  size <- load (map, HM_SIZE) ;;
  (if 0 <? size then
     size <- load (map, HM_SIZE) ;;
     buckets <- load (map, HM_BUCKETS) ;;
     pool_free_size (size * 8) buckets
   else Ret tt) ;;
  store (map, HM_COUNT) 0 ;;
  store (map, HM_SIZE) 0 ;;
  store (map, HM_BUCKETS) NULL.
End code.
End hash_map.
