(* ===== verification/HashProbe.v ===== *)
(** * The probe sequence of ds/hash.c, and searches on an array of buckets

    The slots a search looks at, as a function of the iteration; a table where
    every element can be reached along its own sequence; and what a search finds. *)
From S2P Require Export HashMap.
Import hash_map.

(** The slot of iteration [j]. *)
Definition probe (h mask : Z) (j : nat) : Z :=
  match j with O => Z.land h mask | S i => next_index h mask (Z.of_nat i) end.

Definition slot (bks : list Z) (i : Z) : Z := bks !!! Z.to_nat i.

(** The loop of [search]: [n] iterations left, the next is [j]. *)
Fixpoint scan (K : Z -> Z) (bks : list Z) (k h mask : Z) (n j : nat) (del : Z) : Z * Z :=
  match n with
  | O => (NULL, del)
  | S n' =>
      let i := probe h mask j in
      let e := slot bks i in
      if e =? NULL then (NULL, if del <=? mask then del else i)
      else if e =? DELETED then scan K bks k h mask n' (S j) (if mask <? del then i else del)
      else if K e =? k then (e, i)
      else scan K bks k h mask n' (S j) del
  end.

(** The elements, in the order of their slots. *)
Definition contents (bks : list Z) : list Z := filter (fun e => valid e = true) bks.

(** Every element is met by a search for its key before any empty slot. *)
Definition placed (K H : Z -> Z) (bks : list Z) : Prop :=
  forall i e, bks !! i = Some e -> valid e = true ->
    exists j, (j < length bks)%nat /\ Z.of_nat i = probe (H (K e)) (Z.of_nat (length bks) - 1) j /\
      forall j', (j' < j)%nat -> slot bks (probe (H (K e)) (Z.of_nat (length bks) - 1) j') <> NULL.

(** * Proofs *)

(** ** The probes *)
Definition tri (i : Z) : Z := i * (i + 1) / 2.

Lemma tri_double i : 2 * tri i = i * (i + 1).
Proof.
  unfold tri. assert (E : (i * (i + 1)) mod 2 = 0).
  { rewrite Z.mul_mod, Z.add_mod by lia. pose proof (Z.mod_pos_bound i 2 ltac:(lia)).
    assert (i mod 2 = 0 \/ i mod 2 = 1) as [-> | ->] by lia; done. }
  pose proof (Z.div_mod (i * (i + 1)) 2). lia.
Qed.

Section power.
Variables (k h : Z).
Hypothesis Hk : 0 <= k <= 28.

Lemma land_mask x : Z.land x (2 ^ k - 1) = x mod 2 ^ k.
Proof. rewrite <- Z.land_ones by lia. by rewrite Z.ones_equiv, Z.sub_1_r. Qed.

Lemma mod_u64 x : u64 x mod 2 ^ k = x mod 2 ^ k.
Proof.
  unfold u64. change M64 with (2 ^ 64). replace (2 ^ 64) with (2 ^ k * 2 ^ (64 - k)) by (rewrite <- Z.pow_add_r by lia; f_equal; lia).
  rewrite Z.rem_mul_r by (try apply Z.pow_nonzero; try apply Z.pow_pos_nonneg; lia).
  rewrite Z.mul_comm, Z.mod_add by (apply Z.pow_nonzero; lia). apply Z.mod_mod, Z.pow_nonzero; lia.
Qed.

Lemma next_index_tri i : 0 <= i < 2 ^ 28 -> next_index h (2 ^ k - 1) i = (h + tri i) mod 2 ^ k.
Proof.
  intros Hi. unfold next_index. rewrite land_mask, mod_u64. do 2 f_equal.
  rewrite (u64_small (i * i)) by (unfold M64; nia). rewrite (u64_small (i + i * i)) by (unfold M64; nia).
  rewrite Z.shiftr_div_pow2 by lia. unfold tri. f_equal. lia.
Qed.

Lemma probe_range j : 0 <= probe h (2 ^ k - 1) j < 2 ^ k.
Proof. destruct j; simpl; unfold next_index; rewrite land_mask; apply Z.mod_pos_bound, Z.pow_pos_nonneg; lia. Qed.

(** Distinct triangular numbers below the size are in distinct slots. *)
Lemma tri_inj i j : 0 <= i < 2 ^ k -> 0 <= j < 2 ^ k -> (h + tri i) mod 2 ^ k = (h + tri j) mod 2 ^ k -> i = j.
Proof.
  intros Hi Hj E. assert (Hp : 0 < 2 ^ k) by (apply Z.pow_pos_nonneg; lia).
  assert (D : (2 ^ k | tri i - tri j)).
  { apply Z.mod_divide; [lia|]. replace (tri i - tri j) with ((h + tri i) - (h + tri j)) by ring.
    rewrite Zminus_mod, E, Z.sub_diag. apply Z.mod_0_l. lia. }
  assert (D2 : (2 ^ (k + 1) | (i - j) * (i + j + 1))).
  { destruct D as [q D]. exists q. rewrite Z.pow_add_r, Z.pow_1_r by lia.
    replace ((i - j) * (i + j + 1)) with (2 * tri i - 2 * tri j) by (rewrite !tri_double; ring). lia. }
  assert (Hc : forall a, Z.odd a = true -> Z.coprime (2 ^ (k + 1)) a).
  { intros a Ha. apply Z.coprime_pow_l; [lia|]. change (Z.gcd 2 a = 1). rewrite <- Z.gcd_mod by done. by rewrite Zmod_odd, Ha. }
  assert (Hp2 : 2 ^ (k + 1) = 2 * 2 ^ k) by (rewrite Z.pow_add_r, Z.pow_1_r; lia).
  destruct (Z.odd (i - j)) eqn:Eo.
  - apply Z.gauss in D2; [|by apply Hc]. destruct D2 as [q D2]. rewrite Hp2 in D2. assert (q = 0); nia.
  - rewrite Z.mul_comm in D2. apply Z.gauss in D2.
    + destruct D2 as [q D2]. rewrite Hp2 in D2. assert (q = 0); nia.
    + apply Hc. replace (i + j + 1) with (i - j + (2 * j + 1)) by ring.
      rewrite Z.odd_add, Eo, Z.odd_add, Z.odd_mul. done.
Qed.

Lemma probe_inj i j : Z.of_nat i < 2 ^ k -> Z.of_nat j < 2 ^ k ->
  probe h (2 ^ k - 1) (S i) = probe h (2 ^ k - 1) (S j) -> i = j.
Proof.
  intros Hi Hj. assert (2 ^ k <= 2 ^ 28) by (apply Z.pow_le_mono_r; lia).
  simpl. rewrite !next_index_tri by lia. intros E%tri_inj; lia.
Qed.
End power.

(** ** Contents *)
Section contents.
Implicit Types (bks : list Z).

Lemma contents_split bks i x : bks !! i = Some x ->
  contents bks ≡ₚ (if valid x then [x] else []) ++ contents (take i bks ++ drop (S i) bks).
Proof.
  intros Hx. rewrite <- (take_drop_middle bks i x Hx) at 1. unfold contents. rewrite !filter_app, filter_cons.
  destruct (valid x) eqn:E; case_decide; try congruence; simpl; [|done]. by rewrite Permutation_middle.
Qed.

Lemma contents_insert bks i x y : bks !! i = Some x ->
  contents (<[i := y]> bks) ≡ₚ (if valid y then [y] else []) ++ contents (take i bks ++ drop (S i) bks).
Proof.
  intros Hx. assert (Hi : (i < length bks)%nat) by (by eapply lookup_lt_Some).
  rewrite (contents_split _ i y) by (by apply list_lookup_insert_eq). by rewrite take_insert_ge, drop_insert_lt by lia.
Qed.

Lemma contents_elem bks e : e ∈ contents bks <-> valid e = true /\ e ∈ bks.
Proof. unfold contents. by rewrite list_elem_of_filter. Qed.

Lemma filter_ext_on {A} (P Q : A -> Prop) `{!forall x, Decision (P x), !forall x, Decision (Q x)} (l : list A) :
  (forall x, x ∈ l -> P x <-> Q x) -> filter P l = filter Q l.
Proof.
  induction l as [|x l IH]; intros Hl; [done|]. rewrite !filter_cons, IH by (intros y Hy; apply Hl; by right).
  specialize (Hl x ltac:(left)). destruct (decide (P x)), (decide (Q x)); tauto.
Qed.

(** The slots in use. *)
Lemma contents_slots bks : length (contents bks) = length (filter (fun i => valid (bks !!! i) = true) (seq 0 (length bks))).
Proof.
  unfold contents. induction bks as [|x bks IH] using rev_ind; [done|].
  rewrite filter_app, (length_app bks), seq_app, Nat.add_0_l, filter_app, !length_app, IH. simpl. f_equal.
  - f_equal. apply filter_ext_on. intros i Hi%elem_of_seq. by rewrite lookup_total_app_l by lia.
  - rewrite !filter_cons, list_lookup_total_middle by done. by case_decide.
Qed.

Lemma slots_bound bks (l : list nat) : NoDup l -> (forall i, i ∈ l -> (i < length bks)%nat /\ valid (bks !!! i) = true) ->
  (length l <= length (contents bks))%nat.
Proof.
  intros Hn Hl. rewrite contents_slots. apply submseteq_length, NoDup_submseteq; [done|].
  intros i Hi. apply list_elem_of_filter. destruct (Hl i Hi). split; [done|]. apply elem_of_seq. lia.
Qed.
End contents.

(** ** Searches *)
Lemma valid_cases e : 0 <= e -> e = NULL \/ e = DELETED \/ (valid e = true /\ e <> NULL /\ e <> DELETED).
Proof. intros He. unfold valid, DELETED. destruct (Z.ltb_spec 1 e); lia. Qed.

Section scan.
Variables (K : Z -> Z) (bks : list Z) (k h : Z).
Let size := Z.of_nat (length bks).
Let mask := size - 1.
Let p := probe h mask.

(** What a search that has looked at the probes below [n] finds. *)
Definition found (n : nat) (r : Z * Z) : Prop :=
  (exists j, (j < n)%nat /\ r.2 = p j /\ r.1 = slot bks (p j) /\ valid r.1 = true /\ K r.1 = k) \/
  (r.1 = NULL /\
   (forall j, (j < n)%nat -> valid (slot bks (p j)) = true -> K (slot bks (p j)) = k ->
      exists j', (j' < j)%nat /\ slot bks (p j') = NULL) /\
   ((exists j, (j < n)%nat /\ r.2 = p j /\ valid (slot bks (p j)) = false /\
       forall j', (j' < j)%nat -> slot bks (p j') <> NULL) \/
    forall j, (j < n)%nat -> valid (slot bks (p j)) = true)).

(** The state of the search at iteration [j]. *)
Definition looked (j : nat) (del : Z) : Prop :=
  (forall j', (j' < j)%nat -> slot bks (p j') <> NULL /\ (valid (slot bks (p j')) = true -> K (slot bks (p j')) <> k)) /\
  (del = size /\ (forall j', (j' < j)%nat -> valid (slot bks (p j')) = true) \/
   exists j', (j' < j)%nat /\ del = p j' /\ slot bks (p j') = DELETED).

Hypothesis Hslots : forall j, 0 <= slot bks (p j).
Hypothesis Hprobes : forall j, 0 <= p j < size.

Lemma looked_S j del del' : looked j del ->
  slot bks (p j) <> NULL -> (valid (slot bks (p j)) = true -> K (slot bks (p j)) <> k) ->
  (valid (slot bks (p j)) = true /\ del' = del \/ slot bks (p j) = DELETED /\ del' = if mask <? del then p j else del) ->
  looked (S j) del'.
Proof.
  intros [H1 H2] N1 N2 Hd. split.
  - intros j' Hj'. destruct (decide (j' = j)) as [->|]; [done|]. apply H1. lia.
  - assert (Hold : forall j', (j' < j)%nat -> del = p j' -> slot bks (p j') = DELETED ->
      exists j'', (j'' < S j)%nat /\ del = p j'' /\ slot bks (p j'') = DELETED) by (intros j' ? ? ?; exists j'; split; [lia|done]).
    destruct Hd as [[Hv ->]|[Hv ->]].
    + destruct H2 as [[-> H2]|(j' & ? & ? & ?)]; [left; split; [done|]|right; eauto].
      intros j' Hj'. destruct (decide (j' = j)) as [->|]; [done|]. apply H2. lia.
    + destruct H2 as [[-> H2]|(j' & ? & E & ?)].
      * right. rewrite (proj2 (Z.ltb_lt mask size)) by (unfold mask; lia). exists j. split; [lia|done].
      * rewrite (proj2 (Z.ltb_ge mask del)) by (rewrite E; unfold mask; specialize (Hprobes j'); lia). right. eauto.
Qed.

Lemma scan_found n j del : looked j del -> found (j + n) (scan K bks k h mask n j del).
Proof.
  revert j del. induction n as [|n IH]; intros j del [H1 H2]; cbn [scan].
  - rewrite Nat.add_0_r. right. split; [done|]. split.
    + intros j' Hj' Hv HK. by destruct (H1 j' Hj') as [_ H%(fun f => f Hv)].
    + simpl. destruct H2 as [[-> H2]|(j' & Hj' & -> & Hd)]; [by right|left]. exists j'. split_and!; try done.
      * by rewrite Hd.
      * intros j'' ?. apply H1. lia.
  - fold p. destruct (valid_cases (slot bks (p j)) (Hslots j)) as [E|[E|(Ev & E1 & E2)]].
    + rewrite E. simpl. right. split; [done|]. split.
      * intros j' Hj' Hv HK. destruct (Nat.lt_trichotomy j' j) as [Hlt|[->|Hgt]]; [|by rewrite E in Hv|by exists j].
        by destruct (H1 j' Hlt) as [_ H%(fun f => f Hv)].
      * left. destruct H2 as [[-> H2]|(j' & Hj' & E' & Hd)]; simpl.
        -- rewrite (proj2 (Z.leb_gt size mask)) by (unfold mask; lia). exists j. split_and!; [lia|done|by rewrite E|]. intros; by apply H1.
        -- rewrite (proj2 (Z.leb_le del mask)) by (rewrite E'; unfold mask; specialize (Hprobes j'); lia).
           exists j'. split_and!; [lia|done|by rewrite Hd|]. intros j'' ?. apply H1. lia.
    + rewrite E. simpl. replace (j + S n)%nat with (S j + n)%nat by lia. apply IH.
      eapply looked_S; [by split|by rewrite E|by rewrite E|]. right. done.
    + rewrite (proj2 (Z.eqb_neq _ _) E1), (proj2 (Z.eqb_neq _ _) E2). destruct (Z.eqb_spec (K (slot bks (p j))) k) as [E|E].
      * left. exists j. split_and!; [lia|done..].
      * replace (j + S n)%nat with (S j + n)%nat by lia. apply IH. eapply looked_S; [by split|done|done|]. by left.
Qed.
End scan.

(** ** The map a table stands for *)
Definition kmap (K : Z -> Z) (l : list Z) : gmap Z Z := list_to_map ((fun e => (K e, e)) <$> l).

Section kmap.
Variable K : Z -> Z.
Implicit Types (l : list Z).

Lemma kmap_keys l : ((fun e => (K e, e)) <$> l).*1 = K <$> l.
Proof. induction l as [|e l IH]; [done|]. rewrite !fmap_cons. f_equal. exact IH. Qed.

Lemma kmap_perm l l' : NoDup (K <$> l) -> l ≡ₚ l' -> kmap K l = kmap K l'.
Proof. intros Hn Hp. apply list_to_map_proper; [by rewrite kmap_keys|by rewrite Hp]. Qed.

Lemma kmap_lookup l k e : NoDup (K <$> l) -> kmap K l !! k = Some e <-> e ∈ l /\ K e = k.
Proof.
  intros Hn. unfold kmap. rewrite <- elem_of_list_to_map by (by rewrite kmap_keys). rewrite list_elem_of_fmap. split.
  - intros (e' & [= -> ->] & He). done.
  - intros [He <-]. by exists e.
Qed.

Lemma kmap_none l k : kmap K l !! k = None <-> forall e, e ∈ l -> K e <> k.
Proof.
  unfold kmap. rewrite <- not_elem_of_list_to_map, kmap_keys, list_elem_of_fmap. split.
  - intros H e He E. apply H. by exists e.
  - intros H (e & -> & He). by apply (H e).
Qed.

Lemma kmap_delete e l : NoDup (K <$> e :: l) -> kmap K l = delete (K e) (kmap K (e :: l)).
Proof.
  intros [Hn _]%NoDup_cons. unfold kmap. simpl. rewrite delete_insert_id; [done|].
  apply kmap_none. intros e' He' E. apply Hn. rewrite <- E. apply list_elem_of_fmap. by exists e'.
Qed.

Lemma kmap_size l : NoDup (K <$> l) -> size (kmap K l) = length l.
Proof.
  intros Hn. unfold kmap. rewrite <- length_map_to_list, (map_to_list_to_map _) by (by rewrite kmap_keys). by rewrite length_fmap.
Qed.
End kmap.

(** ** Tables *)
Section table.
Variables (K H : Z -> Z).
Implicit Types (bks : list Z).

Record tbl bks : Prop := {
  tb_pow : exists k, 3 <= k <= 28 /\ Z.of_nat (length bks) = 2 ^ k;
  tb_nonneg : forall i e, bks !! i = Some e -> 0 <= e;
  tb_placed : placed K H bks;
  tb_nodup : NoDup (K <$> contents bks)
}.

Lemma slot_lookup bks i : 0 <= i < Z.of_nat (length bks) -> bks !! Z.to_nat i = Some (slot bks i).
Proof. intros Hi. unfold slot. apply list_lookup_lookup_total_lt. lia. Qed.

Lemma tbl_probes bks h j : tbl bks -> 0 <= probe h (Z.of_nat (length bks) - 1) j < Z.of_nat (length bks).
Proof. intros [(k & Hk & E) _ _ _]. rewrite E. apply probe_range. lia. Qed.

(** Where a search for [k] ends: at the element, or at a slot where it can be put. *)
Definition search_result bks (k : Z) (r : Z * Z) : Prop :=
  0 <= r.2 < Z.of_nat (length bks) /\
  match kmap K (contents bks) !! k with
  | Some e => r.1 = e /\ slot bks r.2 = e /\ valid e = true /\ e <> NULL
  | None => r.1 = NULL /\ valid (slot bks r.2) = false /\
      exists j, (j < length bks)%nat /\ r.2 = probe (H k) (Z.of_nat (length bks) - 1) j /\
        forall j', (j' < j)%nat -> slot bks (probe (H k) (Z.of_nat (length bks) - 1) j') <> NULL
  end.

Lemma scan_ok bks k : tbl bks -> (2 * length (contents bks) <= length bks)%nat ->
  search_result bks k (scan K bks k (H k) (Z.of_nat (length bks) - 1) (length bks) 0 (Z.of_nat (length bks))).
Proof.
  intros Ht Hl. pose proof (fun j => tbl_probes bks (H k) j Ht) as Hp.
  assert (Hs : forall j, 0 <= slot bks (probe (H k) (Z.of_nat (length bks) - 1) j)).
  { intros j. eapply (tb_nonneg bks Ht), slot_lookup, Hp. }
  pose proof (scan_found K bks k (H k) Hs Hp (length bks) 0 (Z.of_nat (length bks))) as F.
  set (r := scan _ _ _ _ _ _ _ _) in *. rewrite Nat.add_0_l in F.
  destruct F as [(j & Hj & E1 & E2 & Ev & EK)|(E1 & Hno & Hpos)]; [split; [lia|left; split; [done|lia]]|..].
  - (* found *)
    assert (Hin : r.1 ∈ contents bks).
    { apply contents_elem. split; [done|]. rewrite E2. eapply list_elem_of_lookup_2, slot_lookup, Hp. }
    assert (kmap K (contents bks) !! k = Some r.1) as E by (apply kmap_lookup; [apply Ht|done]).
    split; [rewrite E1; apply Hp|]. rewrite E. split_and!; [done|by rewrite E1|done|]. intros E0. by rewrite E0 in Ev.
  - assert (E : kmap K (contents bks) !! k = None).
    { apply kmap_none. intros e [Hv He]%contents_elem EK. apply list_elem_of_lookup_1 in He as [i Hi].
      destruct (tb_placed bks Ht i e Hi Hv) as (j & Hj & Ej & Hpath). rewrite EK in Ej, Hpath.
      assert (Es : slot bks (probe (H k) (Z.of_nat (length bks) - 1) j) = e).
      { unfold slot. rewrite <- Ej, Nat2Z.id. by apply list_lookup_total_correct. }
      destruct (Hno j Hj) as (j' & Hj' & E0); [by rewrite Es..|]. by apply (Hpath j'). }
    unfold search_result. rewrite E. destruct Hpos as [(j & Hj & Ej & Hv & Hpath)|Hall].
    + split; [rewrite Ej; apply Hp|]. split_and!; [done|by rewrite Ej|]. eauto.
    + exfalso. destruct (tb_pow bks Ht) as (kk & Hkk & Epow).
      assert (8 <= 2 ^ kk) by (change 8 with (2 ^ 3); apply Z.pow_le_mono_r; lia).
      pose proof (slots_bound bks ((fun j => Z.to_nat (probe (H k) (Z.of_nat (length bks) - 1) (S j))) <$> seq 0 (length bks - 1))) as B.
      rewrite length_fmap, length_seq in B. assert ((length bks - 1 <= length (contents bks))%nat); [|lia]. apply B.
      * apply NoDup_fmap_2_strong; [|apply NoDup_seq]. intros x y Hx%elem_of_seq Hy%elem_of_seq E'.
        apply (probe_inj kk (H k)); try lia. rewrite <- Epow. pose proof (Hp (S x)). pose proof (Hp (S y)). lia.
      * intros i (j & -> & Hj%elem_of_seq)%list_elem_of_fmap. pose proof (Hp (S j)). split; [lia|]. apply Hall. lia.
Qed.

(** A slot overwritten by a tombstone or by an element that belongs there. *)
Lemma placed_upd bks i x y : placed K H bks -> bks !! i = Some x -> 0 < y ->
  (forall h j, 0 <= probe h (Z.of_nat (length bks) - 1) j) ->
  (valid y = true -> exists j, (j < length bks)%nat /\ Z.of_nat i = probe (H (K y)) (Z.of_nat (length bks) - 1) j /\
     forall j', (j' < j)%nat -> slot bks (probe (H (K y)) (Z.of_nat (length bks) - 1) j') <> NULL) ->
  placed K H (<[i := y]> bks).
Proof.
  intros Hpl Hx Hy0 Hpr Hy i' e He Hv. rewrite length_insert.
  assert (Hs : forall q, 0 <= q -> slot bks q <> NULL -> slot (<[i := y]> bks) q <> NULL).
  { intros q Hq Hn. unfold slot in *. destruct (decide (Z.to_nat q = i)) as [->|Hne].
    - rewrite list_lookup_total_insert_eq by (by eapply lookup_lt_Some). lia.
    - by rewrite list_lookup_total_insert_ne by done. }
  destruct (decide (i = i')) as [<-|Hne].
  - rewrite list_lookup_insert_eq in He by (by eapply lookup_lt_Some). injection He as <-.
    destruct (Hy Hv) as (j & Hj & Ej & Hpath). exists j. split_and!; auto.
  - rewrite list_lookup_insert_ne in He by done. destruct (Hpl i' e He Hv) as (j & Hj & Ej & Hpath). exists j. split_and!; auto.
Qed.

Lemma tbl_probe_path bks i e : tbl bks -> bks !! i = Some e -> valid e = true ->
  exists j, (j < length bks)%nat /\ Z.of_nat i = probe (H (K e)) (Z.of_nat (length bks) - 1) j /\
    forall j', (j' < j)%nat -> slot bks (probe (H (K e)) (Z.of_nat (length bks) - 1) j') <> NULL.
Proof. intros Ht. apply Ht. Qed.

Lemma valid_pos e : valid e = true -> 0 < e.
Proof. unfold valid, DELETED. intros ?%Z.ltb_lt. lia. Qed.

(** The three updates: a new element, another element for the same key, a tombstone. *)
Lemma tbl_upd bks i x y : tbl bks -> bks !! i = Some x -> 0 < y ->
  (valid y = true -> exists j, (j < length bks)%nat /\ Z.of_nat i = probe (H (K y)) (Z.of_nat (length bks) - 1) j /\
     forall j', (j' < j)%nat -> slot bks (probe (H (K y)) (Z.of_nat (length bks) - 1) j') <> NULL) ->
  NoDup (K <$> contents (<[i := y]> bks)) -> tbl (<[i := y]> bks).
Proof.
  intros Ht Hx Hy Hpath Hn. split; [| |eapply placed_upd; eauto using tb_placed|done].
  - rewrite length_insert. apply Ht.
  - intros j e [(-> & -> & _)|[_ He]]%list_lookup_insert_Some; [lia|]. by eapply (tb_nonneg bks Ht).
  - intros h j. by apply tbl_probes.
Qed.

Lemma tbl_new bks i x y : tbl bks -> bks !! i = Some x -> valid x = false -> valid y = true ->
  kmap K (contents bks) !! K y = None ->
  (exists j, (j < length bks)%nat /\ Z.of_nat i = probe (H (K y)) (Z.of_nat (length bks) - 1) j /\
     forall j', (j' < j)%nat -> slot bks (probe (H (K y)) (Z.of_nat (length bks) - 1) j') <> NULL) ->
  tbl (<[i := y]> bks) /\ contents (<[i := y]> bks) ≡ₚ y :: contents bks.
Proof.
  intros Ht Hx Hvx Hvy Hk Hpath. assert (Hc : contents (<[i := y]> bks) ≡ₚ y :: contents bks).
  { rewrite (contents_insert bks i x y Hx), (contents_split bks i x Hx), Hvx, Hvy. done. }
  split; [|done]. eapply tbl_upd; eauto using valid_pos. rewrite Hc, fmap_cons. apply NoDup_cons. split; [|apply Ht].
  intros (e & E & He)%list_elem_of_fmap. by apply (proj1 (kmap_none K _ _) Hk e He).
Qed.

Lemma tbl_replace bks i x y : tbl bks -> bks !! i = Some x -> valid x = true -> valid y = true -> K y = K x ->
  tbl (<[i := y]> bks) /\ exists l, contents bks ≡ₚ x :: l /\ contents (<[i := y]> bks) ≡ₚ y :: l.
Proof.
  intros Ht Hx Hvx Hvy Hk. pose proof (contents_insert bks i x y Hx) as Hc. pose proof (contents_split bks i x Hx) as Hs.
  rewrite Hvx in Hs. rewrite Hvy in Hc. simpl in *. split; [|by eexists].
  eapply tbl_upd; eauto using valid_pos.
  - intros _. rewrite Hk. by apply tbl_probe_path.
  - pose proof (tb_nodup bks Ht) as Hn. rewrite Hs in Hn. rewrite Hc. rewrite fmap_cons in *. by rewrite Hk.
Qed.

Lemma tbl_remove bks i x : tbl bks -> bks !! i = Some x -> valid x = true ->
  tbl (<[i := DELETED]> bks) /\ contents bks ≡ₚ x :: contents (<[i := DELETED]> bks).
Proof.
  intros Ht Hx Hvx. pose proof (contents_insert bks i x DELETED Hx) as Hc. pose proof (contents_split bks i x Hx) as Hs.
  rewrite Hvx in Hs. simpl in *. rewrite <- Hc in Hs. split; [|done]. eapply tbl_upd; eauto; [done|done|].
  pose proof (tb_nodup bks Ht) as Hn. rewrite Hs in Hn. rewrite fmap_cons in Hn. by apply NoDup_cons in Hn as [_ ?].
Qed.

Lemma contents_replicate n : contents (replicate n NULL) = [].
Proof. induction n as [|n IH]; [done|]. simpl. unfold contents in *. by rewrite filter_cons_False. Qed.

Lemma tbl_empty k : 3 <= k <= 28 -> tbl (replicate (Z.to_nat (2 ^ k)) NULL).
Proof.
  intros Hk. split.
  - exists k. split; [done|]. rewrite length_replicate. pose proof (Z.pow_nonneg 2 k). lia.
  - intros i e [-> _]%lookup_replicate. done.
  - intros i e [-> _]%lookup_replicate Hv. done.
  - rewrite contents_replicate. apply NoDup_nil_2.
Qed.
End table.
