(* ===== verification/HashTable.v ===== *)
(** * The hash map in memory (ds/hash.c) *)
From S2P Require Export HashProbe.
Import hash_map.

(** What the callbacks promise: they read the key of an element, which is in the
    element itself. *)
Class HashLaws `{HashFns} := {
  key_of : mem -> Z -> option Z;
  hash_key : Z -> Z;
  key_live : forall m e k, key_of m e = Some k -> live m e /\ valid e = true;
  key_local : forall m m' e, m' !! e = m !! e -> key_of m' e = key_of m e;
  hash_ok : forall m e k, key_of m e = Some k -> run (hash_fn e) m = Ok (hash_key k, m);
  cmp_ok : forall m a b k k', key_of m a = Some k -> key_of m b = Some k' -> run (cmp_fn a b) m = Ok (k =? k', m)
}.

Section table_at.
Context `{HM : Malloc, HR : !MallocRoom, HF : !HashFns, HL : !HashLaws}.
Variable K : Z -> Z.
Implicit Types (m : mem) (bks : list Z).

(** The slots of the array at [b]. *)
Definition slots_at m (b : Z) bks : Prop :=
  is_struct m b (8 * Z.of_nat (length bks)) /\ forall i e, bks !! i = Some e -> get m (b, 8 * Z.of_nat i) = Some e.

(** The map at [map] has the array [bks] at [b]. *)
Record table_at m (map b : Z) bks : Prop := {
  ta_map : is_struct m map sizeof_hashmap_t;
  ta_count : get m (map, HM_COUNT) = Some (Z.of_nat (length (contents bks)));
  ta_size : get m (map, HM_SIZE) = Some (Z.of_nat (length bks));
  ta_buckets : get m (map, HM_BUCKETS) = Some b;
  ta_slots : slots_at m b bks;
  ta_ne : b <> map;
  ta_tbl : tbl K hash_key bks;
  ta_elems : forall e, e ∈ contents bks -> key_of m e = Some (K e) /\ e <> map /\ e <> b
}.

Lemma ta_small m map b bks : table_at m map b bks -> (8 <= length bks)%nat /\ Z.of_nat (length bks) <= 2 ^ 28.
Proof.
  intros Ht. destruct (tb_pow _ _ _ (ta_tbl _ _ _ _ Ht)) as (k & Hk & E).
  assert (2 ^ 3 <= 2 ^ k) by (apply Z.pow_le_mono_r; lia). assert (2 ^ k <= 2 ^ 28) by (apply Z.pow_le_mono_r; lia). lia.
Qed.

Lemma contents_le bks : (length (contents bks) <= length bks)%nat.
Proof. unfold contents. apply length_filter. Qed.

Lemma search_ok m map b bks key : table_at m map b bks -> (2 * length (contents bks) <= length bks)%nat ->
  key_of m key = Some (K key) ->
  tot (search map key) m (fun r m' => m' = m /\ search_result K hash_key bks (K key) r).
Proof.
  intros Ht Hl Hkey. destruct (ta_small _ _ _ _ Ht) as [Hs8 Hs].
  unfold search. apply tot_bind. eapply tot_load; [apply Ht|]. cbv zeta. apply tot_bind. eapply run_tot; [by apply hash_ok|].
  rewrite u64_small by (unfold M64; lia). set (mask := Z.of_nat (length bks) - 1). set (h := hash_key (K key)).
  pose proof (scan_ok K hash_key bks (K key) (ta_tbl _ _ _ _ Ht) Hl) as Hscan. fold mask h in Hscan.
  assert (Hloop : forall n j fuel del, (j + n = length bks)%nat -> (n < fuel)%nat ->
    tot (loop fuel (fun '(i, index, index_del) =>
      if negb (i <=? mask) then break (NULL, index_del)
      else
        buckets <- load (map, HM_BUCKETS) ;;
        elem <- load (buckets, 8 * index) ;;
        if elem =? NULL then break (NULL, if index_del <=? mask then index_del else index)
        else if elem =? DELETED then
          continue (i + 1, next_index h mask i, if mask <? index_del then index else index_del)
        else
          eq <- cmp_fn key elem ;;
          if eq : bool then break (elem, index)
          else continue (i + 1, next_index h mask i, index_del)) (Z.of_nat j, probe h mask j, del)) m
      (fun r m' => m' = m /\ r = scan K bks (K key) h mask n j del)).
  { induction n as [|n IH]; intros j fuel del Hj Hf; (destruct fuel as [|fuel]; [lia|]); apply tot_loop_S.
    - rewrite (proj2 (Z.leb_gt _ mask)) by (unfold mask; lia). simpl. done.
    - rewrite (proj2 (Z.leb_le _ mask)) by (unfold mask; lia). simpl negb. cbv iota.
      apply tot_bind. eapply tot_load; [apply Ht|]. apply tot_bind.
      pose proof (tbl_probes K hash_key bks h j (ta_tbl _ _ _ _ Ht)) as Hp. fold mask in Hp.
      pose proof (slot_lookup bks _ Hp) as Hsl. eapply tot_load.
      { rewrite <- (Z2Nat.id (probe h mask j)) by lia. by apply (proj2 (ta_slots _ _ _ _ Ht)). }
      assert (E1 : Z.of_nat j + 1 = Z.of_nat (S j)) by lia.
      assert (E2 : next_index h mask (Z.of_nat j) = probe h mask (S j)) by done.
      cbn [scan]. cbv zeta. destruct (Z.eqb_spec (slot bks (probe h mask j)) NULL) as [E|E]; [simpl; done|].
      destruct (Z.eqb_spec (slot bks (probe h mask j)) DELETED) as [E'|E'].
      + simpl. rewrite E1, E2. apply IH; lia.
      + apply tot_bind. eapply run_tot; [apply cmp_ok; [exact Hkey|apply (ta_elems _ _ _ _ Ht)]|].
        { apply contents_elem. split; [|by eapply list_elem_of_lookup_2].
          pose proof (tb_nonneg _ _ _ (ta_tbl _ _ _ _ Ht) _ _ Hsl) as H0.
          destruct (valid_cases _ H0) as [?|[?|(? & _)]]; done. }
        rewrite (Z.eqb_sym (K key)). destruct (K (slot bks (probe h mask j)) =? K key); simpl; [done|].
        rewrite E1, E2. apply IH; lia. }
  eapply tot_mono; [apply (Hloop (length bks) O); [lia|unfold mask; lia]|]. intros r m' [-> ->]. done.
Qed.

(** ** Updates *)
Lemma slots_at_upd m b bks i y : slots_at m b bks -> (i < length bks)%nat ->
  slots_at (upd m (b, 8 * Z.of_nat i) y) b (<[i := y]> bks).
Proof.
  intros [H1 H2] Hi. split; [by rewrite is_struct_upd, length_insert|].
  intros j e [(-> & -> & _)|[Hne He]]%list_lookup_insert_Some.
  - apply get_upd_eq. simpl. by eapply is_struct_live.
  - rewrite get_upd_ne; [auto|]. intros E. injection E. lia.
Qed.

Lemma slots_at_lookup m m' b bks : m' !! b = m !! b -> slots_at m b bks -> slots_at m' b bks.
Proof.
  intros E [H1 H2]. split; [by apply (is_struct_lookup m)|]. intros i e He. rewrite (get_lookup_eq m); auto.
Qed.

(** A slot and the count of the map overwritten. *)
Lemma table_upd m map b bks i y c : table_at m map b bks -> (i < length bks)%nat ->
  tbl K hash_key (<[i := y]> bks) -> c = Z.of_nat (length (contents (<[i := y]> bks))) ->
  (valid y = true -> key_of m y = Some (K y) /\ y <> map /\ y <> b) ->
  table_at (upd (upd m (b, 8 * Z.of_nat i) y) (map, HM_COUNT) c) map b (<[i := y]> bks).
Proof.
  intros [T1 T2 T3 T4 T5 T6 T7 T8] Hi Ht -> Hy.
  assert (Hlm : live m map) by (by eapply is_struct_live). split; auto.
  - by rewrite !is_struct_upd.
  - apply get_upd_eq. simpl. by apply live_upd.
  - rewrite length_insert. mget.
  - mget.
  - apply (slots_at_lookup (upd m (b, 8 * Z.of_nat i) y)); [by apply lookup_upd_ne|]. by apply slots_at_upd.
  - intros e [Hv He]%contents_elem. assert (key_of m e = Some (K e) /\ e <> map /\ e <> b) as (E & N1 & N2).
    { apply list_elem_of_lookup_1 in He as [j [(-> & -> & _)|[_ Hj]]%list_lookup_insert_Some]; [by apply Hy|].
      apply T8, contents_elem. split; [done|]. by eapply list_elem_of_lookup_2. }
    split; [|done]. rewrite <- E. apply key_local. by rewrite !lookup_upd_ne.
Qed.

(** ** New arrays *)
Lemma memset0_ok m b n k : is_struct m b (8 * Z.of_nat n) -> mroom k m ->
  tot (memset0 b (Z.of_nat n)) m (fun _ m' => mroom k m' /\ slots_at m' b (replicate n NULL) /\
    forall b', b' <> b -> m' !! b' = m !! b').
Proof.
  intros Hb Hk. unfold memset0. rewrite Nat2Z.id.
  eapply tot_mono; [apply (tot_forz (fun i m' => mroom k m' /\ is_struct m' b (8 * Z.of_nat n) /\
    (forall j, (j < i)%nat -> get m' (b, 8 * Z.of_nat j) = Some 0) /\ forall b', b' <> b -> m' !! b' = m !! b'))|].
  - intros i m' Hi (R1 & R2 & R3 & R4). eapply tot_store.
    { eapply is_struct_inb; [exact R2|]. lia. }
    split_and!; [by apply mroom_upd|by rewrite is_struct_upd| |].
    + intros j Hj. destruct (decide (j = i)) as [->|Hne].
      * apply get_upd_eq. simpl. by eapply is_struct_live.
      * rewrite get_upd_ne; [apply R3; lia|]. intros E. injection E. lia.
    + intros b' Hb'. rewrite lookup_upd_ne by done. auto.
  - split_and!; auto. intros j Hj. lia.
  - intros _ m' (R1 & R2 & R3 & R4). split_and!; auto. split; [by rewrite length_replicate|].
    intros i e [-> Hi]%lookup_replicate. auto.
Qed.

Lemma pool_alloc_ok m sz k : mroom (S k) m -> 0 < sz <= M32 ->
  tot (POOL_ALLOC sz) m (fun a m' => m' = <[a := Obj sz ∅]> m /\ a <> NULL /\ m !! a = None /\ mroom k m').
Proof.
  intros Hk Hs. unfold POOL_ALLOC, malloc. apply tot_bind. eapply tot_alloc; [exact Hk|done|].
  intros a (Ha & Hf & _) Hk'. rewrite (proj2 (Z.eqb_neq a 0) Ha). by apply tot_ret.
Qed.

(** A map given a new array of empty slots: what [hashmap_init] and [resize] do. *)
Lemma new_array_ok m map n k : is_struct m map sizeof_hashmap_t -> mroom (S k) m ->
  3 <= n <= 28 -> get m (map, HM_COUNT) = Some 0 -> get m (map, HM_SIZE) = Some (2 ^ n) ->
  tot (pool_alloc_size (2 ^ n * 8)) m (fun b m1 => inb m1 (map, HM_BUCKETS) = true /\
    let m2 := upd m1 (map, HM_BUCKETS) b in
    get m2 (map, HM_SIZE) = Some (2 ^ n) /\ get m2 (map, HM_BUCKETS) = Some b /\
    tot (memset0 b (2 ^ n)) m2 (fun _ m' => mroom k m' /\
      table_at m' map b (replicate (Z.to_nat (2 ^ n)) NULL) /\ m !! b = None /\
      forall c, c <> map -> c <> b -> m' !! c = m !! c)).
Proof.
  intros Hm Hk Hn Hc Hs. assert (H8 : 0 < 2 ^ n) by (apply Z.pow_pos_nonneg; lia).
  assert (H28 : 2 ^ n <= 2 ^ 28) by (apply Z.pow_le_mono_r; lia).
  eapply tot_mono; [apply (pool_alloc_ok m _ k Hk); unfold M32; lia|].
  intros b m1 (-> & Hb0 & Hbf & Hk1). assert (Hbm : b <> map).
  { intros ->. apply is_struct_live in Hm as [o Ho]. congruence. }
  set (m1 := <[b := Obj (2 ^ n * 8) ∅]> m).
  assert (Em1 : m1 !! map = m !! map) by (unfold m1; by rewrite lookup_insert_ne).
  assert (Hm1 : is_struct m1 map 24) by (by apply (is_struct_lookup m)).
  assert (Hlm : live m1 map) by (by eapply is_struct_live).
  assert (Hc1 : get m1 (map, HM_COUNT) = Some 0) by (by rewrite (get_lookup_eq m)).
  assert (Hs1 : get m1 (map, HM_SIZE) = Some (2 ^ n)) by (by rewrite (get_lookup_eq m)).
  split; [by eapply is_struct_inb; [exact Hm1|lia]|]. cbv zeta. split_and!; [mget|by apply get_upd_eq|].
  set (m2 := upd m1 (map, HM_BUCKETS) b).
  assert (Hst : is_struct m2 b (8 * Z.of_nat (Z.to_nat (2 ^ n)))).
  { unfold m2. rewrite is_struct_upd. split; [done|]. eexists. unfold m1. rewrite lookup_insert_eq. split; [done|]. simpl. lia. }
  rewrite <- (Z2Nat.id (2 ^ n)) at 1 by lia.
  eapply tot_mono; [apply (memset0_ok m2 b _ k Hst); unfold m2; by apply mroom_upd|].
  intros _ m3 (K1 & K2 & K3). split; [done|].
  assert (Em : m3 !! map = m2 !! map) by (by apply K3). split_and!; auto.
  - split; rewrite ?contents_replicate, ?length_replicate; auto.
    + eapply is_struct_lookup; [exact Em|]. unfold m2. by rewrite is_struct_upd.
    + rewrite (get_lookup_eq m2) by done. unfold m2. mget.
    + rewrite (get_lookup_eq m2) by done. unfold m2. rewrite Z2Nat.id by lia. mget.
    + rewrite (get_lookup_eq m2) by done. unfold m2. by apply get_upd_eq.
    + by apply tbl_empty.
    + intros e He. by apply not_elem_of_nil in He.
  - intros c Hc1' Hc2'. rewrite K3 by done. unfold m2. rewrite lookup_upd_ne by done. unfold m1. by rewrite lookup_insert_ne.
Qed.

(** The size [hashmap_init] chooses. *)
Lemma init_size n : 0 < n <= 2 ^ 27 -> exists j, 3 <= j <= 28 /\ 2 * n <= 2 ^ j /\
  (if ds_fun.shl n 1 <? 8 then 8 else ds_fun.next_pow2 (ds_fun.shl n 1)) = 2 ^ j.
Proof.
  intros Hn. assert (E : ds_fun.shl n 1 = 2 * n).
  { unfold ds_fun.shl. rewrite Z.shiftl_mul_pow2 by lia. rewrite u64_small by (unfold M64; lia). lia. }
  rewrite E. destruct (Z.ltb_spec (2 * n) 8); [exists 3; change (2 ^ 3) with 8; split_and!; lia|].
  rewrite next_pow2_spec by (unfold M64; lia). rewrite (proj2 (Z.leb_le 1 (2 * n))), (proj2 (Z.leb_le (2 * n) (2 ^ 63))) by lia.
  exists (Z.log2_up (2 * n)). simpl. pose proof (Z.log2_up_spec (2 * n) ltac:(lia)). split_and!; [|..|lia|done].
  - rewrite <- (Z.log2_up_pow2 3) by lia. apply Z.log2_up_le_mono. lia.
  - apply Z.log2_up_le_pow2; lia.
Qed.

Lemma init_ok m map n k : is_struct m map sizeof_hashmap_t -> 0 < n <= 2 ^ 27 -> mroom (S k) m ->
  tot (hashmap_init map n) m (fun _ m' => mroom k m' /\ exists b j, 3 <= j <= 28 /\ 2 * n <= 2 ^ j /\
    table_at m' map b (replicate (Z.to_nat (2 ^ j)) NULL) /\ m !! b = None /\ forall c, c <> map -> c <> b -> m' !! c = m !! c).
Proof.
  intros Hm Hn Hk. unfold sizeof_hashmap_t in *. destruct (init_size n Hn) as (j & Hj & H2 & E). unfold hashmap_init. cbv zeta.
  rewrite (proj2 (Z.ltb_lt 0 n)) by lia. rewrite E. assert (0 < 2 ^ j) by (apply Z.pow_pos_nonneg; lia).
  assert (Hlm : live m map) by (by eapply is_struct_live).
  apply tot_bind. eapply tot_store; [by eapply is_struct_inb; [exact Hm|lia]|].
  apply tot_bind. eapply tot_store; [eapply is_struct_inb; [by rewrite is_struct_upd|lia]|].
  rewrite (proj2 (Z.ltb_lt 0 (2 ^ j))) by lia. set (m1 := upd (upd m (map, HM_COUNT) 0) (map, HM_SIZE) (2 ^ j)).
  apply tot_bind. eapply tot_mono; [apply (new_array_ok m1 map j k); auto|].
  - unfold m1. by rewrite !is_struct_upd.
  - unfold m1. by repeat apply mroom_upd.
  - unfold m1. mget.
  - unfold m1. apply get_upd_eq. simpl. by apply live_upd.
  - intros b m2 (Hin & Hs & Hb & Hmem). apply tot_bind. eapply tot_store; [exact Hin|].
    apply tot_bind. eapply tot_load; [exact Hb|]. eapply tot_mono; [exact Hmem|].
    intros _ m3 (R1 & R2 & R3 & R4). split; [done|]. exists b, j. unfold m1 in *. split_and!; auto; try lia.
    + apply eq_None_not_Some. intros Hl. apply eq_None_not_Some in R3. apply R3.
      apply (live_upd (upd m _ _)), live_upd. exact Hl.
    + intros c Hc1 Hc2. rewrite R4 by done. by rewrite !lookup_upd_ne.
Qed.
End table_at.
