(* ===== verification/HashOps.v ===== *)
(** * The operations of ds/hash.c on the map they implement *)
From S2P Require Export HashTable.
Import hash_map.

Section operations.
Context `{HM : Malloc, HR : !MallocRoom, HF : !HashFns, HL : !HashLaws}.
Variable K : Z -> Z.
Implicit Types (m : mem) (bks : list Z).

(** Only the map and its array changed. *)
Definition only (map b : Z) m m' : Prop := forall c, c <> map -> c <> b -> m' !! c = m !! c.

Lemma shl1_small n : 0 <= n <= 2 ^ 30 -> ds_fun.shl n 1 = 2 * n.
Proof. intros Hn. unfold ds_fun.shl. rewrite Z.shiftl_mul_pow2 by lia. rewrite u64_small by (unfold M64; lia). lia. Qed.

(** [hashmap_put] up to the call of [resize]. *)
Lemma put_step fuel m map b bks e k (Q : Z -> mem -> Prop) : table_at K m map b bks ->
  (2 * length (contents bks) <= length bks)%nat -> key_of m e = Some (K e) -> e <> map -> e <> b -> mroom k m ->
  (forall m1 bks1, table_at K m1 map b bks1 -> length bks1 = length bks -> only map b m m1 -> mroom k m1 ->
     match kmap K (contents bks) !! K e with
     | Some x => exists l, contents bks ≡ₚ x :: l /\ contents bks1 ≡ₚ e :: l
     | None => contents bks1 ≡ₚ e :: contents bks
     end ->
     match kmap K (contents bks) !! K e with
     | Some x => Q x m1
     | None => if (length bks <? 2 * length (contents bks1))%nat
               then tot (resize (hashmap_put fuel map) map) m1 (fun _ m2 => Q NULL m2) else Q NULL m1
     end) ->
  tot (hashmap_put (S fuel) map e) m Q.
Proof.
  intros Ht Hl He Nm Nb Hk HQ. destruct (ta_small _ _ _ _ _ Ht) as [H8 H28]. destruct (key_live _ _ _ He) as [_ Hv].
  cbn [hashmap_put]. apply tot_bind. eapply tot_load; [apply Ht|]. rewrite (proj2 (Z.eqb_neq _ 0)) by lia.
  apply tot_bind, tot_ret, tot_bind. eapply tot_mono; [by apply (search_ok K m map b bks e)|].
  intros [el pos] m' [-> [Hpos Hr]]. simpl in Hpos, Hr.
  apply tot_bind. eapply tot_load; [apply Ht|]. apply tot_bind. eapply tot_store.
  { eapply is_struct_inb; [apply (ta_slots _ _ _ _ _ Ht)|]. lia. }
  pose proof (slot_lookup bks pos Hpos) as Hsl. assert (Hi : (Z.to_nat pos < length bks)%nat) by lia.
  replace (8 * pos) with (8 * Z.of_nat (Z.to_nat pos)) by lia. set (i := Z.to_nat pos) in *.
  set (m1 := upd m (b, 8 * Z.of_nat i) e). pose proof (ta_ne _ _ _ _ _ Ht) as Hne.
  assert (Hlm : live m1 map) by (unfold m1; apply live_upd; eapply is_struct_live, Ht).
  assert (Hc : get m1 (map, HM_COUNT) = Some (Z.of_nat (length (contents bks)))).
  { unfold m1. rewrite get_upd_ne by (intros E; injection E; congruence). apply Ht. }
  assert (Hs : get m1 (map, HM_SIZE) = Some (Z.of_nat (length bks))).
  { unfold m1. rewrite get_upd_ne by (intros E; injection E; congruence). apply Ht. }
  assert (Ho : forall c, only map b m (upd m1 (map, HM_COUNT) c)).
  { intros c d Hd1 Hd2. unfold m1. by rewrite !lookup_upd_ne. }
  pose proof (contents_le bks) as Hcl.
  destruct (kmap K (contents bks) !! K e) as [x|] eqn:Ek.
  - destruct Hr as (-> & Ex & Hvx & Hx0). rewrite (proj2 (Z.eqb_neq x 0)) by done.
    rewrite Ex in Hsl. apply kmap_lookup in Ek as [_ Ekx]; [|apply (ta_tbl _ _ _ _ _ Ht)].
    destruct (tbl_replace K hash_key bks i x e) as [Ht1 (l & L1 & L2)]; auto; [apply Ht|].
    apply tot_bind, tot_ret, tot_ret. rewrite <- (upd_same m1 _ _ Hc).
    apply (HQ _ (<[i := e]> bks)); auto.
    + unfold m1. apply table_upd; auto. by rewrite L1, L2.
    + by rewrite length_insert.
    + by repeat apply mroom_upd.
    + by exists l.
  - destruct Hr as (-> & Hvx & Hpath). rewrite Z.eqb_refl.
    destruct (tbl_new K hash_key bks i (slot bks pos) e) as [Ht1 Hc1]; auto; [apply Ht| |].
    { destruct Hpath as (j & Hj & Ej & Hp). exists j. split_and!; auto. unfold i. lia. }
    assert (Hlen : length (contents (<[i := e]> bks)) = S (length (contents bks))) by (by rewrite Hc1).
    apply tot_bind, tot_bind. eapply tot_load; [exact Hc|]. apply tot_bind.
    eapply tot_store; [unfold m1; eapply is_struct_inb; [rewrite is_struct_upd; apply Ht|unfold sizeof_hashmap_t; lia]|].
    rewrite u64_small by (unfold M64; lia). replace (Z.of_nat (length (contents bks)) + 1) with (Z.of_nat (length (contents (<[i := e]> bks)))) by lia.
    set (m2 := upd m1 _ _). apply tot_bind. eapply tot_load; [unfold m2; by apply get_upd_eq|].
    apply tot_bind. eapply tot_load; [unfold m2; mget|]. rewrite shl1_small by lia.
    specialize (HQ m2 (<[i := e]> bks)). simpl in HQ.
    assert (E : (Z.of_nat (length bks) <? 2 * Z.of_nat (length (contents (<[i := e]> bks)))) =
                (length bks <? 2 * length (contents (<[i := e]> bks)))%nat).
    { apply eq_true_iff_eq. rewrite Z.ltb_lt, Nat.ltb_lt. lia. }
    rewrite E. assert (HQ' : if (length bks <? 2 * length (contents (<[i := e]> bks)))%nat
      then tot (resize (hashmap_put fuel map) map) m2 (fun _ m' => Q NULL m') else Q NULL m2).
    { apply HQ; auto.
      - unfold m2, m1. by apply table_upd.
      - by rewrite length_insert.
      - apply Ho.
      - unfold m2, m1. by repeat apply mroom_upd. }
    destruct (length bks <? 2 * length (contents (<[i := e]> bks)))%nat.
    + eapply tot_mono; [exact HQ'|]. intros [] m3 HQ3. by apply tot_ret.
    + apply tot_ret. by apply tot_ret.
Qed.

Lemma table_lookup m m' map b bks : m' !! map = m !! map -> m' !! b = m !! b ->
  (forall e, e ∈ contents bks -> m' !! e = m !! e) -> table_at K m map b bks -> table_at K m' map b bks.
Proof.
  intros E1 E2 E3 [T1 T2 T3 T4 T5 T6 T7 T8]. split; auto.
  - by apply (is_struct_lookup m).
  - by rewrite (get_lookup_eq m).
  - by rewrite (get_lookup_eq m).
  - by rewrite (get_lookup_eq m).
  - by apply (slots_at_lookup m).
  - intros e He. destruct (T8 e He) as (? & ? & ?). split; [|done]. by rewrite (key_local m) by auto.
Qed.

Lemma contents_take_S bks i e : bks !! i = Some e ->
  contents (take (S i) bks) = contents (take i bks) ++ (if valid e then [e] else []).
Proof.
  intros He. rewrite (take_S_r _ _ _ He). unfold contents. rewrite filter_app, filter_cons. f_equal.
  destruct (valid e) eqn:E; [by rewrite decide_True by done|by rewrite decide_False by congruence].
Qed.

(** The elements are put into the new array one by one; no call of [hashmap_put] on
    the way resizes again. *)
Lemma rehash_ok fuel m map b b' bks bks0 k : table_at K m map b' bks0 -> slots_at m b bks ->
  contents bks0 = [] -> length bks0 = (8 * length bks)%nat -> b <> map -> b <> b' ->
  tbl K hash_key bks -> (forall e, e ∈ contents bks -> key_of m e = Some (K e) /\ e <> map /\ e <> b') -> mroom k m ->
  tot (forz (length bks) 0 (fun i =>
         curr <- load (b, 8 * i) ;;
         if valid curr then _ <- hashmap_put (S fuel) map curr ;; Ret tt else Ret tt)) m
    (fun _ m' => exists bks', table_at K m' map b' bks' /\ length bks' = length bks0 /\ contents bks' ≡ₚ contents bks /\
       only map b' m m' /\ mroom k m').
Proof.
  intros Ht Hsl Hc0 Hlen Hbm Hbb Htb Hel Hk.
  eapply tot_mono; [apply (tot_forz (fun i m' => exists bks', table_at K m' map b' bks' /\ length bks' = length bks0 /\
    contents bks' ≡ₚ contents (take i bks) /\ only map b' m m' /\ mroom k m'))|].
  - intros i m' Hi (bks' & T1 & T2 & T3 & T4 & T5). destruct (lookup_lt_is_Some_2 bks i Hi) as [e He].
    apply tot_bind. rewrite Z.add_0_l. eapply tot_load.
    { rewrite (get_lookup_eq m) by (by apply T4). by apply Hsl. }
    pose proof (contents_take_S bks i e He) as Etake. pose proof (contents_le (take (S i) bks)) as Htl.
    rewrite length_take in Htl. destruct (valid e) eqn:Hv.
    + assert (Hin : e ∈ contents bks) by (apply contents_elem; split; [done|by eapply list_elem_of_lookup_2]).
      destruct (Hel e Hin) as (Ke & Nm & Nb). apply tot_bind.
      assert (Hnone : kmap K (contents bks') !! K e = None).
      { apply kmap_none. intros x Hx EK. rewrite T3 in Hx. pose proof (tb_nodup _ _ _ Htb) as Hn.
        rewrite (contents_split bks i e He), Hv in Hn. simpl in Hn. apply NoDup_cons in Hn as [Hn _]. apply Hn.
        rewrite <- EK. apply list_elem_of_fmap. exists x. split; [done|]. unfold contents in *. rewrite filter_app. apply elem_of_app. by left. }
      eapply (put_step fuel m' map b' bks' e k); eauto.
      * rewrite T3, T2, Hlen. pose proof (contents_le (take i bks)) as Hci. rewrite length_take in Hci. lia.
      * rewrite <- Ke. apply key_local. by apply T4.
      * intros m1 bks1 Q1 Q2 Q3 Q4. rewrite Hnone. intros Q5.
        assert (Hlt : (length bks' <? 2 * length (contents bks1))%nat = false).
        { apply Nat.ltb_ge. assert (length (contents bks1) = S (length (contents (take i bks)))) by (rewrite Q5; simpl; by rewrite T3).
          rewrite Etake, length_app in Htl. change (length [e]) with 1%nat in Htl. lia. }
        rewrite Hlt. apply tot_ret. exists bks1. split_and!; auto; [congruence| |].
        -- rewrite Q5, Etake, T3. by rewrite Permutation_cons_append.
        -- intros c Hc1 Hc2. rewrite Q3 by done. by apply T4.
    + apply tot_ret. exists bks'. rewrite Etake, app_nil_r. done.
  - exists bks0. rewrite take_0, Hc0. split_and!; auto. intros c ? ?. done.
  - intros _ m' (bks' & T1 & T2 & T3 & T4 & T5). exists bks'. by rewrite firstn_all in T3.
Qed.

Lemma shl3_small n : 0 <= n <= 2 ^ 25 -> ds_fun.shl n 3 = 8 * n.
Proof. intros Hn. unfold ds_fun.shl. rewrite Z.shiftl_mul_pow2 by lia. rewrite u64_small by (unfold M64; lia). lia. Qed.

Lemma resize_ok fuel m map b bks k : table_at K m map b bks -> 8 * Z.of_nat (length bks) <= 2 ^ 28 -> mroom (S k) m ->
  tot (resize (hashmap_put (S fuel) map) map) m (fun _ m' => mroom k m' /\ exists b' bks',
    table_at K m' map b' bks' /\ contents bks' ≡ₚ contents bks /\ length bks' = (8 * length bks)%nat /\ m !! b' = None /\
    forall c, c <> map -> c <> b -> c <> b' -> m' !! c = m !! c).
Proof.
  intros Ht H28 Hk. pose proof Ht as [T1 T2 T3 T4 T5 T6 T7 T8]. destruct (ta_small _ _ _ _ _ Ht) as [H8 _].
  destruct (tb_pow _ _ _ T7) as (j & Hj & Epow). assert (Hlm : live m map) by (by eapply is_struct_live).
  assert (E8 : 8 * Z.of_nat (length bks) = 2 ^ (j + 3)) by (rewrite Z.pow_add_r, Epow by lia; lia).
  assert (Hj3 : j + 3 <= 28).
  { assert (2 ^ (j + 3) <= 2 ^ 28) as ?%Z.pow_le_mono_r_iff by lia; lia. }
  unfold resize, sizeof_hashmap_t in *. apply tot_bind. eapply tot_load; [exact T3|]. apply tot_bind. eapply tot_load; [exact T4|].
  apply tot_bind. eapply tot_store; [eapply is_struct_inb; [exact T1|lia]|].
  apply tot_bind. eapply tot_store; [eapply is_struct_inb; [by rewrite is_struct_upd|lia]|].
  rewrite (proj2 (Z.ltb_ge _ 8)) by lia. rewrite shl3_small, E8 by lia.
  set (m1 := upd (upd m _ _) _ _). assert (Hl1 : live m1 map) by (by apply live_upd, live_upd).
  assert (Es : get m1 (map, HM_SIZE) = Some (2 ^ (j + 3))) by (apply get_upd_eq; by apply live_upd).
  apply tot_bind. eapply tot_load; [exact Es|].
  apply tot_bind. eapply tot_mono; [apply (new_array_ok K m1 map (j + 3) k); auto; [..|lia|]|].
  { unfold m1. by rewrite !is_struct_upd. }
  { unfold m1. by repeat apply mroom_upd. }
  { unfold m1. mget. }
  intros b' m2 (Hin & Hs & Hb & Hmem). apply tot_bind. eapply tot_store; [exact Hin|].
  apply tot_bind. eapply tot_load; [exact Hs|]. apply tot_bind. eapply tot_load; [exact Hb|].
  apply tot_bind. eapply tot_mono; [exact Hmem|]. intros _ m3 (R1 & R2 & R3 & R4).
  assert (Hlb : live m b) by (by eapply is_struct_live, T5).
  assert (Hlive : forall c, live m c -> c <> b').
  { intros c Hc ->. assert (live m1 b') as [o Ho] by (by apply live_upd, live_upd). congruence. }
  assert (Hsame : forall c, c <> map -> c <> b' -> m3 !! c = m !! c).
  { intros c Hc1 Hc2. rewrite R4 by done. unfold m1. by rewrite !lookup_upd_ne. }
  assert (Hel : forall e, e ∈ contents bks -> m3 !! e = m !! e /\ e <> map /\ e <> b /\ e <> b').
  { intros e He. destruct (T8 e He) as (Ke & N1 & N2). destruct (key_live _ _ _ Ke) as [Hle _]. split_and!; auto. }
  apply tot_bind. rewrite Nat2Z.id.
  eapply tot_mono; [apply (rehash_ok fuel m3 map b b' bks (replicate (Z.to_nat (2 ^ (j + 3))) NULL) k); auto|].
  - apply (slots_at_lookup m); [|done]. apply Hsame; auto.
  - apply contents_replicate.
  - rewrite length_replicate. lia.
  - intros e He. destruct (Hel e He) as (E & N1 & N2 & N3). split_and!; auto. rewrite (key_local m) by done. by apply T8.
  - intros _ m4 (bks' & Q1 & Q2 & Q3 & Q4 & Q5). rewrite length_replicate in Q2.
    assert (Hb0 : b <> 0) by apply T5. rewrite (proj2 (Z.eqb_neq b 0)) by done.
    assert (Hlb4 : live m4 b).
    { unfold live. rewrite Q4, Hsame by auto. exact Hlb. }
    eapply tot_free; [done|exact Hlb4|]. split; [by apply mroom_delete|]. exists b', bks'. split_and!; auto.
    + apply (table_lookup m4); [by rewrite lookup_delete_ne|rewrite lookup_delete_ne; auto| |done].
      intros e He. rewrite lookup_delete_ne; [done|]. rewrite Q3 in He. by destruct (Hel e He) as (_ & _ & N & _).
    + lia.
    + apply eq_None_not_Some. intros Hl. by apply (Hlive b' Hl).
    + intros c N1 N2 N3. rewrite lookup_delete_ne by done. rewrite Q4, Hsame by auto. done.
Qed.

Lemma tot_bind_load {A} m l (p : Z -> prog mem A) (Q : A -> mem -> Prop) : tot (pbind p (load l)) m Q ->
  exists v, get m l = Some v /\ tot (p v) m Q.
Proof.
  unfold tot. rewrite run_bind. unfold load, act. simpl. destruct (get m l) as [v|]; [|done]. eauto.
Qed.

(** ** The map *)

(** The map at [map] stands for [M]; [O] are its own objects. *)
Definition hm_at (map : Z) (O : gset Z) (M : gmap Z Z) m : Prop :=
  is_struct m map sizeof_hashmap_t /\ get m (map, HM_COUNT) = Some 0 /\ get m (map, HM_SIZE) = Some 0 /\
    get m (map, HM_BUCKETS) = Some NULL /\ O = {[map]} /\ M = ∅ \/
  exists b bks, table_at K m map b bks /\ (2 * length (contents bks) <= length bks)%nat /\ O = {[map; b]} /\
    M = kmap K (contents bks).

Lemma table_hm m map b bks M : table_at K m map b bks -> (2 * length (contents bks) <= length bks)%nat ->
  M = kmap K (contents bks) -> hm_at map {[map; b]} M m.
Proof. intros Ht Hl ->. right. eauto 10. Qed.

Lemma table_nodup m map b bks : table_at K m map b bks -> NoDup (K <$> contents bks).
Proof. intros Ht. apply (ta_tbl _ _ _ _ _ Ht). Qed.

Lemma table_count m map b bks : table_at K m map b bks -> Z.of_nat (size (kmap K (contents bks))) = Z.of_nat (length (contents bks)).
Proof. intros Ht. by rewrite kmap_size by (by eapply table_nodup). Qed.

Lemma only_frame map b m m' : only map b m m' -> frame {[map; b]} m m' {[map; b]}.
Proof. intros H. split; [|set_solver]. intros c Hc _. apply H; set_solver. Qed.

(** [hashmap_put] on a map with an array. *)
Lemma put_table_ok fuel m map b bks e k : table_at K m map b bks -> (2 * length (contents bks) <= length bks)%nat ->
  Z.of_nat (length (contents bks)) < 2 ^ 24 ->
  key_of m e = Some (K e) -> e <> map -> e <> b -> mroom (S k) m ->
  tot (hashmap_put (S (S fuel)) map e) m (fun r m' => r = default NULL (kmap K (contents bks) !! K e) /\ mroom k m' /\
    exists b', hm_at map {[map; b']} (<[K e := e]> (kmap K (contents bks))) m' /\ (b' = b \/ m !! b' = None) /\
      forall c, c <> map -> c <> b -> c <> b' -> m' !! c = m !! c).
Proof.
  intros Ht Hl H24 He N1 N2 Hk. eapply (put_step (S fuel) m map b bks e (S k)); eauto.
  intros m1 bks1 Q1 Q2 Q3 Q4 Q5. pose proof (table_nodup _ _ _ _ Q1) as Hn1. pose proof (table_nodup _ _ _ _ Ht) as Hn.
  destruct (kmap K (contents bks) !! K e) as [x|] eqn:Ek.
  - destruct Q5 as (l & L1 & L2). split; [done|]. split; [by eapply mroom_mono; [exact Q4|lia]|]. exists b.
    split; [|split; [by left|]; intros; by apply Q3]. eapply table_hm; [exact Q1|rewrite L2, Q2; rewrite L1 in Hl; exact Hl|].
    assert (Hx : K x = K e) by (by apply kmap_lookup in Ek as [_ ?]).
    rewrite (kmap_perm K _ _ Hn1 L2), (kmap_perm K _ _ Hn L1). unfold kmap. simpl. rewrite Hx. by rewrite insert_insert_eq.
  - assert (EM : kmap K (contents bks1) = <[K e := e]> (kmap K (contents bks))) by (by rewrite (kmap_perm K _ _ Hn1 Q5)).
    assert (Hlen : length (contents bks1) = S (length (contents bks))) by (by rewrite Q5).
    destruct (Nat.ltb_spec (length bks) (2 * length (contents bks1))) as [Hlt|Hge].
    + eapply tot_mono; [apply (resize_ok fuel m1 map b bks1 k); auto; lia|].
      intros _ m2 (R1 & b' & bks2 & R2 & R3 & R4 & R5 & R6). split; [done|]. split; [done|]. exists b'.
      assert (Hb' : b' <> map).
      { intros ->. destruct (is_struct_live _ _ _ (ta_map _ _ _ _ _ Q1)). congruence. }
      assert (Hb'' : b' <> b).
      { intros ->. destruct (is_struct_live _ _ _ (proj1 (ta_slots _ _ _ _ _ Q1))). congruence. }
      split_and!.
      * eapply table_hm; [exact R2|rewrite R3, R4; pose proof (contents_le bks1); lia|].
        rewrite (kmap_perm K _ _ (table_nodup _ _ _ _ R2) R3). by rewrite EM.
      * right. by rewrite <- Q3.
      * intros c C1 C2 C3. rewrite R6 by done. by apply Q3.
    + split; [done|]. split; [by eapply mroom_mono; [exact Q4|lia]|]. exists b.
      split; [|split; [by left|]; intros; by apply Q3]. eapply table_hm; [exact Q1|lia|done].
Qed.

(** The first call of [hashmap_put] initialises the map, and goes on as on any map. *)
Lemma put_first fuel m map e n (Q : Z -> mem -> Prop) : get m (map, HM_SIZE) = Some 0 ->
  tot (hashmap_init map 4) m (fun _ m1 => exists n, n <> 0 /\ get m1 (map, HM_SIZE) = Some n /\ tot (hashmap_put (S fuel) map e) m1 Q) ->
  n = S fuel -> tot (hashmap_put n map e) m Q.
Proof.
  intros H0 Hi ->. cbn [hashmap_put]. apply tot_bind. eapply tot_load; [exact H0|]. rewrite Z.eqb_refl. apply tot_bind.
  eapply tot_mono; [exact Hi|]. intros [] m1 (n & Hn & Hs & Hput). cbn [hashmap_put] in Hput.
  apply tot_bind_load in Hput as (v & Hv & Hput). assert (v = n) as -> by congruence.
  rewrite (proj2 (Z.eqb_neq n 0) Hn) in Hput. exact Hput.
Qed.

Lemma put_ok fuel map O M m e k : hm_at map O M m -> Z.of_nat (size M) < 2 ^ 24 ->
  key_of m e = Some (K e) -> e ∉ O -> mroom (2 + k) m ->
  tot (hashmap_put (2 + fuel) map e) m (fun r m' => r = default NULL (M !! K e) /\ mroom k m' /\
    exists O', hm_at map O' (<[K e := e]> M) m' /\ frame O m m' O').
Proof.
  intros [(S1 & S2 & S3 & S4 & -> & ->)|(b & bks & Ht & Hl & -> & ->)] Hsz He Ho Hk.
  - (* the first element: [hashmap_init] gives the map an array *)
    assert (Nm : e <> map) by set_solver. destruct (key_live _ _ _ He) as [Hle _].
    eapply put_first; [exact S3| |reflexivity].
    eapply tot_mono; [apply (init_ok K m map 4 (S k) S1); [lia|exact Hk]|].
    intros _ m1 (Hk1 & b & j & Hj & Hj8 & T & Hb & Ho1). assert (0 < 2 ^ j) by (apply Z.pow_pos_nonneg; lia).
    exists (2 ^ j). split; [lia|]. split; [rewrite (ta_size _ _ _ _ _ T), length_replicate; f_equal; lia|].
    assert (Nb : e <> b) by (intros ->; destruct Hle; congruence).
    eapply tot_mono; [apply (put_table_ok fuel m1 map b _ e k T); auto; rewrite ?contents_replicate; [simpl; lia|simpl; lia|]|].
    + rewrite <- He. apply key_local. by apply Ho1.
    + rewrite contents_replicate. intros r m2 (-> & R2 & b' & R3 & R4 & R5). split; [done|]. split; [done|].
      exists {[map; b']}. split; [exact R3|].
      assert (Hfresh : b' <> map -> m !! b' = None).
      { intros Hb'. destruct R4 as [->|R4]; [done|]. destruct (decide (b' = b)) as [->|]; [done|]. by rewrite <- Ho1. }
      split.
      * intros c Hc Hlc. assert (c <> map) by set_solver. assert (c <> b) by (intros ->; destruct Hlc; congruence).
        assert (c <> b') by (intros ->; destruct Hlc; rewrite Hfresh in *; congruence).
        rewrite R5 by done. by apply Ho1.
      * intros c [->%elem_of_singleton| ->%elem_of_singleton]%elem_of_union; [left; set_solver|].
        destruct (decide (b' = map)) as [->|]; [left; set_solver|auto].
  - eapply tot_mono; [apply (put_table_ok fuel m map b bks e k Ht Hl); [|done|set_solver|set_solver|by eapply mroom_mono; [exact Hk|lia]]|].
    + rewrite (table_count _ _ _ _ Ht) in Hsz. exact Hsz.
    + intros r m2 (-> & R2 & b' & R3 & R4 & R5). split; [done|]. split; [done|]. exists {[map; b']}. split; [exact R3|]. split.
      * intros c Hc Hlc. assert (c <> map) by set_solver. assert (c <> b) by set_solver.
        destruct (decide (c = b')) as [->|]; [|by apply R5]. destruct R4 as [->|R4]; [done|]. destruct Hlc; congruence.
      * intros c [->%elem_of_singleton| ->%elem_of_singleton]%elem_of_union; [left; set_solver|].
        destruct R4 as [->|R4]; [left; set_solver|by right].
Qed.

(** ** Lookups and removals *)
Lemma get_ok map O M m key : hm_at map O M m -> key_of m key = Some (K key) ->
  tot (hashmap_get map key) m (fun r m' => m' = m /\ r = default NULL (M !! K key)).
Proof.
  intros [(S1 & S2 & S3 & S4 & -> & ->)|(b & bks & Ht & Hl & -> & ->)] Hkey; unfold hashmap_get.
  - apply tot_bind. eapply tot_load; [exact S2|]. rewrite Z.eqb_refl. by apply tot_ret.
  - apply tot_bind. eapply tot_load; [apply Ht|]. destruct (Z.eqb_spec (Z.of_nat (length (contents bks))) 0) as [E|E].
    + apply tot_ret. split; [done|]. assert (contents bks = []) as -> by (apply nil_length_inv; lia). done.
    + apply tot_bind. eapply tot_mono; [by apply (search_ok K m map b bks key)|]. intros r m' [-> [_ Hr]]. apply tot_ret. split; [done|].
      destruct (kmap K (contents bks) !! K key); simpl; [by destruct Hr as (-> & _)|by destruct Hr as (-> & _)].
Qed.

(** Slot [i] becomes a tombstone. *)
Lemma delete_slot m map b bks i x k : table_at K m map b bks -> bks !! i = Some x -> valid x = true ->
  (2 * length (contents bks) <= length bks)%nat -> mroom k m ->
  let m1 := upd (upd m (b, 8 * Z.of_nat i) DELETED) (map, HM_COUNT) (u64 (Z.of_nat (length (contents bks)) - 1)) in
  hm_at map {[map; b]} (delete (K x) (kmap K (contents bks))) m1 /\ only map b m m1 /\ mroom k m1.
Proof.
  intros Ht Hx Hv Hl Hk. destruct (ta_small _ _ _ _ _ Ht) as [_ H28]. pose proof (contents_le bks).
  destruct (tbl_remove K hash_key bks i x (ta_tbl _ _ _ _ _ Ht) Hx Hv) as [Ht1 Hc].
  assert (Hlen : length (contents bks) = S (length (contents (<[i := DELETED]> bks)))) by (by rewrite Hc).
  cbv zeta. rewrite u64_small by (unfold M64; lia). split_and!; [|intros c ? ?; by rewrite !lookup_upd_ne|by repeat apply mroom_upd].
  eapply (table_hm _ map b (<[i := DELETED]> bks)).
  - apply table_upd; [done|by eapply lookup_lt_Some|done|lia|done].
  - rewrite length_insert. lia.
  - pose proof (table_nodup _ _ _ _ Ht) as Hn. rewrite (kmap_perm K _ _ Hn Hc). rewrite Hc in Hn. symmetry. by apply kmap_delete.
Qed.

Lemma remove_ok map O M m e k : hm_at map O M m -> key_of m e = Some (K e) -> mroom k m ->
  tot (hashmap_remove map e) m (fun r m' => r = default NULL (M !! K e) /\ hm_at map O (delete (K e) M) m' /\
    frame O m m' O /\ mroom k m').
Proof.
  intros [(S1 & S2 & S3 & S4 & -> & ->)|(b & bks & Ht & Hl & -> & ->)] He Hk; unfold hashmap_remove.
  - apply tot_bind. eapply tot_load; [exact S2|]. rewrite Z.eqb_refl. apply tot_ret. rewrite delete_empty.
    split_and!; [done| |apply frame_refl|done]. left. split_and!; done.
  - assert (Hsame : kmap K (contents bks) !! K e = None -> hm_at map {[map; b]} (delete (K e) (kmap K (contents bks))) m).
    { intros E. rewrite delete_id by done. right. eauto 10. }
    apply tot_bind. eapply tot_load; [apply Ht|]. destruct (Z.eqb_spec (Z.of_nat (length (contents bks))) 0) as [E|E].
    + apply tot_ret. assert (E' : contents bks = []) by (apply nil_length_inv; lia).
      assert (Enone : kmap K (contents bks) !! K e = None) by (by rewrite E'). rewrite Enone. split_and!; auto using frame_refl.
    + apply tot_bind. eapply tot_mono; [by apply (search_ok K m map b bks e)|].
      intros [el pos] m' [-> [Hpos Hr]]. simpl in Hpos, Hr. destruct (kmap K (contents bks) !! K e) as [x|] eqn:Ek.
      * destruct Hr as (-> & Ex & Hv & Hx0). rewrite (proj2 (Z.eqb_neq x 0)) by done. simpl negb. cbv iota.
        pose proof (slot_lookup bks pos Hpos) as Hsl. rewrite Ex in Hsl.
        destruct (delete_slot m map b bks (Z.to_nat pos) x k Ht Hsl Hv Hl Hk) as (D1 & D2 & D3).
        apply kmap_lookup in Ek as [_ Ekx]; [|by eapply table_nodup]. rewrite Ekx in D1.
        pose proof (ta_ne _ _ _ _ _ Ht) as Hne. rewrite Z2Nat.id in D1, D2, D3 by lia.
        apply tot_bind, tot_bind. eapply tot_load; [apply Ht|]. apply tot_bind.
        eapply tot_store; [eapply is_struct_inb; [apply (ta_slots _ _ _ _ _ Ht)|lia]|].
        apply tot_bind. eapply tot_load; [rewrite get_upd_ne by (intros Eq; injection Eq; congruence); apply Ht|].
        eapply tot_store; [eapply is_struct_inb; [rewrite is_struct_upd; apply Ht|unfold sizeof_hashmap_t; lia]|].
        apply tot_ret. split_and!; auto. by apply only_frame.
      * destruct Hr as (-> & _). simpl negb. cbv iota. apply tot_bind, tot_ret, tot_ret. split_and!; auto using frame_refl.
Qed.

Lemma size_ok map O M m : hm_at map O M m -> tot (hashmap_size map) m (fun r m' => m' = m /\ r = Z.of_nat (size M)).
Proof.
  intros [(S1 & S2 & S3 & S4 & -> & ->)|(b & bks & Ht & Hl & -> & ->)]; unfold hashmap_size.
  - eapply tot_load; [exact S2|]. done.
  - eapply tot_load; [apply Ht|]. split; [done|]. by rewrite (table_count _ _ _ _ Ht).
Qed.
End operations.
