(* ===== verification/HashClient.v ===== *)
(** * Programs that use a hash map of the runtime (ds/hash.c)

    A map initialised for any number of elements and then used in any way answers
    as a finite map from keys to elements; the iterator visits every element
    once.  Elements keep their keys while they are in the map. *)
From S2P Require Export HashOps.
Import hash_map.

Inductive hm_op : Set := HPut (e : Z) | HGet (e : Z) | HRemove (e : Z) | HSize.

Definition hm_elem (op : hm_op) : option Z :=
  match op with HPut e | HGet e | HRemove e => Some e | HSize => None end.

Definition hm_call `{Malloc, !HashFns} (fuel : nat) (map : Z) (op : hm_op) : prog mem Z :=
  match op with
  | HPut e => hashmap_put fuel map e
  | HGet e => hashmap_get map e
  | HRemove e => hashmap_remove map e
  | HSize => hashmap_size map
  end.

Fixpoint hm_calls `{Malloc, !HashFns} (fuel : nat) (map : Z) (ops : list hm_op) : prog mem (list Z) :=
  match ops with
  | [] => Ret []
  | op :: ops' => r <- hm_call fuel map op ;; rs <- hm_calls fuel map ops' ;; Ret (r :: rs)
  end.

(** The same on a finite map; [K] is the key of an element. *)
Definition hm_step (K : Z -> Z) (M : gmap Z Z) (op : hm_op) : gmap Z Z * Z :=
  match op with
  | HPut e => (<[K e := e]> M, default NULL (M !! K e))
  | HGet e => (M, default NULL (M !! K e))
  | HRemove e => (delete (K e) M, default NULL (M !! K e))
  | HSize => (M, Z.of_nat (size M))
  end.

Fixpoint hm_run (K : Z -> Z) (M : gmap Z Z) (ops : list hm_op) : gmap Z Z * list Z :=
  match ops with
  | [] => (M, [])
  | op :: ops' => let t := hm_step K M op in let u := hm_run K t.1 ops' in (u.1, t.2 :: u.2)
  end.

(** The elements in the order of the iterator. *)
Fixpoint hm_elements `{Malloc, !HashFns} (fuel n : nat) (map i : Z) : prog mem (list Z) :=
  match n with
  | O => Stop EFuel
  | S n' =>
      r <- hashmap_next fuel map i ;;
      if r.1 =? NULL then Ret []
      else l <- hm_elements fuel n' map r.2 ;; Ret (r.1 :: l)
  end.

(** * Proofs *)
Section client.
Context `{HM : Malloc, HR : !MallocRoom, HF : !HashFns, HL : !HashLaws}.
Variable K : Z -> Z.
Implicit Types (m : mem).

(** The elements of a program: each is an object of its own with its key. *)
Definition hm_owned (O : gset Z) m (ops : list hm_op) : Prop :=
  forall op e, op ∈ ops -> hm_elem op = Some e -> key_of m e = Some (K e) /\ e ∉ O.

Lemma hm_owned_frame O m m' O' ops : frame O m m' O' -> hm_owned O m ops -> hm_owned O' m' ops.
Proof.
  intros [F1 F2] Hown op e Hop He. destruct (Hown op e Hop He) as [Ke Ho]. destruct (key_live _ _ _ Ke) as [[o Hl] _]. split.
  - rewrite <- Ke. apply key_local. apply F1; [done|by exists o].
  - intros [?|?]%F2; [done|congruence].
Qed.

Lemma hm_call_ok fuel map O M m op k : hm_at K map O M m -> Z.of_nat (size M) < 2 ^ 24 ->
  hm_owned O m [op] -> mroom (2 + k) m ->
  tot (hm_call (2 + fuel) map op) m (fun r m' => r = (hm_step K M op).2 /\ mroom k m' /\
    exists O', hm_at K map O' (hm_step K M op).1 m' /\ frame O m m' O').
Proof.
  intros Ha Hs Hown Hk. assert (Hk' : mroom k m) by (eapply mroom_mono; [exact Hk|lia]). destruct op as [e|e|e|]; simpl.
  - destruct (Hown (HPut e) e) as [Ke Ho]; [left|done|]. exact (put_ok K fuel map O M m e k Ha Hs Ke Ho Hk).
  - destruct (Hown (HGet e) e) as [Ke Ho]; [left|done|]. eapply tot_mono; [by eapply (get_ok K)|].
    intros r m' [-> ->]. split_and!; auto. exists O. auto using frame_refl.
  - destruct (Hown (HRemove e) e) as [Ke Ho]; [left|done|]. eapply tot_mono; [by eapply (remove_ok K)|].
    intros r m' (-> & R1 & R2 & R3). split_and!; auto. by exists O.
  - eapply tot_mono; [by eapply (size_ok K)|]. intros r m' [-> ->]. split_and!; auto. exists O. auto using frame_refl.
Qed.

Lemma hm_step_size M op : (size (hm_step K M op).1 <= S (size M))%nat.
Proof.
  destruct op as [e|e|e|]; simpl; try lia.
  - rewrite map_size_insert. case_match; unfold id; lia.
  - rewrite map_size_delete. case_match; unfold id; lia.
Qed.

Lemma hm_calls_ok fuel map ops : forall O M m k, hm_at K map O M m ->
  Z.of_nat (size M + length ops) < 2 ^ 24 -> hm_owned O m ops -> mroom (2 * length ops + k) m ->
  tot (hm_calls (2 + fuel) map ops) m (fun rs m' => rs = (hm_run K M ops).2 /\ mroom k m' /\
    exists O', hm_at K map O' (hm_run K M ops).1 m' /\ frame O m m' O').
Proof.
  induction ops as [|op ops IH]; intros O M m k Ha Hs Hown Hk; cbn [hm_calls].
  - apply tot_ret. split_and!; auto. exists O. auto using frame_refl.
  - simpl length in *. apply tot_bind. eapply tot_mono; [apply (hm_call_ok fuel map O M m op (2 * length ops + k)); auto|].
    + lia.
    + intros op' e ->%list_elem_of_singleton. apply Hown. left.
    + eapply mroom_mono; [exact Hk|lia].
    + intros r m1 (-> & Hk1 & O1 & Ha1 & F1). apply tot_bind. pose proof (hm_step_size M op).
      eapply tot_mono; [apply (IH O1 _ m1 k Ha1); [lia| |exact Hk1]|].
      * eapply hm_owned_frame; [exact F1|]. intros op' e Hop. apply Hown. by right.
      * intros rs m2 (-> & Hk2 & O2 & Ha2 & F2). apply tot_ret. split_and!; auto. exists O2. split; [done|].
        eapply frame_trans; eauto.
Qed.

Lemma hm_init_ok map n m k : is_struct m map sizeof_hashmap_t -> 0 <= n <= 2 ^ 27 -> mroom (S k) m ->
  tot (hashmap_init map n) m (fun _ m' => mroom k m' /\ exists O, hm_at K map O ∅ m' /\ frame {[map]} m m' O).
Proof.
  intros Hm Hn Hk. destruct (Z.eq_dec n 0) as [->|Hn0].
  - unfold hashmap_init. cbv zeta. change (0 <? 0) with false. cbv iota. assert (live m map) by (by eapply is_struct_live).
    unfold sizeof_hashmap_t in *. apply tot_bind. eapply tot_store; [minb|]. apply tot_bind. eapply tot_store; [minb|].
    eapply tot_store; [minb|]. split; [repeat apply mroom_upd; eapply mroom_mono; [exact Hk|lia]|].
    exists {[map]}. split; [left; unfold sizeof_hashmap_t; rewrite !is_struct_upd; split_and!; auto; mget|].
    split; [|auto]. intros c Hc _. rewrite !lookup_upd_ne; [done|set_solver..].
  - eapply tot_mono; [apply (init_ok K m map n k Hm); [lia|done]|].
    intros _ m' (Hk' & b & j & Hj & _ & T & Hb & Ho). split; [done|]. exists {[map; b]}.
    assert (0 < 2 ^ j) by (apply Z.pow_pos_nonneg; lia). split.
    + eapply table_hm; [exact T|rewrite contents_replicate; simpl; lia|by rewrite contents_replicate].
    + split.
      * intros c Hc Hlc. apply Ho; [set_solver|]. intros ->. destruct Hlc; congruence.
      * intros c [->%elem_of_singleton| ->%elem_of_singleton]%elem_of_union; [left; set_solver|by right].
Qed.

(** ** The iterator *)

(** The elements of the slots from [j] on. *)
Lemma contents_drop_S bks j e : bks !! j = Some e ->
  contents (drop j bks) = (if valid e then [e] else []) ++ contents (drop (S j) bks).
Proof.
  intros He. rewrite (drop_S bks e j He). unfold contents. rewrite filter_cons.
  destruct (valid e) eqn:E; [by rewrite decide_True by done|by rewrite decide_False by congruence].
Qed.

Lemma next_ok fuel m map b bks j : table_at K m map b bks -> (0 < length (contents bks))%nat ->
  (j <= length bks)%nat -> (length bks - j < fuel)%nat ->
  tot (hashmap_next fuel map (u64 (Z.of_nat j - 1))) m (fun r m' => m' = m /\
    match contents (drop j bks) with
    | [] => r.1 = NULL
    | e :: l => r.1 = e /\ e <> NULL /\ exists i, r.2 = u64 (Z.of_nat (S i) - 1) /\ (i < length bks)%nat /\ contents (drop (S i) bks) = l
    end).
Proof.
  intros Ht Hc Hj Hf. destruct (ta_small _ _ _ _ _ Ht) as [H8 H28]. unfold hashmap_next. apply tot_bind.
  eapply tot_load; [apply Ht|]. rewrite (proj2 (Z.eqb_neq _ 0)) by lia.
  assert (E : u64 (u64 (Z.of_nat j - 1) + 1) = Z.of_nat j).
  { unfold u64. rewrite Zplus_mod_idemp_l. rewrite Z.sub_add. apply Z.mod_small. unfold M64. lia. }
  rewrite E. clear E. revert j Hj Hf. induction fuel as [|fuel IH]; intros j Hj Hf; [lia|]. apply tot_loop_S.
  apply tot_bind. eapply tot_load; [apply Ht|]. destruct (Z.ltb_spec (Z.of_nat j) (Z.of_nat (length bks))) as [Hlt|Hge]; simpl negb; cbv iota.
  - destruct (lookup_lt_is_Some_2 bks j ltac:(lia)) as [e He]. apply tot_bind. eapply tot_load; [apply Ht|].
    apply tot_bind. eapply tot_load; [by apply (ta_slots _ _ _ _ _ Ht)|].
    rewrite (contents_drop_S bks j e He). destruct (valid e) eqn:Hv.
    + apply tot_ret. split; [done|]. simpl. split; [done|]. split; [intros ->; done|]. exists j. split_and!; [|lia|done].
      rewrite u64_small by (unfold M64; lia). lia.
    + apply tot_ret. rewrite u64_small by (unfold M64; lia). replace (Z.of_nat j + 1) with (Z.of_nat (S j)) by lia.
      apply IH; lia.
  - apply tot_ret. split; [done|]. by rewrite drop_ge by lia.
Qed.

Lemma elements_ok fuel n m map b bks j : table_at K m map b bks -> (0 < length (contents bks))%nat ->
  (j <= length bks)%nat -> (length bks < fuel)%nat -> (length (contents (drop j bks)) < n)%nat ->
  tot (hm_elements fuel n map (u64 (Z.of_nat j - 1))) m (fun l m' => m' = m /\ l = contents (drop j bks)).
Proof.
  intros Ht Hc Hj Hf. revert j Hj. induction n as [|n IH]; intros j Hj Hn; [lia|]. cbn [hm_elements]. apply tot_bind.
  eapply tot_mono; [apply (next_ok fuel m map b bks j); auto; lia|]. intros r m' [-> Hr].
  destruct (contents (drop j bks)) as [|e l].
  - rewrite Hr, Z.eqb_refl. by apply tot_ret.
  - destruct Hr as (-> & He & i & -> & Hi & El). rewrite (proj2 (Z.eqb_neq e 0)) by done. apply tot_bind.
    eapply tot_mono; [apply (IH (S i)); [lia|rewrite El; simpl in Hn; lia]|]. intros l' m' [-> ->]. apply tot_ret. by rewrite El.
Qed.

(** ** Theorems *)

(** C10: A map initialised for [n] elements answers every sequence of operations as a
    finite map from keys to elements: [hashmap_put] returns the element it replaces,
    [hashmap_remove] the one it removes; searches always end, also when the table is
    full of tombstones, and the table grows as needed.  Objects that are not the
    map's are left alone. *)
Theorem hashmap_refines_map fuel map n ops m k : is_struct m map sizeof_hashmap_t -> 0 <= n <= 2 ^ 27 ->
  Z.of_nat (length ops) < 2 ^ 24 -> hm_owned {[map]} m ops -> mroom (S (2 * length ops + k)) m ->
  tot (hashmap_init map n ;; hm_calls (2 + fuel) map ops) m (fun rs m' => rs = (hm_run K ∅ ops).2 /\ mroom k m' /\
    exists O', hm_at K map O' (hm_run K ∅ ops).1 m' /\ frame {[map]} m m' O').
Proof.
  intros Hm Hn Hl Hown Hk. apply tot_bind. eapply tot_mono; [by apply (hm_init_ok map n m _ Hm Hn Hk)|].
  intros _ m1 (Hk1 & O & Ha & Fr). eapply tot_mono; [apply (hm_calls_ok fuel map ops O ∅ m1 k Ha); [by rewrite map_size_empty| |exact Hk1]|].
  - by eapply hm_owned_frame.
  - intros rs m2 (-> & Hk2 & O2 & Ha2 & F2). split_and!; auto. exists O2. split; [done|]. eapply frame_trans; eauto.
Qed.

(** C17: The iterator, started at [HASHMAP_BEGIN], returns every element of the map exactly
    once and then NULL, and changes nothing. *)
Theorem hashmap_iterates fuel map O M m size : hm_at K map O M m -> get m (map, HM_SIZE) = Some size -> size < Z.of_nat fuel ->
  tot (hm_elements fuel fuel map HASHMAP_BEGIN) m (fun l m' => m' = m /\ NoDup (K <$> l) /\
    forall e, e ∈ l <-> exists k, M !! k = Some e).
Proof.
  intros [(S1 & S2 & S3 & S4 & -> & ->)|(b & bks & Ht & Hl & -> & ->)] Hs Hf.
  - assert (size = 0) as -> by congruence. destruct fuel as [|fuel]; [lia|]. cbn [hm_elements]. apply tot_bind. unfold hashmap_next. apply tot_bind.
    eapply tot_load; [exact S2|]. rewrite Z.eqb_refl. apply tot_ret. simpl. apply tot_ret. split_and!; [done|apply NoDup_nil_2|].
    intros e. split; [by intros ?%not_elem_of_nil|]. intros [k Hk]. by rewrite lookup_empty in Hk.
  - pose proof (ta_size _ _ _ _ _ Ht) as Hs'. assert (size = Z.of_nat (length bks)) as -> by congruence.
    pose proof (table_nodup K _ _ _ _ Ht) as Hn. pose proof (contents_le bks) as Hc.
    assert (Hel : forall e, e ∈ contents bks <-> exists k, kmap K (contents bks) !! k = Some e).
    { intros e. split; [intros He; exists (K e); by apply kmap_lookup|]. intros [k He]. by apply kmap_lookup in He as [? _]. }
    destruct (decide (contents bks = [])) as [E|E].
    + destruct fuel as [|fuel]; [lia|]. cbn [hm_elements]. apply tot_bind. unfold hashmap_next. apply tot_bind.
      eapply tot_load; [apply Ht|]. rewrite E. simpl. apply tot_ret, tot_ret. rewrite E in Hn, Hel. split_and!; auto.
    + change HASHMAP_BEGIN with (u64 (Z.of_nat 0 - 1)).
      eapply tot_mono; [apply (elements_ok fuel fuel m map b bks 0 Ht)|].
      * destruct (contents bks); [done|simpl; lia].
      * lia.
      * lia.
      * rewrite drop_0. lia.
      * intros l m' [-> ->]. rewrite drop_0. auto.
Qed.
End client.
