(* ===== verification/ObjectMap.v ===== *)
(** * The object maps of the garbage collector (gc/objectmap.c)

    An object map is a hash map (ds/hash.c) of records, one for each object of
    another actor that is known by its address.  The heap and the finalisers are
    the parameter [ObjHeap]. *)
From S2P Require Export HashClient.
Import hash_map.

(** [struct object_t] *)
Abbreviation OB_ADDRESS := 0 (only parsing).
Abbreviation OB_FINAL := 8 (only parsing).
Abbreviation OB_RC := 16 (only parsing).
Abbreviation OB_MARK := 24 (only parsing).
Abbreviation OB_REACHABLE := 28 (only parsing).
Definition sizeof_object_t : Z := 32.
Definition GC_INC_MORE : Z := 256.

(** The callbacks: objects with the same address are the same. *)
Definition object_hash (obj : Z) : prog mem Z :=
  address <- load (obj, OB_ADDRESS) ;;
  Ret (ds_fun.hash_ptr address).

Definition object_cmp (a b : Z) : prog mem bool :=
  x <- load (a, OB_ADDRESS) ;;
  y <- load (b, OB_ADDRESS) ;;
  Ret (x =? y).

#[export] Instance object_fns : HashFns := {| hash_fn := object_hash; cmp_fn := object_cmp |}.

(** mem/pagemap.c, mem/heap.c and the finalisers *)
Class ObjHeap := {
  pagemap_get : Z -> prog mem Z;
  heap_ismarked : Z -> Z -> prog mem bool;
  heap_mark_shallow : Z -> Z -> prog mem unit;
  call_final : Z -> Z -> prog mem unit
}.

Section code.
Context `{!Malloc}.

Definition object_alloc (address mark : Z) : prog mem Z :=
  obj <- POOL_ALLOC sizeof_object_t ;;
  store (obj, OB_ADDRESS) address ;;
  store (obj, OB_FINAL) NULL ;;
  store (obj, OB_RC) 0 ;;
  store (obj, OB_REACHABLE) 1 ;;
  store (obj, OB_MARK) (u32 (mark - 1)) ;;
  Ret obj.

Definition object_free (obj : Z) : prog mem unit := POOL_FREE obj.

Definition object_address (obj : Z) : prog mem Z := load (obj, OB_ADDRESS).
Definition object_rc (obj : Z) : prog mem Z := load (obj, OB_RC).

Definition object_marked (obj mark : Z) : prog mem bool :=
  v <- load (obj, OB_MARK) ;;
  Ret (v =? mark).

Definition object_mark (obj mark : Z) : prog mem unit := store (obj, OB_MARK) mark.

Definition object_inc (obj : Z) : prog mem unit :=
  rc <- load (obj, OB_RC) ;;
  store (obj, OB_RC) (u64 (rc + 1)) ;;
  rc <- load (obj, OB_RC) ;;
  assert_ (0 <? rc).

Definition object_inc_more (obj : Z) : prog mem unit :=
  rc <- load (obj, OB_RC) ;;
  assert_ (rc =? 0) ;;
  store (obj, OB_RC) GC_INC_MORE.

Definition object_inc_some (obj rc : Z) : prog mem unit :=
  v <- load (obj, OB_RC) ;;
  store (obj, OB_RC) (u64 (v + rc)).

Definition object_dec (obj : Z) : prog mem bool :=
  rc <- load (obj, OB_RC) ;;
  assert_ (0 <? rc) ;;
  rc <- load (obj, OB_RC) ;;
  store (obj, OB_RC) (u64 (rc - 1)) ;;
  rc <- load (obj, OB_RC) ;;
  Ret (0 <? rc).

Definition object_dec_some (obj rc : Z) : prog mem bool :=
  v <- load (obj, OB_RC) ;;
  assert_ (rc <=? v) ;;
  v <- load (obj, OB_RC) ;;
  store (obj, OB_RC) (u64 (v - rc)) ;;
  v <- load (obj, OB_RC) ;;
  Ret (v =? 0).

Definition object_reachable (obj : Z) : prog mem bool :=
  v <- load (obj, OB_REACHABLE) ;;
  Ret (negb (v =? 0)).

Definition object_markreachable (obj : Z) : prog mem unit := store (obj, OB_REACHABLE) 1.

(** The automatic variable [obj] is in the frame of the thread. *)
Definition objectmap_getobject (tid map address : Z) : prog mem Z :=
  store (stack_t tid, OB_ADDRESS) address ;;
  hashmap_get map (stack_t tid).

Definition objectmap_getorput (fuel : nat) (tid map address mark : Z) : prog mem Z :=
  obj <- objectmap_getobject tid map address ;;
  if negb (obj =? NULL) then Ret obj
  else
    obj <- object_alloc address mark ;;
    _ <- hashmap_put fuel map obj ;;
    Ret obj.

Definition objectmap_register_final (fuel : nat) (tid map address final mark : Z) : prog mem Z :=
  obj <- objectmap_getorput fuel tid map address mark ;;
  store (obj, OB_FINAL) final ;;
  Ret obj.

Section sweep.
Context `{!ObjHeap}.
Variable fuel : nat.

(** One call per element that the iterator returns. *)
Definition objectmap_final (map : Z) : prog mem unit :=
  loop fuel (fun i =>
    r <- hashmap_next fuel map i ;;
    let '(obj, i) := r in
    if obj =? NULL then break tt
    else
      final <- load (obj, OB_FINAL) ;;
      (if negb (final =? NULL) then
         final <- load (obj, OB_FINAL) ;;
         address <- load (obj, OB_ADDRESS) ;;
         call_final final address
       else Ret tt) ;;
      continue i) HASHMAP_BEGIN.

Definition collect_object (map obj : Z) : prog mem Z :=
  final <- load (obj, OB_FINAL) ;;
  count <- (if negb (final =? NULL) then
              final <- load (obj, OB_FINAL) ;;
              address <- load (obj, OB_ADDRESS) ;;
              call_final final address ;;
              Ret 1
            else Ret 0) ;;
  _ <- hashmap_remove map obj ;;
  object_free obj ;;
  Ret count.

(** The number of finalisers run. *)
Definition objectmap_sweep (map : Z) : prog mem Z :=
  loop fuel (fun '(count, i) =>
    r <- hashmap_next fuel map i ;;
    let '(obj, i) := r in
    if obj =? NULL then break count
    else
      p <- load (obj, OB_ADDRESS) ;;
      rc <- load (obj, OB_RC) ;;
      if 0 <? rc then
        chunk <- pagemap_get p ;;
        b <- heap_ismarked chunk p ;;
        store (obj, OB_REACHABLE) (b2z b) ;;
        v <- load (obj, OB_REACHABLE) ;;
        (if v =? 0 then heap_mark_shallow chunk p else Ret tt) ;;
        continue (count, i)
      else
        final <- load (obj, OB_FINAL) ;;
        skip <- (if negb (final =? NULL) then
                   chunk <- pagemap_get p ;;
                   b <- heap_ismarked chunk p ;;
                   if b : bool then Ret None
                   else
                     final <- load (obj, OB_FINAL) ;;
                     call_final final p ;;
                     Ret (Some 1)
                 else Ret (Some 0)) ;;
        match skip with
        | None => continue (count, i)
        | Some n =>
            _ <- hashmap_removeindex map i ;;
            object_free obj ;;
            continue (u64 (count + n), i)
        end) (0, HASHMAP_BEGIN).
End sweep.
End code.

(** * Proofs *)

#[export] Program Instance object_laws : HashLaws := {|
  key_of m e := if valid e then get m (e, OB_ADDRESS) else None;
  hash_key := ds_fun.hash_ptr |}.
Next Obligation. intros m e k. simpl. case_match; [|done]. intros E. split; [|done]. by apply (live_get m (e, 0) k). Qed.
Next Obligation. intros m m' e E. simpl. by rewrite (get_lookup_eq m). Qed.
Next Obligation.
  intros m e k. simpl. destruct (valid e); [|done]. intros E. by rewrite E.
Qed.
Next Obligation.
  intros m a b k k'. simpl. destruct (valid a); [|done]. destruct (valid b); [|done]. intros E E'.
  rewrite E. simpl. by rewrite E'.
Qed.

Section objectmap.
Context `{HM : Malloc, HR : !MallocRoom}.
Implicit Types (m : mem) (K : Z -> Z) (M : gmap Z Z).

(** Only the keys of the elements matter. *)
Lemma hm_at_ext K K' map O M m : (forall k e, M !! k = Some e -> K' e = K e) -> hm_at K map O M m -> hm_at K' map O M m.
Proof.
  intros HK [?|(b & bks & [T1 T2 T3 T4 T5 T6 [P1 P2 P3 P4] T8] & Hl & -> & ->)]; [by left|]. right. exists b, bks.
  assert (HK' : forall e, e ∈ contents bks -> K' e = K e).
  { intros e He. apply (HK (K e)). by apply kmap_lookup. }
  assert (Ef : K' <$> contents bks = K <$> contents bks).
  { apply list_fmap_ext. intros i e He. apply HK'. by eapply list_elem_of_lookup_2. }
  split_and!; auto.
  - split; auto.
    + split; auto; [|by rewrite Ef]. intros i e He Hv. rewrite HK'; [by apply P3|]. apply contents_elem. split; [done|].
      by eapply list_elem_of_lookup_2.
    + intros e He. rewrite HK' by done. by apply T8.
  - unfold kmap. f_equal. apply list_fmap_ext. intros i e He. by rewrite HK' by (by eapply list_elem_of_lookup_2).
Qed.

(** Changes elsewhere leave the map alone. *)
Lemma hm_at_lookup K map O M m m' : (forall b, b ∈ O -> m' !! b = m !! b) ->
  (forall k e, M !! k = Some e -> m' !! e = m !! e) -> hm_at K map O M m -> hm_at K map O M m'.
Proof.
  intros HO HE [(S1 & S2 & S3 & S4 & -> & ->)|(b & bks & Ht & Hl & -> & ->)].
  - left. assert (E : m' !! map = m !! map) by (apply HO; set_solver).
    split_and!; auto; [by apply (is_struct_lookup m)|by rewrite (get_lookup_eq m)..].
  - right. exists b, bks. split_and!; auto. eapply table_lookup; [..|exact Ht]; [apply HO; set_solver..|].
    intros e He. apply (HE (K e)). apply kmap_lookup; [by eapply table_nodup|done].
Qed.

Lemma hm_at_elem K map O M m k e : hm_at K map O M m -> M !! k = Some e -> get m (e, OB_ADDRESS) = Some k /\ valid e = true /\ e ∉ O.
Proof.
  intros [(S1 & S2 & S3 & S4 & -> & ->)|(b & bks & Ht & Hl & -> & ->)] He; [done|].
  apply kmap_lookup in He as [He <-]; [|by eapply table_nodup]. destruct (ta_elems _ _ _ _ _ Ht e He) as (E & N1 & N2).
  simpl in E. destruct (valid e); [|done]. split_and!; auto. set_solver.
Qed.

(** The records of the objects by their addresses. *)
Definition om_at (map : Z) (O : gset Z) M m : Prop := exists K, hm_at K map O M m.

(** The frame of the thread, where the key of a search is written. *)
Definition om_frame (tid : Z) (O : gset Z) M m : Prop :=
  is_struct m (stack_t tid) sizeof_object_t /\ valid (stack_t tid) = true /\ (stack_t tid ∉ O) /\
  forall k e, M !! k = Some e -> e <> stack_t tid.

Lemma getobject_ok tid map O M m address : om_at map O M m -> om_frame tid O M m ->
  tot (objectmap_getobject tid map address) m (fun r m' => r = default NULL (M !! address) /\ om_at map O M m' /\
    om_frame tid O M m' /\ m' = upd m (stack_t tid, OB_ADDRESS) address).
Proof.
  intros [K Ha] (F1 & F2 & F3 & F4). unfold objectmap_getobject. apply tot_bind.
  eapply tot_store; [eapply is_struct_inb; [exact F1|unfold sizeof_object_t; lia]|]. set (s := stack_t tid) in *.
  set (m1 := upd m (s, OB_ADDRESS) address). set (K' x := if x =? s then address else K x).
  assert (Hl : live m s) by (by eapply is_struct_live).
  assert (Ha1 : hm_at K map O M m1).
  { eapply hm_at_lookup; [..|exact Ha].
    - intros b Hb. unfold m1. rewrite lookup_upd_ne; [done|]. simpl. intros ->. done.
    - intros k e He. unfold m1. rewrite lookup_upd_ne; [done|]. by apply (F4 k). }
  assert (Ha2 : hm_at K' map O M m1).
  { eapply hm_at_ext; [|exact Ha1]. intros k e He. unfold K'. by rewrite (proj2 (Z.eqb_neq e s)) by (by apply (F4 k)). }
  eapply tot_mono; [apply (get_ok K' map O M m1 s Ha2)|].
  - simpl. rewrite F2. unfold K'. rewrite Z.eqb_refl. unfold m1. by apply get_upd_eq.
  - intros r m' [-> ->]. unfold K' at 1. rewrite Z.eqb_refl. split_and!; auto; [by exists K|].
    split_and!; auto. unfold m1. by rewrite is_struct_upd.
Qed.

(** A new record. *)
Definition new_record m (obj address mark : Z) : Prop :=
  get m (obj, OB_ADDRESS) = Some address /\ get m (obj, OB_FINAL) = Some NULL /\ get m (obj, OB_RC) = Some 0 /\
  get m (obj, OB_REACHABLE) = Some 1 /\ get m (obj, OB_MARK) = Some (u32 (mark - 1)).

Lemma object_alloc_ok m address mark k : mroom (S k) m ->
  tot (object_alloc address mark) m (fun obj m' => new_record m' obj address mark /\ valid obj = true /\ m !! obj = None /\
    (forall b, b <> obj -> m' !! b = m !! b) /\ mroom k m').
Proof.
  intros Hk. unfold object_alloc, POOL_ALLOC, malloc. apply tot_bind, tot_bind. eapply tot_alloc; [exact Hk|done|].
  intros a (Ha & Hf & Hr & Hal) Hk'. rewrite (proj2 (Z.eqb_neq a 0) Ha). apply tot_ret.
  set (m1 := <[a := _]> m). assert (Hst : is_struct m1 a 32).
  { split; [done|]. eexists. unfold m1. rewrite lookup_insert_eq. done. }
  cbv beta. psteps. split_and!; auto.
  - unfold new_record. split_and!; mget.
  - unfold valid, DELETED. apply Z.ltb_lt. Z.to_euclidean_division_equations. lia.
  - intros b Hb. rewrite !lookup_upd_ne by done. unfold m1. by rewrite lookup_insert_ne.
  - by repeat apply mroom_upd.
Qed.

Lemma new_record_lookup m m' obj address mark : m' !! obj = m !! obj -> new_record m obj address mark -> new_record m' obj address mark.
Proof. intros E. unfold new_record. by rewrite !(get_lookup_eq m m'). Qed.

Lemma getorput_ok fuel tid map O M m address mark k : om_at map O M m -> om_frame tid O M m ->
  Z.of_nat (size M) < 2 ^ 24 -> mroom (3 + k) m ->
  tot (objectmap_getorput (2 + fuel) tid map address mark) m (fun obj m' => mroom k m' /\ obj <> NULL /\
    exists O', om_at map O' (<[address := obj]> M) m' /\ om_frame tid O' (<[address := obj]> M) m' /\
      (M !! address = Some obj \/ M !! address = None /\ m !! obj = None /\ new_record m' obj address mark)).
Proof.
  intros Ha Hfr Hs Hk. unfold objectmap_getorput. apply tot_bind.
  eapply tot_mono; [by apply (getobject_ok tid map O M m address)|]. intros r m1 (-> & Ha1 & Hfr1 & Em1).
  assert (Hk1 : mroom (3 + k) m1) by (rewrite Em1; by apply mroom_upd). destruct (M !! address) as [obj|] eqn:E; simpl default.
  - destruct Ha1 as [K Ha1]. destruct (hm_at_elem K map O M m1 address obj Ha1 E) as (_ & Hv & _).
    assert (obj <> 0) by (intros ->; done). rewrite (proj2 (Z.eqb_neq obj 0)) by done. simpl negb. cbv iota. apply tot_ret.
    split; [by eapply mroom_mono; [exact Hk1|lia]|]. split; [done|]. exists O. rewrite insert_id by done. split_and!; auto. by exists K.
  - rewrite Z.eqb_refl. simpl negb. cbv iota. apply tot_bind.
    eapply tot_mono; [apply (object_alloc_ok m1 address mark (2 + k)); exact Hk1|].
    intros obj m2 (R1 & Hv & Hfresh & Hoth & Hk2). destruct Ha1 as [K Ha1]. destruct Hfr1 as (F1 & F2 & F3 & F4).
    assert (Hlive : forall b, live m1 b -> b <> obj) by (intros b [o Hb] ->; congruence).
    assert (HOl : forall b, b ∈ O -> live m1 b).
    { intros b Hb. destruct Ha1 as [(S1 & _ & _ & _ & -> & _)|(b' & bks & Ht & _ & -> & _)].
      - apply elem_of_singleton in Hb as ->. by eapply is_struct_live.
      - apply elem_of_union in Hb as [->%elem_of_singleton| ->%elem_of_singleton]; eapply is_struct_live;
          [apply Ht|apply (ta_slots _ _ _ _ _ Ht)]. }
    assert (HEl : forall k e, M !! k = Some e -> live m1 e).
    { intros k' e He. destruct (hm_at_elem K map O M m1 k' e Ha1 He) as (Ge & _). by apply (live_get m1 (e, 0) k'). }
    assert (Hlf : live m1 (stack_t tid)) by (by eapply is_struct_live).
    set (K' x := if x =? obj then address else K x).
    assert (Ha2 : hm_at K' map O M m2).
    { apply (hm_at_ext K); [|eapply hm_at_lookup; [..|exact Ha1]; eauto].
      intros k' e He. unfold K'. by rewrite (proj2 (Z.eqb_neq e obj)) by (apply Hlive; eauto). }
    assert (EK : K' obj = address) by (unfold K'; by rewrite Z.eqb_refl).
    apply tot_bind. eapply tot_mono; [apply (put_ok K' fuel map O M m2 obj k Ha2 Hs); [| |exact Hk2]|].
    + simpl. rewrite Hv, EK. apply R1.
    + intros Hin. by apply (Hlive obj); auto.
    + rewrite EK. intros r m3 (-> & Hk3 & O' & Ha3 & Fr1 & Fr2). apply tot_ret. split; [done|].
      split; [intros ->; done|]. exists O'.
      assert (Hobj : m3 !! obj = m2 !! obj).
      { apply Fr1; [intros Hin; by apply (Hlive obj); auto|]. destruct R1 as (G1 & _). by apply (live_get m2 (obj, 0) address). }
      assert (Hstk : m3 !! stack_t tid = m2 !! stack_t tid).
      { apply Fr1; [done|]. unfold live. rewrite Hoth by (by apply Hlive). exact Hlf. }
      split_and!.
      * by exists K'.
      * split_and!; auto.
        -- eapply is_struct_lookup; [exact Hstk|]. eapply is_struct_lookup; [|exact F1]. apply Hoth. by apply Hlive.
        -- intros [Hin|Hin]%Fr2; [done|]. rewrite Hoth in Hin by (by apply Hlive). destruct Hlf; congruence.
        -- intros k' e [[<- <-]|[_ He]]%lookup_insert_Some; [|by apply (F4 k')]. intros ->. by apply (Hlive (stack_t tid)).
      * right. split; [done|]. split; [|by apply (new_record_lookup m2)].
        apply eq_None_not_Some. intros [o Ho]. rewrite Em1 in Hfresh. apply eq_None_not_Some in Hfresh. apply Hfresh.
        apply live_upd. by exists o.
Qed.

(** The records for a list of addresses, one after the other. *)
Fixpoint getorputs (fuel : nat) (tid map : Z) (mark : Z) (addrs : list Z) : prog mem (list Z) :=
  match addrs with
  | [] => Ret []
  | a :: addrs' =>
      obj <- objectmap_getorput fuel tid map a mark ;;
      objs <- getorputs fuel tid map mark addrs' ;;
      Ret (obj :: objs)
  end.

Lemma getorputs_ok fuel tid map mark addrs : forall O M m k, om_at map O M m -> om_frame tid O M m ->
  Z.of_nat (size M + length addrs) < 2 ^ 24 -> mroom (3 * length addrs + k) m ->
  tot (getorputs (2 + fuel) tid map mark addrs) m (fun objs m' => mroom k m' /\ length objs = length addrs /\
    exists O' M', om_at map O' M' m' /\ om_frame tid O' M' m' /\ M ⊆ M' /\
      forall i a, addrs !! i = Some a -> M' !! a = objs !! i).
Proof.
  induction addrs as [|a addrs IH]; intros O M m k Ha Hf Hs Hk; cbn [getorputs].
  - apply tot_ret. split_and!; auto. exists O, M. split_and!; auto. intros i a Hi. by rewrite lookup_nil in Hi.
  - simpl length in *. apply tot_bind. eapply tot_mono; [apply (getorput_ok fuel tid map O M m a mark (3 * length addrs + k)); auto|].
    + lia.
    + eapply mroom_mono; [exact Hk|lia].
    + intros obj m1 (Hk1 & _ & O1 & Ha1 & Hf1 & Hnew). apply tot_bind.
      assert (Hsub : M ⊆ <[a := obj]> M).
      { destruct Hnew as [E|[E _]]; [by rewrite insert_id by done|by apply insert_subseteq]. }
      eapply tot_mono; [apply (IH O1 (<[a := obj]> M) m1 k Ha1 Hf1); [|exact Hk1]|].
      * rewrite map_size_insert. case_match; unfold id; lia.
      * intros objs m2 (Hk2 & Hl & O2 & M2 & Ha2 & Hf2 & Hs2 & Hall). apply tot_ret. split_and!; [done|simpl; lia|].
        exists O2, M2. split_and!; auto; [by etrans|]. intros [|i] a' Hi; simpl in *; [|by apply Hall].
        injection Hi as <-. eapply lookup_weaken; [|exact Hs2]. apply lookup_insert_eq.
Qed.

(** C16: [objectmap_getorput] keeps one record per address: asked for a list of addresses,
    it returns the same record for the same address and distinct records for distinct
    ones, and each record holds its address. *)
Theorem objectmap_one_record fuel tid map O m mark addrs k : om_at map O ∅ m -> om_frame tid O ∅ m ->
  Z.of_nat (length addrs) < 2 ^ 24 -> mroom (3 * length addrs + k) m ->
  tot (getorputs (2 + fuel) tid map mark addrs) m (fun objs m' => length objs = length addrs /\
    (forall i a p, addrs !! i = Some a -> objs !! i = Some p -> get m' (p, OB_ADDRESS) = Some a) /\
    forall i j a b p q, addrs !! i = Some a -> addrs !! j = Some b -> objs !! i = Some p -> objs !! j = Some q ->
      (p = q <-> a = b)).
Proof.
  intros Ha Hf Hs Hk. eapply tot_mono; [by apply (getorputs_ok fuel tid map mark addrs O ∅ m k)|].
  intros objs m' (_ & Hl & O' & M' & [K Ha'] & _ & _ & Hall).
  assert (Hadr : forall i a p, addrs !! i = Some a -> objs !! i = Some p -> get m' (p, OB_ADDRESS) = Some a).
  { intros i a p Hi Hp. rewrite <- (Hall i a Hi) in Hp. by apply (hm_at_elem K map O' M' m' a p). }
  split_and!; auto. intros i j a b p q Hi Hj Hp Hq. split.
  - intros ->. pose proof (Hadr i a q Hi Hp). pose proof (Hadr j b q Hj Hq). congruence.
  - intros ->. pose proof (Hall i b Hi). pose proof (Hall j b Hj). congruence.
Qed.
End objectmap.

(** ** Witnesses *)
Module om_demo.
Abbreviation MAP := 1048576 (only parsing).
Abbreviation E1 := 1048640 (only parsing).
Abbreviation E2 := 1048704 (only parsing).
Abbreviation E3 := 1048768 (only parsing).
Definition record (address : Z) : obj := Obj sizeof_object_t {[OB_ADDRESS := address]}.
Definition memory : mem :=
  {[ MAP := Obj sizeof_hashmap_t (zero_fields [HM_COUNT; HM_SIZE; HM_BUCKETS]);
     stack_t 0 := record 0; E1 := record 100; E2 := record 200; E3 := record 100 ]}.
Definition key (e : Z) : Z := default 0 (get memory (e, OB_ADDRESS)).
Definition client : list hm_op := [HPut E1; HPut E2; HPut E3; HGet E1; HRemove E2; HSize; HGet E2].

Lemma hashmap_refines_map_witness :
  tot (hashmap_init MAP 0 ;; hm_calls 2 MAP client) memory (fun rs m' => rs = [0; 0; E1; E3; E2; 1; 0] /\ bump_room 5 m' /\
    exists O', hm_at key MAP O' {[100 := E3]} m' /\ frame {[MAP]} memory m' O').
Proof.
  assert (E : {[100 := E3]} = (hm_run key ∅ client).1) by (by vm_compute). rewrite E.
  apply (hashmap_refines_map (HR := bump_room_laws) key 0 MAP 0 client memory 5).
  - split; [done|]. eexists. split; by vm_compute.
  - lia.
  - by vm_compute.
  - intros op e Hop He. repeat (apply elem_of_cons in Hop as [->|Hop]; [injection He as <- || discriminate He;
      (split; [by vm_compute|apply (bool_decide_eq_true_1 _); by vm_compute])|]). by apply not_elem_of_nil in Hop.
  - by vm_compute.
Defined.

Lemma empty_map : hm_at key MAP {[MAP]} ∅ memory.
Proof. left. split_and!; [|by vm_compute..]. split; [done|]. eexists. split; by vm_compute. Qed.

Definition puts : list hm_op := [HPut E1; HPut E2].

Lemma puts_owned : hm_owned key {[MAP]} memory puts.
Proof.
  intros op e Hop He. repeat (apply elem_of_cons in Hop as [->|Hop]; [injection He as <-;
    (split; [by vm_compute|apply (bool_decide_eq_true_1 _); by vm_compute])|]). by apply not_elem_of_nil in Hop.
Qed.

Lemma hashmap_iterates_witness :
  exists rs m, run (hm_calls 2 MAP puts) memory = Ok (rs, m) /\ get m (MAP, HM_SIZE) = Some 8 /\
  tot (hm_elements 9 9 MAP HASHMAP_BEGIN) m (fun l m' => m' = m /\ NoDup (key <$> l) /\
    forall e, e ∈ l <-> exists k, (hm_run key ∅ puts).1 !! k = Some e).
Proof.
  destruct (tot_run _ _ _ (hm_calls_ok (HR := bump_room_laws) key 0 MAP puts {[MAP]} ∅ memory 5 empty_map
    ltac:(by vm_compute) puts_owned ltac:(by vm_compute))) as (rs & m & Hrun & _ & _ & O & Ha & _).
  assert (Hs : match run (hm_calls 2 MAP puts) memory with Ok (_, m) => get m (MAP, HM_SIZE) | _ => None end = Some 8) by (by vm_compute).
  change (2 + 0)%nat with 2%nat in Hrun. rewrite Hrun in Hs. exists rs, m. split; [exact Hrun|]. split; [exact Hs|].
  apply (hashmap_iterates key 9 MAP O _ m 8 Ha Hs). by vm_compute.
Defined.

Lemma objectmap_one_record_witness :
  tot (getorputs 2 0 MAP 0 [7; 9; 7]) memory (fun objs _ => length objs = 3%nat /\ objs !! 0%nat = objs !! 2%nat).
Proof.
  eapply tot_mono; [apply (objectmap_one_record (HR := bump_room_laws) 0 0 MAP {[MAP]} memory 0 [7; 9; 7] 5)|].
  - exists key. exact empty_map.
  - split_and!; [|by vm_compute|apply (bool_decide_eq_true_1 _); by vm_compute|done].
    split; [done|]. eexists. split; by vm_compute.
  - by vm_compute.
  - by vm_compute.
  - intros objs m (Hl & _ & H). split; [exact Hl|]. destruct objs as [|p [|q [|r objs]]]; [done..|].
    simpl. f_equal. by apply (H 0%nat 2%nat 7 7 p r).
Defined.
End om_demo.
