(* ===== verification/MessageQ.v ===== *)
(** * The message queues of actors (actor/messageq.c)

    Any number of threads push messages, the actor itself pops them.  The lowest
    bit of [head] marks a queue whose actor is not scheduled: [messageq_push]
    returns whether it found the mark, and its caller then schedules the actor. *)
From S2P Require Export Fun GcStack LockSerial.

(** [struct pony_msg_t], [struct messageq_t] *)
Abbreviation MSG_SIZE := 0 (only parsing).
Abbreviation MSG_ID := 4 (only parsing).
Abbreviation MSG_NEXT := 8 (only parsing).
Definition sizeof_pony_msg_t : Z := 16.
Abbreviation MQ_HEAD := 0 (only parsing).
Abbreviation MQ_TAIL := 8 (only parsing).
Definition sizeof_messageq_t : Z := 16.

Module messageq.
Section code.
Context `{!Malloc}.

Definition pool_free (index p : Z) : prog mem unit := POOL_FREE p.

Definition messageq_size_debug (fuel : nat) (q : Z) : prog mem Z :=
  tail <- load (q, MQ_TAIL) ;;
  loop fuel (fun '(tail, count) =>
    next <- load (tail, MSG_NEXT) ;;
    if next =? NULL then break count
    else
      next <- load (tail, MSG_NEXT) ;;
      continue (next, u64 (count + 1))) (tail, 0).

Definition messageq_init (fuel : nat) (q : Z) : prog mem unit :=
  stub <- POOL_ALLOC sizeof_pony_msg_t ;;
  store (stub, MSG_SIZE) (pool.pool_index sizeof_pony_msg_t) ;;
  store (stub, MSG_NEXT) NULL ;;
  store (q, MQ_HEAD) (Z.lor stub 1) ;;
  store (q, MQ_TAIL) stub ;;
  _ <- messageq_size_debug fuel q ;;
  Ret tt.

Definition messageq_destroy (q : Z) : prog mem unit :=
  tail <- load (q, MQ_TAIL) ;;
  head <- load (q, MQ_HEAD) ;;
  assert_ (Z.land head (-2) =? tail) ;;
  size <- load (tail, MSG_SIZE) ;;
  pool_free size tail ;;
  store (q, MQ_HEAD) NULL ;;
  store (q, MQ_TAIL) NULL.

Definition messageq_push (q m : Z) : prog mem bool :=
  store (m, MSG_NEXT) NULL ;;
  prev <- rmw (q, MQ_HEAD) (fun _ => m) ;;
  let was_empty := negb (Z.land prev 1 =? 0) in
  let prev := Z.land prev (-2) in
  store (prev, MSG_NEXT) m ;;
  Ret was_empty.

Definition messageq_pop (q : Z) : prog mem Z :=
  tail <- load (q, MQ_TAIL) ;;
  next <- load (tail, MSG_NEXT) ;;
  (if negb (next =? NULL) then
     store (q, MQ_TAIL) next ;;
     size <- load (tail, MSG_SIZE) ;;
     pool_free size tail
   else Ret tt) ;;
  Ret next.

Definition messageq_markempty (q : Z) : prog mem bool :=
  tail <- load (q, MQ_TAIL) ;;
  head <- load (q, MQ_HEAD) ;;
  if negb (Z.land head 1 =? 0) then Ret true
  else if negb (head =? tail) then Ret false
  else
    let head := Z.lor head 1 in
    CAS (q, MQ_HEAD) tail head.
End code.
End messageq.
Import messageq.

(** ** The abstract queue

    A message enters the queue when [messageq_push] exchanges [head]; it can be
    popped when its link is there too. *)
Inductive mq_ev : Set := EPush (p : Z) | ELinked (p : Z) | EPop | EMark.

(** The messages, each with whether it is linked, and the mark. *)
Abbreviation mq_state := (list (Z * bool) * bool)%type.

Definition mq_step (ev : mq_ev) (s : mq_state) : Z * mq_state :=
  let '(ms, empty) := s in
  match ev with
  | EPush p => (b2z empty, (ms ++ [(p, false)], false))
  | ELinked p => (0, ((fun e => (e.1, e.2 || (e.1 =? p))) <$> ms, empty))
  | EPop => match ms with (p, true) :: ms' => (p, (ms', empty)) | _ => (NULL, s) end
  | EMark => if empty then (1, s) else match ms with [] => (1, ([], true)) | _ => (0, s) end
  end.

(** ** The threads: thread 0 is the actor, the others send *)
Inductive mq_op : Set := MPop | MMark.

Definition mq_recv `{Malloc} (q : Z) (o : mq_op) : prog mem Z :=
  match o with
  | MPop => messageq_pop q
  | MMark => b <- messageq_markempty q ;; Ret (b2z b)
  end.

Definition mq_send `{Malloc} (q p : Z) : prog mem Z := b <- messageq_push q p ;; Ret (b2z b).

Definition mq_threads `{Malloc} (q : Z) (recv : list mq_op) (sends : list (list Z)) : list (prog mem (list Z)) :=
  op_client (mq_recv q) recv :: ((fun ps => op_client (mq_send q) ps) <$> sends).
