(* ===== verification/MessageConc.v ===== *)
(** * The message queue under every interleaving (actor/messageq.c) *)
From S2P Require Export MessageQ.
Import messageq.

(** What a message, in the queue or about to be sent, has in memory. *)
Definition msg (m : mem) (p : Z) : Prop :=
  is_struct m p sizeof_pony_msg_t /\ p mod 2 = 0 /\ exists s, get m (p, MSG_SIZE) = Some s.

(** The ghost state: the messages from [tail] to [head] (the first is the stub), who
    is about to link which, the mark of [head], the messages that threads own and
    the history. *)
Record mghost : Type := MG {
  mg_chain : list Z; mg_gap : gmap Z nat; mg_mark : bool;
  mg_own : nat -> list Z; mg_log : list (nat * (mq_ev * Z)) }.
Abbreviation mstate := (mem * mghost)%type.

Definition linked (g : mghost) (p : Z) : bool := bool_decide (mg_gap g !! p = None).
Definition ms_of (g : mghost) : list (Z * bool) := (fun p => (p, linked g p)) <$> tail (mg_chain g).

Definition set_own (f : nat -> list Z) (i : nat) (l : list Z) : nat -> list Z := fun j => if decide (j = i) then l else f j.

(** Only messages are sent. *)
Definition sent_ok (e : nat * (mq_ev * Z)) : Prop := match e.2.1 with EPush p => p <> NULL | _ => True end.

Section conc.
Variable q : Z.

Record MInv (x : mstate) : Prop := {
  mi_legal : legal mq_step (mg_log x.2) ([], true);
  mi_after : after mq_step (mg_log x.2) ([], true) = (ms_of x.2, mg_mark x.2);
  mi_q : is_struct x.1 q sizeof_messageq_t;
  mi_nodes : forall p, p ∈ mg_chain x.2 -> msg x.1 p /\ p <> q;
  mi_nodup : NoDup (mg_chain x.2);
  mi_ne : mg_chain x.2 <> [];
  mi_head : get x.1 (q, MQ_HEAD) = Some (List.last (mg_chain x.2) 0 + b2z (mg_mark x.2));
  mi_tail : get x.1 (q, MQ_TAIL) = Some (List.hd 0 (mg_chain x.2));
  mi_mark : mg_mark x.2 = true -> tail (mg_chain x.2) = [];
  mi_link : forall l1 a b l2, mg_chain x.2 = l1 ++ a :: b :: l2 ->
    get x.1 (a, MSG_NEXT) = Some (if linked x.2 b then b else NULL);
  mi_last : get x.1 (List.last (mg_chain x.2) 0, MSG_NEXT) = Some NULL;
  mi_gap : forall p i, mg_gap x.2 !! p = Some i -> p ∈ tail (mg_chain x.2);
  mi_own : forall i p, p ∈ mg_own x.2 i -> msg x.1 p /\ p <> q /\ p ∉ mg_chain x.2;
  mi_disj : forall i j p, p ∈ mg_own x.2 i -> p ∈ mg_own x.2 j -> i = j;
  mi_ownnd : forall i, NoDup (mg_own x.2 i);
  mi_sent : Forall sent_ok (mg_log x.2)
}.

(** What thread [i] may rely on; only thread 0 takes messages out. *)
Record sees (i : nat) (x y : mstate) : Prop := {
  se_inv : MInv x -> MInv y;
  se_mine : mine i (mg_log y.2) = mine i (mg_log x.2);
  se_own : mg_own y.2 i = mg_own x.2 i;
  se_blk : forall p, p ∈ mg_own x.2 i -> y.1 !! p = x.1 !! p;
  se_gap : MInv x -> forall p a l1 l2, mg_gap x.2 !! p = Some i -> mg_chain x.2 = l1 ++ a :: p :: l2 ->
    mg_gap y.2 !! p = Some i /\ exists l1' l2', mg_chain y.2 = l1' ++ a :: p :: l2';
  se_cons : i = O -> (exists l, mg_chain y.2 = mg_chain x.2 ++ l) /\
    (forall p, p ∈ mg_chain x.2 -> mg_gap x.2 !! p = None -> mg_gap y.2 !! p = None) /\
    (mg_mark x.2 = false -> mg_mark y.2 = false)
}.

Definition guar (i : nat) (x y : mstate) : Prop := forall j, j <> i -> sees j x y.

#[export] Instance sees_preorder i : PreOrder (sees i).
Proof.
  split.
  - intros x. split; auto; [eauto|]. intros _. split_and!; [exists []; by rewrite app_nil_r|auto..].
  - intros x y z [A1 A2 A3 A4 A5 A6] [B1 B2 B3 B4 B5 B6]. split; auto; try congruence.
    + intros p Hp. rewrite B4 by congruence. auto.
    + intros HI p a l1 l2 Hg Hc. destruct (A5 HI p a l1 l2 Hg Hc) as (G1 & l1' & l2' & C1). eauto.
    + intros Hi. destruct (A6 Hi) as ([l1 E1] & H1 & M1), (B6 Hi) as ([l2 E2] & H2 & M2). split_and!; [| |auto].
      * exists (l1 ++ l2). by rewrite E2, E1, app_assoc.
      * intros p Hp Hn. apply H2; [rewrite E1; apply elem_of_app; by left|auto].
Qed.

(** A thread between operations: its history and the messages it owns. *)
Definition rest (i : nat) (es : list (mq_ev * Z)) (own : list Z) (x : mstate) : Prop :=
  MInv x /\ mine i (mg_log x.2) = es /\ mg_own x.2 i = own.

Lemma rest_stable i es own x y : rest i es own x -> sees i x y -> rest i es own y.
Proof. intros (H1 & H2 & H3) [S1 S2 S3 _ _ _]. split_and!; [auto|congruence..]. Qed.

Lemma msg_lookup m m' p : m' !! p = m !! p -> msg m p -> msg m' p.
Proof.
  intros E (H1 & H2 & s & H3). split_and!; [by apply (is_struct_lookup m)|done|]. exists s. by rewrite (get_lookup_eq m).
Qed.

Lemma msg_upd_next m p b v : msg m p -> msg (upd m (b, MSG_NEXT) v) p.
Proof.
  intros (H1 & H2 & s & H3). split_and!; [by rewrite is_struct_upd|done|]. exists s. rewrite get_upd_ne; [done|].
  intros E. injection E. lia.
Qed.

Lemma hd_in (l : list Z) : l <> [] -> List.hd 0 l ∈ l.
Proof. destruct l; [done|]. intros _. left. Qed.

Lemma in_last (l : list Z) : l <> [] -> List.last l 0 ∈ l.
Proof.
  induction l as [|a [|b l] IH]; [done|intros _; left|]. intros _. right. by apply IH.
Qed.

Lemma tail_app (l l' : list Z) : l <> [] -> tail (l ++ l') = tail l ++ l'.
Proof. by destruct l. Qed.

Lemma tail_in (l : list Z) p : p ∈ tail l -> p ∈ l.
Proof. destruct l; [done|]. by right. Qed.

(** A write to a field [next] of a message outside the queue. *)
Lemma own_next_ok i p ps es x : rest i es (p :: ps) x ->
  let y := (upd x.1 (p, MSG_NEXT) NULL, x.2) in
  guar i x y /\ rest i es (p :: ps) y /\ get y.1 (p, MSG_NEXT) = Some NULL.
Proof.
  intros (HI & Hes & Hown). destruct x as [m g]. simpl in *.
  assert (Hp : p ∈ mg_own g i) by (rewrite Hown; left). destruct (mi_own _ HI i p Hp) as ((M1 & M2 & M3) & Hpq & Hpc). simpl in *.
  assert (HI' : MInv (upd m (p, MSG_NEXT) NULL, g)).
  { destruct HI as [I1 I2 I3 I4 I5 I6 I7 I8 I9 I10 I11 I12 I13 I14 I15 I16]. simpl in *. split; simpl; auto.
    - by rewrite is_struct_upd.
    - intros p' Hp'. destruct (I4 p' Hp') as [A B]. split; [|done]. by apply msg_upd_next.
    - rewrite get_upd_ne; [done|]. intros E; injection E; congruence.
    - rewrite get_upd_ne; [done|]. intros E; injection E; congruence.
    - intros l1 a b l2 E. rewrite get_upd_ne; [by eapply I10|]. intros [= E']. apply Hpc. rewrite E, E'. apply elem_of_app. right. left.
    - rewrite get_upd_ne; [done|]. intros [= E']. apply Hpc. rewrite E'. by apply in_last.
    - intros j p' Hp'. destruct (I13 j p' Hp') as (A & B & C). split_and!; auto. by apply msg_upd_next. }
  split_and!; [|by split_and!|apply get_upd_eq; simpl; by eapply is_struct_live].
  intros j Hj. split; simpl; auto.
  - intros p' Hp'. apply lookup_upd_ne. simpl. intros ->. apply Hj. by eapply (mi_disj _ HI).
  - eauto.
  - intros _. split_and!; [exists []; by rewrite app_nil_r|auto..].
Qed.

Lemma ms_of_push g p i log own : p ∉ mg_chain g -> mg_chain g <> [] ->
  ms_of (MG (mg_chain g ++ [p]) (<[p := i]> (mg_gap g)) false own log) = ms_of g ++ [(p, false)].
Proof.
  intros Hp Hne. unfold ms_of, linked. simpl. rewrite tail_app, fmap_app by done. simpl. f_equal.
  - apply list_fmap_ext. intros k p' Hk. f_equal. rewrite lookup_insert_ne; [done|]. intros ->.
    apply Hp, tail_in. by eapply list_elem_of_lookup_2.
  - by rewrite lookup_insert_eq.
Qed.

Lemma last_split (l1 : list Z) a b l2 l p : l ++ [p] = l1 ++ a :: b :: l2 -> l <> [] ->
  (exists l2', l = l1 ++ a :: b :: l2') \/ (l2 = [] /\ b = p /\ a = List.last l 0).
Proof.
  intros E Hl. destruct l2 as [|c l2] using rev_ind.
  - right. change (l1 ++ [a; b]) with (l1 ++ [a] ++ [b]) in E. rewrite app_assoc in E. apply app_inj_tail in E as [-> ->].
    by rewrite last_last.
  - left. exists l2. clear IHl2. replace (l1 ++ a :: b :: l2 ++ [c]) with ((l1 ++ a :: b :: l2) ++ [c]) in E by (by rewrite <- app_assoc).
    by apply app_inj_tail in E as [-> _].
Qed.

(** The exchange of [head]: the message enters the queue. *)
Lemma xchg_ok i p ps es x : rest i es (p :: ps) x -> get x.1 (p, MSG_NEXT) = Some NULL ->
  let g := x.2 in let was := b2z (mg_mark g) in
  let y := (upd x.1 (q, MQ_HEAD) p,
    MG (mg_chain g ++ [p]) (<[p := i]> (mg_gap g)) false (set_own (mg_own g) i ps) (mg_log g ++ [(i, (EPush p, was))])) in
  guar i x y /\ rest i (es ++ [(EPush p, was)]) ps y /\ mg_gap y.2 !! p = Some i /\
  exists l1, mg_chain y.2 = l1 ++ List.last (mg_chain g) 0 :: p :: [].
Proof.
  intros (HI & Hes & Hown) Hnext. destruct x as [m g]. simpl in *.
  assert (Hp : p ∈ mg_own g i) by (rewrite Hown; left). destruct (mi_own _ HI i p Hp) as (Mp & Hpq & Hpc). simpl in *.
  pose proof HI as [I1 I2 I3 I4 I5 I6 I7 I8 I9 I10 I11 I12 I13 I14 I15 I16]. simpl in *.
  assert (Hgp : mg_gap g !! p = None).
  { destruct (mg_gap g !! p) eqn:E; [|done]. exfalso. by eapply Hpc, tail_in, I12. }
  assert (Hsub : forall j p', p' ∈ set_own (mg_own g) i ps j -> p' ∈ mg_own g j).
  { intros j p'. unfold set_own. destruct (decide (j = i)) as [->|]; [|done]. rewrite Hown. by right. }
  assert (Hnp : forall j, p ∉ set_own (mg_own g) i ps j).
  { intros j Hj. pose proof (Hsub j p Hj) as Hj'. assert (j = i) as -> by (by eapply I14). unfold set_own in Hj.
    rewrite decide_True in Hj by done. specialize (I15 i). rewrite Hown in I15. by apply NoDup_cons in I15 as [? _]. }
  set (g' := MG _ _ _ _ _). assert (HI' : MInv (upd m (q, MQ_HEAD) p, g')).
  { split; simpl.
    - apply legal_snoc; [done|]. by rewrite I2.
    - rewrite after_snoc, I2. simpl. unfold g'. by rewrite ms_of_push.
    - by rewrite is_struct_upd.
    - assert (Hup : forall p', p' <> q -> msg m p' -> msg (upd m (q, MQ_HEAD) p) p').
      { intros p' Hq. apply msg_lookup. by apply lookup_upd_ne. }
      intros p' [Hp'|Hp'%list_elem_of_singleton]%elem_of_app; [destruct (I4 p' Hp')|subst p']; auto.
    - apply NoDup_app. split_and!; auto; [|apply NoDup_singleton]. intros p' Hp' E%list_elem_of_singleton. by subst.
    - by destruct (mg_chain g).
    - rewrite last_last. simpl. rewrite Z.add_0_r. apply get_upd_eq. simpl. by eapply is_struct_live.
    - rewrite get_upd_ne by congruence. rewrite I8. f_equal. by destruct (mg_chain g).
    - done.
    - intros l1 a b l2 E. apply last_split in E as [[l2' E]|(-> & -> & ->)]; [| |done].
      + assert (Ha : a <> q) by (apply I4; rewrite E; apply elem_of_app; right; left).
        assert (b <> p) by (intros ->; apply Hpc; rewrite E; apply elem_of_app; right; right; left).
        rewrite get_upd_ne by congruence. rewrite (I10 l1 a b l2' E). unfold linked, g'. simpl. by rewrite lookup_insert_ne.
      + assert (List.last (mg_chain g) 0 <> q) by (apply I4; by apply in_last). rewrite get_upd_ne by congruence.
        rewrite I11. unfold linked, g'. simpl. by rewrite lookup_insert_eq.
    - rewrite last_last. rewrite get_upd_ne by congruence. done.
    - intros p' j [[<- <-]|[_ H]]%lookup_insert_Some; rewrite tail_app by done; apply elem_of_app; [right; left|left; eauto].
    - intros j p' Hp'. destruct (I13 j p' (Hsub j p' Hp')) as (A & B & C). split_and!; auto.
      + eapply msg_lookup; [|exact A]. by apply lookup_upd_ne.
      + rewrite not_elem_of_app, list_elem_of_singleton. split; [done|]. intros ->. by apply (Hnp j).
    - intros j k p' H1 H2. by eapply I14; apply Hsub.
    - intros j. unfold set_own. destruct (decide (j = i)) as [->|]; [|done]. specialize (I15 i). rewrite Hown in I15.
      by apply NoDup_cons in I15 as [_ ?].
    - apply Forall_app. split; [done|]. apply Forall_singleton. exact (proj1 (proj1 Mp)). }
  split_and!.
  - intros j Hj. split; simpl; auto.
    + rewrite mine_snoc, decide_False by congruence. by rewrite app_nil_r.
    + unfold set_own. by rewrite decide_False by done.
    + intros p' Hp'. apply lookup_upd_ne. simpl. by apply (I13 j).
    + intros _ p' a l1 l2 Hg Hc. split; [rewrite lookup_insert_ne; [done|congruence]|]. exists l1, (l2 ++ [p]). rewrite Hc. by rewrite <- app_assoc.
    + intros _. split_and!; [by eexists| |done]. intros p' Hp' Hn. rewrite lookup_insert_ne; [done|]. intros ->. done.
  - split_and!; [done| |]; simpl.
    + by rewrite mine_snoc, decide_True, Hes by done.
    + unfold set_own. by rewrite decide_True.
  - simpl. apply lookup_insert_eq.
  - simpl. exists (removelast (mg_chain g)). rewrite (app_assoc _ [_] [p] : _ ++ _ :: [p] = _).
    by rewrite <- (app_removelast_last 0 I6).
Qed.

(** Neighbours in a list without duplicates. *)
Lemma nodup_next (l1 l2 l1' l2' : list Z) a b a' b' l : NoDup l -> l = l1 ++ a :: b :: l2 -> l = l1' ++ a' :: b' :: l2' ->
  (a = a' <-> b = b').
Proof.
  assert (Hat : forall (l1 l2 : list Z) a b, (l1 ++ a :: b :: l2) !! length l1 = Some a /\ (l1 ++ a :: b :: l2) !! S (length l1) = Some b).
  { intros. split; [by rewrite list_lookup_middle|]. by rewrite lookup_app_r, Nat.sub_succ_l, Nat.sub_diag by lia. }
  intros Hn E E'. destruct (Hat l1 l2 a b) as [A B], (Hat l1' l2' a' b') as [A' B']. rewrite <- E in A, B. rewrite <- E' in A', B'.
  split; intros ->.
  - rewrite (NoDup_lookup l _ _ _ Hn A A') in B. congruence.
  - injection (NoDup_lookup l _ _ _ Hn B B') as El. rewrite El in A. congruence.
Qed.

Lemma last_app_cons (l1 l2 : list Z) a : List.last (l1 ++ a :: l2) 0 = List.last (a :: l2) 0.
Proof. induction l1 as [|x l1 IH]; [done|]. rewrite <- IH. simpl. by destruct (l1 ++ a :: l2) eqn:E; [destruct l1|]. Qed.

Lemma last_ne (l1 l2 l : list Z) a b : NoDup l -> l = l1 ++ a :: b :: l2 -> a <> List.last l 0.
Proof.
  intros Hn -> E. rewrite last_app_cons in E.
  apply NoDup_app in Hn as (_ & _ & Hn). apply NoDup_cons in Hn as [Hn _]. apply Hn. rewrite E. simpl.
  by apply (in_last (b :: l2)).
Qed.

Lemma ms_of_link g p own log : ms_of (MG (mg_chain g) (delete p (mg_gap g)) (mg_mark g) own log) =
  (fun e => (e.1, e.2 || (e.1 =? p))) <$> ms_of g.
Proof.
  unfold ms_of. rewrite <- list_fmap_compose. simpl. apply list_fmap_ext. intros k p' _. simpl. f_equal. unfold linked. simpl.
  destruct (Z.eqb_spec p' p) as [->|Hne].
  - rewrite orb_true_r, lookup_delete_eq. by apply bool_decide_eq_true.
  - by rewrite orb_false_r, lookup_delete_ne.
Qed.

(** The store that links the message: it can be popped now. *)
Lemma link_ok i p a l1 l2 es own x : rest i es own x -> mg_gap x.2 !! p = Some i -> mg_chain x.2 = l1 ++ a :: p :: l2 ->
  let g := x.2 in
  let y := (upd x.1 (a, MSG_NEXT) p,
    MG (mg_chain g) (delete p (mg_gap g)) (mg_mark g) (mg_own g) (mg_log g ++ [(i, (ELinked p, 0))])) in
  guar i x y /\ rest i (es ++ [(ELinked p, 0)]) own y.
Proof.
  intros (HI & Hes & Hown) Hgap Hch. destruct x as [m g]. simpl in *.
  pose proof HI as [I1 I2 I3 I4 I5 I6 I7 I8 I9 I10 I11 I12 I13 I14 I15 I16]. simpl in *.
  assert (Ha : a ∈ mg_chain g) by (rewrite Hch; apply elem_of_app; right; left). destruct (I4 a Ha) as [(Ma & _) Haq].
  set (g' := MG _ _ _ _ _). assert (HI' : MInv (upd m (a, MSG_NEXT) p, g')).
  { split; simpl; auto.
    - apply legal_snoc; [done|]. by rewrite I2.
    - rewrite after_snoc, I2. simpl. unfold g'. by rewrite ms_of_link.
    - by rewrite is_struct_upd.
    - intros p' Hp'. destruct (I4 p' Hp') as [A B]. split; [|done]. by apply msg_upd_next.
    - rewrite get_upd_ne by congruence. done.
    - rewrite get_upd_ne by congruence. done.
    - intros l1' a' b' l2' E. pose proof (nodup_next _ _ _ _ _ _ _ _ _ I5 Hch E) as Hnn.
      unfold linked, g'. simpl. destruct (decide (p = b')) as [Hb|Hb].
      + assert (a = a') as <- by tauto. subst b'. rewrite lookup_delete_eq, bool_decide_eq_true_2 by done. apply get_upd_eq.
        simpl. by eapply is_struct_live.
      + rewrite get_upd_ne by (intros [= E']; subst; tauto). rewrite lookup_delete_ne by done. by eapply I10.
    - rewrite get_upd_ne; [done|]. intros [= E']. by eapply (last_ne l1 l2 (mg_chain g) a p).
    - intros p' j [_ H]%lookup_delete_Some. eauto.
    - intros j p' Hp'. destruct (I13 j p' Hp') as (A & B & C). split_and!; auto. by apply msg_upd_next.
    - apply Forall_app. split; [done|]. by apply Forall_singleton. }
  split.
  - intros j Hj. split; simpl; auto.
    + rewrite mine_snoc, decide_False by congruence. by rewrite app_nil_r.
    + intros p' Hp'. apply lookup_upd_ne. simpl. intros ->. by apply (I13 j) in Hp' as (_ & _ & Hc).
    + intros _ p' a' l1' l2' Hg Hc. split; [rewrite lookup_delete_ne; [done|congruence]|eauto].
    + intros _. split_and!; [exists []; by rewrite app_nil_r| |done]. intros p' _ Hn. by apply lookup_delete_None; right.
  - split_and!; [done| |done]. simpl. by rewrite mine_snoc, decide_True, Hes by done.
Qed.

(** An event that leaves the queue as it is. *)
Lemma log_ok i ev r es own x : rest i es own x ->
  mq_step ev (ms_of x.2, mg_mark x.2) = (r, (ms_of x.2, mg_mark x.2)) ->
  let g := x.2 in
  let y := (x.1, MG (mg_chain g) (mg_gap g) (mg_mark g) (mg_own g) (mg_log g ++ [(i, (ev, r))])) in
  guar i x y /\ rest i (es ++ [(ev, r)]) own y.
Proof.
  intros (HI & Hes & Hown) Hst. destruct x as [m g]. cbn [fst snd] in *.
  pose proof HI as [I1 I2 I3 I4 I5 I6 I7 I8 I9 I10 I11 I12 I13 I14 I15 I16]. cbn [fst snd] in *.
  assert (Hev : sent_ok (i, (ev, r))).
  { destruct ev as [p| | |]; try done. injection Hst as _ Hst _. apply (f_equal length) in Hst. rewrite length_app in Hst. simpl in Hst. lia. }
  assert (HI' : MInv (m, MG (mg_chain g) (mg_gap g) (mg_mark g) (mg_own g) (mg_log g ++ [(i, (ev, r))]))).
  { split; cbn [fst snd mg_chain mg_gap mg_mark mg_own mg_log]; auto; [apply legal_snoc; [done|]|rewrite after_snoc|].
    - rewrite I2. exact (eq_sym (f_equal fst Hst)).
    - rewrite I2. exact (f_equal snd Hst).
    - apply Forall_app. split; [done|]. by apply Forall_singleton. }
  split.
  - intros j Hj. split; simpl; auto.
    + rewrite mine_snoc, decide_False by congruence. by rewrite app_nil_r.
    + eauto.
    + intros _. split_and!; [exists []; by rewrite app_nil_r|auto..].
  - split_and!; simpl; [exact HI'|by rewrite mine_snoc, decide_True, Hes by done|done].
Qed.

(** *** The actor's steps *)

Lemma chain_cons (l : list Z) t : l <> [] -> List.hd 0 l = t -> exists l', l = t :: l'.
Proof. destruct l as [|a l]; [done|]. simpl. intros _ ->. by exists l. Qed.

(** What the actor finds behind the stub. *)
Lemma mq_next_ok m g t : MInv (m, g) -> List.hd 0 (mg_chain g) = t ->
  exists v, get m (t, MSG_NEXT) = Some v /\
    ((v = NULL /\ mq_step EPop (ms_of g, mg_mark g) = (NULL, (ms_of g, mg_mark g))) \/
     (v <> NULL /\ mg_gap g !! v = None /\ exists l, mg_chain g = t :: v :: l)).
Proof.
  intros HI Ht. destruct (chain_cons _ _ (mi_ne _ HI) Ht) as [[|b l] Hc]; simpl in Hc.
  - exists NULL. pose proof (mi_last _ HI) as HL. simpl in HL. rewrite Hc in HL. split; [done|]. left. split; [done|].
    unfold ms_of. by rewrite Hc.
  - pose proof (mi_link _ HI [] t b l Hc) as HL. simpl in HL. eexists. split; [exact HL|]. unfold linked. case_bool_decide as Hb.
    + right. split_and!; [|done|by exists l]. assert (Hin : b ∈ mg_chain g) by (rewrite Hc; right; left).
      destruct (mi_nodes _ HI b Hin) as [(Hs & _) _]. exact (proj1 Hs).
    + left. split; [done|]. unfold ms_of. rewrite Hc. simpl. unfold linked. by rewrite bool_decide_eq_false_2.
Qed.

(** [tail] moves: the message behind the stub is popped and becomes the stub. *)
Lemma pop_ok t v l es x : rest O es [] x -> mg_chain x.2 = t :: v :: l -> mg_gap x.2 !! v = None ->
  let g := x.2 in
  let y := (upd x.1 (q, MQ_TAIL) v,
    MG (v :: l) (mg_gap g) (mg_mark g) (set_own (mg_own g) O [t]) (mg_log g ++ [(O, (EPop, v))])) in
  guar O x y /\ rest O (es ++ [(EPop, v)]) [t] y.
Proof.
  intros (HI & Hes & Hown) Hch Hv. destruct x as [m g]. simpl in *.
  pose proof HI as [I1 I2 I3 I4 I5 I6 I7 I8 I9 I10 I11 I12 I13 I14 I15 I16]. simpl in *. rewrite Hch in *. simpl in *.
  pose proof I5 as [Ht I5']%NoDup_cons.
  assert (Htin : t ∈ t :: v :: l) by left.
  assert (Hfr : forall p, p <> q -> upd m (q, MQ_TAIL) v !! p = m !! p) by (intros; by apply lookup_upd_ne).
  assert (Hms : ms_of g = (v, true) :: ((fun p => (p, linked g p)) <$> l)).
  { unfold ms_of. rewrite Hch. simpl. unfold linked at 1. by rewrite bool_decide_eq_true_2. }
  assert (Hown' : forall j p, p ∈ set_own (mg_own g) O [t] j -> p ∈ mg_own g j \/ (j = O /\ p = t)).
  { intros j p. unfold set_own. case_decide; [|by left]. rewrite list_elem_of_singleton. by right. }
  set (g' := MG _ _ _ _ _). assert (HI' : MInv (upd m (q, MQ_TAIL) v, g')).
  { split; simpl; auto.
    - apply legal_snoc; [done|]. by rewrite I2, Hms.
    - rewrite after_snoc, I2, Hms. done.
    - by rewrite is_struct_upd.
    - intros p Hp. destruct (I4 p ltac:(by right)) as [A B]. split; [|done]. apply (msg_lookup m); auto.
    - by rewrite get_upd_ne.
    - apply get_upd_eq. simpl. by eapply is_struct_live.
    - intros Hm. by specialize (I9 Hm).
    - intros l1 a b l2 E. assert (a <> q) by (apply I4; right; rewrite E; set_solver).
      rewrite get_upd_ne by congruence. apply (I10 (t :: l1) a b l2). by rewrite E.
    - rewrite get_upd_ne; [done|]. assert (List.last (v :: l) 0 <> q) by (apply I4; right; by apply in_last). intros [= E]. done.
    - intros p i Hp. pose proof (I12 p i Hp) as Hin. apply elem_of_cons in Hin as [->|?]; [congruence|done].
    - intros j p [Hp|[-> ->]]%Hown'.
      + destruct (I13 j p Hp) as (A & B & C). split_and!; [apply (msg_lookup m); auto|done|]. by intros ?; apply C; right.
      + destruct (I4 t Htin) as [A B]. split_and!; [apply (msg_lookup m); auto|done|done].
    - intros i j p [H1|[-> ->]]%Hown' [H2|[-> E2]]%Hown'; subst; eauto; exfalso; [by apply (I13 i) in H1 as (_ & _ & ?)|by apply (I13 j) in H2 as (_ & _ & ?)].
    - intros j. unfold set_own. case_decide; [apply NoDup_singleton|done].
    - apply Forall_app. split; [done|]. by apply Forall_singleton. }
  split.
  - intros j Hj. split; simpl; auto.
    + rewrite mine_snoc, decide_False by congruence. by rewrite app_nil_r.
    + unfold set_own. by rewrite decide_False by done.
    + intros p' Hp'. apply Hfr. by apply (I13 j).
    + intros _ p' a [|c l1'] l2' Hg Hc; rewrite Hch in Hc; simpl in Hc; [congruence|]. split; [done|]. injection Hc as _ Hc. rewrite Hc. eauto.
    + done.
  - split_and!; [done| |]; simpl; [by rewrite mine_snoc, decide_True, Hes by done|]. unfold set_own. by rewrite decide_True.
Qed.

(** The old stub is freed. *)
Lemma free_ok t es x : rest O es [t] x ->
  let g := x.2 in
  let y := (delete t x.1, MG (mg_chain g) (mg_gap g) (mg_mark g) (set_own (mg_own g) O []) (mg_log g)) in
  guar O x y /\ rest O es [] y.
Proof.
  intros (HI & Hes & Hown). destruct x as [m g]. simpl in *.
  pose proof HI as [I1 I2 I3 I4 I5 I6 I7 I8 I9 I10 I11 I12 I13 I14 I15 I16]. simpl in *.
  assert (Ht : t ∈ mg_own g O) by (rewrite Hown; left). destruct (I13 O t Ht) as (_ & Htq & Htc).
  assert (Hfr : forall p, p <> t -> delete t m !! p = m !! p) by (intros; by apply lookup_delete_ne).
  assert (Hget : forall p o, p <> t -> get (delete t m) (p, o) = get m (p, o)) by (intros; apply get_lookup_eq; by apply Hfr).
  assert (Hin : forall p, p ∈ mg_chain g -> p <> t) by (by intros p Hp ->).
  assert (Hsub : forall j p, p ∈ set_own (mg_own g) O [] j -> p ∈ mg_own g j /\ p <> t).
  { intros j p. unfold set_own. case_decide as Hj; [by intros ?%not_elem_of_nil|]. intros Hp. split; [done|]. intros ->. by apply Hj, (I14 j O t). }
  set (g' := MG _ _ _ _ _). assert (HI' : MInv (delete t m, g')).
  { split; simpl; auto.
    - apply (is_struct_lookup m); [apply Hfr; congruence|done].
    - intros p Hp. destruct (I4 p Hp) as [A B]. split; [|done]. apply (msg_lookup m); auto.
    - by rewrite Hget by congruence.
    - by rewrite Hget by congruence.
    - intros l1 a b l2 E. rewrite Hget; [by eapply I10|]. apply Hin. rewrite E. set_solver.
    - rewrite Hget; [done|]. by apply Hin, in_last.
    - intros j p [Hp Hpt]%Hsub. destruct (I13 j p Hp) as (A & B & C). split_and!; auto. apply (msg_lookup m); auto.
    - intros i j p [H1 _]%Hsub [H2 _]%Hsub. eauto.
    - intros j. unfold set_own. case_decide; [apply NoDup_nil_2|done]. }
  split.
  - intros j Hj. split; simpl; auto; [| |eauto|done].
    + unfold set_own. by rewrite decide_False by done.
    + intros p' Hp'. apply Hfr. intros ->. by apply Hj, (I14 j O t).
  - split_and!; [done|done|]. simpl. unfold set_own. by rewrite decide_True.
Qed.

(** The mark on the empty queue. *)
Lemma mark_ok t es own x : rest O es own x -> mg_chain x.2 = [t] -> mg_mark x.2 = false ->
  let g := x.2 in
  let y := (upd x.1 (q, MQ_HEAD) (t + 1), MG (mg_chain g) (mg_gap g) true (mg_own g) (mg_log g ++ [(O, (EMark, 1))])) in
  guar O x y /\ rest O (es ++ [(EMark, 1)]) own y.
Proof.
  intros (HI & Hes & Hown) Hch Hmk. destruct x as [m g]. simpl in *.
  pose proof HI as [I1 I2 I3 I4 I5 I6 I7 I8 I9 I10 I11 I12 I13 I14 I15 I16]. simpl in *. rewrite Hch in *. simpl in *.
  assert (Hms : ms_of g = []) by (unfold ms_of; by rewrite Hch).
  assert (Hfr : forall p, p <> q -> upd m (q, MQ_HEAD) (t + 1) !! p = m !! p) by (intros; by apply lookup_upd_ne).
  destruct (I4 t ltac:(left)) as [Mt Htq].
  set (g' := MG _ _ _ _ _). assert (HI' : MInv (upd m (q, MQ_HEAD) (t + 1), g')).
  { split; simpl; auto.
    - apply legal_snoc; [done|]. by rewrite I2, Hms, Hmk.
    - rewrite after_snoc, I2, Hms, Hmk. simpl. by unfold ms_of.
    - by rewrite is_struct_upd.
    - intros p ->%list_elem_of_singleton. split; [|done]. by apply (msg_lookup m); auto.
    - apply get_upd_eq. simpl. by eapply is_struct_live.
    - by rewrite get_upd_ne.
    - intros l1 a b l2 E. destruct l1 as [|? [|]]; done.
    - rewrite get_upd_ne by congruence. done.
    - intros j p Hp. destruct (I13 j p Hp) as (A & B & C). split_and!; [by apply (msg_lookup m); auto|done..].
    - apply Forall_app. split; [done|]. by apply Forall_singleton. }
  split.
  - intros j Hj. split; simpl; auto; [| | |done].
    + rewrite mine_snoc, decide_False by congruence. by rewrite app_nil_r.
    + intros p' Hp'. apply Hfr. by apply (I13 j).
    + rewrite Hch. eauto.
  - split_and!; [done| |done]; simpl. by rewrite mine_snoc, decide_True, Hes by done.
Qed.

(** ** The operations under interference *)

Lemma guar_refl i x : guar i x x.
Proof. intros j _. reflexivity. Qed.

Lemma rg_load i l (Q : Z -> mstate -> Prop) x :
  (forall m g, sees i x (m, g) -> exists v g', get m l = Some v /\ guar i (m, g) (m, g') /\ Q v (m, g')) ->
  rg (sees i) (guar i) (load l) Q x.
Proof.
  intros H. apply rg_act. intros [m g] Hs. destruct (H m g Hs) as (v & g' & E & HG & HQ). exists v, m, g'. simpl. by rewrite E.
Qed.

Lemma rg_store i l v (Q : unit -> mstate -> Prop) x :
  (forall m g, sees i x (m, g) -> inb m l = true /\ exists g', guar i (m, g) (upd m l v, g') /\ Q tt (upd m l v, g')) ->
  rg (sees i) (guar i) (store l v) Q x.
Proof.
  intros H. apply rg_act. intros [m g] Hs. destruct (H m g Hs) as (E & g' & HG & HQ). exists tt, (upd m l v), g'. simpl. by rewrite E.
Qed.

Lemma rg_rmw i l f (Q : Z -> mstate -> Prop) x :
  (forall m g, sees i x (m, g) -> exists v g', get m l = Some v /\ guar i (m, g) (upd m l (f v), g') /\ Q v (upd m l (f v), g')) ->
  rg (sees i) (guar i) (rmw l f) Q x.
Proof.
  intros H. apply rg_act. intros [m g] Hs. destruct (H m g Hs) as (v & g' & E & HG & HQ). exists v, (upd m l (f v)), g'. simpl. by rewrite E.
Qed.

Lemma lor1_even p : p mod 2 = 0 -> Z.lor p 1 = p + 1.
Proof. intros Hp. pose proof (Z.add_lor_land p 1) as H. rewrite land1_even in H by done. lia. Qed.

Lemma untag a b : a mod 2 = 0 -> Z.land (a + b2z b) (-2) = a /\ negb (Z.land (a + b2z b) 1 =? 0) = b.
Proof.
  intros Ha. destruct b; simpl; [by rewrite land_m2_odd, land1_odd|]. by rewrite Z.add_0_r, land_m2_even, land1_even.
Qed.

Lemma rg_push i p ps es x : rest i es (p :: ps) x ->
  rg (sees i) (guar i) (messageq_push q p) (fun b y => rest i (es ++ [(EPush p, b2z b); (ELinked p, 0)]) ps y) x.
Proof.
  intros H0. apply rg_bind, rg_store. intros m1 g1 Hs1. pose proof (rest_stable _ _ _ _ _ H0 Hs1) as H1.
  pose proof H1 as (HI1 & _ & Ho1). simpl in Ho1. assert (Hp : p ∈ mg_own g1 i) by (rewrite Ho1; left).
  split; [destruct (mi_own _ HI1 i p Hp) as ((Hst & _) & _); by eapply is_struct_inb|].
  destruct (own_next_ok _ _ _ _ _ H1) as (G1 & R1 & N1). exists g1. split; [exact G1|].
  apply rg_bind, rg_rmw. intros m2 g2 Hs2. pose proof (rest_stable _ _ _ _ _ R1 Hs2) as H2. simpl in N1.
  assert (N2 : get m2 (p, MSG_NEXT) = Some NULL).
  { rewrite <- N1. apply get_lookup_eq. apply (se_blk _ _ _ Hs2). exact Hp. }
  destruct (xchg_ok _ _ _ _ _ H2 N2) as (G2 & R2 & Hg2 & l1 & Hc2).
  eexists _, _. split; [apply (mi_head _ (proj1 H2))|]. split; [exact G2|].
  assert (Ha : List.last (mg_chain g2) 0 mod 2 = 0) by apply (mi_nodes _ (proj1 H2)), in_last, (mi_ne _ (proj1 H2)).
  cbn [fst snd] in *. cbv beta zeta. destruct (untag _ (mg_mark g2) Ha) as [-> ->].
  apply rg_bind, rg_store. intros m3 g3 Hs3. pose proof (rest_stable _ _ _ _ _ R2 Hs3) as H3.
  destruct (se_gap _ _ _ Hs3 (proj1 R2) _ _ _ _ Hg2 Hc2) as (Hg3 & l1' & l2' & Hc3).
  destruct (link_ok _ _ _ _ _ _ _ _ H3 Hg3 Hc3) as (G3 & R3).
  split; [|eexists; split; [exact G3|]; by rewrite <- app_assoc in R3].
  destruct (mi_nodes _ (proj1 H3) (List.last (mg_chain g2) 0)) as ((Hst & _) & _); [|by eapply is_struct_inb].
  rewrite Hc3. set_solver.
Qed.

(** The actor's view of [tail] is stable. *)
Lemma hd_stable x y t : MInv x -> sees O x y -> List.hd 0 (mg_chain x.2) = t -> List.hd 0 (mg_chain y.2) = t.
Proof.
  intros HI Hs <-. destruct (se_cons _ _ _ Hs eq_refl) as ([l ->] & _). pose proof (mi_ne _ HI). by destruct (mg_chain x.2).
Qed.

Lemma rg_tail es own (Q : Z -> mstate -> Prop) x : rest O es own x ->
  (forall y t, rest O es own y -> List.hd 0 (mg_chain y.2) = t -> Q t y) ->
  rg (sees O) (guar O) (load (q, MQ_TAIL)) Q x.
Proof.
  intros H0 HQ. apply rg_load. intros m g Hs. pose proof (rest_stable _ _ _ _ _ H0 Hs) as H1.
  exists (List.hd 0 (mg_chain g)), g. split_and!; [apply (mi_tail _ (proj1 H1))|apply guar_refl|by apply HQ].
Qed.

Lemma rg_pop `{Malloc} es x : rest O es [] x ->
  rg (sees O) (guar O) (messageq_pop q) (fun v y => rest O (es ++ [(EPop, v)]) [] y) x.
Proof.
  intros H0. apply rg_bind, (rg_tail es []); [done|]. intros x1 t H1 Ht1.
  apply rg_bind, rg_load. intros m2 g2 Hs2. pose proof (rest_stable _ _ _ _ _ H1 Hs2) as H2.
  destruct (mq_next_ok m2 g2 t (proj1 H2)) as (v & Hv & [[-> Hst]|(Hne & Hg & l & Hc)]); [exact (hd_stable x1 _ t (proj1 H1) Hs2 Ht1)|..].
  - destruct (log_ok _ _ _ _ _ _ H2 Hst) as (G2 & R2). eexists _, _. split_and!; [exact Hv|exact G2|exact R2].
  - exists v, g2. split_and!; [exact Hv|apply guar_refl|]. rewrite (proj2 (Z.eqb_neq _ _) Hne). simpl negb. cbv iota.
    apply rg_bind, rg_bind, rg_store. intros m3 g3 Hs3. pose proof (rest_stable _ _ _ _ _ H2 Hs3) as H3.
    destruct (se_cons _ _ _ Hs3 eq_refl) as ([l' Hc3] & Hgap & _). simpl in Hc3, Hgap. rewrite Hc in Hc3, Hgap. simpl in Hc3.
    assert (Hg3 : mg_gap g3 !! v = None) by (apply Hgap; [set_solver|done]).
    destruct (pop_ok t v _ es _ H3 Hc3 Hg3) as (G3 & R3).
    split; [eapply is_struct_inb; [apply (mi_q _ (proj1 H3))|done]|]. eexists. split; [exact G3|].
    apply rg_bind, rg_load. intros m4 g4 Hs4. pose proof (rest_stable _ _ _ _ _ R3 Hs4) as H4.
    assert (Ht4 : t ∈ mg_own g4 O) by (destruct H4 as (_ & _ & E); simpl in E; rewrite E; left).
    destruct (mi_own _ (proj1 H4) O t Ht4) as ((_ & _ & s & Hs) & _). exists s, g4. split_and!; [exact Hs|apply guar_refl|].
    apply rg_act. intros [m5 g5] Hs5. pose proof (rest_stable _ _ _ _ _ H4 Hs5) as H5.
    assert (Ht5 : t ∈ mg_own g5 O) by (destruct H5 as (_ & _ & E); simpl in E; rewrite E; left).
    destruct (mi_own _ (proj1 H5) O t Ht5) as ((Hst & _) & _). destruct (free_ok t _ _ H5) as (G5 & R5).
    eexists tt, _, _. split; [|split; [exact G5|exact R5]]. simpl. destruct Hst as (Hn & o & Ho & _). simpl in Ho.
    rewrite (proj2 (Z.eqb_neq _ _) Hn), Ho. done.
Qed.

Lemma single_chain (l : list Z) t : NoDup l -> l <> [] -> List.hd 0 l = t -> List.last l 0 = t -> l = [t].
Proof.
  destruct l as [|a [|b l]]; simpl; [done|by intros _ _ ->|]. intros Hn _ -> Hl. exfalso. apply NoDup_cons in Hn as [Hn _]. apply Hn.
  rewrite <- Hl. by apply (in_last (b :: l)).
Qed.

Lemma mark_fails g t : mg_mark g = false -> List.hd 0 (mg_chain g) = t -> List.last (mg_chain g) 0 <> t ->
  mq_step EMark (ms_of g, mg_mark g) = (0, (ms_of g, mg_mark g)).
Proof.
  intros Hm Hh Hl. rewrite Hm. simpl. unfold ms_of. destruct (mg_chain g) as [|a [|b l]]; simpl in *; congruence.
Qed.

Lemma rg_markempty es own x : rest O es own x ->
  rg (sees O) (guar O) (messageq_markempty q) (fun b y => rest O (es ++ [(EMark, b2z b)]) own y) x.
Proof.
  intros H0. apply rg_bind, (rg_tail es own); [done|]. intros x1 t H1 Ht1.
  apply rg_bind, rg_load. intros m2 g2 Hs2. pose proof (rest_stable _ _ _ _ _ H1 Hs2) as H2. pose proof H2 as (HI2 & _).
  pose proof (hd_stable x1 _ t (proj1 H1) Hs2 Ht1) as Ht2. pose proof (mi_head _ HI2) as Hh. cbn [fst snd] in Ht2, Hh.
  assert (Ha : List.last (mg_chain g2) 0 mod 2 = 0) by apply (mi_nodes _ HI2), in_last, (mi_ne _ HI2).
  destruct (untag _ (mg_mark g2) Ha) as [_ Hm]. destruct (mg_mark g2) eqn:Emk.
  { destruct (log_ok O EMark 1 _ _ _ H2) as (G2 & R2); [simpl; by rewrite Emk|].
    eexists _, _. split; [exact Hh|]. split; [exact G2|]. rewrite Hm. exact R2. }
  simpl b2z in Hm, Hh. rewrite Z.add_0_r in Hm, Hh. destruct (Z.eqb_spec (List.last (mg_chain g2) 0) t) as [Hlt|Hlt].
  - exists t, g2. rewrite Hlt in Hm, Hh. split; [exact Hh|]. split; [apply guar_refl|]. rewrite Hm, Z.eqb_refl. simpl negb. cbv iota.
    apply rg_bind, rg_rmw. intros m3 g3 Hs3. pose proof (rest_stable _ _ _ _ _ H2 Hs3) as H3.
    pose proof (hd_stable _ _ t HI2 Hs3 Ht2) as Ht3. destruct (se_cons _ _ _ Hs3 eq_refl) as (_ & _ & Hm3). specialize (Hm3 Emk).
    pose proof (mi_head _ (proj1 H3)) as Hh3. cbn [fst snd] in *. rewrite Hm3, Z.add_0_r in Hh3.
    destruct (Z.eqb_spec (List.last (mg_chain g3) 0) t) as [Hl3|Hl3].
    + assert (Hc3 : mg_chain g3 = [t]) by (apply single_chain; [apply (mi_nodup _ (proj1 H3))|apply (mi_ne _ (proj1 H3))|done|done]).
      destruct (mark_ok t _ _ _ H3 Hc3 Hm3) as (G3 & R3). rewrite Hl3 in Hh3. eexists t, _. split; [exact Hh3|].
      rewrite Z.eqb_refl, lor1_even by (by rewrite <- Hlt). split; [exact G3|exact R3].
    + destruct (log_ok _ _ _ _ _ _ H3 (mark_fails g3 t Hm3 Ht3 Hl3)) as (G3 & R3). eexists _, _. split; [exact Hh3|].
      rewrite (proj2 (Z.eqb_neq _ _) Hl3), upd_same by done. split; [exact G3|exact R3].
  - destruct (log_ok _ _ _ _ _ _ H2 (mark_fails g2 t Emk Ht2 Hlt)) as (G2 & R2). eexists _, _. split; [exact Hh|].
    split; [exact G2|]. rewrite Hm, (proj2 (Z.eqb_neq _ _) Hlt). exact R2.
Qed.
End conc.
