(* ===== verification/MessageProgram.v ===== *)
(** * Actors that send and receive (actor/messageq.c)

    The threads of [mq_threads] under every schedule: a history of the abstract
    queue explains all answers, messages arrive in the order of the exchanges of
    [head], and the memory holds the queue at every moment. *)
From S2P Require Export MessageConc.
Import messageq.

(** ** Code without loops never runs out of fuel *)
Fixpoint nofuel {S A : Type} (p : prog S A) : Prop :=
  match p with
  | Ret _ => True
  | Stop e => e <> EFuel
  | Atomic _ f k => (forall s, f s <> Err EFuel) /\ forall r, nofuel (k r)
  end.

Lemma nofuel_bind {S A B} (p : prog S A) (k : A -> prog S B) : nofuel p -> (forall a, nofuel (k a)) -> nofuel (pbind k p).
Proof. intros Hp Hk. induction p as [a|e|R f k' IH]; simpl in *; [apply Hk|done|]. destruct Hp as [H1 H2]. split; [done|]. intros r. by apply IH. Qed.

Lemma nofuel_client {Op Res} (op : Op -> prog mem Res) os : (forall o, nofuel (op o)) -> nofuel (op_client op os).
Proof.
  intros H. induction os as [|o os IH]; simpl; [done|]. apply nofuel_bind; [done|]. intros r. apply nofuel_bind; [done|]. by intros rs.
Qed.

Lemma exec_nofuel {S A} sched (ps : list (prog S A)) s : Forall nofuel ps -> exec sched ps s <> Err EFuel.
Proof.
  revert ps s. induction sched as [|i sched IH]; intros ps s Hps; simpl; [done|]. destruct (ps !! i) as [p|] eqn:Hi; [|by apply IH].
  assert (Hp : nofuel p) by (rewrite Forall_lookup in Hps; by eapply Hps).
  destruct p as [a|e|R f k]; simpl in *; [apply IH; by rewrite list_insert_id|congruence|]. destruct Hp as [Hf Hk].
  specialize (Hf s). destruct (f s) as [[r s']|e]; [|congruence]. apply IH. by apply Forall_insert.
Qed.

Lemma nofuel_load l : nofuel (load l).
Proof. split; [|done]. intros m. by destruct (get m l). Qed.
Lemma nofuel_store l v : nofuel (store l v).
Proof. split; [|done]. intros m. by destruct (inb m l). Qed.
Lemma nofuel_rmw l f : nofuel (rmw l f).
Proof. split; [|done]. intros m. by destruct (get m l). Qed.
Lemma nofuel_free p : nofuel (free p).
Proof. split; [|done]. intros m. destruct (p =? NULL); [done|]. by destruct (m !! p). Qed.

Create HintDb nofuel discriminated.
#[export] Hint Resolve nofuel_load nofuel_store nofuel_rmw nofuel_free : nofuel.
Ltac nofuel_code := repeat first [apply nofuel_bind; [|intros ?] | by auto with nofuel | exact I | case_match].

(** ** The memory of a queue *)

(** The links behind the stub: a message that is not linked yet is not seen. *)
Fixpoint mq_links (m : mem) (stub : Z) (ms : list (Z * bool)) : Prop :=
  match ms with
  | [] => get m (stub, MSG_NEXT) = Some NULL
  | (p, true) :: ms' => get m (stub, MSG_NEXT) = Some p /\ mq_links m p ms'
  | (p, false) :: ms' => get m (stub, MSG_NEXT) = Some NULL /\ mq_links m p ms'
  end.

Definition mq_rep (q : Z) (m : mem) (s : mq_state) : Prop := exists stub,
  is_struct m q sizeof_messageq_t /\ Forall (fun p => msg m p /\ p <> q) (stub :: s.1.*1) /\ NoDup (stub :: s.1.*1) /\
  get m (q, MQ_TAIL) = Some stub /\
  get m (q, MQ_HEAD) = Some (List.last (stub :: s.1.*1) 0 + b2z s.2) /\ mq_links m stub s.1.

Lemma minv_links m g l : (forall l1 a b l2, l = l1 ++ a :: b :: l2 -> get m (a, MSG_NEXT) = Some (if linked g b then b else NULL)) ->
  forall a, get m (List.last (a :: l) 0, MSG_NEXT) = Some NULL -> 
  (forall b l2, l = b :: l2 -> get m (a, MSG_NEXT) = Some (if linked g b then b else NULL)) ->
  mq_links m a ((fun p => (p, linked g p)) <$> l).
Proof.
  induction l as [|b l IH]; intros Hl a Hlast Ha; simpl; [exact Hlast|].
  assert (Hr : mq_links m b ((fun p => (p, linked g p)) <$> l)).
  { apply IH; [intros l1 a' b' l2 ->; by apply (Hl (b :: l1) a' b' l2)|exact Hlast|]. intros b' l2 ->. by apply (Hl [] b b' l2). }
  specialize (Ha b l eq_refl). by destruct (linked g b).
Qed.

Lemma minv_rep q m g : MInv q (m, g) -> mq_rep q m (after mq_step (mg_log g) ([], true)).
Proof.
  intros HI. pose proof (mi_after _ _ HI) as HA. cbn [fst snd] in HA. rewrite HA. destruct (mg_chain g) as [|t l] eqn:Hc; [by destruct (mi_ne _ _ HI)|].
  pose proof (mi_tail _ _ HI) as Ht. pose proof (mi_head _ _ HI) as Hh. pose proof (mi_last _ _ HI) as HL.
  assert (Hn : (ms_of g).*1 = l).
  { unfold ms_of. rewrite Hc. cbn [List.tl]. rewrite <- list_fmap_compose. unfold compose. simpl. by rewrite list_fmap_id. }
  pose proof (mi_nodup _ _ HI) as Hnd. pose proof (mi_nodes _ _ HI) as Hnodes.
  cbn [fst snd] in *. rewrite Hc in *. exists t. cbn [fst snd]. rewrite Hn.
  split_and!; [apply (mi_q _ _ HI)|by apply Forall_forall|exact Hnd|exact Ht|exact Hh|].
  - unfold ms_of. rewrite Hc. apply minv_links; [|exact HL|].
    + intros l1 a b l2 E. apply (mi_link _ _ HI (t :: l1) a b l2). simpl in *. by rewrite Hc, E.
    + intros b l2 E. apply (mi_link _ _ HI [] t b l2). simpl in *. by rewrite Hc, E.
Qed.

(** ** What a history says of the order of messages *)
Definition pushed (log : list (nat * (mq_ev * Z))) : list Z :=
  omap (fun e => match e.2 with (EPush p, _) => Some p | _ => None end) log.
Definition popped (log : list (nat * (mq_ev * Z))) : list Z :=
  omap (fun e => match e.2 with (EPop, v) => if v =? NULL then None else Some v | _ => None end) log.

Lemma fifo_history log s : legal mq_step log s -> Forall (fun p => p <> NULL) (s.1.*1 ++ pushed log) ->
  s.1.*1 ++ pushed log = popped log ++ (after mq_step log s).1.*1.
Proof.
  revert s. induction log as [|[i [ev r]] log IH]; intros [ms e]; [by rewrite app_nil_r|].
  intros [Hr Hl] Hn. specialize (IH _ Hl). destruct ev as [p|p| |]; simpl in *; subst r.
  - rewrite fmap_app, <- app_assoc in IH. by apply IH.
  - rewrite <- list_fmap_compose in IH. rewrite (list_fmap_ext _ fst) in IH by done. by apply IH.
  - destruct ms as [|[p [|]] ms]; simpl in *; [by apply IH| |by apply IH].
    apply Forall_cons in Hn as [Hp Hn]. rewrite (proj2 (Z.eqb_neq _ _) Hp). simpl. f_equal. by apply IH.
  - destruct e; [by apply IH|]. destruct ms; by apply IH.
Qed.

(** ** The threads *)
Section program.
Context `{HM : Malloc, HR : !MallocRoom}.
Variable q : Z.

Definition recv_ev (o : mq_op) : mq_ev := match o with MPop => EPop | MMark => EMark end.
Definition recv_log (os : list mq_op) (rs : list Z) : list (mq_ev * Z) := zip (recv_ev <$> os) rs.
Definition send_log (ps rs : list Z) : list (mq_ev * Z) := concat (zip_with (fun p r => [(EPush p, r); (ELinked p, 0)]) ps rs).

Lemma rg_recv o es x : rest q O es [] x ->
  rg (sees q O) (guar q O) (mq_recv q o) (fun r y => rest q O (es ++ [(recv_ev o, r)]) [] y) x.
Proof.
  intros H. destruct o; [by apply rg_pop|]. unfold mq_recv. apply rg_bind. eapply rg_mono; [by apply (rg_markempty q es [])|]. done.
Qed.

Lemma rg_recv_client os es x : rest q O es [] x ->
  rg (sees q O) (guar q O) (op_client (mq_recv q) os)
    (fun rs y => rest q O (es ++ recv_log os rs) [] y /\ length rs = length os) x.
Proof.
  revert es x. induction os as [|o os IH]; intros es x Hx; [simpl; by rewrite app_nil_r|].
  cbn [op_client]. apply rg_bind. eapply rg_mono; [by apply rg_recv|]. intros r y Hy. apply rg_bind. eapply rg_mono; [exact (IH _ _ Hy)|].
  intros rs z [Hz Hl]. simpl. rewrite <- app_assoc in Hz. auto.
Qed.

Lemma rg_send_client i ps es x : rest q i es ps x ->
  rg (sees q i) (guar q i) (op_client (mq_send q) ps)
    (fun rs y => rest q i (es ++ send_log ps rs) [] y /\ length rs = length ps) x.
Proof.
  revert es x. induction ps as [|p ps IH]; intros es x Hx; [simpl; by rewrite app_nil_r|].
  cbn [op_client]. apply rg_bind. unfold mq_send at 1. apply rg_bind. eapply rg_mono; [by apply rg_push|]. intros r y Hy. apply rg_bind. eapply rg_mono; [exact (IH _ _ Hy)|].
  intros rs z [Hz Hl]. simpl. rewrite <- app_assoc in Hz. auto.
Qed.

Lemma mq_threads_nofuel recv sends : Forall nofuel (mq_threads q recv sends).
Proof.
  apply Forall_cons. split.
  - apply nofuel_client. intros [|]; unfold mq_recv, messageq_pop, messageq_markempty, pool_free, POOL_FREE, CAS, atomic_cmpxchg4; nofuel_code.
  - apply Forall_fmap, Forall_true. intros ps. apply nofuel_client. intros p. unfold mq_send, messageq_push. nofuel_code.
Qed.

(** *** The start *)

(** The queue's structure and the messages that will be sent. *)
Definition mq_ready (sends : list (list Z)) (m : mem) : Prop :=
  is_struct m q sizeof_messageq_t /\ NoDup (concat sends) /\ forall p, p ∈ concat sends -> msg m p /\ p <> q.

Definition own0 (sends : list (list Z)) (i : nat) : list Z := match i with O => [] | S j => default [] (sends !! j) end.

Lemma own0_in sends i p : p ∈ own0 sends i -> exists j ps, i = S j /\ sends !! j = Some ps /\ p ∈ ps.
Proof. destruct i as [|j]; simpl; [by intros ?%not_elem_of_nil|]. destruct (sends !! j) as [ps|] eqn:E; [exists j, ps; auto|by intros ?%not_elem_of_nil]. Qed.

Lemma concat_in (ls : list (list Z)) j l p : ls !! j = Some l -> p ∈ l -> p ∈ concat ls.
Proof. intros Hj Hp. apply list_elem_of_In, in_concat. exists l. split; apply list_elem_of_In; [by eapply list_elem_of_lookup_2|done]. Qed.

Lemma concat_nodup (ls : list (list Z)) : NoDup (concat ls) -> (forall j l, ls !! j = Some l -> NoDup l) /\
  forall j k l l' p, ls !! j = Some l -> ls !! k = Some l' -> p ∈ l -> p ∈ l' -> j = k.
Proof.
  induction ls as [|l ls IH]; simpl; [done|]. intros (H1 & H2 & H3)%NoDup_app. destruct (IH H3) as [I1 I2]. split.
  - intros [|j] l'; simpl; [by intros [= <-]|apply I1].
  - intros [|j] [|k] l1 l2 p; simpl; [done|intros [= <-] Hk P1 P2|intros Hj [= <-] P1 P2|].
    + exfalso. apply (H2 p P1). by eapply concat_in.
    + exfalso. apply (H2 p P2). by eapply concat_in.
    + intros. f_equal. by eapply I2.
Qed.

Lemma mq_init_ok fuel sends m k : (0 < fuel)%nat -> mroom (S k) m -> mq_ready sends m ->
  tot (messageq_init fuel q) m (fun _ m' => exists stub, MInv q (m', MG [stub] ∅ true (own0 sends) [])).
Proof.
  intros Hf Hr (Hq & Hnd & Hms). destruct (concat_nodup _ Hnd) as [Hn1 Hn2]. unfold messageq_init, POOL_ALLOC, malloc.
  apply tot_bind, tot_bind. eapply tot_alloc; [exact Hr|done|]. intros s (L1 & L2 & _ & L4) _. simpl.
  rewrite (proj2 (Z.eqb_neq _ _) L1). apply tot_ret. set (m1 := <[s := _]> m).
  assert (Hsq : s <> q) by (intros ->; destruct Hq as (_ & o & Ho & _); congruence).
  assert (Hst : is_struct m1 s 16) by (split; [done|]; exists (Obj 16 ∅); unfold m1; by rewrite lookup_insert_eq).
  assert (Hfr : forall p, p <> s -> m1 !! p = m !! p) by (intros; by apply lookup_insert_ne).
  assert (Hq1 : is_struct m1 q 16) by (apply (is_struct_lookup m); [by apply Hfr|exact Hq]).
  assert (Heven : s mod 2 = 0) by (by apply mod16_even). rewrite lor1_even by done. clearbody m1.
  psteps. unfold messageq_size_debug. apply tot_bind. psteps. apply tot_loop_exit; [done|]. psteps.
  exists s. set (m2 := upd _ (q, 8) s). assert (Hblk : forall p, p <> s -> p <> q -> m2 !! p = m !! p).
  { intros p H1 H2. unfold m2. rewrite !lookup_upd_ne by (simpl; congruence). by apply Hfr. }
  assert (Hown : forall i p, p ∈ own0 sends i -> msg m p /\ p <> q /\ p <> s).
  { intros i p (j & ps & -> & Hj & Hp)%own0_in. destruct (Hms p) as [M1 M2]; [by eapply concat_in|]. split_and!; auto.
    intros ->. destruct M1 as ((_ & o & Ho & _) & _). congruence. }
  assert (Hs2 : msg m2 s).
  { unfold m2. split_and!; [by rewrite !is_struct_upd|done|]. exists (pool.pool_index sizeof_pony_msg_t). mget. }
  split; simpl; auto.
  - unfold m2. by rewrite !is_struct_upd.
  - intros p ->%list_elem_of_singleton. auto.
  - apply NoDup_singleton.
  - unfold m2. mget.
  - unfold m2. mget.
  - intros l1 a b l2 E. destruct l1 as [|? [|]]; done.
  - unfold m2. mget.
  - intros p i Hp. done.
  - intros i p Hp. destruct (Hown i p Hp) as (H1 & H2 & H3). split_and!; [by apply (msg_lookup m); auto|done|]. by intros ?%list_elem_of_singleton.
  - intros i j p (i' & ps & -> & Hi & P1)%own0_in (j' & ps' & -> & Hj & P2)%own0_in. f_equal. by eapply Hn2.
  - intros [|i]; simpl; [apply NoDup_nil_2|]. destruct (sends !! i) eqn:E; [by eapply Hn1|apply NoDup_nil_2].
Qed.

(** *** Every schedule *)
Lemma mq_pool recv sends sched stub m : MInv q (m, MG [stub] ∅ true (own0 sends) []) ->
  match exec sched (mq_threads q recv sends) m with
  | Ok (ps, m') => exists log, legal mq_step log ([], true) /\
      Forall (fun p => p <> NULL) (pushed log) /\ mq_rep q m' (after mq_step log ([], true)) /\
      (forall rs, ps !! O = Some (Ret rs) -> mine O log = recv_log recv rs /\ length rs = length recv) /\
      (forall i sp rs, sends !! i = Some sp -> ps !! S i = Some (Ret rs) -> mine (S i) log = send_log sp rs /\ length rs = length sp)
  | Err _ => False
  end.
Proof.
  intros HJ. set (g0 := MG _ _ _ _ _) in HJ.
  set (Q := fun (i : nat) (rs : list Z) (y : mstate) => match i with
    | O => rest q O (recv_log recv rs) [] y /\ length rs = length recv
    | S j => exists sp, sends !! j = Some sp /\ rest q i (send_log sp rs) [] y /\ length rs = length sp
    end).
  pose proof (rg_sound (sees q) (guar q) Q) as HS.
  specialize (HS ltac:(intros i j x y Hij HG; by apply HG)).
  specialize (HS ltac:(intros [|i] rs y y'; [intros [H1 H2] HR'; split; [by eapply rest_stable|done]
    |intros (sp & H1 & H2 & H3) HR'; exists sp; split_and!; auto; by eapply rest_stable])).
  specialize (HS (MInv q) ltac:(intros i x y HG HI; by apply (se_inv _ _ _ _ (HG (S i) ltac:(lia))))).
  specialize (HS sched (mq_threads q recv sends) m g0).
  assert (Hpool : pool_ok (sees q) (guar q) Q (mq_threads q recv sends) (m, g0)).
  { intros [|i] p Hp; unfold mq_threads in Hp; simpl in Hp.
    - injection Hp as <-. eapply rg_mono; [by apply (rg_recv_client recv [])|]. done.
    - apply list_lookup_fmap_Some in Hp as (sp & -> & Hsp). eapply rg_mono; [apply (rg_send_client (S i) sp [])|].
      + split_and!; [exact HJ|done|]. simpl. by rewrite Hsp.
      + intros rs y [H1 H2]. by exists sp. }
  specialize (HS Hpool HJ). pose proof (exec_nofuel sched _ m (mq_threads_nofuel recv sends)) as HF.
  destruct (exec _ _ _) as [[ps m']|e]; [|congruence]. destruct HS as (g & Hok & HI). clear HF.
  exists (mg_log g). split_and!; [apply (mi_legal _ _ HI)| |by apply minv_rep|..].
  - pose proof (mi_sent _ _ HI) as H. cbn [fst snd] in H. apply Forall_forall. intros p ([i [ev r]] & He & E)%list_elem_of_omap.
    rewrite Forall_forall in H. specialize (H _ He). simpl in E. destruct ev; congruence || (injection E as <-; exact H).
  - intros rs Hi. destruct (Hok O _ Hi) as ((_ & H1 & _) & H2). done.
  - intros i sp rs Hsp Hi. destruct (Hok (S i) _ Hi) as (sp' & Hsp' & (_ & H1 & _) & H2). rewrite Hsp in Hsp'. by injection Hsp' as <-.
Qed.


(** A queue that is destroyed must be empty; its stub is freed. *)
Lemma messageq_destroy_ok m s : mq_rep q m s ->
  match s.1 with
  | [] => tot (messageq_destroy q) m (fun _ m' => get m' (q, MQ_HEAD) = Some NULL /\ get m' (q, MQ_TAIL) = Some NULL /\
      exists stub, get m (q, MQ_TAIL) = Some stub /\ live m stub /\ forall b, live m' b <-> live m b /\ b <> stub)
  | _ => run (messageq_destroy q) m = Err EAssert
  end.
Proof.
  intros (stub & Hq & Hmsg & Hnd & Ht & Hh & _). set (l := s.1.*1) in *.
  assert (Heven : List.last (stub :: l) 0 mod 2 = 0).
  { rewrite Forall_forall in Hmsg. by apply Hmsg, in_last. }
  destruct (untag _ s.2 Heven) as [Hland _].
  assert (Hst : msg m stub /\ stub <> q) by (by apply Forall_cons in Hmsg as [? _]). destruct Hst as [(Hst & _ & z & Hz) Hsq].
  unfold messageq_destroy. destruct s.1 as [|[p b] ms] eqn:Es; simpl in l.
  - subst l. apply tot_bind, (tot_load _ _ _ _ Ht), tot_bind, (tot_load _ _ _ _ Hh). rewrite Hland. simpl List.last.
    rewrite Z.eqb_refl. simpl. apply tot_bind, tot_ret, tot_bind, (tot_load _ _ _ _ Hz). apply tot_bind.
    apply tot_free; [apply Hst|by eapply is_struct_live|].
    assert (Hq' : is_struct (delete stub m) q 16) by (apply (is_struct_lookup m); [by apply lookup_delete_ne|exact Hq]).
    psteps. split_and!; [mget|mget|]. exists stub. split_and!; [done|by eapply is_struct_live|].
    intros b. rewrite !live_upd. unfold live. rewrite lookup_delete_is_Some. naive_solver.
  - rewrite run_bind, (run_load _ _ _ Ht), run_bind, (run_load _ _ _ Hh), Hland.
    assert (Hne : List.last (stub :: l) 0 <> stub).
    { apply not_eq_sym. by apply (last_ne [] (ms.*1) (stub :: l) stub p). }
    by rewrite (proj2 (Z.eqb_neq _ _) Hne).
Qed.
End program.

(** ** A concrete program *)
Module mq_demo.
Definition mq : Z := 1024.
Definition sends : list (list Z) := [[2048; 2064]; [2080]].
Definition recv : list mq_op := [MPop; MMark; MPop; MPop; MMark].
Definition m0 : mem := <[mq := Obj 16 ∅]> (foldr (fun p m => <[p := Obj 16 {[MSG_SIZE := 0]}]> m) ∅ (concat sends)).

Definition answers (sched : list nat) : outcome (list (option (list Z))) :=
  match run (messageq_init 1 mq) m0 with
  | Ok (_, m) =>
      match exec sched (mq_threads mq recv sends) m with
      | Ok (ps, _) => Ok (map finished ps)
      | Err e => Err e
      end
  | Err e => Err e
  end.

(** Thread 2 has exchanged [head] but not linked its message when thread 1 sends:
    the actor finds nothing until the link is there, and then all of it. *)
Definition late : list nat := [2; 2; 1; 1; 1; 1; 1; 1; 0; 0; 0; 0; 2; 0; 0; 0; 0; 0; 0; 0; 0; 0; 0; 0; 0; 0]%nat.

Example late_link : answers late = Ok [Some [NULL; 0; 2080; 2048; 0]; Some [0; 0]; Some [1]].
Proof. vm_compute. reflexivity. Qed.

Lemma mq_demo_ready : mq_ready mq sends m0.
Proof.
  split_and!; [split; [done|]; by eexists|apply (bool_decide_unpack _); by vm_compute|].
  intros p Hp. repeat (apply elem_of_cons in Hp as [->|Hp]; [split; [split_and!; [split; [done|]; by eexists|done|by exists 0]|done]|]).
  by apply not_elem_of_nil in Hp.
Qed.

End mq_demo.
