(* ===== verification/Pagemap.v ===== *)
(** * The page map of the heap (mem/pagemap.c)

    A radix tree of three levels from the pages of a 48-bit address space to the
    chunks of the heap; shown to be a finite map from page numbers. *)
From S2P Require Export Fun HashTable LockSerial.
Import ds_fun pool.

(** ** The code *)
Definition PAGEMAP_ADDRESSBITS : Z := 48.
Definition PAGEMAP_LEVELS : Z := 3.
Definition PAGEMAP_BITS : Z := (PAGEMAP_ADDRESSBITS - POOL_ALIGN_BITS) / PAGEMAP_LEVELS.
Definition PAGEMAP_EXCESS : Z := (PAGEMAP_ADDRESSBITS - POOL_ALIGN_BITS) mod PAGEMAP_LEVELS.
Definition L1_MASK : Z := PAGEMAP_BITS.
Definition L2_MASK : Z := PAGEMAP_BITS + b2z (1 <? PAGEMAP_EXCESS).
Definition L3_MASK : Z := PAGEMAP_BITS + b2z (0 <? PAGEMAP_EXCESS).
Definition L1_SHIFT : Z := POOL_ALIGN_BITS.
Definition L2_SHIFT : Z := L1_SHIFT + L1_MASK.
Definition L3_SHIFT : Z := L2_SHIFT + L2_MASK.

Record pagemap_level_t : Type := PLevel { lv_shift : Z; lv_mask : Z; lv_size : Z; lv_size_index : Z }.

Definition level : list pagemap_level_t :=
  [ PLevel L3_SHIFT (Z.shiftl 1 L3_MASK - 1) (Z.shiftl 1 L3_MASK * 8) (pool_index (Z.shiftl 1 L3_MASK * 8));
    PLevel L2_SHIFT (Z.shiftl 1 L2_MASK - 1) (Z.shiftl 1 L2_MASK * 8) (pool_index (Z.shiftl 1 L2_MASK * 8));
    PLevel L1_SHIFT (Z.shiftl 1 L1_MASK - 1) (Z.shiftl 1 L1_MASK * 8) (pool_index (Z.shiftl 1 L1_MASK * 8)) ].

Definition level_ix (l : pagemap_level_t) (m : Z) : Z := Z.land (shr m (lv_shift l)) (lv_mask l).

Section code.
Context `{!Malloc}.
(** The address of the static variable [root]. *)
Variable root : Z.

Definition pool_alloc (index : Z) : prog mem Z := POOL_ALLOC (pool_size index).
Definition pool_free (index p : Z) : prog mem unit := POOL_FREE p.

Fixpoint get_levels (ls : list pagemap_level_t) (m v : Z) : prog mem Z :=
  match ls with
  | [] => Ret v
  | l :: ls' =>
      if v =? NULL then Ret NULL
      else
        v <- load (v, 8 * level_ix l m) ;;
        get_levels ls' m v
  end.

Definition pagemap_get (m : Z) : prog mem Z :=
  v <- load (root, 0) ;;
  get_levels level m v.

Fixpoint set_levels (ls : list pagemap_level_t) (m : Z) (pv : loc) : prog mem loc :=
  match ls with
  | [] => Ret pv
  | l :: ls' =>
      v <- load pv ;;
      (if v =? NULL then
         p <- pool_alloc (lv_size_index l) ;;
         hash_map.memset0 p (lv_size l / 8) ;;
         ok <- CAS pv NULL p ;;
         if negb ok then pool_free (lv_size_index l) p else Ret tt
       else Ret tt) ;;
      v <- load pv ;;
      set_levels ls' m (v, 8 * level_ix l m)
  end.

Definition pagemap_set (m v : Z) : prog mem unit :=
  pv <- set_levels level m (root, 0) ;;
  store pv v.
End code.

(** ** Pages and paths *)

(** The page of an address: its bits 10 to 47. *)
Definition page (a : Z) : Z := (a / 2 ^ 10) mod 2 ^ 38.
Definition path (a : Z) : list Z := (fun l => level_ix l a) <$> level.

Lemma path_eq a : 0 <= a -> path a = [(a / 2 ^ 35) mod 2 ^ 13; (a / 2 ^ 22) mod 2 ^ 13; (a / 2 ^ 10) mod 2 ^ 12].
Proof.
  intros Ha. unfold path, level_ix, shr. simpl. rewrite !Z.shiftr_div_pow2 by (vm_compute; discriminate).
  change (Z.shiftl 1 L3_MASK - 1) with (Z.ones 13). change (Z.shiftl 1 L2_MASK - 1) with (Z.ones 13).
  change (Z.shiftl 1 L1_MASK - 1) with (Z.ones 12). by rewrite !Z.land_ones by lia.
Qed.

Lemma page_digits a : page a = ((a / 2 ^ 35) mod 2 ^ 13) * 2 ^ 25 + ((a / 2 ^ 22) mod 2 ^ 13) * 2 ^ 12 + (a / 2 ^ 10) mod 2 ^ 12.
Proof.
  unfold page. change (2 ^ 38) with (2 ^ 12 * 2 ^ 26). rewrite Z.rem_mul_r, Z.div_div by done.
  change (2 ^ 10 * 2 ^ 12) with (2 ^ 22). change (2 ^ 26) with (2 ^ 13 * 2 ^ 13). rewrite Z.rem_mul_r, Z.div_div by done.
  change (2 ^ 22 * 2 ^ 13) with (2 ^ 35). lia.
Qed.

Lemma page_path a b : 0 <= a -> 0 <= b -> path a = path b <-> page a = page b.
Proof.
  intros Ha Hb. rewrite !path_eq, !page_digits by done.
  pose proof (Z.mod_pos_bound (a / 2 ^ 35) (2 ^ 13) eq_refl). pose proof (Z.mod_pos_bound (b / 2 ^ 35) (2 ^ 13) eq_refl).
  pose proof (Z.mod_pos_bound (a / 2 ^ 22) (2 ^ 13) eq_refl). pose proof (Z.mod_pos_bound (b / 2 ^ 22) (2 ^ 13) eq_refl).
  pose proof (Z.mod_pos_bound (a / 2 ^ 10) (2 ^ 12) eq_refl). pose proof (Z.mod_pos_bound (b / 2 ^ 10) (2 ^ 12) eq_refl).
  split; [intros [= -> -> ->]; done|]. intros E.
  assert ((a / 2 ^ 35) mod 2 ^ 13 = (b / 2 ^ 35) mod 2 ^ 13 /\ (a / 2 ^ 22) mod 2 ^ 13 = (b / 2 ^ 22) mod 2 ^ 13 /\
    (a / 2 ^ 10) mod 2 ^ 12 = (b / 2 ^ 10) mod 2 ^ 12) as (-> & -> & ->); [|done].
  generalize dependent ((a / 2 ^ 35) mod 2 ^ 13). generalize dependent ((b / 2 ^ 35) mod 2 ^ 13).
  generalize dependent ((a / 2 ^ 22) mod 2 ^ 13). generalize dependent ((b / 2 ^ 22) mod 2 ^ 13).
  generalize dependent ((a / 2 ^ 10) mod 2 ^ 12). generalize dependent ((b / 2 ^ 10) mod 2 ^ 12). intros. lia.
Qed.

(** ** The tree in memory

    [T] maps a path to the contents of its slot: below three steps the table of
    the next level, at three steps the value of a page. *)
Definition cell (T : gmap (list Z) Z) (p : list Z) : Z := default NULL (T !! p).

(** The words of the table that a path of length [k] leads to. *)
Definition words (k : nat) : Z := match k with O | 1%nat => 2 ^ 13 | _ => 2 ^ 12 end.

Section proofs.
Context `{HM : Malloc, HR : !MallocRoom}.
Variable root : Z.

Record pm_at (m : mem) (T : gmap (list Z) Z) : Prop := {
  pm_static : is_struct m root 8;
  pm_root : get m (root, 0) = Some (cell T []);
  pm_table : forall p a, T !! p = Some a -> (length p < 3)%nat -> a <> NULL /\ a <> root /\
    is_struct m a (8 * words (length p)) /\
    forall i, 0 <= i < words (length p) -> get m (a, 8 * i) = Some (cell T (p ++ [i]));
  pm_inj : forall p p' a, T !! p = Some a -> T !! p' = Some a -> (length p < 3)%nat -> (length p' < 3)%nat -> p = p';
  pm_up : forall p i, is_Some (T !! (p ++ [i])) -> is_Some (T !! p)
}.

(** The objects of the page map. *)
Definition pm_objs (T : gmap (list Z) Z) (b : Z) : Prop :=
  b = root \/ exists p, T !! p = Some b /\ (length p < 3)%nat.

(** The location of the slot of a path. *)
Definition slot (T : gmap (list Z) Z) (p : list Z) (l : loc) : Prop :=
  (p = [] /\ l = (root, 0)) \/
  exists p' i a, p = p' ++ [i] /\ T !! p' = Some a /\ l = (a, 8 * i) /\ (length p' < 3)%nat /\ 0 <= i < words (length p').

Lemma slot_get m T p l : pm_at m T -> slot T p l -> get m l = Some (cell T p).
Proof.
  intros HT [[-> ->]|(p' & i & a & -> & Ha & -> & Hl & Hi)]; [apply (pm_root _ _ HT)|]. by apply (pm_table _ _ HT p' a Ha Hl).
Qed.

(** Writing the slot of a path that leads nowhere yet, or of a page. *)
Lemma slot_write m T p l v : pm_at m T -> slot T p l -> (length p <= 3)%nat ->
  ((length p < 3)%nat -> T !! p = None /\ v <> NULL /\ ~ pm_objs T v /\ is_struct m v (8 * words (length p)) /\
     forall i, 0 <= i < words (length p) -> get m (v, 8 * i) = Some NULL) ->
  pm_at (upd m l v) (<[p := v]> T).
Proof.
  intros HT Hs Hp Hv. pose proof (pm_static _ _ HT) as Hroot.
  assert (Hl : live m l.1).
  { destruct Hs as [[-> ->]|(p' & i & a & -> & Ha & -> & Hl & Hi)]; simpl; [by eapply is_struct_live|].
    destruct (pm_table _ _ HT p' a Ha Hl) as (_ & _ & Hst & _). by eapply is_struct_live. }
  assert (Hobj : pm_objs T l.1).
  { destruct Hs as [[-> ->]|(p' & i & a & -> & Ha & -> & Hl' & Hi)]; [by left|right; eauto]. }
  assert (Hiff : forall p0 a i, T !! p0 = Some a -> (length p0 < 3)%nat -> (a, 8 * i) = l <-> p0 ++ [i] = p).
  { intros p0 a i Ha0 Hl0. destruct Hs as [[-> ->]|(p' & i' & a' & -> & Ha & -> & Hl' & Hi)].
    - split; [|by destruct p0]. intros [= -> _]. by destruct (pm_table _ _ HT p0 root Ha0 Hl0) as (_ & ? & _).
    - split.
      + intros [= -> Ei]. assert (i = i') as -> by lia. f_equal. by eapply pm_inj.
      + intros [-> [= ->]]%app_inj_tail. congruence. }
  assert (Hget : forall p0 a i, T !! p0 = Some a -> (length p0 < 3)%nat -> 0 <= i < words (length p0) ->
    get (upd m l v) (a, 8 * i) = Some (cell (<[p := v]> T) (p0 ++ [i]))).
  { intros p0 a i Ha Hl0 Hi. unfold cell. destruct (decide (p0 ++ [i] = p)) as [E|E].
    - rewrite E, lookup_insert_eq. apply (Hiff p0 a i Ha Hl0) in E as ->. by apply get_upd_eq.
    - rewrite lookup_insert_ne by done. rewrite get_upd_ne by (intros E'; by apply E, (Hiff p0 a i)).
      by apply (pm_table _ _ HT p0 a). }
  split; [by rewrite is_struct_upd|..].
  - unfold cell. destruct Hs as [[-> ->]|(p' & i & a & -> & Ha & -> & Hl' & Hi)].
    + rewrite lookup_insert_eq. by apply get_upd_eq.
    + rewrite lookup_insert_ne by (by destruct p'). destruct (pm_table _ _ HT p' a Ha Hl') as (_ & ? & _).
      rewrite get_upd_ne by congruence. apply (pm_root _ _ HT).
  - intros p0 a [[<- <-]|[Hne Ha]]%lookup_insert_Some Hl0.
    + destruct (Hv Hl0) as (HN & V1 & V2 & V3 & V4). split_and!; [done|by intros ->; apply V2; left|by rewrite is_struct_upd|].
      intros i Hi. rewrite get_upd_ne by (intros ->; by apply V2). rewrite V4 by done. unfold cell.
      rewrite lookup_insert_ne by (intros E; apply (f_equal length) in E; rewrite length_app in E; simpl in E; lia).
      destruct (T !! (p ++ [i])) eqn:E; [|done]. destruct (pm_up _ _ HT p i) as [? ?]; [by eexists|congruence].
    + destruct (pm_table _ _ HT p0 a Ha Hl0) as (A1 & A2 & A3 & _). split_and!; [done|done|by rewrite is_struct_upd|].
      intros i Hi. by apply Hget.
  - intros p1 p2 a [[<- <-]|[N1 H1]]%lookup_insert_Some [[<- E2]|[N2 H2]]%lookup_insert_Some L1 L2; [done|..].
    + destruct (Hv L1) as (_ & _ & V2 & _). destruct V2. right; eauto.
    + subst a. destruct (Hv L2) as (_ & _ & V2 & _). destruct V2. right; eauto.
    + by eapply pm_inj.
  - intros p1 i Hsome. destruct (decide (p1 = p)) as [->|Hne]; [rewrite lookup_insert_eq; by eexists|]. rewrite lookup_insert_ne by done.
    destruct (decide (p = p1 ++ [i])) as [E|E].
    + destruct Hs as [[-> _]|(p' & i' & a' & -> & Ha & _)]; [by destruct p1|]. apply app_inj_tail in E as [-> _]. by eexists.
    + rewrite lookup_insert_ne in Hsome by done. by eapply pm_up.
Qed.

Lemma pm_ext m m' T : pm_at m T -> (forall b, pm_objs T b -> m' !! b = m !! b) -> pm_at m' T.
Proof.
  intros [H0 H1 H2 H3 H4] E. assert (Er : m' !! root = m !! root) by (apply E; by left). split; auto.
  - by apply (is_struct_lookup m).
  - by rewrite (get_lookup_eq m).
  - intros p a Ha Hl. destruct (H2 p a Ha Hl) as (A1 & A2 & A3 & A4).
    assert (Ea : m' !! a = m !! a) by (apply E; right; eauto). split_and!; auto; [by apply (is_struct_lookup m)|].
    intros i Hi. rewrite (get_lookup_eq m) by done. auto.
Qed.

Lemma pm_none m T p r : pm_at m T -> T !! p = None -> T !! (p ++ r) = None.
Proof.
  intros HT Hp. induction r as [|i r IH] using rev_ind; [by rewrite app_nil_r|]. rewrite app_assoc.
  destruct (T !! ((p ++ r) ++ [i])) eqn:E; [|done]. destruct (pm_up _ _ HT (p ++ r) i) as [? ?]; [by eexists|congruence].
Qed.

Lemma level_split l0 l ls a : level = l0 ++ l :: ls -> (length l0 < 3)%nat /\ 0 <= level_ix l a < words (length l0) /\
  lv_size l = 8 * words (length l0) /\ pool_size (lv_size_index l) = lv_size l.
Proof.
  assert (Hix : forall n s z i, 0 <= n -> 0 <= level_ix (PLevel s (Z.ones n) z i) a < 2 ^ n).
  { intros n s z i Hn. unfold level_ix. simpl. rewrite Z.land_ones by done. apply Z.mod_pos_bound. lia. }
  destruct l0 as [|x0 [|x1 [|x2 l0]]]; simpl; intros E; injection E as; subst; try by destruct l0.
  - split; [lia|]. split; [apply (Hix 13); lia|done].
  - split; [lia|]. split; [apply (Hix 13); lia|done].
  - split; [lia|]. split; [apply (Hix 12); lia|done].
Qed.

Lemma get_levels_ok a m T ls l0 : pm_at m T -> level = l0 ++ ls ->
  tot (get_levels ls a (cell T ((fun l => level_ix l a) <$> l0))) m (fun r m' => r = cell T (path a) /\ m' = m).
Proof.
  intros HT. revert l0. induction ls as [|l ls IH]; intros l0 E; simpl.
  - apply tot_ret. rewrite app_nil_r in E. unfold path. by rewrite E.
  - destruct (level_split l0 l ls a E) as (Hl & Hi & _). set (p := _ <$> l0). assert (Hp : length p = length l0) by apply length_fmap.
    assert (Hpath : path a = p ++ level_ix l a :: ((fun l => level_ix l a) <$> ls)) by (unfold path; by rewrite E, fmap_app).
    destruct (T !! p) as [v|] eqn:Hv.
    + unfold cell at 1 2. rewrite Hv. simpl. destruct (pm_table _ _ HT p v Hv) as (N1 & _ & _ & N4); [lia|].
      rewrite (proj2 (Z.eqb_neq _ _) N1). apply tot_bind. rewrite <- Hp in Hi. apply (tot_load _ _ _ _ (N4 _ Hi)).
      specialize (IH (l0 ++ [l])). rewrite fmap_app in IH. apply IH. by rewrite <- app_assoc.
    + unfold cell at 1. rewrite Hv. simpl. apply tot_ret. split; [|done]. unfold cell. rewrite Hpath. by rewrite (pm_none m).
Qed.

Lemma pagemap_get_ok a m T : pm_at m T -> tot (pagemap_get root a) m (fun r m' => r = cell T (path a) /\ m' = m).
Proof.
  intros HT. apply tot_bind, (tot_load _ _ _ _ (pm_root _ _ HT)). by apply (get_levels_ok a m T level []).
Qed.

(** The objects that were there keep their contents; those added were free. *)
Definition pm_grows (m m' : mem) (T T' : gmap (list Z) Z) : Prop :=
  (forall b, pm_objs T b -> pm_objs T' b) /\ (forall b, pm_objs T' b -> pm_objs T b \/ m !! b = None) /\
  (forall b, ~ pm_objs T' b -> m' !! b = m !! b).

Lemma pm_objs_live m T b : pm_at m T -> pm_objs T b -> live m b.
Proof.
  intros HT [->|(p & Hp & Hl)]; [eapply is_struct_live, (pm_static _ _ HT)|].
  destruct (pm_table _ _ HT p b Hp Hl) as (_ & _ & Hs & _). by eapply is_struct_live.
Qed.

Lemma pm_grows_refl m T : pm_grows m m T T.
Proof. split_and!; auto. Qed.

Lemma words_range k : 0 < words k <= 2 ^ 13.
Proof. unfold words. destruct k as [|[|]]; lia. Qed.

Lemma new_table_ok m k n : mroom (S k) m -> 0 < n <= 2 ^ 13 ->
  tot (p <- POOL_ALLOC (8 * n) ;; hash_map.memset0 p n ;; Ret p) m (fun p m' => mroom k m' /\ p <> NULL /\ m !! p = None /\
    is_struct m' p (8 * n) /\ (forall i, 0 <= i < n -> get m' (p, 8 * i) = Some NULL) /\ forall b, b <> p -> m' !! b = m !! b).
Proof.
  intros Hk Hn. destruct (Z_of_nat_complete n) as [N ->]; [lia|].
  apply tot_bind. eapply tot_mono; [apply (pool_alloc_ok m (8 * Z.of_nat N) k Hk); unfold M32; lia|].
  intros p m1 (-> & H1 & H2 & H3). apply tot_bind.
  assert (Hs : is_struct (<[p:=Obj (8 * Z.of_nat N) ∅]> m) p (8 * Z.of_nat N)).
  { split; [done|]. exists (Obj (8 * Z.of_nat N) ∅). by rewrite lookup_insert_eq. }
  eapply tot_mono; [apply (memset0_ok _ p N k Hs H3)|].
  intros _ m2 (R1 & [R2 R3] & R4). apply tot_ret. rewrite length_replicate in R2. split_and!; auto.
  - intros i Hi. specialize (R3 (Z.to_nat i) NULL). rewrite Z2Nat.id in R3 by lia. apply R3, lookup_replicate. lia.
  - intros b Hb. rewrite R4 by done. by apply lookup_insert_ne.
Qed.

Lemma set_step k a m T l0 l ls pv : pm_at m T -> level = l0 ++ l :: ls -> mroom (S k) m ->
  let p := (fun l => level_ix l a) <$> l0 in slot T p pv ->
  tot (v <- load pv ;;
       if v =? NULL then
         p <- pool_alloc (lv_size_index l) ;;
         hash_map.memset0 p (lv_size l / 8) ;;
         ok <- CAS pv NULL p ;;
         if negb ok then pool_free (lv_size_index l) p else Ret tt
       else Ret tt) m
    (fun _ m' => mroom k m' /\ exists T', pm_at m' T' /\ is_Some (T' !! p) /\ pm_grows m m' T T' /\ slot T' p pv /\
       forall q, length q = 3%nat -> cell T' q = cell T q).
Proof.
  intros HT E Hk p Hs. destruct (level_split l0 l ls a E) as (Hl & _ & Hsz & Hix).
  assert (Hp : length p = length l0) by apply length_fmap.
  apply tot_bind, (tot_load _ _ _ _ (slot_get _ _ _ _ HT Hs)). unfold cell. destruct (T !! p) as [v|] eqn:Hv; simpl.
  { destruct (pm_table _ _ HT p v Hv) as (N1 & _); [lia|]. rewrite (proj2 (Z.eqb_neq _ _) N1). apply tot_ret.
    split; [eapply mroom_mono; [exact Hk|lia]|]. exists T. split_and!; auto using pm_grows_refl. }
  unfold pool_alloc. rewrite Hix, Hsz. replace (8 * words (length l0) / 8) with (words (length l0)) by (rewrite Z.mul_comm; by rewrite Z.div_mul).
  pose proof (tot_bind_inv _ _ _ _ (new_table_ok m k (words (length l0)) Hk (words_range _))) as HN.
  apply tot_bind. eapply tot_mono; [exact HN|]. clear HN. intros b m1 HN%tot_bind_inv. apply tot_bind.
  eapply tot_mono; [exact HN|]. clear HN. intros _ m2 (R1 & R2 & R3 & R4 & R5 & R6).
  assert (Hnb : ~ pm_objs T b) by (intros Hb; destruct (pm_objs_live m T b HT Hb) as [o Ho]; congruence).
  assert (HT2 : pm_at m2 T) by (apply (pm_ext m); [done|]; intros b' Hb'; apply R6; congruence).
  assert (Hcur : get m2 pv = Some NULL) by (rewrite (slot_get _ _ _ _ HT2 Hs); unfold cell; by rewrite Hv).
  apply tot_bind, tot_CAS_true; [exact Hcur|]. simpl. apply tot_ret. split; [by apply mroom_upd|].
  assert (Hpv : pm_objs T pv.1).
  { destruct Hs as [[_ ->]|(p' & i & a' & _ & Ha & -> & Hl' & _)]; [by left|right; eauto]. }
  exists (<[p := b]> T). split_and!.
  - apply slot_write; auto; [lia|]. intros _. rewrite Hp. auto.
  - rewrite lookup_insert_eq. by eexists.
  - split_and!.
    + intros b' [->|(q & Hq & Hlq)]; [by left|]. right. exists q. split; [|done]. rewrite lookup_insert_ne; [done|congruence].
    + intros b' [->|(q & [[<- <-]|[_ Hq]]%lookup_insert_Some & Hlq)]; [by left; left|by right|left; right; eauto].
    + intros b' Hb'. rewrite lookup_upd_ne by (intros ->; apply Hb'; destruct Hpv as [->|(q & Hq & Hlq)];
        [by left|right; exists q; split; [|done]; rewrite lookup_insert_ne; [done|congruence]]).
      apply R6. intros ->. apply Hb'. right. exists p. rewrite lookup_insert_eq. split; [done|lia].
  - destruct Hs as [?|(p' & i & a' & Ep & Ha & Epv & Hl' & Hi)]; [by left|right]. exists p', i, a'. split_and!; try done; try lia.
    rewrite lookup_insert_ne; [done|]. intros E'. rewrite Ep in E'. apply (f_equal length) in E'. rewrite length_app in E'. simpl in E'. lia.
  - intros q Hq. unfold cell. rewrite lookup_insert_ne; [done|]. intros E'. rewrite E' in Hp. lia.
Qed.

Lemma pm_grows_trans m m1 m2 T T1 T2 : pm_at m1 T1 -> pm_grows m m1 T T1 -> pm_grows m1 m2 T1 T2 -> pm_grows m m2 T T2.
Proof.
  intros HT (A1 & A2 & A3) (B1 & B2 & B3). split_and!; auto.
  - intros b Hb. destruct (B2 b Hb) as [?|Hn]; [auto|]. right. rewrite <- A3; [done|].
    intros Ho. destruct (pm_objs_live m1 T1 b HT Ho). congruence.
  - intros b Hb. rewrite B3 by done. auto.
Qed.

Lemma set_levels_ok a ls : forall l0 k m T pv, pm_at m T -> level = l0 ++ ls -> mroom (length ls + k) m ->
  slot T ((fun l => level_ix l a) <$> l0) pv ->
  tot (set_levels ls a pv) m (fun pv' m' => mroom k m' /\ exists T', pm_at m' T' /\ pm_grows m m' T T' /\ slot T' (path a) pv' /\
    forall q, length q = 3%nat -> cell T' q = cell T q).
Proof.
  induction ls as [|l ls IH]; intros l0 k m T pv HT E Hk Hs; simpl.
  - apply tot_ret. split; [done|]. exists T. rewrite app_nil_r in E. unfold path. rewrite E. auto using pm_grows_refl.
  - pose proof (tot_bind_inv _ _ _ _ (set_step (length ls + k) a m T l0 l ls pv HT E Hk Hs)) as H1.
    apply tot_bind. eapply tot_mono; [exact H1|]. clear H1. intros v m1 H1. apply tot_bind. eapply tot_mono; [exact H1|].
    clear H1 v m1. intros _ m1 (R & T1 & HT1 & [v Hv] & G1 & S1 & C1).
    destruct (level_split l0 l ls a E) as (Hl & Hi & _). set (p := _ <$> l0) in *. assert (Hp : length p = length l0) by apply length_fmap.
    apply tot_bind, (tot_load _ _ _ _ (slot_get _ _ _ _ HT1 S1)). unfold cell at 1. rewrite Hv. simpl.
    eapply tot_mono; [apply (IH (l0 ++ [l]) k m1 T1); [done|by rewrite <- app_assoc|done|]|].
    + right. exists p, (level_ix l a), v. rewrite fmap_app. split_and!; try done; try lia. rewrite Hp. tauto.
    + intros pv' m2 (R2 & T2 & HT2 & G2 & S2 & C2). split; [done|]. exists T2. split_and!; auto.
      * by apply (pm_grows_trans m m1 m2 T T1).
      * intros q Hq. rewrite C2 by done. auto.
Qed.

Lemma path_length a : length (path a) = 3%nat.
Proof. done. Qed.

Lemma pagemap_set_ok k a v m T : pm_at m T -> mroom (3 + k) m ->
  tot (pagemap_set root a v) m (fun _ m' => mroom k m' /\ exists T', pm_at m' T' /\ pm_grows m m' T T' /\
    forall q, length q = 3%nat -> cell T' q = if decide (q = path a) then v else cell T q).
Proof.
  intros HT Hk. apply tot_bind. eapply tot_mono; [apply (set_levels_ok a level [] k m T (root, 0) HT eq_refl Hk); by left|].
  intros pv m1 (R1 & T1 & HT1 & G1 & S1 & C1). pose proof (slot_get _ _ _ _ HT1 S1) as Hg.
  assert (Hpv : pm_objs T1 pv.1 /\ inb m1 pv = true).
  { destruct S1 as [[? _]|(p' & i & a' & E & Ha & -> & Hl & Hi)]; [done|]. split; [right; eauto|].
    destruct (pm_table _ _ HT1 p' a' Ha Hl) as (_ & _ & Hst & _). eapply is_struct_inb; [exact Hst|lia]. }
  destruct Hpv as [Hpv Hin]. apply tot_store; [exact Hin|]. split; [by apply mroom_upd|]. exists (<[path a := v]> T1).
  assert (Hobj : forall b, pm_objs (<[path a := v]> T1) b <-> pm_objs T1 b).
  { intros b. unfold pm_objs. split; (intros [->|(q & Hq & Hlq)]; [by left|right; exists q; split; [|done]]).
    - apply lookup_insert_Some in Hq as [[<- _]|[_ ?]]; [rewrite path_length in Hlq; lia|done].
    - rewrite lookup_insert_ne; [done|]. intros <-. rewrite path_length in Hlq. lia. }
  split_and!.
  - apply slot_write; auto; rewrite path_length; lia.
  - apply (pm_grows_trans m m1 _ T T1); [done|done|]. split_and!; [by intros b ?%Hobj|by intros b ?%Hobj; left|].
    intros b Hb. apply lookup_upd_ne. intros ->. by apply Hb, Hobj.
  - intros q Hq. unfold cell at 1. case_decide as Hqa; [by rewrite Hqa, lookup_insert_eq|]. rewrite lookup_insert_ne by done. by apply C1.
Qed.

(** ** The map of pages *)
Definition pages_at (m : mem) (f : Z -> Z) : Prop :=
  exists T, pm_at m T /\ forall a, 0 <= a -> cell T (path a) = f (page a).

Inductive pm_call : Set := PSet (a v : Z) | PGet (a : Z).
Definition pm_addr (c : pm_call) : Z := match c with PSet a _ => a | PGet a => a end.

Definition pm_run (c : pm_call) : prog mem Z :=
  match c with
  | PSet a v => pagemap_set root a v ;; Ret NULL
  | PGet a => pagemap_get root a
  end.

(** The abstract map: a value per page, NULL where nothing was set. *)
Definition pm_step (c : pm_call) (f : Z -> Z) : Z * (Z -> Z) :=
  match c with
  | PSet a v => (NULL, fun n => if n =? page a then v else f n)
  | PGet a => (f (page a), f)
  end.

Fixpoint pm_steps (cs : list pm_call) (f : Z -> Z) : list Z * (Z -> Z) :=
  match cs with
  | [] => ([], f)
  | c :: cs' => let r := pm_step c f in let rs := pm_steps cs' r.2 in (r.1 :: rs.1, rs.2)
  end.

Lemma pm_call_ok c m f k : pages_at m f -> 0 <= pm_addr c -> mroom (3 + k) m ->
  tot (pm_run c) m (fun r m' => r = (pm_step c f).1 /\ pages_at m' (pm_step c f).2 /\ mroom k m').
Proof.
  intros (T & HT & Hf) Ha Hk. destruct c as [a v|a]; simpl in *.
  - apply tot_bind. eapply tot_mono; [by apply (pagemap_set_ok k)|]. intros _ m' (R & T' & HT' & _ & C). apply tot_ret.
    split_and!; auto. exists T'. split; [done|]. intros b Hb. rewrite C by done.
    destruct (Z.eqb_spec (page b) (page a)) as [E|E]; [rewrite decide_True; [done|by apply page_path]|].
    rewrite decide_False; [auto|]. intros E'. by apply E, page_path.
  - eapply tot_mono; [by apply pagemap_get_ok|]. intros r m' [-> ->]. split_and!; [auto|by exists T|eapply mroom_mono; [exact Hk|lia]].
Qed.

Lemma pm_calls_ok cs : forall m f, pages_at m f -> Forall (fun c => 0 <= pm_addr c) cs -> mroom (3 * length cs) m ->
  tot (op_client pm_run cs) m (fun rs m' => rs = (pm_steps cs f).1 /\ pages_at m' (pm_steps cs f).2).
Proof.
  induction cs as [|c cs IH]; intros m f Hf Ha Hk; cbn [op_client]; [by apply tot_ret|]. apply Forall_cons in Ha as [Hc Ha].
  apply tot_bind. eapply tot_mono; [apply (pm_call_ok c m f (3 * length cs) Hf Hc); eapply mroom_mono; [exact Hk|simpl; lia]|].
  intros r m1 (-> & H1 & H2). apply tot_bind. eapply tot_mono; [exact (IH m1 _ H1 Ha H2)|].
  intros rs m2 [-> H3]. by apply tot_ret.
Qed.

(** C18: The page map is a finite map from the pages of the 48-bit address space: every
    sequence of [pagemap_set] and [pagemap_get], from the zero of the static
    [root] on, runs without an error, a get answers what was set last for an
    address of the same page (bits 10 to 47) and NULL if nothing was. *)
Theorem pagemap_refines_map cs m : is_struct m root 8 -> get m (root, 0) = Some NULL ->
  Forall (fun c => 0 <= pm_addr c) cs -> mroom (3 * length cs) m ->
  tot (op_client pm_run cs) m (fun rs m' => rs = (pm_steps cs (fun _ => NULL)).1 /\ pages_at m' (pm_steps cs (fun _ => NULL)).2).
Proof.
  intros Hs Hr. apply pm_calls_ok. exists ∅. split; [|done]. split; auto; done.
Qed.
End proofs.

(** Three pages, two of them in one table; an address inside a page. *)
Definition pm_demo : list pm_call := [PSet 0x7f0000000400 16; PSet 0x7f0000000800 32; PGet 0x7f00000007ff; PGet 0x400; PSet 0x7f0000000400 NULL; PGet 0x7f0000000400; PGet 0x7f0000000bff].

Lemma pagemap_refines_map_witness : let m := {[ 64 := Obj 8 {[ 0 := NULL ]} ]} : mem in
  (is_struct m 64 8 /\ get m (64, 0) = Some NULL /\ Forall (fun c => 0 <= pm_addr c) pm_demo) /\
  tot (op_client (pm_run 64) pm_demo) m (fun rs m' => rs = [NULL; NULL; 16; NULL; NULL; NULL; 32] /\
    pages_at 64 m' (pm_steps pm_demo (fun _ => NULL)).2).
Proof.
  intros m. assert (H : is_struct m 64 8 /\ get m (64, 0) = Some NULL /\ Forall (fun c => 0 <= pm_addr c) pm_demo).
  { split_and!; [split; [done|]; by eexists|done|]. repeat constructor; simpl; lia. }
  split; [exact H|]. destruct H as (H1 & H2 & H3).
  exact (pagemap_refines_map (HR := bump_room_laws) 64 pm_demo m H1 H2 H3
    ltac:(unfold mroom, bump_room_laws, bump_room; vm_compute; discriminate)).
Defined.
