(* ===== verification/Heap.v ===== *)
(** * The heap of an actor (mem/heap.c)

    Objects of up to [HEAP_MAX] bytes are slots of blocks of one page; a block has
    a descriptor, its chunk, with a bit per slot that is set where the slot is
    free.  Larger objects have a block and a chunk of their own.  Collection
    clears the bits of what is marked and gives the rest back. *)
From S2P Require Export Fun Pagemap.
Import ds_fun pool.

(** [struct chunk_t], [struct heap_t] *)
Abbreviation C_ACTOR := 0 (only parsing).
Abbreviation C_M := 8 (only parsing).
Abbreviation C_SIZE := 16 (only parsing).
Abbreviation C_SLOTS := 24 (only parsing).
Abbreviation C_SHALLOW := 28 (only parsing).
Abbreviation C_NEXT := 32 (only parsing).
Definition sizeof_chunk_t : Z := 40.
Abbreviation H_FREE := 0 (only parsing).
Abbreviation H_FULL := 40 (only parsing).
Abbreviation H_LARGE := 80 (only parsing).
Abbreviation H_USED := 88 (only parsing).
Abbreviation H_NEXT_GC := 96 (only parsing).
Definition sizeof_heap_t : Z := 104.

Module heap.
Definition HEAP_MINBITS : Z := 5.
Definition HEAP_MAXBITS : Z := POOL_ALIGN_BITS - 1.
Definition HEAP_SIZECLASSES : Z := HEAP_MAXBITS - HEAP_MINBITS + 1.
Definition HEAP_MIN : Z := Z.shiftl 1 HEAP_MINBITS.
Definition HEAP_MAX : Z := Z.shiftl 1 HEAP_MAXBITS.
Definition sizeof_block_t : Z := POOL_ALIGN.

Definition SIZECLASS_SIZE (sizeclass : Z) : Z := Z.shiftl HEAP_MIN sizeclass.
Definition SIZECLASS_MASK (sizeclass : Z) : Z := not64 (SIZECLASS_SIZE sizeclass - 1).
Definition EXTERNAL_PTR (p sizeclass : Z) : Z := Z.land p (SIZECLASS_MASK sizeclass).
Definition FIND_SLOT (ext base : Z) : Z := u32 (Z.shiftl 1 (shr (u64 (ext - base)) HEAP_MINBITS)).

Definition sizeclass_empty : list Z := [0xFFFFFFFF; 0x55555555; 0x11111111; 0x01010101; 0x00010001].
Definition sizeclass_init : list Z := [0xFFFFFFFE; 0x55555554; 0x11111110; 0x01010100; 0x00010000].
Definition sizeclass_table : list Z := [0; 1; 2; 2; 3; 3; 3; 3; 4; 4; 4; 4; 4; 4; 4; 4].
Definition entry (table : list Z) (i : Z) : Z := nth (Z.to_nat i) table 0.

(** The complement of a [uint32_t], the lowest bit set and the number of bits set. *)
Definition not32 (x : Z) : Z := u32 (-1 - x).
Definition popcount (x : Z) : Z := Z.of_nat (length (filter (fun i => Z.testbit x (Z.of_nat i) = true) (seq 0 32))).

(** [memcpy] between blocks: the words initialised in the range are copied, the
    others are uninitialised in the copy. *)
Definition block_of (m : mem) (p n : Z) : option Z :=
  fst <$> List.find (fun e => (e.1 <=? p) && (p + n <=? e.1 + osize e.2)) (map_to_list m).

Definition copy_range (src dst : obj) (s d n : Z) : obj :=
  Obj (osize dst)
    (kmap (fun f => f - s + d) (filter (fun e => s <= e.1 < s + n) (ofields src)) ∪
     filter (fun e => ~ (d <= e.1 < d + n)) (ofields dst)).

Definition memcpy (q p n : Z) : prog mem unit :=
  act (fun m =>
    match block_of m p n, block_of m q n with
    | Some b, Some b' =>
        match m !! b, m !! b' with
        | Some o, Some o' => Ok (tt, <[b' := copy_range o o' (p - b) (q - b') n]> m)
        | _, _ => Err EAccess
        end
    | _, _ => Err EAccess
    end).

Section code.
Context `{!Malloc}.
(** The static variables [root] of the page map and [heap_initialgc]; the product
    with [heap_nextgc_factor], a double. *)
Variables (root initialgc : Z) (nextgc : Z -> Z) (fuel : nat).

Definition large_pagemap (m size chunk : Z) : prog mem unit :=
  let end_ := u64 (m + size) in
  loop fuel (fun m =>
    if m <? end_ then
      pagemap_set root m chunk ;;
      continue (u64 (m + POOL_ALIGN))
    else break tt) m.

Definition clear_small (chunk : Z) : prog mem unit :=
  size <- load (chunk, C_SIZE) ;;
  store (chunk, C_SLOTS) (entry sizeclass_empty size) ;;
  slots <- load (chunk, C_SLOTS) ;;
  store (chunk, C_SHALLOW) slots.

Definition clear_large (chunk : Z) : prog mem unit :=
  store (chunk, C_SLOTS) 1 ;;
  store (chunk, C_SHALLOW) 1.

Definition destroy_small (chunk : Z) : prog mem unit :=
  m <- load (chunk, C_M) ;;
  pagemap_set root m NULL ;;
  m <- load (chunk, C_M) ;;
  POOL_FREE m ;;
  POOL_FREE chunk.

Definition pool_free_size (size p : Z) : prog mem unit := POOL_FREE p.
Definition pool_alloc_size (size : Z) : prog mem Z := POOL_ALLOC size.

Definition destroy_large (chunk : Z) : prog mem unit :=
  m <- load (chunk, C_M) ;;
  size <- load (chunk, C_SIZE) ;;
  large_pagemap m size NULL ;;
  m <- load (chunk, C_M) ;;
  (if negb (m =? NULL) then
     size <- load (chunk, C_SIZE) ;;
     pool_free_size size m
   else Ret tt) ;;
  POOL_FREE chunk.

Definition sweep_small (chunk : Z) (avail full : loc) (empty : Z) : prog mem Z :=
  loop fuel (fun '(chunk, used) =>
    if chunk =? NULL then break used
    else
      next <- load (chunk, C_NEXT) ;;
      slots <- load (chunk, C_SLOTS) ;;
      shallow <- load (chunk, C_SHALLOW) ;;
      store (chunk, C_SLOTS) (Z.land slots shallow) ;;
      slots <- load (chunk, C_SLOTS) ;;
      if slots =? 0 then
        f <- load full ;;
        store (chunk, C_NEXT) f ;;
        store full chunk ;;
        continue (next, u64 (used + sizeof_block_t))
      else if slots =? empty then
        destroy_small chunk ;;
        continue (next, used)
      else
        size <- load (chunk, C_SIZE) ;;
        a <- load avail ;;
        store (chunk, C_NEXT) a ;;
        store avail chunk ;;
        continue (next, u64 (used + u64 (sizeof_block_t - popcount slots * SIZECLASS_SIZE size))))
    (chunk, 0).

(** [*used] is threaded through. *)
Definition sweep_large (chunk used : Z) : prog mem (Z * Z) :=
  loop fuel (fun '(chunk, list, used) =>
    if chunk =? NULL then break (list, used)
    else
      next <- load (chunk, C_NEXT) ;;
      slots <- load (chunk, C_SLOTS) ;;
      shallow <- load (chunk, C_SHALLOW) ;;
      store (chunk, C_SLOTS) (Z.land slots shallow) ;;
      slots <- load (chunk, C_SLOTS) ;;
      if slots =? 0 then
        store (chunk, C_NEXT) list ;;
        size <- load (chunk, C_SIZE) ;;
        continue (next, chunk, u64 (used + size))
      else
        destroy_large chunk ;;
        continue (next, list, used))
    (chunk, NULL, used).

Definition chunk_list (f : Z -> prog mem unit) (current : Z) : prog mem unit :=
  loop fuel (fun current =>
    if current =? NULL then break tt
    else
      next <- load (current, C_NEXT) ;;
      f current ;;
      continue next) current.

(** An index outside the table is an error. *)
Definition heap_index (size : Z) : prog mem Z :=
  let i := shr (u64 (size - 1)) HEAP_MINBITS in
  if i <? Z.of_nat (length sizeclass_table) then Ret (entry sizeclass_table i) else Stop EAccess.

Definition heap_setinitialgc (size : Z) : prog mem unit := store (initialgc, 0) (shl 1 size).

Definition heap_init (heap : Z) : prog mem unit :=
  hash_map.memset0 heap (sizeof_heap_t / 8) ;;
  g <- load (initialgc, 0) ;;
  store (heap, H_NEXT_GC) g.

Definition heap_destroy (heap : Z) : prog mem unit :=
  large <- load (heap, H_LARGE) ;;
  chunk_list destroy_large large ;;
  forz (Z.to_nat HEAP_SIZECLASSES) 0 (fun i =>
    c <- load (heap, H_FREE + 8 * i) ;;
    chunk_list destroy_small c ;;
    c <- load (heap, H_FULL + 8 * i) ;;
    chunk_list destroy_small c).

Definition heap_alloc_small (actor heap sizeclass : Z) : prog mem Z :=
  chunk <- load (heap, H_FREE + 8 * sizeclass) ;;
  m <- (if negb (chunk =? NULL) then
          slots <- load (chunk, C_SLOTS) ;;
          let bit := ffsl slots - 1 in
          let slots := Z.land slots (not32 (Z.shiftl 1 bit)) in
          base <- load (chunk, C_M) ;;
          let m := u64 (base + Z.shiftl bit HEAP_MINBITS) in
          store (chunk, C_SLOTS) slots ;;
          (if slots =? 0 then
             next <- load (chunk, C_NEXT) ;;
             store (heap, H_FREE + 8 * sizeclass) next ;;
             full <- load (heap, H_FULL + 8 * sizeclass) ;;
             store (chunk, C_NEXT) full ;;
             store (heap, H_FULL + 8 * sizeclass) chunk
           else Ret tt) ;;
          Ret m
        else
          n <- POOL_ALLOC sizeof_chunk_t ;;
          store (n, C_ACTOR) actor ;;
          b <- POOL_ALLOC sizeof_block_t ;;
          store (n, C_M) b ;;
          store (n, C_SIZE) sizeclass ;;
          store (n, C_SLOTS) (entry sizeclass_init sizeclass) ;;
          store (n, C_SHALLOW) (entry sizeclass_init sizeclass) ;;
          store (n, C_NEXT) NULL ;;
          b <- load (n, C_M) ;;
          pagemap_set root b n ;;
          store (heap, H_FREE + 8 * sizeclass) n ;;
          load (n, C_M)) ;;
  used <- load (heap, H_USED) ;;
  store (heap, H_USED) (u64 (used + SIZECLASS_SIZE sizeclass)) ;;
  Ret m.

Definition heap_alloc_large (actor heap size : Z) : prog mem Z :=
  let size := pool_adjust_size size in
  chunk <- POOL_ALLOC sizeof_chunk_t ;;
  store (chunk, C_ACTOR) actor ;;
  store (chunk, C_SIZE) size ;;
  m <- pool_alloc_size size ;;
  store (chunk, C_M) m ;;
  store (chunk, C_SLOTS) 0 ;;
  store (chunk, C_SHALLOW) 0 ;;
  m <- load (chunk, C_M) ;;
  large_pagemap m size chunk ;;
  large <- load (heap, H_LARGE) ;;
  store (chunk, C_NEXT) large ;;
  store (heap, H_LARGE) chunk ;;
  used <- load (heap, H_USED) ;;
  s <- load (chunk, C_SIZE) ;;
  store (heap, H_USED) (u64 (used + s)) ;;
  load (chunk, C_M).

Definition heap_alloc (actor heap size : Z) : prog mem Z :=
  if size =? 0 then Ret NULL
  else if size <=? HEAP_MAX then
    sizeclass <- heap_index size ;;
    heap_alloc_small actor heap sizeclass
  else heap_alloc_large actor heap size.

Definition heap_realloc (actor heap p size : Z) : prog mem Z :=
  if p =? NULL then heap_alloc actor heap size
  else
    chunk <- pagemap_get root p ;;
    if chunk =? NULL then
      q <- heap_alloc actor heap size ;;
      memcpy q p size ;;
      Ret q
    else
      csize <- load (chunk, C_SIZE) ;;
      if csize <? HEAP_SIZECLASSES then
        fits <- (if size <=? HEAP_MAX then
                   sizeclass <- heap_index size ;;
                   Ret (sizeclass <=? csize)
                 else Ret false) ;;
        if fits : bool then Ret p
        else
          q <- heap_alloc actor heap size ;;
          memcpy q p (SIZECLASS_SIZE csize) ;;
          Ret q
      else if size <=? csize then Ret p
      else
        q <- heap_alloc actor heap size ;;
        memcpy q p csize ;;
        Ret q.

Definition heap_used (heap size : Z) : prog mem unit :=
  used <- load (heap, H_USED) ;;
  store (heap, H_USED) (u64 (used + size)).

Definition heap_startgc (heap : Z) : prog mem bool :=
  used <- load (heap, H_USED) ;;
  next_gc <- load (heap, H_NEXT_GC) ;;
  if used <=? next_gc then Ret false
  else
    forz (Z.to_nat HEAP_SIZECLASSES) 0 (fun i =>
      c <- load (heap, H_FREE + 8 * i) ;;
      chunk_list clear_small c ;;
      c <- load (heap, H_FULL + 8 * i) ;;
      chunk_list clear_small c) ;;
    large <- load (heap, H_LARGE) ;;
    chunk_list clear_large large ;;
    store (heap, H_USED) 0 ;;
    Ret true.

Definition heap_mark (chunk p : Z) : prog mem bool :=
  size <- load (chunk, C_SIZE) ;;
  if HEAP_SIZECLASSES <=? size then
    slots <- load (chunk, C_SLOTS) ;;
    let marked := slots =? 0 in
    m <- load (chunk, C_M) ;;
    (if p =? m then store (chunk, C_SLOTS) 0 else store (chunk, C_SHALLOW) 0) ;;
    Ret marked
  else
    let ext := EXTERNAL_PTR p size in
    m <- load (chunk, C_M) ;;
    let slot := FIND_SLOT ext m in
    slots <- load (chunk, C_SLOTS) ;;
    let marked := Z.land slots slot =? 0 in
    (if p =? ext then
       slots <- load (chunk, C_SLOTS) ;;
       store (chunk, C_SLOTS) (Z.land slots (not32 slot))
     else
       shallow <- load (chunk, C_SHALLOW) ;;
       store (chunk, C_SHALLOW) (Z.land shallow (not32 slot))) ;;
    Ret marked.

Definition heap_mark_shallow (chunk p : Z) : prog mem unit :=
  size <- load (chunk, C_SIZE) ;;
  if HEAP_SIZECLASSES <=? size then store (chunk, C_SHALLOW) 0
  else
    let ext := EXTERNAL_PTR p size in
    m <- load (chunk, C_M) ;;
    let slot := FIND_SLOT ext m in
    shallow <- load (chunk, C_SHALLOW) ;;
    store (chunk, C_SHALLOW) (Z.land shallow (not32 slot)).

Definition heap_ismarked (chunk p : Z) : prog mem bool :=
  size <- load (chunk, C_SIZE) ;;
  if HEAP_SIZECLASSES <=? size then
    slots <- load (chunk, C_SLOTS) ;;
    shallow <- load (chunk, C_SHALLOW) ;;
    Ret (Z.land slots shallow =? 0)
  else
    m <- load (chunk, C_M) ;;
    let slot := FIND_SLOT p m in
    slots <- load (chunk, C_SLOTS) ;;
    shallow <- load (chunk, C_SHALLOW) ;;
    Ret (Z.land (Z.land slots shallow) slot =? 0).

Definition heap_free (chunk p : Z) : prog mem unit :=
  size <- load (chunk, C_SIZE) ;;
  if HEAP_SIZECLASSES <=? size then
    m <- load (chunk, C_M) ;;
    if p =? m then
      size <- load (chunk, C_SIZE) ;;
      m <- load (chunk, C_M) ;;
      pool_free_size size m ;;
      store (chunk, C_M) NULL ;;
      store (chunk, C_SLOTS) 1
    else Ret tt
  else
    let ext := EXTERNAL_PTR p size in
    if p =? ext then
      m <- load (chunk, C_M) ;;
      let slot := FIND_SLOT ext m in
      slots <- load (chunk, C_SLOTS) ;;
      store (chunk, C_SLOTS) (Z.lor slots slot)
    else Ret tt.

Definition heap_endgc (heap : Z) : prog mem unit :=
  used <- loop (S (Z.to_nat HEAP_SIZECLASSES)) (fun '(i, used) =>
    if i <? HEAP_SIZECLASSES then
      list1 <- load (heap, H_FREE + 8 * i) ;;
      list2 <- load (heap, H_FULL + 8 * i) ;;
      store (heap, H_FREE + 8 * i) NULL ;;
      store (heap, H_FULL + 8 * i) NULL ;;
      u1 <- sweep_small list1 (heap, H_FREE + 8 * i) (heap, H_FULL + 8 * i) (entry sizeclass_empty i) ;;
      u2 <- sweep_small list2 (heap, H_FREE + 8 * i) (heap, H_FULL + 8 * i) (entry sizeclass_empty i) ;;
      continue (i + 1, u64 (u64 (used + u1) + u2))
    else break used) (0, 0) ;;
  large <- load (heap, H_LARGE) ;;
  r <- sweep_large large used ;;
  store (heap, H_LARGE) r.1 ;;
  u <- load (heap, H_USED) ;;
  store (heap, H_USED) (u64 (u + r.2)) ;;
  u <- load (heap, H_USED) ;;
  store (heap, H_NEXT_GC) (nextgc u) ;;
  n <- load (heap, H_NEXT_GC) ;;
  g <- load (initialgc, 0) ;;
  if n <? g then
    g <- load (initialgc, 0) ;;
    store (heap, H_NEXT_GC) g
  else Ret tt.

Definition heap_owner (chunk : Z) : prog mem Z := load (chunk, C_ACTOR).

Definition heap_size (chunk : Z) : prog mem Z :=
  size <- load (chunk, C_SIZE) ;;
  if HEAP_SIZECLASSES <=? size then load (chunk, C_SIZE)
  else
    size <- load (chunk, C_SIZE) ;;
    Ret (SIZECLASS_SIZE size).
End code.
End heap.
