(* ===== verification/HeapInv.v ===== *)
(** * The heap in memory: its invariant (mem/heap.c) *)
From S2P Require Export Fun Heap.
Import ds_fun pool heap.

(** What the heap asks of the pools beyond [Malloc]: blocks of whole pages are
    aligned to pages, lie in the 48-bit address space and overlap no live object. *)
Class PagePool `{Malloc} := {
  page_aligned : forall m sz, sz mod POOL_ALIGN = 0 -> malloc_addr m sz mod POOL_ALIGN = 0;
  page_48 : forall m sz, malloc_addr m sz <> NULL -> malloc_addr m sz + sz <= 2 ^ 48;
  page_apart : forall m sz b o, malloc_addr m sz <> NULL -> m !! b = Some o ->
    malloc_addr m sz + sz <= b \/ b + osize o <= malloc_addr m sz
}.

(** A chunk without its list. *)
Record chunk : Set := Ch { c_m : Z; c_size : Z; c_slots : Z; c_shallow : Z }.

Definition small (c : chunk) : bool := c_size c <? HEAP_SIZECLASSES.
Definition bytes (c : chunk) : Z := if small c then sizeof_block_t else c_size c.

(** The pages of a chunk. *)
Definition owns (c : chunk) (n : Z) : Prop := c_m c <= POOL_ALIGN * n < c_m c + bytes c.

Definition bits_ok (sc s : Z) : Prop := 0 <= s /\ Z.land s (entry sizeclass_empty sc) = s.

(** The class of a chunk: its size class, or [HEAP_SIZECLASSES] when it is large. *)
Definition cls_ok (cls : Z) (c : chunk) : Prop :=
  (0 <= cls < HEAP_SIZECLASSES /\ c_size c = cls /\ bits_ok cls (c_slots c) /\ bits_ok cls (c_shallow c)) \/
  (cls = HEAP_SIZECLASSES /\ HEAP_MAX < c_size c /\ c_size c mod POOL_ALIGN = 0 /\ 0 <= c_slots c /\ 0 <= c_shallow c).

Definition block_ok (c : chunk) : Prop :=
  0 < c_m c /\ c_m c mod POOL_ALIGN = 0 /\ c_m c + bytes c <= 2 ^ 48.

(** The objects allocated in a chunk, with their sizes: a clear bit is in use. *)
Definition objs (c : chunk) : list (Z * Z) :=
  if small c then
    (fun j => (c_m c + HEAP_MIN * Z.of_nat j, SIZECLASS_SIZE (c_size c))) <$>
    filter (fun j => Z.testbit (entry sizeclass_empty (c_size c)) (Z.of_nat j) = true /\ Z.testbit (c_slots c) (Z.of_nat j) = false) (seq 0 32)
  else if c_slots c =? 0 then [(c_m c, c_size c)] else [].

Abbreviation chunks := (gmap Z chunk).
Definition objects (H : chunks) : list (Z * Z) := concat (objs <$> (map_to_list H).*2).

(** A list of chunks. *)
Fixpoint clist (m : mem) (p : Z) (ids : list Z) : Prop :=
  match ids with
  | [] => p = NULL
  | id :: ids' => p = id /\ id <> NULL /\ exists nx, get m (id, C_NEXT) = Some nx /\ clist m nx ids'
  end.

(** The class of the chunks of the list at offset [8 * k] of the heap. *)
Definition kcls (k : nat) : Z := if (k <? 5)%nat then Z.of_nat k else if (k <? 10)%nat then Z.of_nat k - 5 else 5.

Record chunk_at (m : mem) (id : Z) (c : chunk) : Prop := {
  ca_id : is_struct m id sizeof_chunk_t;
  ca_m : get m (id, C_M) = Some (c_m c);
  ca_size : get m (id, C_SIZE) = Some (c_size c);
  ca_slots : get m (id, C_SLOTS) = Some (c_slots c);
  ca_shallow : get m (id, C_SHALLOW) = Some (c_shallow c);
  ca_blk : is_struct m (c_m c) (bytes c)
}.

(** The objects of the memory that belong to the heap's chunks. *)
Definition owned (H : chunks) (b : Z) : Prop := is_Some (H !! b) \/ exists id c, H !! id = Some c /\ c_m c = b.

(** ** The invariant, in four parts *)

(** [L]: the lists in the heap; [R]: the lists in the variables of a function that
    is at work, each with its class. *)
Record lists_ok (H : chunks) (L : list (list Z)) (R : list (Z * Z * list Z)) : Prop := {
  lo_len : (length L <= 11)%nat;
  lo_nodup : NoDup (concat L ++ concat (R.*2));
  lo_dom : forall id, is_Some (H !! id) <-> id ∈ concat L ++ concat (R.*2);
  lo_cls : forall k ids id c, L !! k = Some ids -> id ∈ ids -> H !! id = Some c -> cls_ok (kcls k) c;
  lo_vars : forall cls p ids id c, (cls, p, ids) ∈ R -> id ∈ ids -> H !! id = Some c -> cls_ok cls c
}.

(** Between collections the chunks with free slots are in the first five lists. *)
Definition free_ok (H : chunks) (L : list (list Z)) : Prop :=
  forall k ids id c, (k < 5)%nat -> L !! k = Some ids -> id ∈ ids -> H !! id = Some c -> c_slots c <> 0.

Section inv.
Variables (root initialgc heap : Z).

(** Blocks are apart from each other and from the other objects, and the page map
    [T] knows their pages. *)
Record shape_ok (H : chunks) (T : gmap (list Z) Z) : Prop := {
  sh_block : forall id c, H !! id = Some c -> block_ok c /\ id <> NULL;
  sh_inj : forall id c id' c', H !! id = Some c -> H !! id' = Some c' -> id <> id' ->
    c_m c + bytes c <= c_m c' \/ c_m c' + bytes c' <= c_m c;
  sh_pos : forall id c, H !! id = Some c -> 0 < bytes c;
  sh_idm : forall id c, H !! id = Some c -> H !! c_m c = None;
  sh_apart : forall b, owned H b -> b <> heap /\ b <> initialgc /\ ~ pm_objs root T b;
  sh_static : heap <> initialgc /\ ~ pm_objs root T heap /\ ~ pm_objs root T initialgc;
  sh_page : forall id c a, H !! id = Some c -> 0 <= a -> owns c (page a) -> cell T (path a) = id;
  sh_back : forall a, 0 <= a -> cell T (path a) <> NULL -> exists c, H !! cell T (path a) = Some c /\ owns c (page a)
}.

(** The words of the heap and of the chunks. *)
Record words_at (m : mem) (H : chunks) (T : gmap (list Z) Z) (used next_gc : Z) : Prop := {
  wa_heap : is_struct m heap sizeof_heap_t;
  wa_used : get m (heap, H_USED) = Some used;
  wa_next : get m (heap, H_NEXT_GC) = Some next_gc;
  wa_init : exists g, get m (initialgc, 0) = Some g;
  wa_chunk : forall id c, H !! id = Some c -> chunk_at m id c;
  wa_map : pm_at root m T
}.

(** The lists. *)
Record lists_at (m : mem) (L : list (list Z)) (R : list (Z * Z * list Z)) : Prop := {
  la_heap : forall k ids, L !! k = Some ids -> exists p, get m (heap, 8 * Z.of_nat k) = Some p /\ clist m p ids;
  la_vars : forall cls p ids, (cls, p, ids) ∈ R -> clist m p ids
}.

Record hp_at (m : mem) (H : chunks) (L : list (list Z)) (R : list (Z * Z * list Z)) (T : gmap (list Z) Z) (used next_gc : Z) : Prop := {
  hp_lists : lists_ok H L R;
  hp_shape : shape_ok H T;
  hp_words : words_at m H T used next_gc;
  hp_chain : lists_at m L R
}.

(** ** What does not matter *)

Lemma clist_ext m m' p ids : clist m p ids -> (forall id, id ∈ ids -> get m' (id, C_NEXT) = get m (id, C_NEXT)) -> clist m' p ids.
Proof.
  revert p. induction ids as [|id ids IH]; intros p Hp E; simpl in *; [done|]. destruct Hp as (-> & Hn & nx & Hx & Hr).
  split_and!; [done|done|]. exists nx. rewrite E by left. split; [done|]. apply IH; [done|]. intros id' Hid. apply E. by right.
Qed.

Lemma chunk_at_ext m m' id c : chunk_at m id c -> m' !! id = m !! id -> m' !! c_m c = m !! c_m c -> chunk_at m' id c.
Proof.
  intros [A1 A2 A3 A4 A5 A6] E1 E2. split; [by apply (is_struct_lookup m)|..|by apply (is_struct_lookup m)]; by rewrite (get_lookup_eq m).
Qed.

(** The same chunks but for their bits. *)
Definition same_shape (H H' : chunks) : Prop :=
  forall id, match H !! id, H' !! id with
    | Some c, Some c' => c_m c' = c_m c /\ c_size c' = c_size c
    | None, None => True
    | _, _ => False
    end.

Lemma same_shape_insert H id c c' : H !! id = Some c -> c_m c' = c_m c -> c_size c' = c_size c -> same_shape H (<[id := c']> H).
Proof.
  intros Hc E1 E2 id'. destruct (decide (id = id')) as [<-|Hne]; [by rewrite lookup_insert_eq, Hc|]. rewrite lookup_insert_ne by done.
  by destruct (H !! id').
Qed.

Lemma same_shape_back H H' id c' : same_shape H H' -> H' !! id = Some c' -> exists c, H !! id = Some c /\ c_m c' = c_m c /\ c_size c' = c_size c.
Proof. intros E Hc. specialize (E id). rewrite Hc in E. destruct (H !! id) as [c|]; [|done]. eauto. Qed.

Lemma same_shape_fwd H H' id c : same_shape H H' -> H !! id = Some c -> exists c', H' !! id = Some c' /\ c_m c' = c_m c /\ c_size c' = c_size c.
Proof. intros E Hc. specialize (E id). rewrite Hc in E. destruct (H' !! id) as [c'|]; [|done]. eauto. Qed.

Lemma same_bytes c c' : c_size c' = c_size c -> bytes c' = bytes c.
Proof. unfold bytes, small. by intros ->. Qed.

Lemma shape_same H H' T : shape_ok H T -> same_shape H H' -> shape_ok H' T.
Proof.
  intros [S1 S2 S3 S4 S5 S6 S7 S8] E.
  assert (Eo : forall b, owned H' b -> owned H b).
  { intros b [[c' Hc]|(id & c' & Hc & <-)]; destruct (same_shape_back _ _ _ _ E Hc) as (c & Hc0 & Em & _); [left; by eexists|right].
    exists id, c. by rewrite Em. }
  split; auto.
  - intros id c' Hc. destruct (same_shape_back _ _ _ _ E Hc) as (c & Hc0 & Em & Es). unfold block_ok.
    rewrite Em, (same_bytes c c' Es). by apply (S1 id c).
  - intros id1 c1' id2 c2' H1 H2 Hne. destruct (same_shape_back _ _ _ _ E H1) as (c1 & Hc1 & Em1 & Es1), (same_shape_back _ _ _ _ E H2) as (c2 & Hc2 & Em2 & Es2).
    rewrite Em1, Em2, (same_bytes _ _ Es1), (same_bytes _ _ Es2). eauto.
  - intros id c' Hc. destruct (same_shape_back _ _ _ _ E Hc) as (c & Hc0 & Em & Es). rewrite (same_bytes _ _ Es). eauto.
  - intros id c' Hc. destruct (same_shape_back _ _ _ _ E Hc) as (c & Hc0 & Em & Es). rewrite Em. specialize (S4 id c Hc0).
    specialize (E (c_m c)). rewrite S4 in E. by destruct (H' !! c_m c).
  - intros id c' a Hc Ha Ho. destruct (same_shape_back _ _ _ _ E Hc) as (c & Hc0 & Em & Es). eapply S7; [exact Hc0|done|].
    unfold owns in *. by rewrite Em, (same_bytes _ _ Es) in Ho.
  - intros a Ha Hn. destruct (S8 a Ha Hn) as (c & Hc & Ho). destruct (same_shape_fwd _ _ _ _ E Hc) as (c' & Hc' & Em & Es).
    exists c'. split; [done|]. unfold owns in *. by rewrite Em, (same_bytes _ _ Es).
Qed.
End inv.
