(* ===== verification/HeapBits.v ===== *)
(** * The slots of a chunk as bits (mem/heap.c) *)
From S2P Require Export Fun HeapInv.
Import ds_fun pool heap.

Abbreviation empty_of sc := (entry sizeclass_empty sc) (only parsing).

(** A cell: the slots that an object of a size class can start at. *)
Definition is_cell (sc : Z) (j : nat) : bool := Z.testbit (empty_of sc) (Z.of_nat j).

Lemma sizeclasses sc : 0 <= sc < HEAP_SIZECLASSES -> sc = 0 \/ sc = 1 \/ sc = 2 \/ sc = 3 \/ sc = 4.
Proof. unfold HEAP_SIZECLASSES, HEAP_MAXBITS, HEAP_MINBITS, POOL_ALIGN_BITS. lia. Qed.

Lemma empty_range sc : 0 <= sc < HEAP_SIZECLASSES -> 0 < empty_of sc < 2 ^ 32.
Proof. intros [->|[->|[->|[->| ->]]]]%sizeclasses; vm_compute; done. Qed.

(** Cells are the multiples of the size. *)
Lemma is_cell_spec sc j : 0 <= sc < HEAP_SIZECLASSES -> is_cell sc j = true <-> (j < 32)%nat /\ Z.of_nat j mod 2 ^ sc = 0.
Proof.
  intros Hsc. assert (H32 : (32 <= j)%nat -> is_cell sc j = false).
  { intros Hj. unfold is_cell. pose proof (empty_range sc Hsc). apply Z.bits_above_log2; [lia|].
    apply Z.lt_le_trans with 32; [|lia]. apply Z.log2_lt_pow2; lia. }
  destruct (decide (j < 32)%nat) as [Hj|Hj]; [|rewrite H32 by lia; split; [done|lia]].
  assert (Hall : forallb (fun j => bool_decide (is_cell sc j = true <-> Z.of_nat j mod 2 ^ sc = 0)) (seq 0 32) = true).
  { destruct (sizeclasses sc Hsc) as [->|[->|[->|[->| ->]]]]; vm_compute; reflexivity. }
  rewrite forallb_forall in Hall. specialize (Hall j). rewrite in_seq in Hall. specialize (Hall ltac:(lia)).
  apply bool_decide_eq_true in Hall. tauto.
Qed.

Lemma bits_cell sc s j : 0 <= sc < HEAP_SIZECLASSES -> bits_ok sc s -> Z.testbit s (Z.of_nat j) = true -> is_cell sc j = true.
Proof.
  intros Hsc [Hs <-] Hj. rewrite Z.land_spec in Hj. by apply andb_true_iff in Hj as [_ Hj].
Qed.

Lemma bits_range sc s : 0 <= sc < HEAP_SIZECLASSES -> bits_ok sc s -> 0 <= s < 2 ^ 32.
Proof.
  intros Hsc [Hs E]. split; [done|]. pose proof (empty_range sc Hsc). rewrite <- E.
  destruct (Z.eq_dec (Z.land s (empty_of sc)) 0) as [->|Hne]; [done|]. apply Z.log2_lt_pow2; [pose proof (Z.land_nonneg s (empty_of sc)); lia|].
  apply Z.le_lt_trans with (Z.log2 (empty_of sc)); [|apply Z.log2_lt_pow2; lia]. 
  etransitivity; [apply Z.log2_land; lia|]. lia.
Qed.

(** Two sets of slots with the same bits. *)
Lemma bits_eq s t : 0 <= s < 2 ^ 32 -> 0 <= t < 2 ^ 32 ->
  (forall j, (j < 32)%nat -> Z.testbit s (Z.of_nat j) = Z.testbit t (Z.of_nat j)) -> s = t.
Proof.
  intros Hs Ht E. apply Z.bits_inj'. intros n Hn. destruct (Z.ltb_spec n 32) as [Hlt|Hge].
  - specialize (E (Z.to_nat n)). rewrite Z2Nat.id in E by lia. apply E. lia.
  - assert (Hhi : forall x, 0 <= x < 2 ^ 32 -> Z.testbit x n = false).
    { intros x Hx. destruct (Z.eq_dec x 0) as [->|Hx0]; [apply Z.bits_0|]. apply Z.bits_above_log2; [lia|].
      apply Z.lt_le_trans with 32; [apply Z.log2_lt_pow2; lia|lia]. }
    by rewrite !Hhi.
Qed.

(** [ffs] finds a bit that is set. *)
Lemma ffs_set s : 0 < s -> 0 <= ffsl s - 1 /\ Z.testbit s (ffsl s - 1) = true.
Proof.
  intros Hs. unfold ffsl. rewrite (proj2 (Z.eqb_neq s 0)) by lia. rewrite Z.add_simpl_r. split; [apply Z.log2_nonneg|].
  set (y := Z.land s (- s)). assert (Hy : 0 < y).
  { assert (0 <= y) by (apply Z.land_nonneg; lia). destruct (Z.eq_dec y 0) as [E|]; [|lia]. exfalso.
    assert (Hd : Z.ldiff s (s - 1) = 0) by (rewrite Z.ldiff_land; replace (Z.lnot (s - 1)) with (- s) by (unfold Z.lnot; lia); exact E).
    apply Z.ldiff_le in Hd; lia. }
  pose proof (Z.bit_log2 y Hy) as Hb. unfold y in Hb at 1. rewrite Z.land_spec in Hb. by apply andb_true_iff in Hb as [? _].
Qed.

(** Clearing and setting the bit of a slot. *)
Lemma clear_bit s n j : 0 <= n < 32 -> (j < 32)%nat ->
  Z.testbit (Z.land s (not32 (Z.shiftl 1 n))) (Z.of_nat j) = Z.testbit s (Z.of_nat j) && negb (Z.of_nat j =? n).
Proof.
  intros Hn Hj. rewrite Z.land_spec. f_equal. unfold not32, u32. replace (-1 - Z.shiftl 1 n) with (Z.lnot (Z.shiftl 1 n)) by (unfold Z.lnot; lia).
  change M32 with (2 ^ 32). rewrite Z.mod_pow2_bits_low by lia. rewrite Z.lnot_spec by lia. f_equal. rewrite Z.shiftl_1_l.
  by rewrite Z.pow2_bits_eqb, Z.eqb_sym by lia.
Qed.

Lemma clear_bits_ok sc s n : bits_ok sc s -> bits_ok sc (Z.land s (not32 n)).
Proof.
  intros [H1 H2]. split; [apply Z.land_nonneg; by left|]. rewrite <- H2 at 2. rewrite <- !Z.land_assoc. f_equal. apply Z.land_comm.
Qed.

Lemma land_bits_ok sc s t : bits_ok sc s -> bits_ok sc t -> bits_ok sc (Z.land s t).
Proof. intros [H1 H2] [H3 H4]. split; [apply Z.land_nonneg; by left|]. by rewrite <- Z.land_assoc, H4. Qed.

Lemma empty_bits_ok sc : 0 <= sc < HEAP_SIZECLASSES -> bits_ok sc (empty_of sc).
Proof. intros H. split; [apply empty_range in H; lia|apply Z.land_diag]. Qed.

Lemma external_ptr n p : 0 <= n < 64 -> 0 <= p < M64 -> Z.land p (not64 (2 ^ n - 1)) = p - p mod 2 ^ n.
Proof.
  intros Hn Hp. assert (E : not64 (2 ^ n - 1) = Z.land (Z.lnot (Z.ones n)) (Z.ones 64)).
  { rewrite Z.land_ones by lia. unfold not64, u64, Z.lnot. rewrite Z.ones_equiv. change M64 with (2 ^ 64). f_equal. lia. }
  rewrite E, (Z.land_comm (Z.lnot _)), Z.land_assoc, Z.land_ones by lia. change (2 ^ 64) with M64. rewrite (Z.mod_small p) by done.
  rewrite <- Z.ldiff_land, Z.ldiff_ones_r by lia. rewrite Z.shiftr_div_pow2, Z.shiftl_mul_pow2 by lia.
  pose proof (Z.div_mod p (2 ^ n) ltac:(lia)). lia.
Qed.

(** A pointer into an object leads to the object's slot. *)
Lemma find_slot m sc j p : 0 <= sc < HEAP_SIZECLASSES -> is_cell sc j = true -> 0 <= m -> m mod POOL_ALIGN = 0 -> m + POOL_ALIGN <= 2 ^ 48 ->
  m + HEAP_MIN * Z.of_nat j <= p < m + HEAP_MIN * Z.of_nat j + SIZECLASS_SIZE sc ->
  EXTERNAL_PTR p sc = m + HEAP_MIN * Z.of_nat j /\ FIND_SLOT (EXTERNAL_PTR p sc) m = Z.shiftl 1 (Z.of_nat j).
Proof.
  intros Hsc Hj Hm0 Hm H48 Hp. apply (is_cell_spec sc j Hsc) in Hj as [Hj Hmod].
  change HEAP_MIN with 32 in *. change POOL_ALIGN with 1024 in *.
  assert (E : EXTERNAL_PTR p sc = m + 32 * Z.of_nat j).
  { unfold EXTERNAL_PTR, SIZECLASS_MASK.
    destruct (sizeclasses sc Hsc) as [->|[->|[->|[->| ->]]]]; simpl Z.pow in Hmod;
      match type of Hp with _ <= _ < _ + ?s => let v := eval vm_compute in s in change s with v in * end.
    - change (32 - 1) with (2 ^ 5 - 1). rewrite external_ptr by (unfold M64; lia). change (2 ^ 5) with 32. Z.to_euclidean_division_equations; lia.
    - change (64 - 1) with (2 ^ 6 - 1). rewrite external_ptr by (unfold M64; lia). change (2 ^ 6) with 64. Z.to_euclidean_division_equations; lia.
    - change (128 - 1) with (2 ^ 7 - 1). rewrite external_ptr by (unfold M64; lia). change (2 ^ 7) with 128. Z.to_euclidean_division_equations; lia.
    - change (256 - 1) with (2 ^ 8 - 1). rewrite external_ptr by (unfold M64; lia). change (2 ^ 8) with 256. Z.to_euclidean_division_equations; lia.
    - change (512 - 1) with (2 ^ 9 - 1). rewrite external_ptr by (unfold M64; lia). change (2 ^ 9) with 512. Z.to_euclidean_division_equations; lia. }
  split; [exact E|]. rewrite E. unfold FIND_SLOT, shr. replace (m + 32 * Z.of_nat j - m) with (32 * Z.of_nat j) by lia.
  rewrite u64_small by (unfold M64; lia). change HEAP_MINBITS with 5. rewrite Z.shiftr_div_pow2 by lia.
  replace (32 * Z.of_nat j / 2 ^ 5) with (Z.of_nat j) by (change (2 ^ 5) with 32; Z.to_euclidean_division_equations; lia).
  apply u32_small. rewrite Z.shiftl_1_l. split; [lia|]. change M32 with (2 ^ 32). apply Z.pow_lt_mono_r; lia.
Qed.

(** ** The objects of a chunk *)
Definition sizes (l : list (Z * Z)) : Z := foldr (fun e acc => e.2 + acc) 0 l.

Lemma sizes_app l l' : sizes (l ++ l') = sizes l + sizes l'.
Proof. induction l as [|e l IH]; simpl; [done|]. rewrite IH. lia. Qed.

Lemma sizes_perm l l' : l ≡ₚ l' -> sizes l = sizes l'.
Proof. induction 1; simpl; lia. Qed.

Lemma filter_add {A} (P Q : A -> Prop) `{!forall x, Decision (P x), !forall x, Decision (Q x)} (l : list A) b :
  NoDup l -> b ∈ l -> ~ P b -> (forall x, x ∈ l -> Q x <-> P x \/ x = b) -> filter Q l ≡ₚ b :: filter P l.
Proof.
  induction l as [|a l IH]; intros Hnd Hb Hnp HQ; [by apply not_elem_of_nil in Hb|]. apply NoDup_cons in Hnd as [Ha Hnd].
  assert (HQ' : forall x, x ∈ l -> Q x <-> P x \/ x = b) by (intros x Hx; apply HQ; by right).
  apply elem_of_cons in Hb as [<-|Hb].
  - rewrite filter_cons_True by (apply HQ; [left|by right]). rewrite filter_cons_False by done. f_equiv.
    rewrite (filter_ext_on Q P l); [done|]. intros x Hx. rewrite (HQ' x Hx). split; [intros [?| ->]; done|by left].
  - assert (Hab : a <> b) by congruence. specialize (IH Hnd Hb Hnp HQ'). rewrite !filter_cons.
    assert (Hx : Q a <-> P a) by (rewrite (HQ a ltac:(left)); tauto).
    do 2 case_decide; try tauto. rewrite IH. apply Permutation_swap.
Qed.

Lemma filter_count {A} (P Q R : A -> Prop) `{!forall x, Decision (P x), !forall x, Decision (Q x), !forall x, Decision (R x)} (l : list A) :
  (forall x, x ∈ l -> (R x <-> P x /\ ~ Q x) /\ (Q x -> P x)) -> (length (filter R l) + length (filter Q l) = length (filter P l))%nat.
Proof.
  induction l as [|a l IH]; intros Hl; [done|]. rewrite !filter_cons. specialize (IH (fun x Hx => Hl x (list_elem_of_further x a l Hx))).
  destruct (Hl a ltac:(left)) as [Ha1 Ha2]. repeat case_decide; simpl; tauto || lia.
Qed.

(** *** Small chunks *)
Section small.
Variable c : chunk.
Hypothesis Hsmall : 0 <= c_size c < HEAP_SIZECLASSES.
Hypothesis Hbits : bits_ok (c_size c) (c_slots c).

Definition cell_at (j : nat) : Z * Z := (c_m c + HEAP_MIN * Z.of_nat j, SIZECLASS_SIZE (c_size c)).

Lemma small_true : small c = true.
Proof. unfold small. apply Z.ltb_lt. lia. Qed.

Lemma objs_small : objs c = cell_at <$> filter (fun j => is_cell (c_size c) j = true /\ Z.testbit (c_slots c) (Z.of_nat j) = false) (seq 0 32).
Proof. unfold objs. by rewrite small_true. Qed.

Lemma bytes_small : bytes c = POOL_ALIGN.
Proof. unfold bytes. by rewrite small_true. Qed.

Lemma size_small : SIZECLASS_SIZE (c_size c) = 32 * 2 ^ c_size c.
Proof. by destruct (sizeclasses _ Hsmall) as [->|[->|[->|[->| ->]]]]. Qed.

(** One more slot in use. *)
Lemma objs_take n (c' : chunk) : 0 <= n < 32 -> Z.testbit (c_slots c) n = true -> c_m c' = c_m c -> c_size c' = c_size c ->
  c_slots c' = Z.land (c_slots c) (not32 (Z.shiftl 1 n)) ->
  objs c' ≡ₚ (c_m c + HEAP_MIN * n, SIZECLASS_SIZE (c_size c)) :: objs c.
Proof.
  intros Hn Hb Em Es El. rewrite objs_small. unfold objs. unfold small at 1. rewrite Es. fold (small c). rewrite small_true, Em, El.
  fold cell_at.
  rewrite (filter_add (fun j => is_cell (c_size c) j = true /\ Z.testbit (c_slots c) (Z.of_nat j) = false) _ (seq 0 32) (Z.to_nat n)).
  - simpl. unfold cell_at at 1. by rewrite Z2Nat.id by lia.
  - apply NoDup_seq.
  - apply elem_of_seq. lia.
  - rewrite Z2Nat.id by lia. rewrite Hb. by intros [_ ?].
  - intros j Hj%elem_of_seq. rewrite clear_bit by lia. fold (is_cell (c_size c) j). destruct (Z.eqb_spec (Z.of_nat j) n) as [E|E].
    + assert (j = Z.to_nat n) as -> by lia. rewrite andb_false_r. split; [by right|]. intros _. split; [|done].
      apply (bits_cell _ (c_slots c)); auto. by rewrite Z2Nat.id by lia.
    + rewrite andb_true_r. split; [by left|]. intros [?| ->]; [done|lia].
Qed.

(** The bytes in use. *)
Lemma sizes_small : sizes (objs c) = sizeof_block_t - popcount (c_slots c) * SIZECLASS_SIZE (c_size c).
Proof.
  assert (Hlen : forall l, sizes (cell_at <$> l) = Z.of_nat (length l) * SIZECLASS_SIZE (c_size c)).
  { induction l as [|j l IH]; [done|]. rewrite fmap_cons. cbn [sizes foldr] in *. fold (sizes (cell_at <$> l)). rewrite IH. simpl length. simpl snd. lia. }
  rewrite objs_small, Hlen. unfold popcount.
  pose proof (filter_count (fun j => is_cell (c_size c) j = true) (fun j => Z.testbit (c_slots c) (Z.of_nat j) = true)
    (fun j => is_cell (c_size c) j = true /\ Z.testbit (c_slots c) (Z.of_nat j) = false) (seq 0 32)) as Hc.
  assert (Hcells : Z.of_nat (length (filter (fun j => is_cell (c_size c) j = true) (seq 0 32))) * SIZECLASS_SIZE (c_size c) = sizeof_block_t).
  { by destruct (sizeclasses _ Hsmall) as [->|[->|[->|[->| ->]]]]. }
  rewrite <- Hcells, <- Hc; [rewrite Nat2Z.inj_add; lia|]. intros j _. split.
  - rewrite not_true_iff_false. done.
  - by apply bits_cell.
Qed.

(** No slot in use. *)
Lemma objs_empty : c_slots c = empty_of (c_size c) -> objs c = [].
Proof.
  intros E. rewrite objs_small, E. rewrite (filter_ext_on _ (fun _ => False) (seq 0 32)).
  - by vm_compute.
  - intros j _. split; [|done]. unfold is_cell. intros [H1 H2]. congruence.
Qed.
End small.
