(* ===== verification/HeapMem.v ===== *)
(** * The heap's invariant under its writes (mem/heap.c) *)
From S2P Require Export Fun HeapBits.
Import ds_fun pool heap.

Lemma concat_elem {A} (ls : list (list A)) k l x : ls !! k = Some l -> x ∈ l -> x ∈ concat ls.
Proof. intros Hk Hx. apply list_elem_of_In, in_concat. exists l. split; apply list_elem_of_In; [by eapply list_elem_of_lookup_2|done]. Qed.

Lemma elem_concat {A} (ls : list (list A)) x : x ∈ concat ls -> exists k l, ls !! k = Some l /\ x ∈ l.
Proof.
  intros Hx%list_elem_of_In. apply in_concat in Hx as (l & Hl & Hx). apply list_elem_of_In, list_elem_of_lookup in Hl as [k Hk].
  exists k, l. split; [done|]. by apply list_elem_of_In.
Qed.

(** A chunk with other bits. *)
Lemma cls_bits cls c s sh : cls_ok cls c -> 0 <= s -> 0 <= sh ->
  (0 <= c_size c < HEAP_SIZECLASSES -> bits_ok (c_size c) s /\ bits_ok (c_size c) sh) -> cls_ok cls (Ch (c_m c) (c_size c) s sh).
Proof.
  intros [(A1 & A2 & A3 & A4)|(A1 & A2 & A3 & A4 & A5)] Hs Hsh Hb; [left|right]; simpl.
  - subst cls. destruct (Hb A1). done.
  - done.
Qed.

Lemma cls_small cls c : cls_ok cls c -> 0 <= cls < HEAP_SIZECLASSES ->
  c_size c = cls /\ bits_ok cls (c_slots c) /\ bits_ok cls (c_shallow c) /\ small c = true.
Proof.
  intros [(A1 & A2 & A3 & A4)|(A1 & _)] H; [|lia]. split_and!; try done. unfold small. rewrite A2. apply Z.ltb_lt. lia.
Qed.

Lemma cls_large c : cls_ok HEAP_SIZECLASSES c ->
  HEAP_MAX < c_size c /\ c_size c mod POOL_ALIGN = 0 /\ 0 <= c_slots c /\ 0 <= c_shallow c /\ small c = false.
Proof.
  intros [(A1 & _)|(A1 & A2 & A3 & A4 & A5)]; [lia|]. split_and!; try done. unfold small. apply Z.ltb_ge.
  assert (HEAP_SIZECLASSES <= HEAP_MAX) by (by vm_compute). lia.
Qed.

Section mem.
Variables (root initialgc heap : Z).
Abbreviation hp_at := (hp_at root initialgc heap).
Abbreviation shape_ok := (shape_ok root initialgc heap).
Abbreviation words_at := (words_at root initialgc heap).
Abbreviation lists_at := (lists_at heap).

(** The chunk behind an identifier in a list. *)
Lemma list_chunk H L R k ids id : lists_ok H L R -> L !! k = Some ids -> id ∈ ids -> exists c, H !! id = Some c /\ cls_ok (kcls k) c.
Proof.
  intros HL Hk Hid. destruct (proj2 (lo_dom _ _ _ HL id)) as [c Hc]; [apply elem_of_app; left; by eapply concat_elem|].
  exists c. split; [done|]. by eapply lo_cls.
Qed.

Lemma var_chunk H L R cls p ids id : lists_ok H L R -> (cls, p, ids) ∈ R -> id ∈ ids -> exists c, H !! id = Some c /\ cls_ok cls c.
Proof.
  intros HL Hk Hid. destruct (proj2 (lo_dom _ _ _ HL id)) as [c Hc].
  - apply elem_of_app. right. apply list_elem_of_lookup in Hk as [k Hk]. eapply (concat_elem _ k ids); [|done].
    by rewrite list_lookup_fmap, Hk.
  - exists c. split; [done|]. by eapply lo_vars.
Qed.

Lemma cls_of_chunk H L R id c : lists_ok H L R -> H !! id = Some c -> exists cls, cls_ok cls c.
Proof.
  intros HL Hc. assert (Hid : id ∈ concat L ++ concat (R.*2)) by (apply (lo_dom _ _ _ HL); by eexists).
  apply elem_of_app in Hid as [(k & l & Hk & Hid)%elem_concat|(k & l & Hk & Hid)%elem_concat].
  - exists (kcls k). by eapply lo_cls.
  - rewrite list_lookup_fmap in Hk. destruct (R !! k) as [[[cls p] ids]|] eqn:Er; [|done]. injection Hk as <-. exists cls.
    eapply lo_vars; [exact HL|by eapply list_elem_of_lookup_2|done|done].
Qed.

Lemma lists_replace H L R id c c' : lists_ok H L R -> H !! id = Some c -> (forall cls, cls_ok cls c -> cls_ok cls c') ->
  lists_ok (<[id := c']> H) L R.
Proof.
  intros [L1 L2 L3 L4 L6] Hc Hcls. split; auto.
  - intros id'. rewrite <- L3. destruct (decide (id = id')) as [<-|Hne]; [|by rewrite lookup_insert_ne].
    rewrite lookup_insert_eq, Hc. split; by eexists.
  - intros k ids id' c0 Hk Hid [[<- <-]|[_ H0]]%lookup_insert_Some; eauto.
  - intros cls p ids id' c0 Hk Hid [[<- <-]|[_ H0]]%lookup_insert_Some; eauto.
Qed.

Lemma owned_id H id c : H !! id = Some c -> owned H id.
Proof. intros. left. by eexists. Qed.

Lemma owned_m H id c : H !! id = Some c -> owned H (c_m c).
Proof. intros. right. eauto. Qed.

Lemma words_replace m m' H T u n id c c' : words_at m H T u n -> shape_ok H T -> H !! id = Some c ->
  (forall b, b <> id -> m' !! b = m !! b) -> chunk_at m' id c' -> words_at m' (<[id := c']> H) T u n.
Proof.
  intros [W1 W2 W3 W4 W5 W6] HS Hc Hfr Hc'. destruct (sh_apart _ _ _ _ _ HS id (owned_id _ _ _ Hc)) as (A1 & A2 & A3).
  assert (Eh : m' !! heap = m !! heap) by (apply Hfr; congruence). assert (Ei : m' !! initialgc = m !! initialgc) by (apply Hfr; congruence).
  split.
  - by apply (is_struct_lookup m).
  - by rewrite (get_lookup_eq m).
  - by rewrite (get_lookup_eq m).
  - destruct W4 as [g Hg]. exists g. by rewrite (get_lookup_eq m).
  - intros id' c0 [[<- <-]|[Hne H0]]%lookup_insert_Some; [done|]. apply (chunk_at_ext m); [auto|apply Hfr; congruence|].
    apply Hfr. intros E. pose proof (sh_idm _ _ _ _ _ HS id' c0 H0) as Hn. rewrite E in Hn. congruence.
  - apply (pm_ext _ m); [done|]. intros b Hb. apply Hfr. by intros ->.
Qed.

Lemma lists_ext m m' L R : lists_at m L R -> (forall k ids, L !! k = Some ids -> get m' (heap, 8 * Z.of_nat k) = get m (heap, 8 * Z.of_nat k)) ->
  (forall id, id ∈ concat L ++ concat (R.*2) -> get m' (id, C_NEXT) = get m (id, C_NEXT)) -> lists_at m' L R.
Proof.
  intros [A1 A2] E1 E2. split.
  - intros k ids Hk. destruct (A1 k ids Hk) as (p & Hp & Hl). exists p. rewrite E1 with (ids := ids) by done. split; [done|].
    apply (clist_ext m); [done|]. intros id Hid. apply E2, elem_of_app. left. by eapply concat_elem.
  - intros cls p ids Hk. apply (clist_ext m); [by eapply A2|]. intros id Hid. apply E2, elem_of_app. right.
    apply list_elem_of_lookup in Hk as [k Hk]. eapply (concat_elem _ k ids); [|done]. by rewrite list_lookup_fmap, Hk.
Qed.

(** A write to the bits of a chunk. *)
Lemma hp_bits m H L R T u n id c s sh f v : hp_at m H L R T u n -> H !! id = Some c ->
  let c' := Ch (c_m c) (c_size c) s sh in
  (f = C_SLOTS /\ v = s /\ sh = c_shallow c) \/ (f = C_SHALLOW /\ v = sh /\ s = c_slots c) ->
  (forall cls, cls_ok cls c -> cls_ok cls c') ->
  hp_at (upd m (id, f) v) (<[id := c']> H) L R T u n.
Proof.
  intros [HL HS HW HC] Hc c' Hf Hcls.
  destruct (wa_chunk _ _ _ _ _ _ _ _ HW id c Hc) as [A1 A2 A3 A4 A5 A6].
  pose proof (sh_idm _ _ _ _ _ HS id c Hc) as Hne.
  assert (Hlive : live m id) by (by eapply is_struct_live).
  assert (Hc' : chunk_at (upd m (id, f) v) id c').
  { destruct Hf as [(-> & -> & ->)|(-> & -> & ->)]; split; simpl; try (by rewrite is_struct_upd); mget; by rewrite get_upd_eq. }
  split; [by eapply lists_replace|eapply shape_same; [exact HS|by apply (same_shape_insert _ _ c)]| |].
  - eapply words_replace; eauto. intros b Hb. by apply lookup_upd_ne.
  - apply (lists_ext m); [done|..].
    + intros k ids Hk. apply get_upd_ne. destruct (sh_apart _ _ _ _ _ HS id (owned_id _ _ _ Hc)) as (B1 & _). congruence.
    + intros id' _. apply get_upd_ne. destruct Hf as [(-> & _)|(-> & _)]; congruence.
Qed.

(** A write to a word of the heap itself. *)
Lemma words_heap m H T u n f v u' n' : words_at m H T u n -> shape_ok H T ->
  get (upd m (heap, f) v) (heap, H_USED) = Some u' -> get (upd m (heap, f) v) (heap, H_NEXT_GC) = Some n' ->
  words_at (upd m (heap, f) v) H T u' n'.
Proof.
  intros [W1 W2 W3 W4 W5 W6] HS Hu Hn. destruct (sh_static _ _ _ _ _ HS) as (S1 & S2 & S3). split; auto.
  - by rewrite is_struct_upd.
  - destruct W4 as [g Hg]. exists g. rewrite get_upd_ne by congruence. done.
  - intros id c Hc. destruct (sh_apart _ _ _ _ _ HS id (owned_id _ _ _ Hc)) as (A1 & _), (sh_apart _ _ _ _ _ HS _ (owned_m _ _ _ Hc)) as (B1 & _).
    apply (chunk_at_ext m); [auto|by apply lookup_upd_ne|by apply lookup_upd_ne].
  - apply (pm_ext _ m); [done|]. intros b Hb. apply lookup_upd_ne. simpl. by intros ->.
Qed.

Lemma lists_heap m H L R T f v : lists_ok H L R -> shape_ok H T -> lists_at m L R -> 88 <= f -> lists_at (upd m (heap, f) v) L R.
Proof.
  intros HL HS HA Hf. apply (lists_ext m); [done|..].
  - intros k ids Hk. apply get_upd_ne. apply lookup_lt_Some in Hk. pose proof (lo_len _ _ _ HL). intros [= E]. lia.
  - intros id Hid. apply get_upd_ne. apply (lo_dom _ _ _ HL) in Hid as [c Hc]. destruct (sh_apart _ _ _ _ _ HS id (owned_id _ _ _ Hc)) as (A1 & _).
    congruence.
Qed.

Lemma hp_used_upd m H L R T u n v : hp_at m H L R T u n -> hp_at (upd m (heap, H_USED) v) H L R T v n.
Proof.
  intros [HL HS HW HC]. split; auto; [|by eapply lists_heap; eauto]. eapply words_heap; [exact HW|done| |].
  - apply get_upd_eq. simpl. eapply is_struct_live, (wa_heap _ _ _ _ _ _ _ _ HW).
  - rewrite get_upd_ne by congruence. apply (wa_next _ _ _ _ _ _ _ _ HW).
Qed.

Lemma hp_next_upd m H L R T u n v : hp_at m H L R T u n -> hp_at (upd m (heap, H_NEXT_GC) v) H L R T u v.
Proof.
  intros [HL HS HW HC]. split; auto; [|by eapply lists_heap; eauto]. eapply words_heap; [exact HW|done| |].
  - rewrite get_upd_ne by congruence. apply (wa_used _ _ _ _ _ _ _ _ HW).
  - apply get_upd_eq. simpl. eapply is_struct_live, (wa_heap _ _ _ _ _ _ _ _ HW).
Qed.
End mem.
