(* ===== verification/HeapGc.v ===== *)
(** * Marking (mem/heap.c: heap_startgc, heap_mark, heap_mark_shallow) *)
From S2P Require Export Fun HeapMem.
Import ds_fun pool heap.

Lemma clist_hd m p ids : clist m p ids -> p = List.hd NULL ids.
Proof. destruct ids; simpl; [done|]. by intros (-> & _). Qed.

Lemma clist_suffix m p pre ids : clist m p (pre ++ ids) -> clist m (List.hd NULL ids) ids.
Proof.
  revert p. induction pre as [|id pre IH]; intros p; simpl.
  - intros H. by rewrite <- (clist_hd m p ids H).
  - intros (_ & _ & nx & _ & H). eauto.
Qed.

(** All chunks of a list changed. *)
Definition upd_all (new : chunk -> chunk) (ids : list Z) (H H' : chunks) : Prop :=
  forall id, H' !! id = if decide (id ∈ ids) then new <$> H !! id else H !! id.

Lemma upd_all_nil new H : upd_all new [] H H.
Proof. intros id. by rewrite decide_False by apply not_elem_of_nil. Qed.

Lemma upd_all_cons new id ids H H' c : id ∉ ids -> H !! id = Some c -> upd_all new ids (<[id := new c]> H) H' -> upd_all new (id :: ids) H H'.
Proof.
  intros Hn Hc HU id'. rewrite HU. destruct (decide (id' = id)) as [->|Hne].
  - rewrite decide_False, decide_True by (done || left). by rewrite lookup_insert_eq, Hc.
  - rewrite lookup_insert_ne by done. destruct (decide (id' ∈ ids)); [rewrite decide_True by (by right); done|].
    rewrite decide_False; [done|]. by intros [?|?]%elem_of_cons.
Qed.

Definition clear (c : chunk) : chunk :=
  if small c then Ch (c_m c) (c_size c) (empty_of (c_size c)) (empty_of (c_size c)) else Ch (c_m c) (c_size c) 1 1.

Lemma clear_idem c : clear (clear c) = clear c.
Proof. unfold clear. destruct (small c) eqn:E; unfold small in *; simpl; by rewrite E. Qed.

Lemma upd_all_app l1 l2 H H1 H2 : upd_all clear l1 H H1 -> upd_all clear l2 H1 H2 -> upd_all clear (l1 ++ l2) H H2.
Proof.
  intros U1 U2 id. rewrite U2, U1. destruct (decide (id ∈ l2)), (decide (id ∈ l1)).
  - rewrite decide_True by (apply elem_of_app; by left). destruct (H !! id); simpl; [by rewrite clear_idem|done].
  - by rewrite decide_True by (apply elem_of_app; by right).
  - by rewrite decide_True by (apply elem_of_app; by left).
  - by rewrite decide_False by (by intros [?|?]%elem_of_app).
Qed.

Lemma upd_all_full ids H H' : upd_all clear ids H H' -> (forall id, is_Some (H !! id) -> id ∈ ids) -> H' = clear <$> H.
Proof.
  intros U Hd. apply map_eq. intros id. rewrite U, lookup_fmap. case_decide as Hi; [done|].
  destruct (H !! id) as [c|] eqn:E; [|done]. destruct Hi. apply Hd. by eexists.
Qed.

Lemma kcls_small k : (k < 10)%nat -> 0 <= kcls k < HEAP_SIZECLASSES.
Proof.
  intros Hk. unfold kcls, HEAP_SIZECLASSES, HEAP_MAXBITS, HEAP_MINBITS, POOL_ALIGN_BITS.
  destruct (Nat.ltb_spec k 5), (Nat.ltb_spec k 10); lia.
Qed.

Section gc.
Context `{HM : Malloc, HR : !MallocRoom}.
Variables (root initialgc heap : Z).
Abbreviation hp_at := (hp_at root initialgc heap).

Lemma chunk_list_ok k ids f (new : chunk -> chunk) L R T u n :
  L !! k = Some ids ->
  (forall m H id c, hp_at m H L R T u n -> id ∈ ids -> H !! id = Some c -> tot (f id) m (fun _ m' => hp_at m' (<[id := new c]> H) L R T u n)) ->
  forall rest pre fuel m H, ids = pre ++ rest -> hp_at m H L R T u n -> (length rest < fuel)%nat ->
  tot (chunk_list fuel f (List.hd NULL rest)) m (fun _ m' => exists H', hp_at m' H' L R T u n /\ upd_all new rest H H').
Proof.
  intros Hk Hf rest. induction rest as [|id rest IH]; intros pre fuel m H E HP Hfu.
  - apply tot_loop_exit; [done|]. simpl. apply tot_ret. exists H. split; [done|apply upd_all_nil].
  - destruct fuel as [|fuel]; [simpl in Hfu; lia|]. apply tot_loop_S. simpl List.hd.
    destruct (la_heap _ _ _ _ (hp_chain _ _ _ _ _ _ _ _ _ _ HP) k ids Hk) as (p & _ & Hcl). rewrite E in Hcl.
    apply clist_suffix in Hcl. simpl in Hcl. destruct Hcl as (_ & Hn & nx & Hnx & Hr). apply clist_hd in Hr as ->.
    rewrite (proj2 (Z.eqb_neq _ _) Hn). apply tot_bind, (tot_load _ _ _ _ Hnx).
    assert (Hid : id ∈ ids) by (rewrite E; apply elem_of_app; right; left).
    destruct (list_chunk H L R k ids id) as (c & Hc & _); [apply HP|done|done|].
    apply tot_bind. eapply tot_mono; [by apply (Hf m H id c)|]. intros [] m1 HP1. apply tot_ret.
    eapply tot_mono; [apply (IH (pre ++ [id]) fuel m1 (<[id := new c]> H)); [by rewrite <- app_assoc|exact HP1|simpl in Hfu; lia]|].
    intros _ m2 (H' & HP2 & HU). exists H'. split; [done|]. eapply upd_all_cons; [|done|done].
    pose proof (lo_nodup _ _ _ (hp_lists _ _ _ _ _ _ _ _ _ _ HP)) as Hnd. apply NoDup_app in Hnd as (Hnd & _ & _).
    assert (Hnd' : NoDup ids).
    { clear -Hk Hnd. revert k Hk. induction L as [|l L IH]; intros [|k] Hk; simpl in *; [done|done|..]; apply NoDup_app in Hnd as (A & _ & B); [congruence|eauto]. }
    rewrite E in Hnd'. apply NoDup_app in Hnd' as (_ & _ & Hnd'). by apply NoDup_cons in Hnd' as [? _].
Qed.

(** Both words of bits. *)
Lemma set_bits_ok L R T u n m H id c s sh : hp_at m H L R T u n -> H !! id = Some c -> 0 <= s -> 0 <= sh ->
  (0 <= c_size c < HEAP_SIZECLASSES -> bits_ok (c_size c) s /\ bits_ok (c_size c) sh) ->
  inb m (id, C_SLOTS) = true /\ inb m (id, C_SHALLOW) = true /\
  hp_at (upd (upd m (id, C_SLOTS) s) (id, C_SHALLOW) sh) (<[id := Ch (c_m c) (c_size c) s sh]> H) L R T u n.
Proof.
  intros HP Hc Hs Hsh Hb. destruct (wa_chunk _ _ _ _ _ _ _ _ (hp_words _ _ _ _ _ _ _ _ _ _ HP) id c Hc) as [A1 _ _ _ _ _].
  split_and!; [by eapply is_struct_inb|by eapply is_struct_inb|].
  destruct (cls_of_chunk _ _ _ _ _ (hp_lists _ _ _ _ _ _ _ _ _ _ HP) Hc) as [cls Hcls].
  assert (Hbs : 0 <= c_size c < HEAP_SIZECLASSES -> bits_ok (c_size c) (c_shallow c)).
  { intros Hsm. destruct Hcls as [(B1 & B2 & _ & B4)|(_ & B2 & _)]; [by rewrite B2|]. exfalso. revert B2 Hsm. change HEAP_MAX with 512. change HEAP_SIZECLASSES with 5. lia. }
  assert (Hsh0 : 0 <= c_shallow c) by (destruct Hcls as [(_ & _ & _ & B4)|(_ & _ & _ & _ & B5)]; [apply B4|done]).
  assert (HP1 : hp_at (upd m (id, C_SLOTS) s) (<[id := Ch (c_m c) (c_size c) s (c_shallow c)]> H) L R T u n).
  { apply hp_bits with (c := c); auto. intros cls' Hcl. apply cls_bits; auto. intros Hsm. destruct (Hb Hsm). auto. }
  set (c1 := Ch (c_m c) (c_size c) s (c_shallow c)) in *. set (c2 := Ch (c_m c) (c_size c) s sh).
  replace (<[id := c2]> H) with (<[id := c2]> (<[id := c1]> H)) by (by rewrite insert_insert_eq).
  apply (hp_bits _ _ _ _ _ _ _ _ _ _ id c1 s sh); auto; [by rewrite lookup_insert_eq|].
  intros cls' Hcl. by apply (cls_bits cls' c1).
Qed.

Lemma clear_small_ok k ids L R T u n m H id c : L !! k = Some ids -> (k < 10)%nat -> hp_at m H L R T u n -> id ∈ ids -> H !! id = Some c ->
  tot (clear_small id) m (fun _ m' => hp_at m' (<[id := clear c]> H) L R T u n).
Proof.
  intros Hk Hk10 HP Hid Hc. pose proof (kcls_small k Hk10) as Hks.
  destruct (cls_small _ _ (lo_cls _ _ _ (hp_lists _ _ _ _ _ _ _ _ _ _ HP) k ids id c Hk Hid Hc) Hks) as (Hsz & _ & _ & Hsm). rewrite <- Hsz in Hks.
  pose proof (empty_range _ Hks) as Her. pose proof (empty_bits_ok _ Hks) as Heb.
  destruct (set_bits_ok L R T u n m H id c (empty_of (c_size c)) (empty_of (c_size c)) HP Hc) as (I1 & I2 & HP'); [lia|lia|done|].
  destruct (wa_chunk _ _ _ _ _ _ _ _ (hp_words _ _ _ _ _ _ _ _ _ _ HP) id c Hc) as [A1 A2 A3 A4 A5 A6].
  unfold clear_small. apply tot_bind, (tot_load _ _ _ _ A3). apply tot_bind, tot_store; [done|].
  apply tot_bind. eapply tot_load; [apply get_upd_eq; simpl; by eapply is_struct_live|]. apply tot_store; [by rewrite inb_upd|].
  unfold clear. by rewrite Hsm.
Qed.

Lemma clear_large_ok ids L R T u n m H id c : L !! 10%nat = Some ids -> hp_at m H L R T u n -> id ∈ ids -> H !! id = Some c ->
  tot (clear_large id) m (fun _ m' => hp_at m' (<[id := clear c]> H) L R T u n).
Proof.
  intros Hk HP Hid Hc. destruct (cls_large c (lo_cls _ _ _ (hp_lists _ _ _ _ _ _ _ _ _ _ HP) 10%nat ids id c Hk Hid Hc)) as (Hsz & _ & _ & _ & Hsm).
  destruct (set_bits_ok L R T u n m H id c 1 1 HP Hc) as (I1 & I2 & HP'); [lia|lia| |].
  { revert Hsz. change HEAP_MAX with 512. change HEAP_SIZECLASSES with 5. lia. }
  unfold clear_large. apply tot_bind, tot_store; [done|]. apply tot_store; [by rewrite inb_upd|]. unfold clear. by rewrite Hsm.
Qed.

(** The list at offset [8 * k] cleared. *)
Lemma clear_list_ok k (f : Z -> prog mem unit) fuel L T u n m H : hp_at m H L [] T u n -> length L = 11%nat -> (k < 11)%nat -> (length (concat L) < fuel)%nat ->
  (f = clear_small /\ (k < 10)%nat) \/ (f = clear_large /\ k = 10%nat) ->
  tot (c <- load (heap, 8 * Z.of_nat k) ;; chunk_list fuel f c) m
    (fun _ m' => exists ids H', L !! k = Some ids /\ hp_at m' H' L [] T u n /\ upd_all clear ids H H').
Proof.
  intros HP H11 Hk Hfu Hf. destruct (lookup_lt_is_Some_2 L k) as [ids Hids]; [lia|].
  destruct (la_heap _ _ _ _ (hp_chain _ _ _ _ _ _ _ _ _ _ HP) k ids Hids) as (p & Hp & Hcl). apply clist_hd in Hcl as ->.
  apply tot_bind, (tot_load _ _ _ _ Hp). eapply tot_mono; [apply (chunk_list_ok k ids f clear L [] T u n Hids) with (pre := []) (H := H); [|done|exact HP|]|].
  - intros m' H' id c HP' Hid Hc. destruct Hf as [[-> Hk']|[-> ->]]; [by eapply clear_small_ok|by eapply clear_large_ok].
  - eapply Nat.le_lt_trans; [|exact Hfu]. clear -Hids. revert k Hids.
    induction L as [|l L IH]; intros [|k] E; simpl in *; [done|done|injection E as ->|]; rewrite length_app; [lia|]. specialize (IH k E). lia.
  - intros _ m' (H' & HP' & HU). eauto.
Qed.

Lemma startgc_ok fuel L T u n m H : hp_at m H L [] T u n -> length L = 11%nat -> (length (concat L) < fuel)%nat ->
  tot (heap_startgc fuel heap) m (fun b m' => if b then n < u /\ hp_at m' (clear <$> H) L [] T 0 n else u <= n /\ m' = m).
Proof.
  intros HP H11 Hfu. pose proof (hp_words _ _ _ _ _ _ _ _ _ _ HP) as [W1 W2 W3 _ _ _].
  unfold heap_startgc. apply tot_bind, (tot_load _ _ _ _ W2), tot_bind, (tot_load _ _ _ _ W3).
  destruct (Z.leb_spec u n) as [Hun|Hun]; [by apply tot_ret|]. apply tot_bind.
  eapply tot_mono; [apply (tot_forz (fun i m' => exists Hi acc, hp_at m' Hi L [] T u n /\ upd_all clear acc H Hi /\
    forall j ids id, (j < i)%nat -> L !! j = Some ids \/ L !! (5 + j)%nat = Some ids -> id ∈ ids -> id ∈ acc))|].
  - intros i m1 Hi (H1 & acc & HP1 & U1 & A1). change (Z.to_nat HEAP_SIZECLASSES) with 5%nat in Hi.
    replace (0 + 8 * (0 + Z.of_nat i)) with (8 * Z.of_nat i) by lia. replace (40 + 8 * (0 + Z.of_nat i)) with (8 * Z.of_nat (5 + i)) by lia.
    pose proof (tot_bind_inv _ _ _ _ (clear_list_ok i clear_small fuel L T u n m1 H1 HP1 H11 ltac:(lia) Hfu ltac:(left; split; [done|lia]))) as S1.
    apply tot_bind. eapply tot_mono; [exact S1|]. clear S1. intros c m2 S1. apply tot_bind. eapply tot_mono; [exact S1|]. clear S1.
    intros _ m3 (ids1 & H2 & E1 & HP2 & U2).
    eapply tot_mono; [apply (clear_list_ok (5 + i) clear_small fuel L T u n m3 H2 HP2 H11 ltac:(lia) Hfu); left; split; [done|lia]|].
    intros _ m4 (ids2 & H3 & E2 & HP3 & U3). exists H3, ((acc ++ ids1) ++ ids2). split_and!; [done| |].
    + eapply upd_all_app; [|exact U3]. by eapply upd_all_app.
    + intros j ids id Hj Hl Hid. rewrite !elem_of_app. destruct (decide (j = i)) as [->|Hne].
      * destruct Hl as [Hl|Hl]; rewrite Hl in *; [injection E1 as ->|injection E2 as ->]; auto.
      * left; left. apply (A1 j ids id); [lia|done|done].
  - exists H, []. split_and!; [done|apply upd_all_nil|]. intros; lia.
  - intros _ m1 (H1 & acc & HP1 & U1 & A1). change (Z.to_nat HEAP_SIZECLASSES) with 5%nat in A1.
    pose proof (tot_bind_inv _ _ _ _ (clear_list_ok 10 clear_large fuel L T u n m1 H1 HP1 H11 ltac:(lia) Hfu ltac:(by right))) as S1.
    apply tot_bind. eapply tot_mono; [exact S1|]. clear S1. intros c m2 S1. apply tot_bind. eapply tot_mono; [exact S1|]. clear S1.
    intros _ m3 (ids1 & H2 & E1 & HP2 & U2). apply tot_bind, tot_store.
    { eapply is_struct_inb; [apply (wa_heap _ _ _ _ _ _ _ _ (hp_words _ _ _ _ _ _ _ _ _ _ HP2))|done]. }
    apply tot_ret. split; [done|].
    assert (EH : H2 = clear <$> H).
    { apply (upd_all_full (acc ++ ids1)); [by eapply upd_all_app|]. intros id Hid.
      apply (lo_dom _ _ _ (hp_lists _ _ _ _ _ _ _ _ _ _ HP)) in Hid. simpl in Hid. rewrite app_nil_r in Hid.
      apply elem_concat in Hid as (k & l & Hk & Hid). rewrite elem_of_app.
      pose proof (lookup_lt_Some _ _ _ Hk) as Hlt.
      destruct (decide (k < 5)%nat); [left; apply (A1 k l id); [lia|by left|done]|].
      destruct (decide (k < 10)%nat); [left; apply (A1 (k - 5)%nat l id); [lia|right; by replace (5 + (k - 5))%nat with k by lia|done]|].
      right. assert (k = 10%nat) as -> by lia. congruence. }
    rewrite <- EH. by apply (hp_used_upd _ _ _ _ _ _ _ _ u).
Qed.
End gc.
