(* ===== verification/HeapMark.v ===== *)
(** * What is marked (mem/heap.c: heap_mark, heap_mark_shallow)

    After [heap_startgc] every bit is set.  Marking a pointer into an object
    clears the bit of the object in [slots] or in [shallow]; the objects that
    survive are those with a bit clear in one of the two. *)
From S2P Require Export Fun HeapGc.
Import ds_fun pool heap.

(** The heap's part of tracing a pointer: find its chunk and mark it, with or
    without its fields; pointers outside the heap have no chunk. *)
Definition mark_ptr (root : Z) (e : bool * Z) : prog mem unit :=
  chunk <- pagemap_get root e.2 ;;
  if chunk =? NULL then Ret tt
  else if e.1 then _ <- heap_mark chunk e.2 ;; Ret tt
  else heap_mark_shallow chunk e.2.

(** [p] points into the object [e]. *)
Definition inside (p : Z) (e : Z * Z) : bool := (e.1 <=? p) && (p <? e.1 + e.2).
Definition hit (ps : list Z) (e : Z * Z) : bool := existsb (fun p => inside p e) ps.

Lemma inside_spec p e : inside p e = true <-> e.1 <= p < e.1 + e.2.
Proof. unfold inside. rewrite andb_true_iff, Z.leb_le, Z.ltb_lt. done. Qed.

(** The bits of a chunk after the pointers [ps] were marked. *)
Definition marked (ps : list Z) (c0 c : chunk) : Prop :=
  c_m c = c_m c0 /\ c_size c = c_size c0 /\
  if small c0 then forall j, is_cell (c_size c0) j = true ->
    Z.testbit (Z.land (c_slots c) (c_shallow c)) (Z.of_nat j) = negb (hit ps (cell_at c0 j))
  else (Z.land (c_slots c) (c_shallow c) =? 0) = hit ps (c_m c0, c_size c0).

Definition all_marked (ps : list Z) (H0 H : chunks) : Prop :=
  forall id, match H0 !! id, H !! id with
    | Some c0, Some c => marked ps c0 c
    | None, None => True
    | _, _ => False
    end.

Lemma marked_clear H : all_marked [] H (clear <$> H).
Proof.
  intros id. rewrite lookup_fmap. destruct (H !! id) as [c|]; [|done]. simpl. unfold marked, clear. destruct (small c) eqn:E; simpl.
  - split_and!; try done. intros j Hj. by rewrite Z.land_diag.
  - done.
Qed.

(** ** Cells and blocks *)
Lemma cell_bounds sc j : 0 <= sc < HEAP_SIZECLASSES -> is_cell sc j = true -> 0 <= HEAP_MIN * Z.of_nat j /\ HEAP_MIN * Z.of_nat j + SIZECLASS_SIZE sc <= POOL_ALIGN.
Proof.
  intros Hsc [Hj Hm]%is_cell_spec; [|done]. change HEAP_MIN with 32. change POOL_ALIGN with 1024.
  destruct (sizeclasses sc Hsc) as [->|[->|[->|[->| ->]]]]; simpl Z.pow in Hm;
    match goal with |- _ /\ _ + ?s <= _ => let v := eval vm_compute in s in change s with v end;
    Z.to_euclidean_division_equations; lia.
Qed.

(** Objects lie in their chunk's block. *)
Lemma objs_in_block cls c e : cls_ok cls c -> e ∈ objs c -> 0 < e.2 /\ c_m c <= e.1 /\ e.1 + e.2 <= c_m c + bytes c.
Proof.
  intros [(A1 & A2 & A3 & A4)|(A1 & A2 & A3 & A4 & A5)] He.
  - subst cls. rewrite objs_small in He by done. apply list_elem_of_fmap in He as (j & -> & Hj). apply list_elem_of_filter in Hj as [[Hj _] _].
    destruct (cell_bounds _ _ A1 Hj). unfold cell_at. simpl. rewrite bytes_small by done. rewrite size_small in * by done. lia.
  - assert (Hsm : small c = false).
    { unfold small. apply Z.ltb_ge. assert (HEAP_SIZECLASSES <= HEAP_MAX) by (by vm_compute). lia. }
    unfold objs in He. unfold bytes. rewrite Hsm in *. destruct (c_slots c =? 0); [|by apply not_elem_of_nil in He].
    apply list_elem_of_singleton in He as ->. simpl. assert (0 < HEAP_MAX) by done. lia.
Qed.

(** The page of an address of a block belongs to the chunk. *)
Lemma owns_page c a : block_ok c -> bytes c mod POOL_ALIGN = 0 -> c_m c <= a < c_m c + bytes c -> 0 <= a /\ owns c (page a).
Proof.
  intros (B1 & B2 & B3) Hb Ha. split; [lia|]. unfold owns, page. change POOL_ALIGN with 1024 in *. change (2 ^ 10) with 1024.
  rewrite (Z.mod_small (a / 1024)) by (change (2 ^ 48) with (2 ^ 38 * 1024) in B3; Z.to_euclidean_division_equations; lia).
  Z.to_euclidean_division_equations. lia.
Qed.

Lemma bytes_pages cls c : cls_ok cls c -> bytes c mod POOL_ALIGN = 0 /\ 0 < bytes c.
Proof.
  intros [(A1 & A2 & A3 & A4)|(A1 & A2 & A3 & A4 & A5)].
  - subst cls. by rewrite bytes_small by done.
  - unfold bytes. assert (Hsm : small c = false).
    { unfold small. apply Z.ltb_ge. assert (HEAP_SIZECLASSES <= HEAP_MAX) by (by vm_compute). lia. }
    rewrite Hsm. split; [done|]. assert (0 < HEAP_MAX) by done. lia.
Qed.

(** A pointer into one cell is in no other. *)
Lemma cell_unique c i j p : 0 <= c_size c < HEAP_SIZECLASSES -> block_ok c -> is_cell (c_size c) i = true -> is_cell (c_size c) j = true ->
  inside p (cell_at c i) = true -> inside p (cell_at c j) = true -> i = j.
Proof.
  intros Hsc (B1 & B2 & B3) Hi Hj Pi%inside_spec Pj%inside_spec. rewrite bytes_small in B3 by done. unfold cell_at in *. simpl in *.
  destruct (find_slot (c_m c) _ i p Hsc Hi ltac:(lia) B2 B3 Pi) as [E1 _], (find_slot (c_m c) _ j p Hsc Hj ltac:(lia) B2 B3 Pj) as [E2 _].
  assert (0 < HEAP_MIN) by done. rewrite E1 in E2. nia.
Qed.

(** ** Marking one pointer *)
Lemma marked_other ps c0 c p : marked ps c0 c -> (forall e, c_m c0 <= e.1 -> e.1 + e.2 <= c_m c0 + bytes c0 -> inside p e = false) ->
  (small c0 = true -> 0 <= c_size c0 < HEAP_SIZECLASSES) -> marked (p :: ps) c0 c.
Proof.
  intros (M1 & M2 & M3) Hp Hsc. split_and!; [done|done|]. destruct (small c0) eqn:Hsm; simpl.
  - intros j Hj. rewrite M3 by done. f_equal. rewrite Hp; [done|..]; destruct (cell_bounds _ _ (Hsc eq_refl) Hj); unfold cell_at; simpl; [lia|].
    rewrite bytes_small by auto. lia.
  - rewrite M3. rewrite Hp; [done|simpl; lia|]. simpl. unfold bytes. rewrite Hsm. lia.
Qed.

(** The bit of a cell cleared in one of the two words. *)
Lemma marked_cell ps c0 c j p s sh : marked ps c0 c -> 0 <= c_size c0 < HEAP_SIZECLASSES -> block_ok c0 -> is_cell (c_size c0) j = true ->
  inside p (cell_at c0 j) = true ->
  (s = Z.land (c_slots c) (not32 (Z.shiftl 1 (Z.of_nat j))) /\ sh = c_shallow c \/
   s = c_slots c /\ sh = Z.land (c_shallow c) (not32 (Z.shiftl 1 (Z.of_nat j)))) ->
  marked (p :: ps) c0 (Ch (c_m c) (c_size c) s sh).
Proof.
  intros (M1 & M2 & M3) Hsc Hb Hj Hp Hs. split_and!; [done|done|]. rewrite (small_true c0 Hsc) in *. intros i Hi. simpl.
  assert (Hj32 : (j < 32)%nat) by (by apply (is_cell_spec (c_size c0))). assert (Hi32 : (i < 32)%nat) by (by apply (is_cell_spec (c_size c0))).
  assert (E : Z.testbit (Z.land s sh) (Z.of_nat i) = Z.testbit (Z.land (c_slots c) (c_shallow c)) (Z.of_nat i) && negb (Z.of_nat i =? Z.of_nat j)).
  { rewrite !Z.land_spec. destruct Hs as [[-> ->]|[-> ->]]; rewrite clear_bit by lia; destruct (Z.testbit (c_slots c) _), (Z.testbit (c_shallow c) _), (_ =? _); done. }
  rewrite E, M3 by done. destruct (Z.eqb_spec (Z.of_nat i) (Z.of_nat j)) as [Eij|Eij].
  - assert (i = j) as -> by lia. by rewrite Hp, andb_false_r.
  - destruct (inside p (cell_at c0 i)) eqn:Hpi; [|by rewrite andb_true_r]. destruct Eij. f_equal. by eapply (cell_unique c0 i j p).
Qed.

Lemma marked_large ps c0 c p s sh : marked ps c0 c -> small c0 = false -> inside p (c_m c0, c_size c0) = true -> s = 0 \/ sh = 0 ->
  marked (p :: ps) c0 (Ch (c_m c) (c_size c) s sh).
Proof.
  intros (M1 & M2 & M3) Hsm Hp Hs. split_and!; [done|done|]. rewrite Hsm in *. simpl. rewrite Hp. apply Z.eqb_eq.
  destruct Hs as [-> | ->]; [done|apply Z.land_0_r].
Qed.

Lemma all_marked_insert ps H0 H id c0 c c' p : all_marked ps H0 H -> H0 !! id = Some c0 -> H !! id = Some c -> marked (p :: ps) c0 c' ->
  (forall id' c1, id' <> id -> H0 !! id' = Some c1 -> forall c2, marked ps c1 c2 -> marked (p :: ps) c1 c2) ->
  all_marked (p :: ps) H0 (<[id := c']> H).
Proof.
  intros HA Hc0 Hc Hm Ho id'. specialize (HA id'). destruct (decide (id = id')) as [<-|Hne]; [by rewrite lookup_insert_eq, Hc0|].
  rewrite lookup_insert_ne by done. destruct (H0 !! id') eqn:E0, (H !! id'); try done. eapply Ho; eauto.
Qed.

Section mark.
Context `{HM : Malloc, HR : !MallocRoom}.
Variables (root initialgc heap : Z).
Abbreviation hp_at := (hp_at root initialgc heap).

(** What the collector knows of a pointer it traces: it points into an object, or
    to no page of the heap. *)
Definition traced (H0 : chunks) (T : gmap (list Z) Z) (p : Z) : Prop :=
  (exists id c0 e, H0 !! id = Some c0 /\ e ∈ objs c0 /\ inside p e = true) \/ (0 <= p /\ cell T (path p) = NULL).

Lemma marked_shape ps H0 H : all_marked ps H0 H -> same_shape H0 H.
Proof. intros HA id. specialize (HA id). destruct (H0 !! id), (H !! id); try done. destruct HA as (A & B & _). done. Qed.

(** The effect of [heap_mark] and [heap_mark_shallow] on the bits. *)
Lemma mark_small_ok (d : bool) m H L R T u n id c p j : hp_at m H L R T u n -> H !! id = Some c -> 0 <= c_size c < HEAP_SIZECLASSES ->
  is_cell (c_size c) j = true -> inside p (cell_at c j) = true ->
  tot (if d then _ <- heap_mark id p ;; Ret tt else heap_mark_shallow id p) m (fun _ m' => exists s sh,
    hp_at m' (<[id := Ch (c_m c) (c_size c) s sh]> H) L R T u n /\
    (s = Z.land (c_slots c) (not32 (Z.shiftl 1 (Z.of_nat j))) /\ sh = c_shallow c \/
     s = c_slots c /\ sh = Z.land (c_shallow c) (not32 (Z.shiftl 1 (Z.of_nat j))))).
Proof.
  intros HP Hc Hsc Hj Hp. pose proof (wa_chunk _ _ _ _ _ _ _ _ (hp_words _ _ _ _ _ _ _ _ _ _ HP) id c Hc) as [A1 A2 A3 A4 A5 A6].
  destruct (sh_block _ _ _ _ _ (hp_shape _ _ _ _ _ _ _ _ _ _ HP) id c Hc) as [(B1 & B2 & B3) _]. rewrite bytes_small in B3 by done.
  destruct (cls_of_chunk _ _ _ _ _ (hp_lists _ _ _ _ _ _ _ _ _ _ HP) Hc) as [cls Hcls].
  assert (Hbits : bits_ok (c_size c) (c_slots c) /\ bits_ok (c_size c) (c_shallow c)).
  { destruct Hcls as [(D1 & <- & D3 & D4)|(_ & D2 & _)]; [done|]. exfalso. revert D2 Hsc. change HEAP_MAX with 512. change HEAP_SIZECLASSES with 5. lia. }
  apply inside_spec in Hp. destruct (find_slot (c_m c) (c_size c) j p Hsc Hj ltac:(lia) B2 B3 Hp) as [_ Hfs].
  set (bit := Z.shiftl 1 (Z.of_nat j)) in *.
  assert (Hslots : hp_at (upd m (id, C_SLOTS) (Z.land (c_slots c) (not32 bit)))
    (<[id := Ch (c_m c) (c_size c) (Z.land (c_slots c) (not32 bit)) (c_shallow c)]> H) L R T u n).
  { apply hp_bits with (c := c); auto. intros cls' Hcl. apply cls_bits; [done|apply clear_bits_ok with (c_size c); tauto|apply Hbits|].
    intros _. split; [apply clear_bits_ok; tauto|tauto]. }
  assert (Hshal : hp_at (upd m (id, C_SHALLOW) (Z.land (c_shallow c) (not32 bit)))
    (<[id := Ch (c_m c) (c_size c) (c_slots c) (Z.land (c_shallow c) (not32 bit))]> H) L R T u n).
  { apply hp_bits with (c := c); auto. intros cls' Hcl. apply cls_bits; [done|apply Hbits|apply clear_bits_ok with (c_size c); tauto|].
    intros _. split; [tauto|apply clear_bits_ok; tauto]. }
  assert (Hle : (HEAP_SIZECLASSES <=? c_size c) = false) by (apply Z.leb_gt; lia).
  destruct d; [unfold heap_mark; apply tot_bind|unfold heap_mark_shallow]; apply tot_bind, (tot_load _ _ _ _ A3); rewrite Hle;
    apply tot_bind, (tot_load _ _ _ _ A2); rewrite Hfs.
  - apply tot_bind, (tot_load _ _ _ _ A4). apply tot_bind. destruct (p =? EXTERNAL_PTR p (c_size c)).
    + apply tot_bind, (tot_load _ _ _ _ A4), tot_store; [by eapply is_struct_inb|]. apply tot_ret, tot_ret. eauto 10.
    + apply tot_bind, (tot_load _ _ _ _ A5), tot_store; [by eapply is_struct_inb|]. apply tot_ret, tot_ret. eauto 10.
  - apply tot_bind, (tot_load _ _ _ _ A5), tot_store; [by eapply is_struct_inb|]. eauto 10.
Qed.

Lemma mark_large_ok (d : bool) m H L R T u n id c p : hp_at m H L R T u n -> H !! id = Some c -> small c = false ->
  tot (if d then _ <- heap_mark id p ;; Ret tt else heap_mark_shallow id p) m (fun _ m' => exists s sh,
    hp_at m' (<[id := Ch (c_m c) (c_size c) s sh]> H) L R T u n /\ (s = 0 \/ sh = 0)).
Proof.
  intros HP Hc Hsm. pose proof (wa_chunk _ _ _ _ _ _ _ _ (hp_words _ _ _ _ _ _ _ _ _ _ HP) id c Hc) as [A1 A2 A3 A4 A5 A6].
  unfold small in Hsm. apply Z.ltb_ge in Hsm.
  destruct (cls_of_chunk _ _ _ _ _ (hp_lists _ _ _ _ _ _ _ _ _ _ HP) Hc) as [cls Hcls].
  assert (Hnn : 0 <= c_slots c /\ 0 <= c_shallow c) by (destruct Hcls as [(? & ? & [? ?] & [? ?])|(_ & _ & _ & ? & ?)]; done).
  assert (Hslots : hp_at (upd m (id, C_SLOTS) 0) (<[id := Ch (c_m c) (c_size c) 0 (c_shallow c)]> H) L R T u n).
  { apply hp_bits with (c := c); auto. intros cls' Hcl. apply cls_bits; [done|lia|tauto|lia]. }
  assert (Hshal : hp_at (upd m (id, C_SHALLOW) 0) (<[id := Ch (c_m c) (c_size c) (c_slots c) 0]> H) L R T u n).
  { apply hp_bits with (c := c); auto. intros cls' Hcl. apply cls_bits; [done|tauto|lia|lia]. }
  assert (Hle : (HEAP_SIZECLASSES <=? c_size c) = true) by (by apply Z.leb_le).
  destruct d; [unfold heap_mark; apply tot_bind|unfold heap_mark_shallow]; apply tot_bind, (tot_load _ _ _ _ A3); rewrite Hle.
  - apply tot_bind, (tot_load _ _ _ _ A4), tot_bind, (tot_load _ _ _ _ A2), tot_bind.
    destruct (p =? c_m c); apply tot_store; try (by eapply is_struct_inb); apply tot_ret, tot_ret; eauto 10.
  - apply tot_store; [by eapply is_struct_inb|]. eauto 10.
Qed.

(** Nothing in a block that [p] is outside of contains [p]. *)
Lemma outside_block c0 p : ~ (c_m c0 <= p < c_m c0 + bytes c0) -> forall e, c_m c0 <= e.1 -> e.1 + e.2 <= c_m c0 + bytes c0 -> inside p e = false.
Proof. intros Hp e H1 H2. destruct (inside p e) eqn:E; [|done]. apply inside_spec in E. exfalso. apply Hp. lia. Qed.

Lemma cls_small_range cls c : cls_ok cls c -> small c = true -> 0 <= c_size c < HEAP_SIZECLASSES.
Proof.
  intros [(A1 & A2 & _)|(_ & A2 & _)] Hsm; [by rewrite A2|]. unfold small in Hsm. apply Z.ltb_lt in Hsm.
  assert (0 < HEAP_MAX) by done. lia.
Qed.

Lemma mark_ptr_ok d p m H L R T u n ps H0 L0 R0 : hp_at m H L R T u n -> lists_ok H0 L0 R0 -> all_marked ps H0 H -> traced H0 T p ->
  tot (mark_ptr root (d, p)) m (fun _ m' => exists H', hp_at m' H' L R T u n /\ all_marked (p :: ps) H0 H').
Proof.
  intros HP HL0 HA Htr. pose proof (marked_shape _ _ _ HA) as HSh. pose proof (hp_shape _ _ _ _ _ _ _ _ _ _ HP) as HS.
  assert (Hfact : forall id c0, H0 !! id = Some c0 -> block_ok c0 /\ (small c0 = true -> 0 <= c_size c0 < HEAP_SIZECLASSES) /\ bytes c0 mod POOL_ALIGN = 0).
  { intros id c0 Hc0. destruct (same_shape_fwd _ _ _ _ HSh Hc0) as (c & Hc & Em & Es).
    destruct (sh_block _ _ _ _ _ HS id c Hc) as [Hb _]. destruct (cls_of_chunk _ _ _ _ _ HL0 Hc0) as [cls Hcls].
    unfold block_ok in *. rewrite Em, (same_bytes _ _ Es) in Hb. destruct (bytes_pages _ _ Hcls). split; [exact Hb|]. split; [|done].
    intros Hsm. apply (cls_small_range _ _ Hcls Hsm). }
  unfold mark_ptr. simpl. apply tot_bind. eapply tot_mono; [apply pagemap_get_ok, (wa_map _ _ _ _ _ _ _ _ (hp_words _ _ _ _ _ _ _ _ _ _ HP))|].
  intros r m' [-> ->]. destruct Htr as [(id & c0 & e & Hc0 & He & Hin)|[Hp0 Hcell]].
  - destruct (same_shape_fwd _ _ _ _ HSh Hc0) as (c & Hc & Em & Es). destruct (Hfact id c0 Hc0) as (Hb & Hsc & Hmod).
    destruct (cls_of_chunk _ _ _ _ _ HL0 Hc0) as [cls Hcls]. destruct (objs_in_block _ _ _ Hcls He) as (_ & E1 & E2).
    apply inside_spec in Hin as Hin'. destruct (owns_page c0 p Hb Hmod ltac:(lia)) as [Hp0 Hown].
    assert (Ecell : cell T (path p) = id).
    { eapply sh_page; [exact HS|exact Hc|done|]. unfold owns in *. by rewrite Em, (same_bytes _ _ Es). }
    destruct (sh_block _ _ _ _ _ HS id c Hc) as [_ Hid]. rewrite Ecell, (proj2 (Z.eqb_neq _ _) Hid).
    assert (Hm : marked ps c0 c) by (specialize (HA id); by rewrite Hc0, Hc in HA).
    assert (Hoth : forall id' c1, id' <> id -> H0 !! id' = Some c1 -> forall c2, marked ps c1 c2 -> marked (p :: ps) c1 c2).
    { intros id' c1 Hne Hc1 c2 Hm1. apply marked_other; [done| |by apply (Hfact id')]. apply outside_block.
      destruct (same_shape_fwd _ _ _ _ HSh Hc1) as (c3 & Hc3 & Em3 & Es3).
      pose proof (sh_inj _ _ _ _ _ HS id c id' c3 Hc Hc3 ltac:(congruence)) as Hd.
      rewrite Em, Em3, (same_bytes _ _ Es), (same_bytes _ _ Es3) in Hd. lia. }
    destruct (small c0) eqn:Hsm.
    + rewrite objs_small in He by auto. apply list_elem_of_fmap in He as (j & -> & Hj). apply list_elem_of_filter in Hj as [[Hj _] _].
      assert (Hcell : cell_at c j = cell_at c0 j) by (unfold cell_at; by rewrite Em, Es).
      rewrite <- Es in Hj. eapply tot_mono; [apply (mark_small_ok d m H L R T u n id c p j HP Hc); [by rewrite Es; auto|done|by rewrite Hcell]|].
      intros [] m' (s & sh & HP' & Hs). eexists. split; [exact HP'|]. eapply all_marked_insert; [exact HA|exact Hc0|exact Hc| |exact Hoth].
      apply (marked_cell ps c0 c j p s sh Hm (Hsc eq_refl) Hb); [by rewrite <- Es|exact Hin|exact Hs].
    + unfold objs in He. rewrite Hsm in He. destruct (c_slots c0 =? 0); [|by apply not_elem_of_nil in He]. apply list_elem_of_singleton in He as ->.
      eapply tot_mono; [apply (mark_large_ok d m H L R T u n id c p HP Hc); unfold small in *; by rewrite Es|].
      intros [] m' (s & sh & HP' & Hs). eexists. split; [exact HP'|]. eapply all_marked_insert; [exact HA|exact Hc0|exact Hc| |exact Hoth].
      by apply marked_large.
  - rewrite Hcell. simpl. apply tot_ret. exists H. split; [done|]. intros id. specialize (HA id).
    destruct (H0 !! id) as [c0|] eqn:Hc0, (H !! id) as [c|] eqn:Hc; try done. destruct (Hfact id c0 Hc0) as (Hb & Hsc & Hmod).
    destruct HA as (Em & Es & HA). apply marked_other; [done| |done]. apply outside_block. intros Hin.
    destruct (owns_page c0 p Hb Hmod Hin) as [_ Hown].
    assert (E : cell T (path p) = id).
    { eapply sh_page; [exact HS|exact Hc|done|]. unfold owns in *. by rewrite Em, (same_bytes _ _ Es). }
    destruct (sh_block _ _ _ _ _ HS id c Hc) as [_ Hid]. congruence.
Qed.

(** Tracing a list of pointers. *)
Fixpoint mark_all (es : list (bool * Z)) : prog mem unit :=
  match es with
  | [] => Ret tt
  | e :: es' => mark_ptr root e ;; mark_all es'
  end.

Lemma mark_all_ok es : forall m H L R T u n ps H0 L0 R0, hp_at m H L R T u n -> lists_ok H0 L0 R0 -> all_marked ps H0 H ->
  Forall (fun e => traced H0 T e.2) es ->
  tot (mark_all es) m (fun _ m' => exists H', hp_at m' H' L R T u n /\ all_marked (rev (es.*2) ++ ps) H0 H').
Proof.
  induction es as [|[d p] es IH]; intros m H L R T u n ps H0 L0 R0 HP HL0 HA Htr; simpl.
  - apply tot_ret. eauto.
  - apply Forall_cons in Htr as [Hp Htr]. apply tot_bind. eapply tot_mono; [by eapply mark_ptr_ok|].
    intros _ m1 (H1 & HP1 & HA1). eapply tot_mono; [by eapply IH|]. intros _ m2 (H2 & HP2 & HA2). exists H2. split; [done|].
    by rewrite <- app_assoc.
Qed.
End mark.
