(* ===== verification/HeapLists.v ===== *)
(** * Moving chunks between lists and setting pages (mem/heap.c) *)
From S2P Require Export Fun HeapMark.
Import ds_fun pool heap.

(** ** Pages *)

(** The pages of [a .. a + size] have the value [v]. *)
Definition paged (T T' : gmap (list Z) Z) (a size v : Z) : Prop :=
  forall x, 0 <= x -> cell T' (path x) = if decide (a <= POOL_ALIGN * page x < a + size) then v else cell T (path x).

Lemma paged_trans T T1 T2 a s1 s2 v : 0 <= s1 -> 0 <= s2 -> paged T T1 a s1 v -> paged T1 T2 (a + s1) s2 v -> paged T T2 a (s1 + s2) v.
Proof.
  intros H1 H2 P1 P2 x Hx. rewrite P2, P1 by done. repeat case_decide; try done; lia.
Qed.

Section pages.
Context `{HM : Malloc, HR : !MallocRoom}.
Variable root : Z.

Lemma set_page_ok k a v m T : pm_at root m T -> mroom (3 + k) m -> 0 <= a -> a mod POOL_ALIGN = 0 -> a + POOL_ALIGN <= 2 ^ 48 ->
  tot (pagemap_set root a v) m (fun _ m' => mroom k m' /\ exists T', pm_at root m' T' /\ pm_grows root m m' T T' /\ paged T T' a POOL_ALIGN v).
Proof.
  intros HT Hk Ha Hmod H48. eapply tot_mono; [by apply (pagemap_set_ok root k a v m T)|]. intros _ m' (R & T' & HT' & HG & HC).
  split; [done|]. exists T'. split_and!; auto. intros x Hx. rewrite HC by done.
  assert (E : path x = path a <-> a <= POOL_ALIGN * page x < a + POOL_ALIGN).
  { rewrite page_path by done. unfold page at 2. change POOL_ALIGN with 1024 in *. change (2 ^ 10) with 1024.
    rewrite (Z.mod_small (a / 1024)) by (change (2 ^ 48) with (2 ^ 38 * 1024) in H48; Z.to_euclidean_division_equations; lia).
    Z.to_euclidean_division_equations; lia. }
  repeat case_decide; tauto.
Qed.

Lemma large_pagemap_ok fuel v : forall (n : nat) k a m T, pm_at root m T -> mroom (3 * n + k) m -> 0 <= a -> a mod POOL_ALIGN = 0 ->
  a + POOL_ALIGN * Z.of_nat n <= 2 ^ 48 -> (n < fuel)%nat ->
  tot (large_pagemap root fuel a (POOL_ALIGN * Z.of_nat n) v) m (fun _ m' => mroom k m' /\ exists T', pm_at root m' T' /\
    pm_grows root m m' T T' /\ paged T T' a (POOL_ALIGN * Z.of_nat n) v).
Proof.
  intros n k a m T HT Hk Ha Hmod H48 Hf. unfold large_pagemap.
  assert (Hend : u64 (a + POOL_ALIGN * Z.of_nat n) = a + POOL_ALIGN * Z.of_nat n).
  { apply u64_small. change POOL_ALIGN with 1024 in *. unfold M64. lia. }
  rewrite Hend. remember (a + POOL_ALIGN * Z.of_nat n) as e eqn:He. clear Hend. revert a fuel m T HT Hk Ha Hmod Hf He.
  induction n as [|n IH]; intros a fuel m T HT Hk Ha Hmod Hf He.
  - apply tot_loop_exit; [lia|]. replace (a <? e) with false by (symmetry; apply Z.ltb_ge; lia). apply tot_ret. split; [done|].
    exists T. split_and!; [done|apply pm_grows_refl|]. intros x _. rewrite decide_False by lia. done.
  - destruct fuel as [|fuel]; [lia|]. change POOL_ALIGN with 1024 in *. apply tot_loop_S.
    replace (a <? e) with true by (symmetry; apply Z.ltb_lt; lia).
    apply tot_bind. eapply tot_mono; [apply (set_page_ok (3 * n + k) a v m T HT); [eapply mroom_mono; [exact Hk|lia]|done|done|change POOL_ALIGN with 1024; lia]|].
    intros _ m1 (R1 & T1 & HT1 & G1 & P1). apply tot_ret. rewrite u64_small by (unfold M64; lia).
    eapply tot_mono; [apply (IH (a + 1024) fuel m1 T1); [done|done|lia|Z.to_euclidean_division_equations; lia|lia|lia]|].
    intros _ m2 (R2 & T2 & HT2 & G2 & P2). split; [done|]. exists T2. split_and!; [done|by apply (pm_grows_trans root m m1 m2 T T1)|].
    replace (1024 * Z.of_nat (S n)) with (1024 + 1024 * Z.of_nat n) by lia. eapply paged_trans; [lia|lia|exact P1|exact P2].
Qed.
End pages.

(** ** Lists *)
Lemma concat_insert_cons (L : list (list Z)) k l id : L !! k = Some l -> concat (<[k := id :: l]> L) ≡ₚ id :: concat L.
Proof.
  revert k. induction L as [|l0 L IH]; intros [|k] E; simpl in *; [done|done|by injection E as ->|].
  rewrite (IH k E). by rewrite Permutation_middle.
Qed.

Section lists.
Variables (root initialgc heap : Z).
Abbreviation hp_at := (hp_at root initialgc heap).
Abbreviation shape_ok := (shape_ok root initialgc heap).
Abbreviation words_at := (words_at root initialgc heap).
Abbreviation lists_at := (lists_at heap).

Lemma hp_words_next m H T u n id c v : words_at m H T u n -> shape_ok H T -> H !! id = Some c -> words_at (upd m (id, C_NEXT) v) H T u n.
Proof.
  intros HW HS Hc. rewrite <- (insert_id H id c Hc). destruct (wa_chunk _ _ _ _ _ _ _ _ HW id c Hc) as [A1 A2 A3 A4 A5 A6].
  eapply words_replace; eauto; [intros b Hb; by apply lookup_upd_ne|].
  split; try (by rewrite is_struct_upd); by rewrite get_upd_ne by congruence.
Qed.

Lemma hp_words_head m H T u n k v : words_at m H T u n -> shape_ok H T -> (k < 11)%nat -> words_at (upd m (heap, 8 * Z.of_nat k) v) H T u n.
Proof.
  intros HW HS Hk. eapply words_heap; [exact HW|done|..]; (rewrite get_upd_ne; [apply HW|intros [= E]; lia]).
Qed.

(** The first chunk of a variable's list. *)
Lemma var_head m H L R T u n cls p id rest : hp_at m H L ((cls, p, id :: rest) :: R) T u n ->
  p = id /\ id <> NULL /\ get m (id, C_NEXT) = Some (List.hd NULL rest) /\ clist m (List.hd NULL rest) rest /\
  exists c, H !! id = Some c /\ cls_ok cls c /\ chunk_at m id c.
Proof.
  intros HP. pose proof (la_vars _ _ _ _ (hp_chain _ _ _ _ _ _ _ _ _ _ HP) cls p (id :: rest) ltac:(left)) as (-> & Hn & nx & Hx & Hr).
  pose proof (clist_hd _ _ _ Hr) as ->. destruct (var_chunk H L _ cls id (id :: rest) id (hp_lists _ _ _ _ _ _ _ _ _ _ HP) ltac:(left) ltac:(left)) as (c & Hc & Hcls).
  split_and!; auto. exists c. split_and!; auto. apply (wa_chunk _ _ _ _ _ _ _ _ (hp_words _ _ _ _ _ _ _ _ _ _ HP)). done.
Qed.

(** A list variable that is empty. *)
Lemma var_drop m H L R T u n cls p : (hp_at m H L ((cls, p, []) :: R) T u n) <-> (hp_at m H L R T u n /\ p = NULL).
Proof.
  split.
  - intros [[L1 L2 L3 L4 L5] HS HW [C1 C2]]. split; [|apply (C2 cls p []); left]. split; auto; split; auto.
    + intros cls' p' ids' id c Hi. apply (L5 cls' p'). by right.
    + intros cls' p' ids' Hi. apply (C2 cls' p'). by right.
  - intros [[[L1 L2 L3 L4 L5] HS HW [C1 C2]] ->]. split; auto; split; auto.
    + intros cls' p' ids' id c [[= -> -> ->]|Hi]%elem_of_cons Hid; [by apply not_elem_of_nil in Hid|by eapply L5].
    + intros cls' p' ids' [[= -> -> ->]|Hi]%elem_of_cons; [done|by eapply C2].
Qed.

Lemma lists_move H L R L' R' : lists_ok H L R -> (length L' <= 11)%nat -> concat L' ++ concat (R'.*2) ≡ₚ concat L ++ concat (R.*2) ->
  (forall k ids id c, L' !! k = Some ids -> id ∈ ids -> H !! id = Some c -> cls_ok (kcls k) c) ->
  (forall cls p ids id c, (cls, p, ids) ∈ R' -> id ∈ ids -> H !! id = Some c -> cls_ok cls c) -> lists_ok H L' R'.
Proof.
  intros [L1 L2 L3 L4 L5] Hlen HP H1 H2. split; auto; [by rewrite HP|]. intros id. by rewrite HP.
Qed.

(** No other list has the chunk. *)
Lemma var_apart H L R cls p id rest : lists_ok H L ((cls, p, id :: rest) :: R) ->
  (id ∉ rest) /\ (id ∉ concat L) /\ (id ∉ concat (R.*2)).
Proof.
  intros HL. pose proof (lo_nodup _ _ _ HL) as Hnd. simpl in Hnd. rewrite <- Permutation_middle in Hnd. apply NoDup_cons in Hnd as [Hn _].
  rewrite !elem_of_app in Hn. tauto.
Qed.

Lemma clist_other m id v p ids : clist m p ids -> id ∉ ids -> clist (upd m (id, C_NEXT) v) p ids.
Proof. intros Hc Hn. apply (clist_ext m); [done|]. intros id' Hid. apply get_upd_ne. intros [= ->]. done. Qed.

Lemma clist_heap m H T k v p ids : shape_ok H T -> (forall id, id ∈ ids -> is_Some (H !! id)) -> clist m p ids -> clist (upd m (heap, k) v) p ids.
Proof.
  intros HS Hd Hc. apply (clist_ext m); [done|]. intros id Hid. apply get_upd_ne. destruct (Hd id Hid) as [c Hc'].
  destruct (sh_apart _ _ _ _ _ HS id (owned_id _ _ _ Hc')) as (A & _). congruence.
Qed.

(** The first chunk of a variable's list goes to the front of a list of the heap. *)
Lemma move_ok m H L R T u n cls p id rest k l : hp_at m H L ((cls, p, id :: rest) :: R) T u n -> L !! k = Some l -> kcls k = cls ->
  hp_at (upd (upd m (id, C_NEXT) (List.hd NULL l)) (heap, 8 * Z.of_nat k) id) H (<[k := id :: l]> L) ((cls, List.hd NULL rest, rest) :: R) T u n.
Proof.
  intros HP Hk Hcls. destruct (var_head _ _ _ _ _ _ _ _ _ _ _ HP) as (-> & Hn & Hx & Hr & c & Hc & Hco & Hca). destruct HP as [HL HS HW HC].
  destruct (var_apart _ _ _ _ _ _ _ HL) as (N1 & N2 & N3). pose proof (lookup_lt_Some _ _ _ Hk) as Hlt. pose proof (lo_len _ _ _ HL) as Hlen.
  assert (Hidl : id ∉ l) by (intros ?; apply N2; by eapply concat_elem).
  assert (Hdom : forall id', id' ∈ concat L ++ concat (((cls, id, id :: rest) :: R).*2) -> is_Some (H !! id')) by (intros id' ?; by apply (lo_dom _ _ _ HL)).
  assert (Hfar : forall p' ids, clist m p' ids -> id ∉ ids -> (forall id', id' ∈ ids -> is_Some (H !! id')) ->
    clist (upd (upd m (id, C_NEXT) (List.hd NULL l)) (heap, 8 * Z.of_nat k) id) p' ids).
  { intros p' ids Hp Hni Hd. eapply clist_heap; [exact HS|done|]. by apply clist_other. }
  assert (Hlive : live m id) by (eapply is_struct_live, (ca_id _ _ _ Hca)).
  assert (Hh : id <> heap) by (by destruct (sh_apart _ _ _ _ _ HS id (owned_id _ _ _ Hc))).
  split.
  - eapply lists_move; [exact HL|by rewrite length_insert| | |].
    + rewrite (concat_insert_cons L k l id Hk). simpl. by rewrite <- Permutation_middle.
    + intros k' ids id' c' Hk' Hid Hc'. apply list_lookup_insert_Some in Hk' as [(<- & <- & _)|[_ Hk']]; [|by eapply lo_cls].
      apply elem_of_cons in Hid as [->|Hid]; [congruence|]. by eapply lo_cls.
    + intros cls' p' ids id' c' [[= -> -> ->]|Hi]%elem_of_cons Hid Hc'.
      * eapply lo_vars; [exact HL|left|by right|done].
      * eapply lo_vars; [exact HL|by right|done|done].
  - done.
  - apply hp_words_head; [by eapply hp_words_next|done|lia].
  - split.
    + intros k' ids Hk'. apply list_lookup_insert_Some in Hk' as [(<- & <- & _)|[Hne Hk']].
      * exists id. split; [apply get_upd_eq; simpl; apply live_upd; eapply is_struct_live, (wa_heap _ _ _ _ _ _ _ _ HW)|].
        simpl. split_and!; [done|done|]. exists (List.hd NULL l). split.
        { rewrite get_upd_ne by congruence. by apply get_upd_eq. }
        apply Hfar; [|done|intros id' ?; apply Hdom, elem_of_app; left; by eapply concat_elem].
        destruct (la_heap _ _ _ _ HC k l Hk) as (p' & _ & Hl). by rewrite (clist_hd _ _ _ Hl) in Hl.
      * destruct (la_heap _ _ _ _ HC k' ids Hk') as (p' & Hp' & Hl). exists p'. split.
        { rewrite !get_upd_ne; [done|congruence|]. intros [= E]. lia. }
        apply Hfar; [done|intros ?; apply N2; by eapply concat_elem|intros id' ?; apply Hdom, elem_of_app; left; by eapply concat_elem].
    + intros cls' p' ids [[= -> -> ->]|Hi]%elem_of_cons.
      * apply Hfar; [done|done|]. intros id' ?. apply Hdom, elem_of_app. right. simpl. right. apply elem_of_app. by left.
      * assert (Hin : forall id', id' ∈ ids -> id' ∈ concat (R.*2)).
        { intros id' Hid. apply list_elem_of_lookup in Hi as [j Hj]. eapply (concat_elem _ j ids); [|done]. by rewrite list_lookup_fmap, Hj. }
        apply Hfar; [apply (la_vars _ _ _ _ HC cls' p'); by right|by intros ?%Hin|].
        intros id' Hid%Hin. apply Hdom, elem_of_app. right. simpl. right. apply elem_of_app. by right.
Qed.

(** The first chunk of a variable's list goes to the front of another variable's. *)
Lemma move_var_ok m H L R T u n cls p id rest p' l : hp_at m H L ((cls, p, id :: rest) :: (cls, p', l) :: R) T u n ->
  hp_at (upd m (id, C_NEXT) p') H L ((cls, List.hd NULL rest, rest) :: (cls, id, id :: l) :: R) T u n.
Proof.
  intros HP. destruct (var_head _ _ _ _ _ _ _ _ _ _ _ HP) as (-> & Hn & Hx & Hr & c & Hc & Hco & Hca). destruct HP as [HL HS HW HC].
  destruct (var_apart _ _ _ _ _ _ _ HL) as (N1 & N2 & N3). simpl in N3. rewrite elem_of_app in N3.
  assert (Hlive : live m id) by (eapply is_struct_live, (ca_id _ _ _ Hca)).
  split.
  - eapply lists_move; [exact HL|apply HL| | |].
    + simpl. apply Permutation_app_head. by rewrite <- Permutation_middle.
    + intros k' ids id' c' Hk' Hid Hc'. by eapply lo_cls.
    + intros cls' q ids id' c' [[= -> -> ->]|[[= -> -> ->]|Hi]%elem_of_cons]%elem_of_cons Hid Hc'.
      * eapply lo_vars; [exact HL|left|by right|done].
      * apply elem_of_cons in Hid as [->|Hid]; [congruence|]. eapply lo_vars; [exact HL|right; left|done|done].
      * eapply lo_vars; [exact HL|right; by right|done|done].
  - done.
  - by eapply hp_words_next.
  - split.
    + intros k' ids Hk'. destruct (la_heap _ _ _ _ HC k' ids Hk') as (q & Hq & Hl). exists q. split.
      { rewrite get_upd_ne; [done|]. destruct (sh_apart _ _ _ _ _ HS id (owned_id _ _ _ Hc)) as (A & _). congruence. }
      apply clist_other; [done|]. intros ?. apply N2. by eapply concat_elem.
    + intros cls' q ids [[= -> -> ->]|[[= -> -> ->]|Hi]%elem_of_cons]%elem_of_cons.
      * by apply clist_other.
      * simpl. split_and!; [done|done|]. exists p'. split; [by apply get_upd_eq|]. apply clist_other; [|tauto].
        apply (la_vars _ _ _ _ HC cls p'). right; left.
      * apply clist_other; [apply (la_vars _ _ _ _ HC cls' q); right; by right|]. intros Hid. apply N3. right.
        apply list_elem_of_lookup in Hi as [j Hj]. eapply (concat_elem _ j ids); [|done]. by rewrite list_lookup_fmap, Hj.
Qed.

Lemma concat_insert_nil (L : list (list Z)) k l : L !! k = Some l -> concat (<[k := []]> L) ++ l ≡ₚ concat L.
Proof.
  revert k. induction L as [|l0 L IH]; intros [|k] E; simpl in *; [done|done|injection E as ->; apply Permutation_app_comm|].
  by rewrite <- app_assoc, (IH k E).
Qed.

(** A list of the heap goes to a variable, the heap's becomes empty. *)
Lemma take_ok m H L R T u n k l : hp_at m H L R T u n -> L !! k = Some l ->
  hp_at (upd m (heap, 8 * Z.of_nat k) NULL) H (<[k := []]> L) ((kcls k, List.hd NULL l, l) :: R) T u n.
Proof.
  intros [HL HS HW HC] Hk. pose proof (lookup_lt_Some _ _ _ Hk) as Hlt. pose proof (lo_len _ _ _ HL) as Hlen.
  assert (Hdom : forall id', id' ∈ concat L ++ concat (R.*2) -> is_Some (H !! id')) by (intros id' ?; by apply (lo_dom _ _ _ HL)).
  assert (Hfar : forall p' ids, clist m p' ids -> (forall id', id' ∈ ids -> id' ∈ concat L ++ concat (R.*2)) ->
    clist (upd m (heap, 8 * Z.of_nat k) NULL) p' ids) by (intros; eapply clist_heap; eauto).
  split; [|done|by apply hp_words_head; auto; lia|].
  - eapply lists_move; [exact HL|by rewrite length_insert| | |].
    + simpl. by rewrite app_assoc, (concat_insert_nil L k l Hk).
    + intros k' ids id' c' Hk' Hid Hc'. apply list_lookup_insert_Some in Hk' as [(<- & <- & _)|[_ Hk']]; [by apply not_elem_of_nil in Hid|by eapply lo_cls].
    + intros cls' p' ids id' c' [[= -> -> ->]|Hi]%elem_of_cons Hid Hc'; [by eapply lo_cls|by eapply lo_vars].
  - split.
    + intros k' ids Hk'. apply list_lookup_insert_Some in Hk' as [(<- & <- & _)|[Hne Hk']].
      * exists NULL. split; [|done]. apply get_upd_eq. simpl. eapply is_struct_live, (wa_heap _ _ _ _ _ _ _ _ HW).
      * destruct (la_heap _ _ _ _ HC k' ids Hk') as (p' & Hp' & Hl). exists p'. split; [rewrite get_upd_ne; [done|intros [= E]; lia]|].
        apply Hfar; [done|]. intros id' ?. apply elem_of_app. left. by eapply concat_elem.
    + intros cls' p' ids [[= -> -> ->]|Hi]%elem_of_cons.
      * destruct (la_heap _ _ _ _ HC k l Hk) as (p' & Hp' & Hl). rewrite <- (clist_hd _ _ _ Hl). apply Hfar; [done|].
        intros id' ?. apply elem_of_app. left. by eapply concat_elem.
      * apply Hfar; [by eapply (la_vars _ _ _ _ HC)|]. intros id' Hid. apply elem_of_app. right.
        apply list_elem_of_lookup in Hi as [j Hj]. eapply (concat_elem _ j ids); [|done]. by rewrite list_lookup_fmap, Hj.
Qed.

(** The last list is held in a variable while the heap's field is stale. *)
Lemma hold_large m H L R T u n l : hp_at m H (L ++ [l]) R T u n -> length L = 10%nat -> hp_at m H L ((HEAP_SIZECLASSES, List.hd NULL l, l) :: R) T u n.
Proof.
  intros [HL HS HW HC] H10. split; auto.
  - eapply lists_move; [exact HL|lia| | |].
    + rewrite concat_app. simpl. by rewrite app_nil_r, <- app_assoc.
    + intros k ids id c Hk. eapply (lo_cls _ _ _ HL). by apply lookup_app_l_Some.
    + intros cls p ids id c [[= -> -> ->]|Hi]%elem_of_cons Hid Hc; [|by eapply lo_vars].
      apply (lo_cls _ _ _ HL 10%nat l id c); [|done|done]. by rewrite lookup_app_r, H10 by lia.
  - split.
    + intros k ids Hk. apply (la_heap _ _ _ _ HC). by apply lookup_app_l_Some.
    + intros cls p ids [[= -> -> ->]|Hi]%elem_of_cons; [|by eapply (la_vars _ _ _ _ HC)].
      destruct (la_heap _ _ _ _ HC 10%nat l) as (p' & _ & Hl); [by rewrite lookup_app_r, H10 by lia|]. by rewrite (clist_hd _ _ _ Hl) in Hl.
Qed.

Lemma put_large m H L R T u n p l : hp_at m H L ((HEAP_SIZECLASSES, p, l) :: R) T u n -> length L = 10%nat ->
  hp_at (upd m (heap, H_LARGE) p) H (L ++ [l]) R T u n.
Proof.
  intros [HL HS HW HC] H10.
  assert (Hdom : forall id', id' ∈ concat L ++ concat (((HEAP_SIZECLASSES, p, l) :: R).*2) -> is_Some (H !! id')) by (intros id' ?; by apply (lo_dom _ _ _ HL)).
  assert (Hfar : forall p' ids, clist m p' ids -> (forall id', id' ∈ ids -> id' ∈ concat L ++ concat (((HEAP_SIZECLASSES, p, l) :: R).*2)) ->
    clist (upd m (heap, H_LARGE) p) p' ids) by (intros; eapply clist_heap; eauto).
  assert (HinR : forall cls' p' ids id', (cls', p', ids) ∈ (HEAP_SIZECLASSES, p, l) :: R -> id' ∈ ids -> id' ∈ concat L ++ concat (((HEAP_SIZECLASSES, p, l) :: R).*2)).
  { intros cls' p' ids id' Hi Hid. apply elem_of_app. right. apply list_elem_of_lookup in Hi as [j Hj].
    eapply (concat_elem _ j ids); [|done]. by rewrite list_lookup_fmap, Hj. }
  split; [|done|change H_LARGE with (8 * Z.of_nat 10); apply hp_words_head; auto; lia|].
  - eapply lists_move; [exact HL|rewrite length_app; simpl; lia| | |].
    + rewrite concat_app. simpl. by rewrite app_nil_r, <- app_assoc.
    + intros k ids id c Hk Hid Hc. apply lookup_app_Some in Hk as [Hk|[Hge Hk]]; [by eapply lo_cls|].
      rewrite H10 in *. destruct (k - 10)%nat as [|?] eqn:Ek; [|done]. injection Hk as <-. assert (k = 10%nat) as -> by lia.
      eapply (lo_vars _ _ _ HL HEAP_SIZECLASSES); [left|done|done].
    + intros cls p' ids id c Hi Hid Hc. eapply (lo_vars _ _ _ HL); [by right|done|done].
  - split.
    + intros k ids Hk. apply lookup_app_Some in Hk as [Hk|[Hge Hk]].
      * pose proof (lookup_lt_Some _ _ _ Hk). destruct (la_heap _ _ _ _ HC k ids Hk) as (p' & Hp' & Hl). exists p'.
        split; [rewrite get_upd_ne; [done|intros [= E]; lia]|]. apply Hfar; [done|]. intros id' ?. apply elem_of_app. left. by eapply concat_elem.
      * rewrite H10 in *. destruct (k - 10)%nat as [|?] eqn:Ek; [|done]. injection Hk as <-. assert (k = 10%nat) as -> by lia.
        exists p. split; [apply get_upd_eq; simpl; eapply is_struct_live, (wa_heap _ _ _ _ _ _ _ _ HW)|].
        apply Hfar; [apply (la_vars _ _ _ _ HC HEAP_SIZECLASSES p); left|]. intros id' ?. eapply HinR; [left|done].
    + intros cls p' ids Hi. apply Hfar; [apply (la_vars _ _ _ _ HC cls p'); by right|]. intros id' ?. eapply HinR; [by right|done].
Qed.

(** ** Changes of the page map *)
Lemma chunk_owned_live m H T u n b : words_at m H T u n -> owned H b -> live m b.
Proof.
  intros HW [[c Hc]|(id & c & Hc & <-)]; destruct (wa_chunk _ _ _ _ _ _ _ _ HW _ _ Hc) as [A1 _ _ _ _ A6]; by eapply is_struct_live.
Qed.

Lemma pm_change m H L R T u n m2 T2 : hp_at m H L R T u n -> pm_at root m2 T2 -> pm_grows root m m2 T T2 ->
  words_at m2 H T2 u n /\ lists_at m2 L R /\ (forall b, owned H b \/ b = heap \/ b = initialgc -> ~ pm_objs root T2 b /\ m2 !! b = m !! b).
Proof.
  intros [HL HS HW HC] HT2 (G1 & G2 & G3).
  assert (Hfr : forall b, owned H b \/ b = heap \/ b = initialgc -> ~ pm_objs root T2 b /\ m2 !! b = m !! b).
  { intros b Hb. assert (Hn : ~ pm_objs root T2 b); [|auto]. intros Ho. destruct (G2 b Ho) as [Ho'|Hnone].
    - destruct (sh_static _ _ _ _ _ HS) as (S1 & S2 & S3). destruct Hb as [Hb|[->| ->]]; [|done|done].
      by destruct (sh_apart _ _ _ _ _ HS b Hb) as (_ & _ & ?).
    - assert (live m b) as [o Ho2]; [|congruence]. destruct Hb as [Hb|[->| ->]]; [by eapply chunk_owned_live| |].
      + eapply is_struct_live, (wa_heap _ _ _ _ _ _ _ _ HW).
      + destruct (wa_init _ _ _ _ _ _ _ _ HW) as [g Hg]. by apply live_get in Hg. }
  assert (Hh : m2 !! heap = m !! heap) by (apply Hfr; auto). assert (Hi : m2 !! initialgc = m !! initialgc) by (apply Hfr; auto).
  split_and!; [|destruct HW as [W1 W2 W3 W4 W5 W6]..|done].
  - destruct HW as [W1 W2 W3 [g W4] W5 W6]. split; [by apply (is_struct_lookup m)|by rewrite (get_lookup_eq m)|by rewrite (get_lookup_eq m)| | |done].
    + exists g. by rewrite (get_lookup_eq m).
    + intros id c Hc. apply (chunk_at_ext m); [auto|apply Hfr; left; by eapply owned_id|apply Hfr; left; by eapply owned_m].
  - apply (lists_ext _ m); [done|intros; by rewrite (get_lookup_eq m)|]. intros id Hid. apply (lo_dom _ _ _ HL) in Hid as [c Hc].
    rewrite (get_lookup_eq m); [done|]. apply Hfr. left. by eapply owned_id.
Qed.

Lemma owned_delete H id c b : H !! id = Some c -> (forall id' c', H !! id' = Some c' -> id' <> id -> c_m c' <> c_m c) ->
  (forall id' c', H !! id' = Some c' -> H !! c_m c' = None) -> owned (delete id H) b -> owned H b /\ b <> id /\ b <> c_m c.
Proof.
  intros Hc Hinj Hidm [[c' [Hne Hc']%lookup_delete_Some]|(id' & c' & [Hne Hc']%lookup_delete_Some & <-)].
  - split_and!; [left; by eexists|congruence|]. intros ->. specialize (Hidm id c Hc). congruence.
  - split_and!; [right; eauto|intros E; specialize (Hidm id' c' Hc'); rewrite E in Hidm; congruence|by eapply Hinj].
Qed.

(** A chunk given back: its pages are cleared, its block and it are freed. *)
Lemma drop_ok m H L R T u n cls p id rest c m2 T2 : hp_at m H L ((cls, p, id :: rest) :: R) T u n -> H !! id = Some c ->
  pm_at root m2 T2 -> pm_grows root m m2 T T2 -> paged T T2 (c_m c) (bytes c) NULL ->
  hp_at (delete id (delete (c_m c) m2)) (delete id H) L ((cls, List.hd NULL rest, rest) :: R) T2 u n.
Proof.
  intros HP Hc HT2 HG HPg. destruct (var_head _ _ _ _ _ _ _ _ _ _ _ HP) as (-> & Hn & Hx & Hr & _).
  destruct (pm_change _ _ _ _ _ _ _ _ _ HP HT2 HG) as (HW2 & HC2 & Hfr). destruct HP as [HL HS HW HC].
  destruct (var_apart _ _ _ _ _ _ _ HL) as (N1 & N2 & N3).
  assert (Hmm : forall id' c', H !! id' = Some c' -> id' <> id -> c_m c' <> c_m c).
  { intros id' c' Hc' Hne E. pose proof (sh_inj _ _ _ _ _ HS id c id' c' Hc Hc' ltac:(congruence)).
    pose proof (sh_pos _ _ _ _ _ HS id c Hc). pose proof (sh_pos _ _ _ _ _ HS id' c' Hc'). lia. }
  assert (Hod : forall b, owned (delete id H) b -> owned H b /\ b <> id /\ b <> c_m c).
  { intros b. apply owned_delete; auto. apply (sh_idm _ _ _ _ _ HS). }
  set (m3 := delete id (delete (c_m c) m2)).
  assert (E3 : forall b, b <> id -> b <> c_m c -> m3 !! b = m2 !! b).
  { intros b H1 H2. unfold m3. by rewrite !lookup_delete_ne. }
  destruct (sh_apart _ _ _ _ _ HS id (owned_id _ _ _ Hc)) as (I1 & I2 & I3), (sh_apart _ _ _ _ _ HS _ (owned_m _ _ _ Hc)) as (M1 & M2 & M3).
  assert (Eh : m3 !! heap = m2 !! heap) by (apply E3; congruence). assert (Ei : m3 !! initialgc = m2 !! initialgc) by (apply E3; congruence).
  destruct (sh_static _ _ _ _ _ HS) as (St1 & _ & _).
  assert (HT3 : pm_at root m3 T2).
  { apply (pm_ext _ m2); [done|]. intros b Hb. apply E3; intros ->; revert Hb; apply Hfr; left; [by eapply owned_id|by eapply owned_m]. }
  split.
  - destruct HL as [L1 L2 L3 L4 L5]. split; auto.
    + simpl in *. rewrite <- Permutation_middle in L2. by apply NoDup_cons in L2 as [_ ?].
    + intros id'. rewrite lookup_delete_is_Some, L3. simpl. rewrite !elem_of_app, elem_of_cons, elem_of_app. split.
      * intros [H1 H2]. naive_solver.
      * intros Hid. split; [|naive_solver]. intros <-. naive_solver.
    + intros k ids id' c' Hk Hid [_ Hc']%lookup_delete_Some. eauto.
    + intros cls' p' ids id' c' [[= -> -> ->]|Hi]%elem_of_cons Hid [_ Hc']%lookup_delete_Some.
      * eapply L5; [left|by right|done].
      * eapply L5; [by right|done|done].
  - destruct HS as [S1 S2 S3 S4 S5 S6 S7 S8]. split.
    + intros id' c' [_ Hc']%lookup_delete_Some. eauto.
    + intros id1 c1 id2 c2 [_ H1]%lookup_delete_Some [_ H2]%lookup_delete_Some. eauto.
    + intros id' c' [_ Hc']%lookup_delete_Some. eauto.
    + intros id' c' [_ Hc']%lookup_delete_Some. rewrite lookup_delete_None. right. eauto.
    + intros b (Ho & _)%Hod. destruct (S5 b Ho) as (? & ? & _). split_and!; auto. apply Hfr. by left.
    + split_and!; [done|apply Hfr; auto|apply Hfr; auto].
    + intros id' c' a [Hne Hc']%lookup_delete_Some Ha Ho. rewrite HPg by done. rewrite decide_False; [by eapply S7|].
      pose proof (S2 id c id' c' Hc Hc' ltac:(congruence)) as Hd. unfold owns in Ho. lia.
    + intros a Ha. rewrite HPg by done. case_decide as Hin; [done|]. intros Hne. destruct (S8 a Ha Hne) as (c' & Hc' & Ho).
      exists c'. split; [|done]. rewrite lookup_delete_ne; [done|]. intros E. rewrite <- E, Hc in Hc'. injection Hc' as <-. done.
  - destruct HW2 as [W1 W2 W3 [g W4] W5 W6]. split; [by apply (is_struct_lookup m2)|by rewrite (get_lookup_eq m2)|by rewrite (get_lookup_eq m2)| | |done].
    + exists g. by rewrite (get_lookup_eq m2).
    + intros id' c' Hd. destruct (Hod id') as (_ & D1 & D2); [left; by eexists|]. destruct (Hod (c_m c')) as (_ & D3 & D4); [right; eauto|].
      apply lookup_delete_Some in Hd as [_ Hc']. apply (chunk_at_ext m2); auto.
  - assert (Hex : forall p' ids, clist m2 p' ids -> (forall id', id' ∈ ids -> id' <> id /\ is_Some (H !! id')) -> clist m3 p' ids).
    { intros p' ids Hl Hd. apply (clist_ext m2); [done|]. intros id' Hid. destruct (Hd id' Hid) as [D1 [c' Hc']].
      apply get_lookup_eq, E3; [done|]. intros ->. pose proof (sh_idm _ _ _ _ _ HS id c Hc). congruence. }
    assert (Hdom : forall id', id' ∈ concat L ++ concat (((cls, id, id :: rest) :: R).*2) -> is_Some (H !! id')) by (intros id' ?; by apply (lo_dom _ _ _ HL)).
    split.
    + intros k ids Hk. destruct (la_heap _ _ _ _ HC2 k ids Hk) as (p' & Hp' & Hl). exists p'. split; [by rewrite (get_lookup_eq m2)|].
      apply Hex; [done|]. intros id' Hid. assert (Hin : id' ∈ concat L) by (by eapply concat_elem).
      split; [by intros ->|]. apply Hdom, elem_of_app. by left.
    + intros cls' p' ids [[= -> -> ->]|Hi]%elem_of_cons.
      * apply Hex; [|intros id' Hid; split; [by intros ->|apply Hdom, elem_of_app; right; simpl; right; apply elem_of_app; by left]].
        pose proof (la_vars _ _ _ _ HC2 cls id (id :: rest) ltac:(left)) as (_ & _ & nx & _ & Hr2). by rewrite (clist_hd _ _ _ Hr2) in Hr2.
      * assert (Hin : forall id', id' ∈ ids -> id' ∈ concat (R.*2)).
        { intros id' Hid. apply list_elem_of_lookup in Hi as [j Hj]. eapply (concat_elem _ j ids); [|done]. by rewrite list_lookup_fmap, Hj. }
        apply Hex; [apply (la_vars _ _ _ _ HC2 cls' p'); by right|]. intros id' Hid%Hin. split; [by intros ->|].
        apply Hdom, elem_of_app; right; simpl; right; apply elem_of_app; by right.
Qed.
End lists.
