(* ===== verification/HeapSweep.v ===== *)
(** * Sweeping (mem/heap.c: sweep_small, sweep_large, destroy_small, destroy_large) *)
From S2P Require Export Fun HeapLists.
Import ds_fun pool heap.

Lemma u64_add_l a b : u64 (u64 a + b) = u64 (a + b).
Proof. unfold u64. by rewrite Zplus_mod_idemp_l. Qed.
Lemma u64_add_r a b : u64 (a + u64 b) = u64 (a + b).
Proof. unfold u64. by rewrite Zplus_mod_idemp_r. Qed.

(** A chunk with its marks taken over. *)
Definition sweep (c : chunk) : chunk := Ch (c_m c) (c_size c) (Z.land (c_slots c) (c_shallow c)) (c_shallow c).

Lemma sweep_idem c : sweep (sweep c) = sweep c.
Proof. unfold sweep. simpl. f_equal. by rewrite <- Z.land_assoc, Z.land_diag. Qed.

(** ** Sums over the chunks *)
Definition npages (c : chunk) : nat := Z.to_nat (bytes c / POOL_ALIGN).
Definition pages_of (H : chunks) : nat := sum_list (npages <$> (map_to_list H).*2).
Definition final (H : chunks) : list (Z * Z) := concat ((fun c => objs (sweep c)) <$> (map_to_list H).*2).

Lemma chunks_delete (H : chunks) id c : H !! id = Some c -> (map_to_list H).*2 ≡ₚ c :: (map_to_list (delete id H)).*2.
Proof. intros Hc. by rewrite <- (map_to_list_delete H id c Hc). Qed.

Lemma sum_list_perm l l' : l ≡ₚ l' -> sum_list l = sum_list l'.
Proof. induction 1; simpl; lia. Qed.

Lemma pages_delete (H : chunks) id c : H !! id = Some c -> pages_of H = (npages c + pages_of (delete id H))%nat.
Proof.
  intros Hc. unfold pages_of. rewrite (sum_list_perm _ (npages <$> c :: (map_to_list (delete id H)).*2)); [done|].
  by rewrite (chunks_delete H id c Hc).
Qed.

Lemma concat_fmap_perm {A B} (f : A -> list B) l l' : l ≡ₚ l' -> concat (f <$> l) ≡ₚ concat (f <$> l').
Proof.
  induction 1; simpl; [done|by f_equiv| |by etransitivity]. rewrite !app_assoc. f_equiv. apply Permutation_app_comm.
Qed.

Lemma final_delete (H : chunks) id c : H !! id = Some c -> final H ≡ₚ objs (sweep c) ++ final (delete id H).
Proof. intros Hc. unfold final. by rewrite (concat_fmap_perm _ _ _ (chunks_delete H id c Hc)). Qed.

Lemma objects_delete (H : chunks) id c : H !! id = Some c -> objects H ≡ₚ objs c ++ objects (delete id H).
Proof. intros Hc. unfold objects. by rewrite (concat_fmap_perm _ _ _ (chunks_delete H id c Hc)). Qed.

Lemma delete_insert_id (H : chunks) id c : delete id (<[id := c]> H) = delete id H.
Proof. apply map_eq. intros i. destruct (decide (i = id)) as [->|Hne]; [by rewrite !lookup_delete_eq|]. by rewrite !lookup_delete_ne, lookup_insert_ne. Qed.

Lemma final_insert (H : chunks) id c c' : H !! id = Some c -> sweep c' = sweep c -> final (<[id := c']> H) ≡ₚ final H.
Proof.
  intros Hc E. rewrite (final_delete _ id c') by apply lookup_insert_eq. rewrite E, delete_insert_id. symmetry. by apply final_delete.
Qed.

Lemma pages_insert (H : chunks) id c c' : H !! id = Some c -> c_size c' = c_size c -> pages_of (<[id := c']> H) = pages_of H.
Proof.
  intros Hc E. rewrite (pages_delete _ id c') by apply lookup_insert_eq. rewrite (pages_delete H id c Hc), delete_insert_id.
  unfold npages. by rewrite (same_bytes c c' E).
Qed.

(** The bytes in use of some chunks. *)
Definition used_in (H : chunks) (ids : list Z) : Z :=
  foldr (fun id acc => default 0 ((fun c => sizes (objs (sweep c))) <$> H !! id) + acc) 0 ids.

Lemma used_in_ext (H H' : chunks) ids : (forall id c, id ∈ ids -> H !! id = Some c -> exists c', H' !! id = Some c' /\ sweep c' = sweep c) ->
  (forall id, id ∈ ids -> is_Some (H !! id)) -> used_in H' ids = used_in H ids.
Proof.
  induction ids as [|id ids IH]; intros He Hd; [done|]. simpl. destruct (Hd id ltac:(left)) as [c Hc].
  destruct (He id c ltac:(left) Hc) as (c' & Hc' & E). rewrite Hc, Hc'. simpl. rewrite E, IH; [done|..]; set_solver.
Qed.

Lemma used_in_perm (H : chunks) l l' : l ≡ₚ l' -> used_in H l = used_in H l'.
Proof. induction 1; simpl; lia. Qed.

Lemma used_in_app (H : chunks) l l' : used_in H (l ++ l') = used_in H l + used_in H l'.
Proof. induction l as [|id l IH]; simpl; [done|]. rewrite IH. lia. Qed.

Lemma used_in_all (H : chunks) ids : NoDup ids -> (forall id, is_Some (H !! id) <-> id ∈ ids) -> used_in H ids = sizes (final H).
Proof.
  revert H. induction ids as [|id ids IH]; intros H Hnd Hd.
  - assert (H = ∅) as ->; [|done]. apply map_empty. intros i. destruct (H !! i) eqn:E; [|done].
    exfalso. by eapply not_elem_of_nil, Hd, mk_is_Some.
  - apply NoDup_cons in Hnd as [Hn Hnd]. destruct (proj2 (Hd id) ltac:(left)) as [c Hc].
    simpl. rewrite Hc. simpl. rewrite (sizes_perm _ _ (final_delete H id c Hc)), sizes_app. f_equal.
    rewrite <- (IH (delete id H)); [|done|].
    + apply used_in_ext; [intros i ci Hi [_ Hci]%lookup_delete_Some; eauto|]. intros i Hi. rewrite lookup_delete_ne by congruence.
      apply Hd. by right.
    + intros i. rewrite lookup_delete_is_Some, Hd, elem_of_cons. split; [naive_solver|]. intros Hi. split; [congruence|by right].
Qed.

Lemma bytes_npages cls c : cls_ok cls c -> bytes c = POOL_ALIGN * Z.of_nat (npages c) /\ (0 < npages c)%nat.
Proof.
  intros Hc. destruct (bytes_pages _ _ Hc) as [Hm Hp]. unfold npages. change POOL_ALIGN with 1024 in *.
  rewrite Z2Nat.id by (apply Z.div_pos; lia). split; [Z.to_euclidean_division_equations; lia|].
  assert (0 < bytes c / 1024) by (Z.to_euclidean_division_equations; lia). lia.
Qed.

Section sweep.
Context `{HM : Malloc, HR : !MallocRoom}.
Variables (root initialgc heap : Z) (fuel : nat).
Abbreviation hp_at := (hp_at root initialgc heap).

(** Freeing a block and its chunk. *)
Lemma free_chunk_ok k m H L R T u n cls p id rest c m2 T2 : hp_at m H L ((cls, p, id :: rest) :: R) T u n -> H !! id = Some c ->
  pm_at root m2 T2 -> pm_grows root m m2 T T2 -> paged T T2 (c_m c) (bytes c) NULL -> mroom k m2 ->
  get m2 (id, C_M) = Some (c_m c) /\ get m2 (id, C_SIZE) = Some (c_size c) /\
  tot (POOL_FREE (c_m c) ;; POOL_FREE id) m2 (fun _ m' => mroom k m' /\ m' !! heap = m !! heap /\ hp_at m' (delete id H) L ((cls, List.hd NULL rest, rest) :: R) T2 u n).
Proof.
  intros HP Hc HT2 HG HPg Hk. destruct (pm_change _ _ _ _ _ _ _ _ _ _ _ _ HP HT2 HG) as (HW2 & _ & Hfr).
  destruct (wa_chunk _ _ _ _ _ _ _ _ HW2 id c Hc) as [A1 A2 A3 A4 A5 A6]. split_and!; [done|done|].
  pose proof (sh_idm _ _ _ _ _ (hp_shape _ _ _ _ _ _ _ _ _ _ HP) id c Hc) as Hne.
  apply tot_bind, tot_free; [apply A6|by eapply is_struct_live|]. apply tot_free; [apply A1| |].
  - unfold live. rewrite lookup_delete_ne by congruence. by eapply is_struct_live.
  - split; [by repeat apply mroom_delete|]. split; [|by eapply drop_ok].
    pose proof (hp_shape _ _ _ _ _ _ _ _ _ _ HP) as HS. destruct (sh_apart _ _ _ _ _ HS id (owned_id _ _ _ Hc)) as (N1 & _).
    destruct (sh_apart _ _ _ _ _ HS _ (owned_m _ _ _ Hc)) as (N2 & _). rewrite !lookup_delete_ne by done. apply Hfr. auto.
Qed.

Lemma destroy_small_ok k m H L R T u n cls p id rest c : hp_at m H L ((cls, p, id :: rest) :: R) T u n -> H !! id = Some c -> small c = true ->
  mroom (3 + k) m ->
  tot (destroy_small root id) m (fun _ m' => mroom k m' /\ m' !! heap = m !! heap /\ exists T', hp_at m' (delete id H) L ((cls, List.hd NULL rest, rest) :: R) T' u n).
Proof.
  intros HP Hc Hsm Hk. pose proof (hp_words _ _ _ _ _ _ _ _ _ _ HP) as HW. destruct (wa_chunk _ _ _ _ _ _ _ _ HW id c Hc) as [A1 A2 A3 A4 A5 A6].
  destruct (sh_block _ _ _ _ _ (hp_shape _ _ _ _ _ _ _ _ _ _ HP) id c Hc) as [(B1 & B2 & B3) _].
  assert (Eb : bytes c = POOL_ALIGN) by (unfold bytes; by rewrite Hsm). rewrite Eb in B3.
  unfold destroy_small. apply tot_bind, (tot_load _ _ _ _ A2), tot_bind.
  eapply tot_mono; [apply (set_page_ok root k (c_m c) NULL m T (wa_map _ _ _ _ _ _ _ _ HW) Hk); [lia|done|done]|].
  intros _ m2 (R2 & T2 & HT2 & HG & HPg). rewrite <- Eb in HPg.
  destruct (free_chunk_ok k _ _ _ _ _ _ _ _ _ _ _ _ _ _ HP Hc HT2 HG HPg R2) as (E2 & _ & HF). apply tot_bind, (tot_load _ _ _ _ E2).
  eapply tot_mono; [exact HF|]. intros [] m' (H1 & H2 & H3). eauto.
Qed.

Lemma destroy_large_ok k m H L R T u n cls p id rest c : hp_at m H L ((cls, p, id :: rest) :: R) T u n -> H !! id = Some c -> cls_ok HEAP_SIZECLASSES c ->
  mroom (3 * npages c + k) m -> (npages c < fuel)%nat ->
  tot (destroy_large root fuel id) m (fun _ m' => mroom k m' /\ m' !! heap = m !! heap /\ exists T', hp_at m' (delete id H) L ((cls, List.hd NULL rest, rest) :: R) T' u n).
Proof.
  intros HP Hc Hcls Hk Hfu. pose proof (hp_words _ _ _ _ _ _ _ _ _ _ HP) as HW. destruct (wa_chunk _ _ _ _ _ _ _ _ HW id c Hc) as [A1 A2 A3 A4 A5 A6].
  destruct (sh_block _ _ _ _ _ (hp_shape _ _ _ _ _ _ _ _ _ _ HP) id c Hc) as [(B1 & B2 & B3) _].
  destruct (bytes_npages _ _ Hcls) as [Eb _]. destruct (cls_large c Hcls) as (_ & _ & _ & _ & Hsm).
  assert (Es : c_size c = bytes c) by (unfold bytes; by rewrite Hsm).
  unfold destroy_large. apply tot_bind, (tot_load _ _ _ _ A2), tot_bind, (tot_load _ _ _ _ A3), tot_bind. rewrite Es, Eb.
  eapply tot_mono; [apply (large_pagemap_ok root fuel NULL (npages c) k (c_m c) m T (wa_map _ _ _ _ _ _ _ _ HW) Hk); [lia|done|by rewrite <- Eb|done]|].
  intros _ m2 (R2 & T2 & HT2 & HG & HPg). rewrite <- Eb in HPg.
  destruct (free_chunk_ok k _ _ _ _ _ _ _ _ _ _ _ _ _ _ HP Hc HT2 HG HPg R2) as (E2 & E3 & HF). apply tot_bind, (tot_load _ _ _ _ E2).
  rewrite (proj2 (Z.eqb_neq _ _) (not_eq_sym (Z.lt_neq _ _ B1))). simpl negb. cbv iota.
  apply tot_bind_inv in HF. apply tot_bind, tot_bind, (tot_load _ _ _ _ E3). eapply tot_mono; [exact HF|]. intros [] m3 HF3.
  eapply tot_mono; [exact HF3|]. intros [] m' (H1 & H2 & H3). eauto.
Qed.

(** The chunks [ids] swept, those without an object left given back. *)
Record swept (ids : list Z) (H H' : chunks) : Prop := {
  sw_out : forall id, id ∉ ids -> H' !! id = H !! id;
  sw_in : forall id c', id ∈ ids -> H' !! id = Some c' -> exists c, H !! id = Some c /\ c' = sweep c;
  sw_final : final H' ≡ₚ final H
}.

Lemma swept_nil H : swept [] H H.
Proof. split; [done|intros id c' []%not_elem_of_nil|done]. Qed.

Lemma swept_keep id ids H H' c : H !! id = Some c -> id ∉ ids -> swept ids (<[id := sweep c]> H) H' -> swept (id :: ids) H H'.
Proof.
  intros Hc Hn [S1 S2 S3]. split.
  - intros i Hi. rewrite S1 by set_solver. apply lookup_insert_ne. set_solver.
  - intros i c' [->|Hi]%elem_of_cons Hc'.
    + rewrite S1 in Hc' by done. rewrite lookup_insert_eq in Hc'. injection Hc' as <-. eauto.
    + destruct (S2 i c' Hi Hc') as (c1 & H1 & ->). rewrite lookup_insert_ne in H1 by congruence. eauto.
  - rewrite S3. eapply final_insert; [exact Hc|apply sweep_idem].
Qed.

Lemma swept_drop id ids H H' c : H !! id = Some c -> id ∉ ids -> objs (sweep c) = [] -> swept ids (delete id H) H' -> swept (id :: ids) H H'.
Proof.
  intros Hc Hn He [S1 S2 S3]. split.
  - intros i Hi. rewrite S1 by set_solver. apply lookup_delete_ne. set_solver.
  - intros i c' [->|Hi]%elem_of_cons Hc'.
    + rewrite S1 in Hc' by done. by rewrite lookup_delete_eq in Hc'.
    + destruct (S2 i c' Hi Hc') as (c1 & H1 & ->). apply lookup_delete_Some in H1 as [_ H1]. eauto.
  - rewrite S3, (final_delete H id c Hc), He. done.
Qed.

Definition small_body (avail full : loc) (empty : Z) :=
  ltac:(let t := eval unfold sweep_small in (sweep_small root O NULL avail full empty) in match t with loop _ ?b _ => exact b end).

(** Taking over the marks of a chunk. *)
Lemma take_marks m H L R T u n id c cls : hp_at m H L R T u n -> H !! id = Some c -> cls_ok cls c ->
  hp_at (upd m (id, C_SLOTS) (Z.land (c_slots c) (c_shallow c))) (<[id := sweep c]> H) L R T u n /\ cls_ok cls (sweep c) /\
  forall A (k : Z -> prog mem A) Q, tot (k (Z.land (c_slots c) (c_shallow c))) (upd m (id, C_SLOTS) (Z.land (c_slots c) (c_shallow c))) Q ->
    tot (slots <- load (id, C_SLOTS) ;; shallow <- load (id, C_SHALLOW) ;; store (id, C_SLOTS) (Z.land slots shallow) ;;
         slots <- load (id, C_SLOTS) ;; k slots) m Q.
Proof.
  intros HP Hc Hcls. destruct (wa_chunk _ _ _ _ _ _ _ _ (hp_words _ _ _ _ _ _ _ _ _ _ HP) id c Hc) as [A1 A2 A3 A4 A5 A6].
  assert (Hcl : forall cls', cls_ok cls' c -> cls_ok cls' (sweep c)).
  { intros cls' Hc'. assert (0 <= c_slots c /\ 0 <= c_shallow c) as [N1 N2] by (destruct Hc' as [(? & ? & [? ?] & [? ?])|(_ & _ & _ & ? & ?)]; done).
    apply cls_bits; [done|apply Z.land_nonneg; by left|done|]. intros Hs. destruct Hc' as [(? & <- & ? & ?)|(_ & D2 & _)]; [split; [by apply land_bits_ok|done]|].
    exfalso. revert D2 Hs. change HEAP_MAX with 512. change HEAP_SIZECLASSES with 5. lia. }
  split_and!; [apply hp_bits with (c := c); auto|auto|].
  intros A k Q HQ. apply tot_bind, (tot_load _ _ _ _ A4), tot_bind, (tot_load _ _ _ _ A5), tot_bind, tot_store; [by eapply is_struct_inb|].
  apply tot_bind. eapply tot_load; [apply get_upd_eq; simpl; by eapply is_struct_live|]. exact HQ.
Qed.

(** What sweeping a list of a size class leaves behind. *)
Definition small_post (k K : nat) R u n ids u0 H L (la : list Z) (r : Z) (m' : mem) : Prop :=
  r = u64 (u0 + used_in H ids) /\ exists H' L' T', hp_at m' H' L' R T' u n /\ swept ids H H' /\
    mroom (3 * pages_of H' + K) m' /\ length L' = length L /\ (forall j, j <> k -> j <> (5 + k)%nat -> L' !! j = L !! j) /\
    is_Some (L' !! (5 + k)%nat) /\ exists la', L' !! k = Some la' /\
    forall id, id ∈ la' -> id ∈ la \/ (id ∈ ids /\ forall c', H' !! id = Some c' -> c_slots c' <> 0).

Lemma small_post_full k K R u n id ids u0 H L la lf c r m' : H !! id = Some c -> id ∉ ids -> (forall i, i ∈ ids -> is_Some (H !! i)) ->
  sizes (objs (sweep c)) = sizeof_block_t -> L !! (5 + k)%nat = Some lf ->
  small_post k K R u n ids (u64 u0 + sizeof_block_t) (<[id := sweep c]> H) (<[(5 + k)%nat := id :: lf]> L) la r m' ->
  small_post k K R u n (id :: ids) u0 H L la r m'.
Proof.
  intros Hc Hn Hd Hs Hlf (-> & H' & L' & T' & HP & HSw & Hr & Hlen & Hj & Hf & la' & Hla' & Hin). split.
  - simpl. rewrite Hc. simpl. rewrite Hs, <- Z.add_assoc, u64_add_l. f_equal. f_equal. f_equal.
    apply used_in_ext; [|done]. intros i ci Hi Hci. exists ci. rewrite lookup_insert_ne by congruence. done.
  - exists H', L', T'. split; [done|]. split; [by apply (swept_keep _ _ _ _ c)|]. split; [done|]. split; [by rewrite Hlen, length_insert|].
    split; [intros j J1 J2; rewrite Hj by done; by apply list_lookup_insert_ne|]. split; [done|]. exists la'. split; [done|].
    intros i Hi. destruct (Hin i Hi) as [?|[? ?]]; [by left|right; split; [by right|done]].
Qed.

Lemma small_post_avail k K R u n id ids u0 H L la c r m' : H !! id = Some c -> id ∉ ids -> (forall i, i ∈ ids -> is_Some (H !! i)) ->
  c_slots (sweep c) <> 0 -> L !! k = Some la ->
  small_post k K R u n ids (u64 u0 + u64 (sizes (objs (sweep c)))) (<[id := sweep c]> H) (<[k := id :: la]> L) (id :: la) r m' ->
  small_post k K R u n (id :: ids) u0 H L la r m'.
Proof.
  intros Hc Hn Hd Hs Hla (-> & H' & L' & T' & HP & HSw & Hr & Hlen & Hj & Hf & la' & Hla' & Hin). split.
  - simpl. rewrite Hc. simpl. rewrite <- Z.add_assoc, u64_add_l. rewrite Z.add_assoc, (Z.add_comm u0), <- Z.add_assoc, u64_add_l. f_equal.
    rewrite (used_in_ext H); [lia| |done]. intros i ci Hi Hci. exists ci. rewrite lookup_insert_ne by congruence. done.
  - exists H', L', T'. split; [done|]. split; [by apply (swept_keep _ _ _ _ c)|]. split; [done|]. split; [by rewrite Hlen, length_insert|].
    split; [intros j J1 J2; rewrite Hj by done; by apply list_lookup_insert_ne|]. split; [done|]. exists la'. split; [done|].
    intros i Hi. destruct (Hin i Hi) as [[->|?]%elem_of_cons|[? ?]]; [|by left|right; split; [by right|done]].
    right. split; [left|]. intros c' Hc'. rewrite (sw_out _ _ _ HSw) in Hc' by done. rewrite lookup_insert_eq in Hc'. by injection Hc' as <-.
Qed.

Lemma small_post_drop k K R u n id ids u0 H L la c r m' : H !! id = Some c -> id ∉ ids -> (forall i, i ∈ ids -> is_Some (H !! i)) ->
  objs (sweep c) = [] -> small_post k K R u n ids u0 (delete id H) L la r m' -> small_post k K R u n (id :: ids) u0 H L la r m'.
Proof.
  intros Hc Hn Hd Hs (-> & H' & L' & T' & HP & HSw & Hr & Hlen & Hj & Hf & la' & Hla' & Hin). split.
  - simpl. rewrite Hc. simpl. rewrite Hs. simpl. f_equal. f_equal. symmetry. apply used_in_ext; [intros i ci Hi [_ Hci]%lookup_delete_Some; eauto|].
    intros i Hi. rewrite lookup_delete_ne by congruence. auto.
  - exists H', L', T'. split; [done|]. split; [by apply (swept_drop _ _ _ _ c)|]. do 4 (split; [done|]). exists la'. split; [done|].
    intros i Hi. destruct (Hin i Hi) as [?|[? ?]]; [by left|right; split; [by right|done]].
Qed.

(** A store to the list of a chunk and to the head of the list. *)
Lemma push_ok m H L R T u n cls p id rest k l A (K : prog mem A) Q : hp_at m H L ((cls, p, id :: rest) :: R) T u n -> L !! k = Some l -> kcls k = cls ->
  (forall m', hp_at m' H (<[k := id :: l]> L) ((cls, List.hd NULL rest, rest) :: R) T u n -> (forall r, mroom r m -> mroom r m') -> tot K m' Q) ->
  tot (f <- load (heap, 8 * Z.of_nat k) ;; store (id, C_NEXT) f ;; store (heap, 8 * Z.of_nat k) id ;; K) m Q.
Proof.
  intros HP Hl Hcls HK. destruct (var_head _ _ _ _ _ _ _ _ _ _ _ _ _ _ HP) as (_ & _ & _ & _ & c & Hc & _ & Hca).
  destruct (la_heap _ _ _ _ (hp_chain _ _ _ _ _ _ _ _ _ _ HP) k l Hl) as (f & Hf & Hcl). rewrite (clist_hd _ _ _ Hcl) in Hf.
  pose proof (lookup_lt_Some _ _ _ Hl). pose proof (lo_len _ _ _ (hp_lists _ _ _ _ _ _ _ _ _ _ HP)).
  apply tot_bind, (tot_load _ _ _ _ Hf), tot_bind, tot_store; [eapply is_struct_inb; [apply (ca_id _ _ _ Hca)|done]|].
  apply tot_bind, tot_store.
  - rewrite inb_upd. eapply is_struct_inb; [apply (wa_heap _ _ _ _ _ _ _ _ (hp_words _ _ _ _ _ _ _ _ _ _ HP))|].
    change sizeof_heap_t with 104. lia.
  - apply HK; [by apply (move_ok _ _ _ _ _ _ _ _ _ _ _ p)|]. intros r Hr. by repeat apply mroom_upd.
Qed.

Lemma sweep_small_ok (k : nat) K n R u ids : (k < 5)%nat -> forall f m H L T u0 la lf,
  hp_at m H L ((Z.of_nat k, List.hd NULL ids, ids) :: R) T u n -> L !! k = Some la -> L !! (5 + k)%nat = Some lf ->
  mroom (3 * pages_of H + K) m -> (length ids < f)%nat ->
  tot (loop f (small_body (heap, 8 * Z.of_nat k) (heap, 8 * Z.of_nat (5 + k)) (entry sizeclass_empty (Z.of_nat k))) (List.hd NULL ids, u64 u0)) m
    (small_post k K R u n ids u0 H L la).
Proof.
  intros Hk. induction ids as [|id ids IH]; intros f m H L T u0 la lf HP Hla Hlf Hroom Hf.
  - apply tot_loop_exit; [lia|]. simpl. apply tot_ret. split; [by rewrite Z.add_0_r|]. apply var_drop in HP as [HP _].
    exists H, L, T. split; [done|]. split; [apply swept_nil|]. do 3 (split; [done|]). split; [by eexists|]. exists la. auto.
  - destruct f as [|f]; [simpl in Hf; lia|]. apply tot_loop_S.
    destruct (var_head _ _ _ _ _ _ _ _ _ _ _ _ _ _ HP) as (_ & Hn & Hx & Hr & c & Hc & Hcls & Hca).
    destruct (var_apart _ _ _ _ _ _ _ (hp_lists _ _ _ _ _ _ _ _ _ _ HP)) as (N1 & N2 & N3).
    destruct (take_marks _ _ _ _ _ _ _ _ _ _ HP Hc Hcls) as (HP1 & Hcls1 & Hload).
    assert (Hk5 : 0 <= Z.of_nat k < HEAP_SIZECLASSES) by (change HEAP_SIZECLASSES with 5; lia).
    destruct (cls_small _ _ Hcls1 Hk5) as (Esz & Hb1 & Hb2 & Hsm1). assert (Hrange : 0 <= c_size (sweep c) < HEAP_SIZECLASSES) by (by rewrite Esz).
    pose proof (sizes_small (sweep c) Hrange ltac:(by rewrite Esz)) as Hsizes.
    assert (Hidom : forall i, i ∈ ids -> is_Some (H !! i)).
    { intros i Hi. apply (lo_dom _ _ _ (hp_lists _ _ _ _ _ _ _ _ _ _ HP)), elem_of_app. right. simpl. right. apply elem_of_app. by left. }
    unfold small_body. cbv beta iota. simpl List.hd. rewrite (proj2 (Z.eqb_neq _ _) Hn). apply tot_bind, (tot_load _ _ _ _ Hx). apply Hload.
    set (m1 := upd m (id, C_SLOTS) (Z.land (c_slots c) (c_shallow c))) in *. set (s := Z.land (c_slots c) (c_shallow c)) in *.
    assert (Hrm : mroom (3 * pages_of (<[id := sweep c]> H) + K) m1) by (rewrite (pages_insert H id c) by done; by apply mroom_upd).
    fold (small_body (heap, 8 * Z.of_nat k) (heap, 8 * Z.of_nat (5 + k)) (entry sizeclass_empty (Z.of_nat k))).
    assert (Hkc : kcls k = Z.of_nat k /\ kcls (5 + k) = Z.of_nat k).
    { unfold kcls. destruct (Nat.ltb_spec k 5), (Nat.ltb_spec (5 + k) 5), (Nat.ltb_spec (5 + k) 10); lia. }
    simpl in Hf. destruct (Z.eqb_spec s 0) as [Es|Es]; [|destruct (Z.eqb_spec s (entry sizeclass_empty (Z.of_nat k))) as [Ee|Ee]].
    + eapply push_ok; [exact HP1|exact Hlf|apply Hkc|]. intros m2 HP2 Hm2. apply tot_ret. cbv beta iota.
      eapply tot_mono; [apply (IH f m2 _ _ _ _ la (id :: lf) HP2); [by rewrite list_lookup_insert_ne by lia| |by apply Hm2|lia]|].
      { apply list_lookup_insert_eq. by eapply lookup_lt_Some. }
      intros r m' HQ. eapply small_post_full; eauto. rewrite Hsizes. simpl c_slots. fold s. rewrite Es. done.
    + assert (Hobj : objs (sweep c) = []) by (apply objs_empty; [done|by rewrite Esz]).
      pose proof (pages_delete (<[id := sweep c]> H) id (sweep c) (lookup_insert_eq _ _ _)) as Hpg.
      destruct (bytes_npages _ _ Hcls1) as [_ Hnp].
      apply tot_bind. eapply tot_mono; [apply (destroy_small_ok (3 * pages_of (delete id H) + K) m1 _ _ _ _ _ _ _ _ _ _ (sweep c) HP1); [apply lookup_insert_eq|done|]|].
      { eapply mroom_mono; [exact Hrm|]. rewrite Hpg, delete_insert_id. lia. }
      intros [] m2 (Hr2 & _ & T2 & HP2). rewrite delete_insert_id in HP2. apply tot_ret. cbv beta iota.
      eapply tot_mono; [apply (IH f m2 _ _ _ _ la lf HP2); [done|done|done|lia]|]. intros r m' HQ. eapply small_post_drop; eauto.
    + apply tot_bind. destruct (wa_chunk _ _ _ _ _ _ _ _ (hp_words _ _ _ _ _ _ _ _ _ _ HP1) id (sweep c) (lookup_insert_eq _ _ _)) as [A1 A2 A3 _ _ _].
      apply (tot_load _ _ _ _ A3). eapply push_ok; [exact HP1|exact Hla|apply Hkc|]. intros m2 HP2 Hm2. apply tot_ret. cbv beta iota.
      change s with (c_slots (sweep c)). rewrite <- Hsizes.
      eapply tot_mono; [apply (IH f m2 _ _ _ _ (id :: la) lf HP2); [|by rewrite list_lookup_insert_ne by lia|by apply Hm2|lia]|].
      { apply list_lookup_insert_eq. by eapply lookup_lt_Some. }
      intros r m' HQ. eapply small_post_avail; eauto.
Qed.

(** *** Large chunks: the list that is built is in a variable *)
Definition large_body :=
  ltac:(let t := eval unfold sweep_large in (sweep_large root fuel NULL NULL) in match t with loop _ ?b _ => exact b end).

Definition large_post (K : nat) R u n ids u0 H L (r : Z * Z) (m' : mem) : Prop :=
  r.2 = u64 (u0 + used_in H ids) /\ exists H' T' l, hp_at m' H' L ((HEAP_SIZECLASSES, r.1, l) :: R) T' u n /\ swept ids H H' /\
    mroom (3 * pages_of H' + K) m'.

Lemma sizes_large c : small c = false -> sizes (objs c) = if c_slots c =? 0 then c_size c else 0.
Proof. intros Hs. unfold objs. rewrite Hs. destruct (c_slots c =? 0); simpl; lia. Qed.

Lemma sweep_large_ok K n R u ids : forall f m H L T u0 list l,
  hp_at m H L ((HEAP_SIZECLASSES, List.hd NULL ids, ids) :: (HEAP_SIZECLASSES, list, l) :: R) T u n ->
  mroom (3 * pages_of H + K) m -> (length ids < f)%nat -> (pages_of H < fuel)%nat ->
  tot (loop f large_body (List.hd NULL ids, list, u64 u0)) m (large_post K R u n ids u0 H L).
Proof.
  induction ids as [|id ids IH]; intros f m H L T u0 list l HP Hroom Hf Hfu.
  - apply tot_loop_exit; [lia|]. simpl. apply tot_ret. split; [by rewrite Z.add_0_r|]. apply var_drop in HP as [HP _].
    exists H, T, l. split; [done|]. split; [apply swept_nil|done].
  - destruct f as [|f]; [simpl in Hf; lia|]. apply tot_loop_S.
    destruct (var_head _ _ _ _ _ _ _ _ _ _ _ _ _ _ HP) as (_ & Hn & Hx & Hr & c & Hc & Hcls & Hca).
    destruct (var_apart _ _ _ _ _ _ _ (hp_lists _ _ _ _ _ _ _ _ _ _ HP)) as (N1 & N2 & N3).
    destruct (take_marks _ _ _ _ _ _ _ _ _ _ HP Hc Hcls) as (HP1 & Hcls1 & Hload).
    destruct (cls_large _ Hcls1) as (_ & _ & _ & _ & Hsm1). pose proof (sizes_large (sweep c) Hsm1) as Hsizes.
    assert (Hidom : forall i, i ∈ ids -> is_Some (H !! i)).
    { intros i Hi. apply (lo_dom _ _ _ (hp_lists _ _ _ _ _ _ _ _ _ _ HP)), elem_of_app. right. simpl. right. apply elem_of_app. by left. }
    assert (Hused : used_in H (id :: ids) = sizes (objs (sweep c)) + used_in H ids) by (simpl; by rewrite Hc).
    pose proof (pages_insert H id c (sweep c) Hc eq_refl) as Hpi.
    unfold large_body. cbv beta iota. simpl List.hd. rewrite (proj2 (Z.eqb_neq _ _) Hn). apply tot_bind, (tot_load _ _ _ _ Hx). apply Hload.
    set (m1 := upd m (id, C_SLOTS) (Z.land (c_slots c) (c_shallow c))) in *. change (Z.land (c_slots c) (c_shallow c)) with (c_slots (sweep c)).
    assert (Hrm : mroom (3 * pages_of (<[id := sweep c]> H) + K) m1) by (rewrite Hpi; by apply mroom_upd).
    fold large_body. simpl in Hf.
    destruct (wa_chunk _ _ _ _ _ _ _ _ (hp_words _ _ _ _ _ _ _ _ _ _ HP1) id (sweep c) (lookup_insert_eq _ _ _)) as [A1 A2 A3 A4 A5 A6].
    destruct (Z.eqb_spec (c_slots (sweep c)) 0) as [Es|Es].
    + apply tot_bind, tot_store; [by eapply is_struct_inb|]. pose proof (move_var_ok _ _ _ _ _ _ _ _ _ _ _ _ _ _ _ _ HP1) as HP2.
      apply tot_bind. eapply tot_load; [rewrite get_upd_ne by congruence; exact A3|]. apply tot_ret. cbv beta iota.
      eapply tot_mono; [apply (IH f _ _ _ _ _ _ _ HP2); [by apply mroom_upd|lia|by rewrite Hpi]|].
      intros r m' (E2 & H' & T' & l' & HP' & HSw & Hr'). split.
      * rewrite E2, Hused, Hsizes. rewrite <- Z.add_assoc, u64_add_l. do 2 f_equal.
        rewrite (used_in_ext H); [done| |done]. intros i ci Hi Hci. exists ci. rewrite lookup_insert_ne by congruence. done.
      * exists H', T', l'. split; [done|]. split; [by apply (swept_keep _ _ _ _ c)|done].
    + assert (Hobj : objs (sweep c) = []) by (unfold objs; rewrite Hsm1; by rewrite (proj2 (Z.eqb_neq _ _) Es)).
      pose proof (pages_delete (<[id := sweep c]> H) id (sweep c) (lookup_insert_eq _ _ _)) as Hpg. rewrite delete_insert_id in Hpg.
      apply tot_bind. eapply tot_mono; [apply (destroy_large_ok (3 * pages_of (delete id H) + K) m1 _ _ _ _ _ _ _ _ _ _ (sweep c) HP1); [apply lookup_insert_eq|done| |lia]|].
      { eapply mroom_mono; [exact Hrm|]. lia. }
      intros [] m2 (Hr2 & _ & T2 & HP2). rewrite delete_insert_id in HP2. apply tot_ret. cbv beta iota.
      eapply tot_mono; [apply (IH f m2 _ _ _ _ _ _ HP2); [done|lia|lia]|].
      intros r m' (E2 & H' & T' & l' & HP' & HSw & Hr'). split.
      * rewrite E2, Hused, Hobj. simpl. do 2 f_equal. symmetry. apply used_in_ext; [intros i ci Hi [_ Hci]%lookup_delete_Some; eauto|].
        intros i Hi. rewrite lookup_delete_ne by congruence. auto.
      * exists H', T', l'. split; [done|]. split; [by apply (swept_drop _ _ _ _ c)|done].
Qed.
End sweep.
