(* ===== verification/HeapEnd.v ===== *)
(** * The end of a collection (mem/heap.c: heap_endgc) *)
From S2P Require Export Fun HeapSweep.
Import ds_fun pool heap.

Lemma nodup_apart {A} (L : list (list A)) i j a b x : NoDup (concat L) -> L !! i = Some a -> L !! j = Some b -> i <> j -> x ∈ a -> x ∉ b.
Proof.
  revert i j. induction L as [|l L IH]; intros i j Hnd Ha Hb Hij Hx Hx'; [done|]. apply NoDup_app in Hnd as (_ & Hd & Hnd).
  destruct i as [|i], j as [|j]; simpl in *; [done| | |].
  - injection Ha as ->. apply (Hd x Hx). by eapply concat_elem.
  - injection Hb as ->. apply (Hd x Hx'). by eapply concat_elem.
  - apply (IH i j); [done|done|done|congruence|done|done].
Qed.

Lemma length_concat_elem {A} (L : list (list A)) k l : L !! k = Some l -> (length l <= length (concat L))%nat.
Proof. intros Hl. apply list_elem_of_split_length in Hl as (L1 & L2 & -> & _). rewrite concat_app. simpl. rewrite !length_app. lia. Qed.

(** The lists that are still to be swept when class [k] is next. *)
Definition todo (k : nat) (L : list (list Z)) : list Z := concat (drop k (take 5 L)) ++ concat (drop (5 + k) L).

Lemma todo_elem k L x : x ∈ todo k L <-> exists j l, (k <= j < 5 \/ 5 + k <= j)%nat /\ L !! j = Some l /\ x ∈ l.
Proof.
  unfold todo. rewrite elem_of_app. split.
  - intros [Hx|Hx]; apply elem_concat in Hx as (j & l & Hj & Hx); rewrite lookup_drop in Hj.
    + apply lookup_take_Some in Hj as [Hj ?]. exists (k + j)%nat, l. split_and!; [lia|done|done].
    + exists (5 + k + j)%nat, l. split_and!; [lia|done|done].
  - intros (j & l & Hj & Hl & Hx). destruct Hj as [Hj|Hj]; [left; apply (concat_elem _ (j - k) l)|right; apply (concat_elem _ (j - (5 + k)) l)]; try done;
      rewrite lookup_drop; [rewrite lookup_take_lt by lia|]; rewrite <- Hl; f_equal; lia.
Qed.

Lemma todo_step k L l1 l2 : (k < 5)%nat -> L !! k = Some l1 -> L !! (5 + k)%nat = Some l2 -> todo k L ≡ₚ l1 ++ l2 ++ todo (S k) L.
Proof.
  intros Hk H1 H2. unfold todo. rewrite (drop_S (take 5 L) l1 k) by (by rewrite lookup_take_lt). rewrite (drop_S L l2 (5 + k)) by done.
  replace (S (5 + k)) with (5 + S k)%nat by lia. simpl. rewrite <- !app_assoc. f_equiv. rewrite !app_assoc. f_equiv. apply Permutation_app_comm.
Qed.

Lemma todo_ext k L L' : (forall j, (k <= j < 5 \/ 5 + k <= j)%nat -> L' !! j = L !! j) -> todo k L' = todo k L.
Proof.
  intros E. unfold todo. f_equal; f_equal; apply list_eq; intros j; rewrite !lookup_drop; [|apply E; lia].
  destruct (decide (k + j < 5)%nat); [rewrite !lookup_take_lt by done; apply E; lia|by rewrite !lookup_take_ge by lia].
Qed.

Lemma todo_0 L : todo 0 L = concat L.
Proof. unfold todo. rewrite drop_0, <- concat_app. by rewrite take_drop. Qed.

Lemma pages_le (H H' : chunks) : (forall id c', H' !! id = Some c' -> exists c, H !! id = Some c /\ c_size c' = c_size c) -> (pages_of H' <= pages_of H)%nat.
Proof.
  revert H. induction H' as [|id c' H' Hn IH] using map_ind; intros H E; [apply Nat.le_0_l|].
  destruct (E id c' ltac:(apply lookup_insert_eq)) as (c & Hc & Es). rewrite (pages_delete _ id c') by apply lookup_insert_eq.
  rewrite (pages_delete H id c Hc), delete_insert_id, delete_id by done. unfold npages at 1. rewrite (same_bytes c c' Es). fold (npages c).
  apply Nat.add_le_mono_l, IH. intros i ci Hi. assert (Hne : i <> id) by congruence. destruct (E i ci) as (c0 & Hc0 & E0); [by rewrite lookup_insert_ne|].
  exists c0. by rewrite lookup_delete_ne.
Qed.

Lemma swept_pages ids H H' : swept ids H H' -> (pages_of H' <= pages_of H)%nat.
Proof.
  intros [S1 S2 _]. apply pages_le. intros id c' Hc. destruct (decide (id ∈ ids)) as [Hi|Hi]; [|rewrite S1 in Hc by done; eauto].
  destruct (S2 id c' Hi Hc) as (c & Hc0 & ->). by exists c.
Qed.

Lemma swept_used ids H H' l : swept ids H H' -> (forall id, id ∈ l -> id ∉ ids) -> used_in H' l = used_in H l.
Proof. intros [S1 _ _] Hd. induction l as [|id l IH]; [done|]. simpl. rewrite S1 by (apply Hd; left). rewrite IH; [done|]. intros i Hi. apply Hd. by right. Qed.

(** The same statement in both programs. *)
Ltac follow HC := apply tot_bind_inv in HC; apply tot_bind; eapply tot_mono; [exact HC|]; clear HC; intros ? ? HC; cbv beta in HC |- *.

Ltac follow_last HC := apply tot_bind; eapply tot_mono; [exact HC|]; clear HC; intros ? ? HC; cbv beta in HC |- *.

Section endgc.
Context `{HM : Malloc, HR : !MallocRoom}.
Variables (root initialgc heap : Z) (nextgc : Z -> Z) (fuel : nat).
Abbreviation hp_at := (hp_at root initialgc heap).

(** The order of the variables does not matter. *)
Lemma hp_perm m H L R R' T u n : hp_at m H L R T u n -> R ≡ₚ R' -> hp_at m H L R' T u n.
Proof.
  intros [P1 P2 P3 P4] E. split; [|done|done|].
  - eapply lists_move; [exact P1|apply P1| |apply P1|].
    + f_equiv. by rewrite E.
    + intros cls p ids id c Hr. rewrite <- E in Hr. by eapply lo_vars.
  - destruct P4 as [A1 A2]. split; [done|]. intros cls p ids Hr. rewrite <- E in Hr. by eapply A2.
Qed.

(** Where the collection is when class [k] is next: [H0], [L0] are the chunks and
    the lists at its start, [u0] what was added up so far. *)
Record ending (K : nat) (H0 : chunks) (L0 : list (list Z)) (k : nat) (u0 : Z) (H : chunks) (L : list (list Z)) (m : mem) : Prop := {
  en_len : length L = 11%nat;
  en_same : forall j, (k <= j < 5 \/ 5 + k <= j)%nat -> L !! j = L0 !! j;
  en_used : u0 + used_in H (todo k L) = sizes (final H0);
  en_final : final H ≡ₚ final H0;
  en_swept : forall id c, id ∉ todo k L -> H !! id = Some c -> sweep c = c;
  en_free : forall j ids id c, (j < k)%nat -> L !! j = Some ids -> id ∈ ids -> H !! id = Some c -> c_slots c <> 0;
  en_pages : (pages_of H <= pages_of H0)%nat;
  en_room : mroom (3 * pages_of H + K) m
}.

(** What two sweeps of class [k] make of it. *)
Lemma ending_step K H0 L0 k u0 H L m l1 l2 H1 (L1 : list (list Z)) H2 L2 m2 (la1 la2 : list Z) :
  ending K H0 L0 k u0 H L m -> (k < 5)%nat -> NoDup (concat L) -> L !! k = Some l1 -> L !! (5 + k)%nat = Some l2 ->
  swept l1 H H1 -> swept l2 H1 H2 -> mroom (3 * pages_of H2 + K) m2 -> length L2 = length L ->
  (forall j, j <> k -> j <> (5 + k)%nat -> L1 !! j = L !! j) -> (forall j, j <> k -> j <> (5 + k)%nat -> L2 !! j = L1 !! j) ->
  L2 !! k = Some la2 ->
  (forall id, id ∈ la1 -> id ∈ l1 /\ forall c', H1 !! id = Some c' -> c_slots c' <> 0) ->
  (forall id, id ∈ la2 -> id ∈ la1 \/ (id ∈ l2 /\ forall c', H2 !! id = Some c' -> c_slots c' <> 0)) ->
  used_in H1 l2 = used_in H l2 /\ ending K H0 L0 (S k) (u0 + used_in H l1 + used_in H l2) H2 L2 m2.
Proof.
  intros [E1 E2 E3 E4 E5 E6 E7 E8] Hk Hnd Hl1 Hl2 S1 S2 Hr Hlen J1 J2 Hla2 F1 F2.
  assert (Hap : forall j l x, j <> k -> j <> (5 + k)%nat -> L !! j = Some l -> x ∈ l -> (x ∉ l1) /\ (x ∉ l2)).
  { intros j l x N1 N2 Hj Hx. split; [by apply (nodup_apart L j k l l1)|by apply (nodup_apart L j (5 + k) l l2)]. }
  assert (Hap12 : forall x, x ∈ l2 -> x ∉ l1) by (intros x; apply (nodup_apart L (5 + k) k); [done..|lia]).
  assert (Htd : forall x, x ∈ todo (S k) L -> (x ∉ l1) /\ (x ∉ l2)).
  { intros x (j & l & Hj & Hl & Hx)%todo_elem. apply (Hap j l); [lia|lia|done|done]. }
  assert (Esame : todo (S k) L2 = todo (S k) L) by (apply todo_ext; intros j Hj; rewrite J2, J1 by lia; done).
  assert (E12 : used_in H1 l2 = used_in H l2) by (eapply swept_used; [exact S1|done]). split; [done|].
  split; [congruence| | | | | | |done].
  - intros j Hj. rewrite J2, J1 by lia. apply E2. lia.
  - rewrite Esame, (swept_used _ _ _ _ S2) by apply Htd. rewrite (swept_used _ _ _ _ S1) by apply Htd.
    rewrite <- E3, (used_in_perm _ _ _ (todo_step k L l1 l2 Hk Hl1 Hl2)), !used_in_app. lia.
  - by rewrite (sw_final _ _ _ S2), (sw_final _ _ _ S1).
  - intros id c Hid Hc. rewrite Esame in Hid. destruct (decide (id ∈ l2)) as [H2in|H2in].
    { destruct (sw_in _ _ _ S2 id c H2in Hc) as (c1 & _ & ->). apply sweep_idem. }
    rewrite (sw_out _ _ _ S2) in Hc by done. destruct (decide (id ∈ l1)) as [H1in|H1in].
    { destruct (sw_in _ _ _ S1 id c H1in Hc) as (c1 & _ & ->). apply sweep_idem. }
    rewrite (sw_out _ _ _ S1) in Hc by done. apply (E5 id c); [|done]. rewrite (todo_step k L l1 l2 Hk Hl1 Hl2). set_solver.
  - intros j ids id c Hj Hids Hid Hc. destruct (decide (j = k)) as [->|Hjk].
    + rewrite Hla2 in Hids. injection Hids as <-. destruct (F2 id Hid) as [Hi|[_ Hi]]; [|by apply Hi]. destruct (F1 id Hi) as [Hi1 Hi2].
      apply Hi2. rewrite <- (sw_out _ _ _ S2); [done|]. intros Hi'. by apply (Hap12 id).
    + rewrite J2, J1 in Hids by lia. destruct (Hap j ids id) as [N1 N2]; [lia|lia|done|done|].
      rewrite (sw_out _ _ _ S2), (sw_out _ _ _ S1) in Hc by done. eapply (E6 j); eauto. lia.
  - pose proof (swept_pages _ _ _ S1). pose proof (swept_pages _ _ _ S2). lia.
Qed.

(** The lists of class [k] in the variables of [heap_endgc]. *)
Lemma take_lists m H L T u n k l1 l2 : hp_at m H L [] T u n -> (k < 5)%nat -> L !! k = Some l1 -> L !! (5 + k)%nat = Some l2 ->
  hp_at (upd (upd m (heap, 8 * Z.of_nat k) NULL) (heap, 8 * Z.of_nat (5 + k)) NULL) H (<[(5 + k)%nat := []]> (<[k := []]> L))
    [(Z.of_nat k, List.hd NULL l1, l1); (Z.of_nat k, List.hd NULL l2, l2)] T u n.
Proof.
  intros HP Hk H1 H2. pose proof (take_ok _ _ _ _ _ _ _ _ _ _ k l1 HP H1) as HP1.
  pose proof (take_ok _ _ _ _ _ _ _ _ _ _ (5 + k) l2 HP1 ltac:(by rewrite list_lookup_insert_ne by lia)) as HP2.
  replace (kcls (5 + k)) with (Z.of_nat k) in HP2 by (unfold kcls; destruct (Nat.ltb_spec (5 + k) 5), (Nat.ltb_spec (5 + k) 10); lia).
  replace (kcls k) with (Z.of_nat k) in HP2 by (unfold kcls; destruct (Nat.ltb_spec k 5); lia).
  eapply hp_perm; [exact HP2|]. apply perm_swap.
Qed.

Lemma sweep_small_eq p avail full empty : sweep_small root fuel p avail full empty = loop fuel (small_body root avail full empty) (p, u64 0).
Proof. reflexivity. Qed.

Lemma end_class K H0 L0 k u0 H L T u n m : hp_at m H L [] T u n -> ending K H0 L0 k u0 H L m -> (k < 5)%nat -> (length (concat L0) < fuel)%nat ->
  tot (list1 <- load (heap, 8 * Z.of_nat k) ;;
       list2 <- load (heap, 8 * Z.of_nat (5 + k)) ;;
       store (heap, 8 * Z.of_nat k) NULL ;;
       store (heap, 8 * Z.of_nat (5 + k)) NULL ;;
       u1 <- sweep_small root fuel list1 (heap, 8 * Z.of_nat k) (heap, 8 * Z.of_nat (5 + k)) (entry sizeclass_empty (Z.of_nat k)) ;;
       u2 <- sweep_small root fuel list2 (heap, 8 * Z.of_nat k) (heap, 8 * Z.of_nat (5 + k)) (entry sizeclass_empty (Z.of_nat k)) ;;
       Ret (u1, u2)) m (fun r m' => exists v H' L' T', u64 (u64 (u64 u0 + r.1) + r.2) = u64 v /\ hp_at m' H' L' [] T' u n /\ ending K H0 L0 (S k) v H' L' m').
Proof.
  intros HP HE Hk Hfu. pose proof (en_len _ _ _ _ _ _ _ _ HE) as Hlen.
  destruct (lookup_lt_is_Some_2 L k ltac:(lia)) as [l1 H1]. destruct (lookup_lt_is_Some_2 L (5 + k) ltac:(lia)) as [l2 H2].
  pose proof (lo_nodup _ _ _ (hp_lists _ _ _ _ _ _ _ _ _ _ HP)) as Hnd. simpl in Hnd. rewrite app_nil_r in Hnd.
  destruct (la_heap _ _ _ _ (hp_chain _ _ _ _ _ _ _ _ _ _ HP) k l1 H1) as (p1 & G1 & C1). rewrite (clist_hd _ _ _ C1) in G1.
  destruct (la_heap _ _ _ _ (hp_chain _ _ _ _ _ _ _ _ _ _ HP) _ l2 H2) as (p2 & G2 & C2). rewrite (clist_hd _ _ _ C2) in G2.
  pose proof (wa_heap _ _ _ _ _ _ _ _ (hp_words _ _ _ _ _ _ _ _ _ _ HP)) as Hh.
  assert (F1 : (length l1 < fuel)%nat) by (rewrite (en_same _ _ _ _ _ _ _ _ HE) in H1 by lia; apply length_concat_elem in H1; lia).
  assert (F2 : (length l2 < fuel)%nat) by (rewrite (en_same _ _ _ _ _ _ _ _ HE) in H2 by lia; apply length_concat_elem in H2; lia).
  apply tot_bind, (tot_load _ _ _ _ G1), tot_bind, (tot_load _ _ _ _ G2), tot_bind, tot_store; [eapply is_struct_inb; [exact Hh|change sizeof_heap_t with 104; lia]|].
  apply tot_bind, tot_store; [rewrite inb_upd; eapply is_struct_inb; [exact Hh|change sizeof_heap_t with 104; lia]|].
  pose proof (take_lists _ _ _ _ _ _ _ _ _ HP Hk H1 H2) as HP1. set (L1 := <[(5 + k)%nat := []]> (<[k := []]> L)) in *.
  assert (A1 : L1 !! k = Some []) by (unfold L1; rewrite list_lookup_insert_ne by lia; apply list_lookup_insert_eq; lia).
  assert (A2 : L1 !! (5 + k)%nat = Some []) by (unfold L1; apply list_lookup_insert_eq; rewrite length_insert; lia).
  assert (R0 : mroom (3 * pages_of H + K) (upd (upd m (heap, 8 * Z.of_nat k) NULL) (heap, 8 * Z.of_nat (5 + k)) NULL))
    by (do 2 apply mroom_upd; apply (en_room _ _ _ _ _ _ _ _ HE)).
  rewrite !sweep_small_eq. apply tot_bind. pose proof (sweep_small_ok root initialgc heap k K n _ u l1 Hk fuel _ _ _ _ 0 _ _ HP1 A1 A2 R0 F1) as W1.
  eapply tot_mono; [exact W1|]. clear W1.
  intros r1 m1 (-> & H1' & L1' & T1 & HP2 & S1 & R1 & N1 & J1 & [lf Hlf] & la1 & Hla1 & I1). cbv beta.
  apply tot_bind. eapply tot_mono; [apply (sweep_small_ok root initialgc heap k K n _ u l2 Hk fuel _ _ _ _ 0 _ _ HP2 Hla1 Hlf R1 F2)|].
  intros r2 m2 (-> & H2' & L2' & T2 & HP3 & S2 & R2 & N2 & J2 & _ & la2 & Hla2 & I2). apply tot_ret. simpl fst. simpl snd.
  destruct (ending_step K H0 L0 k u0 H L m l1 l2 H1' L1' H2' L2' m2 la1 la2) as [E12 HE2]; try done.
  - rewrite N2, N1. unfold L1. by rewrite !length_insert.
  - intros j D1 D2. rewrite J1 by done. unfold L1. by rewrite !list_lookup_insert_ne by done.
  - intros id Hid. by destruct (I1 id Hid) as [[]%not_elem_of_nil|?].
  - exists (u0 + used_in H l1 + used_in H l2), H2', L2', T2. split; [|done]. by rewrite E12, !Z.add_0_l, !u64_add_r, (u64_add_l u0), u64_add_l.
Qed.

Definition class_body :=
  ltac:(let t := eval unfold heap_endgc in (heap_endgc root initialgc nextgc fuel heap) in
        match t with pbind _ (loop _ ?b _) => exact b end).

Lemma end_classes K H0 L0 n u : (length (concat L0) < fuel)%nat -> forall d k u0 H L T m, (k + d = 5)%nat -> hp_at m H L [] T u n -> ending K H0 L0 k u0 H L m ->
  tot (loop (S d) class_body (Z.of_nat k, u64 u0)) m (fun r m' => exists v H' L' T', r = u64 v /\ hp_at m' H' L' [] T' u n /\ ending K H0 L0 5 v H' L' m').
Proof.
  intros Hfu. induction d as [|d IH]; intros k u0 H L T m Hk HP HE.
  - apply tot_loop_exit; [lia|]. replace k with 5%nat in * by lia. cbn. exists u0, H, L, T. done.
  - apply tot_loop_S. pose proof (end_class K H0 L0 k u0 H L T u n m HP HE ltac:(lia) Hfu) as HC. unfold class_body. cbv beta iota.
    replace (Z.of_nat k <? HEAP_SIZECLASSES) with true by (symmetry; apply Z.ltb_lt; change HEAP_SIZECLASSES with 5; lia).
    replace (H_FREE + 8 * Z.of_nat k) with (8 * Z.of_nat k) by lia. replace (H_FULL + 8 * Z.of_nat k) with (8 * Z.of_nat (5 + k)) by lia.
    fold class_body.
    do 6 follow HC.
    destruct HC as (v & H' & L' & T' & E & HP' & HE'). simpl in E. apply tot_ret. cbv beta iota. rewrite E.
    replace (Z.of_nat k + 1) with (Z.of_nat (S k)) by lia. apply (IH (S k) v H' L' T'); [lia|done|done].
Qed.

(** All chunks swept: their objects are those that were to be kept. *)
Lemma objects_swept (H : chunks) : (forall id c, H !! id = Some c -> sweep c = c) -> objects H = final H.
Proof.
  intros E. unfold objects, final. f_equal. rewrite <- !list_fmap_compose. apply list_fmap_ext. intros i [id c] Hi. simpl.
  apply list_elem_of_lookup_2, elem_of_map_to_list in Hi. by rewrite (E id c Hi).
Qed.

Lemma sweep_large_eq p used : sweep_large root fuel p used = loop fuel (large_body root fuel) (p, NULL, used).
Proof. reflexivity. Qed.

Lemma end_large K H0 L0 v H L T u n m : hp_at m H L [] T u n -> ending K H0 L0 5 v H L m -> (length (concat L0) < fuel)%nat -> (pages_of H0 < fuel)%nat ->
  tot (large <- load (heap, H_LARGE) ;; r <- sweep_large root fuel large (u64 v) ;; store (heap, H_LARGE) r.1 ;; Ret r.2) m
    (fun r m' => r = u64 (sizes (final H0)) /\ exists H' L' T', hp_at m' H' L' [] T' u n /\ length L' = 11%nat /\ free_ok H' L' /\
      objects H' ≡ₚ final H0 /\ (pages_of H' <= pages_of H0)%nat /\ mroom (3 * pages_of H' + K) m').
Proof.
  intros HP [E1 E2 E3 E4 E5 E6 E7 E8] Hfu Hpf. pose proof (lo_nodup _ _ _ (hp_lists _ _ _ _ _ _ _ _ _ _ HP)) as Hnd. simpl in Hnd. rewrite app_nil_r in Hnd.
  destruct (lookup_lt_is_Some_2 L 10 ltac:(lia)) as [l Hl].
  assert (EL : L = take 10 L ++ [l]).
  { rewrite <- (take_drop 10 L) at 1. f_equal. rewrite (drop_S L l 10 Hl). by rewrite drop_ge by lia. }
  assert (Etd : todo 5 L = l) by (unfold todo; rewrite (drop_ge (take 5 L)) by (rewrite length_take; lia); simpl;
    rewrite (drop_S L l 10 Hl), drop_ge by lia; simpl; apply app_nil_r).
  rewrite Etd in *. assert (Fl : (length l < fuel)%nat) by (rewrite E2 in Hl by lia; apply length_concat_elem in Hl; lia).
  destruct (la_heap _ _ _ _ (hp_chain _ _ _ _ _ _ _ _ _ _ HP) 10%nat l Hl) as (p & Hp & Hcl). rewrite (clist_hd _ _ _ Hcl) in Hp.
  change (8 * Z.of_nat 10) with H_LARGE in Hp. apply tot_bind, (tot_load _ _ _ _ Hp).
  assert (HlenT : length (take 10 L) = 10%nat) by (rewrite length_take; lia).
  rewrite EL in HP. apply hold_large in HP; [|done].
  pose proof (proj2 (var_drop _ _ _ _ _ _ _ _ _ _ HEAP_SIZECLASSES NULL) (conj HP eq_refl)) as HP1.
  pose proof (hp_perm _ _ _ _ _ _ _ _ HP1 ltac:(apply perm_swap)) as HP2. rewrite sweep_large_eq.
  pose proof (sweep_large_ok root initialgc heap fuel K n [] u l fuel m H _ T v NULL [] HP2 E8 Fl ltac:(lia)) as W.
  apply tot_bind. eapply tot_mono; [exact W|]. clear W. intros r m1 (Er & H' & T' & l' & HP3 & S & R).
  apply tot_bind, tot_store; [eapply is_struct_inb; [apply (wa_heap _ _ _ _ _ _ _ _ (hp_words _ _ _ _ _ _ _ _ _ _ HP3))|done]|].
  apply tot_ret. split; [by rewrite Er, E3|]. apply put_large in HP3; [|done]. exists H', (take 10 L ++ [l']), T'. split; [done|].
  split; [rewrite length_app, HlenT; done|]. split; [|split; [|split; [|by apply mroom_upd]]].
  - intros k ids id c Hk Hids Hid Hc. rewrite lookup_app_l in Hids by lia. rewrite lookup_take_lt in Hids by lia.
    apply (E6 k ids id c Hk Hids Hid). rewrite <- (sw_out _ _ _ S); [done|]. apply (nodup_apart L k 10 ids l); [done|done|done|lia|done].
  - rewrite objects_swept; [by rewrite (sw_final _ _ _ S)|]. intros id c Hc. destruct (decide (id ∈ l)) as [Hi|Hi].
    + destruct (sw_in _ _ _ S id c Hi Hc) as (c0 & _ & ->). apply sweep_idem.
    + rewrite (sw_out _ _ _ S) in Hc by done. by apply (E5 id).
  - pose proof (swept_pages _ _ _ S). lia.
Qed.

Lemma endgc_ok K H L T u n m : hp_at m H L [] T u n -> length L = 11%nat -> (length (concat L) < fuel)%nat -> (pages_of H < fuel)%nat ->
  mroom (3 * pages_of H + K) m ->
  tot (heap_endgc root initialgc nextgc fuel heap) m (fun _ m' => exists H' L' T' g, let u' := u64 (u + sizes (final H)) in
    hp_at m' H' L' [] T' u' (Z.max g (nextgc u')) /\ length L' = 11%nat /\ free_ok H' L' /\ objects H' ≡ₚ final H /\
    (pages_of H' <= pages_of H)%nat /\ mroom (3 * pages_of H' + K) m' /\ get m' (initialgc, 0) = Some g).
Proof.
  intros HP Hlen Hfu Hpf Hroom.
  assert (HE : ending K H L 0 0 H L m).
  { destruct (hp_lists _ _ _ _ _ _ _ _ _ _ HP) as [_ Hnd Hdom _ _]. simpl in Hnd, Hdom. rewrite app_nil_r in Hnd. setoid_rewrite app_nil_r in Hdom.
    split; [done|done| |done| | |lia|done].
    - rewrite todo_0, used_in_all; [lia|done|done].
    - intros id c Hn Hc. exfalso. apply Hn. rewrite todo_0. apply Hdom. by eexists.
    - intros j ids id c Hj. lia. }
  unfold heap_endgc. fold class_body. apply tot_bind. change (0, 0) with (Z.of_nat 0, u64 0).
  eapply tot_mono; [apply (end_classes K H L n u Hfu (Z.to_nat HEAP_SIZECLASSES) 0 0 H L T m); done|].
  intros r m1 (v & H1 & L1 & T1 & -> & HP1 & HE1). pose proof (end_large K H L v H1 L1 T1 u n m1 HP1 HE1 Hfu Hpf) as HC. do 3 follow HC.
  destruct HC as (Er & H' & L' & T' & HP' & Hlen' & Hfree & Hobj & Hpg & Hr). simpl in Er.
  match type of Hr with mroom _ ?x => rename x into m2 end.
  pose proof (hp_words _ _ _ _ _ _ _ _ _ _ HP') as [W1 W2 W3 [g Hg] W5 W6].
  destruct (sh_static _ _ _ _ _ (hp_shape _ _ _ _ _ _ _ _ _ _ HP')) as [Hne _].
  apply tot_bind, (tot_load _ _ _ _ W2), tot_bind, tot_store; [by eapply is_struct_inb|]. rewrite Er, u64_add_r. set (u' := u64 (u + sizes (final H))).
  apply (hp_used_upd _ _ _ _ _ _ _ _ _ _ u') in HP'. pose proof (hp_words _ _ _ _ _ _ _ _ _ _ HP') as [V1 V2 V3 _ _ _].
  apply tot_bind, (tot_load _ _ _ _ V2), tot_bind, tot_store; [by eapply is_struct_inb|].
  apply (hp_next_upd _ _ _ _ _ _ _ _ _ _ (nextgc u')) in HP'. pose proof (hp_words _ _ _ _ _ _ _ _ _ _ HP') as [X1 X2 X3 _ _ _].
  assert (Hg' : get (upd (upd m2 (heap, H_USED) u') (heap, H_NEXT_GC) (nextgc u')) (initialgc, 0) = Some g)
    by (rewrite !get_upd_ne by congruence; done).
  apply tot_bind, (tot_load _ _ _ _ X3), tot_bind, (tot_load _ _ _ _ Hg'). destruct (Z.ltb_spec (nextgc u') g).
  - apply tot_bind, (tot_load _ _ _ _ Hg'), tot_store; [by eapply is_struct_inb|]. exists H', L', T', g. cbv zeta.
    split; [rewrite Z.max_l by lia; by apply (hp_next_upd _ _ _ _ _ _ _ _ _ _ g) in HP'|]. split_and!; try done; [by repeat apply mroom_upd|].
    by rewrite get_upd_ne by congruence.
  - apply tot_ret. exists H', L', T', g. cbv zeta. rewrite Z.max_r by lia. split_and!; try done. by repeat apply mroom_upd.
Qed.
End endgc.
