(* ===== verification/HeapAlloc.v ===== *)
(** * Allocation from the heap (mem/heap.c: heap_alloc, heap_free) *)
From S2P Require Export Fun HeapEnd.
Import ds_fun pool heap.

(** Two ranges of addresses without a common one. *)
Definition apart (e e' : Z * Z) : Prop := e.1 + e.2 <= e'.1 \/ e'.1 + e'.2 <= e.1.

Section add.
Variables (root initialgc heap : Z).
Abbreviation hp_at := (hp_at root initialgc heap).
Abbreviation words_at := (words_at root initialgc heap).

(** New objects in the memory do not matter. *)
Lemma hp_ext m m' H L R T u n : hp_at m H L R T u n -> (forall b, live m b -> m' !! b = m !! b) -> hp_at m' H L R T u n.
Proof.
  intros [HL HS [W1 W2 W3 [g W4] W5 W6] HC] E.
  assert (Hh : m' !! heap = m !! heap) by (apply E; by eapply is_struct_live).
  assert (Hg : m' !! initialgc = m !! initialgc) by (apply E; by apply live_get in W4).
  split; [done|done| |].
  - split; [by apply (is_struct_lookup m)|by rewrite (get_lookup_eq m)|by rewrite (get_lookup_eq m)| | |].
    + exists g. by rewrite (get_lookup_eq m).
    + intros id c Hc. destruct (W5 id c Hc) as [A1 _ _ _ _ A6]. apply (chunk_at_ext m); [auto|apply E; by eapply is_struct_live..].
    + apply (pm_ext _ m); [done|]. intros b Hb. apply E. by eapply pm_objs_live.
  - apply (lists_ext _ m); [done|intros; by rewrite (get_lookup_eq m)|]. intros id [c Hc]%(lo_dom _ _ _ HL).
    apply get_lookup_eq, E. destruct (W5 id c Hc) as [A1 _ _ _ _ _]. by eapply is_struct_live.
Qed.

(** What a new chunk has to be apart from. *)
Record new_chunk (m : mem) (H : chunks) (T : gmap (list Z) Z) (id : Z) (c : chunk) : Prop := {
  nc_id : id <> NULL;
  nc_block : block_ok c;
  nc_ne : id <> c_m c;
  nc_fresh : forall b, owned H b \/ b = heap \/ b = initialgc \/ pm_objs root T b -> b <> id /\ b <> c_m c;
  nc_apart : forall id' c', H !! id' = Some c' -> apart (c_m c, bytes c) (c_m c', bytes c');
  nc_live : live m id /\ live m (c_m c)
}.

(** Blocks taken from the pool are. *)
Lemma new_chunk_ok m m' H L R T u n id c : hp_at m H L R T u n -> m !! id = None -> id <> NULL -> m !! c_m c = None -> id <> c_m c -> block_ok c ->
  (forall b o, m !! b = Some o -> apart (c_m c, bytes c) (b, osize o)) -> live m' id -> live m' (c_m c) ->
  new_chunk m' H T id c.
Proof.
  intros HP H1 H2 H3 H4 H5 Hap Hl1 Hl2. split; [done|done|done| | |done].
  - intros b Hb. assert (live m b) as [o Ho]; [|split; congruence]. destruct HP as [HL HS HW HC]. destruct Hb as [Hb|[->|[->|Hb]]].
    + by eapply chunk_owned_live.
    + eapply is_struct_live, (wa_heap _ _ _ _ _ _ _ _ HW).
    + destruct (wa_init _ _ _ _ _ _ _ _ HW) as [g Hg]. by apply live_get in Hg.
    + eapply pm_objs_live; [apply (wa_map _ _ _ _ _ _ _ _ HW)|done].
  - intros id' c' Hc. destruct (wa_chunk _ _ _ _ _ _ _ _ (hp_words _ _ _ _ _ _ _ _ _ _ HP) id' c' Hc) as [_ _ _ _ _ (_ & o & Ho & Hs)].
    specialize (Hap _ _ Ho). unfold apart in *. simpl in *. lia.
Qed.

Lemma fresh_ok m m3 H L T u n id c : hp_at m H L [] T u n -> m !! id = None -> id <> NULL -> m !! c_m c = None -> id <> c_m c -> block_ok c ->
  (forall b o, m !! b = Some o -> apart (c_m c, bytes c) (b, osize o)) -> (forall b, b <> id -> b <> c_m c -> m3 !! b = m !! b) -> chunk_at m3 id c ->
  hp_at m3 H L [] T u n /\ new_chunk m3 H T id c.
Proof.
  intros HP H1 H2 H3 H4 H5 Hap E3 Hca. split.
  - apply (hp_ext m); [done|]. intros b' [o Ho]. apply E3; congruence.
  - apply (new_chunk_ok m _ _ L [] _ u n); try done; [by eapply is_struct_live, ca_id|by eapply is_struct_live, ca_blk].
Qed.

Lemma new_kept m m2 H T T2 id c : new_chunk m H T id c -> pm_grows root m m2 T T2 -> m2 !! id = m !! id /\ m2 !! c_m c = m !! c_m c.
Proof.
  intros [N1 N2 N3 N4 N5 [[o1 L1] [o2 L2]]] (_ & G2 & G3).
  split; apply G3; intros Ho; (destruct (G2 _ Ho) as [Ho'|Hn]; [|congruence]); by destruct (N4 _ (or_intror (or_intror (or_intror Ho')))).
Qed.

Lemma shape_add m m2 H T T2 id c : shape_ok root initialgc heap H T -> new_chunk m H T id c -> pm_grows root m m2 T T2 -> paged T T2 (c_m c) (bytes c) id ->
  0 < bytes c -> (forall b, owned H b \/ b = heap \/ b = initialgc -> ~ pm_objs root T2 b) -> shape_ok root initialgc heap (<[id := c]> H) T2.
Proof.
  intros [S1 S2 S3 S4 S5 S6 S7 S8] [N1 N2 N3 N4 N5 N6] HG HPg Hpos Hold.
  assert (Hid : H !! id = None) by (destruct (H !! id) eqn:E; [|done]; destruct (N4 id) as [? _]; [left; left; by eexists|done]).
  assert (Hm : H !! c_m c = None) by (destruct (H !! c_m c) eqn:E; [|done]; destruct (N4 (c_m c)) as [_ ?]; [left; left; by eexists|done]).
  assert (Hnew : forall b, b = id \/ b = c_m c -> b <> heap /\ b <> initialgc /\ ~ pm_objs root T2 b).
  { intros b Hb. destruct (N4 heap) as [A1 A2]; [auto|]. destruct (N4 initialgc) as [A3 A4]; [auto|].
    split_and!; [destruct Hb; congruence|destruct Hb; congruence|]. intros Ho. destruct HG as (_ & G2 & _).
    destruct N6 as [[o1 L1] [o2 L2]]. destruct (G2 b Ho) as [Ho'|Hn]; [destruct (N4 b) as [A5 A6]; [auto|]; destruct Hb; congruence|destruct Hb; congruence]. }
  split.
  - intros id' c' [[<- <-]|[_ Hc]]%lookup_insert_Some; [done|eauto].
  - intros id1 c1 id2 c2 [[<- <-]|[_ H1]]%lookup_insert_Some [[<- <-]|[_ H2]]%lookup_insert_Some Hne; [done| | |eauto].
    + apply (N5 id2 c2 H2).
    + destruct (N5 id1 c1 H1) as [?|?]; [by right|by left].
  - intros id' c' [[<- <-]|[_ Hc]]%lookup_insert_Some; [done|eauto].
  - intros id' c' [[<- <-]|[_ Hc]]%lookup_insert_Some; (rewrite lookup_insert_ne; [eauto|]); [done|].
    destruct (N4 (c_m c')) as [? _]; [left; right; eauto|congruence].
  - intros b [[c' [[<- <-]|[_ Hc]]%lookup_insert_Some]|(id' & c' & [[<- <-]|[_ Hc]]%lookup_insert_Some & <-)]; [auto| |auto|].
    + destruct (S5 b) as (? & ? & _); [left; by eexists|]. split_and!; auto. apply Hold. left. left. by eexists.
    + destruct (S5 (c_m c')) as (? & ? & _); [right; eauto|]. split_and!; auto. apply Hold. left. right. eauto.
  - destruct S6 as (? & _). split_and!; auto.
  - intros id' c' a [[<- <-]|[_ Hc]]%lookup_insert_Some Ha Ho; rewrite HPg by done; [by rewrite decide_True|].
    rewrite decide_False; [eauto|]. pose proof (N5 id' c' Hc) as Hd. unfold apart, owns in *. simpl in *. lia.
  - intros a Ha. rewrite HPg by done. case_decide as Hin; intros Hne; [exists c; by rewrite lookup_insert_eq|].
    destruct (S8 a Ha Hne) as (c' & Hc' & Ho). exists c'. split; [|done]. rewrite lookup_insert_ne; [done|congruence].
Qed.

(** A new chunk at the front of a list. *)
Lemma add_ok m m2 m3 H L T T2 u n k l id c : hp_at m H L [] T u n -> L !! k = Some l -> cls_ok (kcls k) c -> new_chunk m H T id c ->
  pm_at root m2 T2 -> pm_grows root m m2 T T2 -> paged T T2 (c_m c) (bytes c) id ->
  (forall b, b <> id -> m3 !! b = m2 !! b) -> chunk_at m3 id c -> get m3 (id, C_NEXT) = Some (List.hd NULL l) ->
  hp_at (upd m3 (heap, 8 * Z.of_nat k) id) (<[id := c]> H) (<[k := id :: l]> L) [] T2 u n.
Proof.
  intros HP Hl Hcls HN HT2 HG HPg E3 Hca Hnx. destruct (pm_change _ _ _ _ _ _ _ _ _ _ _ _ HP HT2 HG) as (HW2 & HC2 & Hfr).
  destruct (bytes_pages _ _ Hcls) as [_ Hpos]. pose proof (lookup_lt_Some _ _ _ Hl) as Hkl. destruct HP as [HL HS HW HC].
  pose proof (lo_len _ _ _ HL) as Hlen. pose proof HN as [N1 N2 N3 N4 N5 N6].
  assert (Hid : H !! id = None) by (destruct (H !! id) eqn:E; [|done]; destruct (N4 id) as [? _]; [left; left; by eexists|done]).
  assert (HS' : shape_ok root initialgc heap (<[id := c]> H) T2) by (eapply shape_add; eauto; intros b Hb; by apply Hfr).
  assert (Hnid : heap <> id /\ initialgc <> id) by (split; [destruct (N4 heap); auto|destruct (N4 initialgc); auto]).
  assert (Eh : m3 !! heap = m2 !! heap) by (apply E3; tauto). assert (Ei : m3 !! initialgc = m2 !! initialgc) by (apply E3; tauto).
  assert (HW3 : words_at m3 (<[id := c]> H) T2 u n).
  { destruct HW2 as [W1 W2 W3 [g W4] W5 W6]. split; [by apply (is_struct_lookup m2)|by rewrite (get_lookup_eq m2)|by rewrite (get_lookup_eq m2)| | |].
    - exists g. by rewrite (get_lookup_eq m2).
    - intros id' c' [[<- <-]|[Hne Hc]]%lookup_insert_Some; [done|]. apply (chunk_at_ext m2); [auto|apply E3; congruence|apply E3].
      destruct (N4 (c_m c')); [left; right; eauto|done].
    - apply (pm_ext _ m2); [done|]. intros b Hb. apply E3. intros ->. revert Hb. apply (sh_apart _ _ _ _ _ HS' id). left. rewrite lookup_insert_eq. by eexists. }
  assert (Hlist : forall k' ids, L !! k' = Some ids -> forall p, clist m2 p ids -> clist (upd m3 (heap, 8 * Z.of_nat k) id) p ids).
  { intros k' ids Hk p Hp. apply (clist_ext m2); [done|]. intros id' Hid'. destruct (list_chunk _ _ _ _ _ _ HL Hk Hid') as (c' & Hc' & _).
    rewrite get_upd_ne by (intros [= E]; by destruct (sh_apart _ _ _ _ _ HS id' (owned_id _ _ _ Hc')) as (? & _)).
    apply get_lookup_eq, E3. congruence. }
  split; [|done| |].
  - destruct HL as [L1 L2 L3 L4 L5]. simpl in *. rewrite app_nil_r in L2. setoid_rewrite app_nil_r in L3. split; [by rewrite length_insert| | | |].
    + rewrite app_nil_r, (concat_insert_cons _ _ _ _ Hl). apply NoDup_cons. split; [|done]. intros [? ?]%L3. congruence.
    + intros id'. simpl. rewrite app_nil_r, (concat_insert_cons _ _ _ _ Hl), elem_of_cons, lookup_insert_is_Some, L3. split; [intros [<-|[_ ?]]; auto|].
      intros [->|Hi]; [by left|]. destruct (decide (id = id')); auto.
    + intros k' ids id' c' Hk Hi Hc. destruct (decide (k = k')) as [<-|Hne].
      * rewrite list_lookup_insert_eq in Hk by done. injection Hk as <-. apply lookup_insert_Some in Hc as [[<- <-]|[Hne Hc]]; [done|].
        apply elem_of_cons in Hi as [->|Hi]; [done|]. by apply (L4 k l id').
      * rewrite list_lookup_insert_ne in Hk by done. apply lookup_insert_Some in Hc as [[<- <-]|[_ Hc]]; [|by apply (L4 k' ids id')].
        exfalso. assert (id ∈ concat L) as [? ?]%L3 by (by eapply concat_elem). congruence.
    + intros cls p ids id' c' []%not_elem_of_nil.
  - apply hp_words_head; [done|done|lia].
  - split; [|intros cls p ids []%not_elem_of_nil]. intros k' ids Hk. destruct (decide (k = k')) as [<-|Hne].
    + rewrite list_lookup_insert_eq in Hk by done. injection Hk as <-. exists id.
      split; [apply get_upd_eq; simpl; eapply is_struct_live, (wa_heap _ _ _ _ _ _ _ _ HW3)|]. simpl. split_and!; [done|done|].
      exists (List.hd NULL l). split; [by rewrite get_upd_ne by (intros [= E]; tauto)|].
      destruct (la_heap _ _ _ _ HC2 k l Hl) as (p & Hp & Hc). rewrite (clist_hd _ _ _ Hc) in Hc. eauto.
    + rewrite list_lookup_insert_ne in Hk by done. destruct (la_heap _ _ _ _ HC2 k' ids Hk) as (p & Hp & Hc). exists p. split; [|eauto].
      rewrite get_upd_ne by (intros [= E]; lia). by rewrite (get_lookup_eq m2).
Qed.

(** A variable's list becomes an empty list of the heap. *)
Lemma concat_insert_empty (L : list (list Z)) k l : L !! k = Some [] -> concat (<[k := l]> L) ≡ₚ l ++ concat L.
Proof.
  revert k. induction L as [|l0 L IH]; intros [|k] E; simpl in *; [done|done|by injection E as ->|]. rewrite (IH k E), !app_assoc. apply Permutation_app_tail, Permutation_app_comm.
Qed.

Lemma put_list_ok m H L R T u n k p l : hp_at m H L ((kcls k, p, l) :: R) T u n -> L !! k = Some [] ->
  hp_at (upd m (heap, 8 * Z.of_nat k) p) H (<[k := l]> L) R T u n.
Proof.
  intros [HL HS HW HC] Hk. pose proof (lookup_lt_Some _ _ _ Hk) as Hlt. pose proof (lo_len _ _ _ HL) as Hlen.
  assert (Hdom : forall id', id' ∈ concat L ++ concat (((kcls k, p, l) :: R).*2) -> is_Some (H !! id')) by (intros id' ?; by apply (lo_dom _ _ _ HL)).
  assert (Hfar : forall p' ids, clist m p' ids -> (forall id', id' ∈ ids -> id' ∈ concat L ++ concat (((kcls k, p, l) :: R).*2)) ->
    clist (upd m (heap, 8 * Z.of_nat k) p) p' ids) by (intros; eapply clist_heap; eauto).
  assert (HinR : forall cls' p' ids id', (cls', p', ids) ∈ (kcls k, p, l) :: R -> id' ∈ ids -> id' ∈ concat L ++ concat (((kcls k, p, l) :: R).*2)).
  { intros cls' p' ids id' Hi Hid. apply elem_of_app. right. apply list_elem_of_lookup in Hi as [j Hj].
    eapply (concat_elem _ j ids); [|done]. by rewrite list_lookup_fmap, Hj. }
  split; [|done|by apply hp_words_head; auto; lia|].
  - eapply lists_move; [exact HL|by rewrite length_insert| | |].
    + simpl. rewrite (concat_insert_empty L k l Hk), !app_assoc. apply Permutation_app_tail, Permutation_app_comm.
    + intros k' ids id' c' Hk' Hid Hc'. apply list_lookup_insert_Some in Hk' as [(<- & <- & _)|[_ Hk']]; [|by eapply lo_cls].
      eapply (lo_vars _ _ _ HL); [left|done|done].
    + intros cls p' ids id' c' Hi Hid Hc'. eapply (lo_vars _ _ _ HL); [by right|done|done].
  - split.
    + intros k' ids Hk'. apply list_lookup_insert_Some in Hk' as [(<- & <- & _)|[Hne Hk']].
      * exists p. split; [apply get_upd_eq; simpl; eapply is_struct_live, (wa_heap _ _ _ _ _ _ _ _ HW)|].
        apply Hfar; [apply (la_vars _ _ _ _ HC (kcls k) p); left|]. intros id' ?. eapply HinR; [left|done].
      * destruct (la_heap _ _ _ _ HC k' ids Hk') as (p' & Hp' & Hl). exists p'. split; [rewrite get_upd_ne; [done|intros [= E]; lia]|].
        apply Hfar; [done|]. intros id' ?. apply elem_of_app. left. by eapply concat_elem.
    + intros cls p' ids Hi. apply Hfar; [apply (la_vars _ _ _ _ HC cls p'); by right|]. intros id' ?. eapply HinR; [by right|done].
Qed.

(** The first chunk of a list goes to the front of another one. *)
Lemma shift_ok m H L T u n j k id rest l : hp_at m H L [] T u n -> L !! j = Some (id :: rest) -> L !! k = Some l -> j <> k -> kcls j = kcls k ->
  hp_at (upd (upd (upd m (heap, 8 * Z.of_nat j) (List.hd NULL rest)) (id, C_NEXT) (List.hd NULL l)) (heap, 8 * Z.of_nat k) id)
    H (<[j := rest]> (<[k := id :: l]> (<[j := []]> L))) [] T u n.
Proof.
  intros HP Hj Hk Hne Hcls. pose proof (lookup_lt_Some _ _ _ Hj). destruct (list_chunk _ _ _ _ _ id (hp_lists _ _ _ _ _ _ _ _ _ _ HP) Hj ltac:(left)) as (c & Hc & _).
  destruct (sh_apart _ _ _ _ _ (hp_shape _ _ _ _ _ _ _ _ _ _ HP) id (owned_id _ _ _ Hc)) as (Hh & _).
  pose proof (take_ok _ _ _ _ _ _ _ _ _ _ j _ HP Hj) as HP1.
  pose proof (move_ok _ _ _ _ _ _ _ _ _ _ _ _ _ _ k l HP1 ltac:(by rewrite list_lookup_insert_ne) (eq_sym Hcls)) as HP2.
  pose proof (put_list_ok _ _ _ _ _ _ _ j _ _ HP2 ltac:(rewrite list_lookup_insert_ne by done; by apply list_lookup_insert_eq)) as HP3.
  rewrite (upd_comm _ (heap, 8 * Z.of_nat k)) in HP3 by (intros [= E]; lia). rewrite (upd_comm _ (id, C_NEXT)) in HP3 by (intros [= E _]; done).
  by rewrite upd_upd in HP3.
Qed.
End add.

Lemma new_struct (m : mem) p sz : p <> NULL -> is_struct (<[p := Obj sz ∅]> m) p sz.
Proof. intros Hp. split; [done|]. exists (Obj sz ∅). by rewrite lookup_insert_eq. Qed.

Section alloc.
Context `{HM : Malloc, HR : !MallocRoom, HPP : !PagePool}.
Variables (root initialgc heap actor : Z) (fuel : nat).
Abbreviation hp_at := (hp_at root initialgc heap).

Lemma page_alloc_ok m sz k : mroom (S k) m -> 0 < sz <= M32 ->
  tot (POOL_ALLOC sz) m (fun a m' => m' = <[a := Obj sz ∅]> m /\ a <> NULL /\ m !! a = None /\ mroom k m' /\
    0 < a /\ a + sz <= 2 ^ 48 /\ (sz mod POOL_ALIGN = 0 -> a mod POOL_ALIGN = 0) /\ forall b o, m !! b = Some o -> apart (a, sz) (b, osize o)).
Proof.
  intros Hk Hs. unfold POOL_ALLOC, malloc. apply tot_bind. destruct (mroom_malloc k m (Obj sz ∅) Hk Hs) as [E Hk']. simpl in E, Hk'.
  eapply run_tot; [rewrite run_new_obj; simpl; rewrite (proj2 (Z.eqb_neq _ _) E); reflexivity|].
  rewrite (proj2 (Z.eqb_neq _ _) E). apply tot_ret. destruct (malloc_range m sz E) as [R1 R2].
  split_and!; [done|done|apply (malloc_fresh m sz); [done|lia]|done|done|by apply page_48|intros; by apply page_aligned|].
  intros b o Ho. by apply page_apart.
Qed.

(** The object [(p, sz)] was taken; its bytes are not counted yet. *)
Definition taken (k need : nat) (H : chunks) (u n sz : Z) (p : Z) (m' : mem) : Prop :=
  exists H' L' T', hp_at m' H' L' [] T' u n /\ length L' = 11%nat /\ free_ok H' L' /\
    objects H' ≡ₚ (p, sz) :: objects H /\ 0 < p /\ (forall e, e ∈ objects H -> apart (p, sz) e) /\
    (pages_of H' <= pages_of H + need)%nat /\ mroom (3 * pages_of H' + k) m'.

Lemma taken_count k need H u n sz p m : taken k need H u n sz p m ->
  get m (heap, H_USED) = Some u /\ inb m (heap, H_USED) = true /\ taken k need H (u64 (u + sz)) n sz p (upd m (heap, H_USED) (u64 (u + sz))).
Proof.
  intros (H' & L' & T' & HP & E1 & E2 & E3 & E4 & E5 & E6 & E7). pose proof (hp_words _ _ _ _ _ _ _ _ _ _ HP) as [W1 W2 _ _ _ _].
  split; [done|]. split; [by eapply is_struct_inb|]. exists H', L', T'. split; [by eapply hp_used_upd|]. split_and!; try done. by apply mroom_upd.
Qed.

Lemma objects_elem (H : chunks) e : e ∈ objects H <-> exists id c, H !! id = Some c /\ e ∈ objs c.
Proof.
  unfold objects. split.
  - intros (k & l & Hl & He)%elem_concat. rewrite !list_lookup_fmap in Hl. destruct (map_to_list H !! k) as [[id c]|] eqn:E; [|done]. injection Hl as <-.
    apply list_elem_of_lookup_2, elem_of_map_to_list in E. eauto.
  - intros (id & c & Hc & He). apply elem_of_map_to_list, list_elem_of_lookup in Hc as [k Hk]. eapply (concat_elem _ k); [|exact He].
    by rewrite !list_lookup_fmap, Hk.
Qed.

(** An object in a block is apart from the objects of other blocks. *)
Lemma apart_blocks m H L R T u n c e e' id' c' : hp_at m H L R T u n -> H !! id' = Some c' -> e' ∈ objs c' ->
  c_m c <= e.1 -> e.1 + e.2 <= c_m c + bytes c -> apart (c_m c, bytes c) (c_m c', bytes c') -> apart e e'.
Proof.
  intros HP Hc' He' E1 E2 Hap. destruct (cls_of_chunk _ _ _ _ _ (hp_lists _ _ _ _ _ _ _ _ _ _ HP) Hc') as [cls Hcls].
  destruct (objs_in_block _ _ _ Hcls He') as (B1 & B2 & B3). unfold apart in *. simpl in *. lia.
Qed.

Lemma cells_apart c i j : 0 <= c_size c < HEAP_SIZECLASSES -> block_ok c -> is_cell (c_size c) i = true -> is_cell (c_size c) j = true -> i <> j ->
  apart (cell_at c i) (cell_at c j).
Proof.
  intros Hsc Hb Hi Hj Hne. pose proof (size_small c Hsc) as Es.
  assert (0 < SIZECLASS_SIZE (c_size c)) by (rewrite Es; assert (0 < 2 ^ c_size c) by (apply Z.pow_pos_nonneg; lia); lia).
  destruct (decide (apart (cell_at c i) (cell_at c j))) as [|Hn]; [done|]. exfalso. apply Hne.
  apply (cell_unique c i j (Z.max (cell_at c i).1 (cell_at c j).1)); auto; apply inside_spec; unfold apart in Hn; revert Hn; unfold cell_at; simpl; lia.
Qed.

Lemma objects_insert (H : chunks) id c c' e : H !! id = Some c -> objs c' ≡ₚ e :: objs c -> objects (<[id := c']> H) ≡ₚ e :: objects H.
Proof.
  intros Hc E. rewrite (objects_delete _ id c') by apply lookup_insert_eq. rewrite (objects_delete H id c Hc), delete_insert_id, E. done.
Qed.

(** A slot of a block with free slots. *)
Lemma take_slot m H L R T u n sc id c : hp_at m H L R T u n -> H !! id = Some c -> cls_ok sc c -> 0 <= sc < HEAP_SIZECLASSES -> c_slots c <> 0 ->
  let bit := ffsl (c_slots c) - 1 in let s := Z.land (c_slots c) (not32 (Z.shiftl 1 bit)) in let p := u64 (c_m c + Z.shiftl bit HEAP_MINBITS) in
  let H' := <[id := Ch (c_m c) (c_size c) s (c_shallow c)]> H in
  hp_at (upd m (id, C_SLOTS) s) H' L R T u n /\ objects H' ≡ₚ (p, SIZECLASS_SIZE sc) :: objects H /\ 0 < p /\
  (forall e, e ∈ objects H -> apart (p, SIZECLASS_SIZE sc) e).
Proof.
  intros HP Hc Hcls Hsc Hne bit s p H'. destruct (cls_small _ _ Hcls Hsc) as (Esz & Hb1 & Hb2 & Hsm). subst sc.
  pose proof (bits_range _ _ Hsc Hb1). destruct (ffs_set (c_slots c)) as [Hbit Htest]; [lia|]. fold bit in Hbit, Htest.
  assert (Ej : Z.of_nat (Z.to_nat bit) = bit) by lia.
  assert (Hcell : is_cell (c_size c) (Z.to_nat bit) = true) by (apply (bits_cell _ (c_slots c)); [done|done|by rewrite Ej]).
  destruct (cell_bounds _ _ Hsc Hcell) as [C1 C2]. rewrite Ej in *. pose proof (proj1 (is_cell_spec _ _ Hsc) Hcell) as [Hlt _].
  destruct (sh_block _ _ _ _ _ (hp_shape _ _ _ _ _ _ _ _ _ _ HP) id c Hc) as [Hblk _]. pose proof Hblk as (B1 & B2 & B3). pose proof (bytes_small c Hsc) as Eb.
  pose proof (size_small c Hsc) as Es. assert (Hpw : 0 < 2 ^ c_size c) by (apply Z.pow_pos_nonneg; lia).
  assert (Ep : p = c_m c + HEAP_MIN * bit).
  { unfold p. rewrite Z.shiftl_mul_pow2 by done. change (2 ^ HEAP_MINBITS) with HEAP_MIN. rewrite u64_small; [lia|]. rewrite Eb in B3.
    assert (M64 = 2 ^ 16 * 2 ^ 48) by done. lia. }
  assert (Hinb : forall e, c_m c <= e.1 -> e.1 + e.2 <= c_m c + bytes c -> forall id' c' e', H !! id' = Some c' -> id <> id' -> e' ∈ objs c' -> apart e e').
  { intros e E1 E2 id' c' e' Hc' Hid He'. eapply apart_blocks; eauto. apply (sh_inj _ _ _ _ _ (hp_shape _ _ _ _ _ _ _ _ _ _ HP) id c id' c' Hc Hc' Hid). }
  split; [|split; [|split]].
  - apply hp_bits with (c := c); [done|done|by left|]. intros cls' Hcls'. apply cls_bits; [done|by destruct (clear_bits_ok _ _ (Z.shiftl 1 bit) Hb1)|by destruct Hb2|].
    intros _. split; [by apply clear_bits_ok|done].
  - apply objects_insert with (c := c); [done|]. rewrite Ep. apply objs_take; [done|done|lia|done..].
  - rewrite Ep. lia.
  - intros e (id' & c' & Hc' & He)%objects_elem. rewrite Ep. destruct (decide (id = id')) as [<-|Hid].
    + rewrite Hc in Hc'. injection Hc' as <-. rewrite objs_small in He by done. apply list_elem_of_fmap in He as (j & -> & Hj).
      apply list_elem_of_filter in Hj as ((Hj1 & Hj2) & _). rewrite <- Ej. apply (cells_apart c (Z.to_nat bit) j); [done..|]. intros <-.
      rewrite Ej in Hj2. congruence.
    + apply (Hinb (c_m c + HEAP_MIN * bit, SIZECLASS_SIZE (c_size c))) with id' c'; simpl; try done; lia.
Qed.

Lemma free_ok_bits (H : chunks) L id c c' : free_ok H L -> (c_slots c' <> 0 \/ forall k ids, (k < 5)%nat -> L !! k = Some ids -> id ∉ ids) -> H !! id = Some c ->
  free_ok (<[id := c']> H) L.
Proof.
  intros HF Hs Hc k ids id' c1 Hk Hids Hid [[<- <-]|[_ Hc1]]%lookup_insert_Some; [|by eapply HF]. destruct Hs as [Hs|Hs]; [done|]. by destruct (Hs k ids Hk Hids).
Qed.

Lemma nodup_inner {A} (L : list (list A)) k l : NoDup (concat L) -> L !! k = Some l -> NoDup l.
Proof. intros Hnd (L1 & L2 & -> & _)%list_elem_of_split_length. rewrite concat_app in Hnd. by apply NoDup_app in Hnd as (_ & _ & (? & _)%NoDup_app). Qed.

Lemma free_shift (H : chunks) L sc id rest lf c : free_ok H L -> NoDup (concat L) -> (sc < 5)%nat -> L !! sc = Some (id :: rest) ->
  free_ok (<[id := c]> H) (<[sc := rest]> (<[(5 + sc)%nat := id :: lf]> (<[sc := []]> L))).
Proof.
  intros HF Hnd Hsc Hl j ids id' c' Hj Hids Hid Hc. pose proof (lookup_lt_Some _ _ _ Hl).
  assert (id <> id' /\ exists ids', L !! j = Some ids' /\ id' ∈ ids') as (Hne & ids' & Hids' & Hid').
  { destruct (decide (sc = j)) as [<-|Hne].
    - rewrite list_lookup_insert_eq in Hids by (by rewrite !length_insert). injection Hids as <-.
      split; [|exists (id :: rest); split; [done|by right]]. intros ->. by apply (nodup_inner L sc), NoDup_cons in Hl as [? _].
    - rewrite !list_lookup_insert_ne in Hids by lia. split; [|eauto]. intros ->. apply (nodup_apart L sc j (id' :: rest) ids id'); [done..|left|done]. }
  rewrite lookup_insert_ne in Hc by done. by eapply HF.
Qed.

Lemma alloc_slot_ok k m H L T u n sc id rest : hp_at m H L [] T u n -> length L = 11%nat -> free_ok H L -> (sc < 5)%nat -> L !! sc = Some (id :: rest) ->
  mroom (3 * pages_of H + k) m ->
  tot (slots <- load (id, C_SLOTS) ;;
       let bit := ffsl slots - 1 in
       let slots := Z.land slots (not32 (Z.shiftl 1 bit)) in
       base <- load (id, C_M) ;;
       let m := u64 (base + Z.shiftl bit HEAP_MINBITS) in
       store (id, C_SLOTS) slots ;;
       (if slots =? 0 then
          next <- load (id, C_NEXT) ;;
          store (heap, 8 * Z.of_nat sc) next ;;
          full <- load (heap, 8 * Z.of_nat (5 + sc)) ;;
          store (id, C_NEXT) full ;;
          store (heap, 8 * Z.of_nat (5 + sc)) id
        else Ret tt) ;;
       Ret m) m (taken k 0 H u n (SIZECLASS_SIZE (Z.of_nat sc))).
Proof.
  intros HP Hlen Hfree Hsc Hl Hroom. destruct (list_chunk _ _ _ _ _ id (hp_lists _ _ _ _ _ _ _ _ _ _ HP) Hl ltac:(left)) as (c & Hc & Hcls).
  replace (kcls sc) with (Z.of_nat sc) in Hcls by (unfold kcls; destruct (Nat.ltb_spec sc 5); lia).
  pose proof (Hfree sc _ id c Hsc Hl ltac:(left) Hc) as Hne.
  destruct (take_slot _ _ _ _ _ _ _ _ _ _ HP Hc Hcls ltac:(change HEAP_SIZECLASSES with 5; lia) Hne) as (HP1 & Hobj & Hpos & Hap).
  destruct (wa_chunk _ _ _ _ _ _ _ _ (hp_words _ _ _ _ _ _ _ _ _ _ HP) id c Hc) as [A1 A2 A3 A4 A5 A6].
  apply tot_bind, (tot_load _ _ _ _ A4), tot_bind, (tot_load _ _ _ _ A2), tot_bind, tot_store; [by eapply is_struct_inb|]. apply tot_bind.
  set (s := Z.land (c_slots c) _) in *. set (p := u64 (c_m c + _)) in *. set (c' := Ch (c_m c) (c_size c) s (c_shallow c)) in *.
  assert (Hpg : pages_of (<[id := c']> H) = pages_of H) by (by apply (pages_insert H id c)).
  pose proof (lo_nodup _ _ _ (hp_lists _ _ _ _ _ _ _ _ _ _ HP)) as Hnd. simpl in Hnd. rewrite app_nil_r in Hnd.
  destruct (Z.eqb_spec s 0) as [Es|Es].
  - destruct (lookup_lt_is_Some_2 L (5 + sc) ltac:(lia)) as [lf Hlf].
    destruct (la_heap _ _ _ _ (hp_chain _ _ _ _ _ _ _ _ _ _ HP1) sc _ Hl) as (p0 & _ & -> & Hid & nx & Hnx & Hr). rewrite (clist_hd _ _ _ Hr) in Hnx.
    destruct (la_heap _ _ _ _ (hp_chain _ _ _ _ _ _ _ _ _ _ HP1) (5 + sc)%nat lf Hlf) as (pf & Hpf & Hcl). rewrite (clist_hd _ _ _ Hcl) in Hpf.
    pose proof (wa_heap _ _ _ _ _ _ _ _ (hp_words _ _ _ _ _ _ _ _ _ _ HP1)) as Hh.
    destruct (sh_apart _ _ _ _ _ (hp_shape _ _ _ _ _ _ _ _ _ _ HP) id (owned_id _ _ _ Hc)) as (Hidh & _).
    assert (Hin : forall j, (j <= 10)%nat -> inb m (heap, 8 * Z.of_nat j) = true).
    { intros j Hj. rewrite <- (inb_upd m (id, C_SLOTS) _ s). eapply is_struct_inb; [exact Hh|]. change sizeof_heap_t with 104. lia. }
    apply tot_bind, (tot_load _ _ _ _ Hnx), tot_bind, tot_store; [rewrite inb_upd; apply Hin; lia|].
    apply tot_bind. eapply tot_load; [rewrite get_upd_ne by (intros [= E]; lia); exact Hpf|].
    apply tot_bind, tot_store; [by rewrite !inb_upd; eapply is_struct_inb|]. apply tot_store; [rewrite !inb_upd; apply Hin; lia|].
    apply tot_ret. exists (<[id := c']> H), (<[sc := rest]> (<[(5 + sc)%nat := id :: lf]> (<[sc := []]> L))), T.
    split; [apply shift_ok; [done|done|done|lia|unfold kcls; destruct (Nat.ltb_spec sc 5), (Nat.ltb_spec (5 + sc) 5), (Nat.ltb_spec (5 + sc) 10); lia]|].
    rewrite !length_insert. split; [done|]. split; [|split_and!; try done; [lia|rewrite Hpg; by repeat apply mroom_upd]].
    by apply free_shift.
  - apply tot_ret. exists (<[id := c']> H), L, T. split; [done|]. split; [done|]. split; [by eapply free_ok_bits; [|left|]|].
    split_and!; try done; [lia|rewrite Hpg; by apply mroom_upd].
Qed.

(** The words of a chunk that was just filled in. *)
Ltac filled H := repeat (rewrite get_upd_ne by congruence); apply get_upd_eq; rewrite ?live_upd; eapply is_struct_live; exact H.

Lemma init_bits sc : 0 <= sc < HEAP_SIZECLASSES -> entry sizeclass_init sc = Z.land (empty_of sc) (not32 (Z.shiftl 1 0)) /\ Z.testbit (empty_of sc) 0 = true.
Proof. intros Hsc. by destruct (sizeclasses sc Hsc) as [->|[->|[->|[->| ->]]]]. Qed.

(** A chunk of which the first slot is in use. *)
Definition first_slot (b sc : Z) : chunk := Ch b sc (entry sizeclass_init sc) (entry sizeclass_init sc).

Lemma first_slot_ok b sc : 0 <= sc < HEAP_SIZECLASSES -> cls_ok sc (first_slot b sc) /\ objs (first_slot b sc) = [(b, SIZECLASS_SIZE sc)] /\ entry sizeclass_init sc <> 0.
Proof.
  intros Hsc. destruct (init_bits sc Hsc) as [E1 E2]. split_and!.
  - left. simpl. rewrite E1. split_and!; [lia|lia|done|..]; by apply clear_bits_ok, empty_bits_ok.
  - apply Permutation_singleton_r. rewrite (objs_take (Ch b sc (empty_of sc) 0) Hsc (empty_bits_ok sc Hsc) 0 (first_slot b sc)); try done.
    rewrite (objs_empty (Ch b sc (empty_of sc) 0) Hsc) by done. simpl. by rewrite Z.add_0_r.
  - by destruct (sizeclasses sc Hsc) as [->|[->|[->|[->| ->]]]].
Qed.

(** A new chunk holds the new object only. *)
Lemma new_taken k need m0 m m' H L L' T T' u n id c e l j : hp_at m0 H L [] T u n -> hp_at m' (<[id := c]> H) L' [] T' u n ->
  L !! j = Some l -> L' = <[j := id :: l]> L -> length L = 11%nat -> free_ok H L -> ((j < 5)%nat -> c_slots c <> 0) -> new_chunk root initialgc heap m H T id c ->
  objs c = [e] -> e.1 = c_m c -> e.2 <= bytes c -> npages c = need -> mroom (3 * (need + pages_of H) + k) m' ->
  taken k need H u n e.2 e.1 m'.
Proof.
  intros HP HP' Hl -> Hlen Hfree Hs HN Ho He1 He2 Hnp Hroom. destruct HN as [N1 (B1 & B2 & B3) N3 N4 N5 N6].
  assert (Hid : H !! id = None) by (destruct (H !! id) eqn:E; [|done]; destruct (N4 id) as [? _]; [left; left; by eexists|done]).
  assert (Hpg : pages_of (<[id := c]> H) = (need + pages_of H)%nat).
  { rewrite (pages_delete _ id c) by apply lookup_insert_eq. by rewrite delete_insert_id, delete_id, Hnp. }
  exists (<[id := c]> H), (<[j := id :: l]> L), T'. rewrite length_insert, Hpg. split_and!; try done; [| |lia| |lia].
  - intros j' ids id' c' Hj' Hids Hi Hc. destruct (decide (j = j')) as [<-|Hne].
    + rewrite list_lookup_insert_eq in Hids by lia. injection Hids as <-. apply lookup_insert_Some in Hc as [[<- <-]|[Hne Hc]]; [auto|].
      apply elem_of_cons in Hi as [->|Hi]; [done|]. by eapply (Hfree j).
    + rewrite list_lookup_insert_ne in Hids by done. apply lookup_insert_Some in Hc as [[<- <-]|[_ Hc]]; [|by eapply (Hfree j')].
      destruct (list_chunk _ _ _ _ _ _ (hp_lists _ _ _ _ _ _ _ _ _ _ HP) Hids Hi) as (c' & Hc' & _). congruence.
  - rewrite (objects_delete _ id c) by apply lookup_insert_eq. rewrite delete_insert_id, delete_id, Ho by done. by destruct e.
  - intros e' (id' & c' & Hc' & He')%objects_elem. eapply (apart_blocks _ _ _ _ _ _ _ c); [exact HP|exact Hc'|exact He'|simpl; lia|simpl; lia|].
    by apply (N5 id').
Qed.

Lemma alloc_block_ok k m H L T u n sc : hp_at m H L [] T u n -> length L = 11%nat -> free_ok H L -> (sc < 5)%nat -> L !! sc = Some [] ->
  mroom (3 * pages_of H + (8 + k)) m ->
  tot (n <- POOL_ALLOC sizeof_chunk_t ;;
       store (n, C_ACTOR) actor ;;
       b <- POOL_ALLOC sizeof_block_t ;;
       store (n, C_M) b ;;
       store (n, C_SIZE) (Z.of_nat sc) ;;
       store (n, C_SLOTS) (entry sizeclass_init (Z.of_nat sc)) ;;
       store (n, C_SHALLOW) (entry sizeclass_init (Z.of_nat sc)) ;;
       store (n, C_NEXT) NULL ;;
       b <- load (n, C_M) ;;
       pagemap_set root b n ;;
       store (heap, 8 * Z.of_nat sc) n ;;
       load (n, C_M)) m (taken k 1 H u n (SIZECLASS_SIZE (Z.of_nat sc))).
Proof.
  intros HP Hlen Hfree Hsc Hl Hroom. apply tot_bind.
  eapply tot_mono; [apply (page_alloc_ok m sizeof_chunk_t (3 * pages_of H + (7 + k))); [eapply mroom_mono; [exact Hroom|lia]|done]|].
  intros id m1 (-> & Hid & Hf1 & R1 & _). pose proof (new_struct m id sizeof_chunk_t Hid) as Hs1. set (m1 := <[id := _]> m) in *.
  apply tot_bind, tot_store; [by eapply is_struct_inb|]. apply tot_bind.
  eapply tot_mono; [apply (page_alloc_ok _ sizeof_block_t (3 * pages_of H + (6 + k))); [apply mroom_upd; eapply mroom_mono; [exact R1|lia]|done]|].
  intros b m2 (-> & Hb & Hf2 & R2 & Hpos & H48 & Hal & Hap). pose proof (new_struct (upd m1 (id, C_ACTOR) actor) b sizeof_block_t Hb) as Hs2.
  set (m2 := <[b := _]> _) in *.
  assert (Hne : id <> b) by (intros ->; apply (is_struct_upd m1 (b, C_ACTOR) actor) in Hs1 as (_ & o & Ho & _); congruence).
  assert (Hs1' : is_struct m2 id sizeof_chunk_t).
  { apply (is_struct_lookup (upd m1 (id, C_ACTOR) actor)); [unfold m2; by apply lookup_insert_ne|by apply is_struct_upd]. }
  do 5 (apply tot_bind, tot_store; [rewrite ?inb_upd; by eapply is_struct_inb|]).
  set (m3 := upd (upd _ _ _) (id, C_NEXT) NULL).
  assert (E3 : forall b', b' <> id -> m3 !! b' = m2 !! b') by (intros b' Hb'; unfold m3; by rewrite !lookup_upd_ne).
  assert (E3' : forall b', b' <> id -> b' <> b -> m3 !! b' = m !! b').
  { intros b' N1 N2. rewrite E3 by done. unfold m2. rewrite lookup_insert_ne, lookup_upd_ne by done. unfold m1. by rewrite lookup_insert_ne. }
  assert (Hscz : 0 <= Z.of_nat sc < HEAP_SIZECLASSES) by (change HEAP_SIZECLASSES with 5; lia).
  destruct (first_slot_ok b _ Hscz) as (Hcls & Hobjs & Hinit). set (c := first_slot b (Z.of_nat sc)) in *.
  assert (Hby : bytes c = POOL_ALIGN) by (by apply bytes_small).
  assert (Hca : chunk_at m3 id c).
  { split; [unfold m3; by rewrite !is_struct_upd|unfold m3; filled Hs1'..|]. apply (is_struct_lookup m2); [apply E3; simpl; congruence|]. by rewrite Hby. }
  assert (Hf2' : m !! b = None).
  { rewrite <- Hf2, lookup_upd_ne by (simpl; congruence). unfold m1. by rewrite lookup_insert_ne. }
  destruct (fresh_ok root initialgc heap m m3 H L T u n id c HP Hf1 Hid Hf2' Hne) as [HP3 HN]; [| |done|done|].
  { unfold block_ok. rewrite Hby. simpl. split_and!; [done|by apply Hal|done]. }
  { intros b' o Ho. rewrite Hby. apply Hap. rewrite lookup_upd_ne by (simpl; congruence). unfold m1. rewrite lookup_insert_ne; congruence. }
  apply tot_bind, (tot_load _ _ _ _ (ca_m _ _ _ Hca)), tot_bind.
  eapply tot_mono; [apply (set_page_ok root (3 * pages_of H + (3 + k)) b id m3 T (wa_map _ _ _ _ _ _ _ _ (hp_words _ _ _ _ _ _ _ _ _ _ HP3)))|].
  { unfold m3. repeat apply mroom_upd. eapply mroom_mono; [exact R2|lia]. }
  { lia. } { by apply Hal. } { done. }
  intros _ m4 (R4 & T4 & HT4 & HG & HPg). destruct (new_kept _ _ _ _ _ _ _ _ _ _ HN HG) as [K1 K2]. simpl in K2.
  assert (Hca4 : chunk_at m4 id c) by (by apply (chunk_at_ext m3)).
  destruct (pm_change _ _ _ _ _ _ _ _ _ _ _ _ HP3 HT4 HG) as (HW4 & _ & _).
  assert (Hkc : kcls sc = Z.of_nat sc) by (unfold kcls; destruct (Nat.ltb_spec sc 5); lia).
  rewrite <- Hby in HPg. rewrite <- Hkc in Hcls.
  assert (HP5 := add_ok _ _ _ m3 m4 m4 H L T T4 u n sc [] id c HP3 Hl Hcls HN HT4 HG HPg (fun _ _ => eq_refl) Hca4).
  apply tot_bind, tot_store; [eapply is_struct_inb; [apply (wa_heap _ _ _ _ _ _ _ _ HW4)|change sizeof_heap_t with 104; lia]|].
  assert (Hidh : heap <> id) by (destruct (nc_fresh _ _ _ _ _ _ _ _ HN heap); [auto|done]).
  eapply tot_load; [rewrite get_upd_ne by congruence; apply (ca_m _ _ _ Hca4)|].
  assert (Hnx : get m4 (id, C_NEXT) = Some NULL) by (rewrite (get_lookup_eq m3) by done; unfold m3; filled Hs1').
  apply (new_taken k 1 m3 m3 _ H L _ T T4 u n id c (b, SIZECLASS_SIZE (Z.of_nat sc)) [] sc HP3 (HP5 Hnx) Hl eq_refl Hlen Hfree); try done.
  - rewrite Hby. simpl. by destruct (sizeclasses _ Hscz) as [->|[->|[->|[->| ->]]]].
  - unfold npages. by rewrite Hby.
  - apply mroom_upd. eapply mroom_mono; [exact R4|lia].
Qed.

(** [heap_alloc_small]. *)
Lemma alloc_small_ok k m H L T u n sc : hp_at m H L [] T u n -> length L = 11%nat -> free_ok H L -> (sc < 5)%nat ->
  mroom (3 * pages_of H + (8 + k)) m ->
  tot (heap_alloc_small root actor heap (Z.of_nat sc)) m (taken k 1 H (u64 (u + SIZECLASS_SIZE (Z.of_nat sc))) n (SIZECLASS_SIZE (Z.of_nat sc))).
Proof.
  intros HP Hlen Hfree Hsc Hroom. destruct (lookup_lt_is_Some_2 L sc ltac:(lia)) as [l Hl].
  destruct (la_heap _ _ _ _ (hp_chain _ _ _ _ _ _ _ _ _ _ HP) sc l Hl) as (p0 & Hp0 & Hcl). rewrite (clist_hd _ _ _ Hcl) in Hp0.
  unfold heap_alloc_small. replace (H_FREE + 8 * Z.of_nat sc) with (8 * Z.of_nat sc) by lia. replace (H_FULL + 8 * Z.of_nat sc) with (8 * Z.of_nat (5 + sc)) by lia.
  apply tot_bind, (tot_load _ _ _ _ Hp0), tot_bind.
  assert (HT : forall (q : prog mem Z), tot q m (taken k 1 H u n (SIZECLASS_SIZE (Z.of_nat sc))) -> tot q m (fun p m' =>
    tot (used <- load (heap, H_USED) ;; store (heap, H_USED) (u64 (used + SIZECLASS_SIZE (Z.of_nat sc))) ;; Ret p) m'
      (taken k 1 H (u64 (u + SIZECLASS_SIZE (Z.of_nat sc))) n (SIZECLASS_SIZE (Z.of_nat sc))))).
  { intros q Hq. eapply tot_mono; [exact Hq|]. intros p m' (G1 & G2 & G3)%taken_count.
    by apply tot_bind, (tot_load _ _ _ _ G1), tot_bind, tot_store, tot_ret. }
  destruct l as [|id rest]; simpl List.hd in *.
  - by apply HT, alloc_block_ok with (L := L) (T := T).
  - destruct Hcl as (_ & Hid & _). rewrite (proj2 (Z.eqb_neq _ _) Hid). apply HT. eapply tot_mono; [apply (alloc_slot_ok k m H L T u n sc id rest); try done|].
    + eapply mroom_mono; [exact Hroom|lia].
    + intros p m' (H' & L' & T' & W1 & W2 & W3 & W4 & W5 & W6 & W7 & W8). exists H', L', T'. split_and!; try done. lia.
Qed.

(** [heap_alloc_large]. *)
Lemma alloc_large_ok k m H L T u n size : hp_at m H L [] T u n -> length L = 11%nat -> free_ok H L -> HEAP_MAX < size <= M32 - POOL_ALIGN ->
  let sz := pool_adjust_size size in let need := Z.to_nat (sz / POOL_ALIGN) in
  mroom (3 * pages_of H + (2 + 6 * need + k)) m -> (need < fuel)%nat ->
  tot (heap_alloc_large root fuel actor heap size) m (taken k need H (u64 (u + sz)) n sz).
Proof.
  intros HP Hlen Hfree Hsize sz need Hroom Hfu. unfold heap_alloc_large. fold sz.
  assert (Hsz : size <= sz < size + POOL_ALIGN /\ sz mod POOL_ALIGN = 0).
  { apply pool_adjust_size_correct. change HEAP_MAX with 512 in Hsize. change POOL_ALIGN with 1024 in *. unfold M32, M64 in *. lia. }
  destruct Hsz as [Hsz Hmod]. change HEAP_MAX with 512 in Hsize.
  apply tot_bind. eapply tot_mono; [apply (page_alloc_ok m sizeof_chunk_t (3 * pages_of H + (1 + 6 * need + k))); [eapply mroom_mono; [exact Hroom|lia]|done]|].
  intros id m1 (-> & Hid & Hf1 & R1 & _). pose proof (new_struct m id sizeof_chunk_t Hid) as Hs1. set (m1 := <[id := _]> m) in *.
  do 2 (apply tot_bind, tot_store; [rewrite ?inb_upd; by eapply is_struct_inb|]). apply tot_bind.
  eapply tot_mono; [apply (page_alloc_ok _ sz (3 * pages_of H + (6 * need + k))); [do 2 apply mroom_upd; eapply mroom_mono; [exact R1|lia]|lia]|].
  intros b m2 (-> & Hb & Hf2 & R2 & Hpos & H48 & Hal & Hap). pose proof (new_struct (upd (upd m1 (id, C_ACTOR) actor) (id, C_SIZE) sz) b sz Hb) as Hs2.
  set (m2 := <[b := _]> _) in *.
  assert (Hne : id <> b).
  { intros ->. destruct Hs1 as (_ & o & Ho & _). assert (live (upd (upd m1 (b, C_ACTOR) actor) (b, C_SIZE) sz) b) as [? ?] by (rewrite !live_upd; by eexists). congruence. }
  assert (Hs1' : is_struct m2 id sizeof_chunk_t).
  { apply (is_struct_lookup (upd (upd m1 (id, C_ACTOR) actor) (id, C_SIZE) sz)); [unfold m2; by apply lookup_insert_ne|by rewrite !is_struct_upd]. }
  do 3 (apply tot_bind, tot_store; [rewrite ?inb_upd; by eapply is_struct_inb|]).
  set (m3 := upd (upd _ _ _) (id, C_SHALLOW) 0).
  assert (E3 : forall b', b' <> id -> m3 !! b' = m2 !! b') by (intros b' Hb'; unfold m3; by rewrite !lookup_upd_ne).
  assert (E12 : forall b', b' <> id -> upd (upd m1 (id, C_ACTOR) actor) (id, C_SIZE) sz !! b' = m !! b').
  { intros b' N1. rewrite !lookup_upd_ne by done. unfold m1. by rewrite lookup_insert_ne. }
  set (c := Ch b sz 0 0). assert (Hsm : small c = false) by (apply Z.ltb_ge; simpl; change HEAP_SIZECLASSES with 5; lia).
  assert (Hby : bytes c = sz) by (unfold bytes; by rewrite Hsm).
  assert (Hcls : cls_ok (kcls 10) c) by (right; simpl; change HEAP_MAX with 512; split_and!; lia || done).
  destruct (bytes_npages _ _ Hcls) as [Eby Hnp]. assert (Hnpn : npages c = need) by (unfold npages; by rewrite Hby).
  assert (Hca : chunk_at m3 id c).
  { split; [unfold m3; by rewrite !is_struct_upd|unfold m3; try filled Hs1'..|].
    - unfold m3. rewrite !get_upd_ne by congruence. rewrite (get_lookup_eq (upd (upd m1 (id, C_ACTOR) actor) (id, C_SIZE) sz)) by (unfold m2; by apply lookup_insert_ne).
      filled Hs1.
    - apply (is_struct_lookup m2); [apply E3; simpl; congruence|]. by rewrite Hby. }
  destruct (fresh_ok root initialgc heap m m3 H L T u n id c HP Hf1 Hid) as [HP3 HN]; [|done| | | |done|].
  { rewrite <- E12; [done|simpl; congruence]. }
  { unfold block_ok. rewrite Hby. simpl. split_and!; [done|by apply Hal|done]. }
  { intros b' o Ho. rewrite Hby. apply Hap. rewrite E12; [done|congruence]. }
  { intros b' N1 N2. change (b' <> b) in N2. rewrite E3 by done. unfold m2. rewrite lookup_insert_ne by congruence. by apply E12. }
  apply tot_bind, (tot_load _ _ _ _ (ca_m _ _ _ Hca)), tot_bind. simpl c_m.
  assert (Esz : sz = POOL_ALIGN * Z.of_nat need) by (by rewrite <- Hnpn, <- Eby).
  rewrite Esz. eapply tot_mono; [apply (large_pagemap_ok root fuel id need (3 * pages_of H + (3 * need + k)) b m3 T (wa_map _ _ _ _ _ _ _ _ (hp_words _ _ _ _ _ _ _ _ _ _ HP3)))|].
  { unfold m3. do 3 apply mroom_upd. eapply mroom_mono; [exact R2|lia]. }
  { lia. } { by apply Hal. } { by rewrite <- Esz. } { done. }
  intros _ m4 (R4 & T4 & HT4 & HG & HPg). rewrite <- Esz in *. destruct (new_kept _ _ _ _ _ _ _ _ _ _ HN HG) as [K1 K2]. simpl in K2.
  assert (Hca4 : chunk_at m4 id c) by (by apply (chunk_at_ext m3)). rewrite <- Hby in HPg.
  destruct (pm_change _ _ _ _ _ _ _ _ _ _ _ _ HP3 HT4 HG) as (HW4 & HC4 & _).
  destruct (lookup_lt_is_Some_2 L 10 ltac:(lia)) as [l Hl].
  destruct (la_heap _ _ _ _ HC4 10%nat l Hl) as (p0 & Hp0 & Hcl). rewrite (clist_hd _ _ _ Hcl) in Hp0. change (8 * Z.of_nat 10) with H_LARGE in Hp0.
  assert (Hidh : heap <> id) by (destruct (nc_fresh _ _ _ _ _ _ _ _ HN heap); [auto|done]).
  apply tot_bind, (tot_load _ _ _ _ Hp0), tot_bind, tot_store; [eapply is_struct_inb; [apply Hca4|done]|].
  set (m5 := upd m4 (id, C_NEXT) (List.hd NULL l)).
  assert (Hca5 : chunk_at m5 id c).
  { destruct Hca4 as [A1 A2 A3 A4 A5 A6]. split; [by apply is_struct_upd|unfold m5; by rewrite get_upd_ne by congruence..|by apply is_struct_upd]. }
  assert (HP5 := add_ok _ _ _ m3 m4 m5 H L T T4 u n 10 l id c HP3 Hl Hcls HN HT4 HG HPg (fun b' Hb' => lookup_upd_ne m4 (id, C_NEXT) _ b' Hb') Hca5).
  assert (Hnx : get m5 (id, C_NEXT) = Some (List.hd NULL l)) by (unfold m5; apply get_upd_eq; eapply is_struct_live, Hca4).
  apply tot_bind, tot_store; [unfold m5; rewrite inb_upd; eapply is_struct_inb; [apply (wa_heap _ _ _ _ _ _ _ _ HW4)|done]|].
  assert (HTk : taken k need H u n sz b (upd m5 (heap, H_LARGE) id)).
  { apply (new_taken k need m3 m3 _ H L _ T T4 u n id c (b, sz) l 10 HP3 (HP5 Hnx) Hl eq_refl Hlen Hfree); try done.
    - lia.
    - unfold objs. by rewrite Hsm.
    - rewrite Hby. simpl. lia.
    - unfold m5. do 2 apply mroom_upd. eapply mroom_mono; [exact R4|lia]. }
  destruct (taken_count _ _ _ _ _ _ _ _ HTk) as (G1 & G2 & G3).
  apply tot_bind, (tot_load _ _ _ _ G1), tot_bind. eapply tot_load; [rewrite get_upd_ne by congruence; apply (ca_size _ _ _ Hca5)|].
  apply tot_bind, tot_store; [done|]. eapply tot_load; [rewrite !get_upd_ne by congruence; apply (ca_m _ _ _ Hca5)|]. exact G3.
Qed.
End alloc.
