(* ===== verification/HeapCopy.v ===== *)
(** * Copying between objects (mem/heap.c: heap_realloc)

    Objects of the memory do not overlap, so that an address range lies in one
    object at most; copying into a block keeps the invariant of the heap. *)
From S2P Require Export Fun HeapAlloc.
Import ds_fun pool heap.

(** ** Objects are apart from each other *)
Definition mem_apart (m : mem) : Prop :=
  forall b o b' o', m !! b = Some o -> m !! b' = Some o' -> b <> b' -> apart (b, osize o) (b', osize o').

Lemma apart_upd m l v : mem_apart m -> mem_apart (upd m l v).
Proof.
  intros Hm. assert (E : forall b o, upd m l v !! b = Some o -> exists o0, m !! b = Some o0 /\ osize o0 = osize o).
  { intros b o Ho. unfold upd in Ho. apply lookup_alter_Some in Ho as [(<- & o1 & Ho & ->)|[_ Ho]]; eauto. }
  intros b o b' o' (o1 & H1 & <-)%E (o2 & H2 & <-)%E Hne. by apply Hm.
Qed.

Lemma apart_delete m b : mem_apart m -> mem_apart (delete b m).
Proof. intros Hm b1 o1 b2 o2 [_ H1]%lookup_delete_Some [_ H2]%lookup_delete_Some. by apply Hm. Qed.

Lemma apart_sym e e' : apart e e' -> apart e' e.
Proof. unfold apart. tauto. Qed.

Section keeps.
Context `{HM : Malloc, HPP : !PagePool}.
Variables (root initialgc heap actor : Z) (nextgc : Z -> Z) (fuel : nat).

Lemma apart_load l : keeps mem_apart (load l).
Proof. intros m a m' HP H. unfold load, act in H. simpl in H. destruct (get m l); [|discriminate]. by injection H as _ <-. Qed.

Lemma apart_store l v : keeps mem_apart (store l v).
Proof. intros m a m' HP H. unfold store, act in H. simpl in H. destruct (inb m l); [|discriminate]. injection H as _ <-. by apply apart_upd. Qed.

Lemma apart_CAS l old new : keeps mem_apart (CAS l old new).
Proof.
  intros m a m' HP H. unfold CAS, atomic_cmpxchg4, rmw, act in H. simpl in H. destruct (get m l); [|discriminate]. injection H as _ <-.
  by apply apart_upd.
Qed.

Lemma apart_free p : keeps mem_apart (POOL_FREE p).
Proof.
  intros m a m' HP H. unfold POOL_FREE, free, act in H. simpl in H. destruct (p =? NULL); [by injection H as _ <-|].
  destruct (m !! p); [|discriminate]. injection H as _ <-. by apply apart_delete.
Qed.

Lemma apart_alloc sz : keeps mem_apart (POOL_ALLOC sz).
Proof.
  unfold POOL_ALLOC, malloc. apply keeps_bind; [|intros p; case_match; [apply keeps_stop|apply keeps_ret]].
  intros m a m' HP H. rewrite run_new_obj in H. simpl in H. destruct (malloc_addr m sz =? NULL) eqn:E; injection H as <- <-; [done|].
  apply Z.eqb_neq in E. intros b o b' o' [[<- <-]|[N1 H1]]%lookup_insert_Some [[<- <-]|[N2 H2]]%lookup_insert_Some Hne; [done| | |by apply HP].
  - by apply page_apart.
  - apply apart_sym. by apply page_apart.
Qed.
End keeps.

Lemma apart_memcpy q p n : keeps mem_apart (memcpy q p n).
Proof.
  intros m a m' HP H. unfold memcpy, act in H. simpl in H. destruct (block_of m p n) as [b|], (block_of m q n) as [b'|]; try discriminate.
  destruct (m !! b) as [o|], (m !! b') as [o'|] eqn:Hb'; try discriminate. injection H as _ <-.
  set (x := copy_range _ _ _ _ _). assert (Hsz : forall b2 y, <[b' := x]> m !! b2 = Some y -> exists z, m !! b2 = Some z /\ osize y = osize z).
  { intros b2 y [[<- <-]|[_ Hy]]%lookup_insert_Some; eauto. }
  intros b1 o1 b2 o2 (y1 & H1 & ->)%Hsz (y2 & H2 & ->)%Hsz Hne. by apply HP.
Qed.

Create HintDb apart discriminated.
#[export] Hint Resolve keeps_ret keeps_stop apart_load apart_store apart_CAS apart_free apart_alloc apart_memcpy : apart.

(** Walk through code whose memory stays apart. *)
Ltac keep_apart :=
  repeat first
    [ progress intros
    | solve [auto with apart nocore]
    | apply keeps_bind
    | apply keeps_loop
    | apply keeps_forz
    | case_match ].

Section functions.
Context `{HM : Malloc, HPP : !PagePool}.
Variables (root initialgc heap actor : Z) (nextgc : Z -> Z) (fuel : nat).

Lemma apart_memset0 b n : keeps mem_apart (hash_map.memset0 b n).
Proof. unfold hash_map.memset0. keep_apart. Qed.
#[local] Hint Resolve apart_memset0 : apart.

Lemma apart_get_levels ls a v : keeps mem_apart (get_levels ls a v).
Proof. revert v. induction ls; intros v; simpl; keep_apart. Qed.
#[local] Hint Resolve apart_get_levels : apart.

Lemma apart_set_levels ls a pv : keeps mem_apart (set_levels ls a pv).
Proof. revert pv. induction ls; intros pv; simpl; unfold pool_alloc, pool_free; keep_apart. Qed.
#[local] Hint Resolve apart_set_levels : apart.

Lemma apart_pagemap_get a : keeps mem_apart (pagemap_get root a).
Proof. unfold pagemap_get. keep_apart. Qed.

Lemma apart_pagemap_set a v : keeps mem_apart (pagemap_set root a v).
Proof. unfold pagemap_set. keep_apart. Qed.
#[local] Hint Resolve apart_pagemap_get apart_pagemap_set : apart.

Lemma apart_large_pagemap a size v : keeps mem_apart (large_pagemap root fuel a size v).
Proof. unfold large_pagemap. keep_apart. Qed.
#[local] Hint Resolve apart_large_pagemap : apart.

Lemma apart_destroy_small c : keeps mem_apart (destroy_small root c).
Proof. unfold destroy_small. keep_apart. Qed.

Lemma apart_destroy_large c : keeps mem_apart (destroy_large root fuel c).
Proof. unfold destroy_large, pool_free_size. keep_apart. Qed.
#[local] Hint Resolve apart_destroy_small apart_destroy_large : apart.

Lemma apart_init : keeps mem_apart (heap_init initialgc heap).
Proof. unfold heap_init. keep_apart. Qed.

Lemma apart_heap_alloc size : keeps mem_apart (heap_alloc root fuel actor heap size).
Proof. unfold heap_alloc, heap_alloc_small, heap_alloc_large, heap_index, pool_alloc_size. cbv zeta. keep_apart. Qed.

#[local] Hint Resolve apart_heap_alloc : apart.

Lemma apart_used size : keeps mem_apart (heap_used heap size).
Proof. unfold heap_used. keep_apart. Qed.

Lemma apart_size c : keeps mem_apart (heap_size c).
Proof. unfold heap_size. keep_apart. Qed.

Lemma apart_startgc : keeps mem_apart (heap_startgc fuel heap).
Proof. unfold heap_startgc, chunk_list, clear_small, clear_large. keep_apart. Qed.

Lemma apart_mark_all es : keeps mem_apart (mark_all root es).
Proof. induction es; simpl; unfold mark_ptr, heap_mark, heap_mark_shallow; keep_apart. Qed.

Lemma apart_heap_realloc p size : keeps mem_apart (heap_realloc root fuel actor heap p size).
Proof.
  unfold heap_realloc, heap_index. keep_apart.
Qed.

Lemma apart_endgc : keeps mem_apart (heap_endgc root initialgc nextgc fuel heap).
Proof. unfold heap_endgc, sweep_small, sweep_large. keep_apart. Qed.

Lemma apart_heap_free c p : keeps mem_apart (heap_free c p).
Proof. unfold heap_free, pool_free_size. cbv zeta. keep_apart. Qed.
End functions.

(** ** [memcpy] *)

(** The one object a range lies in. *)
Lemma block_unique m b o p n : mem_apart m -> m !! b = Some o -> b <= p -> p + n <= b + osize o -> 0 < n -> block_of m p n = Some b.
Proof.
  intros Hm Ho H1 H2 Hn. unfold block_of.
  destruct (List.find _ (map_to_list m)) as [[b' o']|] eqn:E.
  - apply List.find_some in E as [Hin Hr]. apply list_elem_of_In, elem_of_map_to_list in Hin. simpl in *. f_equal.
    destruct (decide (b' = b)) as [->|Hne]; [done|]. exfalso. specialize (Hm _ _ _ _ Hin Ho Hne). unfold apart in Hm. simpl in Hm. lia.
  - exfalso. assert (F := List.find_none _ _ E (b, o) ltac:(by apply list_elem_of_In, elem_of_map_to_list)). simpl in F. lia.
Qed.

Section copy.
Variables (root initialgc heap : Z).
Abbreviation hp_at := (hp_at root initialgc heap).

(** The contents of a block do not matter to the heap. *)
Lemma hp_block m H L R T u n id c o o' : hp_at m H L R T u n -> H !! id = Some c -> m !! c_m c = Some o -> osize o' = osize o ->
  hp_at (<[c_m c := o']> m) H L R T u n.
Proof.
  intros [HL HS [W1 W2 W3 [g W4] W5 W6] HC] Hc Ho E. set (m' := <[c_m c := o']> m).
  assert (E1 : forall b, b <> c_m c -> m' !! b = m !! b) by (intros b Hb; by apply lookup_insert_ne).
  destruct (sh_apart _ _ _ _ _ HS _ (owned_m _ _ _ Hc)) as (N1 & N2 & N3).
  assert (Hids : forall id' c', H !! id' = Some c' -> m' !! id' = m !! id').
  { intros id' c' Hc'. apply E1. intros ->. pose proof (sh_idm _ _ _ _ _ HS id c Hc). congruence. }
  split; [done|done| |].
  - split; [apply (is_struct_lookup m); [by apply E1|done]|rewrite (get_lookup_eq m); [done|by apply E1]|rewrite (get_lookup_eq m); [done|by apply E1]| | |].
    + exists g. rewrite (get_lookup_eq m); [done|by apply E1].
    + intros id' c' Hc'. destruct (W5 id' c' Hc') as [A1 A2 A3 A4 A5 A6]. pose proof (Hids id' c' Hc') as Ei.
      split; [by apply (is_struct_lookup m)|by rewrite (get_lookup_eq m)..|]. destruct (decide (c_m c' = c_m c)) as [Em|Em].
      * rewrite Em in *. destruct A6 as (B1 & o1 & B2 & B3). split; [done|]. exists o'. split; [apply lookup_insert_eq|congruence].
      * apply (is_struct_lookup m); [by apply E1|done].
    + apply (pm_ext _ m); [done|]. intros b Hb. apply E1. by intros ->.
  - apply (lists_ext _ m); [done|intros; rewrite (get_lookup_eq m); [done|by apply E1]|]. intros id' [c' Hc']%(lo_dom _ _ _ HL).
    apply get_lookup_eq. by eapply Hids.
Qed.

(** The block of an object. *)
Lemma object_block m H L R T u n e k : hp_at m H L R T u n -> mem_apart m -> e ∈ objects H -> 0 < k <= e.2 ->
  exists id c o, H !! id = Some c /\ m !! c_m c = Some o /\ block_of m e.1 k = Some (c_m c).
Proof.
  intros HP Hm (id & c & Hc & He)%objects_elem Hk. destruct (cls_of_chunk _ _ _ _ _ (hp_lists _ _ _ _ _ _ _ _ _ _ HP) Hc) as [cls Hcls].
  destruct (objs_in_block _ _ _ Hcls He) as (O1 & O2 & O3). destruct (wa_chunk _ _ _ _ _ _ _ _ (hp_words _ _ _ _ _ _ _ _ _ _ HP) id c Hc) as [_ _ _ _ _ (_ & o & Ho & Hs)].
  exists id, c, o. split_and!; [done|done|]. eapply block_unique; [done|exact Ho|lia|lia|lia].
Qed.

Lemma memcpy_ok `{HM : Malloc, HR : !MallocRoom} K m H L R T u n e e' k : hp_at m H L R T u n -> mem_apart m -> mroom K m -> e ∈ objects H -> e' ∈ objects H ->
  0 < k <= e.2 -> k <= e'.2 -> tot (memcpy e'.1 e.1 k) m (fun _ m' => hp_at m' H L R T u n /\ mroom K m').
Proof.
  intros HP Hm HK He He' Hk Hk'. destruct (object_block _ _ _ _ _ _ _ _ k HP Hm He Hk) as (id & c & o & Hc & Ho & E).
  destruct (object_block _ _ _ _ _ _ _ _ k HP Hm He' ltac:(lia)) as (id' & c' & o' & Hc' & Ho' & E').
  eapply tot_act; [by rewrite E, E', Ho, Ho'|]. split; [by eapply hp_block|by eapply mroom_resize].
Qed.
End copy.
