(* ===== verification/HeapProgram.v ===== *)
(** * The heap implements a set of objects (mem/heap.c) *)
From S2P Require Export Fun HeapCopy.
Import ds_fun pool heap.

(** ** What a collection keeps *)

Lemma filter_fmap {A B} (f : A -> B) (P : B -> Prop) `{!forall x, Decision (P x)} (l : list A) : filter P (f <$> l) = f <$> filter (fun x => P (f x)) l.
Proof. induction l as [|x l IH]; [done|]. rewrite fmap_cons, !filter_cons, IH. by case_decide. Qed.

(** Marked and swept, a chunk has its objects that a traced pointer points into. *)
Lemma swept_objs ps c0 c cls : marked ps c0 c -> cls_ok cls c0 ->
  (forall j, 0 <= c_size c0 < HEAP_SIZECLASSES -> is_cell (c_size c0) j = true -> hit ps (cell_at c0 j) = true -> cell_at c0 j ∈ objs c0) ->
  (small c0 = false -> hit ps (c_m c0, c_size c0) = true -> (c_slots c0 =? 0) = true) ->
  objs (sweep c) = filter (fun e => hit ps e = true) (objs c0).
Proof.
  intros (E1 & E2 & HM) Hcls Ha Hl. destruct (small c0) eqn:Hsm.
  - pose proof (cls_small_range _ _ Hcls Hsm) as Hsc. rewrite (objs_small (sweep c)) by (simpl; by rewrite E2).
    rewrite (objs_small c0) in * by done. rewrite filter_fmap, list_filter_filter.
    assert (Ec : forall j, cell_at (sweep c) j = cell_at c0 j) by (intros j; unfold cell_at; simpl; by rewrite E1, E2).
    rewrite (list_fmap_ext _ (cell_at c0) _ (fun _ j _ => Ec j)). f_equal. apply filter_ext_on. intros j Hj. simpl. rewrite E2.
    split.
    + intros [Hc Hb]. rewrite (HM j Hc) in Hb. apply negb_false_iff in Hb. specialize (Ha j Hsc Hc Hb). split; [done|]. split; [done|].
      apply list_elem_of_fmap in Ha as (j' & E & ([Hj1 Hj2] & _)%list_elem_of_filter).
      unfold cell_at in E. injection E as E. change HEAP_MIN with 32 in E. by assert (j = j') as -> by lia.
    + intros (Hh & Hc & Hb). split; [done|]. by rewrite (HM j Hc), Hh.
  - assert (Hsm' : small (sweep c) = false) by (unfold small in *; simpl; by rewrite E2).
    unfold objs. rewrite Hsm, Hsm'. simpl. rewrite HM, E1, E2. destruct (hit ps (c_m c0, c_size c0)) eqn:Hh.
    + by rewrite (Hl eq_refl eq_refl), filter_cons_True.
    + destruct (c_slots c0 =? 0); [|done]. rewrite filter_cons_False; [done|congruence].
Qed.

(** Chunk by chunk. *)
Lemma final_filter (P : Z * Z -> Prop) `{HD : forall e, Decision (P e)} (H0 H : chunks) :
  (forall id, match H0 !! id, H !! id with
    | Some c0, Some c => objs (sweep c) = filter P (objs c0)
    | None, None => True
    | _, _ => False
    end) -> final H ≡ₚ filter P (objects H0).
Proof.
  revert H. induction H0 as [|id c0 H0 Hn IH] using map_ind; intros H E.
  - assert (H = ∅) as ->; [|done]. apply map_empty. intros i. specialize (E i). rewrite lookup_empty in E. by destruct (H !! i).
  - pose proof (E id) as Eid. rewrite lookup_insert_eq in Eid. destruct (H !! id) as [c|] eqn:Hc; [|done].
    rewrite (final_delete H id c Hc), (objects_delete _ id c0) by apply lookup_insert_eq. rewrite delete_insert_id, (delete_id H0), filter_app, Eid by done.
    f_equiv. apply IH. intros i. specialize (E i). destruct (decide (i = id)) as [->|Hne]; [by rewrite Hn, lookup_delete_eq|].
    rewrite lookup_insert_ne in E by done. by rewrite lookup_delete_ne.
Qed.

Lemma hit_spec ps e : hit ps e = true <-> exists p, p ∈ ps /\ inside p e = true.
Proof.
  unfold hit. rewrite existsb_exists. split; intros (p & Hp & Hi); exists p; (split; [|done]); by apply list_elem_of_In in Hp || apply list_elem_of_In.
Qed.

(** The pointer is into one of the objects. *)
Definition into (O : list (Z * Z)) (p : Z) : bool := existsb (inside p) O.

Lemma into_spec O p : into O p = true <-> exists e, e ∈ O /\ inside p e = true.
Proof.
  unfold into. rewrite existsb_exists. split; intros (e & He & Hi); exists e; (split; [|done]); by apply list_elem_of_In in He || apply list_elem_of_In.
Qed.

Lemma into_perm O O' p : O ≡ₚ O' -> into O p = true -> into O' p = true.
Proof. intros E. rewrite !into_spec. intros (e & He & Hi). exists e. by rewrite <- E. Qed.

Lemma collect_kept root initialgc heap ps m H0 L R T u n H : hp_at root initialgc heap m H0 L R T u n -> all_marked ps H0 H ->
  (forall p, p ∈ ps -> into (objects H0) p = true) -> final H ≡ₚ filter (fun e => hit ps e = true) (objects H0).
Proof.
  intros HP HA Hin. apply final_filter. intros id. specialize (HA id). destruct (H0 !! id) as [c0|] eqn:Hc0, (H !! id) as [c|]; try done.
  destruct (cls_of_chunk _ _ _ _ _ (hp_lists _ _ _ _ _ _ _ _ _ _ HP) Hc0) as [cls Hcls].
  pose proof (hp_shape _ _ _ _ _ _ _ _ _ _ HP) as HS. destruct (sh_block _ _ _ _ _ HS id c0 Hc0) as [Hblk _].
  assert (Hown : forall e, c_m c0 <= e.1 -> e.1 + e.2 <= c_m c0 + bytes c0 -> hit ps e = true -> exists e' p, e' ∈ objs c0 /\ inside p e = true /\ inside p e' = true).
  { intros e E1 E2 (p & Hp & Hpe)%hit_spec. apply Hin in Hp. apply into_spec in Hp as (e' & (id' & c' & Hc' & He')%objects_elem & Hpe').
    exists e', p. split; [|done]. destruct (decide (id = id')) as [<-|Hne]; [by rewrite Hc0 in Hc'; injection Hc' as <-|]. exfalso.
    pose proof (apart_blocks _ _ _ _ _ _ _ _ _ _ c0 e e' id' c' HP Hc' He' E1 E2 (sh_inj _ _ _ _ _ HS id c0 id' c' Hc0 Hc' Hne)) as Hap.
    apply inside_spec in Hpe, Hpe'. unfold apart in Hap. lia. }
  eapply swept_objs; [exact HA|exact Hcls| |].
  - intros j Hsc Hj Hh. destruct (cell_bounds _ _ Hsc Hj) as [B1 B2]. pose proof (bytes_small c0 Hsc) as Eb.
    destruct (Hown (cell_at c0 j)) as (e' & p & He' & P1 & P2); [unfold cell_at; simpl; lia|unfold cell_at; simpl; lia|done|].
    pose proof He' as He2. rewrite objs_small in He' by done. apply list_elem_of_fmap in He' as (j' & -> & ([Hj1 Hj2] & _)%list_elem_of_filter).
    by rewrite (cell_unique c0 j j' p).
  - intros Hsm Hh. destruct (Hown (c_m c0, c_size c0)) as (e' & p & He' & _); [simpl; lia|unfold bytes; rewrite Hsm; simpl; lia|done|].
    unfold objs in He'. rewrite Hsm in He'. destruct (c_slots c0 =? 0); [done|]. by apply not_elem_of_nil in He'.
Qed.

(** Each chunk has a page of its own. *)
Lemma chunks_pages H L : lists_ok H L [] -> (length (concat L) <= pages_of H)%nat.
Proof.
  intros HL. pose proof (lo_nodup _ _ _ HL) as Hnd. simpl in Hnd. rewrite app_nil_r in Hnd.
  assert (E : concat L ≡ₚ (map_to_list H).*1).
  { apply list.NoDup_Permutation; [done|apply NoDup_fst_map_to_list|]. intros id. pose proof (lo_dom _ _ _ HL id) as Hd. simpl in Hd. rewrite app_nil_r in Hd.
    rewrite <- Hd, list_elem_of_fmap. split; [intros [c Hc]; exists (id, c); by rewrite elem_of_map_to_list|].
    intros ([id' c] & -> & Hc%elem_of_map_to_list). by eexists. }
  rewrite E, length_fmap. unfold pages_of.
  assert (Hp : Forall (fun e => (0 < npages e.2)%nat) (map_to_list H)).
  { apply Forall_forall. intros [id c] Hc%elem_of_map_to_list. destruct (cls_of_chunk _ _ _ _ _ HL Hc) as [cls Hcls]. exact (proj2 (bytes_npages _ _ Hcls)). }
  clear E. induction Hp as [|e l He Hl IH]; [done|]. rewrite !fmap_cons. simpl. lia.
Qed.

(** ** The abstract heap *)

(** The bytes an object of [size] bytes gets, the pages it may need. *)
Definition class_of (size : Z) : Z := entry sizeclass_table ((size - 1) / HEAP_MIN).
Definition alloc_size (size : Z) : Z := if size <=? HEAP_MAX then SIZECLASS_SIZE (class_of size) else pool_adjust_size size.
Definition alloc_pages (size : Z) : nat := if size <=? HEAP_MAX then 1%nat else Z.to_nat (pool_adjust_size size / POOL_ALIGN).

Lemma table_ok q : (q < 16)%nat -> let sc := entry sizeclass_table (Z.of_nat q) in 0 <= sc < 5 /\ 32 * (Z.of_nat q + 1) <= SIZECLASS_SIZE sc.
Proof.
  intros Hq. assert (Hall : forallb (fun q => let sc := entry sizeclass_table (Z.of_nat q) in
    (0 <=? sc) && (sc <? 5) && (32 * (Z.of_nat q + 1) <=? SIZECLASS_SIZE sc)) (seq 0 16) = true) by (by vm_compute).
  rewrite forallb_forall in Hall. specialize (Hall q ltac:(apply in_seq; lia)). cbv zeta in *.
  apply andb_prop in Hall as [[H1 H2]%andb_prop H3]. lia.
Qed.

Lemma heap_index_ok size : 0 < size <= HEAP_MAX -> heap_index size = Ret (class_of size) /\
  exists sc, (sc < 5)%nat /\ class_of size = Z.of_nat sc /\ size <= SIZECLASS_SIZE (Z.of_nat sc).
Proof.
  change HEAP_MAX with 512. intros Hs. unfold heap_index, class_of. rewrite u64_small by (assert (512 < M64) by done; lia). unfold shr. rewrite Z.shiftr_div_pow2 by done.
  change (2 ^ HEAP_MINBITS) with 32. change HEAP_MIN with 32. assert (Hq : 0 <= (size - 1) / 32 < 16) by (Z.to_euclidean_division_equations; lia).
  assert (Hb : size - 1 < 32 * ((size - 1) / 32 + 1)) by (Z.to_euclidean_division_equations; lia). revert Hq Hb. generalize ((size - 1) / 32). intros q Hq Hb.
  split.
  - change (Z.of_nat (length sizeclass_table)) with 16. by rewrite (proj2 (Z.ltb_lt q 16)) by lia.
  - pose proof (table_ok (Z.to_nat q) ltac:(lia)) as Ht. rewrite Z2Nat.id in Ht by lia. cbv zeta in Ht.
    exists (Z.to_nat (entry sizeclass_table q)). rewrite Z2Nat.id by lia. split_and!; [lia|done|lia].
Qed.

Lemma alloc_size_ge size : 0 < size <= M32 - POOL_ALIGN -> size <= alloc_size size.
Proof.
  intros Hs. unfold alloc_size. destruct (Z.leb_spec size HEAP_MAX) as [Hle|Hgt].
  - destruct (heap_index_ok size) as (_ & sc & _ & -> & ?); [lia|done].
  - apply pool_adjust_size_correct. change POOL_ALIGN with 1024 in *. unfold M32, M64 in *. lia.
Qed.

(** Objects with their sizes, the bytes counted, the bytes at which to collect. *)
Record hstate := { hs_objs : list (Z * Z); hs_used : Z; hs_next : Z }.

(** An operation of an actor; a pointer is an offset into the result of an earlier
    operation, which is given by its number. *)
Inductive heap_op :=
| HAlloc (size : Z)
| HUse (size : Z)
| HFree (r : nat * Z)
| HRealloc (r : nat * Z) (size : Z)
| HSize (r : nat * Z)
| HCollect (es : list (bool * (nat * Z))).

Definition deref (rs : list Z) (r : nat * Z) : Z := nth r.1 rs 0 + r.2.
Definition derefs (rs : list Z) (es : list (bool * (nat * Z))) : list (bool * Z) := (fun e => (e.1, deref rs e.2)) <$> es.

Section spec.
Variable nextgc : Z -> Z.

Inductive hstep (rs : list Z) : hstate -> heap_op -> Z -> hstate -> Prop :=
| HS_null s : hstep rs s (HAlloc 0) NULL s
| HS_alloc O u n size p : 0 < size -> 0 < p -> (forall e, e ∈ O -> apart (p, alloc_size size) e) ->
    hstep rs {| hs_objs := O; hs_used := u; hs_next := n |} (HAlloc size) p
      {| hs_objs := (p, alloc_size size) :: O; hs_used := u64 (u + alloc_size size); hs_next := n |}
| HS_use O u n size : hstep rs {| hs_objs := O; hs_used := u; hs_next := n |} (HUse size) 0 {| hs_objs := O; hs_used := u64 (u + size); hs_next := n |}
| HS_free O O' u n r e : O ≡ₚ e :: O' -> e.1 = deref rs r ->
    hstep rs {| hs_objs := O; hs_used := u; hs_next := n |} (HFree r) 0 {| hs_objs := O'; hs_used := u; hs_next := n |}
| HS_interior O u n r e : e ∈ O -> e.1 < deref rs r < e.1 + e.2 ->
    hstep rs {| hs_objs := O; hs_used := u; hs_next := n |} (HFree r) 0 {| hs_objs := O; hs_used := u; hs_next := n |}
| HS_grow s s' r size e p : e ∈ hs_objs s -> e.1 = deref rs r -> e.2 < size -> hstep rs s (HAlloc size) p s' -> hstep rs s (HRealloc r size) p s'
| HS_fits s r size e : e ∈ hs_objs s -> e.1 = deref rs r -> size <= e.2 -> hstep rs s (HRealloc r size) e.1 s
| HS_realloc_null s s' r size p : deref rs r = NULL -> hstep rs s (HAlloc size) p s' -> hstep rs s (HRealloc r size) p s'
| HS_size s r e : e ∈ hs_objs s -> inside (deref rs r) e = true -> hstep rs s (HSize r) e.2 s
| HS_skip s es : hs_used s <= hs_next s -> hstep rs s (HCollect es) 0 s
| HS_collect O u n n' es : n < u ->
    let O' := filter (fun e => hit (derefs rs es).*2 e = true) O in let u' := u64 (sizes O') in nextgc u' <= n' ->
    hstep rs {| hs_objs := O; hs_used := u; hs_next := n |} (HCollect es) 1 {| hs_objs := O'; hs_used := u'; hs_next := n' |}.

(** What an operation may be given: only small objects are freed one by one, and
    what is traced is in an object. *)
Definition op_ok (rs : list Z) (s : hstate) (op : heap_op) : Prop :=
  match op with
  | HAlloc size => 0 <= size <= M32 - POOL_ALIGN
  | HUse _ => True
  | HFree r => exists e, e ∈ hs_objs s /\ inside (deref rs r) e = true /\ e.2 <= HEAP_MAX
  | HRealloc r size => 0 <= size <= M32 - POOL_ALIGN /\ (deref rs r = NULL \/ (0 < size /\ exists e, e ∈ hs_objs s /\ e.1 = deref rs r))
  | HSize r => into (hs_objs s) (deref rs r) = true
  | HCollect es => forall e, e ∈ es -> into (hs_objs s) (deref rs e.2) = true
  end.

(** Operations that are given such arguments whatever addresses the objects get. *)
Fixpoint safe (rs : list Z) (s : hstate) (ops : list heap_op) : Prop :=
  match ops with
  | [] => True
  | op :: ops' => op_ok rs s op /\ forall r s', hstep rs s op r s' -> safe (rs ++ [r]) s' ops'
  end.

Inductive hsteps : list Z -> hstate -> list heap_op -> list Z -> hstate -> Prop :=
| HSS_nil rs s : hsteps rs s [] rs s
| HSS_cons rs s op r s1 ops rs' s' : hstep rs s op r s1 -> hsteps (rs ++ [r]) s1 ops rs' s' -> hsteps rs s (op :: ops) rs' s'.
End spec.

(** ** The heap of an actor implements it *)
Section refine.
Context `{HM : Malloc, HR : !MallocRoom, HPP : !PagePool}.
Variables (root initialgc heap actor : Z) (nextgc : Z -> Z) (fuel : nat).
Abbreviation hp_at := (hp_at root initialgc heap).

(** What the code does for an operation: a collection happens when there is enough
    to collect, and marks what it traces. *)
Definition op_code (rs : list Z) (op : heap_op) : prog mem Z :=
  match op with
  | HAlloc size => heap_alloc root fuel actor heap size
  | HUse size => heap_used heap size ;; Ret 0
  | HFree r => chunk <- pagemap_get root (deref rs r) ;; heap_free chunk (deref rs r) ;; Ret 0
  | HRealloc r size => heap_realloc root fuel actor heap (deref rs r) size
  | HSize r => chunk <- pagemap_get root (deref rs r) ;; heap_size chunk
  | HCollect es =>
      b <- heap_startgc fuel heap ;;
      if b : bool then mark_all root (derefs rs es) ;; heap_endgc root initialgc nextgc fuel heap ;; Ret 1
      else Ret 0
  end.

Fixpoint run_ops (rs : list Z) (ops : list heap_op) : prog mem (list Z) :=
  match ops with
  | [] => Ret rs
  | op :: ops' => r <- op_code rs op ;; run_ops (rs ++ [r]) ops'
  end.

(** The memory and the pages that operations may need. *)
Definition op_room (op : heap_op) : nat := match op with HAlloc size | HRealloc _ size => 2 + 6 * alloc_pages size | _ => 0 end.
Definition op_pages (op : heap_op) : nat := match op with HAlloc size | HRealloc _ size => alloc_pages size | _ => 0 end.

(** The memory holds the abstract heap, with room for [K] and [P] more. *)
Definition heap_rel (K P : nat) (m : mem) (s : hstate) : Prop :=
  exists H L T, hp_at m H L [] T (hs_used s) (hs_next s) /\ length L = 11%nat /\ free_ok H L /\ objects H ≡ₚ hs_objs s /\
    mroom (3 * pages_of H + K) m /\ (pages_of H + P < fuel)%nat.

Lemma alloc_refines K P m s rs size : heap_rel (op_room (HAlloc size) + K) (op_pages (HAlloc size) + P) m s -> 0 <= size <= M32 - POOL_ALIGN ->
  tot (heap_alloc root fuel actor heap size) m (fun r m' => exists s', hstep nextgc rs s (HAlloc size) r s' /\ heap_rel K P m' s').
Proof.
  intros (H & L & T & HP & Hlen & Hfree & Hobj & Hroom & Hfu) Hs. destruct s as [O u n]. simpl in *. unfold heap_alloc.
  destruct (Z.eqb_spec size 0) as [->|Hne].
  { apply tot_ret. exists {| hs_objs := O; hs_used := u; hs_next := n |}. split; [constructor|]. exists H, L, T. split_and!; try done; [eapply mroom_mono; [exact Hroom|lia]|lia]. }
  assert (HTk : forall q, tot q m (taken root initialgc heap K (alloc_pages size) H (u64 (u + alloc_size size)) n (alloc_size size)) ->
    tot q m (fun r m' => exists s', hstep nextgc rs {| hs_objs := O; hs_used := u; hs_next := n |} (HAlloc size) r s' /\ heap_rel K P m' s')).
  { intros q Hq. eapply tot_mono; [exact Hq|]. intros p m' (H' & L' & T' & HP' & E1 & E2 & E3 & E4 & E5 & E6 & E7).
    eexists. split; [apply (HS_alloc nextgc rs O u n size p); [lia|done|]; intros e He; apply E5; by rewrite Hobj|].
    exists H', L', T'. simpl. rewrite E3, Hobj. split_and!; try done. lia. }
  apply HTk. clear HTk. unfold alloc_size, alloc_pages in *. destruct (Z.leb_spec size HEAP_MAX) as [Hle|Hgt].
  - destruct (heap_index_ok size) as (Ei & sc & Hsc & E & Hge); [lia|]. rewrite Ei, E. apply tot_bind, tot_ret.
    apply alloc_small_ok with (L := L) (T := T); done.
  - apply alloc_large_ok with (L := L) (T := T); try done; lia.
Qed.

Lemma use_refines K P m s rs size : heap_rel K P m s ->
  tot (heap_used heap size ;; Ret 0) m (fun r m' => exists s', hstep nextgc rs s (HUse size) r s' /\ heap_rel K P m' s').
Proof.
  intros (H & L & T & HP & Hlen & Hfree & Hobj & Hroom & Hfu). destruct s as [O u n]. simpl in *.
  pose proof (hp_words _ _ _ _ _ _ _ _ _ _ HP) as [W1 W2 _ _ _ _].
  apply tot_bind, tot_bind, (tot_load _ _ _ _ W2), tot_store; [by eapply is_struct_inb|]. apply tot_ret. eexists. split; [constructor|].
  exists H, L, T. simpl. split_and!; try done; [by eapply hp_used_upd|by apply mroom_upd].
Qed.

Lemma startgc_keeps k : keeps (mroom k) (heap_startgc fuel heap).
Proof. unfold heap_startgc, chunk_list, clear_small, clear_large. keep. Qed.

Lemma get_levels_keeps k a ls v : keeps (mroom k) (get_levels ls a v).
Proof. revert v. induction ls as [|l ls IH]; intros v; simpl; [apply keeps_ret|]. case_match; [apply keeps_ret|]. apply keeps_bind; [apply keeps_load|auto]. Qed.

Lemma pagemap_get_keeps k a : keeps (mroom k) (pagemap_get root a).
Proof. apply keeps_bind; [apply keeps_load|]. intros v. apply get_levels_keeps. Qed.

Lemma mark_all_keeps k es : keeps (mroom k) (mark_all root es).
Proof.
  induction es as [|e es IH]; simpl; [apply keeps_ret|]. apply keeps_bind; [|auto]. apply keeps_bind; [apply pagemap_get_keeps|].
  intros c. unfold heap_mark, heap_mark_shallow. keep.
Qed.

Lemma hit_rev ps e : hit (rev ps ++ []) e = hit ps e.
Proof.
  rewrite app_nil_r. apply eq_true_iff_eq. rewrite !hit_spec. split; intros (p & Hp & Hi); exists p; (split; [|done]); revert Hp; rewrite !list_elem_of_In; apply in_rev || (rewrite <- in_rev; done).
Qed.

Lemma collect_refines K P m s rs es : heap_rel K P m s -> op_ok rs s (HCollect es) ->
  tot (op_code rs (HCollect es)) m (fun r m' => exists s', hstep nextgc rs s (HCollect es) r s' /\ heap_rel K P m' s').
Proof.
  intros (H & L & T & HP & Hlen & Hfree & Hobj & Hroom & Hfu) Hok. destruct s as [O u n]. simpl in *. unfold op_code.
  pose proof (hp_lists _ _ _ _ _ _ _ _ _ _ HP) as HL. pose proof (chunks_pages H L HL) as Hch.
  apply tot_bind. eapply tot_mono; [apply (tot_keeps _ _ _ _ (startgc_keeps _) Hroom (startgc_ok root initialgc heap fuel L T u n m H HP Hlen ltac:(lia)))|].
  intros b m1 [HQ R1]. destruct b.
  2: { destruct HQ as [Hle ->]. apply tot_ret. eexists. split; [by apply HS_skip|]. exists H, L, T. done. }
  destruct HQ as [Hlt HP1]. set (ps := derefs rs es).
  assert (Hps : forall p, p ∈ ps.*2 -> into (objects H) p = true).
  { intros p ((d & q) & -> & ((d' & r) & [= -> ->] & He)%list_elem_of_fmap)%list_elem_of_fmap. eapply into_perm; [by symmetry|]. by apply (Hok _ He). }
  assert (Htr : Forall (fun e => traced H T e.2) ps).
  { apply Forall_forall. intros e He. left. destruct (proj1 (into_spec _ _) (Hps e.2 ltac:(apply list_elem_of_fmap; eauto))) as (o & Ho & Hi).
    apply objects_elem in Ho as (id & c & Hc & Hco). exists id, c, o. done. }
  apply tot_bind. eapply tot_mono; [apply (tot_keeps _ _ _ _ (mark_all_keeps _ ps) R1 (mark_all_ok root initialgc heap ps m1 _ L [] T 0 n [] H L [] HP1 HL (marked_clear H) Htr))|].
  intros [] m2 [(H2 & HP2 & HA) R2].
  assert (Hpg : (pages_of H2 <= pages_of H)%nat).
  { apply pages_le. intros id c' Hc'. specialize (HA id). rewrite Hc' in HA. destruct (H !! id) as [c|]; [|done]. exists c. split; [done|]. apply HA. }
  pose proof (chunks_pages H2 L (hp_lists _ _ _ _ _ _ _ _ _ _ HP2)) as Hch2.
  apply tot_bind. eapply tot_mono; [apply (endgc_ok root initialgc heap nextgc fuel K H2 L T 0 n m2 HP2 Hlen ltac:(lia) ltac:(lia))|].
  { eapply mroom_mono; [exact R2|lia]. }
  intros [] m3 (H3 & L3 & T3 & g & HP3 & E1 & E2 & E3 & E4 & E5 & _). apply tot_ret. cbv zeta in HP3.
  assert (Hkept : final H2 ≡ₚ filter (fun e => hit ps.*2 e = true) O).
  { rewrite (collect_kept _ _ _ _ _ _ _ _ _ _ _ H2 HP HA).
    - rewrite Hobj. rewrite (filter_ext_on _ (fun e => hit ps.*2 e = true)); [done|]. intros e _. by rewrite hit_rev.
    - intros p. rewrite app_nil_r. rewrite list_elem_of_In, <- in_rev, <- list_elem_of_In. apply Hps. }
  rewrite Z.add_0_l, (sizes_perm _ _ Hkept) in HP3. rewrite Hkept in E3.
  eexists. split; [apply (HS_collect nextgc rs O u n _ es Hlt (Z.le_max_r g _))|]. exists H3, L3, T3. split_and!; try done. lia.
Qed.

(** The bit of a slot that is given back. *)
Lemma set_bit sc s j : 0 <= sc < HEAP_SIZECLASSES -> bits_ok sc s -> is_cell sc j = true -> Z.testbit s (Z.of_nat j) = false ->
  let b := Z.shiftl 1 (Z.of_nat j) in bits_ok sc (Z.lor s b) /\ Z.testbit (Z.lor s b) (Z.of_nat j) = true /\ Z.land (Z.lor s b) (not32 b) = s /\ Z.lor s b <> 0.
Proof.
  intros Hsc Hb Hj Hs b. pose proof (proj1 (is_cell_spec _ _ Hsc) Hj) as [Hlt _]. pose proof Hb as [H0 Hl].
  assert (Eb : forall i, Z.testbit b i = (Z.of_nat j =? i)) by (intros i; unfold b; rewrite Z.shiftl_1_l; apply Z.pow2_bits_eqb; lia).
  assert (Hok : bits_ok sc (Z.lor s b)).
  { split; [apply Z.lor_nonneg; split; [done|apply Z.shiftl_nonneg; lia]|]. rewrite Z.land_lor_distr_l, Hl. f_equal. apply Z.bits_inj'. intros i Hi.
    rewrite Z.land_spec, Eb. destruct (Z.eqb_spec (Z.of_nat j) i) as [<-|]; [exact Hj|done]. }
  assert (Ht : Z.testbit (Z.lor s b) (Z.of_nat j) = true) by (rewrite Z.lor_spec, Eb, Z.eqb_refl; apply orb_true_r).
  split; [done|]. split; [done|]. split; [|intros E; rewrite E, Z.testbit_0_l in Ht; done].
  pose proof (bits_range _ _ Hsc Hb). apply bits_eq; [apply (bits_range sc); [done|by apply clear_bits_ok]|done|].
  intros i Hi. unfold b at 2. rewrite clear_bit by lia. rewrite Z.lor_spec, Eb. destruct (Z.eqb_spec (Z.of_nat i) (Z.of_nat j)) as [E|E]; simpl.
  - rewrite andb_false_r. by rewrite E.
  - rewrite andb_true_r. destruct (Z.eqb_spec (Z.of_nat j) (Z.of_nat i)); [congruence|]. apply orb_false_r.
Qed.

Lemma find_chunk {A} m H L R T u n e p (k : Z -> prog mem A) Q : hp_at m H L R T u n -> e ∈ objects H -> inside p e = true ->
  (forall id c cls, H !! id = Some c -> e ∈ objs c -> cls_ok cls c -> tot (k id) m Q) -> tot (chunk <- pagemap_get root p ;; k chunk) m Q.
Proof.
  intros HP (id & c & Hc & Hec)%objects_elem Hin Hk. destruct (cls_of_chunk _ _ _ _ _ (hp_lists _ _ _ _ _ _ _ _ _ _ HP) Hc) as [cls Hcls].
  pose proof (hp_shape _ _ _ _ _ _ _ _ _ _ HP) as HS. destruct (sh_block _ _ _ _ _ HS id c Hc) as [Hblk _]. destruct (bytes_pages _ _ Hcls) as [Hmod Hpos].
  destruct (objs_in_block _ _ _ Hcls Hec) as (O1 & O2 & O3). apply inside_spec in Hin. destruct (owns_page c p Hblk Hmod ltac:(lia)) as [Hp0 Hown].
  apply tot_bind. eapply tot_mono; [apply (pagemap_get_ok root p m T (wa_map _ _ _ _ _ _ _ _ (hp_words _ _ _ _ _ _ _ _ _ _ HP)))|].
  intros x m' [-> ->]. rewrite (sh_page _ _ _ _ _ HS id c p Hc Hp0 Hown). by eapply Hk.
Qed.

(** The size of an object is that of its class, or of its chunk. *)
Lemma object_size c cls e : cls_ok cls c -> e ∈ objs c ->
  (0 <= c_size c < HEAP_SIZECLASSES /\ e.2 = SIZECLASS_SIZE (c_size c)) \/ (HEAP_MAX < c_size c /\ e.2 = c_size c).
Proof.
  intros Hcls He. destruct (small c) eqn:Hsm.
  - left. pose proof (cls_small_range _ _ Hcls Hsm) as Hsc. split; [done|]. rewrite objs_small in He by done.
    by apply list_elem_of_fmap in He as (j & -> & _).
  - right. unfold objs in He. rewrite Hsm in He. destruct (c_slots c =? 0); [|by apply not_elem_of_nil in He]. apply list_elem_of_singleton in He as ->.
    destruct Hcls as [(D1 & D2 & _)|(_ & D2 & _)]; [|done]. unfold small in Hsm. apply Z.ltb_ge in Hsm. lia.
Qed.

Lemma size_refines K P m s rs r : heap_rel K P m s -> op_ok rs s (HSize r) ->
  tot (op_code rs (HSize r)) m (fun x m' => exists s', hstep nextgc rs s (HSize r) x s' /\ heap_rel K P m' s').
Proof.
  intros HRl Hok. pose proof HRl as (H & L & T & HP & Hlen & Hfree & Hobj & Hroom & Hfu). apply into_spec in Hok as (e & He & Hin).
  pose proof He as He'. rewrite <- Hobj in He'. apply (find_chunk _ _ _ _ _ _ _ _ _ _ _ HP He' Hin). intros id c cls Hc Hec Hcls.
  destruct (wa_chunk _ _ _ _ _ _ _ _ (hp_words _ _ _ _ _ _ _ _ _ _ HP) id c Hc) as [A1 A2 A3 A4 A5 A6].
  unfold heap_size. apply tot_bind, (tot_load _ _ _ _ A3). change HEAP_MAX with 512 in *.
  destruct (object_size c cls e Hcls Hec) as [[Hr E]|[Hr E]]; destruct (Z.leb_spec HEAP_SIZECLASSES (c_size c)) as [Hle|Hle].
  - lia.
  - apply tot_bind, (tot_load _ _ _ _ A3), tot_ret. rewrite <- E. exists s. split; [by apply HS_size|done].
  - apply (tot_load _ _ _ _ A3). rewrite <- E. exists s. split; [by apply HS_size|done].
  - exfalso. revert Hr Hle. change HEAP_MAX with 512. change HEAP_SIZECLASSES with 5. lia.
Qed.

Lemma grow_refines K P m s rs r size e : heap_rel (op_room (HAlloc size) + K) (op_pages (HAlloc size) + P) m s -> mem_apart m ->
  e ∈ hs_objs s -> e.1 = deref rs r -> 0 < e.2 < size -> size <= M32 - POOL_ALIGN ->
  tot (q <- heap_alloc root fuel actor heap size ;; memcpy q e.1 e.2 ;; Ret q) m
    (fun x m' => exists s', hstep nextgc rs s (HRealloc r size) x s' /\ heap_rel K P m' s').
Proof.
  intros HRl Hm He Er Hsz Hmax. apply tot_bind.
  eapply tot_mono; [apply (tot_keeps _ _ _ _ (apart_heap_alloc root heap actor fuel size) Hm (alloc_refines K P m s rs size HRl ltac:(lia)))|].
  intros q m1 [(s1 & Hst & HRl1) Hm1]. pose proof HRl1 as (H & L & T & HP & Hlen & Hfree & Hobj & Hroom & Hfu).
  assert (Hin : e ∈ objects H /\ (q, alloc_size size) ∈ objects H) by (rewrite Hobj; inversion Hst; subst; [lia|]; simpl in *; split; [by right|left]).
  pose proof (alloc_size_ge size ltac:(lia)). apply tot_bind.
  eapply tot_mono; [apply (memcpy_ok root initialgc heap _ m1 H L [] T _ _ e (q, alloc_size size) e.2 HP Hm1 Hroom); [tauto|tauto|lia|simpl; lia]|].
  intros [] m2 [HP2 R2]. apply tot_ret. exists s1. split; [by eapply HS_grow; eauto; lia|]. exists H, L, T. done.
Qed.

Lemma class_fits size c : 0 < size <= HEAP_MAX -> 0 <= c < HEAP_SIZECLASSES -> (class_of size <=? c) = (size <=? SIZECLASS_SIZE c).
Proof.
  intros Hs Hc. unfold class_of. change HEAP_MAX with 512 in Hs. change HEAP_MIN with 32.
  assert (Hq : 0 <= (size - 1) / 32 < 16) by (Z.to_euclidean_division_equations; lia).
  assert (Hb : 32 * ((size - 1) / 32) < size <= 32 * ((size - 1) / 32) + 32) by (Z.to_euclidean_division_equations; lia).
  revert Hq Hb. generalize ((size - 1) / 32). intros q Hq Hb.
  assert (Hall : forallb (fun q => forallb (fun c => eqb (entry sizeclass_table (Z.of_nat q) <=? Z.of_nat c) (32 * Z.of_nat q + 32 <=? SIZECLASS_SIZE (Z.of_nat c)) &&
    (SIZECLASS_SIZE (Z.of_nat c) mod 32 =? 0)) (seq 0 5)) (seq 0 16) = true) by (by vm_compute).
  rewrite forallb_forall in Hall. specialize (Hall (Z.to_nat q) ltac:(apply in_seq; lia)). rewrite forallb_forall in Hall.
  change HEAP_SIZECLASSES with 5 in Hc. specialize (Hall (Z.to_nat c) ltac:(apply in_seq; lia)). rewrite !Z2Nat.id in Hall by lia.
  apply andb_prop in Hall as [->%eqb_prop Hmod%Z.eqb_eq]. revert Hmod. generalize (SIZECLASS_SIZE c). intros z Hmod.
  apply eq_true_iff_eq. rewrite !Z.leb_le. Z.to_euclidean_division_equations. lia.
Qed.

Lemma realloc_refines K P m s rs r size : heap_rel (op_room (HRealloc r size) + K) (op_pages (HRealloc r size) + P) m s -> mem_apart m -> op_ok rs s (HRealloc r size) ->
  tot (op_code rs (HRealloc r size)) m (fun x m' => exists s', hstep nextgc rs s (HRealloc r size) x s' /\ heap_rel K P m' s').
Proof.
  intros HRl Hm [Hmax Hok]. unfold op_code, heap_realloc. destruct (Z.eqb_spec (deref rs r) NULL) as [En|En].
  { eapply tot_mono; [by apply (alloc_refines K P m s rs size HRl)|]. intros p m' (s' & Hst & HRl'). exists s'. split; [by apply HS_realloc_null|done]. }
  destruct Hok as [?|(Hpos & e & He & Er)]; [done|]. pose proof HRl as (H & L & T & HP & Hlen & Hfree & Hobj & Hroom & Hfu).
  pose proof He as He'. rewrite <- Hobj in He'.
  assert (He2 : 0 < e.2).
  { pose proof He' as (id & c & Hc & Hec)%objects_elem. destruct (cls_of_chunk _ _ _ _ _ (hp_lists _ _ _ _ _ _ _ _ _ _ HP) Hc) as [cls Hcls].
    by destruct (objs_in_block _ _ _ Hcls Hec). }
  rewrite <- Er. apply (find_chunk _ _ _ _ _ _ _ e e.1 _ _ HP He'); [apply inside_spec; lia|]. intros id c cls Hc Hec Hcls.
  destruct (sh_block _ _ _ _ _ (hp_shape _ _ _ _ _ _ _ _ _ _ HP) id c Hc) as [_ Hid]. rewrite (proj2 (Z.eqb_neq _ _) Hid).
  destruct (wa_chunk _ _ _ _ _ _ _ _ (hp_words _ _ _ _ _ _ _ _ _ _ HP) id c Hc) as [A1 A2 A3 A4 A5 A6].
  apply tot_bind, (tot_load _ _ _ _ A3).
  assert (Hfit : size <= e.2 -> exists s', hstep nextgc rs s (HRealloc r size) e.1 s' /\ heap_rel K P m s').
  { intros Hle. exists s. split; [by apply HS_fits|]. exists H, L, T. split_and!; try done; [eapply mroom_mono; [exact Hroom|lia]|simpl in Hfu; lia]. }
  destruct (object_size c cls e Hcls Hec) as [[Hr E]|[Hr E]].
  - rewrite (proj2 (Z.ltb_lt _ _)) by lia. rewrite <- E. apply tot_bind.
    assert (Hcond : tot (if size <=? HEAP_MAX then sizeclass <- heap_index size ;; Ret (sizeclass <=? c_size c) else Ret false) m (fun b m' => b = (size <=? e.2) /\ m' = m)).
    { destruct (Z.leb_spec size HEAP_MAX) as [Hle|Hgt].
      - destruct (heap_index_ok size) as [-> _]; [lia|]. apply tot_bind, tot_ret, tot_ret. split; [|done]. rewrite E. by apply class_fits.
      - apply tot_ret. split; [|done]. symmetry. apply Z.leb_gt. rewrite E. pose proof (cell_bounds (c_size c) 0 Hr) as Hcb.
        assert (SIZECLASS_SIZE (c_size c) <= HEAP_MAX) by (by destruct (sizeclasses _ Hr) as [->|[->|[->|[->| ->]]]]). lia. }
    eapply tot_mono; [exact Hcond|]. intros b m' [-> ->]. destruct (Z.leb_spec size e.2) as [Hle|Hgt]; [apply tot_ret; auto|].
    apply grow_refines; try done; lia.
  - rewrite (proj2 (Z.ltb_ge _ _)) by (revert Hr; change HEAP_MAX with 512; change HEAP_SIZECLASSES with 5; lia). rewrite <- E.
    destruct (Z.leb_spec size e.2) as [Hle|Hgt]; [apply tot_ret; auto|]. apply grow_refines; try done; lia.
Qed.

Lemma free_refines K P m s rs r : heap_rel K P m s -> op_ok rs s (HFree r) ->
  tot (op_code rs (HFree r)) m (fun x m' => exists s', hstep nextgc rs s (HFree r) x s' /\ heap_rel K P m' s').
Proof.
  intros (H & L & T & HP & Hlen & Hfree & Hobj & Hroom & Hfu) (e & He & Hin & Hsz). destruct s as [O u n]. simpl in *. set (p := deref rs r) in *.
  pose proof He as He'. rewrite <- Hobj in He'. apply (find_chunk m H L [] T u n e p _ _ HP He' Hin). intros id c cls Hc Hec Hcls. apply inside_spec in Hin.
  pose proof (hp_shape _ _ _ _ _ _ _ _ _ _ HP) as HS. destruct (sh_block _ _ _ _ _ HS id c Hc) as [Hblk Hid]. pose proof Hblk as (B1 & B2 & B3).
  destruct (objs_in_block _ _ _ Hcls Hec) as (O1 & O2 & O3).
  assert (Hsm : small c = true).
  { destruct (small c) eqn:E; [done|]. exfalso. unfold objs in Hec. rewrite E in Hec. destruct (c_slots c =? 0); [|by apply not_elem_of_nil in Hec].
    apply list_elem_of_singleton in Hec as ->. destruct Hcls as [(D1 & D2 & _)|(_ & D2 & _)]; [|simpl in Hsz; lia]. revert E. unfold small. rewrite D2. intros E%Z.ltb_ge. lia. }
  pose proof (cls_small_range _ _ Hcls Hsm) as Hsc.
  assert (Hcs : cls = c_size c) by (destruct Hcls as [(? & ? & _)|(_ & D2 & _)]; [done|exfalso; revert D2 Hsc; change HEAP_MAX with 512; change HEAP_SIZECLASSES with 5; lia]).
  subst cls. destruct (cls_small _ _ Hcls Hsc) as (_ & Hb1 & Hb2 & _).
  rewrite objs_small in Hec by done. apply list_elem_of_fmap in Hec as (j & -> & ([Hj1 Hj2] & _)%list_elem_of_filter).
  rewrite (bytes_small c Hsc) in B3. unfold cell_at in Hin, O1. simpl in Hin, O1.
  destruct (find_slot (c_m c) (c_size c) j p Hsc Hj1 ltac:(lia) B2 B3 Hin) as [Hext Hfs].
  destruct (wa_chunk _ _ _ _ _ _ _ _ (hp_words _ _ _ _ _ _ _ _ _ _ HP) id c Hc) as [A1 A2 A3 A4 A5 A6].
  unfold heap_free. apply tot_bind, tot_bind, (tot_load _ _ _ _ A3). rewrite (proj2 (Z.leb_gt HEAP_SIZECLASSES (c_size c))) by lia. cbv zeta. rewrite Hext.
  destruct (Z.eqb_spec p (c_m c + HEAP_MIN * Z.of_nat j)) as [Ep|Ep].
  2: { apply tot_ret, tot_ret. eexists. split; [apply (HS_interior nextgc rs O u n r _ He); simpl; fold p; lia|]. exists H, L, T. done. }
  destruct (set_bit (c_size c) (c_slots c) j Hsc Hb1 Hj1 Hj2) as (S1 & S2 & S3 & S4). rewrite Hext in Hfs.
  apply tot_bind, (tot_load _ _ _ _ A2). rewrite Hfs. apply tot_bind, (tot_load _ _ _ _ A4). set (s1 := Z.lor _ _) in *.
  apply tot_store; [by eapply is_struct_inb|]. apply tot_ret. set (c' := Ch (c_m c) (c_size c) s1 (c_shallow c)).
  assert (Ho : objects H ≡ₚ cell_at c j :: objects (<[id := c']> H)).
  { rewrite (objects_delete H id c Hc), (objects_delete (<[id := c']> H) id c') by apply lookup_insert_eq. rewrite delete_insert_id.
    rewrite (objs_take c' Hsc S1 (Z.of_nat j) c); [done|pose proof (proj1 (is_cell_spec _ _ Hsc) Hj1); lia|done|done|done|by symmetry]. }
  rewrite Hobj in Ho. eexists. split; [apply (HS_free nextgc rs O _ u n r _ Ho); by symmetry|].
  exists (<[id := c']> H), L, T. simpl. split_and!; try done.
  - apply hp_bits with (c := c); [done|done|by left|]. intros cls' Hcl. apply cls_bits; [done|apply S1|apply Hb2|done].
  - apply free_ok_bits with (c := c); [done|by left|done].
  - rewrite (pages_insert H id c) by done. by apply mroom_upd.
  - by rewrite (pages_insert H id c).
Qed.

Lemma op_apart rs op : keeps mem_apart (op_code rs op).
Proof.
  destruct op; simpl; [apply apart_heap_alloc|apply keeps_bind; [apply apart_used|intros; apply keeps_ret]|..].
  - apply keeps_bind; [apply apart_pagemap_get|]. intros c. apply keeps_bind; [apply apart_heap_free|intros; apply keeps_ret].
  - apply apart_heap_realloc.
  - apply keeps_bind; [apply apart_pagemap_get|]. intros c. apply apart_size.
  - apply keeps_bind; [apply apart_startgc|]. intros [|]; [|apply keeps_ret]. apply keeps_bind; [apply apart_mark_all|]. intros [].
    apply keeps_bind; [apply apart_endgc|intros; apply keeps_ret].
Qed.

Lemma op_refines K P m s rs op : heap_rel (op_room op + K) (op_pages op + P) m s -> mem_apart m -> op_ok rs s op ->
  tot (op_code rs op) m (fun r m' => (exists s', hstep nextgc rs s op r s' /\ heap_rel K P m' s') /\ mem_apart m').
Proof.
  intros HRl Hm Hok. apply (tot_keeps _ _ _ _ (op_apart rs op) Hm).
  destruct op; [by apply alloc_refines|by apply use_refines|by apply free_refines|by apply realloc_refines|by apply size_refines|by apply collect_refines].
Qed.

Lemma run_ops_ok ops : forall rs s m, safe nextgc rs s ops -> heap_rel (sum_list (op_room <$> ops)) (sum_list (op_pages <$> ops)) m s -> mem_apart m ->
  tot (run_ops rs ops) m (fun rs' m' => exists s', hsteps nextgc rs s ops rs' s' /\ heap_rel 0 0 m' s').
Proof.
  induction ops as [|op ops IH]; intros rs s m Hsafe HRl Hm; simpl in *; [apply tot_ret; exists s; split; [constructor|done]|].
  destruct Hsafe as [Hok Hsafe]. apply tot_bind. eapply tot_mono; [by apply op_refines|].
  intros r m1 [(s1 & Hst & HRl1) Hm1]. eapply tot_mono; [apply (IH (rs ++ [r]) s1); [by apply Hsafe|done|done]|].
  intros rs' m2 (s' & Hsts & HRl2). exists s'. split; [by econstructor|done].
Qed.

(** Before [heap_init]: the heap's structure, the static variables, no page mapped. *)
Record heap_start (m : mem) (T : gmap (list Z) Z) (g : Z) : Prop := {
  hst_heap : is_struct m heap sizeof_heap_t;
  hst_init : get m (initialgc, 0) = Some g;
  hst_map : pm_at root m T;
  hst_none : forall a, 0 <= a -> cell T (path a) = NULL;
  hst_apart : mem_apart m;
  hst_ne : heap <> initialgc /\ ~ pm_objs root T heap /\ ~ pm_objs root T initialgc
}.

Lemma heap_init_ok K P m T g : heap_start m T g -> mroom K m -> (P < fuel)%nat ->
  tot (heap_init initialgc heap) m (fun _ m' => heap_rel K P m' {| hs_objs := []; hs_used := 0; hs_next := g |} /\ mem_apart m').
Proof.
  intros [H1 H2 H3 H4 Hap (N1 & N2 & N3)] Hroom Hfu. apply (tot_keeps _ _ _ _ (apart_init initialgc heap) Hap). unfold heap_init. apply tot_bind. change (sizeof_heap_t / 8) with (Z.of_nat 13).
  eapply tot_mono; [apply (memset0_ok m heap 13 K H1 Hroom)|]. intros [] m1 (R1 & [R2 R3] & R4). rewrite length_replicate in R2.
  assert (Hz : forall i, (i < 13)%nat -> get m1 (heap, 8 * Z.of_nat i) = Some NULL) by (intros i Hi; apply R3, lookup_replicate; done).
  assert (Hg : get m1 (initialgc, 0) = Some g) by (rewrite (get_lookup_eq m); [done|]; apply R4; congruence).
  apply tot_bind, (tot_load _ _ _ _ Hg), tot_store; [by eapply is_struct_inb|].
  exists ∅, (replicate 11 []), T. split; [|split_and!; try done; by apply mroom_upd].
  apply (hp_next_upd _ _ _ _ _ _ _ _ _ NULL). split.
  - split; [done|simpl; apply NoDup_nil_2| | |].
    + intros id. rewrite lookup_empty. simpl. split; [by intros []|by intros []%not_elem_of_nil].
    + intros k ids id c (-> & _)%lookup_replicate []%not_elem_of_nil.
    + intros cls p ids id c []%not_elem_of_nil.
  - split; try (intros *; rewrite lookup_empty; done); [|done|].
    + intros b [[c Hc]|(id & c & Hc & _)]; by rewrite lookup_empty in Hc.
    + intros a Ha Hc. by rewrite H4 in Hc.
  - split; [done|apply (Hz 11%nat); lia|apply (Hz 12%nat); lia|by exists g|intros id c Hc; by rewrite lookup_empty in Hc|].
    apply (pm_ext _ m); [done|]. intros b Hb. apply R4. by intros ->.
  - split; [|by intros cls p ids ?%not_elem_of_nil]. intros k ids (-> & Hk)%lookup_replicate. exists NULL. split; [apply Hz; lia|done].
Qed.
End refine.

(** C3: The heap of an actor (mem/heap.c) implements a set of objects: an allocation
    returns a range of at least the size asked for, apart from every object there
    is; a reallocation returns the object when the size fits and a new one when it
    does not; the size of an object is found from any pointer into it; a
    collection, once the bytes counted exceed the threshold, keeps exactly the
    objects some traced pointer points into, recounts them and raises the
    threshold; freeing a small object removes it.  Every run of operations with
    sensible arguments ends, with such results. *)
Theorem heap_refines_objects `{HM : Malloc, HR : !MallocRoom, HPP : !PagePool} root initialgc heap actor nextgc fuel ops m T g :
  heap_start root initialgc heap m T g -> safe nextgc [] {| hs_objs := []; hs_used := 0; hs_next := g |} ops ->
  mroom (sum_list (op_room <$> ops)) m -> (sum_list (op_pages <$> ops) < fuel)%nat ->
  tot (heap_init initialgc heap ;; run_ops root initialgc heap actor nextgc fuel [] ops) m (fun rs m' =>
    exists s, hsteps nextgc [] {| hs_objs := []; hs_used := 0; hs_next := g |} ops rs s /\
      get m' (heap, H_USED) = Some (hs_used s) /\ get m' (heap, H_NEXT_GC) = Some (hs_next s) /\
      heap_rel root initialgc heap fuel 0 0 m' s).
Proof.
  intros Hst Hsafe Hroom Hfu. apply tot_bind.
  eapply tot_mono; [by apply (heap_init_ok root initialgc heap fuel _ _ m T g Hst Hroom Hfu)|]. intros [] m1 [HRl Hm1].
  eapply tot_mono; [by apply run_ops_ok|]. intros rs m2 (s & Hsteps & HRl2). exists s. split; [done|].
  pose proof HRl2 as (H & L & T' & HP & _). pose proof (hp_words _ _ _ _ _ _ _ _ _ _ HP) as [_ W2 W3 _ _ _]. done.
Qed.
