(* ===== verification/HeapDestroy.v ===== *)
(** * Giving the heap back (mem/heap.c: heap_destroy) *)
From S2P Require Export Fun HeapProgram.
Import ds_fun pool heap.

Section destroy.
Context `{HM : Malloc, HR : !MallocRoom}.
Variables (root initialgc heap : Z) (fuel : nat).
Abbreviation hp_at := (hp_at root initialgc heap).

(** A list of the heap in a variable. *)
Definition var_of (L : list (list Z)) (k : nat) : Z * Z * list Z := let l := nth k L [] in (kcls k, List.hd NULL l, l).

Lemma vars_lists L : (var_of L <$> seq 0 (length L)).*2 = L.
Proof.
  apply list_eq. intros k. rewrite !list_lookup_fmap. destruct (decide (k < length L)%nat) as [Hk|Hk].
  - rewrite lookup_seq_lt by done. simpl. rewrite nth_lookup. by destruct (lookup_lt_is_Some_2 L k Hk) as [l ->].
  - rewrite lookup_seq_ge, (proj2 (lookup_ge_None L k)) by lia. done.
Qed.

(** All lists of the heap in variables: its fields may then be stale. *)
Lemma hold_all m H L T u n : hp_at m H L [] T u n -> hp_at m H [] (var_of L <$> seq 0 (length L)) T u n.
Proof.
  intros [HL HS HW HC]. destruct HL as [L1 L2 L3 L4 L5]. simpl in L2, L3. rewrite app_nil_r in L2. setoid_rewrite app_nil_r in L3.
  assert (Hin : forall cls p ids, (cls, p, ids) ∈ var_of L <$> seq 0 (length L) -> exists k, L !! k = Some ids /\ cls = kcls k /\ p = List.hd NULL ids).
  { intros cls p ids (k & E & Hk%elem_of_seq)%list_elem_of_fmap. exists k. destruct (lookup_lt_is_Some_2 L k ltac:(lia)) as [l Hl].
    unfold var_of in E. rewrite nth_lookup, Hl in E. simpl in E. by injection E as -> -> ->. }
  split; [|done|done|].
  - split; [simpl; lia|simpl; by rewrite vars_lists|intros id; simpl; rewrite vars_lists; apply L3|done|].
    intros cls p ids id c (k & Hk & -> & _)%Hin Hid Hc. by eapply L4.
  - split; [done|]. intros cls p ids (k & Hk & _ & ->)%Hin. destruct (la_heap _ _ _ _ HC k ids Hk) as (p & _ & Hcl). by rewrite (clist_hd _ _ _ Hcl) in Hcl.
Qed.

(** The chunks of a list are given back, one after the other. *)
Lemma destroy_list_ok K cls (f : Z -> prog mem unit) R u n ids : (f = destroy_small root /\ 0 <= cls < HEAP_SIZECLASSES) \/ (f = destroy_large root fuel /\ cls = HEAP_SIZECLASSES) ->
  forall d m H T, hp_at m H [] ((cls, List.hd NULL ids, ids) :: R) T u n -> mroom (3 * pages_of H + K) m -> (length ids < d)%nat -> (pages_of H < fuel)%nat ->
  tot (chunk_list d f (List.hd NULL ids)) m (fun _ m' => m' !! heap = m !! heap /\ exists H' T', hp_at m' H' [] R T' u n /\
    mroom (3 * pages_of H' + K) m' /\ (pages_of H' <= pages_of H)%nat).
Proof.
  intros Hf. induction ids as [|id ids IH]; intros d m H T HP Hroom Hd Hfu.
  - apply tot_loop_exit; [lia|]. simpl. apply tot_ret. apply var_drop in HP as [HP _]. split; [done|]. exists H, T. done.
  - destruct d as [|d]; [simpl in Hd; lia|]. apply tot_loop_S.
    destruct (var_head _ _ _ _ _ _ _ _ _ _ _ _ _ _ HP) as (_ & Hn & Hx & _ & c & Hc & Hcls & _).
    simpl List.hd. rewrite (proj2 (Z.eqb_neq _ _) Hn). apply tot_bind, (tot_load _ _ _ _ Hx), tot_bind.
    pose proof (pages_delete H id c Hc) as Hpg. destruct (bytes_npages _ _ Hcls) as [_ Hnp].
    assert (HD : tot (f id) m (fun _ m' => mroom (3 * pages_of (delete id H) + K) m' /\ m' !! heap = m !! heap /\
      exists T', hp_at m' (delete id H) [] ((cls, List.hd NULL ids, ids) :: R) T' u n)).
    { destruct Hf as [[-> Hk]|[-> ->]].
      - destruct (cls_small _ _ Hcls Hk) as (_ & _ & _ & Hsm). eapply destroy_small_ok; [exact HP|done|done|]. eapply mroom_mono; [exact Hroom|lia].
      - eapply destroy_large_ok; [exact HP|done|done| |lia]. eapply mroom_mono; [exact Hroom|lia]. }
    eapply tot_mono; [exact HD|]. intros [] m1 (R1 & E1 & T1 & HP1). apply tot_ret. cbv beta iota.
    eapply tot_mono; [apply (IH d m1 _ _ HP1 R1); [simpl in Hd; lia|lia]|]. intros [] m2 (E2 & H2 & T2 & HP2 & R2 & Hle).
    split; [congruence|]. exists H2, T2. split_and!; [done|done|lia].
Qed.

(** The lists that are left when class [i] is next. *)
Definition left_over (i : nat) : list nat := concat ((fun j => [j; (5 + j)%nat]) <$> seq i (5 - i)).

Lemma left_over_step i : (i < 5)%nat -> left_over i = i :: (5 + i)%nat :: left_over (S i).
Proof. intros Hi. unfold left_over. replace (5 - i)%nat with (S (5 - S i)) by lia. done. Qed.

Lemma all_lists : seq 0 11 ≡ₚ 10%nat :: left_over 0.
Proof.
  apply list.NoDup_Permutation; [apply (bool_decide_unpack _); by vm_compute|apply (bool_decide_unpack _); by vm_compute|].
  intros x. rewrite elem_of_seq. unfold left_over. simpl. rewrite !elem_of_cons, elem_of_nil. lia.
Qed.

Lemma kcls_class i : (i < 5)%nat -> kcls i = Z.of_nat i /\ kcls (5 + i) = Z.of_nat i /\ 0 <= Z.of_nat i < HEAP_SIZECLASSES.
Proof.
  intros Hi. change HEAP_SIZECLASSES with 5. unfold kcls. destruct (Nat.ltb_spec i 5), (Nat.ltb_spec (5 + i) 5), (Nat.ltb_spec (5 + i) 10); lia.
Qed.

(** One list: its head is still in the heap. *)
Lemma destroy_one K k f R L u n m0 m H T : (k < 11)%nat -> length L = 11%nat -> (f = destroy_small root /\ 0 <= kcls k < HEAP_SIZECLASSES) \/ (f = destroy_large root fuel /\ kcls k = HEAP_SIZECLASSES) ->
  (forall j l, L !! j = Some l -> get m0 (heap, 8 * Z.of_nat j) = Some (List.hd NULL l)) -> m !! heap = m0 !! heap ->
  hp_at m H [] (var_of L k :: R) T u n -> mroom (3 * pages_of H + K) m -> (length (concat L) < fuel)%nat -> (pages_of H < fuel)%nat ->
  tot (c <- load (heap, 8 * Z.of_nat k) ;; chunk_list fuel f c) m (fun _ m' => m' !! heap = m0 !! heap /\ exists H' T', hp_at m' H' [] R T' u n /\
    mroom (3 * pages_of H' + K) m' /\ (pages_of H' <= pages_of H)%nat).
Proof.
  intros Hk Hlen Hf Hg E HP Hroom Hfu Hpf. destruct (lookup_lt_is_Some_2 L k ltac:(lia)) as [l Hl]. pose proof (length_concat_elem _ _ _ Hl).
  unfold var_of in HP. rewrite nth_lookup, Hl in HP. simpl in HP.
  apply tot_bind. eapply tot_load; [rewrite (get_lookup_eq m0) by done; by apply Hg|].
  eapply tot_mono; [apply (destroy_list_ok K (kcls k) f R u n l Hf fuel m H T HP Hroom); [lia|done]|].
  intros [] m1 (E1 & HQ). split; [congruence|done].
Qed.

Lemma destroy_ok K H L T u n m : hp_at m H L [] T u n -> length L = 11%nat -> (pages_of H < fuel)%nat -> mroom (3 * pages_of H + K) m ->
  tot (heap_destroy root fuel heap) m (fun _ m' => mroom K m' /\ exists T', pm_at root m' T' /\ forall a, 0 <= a -> cell T' (path a) = NULL).
Proof.
  intros HP Hlen Hpf Hroom. pose proof (chunks_pages H L (hp_lists _ _ _ _ _ _ _ _ _ _ HP)) as Hch.
  assert (Hg : forall j l, L !! j = Some l -> get m (heap, 8 * Z.of_nat j) = Some (List.hd NULL l)).
  { intros j l Hl. destruct (la_heap _ _ _ _ (hp_chain _ _ _ _ _ _ _ _ _ _ HP) j l Hl) as (p & Hp & Hcl). by rewrite (clist_hd _ _ _ Hcl) in Hp. }
  pose proof (hold_all _ _ _ _ _ _ HP) as HA. rewrite Hlen in HA.
  assert (HA1 : hp_at m H [] (var_of L 10 :: (var_of L <$> left_over 0)) T u n).
  { eapply hp_perm; [exact HA|]. rewrite all_lists. done. }
  unfold heap_destroy.
  pose proof (destroy_one K 10 (destroy_large root fuel) _ L u n m m H T ltac:(lia) Hlen ltac:(by right) Hg eq_refl HA1 Hroom ltac:(lia) Hpf) as HC.
  follow HC. follow_last HC. destruct HC as (E1 & H1 & T1 & HP1 & R1 & Hle1).
  eapply tot_mono; [apply (tot_forz (fun i m' => m' !! heap = m !! heap /\ exists H' T', hp_at m' H' [] (var_of L <$> left_over i) T' u n /\
    mroom (3 * pages_of H' + K) m' /\ (pages_of H' <= pages_of H)%nat))|].
  - intros i m1 Hi (E & H2 & T2 & HP2 & R2 & Hle2). change (Z.to_nat HEAP_SIZECLASSES) with 5%nat in Hi.
    replace (H_FREE + 8 * (0 + Z.of_nat i)) with (8 * Z.of_nat i) by lia. replace (H_FULL + 8 * (0 + Z.of_nat i)) with (8 * Z.of_nat (5 + i)) by lia.
    destruct (kcls_class i Hi) as (C1 & C2 & C3). rewrite (left_over_step i Hi) in HP2.
    pose proof (destroy_one K i (destroy_small root) _ L u n m m1 H2 T2 ltac:(lia) Hlen ltac:(left; by rewrite C1) Hg E HP2 R2 ltac:(lia) ltac:(lia)) as HC.
    follow HC. follow_last HC. destruct HC as (E3 & H3 & T3 & HP3 & R3 & Hle3).
    eapply tot_mono; [apply (destroy_one K (5 + i) (destroy_small root) _ L u n m _ H3 T3 ltac:(lia) Hlen ltac:(left; by rewrite C2) Hg E3 HP3 R3 ltac:(lia) ltac:(lia))|].
    intros [] m4 (E4 & H4 & T4 & HP4 & R4 & Hle4). split; [done|]. exists H4, T4. split_and!; [done|done|lia].
  - split; [done|]. exists H1, T1. done.
  - intros [] m2 (_ & H2 & T2 & HP2 & R2 & _). change (left_over _) with (@nil nat) in HP2. simpl in HP2. split; [eapply mroom_mono; [exact R2|lia]|].
    exists T2. split; [apply (wa_map _ _ _ _ _ _ _ _ (hp_words _ _ _ _ _ _ _ _ _ _ HP2))|]. intros x Hx.
    destruct (decide (cell T2 (path x) = NULL)) as [|Hne]; [done|]. exfalso. destruct (sh_back _ _ _ _ _ (hp_shape _ _ _ _ _ _ _ _ _ _ HP2) x Hx Hne) as (c & Hc & _).
    assert (Hd := proj1 (lo_dom _ _ _ (hp_lists _ _ _ _ _ _ _ _ _ _ HP2) _) (mk_is_Some _ _ Hc)). by apply not_elem_of_nil in Hd.
Qed.
End destroy.

(** C19: [heap_destroy] after any such run ends without freeing anything twice, and
    leaves no page in the page map. *)
Theorem heap_destroy_clears `{HM : Malloc, HR : !MallocRoom, HPP : !PagePool} root initialgc heap actor nextgc fuel ops m T g :
  heap_start root initialgc heap m T g -> safe nextgc [] {| hs_objs := []; hs_used := 0; hs_next := g |} ops ->
  mroom (sum_list (op_room <$> ops)) m -> (sum_list (op_pages <$> ops) < fuel)%nat ->
  tot (heap_init initialgc heap ;; _ <- run_ops root initialgc heap actor nextgc fuel [] ops ;; heap_destroy root fuel heap) m (fun _ m' =>
    forall a, 0 <= a -> tot (pagemap_get root a) m' (fun r _ => r = NULL)).
Proof.
  intros Hst Hsafe Hroom Hfu. apply tot_bind.
  eapply tot_mono; [by apply (heap_init_ok root initialgc heap fuel _ _ m T g Hst Hroom Hfu)|]. intros [] m1 [HRl Hm1].
  apply tot_bind. eapply tot_mono; [by apply run_ops_ok|]. intros rs m2 (s & _ & H & L & T' & HP & Hlen & _ & _ & Hr & Hp).
  eapply tot_mono; [apply (destroy_ok root initialgc heap fuel 0 H L T' _ _ m2 HP Hlen); [lia|done]|].
  intros [] m3 (_ & T3 & HT3 & Hz) a Ha. eapply tot_mono; [by apply (pagemap_get_ok root a m3 T3)|]. intros r m' [-> _]. by apply Hz.
Qed.
