(* ===== verification/HeapRun.v ===== *)
(** * A concrete pool and runs of the heap (mem/heap.c) *)
From S2P Require Export Fun HeapDestroy.
Import ds_fun pool heap.

(** ** A pool of pages: every block starts at a page after all live objects *)
Definition page_up (a : Z) : Z := 1024 * ((a + 1023) / 1024).
Definition page_addr (m : mem) (sz : Z) : Z := let a := page_up (16 * Memory.top m) in if a + Z.max 1 sz <=? 2 ^ 48 then a else 0.

Lemma page_up_ge a : a <= page_up a <= a + 1023.
Proof. unfold page_up. Z.to_euclidean_division_equations. lia. Qed.

Lemma page_after m b o : m !! b = Some o -> b + osize o <= page_up (16 * Memory.top m).
Proof. intros Ho%top_ge. pose proof (block_end_after b o). pose proof (page_up_ge (16 * Memory.top m)). lia. Qed.

#[export] Program Instance page_pool : Malloc := {| malloc_addr := page_addr |}.
Next Obligation.
  intros m sz b. unfold page_addr. cbv zeta. case_match; [|done]. intros _ Hb. pose proof (page_up_ge (16 * Memory.top m)).
  apply eq_None_not_Some. intros [o Ho]. apply top_ge in Ho. pose proof (block_end_after b o). lia.
Qed.
Next Obligation.
  intros m sz. unfold page_addr, page_up. cbv zeta. case_match; [|reflexivity].
  replace (1024 * ((16 * Memory.top m + 1023) / 1024)) with (64 * ((16 * Memory.top m + 1023) / 1024) * 16) by lia. apply Z.mod_mul. lia.
Qed.
Next Obligation.
  intros m sz. unfold page_addr. cbv zeta. pose proof (top_lo m). pose proof (page_up_ge (16 * Memory.top m)).
  case_match eqn:E; [|done]. apply Z.leb_le in E. assert (2 ^ 48 <= M64) by done. lia.
Qed.

(** Memory up to 2{^48}. *)
Definition page_room (k : nat) (m : mem) : Prop := 16 * Memory.top m + 2 * M32 * Z.of_nat (S k) <= 2 ^ 48.

Lemma page_room_step m m' k sz : page_room (S k) m -> 0 < sz <= M32 -> (forall b o, m' !! b = Some o -> m !! b = Some o \/ b + Z.max 1 (osize o) <= page_up (16 * Memory.top m) + sz) ->
  page_addr m sz <> NULL /\ page_room k m'.
Proof.
  unfold page_room, page_addr. unfold M32. intros Hk Hs Hm. pose proof (top_lo m). pose proof (page_up_ge (16 * Memory.top m)).
  change (2 ^ 48) with 281474976710656 in *. cbv zeta.
  replace (_ <=? _) with true by (symmetry; apply Z.leb_le; lia). split; [lia|].
  assert (Memory.top m' <= Memory.top m + 2 * 268435456); [|lia]. apply top_least; [lia|]. intros b o Hb.
  destruct (Hm b o Hb) as [Ho|Ho]; [apply top_ge in Ho; lia|]. pose proof (block_end_after b o). lia.
Qed.

#[export] Program Instance page_pool_room : @MallocRoom page_pool := {| mroom := page_room |}.
Next Obligation. unfold page_room. intros k m l v H. pose proof (top_upd m l v). lia. Qed.
Next Obligation. unfold page_room. intros k m b H. pose proof (top_delete m b). lia. Qed.
Next Obligation. unfold page_room. intros k m b o o' Ho E H. pose proof (top_resize m b o o' Ho E). lia. Qed.
Next Obligation. unfold page_room. intros. unfold M32 in *. lia. Qed.
Next Obligation.
  intros k m o H Ho. simpl in *. destruct (page_room_step m (<[page_addr m (osize o) := o]> m) k (osize o) H Ho) as [H1 H2]; [|done].
  assert (E : page_addr m (osize o) <> NULL -> page_addr m (osize o) = page_up (16 * Memory.top m)) by (unfold page_addr; cbv zeta; by case_match).
  intros b o' [[<- <-]|[_ ?]]%lookup_insert_Some; [right|by left]. unfold page_addr. cbv zeta. case_match; [lia|].
  pose proof (page_up_ge (16 * Memory.top m)). pose proof (top_lo m). lia.
Qed.
Next Obligation.
  intros k m n sz H Hs Hn. simpl in *. apply page_room_step; [done|done|]. intros b o Hb.
  apply put_array_inv in Hb as [Hb|(-> & i & Hi & ->)]; [by left|right|done]. simpl. unfold page_addr. cbv zeta.
  pose proof (page_up_ge (16 * Memory.top m)). pose proof (top_lo m). case_match; nia.
Qed.

#[export] Instance page_pool_laws : @PagePool page_pool.
Proof.
  split; unfold malloc_addr; simpl; unfold page_addr; cbv zeta; intros m sz.
  - intros _. case_match; [|done]. unfold page_up. change POOL_ALIGN with 1024. rewrite Z.mul_comm. by apply Z.mod_mul.
  - case_match eqn:E; [|done]. apply Z.leb_le in E. lia.
  - intros b o Hne Ho. right. apply page_after in Ho. by case_match.
Qed.

(** ** A run *)
Module heap_demo.
Definition ROOT : Z := 16.
Definition INITIALGC : Z := 32.
Definition HEAP : Z := 64.

(** The static variables, with a threshold of 1 kB, and an actor's heap. *)
Definition m0 : mem := {[ ROOT := Obj 8 {[ 0 := 0 ]}; INITIALGC := Obj 8 {[ 0 := 1024 ]}; HEAP := Obj 104 ∅ ]}.

Definition ops : list heap_op :=
  [HAlloc 100; HFree (0%nat, 0); HAlloc 2000; HRealloc (2%nat, 0) 3000; HSize (3%nat, 7); HUse 50; HCollect [(true, (3%nat, 5))]; HAlloc 7].

Lemma start : heap_start ROOT INITIALGC HEAP m0 ∅ 1024.
Proof.
  split; [split; [done|by exists (Obj 104 ∅)]|done| |done| |].
  - split; [split; [done|by exists (Obj 8 {[ 0 := 0 ]})]|done|..]; intros *; by rewrite lookup_empty.
  - intros b o b' o' Hb Hb' Hne. unfold m0 in Hb, Hb'.
    repeat (apply lookup_insert_Some in Hb as [[<- <-]|[_ Hb]] || apply lookup_singleton_Some in Hb as [<- <-]);
      repeat (apply lookup_insert_Some in Hb' as [[<- <-]|[_ Hb']] || apply lookup_singleton_Some in Hb' as [<- <-]); try done;
      unfold apart, ROOT, INITIALGC, HEAP; simpl; lia.
  - split_and!; [done|..]; intros [?|(p & Hp & _)]; done.
Qed.

Lemma room : mroom (MallocRoom := page_pool_room) (sum_list (op_room <$> ops)) m0.
Proof. apply Z.leb_le. by vm_compute. Qed.

(** The operations are given sensible arguments whatever the addresses are. *)
Lemma safe_ops : safe (fun u => 2 * u) [] {| hs_objs := []; hs_used := 0; hs_next := 1024 |} ops.
Proof.
  unfold ops. split; [simpl; unfold M32; change POOL_ALIGN with 1024; lia|]. intros p0 s1 Hs. inversion Hs; subst; clear Hs.
  change (alloc_size 100) with 128 in *. simpl app.
  split; [exists (p0, 128); split_and!; [left|apply inside_spec; unfold deref; simpl; lia|done]|]. intros r1 s2 Hs.
  assert (exists O, s2 = {| hs_objs := O; hs_used := 128; hs_next := 1024 |} /\ r1 = 0 /\ O = []) as (O & -> & -> & ->).
  { inversion Hs as [| | |O' O1 u n r e Hperm He|O' u n r e He Hin| | | | | |]; subst.
    - eexists. split_and!; [reflexivity|done|]. by apply Permutation_length in Hperm; destruct O1.
    - apply list_elem_of_singleton in He as ->. unfold deref in Hin. simpl in Hin. lia. }
  clear Hs. split; [simpl; unfold M32; change POOL_ALIGN with 1024; lia|]. intros p2 s3 Hs. inversion Hs; subst; clear Hs.
  change (alloc_size 2000) with 2048 in *. simpl app.
  split; [split; [unfold M32; change POOL_ALIGN with 1024; lia|right; split; [lia|exists (p2, 2048); split; [left|unfold deref; simpl; lia]]]|].
  intros p3 s4 Hs. assert (exists u, s4 = {| hs_objs := [(p3, 3072); (p2, 2048)]; hs_used := u; hs_next := 1024 |}) as (u & ->).
  { inversion Hs as [| | | | |s1 s1' r size e p He Er Hlt Hst|s1 r size e He Er Hle|s1 s1' r size p En Hst| | |]; subst.
    - inversion Hst; subst. by eexists.
    - apply list_elem_of_singleton in He as ->. simpl in Hle. lia.
    - unfold deref in En. simpl in En. lia. }
  clear Hs. simpl app.
  assert (Hp : forall k, 0 <= k < 3072 -> into [(p3, 3072); (p2, 2048)] (p3 + k) = true).
  { intros k Hk. apply into_spec. exists (p3, 3072). split; [left|apply inside_spec; simpl; lia]. }
  split; [apply (Hp 7); lia|]. intros r4 s5 Hs. inversion Hs; subst; clear Hs. simpl app.
  split; [done|]. intros r5 s6 Hs. inversion Hs; subst; clear Hs. simpl app.
  split; [intros x ->%list_elem_of_singleton; apply (Hp 5); lia|]. intros r6 s7 Hs.
  split; [|done]. simpl. unfold M32. change POOL_ALIGN with 1024. lia.
Qed.
End heap_demo.

Lemma heap_refines_objects_witness : heap_start heap_demo.ROOT heap_demo.INITIALGC heap_demo.HEAP heap_demo.m0 ∅ 1024 /\
  tot (heap_init heap_demo.INITIALGC heap_demo.HEAP ;; run_ops heap_demo.ROOT heap_demo.INITIALGC heap_demo.HEAP 0 (fun u => 2 * u) 100 [] heap_demo.ops)
    heap_demo.m0 (fun rs m' => exists s, hsteps (fun u => 2 * u) [] {| hs_objs := []; hs_used := 0; hs_next := 1024 |} heap_demo.ops rs s /\
      get m' (heap_demo.HEAP, H_USED) = Some (hs_used s) /\ get m' (heap_demo.HEAP, H_NEXT_GC) = Some (hs_next s) /\
      heap_rel heap_demo.ROOT heap_demo.INITIALGC heap_demo.HEAP 100 0 0 m' s).
Proof.
  split; [exact heap_demo.start|].
  apply (heap_refines_objects (HPP := page_pool_laws) (HR := page_pool_room) heap_demo.ROOT heap_demo.INITIALGC heap_demo.HEAP 0 (fun u => 2 * u) 100 heap_demo.ops heap_demo.m0 ∅ 1024
    heap_demo.start heap_demo.safe_ops heap_demo.room). apply Nat.ltb_lt. by vm_compute.
Defined.

Lemma heap_destroy_clears_witness : heap_start heap_demo.ROOT heap_demo.INITIALGC heap_demo.HEAP heap_demo.m0 ∅ 1024 /\
  tot (heap_init heap_demo.INITIALGC heap_demo.HEAP ;;
       _ <- run_ops heap_demo.ROOT heap_demo.INITIALGC heap_demo.HEAP 0 (fun u => 2 * u) 100 [] heap_demo.ops ;;
       heap_destroy heap_demo.ROOT 100 heap_demo.HEAP) heap_demo.m0
    (fun _ m' => forall a, 0 <= a -> tot (pagemap_get heap_demo.ROOT a) m' (fun r _ => r = NULL)).
Proof.
  split; [exact heap_demo.start|].
  apply (heap_destroy_clears (HPP := page_pool_laws) (HR := page_pool_room) heap_demo.ROOT heap_demo.INITIALGC heap_demo.HEAP 0 (fun u => 2 * u) 100 heap_demo.ops heap_demo.m0 ∅ 1024
    heap_demo.start heap_demo.safe_ops heap_demo.room). apply Nat.ltb_lt. by vm_compute.
Defined.

(** ** A large object that is freed by itself

    [heap_free] gives the block of a large object to the pool and clears the
    chunk's pointer to it; when the chunk is swept, [destroy_large] clears the
    page map for a block at address 0, and frees the chunk. *)
Definition free_large (size : Z) : prog mem (Z * Z * Z) :=
  heap_init heap_demo.INITIALGC heap_demo.HEAP ;;
  p <- heap_alloc heap_demo.ROOT 10 0 heap_demo.HEAP size ;;
  chunk <- pagemap_get heap_demo.ROOT p ;;
  heap_free chunk p ;;
  b <- heap_startgc 10 heap_demo.HEAP ;;
  (if b : bool then heap_endgc heap_demo.ROOT heap_demo.INITIALGC (fun u => 2 * u) 10 heap_demo.HEAP else Ret tt) ;;
  c <- pagemap_get heap_demo.ROOT p ;;
  Ret (p, chunk, c).

Definition dangling (r : outcome (Z * Z * Z * mem)) : bool :=
  match r with
  | Ok ((p, chunk, c), m) => (c =? chunk) && negb (chunk =? 0) && bool_decide (m !! chunk = None) && bool_decide (m !! p = None)
  | Err _ => false
  end.

(** C36: A large object freed with [heap_free] keeps its page in the page map: after
    the next collection the object and its chunk are given back to the pools, and
    [pagemap_get] of the object still returns the chunk. *)
Theorem large_free_dangles : exists p chunk m, run (free_large 2000) heap_demo.m0 = Ok ((p, chunk, chunk), m) /\
  chunk <> NULL /\ m !! chunk = None /\ m !! p = None.
Proof.
  assert (H : dangling (run (free_large 2000) heap_demo.m0) = true) by (by vm_compute).
  destruct (run (free_large 2000) heap_demo.m0) as [[[[p chunk] c] m]|e]; [|done]. simpl in H.
  apply andb_prop in H as [[[->%Z.eqb_eq H2]%andb_prop H3%bool_decide_eq_true]%andb_prop H4%bool_decide_eq_true].
  exists p, chunk, m. split_and!; try done. by apply Z.eqb_neq, negb_true_iff.
Qed.

(** ** Reallocation to no bytes *)
Definition realloc_zero (size : Z) : prog mem Z :=
  heap_init heap_demo.INITIALGC heap_demo.HEAP ;;
  p <- heap_alloc heap_demo.ROOT 10 0 heap_demo.HEAP size ;;
  heap_realloc heap_demo.ROOT 10 0 heap_demo.HEAP p 0.

(** [heap_realloc] of a small object to 0 bytes looks up the size class of 0 bytes,
    which [heap_alloc] does not, and reads outside [sizeclass_table]. *)
Lemma realloc_zero_fails : run (realloc_zero 100) heap_demo.m0 = Err EAccess.
Proof. by vm_compute. Qed.
